(* ===== verification/_CoqProject ===== *)
-Q . S2P
Prelude.v
Encoding.v
Codec.v
Float64.v
Schema.v
Writer.v
Reader.v
Volume.v
Verify.v
Ast.v
Lexer.v
Strconv.v
Parser.v
Format.v
Batch.v
Scratch.v
Scan.v
VExpr.v
VKernel.v
VCase.v
VExprSpec.v
LiteralCache.v
Operator.v
RowOps.v
Distinct.v
Sorting.v
Emit.v
Sort.v
Pipeline.v
Aggregate.v
AggSpec.v
AggKeys.v
AggInt.v
AggPath.v
AggConsume.v
AggValue.v
AggOut.v
AggRun.v
RowStore.v
JoinTable.v
Join.v
Pool.v
Morsel.v
SharedJoin.v
ExprWalk.v
Coerce.v
ExecExpr.v
BuildType.v
FloatInt.v
ZonePred.v
Logical.v
PlanRows.v
Physical.v
PlanScan.v
PlanAnswer.v
Optimizer.v
Prune.v
PruneScan.v
PrunePlan.v
PruneAnswer.v
OptimizeAnswer.v
Catalog.v
Build.v
BuildNames.v
BuildTables.v
ParseGiven.v
BuildQuery.v
BuildFinish.v
BuildPlan.v
Query.v
BuildWhere.v
BuildErrors.v
AggMerge.v
AggParts.v
ParallelAgg.v
