(* ===== verification/Prelude.v ===== *)
(** * vexq: verification library

    vexq is an embedded columnar SQL engine in Go.  A table is one [.vxq] file;
    a query is parsed, planned and run as a tree of operators that pass batches
    of columns.  This library models the program from the bytes of the file to
    the rows of a query, package by package, and proves the parts against the
    meaning of the whole.

    ** Parts, and how they meet

    Storage (src/storage, src/internal/encoding).  [Encoding] is the byte and
    CRC layer; [Codec] the null bitmaps, dictionaries and boolean runs; [Schema]
    the types and the footer's records; [Writer] the session
    BeginRowGroup / AppendColumn / EndRowGroup / Finish; [Reader] the footer
    parser and the column readers with their windows and buffer pools; [Verify]
    the recomputation of zone maps; [Volume] joins the two sides: a writer
    session refines an abstract session that only remembers row groups, and what
    a reader serves from the file is that session.  [Float64] is binary64.

    SQL (src/sql).  [Lexer], [Ast], [Parser], [Format], with the conversions of
    the standard library they use in [Strconv].

    Execution (src/exec).  [Batch] and [Scratch] are the column vectors and the
    buffers that are reused under them; [Scan] the table scan over a reader.
    [VExpr] is expression evaluation a batch at a time, [VKernel], [VCase] and
    [VExprSpec] relate it to [row_eval], SQL's meaning of an expression on one
    row; [LiteralCache] is the cached vector of a literal.  [Operator] is the
    interface between operators, as a class, and the relation [runs] that says
    which batches an operator delivers and how it stops; every operator's theorem
    is "from what the child delivers, what this delivers", so plans compose.
    [RowOps] is Filter, Project and Limit, [Distinct] is Distinct, [Sorting] and
    [Sort] are ExternalSort, [Emit] the output columns that Sort, aggregation and
    joins build row by row.  [Pipeline] makes the scan an operator and composes a
    plan over a file.  Aggregation is [Aggregate] (the operator as written, with
    its string-keyed map, its packed integer keys and its column-at-a-time loops),
    [AggSpec] to [AggConsume] (which groups each path holds), [AggValue] (what an
    aggregate means), [AggOut] and [AggRun] (what is emitted).

    ** Models

    A function that returns an error or can panic is in the outcome monad [go]
    below.  An object that is mutated is passed and returned.  Machine integers
    are [Z] with the wrap written where the code can wrap; a float64 is its bit
    pattern.  A slice is a list, and carries its capacity ([Scratch.slc]) where
    the code's behaviour depends on what lies beyond its length.  A Go map whose
    iteration order the code does not read is a [gmap].

    Loops whose length the code does not know take fuel; [OutOfFuel] is then not
    a Go outcome, and each such loop has a theorem that says how much fuel
    reaches a result: the lexer's and parser's the length of the input, block
    reads the rows left, operators "some fuel, and any greater gives the same"
    ([Operator.next_is]).

    ** Theorems

    - Round trips and refinement: [Volume.write_then_read],
      [Volume.session_refines], [Scan.scan_returns_table],
      [Pipeline.query_over_file]; [Codec.dictionary_roundtrip],
      [Codec.RLE_roundtrip].
    - Corruption and malformed input: [Encoding.checksum_detects_corruption],
      [Volume.corruption_detected], [Reader.readFooter_safe],
      [Reader.readBlocks_terminates], [Writer.Finish_atomic].
    - Zone maps, on which pruning relies: [Volume.zone_maps_sound],
      [Verify.verify_accepts_written], [Verify.verify_int64_sound].
    - Reused memory: [Reader.pools_serve], [Scratch.acquire_fresh],
      [Scratch.copyVector_cells], [LiteralCache.literal_cache_fresh],
      [Scan.Reset_restarts].
    - Expressions: [VExprSpec.Eval_rowwise]; [LiteralCache.likeMatch_decides].
    - Operators, as functions on rows: [RowOps.filter_rows],
      [RowOps.project_rows], [RowOps.limit_rows], [Distinct.distinct_rows],
      [Sort.sort_rows], [AggRun.agg_rows]; the optimised aggregation loops against
      the row loop in [AggSpec.column_loops_equal_row_loop].
    - Termination of the front end: [Lexer.lex_terminates],
      [Parser.parse_terminates].

    ** Not modelled

    Statistics counters, and a dictionary's memo where only its speed matters;
    write errors inside the writer's session, which panic in the source; the text
    of errors that no caller reads; contexts and cancellation; closing files.
    Catalog, command line tools and test support are input and output around
    the modelled parts.

    The rest of this file is what every part shares: outcomes, integers at their
    width, slices and loops. *)
From Stdlib Require Import ZArith Lia ZifyNat.
From stdpp Require Import base numbers list strings gmap.
#[local] Open Scope Z_scope.

(** ** Outcomes of Go code

    A Go function either returns a value, returns a non-nil [error], or panics
    (an index out of range, an explicit [panic]).  [OutOfFuel] is not a Go
    outcome: it marks a [for] loop of unknown length that was given too little
    fuel, and the termination theorems show that it is never reached.  The sentinel errors that the
    code compares with [errors.Is] are constructors; every other error is a
    message. *)

Inductive error : Type :=
  | ErrChecksum | ErrCorruptFooter | ErrBadMagic | ErrTypeMismatch
  | ErrColumnComplete | ErrRowGroupOpen | ErrMissingColumns
  | ErrUnexpectedEOF | EOF
  | ErrMsg (what : string).

#[export] Instance error_eq_dec : EqDecision error.
Proof. solve_decision. Defined.

Inductive go (A : Type) : Type :=
  | Ret (a : A)
  | Err (e : error)
  | Panic
  | OutOfFuel.
Arguments Ret {A} a.
Arguments Err {A} e.
Arguments Panic {A}.
Arguments OutOfFuel {A}.

#[export] Instance go_ret : MRet go := fun A a => Ret a.
#[export] Instance go_bind : MBind go := fun A B f m =>
  match m with
  | Ret a => f a | Err e => Err e | Panic => Panic | OutOfFuel => OutOfFuel end.
#[export] Instance go_fmap : FMap go := fun A B f m =>
  match m with
  | Ret a => Ret (f a) | Err e => Err e | Panic => Panic | OutOfFuel => OutOfFuel end.

#[export] Instance go_eq_dec `{EqDecision A} : EqDecision (go A).
Proof. solve_decision. Defined.

Lemma go_bind_ret_l {A B} (a : A) (f : A → go B) : (Ret a ≫= f) = f a.
Proof. done. Qed.
Lemma go_bind_ret_r {A} (m : go A) : (m ≫= Ret) = m.
Proof. by destruct m. Qed.
Lemma go_bind_assoc {A B C} (m : go A) (f : A → go B) (g : B → go C) :
  ((m ≫= f) ≫= g) = (m ≫= λ a, f a ≫= g).
Proof. by destruct m. Qed.
Lemma go_bind_Ret_inv {A B} (m : go A) (f : A → go B) b :
  (m ≫= f) = Ret b → ∃ a, m = Ret a ∧ f a = Ret b.
Proof. destruct m; naive_solver. Qed.

(** A slice read: Go panics when the index is out of range. *)
Definition index {A} (l : list A) (i : nat) : go A :=
  match l !! i with Some a => Ret a | None => Panic end.
(** A slice write [l[i] = x]. *)
Definition store {A} (l : list A) (i : nat) (x : A) : go (list A) :=
  if decide (i < length l)%nat then Ret (<[i := x]> l) else Panic.
(** A slice expression [l[lo:hi]] on a slice whose capacity is its length. *)
Definition slice {A} (l : list A) (lo hi : nat) : go (list A) :=
  if decide (lo ≤ hi ∧ hi ≤ length l)%nat then Ret (take (hi - lo) (drop lo l)) else Panic.

(** A [for] loop that threads a state through a list of iterations. *)
Fixpoint foldM {S A} (f : S → A → go S) (s : S) (l : list A) : go S :=
  match l with
  | [] => Ret s
  | a :: l => s' ← f s a; foldM f s' l
  end.

Lemma index_Ret {A} (l : list A) i a : l !! i = Some a → index l i = Ret a.
Proof. unfold index. by intros ->. Qed.
Lemma index_inv {A} (l : list A) i a : index l i = Ret a → l !! i = Some a.
Proof. unfold index. destruct (l !! i); congruence. Qed.
Lemma store_Ret {A} (l : list A) i x : (i < length l)%nat → store l i x = Ret (<[i:=x]> l).
Proof. intros. unfold store. by rewrite decide_True. Qed.
Lemma slice_Ret {A} (l : list A) lo hi :
  (lo ≤ hi)%nat → (hi ≤ length l)%nat → slice l lo hi = Ret (take (hi - lo) (drop lo l)).
Proof. intros. unfold slice. by rewrite decide_True. Qed.

Lemma foldM_app {S A} (f : S → A → go S) s l1 l2 :
  foldM f s (l1 ++ l2) = (s' ← foldM f s l1; foldM f s' l2).
Proof.
  revert s. induction l1 as [|a l1 IH]; intros s; [done|]; simpl.
  destruct (f s a); simpl; auto.
Qed.

(** A loop whose body never fails is the pure fold. *)
Lemma foldM_pure {S A} (f : S → A → go S) (g : S → A → S) (I : S → Prop) s l :
  I s →
  (∀ s a, I s → a ∈ l → f s a = Ret (g s a) ∧ I (g s a)) →
  foldM f s l = Ret (foldl g s l) ∧ I (foldl g s l).
Proof.
  revert s. induction l as [|a l IH]; intros s Hs Hf; [done|].
  destruct (Hf s a) as [E Ha]; [done|by left|].
  cbn [foldM foldl]. rewrite E. simpl. apply IH; [done|].
  intros s' a' ? ?. apply Hf; [done|by right].
Qed.

(** Code that neither panics nor runs out of fuel. *)
Definition safe {A} (m : go A) : Prop := match m with Ret _ | Err _ => True | _ => False end.
Definition safe_post {A} (P : A → Prop) (m : go A) : Prop :=
  match m with Ret a => P a | Err _ => True | _ => False end.
Lemma safe_post_safe {A} (P : A → Prop) m : safe_post P m → safe m.
Proof. by destruct m. Qed.
Lemma safe_post_bind {A B} (P : A → Prop) (Q : B → Prop) (m : go A) (f : A → go B) :
  safe_post P m → (∀ a, P a → safe_post Q (f a)) → safe_post Q (m ≫= f).
Proof. destruct m; simpl; auto. Qed.
Lemma safe_post_foldM {S A} (I : S → Prop) (f : S → A → go S) s l :
  I s → (∀ s a, I s → safe_post I (f s a)) → safe_post I (foldM f s l).
Proof.
  intros Hs Hf. revert s Hs. induction l as [|a l IH]; intros s Hs; [done|]. cbn [foldM].
  eapply safe_post_bind; [by apply Hf|auto].
Qed.
Lemma safe_post_impl {A} (P Q : A → Prop) m : safe_post P m → (∀ a, P a → Q a) → safe_post Q m.
Proof. destruct m; simpl; auto. Qed.
Lemma safe_index {A} (l : list A) i :
  (i < length l)%nat → safe_post (λ a, l !! i = Some a) (index l i).
Proof. intros [a Ha]%lookup_lt_is_Some. by rewrite (index_Ret _ _ _ Ha). Qed.
Lemma safe_slice {A} (l : list A) lo hi :
  (lo ≤ hi)%nat → (hi ≤ length l)%nat → safe_post (λ b, length b = (hi - lo)%nat) (slice l lo hi).
Proof. intros. rewrite slice_Ret by done. simpl. rewrite length_take, length_drop. lia. Qed.

(** ** Machine integers

    A [w]-bit integer is the [Z] it denotes; conversions wrap. *)

Definition wrapU (w z : Z) : Z := z mod 2 ^ w.
Definition wrapS (w z : Z) : Z := (z + 2 ^ (w - 1)) mod 2 ^ w - 2 ^ (w - 1).
Abbreviation to_u8 := (wrapU 8).
Abbreviation to_u16 := (wrapU 16).
Abbreviation to_u32 := (wrapU 32).
Abbreviation to_u64 := (wrapU 64).
Abbreviation to_i32 := (wrapS 32).
Abbreviation to_i64 := (wrapS 64).

Definition inU (w z : Z) : Prop := 0 ≤ z < 2 ^ w.
Definition inS (w z : Z) : Prop := - 2 ^ (w - 1) ≤ z < 2 ^ (w - 1).
Abbreviation is_byte := (inU 8).

#[export] Instance inU_dec w z : Decision (inU w z).
Proof. unfold inU. apply _. Defined.
#[export] Instance inS_dec w z : Decision (inS w z).
Proof. unfold inS. apply _. Defined.

Lemma wrapU_in w z : 0 ≤ w → inU w (wrapU w z).
Proof. intros. apply Z.mod_pos_bound. by apply Z.pow_pos_nonneg. Qed.
Lemma wrapU_id w z : inU w z → wrapU w z = z.
Proof. apply Z.mod_small. Qed.
Lemma pow_pred_double w : 0 < w → 2 ^ w = 2 * 2 ^ (w - 1).
Proof. intros. rewrite <- Z.pow_succ_r by lia. f_equal. lia. Qed.
Lemma wrapS_in w z : 0 < w → inS w (wrapS w z).
Proof.
  intros Hw. unfold inS, wrapS. pose proof (pow_pred_double w Hw).
  pose proof (Z.mod_pos_bound (z + 2 ^ (w - 1)) (2 ^ w)) as B.
  assert (0 < 2 ^ w) by (apply Z.pow_pos_nonneg; lia). lia.
Qed.
Lemma wrapS_id w z : 0 < w → inS w z → wrapS w z = z.
Proof.
  intros Hw [? ?]. unfold wrapS. pose proof (pow_pred_double w Hw).
  rewrite Z.mod_small; lia.
Qed.
(** Reading an unsigned image back as signed: the Go idiom [int64(uint64(v))]. *)
Lemma wrapS_wrapU w z : 0 < w → inS w z → wrapS w (wrapU w z) = z.
Proof.
  intros Hw Hz. rewrite <- (wrapS_id w z) at 2 by done. unfold wrapS, wrapU.
  assert (0 < 2 ^ w) by (apply Z.pow_pos_nonneg; lia).
  by rewrite Zplus_mod_idemp_l.
Qed.
Lemma wrapU_wrapS w z : 0 < w → inU w z → wrapU w (wrapS w z) = z.
Proof.
  intros Hw Hz. unfold wrapS, wrapU.
  assert (0 < 2 ^ w) by (apply Z.pow_pos_nonneg; lia).
  rewrite Zminus_mod_idemp_l. replace (z + _ - _) with z by lia. by apply Z.mod_small.
Qed.
Lemma is_byte_bound z : is_byte z → 0 ≤ z < 256.
Proof. done. Qed.

(** ** Slices and strings *)

(** [for i, x := range l]. *)
Definition enum {A} (l : list A) : list (nat * A) := zip (seq 0 (length l)) l.

(** A Go string is a byte sequence. *)
Definition byte_of_ascii (a : Ascii.ascii) : Z := Z.of_N (Ascii.N_of_ascii a).
Definition ascii_of_byte (b : Z) : Ascii.ascii := Ascii.ascii_of_N (Z.to_N b).
Definition bytes_of (s : string) : list Z := byte_of_ascii <$> String.list_ascii_of_string s.
Definition string_of (b : list Z) : string := String.string_of_list_ascii (ascii_of_byte <$> b).
Definition strlen (s : string) : nat := length (bytes_of s).

Lemma byte_of_ascii_ok a : is_byte (byte_of_ascii a).
Proof.
  unfold byte_of_ascii. pose proof (Ascii.N_ascii_bounded a). split; [lia|].
  change (2 ^ 8) with 256. lia.
Qed.
Lemma ascii_of_byte_of_ascii a : ascii_of_byte (byte_of_ascii a) = a.
Proof. unfold ascii_of_byte, byte_of_ascii. by rewrite N2Z.id, Ascii.ascii_N_embedding. Qed.
Lemma byte_of_ascii_of_byte b : is_byte b → byte_of_ascii (ascii_of_byte b) = b.
Proof.
  intros Hb%is_byte_bound. unfold ascii_of_byte, byte_of_ascii.
  rewrite Ascii.N_ascii_embedding by lia. lia.
Qed.
Lemma string_of_bytes_of s : string_of (bytes_of s) = s.
Proof.
  unfold string_of, bytes_of. rewrite <- list_fmap_compose.
  rewrite (list_fmap_ext _ id), list_fmap_id; [apply String.string_of_list_ascii_of_string|].
  intros. apply ascii_of_byte_of_ascii.
Qed.
Lemma bytes_of_string_of b : Forall is_byte b → bytes_of (string_of b) = b.
Proof.
  intros Hb. unfold string_of, bytes_of. rewrite String.list_ascii_of_string_of_list_ascii.
  induction Hb; simpl; [done|]. f_equal; [by apply byte_of_ascii_of_byte|done].
Qed.
Lemma bytes_of_ok s : Forall is_byte (bytes_of s).
Proof. unfold bytes_of. apply Forall_fmap, Forall_true. intros. apply byte_of_ascii_ok. Qed.
Lemma bytes_of_inj s t : bytes_of s = bytes_of t → s = t.
Proof. intros E. by rewrite <- (string_of_bytes_of s), E, string_of_bytes_of. Qed.

Lemma lookup_replicate_ge {A} n (x : A) i : (n ≤ i)%nat → replicate n x !! i = None.
Proof. intros. apply lookup_ge_None. by rewrite length_replicate. Qed.

(** ** Loop rules: a counted loop preserves an indexed invariant *)

Lemma foldM_list_ind {S A} (f : S → A → go S) (P : nat → S → Prop) l s0 :
  P 0%nat s0 →
  (∀ k a s, l !! k = Some a → P k s → ∃ s', f s a = Ret s' ∧ P (Datatypes.S k) s') →
  ∃ s, foldM f s0 l = Ret s ∧ P (length l) s.
Proof.
  intros H0 Hstep. cut (∀ m k s, k + length m = length l → drop k l = m → P k s →
    ∃ s', foldM f s m = Ret s' ∧ P (length l) s')%nat.
  { intros C. apply (C l 0%nat); auto. }
  induction m as [|a m IH]; intros k s Hk Hd Hs; simpl in *.
  - exists s. split; [done|]. by replace (length l) with k by lia.
  - destruct (Hstep k a s) as (s' & E & Hs'); [|done|].
    { rewrite <- (Nat.add_0_r k), <- lookup_drop, Hd. done. }
    rewrite E. simpl. apply (IH (Datatypes.S k)); [lia| |done].
    rewrite <- Nat.add_1_r, <- drop_drop, Hd. done.
Qed.

Lemma foldM_seq_ind {S} (f : S → nat → go S) (P : nat → S → Prop) n s0 :
  P 0%nat s0 →
  (∀ k s, (k < n)%nat → P k s → ∃ s', f s k = Ret s' ∧ P (Datatypes.S k) s') →
  ∃ s, foldM f s0 (seq 0 n) = Ret s ∧ P n s.
Proof.
  intros H0 Hstep. destruct (foldM_list_ind f P (seq 0 n) s0) as (s & E & Hs); [done| |].
  - intros k a s [-> ?]%lookup_seq. by apply Hstep.
  - rewrite length_seq in Hs. eauto.
Qed.

Lemma length_enum {A} (l : list A) : length (enum l) = length l.
Proof. unfold enum. rewrite length_zip_with, length_seq. lia. Qed.

Lemma lookup_enum {A} (l : list A) k p :
  enum l !! k = Some p ↔ p.1 = k ∧ l !! k = Some p.2.
Proof.
  unfold enum. rewrite lookup_zip_with_Some. destruct p as [i a]. split.
  - intros (x & y & [= -> ->] & [-> _]%lookup_seq & Hl). done.
  - simpl. intros [-> Hl]. exists k, a. split_and!; [done| |done].
    apply lookup_seq. split; [done|]. by eapply lookup_lt_Some.
Qed.

Lemma foldM_enum_ind {S A} (f : S → nat * A → go S) (P : nat → S → Prop) l s0 :
  P 0%nat s0 →
  (∀ k a s, l !! k = Some a → P k s → ∃ s', f s (k, a) = Ret s' ∧ P (Datatypes.S k) s') →
  ∃ s, foldM f s0 (enum l) = Ret s ∧ P (length l) s.
Proof.
  intros H0 Hstep. destruct (foldM_list_ind f P (enum l) s0) as (s & E & Hs); [done| |].
  - intros k [i a] s [Hi Ha]%lookup_enum. simpl in *. subst. by apply Hstep.
  - rewrite length_enum in Hs. eauto.
Qed.

Lemma lookup_snoc_last {A} (l : list A) x : (l ++ [x]) !! length l = Some x.
Proof. apply lookup_snoc_Some. by right. Qed.

Lemma foldM_Ret {S A} (f : S → A → S) s l : foldM (λ s a, Ret (f s a)) s l = Ret (foldl f s l).
Proof. revert s. induction l; intros s; simpl; auto. Qed.

Lemma foldl_seq_ind {S} (f : S → nat → S) (P : nat → S → Prop) n s0 :
  P 0%nat s0 → (∀ k s, (k < n)%nat → P k s → P (Datatypes.S k) (f s k)) →
  P n (foldl f s0 (seq 0 n)).
Proof.
  intros H0 Hstep. destruct (foldM_seq_ind (λ s k, Ret (f s k)) P n s0) as (s & E & Hs); [done| |].
  - eauto.
  - rewrite foldM_Ret in E. by injection E as ->.
Qed.

Lemma index_app_hd {A} (x : A) l : index ([x] ++ l) 0 = Ret x.
Proof. done. Qed.
Lemma drop_app_hd {A} (x : A) l : drop 1 ([x] ++ l) = l.
Proof. apply drop_0. Qed.
