(* ===== verification/Encoding.v ===== *)
(** * Package internal/encoding

    Little-endian primitives ([internal/encoding/binary.go]) and the trailing
    CRC32-IEEE checksum ([internal/encoding/crc.go]).  A byte is a [Z] in
    [0, 256); a byte slice is a list of them.  [encoding/binary] and
    [hash/crc32] are Go's standard library: [AppendUint32] and friends append
    the bytes of the two's-complement image, least significant first, and the
    CRC is the reflected polynomial 0xEDB88320 with initial value and final
    xor 0xFFFFFFFF. *)
From Stdlib Require Import ZArith Lia.
From stdpp Require Import base numbers list strings.
From S2P Require Import Prelude.
#[local] Open Scope Z_scope.

(** ** binary.go *)

(** The [n] low-order bytes of [v], least significant first. *)
Fixpoint le_bytes (n : nat) (v : Z) : list Z :=
  match n with O => [] | S n => v mod 256 :: le_bytes n (v / 256) end.
Fixpoint le_val (b : list Z) : Z :=
  match b with [] => 0 | x :: b => x + 256 * le_val b end.

Definition AppendUint16 (b : list Z) (v : Z) : list Z := b ++ le_bytes 2 v.
Definition AppendUint32 (b : list Z) (v : Z) : list Z := b ++ le_bytes 4 v.
Definition AppendInt32 (b : list Z) (v : Z) : list Z := b ++ le_bytes 4 (to_u32 v).
Definition AppendUint64 (b : list Z) (v : Z) : list Z := b ++ le_bytes 8 v.
Definition AppendInt64 (b : list Z) (v : Z) : list Z := b ++ le_bytes 8 (to_u64 v).
(** A [float64] is modelled by its IEEE bit pattern (see Float64.v). *)
Definition AppendFloat64 (b : list Z) (v : Z) : list Z := b ++ le_bytes 8 v.
Definition AppendBytes (b v : list Z) : list Z := b ++ v.

(** [binary.LittleEndian.UintN(b)]: panics on a short slice. *)
Definition LE_Uint (n : nat) (b : list Z) : go Z :=
  if decide (n ≤ length b)%nat then Ret (le_val (take n b)) else Panic.
Definition Read_Uint (n : nat) (b : list Z) : go (Z * list Z) :=
  v ← LE_Uint n b; Ret (v, drop n b).

Definition ReadUint16 (b : list Z) : go (Z * list Z) := Read_Uint 2 b.
Definition ReadUint32 (b : list Z) : go (Z * list Z) := Read_Uint 4 b.
Definition ReadInt32 (b : list Z) : go (Z * list Z) :=
  '(v, r) ← Read_Uint 4 b; Ret (to_i32 v, r).
Definition ReadUint64 (b : list Z) : go (Z * list Z) := Read_Uint 8 b.
Definition ReadInt64 (b : list Z) : go (Z * list Z) :=
  '(v, r) ← Read_Uint 8 b; Ret (to_i64 v, r).
Definition ReadFloat64 (b : list Z) : go (Z * list Z) := Read_Uint 8 b.
Definition GetUint32 (b : list Z) : go Z := LE_Uint 4 b.
Definition GetUint64 (b : list Z) : go Z := LE_Uint 8 b.
Definition GetInt64 (b : list Z) : go Z := v ← LE_Uint 8 b; Ret (to_i64 v).

(** [PutUintN(b, v)] overwrites the first bytes of [b] in place. *)
Definition Put_Uint (n : nat) (b : list Z) (v : Z) : go (list Z) :=
  if decide (n ≤ length b)%nat then Ret (le_bytes n v ++ drop n b) else Panic.
Definition PutUint32 (b : list Z) (v : Z) : go (list Z) := Put_Uint 4 b v.
Definition PutUint64 (b : list Z) (v : Z) : go (list Z) := Put_Uint 8 b v.
Definition PutInt64 (b : list Z) (v : Z) : go (list Z) := Put_Uint 8 b (to_u64 v).

(** ** crc.go *)

Definition crc_poly : Z := 0xEDB88320.
Definition crc_bit (c : Z) : Z :=
  if Z.testbit c 0 then Z.lxor (Z.shiftr c 1) crc_poly else Z.shiftr c 1.
Definition crc_byte (c b : Z) : Z := Nat.iter 8 crc_bit (Z.lxor c b).
Definition ChecksumIEEE (b : list Z) : Z :=
  Z.lxor (foldl crc_byte 0xFFFFFFFF b) 0xFFFFFFFF.
Definition AppendChecksum (b : list Z) : list Z := AppendUint32 b (ChecksumIEEE b).
Definition VerifyTrailing (b : list Z) : go (list Z) :=
  if decide (length b < 4)%nat then Err ErrChecksum else
  let payload := take (length b - 4) b in
  want ← LE_Uint 4 (drop (length b - 4) b);
  if decide (ChecksumIEEE payload = want) then Ret payload else Err ErrChecksum.

(** The check value of the CRC-32 catalogue: the CRC of "123456789". *)
Example crc_check_value :
  ChecksumIEEE [49;50;51;52;53;54;55;56;57] = 0xCBF43926.
Proof. reflexivity. Qed.
Example crc_empty : ChecksumIEEE [] = 0.
Proof. reflexivity. Qed.

(** ** Lemmas: little-endian round trips *)

Definition bytes_ok (b : list Z) : Prop := Forall is_byte b.

#[export] Instance bytes_ok_dec b : Decision (bytes_ok b).
Proof. unfold bytes_ok. apply _. Defined.

Lemma length_le_bytes n v : length (le_bytes n v) = n.
Proof. revert v. induction n; intros; simpl; auto. Qed.

Lemma le_bytes_ok n v : bytes_ok (le_bytes n v).
Proof.
  revert v. induction n; intros; simpl; constructor; [|apply IHn].
  apply (wrapU_in 8). lia.
Qed.

Lemma bytes_ok_app a b : bytes_ok a → bytes_ok b → bytes_ok (a ++ b).
Proof. apply Forall_app_2. Qed.
Lemma bytes_ok_take n b : bytes_ok b → bytes_ok (take n b).
Proof. apply Forall_take. Qed.
Lemma bytes_ok_drop n b : bytes_ok b → bytes_ok (drop n b).
Proof. apply Forall_drop. Qed.
Lemma bytes_ok_nil : bytes_ok [].
Proof. constructor. Qed.
Lemma bytes_of_bytes_ok s : bytes_ok (bytes_of s).
Proof. apply bytes_of_ok. Qed.

(** Well-formedness of byte strings built by appending. *)
Create HintDb bytes.
#[export] Hint Resolve bytes_ok_take bytes_ok_drop le_bytes_ok bytes_ok_app bytes_ok_nil bytes_of_bytes_ok : bytes.

Lemma pow256_S n : 256 ^ Z.of_nat (S n) = 256 * 256 ^ Z.of_nat n.
Proof. rewrite Nat2Z.inj_succ, Z.pow_succ_r by lia. reflexivity. Qed.
Lemma pow256_pos n : 0 < 256 ^ Z.of_nat n.
Proof. apply Z.pow_pos_nonneg; lia. Qed.

Lemma le_val_bytes n v : le_val (le_bytes n v) = v mod 256 ^ Z.of_nat n.
Proof.
  revert v. induction n as [|n IH]; intros v; [by rewrite Z.mod_1_r|].
  cbn [le_bytes le_val]. rewrite IH, pow256_S.
  pose proof (pow256_pos n). by rewrite (Z.rem_mul_r v 256).
Qed.

Lemma le_val_bytes_id n v : 0 ≤ v < 256 ^ Z.of_nat n → le_val (le_bytes n v) = v.
Proof. intros. rewrite le_val_bytes. by apply Z.mod_small. Qed.

Lemma le_bytes_val b : bytes_ok b → le_bytes (length b) (le_val b) = b.
Proof.
  induction 1 as [|x b Hx Hb IH]; [done|]. apply is_byte_bound in Hx.
  cbn [length le_val le_bytes]. f_equal; [lia|].
  etrans; [|apply IH]. f_equal. lia.
Qed.

Lemma le_val_bound b : bytes_ok b → 0 ≤ le_val b < 256 ^ Z.of_nat (length b).
Proof.
  induction 1 as [|x b Hx Hb IH]; [done|]. apply is_byte_bound in Hx.
  cbn [le_val length]. rewrite pow256_S. lia.
Qed.

Lemma LE_Uint_app n v r : LE_Uint n (le_bytes n v ++ r) = Ret (v mod 256 ^ Z.of_nat n).
Proof.
  unfold LE_Uint. rewrite decide_True by (rewrite length_app, length_le_bytes; lia).
  rewrite take_app_length' by (by rewrite length_le_bytes). by rewrite le_val_bytes.
Qed.

Lemma GetUint32_app v r : GetUint32 (le_bytes 4 v ++ r) = Ret (to_u32 v).
Proof. apply (LE_Uint_app 4). Qed.

Lemma GetUint64_app v r : GetUint64 (le_bytes 8 v ++ r) = Ret (to_u64 v).
Proof. apply (LE_Uint_app 8). Qed.

Lemma Read_Uint_app n v r :
  Read_Uint n (le_bytes n v ++ r) = Ret (v mod 256 ^ Z.of_nat n, r).
Proof.
  unfold Read_Uint. rewrite LE_Uint_app. simpl.
  by rewrite drop_app_length' by (by rewrite length_le_bytes).
Qed.

Lemma ReadUint16_app v r : ReadUint16 (le_bytes 2 v ++ r) = Ret (to_u16 v, r).
Proof. apply (Read_Uint_app 2). Qed.
Lemma ReadUint32_app v r : ReadUint32 (le_bytes 4 v ++ r) = Ret (to_u32 v, r).
Proof. apply (Read_Uint_app 4). Qed.
Lemma ReadUint64_app v r : ReadUint64 (le_bytes 8 v ++ r) = Ret (to_u64 v, r).
Proof. apply (Read_Uint_app 8). Qed.
Lemma ReadInt64_app v r :
  inS 64 v → ReadInt64 (le_bytes 8 (to_u64 v) ++ r) = Ret (v, r).
Proof.
  intros. pose proof (ReadUint64_app (to_u64 v) r) as E. unfold ReadUint64 in E.
  unfold ReadInt64. rewrite E. cbn [mbind go_bind].
  rewrite (wrapU_id 64 (to_u64 v)) by (apply wrapU_in; lia).
  by rewrite wrapS_wrapU by (done || lia).
Qed.

(** ** Lemmas: the checksum *)

Lemma bits_above w z i : 0 ≤ w → inU w z → w ≤ i → Z.testbit z i = false.
Proof.
  intros Hw [? ?] Hi. destruct (decide (z = 0)) as [->|]; [apply Z.testbit_0_l|].
  apply Z.bits_above_log2; [done|]. apply Z.log2_lt_pow2; [lia|].
  eapply Z.lt_le_trans; [done|]. apply Z.pow_le_mono_r; lia.
Qed.

Lemma inU_of_bits w z : 0 ≤ w → 0 ≤ z → (∀ i, w ≤ i → Z.testbit z i = false) → inU w z.
Proof.
  intros Hw Hz Hb. split; [done|].
  destruct (decide (z = 0)) as [->|]; [by apply Z.pow_pos_nonneg|].
  apply Z.log2_lt_pow2; [lia|]. apply Z.nle_gt. intros Hle.
  specialize (Hb _ Hle). rewrite Z.bit_log2 in Hb; [done|lia].
Qed.

Lemma lxor_in w a b : 0 ≤ w → inU w a → inU w b → inU w (Z.lxor a b).
Proof.
  intros Hw Ha Hb. apply inU_of_bits; [done| |].
  - apply Z.lxor_nonneg. destruct Ha, Hb. lia.
  - intros. by rewrite Z.lxor_spec, !(bits_above w).
Qed.

Lemma shiftr1_in w a : 0 < w → inU w a → inU w (Z.shiftr a 1).
Proof.
  intros Hw [? ?]. rewrite Z.shiftr_div_pow2 by lia. split.
  - apply Z.div_pos; lia.
  - apply Z.div_lt_upper_bound; lia.
Qed.

Lemma crc_bit_in c : inU 32 c → inU 32 (crc_bit c).
Proof.
  intros. unfold crc_bit. pose proof (shiftr1_in 32 c ltac:(lia) H).
  destruct (Z.testbit c 0); [|done]. by apply lxor_in; [lia|done|vm_compute; split].
Qed.

Lemma crc_bit_inj a b : inU 32 a → inU 32 b → crc_bit a = crc_bit b → a = b.
Proof.
  intros Ha Hb E. unfold crc_bit in E.
  assert (Hz : ∀ x, inU 32 x → Z.testbit (Z.shiftr x 1) 31 = false).
  { intros x Hx. rewrite Z.shiftr_spec by lia. by apply (bits_above 32). }
  assert (Hp : Z.testbit crc_poly 31 = true) by reflexivity.
  assert (Hh : Z.testbit a 0 = Z.testbit b 0 ∧ Z.shiftr a 1 = Z.shiftr b 1).
  { revert E. destruct (Z.testbit a 0), (Z.testbit b 0); intros E; (split; [|done]) ||
      (pose proof (f_equal (λ z, Z.testbit z 31) E) as E31; cbv beta in E31;
       rewrite ?Z.lxor_spec, !Hz, ?Hp in E31 by done; try done); [|done].
    split; [done|]. apply (f_equal (λ z, Z.lxor z crc_poly)) in E.
    by rewrite !Z.lxor_assoc, !Z.lxor_nilpotent, !Z.lxor_0_r in E. }
  destruct Hh as [H0 H1]. apply Z.bits_inj'. intros i Hi.
  destruct (decide (i = 0)) as [->|]; [done|].
  apply (f_equal (λ z, Z.testbit z (i - 1))) in H1.
  rewrite !Z.shiftr_spec in H1 by lia. by replace (i - 1 + 1) with i in H1 by lia.
Qed.

Lemma byte_in32 b : is_byte b → inU 32 b.
Proof. intros [? ?]. split; [done|]. eapply Z.lt_le_trans; [done|]. by vm_compute. Qed.

Lemma iter_crc_bit_in n a : inU 32 a → inU 32 (Nat.iter n crc_bit a).
Proof. induction n; simpl; auto using crc_bit_in. Qed.
Lemma iter_crc_bit_inj n a b :
  inU 32 a → inU 32 b → Nat.iter n crc_bit a = Nat.iter n crc_bit b → a = b.
Proof.
  intros Ha Hb. induction n as [|n IH]; [done|]. intros E.
  apply IH, crc_bit_inj; auto using iter_crc_bit_in.
Qed.

Lemma crc_byte_in c b : inU 32 c → is_byte b → inU 32 (crc_byte c b).
Proof.
  intros Hc Hb%byte_in32. apply iter_crc_bit_in, lxor_in; done || lia.
Qed.

Lemma lxor_cancel_l a x y : Z.lxor a x = Z.lxor a y → x = y.
Proof.
  intros E. apply (f_equal (Z.lxor a)) in E.
  by rewrite <- !Z.lxor_assoc, !Z.lxor_nilpotent, !Z.lxor_0_l in E.
Qed.

(** One CRC step is injective in the state and in the byte. *)
Lemma crc_byte_inj_state c c' b :
  inU 32 c → inU 32 c' → is_byte b → crc_byte c b = crc_byte c' b → c = c'.
Proof.
  intros Hc Hc' Hb%byte_in32 E.
  apply iter_crc_bit_inj in E; [|apply lxor_in; done || lia..].
  rewrite !(Z.lxor_comm _ b) in E. by eapply lxor_cancel_l.
Qed.
Lemma crc_byte_inj_byte c b b' :
  inU 32 c → is_byte b → is_byte b' → crc_byte c b = crc_byte c b' → b = b'.
Proof.
  intros Hc Hb%byte_in32 Hb'%byte_in32 E.
  apply iter_crc_bit_inj in E; [|apply lxor_in; done || lia..]. by eapply lxor_cancel_l.
Qed.

Lemma foldl_crc_in b c : inU 32 c → bytes_ok b → inU 32 (foldl crc_byte c b).
Proof.
  intros Hc Hb. revert c Hc. induction Hb; intros; simpl; [done|].
  apply IHHb. by apply crc_byte_in.
Qed.
Lemma foldl_crc_inj b c c' :
  inU 32 c → inU 32 c' → bytes_ok b → foldl crc_byte c b = foldl crc_byte c' b → c = c'.
Proof.
  intros Hc Hc' Hb. revert c c' Hc Hc'. induction Hb; intros; simpl in *; [done|].
  eapply crc_byte_inj_state; eauto. eapply IHHb; eauto using crc_byte_in.
Qed.

Lemma crc_init_in : inU 32 0xFFFFFFFF.
Proof. by vm_compute. Qed.
#[local] Hint Resolve crc_init_in : core.

Lemma ChecksumIEEE_in b : bytes_ok b → inU 32 (ChecksumIEEE b).
Proof. intros. apply lxor_in; [lia| |done]. by apply foldl_crc_in. Qed.

Lemma length_AppendChecksum b : length (AppendChecksum b) = (length b + 4)%nat.
Proof. unfold AppendChecksum, AppendUint32. rewrite length_app, length_le_bytes. lia. Qed.
Lemma AppendChecksum_ok b : bytes_ok b → bytes_ok (AppendChecksum b).
Proof. unfold AppendChecksum, AppendUint32. auto with bytes. Qed.
#[export] Hint Resolve AppendChecksum_ok : bytes.

(** Verifying any payload followed by any four-byte trailer. *)
Lemma VerifyTrailing_app p w :
  inU 32 w →
  VerifyTrailing (p ++ le_bytes 4 w)
  = if decide (ChecksumIEEE p = w) then Ret p else Err ErrChecksum.
Proof.
  intros Hw. unfold VerifyTrailing. rewrite length_app, length_le_bytes.
  rewrite decide_False by lia. replace (length p + 4 - 4)%nat with (length p) by lia.
  rewrite take_app_length, drop_app_length.
  pose proof (GetUint32_app w []) as E. rewrite app_nil_r in E. unfold GetUint32 in E.
  rewrite E. cbn [mbind go_bind]. by rewrite (wrapU_id 32 w).
Qed.

Lemma VerifyTrailing_AppendChecksum b :
  bytes_ok b → VerifyTrailing (AppendChecksum b) = Ret b.
Proof.
  intros. unfold AppendChecksum, AppendUint32.
  rewrite VerifyTrailing_app by by apply ChecksumIEEE_in. by rewrite decide_True.
Qed.

(** Changing a single byte changes the checksum. *)
Lemma ChecksumIEEE_single_byte p q x y :
  bytes_ok p → bytes_ok q → is_byte x → is_byte y → x ≠ y →
  ChecksumIEEE (p ++ x :: q) ≠ ChecksumIEEE (p ++ y :: q).
Proof.
  intros Hp Hq Hx Hy Hne E. apply Hne. unfold ChecksumIEEE in E.
  rewrite !(Z.lxor_comm _ 0xFFFFFFFF) in E. apply lxor_cancel_l in E.
  rewrite !foldl_app in E. simpl in E.
  pose proof (foldl_crc_in p _ crc_init_in Hp) as Hin.
  apply foldl_crc_inj in E; auto using crc_byte_in.
  by eapply crc_byte_inj_byte.
Qed.

(** ** Properties *)

Lemma VerifyTrailing_single_byte b i x y :
  bytes_ok b → AppendChecksum b !! i = Some y → is_byte x → x ≠ y →
  VerifyTrailing (<[i := x]> (AppendChecksum b)) = Err ErrChecksum.
Proof.
  intros Hb Hi Hx Hne.
  pose proof (ChecksumIEEE_in b Hb) as Hc. unfold AppendChecksum, AppendUint32 in *.
  destruct (decide (i < length b)%nat) as [Hlt|Hge].
  - rewrite lookup_app_l in Hi by done. rewrite insert_app_l by done.
    rewrite VerifyTrailing_app by done. rewrite decide_False; [done|].
    rewrite <- (take_drop_middle _ _ _ Hi) at 2.
    rewrite insert_take_drop by done.
    pose proof Hb as Hb'. rewrite <- (take_drop_middle _ _ _ Hi) in Hb'.
    apply Forall_app in Hb' as [Hp [Hy Hq]%Forall_cons].
    by apply ChecksumIEEE_single_byte.
  - rewrite lookup_app_r in Hi by lia. rewrite insert_app_r_alt by lia.
    set (j := (i - length b)%nat) in *. set (w := ChecksumIEEE b) in *.
    assert (Hok : bytes_ok (<[j:=x]> (le_bytes 4 w))) by (apply Forall_insert; [apply le_bytes_ok|done]).
    rewrite <- (le_bytes_val _ Hok), length_insert, length_le_bytes.
    assert (Hin : inU 32 (le_val (<[j:=x]> (le_bytes 4 w)))).
    { pose proof (le_val_bound _ Hok) as H.
      rewrite length_insert, length_le_bytes in H. exact H. }
    rewrite VerifyTrailing_app by done. rewrite decide_False; [done|]. intros E.
    assert (Heq : le_bytes 4 w = <[j:=x]> (le_bytes 4 w)).
    { rewrite <- (le_bytes_val _ Hok) at 1. rewrite length_insert, length_le_bytes. by rewrite <- E. }
    pose proof (lookup_lt_Some _ _ _ Hi) as Hlt.
    rewrite Heq, list_lookup_insert_eq in Hi by done. congruence.
Qed.

(** A checksummed block is read back whole, and any change of a single byte
    of it, in the payload or in the stored CRC itself, is reported as
    [ErrChecksum] and never accepted. *)
Theorem checksum_detects_corruption b i x y :
  bytes_ok b → AppendChecksum b !! i = Some y → is_byte x → x ≠ y →
  VerifyTrailing (AppendChecksum b) = Ret b ∧
  VerifyTrailing (<[i := x]> (AppendChecksum b)) = Err ErrChecksum.
Proof.
  intros. split; [by apply VerifyTrailing_AppendChecksum|by eapply VerifyTrailing_single_byte].
Qed.

Lemma checksum_detects_corruption_witness :
  VerifyTrailing (AppendChecksum [1; 2; 3]) = Ret [1; 2; 3] ∧
  VerifyTrailing (<[1%nat := 7]> (AppendChecksum [1; 2; 3])) = Err ErrChecksum.
Proof.
  apply (checksum_detects_corruption [1; 2; 3] 1 7 2); [|reflexivity|vm_compute; done|done].
  repeat constructor; by vm_compute.
Defined.
