(* ===== verification/Codec.v ===== *)
(** * Package storage: block codec ([storage/codec.go])

    Null bitmaps, the per-row-group string dictionary (builder, reader and
    serialised form) and the run-length encoding of BOOL blocks.  [int] indices
    and slice lengths are [nat]; [uint32] values are wrapped [Z]s. *)
From Stdlib Require Import ZArith Lia ZifyNat.
From stdpp Require Import base numbers list strings gmap.
From S2P Require Import Prelude Encoding.
#[local] Open Scope Z_scope.

(** ** Null bitmaps: 1 = valid, 0 = null, least significant bit first *)

Definition SetNullBit (bitmap : list Z) (i : nat) : go (list Z) :=
  b ← index bitmap (i / 8);
  store bitmap (i / 8) (Z.ldiff b (Z.shiftl 1 (Z.of_nat (i mod 8)))).

Definition SetValidBit (bitmap : list Z) (i : nat) : go (list Z) :=
  b ← index bitmap (i / 8);
  store bitmap (i / 8) (Z.lor b (Z.shiftl 1 (Z.of_nat (i mod 8)))).

Definition IsNullBit (bitmap : list Z) (i : nat) : go bool :=
  b ← index bitmap (i / 8);
  Ret (Z.land (Z.shiftr b (Z.of_nat (i mod 8))) 1 =? 0).

Definition FullBitmap (rows : nat) : list Z :=
  let size := ((rows + 7) / 8)%nat in
  let b := replicate size 0xFF in
  if decide (rows mod 8 ≠ 0)%nat
  then <[(size - 1)%nat := Z.shiftl 1 (Z.of_nat (rows mod 8)) - 1]> b else b.

(** ** Dictionary builder *)

Record DictBuilder : Type := mkDictBuilder {
  db_index : gmap string Z;
  db_keys : list string
}.

Definition NewDictBuilder : DictBuilder := mkDictBuilder ∅ [].

(** [Add] returns the code and the updated builder. *)
Definition Add (db : DictBuilder) (s : string) : Z * DictBuilder :=
  match db_index db !! s with
  | Some code => (code, db)
  | None =>
      let code := to_u32 (Z.of_nat (length (db_keys db))) in
      (code, mkDictBuilder (<[s := code]> (db_index db)) (db_keys db ++ [s]))
  end.

Definition db_Lookup (db : DictBuilder) (s : string) : option Z := db_index db !! s.
Definition db_Len (db : DictBuilder) : nat := length (db_keys db).
Definition GetByCode (db : DictBuilder) (code : Z) : go string :=
  index (db_keys db) (Z.to_nat code).

(** [4B num_entries][num_entries × 4B offset][4B total_len][data][4B CRC32] *)
Definition Marshal (db : DictBuilder) : go (list Z) :=
  let n := to_u32 (Z.of_nat (length (db_keys db))) in
  '(offsets, data) ← foldM (λ '(offsets, data) '(i, s),
      offsets ← store offsets i (to_u32 (Z.of_nat (length data)));
      Ret (offsets, data ++ bytes_of s))
    (replicate (Z.to_nat n) 0, []) (enum (db_keys db));
  let totalLen := to_u32 (Z.of_nat (length data)) in
  let b := AppendUint32 [] n in
  let b := foldl AppendUint32 b offsets in
  let b := AppendUint32 b totalLen in
  let b := b ++ data in
  Ret (AppendChecksum b).

(** ** Dictionary (reader side)

    [cache] memoises [Get]: "" is the not-yet-memoised sentinel, and a cache
    that has not been allocated yet is []. *)
Record Dictionary : Type := mkDictionary {
  Offsets : list Z;
  Data : list Z;
  cache : list string
}.

(** [Get] mutates the memo, so it returns the dictionary too. *)
Definition Get (d : Dictionary) (code : Z) : go (string * Dictionary) :=
  let c := Z.to_nat code in
  if decide (length (Offsets d) ≤ c)%nat then Panic else
  let compute (memo : list string) :=
    start ← index (Offsets d) c;
    stop ← (if decide (c + 1 < length (Offsets d))%nat
            then index (Offsets d) (c + 1)
            else Ret (to_u32 (Z.of_nat (length (Data d)))));
    bs ← slice (Data d) (Z.to_nat start) (Z.to_nat stop);
    memo ← store memo c (string_of bs);
    Ret (string_of bs, mkDictionary (Offsets d) (Data d) memo) in
  if decide (c < length (cache d))%nat then
    s ← index (cache d) c;
    if decide (s = ""%string) then compute (cache d) else Ret (s, d)
  else compute (replicate (length (Offsets d)) ""%string).

Definition d_Len (d : Dictionary) : nat := length (Offsets d).

(** [Lookup]: linear scan over the codes, threading the memo. *)
Fixpoint Lookup_from (d : Dictionary) (s : string) (codes : list nat)
    : go (option Z * Dictionary) :=
  match codes with
  | [] => Ret (None, d)
  | code :: codes =>
      '(t, d) ← Get d (Z.of_nat code);
      if decide (t = s) then Ret (Some (Z.of_nat code), d) else Lookup_from d s codes
  end.
Definition Lookup (d : Dictionary) (s : string) : go (option Z * Dictionary) :=
  Lookup_from d s (seq 0 (length (Offsets d))).

Definition UnmarshalDictionary (b : list Z) : go Dictionary :=
  match VerifyTrailing b with
  | Ret payload =>
      if decide (length payload < 4)%nat then Err ErrCorruptFooter else
      '(n, rest) ← ReadUint32 payload;
      if decide (Z.of_nat (length rest) < n * 4 + 4) then Err ErrCorruptFooter else
      '(offsets, rest) ← foldM (λ '(offsets, rest) (_ : nat),
          '(o, rest) ← ReadUint32 rest; Ret (offsets ++ [o], rest))
        ([], rest) (seq 0 (Z.to_nat n));
      '(totalLen, rest) ← ReadUint32 rest;
      if decide (to_u32 (Z.of_nat (length rest)) < totalLen) then Err ErrCorruptFooter else
      data ← slice rest 0 (Z.to_nat totalLen);
      Ret (mkDictionary offsets data [])
  | Err _ => Err ErrChecksum
  | Panic => Panic
  | OutOfFuel => OutOfFuel
  end.

(** ** RLE Bool encoder / decoder *)

(** The symbol of row [i]: 0xFF for NULL, else 1 or 0. *)
Definition rle_sym (values : list bool) (nulls : list Z) (i : nat) : go Z :=
  isnull ← IsNullBit nulls i;
  if (isnull : bool) then Ret 0xFF else
  v ← index values i;
  Ret (if (v : bool) then 1 else 0).

(** The inner loop of [EncodeRLEBool]: extends the run of [cur] that starts at
    row [i] and already holds [length] rows. *)
Fixpoint rle_extend (fuel : nat) (values : list bool) (nulls : list Z)
    (cur : Z) (i : nat) (len : Z) : go Z :=
  match fuel with
  | O => OutOfFuel
  | S fuel =>
      if decide (i + Z.to_nat len < length values)%nat then
        next ← rle_sym values nulls (i + Z.to_nat len);
        if decide (next ≠ cur) then Ret len
        else rle_extend fuel values nulls cur i (to_u32 (len + 1))
      else Ret len
  end.

(** The outer loop: the runs from row [i] on. *)
Fixpoint rle_runs (fuel : nat) (values : list bool) (nulls : list Z)
    (i : nat) (runs : list (Z * Z)) : go (list (Z * Z)) :=
  match fuel with
  | O => OutOfFuel
  | S fuel =>
      if decide (i < length values)%nat then
        cur ← rle_sym values nulls i;
        len ← rle_extend (S (length values)) values nulls cur i 1;
        rle_runs fuel values nulls (i + Z.to_nat len) (runs ++ [(len, cur)])
      else Ret runs
  end.

Definition EncodeRLEBool (values : list bool) (nullBitmap : list Z) : go (list Z) :=
  runs ← rle_runs (S (length values)) values nullBitmap 0 [];
  let b := AppendUint32 [] (to_u32 (Z.of_nat (length runs))) in
  let b := foldl (λ b '(len, v), AppendUint32 b len ++ [v]) b runs in
  Ret (AppendChecksum b).

(** One decoded row: [SetNullBit] for the sentinel, [true] for 1, nothing else. *)
Definition rle_put (v : Z) (st : list bool * list Z * nat) : go (list bool * list Z * nat) :=
  let '(values, nulls, pos) := st in
  if decide (v = 0xFF) then nulls ← SetNullBit nulls pos; Ret (values, nulls, S pos)
  else if decide (v = 1) then values ← store values pos true; Ret (values, nulls, S pos)
  else Ret (values, nulls, S pos).

Definition DecodeRLEBool (data : list Z) : go (list bool * list Z * nat) :=
  match VerifyTrailing data with
  | Ret payload =>
      if decide (length payload < 4)%nat then Err ErrCorruptFooter else
      '(runCount, rest) ← ReadUint32 payload;
      '(runs, _, total) ← foldM (λ '(runs, rest, total) (_ : nat),
          if decide (length rest < 5)%nat then Err ErrCorruptFooter else
          '(l, rest) ← ReadUint32 rest;
          v ← index rest 0;
          Ret (runs ++ [(l, v)], drop 1 rest, (total + Z.to_nat l)%nat))
        ([], rest, 0%nat) (seq 0 (Z.to_nat runCount));
      '(values, nulls, _) ← foldM (λ st '(l, v),
          foldM (λ st (_ : nat), rle_put v st) st (seq 0 (Z.to_nat l)))
        (replicate total false, FullBitmap total, 0%nat) runs;
      Ret (values, nulls, total)
  | Err _ => Err ErrChecksum
  | Panic => Panic
  | OutOfFuel => OutOfFuel
  end.

Example rle_example :
  (EncodeRLEBool [true; true; false; true] [11] ≫= DecodeRLEBool)
  = Ret ([true; true; false; true], [11], 4%nat).
Proof. reflexivity. Qed.
Example dict_example :
  let db := (Add (Add (Add NewDictBuilder "AIR").2 "MAIL").2 "AIR").2 in
  (b ← Marshal db; d ← UnmarshalDictionary b; p ← Get d 1; Ret p.1) = Ret "MAIL"%string.
Proof. reflexivity. Qed.

(** ** Lemmas: bitmaps

    [bit_valid] is the abstract reading of a bitmap, [bm_set] the abstract
    write; inside the bitmap the Go helpers are exactly these. *)

Definition bit_valid (bm : list Z) (i : nat) : bool :=
  match bm !! (i / 8)%nat with Some b => Z.testbit b (Z.of_nat (i mod 8)) | None => false end.
Definition bm_set (v : bool) (bm : list Z) (i : nat) : list Z :=
  match bm !! (i / 8)%nat with
  | Some b => <[(i / 8)%nat :=
      (if v then Z.lor else Z.ldiff) b (Z.shiftl 1 (Z.of_nat (i mod 8)))]> bm
  | None => bm
  end.

Lemma land_1_testbit z : Z.land z 1 = Z.b2z (Z.testbit z 0).
Proof. change 1 with (Z.ones 1) at 1. rewrite Z.bit0_odd, Z.land_ones by lia.
  change (2 ^ 1) with 2. rewrite Zmod_odd. by destruct (Z.odd z). Qed.

Lemma IsNullBit_Ret bm i :
  (i / 8 < length bm)%nat → IsNullBit bm i = Ret (negb (bit_valid bm i)).
Proof.
  intros [b Hb]%lookup_lt_is_Some. unfold IsNullBit, bit_valid. rewrite (index_Ret _ _ _ Hb), Hb.
  simpl. rewrite land_1_testbit, Z.shiftr_spec by lia. simpl.
  by destruct (Z.testbit b _).
Qed.
Lemma SetValidBit_Ret bm i :
  (i / 8 < length bm)%nat → SetValidBit bm i = Ret (bm_set true bm i).
Proof.
  intros Hi. destruct (lookup_lt_is_Some_2 _ _ Hi) as [b Hb].
  unfold SetValidBit, bm_set. rewrite (index_Ret _ _ _ Hb), Hb. by apply store_Ret.
Qed.
Lemma SetNullBit_Ret bm i :
  (i / 8 < length bm)%nat → SetNullBit bm i = Ret (bm_set false bm i).
Proof.
  intros Hi. destruct (lookup_lt_is_Some_2 _ _ Hi) as [b Hb].
  unfold SetNullBit, bm_set. rewrite (index_Ret _ _ _ Hb), Hb. by apply store_Ret.
Qed.

Lemma length_bm_set v bm i : length (bm_set v bm i) = length bm.
Proof. unfold bm_set. case_match; [apply length_insert|done]. Qed.

Lemma testbit_one_shift n k :
  Z.testbit (Z.shiftl 1 (Z.of_nat n)) (Z.of_nat k) = bool_decide (k = n).
Proof.
  rewrite Z.shiftl_spec by lia. case_bool_decide; [subst; by rewrite Z.sub_diag|].
  destruct (decide (k < n)%nat); [rewrite Z.testbit_neg_r; [done|lia]|].
  change 1 with (2 ^ 0). apply Z.pow2_bits_false. lia.
Qed.

Lemma bit_valid_bm_set v bm i j :
  (i / 8 < length bm)%nat →
  bit_valid (bm_set v bm i) j = if decide (j = i) then v else bit_valid bm j.
Proof.
  intros Hi. destruct (lookup_lt_is_Some_2 _ _ Hi) as [b Hb].
  unfold bm_set. rewrite Hb. unfold bit_valid.
  destruct (decide (j / 8 = i / 8)%nat) as [E|E].
  - rewrite E, list_lookup_insert_eq, Hb by done.
    destruct v; rewrite ?Z.lor_spec, ?Z.ldiff_spec, testbit_one_shift;
      case_bool_decide; destruct (decide (j = i)); subst; try lia;
      by destruct (Z.testbit b _).
  - rewrite list_lookup_insert_ne by done.
    destruct (decide (j = i)); [by subst|done].
Qed.

Lemma byte_shift_in k : (k < 8)%nat → is_byte (Z.shiftl 1 (Z.of_nat k)).
Proof.
  intros. rewrite Z.shiftl_mul_pow2, Z.mul_1_l by lia. split; [by apply Z.pow_nonneg|].
  apply Z.pow_lt_mono_r; lia.
Qed.
Lemma bm_set_ok v bm i : bytes_ok bm → bytes_ok (bm_set v bm i).
Proof.
  intros H. unfold bm_set. destruct (bm !! _) as [b|] eqn:Hb; [|done]. apply Forall_insert; [done|].
  eapply Forall_lookup_1 in H; [|done].
  assert (is_byte (Z.shiftl 1 (Z.of_nat (i mod 8)))) as Hs by (apply byte_shift_in; lia).
  destruct H, Hs. apply inU_of_bits; [lia| |].
  - destruct v; [apply Z.lor_nonneg|apply Z.ldiff_nonneg]; lia.
  - intros n Hn. destruct v; rewrite ?Z.lor_spec, ?Z.ldiff_spec, !(bits_above 8);
      done || lia || by split.
Qed.

Lemma length_FullBitmap rows : length (FullBitmap rows) = ((rows + 7) / 8)%nat.
Proof.
  unfold FullBitmap. case_decide; rewrite ?length_insert; apply length_replicate.
Qed.

Lemma testbit_ones_nat n k :
  Z.testbit (Z.shiftl 1 (Z.of_nat n) - 1) (Z.of_nat k) = bool_decide (k < n)%nat.
Proof.
  rewrite Z.shiftl_mul_pow2, Z.mul_1_l, Z.sub_1_r, <- Z.ones_equiv by lia.
  case_bool_decide; [apply Z.ones_spec_low|apply Z.ones_spec_high]; lia.
Qed.

Lemma bit_valid_FullBitmap rows i : bit_valid (FullBitmap rows) i = bool_decide (i < rows)%nat.
Proof.
  unfold bit_valid, FullBitmap. set (size := ((rows + 7) / 8)%nat).
  assert (Hff : ∀ k, (k < 8)%nat → Z.testbit 0xFF (Z.of_nat k) = true).
  { intros k Hk. change 0xFF with (Z.ones 8). apply Z.ones_spec_low. lia. }
  case_decide as Hr.
  - destruct (decide (i / 8 = size - 1)%nat) as [E|E].
    + rewrite E, list_lookup_insert_eq by (rewrite length_replicate; lia).
      rewrite testbit_ones_nat. apply bool_decide_ext. lia.
    + rewrite list_lookup_insert_ne by done.
      destruct (decide (i / 8 < size)%nat).
      * rewrite lookup_replicate_2, Hff, bool_decide_true by lia. done.
      * rewrite lookup_replicate_ge, bool_decide_false by lia. done.
  - destruct (decide (i / 8 < size)%nat).
    + rewrite lookup_replicate_2, Hff, bool_decide_true by lia. done.
    + rewrite lookup_replicate_ge, bool_decide_false by lia. done.
Qed.

Lemma FullBitmap_ok rows : bytes_ok (FullBitmap rows).
Proof.
  unfold FullBitmap. assert (bytes_ok (replicate ((rows + 7) / 8) 0xFF)) as H
    by (apply Forall_replicate; by vm_compute).
  case_decide; [|done]. apply Forall_insert; [done|].
  destruct (byte_shift_in (rows mod 8)); [lia|]. split; [|lia].
  rewrite Z.shiftl_mul_pow2, Z.mul_1_l by lia.
  pose proof (Z.pow_pos_nonneg 2 (Z.of_nat (rows mod 8))). lia.
Qed.

(** ** Lemmas: the dictionary builder *)

(** Codes are the positions of the keys: distinct, dense, first come first. *)
Definition db_wf (db : DictBuilder) : Prop :=
  Z.of_nat (length (db_keys db)) ≤ 2 ^ 32 ∧
  ∀ s c, db_index db !! s = Some c ↔ ∃ i, c = Z.of_nat i ∧ db_keys db !! i = Some s.

Lemma db_wf_new : db_wf NewDictBuilder.
Proof.
  split; [done|]. intros s c. simpl. rewrite lookup_empty.
  split; [done|]. intros (i & _ & H). done.
Qed.

Lemma db_wf_NoDup db : db_wf db → NoDup (db_keys db).
Proof.
  intros [_ H]. apply NoDup_alt. intros i j s Hi Hj.
  pose proof (proj2 (H s _) (ex_intro _ i (conj eq_refl Hi))) as E1.
  pose proof (proj2 (H s _) (ex_intro _ j (conj eq_refl Hj))) as E2.
  rewrite E1 in E2. injection E2. lia.
Qed.

(** [Add] keeps every code already handed out. *)
Lemma Add_keys db s :
  db_wf db →
  db_keys (Add db s).2 = if decide (s ∈ db_keys db) then db_keys db else db_keys db ++ [s].
Proof.
  intros [_ H]. unfold Add. destruct (db_index db !! s) as [c|] eqn:E; simpl.
  - apply H in E as (i & _ & Hi). rewrite decide_True; [done|]. by eapply list_elem_of_lookup_2.
  - rewrite decide_False; [done|]. intros [i Hi]%list_elem_of_lookup.
    by rewrite (proj2 (H s _) (ex_intro _ i (conj eq_refl Hi))) in E.
Qed.

Lemma Add_wf db s :
  db_wf db → Z.of_nat (length (db_keys db)) < 2 ^ 32 →
  db_wf (Add db s).2 ∧
  ∃ i, (Add db s).1 = Z.of_nat i ∧ db_keys (Add db s).2 !! i = Some s.
Proof.
  intros [Hl H] Hlt. unfold Add. destruct (db_index db !! s) as [c|] eqn:E; simpl.
  { split; [done|]. by apply H. }
  rewrite (wrapU_id 32) by (split; lia). split; [split; simpl|].
  - rewrite length_app. simpl. lia.
  - intros t c. simpl. destruct (decide (s = t)) as [->|Hne].
    + rewrite lookup_insert_eq. split.
      * intros [= <-]. exists (length (db_keys db)). by rewrite lookup_snoc_last.
      * intros (i & -> & [[_ Hi]|[-> _]]%lookup_snoc_Some); [|done].
        by rewrite (proj2 (H t _) (ex_intro _ i (conj eq_refl Hi))) in E.
    + rewrite lookup_insert_ne, H by done. apply exist_proper. intros i.
      apply and_iff_compat_l. rewrite lookup_snoc_Some.
      split; [intros Hi; left; split; [by eapply lookup_lt_Some|done]|].
      intros [[_ ?]|[_ ?]]; [done|congruence].
  - exists (length (db_keys db)). by rewrite lookup_snoc_last.
Qed.

(** ** Lemmas: the serialised dictionary

    The abstract dictionary is the list of its keys: entry [i] occupies
    [data[off i : off (i+1))] of the concatenated key bytes. *)

Definition dict_data (keys : list string) : list Z := concat (bytes_of <$> keys).
Definition dict_off (keys : list string) (i : nat) : nat := length (dict_data (take i keys)).
Definition dict_offsets (keys : list string) : list Z :=
  (λ i, Z.of_nat (dict_off keys i)) <$> seq 0 (length keys).
Definition dict_repr (keys : list string) (d : Dictionary) : Prop :=
  Offsets d = dict_offsets keys ∧ Data d = dict_data keys.
(** The sizes the 32-bit fields of the format can hold. *)
Definition dict_fits (keys : list string) : Prop :=
  Z.of_nat (length keys) < 2 ^ 32 ∧ Z.of_nat (length (dict_data keys)) < 2 ^ 32.

Lemma dict_data_app k1 k2 : dict_data (k1 ++ k2) = dict_data k1 ++ dict_data k2.
Proof. unfold dict_data. by rewrite fmap_app, concat_app. Qed.
Lemma dict_data_ok keys : bytes_ok (dict_data keys).
Proof.
  unfold dict_data. induction keys; simpl; auto with bytes.
Qed.
Lemma dict_off_le keys i : (dict_off keys i ≤ length (dict_data keys))%nat.
Proof.
  unfold dict_off. rewrite <- (take_drop i keys) at 2. rewrite dict_data_app, length_app. lia.
Qed.
Lemma length_dict_offsets keys : length (dict_offsets keys) = length keys.
Proof. unfold dict_offsets. by rewrite length_fmap, length_seq. Qed.
Lemma lookup_dict_offsets keys i :
  (i < length keys)%nat → dict_offsets keys !! i = Some (Z.of_nat (dict_off keys i)).
Proof. intros. unfold dict_offsets. by rewrite list_lookup_fmap, lookup_seq_lt. Qed.
Lemma dict_off_S keys i s :
  keys !! i = Some s → dict_off keys (S i) = (dict_off keys i + length (bytes_of s))%nat.
Proof.
  intros Hi. unfold dict_off. rewrite (take_S_r _ _ _ Hi), dict_data_app, length_app.
  unfold dict_data at 2. simpl. by rewrite app_nil_r.
Qed.
Lemma dict_data_slice keys i s :
  keys !! i = Some s →
  take (length (bytes_of s)) (drop (dict_off keys i) (dict_data keys)) = bytes_of s.
Proof.
  intros Hi. rewrite <- (take_drop_middle _ _ _ Hi) at 2. rewrite dict_data_app.
  unfold dict_off. rewrite drop_app_length. unfold dict_data. simpl.
  by rewrite take_app_length.
Qed.
Lemma dict_offsets_fits keys :
  dict_fits keys → Forall (inU 32) (dict_offsets keys).
Proof.
  intros [_ H]. apply Forall_fmap, Forall_forall. intros i _. simpl.
  pose proof (dict_off_le keys i). split; lia.
Qed.

(** The bytes before the CRC. *)
Definition dict_body (keys : list string) : list Z :=
  le_bytes 4 (Z.of_nat (length keys)) ++ concat (le_bytes 4 <$> dict_offsets keys)
  ++ le_bytes 4 (Z.of_nat (length (dict_data keys))) ++ dict_data keys.

Lemma foldl_AppendUint32 l b : foldl AppendUint32 b l = b ++ concat (le_bytes 4 <$> l).
Proof.
  revert b. induction l as [|x l IH]; intros b; simpl; [by rewrite app_nil_r|].
  rewrite IH. unfold AppendUint32. by rewrite <- app_assoc.
Qed.

Lemma concat_le_bytes_ok l : bytes_ok (concat (le_bytes 4 <$> l)).
Proof. induction l; cbn [fmap list_fmap concat]; auto with bytes. Qed.

Lemma dict_body_ok keys : bytes_ok (dict_body keys).
Proof. unfold dict_body. auto using concat_le_bytes_ok, dict_data_ok with bytes. Qed.

Lemma dict_offsets_loop keys :
  dict_fits keys →
  foldM (λ '(offsets, data) '(i, s),
      offsets ← store offsets i (to_u32 (Z.of_nat (length data)));
      Ret (offsets, data ++ bytes_of s))
    (replicate (length keys) 0, []) (enum keys)
  = Ret (dict_offsets keys, dict_data keys).
Proof.
  intros [_ Hfit]. destruct (foldM_enum_ind (λ '(offsets, data) '(i, s),
      offsets ← store offsets i (to_u32 (Z.of_nat (length data)));
      Ret (offsets, data ++ bytes_of s))
    (λ k '(offsets, data), data = dict_data (take k keys) ∧ length offsets = length keys ∧
       take k offsets = take k (dict_offsets keys)) keys (replicate (length keys) 0, []))
    as ([offsets data] & -> & -> & Hl & Ht).
  - split_and!; [done|apply length_replicate|done].
  - intros k s [offsets data] Hk (-> & Hl & Ht). pose proof (lookup_lt_Some _ _ _ Hk) as Hlt.
    pose proof (dict_off_le keys k). fold (dict_off keys k).
    rewrite store_Ret, (wrapU_id 32) by (done || (try split; lia)). eexists. split; [done|].
    split_and!.
    + rewrite (take_S_r _ _ _ Hk), dict_data_app. unfold dict_data at 3. simpl.
      by rewrite app_nil_r.
    + by rewrite length_insert.
    + rewrite (take_S_r _ _ (Z.of_nat (dict_off keys k))) by (apply list_lookup_insert_eq; lia).
      rewrite (take_S_r _ _ _ (lookup_dict_offsets _ _ Hlt)), take_insert_ge by lia.
      by rewrite Ht.
  - rewrite take_ge in Ht by lia. rewrite (take_ge (dict_offsets _)) in Ht.
    + by rewrite Ht, firstn_all.
    + by rewrite length_dict_offsets.
Qed.

Lemma Marshal_spec db :
  dict_fits (db_keys db) → Marshal db = Ret (AppendChecksum (dict_body (db_keys db))).
Proof.
  intros Hfit. pose proof Hfit as [Hn Hd]. unfold Marshal.
  rewrite (wrapU_id 32 (Z.of_nat (length (db_keys db)))) by (split; lia).
  rewrite Nat2Z.id, dict_offsets_loop by done. cbn [mbind go_bind].
  rewrite (wrapU_id 32) by (split; lia). rewrite foldl_AppendUint32.
  unfold AppendUint32, dict_body. simpl app. by rewrite <- !app_assoc.
Qed.

(** The offset loop of [UnmarshalDictionary]. *)
Lemma read_offsets_loop l r :
  Forall (inU 32) l →
  foldM (λ '(offsets, rest) (_ : nat),
      '(o, rest) ← ReadUint32 rest; Ret (offsets ++ [o], rest))
    ([], concat (le_bytes 4 <$> l) ++ r) (seq 0 (length l))
  = Ret (l, r).
Proof.
  intros Hl.
  destruct (foldM_seq_ind (λ '(offsets, rest) (_ : nat),
      '(o, rest) ← ReadUint32 rest; Ret (offsets ++ [o], rest))
    (λ k '(offsets, rest), offsets = take k l ∧ rest = concat (le_bytes 4 <$> drop k l) ++ r)
    (length l) ([], concat (le_bytes 4 <$> l) ++ r)) as ([o rest] & -> & -> & ->).
  - done.
  - intros k [o rest] Hk [-> ->]. destruct (lookup_lt_is_Some_2 _ _ Hk) as [x Hx].
    rewrite (drop_S _ _ _ Hx). rewrite fmap_cons. cbn [concat]. rewrite <- app_assoc.
    rewrite ReadUint32_app, (wrapU_id 32) by by eapply Forall_lookup_1.
    eexists. split; [done|]. by rewrite (take_S_r _ _ _ Hx).
  - by rewrite take_ge, drop_ge by lia.
Qed.

Lemma length_concat_le l : length (concat (le_bytes 4 <$> l)) = (4 * length l)%nat.
Proof.
  induction l; cbn [fmap list_fmap concat]; [done|].
  rewrite length_app, length_le_bytes. simpl in *. lia.
Qed.

Lemma UnmarshalDictionary_body keys :
  dict_fits keys →
  UnmarshalDictionary (AppendChecksum (dict_body keys))
  = Ret (mkDictionary (dict_offsets keys) (dict_data keys) []).
Proof.
  intros Hfit. pose proof Hfit as [Hn Hd]. unfold UnmarshalDictionary.
  rewrite VerifyTrailing_AppendChecksum by apply dict_body_ok. unfold dict_body.
  rewrite decide_False by (rewrite !length_app, !length_le_bytes; lia).
  rewrite ReadUint32_app. cbn [mbind go_bind]. rewrite (wrapU_id 32) by (split; lia).
  rewrite decide_False
    by (rewrite !length_app, !length_le_bytes, length_concat_le, length_dict_offsets; lia).
  rewrite Nat2Z.id. rewrite <- length_dict_offsets at 1.
  rewrite read_offsets_loop by by apply dict_offsets_fits.
  cbn [mbind go_bind]. rewrite ReadUint32_app. cbn [mbind go_bind].
  rewrite !(wrapU_id 32) by (split; lia). rewrite decide_False by lia.
  rewrite Nat2Z.id, slice_Ret by lia. cbn [mbind go_bind].
  by rewrite drop_0, Nat.sub_0_r, firstn_all.
Qed.

(** ** Lemmas: reading entries *)

(** The memo is unallocated, or holds entries of the dictionary and sentinels. *)
Definition cache_ok (keys : list string) (memo : list string) : Prop :=
  memo = [] ∨
  length memo = length keys ∧
  ∀ i s, memo !! i = Some s → s = ""%string ∨ keys !! i = Some s.
Definition dict_inv (keys : list string) (d : Dictionary) : Prop :=
  dict_repr keys d ∧ cache_ok keys (cache d).

Lemma dict_inv_fresh keys : dict_inv keys (mkDictionary (dict_offsets keys) (dict_data keys) []).
Proof. split; [done|by left]. Qed.

Lemma memo_store_ok keys memo i s :
  length memo = length keys →
  (∀ i s, memo !! i = Some s → s = ""%string ∨ keys !! i = Some s) →
  keys !! i = Some s → cache_ok keys (<[i := s]> memo).
Proof.
  intros Hl Hm Hi. right. split; [by rewrite length_insert|].
  intros j t Hj. apply list_lookup_insert_Some in Hj as [(-> & -> & _)|[_ Hj]]; auto.
Qed.

Lemma Get_spec keys d i s :
  dict_fits keys → dict_inv keys d → keys !! i = Some s →
  ∃ d', Get d (Z.of_nat i) = Ret (s, d') ∧ dict_inv keys d'.
Proof.
  intros [_ Hfit] [[Ho Hd] Hc] Hi. pose proof (lookup_lt_Some _ _ _ Hi) as Hlt.
  unfold Get. rewrite Nat2Z.id, Ho, length_dict_offsets. rewrite decide_False by lia.
  assert (Hcomp : ∀ memo, length memo = length keys →
    (∀ i s, memo !! i = Some s → s = ""%string ∨ keys !! i = Some s) →
    ∃ d', (start ← index (dict_offsets keys) i;
      stop ← (if decide (i + 1 < length keys)%nat then index (dict_offsets keys) (i + 1)
              else Ret (to_u32 (Z.of_nat (length (Data d)))));
      bs ← slice (Data d) (Z.to_nat start) (Z.to_nat stop);
      memo ← store memo i (string_of bs);
      Ret (string_of bs, mkDictionary (dict_offsets keys) (Data d) memo)) = Ret (s, d')
      ∧ dict_inv keys d').
  { intros memo Hl Hm. rewrite (index_Ret _ _ _ (lookup_dict_offsets _ _ Hlt)).
    cbn [mbind go_bind]. pose proof (dict_off_S _ _ _ Hi) as Hs.
    pose proof (dict_off_le keys (S i)) as Hle.
    assert (Hstop : (if decide (i + 1 < length keys)%nat then index (dict_offsets keys) (i + 1)
        else Ret (to_u32 (Z.of_nat (length (Data d))))) = Ret (Z.of_nat (dict_off keys (S i)))).
    { case_decide; [apply index_Ret; rewrite Nat.add_1_r; by apply lookup_dict_offsets; lia|].
      rewrite Hd, (wrapU_id 32) by (split; lia). unfold dict_off.
      by rewrite (take_ge keys) by lia. }
    rewrite Hstop. cbn [mbind go_bind]. rewrite !Nat2Z.id, Hd, slice_Ret by lia.
    replace (dict_off keys (S i) - dict_off keys i)%nat with (length (bytes_of s)) by lia.
    cbn [mbind go_bind]. rewrite (dict_data_slice _ _ _ Hi), string_of_bytes_of.
    rewrite store_Ret by lia. eexists. split; [done|]. split; [done|]. by apply memo_store_ok. }
  destruct Hc as [Hc|[Hl Hm]].
  - rewrite Hc. rewrite decide_False by (simpl; lia).
    apply Hcomp; [apply length_replicate|]. intros j t [-> _]%lookup_replicate. by left.
  - rewrite decide_True by lia. destruct (lookup_lt_is_Some_2 (cache d) i) as [t Ht]; [lia|].
    rewrite (index_Ret _ _ _ Ht). cbn [mbind go_bind].
    destruct (decide (t = ""%string)) as [->|Hne]; [by apply Hcomp|].
    destruct (Hm _ _ Ht) as [|Hk]; [done|]. rewrite Hi in Hk. injection Hk as <-.
    exists d. split; [done|]. split; [done|]. by right.
Qed.

Lemma Get_out_of_range keys d i :
  dict_inv keys d → (length keys ≤ i)%nat → Get d (Z.of_nat i) = Panic.
Proof.
  intros [[Ho _] _] Hi. unfold Get. rewrite Nat2Z.id, decide_True; [done|].
  by rewrite Ho, length_dict_offsets.
Qed.

(** [Lookup] finds the first code of the string, or reports its absence. *)
Lemma Lookup_from_spec keys d s k n :
  dict_fits keys → dict_inv keys d → (k + n = length keys)%nat →
  ∃ d', dict_inv keys d' ∧
    Lookup_from d s (seq k n)
    = Ret ((λ p, Z.of_nat (k + p.1)) <$> list_find (s =.) (drop k keys), d').
Proof.
  intros Hfit. revert k d. induction n as [|n IH]; intros k d Hd Hk.
  - exists d. split; [done|]. by rewrite drop_ge by lia.
  - destruct (lookup_lt_is_Some_2 keys k) as [t Ht]; [lia|].
    destruct (Get_spec _ _ _ _ Hfit Hd Ht) as (d' & E & Hd').
    cbn [seq Lookup_from]. rewrite E. cbn [mbind go_bind].
    rewrite (drop_S _ _ _ Ht). cbn [list_find]. case_decide as Hts.
    + exists d'. split; [done|]. rewrite decide_True by done. simpl. by rewrite Nat.add_0_r.
    + rewrite decide_False by done. destruct (IH (S k) d' Hd') as (d'' & Hd'' & E'); [lia|].
      exists d''. split; [done|]. rewrite E'. f_equal. f_equal.
      destruct (list_find _ (drop (S k) keys)) as [[j u]|]; simpl; [|done].
      do 2 f_equal. lia.
Qed.

Lemma Lookup_spec keys d s :
  dict_fits keys → dict_inv keys d →
  ∃ d', dict_inv keys d' ∧
    Lookup d s = Ret ((λ p, Z.of_nat p.1) <$> list_find (s =.) keys, d').
Proof.
  intros Hfit Hd. destruct (Lookup_from_spec keys d s 0 (length keys)) as (d' & ? & E); auto.
  exists d'. split; [done|]. unfold Lookup. destruct Hd as [[-> _] _].
  by rewrite length_dict_offsets, E.
Qed.

(** ** Lemmas: RLE blocks

    The abstract content of a BOOL block is its list of row symbols. *)

Definition bool_sym (v valid : bool) : Z := if valid then (if v then 1 else 0) else 0xFF.
Definition bool_syms (values : list bool) (nulls : list Z) : list Z :=
  imap (λ i v, bool_sym v (bit_valid nulls i)) values.
Definition rle_expand (runs : list (Z * Z)) : list Z :=
  concat ((λ r, replicate (Z.to_nat r.1) r.2) <$> runs).
Definition run_ok (r : Z * Z) : Prop := 1 ≤ r.1 < 2 ^ 32 ∧ is_byte r.2.

Lemma length_bool_syms values nulls : length (bool_syms values nulls) = length values.
Proof. apply length_imap. Qed.
Lemma bool_sym_ok v b : is_byte (bool_sym v b).
Proof. destruct v, b; by vm_compute. Qed.

Lemma rle_expand_app r1 r2 : rle_expand (r1 ++ r2) = rle_expand r1 ++ rle_expand r2.
Proof. unfold rle_expand. by rewrite fmap_app, concat_app. Qed.
Lemma rle_expand_one r : rle_expand [r] = replicate (Z.to_nat r.1) r.2.
Proof. unfold rle_expand. simpl. apply app_nil_r. Qed.
Lemma length_rle_expand runs :
  Forall run_ok runs → (length runs ≤ length (rle_expand runs))%nat.
Proof.
  induction 1 as [|[l v] runs [Hl _] _ IH]; [done|]. unfold rle_expand in *.
  cbn [fmap list_fmap concat length fst snd] in *. rewrite length_app, length_replicate. lia.
Qed.

Section encode.
Context (values : list bool) (nulls : list Z).
Hypothesis Hcover : (length values ≤ 8 * length nulls)%nat.
Hypothesis Hsmall : Z.of_nat (length values) < 2 ^ 32.
#[local] Abbreviation syms := (bool_syms values nulls).

Lemma rle_sym_Ret i s : syms !! i = Some s → rle_sym values nulls i = Ret s.
Proof.
  unfold bool_syms. rewrite list_lookup_imap. intros Hi.
  destruct (values !! i) as [v|] eqn:Hv; [|done]. simpl in Hi. injection Hi as <-.
  pose proof (lookup_lt_Some _ _ _ Hv). unfold rle_sym.
  rewrite IsNullBit_Ret by lia. cbn [mbind go_bind].
  destruct (bit_valid nulls i); [|done]. simpl. by rewrite (index_Ret _ _ _ Hv).
Qed.

Lemma rle_extend_spec fuel cur i len :
  1 ≤ len → (i + Z.to_nat len ≤ length values)%nat →
  (length values - i - Z.to_nat len < fuel)%nat →
  take (Z.to_nat len) (drop i syms) = replicate (Z.to_nat len) cur →
  ∃ len', rle_extend fuel values nulls cur i len = Ret len' ∧ len ≤ len' ∧
    (i + Z.to_nat len' ≤ length values)%nat ∧
    take (Z.to_nat len') (drop i syms) = replicate (Z.to_nat len') cur.
Proof.
  revert len. induction fuel as [|fuel IH]; intros len Hlen Hi Hf Ht; [lia|].
  cbn [rle_extend]. case_decide as Hd; [|exists len; by auto with lia].
  destruct (lookup_lt_is_Some_2 syms (i + Z.to_nat len)) as [s Hs];
    [by rewrite length_bool_syms|].
  rewrite (rle_sym_Ret _ _ Hs). cbn [mbind go_bind].
  case_decide as Hne; [exists len; by auto with lia|].
  subst s. rewrite (wrapU_id 32) by (split; lia).
  assert (E : Z.to_nat (len + 1) = S (Z.to_nat len)) by lia.
  destruct (IH (len + 1)) as (len' & -> & ? & ? & Ht'); [lia|lia|lia| |].
  - rewrite E, replicate_S_end. erewrite take_S_r by by rewrite lookup_drop.
    by rewrite Ht.
  - exists len'. split_and!; [done|lia|done|done].
Qed.

Lemma rle_runs_spec fuel i runs :
  (i ≤ length values)%nat → (length values - i < fuel)%nat →
  Forall run_ok runs → rle_expand runs = take i syms →
  ∃ runs', rle_runs fuel values nulls i runs = Ret runs' ∧
    Forall run_ok runs' ∧ rle_expand runs' = syms.
Proof.
  revert i runs. induction fuel as [|fuel IH]; intros i runs Hi Hf Hok Hex; [lia|].
  cbn [rle_runs]. case_decide as Hd; cycle 1.
  { exists runs. rewrite take_ge in Hex by (rewrite length_bool_syms; lia). done. }
  destruct (lookup_lt_is_Some_2 syms i) as [s Hs]; [by rewrite length_bool_syms|].
  rewrite (rle_sym_Ret _ _ Hs). cbn [mbind go_bind].
  destruct (rle_extend_spec (S (length values)) s i 1) as (len & -> & ? & ? & Ht);
    [lia|lia|lia| |].
  { change (Z.to_nat 1) with 1%nat. by rewrite (drop_S _ _ _ Hs). }
  cbn [mbind go_bind]. apply IH; [lia..| |].
  - apply Forall_app_2; [done|]. apply Forall_singleton. split; simpl; [lia|].
    unfold bool_syms in Hs. rewrite list_lookup_imap in Hs.
    destruct (values !! i); [|done]. injection Hs as <-. apply bool_sym_ok.
  - rewrite rle_expand_app, rle_expand_one, Hex. simpl. rewrite <- Ht.
    rewrite take_take_drop. done.
Qed.
End encode.

Definition rle_body (runs : list (Z * Z)) : list Z :=
  le_bytes 4 (Z.of_nat (length runs)) ++ concat ((λ r, le_bytes 4 r.1 ++ [r.2]) <$> runs).

Lemma foldl_runs runs b :
  foldl (λ b '(len, v), AppendUint32 b len ++ [v]) b runs
  = b ++ concat ((λ r, le_bytes 4 r.1 ++ [r.2]) <$> runs).
Proof.
  revert b. induction runs as [|[l v] runs IH]; intros b; simpl; [by rewrite app_nil_r|].
  rewrite IH. unfold AppendUint32. by rewrite <- !app_assoc.
Qed.

Lemma rle_body_ok runs : Forall run_ok runs → bytes_ok (rle_body runs).
Proof.
  intros H. apply bytes_ok_app; [apply le_bytes_ok|].
  induction H as [|[l v] runs [_ Hv] _ IH]; [constructor|].
  cbn [fmap list_fmap concat fst snd]. apply bytes_ok_app; [|done].
  apply bytes_ok_app; [apply le_bytes_ok|]. by apply Forall_singleton.
Qed.

(** The encoder's output: runs that expand to the block's symbols. *)
Lemma EncodeRLEBool_spec values nulls :
  (length values ≤ 8 * length nulls)%nat → Z.of_nat (length values) < 2 ^ 32 →
  ∃ runs, EncodeRLEBool values nulls = Ret (AppendChecksum (rle_body runs)) ∧
    Forall run_ok runs ∧ rle_expand runs = bool_syms values nulls ∧
    (length runs ≤ length values)%nat.
Proof.
  intros Hc Hs. destruct (rle_runs_spec values nulls Hc Hs (S (length values)) 0 [])
    as (runs & E & Hok & Hex); [lia..|constructor|done|].
  pose proof (length_rle_expand _ Hok) as Hl. rewrite Hex, length_bool_syms in Hl.
  exists runs. split_and!; [|done..]. unfold EncodeRLEBool. rewrite E. cbn [mbind go_bind].
  rewrite (wrapU_id 32) by (split; lia). by rewrite foldl_runs.
Qed.

Lemma read_runs_loop runs t :
  Forall run_ok runs →
  foldM (λ '(runs, rest, total) (_ : nat),
      if decide (length rest < 5)%nat then Err ErrCorruptFooter else
      '(l, rest) ← ReadUint32 rest;
      v ← index rest 0;
      Ret (runs ++ [(l, v)], drop 1 rest, (total + Z.to_nat l)%nat))
    ([], concat ((λ r, le_bytes 4 r.1 ++ [r.2]) <$> runs) ++ t, 0%nat) (seq 0 (length runs))
  = Ret (runs, t, length (rle_expand runs)).
Proof.
  intros Hok.
  destruct (foldM_seq_ind (λ '(runs, rest, total) (_ : nat),
      if decide (length rest < 5)%nat then Err ErrCorruptFooter else
      '(l, rest) ← ReadUint32 rest;
      v ← index rest 0;
      Ret (runs ++ [(l, v)], drop 1 rest, (total + Z.to_nat l)%nat))
    (λ k '(rs, rest, total), rs = take k runs ∧
       rest = concat ((λ r, le_bytes 4 r.1 ++ [r.2]) <$> drop k runs) ++ t ∧
       total = length (rle_expand (take k runs)))
    (length runs) ([], concat ((λ r, le_bytes 4 r.1 ++ [r.2]) <$> runs) ++ t, 0%nat))
    as ([[rs rest] total] & -> & -> & -> & ->).
  - done.
  - intros k [[rs rest] total] Hk (-> & -> & ->).
    destruct (lookup_lt_is_Some_2 _ _ Hk) as [[l v] Hx].
    pose proof (Forall_lookup_1 _ _ _ _ Hok Hx) as [Hl _]. simpl in Hl.
    rewrite (drop_S _ _ _ Hx), fmap_cons. cbn [concat fst snd]. rewrite <- !app_assoc.
    rewrite decide_False by (rewrite !length_app, length_le_bytes; simpl; lia).
    rewrite ReadUint32_app, (wrapU_id 32) by (split; lia). cbn [mbind go_bind].
    eexists. split; [done|]. rewrite (take_S_r _ _ _ Hx). split_and!; [done|done|].
    by rewrite rle_expand_app, rle_expand_one, length_app, length_replicate.
  - by rewrite firstn_all, drop_ge by lia.
Qed.

(** The two nested write loops visit the expanded symbols in order. *)
Lemma rle_write_flat runs st :
  foldM (λ st '(l, v), foldM (λ st (_ : nat), rle_put v st) st (seq 0 (Z.to_nat l))) st runs
  = foldM (λ st v, rle_put v st) st (rle_expand runs).
Proof.
  assert (Hin : ∀ n v k st, foldM (λ st (_ : nat), rle_put v st) st (seq k n)
    = foldM (λ st v, rle_put v st) st (replicate n v)).
  { induction n as [|n IH]; intros v k st'; [done|]. simpl.
    destruct (rle_put v st'); simpl; auto. }
  revert st. induction runs as [|[l v] runs IH]; intros st; [done|].
  unfold rle_expand. cbn [fmap list_fmap concat fst snd]. rewrite foldM_app.
  cbn [foldM]. rewrite Hin. by destruct (foldM _ st (replicate _ _)); simpl; auto.
Qed.

Definition rle_state_ok (syms : list Z) (k : nat) (st : list bool * list Z * nat) : Prop :=
  let '(values, nulls, pos) := st in
  pos = k ∧ length values = length syms ∧
  length nulls = ((length syms + 7) / 8)%nat ∧ bytes_ok nulls ∧
  (∀ i, (i < length syms)%nat → values !! i =
     Some (bool_decide ((i < k)%nat ∧ syms !! i = Some 1))) ∧
  (∀ i, bit_valid nulls i =
     bool_decide ((i < length syms)%nat ∧ ¬ ((i < k)%nat ∧ syms !! i = Some 0xFF))).

(** [i < S k] is [i < k] away from [k]. *)
#[local] Ltac lt_succ :=
  match goal with |- context [(?i < S ?k)%nat] =>
    assert (i < k ↔ i < S k)%nat as -> by lia; done end.

Lemma rle_put_spec syms k v st :
  syms !! k = Some v → rle_state_ok syms k st →
  ∃ st', rle_put v st = Ret st' ∧ rle_state_ok syms (S k) st'.
Proof.
  destruct st as [[values nulls] pos]. intros Hk (-> & Hv & Hn & Hb & Hvals & Hnulls).
  pose proof (lookup_lt_Some _ _ _ Hk) as Hlt. unfold rle_put.
  destruct (decide (v = 0xFF)) as [->|H255]; [|destruct (decide (v = 1)) as [->|H1]].
  - rewrite SetNullBit_Ret by lia. eexists. split; [done|].
    split_and!; [done|done|by rewrite length_bm_set|by apply bm_set_ok| |].
    + intros i Hi. rewrite Hvals by done. f_equal. apply bool_decide_ext.
      destruct (decide (i = k)) as [->|]; [|lt_succ]. rewrite Hk. split; [lia|]. by intros [_ [=]].
    + intros i. rewrite bit_valid_bm_set by lia. destruct (decide (i = k)) as [->|].
      * rewrite bool_decide_false; [done|]. intros [_ []]. split; [lia|done].
      * rewrite Hnulls. apply bool_decide_ext.
        lt_succ.
  - rewrite store_Ret by lia. eexists. split; [done|].
    split_and!; [done|by rewrite length_insert|done|done| |].
    + intros i Hi. rewrite list_lookup_insert. case_decide as Hd.
      * destruct Hd as [-> _]. rewrite bool_decide_true; [done|]. split; [lia|done].
      * rewrite Hvals by done. f_equal. apply bool_decide_ext.
        lt_succ.
    + intros i. rewrite Hnulls. apply bool_decide_ext.
      destruct (decide (i = k)) as [->|]; [rewrite Hk; naive_solver lia|].
      lt_succ.
  - eexists. split; [done|]. split_and!; [done..| |].
    + intros i Hi. rewrite Hvals by done. f_equal. apply bool_decide_ext.
      destruct (decide (i = k)) as [->|]; [rewrite Hk; naive_solver lia|].
      lt_succ.
    + intros i. rewrite Hnulls. apply bool_decide_ext.
      destruct (decide (i = k)) as [->|]; [rewrite Hk; naive_solver lia|].
      lt_succ.
Qed.

Lemma DecodeRLEBool_body runs :
  Forall run_ok runs → Z.of_nat (length runs) < 2 ^ 32 →
  ∃ values nulls,
    DecodeRLEBool (AppendChecksum (rle_body runs))
    = Ret (values, nulls, length (rle_expand runs)) ∧
    rle_state_ok (rle_expand runs) (length (rle_expand runs))
      (values, nulls, length (rle_expand runs)).
Proof.
  intros Hok Hn. unfold DecodeRLEBool.
  rewrite VerifyTrailing_AppendChecksum by by apply rle_body_ok. unfold rle_body.
  rewrite decide_False by (rewrite length_app, length_le_bytes; lia).
  rewrite ReadUint32_app, (wrapU_id 32) by (split; lia). cbn [mbind go_bind].
  rewrite Nat2Z.id. pose proof (read_runs_loop runs [] Hok) as E.
  rewrite app_nil_r in E. rewrite E. cbn [mbind go_bind]. rewrite rle_write_flat.
  set (syms := rle_expand runs).
  destruct (foldM_list_ind (λ st v, rle_put v st) (rle_state_ok syms) syms
    (replicate (length syms) false, FullBitmap (length syms), 0%nat))
    as ([[values nulls] pos] & -> & Hst).
  - split_and!; [done|apply length_replicate|apply length_FullBitmap|apply FullBitmap_ok| |].
    + intros i Hi. rewrite lookup_replicate_2 by done. rewrite bool_decide_false; [done|lia].
    + intros i. rewrite bit_valid_FullBitmap. apply bool_decide_ext. lia.
  - intros k v st Hk Hst. by apply rle_put_spec.
  - exists values, nulls. pose proof Hst as [-> _]. by split.
Qed.

(** Decoding what was encoded. *)
Lemma EncodeDecodeRLE values nulls :
  (length values ≤ 8 * length nulls)%nat → Z.of_nat (length values) < 2 ^ 32 →
  ∃ b values' nulls',
    EncodeRLEBool values nulls = Ret b ∧
    DecodeRLEBool b = Ret (values', nulls', length values) ∧
    length values' = length values ∧ length nulls' = ((length values + 7) / 8)%nat ∧
    (∀ i, bit_valid nulls' i = bool_decide (i < length values)%nat && bit_valid nulls i) ∧
    (∀ i v, values !! i = Some v → values' !! i = Some (bit_valid nulls i && v)).
Proof.
  intros Hc Hn. destruct (EncodeRLEBool_spec values nulls Hc Hn) as (runs & E & Hok & Hex & Hl).
  destruct (DecodeRLEBool_body runs Hok) as (values' & nulls' & D & Hst); [lia|].
  rewrite Hex, length_bool_syms in *. destruct Hst as (_ & Hlv & Hln & _ & Hv & Hb).
  rewrite length_bool_syms in *. exists (AppendChecksum (rle_body runs)), values', nulls'.
  assert (Hsym : ∀ i v, values !! i = Some v →
    bool_syms values nulls !! i = Some (bool_sym v (bit_valid nulls i))).
  { intros i v Hi. unfold bool_syms. by rewrite list_lookup_imap, Hi. }
  split; [done|]. split; [done|]. split; [done|]. split; [done|]. split.
  - intros i. rewrite Hb. destruct (decide (i < length values)%nat) as [Hi|Hi].
    + destruct (lookup_lt_is_Some_2 _ _ Hi) as [v Hvi]. rewrite (Hsym _ _ Hvi).
      rewrite (bool_decide_true (i < length values)%nat) by done. simpl.
      destruct (bit_valid nulls i); [apply bool_decide_true|apply bool_decide_false]; [|naive_solver].
      split; [done|]. intros [_ Hx]. by destruct v.
    + rewrite !bool_decide_false by naive_solver. done.
  - intros i v Hvi. pose proof (lookup_lt_Some _ _ _ Hvi) as Hi. rewrite Hv by done.
    f_equal. rewrite (Hsym _ _ Hvi).
    destruct (bit_valid nulls i), v; simpl;
      (apply bool_decide_true || apply bool_decide_false); naive_solver.
Qed.

(** ** Properties *)

(** Adding strings one after the other: their codes and the final builder. *)
Fixpoint add_all (db : DictBuilder) (ss : list string) : list Z * DictBuilder :=
  match ss with
  | [] => ([], db)
  | s :: ss => let '(c, db) := Add db s in let '(cs, db) := add_all db ss in (c :: cs, db)
  end.
(** A sequence of [Get]s on one dictionary, its memo threaded through. *)
Fixpoint get_all (d : Dictionary) (codes : list Z) : go (list string) :=
  match codes with
  | [] => Ret []
  | c :: cs => '(s, d) ← Get d c; ss ← get_all d cs; Ret (s :: ss)
  end.

Definition coded (keys : list string) (c : Z) (s : string) : Prop :=
  ∃ i, c = Z.of_nat i ∧ keys !! i = Some s.

Lemma add_all_spec db ss :
  db_wf db → Z.of_nat (length (db_keys db) + length ss) < 2 ^ 32 →
  let '(codes, db') := add_all db ss in
  db_wf db' ∧ (∃ more, db_keys db' = db_keys db ++ more ∧ (length more ≤ length ss)%nat ∧
    (length (dict_data more) ≤ length (dict_data ss))%nat) ∧
  Forall2 (coded (db_keys db')) codes ss.
Proof.
  revert db. induction ss as [|s ss IH]; intros db Hwf Hn; cbn [add_all].
  { split; [done|]. split; [by exists []; rewrite app_nil_r|constructor]. }
  cbn [length] in Hn. destruct (Add_wf db s Hwf) as [Hwf' (i & Hc & Hi)]; [lia|].
  pose proof (Add_keys db s Hwf) as Hk. destruct (Add db s) as [c db1]. cbn [fst snd] in *. subst c.
  assert (∃ m1, db_keys db1 = db_keys db ++ m1 ∧ (length m1 ≤ 1)%nat ∧
    (length (dict_data m1) ≤ length (bytes_of s))%nat) as (m1 & Hk1 & Hl1 & Hd1).
  { case_decide; [exists []; rewrite app_nil_r; split; [done|simpl; lia]|exists [s]].
    unfold dict_data. simpl. rewrite app_nil_r. auto. }
  specialize (IH db1 Hwf'). destruct (add_all db1 ss) as [codes db2].
  rewrite Hk1, length_app in IH. destruct IH as (Hwf2 & (m2 & Hk2 & Hl2 & Hd2) & Hcs); [lia|].
  split; [done|]. split.
  - exists (m1 ++ m2). rewrite Hk2, app_assoc. split; [done|].
    rewrite dict_data_app, !length_app.
    change (dict_data (s :: ss)) with (bytes_of s ++ dict_data ss). rewrite length_app.
    cbn [length]. lia.
  - constructor; [|done]. exists i. split; [done|]. rewrite Hk2, <- Hk1.
    by apply lookup_app_l_Some.
Qed.

Lemma get_all_spec keys d codes ss :
  dict_fits keys → dict_inv keys d → Forall2 (coded keys) codes ss → get_all d codes = Ret ss.
Proof.
  intros Hfit Hd H. revert d Hd. induction H as [|c s codes ss (i & -> & Hi) _ IH]; intros d Hd; [done|].
  cbn [get_all]. destruct (Get_spec _ _ _ _ Hfit Hd Hi) as (d' & -> & Hd').
  cbn [mbind go_bind]. by rewrite (IH d' Hd').
Qed.

(** C38: The dictionary round-trips.  Strings added to a fresh builder get codes
    whose entries are those strings; the marshalled dictionary parses, and
    looking codes up in it in any order and with any repetition (so with the
    memo in any state) gives back exactly the strings they were handed out for. *)
Theorem dictionary_roundtrip ss (order : list nat) :
  Z.of_nat (length ss) < 2 ^ 32 → Z.of_nat (length (dict_data ss)) < 2 ^ 32 →
  Forall (λ i, (i < length ss)%nat) order →
  let '(codes, db) := add_all NewDictBuilder ss in
  NoDup (db_keys db) ∧
  ∃ b d, Marshal db = Ret b ∧ UnmarshalDictionary b = Ret d ∧
    get_all d (omap (codes !!.) order) = Ret (omap (ss !!.) order).
Proof.
  intros Hn Hd Hord. pose proof (add_all_spec NewDictBuilder ss db_wf_new) as H.
  destruct (add_all NewDictBuilder ss) as [codes db].
  destruct H as (Hwf & (more & Hk & Hl & Hld) & Hc); [simpl; lia|].
  simpl in Hk. subst more. assert (Hfit : dict_fits (db_keys db)) by (split; lia).
  split; [by apply db_wf_NoDup|]. do 2 eexists. split; [by apply Marshal_spec|].
  split; [by apply UnmarshalDictionary_body|].
  eapply get_all_spec; [done|apply dict_inv_fresh|].
  induction Hord as [|i order Hi _ IH]; [constructor|].
  destruct (lookup_lt_is_Some_2 ss i Hi) as [s Hs].
  destruct (Forall2_lookup_r _ _ _ _ _ Hc Hs) as (c & Hci & Hcs).
  simpl. rewrite Hs, Hci. by constructor.
Qed.

Lemma dictionary_roundtrip_witness :
  let '(codes, db) := add_all NewDictBuilder ["AIR"; ""; "MAIL"; "AIR"]%string in
  NoDup (db_keys db) ∧
  ∃ b d, Marshal db = Ret b ∧ UnmarshalDictionary b = Ret d ∧
    get_all d (omap (codes !!.) [3; 1; 0; 2; 1]%nat)
    = Ret (omap (["AIR"; ""; "MAIL"; "AIR"]%string !!.) [3; 1; 0; 2; 1]%nat).
Proof.
  apply (dictionary_roundtrip ["AIR"; ""; "MAIL"; "AIR"]%string [3; 1; 0; 2; 1]%nat);
    [reflexivity|reflexivity|]. repeat constructor; simpl; lia.
Defined.

(** C39: The boolean RLE codec round-trips.  A block of booleans with any null
    bitmap that covers it decodes to as many rows, NULL exactly where the
    bitmap said so and with every non-NULL value unchanged (a NULL row decodes
    as false); the decoded bitmap has no bit beyond the rows. *)
Theorem RLE_roundtrip values nulls :
  (length values ≤ 8 * length nulls)%nat → Z.of_nat (length values) < 2 ^ 32 →
  ∃ b values' nulls',
    EncodeRLEBool values nulls = Ret b ∧
    DecodeRLEBool b = Ret (values', nulls', length values) ∧
    length values' = length values ∧ length nulls' = ((length values + 7) / 8)%nat ∧
    (∀ i, bit_valid nulls' i = bool_decide (i < length values)%nat && bit_valid nulls i) ∧
    (∀ i v, values !! i = Some v → values' !! i = Some (bit_valid nulls i && v)).
Proof. apply EncodeDecodeRLE. Qed.

Lemma RLE_roundtrip_witness :
  ∃ b values' nulls',
    EncodeRLEBool [true; true; false; true] [11] = Ret b ∧
    DecodeRLEBool b = Ret (values', nulls', 4%nat) ∧
    length values' = 4%nat ∧ length nulls' = 1%nat ∧
    (∀ i, bit_valid nulls' i = bool_decide (i < 4)%nat && bit_valid [11] i) ∧
    (∀ i v, [true; true; false; true] !! i = Some v → values' !! i = Some (bit_valid [11] i && v)).
Proof. apply (RLE_roundtrip [true; true; false; true] [11]); [simpl; lia|reflexivity]. Defined.

(** Bitmaps are sets of rows.  Within its bytes, [SetValidBit] and
    [SetNullBit] change the validity of one row and of no other, [IsNullBit]
    reads it, and a full bitmap holds exactly the rows asked for. *)
Lemma bitmap_set_get bm rows i j :
  (i / 8 < length bm)%nat → (j / 8 < length bm)%nat →
  (∃ bm', SetValidBit bm i = Ret bm' ∧
     IsNullBit bm' j = if decide (j = i) then Ret false else IsNullBit bm j) ∧
  (∃ bm', SetNullBit bm i = Ret bm' ∧
     IsNullBit bm' j = if decide (j = i) then Ret true else IsNullBit bm j) ∧
  (∀ k, (k < rows)%nat → IsNullBit (FullBitmap rows) k = Ret false).
Proof.
  intros Hi Hj. split; [|split].
  - eexists. split; [by apply SetValidBit_Ret|]. rewrite !IsNullBit_Ret by by rewrite ?length_bm_set.
    rewrite bit_valid_bm_set by done. by case_decide.
  - eexists. split; [by apply SetNullBit_Ret|]. rewrite !IsNullBit_Ret by by rewrite ?length_bm_set.
    rewrite bit_valid_bm_set by done. by case_decide.
  - intros k Hk. rewrite IsNullBit_Ret by (rewrite length_FullBitmap; lia).
    by rewrite bit_valid_FullBitmap, bool_decide_true.
Qed.

Lemma bitmap_set_get_witness :
  (∃ bm', SetValidBit [0; 0] 9 = Ret bm' ∧
     IsNullBit bm' 9 = if decide (9 = 9)%nat then Ret false else IsNullBit [0; 0] 9) ∧
  (∃ bm', SetNullBit [0; 0] 9 = Ret bm' ∧
     IsNullBit bm' 9 = if decide (9 = 9)%nat then Ret true else IsNullBit [0; 0] 9) ∧
  (∀ k, (k < 11)%nat → IsNullBit (FullBitmap 11) k = Ret false).
Proof. apply (bitmap_set_get [0; 0] 11 9 9); apply Nat.ltb_lt; reflexivity. Defined.
