(* ===== verification/Float64.v ===== *)
(** * IEEE 754 binary64, as Go's [float64]

    A [float64] is modelled by its bit pattern, a [Z] in [0, 2^64): the storage
    layer moves bit patterns ([math.Float64bits]) and NaN payloads survive it.
    Arithmetic and comparison go through the executable [SpecFloat] operations
    of the Standard Library at precision 53 and maximal exponent 1024.  A NaN
    produced by arithmetic has the pattern of [math.NaN()]; Go leaves that
    payload to the hardware. *)
From Stdlib Require Import ZArith Lia SpecFloat.
From stdpp Require Import base numbers list.
From S2P Require Import Prelude.
#[local] Open Scope Z_scope.

(** ** Bit patterns *)

Definition f64_sign (b : Z) : bool := Z.testbit b 63.
Definition f64_exp (b : Z) : Z := (b / 2 ^ 52) mod 2 ^ 11.
Definition f64_man (b : Z) : Z := b mod 2 ^ 52.

(** [math.Float64frombits]. *)
Definition f64_decode (b : Z) : spec_float :=
  let s := f64_sign b in
  let e := f64_exp b in
  let m := f64_man b in
  if e =? 2047 then (if m =? 0 then S754_infinity s else S754_nan)
  else if e =? 0 then (if m =? 0 then S754_zero s else S754_finite s (Z.to_pos m) (-1074))
  else S754_finite s (Z.to_pos (2 ^ 52 + m)) (e - 1075).

Definition f64_sign_bit (s : bool) : Z := if s then 2 ^ 63 else 0.
Definition f64_nan : Z := 0x7FF8000000000001.
(** [math.Float64bits], a 64-bit word. *)
Definition f64_encode (f : spec_float) : Z :=
  to_u64 match f with
  | S754_nan => f64_nan
  | S754_infinity s => f64_sign_bit s + 2047 * 2 ^ 52
  | S754_zero s => f64_sign_bit s
  | S754_finite s m e =>
      if Zpos m <? 2 ^ 52 then f64_sign_bit s + Zpos m
      else f64_sign_bit s + (e + 1075) * 2 ^ 52 + (Zpos m - 2 ^ 52)
  end.

Definition f64_isNaN (b : Z) : bool := (f64_exp b =? 2047) && negb (f64_man b =? 0).

Definition f64_add (a b : Z) : Z := f64_encode (SFadd 53 1024 (f64_decode a) (f64_decode b)).
Definition f64_sub (a b : Z) : Z := f64_encode (SFsub 53 1024 (f64_decode a) (f64_decode b)).
Definition f64_mul (a b : Z) : Z := f64_encode (SFmul 53 1024 (f64_decode a) (f64_decode b)).
Definition f64_div (a b : Z) : Z := f64_encode (SFdiv 53 1024 (f64_decode a) (f64_decode b)).
(** Unary minus flips the sign bit. *)
Definition f64_neg (b : Z) : Z := Z.lxor b (2 ^ 63).
(** [float64(v)] for an integer [v]. *)
Definition f64_of_int (v : Z) : Z := f64_encode (binary_normalize 53 1024 v 0 false).

Definition f64_eq (a b : Z) : bool := SFeqb (f64_decode a) (f64_decode b).
Definition f64_lt (a b : Z) : bool := SFltb (f64_decode a) (f64_decode b).
Definition f64_le (a b : Z) : bool := SFleb (f64_decode a) (f64_decode b).

Example f64_one_half : f64_div (f64_of_int 1) (f64_of_int 2) = 0x3FE0000000000000.
Proof. reflexivity. Qed.
Example f64_tenths : f64_add (f64_div (f64_of_int 1) (f64_of_int 10))
    (f64_div (f64_of_int 2) (f64_of_int 10)) = 0x3FD3333333333334.
Proof. vm_compute. reflexivity. Qed.
Example f64_neg_zero_eq : f64_eq 0 (2 ^ 63) = true.
Proof. reflexivity. Qed.

Lemma f64_encode_in f : inU 64 (f64_encode f).
Proof. by apply wrapU_in. Qed.

(** ** The order of non-NaN values

    Away from NaN the order is the order of the sign-magnitude reading of the
    bit pattern; both zeros read as 0. *)

Definition f64_key (b : Z) : Z := if f64_sign b then - (b mod 2 ^ 63) else b mod 2 ^ 63.

Lemma f64_sign_spec b : inU 64 b → f64_sign b = (2 ^ 63 <=? b).
Proof.
  intros [H0 H1]. unfold f64_sign. destruct (Z.leb_spec (2 ^ 63) b).
  - apply Z.testbit_true; [lia|]. rewrite (Z.div_unique b (2 ^ 63) 1 (b - 2 ^ 63)); lia.
  - apply Z.testbit_false; [lia|]. by rewrite Z.div_small by lia.
Qed.

(** The fields of a pattern, and the magnitude they determine. *)
Lemma f64_fields b :
  inU 64 b →
  0 ≤ f64_man b < 2 ^ 52 ∧ 0 ≤ f64_exp b ≤ 2047 ∧
  b mod 2 ^ 63 = f64_exp b * 2 ^ 52 + f64_man b.
Proof.
  intros [H0 H1]. unfold f64_man, f64_exp.
  change (2 ^ 11) with 2048. change (2 ^ 52) with 4503599627370496.
  change (2 ^ 63) with 9223372036854775808. change (2 ^ 64) with 18446744073709551616 in *.
  split; [lia|]. split; [lia|]. lia.
Qed.

Lemma pos_compare_cont_Eq m n : Pos.compare_cont Eq m n = (Zpos m ?= Zpos n).
Proof. reflexivity. Qed.

Lemma f64_compare_key a b :
  inU 64 a → inU 64 b → f64_isNaN a = false → f64_isNaN b = false →
  SFcompare (f64_decode a) (f64_decode b) = Some (f64_key a ?= f64_key b).
Proof.
  intros Ha Hb Na Nb.
  destruct (f64_fields a Ha) as (Ma & Ea & Ka), (f64_fields b Hb) as (Mb & Eb & Kb).
  unfold f64_key. rewrite Ka, Kb. unfold f64_isNaN in *. unfold f64_decode.
  revert Ma Ea Mb Eb Na Nb. clear Ka Kb Ha Hb.
  generalize (f64_man a) (f64_exp a) (f64_man b) (f64_exp b) (f64_sign a) (f64_sign b).
  change (2 ^ 52) with 4503599627370496.
  intros ma ea mb eb sa sb Ma Ea Mb Eb Na Nb.
  destruct (Z.eqb_spec ea 2047), (Z.eqb_spec ma 0), (Z.eqb_spec eb 2047), (Z.eqb_spec mb 0);
    try discriminate; subst; simpl in Na, Nb; try discriminate;
    repeat match goal with |- context [?e =? 0] => destruct (Z.eqb_spec e 0) end; subst;
    destruct sa, sb; unfold SFcompare; rewrite ?pos_compare_cont_Eq; f_equal; symmetry;
    repeat match goal with
    | |- context [match ?x ?= ?y with _ => _ end] => destruct (Z.compare_spec x y)
    | |- context [CompOpp (?x ?= ?y)] => rewrite <- (Z.compare_antisym x y)
    end; try lia;
    try (apply Z.compare_lt_iff; lia); try (apply Z.compare_gt_iff; lia);
    try (apply Z.compare_eq_iff; lia);
    rewrite ?Z2Pos.id by lia;
    match goal with |- (?x ?= ?y) = (?u ?= ?v) => destruct (Z.compare_spec u v);
      [apply Z.compare_eq_iff|apply Z.compare_lt_iff|apply Z.compare_gt_iff]; lia end.
Qed.

Lemma f64_decode_nan b : inU 64 b → f64_isNaN b = true ↔ f64_decode b = S754_nan.
Proof.
  intros Hb. unfold f64_isNaN, f64_decode.
  destruct (f64_exp b =? 2047), (f64_man b =? 0), (f64_exp b =? 0); simpl; done.
Qed.

Lemma f64_compare_spec a b :
  inU 64 a → inU 64 b →
  SFcompare (f64_decode a) (f64_decode b)
  = if f64_isNaN a || f64_isNaN b then None else Some (f64_key a ?= f64_key b).
Proof.
  intros Ha Hb. destruct (f64_isNaN a) eqn:Na; simpl.
  { apply f64_decode_nan in Na; [|done]. by rewrite Na. }
  destruct (f64_isNaN b) eqn:Nb; [|by apply f64_compare_key].
  apply f64_decode_nan in Nb; [|done]. rewrite Nb. by destruct (f64_decode a).
Qed.

#[local] Ltac f64_cmp a b :=
  rewrite f64_compare_spec by done;
  destruct (f64_isNaN a), (f64_isNaN b); simpl; [naive_solver..|];
  destruct (Z.compare_spec (f64_key a) (f64_key b)); naive_solver lia.

(** A comparison that holds involves no NaN, and is the comparison of keys. *)
Lemma f64_lt_spec a b :
  inU 64 a → inU 64 b →
  f64_lt a b = true ↔ f64_isNaN a = false ∧ f64_isNaN b = false ∧ f64_key a < f64_key b.
Proof. intros. unfold f64_lt, SFltb. f64_cmp a b. Qed.
Lemma f64_le_spec a b :
  inU 64 a → inU 64 b →
  f64_le a b = true ↔ f64_isNaN a = false ∧ f64_isNaN b = false ∧ f64_key a ≤ f64_key b.
Proof. intros. unfold f64_le, SFleb. f64_cmp a b. Qed.
Lemma f64_eq_spec a b :
  inU 64 a → inU 64 b →
  f64_eq a b = true ↔ f64_isNaN a = false ∧ f64_isNaN b = false ∧ f64_key a = f64_key b.
Proof. intros. unfold f64_eq, SFeqb. f64_cmp a b. Qed.
