(* ===== verification/Schema.v ===== *)
(** * Package storage: constants and metadata ([storage/format.go],
    [storage/schema.go])

    [DataType] and [Encoding] are one-byte enumerations that the footer parser
    reads without validation, so each has a constructor for the other bytes. *)
From Stdlib Require Import ZArith Lia.
From stdpp Require Import base numbers list strings.
From S2P Require Import Prelude.
#[local] Open Scope Z_scope.

Definition Magic : list Z := [86; 88; 81; 49].  (* "VXQ1" *)
Definition BlockRows : nat := 1024.
Definition RowGroupRows : Z := 65536.
Definition NullBitmapBytes : nat := (BlockRows + 7) / 8.
Definition FooterTrailerSize : Z := 16.

Inductive DataType : Type :=
  | TypeInt64 | TypeFloat64 | TypeBool | TypeString | TypeDate
  | TypeOther (b : Z).
#[export] Instance DataType_eq_dec : EqDecision DataType.
Proof. solve_decision. Defined.

(** [DataType(b)] and [byte(t)]. *)
Definition DataType_of_byte (b : Z) : DataType :=
  if decide (b = 1) then TypeInt64 else if decide (b = 2) then TypeFloat64
  else if decide (b = 3) then TypeBool else if decide (b = 4) then TypeString
  else if decide (b = 5) then TypeDate else TypeOther b.
Definition DataType_byte (t : DataType) : Z :=
  match t with
  | TypeInt64 => 1 | TypeFloat64 => 2 | TypeBool => 3 | TypeString => 4 | TypeDate => 5
  | TypeOther b => b
  end.

Definition DataType_String (t : DataType) : string :=
  match t with
  | TypeInt64 => "INT64" | TypeFloat64 => "FLOAT64" | TypeBool => "BOOL"
  | TypeString => "STRING" | TypeDate => "DATE" | TypeOther _ => "UNKNOWN"
  end.
Definition ValueSize (t : DataType) : nat :=
  match t with
  | TypeInt64 | TypeFloat64 => 8
  | TypeDate => 4
  | TypeString => 4
  | _ => 0
  end.

Inductive Encoding : Type := EncPlain | EncRLE | EncDict | EncOther (b : Z).
#[export] Instance Encoding_eq_dec : EqDecision Encoding.
Proof. solve_decision. Defined.
Definition Encoding_of_byte (b : Z) : Encoding :=
  if decide (b = 0) then EncPlain else if decide (b = 1) then EncRLE
  else if decide (b = 2) then EncDict else EncOther b.
Definition Encoding_byte (e : Encoding) : Z :=
  match e with EncPlain => 0 | EncRLE => 1 | EncDict => 2 | EncOther b => b end.

Record Field : Type := mkField {
  Name : string;
  Type_ : DataType;
  Enc : Encoding;
  Nullable : bool
}.
#[export] Instance Field_eq_dec : EqDecision Field.
Proof. solve_decision. Defined.

(** [Schema] is its list of fields. *)
Abbreviation Schema := (list Field).

(** [IndexOf]: the first field of that name, or -1. *)
Fixpoint IndexOf_from (i : Z) (s : Schema) (name : string) : Z :=
  match s with
  | [] => -1
  | f :: s => if decide (Name f = name) then i else IndexOf_from (i + 1) s name
  end.
Definition IndexOf (s : Schema) (name : string) : Z := IndexOf_from 0 s name.

Record ZoneMap : Type := mkZoneMap {
  NullCount : Z;
  Sum : Z;        (* raw bits: int64, or float64 bits read as int64 *)
  Min : Z;        (* raw uint64 bits *)
  Max : Z;
  HasMinMax : bool
}.
#[export] Instance ZoneMap_eq_dec : EqDecision ZoneMap.
Proof. solve_decision. Defined.
Definition zeroZoneMap : ZoneMap := mkZoneMap 0 0 0 0 false.

Record ColumnSectionMeta : Type := mkColumnSectionMeta {
  SectionOffset : Z;
  SectionLength : Z;
  Stats : ZoneMap;
  DictOffset : Z;
  DictLength : Z
}.
#[export] Instance ColumnSectionMeta_eq_dec : EqDecision ColumnSectionMeta.
Proof. solve_decision. Defined.

Record RowGroupMeta : Type := mkRowGroupMeta {
  FileOffset : Z;
  NumRows : nat;
  Columns : list ColumnSectionMeta
}.
#[export] Instance RowGroupMeta_eq_dec : EqDecision RowGroupMeta.
Proof. solve_decision. Defined.

Record FileMeta : Type := mkFileMeta {
  fm_Schema : Schema;
  RowGroups : list RowGroupMeta
}.

(** ** Lemmas *)

Lemma DataType_byte_inv t :
  match t with TypeOther b => ¬ (1 ≤ b ≤ 5) | _ => True end →
  DataType_of_byte (DataType_byte t) = t.
Proof.
  destruct t as [| | | | |b]; try done. intros Hb. unfold DataType_of_byte. simpl.
  by repeat (rewrite decide_False by lia).
Qed.
Lemma Encoding_byte_inv e :
  match e with EncOther b => ¬ (0 ≤ b ≤ 2) | _ => True end →
  Encoding_of_byte (Encoding_byte e) = e.
Proof.
  destruct e as [| | |b]; try done. intros Hb. unfold Encoding_of_byte. simpl.
  by repeat (rewrite decide_False by lia).
Qed.

Lemma IndexOf_from_spec i s name :
  match list_find (λ f, Name f = name) s with
  | Some (k, f) => IndexOf_from i s name = i + Z.of_nat k
  | None => IndexOf_from i s name = -1
  end.
Proof.
  revert i. induction s as [|f s IH]; intros i; [done|]. cbn [IndexOf_from list_find].
  destruct (decide (Name f = name)); simpl; [lia|]. specialize (IH (i + 1)).
  destruct (list_find _ s) as [[k g]|]; simpl; [|done]. lia.
Qed.

(** [IndexOf] finds a column exactly when it exists, at its first position. *)
Lemma IndexOf_Some s name k f :
  list_find (λ f, Name f = name) s = Some (k, f) → IndexOf s name = Z.of_nat k.
Proof. intros H. pose proof (IndexOf_from_spec 0 s name) as E. by rewrite H in E. Qed.
Lemma IndexOf_None s name :
  list_find (λ f, Name f = name) s = None → IndexOf s name = -1.
Proof. intros H. pose proof (IndexOf_from_spec 0 s name) as E. by rewrite H in E. Qed.
