(* ===== verification/Writer.v ===== *)
(** * Package storage: the file writer ([storage/writer.go])

    The writer's state, its operations with every guard, the block writers with
    their zone-map statistics, and the footer.  The bytes handed to the buffered
    writer are the list [w_out]; a failing write panics in the source and is not
    modelled, the failures of [Finish] are. *)
From Stdlib Require Import ZArith Lia ZifyNat.
From stdpp Require Import base numbers list strings gmap.
From S2P Require Import Prelude Encoding Codec Float64 Schema.
#[local] Open Scope Z_scope.

(** ** State *)

Record Writer : Type := mkWriter {
  w_path : string;
  w_schema : Schema;
  w_tmpPath : string;
  w_out : list Z;
  w_offset : Z;
  w_rgs : list RowGroupMeta;
  w_rgNumRows : nat;
  w_rgColWritten : list bool;
  w_rgColMeta : list ColumnSectionMeta;
  w_rgStartOff : Z
}.

(** The dynamic types [AppendColumn] accepts; [VOther] is any other one. *)
Inductive ColumnValues : Type :=
  | VInt64 (vs : list Z)
  | VFloat64 (vs : list Z)
  | VBool (vs : list bool)
  | VString (vs : list string)
  | VDate (vs : list Z)
  | VOther.

(** The file system: path to contents. *)
Abbreviation FS := (gmap string (list Z)).

Definition mustWrite (w : Writer) (b : list Z) : Writer :=
  mkWriter (w_path w) (w_schema w) (w_tmpPath w) (w_out w ++ b)
    (w_offset w + Z.of_nat (length b)) (w_rgs w) (w_rgNumRows w)
    (w_rgColWritten w) (w_rgColMeta w) (w_rgStartOff w).

Definition NewWriter (path : string) (schema : Schema) (fs : FS) : Writer * FS :=
  let tmp := (path +:+ ".tmp")%string in
  (mkWriter path schema tmp Magic (Z.of_nat (length Magic)) [] 0 [] [] 0, <[tmp := []]> fs).

Definition BeginRowGroup (w : Writer) (numRows : nat) : go Writer :=
  if decide (w_rgNumRows w ≠ 0%nat) then Err ErrRowGroupOpen else
  Ret (mkWriter (w_path w) (w_schema w) (w_tmpPath w) (w_out w) (w_offset w) (w_rgs w)
    numRows (replicate (length (w_schema w)) false)
    (replicate (length (w_schema w)) (mkColumnSectionMeta 0 0 zeroZoneMap 0 0))
    (w_offset w)).

(** ** Block writers *)

(** [for blockStart := 0; blockStart < n; blockStart += BlockRows]. *)
Definition block_starts (n : nat) : list nat :=
  (λ k, k * BlockRows)%nat <$> seq 0 ((n + (BlockRows - 1)) / BlockRows).

Definition subBitmap (bitmap : list Z) (start rows : nat) : go (list Z) :=
  foldM (λ sub i,
      isnull ← IsNullBit bitmap (start + i);
      if (isnull : bool) then Ret sub else SetValidBit sub i)
    (replicate ((rows + 7) / 8) 0) (seq 0 rows).

(** [bitmapFull := make([]byte, NullBitmapBytes); copy(bitmapFull, blockNulls)]. *)
Definition bitmapFull (blockNulls : list Z) : list Z :=
  take NullBitmapBytes blockNulls ++ replicate (NullBitmapBytes - length blockNulls) 0.

Definition block_end (n blockStart : nat) : nat :=
  if decide (n < blockStart + BlockRows)%nat then n else (blockStart + BlockRows)%nat.

Definition int64_stat (blockNulls : list Z) (stats : ZoneMap) (iv : nat * Z) : go ZoneMap :=
  let '(i, v) := iv in
  isnull ← IsNullBit blockNulls i;
  if (isnull : bool) then
    Ret (mkZoneMap (NullCount stats + 1) (Sum stats) (Min stats) (Max stats) (HasMinMax stats))
  else
    let sum := to_i64 (Sum stats + v) in
    let uv := to_u64 v in
    if HasMinMax stats then
      let mn := if v <? to_i64 (Min stats) then uv else Min stats in
      let mx := if v >? to_i64 (Max stats) then uv else Max stats in
      Ret (mkZoneMap (NullCount stats) sum mn mx true)
    else Ret (mkZoneMap (NullCount stats) sum uv uv true).

Definition writeInt64Blocks (w : Writer) (nullBitmap : list Z) (values : list Z)
    : go (Writer * ZoneMap) :=
  let n := length values in
  foldM (λ '(w, stats) blockStart,
      let stop := block_end n blockStart in
      blockNulls ← subBitmap nullBitmap blockStart (stop - blockStart);
      blockVals ← slice values blockStart stop;
      let buf := foldl AppendInt64 (bitmapFull blockNulls) blockVals in
      let w := mustWrite w (AppendChecksum buf) in
      stats ← foldM (int64_stat blockNulls) stats (enum blockVals);
      Ret (w, stats))
    (w, zeroZoneMap) (block_starts n).

(** The float statistics keep [sumF], [minF], [maxF] beside the zone map. *)
Definition float64_stat (blockNulls : list Z) (st : ZoneMap * Z * Z * Z) (iv : nat * Z)
    : go (ZoneMap * Z * Z * Z) :=
  let '(stats, sumF, minF, maxF) := st in
  let '(i, v) := iv in
  isnull ← IsNullBit blockNulls i;
  if (isnull : bool) then
    Ret (mkZoneMap (NullCount stats + 1) (Sum stats) (Min stats) (Max stats) (HasMinMax stats),
         sumF, minF, maxF)
  else
    let sumF := f64_add sumF v in
    if HasMinMax stats then
      let minF := if f64_lt v minF then v else minF in
      let maxF := if f64_lt maxF v then v else maxF in
      Ret (stats, sumF, minF, maxF)
    else
      Ret (mkZoneMap (NullCount stats) (Sum stats) (Min stats) (Max stats) true, sumF, v, v).

Definition float64_finish (st : ZoneMap * Z * Z * Z) : ZoneMap :=
  let '(stats, sumF, minF, maxF) := st in
  if HasMinMax stats then mkZoneMap (NullCount stats) (to_i64 sumF) minF maxF true
  else mkZoneMap (NullCount stats) (to_i64 sumF) (Min stats) (Max stats) false.

Definition writeFloat64Blocks (w : Writer) (nullBitmap : list Z) (values : list Z)
    : go (Writer * ZoneMap) :=
  let n := length values in
  '(w, st) ← foldM (λ '(w, st) blockStart,
      let stop := block_end n blockStart in
      blockNulls ← subBitmap nullBitmap blockStart (stop - blockStart);
      blockVals ← slice values blockStart stop;
      let buf := foldl AppendFloat64 (bitmapFull blockNulls) blockVals in
      let w := mustWrite w (AppendChecksum buf) in
      st ← foldM (float64_stat blockNulls) st (enum blockVals);
      Ret (w, st))
    (w, (zeroZoneMap, 0, 0, 0)) (block_starts n);
  Ret (w, float64_finish st).

Definition date_stat (blockNulls : list Z) (stats : ZoneMap) (iv : nat * Z) : go ZoneMap :=
  let '(i, v) := iv in
  isnull ← IsNullBit blockNulls i;
  if (isnull : bool) then
    Ret (mkZoneMap (NullCount stats + 1) (Sum stats) (Min stats) (Max stats) (HasMinMax stats))
  else
    let uv := to_u32 v in
    if HasMinMax stats then
      let mn := if to_i32 (Min stats) >? v then uv else Min stats in
      let mx := if to_i32 (Max stats) <? v then uv else Max stats in
      Ret (mkZoneMap (NullCount stats) (Sum stats) mn mx true)
    else Ret (mkZoneMap (NullCount stats) (Sum stats) uv uv true).

Definition writeDateBlocks (w : Writer) (nullBitmap : list Z) (values : list Z)
    : go (Writer * ZoneMap) :=
  let n := length values in
  foldM (λ '(w, stats) blockStart,
      let stop := block_end n blockStart in
      blockNulls ← subBitmap nullBitmap blockStart (stop - blockStart);
      blockVals ← slice values blockStart stop;
      let buf := foldl AppendInt32 (bitmapFull blockNulls) blockVals in
      let w := mustWrite w (AppendChecksum buf) in
      stats ← foldM (date_stat blockNulls) stats (enum blockVals);
      Ret (w, stats))
    (w, zeroZoneMap) (block_starts n).

Definition bool_stat (blockNulls : list Z) (stats : ZoneMap) (i : nat) : go ZoneMap :=
  isnull ← IsNullBit blockNulls i;
  if (isnull : bool) then
    Ret (mkZoneMap (NullCount stats + 1) (Sum stats) (Min stats) (Max stats) (HasMinMax stats))
  else Ret stats.

Definition writeBoolBlocks (w : Writer) (nullBitmap : list Z) (values : list bool)
    : go (Writer * ZoneMap) :=
  let n := length values in
  foldM (λ '(w, stats) blockStart,
      let stop := block_end n blockStart in
      blockNulls ← subBitmap nullBitmap blockStart (stop - blockStart);
      blockVals ← slice values blockStart stop;
      block ← EncodeRLEBool blockVals blockNulls;
      let w := mustWrite w block in
      stats ← foldM (bool_stat blockNulls) stats (seq 0 (length blockVals));
      Ret (w, stats))
    (w, zeroZoneMap) (block_starts n).

Definition string_code (nullBitmap : list Z) (st : DictBuilder * list Z * ZoneMap)
    (iv : nat * string) : go (DictBuilder * list Z * ZoneMap) :=
  let '(db, codes, stats) := st in
  let '(i, s) := iv in
  isnull ← IsNullBit nullBitmap i;
  if (isnull : bool) then
    codes ← store codes i 0xFFFFFFFF;
    Ret (db, codes,
      mkZoneMap (NullCount stats + 1) (Sum stats) (Min stats) (Max stats) (HasMinMax stats))
  else
    let '(c, db) := Add db s in
    codes ← store codes i c;
    Ret (db, codes, stats).

Definition writeStringBlocks (w : Writer) (nullBitmap : list Z) (values : list string)
    : go (Writer * ZoneMap * list Z) :=
  let n := length values in
  '(db, codes, stats) ← foldM (string_code nullBitmap)
    (NewDictBuilder, replicate n 0, zeroZoneMap) (enum values);
  let stats :=
    if decide (0 < db_Len db)%nat
    then mkZoneMap (NullCount stats) (Sum stats) 0 (Z.of_nat (db_Len db - 1)) true
    else stats in
  w ← foldM (λ w blockStart,
      let stop := block_end n blockStart in
      blockNulls ← subBitmap nullBitmap blockStart (stop - blockStart);
      blockCodes ← slice codes blockStart stop;
      let buf := foldl AppendUint32 (bitmapFull blockNulls) blockCodes in
      Ret (mustWrite w (AppendChecksum buf)))
    w (block_starts n);
  dict ← Marshal db;
  Ret (w, stats, dict).

(** ** Operations *)

Definition checkValueType (t : DataType) (values : ColumnValues) : go () :=
  match t, values with
  | TypeInt64, VInt64 _ | TypeFloat64, VFloat64 _ | TypeDate, VDate _
  | TypeBool, VBool _ | TypeString, VString _ => Ret ()
  | TypeOther _, _ => Ret ()
  | _, _ => Err ErrTypeMismatch
  end.

(** The switch of [AppendColumn]: writer, statistics, dictionary offset, length. *)
Definition writeColumn (w : Writer) (sectionStart : Z) (t : DataType) (nulls : list Z)
    (values : ColumnValues) : go (Writer * ZoneMap * Z * Z) :=
  match t, values with
  | TypeInt64, VInt64 vs => '(w, stats) ← writeInt64Blocks w nulls vs; Ret (w, stats, 0, 0)
  | TypeFloat64, VFloat64 vs => '(w, stats) ← writeFloat64Blocks w nulls vs; Ret (w, stats, 0, 0)
  | TypeDate, VDate vs => '(w, stats) ← writeDateBlocks w nulls vs; Ret (w, stats, 0, 0)
  | TypeBool, VBool vs => '(w, stats) ← writeBoolBlocks w nulls vs; Ret (w, stats, 0, 0)
  | TypeString, VString vs =>
      '(w, stats, dictBytes) ← writeStringBlocks w nulls vs;
      let dictOff := to_u32 (w_offset w - sectionStart) in
      Ret (mustWrite w dictBytes, stats, dictOff, to_u32 (Z.of_nat (length dictBytes)))
  | _, _ => Err (ErrMsg "unsupported type")
  end.

(** [ctxErr] is [ctx.Err() != nil]; [nulls = None] is a nil bitmap. *)
Definition AppendColumn (ctxErr : bool) (w : Writer) (idx : Z) (nulls : option (list Z))
    (values : ColumnValues) : go Writer :=
  if ctxErr then Err (ErrMsg "context") else
  if decide (w_rgNumRows w = 0%nat) then Err ErrRowGroupOpen else
  if decide (idx < 0 ∨ Z.of_nat (length (w_schema w)) ≤ idx)
  then Err (ErrMsg "index out of range") else
  let idx := Z.to_nat idx in
  done ← index (w_rgColWritten w) idx;
  if (done : bool) then Err ErrColumnComplete else
  field ← index (w_schema w) idx;
  _ ← checkValueType (Type_ field) values;
  let nulls := match nulls with Some b => b | None => FullBitmap (w_rgNumRows w) end in
  let sectionStart := w_offset w in
  '(w, stats, dictOff, dictLen) ← writeColumn w sectionStart (Type_ field) nulls values;
  let sectionLen := w_offset w - sectionStart in
  colMeta ← store (w_rgColMeta w) idx
    (mkColumnSectionMeta sectionStart sectionLen stats dictOff dictLen);
  written ← store (w_rgColWritten w) idx true;
  Ret (mkWriter (w_path w) (w_schema w) (w_tmpPath w) (w_out w) (w_offset w) (w_rgs w)
    (w_rgNumRows w) written colMeta (w_rgStartOff w)).

Definition EndRowGroup (w : Writer) : go Writer :=
  if decide (w_rgNumRows w = 0%nat) then Err ErrRowGroupOpen else
  if forallb id (w_rgColWritten w) then
    Ret (mkWriter (w_path w) (w_schema w) (w_tmpPath w) (w_out w) (w_offset w)
      (w_rgs w ++ [mkRowGroupMeta (w_rgStartOff w) (w_rgNumRows w) (w_rgColMeta w)])
      0 [] [] (w_rgStartOff w))
  else Err ErrMissingColumns.

(** ** Footer *)

Definition marshalField (body : list Z) (f : Field) : list Z :=
  let name := bytes_of (Name f) in
  let body := AppendUint16 body (to_u16 (Z.of_nat (length name))) in
  let body := body ++ name in
  let body := body ++ [DataType_byte (Type_ f)] in
  let body := body ++ [Encoding_byte (Enc f)] in
  body ++ [if Nullable f then 1 else 0].

Definition marshalColumn (body : list Z) (col : ColumnSectionMeta) : list Z :=
  let body := AppendInt64 body (SectionOffset col) in
  let body := AppendInt64 body (SectionLength col) in
  let body := AppendInt64 body (NullCount (Stats col)) in
  let body := AppendInt64 body (Sum (Stats col)) in
  let body := AppendUint64 body (Min (Stats col)) in
  let body := AppendUint64 body (Max (Stats col)) in
  let body := body ++ [if HasMinMax (Stats col) then 1 else 0] in
  let body := AppendUint32 body (DictOffset col) in
  AppendUint32 body (DictLength col).

Definition marshalRowGroup (body : list Z) (rg : RowGroupMeta) : list Z :=
  let body := AppendInt64 body (FileOffset rg) in
  let body := AppendUint32 body (to_u32 (Z.of_nat (NumRows rg))) in
  foldl marshalColumn body (Columns rg).

Definition marshalBody (schema : Schema) (rgs : list RowGroupMeta) : list Z :=
  let body := AppendUint32 [] (to_u32 (Z.of_nat (length schema))) in
  let body := foldl marshalField body schema in
  let body := AppendUint32 body (to_u32 (Z.of_nat (length rgs))) in
  foldl marshalRowGroup body rgs.

Definition marshalFooter (w : Writer) : list Z :=
  let body := marshalBody (w_schema w) (w_rgs w) in
  let trailer := AppendUint32 [] (ChecksumIEEE body) in
  let trailer := AppendInt64 trailer (Z.of_nat (length body)) in
  let trailer := trailer ++ Magic in
  body ++ trailer.

(** How far each step of [Finish] gets: [flush = Some n] fails after [n] bytes
    reached the file, the booleans are [err == nil]. *)
Record FinishIO : Type := mkFinishIO {
  io_flush : option nat; io_sync : bool; io_close : bool; io_rename : bool
}.

Definition Finish (io : FinishIO) (w : Writer) (fs : FS) : go () * FS :=
  if decide (w_rgNumRows w ≠ 0%nat) then (Err ErrRowGroupOpen, fs) else
  let w := mustWrite w (marshalFooter w) in
  match io_flush io with
  | Some n => (Err (ErrMsg "finish: flush"), <[w_tmpPath w := take n (w_out w)]> fs)
  | None =>
      let fs := <[w_tmpPath w := w_out w]> fs in
      if negb (io_sync io) then (Err (ErrMsg "finish: sync"), fs) else
      if negb (io_close io) then (Err (ErrMsg "finish: close"), fs) else
      if negb (io_rename io) then (Err (ErrMsg "finish: rename"), fs) else
      (Ret (), <[w_path w := w_out w]> (delete (w_tmpPath w) fs))
  end.

(** [Abort] removes the temporary file. *)
Definition Abort_ (w : Writer) (fs : FS) : FS := delete (w_tmpPath w) fs.
Definition BytesWritten (w : Writer) : Z := w_offset w.

(** ** Lemmas: blocks

    The abstract content of a column is its list of rows, [None] for NULL. *)

Definition col_rows {V} (nulls : list Z) (vals : list V) : list (option V) :=
  imap (λ i v, if bit_valid nulls i then Some v else None) vals.

Lemma length_col_rows {V} nulls (vals : list V) : length (col_rows nulls vals) = length vals.
Proof. apply length_imap. Qed.
Lemma lookup_col_rows {V} nulls (vals : list V) i v :
  vals !! i = Some v →
  col_rows nulls vals !! i = Some (if bit_valid nulls i then Some v else None).
Proof. intros H. unfold col_rows. by rewrite list_lookup_imap, H. Qed.

Lemma BlockRows_pos : (0 < BlockRows)%nat.
Proof. unfold BlockRows. lia. Qed.
Lemma BlockRows_8 : (BlockRows = 8 * NullBitmapBytes)%nat.
Proof. reflexivity. Qed.
#[global] Opaque BlockRows NullBitmapBytes.

Lemma lookup_block_starts n k s :
  block_starts n !! k = Some s ↔ s = (k * BlockRows)%nat ∧ (k * BlockRows < n)%nat.
Proof.
  unfold block_starts. rewrite list_lookup_fmap, fmap_Some. pose proof BlockRows_pos.
  split.
  - intros (j & [-> Hk]%lookup_seq & ->). simpl. split; [done|].
    pose proof (Nat.div_mod_eq (n + (BlockRows - 1)) BlockRows).
    pose proof (Nat.mod_upper_bound (n + (BlockRows - 1)) BlockRows). nia.
  - intros [-> Hk]. exists k. split; [|done]. apply lookup_seq. split; [done|].
    pose proof (Nat.div_mod_eq (n + (BlockRows - 1)) BlockRows).
    pose proof (Nat.mod_upper_bound (n + (BlockRows - 1)) BlockRows). nia.
Qed.
Lemma length_block_starts n :
  (length (block_starts n) * BlockRows < n + BlockRows ∧ n ≤ length (block_starts n) * BlockRows)%nat.
Proof.
  unfold block_starts. rewrite length_fmap, length_seq. pose proof BlockRows_pos.
  pose proof (Nat.div_mod_eq (n + (BlockRows - 1)) BlockRows).
  pose proof (Nat.mod_upper_bound (n + (BlockRows - 1)) BlockRows). nia.
Qed.

(** The block's bitmap: the validity of rows [start, start + rows). *)
Definition sub_bm (bm : list Z) (start rows : nat) : list Z :=
  foldl (λ sub i, if bit_valid bm (start + i) then bm_set true sub i else sub)
    (replicate ((rows + 7) / 8) 0) (seq 0 rows).

Lemma subBitmap_Ret bm start rows :
  (start + rows ≤ 8 * length bm)%nat →
  subBitmap bm start rows = Ret (sub_bm bm start rows) ∧
  length (sub_bm bm start rows) = ((rows + 7) / 8)%nat.
Proof.
  intros Hc. unfold subBitmap, sub_bm.
  apply (foldM_pure _ _ (λ sub, length sub = ((rows + 7) / 8)%nat)); [apply length_replicate|].
  intros sub i Hl Hi. apply elem_of_seq in Hi.
  rewrite IsNullBit_Ret by lia. cbn [mbind go_bind].
  destruct (bit_valid bm (start + i)); simpl; [|done].
  rewrite SetValidBit_Ret by lia. by rewrite length_bm_set.
Qed.

Lemma bit_valid_zeros n i : bit_valid (replicate n 0) i = false.
Proof.
  unfold bit_valid. destruct (decide (i / 8 < n)%nat).
  - rewrite lookup_replicate_2 by done. apply Z.testbit_0_l.
  - by rewrite lookup_replicate_ge by lia.
Qed.

Lemma sub_bm_spec bm start rows :
  (start + rows ≤ 8 * length bm)%nat →
  length (sub_bm bm start rows) = ((rows + 7) / 8)%nat ∧ bytes_ok (sub_bm bm start rows) ∧
  ∀ i, bit_valid (sub_bm bm start rows) i
       = bool_decide (i < rows)%nat && bit_valid bm (start + i).
Proof.
  intros Hc. unfold sub_bm.
  set (P := λ k sub, length sub = ((rows + 7) / 8)%nat ∧ bytes_ok sub ∧
      ∀ i, bit_valid sub i = bool_decide (i < k)%nat && bit_valid bm (start + i)).
  apply (foldl_seq_ind _ P).
  - split; [apply length_replicate|]. split; [by apply Forall_replicate|].
    intros i. by rewrite bit_valid_zeros, bool_decide_false by lia.
  - intros k sub Hk (Hl & Hok & Hb).
    destruct (bit_valid bm (start + k)) eqn:Ev; split_and!;
      rewrite ?length_bm_set; try done; try by apply bm_set_ok.
    + intros i. rewrite bit_valid_bm_set by lia. destruct (decide (i = k)) as [->|].
      * by rewrite bool_decide_true, Ev by lia.
      * rewrite Hb. f_equal. apply bool_decide_ext. lia.
    + intros i. rewrite Hb. destruct (decide (i = k)) as [->|].
      * by rewrite Ev, !andb_false_r.
      * f_equal. apply bool_decide_ext. lia.
Qed.

Lemma mustWrite_app w a b : mustWrite (mustWrite w a) b = mustWrite w (a ++ b).
Proof.
  unfold mustWrite. simpl. rewrite <- app_assoc, length_app. f_equal. lia.
Qed.
Lemma mustWrite_nil w : mustWrite w [] = w.
Proof. destruct w. unfold mustWrite. simpl. by rewrite app_nil_r, Z.add_0_r. Qed.

(** The rows of the block that starts at [s]. *)
Definition blk {A} (s : nat) (l : list A) : list A :=
  take (block_end (length l) s - s) (drop s l).

Lemma block_end_spec n s :
  (s < n)%nat →
  (s < block_end n s ≤ n ∧ block_end n s - s ≤ BlockRows)%nat.
Proof. intros. unfold block_end. pose proof BlockRows_pos. case_decide; lia. Qed.

Lemma length_blk {A} s (l : list A) :
  (s < length l)%nat → length (blk s l) = (block_end (length l) s - s)%nat.
Proof.
  intros. pose proof (block_end_spec (length l) s). unfold blk.
  rewrite length_take, length_drop. lia.
Qed.

(** Taking one more block extends the processed prefix by that block. *)
Lemma take_blk {A} k (l : list A) :
  (k * BlockRows < length l)%nat →
  take (S k * BlockRows) l = take (k * BlockRows) l ++ blk (k * BlockRows) l.
Proof.
  intros. unfold blk. rewrite take_take_drop. unfold block_end. case_decide.
  - rewrite !take_ge by lia. done.
  - f_equal. lia.
Qed.

Lemma col_rows_blk {V} nulls (vals : list V) s :
  (s < length vals)%nat → (length vals ≤ 8 * length nulls)%nat →
  col_rows (sub_bm nulls s (block_end (length vals) s - s)) (blk s vals)
  = blk s (col_rows nulls vals).
Proof.
  intros Hs Hc. pose proof (block_end_spec _ _ Hs). apply list_eq. intros i.
  unfold col_rows at 1. rewrite list_lookup_imap.
  unfold blk. rewrite length_col_rows.
  destruct (decide (i < block_end (length vals) s - s)%nat).
  - rewrite !lookup_take_lt, !lookup_drop by done. unfold col_rows. rewrite list_lookup_imap.
    destruct (vals !! (s + i)%nat); simpl; [|done].
    destruct (sub_bm_spec nulls s (block_end (length vals) s - s)) as (_ & _ & ->); [lia|].
    by rewrite bool_decide_true.
  - by rewrite !lookup_take_ge by lia.
Qed.

(** The four block loops share one shape: cut out the block, encode it, append
    it, fold the statistics over its rows. *)
Section blocks.
Context {V S : Type}.
Context (put : list Z → list V → go (list Z)) (bytes : list Z → list V → list Z).
Context (stat : list Z → S → nat * V → go S) (step : S → option V → S).
Hypothesis put_bytes : ∀ bn vs,
  length bn = ((length vs + 7) / 8)%nat → (length vs ≤ BlockRows)%nat →
  put bn vs = Ret (bytes bn vs).
Hypothesis stat_step : ∀ bn st i v, (i / 8 < length bn)%nat →
  stat bn st (i, v) = Ret (step st (if bit_valid bn i then Some v else None)).

Definition block_bytes (nulls : list Z) (vals : list V) (s : nat) : list Z :=
  bytes (sub_bm nulls s (block_end (length vals) s - s)) (blk s vals).
Definition col_bytes (nulls : list Z) (vals : list V) : list Z :=
  concat (block_bytes nulls vals <$> block_starts (length vals)).

Lemma stat_loop bn vs st :
  (length vs ≤ 8 * length bn)%nat →
  foldM (stat bn) st (enum vs) = Ret (foldl step st (col_rows bn vs)).
Proof.
  intros Hc. destruct (foldM_enum_ind (stat bn)
    (λ k st', st' = foldl step st (take k (col_rows bn vs))) vs st) as (st' & -> & ->).
  - done.
  - intros k v st' Hk ->. pose proof (lookup_lt_Some _ _ _ Hk).
    rewrite stat_step by lia. eexists. split; [done|].
    by rewrite (take_S_r _ _ _ (lookup_col_rows bn _ _ _ Hk)), foldl_app.
  - by rewrite take_ge by by rewrite length_col_rows.
Qed.

Lemma blocks_loop w nulls vals st0 :
  (length vals ≤ 8 * length nulls)%nat →
  foldM (λ '(w, st) blockStart,
    let stop := block_end (length vals) blockStart in
    blockNulls ← subBitmap nulls blockStart (stop - blockStart);
    blockVals ← slice vals blockStart stop;
    b ← put blockNulls blockVals;
    let w := mustWrite w b in
    st ← foldM (stat blockNulls) st (enum blockVals);
    Ret (w, st)) (w, st0) (block_starts (length vals))
  = Ret (mustWrite w (col_bytes nulls vals), foldl step st0 (col_rows nulls vals)).
Proof.
  intros Hc. set (starts := block_starts (length vals)).
  match goal with |- foldM ?f _ _ = _ =>
    destruct (foldM_list_ind f (λ k '(w', st),
      w' = mustWrite w (concat (take k (block_bytes nulls vals <$> starts))) ∧
      st = foldl step st0 (take (k * BlockRows) (col_rows nulls vals)))
      starts (w, st0)) as ([w' st] & -> & -> & ->) end.
  - by rewrite mustWrite_nil.
  - intros k s [w' st] Hs [-> ->]. pose proof Hs as [-> Hlt]%lookup_block_starts.
    pose proof (block_end_spec _ _ Hlt). pose proof (length_blk _ _ Hlt) as Hl.
    cbv beta iota zeta. destruct (subBitmap_Ret nulls (k * BlockRows)
      (block_end (length vals) (k * BlockRows) - k * BlockRows)) as [-> Hlen]; [lia|].
    cbn [mbind go_bind]. rewrite slice_Ret by lia. cbn [mbind go_bind].
    fold (blk (k * BlockRows) vals). rewrite put_bytes by lia. cbn [mbind go_bind].
    rewrite stat_loop by lia. eexists. split; [done|]. split.
    + rewrite mustWrite_app. f_equal. erewrite take_S_r by by rewrite list_lookup_fmap, Hs.
      rewrite concat_app. simpl. by rewrite app_nil_r.
    + rewrite take_blk by by rewrite length_col_rows.
      by rewrite foldl_app, col_rows_blk.
  - pose proof (length_block_starts (length vals)).
    rewrite !take_ge; [done| |]; rewrite ?length_fmap, ?length_col_rows; fold starts in H; lia.
Qed.
End blocks.

(** *** The fixed-width columns *)

Section fixed.
Context {V : Type} (app1 : list Z → V → list Z) (enc1 : V → list Z).
Hypothesis app1_enc : ∀ b v, app1 b v = b ++ enc1 v.

(** null bitmap (128 bytes), values, CRC. *)
Definition fixed_block (bn : list Z) (vs : list V) : list Z :=
  AppendChecksum (bitmapFull bn ++ concat (enc1 <$> vs)).

Lemma foldl_app1 vs b : foldl app1 b vs = b ++ concat (enc1 <$> vs).
Proof.
  revert b. induction vs as [|v vs IH]; intros b; simpl; [by rewrite app_nil_r|].
  by rewrite IH, app1_enc, <- app_assoc.
Qed.
Lemma fixed_put bn vs :
  Ret (AppendChecksum (foldl app1 (bitmapFull bn) vs)) = Ret (fixed_block bn vs).
Proof. by rewrite foldl_app1. Qed.
End fixed.

(** *** Statistics, a row at a time *)

Definition zm_null (z : ZoneMap) : ZoneMap :=
  mkZoneMap (NullCount z + 1) (Sum z) (Min z) (Max z) (HasMinMax z).

Definition int64_step (z : ZoneMap) (o : option Z) : ZoneMap :=
  match o with
  | None => zm_null z
  | Some v =>
      let sum := to_i64 (Sum z + v) in
      let uv := to_u64 v in
      if HasMinMax z then
        mkZoneMap (NullCount z) sum (if v <? to_i64 (Min z) then uv else Min z)
          (if v >? to_i64 (Max z) then uv else Max z) true
      else mkZoneMap (NullCount z) sum uv uv true
  end.
Definition float64_step (st : ZoneMap * Z * Z * Z) (o : option Z) : ZoneMap * Z * Z * Z :=
  let '(z, sumF, minF, maxF) := st in
  match o with
  | None => (zm_null z, sumF, minF, maxF)
  | Some v =>
      if HasMinMax z then
        (z, f64_add sumF v, (if f64_lt v minF then v else minF),
         (if f64_lt maxF v then v else maxF))
      else (mkZoneMap (NullCount z) (Sum z) (Min z) (Max z) true, f64_add sumF v, v, v)
  end.
Definition date_step (z : ZoneMap) (o : option Z) : ZoneMap :=
  match o with
  | None => zm_null z
  | Some v =>
      let uv := to_u32 v in
      if HasMinMax z then
        mkZoneMap (NullCount z) (Sum z) (if to_i32 (Min z) >? v then uv else Min z)
          (if to_i32 (Max z) <? v then uv else Max z) true
      else mkZoneMap (NullCount z) (Sum z) uv uv true
  end.
Definition bool_step (z : ZoneMap) (o : option bool) : ZoneMap :=
  match o with None => zm_null z | Some _ => z end.

#[local] Ltac stat_case :=
  intros; cbn [mbind go_bind]; rewrite IsNullBit_Ret by done; cbn [mbind go_bind];
  destruct (bit_valid _ _); simpl; try done; by case_match.

Lemma int64_stat_step bn st i v :
  (i / 8 < length bn)%nat →
  int64_stat bn st (i, v) = Ret (int64_step st (if bit_valid bn i then Some v else None)).
Proof. unfold int64_stat, int64_step. stat_case. Qed.
Lemma float64_stat_step bn st i v :
  (i / 8 < length bn)%nat →
  float64_stat bn st (i, v) = Ret (float64_step st (if bit_valid bn i then Some v else None)).
Proof. destruct st as [[[z s] mn] mx]. unfold float64_stat, float64_step. stat_case. Qed.
Lemma date_stat_step bn st i v :
  (i / 8 < length bn)%nat →
  date_stat bn st (i, v) = Ret (date_step st (if bit_valid bn i then Some v else None)).
Proof. unfold date_stat, date_step. stat_case. Qed.

(** *** The five columns *)

Definition enc_i64 (v : Z) : list Z := le_bytes 8 (to_u64 v).
Definition enc_u64 (v : Z) : list Z := le_bytes 8 v.
Definition enc_i32 (v : Z) : list Z := le_bytes 4 (to_u32 v).
Definition enc_u32 (v : Z) : list Z := le_bytes 4 v.
Definition bool_block (bn : list Z) (vs : list bool) : list Z :=
  match EncodeRLEBool vs bn with Ret b => b | _ => [] end.

Abbreviation int64_col := (col_bytes (fixed_block enc_i64)).
Abbreviation float64_col := (col_bytes (fixed_block enc_u64)).
Abbreviation date_col := (col_bytes (fixed_block enc_i32)).
Abbreviation code_col := (col_bytes (fixed_block enc_u32)).
Abbreviation bool_col := (col_bytes bool_block).

Lemma writeInt64Blocks_spec w nulls vals :
  (length vals ≤ 8 * length nulls)%nat →
  writeInt64Blocks w nulls vals
  = Ret (mustWrite w (int64_col nulls vals), foldl int64_step zeroZoneMap (col_rows nulls vals)).
Proof.
  intros Hc. rewrite <- (blocks_loop
    (λ bn vs, Ret (AppendChecksum (foldl AppendInt64 (bitmapFull bn) vs)))
    (fixed_block enc_i64) int64_stat int64_step); [done| | |done].
  - intros. by apply fixed_put.
  - intros. by apply int64_stat_step.
Qed.

Lemma writeFloat64Blocks_spec w nulls vals :
  (length vals ≤ 8 * length nulls)%nat →
  writeFloat64Blocks w nulls vals
  = Ret (mustWrite w (float64_col nulls vals),
         float64_finish (foldl float64_step (zeroZoneMap, 0, 0, 0) (col_rows nulls vals))).
Proof.
  intros Hc. unfold writeFloat64Blocks.
  pose proof (blocks_loop
    (λ bn vs, Ret (AppendChecksum (foldl AppendFloat64 (bitmapFull bn) vs)))
    (fixed_block enc_u64) float64_stat float64_step) as E.
  cbn [mbind go_bind] in E |- *. rewrite E; [done| | |done].
  - intros. by apply fixed_put.
  - intros. by apply float64_stat_step.
Qed.

Lemma writeDateBlocks_spec w nulls vals :
  (length vals ≤ 8 * length nulls)%nat →
  writeDateBlocks w nulls vals
  = Ret (mustWrite w (date_col nulls vals), foldl date_step zeroZoneMap (col_rows nulls vals)).
Proof.
  intros Hc. rewrite <- (blocks_loop
    (λ bn vs, Ret (AppendChecksum (foldl AppendInt32 (bitmapFull bn) vs)))
    (fixed_block enc_i32) date_stat date_step); [done| | |done].
  - intros. by apply fixed_put.
  - intros. by apply date_stat_step.
Qed.

Lemma BlockRows_small n : (n ≤ BlockRows)%nat → Z.of_nat n < 2 ^ 32.
Proof.
  assert (Z.of_nat BlockRows = 1024) by (with_strategy transparent [BlockRows] reflexivity).
  lia.
Qed.

Lemma bool_put bn vs :
  length bn = ((length vs + 7) / 8)%nat → (length vs ≤ BlockRows)%nat →
  EncodeRLEBool vs bn = Ret (bool_block bn vs).
Proof.
  intros Hl Hs. unfold bool_block. destruct (EncodeRLEBool_spec vs bn) as (runs & -> & _);
    [lia|by apply BlockRows_small|done].
Qed.

Lemma foldM_seq_enum {A S} (f : S → nat → go S) (l : list A) s :
  foldM f s (seq 0 (length l)) = foldM (λ s p, f s p.1) s (enum l).
Proof.
  unfold enum. generalize 0%nat. revert s.
  induction l as [|a l IH]; intros s k; [done|]. simpl. destruct (f s k); simpl; auto.
Qed.

Lemma foldM_ext {A S} (f g : S → A → go S) s l :
  (∀ s a, f s a = g s a) → foldM f s l = foldM g s l.
Proof.
  intros E. revert s. induction l as [|a l IH]; intros s; [done|]. simpl. rewrite E.
  destruct (g s a); simpl; auto.
Qed.

Lemma writeBoolBlocks_spec w nulls vals :
  (length vals ≤ 8 * length nulls)%nat →
  writeBoolBlocks w nulls vals
  = Ret (mustWrite w (bool_col nulls vals), foldl bool_step zeroZoneMap (col_rows nulls vals)).
Proof.
  intros Hc. rewrite <- (blocks_loop (λ bn vs, EncodeRLEBool vs bn)
    bool_block (λ bn st p, bool_stat bn st p.1) bool_step); [| | |done].
  - apply foldM_ext. intros [w' st] s. cbv zeta.
    destruct (subBitmap _ _ _); try done. cbn [mbind go_bind].
    destruct (slice _ _ _); try done. cbn [mbind go_bind].
    destruct (EncodeRLEBool _ _); try done. cbn [mbind go_bind].
    by rewrite foldM_seq_enum.
  - intros. by apply bool_put.
  - intros bn st i v Hi. unfold bool_stat. simpl. rewrite IsNullBit_Ret by done. simpl.
    by destruct (bit_valid bn i).
Qed.

(** A code denotes a string: its position in the dictionary, or the NULL code. *)
Definition code_of (keys : list string) (c : Z) (o : option string) : Prop :=
  match o with
  | Some s => ∃ i, c = Z.of_nat i ∧ keys !! i = Some s
  | None => c = 0xFFFFFFFF
  end.
Definition null_count {V} (rows : list (option V)) : Z :=
  Z.of_nat (length (filter (λ o, o = None) rows)).
Definition string_stats {A} (rows : list (option string)) (keys : list A) : ZoneMap :=
  if decide (0 < length keys)%nat
  then mkZoneMap (null_count rows) 0 0 (Z.of_nat (length keys - 1)) true
  else mkZoneMap (null_count rows) 0 0 0 false.

Lemma null_count_snoc {V} (rows : list (option V)) o :
  null_count (rows ++ [o]) = null_count rows + match o with Some _ => 0 | None => 1 end.
Proof.
  unfold null_count. rewrite filter_app, length_app. destruct o as [v|].
  - change (length (filter (λ o, o = None) [Some v])) with 0%nat. lia.
  - change (length (filter (λ o : option V, o = None) [None])) with 1%nat. lia.
Qed.

Definition string_loop_inv (nulls : list Z) (vals : list string) (k : nat)
    (st : DictBuilder * list Z * ZoneMap) : Prop :=
  let '(db, codes, stats) := st in
  db_wf db ∧ (length (db_keys db) ≤ k)%nat ∧
  (length (dict_data (db_keys db)) ≤ length (dict_data (take k vals)))%nat ∧
  (∀ s, s ∈ db_keys db → Some s ∈ take k (col_rows nulls vals)) ∧
  length codes = length vals ∧
  (∀ i v, (i < k)%nat → vals !! i = Some v → ∃ c, codes !! i = Some c ∧
     code_of (db_keys db) c (if bit_valid nulls i then Some v else None)) ∧
  stats = mkZoneMap (null_count (take k (col_rows nulls vals))) 0 0 0 false.

Lemma code_of_mono k1 k2 c o : code_of k1 c o → code_of (k1 ++ k2) c o.
Proof.
  destruct o; [|done]. intros (i & -> & Hi). exists i. split; [done|].
  by apply lookup_app_l_Some.
Qed.

Lemma Add_grows db s :
  db_wf db → ∃ k2, db_keys (Add db s).2 = db_keys db ++ k2 ∧
    (k2 = [] ∧ s ∈ db_keys db ∨ k2 = [s]).
Proof.
  intros Hwf. rewrite Add_keys by done. case_decide; [exists []; rewrite app_nil_r; auto|].
  exists [s]. auto.
Qed.

Lemma string_code_step nulls vals k v st :
  (length vals ≤ 8 * length nulls)%nat → Z.of_nat (length vals) < 2 ^ 32 →
  vals !! k = Some v → string_loop_inv nulls vals k st →
  ∃ st', string_code nulls st (k, v) = Ret st' ∧ string_loop_inv nulls vals (S k) st'.
Proof.
  destruct st as [[db codes] stats]. intros Hc Hn Hk (Hwf & Hlen & Hdat & Hin & Hcl & Hcodes & ->).
  pose proof (lookup_lt_Some _ _ _ Hk) as Hlt.
  assert (Hnc : null_count (take (S k) (col_rows nulls vals))
    = null_count (take k (col_rows nulls vals)) + if bit_valid nulls k then 0 else 1).
  { rewrite (take_S_r _ _ _ (lookup_col_rows nulls _ _ _ Hk)), null_count_snoc.
    by destruct (bit_valid nulls k). }
  assert (Hdv : length (dict_data (take (S k) vals))
    = (length (dict_data (take k vals)) + length (bytes_of v))%nat).
  { rewrite (take_S_r _ _ _ Hk), dict_data_app, length_app. unfold dict_data at 2. simpl.
    by rewrite app_nil_r. }
  unfold string_code. rewrite IsNullBit_Ret by lia. cbn [mbind go_bind].
  destruct (bit_valid nulls k) eqn:Ev; cbn [negb].
  - destruct (Add_wf db v Hwf) as (Hwf' & i & Hi & Hki); [lia|].
    destruct (Add_grows db v Hwf) as (k2 & Hgrow & Hk2).
    destruct (Add db v) as [c db'] eqn:Eadd. simpl in *. subst c.
    rewrite store_Ret by lia. cbn [mbind go_bind]. eexists. split; [done|].
    split_and!; [done| | | |by rewrite length_insert| |].
    + rewrite Hgrow, length_app. destruct Hk2 as [[-> _]| ->]; simpl; lia.
    + rewrite Hgrow, dict_data_app, length_app, Hdv.
      destruct Hk2 as [[-> _]| ->]; unfold dict_data at 2; simpl; rewrite ?app_nil_r; lia.
    + intros s Hs. rewrite (take_S_r _ _ _ (lookup_col_rows nulls _ _ _ Hk)), Ev.
      rewrite Hgrow in Hs.
      apply elem_of_app. apply elem_of_app in Hs as [Hs|Hs]; [by left; apply Hin|].
      destruct Hk2 as [[-> _]| ->]; [by apply not_elem_of_nil in Hs|]. right.
      apply list_elem_of_singleton in Hs as ->. by left.
    + intros j u Hj Hu. destruct (decide (j = k)) as [->|].
      * rewrite Hk in Hu. injection Hu as <-. rewrite list_lookup_insert_eq by lia.
        eexists. split; [done|]. rewrite Ev. exists i. done.
      * rewrite list_lookup_insert_ne by done. destruct (Hcodes j u) as (c & ? & ?); [lia|done|].
        exists c. split; [done|]. rewrite Hgrow. by apply code_of_mono.
    + f_equal. rewrite Hnc. lia.
  - rewrite store_Ret by lia. cbn [mbind go_bind]. eexists. split; [done|].
    split_and!; [done|lia| | |by rewrite length_insert| |].
    + rewrite Hdv. lia.
    + intros s Hs. rewrite (take_S_r _ _ _ (lookup_col_rows nulls _ _ _ Hk)).
      apply elem_of_app. left. by apply Hin.
    + intros j u Hj Hu. destruct (decide (j = k)) as [->|].
      * rewrite list_lookup_insert_eq by lia. eexists. split; [done|]. by rewrite Ev.
      * rewrite list_lookup_insert_ne by done. apply Hcodes; [lia|done].
    + simpl. f_equal. rewrite Hnc. lia.
Qed.

(** A loop over a writer alone is a loop that carries no statistics. *)
Lemma foldM_unit {W A} (f : W → A → go W) w l :
  foldM (λ '(w, u) a, w ← f w a; Ret (w, u : ())) (w, ()) l = (λ w, (w, ())) <$> foldM f w l.
Proof.
  revert w. induction l as [|a l IH]; intros w; [done|]. cbn [foldM].
  destruct (f w a); cbn [mbind go_bind]; auto.
Qed.

Lemma code_blocks_loop w nulls codes :
  (length codes ≤ 8 * length nulls)%nat →
  foldM (λ w blockStart,
      let stop := block_end (length codes) blockStart in
      blockNulls ← subBitmap nulls blockStart (stop - blockStart);
      blockCodes ← slice codes blockStart stop;
      let buf := foldl AppendUint32 (bitmapFull blockNulls) blockCodes in
      Ret (mustWrite w (AppendChecksum buf)))
    w (block_starts (length codes))
  = Ret (mustWrite w (code_col nulls codes)).
Proof.
  intros Hc. pose proof (blocks_loop
    (λ bn vs, Ret (AppendChecksum (foldl AppendUint32 (bitmapFull bn) vs)))
    (fixed_block enc_u32) (λ _ (st : ()) (_ : nat * Z), Ret st) (λ st _, st)) as E.
  specialize (E ltac:(intros; by apply fixed_put) ltac:(done) w nulls codes () Hc).
  match goal with |- ?m = _ => cut (((λ w, (w, ())) <$> m)
    = Ret (mustWrite w (code_col nulls codes), ())) end.
  { by destruct (foldM _ w _) as [w'| | |]; intros [= ->]. }
  rewrite <- foldM_unit. etrans; [|etrans; [apply E|]].
  - apply foldM_ext. intros [w' []] s. cbv zeta.
    destruct (subBitmap _ _ _); try done. cbn [mbind go_bind].
    destruct (slice _ _ _) as [vs| | |]; try done. cbn [mbind go_bind].
    assert (Hst : ∀ l, foldM (λ (st : ()) (_ : nat * Z), Ret st) () l = Ret ())
      by (induction l; simpl; auto).
    by rewrite Hst.
  - by destruct (foldl _ _ _).
Qed.

(** The written STRING column: codes into a dictionary of distinct keys. *)
Lemma writeStringBlocks_spec w nulls vals :
  (length vals ≤ 8 * length nulls)%nat →
  Z.of_nat (length vals) < 2 ^ 32 → Z.of_nat (length (dict_data vals)) < 2 ^ 32 →
  ∃ keys codes,
    NoDup keys ∧ dict_fits keys ∧ (∀ s, s ∈ keys → Some s ∈ col_rows nulls vals) ∧
    (length keys ≤ length vals)%nat ∧
    (length (dict_data keys) ≤ length (dict_data vals))%nat ∧
    length codes = length vals ∧
    Forall2 (code_of keys) codes (col_rows nulls vals) ∧
    writeStringBlocks w nulls vals
    = Ret (mustWrite w (code_col nulls codes), string_stats (col_rows nulls vals) keys,
           AppendChecksum (dict_body keys)).
Proof.
  intros Hc Hn Hd.
  destruct (foldM_enum_ind (string_code nulls) (string_loop_inv nulls vals) vals
    (NewDictBuilder, replicate (length vals) 0, zeroZoneMap))
    as ([[db codes] stats] & E & Hwf & Hlen & Hdat & Hin & Hcl & Hcodes & ->).
  - split_and!; [apply db_wf_new|done|done|by intros s Hs%elem_of_nil|apply length_replicate| |done].
    intros i v Hi. lia.
  - intros k v st Hk Hst. by apply string_code_step.
  - rewrite firstn_all in Hdat. rewrite take_ge in E, Hin by by rewrite length_col_rows.
    assert (Hfit : dict_fits (db_keys db)) by (split; lia).
    exists (db_keys db), codes.
    split_and!; [by apply db_wf_NoDup|done|done|lia|lia|done| |].
    + apply Forall2_same_length_lookup. split; [by rewrite length_col_rows|].
      intros i c o Hi Ho. unfold col_rows in Ho. rewrite list_lookup_imap in Ho.
      destruct (vals !! i) as [v|] eqn:Hv; [|done]. injection Ho as <-.
      destruct (Hcodes i v) as (c' & Hc' & ?); [by eapply lookup_lt_Some|done|]. congruence.
    + unfold writeStringBlocks. rewrite E. cbn [mbind go_bind].
      rewrite <- Hcl, code_blocks_loop by lia. cbn [mbind go_bind].
      rewrite Marshal_spec by done. cbn [mbind go_bind]. unfold string_stats, db_Len.
      by case_decide.
Qed.

(** ** Zone maps state facts about the rows *)

Definition row_values {V} (rows : list (option V)) : list V := omap id rows.

Lemma row_values_snoc {V} (rows : list (option V)) o :
  row_values (rows ++ [o]) = row_values rows ++ match o with Some v => [v] | None => [] end.
Proof. unfold row_values. rewrite omap_app. by destruct o. Qed.

Lemma elem_of_row_values {V} (rows : list (option V)) v :
  v ∈ row_values rows ↔ Some v ∈ rows.
Proof.
  unfold row_values. rewrite list_elem_of_omap. split.
  - intros (o & Ho & E). simpl in E. by subst.
  - intros H. by exists (Some v).
Qed.

(** [Min] and [Max], read with [dec], are the extreme values. *)
Definition zm_extremes (dec : Z → Z) (rows : list (option Z)) (z : ZoneMap) : Prop :=
  if HasMinMax z then
    dec (Min z) ∈ row_values rows ∧ dec (Max z) ∈ row_values rows ∧
    ∀ v, v ∈ row_values rows → dec (Min z) ≤ v ≤ dec (Max z)
  else row_values rows = [].

Definition zsum (l : list Z) : Z := foldr Z.add 0 l.
Lemma zsum_snoc l v : zsum (l ++ [v]) = zsum l + v.
Proof. unfold zsum. induction l as [|x l IH]; simpl in *; lia. Qed.

Lemma wrapS_add_l w a b : 0 < w → wrapS w (wrapS w a + b) = wrapS w (a + b).
Proof.
  intros Hw. unfold wrapS. assert (0 < 2 ^ w) by (apply Z.pow_pos_nonneg; lia).
  f_equal. replace (_ - _ + b + _) with ((a + 2 ^ (w - 1)) mod 2 ^ w + b) by lia.
  rewrite Zplus_mod_idemp_l. f_equal. lia.
Qed.

(** One row more: the extremes stay extreme. *)
Lemma zm_extremes_step dec enc rows z v (upd : ZoneMap) :
  dec (enc v) = v →
  zm_extremes dec rows z →
  HasMinMax upd = true →
  Min upd = (if HasMinMax z then if v <? dec (Min z) then enc v else Min z else enc v) →
  Max upd = (if HasMinMax z then if dec (Max z) <? v then enc v else Max z else enc v) →
  zm_extremes dec (rows ++ [Some v]) upd.
Proof.
  intros Hde Hz Hh Hmin Hmax. unfold zm_extremes in *. rewrite Hh, Hmin, Hmax, row_values_snoc.
  destruct (HasMinMax z).
  - destruct Hz as (Hi & Ha & Hb).
    assert (v ∈ row_values rows ++ [v]) by (apply elem_of_app; right; by left).
    assert (∀ u, u ∈ row_values rows → u ∈ row_values rows ++ [v])
      by (intros; apply elem_of_app; by left).
    specialize (Hb _ Hi) as Hb'.
    destruct (Z.ltb_spec v (dec (Min z))), (Z.ltb_spec (dec (Max z)) v); rewrite ?Hde;
      (split; [auto|split; [auto|]]); intros u [Hu| ->%list_elem_of_singleton]%elem_of_app;
      try lia; specialize (Hb _ Hu); lia.
  - rewrite Hz, Hde. simpl. split; [by left|]. split; [by left|].
    intros u ->%list_elem_of_singleton. lia.
Qed.

Lemma zm_extremes_null dec rows z : zm_extremes dec rows z → zm_extremes dec (rows ++ [None]) (zm_null z).
Proof. unfold zm_extremes. rewrite row_values_snoc, app_nil_r. done. Qed.

Lemma i64_u64 v : inS 64 v → to_i64 (to_u64 v) = v.
Proof. intros. by apply (wrapS_wrapU 64). Qed.
Lemma i32_u32 v : inS 32 v → to_i32 (to_u32 v) = v.
Proof. intros. by apply (wrapS_wrapU 32). Qed.

Lemma int64_stats_spec rows :
  Forall (inS 64) (row_values rows) →
  let z := foldl int64_step zeroZoneMap rows in
  NullCount z = null_count rows ∧ Sum z = to_i64 (zsum (row_values rows)) ∧
  zm_extremes to_i64 rows z.
Proof.
  induction rows as [|o rows IH] using rev_ind; [done|]. intros Hv.
  rewrite row_values_snoc in Hv. apply Forall_app in Hv as [Hv Ho].
  destruct (IH Hv) as (Hn & Hs & He). clear IH. rewrite foldl_app, null_count_snoc.
  cbn [foldl]. set (z := foldl int64_step zeroZoneMap rows) in *. destruct o as [v|].
  - rewrite Forall_singleton in Ho. unfold int64_step. cbv zeta.
    rewrite row_values_snoc, zsum_snoc. split_and!.
    + destruct (HasMinMax z); simpl; lia.
    + destruct (HasMinMax z); cbn [Sum]; rewrite Hs; by apply wrapS_add_l.
    + apply (zm_extremes_step _ to_u64 _ z); rewrite ?Z.gtb_ltb;
        [by apply i64_u64|done|by destruct (HasMinMax z)..].
  - rewrite row_values_snoc, app_nil_r. split_and!; [simpl; lia|done|by apply zm_extremes_null].
Qed.


Lemma date_stats_spec rows :
  Forall (inS 32) (row_values rows) →
  let z := foldl date_step zeroZoneMap rows in
  NullCount z = null_count rows ∧ Sum z = 0 ∧ zm_extremes to_i32 rows z.
Proof.
  induction rows as [|o rows IH] using rev_ind; [done|]. intros Hv.
  rewrite row_values_snoc in Hv. apply Forall_app in Hv as [Hv Ho].
  destruct (IH Hv) as (Hn & Hs & He). clear IH. rewrite foldl_app, null_count_snoc.
  cbn [foldl]. set (z := foldl date_step zeroZoneMap rows) in *. destruct o as [v|].
  - rewrite Forall_singleton in Ho. unfold date_step. cbv zeta. split_and!.
    + destruct (HasMinMax z); simpl; lia.
    + by destruct (HasMinMax z).
    + apply (zm_extremes_step _ to_u32 _ z); rewrite ?Z.gtb_ltb;
        [by apply i32_u32|done|by destruct (HasMinMax z)..].
  - split_and!; [simpl; lia|done|by apply zm_extremes_null].
Qed.

Lemma bool_stats_spec rows :
  foldl bool_step zeroZoneMap rows = mkZoneMap (null_count rows) 0 0 0 false.
Proof.
  induction rows as [|o rows IH] using rev_ind; [done|].
  rewrite foldl_app, null_count_snoc. cbn [foldl]. rewrite IH. unfold bool_step, zm_null.
  destruct o; simpl; f_equal; lia.
Qed.

(** The float statistics: the running minimum and maximum bound every number;
    a NaN in first position sticks, later ones are ignored. *)
Definition float_stats_ok (rows : list (option Z)) (st : ZoneMap * Z * Z * Z) : Prop :=
  let '(z, sumF, mn, mx) := st in
  NullCount z = null_count rows ∧ sumF = foldl f64_add 0 (row_values rows) ∧
  if HasMinMax z then
    mn ∈ row_values rows ∧ mx ∈ row_values rows ∧
    (∀ v, v ∈ row_values rows → f64_isNaN v = false →
       (f64_isNaN mn = false → f64_key mn ≤ f64_key v) ∧
       (f64_isNaN mx = false → f64_key v ≤ f64_key mx)) 
  else row_values rows = [].

Lemma f64_lt_false a b :
  inU 64 a → inU 64 b → f64_lt a b = false →
  f64_isNaN a = false → f64_isNaN b = false → f64_key b ≤ f64_key a.
Proof.
  intros Ha Hb E Na Nb. apply Z.nlt_ge. intros Hlt.
  assert (f64_lt a b = true) by (by apply f64_lt_spec). congruence.
Qed.

Lemma float_stats_step rows st v :
  Forall (inU 64) (row_values rows) → inU 64 v →
  float_stats_ok rows st → float_stats_ok (rows ++ [Some v]) (float64_step st (Some v)).
Proof.
  destruct st as [[[z s] mn] mx]. intros Hr Hv (Hn & Hs & Hb). unfold float64_step.
  assert (Hin : ∀ u, u ∈ row_values rows → u ∈ row_values rows ++ [v])
    by (intros; apply elem_of_app; by left).
  assert (Hvin : v ∈ row_values rows ++ [v]) by (apply elem_of_app; right; by left).
  destruct (HasMinMax z) eqn:Hh; cbn [float_stats_ok];
    rewrite null_count_snoc, row_values_snoc, foldl_app, <- Hs; cbn [foldl NullCount HasMinMax].
  - rewrite Hh. destruct Hb as (Hmn & Hmx & Hb).
    assert (inU 64 mn ∧ inU 64 mx) as [Imn Imx] by (by rewrite !Forall_forall in Hr; auto).
    split; [lia|]. split; [done|].
    split; [by destruct (f64_lt v mn); auto|]. split; [by destruct (f64_lt mx v); auto|].
    intros u [Hu| ->%list_elem_of_singleton]%elem_of_app Nu.
    + specialize (Hb _ Hu Nu). destruct Hb as [Hb1 Hb2]. split; intros Nm.
      * destruct (f64_lt v mn) eqn:E; [|auto]. apply f64_lt_spec in E as (_ & Nmn & ?); [|done..].
        specialize (Hb1 Nmn). lia.
      * destruct (f64_lt mx v) eqn:E; [|auto]. apply f64_lt_spec in E as (Nmx & _ & ?); [|done..].
        specialize (Hb2 Nmx). lia.
    + split; intros Nm.
      * destruct (f64_lt v mn) eqn:E; [lia|]. by apply f64_lt_false in E.
      * destruct (f64_lt mx v) eqn:E; [lia|]. by apply f64_lt_false in E.
  - rewrite Hb. simpl. split; [lia|]. split; [done|]. split; [by left|]. split; [by left|].
    intros u ->%list_elem_of_singleton _. lia.
Qed.

Lemma float_stats_spec rows :
  Forall (inU 64) (row_values rows) →
  float_stats_ok rows (foldl float64_step (zeroZoneMap, 0, 0, 0) rows).
Proof.
  induction rows as [|o rows IH] using rev_ind; [done|]. intros Hv.
  rewrite row_values_snoc in Hv. apply Forall_app in Hv as [Hv Ho]. specialize (IH Hv).
  rewrite foldl_app. cbn [foldl]. destruct o as [v|].
  - apply float_stats_step; [done| |done]. by rewrite Forall_singleton in Ho.
  - destruct (foldl float64_step _ rows) as [[[z s] mn] mx].
    destruct IH as (Hn & Hs & Hb). simpl. rewrite null_count_snoc, row_values_snoc, app_nil_r.
    split; [lia|]. by split.
Qed.

(** What the zone map of a FLOAT64 column promises a reader: when the stored
    bounds are numbers, every number of the column lies between them. *)
Definition zm_float_bounds (rows : list (option Z)) (z : ZoneMap) : Prop :=
  if HasMinMax z then
    inU 64 (Min z) ∧ inU 64 (Max z) ∧
    (∀ v, v ∈ row_values rows → f64_isNaN v = false →
       (f64_isNaN (Min z) = false → f64_key (Min z) ≤ f64_key v) ∧
       (f64_isNaN (Max z) = false → f64_key v ≤ f64_key (Max z)))
  else row_values rows = [].

Lemma float_finish_bounds rows :
  Forall (inU 64) (row_values rows) →
  let z := float64_finish (foldl float64_step (zeroZoneMap, 0, 0, 0) rows) in
  NullCount z = null_count rows ∧
  Sum z = to_i64 (foldl f64_add 0 (row_values rows)) ∧
  zm_float_bounds rows z.
Proof.
  intros Hv. pose proof (float_stats_spec rows Hv) as H.
  destruct (foldl float64_step _ rows) as [[[z s] mn] mx]. destruct H as (Hn & Hs & Hb).
  unfold float64_finish, zm_float_bounds. 
  destruct (HasMinMax z); cbn; subst; [|done].
  destruct Hb as (Hmn & Hmx & Hb). rewrite Forall_forall in Hv. by auto 7.
Qed.
