(* ===== verification/Reader.v ===== *)
(** * Package storage: the file reader ([storage/reader.go],
    [storage/rowgroup.go])

    The footer parser, and the column reader that serves blocks out of a
    buffered window.  The file is the list of its bytes; a read that the
    operating system completes returns exactly the bytes asked for.  A function
    that also changes the column reader returns the new state beside its
    outcome, since the error paths change it too. *)
From Stdlib Require Import ZArith Lia ZifyNat.
From stdpp Require Import base numbers list strings gmap.
From S2P Require Import Prelude Encoding Codec Float64 Schema Writer.
#[local] Open Scope Z_scope.

(** ** Buffer size classes *)

Definition maxPrefetchBytes : Z := 4 * 2 ^ 20.
Definition maxPooledBufs : nat := 32.
Definition bufClassBytes : Z := 64 * 2 ^ 10.
Definition numBufClasses : Z := maxPrefetchBytes / bufClassBytes.

Definition bufClassOf (n : Z) : Z :=
  if decide (n ≤ 0 ∨ maxPrefetchBytes < n) then 0
  else (n + bufClassBytes - 1) / bufClassBytes.
Definition poolClassOf (capacity : Z) : Z :=
  if decide (capacity ≤ 0 ∨ maxPrefetchBytes < capacity ∨ Z.rem capacity bufClassBytes ≠ 0)
  then 0 else capacity / bufClassBytes.

(** The shared pool and a reader's free list, as the capacities they hold
    ([sync.Pool] may also drop entries at any time). *)
Record Pools : Type := mkPools { shared : gmap Z (list Z); freeList : list Z }.

Definition putSharedBuf (p : Pools) (capacity : Z) : Pools :=
  let c := poolClassOf capacity in
  if decide (c = 0) then p
  else mkPools (<[c := capacity :: default [] (shared p !! c)]> (shared p)) (freeList p).
(** Returns the capacity of the buffer handed out. *)
Definition getSharedBuf (p : Pools) (n : Z) : Z * Pools :=
  let c := bufClassOf n in
  if decide (c = 0) then (n, p) else
  match default [] (shared p !! c) with
  | b :: bs =>
      let p := mkPools (<[c := bs]> (shared p)) (freeList p) in
      if decide (n ≤ b) then (b, p) else (c * bufClassBytes, p)
  | [] => (c * bufClassBytes, p)
  end.
(** [acquireBuf]: the free list is a stack whose top is the last element. *)
Definition acquireBuf (p : Pools) (n : Z) : Z * Pools :=
  match last (freeList p) with
  | Some b =>
      let p := mkPools (shared p) (removelast (freeList p)) in
      if decide (n ≤ b) then (b, p) else getSharedBuf (putSharedBuf p b) n
  | None => getSharedBuf p n
  end.
Definition releaseBuf (p : Pools) (capacity : Z) : Pools :=
  if decide (maxPooledBufs ≤ length (freeList p))%nat then putSharedBuf p capacity
  else mkPools (shared p) (freeList p ++ [capacity]).
(** [Reader.Close]'s handback of the free list. *)
Definition closePools (p : Pools) : Pools :=
  foldl putSharedBuf (mkPools (shared p) []) (freeList p).

(** ** The reader *)

Record Reader : Type := mkReader { r_file : list Z; r_meta : FileMeta }.

(** [readAt] of [n] bytes at [off]. *)
Definition readAt (file : list Z) (off : Z) (n : Z) : go (list Z) :=
  if decide (off < 0) then Err (ErrMsg "negative offset") else
  if decide (n = 0) then Ret [] else
  if decide (off + n ≤ Z.of_nat (length file))
  then Ret (take (Z.to_nat n) (drop (Z.to_nat off) file)) else Err ErrUnexpectedEOF.

Definition parseField (b : list Z) : go (Field * list Z) :=
  if decide (length b < 2)%nat then Err ErrCorruptFooter else
  '(nameLen, b) ← ReadUint16 b;
  if decide (Z.of_nat (length b) < nameLen + 3) then Err ErrCorruptFooter else
  name ← slice b 0 (Z.to_nat nameLen);
  let b := drop (Z.to_nat nameLen) b in
  t ← index b 0;
  e ← index b 1;
  flags ← index b 2;
  Ret (mkField (string_of name) (DataType_of_byte t) (Encoding_of_byte e)
         (negb (Z.land flags 1 =? 0)), drop 3 b).

Definition colMetaSize : nat := 57.

Definition parseColumnMeta (b : list Z) : go (ColumnSectionMeta * list Z) :=
  if decide (length b < colMetaSize)%nat then Err ErrCorruptFooter else
  '(off, b) ← ReadInt64 b;
  '(len, b) ← ReadInt64 b;
  '(nullCount, b) ← ReadInt64 b;
  '(sum, b) ← ReadInt64 b;
  '(mn, b) ← ReadUint64 b;
  '(mx, b) ← ReadUint64 b;
  hasMinMax ← index b 0;
  let b := drop 1 b in
  '(dictOff, b) ← ReadUint32 b;
  '(dictLen, b) ← ReadUint32 b;
  Ret (mkColumnSectionMeta off len
         (mkZoneMap nullCount sum mn mx (negb (hasMinMax =? 0))) dictOff dictLen, b).

(** [n] consecutive items. *)
Definition parseN {A} (p : list Z → go (A * list Z)) (n : Z) (b : list Z)
    : go (list A * list Z) :=
  foldM (λ '(items, b) (_ : nat), '(x, b) ← p b; Ret (items ++ [x], b))
    ([], b) (seq 0 (Z.to_nat n)).

Definition parseRowGroup (numCols : Z) (b : list Z) : go (RowGroupMeta * list Z) :=
  if decide (length b < 12)%nat then Err ErrCorruptFooter else
  '(fileOff, b) ← ReadInt64 b;
  '(numRows, b) ← ReadUint32 b;
  '(cols, b) ← parseN parseColumnMeta numCols b;
  Ret (mkRowGroupMeta fileOff (Z.to_nat numRows) cols, b).

Definition parseFooter (body : list Z) : go FileMeta :=
  if decide (length body < 4)%nat then Err ErrCorruptFooter else
  '(numCols, b) ← ReadUint32 body;
  '(fields, b) ← parseN parseField numCols b;
  if decide (length b < 4)%nat then Err ErrCorruptFooter else
  '(numRGs, b) ← ReadUint32 b;
  '(rgs, b) ← parseN (parseRowGroup numCols) numRGs b;
  Ret (mkFileMeta fields rgs).

Definition readFooter (file : list Z) : go FileMeta :=
  let size := Z.of_nat (length file) in
  if decide (size < FooterTrailerSize + Z.of_nat (length Magic)) then Err ErrBadMagic else
  trailer ← readAt file (size - FooterTrailerSize) FooterTrailerSize;
  magic ← slice trailer 12 16;
  if decide (magic ≠ Magic) then Err ErrBadMagic else
  crcb ← slice trailer 0 4;
  footerCRC ← GetUint32 crcb;
  lenb ← slice trailer 4 12;
  footerLen ← GetInt64 lenb;
  if decide (footerLen < 0 ∨ size - FooterTrailerSize - Z.of_nat (length Magic) < footerLen)
  then Err ErrCorruptFooter else
  let footerStart := size - FooterTrailerSize - footerLen in
  body ← readAt file footerStart footerLen;
  if decide (ChecksumIEEE body ≠ footerCRC) then Err ErrChecksum else
  parseFooter body.

(** [Open]: a missing file is an [os.Open] error. *)
Definition Open (fs : FS) (path : string) : go Reader :=
  match fs !! path with
  | None => Err (ErrMsg "open")
  | Some file => meta ← readFooter file; Ret (mkReader file meta)
  end.

(** ** Column readers *)

Record ColumnReader : Type := mkColumnReader {
  cr_file : list Z;
  cr_field : Field;
  cr_colMeta : ColumnSectionMeta;
  cr_pos : Z;
  cr_end : Z;
  cr_rowsDone : nat;
  cr_totalRows : nat;
  cr_win : option (list Z);
  cr_winStart : Z;
  cr_readOps : nat
}.

Definition OpenColumn (r : Reader) (rg col : Z) : go ColumnReader :=
  if decide (rg < 0 ∨ Z.of_nat (length (RowGroups (r_meta r))) ≤ rg)
  then Err (ErrMsg "row group out of range") else
  if decide (col < 0 ∨ Z.of_nat (length (fm_Schema (r_meta r))) ≤ col)
  then Err (ErrMsg "column out of range") else
  rgMeta ← index (RowGroups (r_meta r)) (Z.to_nat rg);
  colMeta ← index (Columns rgMeta) (Z.to_nat col);
  field ← index (fm_Schema (r_meta r)) (Z.to_nat col);
  Ret (mkColumnReader (r_file r) field colMeta (SectionOffset colMeta)
    (to_i64 (SectionOffset colMeta + SectionLength colMeta - DictLength colMeta))
    0 (NumRows rgMeta) None 0 0).

Definition set_win (cr : ColumnReader) (win : option (list Z)) (start : Z) (ops : nat)
    : ColumnReader :=
  mkColumnReader (cr_file cr) (cr_field cr) (cr_colMeta cr) (cr_pos cr) (cr_end cr)
    (cr_rowsDone cr) (cr_totalRows cr) win start ops.

(** The buffered window holds [off, off + n). *)
Definition buffered (cr : ColumnReader) (off n : Z) : option (list Z) :=
  match cr_win cr with
  | Some win =>
      if decide (cr_winStart cr ≤ off ∧ off - cr_winStart cr + n ≤ Z.of_nat (length win))
      then Some (take (Z.to_nat n) (drop (Z.to_nat (off - cr_winStart cr)) win)) else None
  | None => None
  end.

Definition window (cr : ColumnReader) (off n : Z) : go (list Z) * ColumnReader :=
  if decide (off < SectionOffset (cr_colMeta cr) ∨ cr_end cr < to_i64 (off + n))
  then (Err ErrUnexpectedEOF, cr) else
  match buffered cr off n with
  | Some b => (Ret b, cr)
  | None =>
      let want := to_i64 (cr_end cr - off) in
      let want := if decide (maxPrefetchBytes < want) then maxPrefetchBytes else want in
      let want := if decide (want < n) then n else want in
      match readAt (cr_file cr) off want with
      | Ret buf =>
          (Ret (take (Z.to_nat n) buf), set_win cr (Some buf) off (S (cr_readOps cr)))
      | e => (e, set_win cr None 0 (S (cr_readOps cr)))
      end
  end.

Definition advance (cr : ColumnReader) (n : Z) : ColumnReader :=
  mkColumnReader (cr_file cr) (cr_field cr) (cr_colMeta cr) (to_i64 (cr_pos cr + n)) (cr_end cr)
    (cr_rowsDone cr) (cr_totalRows cr) (cr_win cr) (cr_winStart cr) (cr_readOps cr).

(** A block: its null bitmap ([None] for BOOL), its payload, its row count. *)
Definition Block : Type := option (list Z) * list Z * nat.

Definition nextFixedBlock (cr : ColumnReader) (rows : nat) : go Block * ColumnReader :=
  let vs := ValueSize (Type_ (cr_field cr)) in
  let blockBytes := Z.of_nat (NullBitmapBytes + rows * vs + 4) in
  match window cr (cr_pos cr) blockBytes with
  | (Ret buf, cr) =>
      let cr := advance cr blockBytes in
      match VerifyTrailing buf with
      | Ret payload =>
          (nulls ← slice payload 0 ((rows + 7) / 8);
           vals ← slice payload NullBitmapBytes (length payload);
           Ret (Some nulls, vals, rows), cr)
      | _ => (Err ErrChecksum, cr)
      end
  | (Err e, cr) => (Err e, cr)
  | (Panic, cr) => (Panic, cr)
  | (OutOfFuel, cr) => (OutOfFuel, cr)
  end.

Definition nextBoolBlock (cr : ColumnReader) (rows : nat) : go Block * ColumnReader :=
  let off := cr_pos cr in
  match window cr off 4 with
  | (Ret header, cr) =>
      match GetUint32 header with
      | Ret runCount =>
          if decide (to_u32 (Z.of_nat rows) < runCount) then (Err ErrCorruptFooter, cr) else
          let totalSize := 4 + runCount * 5 + 4 in
          match window cr off totalSize with
          | (Ret buf, cr) => (Ret (None, buf, rows), advance cr totalSize)
          | (Err e, cr) => (Err e, cr)
          | (Panic, cr) => (Panic, cr)
          | (OutOfFuel, cr) => (OutOfFuel, cr)
          end
      | Err e => (Err e, cr)
      | Panic => (Panic, cr)
      | OutOfFuel => (OutOfFuel, cr)
      end
  | (Err e, cr) => (Err e, cr)
  | (Panic, cr) => (Panic, cr)
  | (OutOfFuel, cr) => (OutOfFuel, cr)
  end.

Definition NextBlock (cr : ColumnReader) : go Block * ColumnReader :=
  if decide (cr_totalRows cr ≤ cr_rowsDone cr)%nat then (Err EOF, cr) else
  let rows := (cr_totalRows cr - cr_rowsDone cr)%nat in
  let rows := if decide (BlockRows < rows)%nat then BlockRows else rows in
  let cr := mkColumnReader (cr_file cr) (cr_field cr) (cr_colMeta cr) (cr_pos cr) (cr_end cr)
    (cr_rowsDone cr + rows) (cr_totalRows cr) (cr_win cr) (cr_winStart cr) (cr_readOps cr) in
  match Type_ (cr_field cr) with
  | TypeBool => nextBoolBlock cr rows
  | _ => nextFixedBlock cr rows
  end.

(** [Dictionary]: read once, at its offset in the section. *)
Definition readDictionary (cr : ColumnReader) : go Dictionary :=
  if decide (Type_ (cr_field cr) ≠ TypeString) then Err (ErrMsg "column is not STRING") else
  buf ← readAt (cr_file cr) (to_i64 (SectionOffset (cr_colMeta cr) + DictOffset (cr_colMeta cr)))
          (DictLength (cr_colMeta cr));
  UnmarshalDictionary buf.

(** [Close] releases the window. *)
Definition CloseColumn (cr : ColumnReader) : ColumnReader := set_win cr None 0 (cr_readOps cr).

(** The driver loop of every consumer: [NextBlock] until [io.EOF]. *)
Fixpoint readBlocks (fuel : nat) (cr : ColumnReader) : go (list Block) :=
  match fuel with
  | O => OutOfFuel
  | S fuel =>
      match NextBlock cr with
      | (Ret b, cr) => bs ← readBlocks fuel cr; Ret (b :: bs)
      | (Err EOF, _) => Ret []
      | (Err e, _) => Err e
      | (Panic, _) => Panic
      | (OutOfFuel, _) => OutOfFuel
      end
  end.

(** ** Lemmas: the footer *)

Definition field_bytes (f : Field) : list Z :=
  le_bytes 2 (Z.of_nat (length (bytes_of (Name f)))) ++ bytes_of (Name f)
  ++ [DataType_byte (Type_ f); Encoding_byte (Enc f); if Nullable f then 1 else 0].
Definition column_bytes (c : ColumnSectionMeta) : list Z :=
  le_bytes 8 (to_u64 (SectionOffset c)) ++ le_bytes 8 (to_u64 (SectionLength c))
  ++ le_bytes 8 (to_u64 (NullCount (Stats c))) ++ le_bytes 8 (to_u64 (Sum (Stats c)))
  ++ le_bytes 8 (Min (Stats c)) ++ le_bytes 8 (Max (Stats c))
  ++ [if HasMinMax (Stats c) then 1 else 0]
  ++ le_bytes 4 (DictOffset c) ++ le_bytes 4 (DictLength c).
Definition rg_bytes (rg : RowGroupMeta) : list Z :=
  le_bytes 8 (to_u64 (FileOffset rg)) ++ le_bytes 4 (Z.of_nat (NumRows rg))
  ++ concat (column_bytes <$> Columns rg).

(** What the footer's field widths can hold. *)
Definition field_fits (f : Field) : Prop :=
  Z.of_nat (length (bytes_of (Name f))) < 2 ^ 16 ∧
  match Type_ f with TypeOther b => is_byte b ∧ ¬ (1 ≤ b ≤ 5) | _ => True end ∧
  match Enc f with EncOther b => is_byte b ∧ ¬ (0 ≤ b ≤ 2) | _ => True end.
Definition zonemap_fits (z : ZoneMap) : Prop :=
  inS 64 (NullCount z) ∧ inS 64 (Sum z) ∧ inU 64 (Min z) ∧ inU 64 (Max z).
Definition column_fits (c : ColumnSectionMeta) : Prop :=
  inS 64 (SectionOffset c) ∧ inS 64 (SectionLength c) ∧ zonemap_fits (Stats c) ∧
  inU 32 (DictOffset c) ∧ inU 32 (DictLength c).
Definition rg_fits (numCols : nat) (rg : RowGroupMeta) : Prop :=
  inS 64 (FileOffset rg) ∧ Z.of_nat (NumRows rg) < 2 ^ 32 ∧
  length (Columns rg) = numCols ∧ Forall column_fits (Columns rg).
Definition meta_fits (m : FileMeta) : Prop :=
  Z.of_nat (length (fm_Schema m)) < 2 ^ 32 ∧ Forall field_fits (fm_Schema m) ∧
  Z.of_nat (length (RowGroups m)) < 2 ^ 32 ∧
  Forall (rg_fits (length (fm_Schema m))) (RowGroups m).

Lemma foldl_append {A} (f : list Z → A → list Z) (enc : A → list Z) l b :
  Forall (λ x, ∀ b, f b x = b ++ enc x) l → foldl f b l = b ++ concat (enc <$> l).
Proof.
  intros H. revert b. induction H as [|x l Hx _ IH]; intros b; simpl; [by rewrite app_nil_r|].
  by rewrite IH, Hx, <- app_assoc.
Qed.

Lemma marshalField_bytes b f : field_fits f → marshalField b f = b ++ field_bytes f.
Proof.
  intros [Hn _]. unfold marshalField, field_bytes, AppendUint16.
  rewrite (wrapU_id 16) by (split; lia). by rewrite <- !app_assoc.
Qed.
Lemma marshalColumn_bytes b c : marshalColumn b c = b ++ column_bytes c.
Proof.
  unfold marshalColumn, column_bytes, AppendInt64, AppendUint64, AppendUint32.
  by rewrite <- !app_assoc.
Qed.
Lemma marshalRowGroup_bytes b rg :
  Z.of_nat (NumRows rg) < 2 ^ 32 → marshalRowGroup b rg = b ++ rg_bytes rg.
Proof.
  intros Hn. unfold marshalRowGroup, rg_bytes.
  rewrite (foldl_append _ column_bytes)
    by (apply Forall_true; intros; apply marshalColumn_bytes).
  unfold AppendInt64, AppendUint32. rewrite (wrapU_id 32) by (split; lia).
  by rewrite <- !app_assoc.
Qed.

Lemma marshalBody_bytes m :
  meta_fits m →
  marshalBody (fm_Schema m) (RowGroups m)
  = le_bytes 4 (Z.of_nat (length (fm_Schema m))) ++ concat (field_bytes <$> fm_Schema m)
    ++ le_bytes 4 (Z.of_nat (length (RowGroups m))) ++ concat (rg_bytes <$> RowGroups m).
Proof.
  intros (Hs & Hf & Hr & Hg). unfold marshalBody.
  rewrite (foldl_append _ rg_bytes), (foldl_append _ field_bytes).
  - unfold AppendUint32. rewrite !(wrapU_id 32) by (split; lia). simpl app.
    by rewrite <- !app_assoc.
  - eapply Forall_impl; [exact Hf|]. intros. by apply marshalField_bytes.
  - eapply Forall_impl; [exact Hg|]. intros rg (_ & ? & _) b. by apply marshalRowGroup_bytes.
Qed.

Lemma parseN_concat {A} (p : list Z → go (A * list Z)) (enc : A → list Z) l r :
  Forall (λ x, ∀ r, p (enc x ++ r) = Ret (x, r)) l →
  parseN p (Z.of_nat (length l)) (concat (enc <$> l) ++ r) = Ret (l, r).
Proof.
  intros Hp. unfold parseN. rewrite Nat2Z.id.
  destruct (foldM_seq_ind (λ '(items, b) (_ : nat), '(x, b) ← p b; Ret (items ++ [x], b))
    (λ k '(items, b), items = take k l ∧ b = concat (enc <$> drop k l) ++ r)
    (length l) ([], concat (enc <$> l) ++ r)) as ([items b] & -> & -> & ->).
  - done.
  - intros k [items b] Hk [-> ->]. destruct (lookup_lt_is_Some_2 _ _ Hk) as [x Hx].
    rewrite (drop_S _ _ _ Hx), fmap_cons. cbn [concat]. rewrite <- app_assoc.
    pose proof (Forall_lookup_1 _ _ _ _ Hp Hx) as Hpx. simpl in Hpx.
    rewrite Hpx. eexists. split; [done|]. by rewrite (take_S_r _ _ _ Hx).
  - by rewrite take_ge, drop_ge by lia.
Qed.

Lemma parseField_bytes f r : field_fits f → parseField (field_bytes f ++ r) = Ret (f, r).
Proof.
  intros (Hn & Ht & He). unfold parseField, field_bytes. rewrite <- !app_assoc.
  rewrite decide_False by (rewrite length_app, length_le_bytes; lia).
  rewrite ReadUint16_app. cbn [mbind go_bind]. rewrite (wrapU_id 16) by (split; lia).
  rewrite decide_False by (rewrite !length_app; simpl; lia).
  rewrite Nat2Z.id, slice_Ret by (rewrite ?length_app; lia). cbn [mbind go_bind].
  rewrite Nat.sub_0_r, drop_0, take_app_length, drop_app_length. simpl.
  rewrite string_of_bytes_of, DataType_byte_inv, Encoding_byte_inv
    by (destruct (Type_ f), (Enc f); naive_solver).
  destruct f as [n t e []]; done.
Qed.

Lemma parseColumnMeta_bytes c r :
  column_fits c → parseColumnMeta (column_bytes c ++ r) = Ret (c, r).
Proof.
  intros (Ho & Hl & (Hnc & Hsum & Hmin & Hmax) & Hdo & Hdl).
  unfold parseColumnMeta, column_bytes. rewrite <- !app_assoc.
  rewrite decide_False by (rewrite !length_app, !length_le_bytes; simpl; unfold colMetaSize; lia).
  do 4 (rewrite ReadInt64_app by done; cbn [mbind go_bind]).
  do 2 (rewrite ReadUint64_app; cbn [mbind go_bind]). rewrite index_app_hd.
  cbn [mbind go_bind]. rewrite drop_app_hd.
  do 2 (rewrite ReadUint32_app; cbn [mbind go_bind]).
  rewrite !(wrapU_id 64), !(wrapU_id 32) by done.
  destruct c as [o l [nc s mn mx []] d dl]; done.
Qed.

Lemma parseRowGroup_bytes n rg r :
  rg_fits n rg → parseRowGroup (Z.of_nat n) (rg_bytes rg ++ r) = Ret (rg, r).
Proof.
  intros (Ho & Hn & Hc & Hcols). unfold parseRowGroup, rg_bytes. rewrite <- !app_assoc.
  rewrite decide_False by (rewrite !length_app, !length_le_bytes; lia).
  rewrite ReadInt64_app by done. cbn [mbind go_bind].
  rewrite ReadUint32_app, (wrapU_id 32) by (split; lia). cbn [mbind go_bind].
  rewrite <- Hc, parseN_concat.
  - cbn [mbind go_bind]. rewrite Nat2Z.id. by destruct rg.
  - eapply Forall_impl; [exact Hcols|]. intros. by apply parseColumnMeta_bytes.
Qed.

Lemma parseFooter_marshal m :
  meta_fits m → parseFooter (marshalBody (fm_Schema m) (RowGroups m)) = Ret m.
Proof.
  intros Hm. rewrite marshalBody_bytes by done. destruct Hm as (Hs & Hf & Hr & Hg).
  unfold parseFooter. rewrite decide_False by (rewrite length_app, length_le_bytes; lia).
  rewrite ReadUint32_app, (wrapU_id 32) by (split; lia). cbn [mbind go_bind].
  rewrite parseN_concat
    by (eapply Forall_impl; [exact Hf|]; intros; by apply parseField_bytes).
  cbn [mbind go_bind]. rewrite decide_False by (rewrite length_app, length_le_bytes; lia).
  rewrite ReadUint32_app, (wrapU_id 32) by (split; lia). cbn [mbind go_bind].
  rewrite <- (app_nil_r (concat (rg_bytes <$> _))), parseN_concat
    by (eapply Forall_impl; [exact Hg|]; intros; by apply parseRowGroup_bytes).
  by destruct m.
Qed.

Lemma field_bytes_ok f : field_fits f → bytes_ok (field_bytes f).
Proof.
  intros (_ & Ht & He). unfold field_bytes. apply bytes_ok_app; [auto with bytes|].
  apply bytes_ok_app; [auto with bytes|]. repeat apply Forall_cons_2; [| | |constructor].
  - by destruct (Type_ f); destruct_and?; [vm_compute..|].
  - by destruct (Enc f); destruct_and?; [vm_compute..|].
  - by destruct (Nullable f); vm_compute.
Qed.
Lemma column_bytes_ok c : bytes_ok (column_bytes c).
Proof.
  assert (bytes_ok [if HasMinMax (Stats c) then 1 else 0])
    by (apply Forall_singleton; by destruct (HasMinMax (Stats c))).
  unfold column_bytes. auto 15 with bytes.
Qed.
Lemma concat_bytes_ok {A} (enc : A → list Z) l :
  Forall (λ x, bytes_ok (enc x)) l → bytes_ok (concat (enc <$> l)).
Proof. induction 1; simpl; auto with bytes. Qed.
Lemma rg_bytes_ok rg : bytes_ok (rg_bytes rg).
Proof.
  unfold rg_bytes. do 2 (apply bytes_ok_app; [auto with bytes|]). apply concat_bytes_ok.
  apply Forall_true. intros. apply column_bytes_ok.
Qed.
Lemma marshalBody_ok m : meta_fits m → bytes_ok (marshalBody (fm_Schema m) (RowGroups m)).
Proof.
  intros Hm. rewrite marshalBody_bytes by done. destruct Hm as (_ & Hf & _ & _).
  apply bytes_ok_app; [auto with bytes|]. apply bytes_ok_app; [|apply bytes_ok_app; [auto with bytes|]].
  - apply concat_bytes_ok. eapply Forall_impl; [exact Hf|]. apply field_bytes_ok.
  - apply concat_bytes_ok, Forall_true. intros. apply rg_bytes_ok.
Qed.

Lemma readAt_app pre mid post n :
  n = Z.of_nat (length mid) →
  readAt (pre ++ mid ++ post) (Z.of_nat (length pre)) n = Ret mid.
Proof.
  intros ->. unfold readAt. rewrite decide_False by lia. case_decide as H0.
  { destruct mid; [done|simpl in H0; lia]. }
  rewrite decide_True by (rewrite !length_app; lia).
  by rewrite !Nat2Z.id, drop_app_length, take_app_length.
Qed.

Definition trailer_bytes (body : list Z) : list Z :=
  le_bytes 4 (ChecksumIEEE body) ++ le_bytes 8 (to_u64 (Z.of_nat (length body))) ++ Magic.

Lemma marshalFooter_bytes w :
  marshalFooter w = marshalBody (w_schema w) (w_rgs w)
    ++ trailer_bytes (marshalBody (w_schema w) (w_rgs w)).
Proof.
  unfold marshalFooter, trailer_bytes, AppendInt64, AppendUint32. by rewrite <- app_assoc.
Qed.

(** Reading back the footer that [Finish] appended after any file body. *)
Lemma readFooter_spec pre m :
  meta_fits m → (4 ≤ length pre)%nat →
  Z.of_nat (length (marshalBody (fm_Schema m) (RowGroups m))) < 2 ^ 63 →
  readFooter (pre ++ marshalBody (fm_Schema m) (RowGroups m)
    ++ trailer_bytes (marshalBody (fm_Schema m) (RowGroups m))) = Ret m.
Proof.
  intros Hm Hpre Hsz. set (body := marshalBody _ _) in *.
  assert (Hcrc : inU 32 (ChecksumIEEE body)) by by apply ChecksumIEEE_in, marshalBody_ok.
  assert (Ht : length (trailer_bytes body) = 16%nat)
    by (unfold trailer_bytes; rewrite !length_app, !length_le_bytes; done).
  unfold readFooter. rewrite !length_app, Ht.
  rewrite decide_False by (unfold FooterTrailerSize; simpl length; lia).
  replace (Z.of_nat _ - FooterTrailerSize) with (Z.of_nat (length (pre ++ body)))
    by (rewrite length_app; unfold FooterTrailerSize; lia).
  pose proof (readAt_app (pre ++ body) (trailer_bytes body) [] FooterTrailerSize) as E.
  rewrite app_nil_r, <- app_assoc in E. rewrite E by by rewrite Ht. clear E.
  cbn [mbind go_bind].
  assert (Hs : slice (trailer_bytes body) 12 16 = Ret Magic ∧
    slice (trailer_bytes body) 0 4 = Ret (le_bytes 4 (ChecksumIEEE body)) ∧
    slice (trailer_bytes body) 4 12 = Ret (le_bytes 8 (to_u64 (Z.of_nat (length body)))))
    by (by rewrite !slice_Ret by lia).
  destruct Hs as (-> & -> & ->). cbn [mbind go_bind].
  rewrite decide_False by auto.
  rewrite <- (app_nil_r (le_bytes 4 _)), GetUint32_app. cbn [mbind go_bind].
  unfold GetInt64. pose proof (LE_Uint_app 8 (to_u64 (Z.of_nat (length body))) []) as E.
  rewrite app_nil_r in E. rewrite E. clear E. cbn [mbind go_bind].
  change (256 ^ Z.of_nat 8) with (2 ^ 64).
  rewrite Z.mod_small by (apply (wrapU_in 64); lia).
  rewrite (wrapS_wrapU 64) by (try split; lia).
  rewrite decide_False by (rewrite length_app; simpl length; lia).
  replace (Z.of_nat (length (pre ++ body)) - Z.of_nat (length body)) with (Z.of_nat (length pre))
    by (rewrite length_app; lia).
  rewrite readAt_app by done. cbn [mbind go_bind].
  rewrite decide_False by (rewrite (wrapU_id 32) by done; auto).
  by apply parseFooter_marshal.
Qed.

(** ** Lemmas: the window

    Whatever is buffered, a window inside the section is the file's bytes. *)

Definition win_ok (cr : ColumnReader) : Prop :=
  match cr_win cr with
  | Some w => 0 ≤ cr_winStart cr ∧ cr_winStart cr + Z.of_nat (length w) ≤ Z.of_nat (length (cr_file cr)) ∧
      w = take (length w) (drop (Z.to_nat (cr_winStart cr)) (cr_file cr))
  | None => True
  end.

(** [cr'] is [cr] up to its buffer. *)
Definition same_column (cr cr' : ColumnReader) : Prop :=
  cr' = set_win cr (cr_win cr') (cr_winStart cr') (cr_readOps cr').

Lemma same_column_fields cr cr' :
  same_column cr cr' →
  cr_file cr' = cr_file cr ∧ cr_field cr' = cr_field cr ∧ cr_colMeta cr' = cr_colMeta cr ∧
  cr_pos cr' = cr_pos cr ∧ cr_end cr' = cr_end cr ∧ cr_rowsDone cr' = cr_rowsDone cr ∧
  cr_totalRows cr' = cr_totalRows cr.
Proof. intros E. rewrite E. done. Qed.

Lemma buffered_spec cr off n b :
  win_ok cr → 0 ≤ n → buffered cr off n = Some b →
  b = take (Z.to_nat n) (drop (Z.to_nat off) (cr_file cr)).
Proof.
  unfold win_ok, buffered. intros Hw Hn. destruct (cr_win cr) as [w|]; [|done].
  destruct Hw as (H0 & Hlen & Hw). case_decide as Hd; [|done]. intros [= <-].
  destruct Hd as [Hs Hd]. remember (length w) as L eqn:HL. clear HL.
  rewrite Hw, skipn_firstn_comm, take_take, drop_drop. f_equal; [lia|]. f_equal. lia.
Qed.

Lemma window_spec cr off n :
  win_ok cr → 0 ≤ n → 0 ≤ SectionOffset (cr_colMeta cr) ≤ off → off + n ≤ cr_end cr →
  cr_end cr ≤ Z.of_nat (length (cr_file cr)) → Z.of_nat (length (cr_file cr)) < 2 ^ 63 →
  ∃ cr', window cr off n = (Ret (take (Z.to_nat n) (drop (Z.to_nat off) (cr_file cr))), cr') ∧
    win_ok cr' ∧ same_column cr cr'.
Proof.
  intros Hw Hn Hoff Hend Hfile Hsz. unfold window.
  rewrite (wrapS_id 64) by (try split; lia). rewrite decide_False by lia.
  destruct (buffered cr off n) as [b|] eqn:Hb.
  { apply buffered_spec in Hb as ->; [|done..]. exists cr. split; [done|]. split; [done|].
    by destruct cr. }
  rewrite (wrapS_id 64) by (try split; lia).
  set (want := if decide (maxPrefetchBytes < cr_end cr - off) then maxPrefetchBytes
               else cr_end cr - off).
  set (want' := if decide (want < n) then n else want).
  assert (Hwant : n ≤ want' ≤ cr_end cr - off).
  { subst want want'. assert (0 < maxPrefetchBytes) by done. repeat case_decide; lia. }
  clearbody want'. clear want.
  assert (readAt (cr_file cr) off want' = Ret (take (Z.to_nat want') (drop (Z.to_nat off) (cr_file cr))))
    as ->.
  { unfold readAt. rewrite decide_False by lia. case_decide as Hz; [by rewrite Hz|].
    by rewrite decide_True by lia. }
  eexists. split; [|split].
  - f_equal. f_equal. rewrite take_take. f_equal. lia.
  - unfold win_ok. simpl. rewrite length_take, length_drop.
    split; [lia|]. split; [lia|]. f_equal. lia.
  - done.
Qed.

(** A window outside the section is refused without a read. *)
Lemma window_out_of_section cr off n :
  off < SectionOffset (cr_colMeta cr) ∨ cr_end cr < to_i64 (off + n) →
  window cr off n = (Err ErrUnexpectedEOF, cr).
Proof. intros. unfold window. by rewrite decide_True. Qed.

(** ** Lemmas: streaming a column

    The section holds the blocks [blocks] one after the other; [col_inv k] is
    the reader's state after [k] of them. *)
Section stream.
Context (pre post : list Z) (blocks : list (list Z)) (field : Field) (meta : ColumnSectionMeta).
#[local] Abbreviation file := (pre ++ concat blocks ++ post).
Hypothesis Hoff : SectionOffset meta = Z.of_nat (length pre).
Hypothesis Hsize : Z.of_nat (length file) < 2 ^ 63.

Definition col_pos (k : nat) (cr : ColumnReader) : Prop :=
  cr_file cr = file ∧ cr_field cr = field ∧ cr_colMeta cr = meta ∧
  cr_pos cr = Z.of_nat (length pre + length (concat (take k blocks))) ∧
  cr_end cr = Z.of_nat (length pre + length (concat blocks)) ∧ win_ok cr.

Lemma file_at k b :
  blocks !! k = Some b →
  ∃ rest, file = (pre ++ concat (take k blocks)) ++ b ++ rest.
Proof.
  intros Hk. exists (concat (drop (S k) blocks) ++ post).
  rewrite <- (take_drop_middle _ _ _ Hk) at 1. rewrite concat_app. cbn [concat].
  by rewrite <- !app_assoc.
Qed.

Lemma length_concat_take k b :
  blocks !! k = Some b →
  (length (concat (take (S k) blocks)) = length (concat (take k blocks)) + length b)%nat ∧
  (length (concat (take k blocks)) + length b ≤ length (concat blocks))%nat.
Proof.
  intros Hk. rewrite (take_S_r _ _ _ Hk), concat_app, length_app. simpl. rewrite app_nil_r.
  split; [done|]. rewrite <- (take_drop_middle _ _ _ Hk) at 2.
  rewrite concat_app, length_app. simpl. rewrite length_app. lia.
Qed.

(** A window at the start of block [k], no longer than the block. *)
Lemma window_block k b cr n :
  col_pos k cr → blocks !! k = Some b → 0 ≤ n ≤ Z.of_nat (length b) →
  ∃ cr', window cr (cr_pos cr) n = (Ret (take (Z.to_nat n) b), cr') ∧
    win_ok cr' ∧ same_column cr cr'.
Proof.
  intros (Hf & _ & Hm & Hp & He & Hw) Hk Hn.
  destruct (file_at k b Hk) as [rest Hfile].
  destruct (length_concat_take k b Hk) as [_ Hle].
  destruct (window_spec cr (cr_pos cr) n) as (cr' & E & ? & ?); try done; try lia.
  - rewrite Hm, Hp, Hoff. lia.
  - rewrite Hf, He, !length_app. lia.
  - by rewrite Hf.
  - exists cr'. split; [|done]. rewrite E, Hf, Hp, Nat2Z.id, Hfile, <- length_app.
    by rewrite drop_app_length, take_app_le by lia.
Qed.

(** Moving past block [k]. *)
Lemma col_pos_advance k b cr cr' n :
  col_pos k cr → blocks !! k = Some b → n = Z.of_nat (length b) →
  win_ok cr' → same_column cr cr' → col_pos (S k) (advance cr' n).
Proof.
  intros (Hf & Hfd & Hm & Hp & He & _) Hk -> Hw E.
  apply same_column_fields in E as (Ef & Efd & Em & Ep & Ee & _).
  destruct (length_concat_take k b Hk) as [Hl Hle]. rewrite !length_app in Hsize.
  unfold col_pos. cbn [advance cr_file cr_field cr_colMeta cr_pos cr_end].
  rewrite Ef, Efd, Em, Ee. split; [done|]. split; [done|]. split; [done|]. split; [|by split].
  rewrite Ep, Hp, (wrapS_id 64) by (try split; lia). lia.
Qed.

Context (nrows : nat).
Hypothesis Hcount : length blocks = length (block_starts nrows).

Definition col_inv (k : nat) (cr : ColumnReader) : Prop :=
  col_pos k cr ∧ cr_rowsDone cr = (Nat.min (k * BlockRows) nrows) ∧ cr_totalRows cr = nrows.

(** The row counter of block [k]. *)
Lemma block_rows k cr :
  col_inv k cr → (k < length blocks)%nat →
  (k * BlockRows < nrows)%nat ∧
  ∃ cr0, col_pos k cr0 ∧ cr_rowsDone cr0 = Nat.min (S k * BlockRows) nrows ∧
    cr_totalRows cr0 = nrows ∧
    NextBlock cr =
      let rows := (block_end nrows (k * BlockRows) - k * BlockRows)%nat in
      match Type_ field with
      | TypeBool => nextBoolBlock cr0 rows
      | _ => nextFixedBlock cr0 rows
      end.
Proof.
  intros [Hpos [Hd Ht]] Hk. rewrite Hcount in Hk.
  destruct (lookup_lt_is_Some_2 _ _ Hk) as [s [-> Hlt]%lookup_block_starts].
  split; [done|]. eexists (mkColumnReader _ _ _ _ _ _ _ _ _ _).
  split; [exact Hpos|]. split; [cbn [cr_rowsDone]; reflexivity|]. split; [reflexivity|].
  unfold NextBlock. rewrite Hd, Ht, decide_False by lia. destruct Hpos as (_ & -> & _).
  assert (Er : (if decide (BlockRows < nrows - Nat.min (k * BlockRows) nrows)%nat then BlockRows
    else (nrows - Nat.min (k * BlockRows) nrows)%nat)
    = (block_end nrows (k * BlockRows) - k * BlockRows)%nat).
  { unfold block_end. repeat case_decide; lia. }
  rewrite Er. clear Er.
  replace (Nat.min (k * BlockRows) nrows + (block_end nrows (k * BlockRows) - k * BlockRows))%nat
    with (Nat.min (S k * BlockRows) nrows); [done|].
  rewrite Nat.mul_succ_l. unfold block_end. case_decide; lia.
Qed.

Lemma NextBlock_EOF k cr :
  col_inv k cr → (length blocks ≤ k)%nat → NextBlock cr = (Err EOF, cr).
Proof.
  intros (_ & Hd & Ht) Hk. unfold NextBlock.
  rewrite decide_True; [done|]. rewrite Hd, Ht. pose proof (length_block_starts nrows). nia.
Qed.

(** If every block decodes as [expect] says, the driver loop collects them. *)
Lemma readBlocks_spec (expect : list Block) cr fuel :
  length expect = length blocks →
  (∀ k b e cr, blocks !! k = Some b → expect !! k = Some e → col_inv k cr →
     ∃ cr', NextBlock cr = (Ret e, cr') ∧ col_inv (S k) cr') →
  col_inv 0 cr → (length blocks < fuel)%nat → readBlocks fuel cr = Ret expect.
Proof.
  intros Hl Hstep Hcr Hfuel.
  cut (∀ m k cr fuel, drop k expect = m → (k + length m = length blocks)%nat →
    (length m < fuel)%nat → col_inv k cr → readBlocks fuel cr = Ret m).
  { intros C. apply (C expect 0%nat); auto; lia. }
  clear Hcr Hfuel cr fuel. induction m as [|e m IH]; intros k cr fuel Hd Hk Hfuel Hcr;
    (destruct fuel as [|fuel]; [simpl in *; lia|]); cbn [readBlocks].
  - by rewrite (NextBlock_EOF k cr Hcr) by (simpl in Hk; lia).
  - simpl in Hk, Hfuel. destruct (lookup_lt_is_Some_2 blocks k) as [b Hb]; [lia|].
    assert (He : expect !! k = Some e).
    { rewrite <- (Nat.add_0_r k), <- lookup_drop, Hd. done. }
    destruct (Hstep k b e cr Hb He Hcr) as (cr' & -> & Hcr').
    rewrite (IH (S k) cr' fuel); [done| |lia|lia|done].
    rewrite <- Nat.add_1_r, <- drop_drop, Hd. done.
Qed.
End stream.

(** ** Properties *)

(** *** Hostile bytes: no input makes the parser panic *)

Lemma safe_LE_Uint n b : (n ≤ length b)%nat → safe_post (λ _, True) (LE_Uint n b).
Proof. intros. unfold LE_Uint. by rewrite decide_True. Qed.
Lemma safe_Read_Uint n b :
  (n ≤ length b)%nat → bytes_ok b →
  safe_post (λ p, length p.2 = (length b - n)%nat ∧ bytes_ok p.2 ∧ 0 ≤ p.1) (Read_Uint n b).
Proof.
  intros. unfold Read_Uint, LE_Uint. rewrite decide_True by done. cbn.
  rewrite length_drop. split; [done|]. split; [by apply Forall_drop|].
  apply le_val_bound. by apply Forall_take.
Qed.
Lemma safe_ReadInt64 b :
  (8 ≤ length b)%nat → bytes_ok b →
  safe_post (λ p, length p.2 = (length b - 8)%nat ∧ bytes_ok p.2) (ReadInt64 b).
Proof.
  intros. unfold ReadInt64. eapply safe_post_bind; [by apply safe_Read_Uint|].
  intros [v r] (? & ? & _). done.
Qed.

(** One parse step on the remaining bytes, by its lemma. *)
#[local] Ltac parse_step lem :=
  eapply safe_post_bind; [apply lem; [rewrite ?length_drop; lia|auto with bytes]|];
  let v := fresh "v" in let r := fresh "r" in let H := fresh "Hr" in
  intros [v r] H; cbn [fst snd] in H; rewrite ?length_drop in H; destruct_and? H.

Abbreviation rest_ok := (λ p, bytes_ok p.2).

Lemma safe_parseField b : bytes_ok b → safe_post rest_ok (parseField b).
Proof.
  intros Hb. unfold parseField. case_decide; [done|]. parse_step (safe_Read_Uint 2).
  case_decide; [done|]. eapply safe_post_bind; [apply safe_slice; lia|]. intros name _.
  assert (Hl : (3 ≤ length (drop (Z.to_nat v) r))%nat) by (rewrite length_drop; lia).
  do 3 (eapply safe_post_bind; [apply safe_index; lia|]; intros ? _). simpl.
  auto with bytes.
Qed.
Lemma safe_parseColumnMeta b : bytes_ok b → safe_post rest_ok (parseColumnMeta b).
Proof.
  intros Hb. unfold parseColumnMeta. case_decide as Hl; [done|]. unfold colMetaSize in Hl.
  do 4 parse_step safe_ReadInt64. do 2 parse_step (safe_Read_Uint 8).
  eapply safe_post_bind; [apply safe_index; lia|]. intros hm _.
  do 2 parse_step (safe_Read_Uint 4). done.
Qed.
Lemma safe_parseN {A} (p : list Z → go (A * list Z)) n b :
  (∀ b, bytes_ok b → safe_post rest_ok (p b)) → bytes_ok b → safe_post rest_ok (parseN p n b).
Proof.
  intros Hp Hb. unfold parseN. apply (safe_post_foldM rest_ok); [done|]. intros [items r] _ Hr.
  eapply safe_post_bind; [by apply Hp|]. by intros [x r'] Hr'.
Qed.
Lemma safe_parseRowGroup k b : bytes_ok b → safe_post rest_ok (parseRowGroup k b).
Proof.
  intros Hb. unfold parseRowGroup. case_decide; [done|]. parse_step safe_ReadInt64.
  parse_step (safe_Read_Uint 4).
  eapply safe_post_bind; [by apply safe_parseN; [apply safe_parseColumnMeta|]|].
  by intros [c r1] Hr1.
Qed.
Lemma safe_parseFooter b : bytes_ok b → safe_post (λ _, True) (parseFooter b).
Proof.
  intros Hb. unfold parseFooter. case_decide; [done|]. parse_step (safe_Read_Uint 4).
  eapply safe_post_bind; [by apply safe_parseN; [apply safe_parseField|]|]. intros [fs r1] Hr1.
  cbn [snd] in Hr1. case_decide; [done|]. parse_step (safe_Read_Uint 4).
  eapply safe_post_bind; [by apply safe_parseN; [apply safe_parseRowGroup|]|].
  by intros [rgs r3] _.
Qed.

Lemma safe_readAt file off n :
  bytes_ok file →
  safe_post (λ b, Z.of_nat (length b) = Z.max 0 n ∧ bytes_ok b) (readAt file off n).
Proof.
  intros Hf. unfold readAt. repeat case_decide;
    [done|simpl; split; [lia|constructor]| |done]. simpl.
  rewrite length_take, length_drop. split; [lia|]. auto with bytes.
Qed.

Lemma readFooter_total file : bytes_ok file → safe (readFooter file).
Proof.
  intros Hf. apply (safe_post_safe (λ _, True)). unfold readFooter. case_decide as Hsz; [done|].
  eapply safe_post_bind; [by apply safe_readAt|]. intros trailer [Ht _].
  unfold FooterTrailerSize in *.
  eapply safe_post_bind; [apply safe_slice; lia|]. intros magic _. case_decide; [done|].
  eapply safe_post_bind; [apply safe_slice; lia|]. intros crcb Hc; cbv beta in Hc.
  eapply safe_post_bind; [apply safe_LE_Uint; lia|]. intros crc _.
  eapply safe_post_bind; [apply safe_slice; lia|]. intros lenb Hl; cbv beta in Hl.
  eapply (safe_post_bind (λ _, True)).
  { unfold GetInt64. eapply safe_post_bind; [apply safe_LE_Uint; lia|]. done. }
  intros len _. case_decide; [done|].
  eapply safe_post_bind; [by apply safe_readAt|]. intros body [_ Hb]. case_decide; [done|].
  by apply safe_parseFooter.
Qed.

(** C22: [Open] is total on arbitrary bytes: whatever the file holds, truncated,
    damaged or hostile, reading its footer returns metadata or an error, and
    never indexes outside a buffer. *)
Theorem readFooter_safe file : bytes_ok file → safe (readFooter file).
Proof. apply readFooter_total. Qed.

Lemma readFooter_safe_witness :
  safe (readFooter (Magic ++ [1; 2; 3; 4; 0; 0; 0; 0; 255; 255; 255; 255] ++ Magic)).
Proof.
  apply (readFooter_safe (Magic ++ [1; 2; 3; 4; 0; 0; 0; 0; 255; 255; 255; 255] ++ Magic)).
  apply (bool_decide_eq_true_1 (Forall is_byte _)). vm_compute. reflexivity.
Defined.

Lemma window_length cr off n b cr' :
  0 ≤ n → window cr off n = (Ret b, cr') → Z.of_nat (length b) = n.
Proof.
  intros Hn. unfold window. case_decide; [done|]. unfold buffered.
  destruct (match cr_win cr with Some _ => _ | None => _ end) as [b'|] eqn:Hb.
  - intros [= <- <-]. destruct (cr_win cr) as [w|]; [|done]. case_decide as Hd; [|done].
    injection Hb as <-. rewrite length_take, length_drop. lia.
  - clear Hb. set (want := if decide (_ < n) then _ else _).
    assert (n ≤ want) by (subst want; case_decide; lia). clearbody want.
    unfold readAt. repeat case_decide; try done.
    + intros [= <- <-]. simpl. rewrite take_nil. simpl. lia.
    + intros [= <- <-]. rewrite !length_take, length_drop. lia.
Qed.
Lemma window_safe cr off n : safe (window cr off n).1.
Proof.
  unfold window. case_decide; [done|]. destruct (buffered cr off n); [done|]. unfold readAt.
  set (want := if decide (_ < n) then _ else _). by repeat case_decide.
Qed.
Lemma window_outcome cr off n :
  0 ≤ n →
  (∃ b cr', window cr off n = (Ret b, cr') ∧ Z.of_nat (length b) = n) ∨
  (∃ e cr', window cr off n = (Err e, cr')).
Proof.
  intros Hn. pose proof (window_safe cr off n) as Hs.
  destruct (window cr off n) as [[b|e| |] cr'] eqn:E; [left|right|done|done]; [|eauto].
  eauto using window_length.
Qed.

Lemma VerifyTrailing_safe b : safe_post (λ p, (length p + 4)%nat = length b) (VerifyTrailing b).
Proof.
  unfold VerifyTrailing. case_decide; [done|].
  eapply safe_post_bind; [apply safe_LE_Uint; rewrite length_drop; lia|]. intros w _.
  case_decide; [|done]. simpl. rewrite length_take. lia.
Qed.

Lemma nextFixedBlock_safe cr rows : (rows ≤ BlockRows)%nat → safe (nextFixedBlock cr rows).1.
Proof.
  intros Hr. unfold nextFixedBlock. set (n := Z.of_nat _).
  destruct (window_outcome cr (cr_pos cr) n) as [(b & cr' & -> & Hb)|(e & cr' & ->)]; [lia| |done].
  pose proof (VerifyTrailing_safe b) as Hv. destruct (VerifyTrailing b) as [p| | |]; try done.
  cbn in Hv. subst n. pose proof BlockRows_8.
  rewrite slice_Ret by lia. cbn [mbind go_bind]. by rewrite slice_Ret by lia.
Qed.
Lemma nextBoolBlock_safe cr rows : safe (nextBoolBlock cr rows).1.
Proof.
  unfold nextBoolBlock.
  destruct (window_outcome cr (cr_pos cr) 4) as [(b & cr' & -> & Hb)|(e & cr' & ->)]; [lia| |done].
  pose proof (safe_LE_Uint 4 b) as Hg. unfold GetUint32.
  destruct (LE_Uint 4 b) as [r| | |]; try done; try (by apply Hg; lia).
  case_decide; [done|]. pose proof (window_safe cr' (cr_pos cr) (4 + r * 5 + 4)).
  by destruct (window cr' _ _) as [[]].
Qed.

(** A served block moves the row counter. *)
Lemma window_rows cr off n : cr_rowsDone (window cr off n).2 = cr_rowsDone cr ∧
  cr_totalRows (window cr off n).2 = cr_totalRows cr.
Proof.
  unfold window. case_decide; [done|]. destruct (buffered cr off n); [done|].
  by destruct (readAt _ _ _).
Qed.
Lemma nextFixedBlock_rows cr rows :
  cr_rowsDone (nextFixedBlock cr rows).2 = cr_rowsDone cr ∧
  cr_totalRows (nextFixedBlock cr rows).2 = cr_totalRows cr.
Proof.
  unfold nextFixedBlock. set (n := Z.of_nat _). pose proof (window_rows cr (cr_pos cr) n) as H.
  destruct (window cr (cr_pos cr) n) as [[b|e| |] cr']; try done. by destruct (VerifyTrailing b).
Qed.
Lemma nextBoolBlock_rows cr rows :
  cr_rowsDone (nextBoolBlock cr rows).2 = cr_rowsDone cr ∧
  cr_totalRows (nextBoolBlock cr rows).2 = cr_totalRows cr.
Proof.
  unfold nextBoolBlock. pose proof (window_rows cr (cr_pos cr) 4) as [H1 H2].
  destruct (window cr (cr_pos cr) 4) as [[b|e| |] cr1]; try done. cbn [snd] in *.
  destruct (GetUint32 b) as [r| | |]; try done. case_decide; [done|].
  pose proof (window_rows cr1 (cr_pos cr) (4 + r * 5 + 4)) as [H3 H4].
  destruct (window cr1 _ _) as [[]]; cbn [snd] in *; simpl; split; congruence.
Qed.

Lemma NextBlock_progress cr :
  safe (NextBlock cr).1 ∧
  (∀ b cr', NextBlock cr = (Ret b, cr') →
     cr_totalRows cr' = cr_totalRows cr ∧ (cr_rowsDone cr < cr_rowsDone cr' ≤ cr_totalRows cr)%nat).
Proof.
  unfold NextBlock. case_decide as Hd; [done|]. pose proof BlockRows_pos.
  set (rows := if decide (BlockRows < _)%nat then _ else _).
  assert (Hr : (0 < rows ≤ BlockRows)%nat ∧ (rows ≤ cr_totalRows cr - cr_rowsDone cr)%nat)
    by (subst rows; case_decide; lia).
  clearbody rows. set (cr1 := mkColumnReader _ _ _ _ _ _ _ _ _ _).
  pose proof (nextFixedBlock_safe cr1 rows) as Hf. pose proof (nextBoolBlock_safe cr1 rows) as Hb.
  pose proof (nextFixedBlock_rows cr1 rows) as [Hf1 Hf2].
  pose proof (nextBoolBlock_rows cr1 rows) as [Hb1 Hb2].
  split; [destruct (Type_ (cr_field cr1)); (by apply Hf; lia) || done|].
  intros b cr' E. assert (E' : nextBoolBlock cr1 rows = (Ret b, cr') ∨
    nextFixedBlock cr1 rows = (Ret b, cr')) by (destruct (Type_ (cr_field cr1)); auto).
  destruct E' as [E'|E']; rewrite E' in *; cbn [snd cr1 cr_rowsDone cr_totalRows] in *; lia.
Qed.

(** C23: Streaming a column always ends, without a panic.  Whatever bytes and
    metadata the column reader is given, the consumer's loop makes at most one
    call per row left (plus the one that reports EOF), and it ends in the list
    of blocks or in an error. *)
Theorem readBlocks_terminates cr fuel :
  (cr_totalRows cr - cr_rowsDone cr < fuel)%nat → safe (readBlocks fuel cr).
Proof.
  revert cr. induction fuel as [|fuel IH]; intros cr Hf; [lia|]. cbn [readBlocks].
  destruct (NextBlock_progress cr) as [Hs Hp].
  destruct (NextBlock cr) as [[b|e| |] cr']; try done; [|by destruct e].
  destruct (Hp b cr' eq_refl) as [Ht Hr].
  specialize (IH cr'). destruct (readBlocks fuel cr'); try done; simpl in *; apply IH; lia.
Qed.

Lemma readBlocks_terminates_witness :
  safe (readBlocks 2001 (mkColumnReader [1; 2; 3] (mkField "x" TypeInt64 EncPlain false)
    (mkColumnSectionMeta 0 (2 ^ 40) zeroZoneMap 0 0) 0 (2 ^ 40) 0 2000 None 0 0)).
Proof. apply readBlocks_terminates. apply Nat.ltb_lt. vm_compute. reflexivity. Defined.

(** *** Section buffers *)

(** Every buffer is filed under the class that is exactly its capacity. *)
Definition pools_ok (p : Pools) : Prop :=
  ∀ c l, shared p !! c = Some l →
    1 ≤ c ≤ numBufClasses ∧ Forall (λ b, b = c * bufClassBytes) l.

Lemma bufClassOf_spec n :
  0 < n ≤ maxPrefetchBytes →
  1 ≤ bufClassOf n ≤ numBufClasses ∧ n ≤ bufClassOf n * bufClassBytes < n + bufClassBytes.
Proof.
  intros Hn. unfold bufClassOf. rewrite decide_False by lia.
  unfold numBufClasses, maxPrefetchBytes, bufClassBytes in *. lia.
Qed.
Lemma poolClassOf_spec b :
  poolClassOf b ≠ 0 → 1 ≤ poolClassOf b ≤ numBufClasses ∧ b = poolClassOf b * bufClassBytes.
Proof.
  unfold poolClassOf. case_decide as H; [done|]. intros _.
  unfold numBufClasses, maxPrefetchBytes, bufClassBytes in *.
  assert (Z.rem b (64 * 2 ^ 10) = 0) as Hr by lia.
  rewrite Z.rem_mod_nonneg in Hr by lia. lia.
Qed.

Lemma pools_ok_insert sh fl fl' c l :
  pools_ok (mkPools sh fl) → 1 ≤ c ≤ numBufClasses → Forall (λ b, b = c * bufClassBytes) l →
  pools_ok (mkPools (<[c := l]> sh) fl').
Proof.
  intros Hp Hc Hl c' l'. cbn [shared]. rewrite lookup_insert_Some. intros [[<- <-]|[_ H]]; [done|].
  by apply Hp.
Qed.
Lemma shared_ok p c : pools_ok p → Forall (λ b, b = c * bufClassBytes) (default [] (shared p !! c)).
Proof. intros Hp. destruct (shared p !! c) as [l|] eqn:E; [by apply (Hp c)|constructor]. Qed.

Lemma putSharedBuf_ok p b : pools_ok p → pools_ok (putSharedBuf p b).
Proof.
  intros Hp. unfold putSharedBuf. case_decide as Hc; [done|].
  apply poolClassOf_spec in Hc as [Hr Hb]. destruct p as [sh fl].
  eapply pools_ok_insert; [done|done|]. constructor; [done|by apply shared_ok].
Qed.
Lemma getSharedBuf_ok p n :
  pools_ok p → 0 ≤ n → n ≤ (getSharedBuf p n).1 ∧ pools_ok (getSharedBuf p n).2 ∧
  freeList (getSharedBuf p n).2 = freeList p.
Proof.
  intros Hp Hn. unfold getSharedBuf. case_decide as Hc; [done|].
  assert (Hr : 0 < n ≤ maxPrefetchBytes) by (unfold bufClassOf in Hc; case_decide; lia).
  apply bufClassOf_spec in Hr as [Hr Hw]. pose proof (shared_ok p (bufClassOf n) Hp) as Hl.
  destruct (default [] _) as [|b bs]; [split; [simpl; lia|done]|].
  apply Forall_cons in Hl as [-> Hl]. rewrite decide_True by lia. destruct p as [sh fl].
  split; [simpl; lia|]. split; [|done]. by eapply pools_ok_insert.
Qed.

(** C24: The buffer pools never hand out a buffer that is too small, whatever was
    released to them before, and every operation keeps each shared class
    holding only buffers of exactly that class's capacity. *)
Theorem pools_serve p n b :
  pools_ok p → 0 ≤ n →
  (let '(got, p') := acquireBuf p n in n ≤ got ∧ pools_ok p') ∧
  pools_ok (releaseBuf p b) ∧ pools_ok (closePools p).
Proof.
  intros Hp Hn. split; [|split].
  - unfold acquireBuf. destruct (last (freeList p)) as [c|].
    + set (p' := mkPools (shared p) (removelast (freeList p))).
      assert (Hp' : pools_ok p') by done. case_decide; [done|].
      destruct (getSharedBuf_ok (putSharedBuf p' c) n) as (? & ? & _);
        [by apply putSharedBuf_ok|done|]. by destruct (getSharedBuf _ n).
    + destruct (getSharedBuf_ok p n Hp Hn) as (? & ? & _). by destruct (getSharedBuf _ n).
  - unfold releaseBuf. case_decide; [by apply putSharedBuf_ok|done].
  - unfold closePools. generalize (freeList p).
    assert (Hp' : pools_ok (mkPools (shared p) [])) by done. revert Hp'.
    generalize (mkPools (shared p) []). intros q Hq l. revert q Hq.
    induction l as [|c l IH]; intros q Hq; [done|]. simpl. apply IH. by apply putSharedBuf_ok.
Qed.

Lemma pools_serve_witness :
  (let '(got, p') := acquireBuf (mkPools ∅ [65536; 131072]) 200000 in 200000 ≤ got ∧ pools_ok p') ∧
  pools_ok (releaseBuf (mkPools ∅ [65536; 131072]) 7) ∧
  pools_ok (closePools (mkPools ∅ [65536; 131072])).
Proof. apply (pools_serve (mkPools ∅ [65536; 131072]) 200000 7); [done|lia]. Defined.
