(* ===== verification/Volume.v ===== *)
(** * A whole file: what was appended is what is read

    Joins the writer to the reader.  [stored] says how a column's bytes sit in
    a file; the reader's blocks of a stored column are its rows; the writer's
    session refines an abstract session that only remembers row groups. *)
From Stdlib Require Import ZArith Lia ZifyNat.
From stdpp Require Import base numbers list strings gmap.
From S2P Require Import Prelude Encoding Codec Float64 Schema Writer Reader.
#[local] Open Scope Z_scope.

(** ** The blocks of a column, as [NextBlock] serves them *)

Definition fixed_blocks {V} (enc1 : V → list Z) (nulls : list Z) (vals : list V) : list Block :=
  (λ s, (Some (sub_bm nulls s (length (blk s vals))), concat (enc1 <$> blk s vals),
         length (blk s vals))) <$> block_starts (length vals).
Definition bool_blocks (nulls : list Z) (vals : list bool) : list Block :=
  (λ s, (None, bool_block (sub_bm nulls s (length (blk s vals))) (blk s vals),
         length (blk s vals))) <$> block_starts (length vals).

Lemma length_bitmapFull bn :
  (length bn ≤ NullBitmapBytes)%nat → length (bitmapFull bn) = NullBitmapBytes.
Proof. intros. unfold bitmapFull. rewrite length_app, length_take, length_replicate. lia. Qed.
Lemma bitmapFull_ok bn : bytes_ok bn → bytes_ok (bitmapFull bn).
Proof.
  intros. unfold bitmapFull. apply bytes_ok_app; [by apply Forall_take|].
  by apply Forall_replicate.
Qed.
Lemma take_bitmapFull bn rest :
  (length bn ≤ NullBitmapBytes)%nat →
  take (length bn) (bitmapFull bn ++ rest) = bn.
Proof.
  intros. unfold bitmapFull. rewrite (take_ge bn) by lia.
  by rewrite <- app_assoc, take_app_length.
Qed.

Lemma drop_bitmapFull bn rest :
  (length bn ≤ NullBitmapBytes)%nat →
  drop NullBitmapBytes (bitmapFull bn ++ rest) = rest.
Proof. intros H. by rewrite <- (length_bitmapFull bn H), drop_app_length. Qed.

Lemma length_concat_enc {V} (enc1 : V → list Z) sz vs :
  (∀ v, length (enc1 v) = sz) → length (concat (enc1 <$> vs)) = (length vs * sz)%nat.
Proof. intros H. induction vs as [|v vs IH]; [done|]. rewrite fmap_cons. cbn [concat length].
  rewrite length_app, H, IH. lia. Qed.

Section column.
Context (pre post : list Z) (field : Field) (meta : ColumnSectionMeta) (n : nat).
Hypothesis Hoff : SectionOffset meta = Z.of_nat (length pre).

(** One block, once the counters have moved. *)
Lemma nextFixedBlock_spec blocks k cr bn vs :
  Z.of_nat (length (pre ++ concat blocks ++ post)) < 2 ^ 63 →
  col_pos pre post blocks field meta k cr →
  (length bn ≤ NullBitmapBytes)%nat → bytes_ok bn → bytes_ok vs →
  ∀ rows, length bn = ((rows + 7) / 8)%nat → length vs = (rows * ValueSize (Type_ field))%nat →
  blocks !! k = Some (AppendChecksum (bitmapFull bn ++ vs)) →
  ∃ cr', nextFixedBlock cr rows = (Ret (Some bn, vs, rows), cr') ∧
    col_pos pre post blocks field meta (S k) cr' ∧
    cr_rowsDone cr' = cr_rowsDone cr ∧ cr_totalRows cr' = cr_totalRows cr.
Proof.
  intros Hsize Hpos Hbn Hbok Hvok rows Hrows Hlen Hb.
  pose proof (length_bitmapFull _ Hbn) as Hbf.
  set (b := AppendChecksum _) in *.
  assert (Hlb : length b = (NullBitmapBytes + rows * ValueSize (Type_ field) + 4)%nat).
  { subst b. unfold AppendChecksum, AppendUint32. rewrite !length_app, length_le_bytes. lia. }
  destruct (window_block pre post blocks field meta Hoff Hsize k b cr (Z.of_nat (length b)))
    as (cr' & Hw & Hwin & Hsame); [done|done|lia|].
  unfold nextFixedBlock. pose proof Hpos as (_ & -> & _). rewrite <- Hlb, Hw.
  rewrite Nat2Z.id, firstn_all. subst b.
  rewrite VerifyTrailing_AppendChecksum by (apply bytes_ok_app; [by apply bitmapFull_ok|done]).
  rewrite slice_Ret by (rewrite ?length_app; lia). cbn [mbind go_bind].
  rewrite slice_Ret by (rewrite ?length_app; lia). cbn [mbind go_bind].
  rewrite drop_0, Nat.sub_0_r, <- Hrows, take_bitmapFull, drop_bitmapFull by done.
  rewrite take_ge by (rewrite length_app; lia).
  eexists. split; [done|]. split.
  - by eapply col_pos_advance.
  - apply same_column_fields in Hsame as (_ & _ & _ & _ & _ & Hd & Ht). by rewrite <- Hd, <- Ht.
Qed.

Lemma nextBoolBlock_spec blocks k cr runs rows :
  Z.of_nat (length (pre ++ concat blocks ++ post)) < 2 ^ 63 →
  col_pos pre post blocks field meta k cr →
  (length runs ≤ rows)%nat → Z.of_nat rows < 2 ^ 32 →
  blocks !! k = Some (AppendChecksum (rle_body runs)) →
  ∃ cr', nextBoolBlock cr rows = (Ret (None, AppendChecksum (rle_body runs), rows), cr') ∧
    col_pos pre post blocks field meta (S k) cr' ∧
    cr_rowsDone cr' = cr_rowsDone cr ∧ cr_totalRows cr' = cr_totalRows cr.
Proof.
  intros Hsize Hpos Hruns Hrows Hb. set (b := AppendChecksum _) in *.
  assert (Hlb : length b = (4 + length runs * 5 + 4)%nat).
  { subst b. unfold AppendChecksum, AppendUint32, rle_body.
    rewrite !length_app, !length_le_bytes. rewrite (length_concat_enc _ 5); [lia|].
    intros [l v]. rewrite length_app, length_le_bytes. done. }
  assert (Hhd : take (Z.to_nat 4) b = le_bytes 4 (Z.of_nat (length runs)) ++ []).
  { subst b. unfold AppendChecksum, AppendUint32, rle_body. rewrite <- !app_assoc.
    rewrite app_nil_r. rewrite take_app_le by by rewrite length_le_bytes.
    by rewrite take_ge by by rewrite length_le_bytes. }
  destruct (window_block pre post blocks field meta Hoff Hsize k b cr 4)
    as (cr1 & Hw1 & Hwin1 & Hsame1); [done|done|lia|].
  pose proof (same_column_fields _ _ Hsame1) as (Ef & Efd & Em & Ep & Ee & Ed & Et).
  assert (Hpos1 : col_pos pre post blocks field meta k cr1).
  { destruct Hpos as (? & ? & ? & ? & ? & _). unfold col_pos. rewrite Ef, Efd, Em, Ep, Ee. auto 7. }
  destruct (window_block pre post blocks field meta Hoff Hsize k b cr1 (Z.of_nat (length b)))
    as (cr2 & Hw2 & Hwin2 & Hsame2); [done|done|lia|].
  unfold nextBoolBlock. rewrite Hw1, Hhd, GetUint32_app.
  rewrite !(wrapU_id 32) by (split; lia).
  rewrite decide_False by lia.
  replace (4 + Z.of_nat (length runs) * 5 + 4) with (Z.of_nat (length b)) by lia.
  rewrite <- Ep, Hw2, Nat2Z.id, firstn_all. eexists. split; [done|]. split.
  - by eapply col_pos_advance.
  - apply same_column_fields in Hsame2 as (_ & _ & _ & _ & _ & Hd & Ht).
    by rewrite <- Ed, <- Et, <- Hd, <- Ht.
Qed.

(** Streaming a whole column, given what one block of it gives. *)
Lemma readBlocks_column blocks expect fuel cr :
  length blocks = length (block_starts n) → length expect = length (block_starts n) →
  (∀ k b e cr, blocks !! k = Some b → expect !! k = Some e → (k * BlockRows < n)%nat →
     col_pos pre post blocks field meta k cr →
     ∃ cr', (let rows := (block_end n (k * BlockRows) - k * BlockRows)%nat in
             match Type_ field with
             | TypeBool => nextBoolBlock cr rows
             | _ => nextFixedBlock cr rows
             end) = (Ret e, cr') ∧ col_pos pre post blocks field meta (S k) cr' ∧
       cr_rowsDone cr' = cr_rowsDone cr ∧ cr_totalRows cr' = cr_totalRows cr) →
  col_inv pre post blocks field meta n 0 cr → (length (block_starts n) < fuel)%nat →
  readBlocks fuel cr = Ret expect.
Proof.
  intros Hb He Hstep Hcr Hfuel.
  apply (readBlocks_spec pre post blocks field meta n); [done|lia| |done|lia].
  clear cr Hcr. intros k b e cr Hkb Hke Hcr. pose proof (lookup_lt_Some _ _ _ Hkb).
  destruct (block_rows pre post blocks field meta n Hb k cr)
    as (Hlt & cr0 & Hpos & Hd & Ht & ->); [done|done|].
  destruct (Hstep k b e cr0 Hkb Hke Hlt Hpos) as (cr' & -> & Hpos' & Hd' & Ht').
  exists cr'. split; [done|]. split; [done|]. by rewrite Hd', Ht', Hd, Ht.
Qed.

Section fixed.
Context {V : Type} (enc1 : V → list Z) (nulls : list Z) (vals : list V).
Hypothesis Hn : length vals = n.
Hypothesis Hcover : (n ≤ 8 * length nulls)%nat.
Hypothesis Hsz : ∀ v, length (enc1 v) = ValueSize (Type_ field).
Hypothesis Hok : ∀ v, bytes_ok (enc1 v).
Hypothesis Htype : Type_ field ≠ TypeBool.

(** Block [s] of the column and what [NextBlock] serves for it. *)
Definition fixed_expect (s : nat) : Block :=
  (Some (sub_bm nulls s (length (blk s vals))), concat (enc1 <$> blk s vals),
   length (blk s vals)).

Lemma NextBlock_fixed blocks k cr :
  Z.of_nat (length (pre ++ concat blocks ++ post)) < 2 ^ 63 →
  length blocks = length (block_starts n) →
  blocks !! k = Some (block_bytes (fixed_block enc1) nulls vals (k * BlockRows)) →
  col_inv pre post blocks field meta n k cr →
  ∃ cr', NextBlock cr = (Ret (fixed_expect (k * BlockRows)), cr') ∧
    col_inv pre post blocks field meta n (S k) cr'.
Proof.
  intros Hsize Hl Hb Hcr. pose proof (lookup_lt_Some _ _ _ Hb) as Hk.
  destruct (block_rows pre post blocks field meta n Hl k cr Hcr Hk)
    as (Hlt & cr0 & Hpos & Hd & Ht & ->).
  set (s := (k * BlockRows)%nat) in *. cbv zeta.
  pose proof (length_blk s vals) as Hbl. rewrite Hn in Hbl. specialize (Hbl Hlt).
  pose proof (block_end_spec n s Hlt) as [Hs1 Hs2].
  destruct (sub_bm_spec nulls s (length (blk s vals))) as (Hls & Hbok & _); [lia|].
  destruct (nextFixedBlock_spec blocks k cr0 (sub_bm nulls s (length (blk s vals)))
    (concat (enc1 <$> blk s vals)))
    with (rows := length (blk s vals)) as (cr' & E & Hp' & Hd' & Ht'); try done.
  - rewrite Hls. pose proof BlockRows_8. lia.
  - apply concat_bytes_ok, Forall_true. auto.
  - by apply length_concat_enc.
  - rewrite Hb. unfold block_bytes, fixed_block. by rewrite Hn, <- Hbl.
  - exists cr'. split; [rewrite <- Hbl, E; by destruct (Type_ field)|].
    split; [done|]. by rewrite Hd', Ht', Hd, Ht.
Qed.

(** A damaged block of the right length is refused. *)
Lemma NextBlock_damaged blocks k b cr :
  Z.of_nat (length (pre ++ concat blocks ++ post)) < 2 ^ 63 →
  length blocks = length (block_starts n) →
  blocks !! k = Some b → VerifyTrailing b = Err ErrChecksum →
  length b = length (block_bytes (fixed_block enc1) nulls vals (k * BlockRows)) →
  col_inv pre post blocks field meta n k cr →
  ∃ cr', NextBlock cr = (Err ErrChecksum, cr').
Proof.
  intros Hsize Hl Hb Hv Hlen Hcr. pose proof (lookup_lt_Some _ _ _ Hb) as Hk.
  destruct (block_rows pre post blocks field meta n Hl k cr Hcr Hk)
    as (Hlt & cr0 & Hpos & Hd & Ht & ->).
  set (s := (k * BlockRows)%nat) in *. cbv zeta.
  pose proof (length_blk s vals) as Hbl. rewrite Hn in Hbl. specialize (Hbl Hlt).
  pose proof (block_end_spec n s Hlt) as [Hs1 Hs2].
  destruct (sub_bm_spec nulls s (length (blk s vals))) as (Hls & _ & _); [lia|].
  unfold block_bytes, fixed_block, AppendChecksum, AppendUint32 in Hlen.
  rewrite Hn, <- Hbl, !length_app, length_le_bytes, length_bitmapFull,
    (length_concat_enc _ (ValueSize (Type_ field))) in Hlen
    by (rewrite ?Hls; pose proof BlockRows_8; auto; lia).
  destruct (window_block pre post blocks field meta Hoff Hsize k b cr0 (Z.of_nat (length b)))
    as (cr' & Hw & _); [done|done|lia|].
  assert (E : nextFixedBlock cr0 (block_end n s - s) = (Err ErrChecksum, advance cr' (Z.of_nat (length b)))).
  { unfold nextFixedBlock. pose proof Hpos as (_ & -> & _).
    rewrite <- Hbl, <- Hlen, Hw, Nat2Z.id, firstn_all, Hv. done. }
  eexists. rewrite E. by destruct (Type_ field).
Qed.

Lemma readBlocks_fixed fuel cr :
  let blocks := block_bytes (fixed_block enc1) nulls vals <$> block_starts n in
  Z.of_nat (length (pre ++ concat blocks ++ post)) < 2 ^ 63 →
  col_inv pre post blocks field meta n 0 cr → (length (block_starts n) < fuel)%nat →
  readBlocks fuel cr = Ret (fixed_blocks enc1 nulls vals).
Proof.
  intros blocks Hsize Hcr Hfuel.
  apply (readBlocks_spec pre post blocks field meta n);
    [apply length_fmap|by unfold fixed_blocks, blocks; rewrite !length_fmap, Hn| |done
    |by subst blocks; rewrite length_fmap].
  clear cr Hcr. intros k b e cr Hb He Hcr.
  subst blocks. unfold fixed_blocks in He. rewrite list_lookup_fmap in Hb.
  rewrite list_lookup_fmap, Hn in He.
  destruct (block_starts n !! k) as [s|] eqn:Es; [|done].
  pose proof Es as [-> _]%lookup_block_starts. injection Hb as <-. injection He as <-.
  apply NextBlock_fixed; [done|apply length_fmap| |done]. by rewrite list_lookup_fmap, Es.
Qed.
End fixed.

Lemma readBlocks_bool nulls vals fuel cr :
  length vals = n → (n ≤ 8 * length nulls)%nat → Type_ field = TypeBool →
  let blocks := block_bytes bool_block nulls vals <$> block_starts n in
  Z.of_nat (length (pre ++ concat blocks ++ post)) < 2 ^ 63 →
  col_inv pre post blocks field meta n 0 cr → (length (block_starts n) < fuel)%nat →
  readBlocks fuel cr = Ret (bool_blocks nulls vals).
Proof.
  intros Hn Hcover Htype blocks Hsize. apply readBlocks_column.
  { apply length_fmap. } { unfold bool_blocks. by rewrite length_fmap, Hn. }
  clear cr. intros k b e cr Hb He Hlt Hpos.
  subst blocks. pose proof Hb as Hb'. rewrite list_lookup_fmap in Hb'.
  unfold bool_blocks in He. rewrite list_lookup_fmap, Hn in He.
  destruct (block_starts n !! k) as [s|] eqn:Es; [|done].
  pose proof Es as [-> _]%lookup_block_starts. injection Hb' as <-. injection He as <-.
  set (s := (k * BlockRows)%nat) in *. cbv zeta. rewrite Htype.
  pose proof (length_blk s vals) as Hbl. rewrite Hn in Hbl. specialize (Hbl Hlt).
  pose proof (block_end_spec n s Hlt) as [Hs1 Hs2].
  destruct (sub_bm_spec nulls s (length (blk s vals))) as (Hl & _ & _); [lia|].
  destruct (EncodeRLEBool_spec (blk s vals) (sub_bm nulls s (length (blk s vals))))
    as (runs & Er & _ & _ & Hruns); [lia|apply BlockRows_small; lia|].
  assert (Hbb : bool_block (sub_bm nulls s (length (blk s vals))) (blk s vals)
    = AppendChecksum (rle_body runs)) by (unfold bool_block; by rewrite Er).
  rewrite <- Hbl, Hbb. eapply nextBoolBlock_spec;
    [exact Hsize|exact Hpos|done|apply BlockRows_small; lia|].
  rewrite Hb. unfold block_bytes. by rewrite Hn, <- Hbl, Hbb.
Qed.
End column.

(** ** Columns stored in a file *)

Abbreviation ColData := (list Z * ColumnValues)%type.

(** What a caller of [AppendColumn] owes for a row group of [n] rows. *)
Definition data_ok (n : nat) (d : ColData) : Prop :=
  (n ≤ 8 * length d.1)%nat ∧
  match d.2 with
  | VInt64 vs => length vs = n ∧ Forall (inS 64) vs
  | VFloat64 vs => length vs = n ∧ Forall (inU 64) vs
  | VBool vs => length vs = n
  | VString vs => length vs = n ∧ Z.of_nat (length (dict_data vs)) < 2 ^ 30
  | VDate vs => length vs = n ∧ Forall (inS 32) vs
  | VOther => True
  end.
Definition typed (t : DataType) (values : ColumnValues) : Prop :=
  match t, values with
  | TypeInt64, VInt64 _ | TypeFloat64, VFloat64 _ | TypeDate, VDate _
  | TypeBool, VBool _ | TypeString, VString _ => True
  | _, _ => False
  end.
(** Row counts for which no 32-bit field of the format overflows. *)
Definition maxRows : Z := 2 ^ 29.

(** The section's bytes, at the offset and with the lengths the footer records. *)
Definition section_at (file : list Z) (m : ColumnSectionMeta) (body dict : list Z) : Prop :=
  ∃ pre post, file = pre ++ (body ++ dict) ++ post ∧
    SectionOffset m = Z.of_nat (length pre) ∧
    SectionLength m = Z.of_nat (length (body ++ dict)) ∧
    DictLength m = Z.of_nat (length dict) ∧ inU 32 (DictLength m) ∧
    (dict = [] ∧ DictOffset m = 0 ∨
     DictOffset m = Z.of_nat (length body)) ∧ inU 32 (DictOffset m).

Definition string_stored (n : nat) (file : list Z) (m : ColumnSectionMeta) (nulls : list Z)
    (vs : list string) (keys : list string) (codes : list Z) : Prop :=
  NoDup keys ∧ dict_fits keys ∧ (∀ s, s ∈ keys → Some s ∈ col_rows nulls vs) ∧
  length codes = length vs ∧
  Forall2 (code_of keys) codes (col_rows nulls vs) ∧
  section_at file m (code_col nulls codes) (AppendChecksum (dict_body keys)) ∧
  Stats m = string_stats (col_rows nulls vs) keys.

Definition stored (file : list Z) (t : DataType) (n : nat) (m : ColumnSectionMeta) (d : ColData)
    : Prop :=
  data_ok n d ∧ typed t d.2 ∧
  match d.2 with
  | VInt64 vs => section_at file m (int64_col d.1 vs) [] ∧
      Stats m = foldl int64_step zeroZoneMap (col_rows d.1 vs)
  | VFloat64 vs => section_at file m (float64_col d.1 vs) [] ∧
      Stats m = float64_finish (foldl float64_step (zeroZoneMap, 0, 0, 0) (col_rows d.1 vs))
  | VDate vs => section_at file m (date_col d.1 vs) [] ∧
      Stats m = foldl date_step zeroZoneMap (col_rows d.1 vs)
  | VBool vs => section_at file m (bool_col d.1 vs) [] ∧
      Stats m = foldl bool_step zeroZoneMap (col_rows d.1 vs)
  | VString vs => ∃ keys codes, string_stored n file m d.1 vs keys codes
  | VOther => False
  end.

Lemma section_at_app file more m body dict :
  section_at file m body dict → section_at (file ++ more) m body dict.
Proof.
  intros (pre & post & -> & H). exists pre, (post ++ more). split; [|done].
  by rewrite <- !app_assoc.
Qed.

(** Bytes appended after a column do not disturb it. *)
Lemma stored_app file more t n m d : stored file t n m d → stored (file ++ more) t n m d.
Proof.
  unfold stored. intros (Hok & Ht & H). split; [done|]. split; [done|].
  destruct (d.2); try (destruct H as [H1 H2]; split; [by apply section_at_app|done]).
  - destruct H as (keys & codes & ? & ? & ? & ? & ? & H1 & H2). exists keys, codes.
    unfold string_stored. split_and!; try done. by apply section_at_app.
  - done.
Qed.

Lemma length_fixed_col {V} (enc1 : V → list Z) sz nulls vals :
  (∀ v, length (enc1 v) = sz) → (length vals ≤ 8 * length nulls)%nat →
  length (col_bytes (fixed_block enc1) nulls vals)
  = (132 * length (block_starts (length vals)) + sz * length vals)%nat.
Proof.
  intros Hsz Hc. unfold col_bytes.
  set (starts := block_starts (length vals)).
  assert (H : ∀ k, (k ≤ length starts)%nat →
    length (concat (take k (block_bytes (fixed_block enc1) nulls vals <$> starts)))
    = (132 * k + sz * Nat.min (k * BlockRows) (length vals))%nat).
  { induction k as [|k IH]; intros Hk; [simpl; lia|].
    destruct (lookup_lt_is_Some_2 starts k) as [s Hs]; [lia|].
    pose proof Hs as [-> Hlt]%lookup_block_starts.
    erewrite take_S_r by by rewrite list_lookup_fmap, Hs.
    rewrite concat_app, length_app, IH by lia. cbn [concat]. rewrite app_nil_r.
    unfold block_bytes, fixed_block, AppendChecksum, AppendUint32.
    pose proof (block_end_spec _ _ Hlt) as [H1 H2]. pose proof (length_blk _ _ Hlt) as Hl.
    destruct (sub_bm_spec nulls (k * BlockRows)
      (block_end (length vals) (k * BlockRows) - k * BlockRows)) as (Hbm & _ & _); [lia|].
    rewrite !length_app, length_le_bytes, (length_concat_enc _ sz), Hl, length_bitmapFull
      by (rewrite ?Hbm; pose proof BlockRows_8; auto; lia).
    assert (NullBitmapBytes = 128%nat) by (with_strategy transparent [NullBitmapBytes BlockRows] reflexivity).
    assert (Hmin : Nat.min (S k * BlockRows) (length vals)
      = (Nat.min (k * BlockRows) (length vals)
         + (block_end (length vals) (k * BlockRows) - k * BlockRows))%nat).
    { rewrite Nat.mul_succ_l. unfold block_end. case_decide; lia. }
    rewrite Hmin. lia. }
  specialize (H (length starts) (le_n _)).
  rewrite take_ge in H by (rewrite length_fmap; lia). rewrite H.
  pose proof (length_block_starts (length vals)). fold starts in H0. rewrite Nat.min_r by lia. lia.
Qed.

Lemma length_block_starts_Z n :
  Z.of_nat (length (block_starts n)) * 1024 < Z.of_nat n + 1024.
Proof.
  pose proof (length_block_starts n).
  assert (Z.of_nat BlockRows = 1024) by (with_strategy transparent [BlockRows] reflexivity). lia.
Qed.

(** The writer's four statistics-only columns, in one statement. *)
Lemma stored_plain w post body stats :
  w_offset w = Z.of_nat (length (w_out w)) →
  section_at (w_out w ++ body ++ post)
    (mkColumnSectionMeta (w_offset w) (w_offset (mustWrite w body) - w_offset w) stats 0 0) body [].
Proof.
  intros Hoff. exists (w_out w), post. rewrite app_nil_r. split; [done|].
  cbn [SectionOffset SectionLength DictLength DictOffset]. split; [done|].
  split; [unfold mustWrite; cbn [w_offset]; lia|]. split; [done|]. split; [done|].
  split; [by left|done].
Qed.

Lemma length_dict_body keys :
  length (dict_body keys) = (8 + 4 * length keys + length (dict_data keys))%nat.
Proof.
  unfold dict_body. rewrite !length_app, !length_le_bytes.
  rewrite (length_concat_enc _ 4), length_dict_offsets by (intros; apply length_le_bytes). lia.
Qed.

Lemma writeColumn_stored w t n d :
  data_ok n d → typed t d.2 → Z.of_nat n ≤ maxRows →
  w_offset w = Z.of_nat (length (w_out w)) →
  ∃ bytes stats dictOff dictLen,
    writeColumn w (w_offset w) t d.1 d.2 = Ret (mustWrite w bytes, stats, dictOff, dictLen) ∧
    ∀ post, stored (w_out w ++ bytes ++ post) t n
      (mkColumnSectionMeta (w_offset w) (w_offset (mustWrite w bytes) - w_offset w)
         stats dictOff dictLen) d.
Proof.
  intros Hok Ht Hn Hoff. pose proof Hok as [Hcover Hd]. destruct d as [nulls values].
  cbn [fst snd] in *. destruct t, values; try done; cbn [writeColumn].
  - destruct Hd as [Hl _]. rewrite writeInt64Blocks_spec by lia. cbn [mbind go_bind].
    do 4 eexists. split; [done|]. intros post. split; [done|]. split; [done|].
    split; [by apply stored_plain|done].
  - destruct Hd as [Hl _]. rewrite writeFloat64Blocks_spec by lia. cbn [mbind go_bind].
    do 4 eexists. split; [done|]. intros post. split; [done|]. split; [done|].
    split; [by apply stored_plain|done].
  - rewrite writeBoolBlocks_spec by lia. cbn [mbind go_bind].
    do 4 eexists. split; [done|]. intros post. split; [done|]. split; [done|].
    split; [by apply stored_plain|done].
  - destruct Hd as [Hl Hdat].
    destruct (writeStringBlocks_spec w nulls vs)
      as (keys & codes & Hnd & Hfit & Hin & Hlk & Hld & Hlc & Hcodes & ->); [lia|unfold maxRows in Hn; lia|lia|].
    cbn [mbind go_bind].
    set (body := code_col nulls codes). set (dict := AppendChecksum (dict_body keys)).
    assert (Hbody : Z.of_nat (length body) < 2 ^ 32).
    { subst body. rewrite (length_fixed_col enc_u32 4) by (try lia; intros; apply length_le_bytes).
      rewrite Hlc, Hl. pose proof (length_block_starts_Z n). unfold maxRows in Hn. lia. }
    assert (Hdict : Z.of_nat (length dict) < 2 ^ 32).
    { subst dict. unfold AppendChecksum, AppendUint32.
      rewrite length_app, length_le_bytes, length_dict_body. unfold maxRows in Hn. lia. }
    exists (body ++ dict). do 3 eexists. split; [rewrite <- mustWrite_app; done|].
    intros post. split; [done|]. split; [done|]. exists keys, codes.
    unfold string_stored. split_and!; try done.
    cbn [fst]. fold dict body. exists (w_out w), post. split; [done|].
    unfold mustWrite. cbn [SectionOffset SectionLength DictLength DictOffset w_offset].
    rewrite (wrapU_id 32 (Z.of_nat (length dict))) by (split; lia).
    rewrite (wrapU_id 32) by (split; lia).
    split; [done|]. split; [lia|]. split; [done|]. split; [split; lia|]. split; [right; lia|split; lia].
  - destruct Hd as [Hl _]. rewrite writeDateBlocks_spec by lia. cbn [mbind go_bind].
    do 4 eexists. split; [done|]. intros post. split; [done|]. split; [done|].
    split; [by apply stored_plain|done].
Qed.

(** ** Sessions: the writer against its contract

    The contract of a writer remembers the finished row groups and the columns
    handed over so far; the writer's offsets, buffers and section records are
    its implementation. *)

Record Session : Type := mkSession {
  s_done : list (nat * list ColData);
  s_open : option (nat * list (option ColData))
}.

Inductive wop : Type :=
  | OpBegin (numRows : nat)
  | OpAppend (ctxErr : bool) (idx : Z) (nulls : option (list Z)) (values : ColumnValues)
  | OpEnd.

Definition run_op (w : Writer) (op : wop) : go Writer :=
  match op with
  | OpBegin n => BeginRowGroup w n
  | OpAppend ctxErr idx nulls values => AppendColumn ctxErr w idx nulls values
  | OpEnd => EndRowGroup w
  end.

Definition given (n : nat) (nulls : option (list Z)) (values : ColumnValues) : ColData :=
  (match nulls with Some b => b | None => FullBitmap n end, values).

(** A row group of no rows is never open. *)
Definition spec_op (schema : Schema) (s : Session) (op : wop) : go Session :=
  match op, s_open s with
  | OpBegin _, Some _ => Err ErrRowGroupOpen
  | OpBegin n, None =>
      if decide (n = 0%nat) then Ret s
      else Ret (mkSession (s_done s) (Some (n, replicate (length schema) None)))
  | OpAppend true _ _ _, _ => Err (ErrMsg "context")
  | OpAppend _ _ _ _, None => Err ErrRowGroupOpen
  | OpAppend false idx nulls values, Some (n, cols) =>
      if decide (idx < 0 ∨ Z.of_nat (length schema) ≤ idx) then Err (ErrMsg "index out of range")
      else match schema !! Z.to_nat idx, cols !! Z.to_nat idx with
           | _, Some (Some _) => Err ErrColumnComplete
           | Some f, _ =>
               match Type_ f, values with
               | TypeInt64, VInt64 _ | TypeFloat64, VFloat64 _ | TypeDate, VDate _
               | TypeBool, VBool _ | TypeString, VString _ =>
                   Ret (mkSession (s_done s)
                     (Some (n, <[Z.to_nat idx := Some (given n nulls values)]> cols)))
               | TypeOther _, _ => Err (ErrMsg "unsupported type")
               | _, _ => Err ErrTypeMismatch
               end
           | None, _ => Panic
           end
  | OpEnd, None => Err ErrRowGroupOpen
  | OpEnd, Some (n, cols) =>
      match mapM id cols with
      | Some ds => Ret (mkSession (s_done s ++ [(n, ds)]) None)
      | None => Err ErrMissingColumns
      end
  end.

(** What the caller owes: row counts in range, data that covers the row group. *)
Definition op_ok (s : Session) (op : wop) : Prop :=
  match op with
  | OpBegin n => Z.of_nat n ≤ maxRows
  | OpAppend _ _ nulls values =>
      match s_open s with Some (n, _) => data_ok n (given n nulls values) | None => True end
  | OpEnd => True
  end.

(** Every column handed over is stored, under its own record. *)
Definition cols_stored (schema : Schema) (out : list Z) (n : nat)
    (metas : list ColumnSectionMeta) (cols : list (option ColData)) : Prop :=
  length metas = length schema ∧ length cols = length schema ∧
  ∀ i f d, schema !! i = Some f → cols !! i = Some (Some d) →
    ∃ m, metas !! i = Some m ∧ stored out (Type_ f) n m d.

Definition rg_stored (schema : Schema) (out : list Z) (rg : RowGroupMeta)
    (g : nat * list ColData) : Prop :=
  NumRows rg = g.1 ∧ Z.of_nat g.1 ≤ maxRows ∧ 0 ≤ FileOffset rg ≤ Z.of_nat (length out) ∧
  cols_stored schema out g.1 (Columns rg) (Some <$> g.2).

Definition open_repr (schema : Schema) (w : Writer) (o : option (nat * list (option ColData)))
    : Prop :=
  match o with
  | None => w_rgNumRows w = 0%nat
  | Some (n, cols) =>
      n ≠ 0%nat ∧ Z.of_nat n ≤ maxRows ∧ w_rgNumRows w = n ∧
      w_rgColWritten w = (λ c, bool_decide (is_Some c)) <$> cols ∧
      0 ≤ w_rgStartOff w ≤ Z.of_nat (length (w_out w)) ∧
      cols_stored schema (w_out w) n (w_rgColMeta w) cols
  end.

Definition repr (path : string) (schema : Schema) (w : Writer) (s : Session) : Prop :=
  (w_path w = path ∧ w_tmpPath w = (path +:+ ".tmp")%string ∧ w_schema w = schema) ∧
  w_offset w = Z.of_nat (length (w_out w)) ∧
  (∃ rest, w_out w = Magic ++ rest) ∧
  Forall2 (rg_stored schema (w_out w)) (w_rgs w) (s_done s) ∧
  open_repr schema w (s_open s).

Lemma cols_stored_app schema out more n metas cols :
  cols_stored schema out n metas cols → cols_stored schema (out ++ more) n metas cols.
Proof.
  intros (Hm & Hc & H). split; [done|]. split; [done|]. intros i f d Hf Hd.
  destruct (H i f d Hf Hd) as (m & ? & ?). exists m. split; [done|]. by apply stored_app.
Qed.
Lemma rg_stored_app schema out more rg g :
  rg_stored schema out rg g → rg_stored schema (out ++ more) rg g.
Proof.
  intros (? & ? & ? & ?). split; [done|]. split; [done|].
  split; [rewrite length_app; lia|by apply cols_stored_app].
Qed.

Lemma cols_stored_insert schema out n metas cols i f m d :
  schema !! i = Some f → stored out (Type_ f) n m d →
  cols_stored schema out n metas cols →
  cols_stored schema out n (<[i := m]> metas) (<[i := Some d]> cols).
Proof.
  intros Hf Hst (Hm & Hc & H). pose proof (lookup_lt_Some _ _ _ Hf) as Hlt.
  split; [by rewrite length_insert|]. split; [by rewrite length_insert|].
  intros j g e Hg He. destruct (decide (i = j)) as [<-|].
  - rewrite list_lookup_insert_eq in He by lia. injection He as <-.
    exists m. rewrite list_lookup_insert_eq by lia. split; [done|]. congruence.
  - rewrite list_lookup_insert_ne in He by done. rewrite list_lookup_insert_ne by done. by apply H.
Qed.

Definition agrees (path : string) (schema : Schema) (r : go Writer) (r' : go Session) : Prop :=
  match r, r' with
  | Ret w, Ret s => repr path schema w s
  | Err e, Err e' => e = e'
  | _, _ => False
  end.

Lemma BeginRowGroup_agrees path schema w s n :
  repr path schema w s → op_ok s (OpBegin n) →
  agrees path schema (BeginRowGroup w n) (spec_op schema s (OpBegin n)).
Proof.
  intros ((Hp & Htp & Hs) & Ho & Hm & Hd & Hopen) Hn. cbn in Hn. unfold BeginRowGroup, spec_op.
  destruct (s_open s) as [[n' cols]|] eqn:Es; cbn [open_repr] in Hopen.
  - destruct Hopen as (Hn' & _ & -> & _). by rewrite decide_True.
  - rewrite decide_False by auto. case_decide as Hz.
    + subst n. split; [done|]. split; [done|]. split; [done|]. split; [done|]. by rewrite Es.
    + split; [done|]. split; [done|]. split; [done|]. split; [done|].
      cbn [s_open open_repr]. split; [done|]. split; [done|]. split; [done|].
      cbn [w_rgColWritten w_schema w_rgColMeta w_rgStartOff w_out]. rewrite Hs.
      split; [by rewrite fmap_replicate|]. split; [lia|].
      split; [apply length_replicate|]. split; [apply length_replicate|].
      intros i f d _ [? _]%lookup_replicate. done.
Qed.

Lemma EndRowGroup_agrees path schema w s :
  repr path schema w s → agrees path schema (EndRowGroup w) (spec_op schema s OpEnd).
Proof.
  intros ((Hp & Htp & Hs) & Ho & Hm & Hd & Hopen). unfold EndRowGroup, spec_op.
  destruct (s_open s) as [[n cols]|]; cbn [open_repr] in Hopen; [|by rewrite decide_True].
  destruct Hopen as (Hn & Hmax & -> & -> & Hstart & Hcols). rewrite decide_False by done.
  destruct (forallb id _) eqn:Hall, (mapM id cols) as [ds|] eqn:Hds.
  - apply mapM_Some in Hds. split; [done|]. split; [done|]. split; [done|].
    cbn [s_done s_open open_repr w_rgs w_out w_rgNumRows]. split; [|done].
    apply Forall2_app; [done|]. apply Forall2_cons_2; [|done].
    split; [done|]. split; [done|]. split; [done|]. cbn [snd fst].
    replace (Some <$> ds) with cols; [done|].
    clear -Hds. induction Hds as [|c d cols ds Hc _ IH]; [done|]. rewrite fmap_cons. 
    unfold id in Hc. by subst.
  - apply mapM_None in Hds. apply Exists_exists in Hds as (c & Hc & Hn'). exfalso.
    rewrite forallb_forall in Hall. specialize (Hall (bool_decide (is_Some c))).
    unfold id in *. rewrite Hn' in Hall. assert (false = true); [|done].
    apply Hall. apply list_elem_of_In. apply list_elem_of_fmap. exists c. subst. done.
  - apply mapM_Some in Hds. exfalso. apply not_true_iff_false in Hall. apply Hall.
    apply forallb_forall. intros b Hb%list_elem_of_In. apply list_elem_of_fmap in Hb as (c & -> & Hc).
    apply list_elem_of_lookup in Hc as [i Hi].
    eapply Forall2_lookup_l in Hds as (d & _ & Hd'); [|exact Hi]. unfold id in *. by subst.
  - done.
Qed.

Lemma checkValueType_cases t values :
  (typed t values ∧ checkValueType t values = Ret ()) ∨
  (∃ b, t = TypeOther b ∧ checkValueType t values = Ret ()) ∨
  (¬ typed t values ∧ (∀ b, t ≠ TypeOther b) ∧ checkValueType t values = Err ErrTypeMismatch).
Proof. destruct t as [| | | | |b], values; naive_solver. Qed.

Lemma FullBitmap_covers n : (n ≤ 8 * length (FullBitmap n))%nat.
Proof. rewrite length_FullBitmap. lia. Qed.

Lemma AppendColumn_agrees path schema w s c idx nulls values :
  repr path schema w s → op_ok s (OpAppend c idx nulls values) →
  agrees path schema (AppendColumn c w idx nulls values) (spec_op schema s (OpAppend c idx nulls values)).
Proof.
  intros ((Hp & Htp & Hs) & Ho & Hm & Hd & Hopen) Hop. unfold AppendColumn, spec_op. cbn [op_ok] in Hop.
  destruct c; [by destruct (s_open s)|].
  destruct (s_open s) as [[n cols]|]; cbn [open_repr] in Hopen; [|by rewrite decide_True].
  destruct Hopen as (Hn & Hmax & Hrows & Hw & Hstart & Hcols).
  rewrite Hrows, decide_False by done. rewrite Hs. case_decide as Hidx; [done|].
  assert (Hi : (Z.to_nat idx < length schema)%nat) by lia.
  set (i := Z.to_nat idx) in *. pose proof Hcols as (Hlm & Hlc & _).
  destruct (lookup_lt_is_Some_2 schema i) as [f Hf]; [lia|].
  destruct (lookup_lt_is_Some_2 cols i) as [oc Hoc]; [lia|].
  rewrite Hf, Hoc. rewrite (index_Ret (w_rgColWritten w) i (bool_decide (is_Some oc)))
    by by rewrite Hw, list_lookup_fmap, Hoc.
  cbn [mbind go_bind]. destruct oc as [d|].
  { rewrite bool_decide_true by by exists d. done. }
  rewrite bool_decide_false by by intros [? ?].
  rewrite (index_Ret _ _ _ Hf). cbn [mbind go_bind].
  destruct (checkValueType_cases (Type_ f) values)
    as [[Ht ->]|[(b & Ht & ->)|(Ht & Hno & ->)]]; cbn [mbind go_bind].
  - fold (given n nulls values).
    destruct (writeColumn_stored w (Type_ f) n (given n nulls values))
      as (bytes & stats & dOff & dLen & E & Hst); [done|done|done|done|].
    cbn [given fst snd] in E. rewrite E. cbn [mbind go_bind].
    rewrite !store_Ret by (cbn [mustWrite w_rgColMeta w_rgColWritten]; rewrite ?Hw, ?length_fmap; lia). cbn [mbind go_bind].
    specialize (Hst []). rewrite app_nil_r in Hst.
    assert (Hgoal : agrees path schema
      (Ret (mkWriter (w_path w) (w_schema w) (w_tmpPath w) (w_out w ++ bytes)
        (w_offset w + Z.of_nat (length bytes)) (w_rgs w) (w_rgNumRows w)
        (<[i:=true]> (w_rgColWritten w)) (<[i := mkColumnSectionMeta (w_offset w)
          (w_offset (mustWrite w bytes) - w_offset w) stats dOff dLen]> (w_rgColMeta w))
        (w_rgStartOff w)))
      (Ret (mkSession (s_done s) (Some (n, <[i:=Some (given n nulls values)]> cols))))).
    { split; [done|]. cbn [w_offset w_out w_rgs s_done s_open open_repr w_rgNumRows
        w_rgColWritten w_rgColMeta w_rgStartOff].
      split; [rewrite length_app; lia|].
      split; [destruct Hm as [rest ->]; exists (rest ++ bytes); by rewrite app_assoc|].
      split; [eapply Forall2_impl; [exact Hd|]; intros; by apply rg_stored_app|].
      split; [done|]. split; [done|]. split; [done|].
      split; [rewrite Hw, list_fmap_insert; done|].
      split; [rewrite length_app; lia|].
      eapply cols_stored_insert; [exact Hf|exact Hst|by apply cols_stored_app]. }
    destruct (Type_ f), values; done.
  - rewrite Ht. by destruct values.
  - destruct (Type_ f) as [| | | | |b], values; try done; by destruct (Hno b).
Qed.

Lemma run_op_agrees path schema w s op :
  repr path schema w s → op_ok s op → agrees path schema (run_op w op) (spec_op schema s op).
Proof.
  intros Hr Hop. destruct op.
  - by apply BeginRowGroup_agrees.
  - by apply AppendColumn_agrees.
  - by apply EndRowGroup_agrees.
Qed.

(** A session: a refused operation leaves the writer as it was. *)
Definition after (w : Writer) (op : wop) : Writer :=
  match run_op w op with Ret w' => w' | _ => w end.
Definition spec_after (schema : Schema) (s : Session) (op : wop) : Session :=
  match spec_op schema s op with Ret s' => s' | _ => s end.
Definition run_ops (w : Writer) (ops : list wop) : Writer := foldl after w ops.
Definition spec_ops (schema : Schema) (s : Session) (ops : list wop) : Session :=
  foldl (spec_after schema) s ops.
Fixpoint legal (schema : Schema) (s : Session) (ops : list wop) : Prop :=
  match ops with
  | [] => True
  | op :: ops => op_ok s op ∧ legal schema (spec_after schema s op) ops
  end.
Definition outcome {A} (r : go A) : option error := match r with Err e => Some e | _ => None end.
Fixpoint outcomes (w : Writer) (ops : list wop) : list (option error) :=
  match ops with [] => [] | op :: ops => outcome (run_op w op) :: outcomes (after w op) ops end.
Fixpoint spec_outcomes (schema : Schema) (s : Session) (ops : list wop) : list (option error) :=
  match ops with
  | [] => []
  | op :: ops => outcome (spec_op schema s op)
                 :: spec_outcomes schema (spec_after schema s op) ops
  end.

Definition emptySession : Session := mkSession [] None.

Lemma repr_new path schema fs : repr path schema (NewWriter path schema fs).1 emptySession.
Proof.
  split; [done|]. split; [done|]. split; [by exists []|]. split; [by constructor|done].
Qed.

Lemma agrees_after path schema w s op :
  repr path schema w s → op_ok s op →
  repr path schema (after w op) (spec_after schema s op) ∧
  outcome (run_op w op) = outcome (spec_op schema s op).
Proof.
  intros Hr Hop. pose proof (run_op_agrees path schema w s op Hr Hop) as H.
  unfold after, spec_after, agrees in *.
  destruct (run_op w op), (spec_op schema s op); simpl; naive_solver.
Qed.

Lemma run_ops_repr path schema w s ops :
  repr path schema w s → legal schema s ops →
  repr path schema (run_ops w ops) (spec_ops schema s ops) ∧
  outcomes w ops = spec_outcomes schema s ops.
Proof.
  revert w s. induction ops as [|op ops IH]; intros w s Hr Hl; [done|].
  destruct Hl as [Hop Hl]. destruct (agrees_after path schema w s op Hr Hop) as [Hr' Ho].
  destruct (IH _ _ Hr' Hl) as [H1 H2]. split; [done|]. simpl. by rewrite Ho, H2.
Qed.

(** ** The footer of a session fits its fields *)

Lemma row_values_col {V} (P : V → Prop) nulls vals :
  Forall P vals → Forall P (row_values (col_rows nulls vals)).
Proof.
  intros H. apply Forall_forall. intros v Hv%elem_of_row_values.
  apply list_elem_of_lookup in Hv as [i Hi]. unfold col_rows in Hi.
  rewrite list_lookup_imap in Hi. destruct (vals !! i) as [u|] eqn:Hu; [|done].
  simpl in Hi. destruct (bit_valid nulls i); [|done]. injection Hi as <-.
  by eapply Forall_lookup_1.
Qed.

Lemma null_count_le {V} (rows : list (option V)) : 0 ≤ null_count rows ≤ Z.of_nat (length rows).
Proof. unfold null_count. pose proof (length_filter (λ o : option V, o = None) rows). lia. Qed.

Definition zm_words (z : ZoneMap) : Prop := inU 64 (Min z) ∧ inU 64 (Max z).

Lemma int64_stats_words rows z : zm_words z → zm_words (foldl int64_step z rows).
Proof.
  revert z. induction rows as [|[v|] rows IH]; intros z Hz; [done| |]; cbn [foldl]; apply IH.
  - destruct Hz. pose proof (wrapU_in 64 v ltac:(lia)). unfold int64_step.
    destruct (HasMinMax z); [|done]. split; cbn [Min Max]; by case_match.
  - done.
Qed.
Lemma date_stats_words rows z : zm_words z → zm_words (foldl date_step z rows).
Proof.
  revert z. induction rows as [|[v|] rows IH]; intros z Hz; [done| |]; cbn [foldl]; apply IH.
  - destruct Hz. pose proof (wrapU_in 32 v ltac:(lia)).
    assert (inU 64 (wrapU 32 v)) by (unfold inU in *; lia). unfold date_step.
    destruct (HasMinMax z); [|done]. split; cbn [Min Max]; by case_match.
  - done.
Qed.
Lemma float_stats_zero rows st :
  Min st.1.1.1 = 0 ∧ Max st.1.1.1 = 0 →
  let st' := foldl float64_step st rows in Min st'.1.1.1 = 0 ∧ Max st'.1.1.1 = 0.
Proof.
  revert st. induction rows as [|[v|] rows IH]; intros [[[z s] mn] mx] Hz; [done| |];
    cbn [foldl]; apply IH; unfold float64_step; [|done].
  by destruct (HasMinMax z).
Qed.

Lemma stored_stats_fit file t n m d :
  stored file t n m d → Z.of_nat n ≤ maxRows → zonemap_fits (Stats m).
Proof.
  intros ((Hcover & Hd) & Ht & H) Hn. destruct d as [nulls values]. cbn [fst snd] in *.
  assert (Hnc : ∀ V (vs : list V), length vs = n → inS 64 (null_count (col_rows nulls vs))).
  { intros V vs Hl. pose proof (null_count_le (col_rows nulls vs)).
    rewrite length_col_rows in H0. unfold maxRows in Hn. unfold inS. lia. }
  assert (Hw0 : zm_words zeroZoneMap) by done.
  assert (Hs0 : inS 64 0) by done.
  destruct values; [| | | | |done].
  - destruct H as [_ ->], Hd as [Hl Hv]. pose proof (row_values_col _ nulls vs Hv) as Hr.
    destruct (int64_stats_spec _ Hr) as (H1 & H2 & _). unfold zonemap_fits. rewrite H1, H2.
    split; [by apply Hnc|]. split; [by apply (wrapS_in 64)|]. by apply int64_stats_words.
  - destruct H as [_ ->], Hd as [Hl Hv]. pose proof (row_values_col _ nulls vs Hv) as Hr.
    pose proof (float_stats_zero (col_rows nulls vs) (zeroZoneMap, 0, 0, 0) ltac:(done)) as Hz.
    destruct (float_finish_bounds _ Hr) as (H1 & H2 & H3). unfold zonemap_fits. rewrite H1, H2.
    split; [by apply Hnc|]. split; [by apply (wrapS_in 64)|]. unfold zm_float_bounds in H3.
    destruct (foldl float64_step _ _) as [[[z s] mn] mx]. cbn in Hz. unfold float64_finish in *.
    destruct (HasMinMax z) eqn:Eh; cbn in *; [naive_solver|]. destruct Hz as [-> ->]. done.
  - destruct H as [_ ->]. rewrite bool_stats_spec. split; [by apply Hnc|done].
  - destruct H as (keys & codes & Hnd & Hfit & _ & _ & _ & _ & ->), Hd as [Hl _].
    destruct Hfit as [Hk _]. unfold string_stats.
    case_decide; (split; [by apply Hnc|]); (split; [done|]); cbn [Min Max]; unfold inU; lia.
  - destruct H as [_ ->], Hd as [Hl Hv]. pose proof (row_values_col _ nulls vs Hv) as Hr.
    destruct (date_stats_spec _ Hr) as (H1 & H2 & _). unfold zonemap_fits. rewrite H1, H2.
    split; [by apply Hnc|]. split; [done|]. by apply date_stats_words.
Qed.

Lemma stored_section file t n m d :
  stored file t n m d → ∃ body dict, section_at file m body dict.
Proof.
  intros (_ & _ & H). destruct d as [nulls []]; cbn [fst snd] in H;
    [destruct H as [H _]; eauto..| |destruct H as [H _]; eauto|done].
  destruct H as (keys & codes & _ & _ & _ & _ & _ & H & _). eauto.
Qed.

Lemma stored_fits file t n m d :
  stored file t n m d → Z.of_nat n ≤ maxRows → Z.of_nat (length file) < 2 ^ 63 → column_fits m.
Proof.
  intros H Hn Hsz. pose proof (stored_stats_fit _ _ _ _ _ H Hn).
  apply stored_section in H as (body & dict & pre & post & -> & H1 & H2 & _ & H4 & _ & H6).
  rewrite !length_app in Hsz. unfold column_fits, inS in *. rewrite H1, H2, length_app.
  split; [lia|]. split; [lia|]. done.
Qed.

Lemma repr_meta_fits path schema w s :
  repr path schema w s → s_open s = None →
  Z.of_nat (length schema) < 2 ^ 32 → Forall field_fits schema →
  Z.of_nat (length (s_done s)) < 2 ^ 32 → Z.of_nat (length (w_out w)) < 2 ^ 63 →
  meta_fits (mkFileMeta schema (w_rgs w)).
Proof.
  intros ((Hp & Htp & Hs) & Ho & Hm & Hd & _) _ Hsch Hf Hrg Hsz. split; [done|]. split; [done|].
  pose proof (Forall2_length _ _ _ Hd) as Hl. cbn [RowGroups fm_Schema]. split; [lia|].
  apply Forall_lookup. intros i rg Hi.
  destruct (Forall2_lookup_l _ _ _ _ _ Hd Hi) as ([n ds] & Hg & Hnum & Hmax & Hoff & Hlm & Hlc & Hcols).
  cbn [fst snd] in *. rewrite length_fmap in Hlc.
  split; [unfold inS; lia|]. split; [unfold maxRows in Hmax; lia|]. split; [done|].
  apply Forall_lookup. intros j m Hj. pose proof (lookup_lt_Some _ _ _ Hj).
  destruct (lookup_lt_is_Some_2 schema j) as [f Hfj]; [lia|].
  destruct (lookup_lt_is_Some_2 ds j) as [d Hdj]; [lia|].
  destruct (Hcols j f d Hfj) as (m' & Hm' & Hst); [by rewrite list_lookup_fmap, Hdj|].
  assert (m' = m) as -> by congruence. by eapply stored_fits.
Qed.

(** ** Reading a stored column *)

(** The reader's blocks (and, for STRING, its dictionary) are the rows. *)
Definition column_reads (cr : ColumnReader) (n : nat) (d : ColData) : Prop :=
  ∀ fuel, (length (block_starts n) < fuel)%nat →
  match d.2 with
  | VInt64 vs => readBlocks fuel cr = Ret (fixed_blocks enc_i64 d.1 vs)
  | VFloat64 vs => readBlocks fuel cr = Ret (fixed_blocks enc_u64 d.1 vs)
  | VDate vs => readBlocks fuel cr = Ret (fixed_blocks enc_i32 d.1 vs)
  | VBool vs => readBlocks fuel cr = Ret (bool_blocks d.1 vs)
  | VString vs => ∃ keys codes,
      NoDup keys ∧ dict_fits keys ∧ length codes = n ∧
      Forall2 (code_of keys) codes (col_rows d.1 vs) ∧
      readBlocks fuel cr = Ret (fixed_blocks enc_u32 d.1 codes) ∧
      readDictionary cr = Ret (mkDictionary (dict_offsets keys) (dict_data keys) [])
  | VOther => False
  end.

Definition freshColumn (file : list Z) (f : Field) (m : ColumnSectionMeta) (n : nat) : ColumnReader :=
  mkColumnReader file f m (SectionOffset m)
    (to_i64 (SectionOffset m + SectionLength m - DictLength m)) 0 n None 0 0.

Lemma section_col_inv file f m n body dict blocks :
  section_at file m body dict → Z.of_nat (length file) < 2 ^ 63 → body = concat blocks →
  ∃ pre post, file = pre ++ concat blocks ++ post ∧ SectionOffset m = Z.of_nat (length pre) ∧
    col_inv pre post blocks f m n 0 (freshColumn file f m n).
Proof.
  intros (pre & post & -> & H1 & H2 & H3 & _) Hsz ->. exists pre, (dict ++ post).
  split; [by rewrite <- app_assoc|]. split; [done|]. rewrite !length_app in Hsz.
  rewrite length_app in H2. split; [|done].
  split; [cbn [freshColumn cr_file]; by rewrite <- app_assoc|]. split; [done|]. split; [done|].
  cbn [freshColumn cr_pos cr_end take concat length]. rewrite H1, H2, H3.
  rewrite take_0. cbn [concat length].
  split; [lia|]. split; [|done]. rewrite (wrapS_id 64) by (split; lia). lia.
Qed.

Lemma read_stored_fixed {V} (enc1 : V → list Z) file f m n dict nulls (vals : list V) fuel :
  section_at file m (col_bytes (fixed_block enc1) nulls vals) dict →
  Z.of_nat (length file) < 2 ^ 63 → length vals = n → (n ≤ 8 * length nulls)%nat →
  (∀ v, length (enc1 v) = ValueSize (Type_ f)) → (∀ v, bytes_ok (enc1 v)) →
  Type_ f ≠ TypeBool → (length (block_starts n) < fuel)%nat →
  readBlocks fuel (freshColumn file f m n) = Ret (fixed_blocks enc1 nulls vals).
Proof.
  intros Hsec Hsz Hn Hcover Hvs Hok Ht Hfuel.
  destruct (section_col_inv file f m n _ _
    (block_bytes (fixed_block enc1) nulls vals <$> block_starts n) Hsec Hsz)
    as (pre & post & Hf & Ho & Hinv); [unfold col_bytes; by rewrite Hn|].
  eapply readBlocks_fixed; try done. by rewrite <- Hf.
Qed.

Lemma read_stored_bool file f m n dict nulls vals fuel :
  section_at file m (bool_col nulls vals) dict →
  Z.of_nat (length file) < 2 ^ 63 → length vals = n → (n ≤ 8 * length nulls)%nat →
  Type_ f = TypeBool → (length (block_starts n) < fuel)%nat →
  readBlocks fuel (freshColumn file f m n) = Ret (bool_blocks nulls vals).
Proof.
  intros Hsec Hsz Hn Hcover Ht Hfuel.
  destruct (section_col_inv file f m n _ _
    (block_bytes bool_block nulls vals <$> block_starts n) Hsec Hsz)
    as (pre & post & Hf & Ho & Hinv); [unfold col_bytes; by rewrite Hn|].
  eapply readBlocks_bool; try done. by rewrite <- Hf.
Qed.

Lemma read_stored_dict file f m n body keys :
  section_at file m body (AppendChecksum (dict_body keys)) →
  Z.of_nat (length file) < 2 ^ 63 → dict_fits keys → Type_ f = TypeString →
  readDictionary (freshColumn file f m n)
  = Ret (mkDictionary (dict_offsets keys) (dict_data keys) []).
Proof.
  intros (pre & post & -> & H1 & _ & H3 & _ & H5 & _) Hsz Hfit Ht.
  unfold readDictionary. cbn [freshColumn cr_field cr_colMeta cr_file].
  rewrite decide_False by auto. rewrite !length_app in Hsz.
  assert (DictOffset m = Z.of_nat (length body)) as ->.
  { destruct H5 as [[H5 _]|]; [|done]. apply (f_equal length) in H5.
    unfold AppendChecksum, AppendUint32 in H5. rewrite length_app, length_le_bytes in H5.
    simpl in H5. lia. }
  rewrite H1, (wrapS_id 64), H3 by (split; lia).
  replace (Z.of_nat (length pre) + Z.of_nat (length body)) with (Z.of_nat (length (pre ++ body)))
    by (rewrite length_app; lia).
  replace (pre ++ (body ++ AppendChecksum (dict_body keys)) ++ post)
    with ((pre ++ body) ++ AppendChecksum (dict_body keys) ++ post) by by rewrite <- !app_assoc.
  rewrite readAt_app by done. cbn [mbind go_bind].
  by apply UnmarshalDictionary_body.
Qed.

Lemma stored_reads file t n m d f :
  stored file t n m d → Type_ f = t → Z.of_nat (length file) < 2 ^ 63 →
  column_reads (freshColumn file f m n) n d.
Proof.
  intros ((Hcover & Hd) & Ht & H) Htf Hsz fuel Hfuel. destruct d as [nulls values]. cbn [fst snd] in *.
  destruct values; [| | | | |done].
  - destruct H as [H _], Hd as [Hl _]. assert (Type_ f = TypeInt64) as Ef by by destruct t.
    eapply read_stored_fixed; try done; rewrite ?Ef; try done.
    intros. apply le_bytes_ok.
  - destruct H as [H _], Hd as [Hl _]. assert (Type_ f = TypeFloat64) as Ef by by destruct t.
    eapply read_stored_fixed; try done; rewrite ?Ef; try done.
    intros. apply le_bytes_ok.
  - destruct H as [H _]. eapply read_stored_bool; try done. by destruct t.
  - destruct H as (keys & codes & Hnd & Hfit & _ & Hlc & Hcodes & H & _), Hd as [Hl _].
    assert (Type_ f = TypeString) as Ef by by destruct t.
    exists keys, codes. split; [done|]. split; [done|]. split; [lia|]. split; [done|]. split.
    + eapply read_stored_fixed; try done; rewrite ?Ef; try done; try lia.
      intros. apply le_bytes_ok.
    + by eapply read_stored_dict.
  - destruct H as [H _], Hd as [Hl _]. assert (Type_ f = TypeDate) as Ef by by destruct t.
    eapply read_stored_fixed; try done; rewrite ?Ef; try done.
    intros. apply le_bytes_ok.
Qed.

(** Opening the file a session produced. *)
Definition allOK (io : FinishIO) : Prop :=
  io_flush io = None ∧ io_sync io = true ∧ io_close io = true ∧ io_rename io = true.

Lemma Finish_Ret io w fs :
  allOK io → w_rgNumRows w = 0%nat →
  Finish io w fs = (Ret (), <[w_path w := w_out w ++ marshalFooter w]> (delete (w_tmpPath w)
    (<[w_tmpPath w := w_out w ++ marshalFooter w]> fs))).
Proof.
  intros (H1 & H2 & H3 & H4) H0. unfold Finish. rewrite decide_False by auto.
  by rewrite H1, H2, H3, H4.
Qed.

Definition readsBack (schema : Schema) (r : Reader) (s : Session) : Prop :=
  fm_Schema (r_meta r) = schema ∧
  length (RowGroups (r_meta r)) = length (s_done s) ∧
  ∀ g i n ds d f, s_done s !! g = Some (n, ds) → ds !! i = Some d → schema !! i = Some f →
    ∃ cr, OpenColumn r (Z.of_nat g) (Z.of_nat i) = Ret cr ∧ cr_field cr = f ∧
      column_reads cr n d.

(** A reader over a file that stores a session's row groups. *)
Definition file_repr (schema : Schema) (r : Reader) (s : Session) : Prop :=
  fm_Schema (r_meta r) = schema ∧ Z.of_nat (length (r_file r)) < 2 ^ 63 ∧
  Forall2 (rg_stored schema (r_file r)) (RowGroups (r_meta r)) (s_done s).

Lemma open_finished path schema w s io fs :
  repr path schema w s → s_open s = None → allOK io →
  Z.of_nat (length schema) < 2 ^ 32 → Forall field_fits schema →
  Z.of_nat (length (s_done s)) < 2 ^ 32 →
  Z.of_nat (length (w_out w ++ marshalFooter w)) < 2 ^ 63 →
  ∃ fs' r, Finish io w fs = (Ret (), fs') ∧ Open fs' path = Ret r ∧ file_repr schema r s.
Proof.
  intros Hr Hop Hio Hsch Hf Hrg Hsz. pose proof Hr as ((Hp & Htp & Hs) & Ho & [rest Hm] & Hd & Hopen).
  rewrite Hop in Hopen. cbn [open_repr] in Hopen.
  assert (Hfit : meta_fits (mkFileMeta schema (w_rgs w)))
    by (eapply repr_meta_fits; try done; rewrite length_app in Hsz; lia).
  eexists _, (mkReader (w_out w ++ marshalFooter w) (mkFileMeta schema (w_rgs w))).
  split; [by apply Finish_Ret|]. split.
  { unfold Open. rewrite Hp, lookup_insert_eq. rewrite marshalFooter_bytes, Hs.
    pose proof (readFooter_spec (w_out w) _ Hfit) as E. cbn [fm_Schema RowGroups] in E.
    rewrite E; [done|rewrite Hm, length_app; simpl; lia|].
    rewrite marshalFooter_bytes, Hs, !length_app in Hsz. lia. }
  split; [done|]. split; [done|]. eapply Forall2_impl; [exact Hd|]. intros. by apply rg_stored_app.
Qed.

Lemma file_repr_column schema r s g i n ds d f :
  file_repr schema r s →
  s_done s !! g = Some (n, ds) → ds !! i = Some d → schema !! i = Some f →
  ∃ rg m, RowGroups (r_meta r) !! g = Some rg ∧ NumRows rg = n ∧ Columns rg !! i = Some m ∧
    stored (r_file r) (Type_ f) n m d ∧
    OpenColumn r (Z.of_nat g) (Z.of_nat i) = Ret (freshColumn (r_file r) f m n).
Proof.
  intros (Hs & Hsz & Hd) Hg Hi Hfi.
  destruct (Forall2_lookup_r _ _ _ _ _ Hd Hg) as (rg & Hrgi & Hnum & Hmax & Hoff & Hlm & Hlc & Hcols).
  cbn [fst snd] in *. rewrite length_fmap in Hlc.
  destruct (Hcols i f d Hfi) as (m & Hmi & Hst); [by rewrite list_lookup_fmap, Hi|].
  exists rg, m. split; [done|]. split; [done|]. split; [done|]. split; [done|].
  unfold OpenColumn. rewrite Hs.
  pose proof (lookup_lt_Some _ _ _ Hrgi). pose proof (lookup_lt_Some _ _ _ Hfi).
  rewrite !decide_False by lia. rewrite !Nat2Z.id.
  rewrite (index_Ret _ _ _ Hrgi). cbn [mbind go_bind].
  rewrite (index_Ret _ _ _ Hmi). cbn [mbind go_bind].
  rewrite (index_Ret _ _ _ Hfi). cbn [mbind go_bind]. by rewrite Hnum.
Qed.

Lemma file_repr_reads schema r s : file_repr schema r s → readsBack schema r s.
Proof.
  intros Hr. pose proof Hr as (Hs & Hsz & Hd).
  split; [done|]. split; [by apply (Forall2_length _ _ _ Hd)|].
  intros g i n ds d f Hg Hi Hf.
  destruct (file_repr_column _ _ _ _ _ _ _ _ _ Hr Hg Hi Hf) as (rg & m & _ & _ & _ & Hst & Ho).
  eexists. split; [exact Ho|]. split; [done|]. by eapply stored_reads.
Qed.

(** ** Properties *)

(** C1: Write-then-read.  Whatever legal sequence of [BeginRowGroup],
    [AppendColumn] (in any column order, refused calls included) and
    [EndRowGroup] calls is made on a fresh writer, once no row group is open a
    successful [Finish] leaves a file at the path that [Open] accepts, and every
    column of every row group reads back block by block as the rows that were
    appended, with the dictionary of each STRING column. *)
Theorem write_then_read path schema fs ops io :
  Z.of_nat (length schema) < 2 ^ 32 → Forall field_fits schema →
  legal schema emptySession ops →
  s_open (spec_ops schema emptySession ops) = None →
  Z.of_nat (length (s_done (spec_ops schema emptySession ops))) < 2 ^ 32 →
  (let w := run_ops (NewWriter path schema fs).1 ops in
   Z.of_nat (length (w_out w ++ marshalFooter w)) < 2 ^ 63) →
  allOK io →
  ∃ fs' r,
    Finish io (run_ops (NewWriter path schema fs).1 ops) (NewWriter path schema fs).2
    = (Ret (), fs') ∧
    Open fs' path = Ret r ∧ readsBack schema r (spec_ops schema emptySession ops).
Proof.
  intros Hsch Hf Hl Ho Hrg Hsz Hio.
  destruct (run_ops_repr path schema _ _ ops (repr_new path schema fs) Hl) as [Hr _].
  destruct (open_finished path schema _ _ io (NewWriter path schema fs).2 Hr)
    as (fs' & r & ? & ? & Hfr); try done.
  exists fs', r. split; [done|]. split; [done|]. by apply file_repr_reads.
Qed.

Definition demo_schema : Schema :=
  [mkField "id" TypeInt64 EncPlain false; mkField "name" TypeString EncDict true].
Definition demo_ops : list wop :=
  [OpBegin 3; OpEnd; OpAppend false 1 (Some [5]) (VString ["x"; "skipped"; "y"]%string);
   OpAppend false 0 None (VInt64 [7; -1; 3]); OpAppend false 0 None (VInt64 [0; 0; 0]); OpEnd;
   OpAppend false 0 None (VInt64 [1])].
Definition demo_io : FinishIO := mkFinishIO None true true true.

#[export] Instance data_ok_dec n d : Decision (data_ok n d).
Proof. unfold data_ok. destruct (d.2); apply _. Defined.
#[export] Instance op_ok_dec s op : Decision (op_ok s op).
Proof. destruct op; simpl; [apply _|destruct (s_open s) as [[n c]|]; apply _|apply _]. Defined.
#[export] Instance legal_dec schema s ops : Decision (legal schema s ops).
Proof. revert s. induction ops as [|op ops IH]; intros s; simpl; apply _. Defined.

Lemma demo_legal : legal demo_schema emptySession demo_ops.
Proof. by apply (bool_decide_eq_true_1 (legal demo_schema emptySession demo_ops)); vm_compute. Qed.

Lemma write_then_read_witness :
  ∃ fs' r,
    Finish demo_io (run_ops (NewWriter "t" demo_schema ∅).1 demo_ops)
      (NewWriter "t" demo_schema ∅).2 = (Ret (), fs') ∧
    Open fs' "t" = Ret r ∧ readsBack demo_schema r (spec_ops demo_schema emptySession demo_ops).
Proof.
  apply (write_then_read "t" demo_schema ∅ demo_ops demo_io).
  - reflexivity.
  - repeat constructor.
  - exact demo_legal.
  - reflexivity.
  - reflexivity.
  - vm_compute. reflexivity.
  - repeat split.
Defined.

(** C14: The writer implements its contract: along any legal sequence of calls
    it returns exactly the errors the abstract session returns (open or missing
    row group, index out of range, column already written, wrong type, missing
    columns), in the same places. *)
Theorem session_refines path schema fs ops :
  legal schema emptySession ops →
  outcomes (NewWriter path schema fs).1 ops = spec_outcomes schema emptySession ops.
Proof. intros Hl. by apply (run_ops_repr path schema _ _ ops (repr_new path schema fs) Hl). Qed.

Lemma session_refines_witness :
  outcomes (NewWriter "t" demo_schema ∅).1 demo_ops
  = [None; Some ErrMissingColumns; None; None; Some ErrColumnComplete; None; Some ErrRowGroupOpen].
Proof.
  rewrite (session_refines "t" demo_schema ∅ demo_ops).
  - vm_compute. reflexivity.
  - exact demo_legal.
Defined.

Lemma tmp_path_ne path : (path +:+ ".tmp")%string ≠ path.
Proof.
  intros H. apply (f_equal String.length) in H.
  assert (E : ∀ a b, String.length (a +:+ b)%string = (String.length a + String.length b)%nat).
  { induction a as [|c a IH]; intros b; [done|]. simpl. by rewrite IH. }
  rewrite E in H. simpl in H. lia.
Qed.

(** C21: [Finish] publishes atomically.  Whatever fails (an open row group, the
    flush after any number of bytes, the sync, the close, the rename), the file
    at the final path is untouched; on success it is the whole file, and the
    temporary file is gone.  No other path is written. *)
Theorem Finish_atomic io path schema w s fs :
  repr path schema w s →
  let '(res, fs') := Finish io w fs in
  (res = Ret () ∧ s_open s = None ∧ allOK io ∧
     fs' !! path = Some (w_out w ++ marshalFooter w) ∧ fs' !! w_tmpPath w = None ∨
   (∃ e, res = Err e) ∧ ¬ (s_open s = None ∧ allOK io) ∧ fs' !! path = fs !! path) ∧
  (∀ p, p ≠ path → p ≠ w_tmpPath w → fs' !! p = fs !! p).
Proof.
  intros ((Hp & Htp & _) & _ & _ & _ & Hopen).
  assert (Hne : w_tmpPath w ≠ path) by (rewrite Htp; apply tmp_path_ne).
  unfold Finish. case_decide as Hrows.
  { split; [right|done]. split; [eauto|]. split; [|done]. intros [Hn _].
    rewrite Hn in Hopen. done. }
  assert (Hso : s_open s = None).
  { destruct (s_open s) as [[n cols]|]; [|done]. destruct Hopen as (? & _ & ? & _).
    destruct Hrows. congruence. }
  unfold mustWrite. cbn [w_tmpPath w_path w_out]. rewrite Hp.
  destruct io as [fl sy cl rn]; cbn [io_flush io_sync io_close io_rename].
  destruct fl as [k|].
  { split; [right|intros; by rewrite lookup_insert_ne].
    split; [eauto|]. split; [by intros [_ [? _]]|by rewrite lookup_insert_ne]. }
  destruct sy, cl, rn; cbn [negb];
    (split; [|intros; by rewrite ?lookup_insert_ne, ?lookup_delete_ne, ?lookup_insert_ne]);
    try (right; split; [eauto|]; split; [by intros [_ (? & ? & ? & ?)]|by rewrite lookup_insert_ne]).
  left. split; [done|]. split; [done|]. split; [by repeat split|].
  split; [by rewrite lookup_insert_eq|]. by rewrite lookup_insert_ne, lookup_delete_eq.
Qed.

Lemma Finish_atomic_witness :
  let '(res, fs') := Finish (mkFinishIO None true true false)
    (NewWriter "t" demo_schema ∅).1 {["t" := [1; 2]]} in
  (res = Ret () ∧ s_open emptySession = None ∧ allOK (mkFinishIO None true true false) ∧
     fs' !! "t" = Some (w_out (NewWriter "t" demo_schema ∅).1
                        ++ marshalFooter (NewWriter "t" demo_schema ∅).1) ∧
     fs' !! w_tmpPath (NewWriter "t" demo_schema ∅).1 = None ∨
   (∃ e, res = Err e) ∧ ¬ (s_open emptySession = None ∧ allOK (mkFinishIO None true true false)) ∧
     fs' !! "t" = ({["t" := [1; 2]]} : FS) !! "t") ∧
  (∀ p, p ≠ "t"%string → p ≠ w_tmpPath (NewWriter "t" demo_schema ∅).1 →
        fs' !! p = ({["t" := [1; 2]]} : FS) !! p).
Proof.
  exact (Finish_atomic (mkFinishIO None true true false) "t" demo_schema
    (NewWriter "t" demo_schema ∅).1 emptySession {["t" := [1; 2]]} (repr_new "t" demo_schema ∅)).
Defined.

(** What a zone map says of the rows of its column. *)
Definition stats_describe (z : ZoneMap) (d : ColData) : Prop :=
  match d.2 with
  | VInt64 vs => let rows := col_rows d.1 vs in
      NullCount z = null_count rows ∧ Sum z = to_i64 (zsum (row_values rows)) ∧
      zm_extremes to_i64 rows z
  | VDate vs => let rows := col_rows d.1 vs in
      NullCount z = null_count rows ∧ zm_extremes to_i32 rows z
  | VFloat64 vs => let rows := col_rows d.1 vs in
      NullCount z = null_count rows ∧
      Sum z = to_i64 (foldl f64_add 0 (row_values rows)) ∧ zm_float_bounds rows z
  | VBool vs => NullCount z = null_count (col_rows d.1 vs) ∧ HasMinMax z = false
  | VString vs => let rows := col_rows d.1 vs in
      NullCount z = null_count rows ∧
      (HasMinMax z = true ↔ row_values rows ≠ []) ∧
      ∃ keys, NoDup keys ∧ (HasMinMax z = true → Max z = Z.of_nat (length keys) - 1) ∧
        ∀ s, s ∈ keys ↔ s ∈ row_values rows
  | VOther => False
  end.

Lemma code_rows_keys nulls vs keys codes :
  Forall2 (code_of keys) codes (col_rows nulls vs) →
  ∀ s, s ∈ row_values (col_rows nulls vs) → s ∈ keys.
Proof.
  intros H s Hs%elem_of_row_values. apply list_elem_of_lookup in Hs as [i Hi].
  destruct (Forall2_lookup_r _ _ _ _ _ H Hi) as (c & _ & j & _ & Hj).
  by eapply list_elem_of_lookup_2.
Qed.

Lemma stored_stats_describe file t n m d : stored file t n m d → stats_describe (Stats m) d.
Proof.
  intros ((Hcover & Hd) & Ht & H). destruct d as [nulls values]. unfold stats_describe.
  cbn [fst snd] in *. destruct values; [| | | | |done].
  - destruct H as [_ ->], Hd as [_ Hv]. apply int64_stats_spec. by apply row_values_col.
  - destruct H as [_ ->], Hd as [_ Hv]. apply float_finish_bounds. by apply row_values_col.
  - destruct H as [_ ->]. by rewrite bool_stats_spec.
  - destruct H as (keys & codes & Hnd & _ & Hin & _ & Hcodes & _ & ->).
    assert (Hk : ∀ s, s ∈ keys ↔ s ∈ row_values (col_rows nulls vs)).
    { intros s. split; [intros Hs; by apply elem_of_row_values, Hin|by eapply code_rows_keys]. }
    assert (Hne : (0 < length keys)%nat ↔ row_values (col_rows nulls vs) ≠ []).
    { split; intros Hl.
      - destruct keys as [|k keys]; [simpl in Hl; lia|]. intros E.
        assert (Hx : k ∈ row_values (col_rows nulls vs)) by (apply Hk; by left).
        rewrite E in Hx. by apply not_elem_of_nil in Hx.
      - destruct (row_values _) as [|v vs']; [done|].
        assert (Hx : v ∈ keys) by (apply Hk; by left).
        destruct keys; [by apply not_elem_of_nil in Hx|simpl; lia]. }
    unfold string_stats. case_decide as Hd0; (split; [done|]); cbn [HasMinMax Max].
    + split; [naive_solver|]. exists keys. split; [done|]. split; [lia|done].
    + split; [naive_solver|]. exists keys. split; [done|]. split; [done|done].
  - destruct H as [_ ->], Hd as [_ Hv].
    destruct (date_stats_spec (col_rows nulls vs)) as (? & _ & ?); [by apply row_values_col|done].
Qed.

(** C13: Zone maps never lie.  After any legal session the zone map recorded for
    every column of every finished row group describes the rows appended: the
    null count is exact; INT64 and DATE bounds are attained and enclose every
    value, and the INT64 sum is exact modulo 2^64; FLOAT64 bounds enclose every
    number unless the bound itself is NaN; STRING columns span a dictionary of
    exactly the values present. *)
Theorem zone_maps_sound path schema fs ops g i rg m n ds d :
  legal schema emptySession ops →
  s_done (spec_ops schema emptySession ops) !! g = Some (n, ds) → ds !! i = Some d →
  w_rgs (run_ops (NewWriter path schema fs).1 ops) !! g = Some rg →
  Columns rg !! i = Some m →
  NumRows rg = n ∧ stats_describe (Stats m) d.
Proof.
  intros Hl Hg Hi Hrg Hm.
  destruct (run_ops_repr path schema _ _ ops (repr_new path schema fs) Hl) as [(_ & _ & _ & Hd & _) _].
  destruct (Forall2_lookup_lr _ _ _ _ _ _ Hd Hrg Hg) as (Hn & _ & _ & Hlm & Hlc & Hcols).
  cbn [fst snd] in *. split; [done|].
  destruct (lookup_lt_is_Some_2 schema i) as [f Hf].
  { rewrite <- Hlm. by eapply lookup_lt_Some. }
  destruct (Hcols i f d Hf) as (m' & Hm' & Hst); [by rewrite list_lookup_fmap, Hi|].
  assert (m' = m) as -> by congruence. by eapply stored_stats_describe.
Qed.

Lemma zone_maps_sound_witness :
  3%nat = 3%nat ∧ stats_describe (mkZoneMap 0 9 (2 ^ 64 - 1) 7 true) ([7], VInt64 [7; -1; 3]).
Proof.
  apply (zone_maps_sound "t" demo_schema ∅ demo_ops 0 0
    (mkRowGroupMeta 4 3 [mkColumnSectionMeta 170 156 (mkZoneMap 0 9 (2 ^ 64 - 1) 7 true) 0 0;
                          mkColumnSectionMeta 4 166 (mkZoneMap 1 0 0 1 true) 144 22])
    (mkColumnSectionMeta 170 156 (mkZoneMap 0 9 (2 ^ 64 - 1) 7 true) 0 0) 3
    [([7], VInt64 [7; -1; 3]); ([5], VString ["x"; "skipped"; "y"]%string)]).
  - exact demo_legal.
  - vm_compute. reflexivity.
  - reflexivity.
  - vm_compute. reflexivity.
  - reflexivity.
Defined.

(** *** Damaged blocks *)

Lemma readBlocks_prefix_err (I : nat → ColumnReader → Prop) k e fuel cr :
  (∀ i cr, (i < k)%nat → I i cr → ∃ b cr', NextBlock cr = (Ret b, cr') ∧ I (S i) cr') →
  (∀ cr, I k cr → ∃ cr', NextBlock cr = (Err e, cr')) → e ≠ EOF →
  I 0%nat cr → (k < fuel)%nat → readBlocks fuel cr = Err e.
Proof.
  intros Hstep Hend He. revert I Hstep Hend cr fuel.
  induction k as [|k IH]; intros I Hstep Hend cr fuel Hcr Hf;
    (destruct fuel as [|fuel]; [lia|]); cbn [readBlocks].
  - destruct (Hend cr Hcr) as [cr' ->]. by destruct e.
  - destruct (Hstep 0%nat cr) as (b & cr' & -> & Hcr'); [lia|done|].
    rewrite (IH (λ i, I (S i))); [done| |done|done|lia]. intros i cr2 Hi. apply Hstep. lia.
Qed.

Lemma lookup_concat (l : list (list Z)) i :
  (i < length (concat l))%nat →
  ∃ k b j, l !! k = Some b ∧ (j < length b)%nat ∧ i = (length (concat (take k l)) + j)%nat ∧
    concat l !! i = b !! j ∧
    ∀ x, <[i := x]> (concat l) = concat (<[k := <[j := x]> b]> l).
Proof.
  revert i. induction l as [|a l IH]; intros i Hi; [simpl in Hi; lia|].
  cbn [concat] in *. destruct (decide (i < length a)%nat) as [Hlt|Hge].
  - exists 0%nat, a, i. split; [done|]. split; [done|]. split; [done|].
    rewrite lookup_app_l by done. split; [done|]. intros x. by rewrite insert_app_l.
  - rewrite length_app in Hi. destruct (IH (i - length a)%nat) as (k & b & j & Hk & Hj & E & L & U); [lia|].
    exists (S k), b, j. split; [done|]. split; [done|]. cbn [take concat].
    rewrite length_app. split; [lia|]. rewrite lookup_app_r by lia. split; [done|].
    intros x. rewrite insert_app_r_alt by lia. by rewrite U.
Qed.

Lemma fixed_payload_ok {V} (enc1 : V → list Z) nulls (vals : list V) s :
  (length vals ≤ 8 * length nulls)%nat → (s < length vals)%nat → (∀ v, bytes_ok (enc1 v)) →
  bytes_ok (bitmapFull (sub_bm nulls s (block_end (length vals) s - s))
            ++ concat (enc1 <$> blk s vals)).
Proof.
  intros Hc Hs Hok. pose proof (block_end_spec _ _ Hs).
  destruct (sub_bm_spec nulls s (block_end (length vals) s - s)) as (_ & Hbok & _); [lia|].
  apply bytes_ok_app; [by apply bitmapFull_ok|]. apply concat_bytes_ok, Forall_true. auto.
Qed.

Lemma lookup_blocks {A} (f : nat → A) n k :
  (k < length (block_starts n))%nat →
  (k * BlockRows < n)%nat ∧ (f <$> block_starts n) !! k = Some (f (k * BlockRows)%nat).
Proof.
  intros [s Hs]%lookup_lt_is_Some. pose proof Hs as [-> Hlt]%lookup_block_starts.
  split; [done|]. by rewrite list_lookup_fmap, Hs.
Qed.

(** The fixed-width column whose block [k] is damaged at byte [j]. *)
Lemma damaged_fixed {V} (enc1 : V → list Z) file f m n dict nulls (vals : list V) fuel i x y :
  section_at file m (col_bytes (fixed_block enc1) nulls vals) dict →
  Z.of_nat (length file) < 2 ^ 63 → length vals = n → (n ≤ 8 * length nulls)%nat →
  (∀ v, length (enc1 v) = ValueSize (Type_ f)) → (∀ v, bytes_ok (enc1 v)) →
  Type_ f ≠ TypeBool → (length (block_starts n) < fuel)%nat →
  SectionOffset m ≤ Z.of_nat i < SectionOffset m + SectionLength m - DictLength m →
  file !! i = Some y → is_byte x → x ≠ y →
  readBlocks fuel (freshColumn (<[i := x]> file) f m n) = Err ErrChecksum.
Proof.
  intros Hsec Hsz Hn Hcover Hvs Hok Ht Hfuel Hi Hy Hx Hne.
  destruct Hsec as (pre & post & -> & H1 & H2 & H3 & _).
  set (blocks := block_bytes (fixed_block enc1) nulls vals <$> block_starts n).
  assert (Hbody : col_bytes (fixed_block enc1) nulls vals = concat blocks)
    by (unfold col_bytes; by rewrite Hn).
  rewrite Hbody in *. rewrite length_app in H2.
  set (i' := (i - length pre)%nat). destruct (lookup_concat blocks i') as (k & b & j & Hk & Hj & Ei & Hl & Hu).
  { subst i'. lia. }
  assert (Hbj : b !! j = Some y).
  { rewrite <- Hl. rewrite lookup_app_r in Hy by lia. fold i' in Hy.
    rewrite <- app_assoc, lookup_app_l in Hy by (subst i'; lia). done. }
  assert (Hfile : <[i := x]> (pre ++ (concat blocks ++ dict) ++ post)
    = pre ++ concat (<[k := <[j := x]> b]> blocks) ++ (dict ++ post)).
  { rewrite insert_app_r_alt by lia. fold i'. rewrite <- app_assoc.
    rewrite insert_app_l by (subst i'; lia). by rewrite Hu. }
  set (blocks' := <[k := <[j := x]> b]> blocks) in *.
  assert (Hlen' : length (concat blocks') = length (concat blocks))
    by (subst blocks'; by rewrite <- Hu, length_insert).
  assert (Hsize' : Z.of_nat (length (pre ++ concat blocks' ++ dict ++ post)) < 2 ^ 63)
    by (rewrite !length_app in Hsz |- *; lia).
  assert (Hcount : length blocks' = length (block_starts n))
    by (subst blocks' blocks; by rewrite length_insert, length_fmap).
  pose proof (lookup_lt_Some _ _ _ Hk) as Hkl.
  assert (Hblock : ∀ i, (i < length blocks)%nat → (i * BlockRows < n)%nat ∧
    blocks !! i = Some (block_bytes (fixed_block enc1) nulls vals (i * BlockRows))).
  { intros i0 Hi0. subst blocks. rewrite length_fmap in Hi0. by apply lookup_blocks. }
  assert (Hcr : col_inv pre (dict ++ post) blocks' f m n 0
    (freshColumn (<[i := x]> (pre ++ (concat blocks ++ dict) ++ post)) f m n)).
  { split; [|done]. split; [done|]. split; [done|]. split; [done|].
    cbn [freshColumn cr_pos cr_end]. rewrite take_0. cbn [concat length]. rewrite H1, H2, H3.
    rewrite !length_app in Hsz. split; [lia|]. split; [|done].
    rewrite (wrapS_id 64) by (split; lia). lia. }
  eapply (readBlocks_prefix_err (col_inv pre (dict ++ post) blocks' f m n) k);
    [| |done|exact Hcr|subst blocks; rewrite length_fmap in Hkl; lia].
  - intros i0 cr Hi0 Hinv. eexists.
    eapply (NextBlock_fixed pre (dict ++ post) f m n H1 enc1 nulls vals); try done.
    subst blocks'. rewrite list_lookup_insert_ne by lia. apply Hblock. lia.
  - intros cr Hinv. destruct (Hblock k Hkl) as [Hlt E]. rewrite E in Hk. injection Hk as <-.
    eapply (NextBlock_damaged pre (dict ++ post) f m n H1 enc1 nulls vals)
      with (blocks := blocks') (k := k)
        (b := <[j := x]> (block_bytes (fixed_block enc1) nulls vals (k * BlockRows))); try done.
    + subst blocks'. by apply list_lookup_insert_eq.
    + eapply VerifyTrailing_single_byte; [|exact Hbj|done|done].
      apply fixed_payload_ok; [lia|by rewrite Hn|done].
    + by rewrite length_insert.
Qed.

(** C15: Bit rot in a column is detected.  When any one byte of the blocks of a
    stored INT64, FLOAT64, DATE or STRING column is changed, streaming that
    column ends in [ErrChecksum]: it never returns wrong rows. *)
Theorem corruption_detected file t n m d f i x y fuel :
  stored file t n m d → Type_ f = t → t ≠ TypeBool →
  Z.of_nat (length file) < 2 ^ 63 →
  SectionOffset m ≤ Z.of_nat i < SectionOffset m + SectionLength m - DictLength m →
  file !! i = Some y → is_byte x → x ≠ y → (length (block_starts n) < fuel)%nat →
  readBlocks fuel (freshColumn (<[i := x]> file) f m n) = Err ErrChecksum.
Proof.
  intros ((Hcover & Hd) & Ht & H) Htf Hnb Hsz Hi Hy Hx Hne Hfuel.
  destruct d as [nulls values]. cbn [fst snd] in *.
  destruct values; [| | | | |done]; destruct t; try done.
  - destruct H as [H _], Hd as [Hl _].
    eapply damaged_fixed; try done; rewrite ?Htf; try done. intros. apply le_bytes_ok.
  - destruct H as [H _], Hd as [Hl _].
    eapply damaged_fixed; try done; rewrite ?Htf; try done. intros. apply le_bytes_ok.
  - destruct H as (keys & codes & _ & _ & _ & Hlc & _ & H & _), Hd as [Hl _].
    eapply damaged_fixed; try done; rewrite ?Htf; try done; [lia|]. intros. apply le_bytes_ok.
  - destruct H as [H _], Hd as [Hl _].
    eapply damaged_fixed; try done; rewrite ?Htf; try done. intros. apply le_bytes_ok.
Qed.

Definition demo_nulls_vals : ColData := ([7], VInt64 [7; -1; 3]).
Definition demo_meta : ColumnSectionMeta :=
  mkColumnSectionMeta 4 156 (mkZoneMap 0 9 (2 ^ 64 - 1) 7 true) 0 0.
Definition demo_file : list Z := Magic ++ int64_col [7] [7; -1; 3].

Lemma demo_stored : stored demo_file TypeInt64 3 demo_meta demo_nulls_vals.
Proof.
  split; [by apply (bool_decide_eq_true_1 (data_ok 3 demo_nulls_vals))|]. split; [done|].
  split; [|vm_compute; reflexivity]. exists Magic, []. rewrite !app_nil_r.
  split; [done|]. repeat (split; [vm_compute; done|]).
  split; [by left|by apply (bool_decide_eq_true_1 (inU 32 0))].
Qed.

Lemma corruption_detected_witness :
  readBlocks 5 (freshColumn (<[140%nat := 1]> demo_file) (mkField "id" TypeInt64 EncPlain false)
    demo_meta 3) = Err ErrChecksum.
Proof.
  apply (corruption_detected demo_file TypeInt64 3 demo_meta demo_nulls_vals _ 140 1 255);
    [exact demo_stored|done|done|vm_compute; reflexivity|vm_compute; split; [discriminate|reflexivity]
    |vm_compute; reflexivity|vm_compute; split; [discriminate|reflexivity]|done|].
  apply Nat.ltb_lt. vm_compute. reflexivity.
Defined.
