(* ===== verification/Verify.v ===== *)
(** * Package storage: recomputing zone maps ([storage/verify.go])

    [ComputeColumnStats] streams a column and recomputes its zone map;
    [VerifyColumnStats] compares it with the footer's.  The theorems: the check
    accepts every file a writer session produced, and a check that passes means
    the footer's zone map describes the rows in the file. *)
From Stdlib Require Import ZArith Lia ZifyNat.
From stdpp Require Import base numbers list strings gmap.
From S2P Require Import Prelude Encoding Codec Float64 Schema Writer Reader Volume.
#[local] Open Scope Z_scope.

(** Zone map so far, and the float accumulators [sumF], [minF], [maxF]. *)
Abbreviation VState := (ZoneMap * Z * Z * Z)%type.

Definition verify_null (st : VState) : VState :=
  let '(z, sumF, minF, maxF) := st in (zm_null z, sumF, minF, maxF).

Definition verify_int64 (nulls payload : list Z) (st : VState) (i : nat) : go VState :=
  u ← GetUint64 (drop (i * 8) payload);
  let v := to_i64 u in
  isnull ← IsNullBit nulls i;
  if (isnull : bool) then Ret (verify_null st) else
  let '(z, sumF, minF, maxF) := st in
  let sum := to_i64 (Sum z + v) in
  Ret (if HasMinMax z then
         mkZoneMap (NullCount z) sum
           (if v <? to_i64 (Min z) then to_u64 v else Min z)
           (if v >? to_i64 (Max z) then to_u64 v else Max z) true
       else mkZoneMap (NullCount z) sum (to_u64 v) (to_u64 v) true, sumF, minF, maxF).

Definition verify_float64 (nulls payload : list Z) (st : VState) (i : nat) : go VState :=
  v ← GetUint64 (drop (i * 8) payload);
  isnull ← IsNullBit nulls i;
  if (isnull : bool) then Ret (verify_null st) else
  let '(z, sumF, minF, maxF) := st in
  let sumF := f64_add sumF v in
  if HasMinMax z then
    Ret (z, sumF, (if f64_lt v minF then v else minF), (if f64_lt maxF v then v else maxF))
  else Ret (mkZoneMap (NullCount z) (Sum z) (Min z) (Max z) true, sumF, v, v).

Definition verify_date (nulls payload : list Z) (st : VState) (i : nat) : go VState :=
  u ← GetUint32 (drop (i * 4) payload);
  let v := to_i32 u in
  isnull ← IsNullBit nulls i;
  if (isnull : bool) then Ret (verify_null st) else
  let '(z, sumF, minF, maxF) := st in
  let uv := to_u32 v in
  Ret (if HasMinMax z then
         mkZoneMap (NullCount z) (Sum z) (if to_i32 (Min z) >? v then uv else Min z)
           (if to_i32 (Max z) <? v then uv else Max z) true
       else mkZoneMap (NullCount z) (Sum z) uv uv true, sumF, minF, maxF).

Definition verify_string (dictLen : nat) (nulls payload : list Z) (st : VState) (i : nat)
    : go VState :=
  code ← GetUint32 (drop (i * 4) payload);
  isnull ← IsNullBit nulls i;
  if (isnull : bool) then Ret (verify_null st) else
  if decide (Z.of_nat dictLen ≤ code) then Err (ErrMsg "dictionary code out of range") else
  let '(z, sumF, minF, maxF) := st in
  Ret (mkZoneMap (NullCount z) (Sum z) (Min z) (Max z) true, sumF, minF, maxF).

Definition verify_bool (boolNulls : list Z) (st : VState) (i : nat) : go VState :=
  isnull ← IsNullBit boolNulls i;
  Ret (if (isnull : bool) then verify_null st else st).

(** The body of the loop over blocks. *)
Definition verify_block (t : DataType) (dictLen : nat) (st : VState) (b : Block) : go VState :=
  let '(nulls, payload, n) := b in
  let nulls := default [] nulls in
  match t with
  | TypeInt64 => foldM (verify_int64 nulls payload) st (seq 0 n)
  | TypeFloat64 => foldM (verify_float64 nulls payload) st (seq 0 n)
  | TypeDate => foldM (verify_date nulls payload) st (seq 0 n)
  | TypeString => foldM (verify_string dictLen nulls payload) st (seq 0 n)
  | TypeBool =>
      '(_, boolNulls, decoded) ← DecodeRLEBool payload;
      if decide (decoded ≠ n) then Err (ErrMsg "RLE decodes to wrong row count") else
      foldM (verify_bool boolNulls) st (seq 0 n)
  | TypeOther _ => Err (ErrMsg "unsupported type")
  end.

Fixpoint verify_loop (fuel : nat) (t : DataType) (dictLen : nat) (cr : ColumnReader)
    (st : VState) (rows : nat) : go (VState * nat) :=
  match fuel with
  | O => OutOfFuel
  | S fuel =>
      match NextBlock cr with
      | (Ret b, cr) =>
          st ← verify_block t dictLen st b;
          verify_loop fuel t dictLen cr st (rows + b.2)
      | (Err EOF, _) => Ret (st, rows)
      | (Err e, _) => Err e
      | (Panic, _) => Panic
      | (OutOfFuel, _) => OutOfFuel
      end
  end.

Definition verify_finish (t : DataType) (dictLen : nat) (st : VState) : ZoneMap :=
  let '(z, sumF, minF, maxF) := st in
  match t with
  | TypeFloat64 =>
      let z := mkZoneMap (NullCount z) (to_i64 sumF) (Min z) (Max z) (HasMinMax z) in
      if HasMinMax z then mkZoneMap (NullCount z) (Sum z) minF maxF true else z
  | TypeString =>
      if decide (0 < dictLen)%nat
      then mkZoneMap (NullCount z) (Sum z) 0 (Z.of_nat (dictLen - 1)) true else z
  | _ => z
  end.

Definition ComputeColumnStats (fuel : nat) (r : Reader) (rg col : Z) : go ZoneMap :=
  cr ← OpenColumn r rg col;
  field ← index (fm_Schema (r_meta r)) (Z.to_nat col);
  dictLen ← (if decide (Type_ field = TypeString)
             then dict ← readDictionary cr; Ret (d_Len dict) else Ret 0%nat);
  '(st, rows) ← verify_loop fuel (Type_ field) dictLen cr (zeroZoneMap, 0, 0, 0) 0;
  rgMeta ← index (RowGroups (r_meta r)) (Z.to_nat rg);
  if decide (rows ≠ NumRows rgMeta) then Err (ErrMsg "row count") else
  Ret (verify_finish (Type_ field) dictLen st).

Definition VerifyColumnStats (fuel : nat) (r : Reader) (rg col : Z) : go () :=
  got ← ComputeColumnStats fuel r rg col;
  rgMeta ← index (RowGroups (r_meta r)) (Z.to_nat rg);
  colMeta ← index (Columns rgMeta) (Z.to_nat col);
  if decide (got = Stats colMeta) then Ret () else Err (ErrMsg "zone map does not match data").

(** ** Lemmas *)

(** The loop over blocks is a fold over what [readBlocks] collects. *)
Lemma verify_loop_readBlocks fuel t d cr st rows bs :
  readBlocks fuel cr = Ret bs →
  verify_loop fuel t d cr st rows
  = (st ← foldM (verify_block t d) st bs; Ret (st, (rows + list_sum (snd <$> bs))%nat)).
Proof.
  revert cr st rows bs. induction fuel as [|fuel IH]; intros cr st rows bs H; [done|].
  cbn [readBlocks verify_loop] in *. destruct (NextBlock cr) as [[b|e| |] cr'].
  - apply go_bind_Ret_inv in H as (bs' & Hbs & [= <-]). cbn [foldM].
    destruct (verify_block t d st b) as [st'| | |]; try done. cbn [mbind go_bind].
    rewrite (IH _ _ _ _ Hbs). destruct (foldM _ st' bs'); try done. cbn [mbind go_bind].
    cbn [fmap list_fmap list_sum foldr]. by rewrite Nat.add_assoc.
  - destruct e; try done. injection H as <-. cbn. by rewrite Nat.add_0_r.
  - done.
  - done.
Qed.

(** One row, as the writer's statistics see it. *)
Definition lift_step (step : ZoneMap → option Z → ZoneMap) (st : VState) (o : option Z) : VState :=
  let '(z, sumF, minF, maxF) := st in (step z o, sumF, minF, maxF).
Definition string_step (st : VState) (o : option Z) : VState :=
  let '(z, sumF, minF, maxF) := st in
  (match o with
   | None => zm_null z
   | Some _ => mkZoneMap (NullCount z) (Sum z) (Min z) (Max z) true
   end, sumF, minF, maxF).

Lemma drop_concat_enc {V} (enc1 : V → list Z) sz vs i v :
  (∀ v, length (enc1 v) = sz) → vs !! i = Some v →
  ∃ rest, drop (i * sz) (concat (enc1 <$> vs)) = enc1 v ++ rest.
Proof.
  intros Hsz. revert i. induction vs as [|u vs IH]; intros i Hi; [done|].
  destruct i as [|i]; cbn [fmap list_fmap concat].
  - injection Hi as ->. by exists (concat (enc1 <$> vs)).
  - destruct (IH i Hi) as [rest Hr]. exists rest. rewrite <- Hr, drop_app_ge by (rewrite Hsz; lia).
    f_equal. rewrite Hsz. lia.
Qed.

(** A loop over the rows of a block is a fold over its abstract rows. *)
Lemma row_loop {V} (f : VState → nat → go VState) (step : VState → option V → VState) bn vs st :
  (∀ st i v, vs !! i = Some v →
     f st i = Ret (step st (if bit_valid bn i then Some v else None))) →
  foldM f st (seq 0 (length vs)) = Ret (foldl step st (col_rows bn vs)).
Proof.
  intros Hf. rewrite foldM_seq_enum.
  destruct (foldM_enum_ind (λ st (p : nat * V), f st p.1)
    (λ k st', st' = foldl step st (take k (col_rows bn vs))) vs st) as (st' & -> & ->).
  - done.
  - intros k v st' Hk ->. simpl. rewrite (Hf _ _ _ Hk). eexists. split; [done|].
    by rewrite (take_S_r _ _ _ (lookup_col_rows bn _ _ _ Hk)), foldl_app.
  - by rewrite take_ge by by rewrite length_col_rows.
Qed.

(** Row [i] of a fixed-width block: its value decodes, its bit is in range. *)
#[local] Ltac verify_row enc1 sz get :=
  intros [[[z sF] mn] mx] i v Hi; pose proof (lookup_lt_Some _ _ _ Hi);
  match type of Hi with ?l !! _ = _ =>
    destruct (drop_concat_enc enc1 sz l i v) as [rest ->];
    [intros; apply length_le_bytes|exact Hi|] end;
  unfold enc1; rewrite get; cbn [mbind go_bind];
  rewrite IsNullBit_Ret by lia; cbn [mbind go_bind].

Lemma verify_int64_rows d bn vs st :
  (length vs ≤ 8 * length bn)%nat → Forall (inS 64) vs →
  verify_block TypeInt64 d st (Some bn, concat (enc_i64 <$> vs), length vs)
  = Ret (foldl (lift_step int64_step) st (col_rows bn vs)).
Proof.
  intros Hc Hv. cbn [verify_block from_option id]. apply row_loop. unfold verify_int64.
  verify_row enc_i64 8%nat GetUint64_app. pose proof (Forall_lookup_1 _ _ _ _ Hv Hi) as Hin.
  rewrite (wrapU_id 64) by (apply (wrapU_in 64); lia). rewrite (i64_u64 v Hin).
  destruct (bit_valid bn i); simpl; [|done]. by destruct (HasMinMax z).
Qed.
Lemma verify_float64_rows d bn vs st :
  (length vs ≤ 8 * length bn)%nat → Forall (inU 64) vs →
  verify_block TypeFloat64 d st (Some bn, concat (enc_u64 <$> vs), length vs)
  = Ret (foldl float64_step st (col_rows bn vs)).
Proof.
  intros Hc Hv. cbn [verify_block from_option id]. apply row_loop. unfold verify_float64.
  verify_row enc_u64 8%nat GetUint64_app. pose proof (Forall_lookup_1 _ _ _ _ Hv Hi) as Hin.
  rewrite (wrapU_id 64) by done.
  destruct (bit_valid bn i); simpl; [|done]. by destruct (HasMinMax z).
Qed.
Lemma verify_date_rows d bn vs st :
  (length vs ≤ 8 * length bn)%nat → Forall (inS 32) vs →
  verify_block TypeDate d st (Some bn, concat (enc_i32 <$> vs), length vs)
  = Ret (foldl (lift_step date_step) st (col_rows bn vs)).
Proof.
  intros Hc Hv. cbn [verify_block from_option id]. apply row_loop. unfold verify_date.
  verify_row enc_i32 4%nat GetUint32_app. pose proof (Forall_lookup_1 _ _ _ _ Hv Hi) as Hin.
  rewrite (wrapU_id 32) by (apply (wrapU_in 32); lia). rewrite (i32_u32 v Hin).
  destruct (bit_valid bn i); simpl; [|done]. by destruct (HasMinMax z).
Qed.
Lemma verify_string_rows d bn vs st :
  (length vs ≤ 8 * length bn)%nat → Forall (inU 32) vs →
  (∀ i v, vs !! i = Some v → bit_valid bn i = true → v < Z.of_nat d) →
  verify_block TypeString d st (Some bn, concat (enc_u32 <$> vs), length vs)
  = Ret (foldl string_step st (col_rows bn vs)).
Proof.
  intros Hc Hv Hd. cbn [verify_block from_option id]. apply row_loop. unfold verify_string.
  verify_row enc_u32 4%nat GetUint32_app. pose proof (Forall_lookup_1 _ _ _ _ Hv Hi) as Hin.
  rewrite (wrapU_id 32) by done. specialize (Hd i v Hi).
  destruct (bit_valid bn i); cbn [negb]; [|done]. rewrite decide_False by (specialize (Hd eq_refl); lia).
  done.
Qed.
Lemma verify_bool_rows d bn vs st :
  (length vs ≤ 8 * length bn)%nat → (length vs ≤ BlockRows)%nat →
  verify_block TypeBool d st (None, bool_block bn vs, length vs)
  = Ret (foldl (λ st o, match o with Some _ => st | None => verify_null st end) st (col_rows bn vs)).
Proof.
  intros Hc Hs. cbn [verify_block]. unfold bool_block.
  pose proof (BlockRows_small _ Hs) as Hz.
  destruct (EncodeRLEBool_spec vs bn Hc Hz) as (runs & -> & Hok & Hex & Hl).
  destruct (DecodeRLEBool_body runs Hok) as (values' & nulls' & -> & Hst); [lia|].
  rewrite Hex, length_bool_syms in *. cbn [mbind go_bind]. rewrite decide_False by auto.
  destruct Hst as (_ & _ & Hln & _ & _ & Hb). rewrite length_bool_syms in *.
  apply row_loop. intros st' i v Hi. pose proof (lookup_lt_Some _ _ _ Hi) as Hlt.
  unfold verify_bool. rewrite IsNullBit_Ret by lia. cbn [mbind go_bind]. rewrite Hb.
  unfold bool_syms. rewrite list_lookup_imap, Hi. cbn [fmap option_fmap option_map].
  destruct (bit_valid bn i).
  - rewrite bool_decide_true; [done|]. split; [done|]. intros [_ E]. by destruct v.
  - rewrite bool_decide_false; [done|]. naive_solver.
Qed.

(** Folding over all blocks of a column is folding over its rows. *)
Lemma blocks_fold {V} (g : VState → Block → go VState) (step : VState → option V → VState)
    (mk : nat → Block) nulls vals st :
  (length vals ≤ 8 * length nulls)%nat →
  (∀ s st, (s < length vals)%nat →
     g st (mk s) = Ret (foldl step st
       (col_rows (sub_bm nulls s (length (blk s vals))) (blk s vals)))) →
  foldM g st (mk <$> block_starts (length vals)) = Ret (foldl step st (col_rows nulls vals)).
Proof.
  intros Hc Hg. set (starts := block_starts (length vals)).
  destruct (foldM_list_ind g
    (λ k st', st' = foldl step st (take (k * BlockRows) (col_rows nulls vals)))
    (mk <$> starts) st) as (st' & -> & ->).
  - done.
  - intros k b st' Hb ->. rewrite list_lookup_fmap in Hb.
    destruct (starts !! k) as [s|] eqn:Es; [|done]. injection Hb as <-.
    pose proof Es as [-> Hlt]%lookup_block_starts. rewrite Hg by done.
    eexists. split; [done|]. rewrite length_blk, col_rows_blk by done.
    rewrite take_blk by by rewrite length_col_rows. by rewrite foldl_app.
  - pose proof (length_block_starts (length vals)) as [_ H].
    rewrite take_ge; [done|]. rewrite length_fmap, length_col_rows. done.
Qed.

Lemma blocks_rows {V} (mk : nat → Block) (vals : list V) :
  (∀ s, (mk s).2 = length (blk s vals)) →
  list_sum (snd <$> (mk <$> block_starts (length vals))) = length vals.
Proof.
  intros Hmk. set (starts := block_starts (length vals)).
  assert (H : ∀ k, (k ≤ length starts)%nat →
    list_sum (take k (snd <$> (mk <$> starts))) = Nat.min (k * BlockRows) (length vals)).
  { induction k as [|k IH]; intros Hk; [done|].
    destruct (lookup_lt_is_Some_2 starts k) as [s Hs]; [lia|].
    pose proof Hs as [-> Hlt]%lookup_block_starts.
    erewrite take_S_r by by rewrite !list_lookup_fmap, Hs.
    rewrite list_sum_app, IH by lia. simpl list_sum. rewrite Hmk, length_blk by done.
    rewrite Nat.mul_succ_l. unfold block_end. case_decide; lia. }
  specialize (H (length starts) (le_n _)). rewrite take_ge in H by by rewrite !length_fmap.
  rewrite H. pose proof (length_block_starts (length vals)) as [_ Hs]. fold starts in Hs. lia.
Qed.

Lemma Forall_blk {A} (P : A → Prop) s l : Forall P l → Forall P (blk s l).
Proof. intros. unfold blk. by apply Forall_take, Forall_drop. Qed.

Lemma sub_bm_covers {V} nulls s (vals : list V) :
  (s < length vals)%nat → (length vals ≤ 8 * length nulls)%nat →
  (length (blk s vals) ≤ 8 * length (sub_bm nulls s (length (blk s vals))))%nat ∧
  (length (blk s vals) ≤ BlockRows)%nat.
Proof.
  intros Hs Hc. pose proof (block_end_spec _ _ Hs). pose proof (length_blk _ _ Hs).
  destruct (sub_bm_spec nulls s (length (blk s vals))) as (-> & _); [lia|]. lia.
Qed.

Lemma foldl_lift step st rows :
  foldl (lift_step step) st rows
  = let '(z, sF, mn, mx) := st in (foldl step z rows, sF, mn, mx).
Proof.
  revert st. induction rows as [|o rows IH]; intros [[[z sF] mn] mx]; [done|].
  cbn [foldl]. by rewrite IH.
Qed.
Lemma foldl_bool rows st :
  foldl (λ st (o : option bool), match o with Some _ => st | None => verify_null st end) st rows
  = let '(z, sF, mn, mx) := st in (foldl bool_step z rows, sF, mn, mx).
Proof.
  revert st. induction rows as [|o rows IH]; intros [[[z sF] mn] mx]; [done|].
  cbn [foldl]. rewrite IH. by destruct o.
Qed.
(** The string pass only counts NULLs; the bounds come from the dictionary. *)
Lemma foldl_string rows z sF mn mx :
  let '(z', _, _, _) := foldl string_step (z, sF, mn, mx) rows in
  NullCount z' = NullCount z + null_count rows ∧ Sum z' = Sum z ∧ Min z' = Min z ∧ Max z' = Max z ∧
  (HasMinMax z = false → row_values rows = [] → HasMinMax z' = false).
Proof.
  induction rows as [|o rows IH] using rev_ind; [split; [by rewrite Z.add_0_r|done]|].
  rewrite foldl_app. cbn [foldl].
  destruct (foldl string_step (z, sF, mn, mx) rows) as [[[z' s'] mn'] mx'].
  destruct IH as (H1 & H2 & H3 & H4 & H5). unfold string_step. rewrite null_count_snoc, row_values_snoc.
  destruct o as [v|]; cbn; (split; [lia|]); (split; [done|]); (split; [done|]); (split; [done|]).
  - intros _ [_ ?]%app_eq_nil. done.
  - rewrite app_nil_r. done.
Qed.

Lemma null_count_bits {V} nulls (vs : list V) :
  null_count (col_rows nulls vs)
  = Z.of_nat (length (filter (λ i, bit_valid nulls i = false) (seq 0 (length vs)))).
Proof.
  induction vs as [|v vs IH] using rev_ind; [done|].
  unfold col_rows in *. rewrite imap_app. cbn [imap]. rewrite null_count_snoc, IH.
  rewrite length_app, Nat.add_1_r, seq_S, filter_app, length_app, Nat.add_0_r. cbn [Nat.add].
  rewrite filter_cons, filter_nil.
  destruct (bit_valid nulls (length vs)); simpl; lia.
Qed.
Lemma null_count_shape {A B} nulls (a : list A) (b : list B) :
  length a = length b → null_count (col_rows nulls a) = null_count (col_rows nulls b).
Proof. intros Hl. by rewrite !null_count_bits, Hl. Qed.

Lemma code_of_valid keys nulls vs codes i c :
  Forall2 (code_of keys) codes (col_rows nulls vs) → codes !! i = Some c →
  bit_valid nulls i = true → 0 ≤ c < Z.of_nat (length keys).
Proof.
  intros H Hc Hb. destruct (Forall2_lookup_l _ _ _ _ _ H Hc) as (o & Ho & Hco).
  unfold col_rows in Ho. rewrite list_lookup_imap in Ho.
  destruct (vs !! i) as [v|]; [|done]. cbn in Ho. rewrite Hb in Ho. injection Ho as <-.
  destruct Hco as (j & -> & Hj). pose proof (lookup_lt_Some _ _ _ Hj). lia.
Qed.
Lemma code_of_in32 keys codes rows :
  dict_fits keys → Forall2 (code_of keys) codes rows → Forall (inU 32) codes.
Proof.
  intros [Hk _] H. induction H as [|c o codes rows Hc _ IH]; constructor; [|done].
  destruct o as [s|]; cbn in Hc; [|by subst].
  destruct Hc as (j & -> & Hj). pose proof (lookup_lt_Some _ _ _ Hj). split; lia.
Qed.

Lemma verify_string_column keys nulls vs codes st :
  dict_fits keys → length codes = length vs → (length vs ≤ 8 * length nulls)%nat →
  Forall2 (code_of keys) codes (col_rows nulls vs) →
  foldM (verify_block TypeString (length keys)) st (fixed_blocks enc_u32 nulls codes)
  = Ret (foldl string_step st (col_rows nulls codes)).
Proof.
  intros Hfit Hl Hc Hcodes. apply blocks_fold; [lia|]. intros s st' Hs.
  destruct (sub_bm_covers nulls s codes Hs) as [Hcov _]; [lia|].
  apply verify_string_rows; [done|apply Forall_blk; by eapply code_of_in32|].
  intros i v Hv Hb. destruct (sub_bm_spec nulls s (length (blk s codes))) as (_ & _ & Hbit).
  { pose proof (block_end_spec _ _ Hs). pose proof (length_blk _ _ Hs). lia. }
  rewrite Hbit in Hb. apply andb_true_iff in Hb as [_ Hb].
  assert (Hv' : codes !! (s + i)%nat = Some v).
  { unfold blk in Hv. apply lookup_take_Some in Hv as [Hv _]. by rewrite lookup_drop in Hv. }
  by eapply code_of_valid.
Qed.

Lemma verify_stored_string file n m nulls vs keys codes f fuel :
  string_stored n file m nulls vs keys codes → Type_ f = TypeString →
  length vs = n → (n ≤ 8 * length nulls)%nat → Z.of_nat (length file) < 2 ^ 63 →
  (length (block_starts n) < fuel)%nat →
  let cr := freshColumn file f m n in
  readDictionary cr = Ret (mkDictionary (dict_offsets keys) (dict_data keys) []) ∧
  ∃ st, verify_loop fuel TypeString (length keys) cr (zeroZoneMap, 0, 0, 0) 0 = Ret (st, n) ∧
    verify_finish TypeString (length keys) st = Stats m.
Proof.
  intros (Hnd & Hfit & Hin & Hlc & Hcodes & Hsec & ->) Hf Hl Hcover Hsz Hfuel cr.
  split; [by eapply read_stored_dict|].
  assert (Hr : readBlocks fuel cr = Ret (fixed_blocks enc_u32 nulls codes)).
  { eapply read_stored_fixed; try done; rewrite ?Hf; try done; try lia. intros. apply le_bytes_ok. }
  eexists. rewrite (verify_loop_readBlocks _ _ _ _ _ _ _ Hr).
  rewrite (verify_string_column keys nulls vs) by (done || lia). cbn [mbind go_bind].
  unfold fixed_blocks at 1. rewrite blocks_rows by done.
  split; [by rewrite Hlc, Hl|].
  pose proof (foldl_string (col_rows nulls codes) zeroZoneMap 0 0 0) as H.
  destruct (foldl string_step _ _) as [[[z s] mn] mx].
  destruct H as (H1 & H2 & H3 & H4 & H5). rewrite (null_count_shape nulls codes vs Hlc) in H1.
  unfold verify_finish, string_stats. case_decide as Hk; [by rewrite H1, H2|].
  assert (H6 : HasMinMax z = false).
  { apply H5; [done|]. destruct (row_values (col_rows nulls codes)) as [|c l] eqn:E; [done|].
    assert (Hc : c ∈ row_values (col_rows nulls codes)) by (rewrite E; by left).
    apply elem_of_row_values, list_elem_of_lookup in Hc as [i Hi].
    unfold col_rows in Hi. rewrite list_lookup_imap in Hi.
    destruct (codes !! i) as [c'|] eqn:Ec; [|done]. cbn in Hi.
    destruct (bit_valid nulls i) eqn:Eb; [|done].
    pose proof (code_of_valid _ _ _ _ _ _ Hcodes Ec Eb). lia. }
  destruct z as [zn zs zm zx zh]. cbn in *. by subst.
Qed.

(** Streaming and folding a stored column recomputes its zone map. *)
Lemma verify_stored file t n m d f fuel :
  stored file t n m d → Type_ f = t → Z.of_nat (length file) < 2 ^ 63 →
  (length (block_starts n) < fuel)%nat →
  let cr := freshColumn file f m n in
  ∃ dl st,
    (if decide (Type_ f = TypeString) then dict ← readDictionary cr; Ret (d_Len dict) else Ret 0%nat)
      = Ret dl ∧
    verify_loop fuel t dl cr (zeroZoneMap, 0, 0, 0) 0 = Ret (st, n) ∧
    verify_finish t dl st = Stats m.
Proof.
  intros Hst Htf Hsz Hfuel cr. pose proof (stored_reads _ _ _ _ _ _ Hst Htf Hsz fuel Hfuel) as Hr.
  fold cr in Hr. destruct Hst as ((Hcover & Hd) & Ht & H). destruct d as [nulls values].
  cbn [fst snd] in *. destruct values; [| | | | |done]; destruct t; try done; rewrite Htf.
  - exists 0%nat. destruct H as [_ ->], Hd as [Hl Hv]. subst n. eexists. split; [done|].
    rewrite (verify_loop_readBlocks _ _ _ _ _ _ _ Hr). unfold fixed_blocks.
    erewrite (blocks_fold _ (lift_step int64_step)); [|done|].
    + cbn [mbind go_bind]. rewrite blocks_rows by done. split; [done|]. by rewrite foldl_lift.
    + intros s st' Hs. destruct (sub_bm_covers nulls s vs Hs Hcover).
      apply verify_int64_rows; [done|by apply Forall_blk].
  - exists 0%nat. destruct H as [_ ->], Hd as [Hl Hv]. subst n. eexists. split; [done|].
    rewrite (verify_loop_readBlocks _ _ _ _ _ _ _ Hr). unfold fixed_blocks.
    erewrite (blocks_fold _ float64_step); [|done|].
    + cbn [mbind go_bind]. rewrite blocks_rows by done. split; [done|].
      destruct (foldl float64_step _ _) as [[[z sF] mn] mx]. cbn. by destruct (HasMinMax z) eqn:E; rewrite ?E.
    + intros s st' Hs. destruct (sub_bm_covers nulls s vs Hs Hcover).
      apply verify_float64_rows; [done|by apply Forall_blk].
  - exists 0%nat. destruct H as [_ ->]. cbn in Hd. subst n. eexists. split; [done|].
    rewrite (verify_loop_readBlocks _ _ _ _ _ _ _ Hr). unfold bool_blocks.
    erewrite (blocks_fold (V := bool)); [|done|].
    + cbn [mbind go_bind]. rewrite blocks_rows by done. split; [done|]. by rewrite foldl_bool.
    + intros s st' Hs. destruct (sub_bm_covers nulls s vs Hs Hcover). by apply verify_bool_rows.
  - destruct H as (keys & codes & H), Hd as [Hl _].
    destruct (verify_stored_string file n m nulls vs keys codes f fuel H Htf Hl Hcover Hsz Hfuel)
      as (Hdict & st & Hloop & Hfin).
    exists (length keys), st. split; [|done]. fold cr in Hdict. rewrite Hdict. cbn [mbind go_bind].
    unfold d_Len. cbn [Offsets]. by rewrite length_dict_offsets.
  - exists 0%nat. destruct H as [_ ->], Hd as [Hl Hv]. subst n. eexists. split; [done|].
    rewrite (verify_loop_readBlocks _ _ _ _ _ _ _ Hr). unfold fixed_blocks.
    erewrite (blocks_fold _ (lift_step date_step)); [|done|].
    + cbn [mbind go_bind]. rewrite blocks_rows by done. split; [done|]. by rewrite foldl_lift.
    + intros s st' Hs. destruct (sub_bm_covers nulls s vs Hs Hcover).
      apply verify_date_rows; [done|by apply Forall_blk].
Qed.

(** ** Properties *)

(** C16: The integrity check accepts every file the writer produces.  After any
    legal session and a successful [Finish], recomputing the zone map of every
    column of every row group from the stored blocks gives exactly the zone map
    in the footer, so [VerifyColumnStats] reports no error. *)
Theorem verify_accepts_written path schema fs ops io fuel :
  Z.of_nat (length schema) < 2 ^ 32 → Forall field_fits schema →
  legal schema emptySession ops →
  s_open (spec_ops schema emptySession ops) = None →
  Z.of_nat (length (s_done (spec_ops schema emptySession ops))) < 2 ^ 32 →
  (let w := run_ops (NewWriter path schema fs).1 ops in
   Z.of_nat (length (w_out w ++ marshalFooter w)) < 2 ^ 63) →
  allOK io →
  ∃ fs' r,
    Finish io (run_ops (NewWriter path schema fs).1 ops) (NewWriter path schema fs).2
    = (Ret (), fs') ∧
    Open fs' path = Ret r ∧
    ∀ g i n ds, s_done (spec_ops schema emptySession ops) !! g = Some (n, ds) →
      (i < length schema)%nat → (length (block_starts n) < fuel)%nat →
      VerifyColumnStats fuel r (Z.of_nat g) (Z.of_nat i) = Ret ().
Proof.
  intros Hsch Hf Hl Ho Hrg Hsz Hio.
  destruct (run_ops_repr path schema _ _ ops (repr_new path schema fs) Hl) as [Hr _].
  destruct (open_finished path schema _ _ io (NewWriter path schema fs).2 Hr)
    as (fs' & r & ? & ? & Hfr); try done.
  exists fs', r. split; [done|]. split; [done|]. intros g i n ds Hg Hi Hfuel.
  pose proof Hfr as (Hs & Hfsz & Hd).
  destruct (Forall2_lookup_r _ _ _ _ _ Hd Hg) as (rg0 & _ & _ & _ & _ & _ & Hlc & _).
  cbn [fst snd] in Hlc. rewrite length_fmap in Hlc.
  destruct (lookup_lt_is_Some_2 schema i Hi) as [f Hfi].
  destruct (lookup_lt_is_Some_2 ds i) as [d Hdi]; [lia|].
  destruct (file_repr_column _ _ _ _ _ _ _ _ _ Hfr Hg Hdi Hfi)
    as (rg & m & Hrgi & Hn & Hm & Hst & Hopen).
  destruct (verify_stored _ _ _ _ _ f fuel Hst eq_refl Hfsz Hfuel) as (dl & st & Hdl & Hloop & Hfin).
  unfold VerifyColumnStats, ComputeColumnStats. rewrite Hopen, Hs, !Nat2Z.id. cbn [mbind go_bind].
  rewrite (index_Ret _ _ _ Hfi). cbn [mbind go_bind]. cbn [mbind go_bind] in Hdl. rewrite Hdl.
  cbn [mbind go_bind]. rewrite Hloop. cbn [mbind go_bind].
  rewrite (index_Ret _ _ _ Hrgi). cbn [mbind go_bind].
  rewrite decide_False by auto. cbn [mbind go_bind].
  rewrite (index_Ret _ _ _ Hm). cbn [mbind go_bind]. by rewrite Hfin, decide_True.
Qed.

Lemma verify_accepts_written_witness :
  ∃ fs' r,
    Finish demo_io (run_ops (NewWriter "t" demo_schema ∅).1 demo_ops)
      (NewWriter "t" demo_schema ∅).2 = (Ret (), fs') ∧
    Open fs' "t" = Ret r ∧
    ∀ g i n ds, s_done (spec_ops demo_schema emptySession demo_ops) !! g = Some (n, ds) →
      (i < 2)%nat → (length (block_starts n) < 5)%nat →
      VerifyColumnStats 5 r (Z.of_nat g) (Z.of_nat i) = Ret ().
Proof.
  apply (verify_accepts_written "t" demo_schema ∅ demo_ops demo_io 5).
  - reflexivity.
  - repeat constructor.
  - exact demo_legal.
  - reflexivity.
  - reflexivity.
  - vm_compute. reflexivity.
  - repeat split.
Defined.

(** The rows a fixed-width block of 8-byte integers decodes to. *)
Definition int64_block_rows (b : Block) : list (option Z) :=
  let '(nulls, payload, n) := b in
  (λ i, if bit_valid (default [] nulls) i then Some (to_i64 (le_val (take 8 (drop (i * 8) payload))))
        else None) <$> seq 0 n.

Lemma verify_int64_inv nulls payload st i st' :
  verify_int64 nulls payload st i = Ret st' →
  st' = lift_step int64_step st
    (if bit_valid nulls i then Some (to_i64 (le_val (take 8 (drop (i * 8) payload)))) else None).
Proof.
  unfold verify_int64, GetUint64, LE_Uint. case_decide; [|done]. cbn [mbind go_bind].
  destruct (decide (i / 8 < length nulls)%nat) as [Hi|Hi].
  - rewrite IsNullBit_Ret by done. cbn [mbind go_bind]. destruct st as [[[z sF] mn] mx].
    destruct (bit_valid nulls i); cbn [negb]; intros [= <-]; [|done].
    unfold lift_step, int64_step. by destruct (HasMinMax z).
  - unfold IsNullBit, index. by rewrite (lookup_ge_None_2 nulls) by lia.
Qed.
Lemma verify_int64_block_inv d st b st' :
  verify_block TypeInt64 d st b = Ret st' →
  st' = foldl (lift_step int64_step) st (int64_block_rows b).
Proof.
  destruct b as [[nulls payload] n]. cbn [verify_block int64_block_rows].
  generalize (seq 0 n) as l. intros l. revert st. induction l as [|k l IH]; intros st H;
    [by injection H as <-|].
  cbn [foldM] in H. apply go_bind_Ret_inv in H as (st1 & H1 & H2).
  apply verify_int64_inv in H1 as ->. cbn [fmap list_fmap foldl]. by apply IH.
Qed.
Lemma verify_int64_loop_inv fuel d cr st rows st' rows' :
  verify_loop fuel TypeInt64 d cr st rows = Ret (st', rows') →
  ∃ bs, readBlocks fuel cr = Ret bs ∧
    st' = foldl (lift_step int64_step) st (concat (int64_block_rows <$> bs)) ∧
    rows' = (rows + list_sum (snd <$> bs))%nat.
Proof.
  revert cr st rows. induction fuel as [|fuel IH]; intros cr st rows H; [done|].
  cbn [verify_loop readBlocks] in *. destruct (NextBlock cr) as [[b|e| |] cr']; try done.
  - apply go_bind_Ret_inv in H as (st1 & H1 & H2). apply verify_int64_block_inv in H1 as ->.
    destruct (IH _ _ _ H2) as (bs & -> & -> & ->). exists (b :: bs).
    cbn [mbind go_bind fmap list_fmap concat list_sum foldr]. split; [done|].
    rewrite foldl_app. split; [done|]. by rewrite Nat.add_assoc.
  - destruct e; try done. injection H as <- <-. exists []. split; [done|]. split; [done|].
    cbn. lia.
Qed.

(** A passing check can be trusted.  If [VerifyColumnStats] reports no error
    for an INT64 column of any file, however it came about, then every block
    was readable and checksummed, the column holds exactly the row count the
    footer declares, and the footer's zone map is exact for the rows in the
    file: NULL count, sum modulo 2^64, and attained, enclosing bounds. *)
Lemma verify_int64_sound fuel r g i rg m f :
  VerifyColumnStats fuel r (Z.of_nat g) (Z.of_nat i) = Ret () →
  RowGroups (r_meta r) !! g = Some rg → Columns rg !! i = Some m →
  fm_Schema (r_meta r) !! i = Some f → Type_ f = TypeInt64 →
  ∃ cr bs, OpenColumn r (Z.of_nat g) (Z.of_nat i) = Ret cr ∧ readBlocks fuel cr = Ret bs ∧
    list_sum (snd <$> bs) = NumRows rg ∧
    let rows := concat (int64_block_rows <$> bs) in
    NullCount (Stats m) = null_count rows ∧ Sum (Stats m) = to_i64 (zsum (row_values rows)) ∧
    zm_extremes to_i64 rows (Stats m).
Proof.
  intros H Hrg Hm Hf Ht. unfold VerifyColumnStats, ComputeColumnStats in H.
  destruct (OpenColumn r _ _) as [cr| | |] eqn:Ho; try done. cbn [mbind go_bind] in H.
  rewrite !Nat2Z.id, (index_Ret _ _ _ Hf), (index_Ret _ _ _ Hrg) in H. cbn [mbind go_bind] in H.
  rewrite decide_False in H by by rewrite Ht. cbn [mbind go_bind] in H.
  destruct (verify_loop _ _ _ _ _ _) as [[st rows]| | |] eqn:Hl; try done. cbn [mbind go_bind] in H.
  case_decide as Hrows; [done|]. cbn [mbind go_bind] in H.
  rewrite (index_Ret _ _ _ Hm) in H. cbn [mbind go_bind] in H. case_decide as Hst; [|done].
  rewrite Ht in Hl, Hst. apply verify_int64_loop_inv in Hl as (bs & Hbs & -> & ->).
  exists cr, bs. split; [done|]. split; [done|]. split; [exact Hrows|].
  rewrite <- Hst, foldl_lift. cbn [verify_finish]. apply int64_stats_spec.
  apply Forall_forall. intros v Hv%elem_of_row_values. apply list_elem_of_In, in_concat in Hv as (l & Hl & Hv).
  apply list_elem_of_In in Hl, Hv.
  apply list_elem_of_fmap in Hl as ([[nulls payload] k] & -> & _).
  apply list_elem_of_fmap in Hv as (j & E & _). destruct (bit_valid _ j); [|done].
  injection E as ->. by apply (wrapS_in 64).
Qed.

Definition demo_reader : Reader :=
  mkReader demo_file (mkFileMeta [mkField "id" TypeInt64 EncPlain false]
    [mkRowGroupMeta 4 3 [demo_meta]]).

Lemma verify_int64_sound_witness :
  ∃ cr bs, OpenColumn demo_reader 0 0 = Ret cr ∧ readBlocks 5 cr = Ret bs ∧
    list_sum (snd <$> bs) = 3%nat ∧
    let rows := concat (int64_block_rows <$> bs) in
    NullCount (Stats demo_meta) = null_count rows ∧
    Sum (Stats demo_meta) = to_i64 (zsum (row_values rows)) ∧
    zm_extremes to_i64 rows (Stats demo_meta).
Proof.
  apply (verify_int64_sound 5 demo_reader 0 0 (mkRowGroupMeta 4 3 [demo_meta]) demo_meta
    (mkField "id" TypeInt64 EncPlain false));
    [vm_compute; reflexivity|reflexivity|reflexivity|reflexivity|reflexivity].
Defined.
