(* ===== verification/Ast.v ===== *)
(** * Package sql: the syntax tree ([sql/ast.go])

    Interfaces whose value may be nil are options.  The statement and its parts
    are mutually inductive with expressions because of subqueries. *)
From Stdlib Require Import ZArith.
From stdpp Require Import base numbers list strings.
From S2P Require Import Prelude.
#[local] Open Scope Z_scope.

Inductive BinOp : Type :=
  | OpEQ | OpNE | OpLT | OpLE | OpGT | OpGE | OpAnd | OpOr | OpAdd | OpSub | OpMul | OpDiv.
#[export] Instance BinOp_eq_dec : EqDecision BinOp.
Proof. solve_decision. Defined.
Inductive UnaryOp : Type := OpNot | OpMinus.
#[export] Instance UnaryOp_eq_dec : EqDecision UnaryOp.
Proof. solve_decision. Defined.

(** [string(op)]. *)
Definition BinOp_text (op : BinOp) : string :=
  match op with
  | OpEQ => "=" | OpNE => "<>" | OpLT => "<" | OpLE => "<=" | OpGT => ">" | OpGE => ">="
  | OpAnd => "AND" | OpOr => "OR" | OpAdd => "+" | OpSub => "-" | OpMul => "*" | OpDiv => "/"
  end.
Definition UnaryOp_text (op : UnaryOp) : string :=
  match op with OpNot => "NOT" | OpMinus => "-" end.

Record TableRef : Type := mkTableRef { tr_Name : string; tr_Alias : string }.

Inductive Expr : Type :=
  | ColumnRefExpr (Table Name : string)
  | StarExpr
  | IntLiteral (Value : Z)
  | FloatLiteral (Value : Z)      (* float64 bits *)
  | StringLiteral (Value : string)
  | BoolLiteral (Value : bool)
  | NullLiteral
  | BinaryExpr (Op : BinOp) (Left Right : Expr)
  | UnaryExpr (Op : UnaryOp) (X : Expr)
  | IsNullExpr (X : Expr) (IsNot : bool)
  | BetweenExpr (X Lo Hi : Expr) (Not : bool)
  | InExpr (X : Expr) (List : list Expr) (Not : bool)
  | LikeExpr (X Pattern : Expr) (Not : bool)
  | AggFuncExpr (Func : string) (Arg : option Expr) (Distinct : bool)
  | FuncExpr (Func : string) (Args : list Expr)
  | CaseExpr (Whens : list WhenClause) (Else : option Expr)
  | SubqueryExpr (Query : SelectStmt)
with WhenClause : Type :=
  | mkWhen (Cond Result : Expr)
with SelectStmt : Type :=
  | mkSelect (Distinct : bool) (Columns : list SelectColumn) (From : list TableRef)
      (Where Having : option Expr) (GroupBy : list Expr) (OrderBy : list OrderByItem)
      (Limit Offset : option Z)
with SelectColumn : Type :=
  | mkSelectColumn (X : Expr) (Alias : string)
with OrderByItem : Type :=
  | mkOrderBy (X : Expr) (Descending : bool).
