(* ===== verification/Lexer.v ===== *)
(** * Package sql: the lexer ([sql/lexer.go])

    [l.src[l.pos:]] is the list of the bytes still to read, beside the position
    [l.pos].  A scan may fail after advancing, so every operation returns the
    new state beside its outcome. *)
From Stdlib Require Import ZArith Lia ZifyNat Ascii.
From stdpp Require Import base numbers list strings.
From S2P Require Import Prelude.
#[local] Open Scope Z_scope.

Inductive TokenKind : Type :=
  | TokEOF | TokIdent | TokInt | TokFloat | TokString
  | TokLParen | TokRParen | TokComma | TokDot | TokStar | TokSemicolon
  | TokEQ | TokNE | TokLT | TokLE | TokGT | TokGE | TokPlus | TokMinus | TokSlash
  | TokSELECT | TokFROM | TokWHERE | TokGROUP | TokBY | TokORDER | TokLIMIT | TokAS
  | TokAND | TokOR | TokNOT | TokIN | TokIS | TokNULL | TokTRUE | TokFALSE | TokBETWEEN
  | TokLIKE | TokCASE | TokWHEN | TokTHEN | TokELSE | TokEND | TokDISTINCT | TokASC | TokDESC
  | TokINNER | TokJOIN | TokON | TokLEFT | TokRIGHT | TokOUTER | TokCROSS | TokHAVING
  | TokOFFSET | TokUNION | TokINTERSECT | TokEXCEPT.
#[export] Instance TokenKind_eq_dec : EqDecision TokenKind.
Proof. solve_decision. Defined.

Definition keywords : list (string * TokenKind) :=
  [("SELECT", TokSELECT); ("FROM", TokFROM); ("WHERE", TokWHERE); ("GROUP", TokGROUP);
   ("BY", TokBY); ("ORDER", TokORDER); ("LIMIT", TokLIMIT); ("AS", TokAS); ("AND", TokAND);
   ("OR", TokOR); ("NOT", TokNOT); ("IN", TokIN); ("IS", TokIS); ("NULL", TokNULL);
   ("TRUE", TokTRUE); ("FALSE", TokFALSE); ("BETWEEN", TokBETWEEN); ("LIKE", TokLIKE);
   ("CASE", TokCASE); ("WHEN", TokWHEN); ("THEN", TokTHEN); ("ELSE", TokELSE); ("END", TokEND);
   ("DISTINCT", TokDISTINCT); ("ASC", TokASC); ("DESC", TokDESC); ("INNER", TokINNER);
   ("JOIN", TokJOIN); ("ON", TokON); ("LEFT", TokLEFT); ("RIGHT", TokRIGHT);
   ("OUTER", TokOUTER); ("CROSS", TokCROSS); ("HAVING", TokHAVING); ("OFFSET", TokOFFSET);
   ("UNION", TokUNION); ("INTERSECT", TokINTERSECT); ("EXCEPT", TokEXCEPT)]%string.
Definition keyword (text : string) : option TokenKind :=
  snd <$> (snd <$> list_find (λ p, p.1 = text) keywords).

(** [tok.Kind >= TokSELECT]. *)
Definition is_keyword (k : TokenKind) : bool := bool_decide (k ∈ keywords.*2).

Record Token : Type := mkToken { Kind : TokenKind; Text : string; Pos : Z }.
Definition zeroToken : Token := mkToken TokEOF "" 0.

Record Lexer : Type := mkLexer { l_rest : list ascii; l_pos : Z; l_peek : option Token }.

Definition NewLexer (src : string) : Lexer := mkLexer (String.list_ascii_of_string src) 0 None.

(** ** Character classes *)

Definition code (c : ascii) : Z := Z.of_nat (nat_of_ascii c).
Definition isDigit (c : ascii) : bool := (48 <=? code c) && (code c <=? 57).
(** A byte above 127 decodes to the replacement character, which is no letter. *)
Definition isLetter (c : ascii) : bool :=
  ((65 <=? code c) && (code c <=? 90)) || ((97 <=? code c) && (code c <=? 122)) || (code c =? 95).
Definition isSpace (c : ascii) : bool :=
  (code c =? 32) || (code c =? 9) || (code c =? 10) || (code c =? 13).
Definition isIdentChar (c : ascii) : bool := isLetter c || isDigit c || (code c =? 95).

(** [strings.ToUpper] on ASCII text. *)
Definition upper_ascii (c : ascii) : ascii :=
  if (97 <=? code c) && (code c <=? 122) then ascii_of_nat (nat_of_ascii c - 32) else c.
Definition text_of (cs : list ascii) : string := String.string_of_list_ascii cs.
Definition ToUpper (s : string) : string :=
  text_of (upper_ascii <$> String.list_ascii_of_string s).

(** ** Loops over the remaining bytes: what is read, what is left *)

Fixpoint span (f : ascii → bool) (cs : list ascii) : list ascii * list ascii :=
  match cs with
  | c :: cs' => if f c then let '(a, b) := span f cs' in (c :: a, b) else ([], cs)
  | [] => ([], [])
  end.

(** The rest of a line comment, up to its newline. *)
Definition skipLine (cs : list ascii) : list ascii :=
  (span (λ c, negb (code c =? 10)) cs).2.
(** The rest of a block comment: past its [*/]; without one, at its last byte. *)
Fixpoint skipBlock (cs : list ascii) : list ascii :=
  match cs with
  | a :: ((b :: cs'') as cs') =>
      if (code a =? 42) && (code b =? 47) then cs'' else skipBlock cs'
  | _ => cs
  end.

Fixpoint skipWhitespaceAndComments (fuel : nat) (cs : list ascii) : list ascii :=
  match fuel with
  | O => cs
  | S fuel =>
      match cs with
      | [] => []
      | c :: cs' =>
          if isSpace c then skipWhitespaceAndComments fuel cs' else
          match cs' with
          | d :: cs'' =>
              if (code c =? 45) && (code d =? 45) then
                skipWhitespaceAndComments fuel (skipLine cs)
              else if (code c =? 47) && (code d =? 42) then
                skipWhitespaceAndComments fuel (skipBlock cs'')
              else cs
          | [] => cs
          end
      end
  end.

(** The body of a string literal after its opening quote. *)
Fixpoint scanString (cs : list ascii) (sb : list ascii) : option (list ascii * list ascii) :=
  match cs with
  | [] => None
  | c :: cs' =>
      if code c =? 39 then
        match cs' with
        | d :: cs'' => if code d =? 39 then scanString cs'' (sb ++ [c]) else Some (sb, cs')
        | [] => Some (sb, cs')
        end
      else scanString cs' (sb ++ [c])
  end.

Fixpoint scanQuotedIdent (delim : ascii) (cs : list ascii) (sb : list ascii)
    : option (list ascii * list ascii) :=
  match cs with
  | [] => None
  | c :: cs' =>
      if decide (c = delim) then Some (sb, cs') else scanQuotedIdent delim cs' (sb ++ [c])
  end.

(** [scanNumber]: the text, whether it is a float, what is left. *)
Fixpoint scanNumber (cs : list ascii) (isFloat : bool) : list ascii * bool * list ascii :=
  match cs with
  | [] => ([], isFloat, [])
  | c :: cs' =>
      if isDigit c then
        let '(t, fl, r) := scanNumber cs' isFloat in (c :: t, fl, r)
      else if (code c =? 46) && negb isFloat then
        let '(t, fl, r) := scanNumber cs' true in (c :: t, fl, r)
      else if (code c =? 101) || (code c =? 69) then
        match cs' with
        | d :: cs'' =>
            if (code d =? 43) || (code d =? 45) then
              let '(t, fl, r) := scanNumber cs'' true in (c :: d :: t, fl, r)
            else let '(t, fl, r) := scanNumber cs' true in (c :: t, fl, r)
        | [] => ([c], true, [])
        end
      else ([], isFloat, cs)
  end.

(** ** Scanning *)

Definition punct (c : ascii) : option TokenKind :=
  match code c with
  | 40 => Some TokLParen | 41 => Some TokRParen | 44 => Some TokComma | 46 => Some TokDot
  | 42 => Some TokStar | 59 => Some TokSemicolon | 43 => Some TokPlus | 45 => Some TokMinus
  | 47 => Some TokSlash | 61 => Some TokEQ
  | _ => None
  end.

(** The lexer after [scan] stopped with [rest] left, out of [cs] at [pos]. *)
Definition at_rest (l : Lexer) (rest : list ascii) : Lexer :=
  mkLexer rest (l_pos l + Z.of_nat (length (l_rest l) - length rest)) (l_peek l).

Definition is_next (cs : list ascii) (x : Z) : bool :=
  match cs with c :: _ => code c =? x | [] => false end.

(** [scan] on the bytes after blanks and comments: token kind and text, or an
    error, and what is left. *)
Definition scan_token (cs : list ascii) : go (TokenKind * string) * list ascii :=
  match cs with
  | [] => (Ret (TokEOF, ""%string), [])
  | ch :: rest =>
      if code ch =? 39 then
        match scanString rest [] with
        | Some (s, r) => (Ret (TokString, text_of s), r)
        | None => (Err (ErrMsg "sql: unterminated string"), [])
        end
      else if (code ch =? 34) || (code ch =? 96) then
        match scanQuotedIdent ch rest [] with
        | Some (s, r) => (Ret (TokIdent, text_of s), r)
        | None => (Err (ErrMsg "sql: unterminated quoted identifier"), [])
        end
      else if isDigit ch then
        let '(t, fl, r) := scanNumber cs false in
        (Ret (if (fl : bool) then TokFloat else TokInt, text_of t), r)
      else if isLetter ch then
        let '(t, r) := span isIdentChar cs in
        let text := text_of t in
        let upper := ToUpper text in
        match keyword upper with
        | Some kw => (Ret (kw, upper), r)
        | None => (Ret (TokIdent, text), r)
        end
      else
        match punct ch with
        | Some k => (Ret (k, text_of [ch]), rest)
        | None =>
            if code ch =? 60 then
              if is_next rest 61 then (Ret (TokLE, "<="%string), tail rest)
              else if is_next rest 62 then (Ret (TokNE, "<>"%string), tail rest)
              else (Ret (TokLT, "<"%string), rest)
            else if code ch =? 62 then
              if is_next rest 61 then (Ret (TokGE, ">="%string), tail rest)
              else (Ret (TokGT, ">"%string), rest)
            else if (code ch =? 33) && is_next rest 61 then
              (Ret (TokNE, "!="%string), tail rest)
            else (Err (ErrMsg "sql: unexpected character"), rest)
        end
  end.

Definition scan (l : Lexer) : go Token * Lexer :=
  let l := at_rest l (skipWhitespaceAndComments (S (length (l_rest l))) (l_rest l)) in
  let start := l_pos l in
  let '(res, rest) := scan_token (l_rest l) in
  (match res with
   | Ret (k, text) => Ret (mkToken k text start)
   | Err e => Err e | Panic => Panic | OutOfFuel => OutOfFuel
   end, at_rest l rest).

Definition Peek (l : Lexer) : go Token * Lexer :=
  match l_peek l with
  | Some tok => (Ret tok, l)
  | None =>
      match scan l with
      | (Ret tok, l) => (Ret tok, mkLexer (l_rest l) (l_pos l) (Some tok))
      | r => r
      end
  end.

Definition Next (l : Lexer) : go Token * Lexer :=
  match l_peek l with
  | Some tok => (Ret tok, mkLexer (l_rest l) (l_pos l) None)
  | None => scan l
  end.

(** All tokens up to the end of the input. *)
Fixpoint lex_all (fuel : nat) (l : Lexer) : go (list Token) :=
  match fuel with
  | O => OutOfFuel
  | S fuel =>
      match Next l with
      | (Ret t, l) => if decide (Kind t = TokEOF) then Ret [] else ts ← lex_all fuel l; Ret (t :: ts)
      | (Err e, _) => Err e | (Panic, _) => Panic | (OutOfFuel, _) => OutOfFuel
      end
  end.

Definition lex_demo : list (TokenKind * string * Z) :=
  match lex_all 20 (NewLexer "select 'it''s', 1.5e3 -- c
 <> /* x */ `a b`") with
  | Ret ts => map (λ t, (Kind t, Text t, Pos t)) ts
  | _ => []
  end.
Example lex_example : lex_demo =
  [(TokSELECT, "SELECT", 0); (TokString, "it's", 7); (TokComma, ",", 14);
   (TokFloat, "1.5e3", 16); (TokNE, "<>", 28); (TokIdent, "a b", 39)]%string.
Proof. vm_compute. reflexivity. Qed.

(** A block comment that is never closed gives back its last byte. *)
Example unterminated_comment :
  (ts ← lex_all 20 (NewLexer "a /* b"); Ret (map Text ts)) = Ret ["a"; "b"]%string.
Proof. vm_compute. reflexivity. Qed.

(** ** Lemmas: progress *)

Lemma length_span f cs : (length (span f cs).1 + length (span f cs).2 = length cs)%nat.
Proof.
  induction cs as [|c cs IH]; [done|]. simpl. destruct (f c); [|done].
  destruct (span f cs). simpl in *. lia.
Qed.
Lemma length_skipLine cs : (length (skipLine cs) ≤ length cs)%nat.
Proof. unfold skipLine. pose proof (length_span (λ c, negb (code c =? 10)) cs). lia. Qed.
Lemma skipBlock_cons a b cs :
  skipBlock (a :: b :: cs) = if (code a =? 42) && (code b =? 47) then cs else skipBlock (b :: cs).
Proof. done. Qed.
Lemma length_skipBlock cs : (length (skipBlock cs) ≤ length cs)%nat.
Proof.
  induction cs as [|a cs IH]; [done|]. destruct cs as [|b cs]; [done|]. rewrite skipBlock_cons.
  destruct (_ && _); cbn [length] in *; lia.
Qed.
Lemma length_skip fuel cs : (length (skipWhitespaceAndComments fuel cs) ≤ length cs)%nat.
Proof.
  revert cs. induction fuel as [|fuel IH]; intros cs; [done|]. cbn [skipWhitespaceAndComments].
  destruct cs as [|c cs]; [done|]. destruct (isSpace c); [etrans; [apply IH|simpl; lia]|].
  destruct cs as [|d cs]; [done|].
  destruct ((code c =? 45) && _); [etrans; [apply IH|apply length_skipLine]|].
  destruct (_ && _); [|done]. etrans; [apply IH|]. etrans; [apply length_skipBlock|]. simpl. lia.
Qed.

Lemma length_scanString n cs sb s r :
  (length cs ≤ n)%nat → scanString cs sb = Some (s, r) → (length r < length cs)%nat.
Proof.
  revert cs sb. induction n as [|n IH]; intros cs sb Hn H; destruct cs as [|c cs]; try done;
    [simpl in Hn; lia|]. cbn [length] in *. cbn [scanString] in H.
  destruct (code c =? 39).
  - destruct cs as [|d cs]; [injection H as <- <-; simpl; lia|].
    cbn [length] in *. destruct (code d =? 39); [|injection H as <- <-; simpl; lia].
    apply IH in H; lia.
  - apply IH in H; lia.
Qed.
Lemma length_scanQuotedIdent d cs sb s r :
  scanQuotedIdent d cs sb = Some (s, r) → (length r < length cs)%nat.
Proof.
  revert sb. induction cs as [|c cs IH]; intros sb H; [done|]. cbn [scanQuotedIdent] in H.
  case_decide; [injection H as <- <-; simpl; lia|]. apply IH in H. simpl. lia.
Qed.
Lemma length_scanNumber n cs fl :
  (length cs ≤ n)%nat →
  let '(t, _, r) := scanNumber cs fl in (length t + length r = length cs)%nat.
Proof.
  revert cs fl. induction n as [|n IH]; intros cs fl Hn; destruct cs as [|c cs]; try done;
    [simpl in Hn; lia|]. cbn [length] in Hn. cbn [scanNumber].
  pose proof (IH cs fl ltac:(lia)) as H1. pose proof (IH cs true ltac:(lia)) as H2.
  destruct (scanNumber cs fl) as [[t1 f1] r1], (scanNumber cs true) as [[t2 f2] r2].
  destruct (isDigit c); [simpl; lia|]. destruct (_ && _); [simpl; lia|].
  destruct (_ || _); [|done]. destruct cs as [|d cs]; [done|].
  destruct (_ || _); [|simpl in *; lia]. cbn [length] in Hn.
  pose proof (IH cs true ltac:(lia)) as H3. destruct (scanNumber cs true) as [[t3 f3] r3].
  simpl in *. lia.
Qed.

(** A scan step returns or fails, and eats at least a byte unless at the end. *)
Lemma scan_token_spec cs :
  safe (scan_token cs).1 ∧ (length (scan_token cs).2 ≤ length cs)%nat ∧
  ∀ k s, (scan_token cs).1 = Ret (k, s) → k ≠ TokEOF → (length (scan_token cs).2 < length cs)%nat.
Proof.
  destruct cs as [|ch rest]; [split; [done|]; split; [done|]; intros k s [= <- <-]; done|].
  assert (Hlt : ∀ (res : go (TokenKind * string)) (r : list ascii), safe res → (length r < length (ch :: rest))%nat →
    safe res ∧ (length r ≤ length (ch :: rest))%nat ∧
    ∀ k s, res = Ret (k, s) → k ≠ TokEOF → (length r < length (ch :: rest))%nat)
    by (intros; repeat split; auto; lia).
  cbn [scan_token]. destruct (code ch =? 39).
  { destruct (scanString rest []) as [[s r]|] eqn:E; apply Hlt; try done; [|simpl; lia].
    apply (length_scanString (length rest)) in E; simpl; lia. }
  destruct (_ || _).
  { destruct (scanQuotedIdent ch rest []) as [[s r]|] eqn:E; apply Hlt; try done; [|simpl; lia].
    apply length_scanQuotedIdent in E. simpl. lia. }
  destruct (isDigit ch) eqn:Ed.
  { pose proof (length_scanNumber (length (ch :: rest)) (ch :: rest) false (le_n _)) as H.
    destruct (scanNumber (ch :: rest) false) as [[t fl] r] eqn:E. cbn [scanNumber] in E. rewrite Ed in E.
    destruct (scanNumber rest false) as [[t1 f1] r1]. injection E as <- <- <-.
    apply Hlt; [done|]. simpl in *. lia. }
  destruct (isLetter ch) eqn:El.
  { pose proof (length_span isIdentChar (ch :: rest)) as H.
    destruct (span isIdentChar (ch :: rest)) as [t r] eqn:E. cbn [span] in E.
    unfold isIdentChar in E at 1. rewrite El in E. cbn [orb] in E.
    destruct (span isIdentChar rest). injection E as <- <-.
    destruct (keyword _); apply Hlt; try done; simpl in *; lia. }
  destruct (punct ch); [apply Hlt; [done|simpl; lia]|].
  assert (Ht : (length (tail rest) < length (ch :: rest))%nat) by (destruct rest; simpl; lia).
  repeat case_match; apply Hlt; try done; simpl; lia.
Qed.

(** What is left to read: the bytes, and a token held by [Peek]. *)
Definition rem (l : Lexer) : nat :=
  (length (l_rest l) +
   match l_peek l with Some t => if decide (Kind t = TokEOF) then 0 else 1 | None => 0 end)%nat.

Lemma scan_spec l :
  l_peek l = None →
  safe (scan l).1 ∧ l_peek (scan l).2 = None ∧ (rem (scan l).2 ≤ rem l)%nat ∧
  ∀ t, (scan l).1 = Ret t → Kind t ≠ TokEOF → (rem (scan l).2 < rem l)%nat.
Proof.
  intros Hp. unfold scan. set (cs := skipWhitespaceAndComments _ _).
  assert (Hcs : (length cs ≤ length (l_rest l))%nat) by apply length_skip.
  cbn [at_rest l_rest]. destruct (scan_token_spec cs) as (Hs & Hl & Hlt).
  destruct (scan_token cs) as [res rest]. cbn [fst snd] in *. unfold rem.
  cbn [at_rest l_peek l_rest]. rewrite Hp. split; [by destruct res as [[]| | |]|].
  split; [done|]. split; [lia|]. intros t. destruct res as [[k s]| | |]; try done.
  intros [= <-] Hk. specialize (Hlt k s eq_refl Hk). lia.
Qed.

Lemma Next_spec l :
  safe (Next l).1 ∧ (rem (Next l).2 ≤ rem l)%nat ∧
  ∀ t, (Next l).1 = Ret t → Kind t ≠ TokEOF → (rem (Next l).2 < rem l)%nat.
Proof.
  unfold Next. destruct (l_peek l) as [t|] eqn:Hp.
  - unfold rem. cbn [fst snd l_rest l_peek]. rewrite Hp. split; [done|]. split; [case_decide; lia|].
    intros t' [= <-] Hk. rewrite decide_False by done. lia.
  - destruct (scan_spec l Hp) as (H1 & _ & H2 & H3). done.
Qed.
Lemma Peek_spec l :
  safe (Peek l).1 ∧ (rem (Peek l).2 ≤ rem l)%nat ∧
  ∀ t, (Peek l).1 = Ret t → l_peek (Peek l).2 = Some t.
Proof.
  unfold Peek. destruct (l_peek l) as [t|] eqn:Hp.
  - split; [done|]. split; [done|]. by intros t' [= <-].
  - destruct (scan_spec l Hp) as (H1 & H2 & H3 & H4).
    destruct (scan l) as [[t|e| |] l']; cbn [fst snd] in *; try done.
    split; [done|]. split; [|by intros t' [= <-]].
    unfold rem in *. cbn [l_rest l_peek]. rewrite H2 in *. case_decide as Hk; [lia|].
    specialize (H4 t eq_refl Hk). lia.
Qed.

(** ** Lemmas: string literals *)

(** [strings.ReplaceAll(s, "'", "''")]. *)
Fixpoint doubleQuotes (cs : list ascii) : list ascii :=
  match cs with
  | [] => []
  | c :: cs => if code c =? 39 then c :: c :: doubleQuotes cs else c :: doubleQuotes cs
  end.

Lemma scanString_doubleQuotes cs q rest sb :
  code q = 39 → is_next rest 39 = false →
  scanString (doubleQuotes cs ++ q :: rest) sb = Some (sb ++ cs, rest).
Proof.
  intros Hq Hr. revert sb. induction cs as [|c cs IH]; intros sb.
  - cbn [doubleQuotes app scanString]. rewrite Hq, app_nil_r. cbn [Z.eqb Pos.eqb].
    destruct rest as [|d rest]; [done|]. cbn [is_next] in Hr. by rewrite Hr.
  - cbn [doubleQuotes]. destruct (code c =? 39) eqn:Ec; cbn [app scanString]; rewrite Ec.
    + by rewrite IH, <- app_assoc.
    + by rewrite IH, <- app_assoc.
Qed.

Lemma length_list_ascii_of_string s : length (String.list_ascii_of_string s) = String.length s.
Proof. induction s as [|c s IH]; [done|]. simpl. by rewrite IH. Qed.
Lemma rem_NewLexer src : rem (NewLexer src) = String.length src.
Proof. unfold rem, NewLexer. cbn. by rewrite length_list_ascii_of_string, Nat.add_0_r. Qed.

(** ** Properties *)

(** Lexing always ends.  For every input, with one unit of fuel per byte the
    token stream reaches the end of input or a lexical error; no scan panics. *)
Lemma lex_terminates src fuel :
  (String.length src < fuel)%nat → safe (lex_all fuel (NewLexer src)).
Proof.
  assert (H : ∀ fuel l, (rem l < fuel)%nat → safe (lex_all fuel l)).
  { clear. induction fuel as [|fuel IH]; intros l Hl; [lia|]. cbn [lex_all].
    destruct (Next_spec l) as (Hs & _ & Hlt). destruct (Next l) as [[t|e| |] l']; try done.
    case_decide; [done|]. cbn [fst snd] in Hlt. specialize (IH l' ltac:(specialize (Hlt t eq_refl H); lia)).
    destruct (lex_all fuel l'); done. }
  intros Hf. apply H. by rewrite rem_NewLexer.
Qed.

Lemma lex_terminates_witness : safe (lex_all 12 (NewLexer "select 'abc")).
Proof. apply lex_terminates. apply Nat.ltb_lt. reflexivity. Defined.
