(* ===== verification/Strconv.v ===== *)
(** * The number conversions of the standard library the SQL front end uses

    [strconv.ParseInt] and [ParseFloat] on decimal text, [FormatInt], and
    [FormatFloat(v, 'g', -1, 64)].  A float64 is its bit pattern, see [Float64]. *)
From Stdlib Require Import ZArith Lia ZifyNat Ascii Floats.SpecFloat.
From stdpp Require Import base numbers list strings.
From S2P Require Import Prelude Float64 Lexer.
#[local] Open Scope Z_scope.

Definition digit_val (c : ascii) : Z := code c - 48.
Definition digit_char (d : Z) : ascii := ascii_of_nat (Z.to_nat (48 + d)).

(** At least one digit, nothing else. *)
Fixpoint parseDigits_acc (cs : list ascii) (acc : Z) : option Z :=
  match cs with
  | [] => Some acc
  | c :: cs => if isDigit c then parseDigits_acc cs (acc * 10 + digit_val c) else None
  end.
Definition parseDigits (cs : list ascii) : option Z :=
  match cs with [] => None | _ => parseDigits_acc cs 0 end.

(** [strconv.ParseInt(s, 10, 64)]; [None] is an error. *)
Definition ParseInt (cs : list ascii) : option Z :=
  let '(neg, ds) := match cs with
    | c :: cs' => if code c =? 45 then (true, cs') else if code c =? 43 then (false, cs')
                  else (false, cs)
    | [] => (false, []) end in
  v ← parseDigits ds;
  let v := if (neg : bool) then - v else v in
  if decide (inS 64 v) then Some v else None.

(** The float64 nearest to [num / den], ties to even. *)
Definition f64_of_ratio (neg : bool) (num den : Z) : Z :=
  match num, den with
  | Zpos n, Zpos d =>
      let '(q, e, l) := SFdiv_core_binary 53 1024 (Zpos n) 0 (Zpos d) 0 in
      f64_encode (binary_round_aux 53 1024 neg q e l)
  | _, _ => f64_sign_bit neg
  end.
(** The float64 nearest to [m * 10^e]. *)
Definition f64_of_decimal (neg : bool) (m e : Z) : Z :=
  if 0 <=? e then f64_of_ratio neg (m * 10 ^ e) 1 else f64_of_ratio neg m (10 ^ (- e)).
Definition f64_isInf (b : Z) : bool := (f64_exp b =? 2047) && (f64_man b =? 0).

(** The exponent digits, capped the way [readFloat] caps them. *)
Fixpoint expDigits (cs : list ascii) (acc : Z) : option Z :=
  match cs with
  | [] => Some acc
  | c :: cs =>
      if isDigit c then expDigits cs (if acc <? 10000 then acc * 10 + digit_val c else acc)
      else None
  end.
Definition parseExp (cs : list ascii) : option Z :=
  let '(neg, ds) := match cs with
    | c :: cs' => if code c =? 45 then (true, cs') else if code c =? 43 then (false, cs')
                  else (false, cs)
    | [] => (false, []) end in
  match ds with
  | [] => None
  | _ => e ← expDigits ds 0; Some (if (neg : bool) then - e else e)
  end.

(** [strconv.ParseFloat(s, 64)] on decimal text; [None] is an error. *)
Definition ParseFloat (cs : list ascii) : option Z :=
  let '(neg, cs) := match cs with
    | c :: cs' => if code c =? 45 then (true, cs') else if code c =? 43 then (false, cs')
                  else (false, cs)
    | [] => (false, []) end in
  let '(ip, r) := span isDigit cs in
  let '(fp, r) := match r with
    | c :: r' => if code c =? 46 then span isDigit r' else ([], r)
    | [] => ([], []) end in
  m ← parseDigits (ip ++ fp);
  e ← match r with
      | [] => Some 0
      | c :: r => if (code c =? 101) || (code c =? 69) then parseExp r else None
      end;
  let v := f64_of_decimal neg m (e - Z.of_nat (length fp)) in
  if f64_isInf v then None else Some v.

(** [strconv.FormatInt(v, 10)]. *)
Fixpoint fmtDigits (fuel : nat) (v : Z) (acc : list ascii) : list ascii :=
  match fuel with
  | O => acc
  | S fuel =>
      let acc := digit_char (v mod 10) :: acc in
      if v <? 10 then acc else fmtDigits fuel (v / 10) acc
  end.
Definition fmtNat (v : Z) : list ascii := fmtDigits (S (Z.to_nat (Z.log2 v))) v [].
Definition FormatInt (v : Z) : list ascii :=
  if v <? 0 then ascii_of_nat 45 :: fmtNat (- v) else fmtNat v.

(** ** [FormatFloat(v, 'g', -1, 64)]: the shortest digits that parse back *)

(** [floor (log10 (num / den))], found near its estimate. *)
Definition log10_ratio (num den : Z) : Z :=
  let k := (Z.log2 num - Z.log2 den) * 30103 / 100000 in
  let ge x := if 0 <=? x then den * 10 ^ x <=? num else den <=? num * 10 ^ (- x) in
  let k := k + 2 in
  if ge k then k else if ge (k - 1) then k - 1 else if ge (k - 2) then k - 2
  else if ge (k - 3) then k - 3 else if ge (k - 4) then k - 4 else k - 5.

(** [n] digits of a positive [v = num / den]: the digits as an integer and the
    power of ten that scales it, if some [n]-digit decimal parses back to [v]. *)
Definition shortest_n (v num den n x : Z) : option (Z * Z) :=
  let s := x - n + 1 in
  let '(p, q) := if 0 <=? s then (num, den * 10 ^ s) else (num * 10 ^ (- s), den) in
  let d := p / q in
  let r := p mod q in
  let down := f64_of_decimal false d s =? v in
  let up := f64_of_decimal false (d + 1) s =? v in
  let nearUp := (q <? 2 * r) || ((2 * r =? q) && Z.odd d) in
  if down && up then Some (if nearUp then d + 1 else d, s)
  else if down then Some (d, s) else if up then Some (d + 1, s) else None.
Fixpoint shortest (fuel : nat) (v num den n x : Z) : Z * Z :=
  match fuel with
  | O => (0, 0)
  | S fuel =>
      match shortest_n v num den n x with
      | Some r => r
      | None => shortest fuel v num den (n + 1) x
      end
  end.

(** Digits [ds] with the decimal point after the first [dp] of them. *)
Definition zero_char : ascii := ascii_of_nat 48.
Definition dot_char : ascii := ascii_of_nat 46.
Definition fmtE (ds : list ascii) (e : Z) : list ascii :=
  let m := match ds with [] => [] | [d] => [d] | d :: ds => d :: dot_char :: ds end in
  let a := fmtNat (Z.abs e) in
  m ++ [ascii_of_nat 101; ascii_of_nat (if e <? 0 then 45 else 43)]
  ++ (if Z.abs e <? 10 then zero_char :: a else a).
Definition fmtF (ds : list ascii) (dp : Z) : list ascii :=
  let n := Z.of_nat (length ds) in
  if dp <=? 0 then [zero_char; dot_char] ++ replicate (Z.to_nat (- dp)) zero_char ++ ds
  else if n <=? dp then ds ++ replicate (Z.to_nat (dp - n)) zero_char
  else take (Z.to_nat dp) ds ++ dot_char :: drop (Z.to_nat dp) ds.

Fixpoint strip_zeros (fuel : nat) (d s : Z) : Z * Z :=
  match fuel with
  | O => (d, s)
  | S fuel => if (d mod 10 =? 0) && (0 <? d) then strip_zeros fuel (d / 10) (s + 1) else (d, s)
  end.

Definition FormatFloat (b : Z) : list ascii :=
  match f64_decode b with
  | S754_nan => String.list_ascii_of_string "NaN"
  | S754_infinity s => String.list_ascii_of_string (if s then "-Inf" else "+Inf")
  | S754_zero s => (if s then [ascii_of_nat 45] else []) ++ [zero_char]
  | S754_finite s m e =>
      let '(num, den) := if 0 <=? e then (Zpos m * 2 ^ e, 1) else (Zpos m, 2 ^ (- e)) in
      let '(d, sc) := shortest 18 (b mod 2 ^ 63) num den 1 (log10_ratio num den) in
      let '(d, sc) := strip_zeros 20 d sc in
      let ds := fmtNat d in
      let dp := sc + Z.of_nat (length ds) in
      (if s then [ascii_of_nat 45] else []) ++
      if (dp - 1 <? -4) || (6 <=? dp - 1) then fmtE ds (dp - 1) else fmtF ds dp
  end.

Definition show (cs : list ascii) : string := text_of cs.
Definition parse_show (s : string) : option string :=
  v ← ParseFloat (String.list_ascii_of_string s); Some (show (FormatFloat v)).
Example format_examples :
  map parse_show ["5.0"; "0.1"; "1e21"; "1e20"; "123456.789"; "5e-324"; "1.7976931348623157e308";
                  "0.00001"; "-2.5"; "1e400"; "1e"; "9007199254740993"; "1e6"]%string
  = [Some "5"; Some "0.1"; Some "1e+21"; Some "1e+20"; Some "123456.789"; Some "5e-324";
     Some "1.7976931348623157e+308"; Some "1e-05"; Some "-2.5"; None; None;
     Some "9.007199254740992e+15"; Some "1e+06"]%string.
Proof. vm_compute. reflexivity. Qed.
