(* ===== verification/Parser.v ===== *)
(** * Package sql: the parser ([sql/parser.go])

    Recursive descent over the lexer's state.  [tok, _ := p.peek()] drops a
    lexical error and goes on with the zero token, whose kind is end of input;
    [peek_] is that idiom.  The only recursion through the grammar is
    [parseExpr]'s, always after a token was consumed, so the other productions
    are functions of the expression parser [expr]; loops take fuel. *)
From Stdlib Require Import ZArith Lia ZifyNat Ascii.
From stdpp Require Import base numbers list strings.
From S2P Require Import Prelude Ast Lexer Strconv.
#[local] Open Scope Z_scope.

(** ** The parser monad *)

Definition P (A : Type) : Type := Lexer → go A * Lexer.
#[export] Instance p_ret : MRet P := fun A a l => (Ret a, l).
#[export] Instance p_bind : MBind P := fun A B f m l =>
  match m l with
  | (Ret a, l) => f a l
  | (Err e, l) => (Err e, l)
  | (Panic, l) => (Panic, l)
  | (OutOfFuel, l) => (OutOfFuel, l)
  end.
Definition fail {A} (msg : string) : P A := λ l, (Err (ErrMsg msg), l).
Definition outOfFuel {A} : P A := λ l, (OutOfFuel, l).

Definition peek : P Token := Peek.
Definition next : P Token := Next.
(** [tok, _ := p.peek()]. *)
Definition peek_ : P Token := λ l,
  match Peek l with (Ret t, l) => (Ret t, l) | (_, l) => (Ret zeroToken, l) end.
(** [p.next()] as a statement. *)
Definition next_ : P () := λ l, (Ret (), (Next l).2).

Definition expect (kind : TokenKind) : P Token :=
  tok ← next;
  if decide (Kind tok = kind) then mret tok else fail "sql: expected another token".
Definition expectIdent : P Token :=
  tok ← next;
  if decide (Kind tok = TokIdent) then mret tok else
  if is_keyword (Kind tok) then mret tok else fail "sql: expected identifier".

(** [precedence]. *)
Definition precedence (tok : Token) : Z :=
  match Kind tok with
  | TokOR => 1
  | TokAND => 2
  | TokNOT => 3
  | TokEQ | TokNE => 4
  | TokLT | TokLE | TokGT | TokGE => 5
  | TokIS | TokBETWEEN | TokLIKE | TokIN => 6
  | TokPlus | TokMinus => 7
  | TokStar | TokSlash => 8
  | _ => 0
  end.

Definition numericLiteral (tok : Token) (sign : list ascii) : P Expr :=
  let text := sign ++ String.list_ascii_of_string (Text tok) in
  if decide (Kind tok = TokInt) then
    match ParseInt text with
    | Some v => mret (IntLiteral v)
    | None => fail "sql: integer literal is out of range"
    end
  else
    match ParseFloat text with
    | Some v => mret (FloatLiteral v)
    | None => fail "sql: invalid numeric literal"
    end.

Definition aggFuncs : list string := ["COUNT"; "SUM"; "AVG"; "MIN"; "MAX"]%string.

Definition parseCount (clause : string) : P Z :=
  tok ← next;
  if decide (Kind tok ≠ TokInt) then fail "sql: clause requires a non-negative integer" else
  match ParseInt (String.list_ascii_of_string (Text tok)) with
  | Some n => mret n
  | None => fail "sql: clause value is out of range"
  end.

Definition parseTableRef : P TableRef :=
  nameTok ← expectIdent;
  tok ← peek_;
  if decide (Kind tok = TokAS) then
    next_;; aliasTok ← expectIdent; mret (mkTableRef (Text nameTok) (Text aliasTok))
  else
    tok ← peek_;
    if decide (Kind tok = TokIdent) then next_;; mret (mkTableRef (Text nameTok) (Text tok))
    else mret (mkTableRef (Text nameTok) "").

(** [FROM t1, t2, ...] after the keyword. *)
Fixpoint parseFrom (n : nat) (refs : list TableRef) : P (list TableRef) :=
  match n with
  | O => outOfFuel
  | S n =>
      ref ← parseTableRef;
      let refs := refs ++ [ref] in
      tok ← peek_;
      if decide (Kind tok ≠ TokComma) then mret refs else next_;; parseFrom n refs
  end.

(** [LIMIT] and [OFFSET], in either order, each at most once. *)
Fixpoint parseLimits (n : nat) (limit offset : option Z) : P (option Z * option Z) :=
  match n with
  | O => outOfFuel
  | S n =>
      tok ← peek_;
      match Kind tok with
      | TokLIMIT =>
          match limit with
          | Some _ => fail "sql: duplicate LIMIT"
          | None => next_;; v ← parseCount "LIMIT"; parseLimits n (Some v) offset
          end
      | TokOFFSET =>
          match offset with
          | Some _ => fail "sql: duplicate OFFSET"
          | None => next_;; v ← parseCount "OFFSET"; parseLimits n limit (Some v)
          end
      | _ => mret (limit, offset)
      end
  end.

(** The keywords [parsePrimary] takes as column names. *)
Definition keyword_columns : list TokenKind :=
  [TokSELECT; TokFROM; TokWHERE; TokGROUP; TokBY; TokORDER; TokLIMIT; TokOFFSET; TokAS; TokON;
   TokJOIN; TokINNER; TokLEFT; TokRIGHT].

(** ** The grammar, given the expression parser *)

Section grammar.
Context (expr : Z → P Expr).

Fixpoint parseExprList (n : nat) (exprs : list Expr) : P (list Expr) :=
  match n with
  | O => outOfFuel
  | S n =>
      e ← expr 0;
      let exprs := exprs ++ [e] in
      tok ← peek_;
      if decide (Kind tok ≠ TokComma) then mret exprs else next_;; parseExprList n exprs
  end.

Fixpoint parseOrderByList (n : nat) (items : list OrderByItem) : P (list OrderByItem) :=
  match n with
  | O => outOfFuel
  | S n =>
      e ← expr 0;
      tok ← peek_;
      desc ← (if decide (Kind tok = TokDESC) then next_;; mret true
              else if decide (Kind tok = TokASC) then next_;; mret false else mret false);
      let items := items ++ [mkOrderBy e desc] in
      tok ← peek_;
      if decide (Kind tok ≠ TokComma) then mret items else next_;; parseOrderByList n items
  end.

Definition parseAlias : P string :=
  tok ← peek_;
  if decide (Kind tok = TokAS) then next_;; aliasTok ← expectIdent; mret (Text aliasTok)
  else
    tok ← peek_;
    if decide (Kind tok = TokIdent) then next_;; mret (Text tok) else mret ""%string.

Fixpoint parseSelectColumns (n : nat) (cols : list SelectColumn) : P (list SelectColumn) :=
  match n with
  | O => outOfFuel
  | S n =>
      tok ← peek_;
      if decide (Kind tok = TokFROM ∨ Kind tok = TokEOF ∨ Kind tok = TokSemicolon)
      then mret cols else
      e ← expr 0;
      alias ← parseAlias;
      let cols := cols ++ [mkSelectColumn e alias] in
      tok ← peek_;
      if decide (Kind tok ≠ TokComma) then mret cols else next_;; parseSelectColumns n cols
  end.

(** An optional clause opened by one keyword. *)
Definition clause {A} (kind : TokenKind) (dflt : A) (body : P A) : P A :=
  tok ← peek_;
  if decide (Kind tok = kind) then next_;; body else mret dflt.

Definition parseSelect (n : nat) : P SelectStmt :=
  expect TokSELECT;;
  distinct ← clause TokDISTINCT false (mret true);
  cols ← parseSelectColumns n [];
  from ← clause TokFROM [] (parseFrom n []);
  where_ ← clause TokWHERE None (e ← expr 0; mret (Some e));
  groupBy ← clause TokGROUP [] (expect TokBY;; parseExprList n []);
  having ← clause TokHAVING None (e ← expr 0; mret (Some e));
  orderBy ← clause TokORDER [] (expect TokBY;; parseOrderByList n []);
  '(limit, offset) ← parseLimits n None None;
  mret (mkSelect distinct cols from where_ having groupBy orderBy limit offset).

Definition parseFuncCall (n : nat) (name : string) : P Expr :=
  expect TokLParen;;
  if decide (name ∈ aggFuncs) then
    distinct ← clause TokDISTINCT false (mret true);
    tok ← peek_;
    if decide (Kind tok = TokStar ∧ name = "COUNT"%string) then
      next_;; expect TokRParen;; mret (AggFuncExpr name (Some StarExpr) distinct)
    else
      arg ← expr 0;
      expect TokRParen;;
      mret (AggFuncExpr name (Some arg) distinct)
  else
    tok ← peek_;
    args ← (if decide (Kind tok ≠ TokRParen) then parseExprList n [] else mret []);
    expect TokRParen;;
    mret (FuncExpr name args).

Fixpoint parseWhens (n : nat) (whens : list WhenClause) : P (list WhenClause) :=
  match n with
  | O => outOfFuel
  | S n =>
      tok ← peek_;
      if decide (Kind tok ≠ TokWHEN) then mret whens else
      next_;;
      cond ← expr 0;
      expect TokTHEN;;
      result ← expr 0;
      parseWhens n (whens ++ [mkWhen cond result])
  end.

Definition parseCaseExpr (n : nat) : P Expr :=
  whens ← parseWhens n [];
  els ← clause TokELSE None (e ← expr 0; mret (Some e));
  expect TokEND;;
  mret (CaseExpr whens els).

Definition parsePrimary (n : nat) : P Expr :=
  tok ← next;
  match Kind tok with
  | TokInt | TokFloat => numericLiteral tok []
  | TokString => mret (StringLiteral (Text tok))
  | TokNULL => mret NullLiteral
  | TokTRUE => mret (BoolLiteral true)
  | TokFALSE => mret (BoolLiteral false)
  | TokStar => mret StarExpr
  | TokLParen =>
      inner ← peek_;
      if decide (Kind inner = TokSELECT) then
        sub ← parseSelect n;
        expect TokRParen;;
        mret (SubqueryExpr sub)
      else
        e ← expr 0;
        expect TokRParen;;
        mret e
  | TokCASE => parseCaseExpr n
  | TokIdent =>
      let name := Text tok in
      nxt ← peek_;
      if decide (Kind nxt = TokDot) then
        next_;;
        colTok ← expectIdent;
        paren ← peek_;
        if decide (Kind paren = TokLParen) then parseFuncCall n (ToUpper (Text colTok))
        else mret (ColumnRefExpr name (Text colTok))
      else
        nxt ← peek_;
        if decide (Kind nxt = TokLParen) then parseFuncCall n (ToUpper name)
        else mret (ColumnRefExpr "" name)
  | k => if decide (k ∈ keyword_columns) then mret (ColumnRefExpr "" (Text tok))
         else fail "sql: unexpected token"
  end.

Fixpoint parseUnary (n : nat) : P Expr :=
  match n with
  | O => outOfFuel
  | S n' =>
      tok ← peek_;
      match Kind tok with
      | TokNOT => next_;; e ← expr 3; mret (UnaryExpr OpNot e)
      | TokMinus =>
          next_;;
          nxt ← peek_;
          if decide (Kind nxt = TokInt ∨ Kind nxt = TokFloat) then
            next_;; numericLiteral nxt [ascii_of_nat 45]
          else e ← parseUnary n'; mret (UnaryExpr OpMinus e)
      | _ => parsePrimary n
      end
  end.

(** [lo AND hi] after BETWEEN, and [(list)] after IN. *)
Definition betweenTail (prec : Z) (left : Expr) (not_ : bool) : P Expr :=
  lo ← expr prec;
  expect TokAND;;
  hi ← expr prec;
  mret (BetweenExpr left lo hi not_).
Definition inTail (n : nat) (left : Expr) (not_ : bool) : P Expr :=
  expect TokLParen;;
  list ← parseExprList n [];
  expect TokRParen;;
  mret (InExpr left list not_).

(** The operator tokens that build a [BinaryExpr]. *)
Definition binop_of (k : TokenKind) : option BinOp :=
  match k with
  | TokAND => Some OpAnd | TokOR => Some OpOr | TokEQ => Some OpEQ | TokNE => Some OpNE
  | TokLT => Some OpLT | TokLE => Some OpLE | TokGT => Some OpGT | TokGE => Some OpGE
  | TokPlus => Some OpAdd | TokMinus => Some OpSub | TokStar => Some OpMul
  | TokSlash => Some OpDiv
  | _ => None
  end.

(** One turn of the operator loop: the new left operand. *)
Definition infix (n : nat) (tok : Token) (prec : Z) (left : Expr) : P Expr :=
  match binop_of (Kind tok) with
  | Some op => right ← expr prec; mret (BinaryExpr op left right)
  | None =>
      match Kind tok with
      | TokIS =>
          isNot ← clause TokNOT false (mret true);
          expect TokNULL;;
          mret (IsNullExpr left isNot)
      | TokBETWEEN => betweenTail prec left false
      | TokLIKE => pattern ← expr prec; mret (LikeExpr left pattern false)
      | TokIN => inTail n left false
      | TokNOT =>
          nxt ← peek_;
          next_;;
          match Kind nxt with
          | TokLIKE => pattern ← expr prec; mret (LikeExpr left pattern true)
          | TokBETWEEN => betweenTail prec left true
          | TokIN => inTail n left true
          | _ => fail "sql: unexpected NOT"
          end
      | _ => mret left
      end
  end.

Fixpoint exprLoop (n : nat) (left : Expr) (minPrec : Z) : P Expr :=
  match n with
  | O => outOfFuel
  | S n' =>
      tok ← peek_;
      let prec := precedence tok in
      if decide (prec ≤ minPrec) then mret left else
      next_;;
      left ← infix n tok prec left;
      exprLoop n' left minPrec
  end.

End grammar.

(** ** Tying the knot *)

Fixpoint parseExpr (n : nat) (minPrec : Z) : P Expr :=
  match n with
  | O => outOfFuel
  | S n' =>
      left ← parseUnary (parseExpr n') n;
      exprLoop (parseExpr n') n left minPrec
  end.

Definition ParseStatement (n : nat) : P SelectStmt :=
  tok ← peek;
  if decide (Kind tok ≠ TokSELECT) then fail "sql: expected SELECT" else
  stmt ← parseSelect (parseExpr n) n;
  tok ← peek_;
  (if decide (Kind tok = TokSemicolon) then next_ else mret ());;
  tok ← peek;
  match Kind tok with
  | TokEOF => mret stmt
  | TokUNION | TokINTERSECT | TokEXCEPT => fail "sql: set operation is not supported"
  | _ => fail "sql: unexpected token"
  end.

(** One unit of fuel per byte of the query, and one more. *)
Definition Parse (src : string) : go SelectStmt :=
  (ParseStatement (S (String.length src)) (NewLexer src)).1.

Example parse_example :
  Parse "SELECT a, COUNT(*) AS n FROM t WHERE NOT a = -1 + 2 * b OR x NOT IN (1, 'y') GROUP BY a ORDER BY n DESC LIMIT 3;"
  = Ret (mkSelect false
      [mkSelectColumn (ColumnRefExpr "" "a") "";
       mkSelectColumn (AggFuncExpr "COUNT" (Some StarExpr) false) "n"]
      [mkTableRef "t" ""]
      (Some (BinaryExpr OpOr
         (UnaryExpr OpNot (BinaryExpr OpEQ (ColumnRefExpr "" "a")
           (BinaryExpr OpAdd (IntLiteral (-1))
              (BinaryExpr OpMul (IntLiteral 2) (ColumnRefExpr "" "b")))))
         (InExpr (ColumnRefExpr "" "x") [IntLiteral 1; StringLiteral "y"] true)))
      None [ColumnRefExpr "" "a"] [mkOrderBy (ColumnRefExpr "" "n") true] (Some 3) None).
Proof. vm_compute. reflexivity. Qed.

(** ** Lemmas: every production ends

    [W k b m]: on any state with fewer than [b] units left to read, [m] fails
    or returns having consumed at least [k] of them.  [Wh t] is the same when
    the token [t] is held by a preceding [peek]. *)

Definition W {A} (k b : nat) (m : P A) : Prop :=
  ∀ l, (rem l < b)%nat →
    match m l with
    | (Ret _, l') => (rem l' + k ≤ rem l)%nat
    | (Err _, _) => True
    | _ => False
    end.
Definition Wh {A} (t : Token) (k b : nat) (m : P A) : Prop :=
  ∀ l, l_peek l = Some t → (rem l < b)%nat →
    match m l with
    | (Ret _, l') => (rem l' + k ≤ rem l)%nat
    | (Err _, _) => True
    | _ => False
    end.

Lemma W_weaken {A} k b k' b' (m : P A) : W k b m → (k' ≤ k)%nat → (b' ≤ b)%nat → W k' b' m.
Proof. intros H Hk Hb l Hl. specialize (H l ltac:(lia)). destruct (m l) as [[]]; auto. lia. Qed.
Lemma W_Wh {A} t k b (m : P A) : W k b m → Wh t k b m.
Proof. intros H l _. apply H. Qed.
Lemma W_ret {A} b (a : A) : W 0 b (mret a).
Proof. intros l Hl. simpl. lia. Qed.
Lemma W_fail {A} k b msg : W k b (fail msg : P A).
Proof. done. Qed.
Lemma W_bind {A B} k1 k2 b (m : P A) (f : A → P B) :
  W k1 b m → (∀ a, W k2 (b - k1) (f a)) → W (k1 + k2) b (m ≫= f).
Proof.
  intros Hm Hf l Hl. specialize (Hm l Hl). unfold mbind, p_bind.
  destruct (m l) as [[a|e| |] l']; try done. specialize (Hf a l' ltac:(lia)).
  destruct (f a l') as [[]]; try done. lia.
Qed.
(** The first action is known to eat [k1]; the whole must eat [k]. *)
Lemma W_seq {A B} k1 k b (m : P A) (f : A → P B) :
  W k1 b m → (∀ a, W (k - k1) (b - k1) (f a)) → W k b (m ≫= f).
Proof. intros Hm Hf. eapply W_weaken; [by eapply W_bind|lia|lia]. Qed.

Lemma W_next {A} k b (f : Token → P A) :
  (∀ t, Kind t ≠ TokEOF → W (k - 1) (b - 1) (f t)) → (∀ t, Kind t = TokEOF → W k b (f t)) →
  W k b (next ≫= f).
Proof.
  intros H1 H2 l Hl. unfold mbind, p_bind, next. destruct (Next_spec l) as (Hs & Hle & Hlt).
  destruct (Next l) as [[t|e| |] l']; try done. cbn [fst snd] in *.
  destruct (decide (Kind t = TokEOF)) as [He|He].
  - specialize (H2 t He l' ltac:(lia)). destruct (f t l') as [[]]; try done. lia.
  - specialize (Hlt t eq_refl He). specialize (H1 t He l' ltac:(lia)).
    destruct (f t l') as [[]]; try done. lia.
Qed.
Lemma W_peek {A} k b (f : Token → P A) :
  (∀ t, Kind t ≠ TokEOF → Wh t k b (f t)) → (∀ t, Kind t = TokEOF → W k b (f t)) →
  W k b (peek_ ≫= f).
Proof.
  intros H1 H2 l Hl. unfold mbind, p_bind, peek_. destruct (Peek_spec l) as (Hs & Hle & Hp).
  destruct (Peek l) as [[t|e| |] l']; try done; cbn [fst snd] in *.
  - destruct (decide (Kind t = TokEOF)) as [He|He].
    + specialize (H2 t He l' ltac:(lia)). destruct (f t l') as [[]]; try done. lia.
    + specialize (H1 t He l' (Hp t eq_refl) ltac:(lia)). destruct (f t l') as [[]]; try done. lia.
  - specialize (H2 zeroToken eq_refl l' ltac:(lia)). destruct (f zeroToken l') as [[]]; try done. lia.
Qed.
Lemma Wh_peek {A} t k b (f : Token → P A) : Wh t k b (f t) → Wh t k b (peek_ ≫= f).
Proof. intros H l Hp Hl. unfold mbind, p_bind, peek_, Peek. rewrite Hp. by apply H. Qed.
Lemma Wh_next_ {A} t k b (m : P A) :
  Kind t ≠ TokEOF → W (k - 1) (b - 1) m → Wh t k b (next_;; m).
Proof.
  intros Hk Hm l Hp Hl. unfold mbind, p_bind, next_, Next. rewrite Hp. cbn [snd].
  assert (Hr : (rem (mkLexer (l_rest l) (l_pos l) None) + 1 = rem l)%nat).
  { unfold rem. rewrite Hp. cbn [l_rest l_peek]. rewrite decide_False by done. lia. }
  specialize (Hm (mkLexer (l_rest l) (l_pos l) None) ltac:(lia)).
  destruct (m _) as [[]]; try done. lia.
Qed.

Lemma W_next_0 b : W 0 b next_.
Proof.
  intros l Hl. unfold next_. destruct (Next_spec l) as (_ & Hle & _). cbn [fst snd] in *. lia.
Qed.
Lemma W_peek_err {A} k b (f : Token → P A) : (∀ t, W k b (f t)) → W k b (peek ≫= f).
Proof.
  intros H l Hl. unfold mbind, p_bind, peek. destruct (Peek_spec l) as (Hs & Hle & _).
  destruct (Peek l) as [[t|e| |] l']; try done; cbn [fst snd] in *.
  specialize (H t l' ltac:(lia)). destruct (f t l') as [[]]; try done. lia.
Qed.
Lemma W_next_fail {A} k b msg : W k b (next_;; fail msg : P A).
Proof. done. Qed.

Lemma W_expect b kind : kind ≠ TokEOF → W 1 b (expect kind).
Proof.
  intros Hk. apply W_next; intros t Ht; case_decide; try apply W_fail; [apply W_ret|congruence].
Qed.
Lemma W_expectIdent b : W 1 b expectIdent.
Proof.
  apply W_next; intros t Ht.
  - case_decide; [apply W_ret|]. destruct (is_keyword _); [apply W_ret|apply W_fail].
  - rewrite decide_False by congruence. rewrite Ht. apply W_fail.
Qed.
Lemma W_numericLiteral b t s : W 0 b (numericLiteral t s).
Proof.
  unfold numericLiteral. case_decide; [destruct (ParseInt _)|destruct (ParseFloat _)];
    apply W_ret || apply W_fail.
Qed.
Lemma W_clause {A} kind (dflt : A) body b :
  kind ≠ TokEOF → W 0 (b - 1) body → W 0 b (clause kind dflt body).
Proof.
  intros Hk Hb. apply W_peek; intros t Ht; case_decide; try congruence.
  - by apply Wh_next_.
  - apply W_Wh, W_ret.
  - apply W_ret.
Qed.
Lemma W_parseCount b c : W 1 b (parseCount c).
Proof.
  apply W_next; intros t Ht; case_decide; try apply W_fail; [|congruence].
  destruct (ParseInt _); [apply W_ret|apply W_fail].
Qed.
Lemma W_parseTableRef b : W 1 b parseTableRef.
Proof.
  eapply W_seq; [apply W_expectIdent|]. intros name.
  apply W_peek; intros t Ht; case_decide; try congruence.
  - apply Wh_next_; [done|]. eapply (W_seq 1); [apply W_expectIdent|].
    intros; apply W_ret.
  - apply Wh_peek. case_decide; [apply Wh_next_; [done|]|apply W_Wh]; apply W_ret.
  - apply W_peek; intros t' Ht'; case_decide; try congruence;
      [apply Wh_next_; [done|]|apply W_Wh|]; apply W_ret.
Qed.

(** What is left to show of a step is that the goal's [k] is zero. *)
Lemma W_zero {A} k b (m : P A) : k = 0%nat → W 0 b m → W k b m.
Proof. by intros ->. Qed.

Lemma W_k {A} k k' b (m : P A) : W k b m → (k' ≤ k)%nat → W k' b m.
Proof. intros H Hk. by eapply W_weaken. Qed.
Lemma Wh_seq {A B} t k1 k b (m : P A) (f : A → P B) :
  Wh t k1 b m → (∀ a, W (k - k1) (b - k1) (f a)) → Wh t k b (m ≫= f).
Proof.
  intros Hm Hf l Hp Hl. specialize (Hm l Hp Hl). unfold mbind, p_bind.
  destruct (m l) as [[a|e| |] l']; try done. specialize (Hf a l' ltac:(lia)).
  destruct (f a l') as [[]]; try done. lia.
Qed.

(** A list loop: each turn eats the comma before it. *)
Lemma W_comma {A} k b (a : A) (m : P A) :
  k = 0%nat → W 0 (b - 1) m →
  W k b (tok ← peek_; if decide (Kind tok ≠ TokComma) then mret a else next_;; m).
Proof.
  intros -> Hm. apply W_peek; intros t Ht; case_decide as Hc.
  - apply W_Wh, W_ret.
  - by apply Wh_next_.
  - apply W_ret.
  - congruence.
Qed.

Lemma W_parseFrom n refs b : (b ≤ n)%nat → W 1 b (parseFrom n refs).
Proof.
  revert refs b. induction n as [|n IH]; intros refs b Hb; [intros l Hl; lia|].
  eapply W_seq; [apply W_parseTableRef|]. intros ref. apply W_comma; [done|].
  apply (W_k 1); [apply IH|]; lia.
Qed.
Lemma W_parseLimits n lim off b : (b ≤ n)%nat → W 0 b (parseLimits n lim off).
Proof.
  revert lim off b. induction n as [|n IH]; intros lim off b Hb; [intros l Hl; lia|].
  apply W_peek; intros t Ht; [|rewrite Ht; apply W_ret].
  destruct (Kind t) eqn:E; try apply W_Wh, W_ret.
  all: destruct lim, off; try apply W_Wh, W_fail.
  all: apply Wh_next_; [congruence|]; eapply W_seq; [apply W_parseCount|]; intros v.
  all: apply IH; lia.
Qed.

(** ** Productions that parse expressions, given that expressions are read
    within [B] *)

Section productions.
Context (expr : Z → P Expr) (B : nat).
Context (Hexpr : ∀ p b, 0 ≤ p → (b ≤ B)%nat → W 1 b (expr p)).

Lemma W_parseExprList n es b : (b ≤ n)%nat → (b ≤ B)%nat → W 1 b (parseExprList expr n es).
Proof using Hexpr.
  revert es b. induction n as [|n IH]; intros es b Hb HB; [intros l Hl; lia|].
  eapply W_seq; [apply Hexpr; lia|]. intros e. apply W_comma; [done|].
  apply (W_k 1); [apply IH|]; lia.
Qed.
Lemma W_parseOrderByList n es b :
  (b ≤ n)%nat → (b ≤ B)%nat → W 1 b (parseOrderByList expr n es).
Proof using Hexpr.
  revert es b. induction n as [|n IH]; intros es b Hb HB; [intros l Hl; lia|].
  eapply W_seq; [apply Hexpr; lia|]. intros e.
  apply W_peek; intros t Ht; repeat case_decide; try congruence.
  1-2: apply Wh_seq with (k1 := 0%nat); [apply Wh_next_; [done|apply W_ret]|].
  3: apply W_Wh.
  3-4: apply W_seq with (k1 := 0%nat); [apply W_ret|].
  all: intros d; apply W_comma; [done|]; apply (W_k 1); [apply IH|]; lia.
Qed.
Lemma W_parseAlias b : W 0 b parseAlias.
Proof.
  apply W_peek; intros t Ht; case_decide; try congruence.
  - apply Wh_next_; [done|]. apply (W_seq 1); [apply W_expectIdent|]. intros; apply W_ret.
  - apply Wh_peek. case_decide; [apply Wh_next_; [done|]|apply W_Wh]; apply W_ret.
  - apply W_peek; intros t' Ht'; case_decide; try congruence;
      [apply Wh_next_; [done|]|apply W_Wh|]; apply W_ret.
Qed.
Lemma W_parseSelectColumns n cols b :
  (b ≤ n)%nat → (b ≤ B)%nat → W 0 b (parseSelectColumns expr n cols).
Proof using Hexpr.
  revert cols b. induction n as [|n IH]; intros cols b Hb HB; [intros l Hl; lia|].
  apply W_peek; intros t Ht; case_decide as Hd; try (by apply W_Wh, W_ret); try apply W_ret.
  2: by destruct Hd; auto.
  apply W_Wh, (W_seq 1); [apply Hexpr; lia|]. intros e.
  apply (W_seq 0); [apply W_parseAlias|]. intros a. apply W_comma; [done|]. apply IH; lia.
Qed.
Lemma W_optExpr b : (b ≤ B)%nat → W 0 b (e ← expr 0; mret (Some e)).
Proof using Hexpr. intros Hb. apply (W_seq 1); [apply Hexpr; lia|]. intros; apply W_ret. Qed.
Lemma W_byList {A} b kind (m : P A) : kind ≠ TokEOF → W 0 (b - 1) m → W 0 b (expect kind;; m).
Proof. intros Hk Hm. apply (W_seq 1); [by apply W_expect|]. intros; by apply Hm. Qed.
Lemma W_parseSelect n b : (b ≤ n)%nat → (b ≤ S B)%nat → W 1 b (parseSelect expr n).
Proof using Hexpr.
  intros Hn HB. apply (W_seq 1); [by apply W_expect|]. intros _.
  apply (W_seq 0); [apply W_clause; [done|apply W_ret]|]. intros distinct.
  apply (W_seq 0); [apply W_parseSelectColumns; lia|]. intros cols.
  apply (W_seq 0); [apply W_clause; [done|apply (W_k 1); [apply W_parseFrom|]; lia]|]. intros from.
  apply (W_seq 0); [apply W_clause; [done|apply W_optExpr; lia]|]. intros wh.
  apply (W_seq 0); [apply W_clause; [done|apply W_byList;
    [done|apply (W_k 1); [apply W_parseExprList|]; lia]]|]. intros gb.
  apply (W_seq 0); [apply W_clause; [done|apply W_optExpr; lia]|]. intros hv.
  apply (W_seq 0); [apply W_clause; [done|apply W_byList;
    [done|apply (W_k 1); [apply W_parseOrderByList|]; lia]]|]. intros ob.
  apply (W_seq 0); [apply W_parseLimits; lia|]. intros [limit offset]. apply W_ret.
Qed.
Lemma W_parseFuncCall n name b :
  (b ≤ n)%nat → (b ≤ S B)%nat → W 1 b (parseFuncCall expr n name).
Proof using Hexpr.
  intros Hn HB. apply (W_seq 1); [by apply W_expect|]. intros _. case_decide.
  - apply (W_seq 0); [apply W_clause; [done|apply W_ret]|]. intros distinct.
    assert (Harg : W 0 (b - 1) (arg ← expr 0; expect TokRParen;;
      mret (AggFuncExpr name (Some arg) distinct))).
    { apply (W_seq 1); [apply Hexpr; lia|]. intros a. apply W_byList; [done|apply W_ret]. }
    replace (b - 1 - 0)%nat with (b - 1)%nat by lia.
    apply W_peek; intros t Ht; case_decide as Hd; [|by apply W_Wh| |done].
    + apply Wh_next_; [done|]. apply W_byList; [done|apply W_ret].
    + destruct Hd; congruence.
  - assert (Htail : ∀ args b', W 0 b' (expect TokRParen;; mret (FuncExpr name args))).
    { intros. apply W_byList; [done|apply W_ret]. }
    apply W_peek; intros t Ht; [apply W_Wh|];
      (apply (W_seq 0); [case_decide; [apply (W_k 1); [apply W_parseExprList|]; lia|apply W_ret]|]);
      intros args; apply Htail.
Qed.
Lemma W_parseWhens n ws b : (b ≤ n)%nat → (b ≤ B)%nat → W 0 b (parseWhens expr n ws).
Proof using Hexpr.
  revert ws b. induction n as [|n IH]; intros ws b Hb HB; [intros l Hl; lia|].
  apply W_peek; intros t Ht; case_decide as Hd; try congruence.
  - apply W_Wh, W_ret.
  - apply Wh_next_; [done|]. apply (W_seq 1); [apply Hexpr; lia|]. intros c.
    apply W_byList; [done|]. apply (W_seq 1); [apply Hexpr; lia|]. intros r. apply IH; lia.
  - apply W_ret.
Qed.
Lemma W_parseCaseExpr n b : (b ≤ n)%nat → (b ≤ B)%nat → W 0 b (parseCaseExpr expr n).
Proof using Hexpr.
  intros Hb HB. apply (W_seq 0); [by apply W_parseWhens; lia|]. intros ws.
  apply (W_seq 0); [apply W_clause; [done|apply W_optExpr; lia]|]. intros els.
  apply W_byList; [done|apply W_ret].
Qed.
Lemma W_parsePrimary n b : (b ≤ n)%nat → (b ≤ S B)%nat → W 1 b (parsePrimary expr n).
Proof using Hexpr.
  intros Hb HB. apply W_next; intros t Ht; [|rewrite Ht; apply W_fail].
  assert (Hcall : ∀ s b', (b' ≤ b - 1)%nat → W 0 b' (parseFuncCall expr n s)).
  { intros. apply (W_k 1); [apply W_parseFuncCall|]; lia. }
  assert (Hkw : ∀ k, W 0 (b - 1)
    (if decide (k ∈ keyword_columns) then mret (ColumnRefExpr "" (Text t))
     else fail "sql: unexpected token")).
  { intros k. case_decide; [apply W_ret|apply W_fail]. }
  destruct (Kind t) eqn:E; try apply (Hkw _); try apply W_ret; try apply W_numericLiteral;
    try (apply W_parseCaseExpr; lia).
  - assert (Hname : W 0 (b - 1)
      (nxt ← peek_;
       if decide (Kind nxt = TokLParen) then parseFuncCall expr n (ToUpper (Text t))
       else mret (ColumnRefExpr "" (Text t)))).
    { apply W_peek; intros u Hu; [apply W_Wh|]; (case_decide; [apply Hcall; lia|apply W_ret]). }
    apply W_peek; intros u Hu; case_decide; try congruence; [|by apply W_Wh|done].
    apply Wh_next_; [done|]. apply (W_seq 1); [apply W_expectIdent|]. intros c.
    apply W_peek; intros v Hv; [apply W_Wh|]; (case_decide; [apply Hcall; lia|apply W_ret]).
  - apply W_peek; intros u Hu; [apply W_Wh|]; case_decide.
    1,3: apply (W_seq 1); [apply W_parseSelect; lia|]; intros sub.
    3,4: apply (W_seq 1); [apply Hexpr; lia|]; intros sub.
    all: apply W_byList; [done|apply W_ret].
Qed.
Lemma W_parseUnary n b : (b ≤ n)%nat → (b ≤ S B)%nat → W 1 b (parseUnary expr n).
Proof using Hexpr.
  revert b. induction n as [|n IH]; intros b Hb HB; [intros l Hl; lia|].
  assert (Hp : W 1 b (parsePrimary expr (S n))) by (apply W_parsePrimary; lia).
  assert (Hu : W 0 (b - 1) (e ← parseUnary expr n; mret (UnaryExpr OpMinus e))).
  { apply (W_seq 1); [apply IH; lia|]. intros; apply W_ret. }
  apply W_peek; intros t Ht; [|by rewrite Ht].
  destruct (Kind t) eqn:E; try (by apply W_Wh); apply Wh_next_; try congruence.
  - apply W_peek; intros u Hu'; case_decide as Hd; try done; [|by apply W_Wh|].
    + apply Wh_next_; [done|]. apply W_numericLiteral.
    + destruct Hd; congruence.
  - apply (W_seq 1); [apply Hexpr; lia|]. intros; apply W_ret.
Qed.
Lemma W_infix n t prec left b :
  (b ≤ n)%nat → (b ≤ B)%nat → 0 ≤ prec → W 0 b (infix expr n t prec left).
Proof using Hexpr.
  intros Hb HB Hp.
  assert (Hone : ∀ (f : Expr → Expr) b', (b' ≤ b)%nat → W 0 b' (r ← expr prec; mret (f r))).
  { intros f b' Hb'. apply (W_seq 1); [apply Hexpr; lia|]. intros; apply W_ret. }
  assert (Hbetween : ∀ b' no, (b' ≤ b)%nat → W 0 b' (betweenTail expr prec left no)).
  { intros b' no Hb'. apply (W_seq 1); [apply Hexpr; lia|]. intros lo.
    apply W_byList; [done|]. apply (Hone (λ hi, BetweenExpr left lo hi no)). lia. }
  assert (Hin : ∀ b' no, (b' ≤ b)%nat → W 0 b' (inTail expr n left no)).
  { intros b' no Hb'. apply W_byList; [done|].
    apply (W_seq 1); [apply W_parseExprList; lia|]. intros es.
    apply W_byList; [done|apply W_ret]. }
  unfold infix. destruct (binop_of (Kind t)) as [op|]; [by apply Hone|].
  destruct (Kind t); try apply W_ret; try (by apply Hone); auto.
  - apply W_peek; intros u Hu; [apply Wh_next_; [done|]|rewrite Hu; apply W_next_fail].
    destruct (Kind u); try apply W_fail;
      first [apply Hbetween; lia | apply Hin; lia | apply (Hone (λ p, LikeExpr left p true)); lia].
  - apply (W_seq 0); [apply W_clause; [done|apply W_ret]|]. intros no.
    apply W_byList; [done|apply W_ret].
Qed.
Lemma W_exprLoop n left minPrec b :
  (b ≤ n)%nat → (b ≤ S B)%nat → 0 ≤ minPrec → W 0 b (exprLoop expr n left minPrec).
Proof using Hexpr.
  revert left b. induction n as [|n IH]; intros left b Hb HB Hm; [intros l Hl; lia|].
  apply W_peek; intros t Ht; cbv zeta; case_decide as Hd.
  - apply W_Wh, W_ret.
  - apply Wh_next_; [done|]. apply (W_seq 0); [apply W_infix; lia|]. intros e. apply IH; lia.
  - apply W_ret.
  - unfold precedence in Hd. rewrite Ht in Hd. lia.
Qed.
End productions.

Lemma W_parseExpr n p b : 0 ≤ p → (b ≤ n)%nat → W 1 b (parseExpr n p).
Proof.
  revert p b. induction n as [|n IH]; intros p b Hp Hb; [intros l Hl; lia|].
  apply (W_seq 1); [apply (W_parseUnary _ n); [auto|lia|lia]|].
  intros left. apply (W_exprLoop _ n); [auto|lia..].
Qed.

(** What a lexical error does to a statement: [peek_] turns the stray ['@'] into
    nothing, and an unterminated string after the statement into its end. *)
Example lexical_errors_dropped :
  Parse "SELECT a @ FROM t" = Parse "SELECT a FROM t" ∧
  Parse "SELECT a FROM t 'oops" = Parse "SELECT a FROM t".
Proof. split; vm_compute; done. Qed.

(** NOT IN binds as loosely as a comparison, IN tighter: the two do not negate
    each other. *)
Example not_in_precedence :
  let where_ src := match Parse src with Ret (mkSelect _ _ _ w _ _ _ _ _) => w | _ => None end in
  let a := ColumnRefExpr "" "a" in let b := ColumnRefExpr "" "b" in
  where_ "SELECT a FROM t WHERE a = b IN (1)" = Some (BinaryExpr OpEQ a (InExpr b [IntLiteral 1] false)) ∧
  where_ "SELECT a FROM t WHERE a = b NOT IN (1)" = Some (InExpr (BinaryExpr OpEQ a b) [IntLiteral 1] true).
Proof. split; vm_compute; reflexivity. Qed.

Lemma Parse_total src : safe (Parse src).
Proof.
  assert (HW : W 0 (S (String.length src)) (ParseStatement (S (String.length src)))).
  { set (n := S (String.length src)).
    apply W_peek_err; intros t. case_decide; [apply W_fail|].
    apply (W_seq 1); [apply (W_parseSelect _ n); [intros; by apply W_parseExpr|lia|lia]|].
    intros stmt. apply W_peek; intros u Hu; [apply W_Wh|];
      (apply (W_seq 0); [case_decide; [apply W_next_0|apply W_ret]|]; intros _).
    all: apply W_peek_err; intros v; destruct (Kind v); first [apply W_ret|apply W_fail]. }
  specialize (HW (NewLexer src)). rewrite rem_NewLexer in HW. specialize (HW ltac:(lia)).
  unfold Parse. destruct (ParseStatement _ _) as [[]]; done.
Qed.

(** ** Properties *)

(** C17: Parsing always ends.  [Parse] on any string returns a statement or an
    error: it never panics, and the fuel it is given (one unit per byte, and one)
    is never exhausted, so the loops and the mutual recursion of the grammar
    terminate on every input, malformed ones included. *)
Theorem parse_terminates src : safe (Parse src).
Proof. apply Parse_total. Qed.
