(* ===== verification/Format.v ===== *)
(** * Package sql: rendering expressions ([sql/format.go])

    [FormatExpr] names unaliased output columns, and the planner also uses its
    text to tell expressions apart. *)
From Stdlib Require Import ZArith Lia ZifyNat Ascii.
From stdpp Require Import base numbers list strings.
From S2P Require Import Prelude Ast Lexer Strconv Parser.
#[local] Open Scope Z_scope.

Definition binPrec (op : BinOp) : Z :=
  match op with
  | OpOr => 1
  | OpAnd => 2
  | OpEQ | OpNE | OpLT | OpLE | OpGT | OpGE => 3
  | OpAdd | OpSub => 4
  | OpMul | OpDiv => 5
  end.

(** [binOperand]; [s] is [FormatExpr child]. *)
Definition binOperand (child : Expr) (s : string) (parentPrec : Z) (isRight : bool) : string :=
  match child with
  | BinaryExpr op _ _ =>
      let p := binPrec op in
      if (p <? parentPrec) || (isRight && (p =? parentPrec)) then "(" +:+ s +:+ ")" else s
  | _ => s
  end.

Definition wrapsAsOperand (e : Expr) : bool :=
  match e with
  | BinaryExpr _ _ _ | IsNullExpr _ _ | BetweenExpr _ _ _ _ | InExpr _ _ _ | LikeExpr _ _ _ => true
  | _ => false
  end.

(** [strings.ReplaceAll(s, "'", "''")]. *)
Fixpoint doubleQuotes (cs : list ascii) : list ascii :=
  match cs with
  | c :: cs => if code c =? 39 then c :: c :: doubleQuotes cs else c :: doubleQuotes cs
  | [] => []
  end.
Definition quote_char : ascii := ascii_of_nat 39.
Definition StringLiteral_text (s : string) : string :=
  text_of (quote_char :: doubleQuotes (String.list_ascii_of_string s) ++ [quote_char]).

(** [strings.Join(parts, ", ")]. *)
Fixpoint joinComma (parts : list string) : string :=
  match parts with
  | [] => ""
  | [p] => p
  | p :: ps => p +:+ ", " +:+ joinComma ps
  end.

Fixpoint FormatExpr (e : Expr) : string :=
  let formatList := fix formatList (l : list Expr) : list string :=
    match l with [] => [] | e :: l => FormatExpr e :: formatList l end in
  match e with
  | ColumnRefExpr t n => if decide (t = ""%string) then n else t +:+ "." +:+ n
  | StarExpr => "*"
  | IntLiteral v => show (FormatInt v)
  | FloatLiteral v => show (FormatFloat v)
  | StringLiteral s => StringLiteral_text s
  | BoolLiteral b => if b then "TRUE" else "FALSE"
  | NullLiteral => "NULL"
  | BinaryExpr op l r =>
      let p := binPrec op in
      binOperand l (FormatExpr l) p false +:+ " " +:+ BinOp_text op +:+ " " +:+
      binOperand r (FormatExpr r) p true
  | UnaryExpr op x =>
      let inner := FormatExpr x in
      let inner := if wrapsAsOperand x then "(" +:+ inner +:+ ")" else inner in
      match op with OpNot => "NOT " +:+ inner | OpMinus => UnaryOp_text op +:+ inner end
  | IsNullExpr x isNot => FormatExpr x +:+ (if isNot then " IS NOT NULL" else " IS NULL")
  | BetweenExpr x lo hi no =>
      FormatExpr x +:+ (if no then " NOT BETWEEN " else " BETWEEN ") +:+
      FormatExpr lo +:+ " AND " +:+ FormatExpr hi
  | InExpr x l no =>
      FormatExpr x +:+ (if no then " NOT IN (" else " IN (") +:+ joinComma (formatList l) +:+ ")"
  | LikeExpr x p no =>
      FormatExpr x +:+ (if no then " NOT LIKE " else " LIKE ") +:+ FormatExpr p
  | AggFuncExpr f arg distinct =>
      let fn := ToUpper f in
      match arg with
      | None => fn +:+ "(*)"
      | Some a => fn +:+ (if distinct then "(DISTINCT " else "(") +:+ FormatExpr a +:+ ")"
      end
  | FuncExpr f args => f +:+ "(" +:+ joinComma (formatList args) +:+ ")"
  | CaseExpr ws els =>
      let fix formatWhens (ws : list WhenClause) : string :=
        match ws with
        | [] => ""
        | mkWhen c r :: ws =>
            " WHEN " +:+ FormatExpr c +:+ " THEN " +:+ FormatExpr r +:+ formatWhens ws
        end in
      "CASE" +:+ formatWhens ws +:+
      (match els with Some x => " ELSE " +:+ FormatExpr x | None => "" end) +:+ " END"
  | SubqueryExpr _ => "(subquery)"
  end.

(** The whole input as one expression. *)
Definition parse_expression (src : string) : go Expr :=
  match parseExpr (S (String.length src)) 0 (NewLexer src) with
  | (Ret e, l) => match Next l with
                  | (Ret t, _) => if decide (Kind t = TokEOF) then Ret e else Err (ErrMsg "trailing input")
                  | (Err x, _) => Err x | (Panic, _) => Panic | (OutOfFuel, _) => OutOfFuel
                  end
  | (Err x, _) => Err x | (Panic, _) => Panic | (OutOfFuel, _) => OutOfFuel
  end.

Definition normalize (src : string) : option string :=
  match parse_expression src with Ret e => Some (FormatExpr e) | _ => None end.
Example format_expr_examples :
  map normalize
    ["(a+b) * - c-(d-1.50)"; "not (x in (1,'it''s') or y is not null)"; "count( * )";
     "sum(distinct t.v)"; "case when a>1 then 'p' else f(a,b) end"; "a not between 1 and 2 AND TRUE"]%string
  = [Some "(a + b) * -c - (d - 1.5)"; Some "NOT (x IN (1, 'it''s') OR y IS NOT NULL)"; Some "COUNT(*)";
     Some "SUM(DISTINCT t.v)"; Some "CASE WHEN a > 1 THEN 'p' ELSE F(a, b) END";
     Some "a NOT BETWEEN 1 AND 2 AND TRUE"]%string.
Proof. vm_compute. reflexivity. Qed.

(** Renderings do not determine expressions, though the planner matches
    expressions by them: IS NULL wraps no operand. *)
Example format_not_injective :
  let a := ColumnRefExpr "" "a" in let b := ColumnRefExpr "" "b" in
  FormatExpr (IsNullExpr (BinaryExpr OpEQ a b) false) = FormatExpr (BinaryExpr OpEQ a (IsNullExpr b false)).
Proof. vm_compute. reflexivity. Qed.
