(* ===== verification/Batch.v ===== *)
(** * Package exec: vectors and batches ([exec/batch.go])

    A vector's slices are the lists of their contents.  [Cell] and [vec_cells]
    are the reading of a vector as a column of nullable values; every operator
    is specified by them. *)
From Stdlib Require Import ZArith Lia ZifyNat.
From stdpp Require Import base numbers list strings gmap.
From S2P Require Import Prelude Encoding Codec Float64 Schema Writer Reader.
#[local] Open Scope Z_scope.

(** ** Vectors *)

Inductive Vector : Type :=
  | Int64Vector (Values NullBitmap : list Z)
  | Float64Vector (Values NullBitmap : list Z)
  | BoolVector (Bits NullBitmap : list Z) (Length : nat)
  | StringVector (Codes : list Z) (Dict : option Dictionary) (NullBitmap : list Z)
  | DateVector (Values NullBitmap : list Z).

Definition Len (v : Vector) : nat :=
  match v with
  | Int64Vector vs _ | Float64Vector vs _ | DateVector vs _ => length vs
  | BoolVector _ _ n => n
  | StringVector codes _ _ => length codes
  end.
Definition VType (v : Vector) : DataType :=
  match v with
  | Int64Vector _ _ => TypeInt64
  | Float64Vector _ _ => TypeFloat64
  | BoolVector _ _ _ => TypeBool
  | StringVector _ _ _ => TypeString
  | DateVector _ _ => TypeDate
  end.
Definition Nulls (v : Vector) : list Z :=
  match v with
  | Int64Vector _ nb | Float64Vector _ nb | BoolVector _ nb _
  | StringVector _ _ nb | DateVector _ nb => nb
  end.
Definition IsNull (v : Vector) (i : nat) : go bool := IsNullBit (Nulls v) i.

(** [BoolVector.Get] and [Set], on the [Bits] slice. *)
Definition bv_Get (bits : list Z) (i : nat) : go bool :=
  b ← index bits (i / 8);
  Ret (Z.land (Z.shiftr b (Z.of_nat (i mod 8))) 1 =? 1).
Definition bv_Set (bits : list Z) (i : nat) (val : bool) : go (list Z) :=
  b ← index bits (i / 8);
  let m := Z.shiftl 1 (Z.of_nat (i mod 8)) in
  store bits (i / 8) (if val then Z.lor b m else Z.ldiff b m).

(** [StringVector.Get]; the dictionary remembers the strings it has built. *)
Definition sv_Get (codes : list Z) (dict : option Dictionary) (i : nat)
    : go (string * option Dictionary) :=
  match dict with
  | None => Ret (""%string, None)
  | Some d =>
      code ← index codes i;
      '(s, d) ← Get d code;
      Ret (s, Some d)
  end.

Definition makeVector (t : DataType) : go Vector :=
  let bitmap := replicate (BlockRows / 8) 0 in
  match t with
  | TypeInt64 => Ret (Int64Vector [] bitmap)
  | TypeFloat64 => Ret (Float64Vector [] bitmap)
  | TypeBool => Ret (BoolVector [] bitmap 0)
  | TypeString => Ret (StringVector [] None bitmap)
  | TypeDate => Ret (DateVector [] bitmap)
  | TypeOther _ => Panic
  end.

Definition newStringVector (db : DictBuilder) (codes nullBmp : list Z) : go Vector :=
  rawDict ← Marshal db;
  match UnmarshalDictionary rawDict with
  | Ret dict => Ret (StringVector codes (Some dict) nullBmp)
  | Err _ => Ret (StringVector codes None nullBmp)
  | Panic => Panic
  | OutOfFuel => OutOfFuel
  end.

(** ** Batches *)

Record Batch : Type := mkBatch {
  b_Schema : Schema;
  Vectors : list Vector;
  b_Length : nat;
  SelVec : option (list Z)
}.

Definition NewBatch (schema : Schema) : go Batch :=
  vecs ← foldM (λ vecs f, v ← makeVector (Type_ f); Ret (vecs ++ [v])) [] schema;
  Ret (mkBatch schema vecs 0 None).

Definition physicalLen (b : Batch) : nat :=
  match Vectors b with v :: _ => Len v | [] => b_Length b end.
Definition evalLen (b : Batch) : nat :=
  match SelVec b with None => b_Length b | Some _ => physicalLen b end.

Record rowSet : Type := mkRowSet { rs_sel : option (list Z); rs_n : nat }.
Definition batchRows (b : Batch) : rowSet :=
  match SelVec b with
  | Some sel => mkRowSet (Some sel) (length sel)
  | None => mkRowSet None (b_Length b)
  end.
Definition rs_at (r : rowSet) (i : nat) : go nat :=
  match rs_sel r with
  | None => Ret i
  | Some sel => x ← index sel i; Ret (Z.to_nat x)
  end.

(** ** Vectors as columns of cells *)

Inductive Cell : Type :=
  | CInt (v : Z) | CFloat (v : Z) | CBool (v : bool) | CStr (s : string) | CDate (v : Z).
#[export] Instance Cell_eq_dec : EqDecision Cell.
Proof. solve_decision. Defined.

(** What a reader of row [i] sees: [IsNull], then the value. *)
Definition vec_value (v : Vector) (i : nat) : go Cell :=
  match v with
  | Int64Vector vs _ => x ← index vs i; Ret (CInt x)
  | Float64Vector vs _ => x ← index vs i; Ret (CFloat x)
  | BoolVector bits _ _ => x ← bv_Get bits i; Ret (CBool x)
  | StringVector codes dict _ => '(s, _) ← sv_Get codes dict i; Ret (CStr s)
  | DateVector vs _ => x ← index vs i; Ret (CDate x)
  end.
Definition vec_cell (v : Vector) (i : nat) : go (option Cell) :=
  null ← IsNull v i;
  if (null : bool) then Ret None else c ← vec_value v i; Ret (Some c).
(** Typed rows as cells. *)
Definition cells_of {V} (mk : V → Cell) (rows : list (option V)) : list (option Cell) :=
  (λ o : option V, mk <$> o) <$> rows.
(** All rows of a vector. *)
Definition vec_cells (v : Vector) : go (list (option Cell)) :=
  foldM (λ cs i, c ← vec_cell v i; Ret (cs ++ [c])) [] (seq 0 (Len v)).

(** ** Lemmas *)

(** The slices of a vector are long enough for its rows. *)
Definition vec_wf (v : Vector) : Prop :=
  (Len v ≤ 8 * length (Nulls v))%nat ∧
  match v with BoolVector bits _ n => (n ≤ 8 * length bits)%nat | _ => True end.
(** The codes of a string vector are in its dictionary, whose keys are distinct;
    without a dictionary every row is NULL. *)
Definition vec_dict (v : Vector) : Prop :=
  match v with
  | StringVector codes (Some d) nb =>
      ∃ keys, NoDup keys ∧ dict_fits keys ∧ dict_inv keys d ∧
        ∀ i c, codes !! i = Some c → bit_valid nb i = true → ∃ k s, c = Z.of_nat k ∧ keys !! k = Some s
  | StringVector codes None nb => ∀ i, (i < length codes)%nat → bit_valid nb i = false
  | _ => True
  end.
Definition vec_ok (v : Vector) : Prop := vec_wf v ∧ vec_dict v.

(** The cell of a row, with the failures that [vec_ok] excludes left out. *)
Definition cell (v : Vector) (i : nat) : option Cell :=
  match vec_cell v i with Ret c => c | _ => None end.

Lemma bv_Get_Ret bits i :
  (i / 8 < length bits)%nat → bv_Get bits i = Ret (bit_valid bits i).
Proof.
  intros [b Hb]%lookup_lt_is_Some. unfold bv_Get, bit_valid. rewrite (index_Ret _ _ _ Hb), Hb.
  simpl. rewrite land_1_testbit, Z.shiftr_spec by lia. simpl. by destruct (Z.testbit b _).
Qed.
Lemma bv_Set_Ret bits i v :
  (i / 8 < length bits)%nat → bv_Set bits i v = Ret (bm_set v bits i).
Proof.
  intros Hi. destruct (lookup_lt_is_Some_2 _ _ Hi) as [b Hb].
  unfold bv_Set, bm_set. rewrite (index_Ret _ _ _ Hb), Hb. cbn [mbind go_bind].
  rewrite store_Ret by done. by destruct v.
Qed.

Lemma IsNull_Ret v i :
  (i / 8 < length (Nulls v))%nat → IsNull v i = Ret (negb (bit_valid (Nulls v) i)).
Proof. apply IsNullBit_Ret. Qed.

(** A vector is the column [cells] when every row reads as its cell. *)
Lemma foldM_snoc {A B} (f : A → go B) l bs :
  Forall2 (λ a b, f a = Ret b) l bs →
  ∀ acc, foldM (λ cs i, c ← f i; Ret (cs ++ [c])) acc l = Ret (acc ++ bs).
Proof.
  induction 1 as [|a b l bs Hab _ IH]; intros acc; cbn [foldM]; [by rewrite app_nil_r|].
  rewrite Hab. cbn [mbind go_bind]. rewrite IH. by rewrite <- app_assoc.
Qed.
Lemma vec_cells_spec v cells :
  length cells = Len v →
  (∀ i c, cells !! i = Some c → vec_cell v i = Ret c) → vec_cells v = Ret cells.
Proof.
  intros Hl Hc. unfold vec_cells. rewrite (foldM_snoc _ _ cells); [done|].
  apply Forall2_same_length_lookup. rewrite length_seq. split; [done|].
  intros i x y [-> _]%lookup_seq Hy. by apply Hc.
Qed.

Lemma length_cells_of {V} (mk : V → Cell) rows : length (cells_of mk rows) = length rows.
Proof. apply length_fmap. Qed.

(** Values beside a bitmap read as [col_rows]. *)
Lemma vec_cell_values v (mk : Z → Cell) vs i c :
  (∀ i x, vs !! i = Some x → vec_value v i = Ret (mk x)) →
  (length vs ≤ 8 * length (Nulls v))%nat →
  cells_of mk (col_rows (Nulls v) vs) !! i = Some c → vec_cell v i = Ret c.
Proof.
  intros Hv Hn Hc. unfold cells_of in Hc. rewrite list_lookup_fmap in Hc. unfold col_rows in Hc.
  rewrite list_lookup_imap in Hc. destruct (vs !! i) as [x|] eqn:Hx; [|done].
  injection Hc as <-. pose proof (lookup_lt_Some _ _ _ Hx).
  unfold vec_cell. rewrite IsNull_Ret by lia. cbn [mbind go_bind].
  destruct (bit_valid (Nulls v) i); cbn [negb]; [|done]. by rewrite (Hv _ _ Hx).
Qed.

Lemma vec_cells_int64 vs nb :
  (length vs ≤ 8 * length nb)%nat →
  vec_cells (Int64Vector vs nb) = Ret (cells_of CInt (col_rows nb vs)).
Proof.
  intros H. apply vec_cells_spec; [by rewrite length_cells_of, length_col_rows|]. intros i c.
  apply (vec_cell_values (Int64Vector vs nb)); [|done]. intros j x Hx. simpl. by rewrite (index_Ret _ _ _ Hx).
Qed.
Lemma vec_cells_float64 vs nb :
  (length vs ≤ 8 * length nb)%nat →
  vec_cells (Float64Vector vs nb) = Ret (cells_of CFloat (col_rows nb vs)).
Proof.
  intros H. apply vec_cells_spec; [by rewrite length_cells_of, length_col_rows|]. intros i c.
  apply (vec_cell_values (Float64Vector vs nb)); [|done]. intros j x Hx. simpl. by rewrite (index_Ret _ _ _ Hx).
Qed.
Lemma vec_cells_date vs nb :
  (length vs ≤ 8 * length nb)%nat →
  vec_cells (DateVector vs nb) = Ret (cells_of CDate (col_rows nb vs)).
Proof.
  intros H. apply vec_cells_spec; [by rewrite length_cells_of, length_col_rows|]. intros i c.
  apply (vec_cell_values (DateVector vs nb)); [|done]. intros j x Hx. simpl. by rewrite (index_Ret _ _ _ Hx).
Qed.

(** A string vector over the dictionary of [keys]; codes under a NULL are free. *)
Lemma vec_cells_string codes rows keys d nb :
  dict_fits keys → dict_inv keys d → length codes = length rows → (length codes ≤ 8 * length nb)%nat →
  (∀ i s, rows !! i = Some (Some s) →
     bit_valid nb i = true ∧ ∃ k, codes !! i = Some (Z.of_nat k) ∧ keys !! k = Some s) →
  (∀ i, rows !! i = Some None → bit_valid nb i = false) →
  vec_cells (StringVector codes (Some d) nb) = Ret (cells_of CStr rows).
Proof.
  intros Hf Hd Hl Hn Hs Hnone. apply vec_cells_spec; [by rewrite length_cells_of|].
  intros i c Hc. unfold cells_of in Hc. rewrite list_lookup_fmap in Hc. destruct (rows !! i) as [o|] eqn:Ho; [|done].
  injection Hc as <-. pose proof (lookup_lt_Some _ _ _ Ho).
  unfold vec_cell. rewrite IsNull_Ret by (cbn [Nulls]; lia). cbn [mbind go_bind Nulls].
  destruct o as [s|].
  - destruct (Hs _ _ Ho) as (-> & k & Hk & Hkey). cbn [negb vec_value sv_Get].
    rewrite (index_Ret _ _ _ Hk). cbn [mbind go_bind].
    destruct (Get_spec keys d k s Hf Hd Hkey) as (d' & -> & _). done.
  - by rewrite (Hnone _ Ho).
Qed.

(** A string vector built by an operator: [add_all] the strings, then its cells. *)
Lemma newStringVector_cells ss nb codes db :
  add_all NewDictBuilder ss = (codes, db) →
  Z.of_nat (length ss) < 2 ^ 32 → Z.of_nat (length (dict_data ss)) < 2 ^ 32 →
  (length ss ≤ 8 * length nb)%nat →
  ∃ v, newStringVector db codes nb = Ret v ∧ vec_cells v = Ret (cells_of CStr (col_rows nb ss)).
Proof.
  intros Ha Hl Hd Hn. pose proof (add_all_spec NewDictBuilder ss db_wf_new) as Hspec.
  rewrite Ha in Hspec. destruct Hspec as (Hwf & (more & Hk & Hlm & Hdm) & Hc); [simpl; lia|].
  simpl in Hk. subst more. assert (Hfit : dict_fits (db_keys db)) by (split; lia).
  unfold newStringVector. rewrite Marshal_spec by done. cbn [mbind go_bind].
  rewrite UnmarshalDictionary_body by done. eexists. split; [done|].
  pose proof (Forall2_length _ _ _ Hc) as Hlc.
  apply (vec_cells_string _ _ (db_keys db)); [done|apply dict_inv_fresh|by rewrite length_col_rows|lia|..].
  - intros i s Hi. unfold col_rows in Hi. rewrite list_lookup_imap in Hi.
    destruct (ss !! i) as [s'|] eqn:Hs; [|done]. simpl in Hi.
    destruct (bit_valid nb i); [|done]. injection Hi as ->. split; [done|].
    destruct (Forall2_lookup_r _ _ _ _ _ Hc Hs) as (c & Hci & k & -> & Hk). eauto.
  - intros i Hi. unfold col_rows in Hi. rewrite list_lookup_imap in Hi.
    destruct (ss !! i); [|done]. simpl in Hi. by destruct (bit_valid nb i).
Qed.

(** Every row of a well-formed vector reads. *)
Lemma vec_cell_ok v i : vec_ok v → (i < Len v)%nat → vec_cell v i = Ret (cell v i).
Proof.
  intros [[Hn Hb] Hd] Hi. cut (∃ c, vec_cell v i = Ret c).
  { intros [c Hc]. unfold cell. by rewrite Hc. }
  unfold vec_cell. rewrite IsNull_Ret by lia. cbn [mbind go_bind].
  destruct (bit_valid (Nulls v) i) eqn:Ev; cbn [negb]; [|eauto].
  destruct v as [vs nb|vs nb|bits nb m|codes dict nb|vs nb]; cbn [Len Nulls vec_value] in *;
    try (destruct (lookup_lt_is_Some_2 _ _ Hi) as [x Hx]; rewrite (index_Ret _ _ _ Hx);
         cbn [mbind go_bind]; eauto).
  - rewrite bv_Get_Ret by lia. cbn [mbind go_bind]. eauto.
  - destruct dict as [d|]; cbn [sv_Get].
    + destruct Hd as (keys & _ & Hf & Hdi & Hc). destruct (lookup_lt_is_Some_2 _ _ Hi) as [x Hx].
      destruct (Hc _ _ Hx Ev) as (k & s & -> & Hk). rewrite (index_Ret _ _ _ Hx).
      cbn [mbind go_bind]. destruct (Get_spec keys d k s Hf Hdi Hk) as (d' & -> & _). eauto.
    + cbn [vec_dict] in Hd. by rewrite (Hd i Hi) in Ev.
Qed.

(** ... as its bit and its value say. *)
Lemma cell_null v i : bit_valid (Nulls v) i = false → (i / 8 < length (Nulls v))%nat → cell v i = None.
Proof. intros E Hi. unfold cell, vec_cell. rewrite IsNull_Ret by done. by rewrite E. Qed.
Lemma cell_int64 vs nb i x :
  vs !! i = Some x → (i / 8 < length nb)%nat →
  cell (Int64Vector vs nb) i = if bit_valid nb i then Some (CInt x) else None.
Proof.
  intros Hx Hi. unfold cell, vec_cell. rewrite IsNull_Ret by done. cbn [Nulls mbind go_bind].
  destruct (bit_valid nb i); [|done]. simpl. by rewrite (index_Ret _ _ _ Hx).
Qed.
Lemma cell_float64 vs nb i x :
  vs !! i = Some x → (i / 8 < length nb)%nat →
  cell (Float64Vector vs nb) i = if bit_valid nb i then Some (CFloat x) else None.
Proof.
  intros Hx Hi. unfold cell, vec_cell. rewrite IsNull_Ret by done. cbn [Nulls mbind go_bind].
  destruct (bit_valid nb i); [|done]. simpl. by rewrite (index_Ret _ _ _ Hx).
Qed.
Lemma cell_date vs nb i x :
  vs !! i = Some x → (i / 8 < length nb)%nat →
  cell (DateVector vs nb) i = if bit_valid nb i then Some (CDate x) else None.
Proof.
  intros Hx Hi. unfold cell, vec_cell. rewrite IsNull_Ret by done. cbn [Nulls mbind go_bind].
  destruct (bit_valid nb i); [|done]. simpl. by rewrite (index_Ret _ _ _ Hx).
Qed.
Lemma cell_bool bits nb m i :
  (i / 8 < length bits)%nat → (i / 8 < length nb)%nat →
  cell (BoolVector bits nb m) i = if bit_valid nb i then Some (CBool (bit_valid bits i)) else None.
Proof.
  intros Hb Hi. unfold cell, vec_cell. rewrite IsNull_Ret by done. cbn [Nulls mbind go_bind].
  destruct (bit_valid nb i); [|done]. cbn [negb vec_value]. by rewrite bv_Get_Ret.
Qed.
Lemma cell_string codes d keys nb i k s :
  dict_fits keys → dict_inv keys d → codes !! i = Some (Z.of_nat k) → keys !! k = Some s →
  (i / 8 < length nb)%nat →
  cell (StringVector codes (Some d) nb) i = if bit_valid nb i then Some (CStr s) else None.
Proof.
  intros Hf Hd Hc Hk Hi. unfold cell, vec_cell. rewrite IsNull_Ret by done. cbn [Nulls mbind go_bind].
  destruct (bit_valid nb i); [|done]. cbn [negb vec_value sv_Get]. rewrite (index_Ret _ _ _ Hc).
  cbn [mbind go_bind]. by destruct (Get_spec keys d k s Hf Hd Hk) as (d' & -> & _).
Qed.

Lemma vec_cells_ok v : vec_ok v → vec_cells v = Ret (cell v <$> seq 0 (Len v)).
Proof.
  intros Hv. apply vec_cells_spec; [by rewrite length_fmap, length_seq|].
  intros i c Hc. rewrite list_lookup_fmap in Hc.
  destruct (seq 0 (Len v) !! i) as [j|] eqn:Hj; [|done]. apply lookup_seq in Hj as [-> Hi].
  injection Hc as <-. by apply vec_cell_ok.
Qed.
