(* ===== verification/Scratch.v ===== *)
(** * Package exec: reused buffers ([exec/scratch.go])

    Slices with their capacity, the acquire helpers that rewrite a reused
    buffer, bitmap merging and the copy at the boundary of [Project].  The
    theorems are the file's own contract: a reused vector equals the fresh
    vector it replaces, and a copy reads as its source. *)
From Stdlib Require Import ZArith Lia ZifyNat.
From stdpp Require Import base numbers list strings gmap.
From S2P Require Import Prelude Encoding Codec Schema Writer Batch.
#[local] Open Scope Z_scope.

(** ** Slices with capacity *)

(** The backing array from the slice's start, and the slice's length. *)
Record sliceOf (A : Type) : Type := mkSlc { arr : list A; s_len : nat }.
Arguments mkSlc {A}. Arguments arr {A}. Arguments s_len {A}.
Abbreviation slc := (sliceOf Z).
Definition s_cap {A} (s : sliceOf A) : nat := length (arr s).
Definition s_data {A} (s : sliceOf A) : list A := take (s_len s) (arr s).
Definition s_make (n : nat) : slc := mkSlc (replicate n 0) n.
(** [s[:n]] for [n] at most the capacity. *)
Definition s_reslice {A} (s : sliceOf A) (n : nat) : sliceOf A := mkSlc (arr s) n.
(** [clear(s)]. *)
Definition s_clear (s : slc) : slc :=
  mkSlc (replicate (s_len s) 0 ++ drop (s_len s) (arr s)) (s_len s).
(** [copy(dst, src)] on contents. *)
Definition copy {A} (dst src : list A) : list A :=
  take (length dst) src ++ drop (length src) dst.
(** [dst[:len(dst)] = data], as the loops that fill a whole buffer leave it. *)
Definition bitmapSize (n : nat) : nat := (n + 7) / 8.

(** ** Acquiring *)

(** A slot: nil, or the slices of the vector it holds. *)
Record BoolSlot : Type := mkBoolSlot { bs_Bits : slc; bs_Nulls : slc; bs_Length : nat }.
Record ValSlot : Type := mkValSlot { vs_Values : slc; vs_Nulls : slc }.

Definition acquireBoolVector (slot : option BoolSlot) (n : nat) : Vector * option BoolSlot :=
  let size := bitmapSize n in
  let bv := match slot with
    | Some bv =>
        if decide (s_cap (bs_Bits bv) < size ∨ s_cap (bs_Nulls bv) < size)%nat
        then mkBoolSlot (s_make size) (s_make size) 0
        else mkBoolSlot (s_clear (s_reslice (bs_Bits bv) size))
                        (s_clear (s_reslice (bs_Nulls bv) size)) (bs_Length bv)
    | None => mkBoolSlot (s_make size) (s_make size) 0
    end in
  let bv := mkBoolSlot (bs_Bits bv) (bs_Nulls bv) n in
  (BoolVector (s_data (bs_Bits bv)) (s_data (bs_Nulls bv)) (bs_Length bv), Some bv).

(** [acquireInt64Vector] and [acquireFloat64Vector], up to the vector's type. *)
Definition acquireValues (slot : option ValSlot) (n : nat) : ValSlot :=
  let size := bitmapSize n in
  match slot with
  | Some v =>
      if decide (s_cap (vs_Values v) < n ∨ s_cap (vs_Nulls v) < size)%nat
      then mkValSlot (s_make n) (s_make size)
      else mkValSlot (s_clear (s_reslice (vs_Values v) n)) (s_clear (s_reslice (vs_Nulls v) size))
  | None => mkValSlot (s_make n) (s_make size)
  end.
Definition acquireInt64Vector (slot : option ValSlot) (n : nat) : Vector * option ValSlot :=
  let v := acquireValues slot n in
  (Int64Vector (s_data (vs_Values v)) (s_data (vs_Nulls v)), Some v).
Definition acquireFloat64Vector (slot : option ValSlot) (n : nat) : Vector * option ValSlot :=
  let v := acquireValues slot n in
  (Float64Vector (s_data (vs_Values v)) (s_data (vs_Nulls v)), Some v).

(** [setAllValid]: every write is to an index below [len(bmp)]. *)
Definition setAllValid (bmp : list Z) (n : nat) : list Z :=
  let size := bitmapSize n in
  let bmp := foldl (λ bmp i, <[i := 0xFF]> bmp) bmp (seq 0 (Nat.min size (length bmp))) in
  if decide ((n mod 8 ≠ 0)%nat ∧ (0 < size)%nat ∧ (size ≤ length bmp)%nat)
  then <[(size - 1)%nat := Z.shiftl 1 (Z.of_nat (n mod 8)) - 1]> bmp else bmp.

Definition acquireValidBitmap (slot : slc) (n : nat) : list Z * slc :=
  let size := bitmapSize n in
  let b := if decide (s_cap slot < size)%nat then s_make size else s_reslice slot size in
  let data := setAllValid (s_data b) n in
  (data, mkSlc (data ++ drop size (arr b)) (if decide (s_cap slot < size)%nat then size else s_len slot)).

Definition growSelVec (sel : slc) (n : nat) : slc :=
  if decide (s_cap sel < n)%nat then mkSlc (replicate n 0) 0 else s_reslice sel 0.

(** [mergeNullBitmapsInto]. *)
Definition mergeNullBitmapsInto (dst a b : list Z) (n : nat) : list Z :=
  foldl (λ dst i, <[i := Z.land (default 0xFF (a !! i)) (default 0xFF (b !! i))]> dst)
    dst (seq 0 (Nat.min (bitmapSize n) (length dst))).

(** [copyVector]: [src.Values[:n]] panics past the capacity, which is the length
    for every vector an expression returns. *)
Definition copyVector (v : Vector) (n : nat) : go Vector :=
  let nulls := copy (replicate (bitmapSize n) 0) (Nulls v) in
  match v with
  | Int64Vector vs _ =>
      src ← slice vs 0 n; Ret (Int64Vector (copy (replicate n 0) src) nulls)
  | Float64Vector vs _ =>
      src ← slice vs 0 n; Ret (Float64Vector (copy (replicate n 0) src) nulls)
  | DateVector vs _ =>
      src ← slice vs 0 n; Ret (DateVector (copy (replicate n 0) src) nulls)
  | BoolVector bits _ _ =>
      Ret (BoolVector (copy (replicate (bitmapSize n) 0) bits) nulls n)
  | StringVector codes dict _ =>
      src ← slice codes 0 n; Ret (StringVector (copy (replicate n 0) src) dict nulls)
  end.

(** ** Lemmas *)

Lemma s_data_make n : s_data (s_make n) = replicate n 0.
Proof. unfold s_data, s_make. simpl. by rewrite take_replicate, Nat.min_id. Qed.
Lemma s_data_clear s n :
  (n ≤ s_cap s)%nat → s_data (s_clear (s_reslice s n)) = replicate n 0.
Proof.
  intros. unfold s_data, s_clear, s_reslice. simpl.
  by rewrite take_app_le, take_replicate, Nat.min_id by by rewrite length_replicate.
Qed.
Lemma copy_spec {A} (dst src : list A) i :
  copy dst src !! i
  = if decide (i < length dst)%nat then if decide (i < length src)%nat then src !! i else dst !! i
    else None.
Proof.
  unfold copy. destruct (decide (i < length dst)%nat).
  - destruct (decide (i < length src)%nat).
    + rewrite lookup_app_l by (rewrite length_take; lia). by rewrite lookup_take_lt by lia.
    + rewrite lookup_app_r by (rewrite length_take; lia). rewrite length_take, lookup_drop.
      f_equal. lia.
  - apply lookup_ge_None. rewrite length_app, length_take, length_drop. lia.
Qed.
Lemma length_copy {A} (dst src : list A) : length (copy dst src) = length dst.
Proof. unfold copy. rewrite length_app, length_take, length_drop. lia. Qed.
Lemma copy_full {A} (dst src : list A) : length src = length dst → copy dst src = src.
Proof.
  intros H. unfold copy. rewrite take_ge, drop_ge by lia. by rewrite app_nil_r.
Qed.

(** Writing a prefix, index by index. *)
Lemma foldl_insert_spec {A} (f : nat → A) l k i :
  (k ≤ length l)%nat →
  foldl (λ l i, <[i := f i]> l) l (seq 0 k) !! i
  = if decide (i < k)%nat then Some (f i) else l !! i.
Proof.
  intros Hk. set (P := λ k' l', length l' = length l ∧
    ∀ i, l' !! i = if decide (i < k')%nat then Some (f i) else l !! i).
  assert (H : P k (foldl (λ l i, <[i := f i]> l) l (seq 0 k))); [|apply H].
  apply (foldl_seq_ind _ P).
  - split; [done|]. intros j. by rewrite decide_False by lia.
  - intros k' l' Hk' [Hl Hi]. split; [by rewrite length_insert|]. intros j.
    destruct (decide (j = k')) as [->|].
    + rewrite list_lookup_insert_eq by lia. by rewrite decide_True by lia.
    + rewrite list_lookup_insert_ne by done. rewrite Hi.
      do 2 case_decide; try lia; done.
Qed.
Lemma length_foldl_insert {A} (f : nat → A) l ks :
  length (foldl (λ l i, <[i := f i]> l) l ks) = length l.
Proof. revert l. induction ks as [|k ks IH]; intros l; [done|]. simpl. by rewrite IH, length_insert. Qed.

Lemma setAllValid_full bmp n :
  length bmp = bitmapSize n → setAllValid bmp n = FullBitmap n.
Proof.
  intros Hl. unfold setAllValid, FullBitmap. fold (bitmapSize n).
  rewrite length_foldl_insert, Hl, Nat.min_id.
  assert (foldl (λ bmp i, <[i := 0xFF]> bmp) bmp (seq 0 (bitmapSize n)) = replicate (bitmapSize n) 0xFF)
    as ->.
  { apply list_eq. intros i. rewrite (foldl_insert_spec (λ _, 0xFF)) by lia. case_decide.
    - by rewrite lookup_replicate_2.
    - rewrite lookup_replicate_ge by lia. apply lookup_ge_None. lia. }
  unfold bitmapSize. destruct (decide (n mod 8 ≠ 0)%nat) as [Hm|Hm].
  - rewrite decide_True; [done|]. split; [done|]. split; [|lia].
    assert (n ≠ 0)%nat by (intros ->; by apply Hm). lia.
  - rewrite decide_False; [done|]. by intros [? _].
Qed.

Lemma acquireValues_fresh slot n :
  s_data (vs_Values (acquireValues slot n)) = replicate n 0 ∧
  s_data (vs_Nulls (acquireValues slot n)) = replicate (bitmapSize n) 0.
Proof.
  unfold acquireValues. destruct slot as [v|]; [case_decide|]; simpl;
    rewrite ?s_data_make, ?s_data_clear by lia; done.
Qed.

Lemma mergeNullBitmapsInto_spec dst a b n i :
  (n ≤ 8 * length dst)%nat → (n ≤ 8 * length a)%nat → (n ≤ 8 * length b)%nat → (i < n)%nat →
  bit_valid (mergeNullBitmapsInto dst a b n) i = bit_valid a i && bit_valid b i.
Proof.
  intros Hd Ha Hb Hi. unfold mergeNullBitmapsInto, bit_valid.
  rewrite (foldl_insert_spec (λ i, Z.land (default 0xFF (a !! i)) (default 0xFF (b !! i)))) by lia.
  rewrite decide_True by (unfold bitmapSize; lia).
  destruct (lookup_lt_is_Some_2 a (i / 8)) as [x Hx]; [lia|].
  destruct (lookup_lt_is_Some_2 b (i / 8)) as [y Hy]; [lia|].
  rewrite Hx, Hy. simpl. by rewrite Z.land_spec.
Qed.
Lemma length_mergeNullBitmapsInto dst a b n :
  length (mergeNullBitmapsInto dst a b n) = length dst.
Proof. apply (length_foldl_insert (λ i, Z.land (default 0xFF (a !! i)) (default 0xFF (b !! i)))). Qed.

(** A copied bitmap agrees with its source on the copied rows. *)
Lemma bit_valid_copy bm n i :
  (n ≤ 8 * length bm)%nat → (i < n)%nat →
  bit_valid (copy (replicate (bitmapSize n) 0) bm) i = bit_valid bm i.
Proof.
  intros Hb Hi. unfold bit_valid. rewrite copy_spec, length_replicate.
  rewrite decide_True by (unfold bitmapSize; lia). by rewrite decide_True by lia.
Qed.

(** ** Properties *)

(** C20: Reuse is invisible.  Whatever a slot holds from earlier batches (any
    contents, length and capacity), the acquired vector is exactly a freshly
    allocated one: zeroed values, an all-NULL bitmap of (n+7)/8 bytes and n
    rows; and the acquired valid bitmap is [storage.FullBitmap], bits past the
    last row cleared. *)
Theorem acquire_fresh (bslot : option BoolSlot) (vslot : option ValSlot) (slot : slc) n :
  let size := bitmapSize n in
  (acquireBoolVector bslot n).1 = BoolVector (replicate size 0) (replicate size 0) n ∧
  (acquireInt64Vector vslot n).1 = Int64Vector (replicate n 0) (replicate size 0) ∧
  (acquireFloat64Vector vslot n).1 = Float64Vector (replicate n 0) (replicate size 0) ∧
  (acquireValidBitmap slot n).1 = FullBitmap n.
Proof.
  cbv zeta. destruct (acquireValues_fresh vslot n) as [Hv Hn]. split; [|split; [|split]].
  - unfold acquireBoolVector. destruct bslot as [bv|]; [case_decide|]; simpl;
      rewrite ?s_data_make, ?s_data_clear by lia; done.
  - unfold acquireInt64Vector. simpl. by rewrite Hv, Hn.
  - unfold acquireFloat64Vector. simpl. by rewrite Hv, Hn.
  - unfold acquireValidBitmap. simpl. apply setAllValid_full. case_decide.
    + by rewrite s_data_make, length_replicate.
    + unfold s_data, s_reslice, s_cap in *. simpl. rewrite length_take. lia.
Qed.

(** [copyVector] copies.  The copy of the first [n] rows of a well-formed
    vector has the same type, exactly [n] rows, and reads the same in every
    row, NULLs included; nothing of it panics. *)
Lemma copyVector_cells v n :
  vec_wf v → (n ≤ Len v)%nat →
  ∃ v', copyVector v n = Ret v' ∧ VType v' = VType v ∧ Len v' = n ∧ vec_wf v' ∧
    ∀ i, (i < n)%nat → vec_cell v' i = vec_cell v i.
Proof.
  intros [Hw Hb] Hn.
  assert (Hnull : ∀ v' i, Nulls v' = copy (replicate (bitmapSize n) 0) (Nulls v) → (i < n)%nat →
    vec_value v' i = vec_value v i → vec_cell v' i = vec_cell v i).
  { intros v' i Hv' Hi E. unfold vec_cell. rewrite !IsNull_Ret, Hv', bit_valid_copy by
      (rewrite ?Hv', ?length_copy, ?length_replicate; unfold bitmapSize; lia).
    cbn [mbind go_bind]. by rewrite E. }
  assert (Hidx : ∀ (vs : list Z) i, (n ≤ length vs)%nat → (i < n)%nat →
    index (copy (replicate n 0) (take n vs)) i = index vs i).
  { intros vs i Hl Hi. rewrite copy_full by (rewrite length_take, length_replicate; lia).
    unfold index. by rewrite lookup_take_lt. }
  destruct v as [vs nb|vs nb|bits nb m|codes dict nb|vs nb]; cbn [Len Nulls copyVector] in *;
    try (rewrite slice_Ret by lia; cbn [mbind go_bind]; rewrite drop_0, Nat.sub_0_r).
  all: eexists; split; [done|]; split; [done|]; split;
    [cbn [Len]; rewrite ?length_copy, ?length_replicate; done|].
  all: split; [split; cbn [Len Nulls]; rewrite ?length_copy, ?length_replicate; unfold bitmapSize; try done; lia|].
  all: intros i Hi; apply Hnull; [done|done|]; cbn [vec_value sv_Get].
  - by rewrite Hidx.
  - by rewrite Hidx.
  - rewrite !bv_Get_Ret by (rewrite ?length_copy, ?length_replicate; unfold bitmapSize; lia).
    by rewrite bit_valid_copy by lia.
  - destruct dict; cbn [sv_Get]; [by rewrite Hidx|done].
  - by rewrite Hidx.
Qed.

Lemma copyVector_cells_witness :
  ∃ v', copyVector (BoolVector [5; 1] [7; 1] 9) 3 = Ret v' ∧ VType v' = TypeBool ∧ Len v' = 3%nat ∧
    vec_wf v' ∧
    ∀ i, (i < 3)%nat → vec_cell v' i = vec_cell (BoolVector [5; 1] [7; 1] 9) i.
Proof. apply (copyVector_cells (BoolVector [5; 1] [7; 1] 9) 3); [split; simpl; lia|simpl; lia]. Defined.
