(* ===== verification/Scan.v ===== *)
(** * Package exec: the table scan ([exec/scan.go])

    Row groups in order, those the zone predicate rejects skipped unread, the
    others streamed block by block into vectors whose values live in decode
    buffers the scan reuses.  The buffers are modelled with their contents, so
    that reuse is visible; the theorem is that a scan of a written file yields
    its rows.  [rgDone] is written and never read, and is left out. *)
From Stdlib Require Import ZArith Lia ZifyNat.
From stdpp Require Import base numbers list strings gmap.
From S2P Require Import Prelude Encoding Codec Float64 Schema Writer Reader Volume Verify Batch Scratch.
#[local] Open Scope Z_scope.

(** ** Decode buffers *)

(** Every buffer is its whole backing array: its length is the capacity. *)
Record scanBuffers : Type := mkScanBuffers {
  int64Bufs : list (list Z);
  float64Bufs : list (list Z);
  int32Bufs : list (list Z);
  uint32Bufs : list (list Z);
  nullBufs : list (list Z);
  colBufIdx : list Z
}.

Definition initScanBuffers (schema : Schema) : scanBuffers :=
  let '(idx, n64, nf, n32, nu) := foldl (λ '(idx, n64, nf, n32, nu) f,
      match Type_ f with
      | TypeInt64 => (idx ++ [Z.of_nat n64], S n64, nf, n32, nu)
      | TypeFloat64 => (idx ++ [Z.of_nat nf], n64, S nf, n32, nu)
      | TypeDate => (idx ++ [Z.of_nat n32], n64, nf, S n32, nu)
      | TypeString => (idx ++ [Z.of_nat nu], n64, nf, n32, S nu)
      | _ => (idx ++ [-1], n64, nf, n32, nu)
      end) ([], 0%nat, 0%nat, 0%nat, 0%nat) schema in
  mkScanBuffers (replicate n64 []) (replicate nf []) (replicate n32 []) (replicate nu [])
    (replicate (length schema) []) idx.

(** [getInt64Buf] and its three siblings: the buffer of at least [rows] elements
    at [idx], grown in place when it is too small.  A negative index panics. *)
Definition getBuf (bufs : list (list Z)) (idx : Z) (rows : nat) : go (list Z * list (list Z)) :=
  if decide (idx < 0) then Panic else
  b ← index bufs (Z.to_nat idx);
  if decide (rows ≤ length b)%nat then Ret (b, bufs)
  else let b := replicate rows 0 in
       bufs ← store bufs (Z.to_nat idx) b; Ret (b, bufs).
Definition getNullBuf (sb : scanBuffers) (colIdx rows : nat) : go (list Z * list (list Z)) :=
  getBuf (nullBufs sb) (Z.of_nat colIdx) ((rows + 7) / 8).

(** The loops write elements [0, rows) of a buffer and leave the rest. *)
Definition putElem (sz : nat) (conv : Z → Z) (p : list Z) (vals : list Z) (i : nat)
    : go (list Z) :=
  rest ← slice p (i * sz) (length p);
  u ← LE_Uint sz rest;
  store vals i (conv u).
(** The unrolled loop: [stride] elements a turn, then the remainder. *)
Fixpoint decodeLoop (fuel : nat) (sz stride : nat) (conv : Z → Z) (p : list Z) (rows i : nat)
    (vals : list Z) : go (list Z) :=
  match fuel with
  | O => OutOfFuel
  | S fuel =>
      if decide (i + stride ≤ rows)%nat then
        vals ← foldM (putElem sz conv p) vals (seq i stride);
        decodeLoop fuel sz stride conv p rows (i + stride) vals
      else foldM (putElem sz conv p) vals (seq i (rows - i))
  end.

Definition putBuf (bufs : list (list Z)) (idx : Z) (b : list Z) : list (list Z) :=
  <[Z.to_nat idx := b]> bufs.
(** [copy(nb, nullBitmap)] into the null buffer: the bitmap and the buffers. *)
Definition fillNulls (sb : scanBuffers) (colIdx rows : nat) (nullBitmap : list Z)
    : go (list Z * list (list Z)) :=
  '(b, bufs) ← getNullBuf sb colIdx rows;
  let need := ((rows + 7) / 8)%nat in
  let nb := copy (take need b) nullBitmap in
  Ret (nb, putBuf bufs (Z.of_nat colIdx) (nb ++ drop need b)).

(** A fixed-width column: decoded values, bitmap, and the two buffer pools. *)
Definition decodeFixed (sz stride : nat) (conv : Z → Z) (bufs : list (list Z)) (sb : scanBuffers)
    (colIdx : nat) (nullBitmap payload : list Z) (rows : nat)
    : go (list Z * list Z * list (list Z) * list (list Z)) :=
  idx ← index (colBufIdx sb) colIdx;
  '(b, bufs) ← getBuf bufs idx rows;
  p ← slice payload 0 (rows * sz);
  b ← decodeLoop (S rows) sz stride conv p rows 0 b;
  '(nb, nulls) ← fillNulls sb colIdx rows nullBitmap;
  Ret (take rows b, nb, putBuf bufs idx b, nulls).

Definition payloadToVector (sb : scanBuffers) (field : Field) (nullBitmap : option (list Z))
    (payload : list Z) (rows : nat) (cr : ColumnReader) (colIdx : nat) : go (Vector * scanBuffers) :=
  let nullBitmap := default [] nullBitmap in
  match Type_ field with
  | TypeInt64 =>
      '(vals, nb, bufs, nulls) ←
        decodeFixed 8 8 to_i64 (int64Bufs sb) sb colIdx nullBitmap payload rows;
      Ret (Int64Vector vals nb, mkScanBuffers bufs (float64Bufs sb) (int32Bufs sb)
             (uint32Bufs sb) nulls (colBufIdx sb))
  | TypeFloat64 =>
      '(vals, nb, bufs, nulls) ←
        decodeFixed 8 8 id (float64Bufs sb) sb colIdx nullBitmap payload rows;
      Ret (Float64Vector vals nb, mkScanBuffers (int64Bufs sb) bufs (int32Bufs sb)
             (uint32Bufs sb) nulls (colBufIdx sb))
  | TypeDate =>
      '(vals, nb, bufs, nulls) ←
        decodeFixed 4 16 to_i32 (int32Bufs sb) sb colIdx nullBitmap payload rows;
      Ret (DateVector vals nb, mkScanBuffers (int64Bufs sb) (float64Bufs sb) bufs
             (uint32Bufs sb) nulls (colBufIdx sb))
  | TypeBool =>
      '(vals, nulls, _) ← DecodeRLEBool payload;
      let nb := copy (replicate ((rows + 7) / 8) 0) nulls in
      bits ← foldM (λ bits '(i, v), bv_Set bits i v) (replicate ((rows + 7) / 8) 0) (enum vals);
      Ret (BoolVector bits nb rows, sb)
  | TypeString =>
      idx ← index (colBufIdx sb) colIdx;
      '(b, bufs) ← getBuf (uint32Bufs sb) idx rows;
      b ← foldM (putElem 4 id payload) b (seq 0 rows);
      '(nb, nulls) ← fillNulls sb colIdx rows nullBitmap;
      dict ← readDictionary cr;
      Ret (StringVector (take rows b) (Some dict) nb,
           mkScanBuffers (int64Bufs sb) (float64Bufs sb) (int32Bufs sb) (putBuf bufs idx b)
             nulls (colBufIdx sb))
  | TypeOther _ => Err (ErrMsg "exec: scan: unsupported type")
  end.

(** ** The scan *)

Abbreviation ZonePredicate := (RowGroupMeta → bool).

Record TableScan : Type := mkTableScan {
  ts_reader : Reader;
  ts_schema : Schema;
  colMap : list Z;
  zonePred : option ZonePredicate;
  rgStart : Z;
  rgEnd : Z;
  rgIdx : Z;
  crList : option (list ColumnReader);
  bufs : option scanBuffers
}.

Definition NewTableScanRange (reader : Reader) (projectedCols : list string)
    (zp : option ZonePredicate) (s e : Z) : go TableScan :=
  let srcSchema := fm_Schema (r_meta reader) in
  '(outFields, cm) ←
    (if decide (length projectedCols = 0%nat) then
       Ret (srcSchema, Z.of_nat <$> seq 0 (length srcSchema))
     else foldM (λ '(fs, cm) name,
         let idx := IndexOf srcSchema name in
         if decide (idx < 0) then Err (ErrMsg "exec: scan: column not found") else
         f ← index srcSchema (Z.to_nat idx);
         Ret (fs ++ [f], cm ++ [idx])) ([], []) projectedCols);
  Ret (mkTableScan reader outFields cm zp s e s None None).
Definition NewTableScan (reader : Reader) (projectedCols : list string)
    (zp : option ZonePredicate) : go TableScan :=
  NewTableScanRange reader projectedCols zp 0 (Z.of_nat (length (RowGroups (r_meta reader)))).

Definition SetOutputNames (s : TableScan) (names : list string) : go TableScan :=
  if decide (length names ≠ length (ts_schema s))
  then Err (ErrMsg "exec: scan: output names for columns") else
  let fields := zip_with (λ f n, mkField n (Type_ f) (Enc f) (Nullable f)) (ts_schema s) names in
  Ret (mkTableScan (ts_reader s) fields (colMap s) (zonePred s) (rgStart s) (rgEnd s) (rgIdx s)
    (crList s) (bufs s)).

Definition set_rg (s : TableScan) (i : Z) (crs : option (list ColumnReader)) : TableScan :=
  mkTableScan (ts_reader s) (ts_schema s) (colMap s) (zonePred s) (rgStart s) (rgEnd s) i crs (bufs s).
Definition set_bufs (s : TableScan) (b : option scanBuffers) : TableScan :=
  mkTableScan (ts_reader s) (ts_schema s) (colMap s) (zonePred s) (rgStart s) (rgEnd s) (rgIdx s)
    (crList s) b.

(** [closeRowGroup]: the readers hand their windows back and are dropped. *)
Definition closeRowGroup (s : TableScan) : TableScan := set_rg s (rgIdx s) None.

Definition openRowGroup (s : TableScan) (rg : Z) : go (list ColumnReader) :=
  foldM (λ crs c, cr ← OpenColumn (ts_reader s) rg c; Ret (crs ++ [cr])) [] (colMap s).

(** One block from each column reader.  The readers are changed in place, on the
    error paths too. *)
Fixpoint readColumns (schema : Schema) (crs : list ColumnReader) (i : nat) (sb : scanBuffers)
    (vectors : list Vector) (batchLen : nat)
    : go (option (list Vector * nat)) * list ColumnReader * scanBuffers :=
  match crs with
  | [] => (Ret (Some (vectors, batchLen)), [], sb)
  | cr :: crs =>
      match NextBlock cr with
      | (Ret (nullBitmap, payload, rows), cr) =>
          let batchLen := if decide (i = 0%nat) then rows else batchLen in
          match (field ← index schema i; payloadToVector sb field nullBitmap payload rows cr i) with
          | Ret (vec, sb) =>
              let '(res, crs, sb) := readColumns schema crs (S i) sb (vectors ++ [vec]) batchLen in
              (res, cr :: crs, sb)
          | Err e => (Err e, cr :: crs, sb)
          | Panic => (Panic, cr :: crs, sb)
          | OutOfFuel => (OutOfFuel, cr :: crs, sb)
          end
      | (Err EOF, cr) => (Ret None, cr :: crs, sb)
      | (Err e, cr) => (Err e, cr :: crs, sb)
      | (Panic, cr) => (Panic, cr :: crs, sb)
      | (OutOfFuel, cr) => (OutOfFuel, cr :: crs, sb)
      end
  end.

(** [readBlock]: [None] is its [done]. *)
Definition readBlock (s : TableScan) : go (option Batch) * TableScan :=
  match crList s with
  | None | Some [] => (Ret None, s)
  | Some crs =>
      let sb := match bufs s with Some sb => sb | None => initScanBuffers (ts_schema s) end in
      let '(res, crs, sb) := readColumns (ts_schema s) crs 0 sb [] 0 in
      let s := set_bufs (set_rg s (rgIdx s) (Some crs)) (Some sb) in
      (match res with
       | Ret (Some (vectors, batchLen)) => Ret (Some (mkBatch (ts_schema s) vectors batchLen None))
       | Ret None => Ret None
       | Err e => Err e
       | Panic => Panic
       | OutOfFuel => OutOfFuel
       end, s)
  end.

(** [Next]; [ctxErr] is what [ctx.Err()] answers during the call. *)
Fixpoint ScanNext (fuel : nat) (ctxErr : option error) (s : TableScan)
    : go (option Batch) * TableScan :=
  match fuel with
  | O => (OutOfFuel, s)
  | S fuel =>
      match ctxErr with
      | Some e => (Err e, s)
      | None =>
          let opened : go (option bool) * TableScan :=
            match crList s with
            | Some _ => (Ret (Some true), s)
            | None =>
                if decide (rgEnd s ≤ rgIdx s) then (Ret None, s) else
                match (if decide (rgIdx s < 0) then Panic
                       else index (RowGroups (r_meta (ts_reader s))) (Z.to_nat (rgIdx s))) with
                | Ret rg =>
                    if match zonePred s with Some p => negb (p rg) | None => false end
                    then (Ret (Some false), set_rg s (rgIdx s + 1) None)
                    else
                      match openRowGroup s (rgIdx s) with
                      | Ret crs => (Ret (Some true), set_rg s (rgIdx s) (Some crs))
                      | Err e => (Err e, s)
                      | Panic => (Panic, s)
                      | OutOfFuel => (OutOfFuel, s)
                      end
                | _ => (Panic, s)
                end
            end in
          match opened with
          | (Ret None, s) => (Ret None, s)
          | (Ret (Some false), s) => ScanNext fuel ctxErr s
          | (Ret (Some true), s) =>
              match readBlock s with
              | (Ret (Some batch), s) => (Ret (Some batch), s)
              | (Ret None, s) =>
                  ScanNext fuel ctxErr (set_rg (closeRowGroup s) (rgIdx s + 1) None)
              | (Err e, s) => (Err e, s)
              | (Panic, s) => (Panic, s)
              | (OutOfFuel, s) => (OutOfFuel, s)
              end
          | (Err e, s) => (Err e, s)
          | (Panic, s) => (Panic, s)
          | (OutOfFuel, s) => (OutOfFuel, s)
          end
      end
  end.

Definition Reset (s : TableScan) (a b : Z) : TableScan :=
  let s := closeRowGroup s in
  mkTableScan (ts_reader s) (ts_schema s) (colMap s) (zonePred s) a b a (crList s) (bufs s).

(** The consumer's loop. *)
Fixpoint scan_all (fuel : nat) (s : TableScan) : go (list Batch) :=
  match fuel with
  | O => OutOfFuel
  | S fuel =>
      match ScanNext (S (Z.to_nat (rgEnd s - rgIdx s))) None s with
      | (Ret (Some b), s) => bs ← scan_all fuel s; Ret (b :: bs)
      | (Ret None, _) => Ret []
      | (Err e, _) => Err e
      | (Panic, _) => Panic
      | (OutOfFuel, _) => OutOfFuel
      end
  end.

(** ** Lemmas: decoding into reused buffers *)

Lemma decodeLoop_eq fuel sz stride conv p rows i vals :
  (0 < stride)%nat → (rows - i < fuel)%nat →
  decodeLoop fuel sz stride conv p rows i vals
  = foldM (putElem sz conv p) vals (seq i (rows - i)).
Proof.
  intros Hs. revert i vals. induction fuel as [|fuel IH]; intros i vals Hf; [lia|].
  cbn [decodeLoop]. case_decide; [|done].
  replace (rows - i)%nat with (stride + (rows - (i + stride)))%nat by lia.
  rewrite seq_app, foldM_app. destruct (foldM _ vals _); try done. cbn [mbind go_bind].
  by rewrite IH by lia.
Qed.

Lemma putElem_loop {V} (enc1 : V → list Z) sz conv (get : V → Z) vs b :
  (∀ v, v ∈ vs → ∃ w, enc1 v = le_bytes sz w ∧ conv (w mod 256 ^ Z.of_nat sz) = get v) →
  (∀ v, length (enc1 v) = sz) → (length vs ≤ length b)%nat →
  foldM (putElem sz conv (concat (enc1 <$> vs))) b (seq 0 (length vs))
  = Ret ((get <$> vs) ++ drop (length vs) b).
Proof.
  intros Henc Hsz Hl. pose proof (length_concat_enc enc1 sz vs Hsz) as Hlp.
  destruct (foldM_seq_ind (putElem sz conv (concat (enc1 <$> vs)))
    (λ k l, l = (get <$> take k vs) ++ drop k b) (length vs) b) as (l & -> & ->).
  - by rewrite take_0.
  - intros k l Hk ->. destruct (lookup_lt_is_Some_2 _ _ Hk) as [v Hv].
    destruct (drop_concat_enc enc1 sz vs k v Hsz Hv) as [rest Hr].
    destruct (Henc v) as (w & Hw & Hg); [by eapply list_elem_of_lookup_2|].
    unfold putElem. rewrite slice_Ret by nia. cbn [mbind go_bind]. rewrite Hr, Hw.
    rewrite (take_ge (le_bytes sz w ++ rest)).
    2:{ apply (f_equal length) in Hr. rewrite length_drop in Hr. rewrite <- Hw. lia. }
    rewrite LE_Uint_app. cbn [mbind go_bind]. rewrite Hg.
    rewrite store_Ret by (rewrite length_app, length_fmap, length_take, length_drop; lia).
    eexists. split; [done|]. rewrite (take_S_r _ _ _ Hv), fmap_app, <- app_assoc.
    rewrite insert_app_r_alt by (rewrite length_fmap, length_take; lia). f_equal.
    rewrite length_fmap, length_take. replace (k - k `min` length vs)%nat with 0%nat by lia.
    destruct (lookup_lt_is_Some_2 b k) as [x Hx]; [lia|].
    rewrite (drop_S _ _ _ Hx). done.
  - by rewrite take_ge.
Qed.

Lemma getBuf_spec bufs k rows :
  (k < length bufs)%nat →
  ∃ b bufs', getBuf bufs (Z.of_nat k) rows = Ret (b, bufs') ∧ (rows ≤ length b)%nat ∧
    length bufs' = length bufs.
Proof.
  intros Hk. unfold getBuf. rewrite decide_False by lia. rewrite Nat2Z.id.
  destruct (lookup_lt_is_Some_2 _ _ Hk) as [b Hb]. rewrite (index_Ret _ _ _ Hb).
  cbn [mbind go_bind]. case_decide; [by exists b, bufs|].
  rewrite store_Ret by done. eexists _, _. split; [done|].
  by rewrite length_replicate, length_insert.
Qed.
Lemma length_putBuf bufs k b : length (putBuf bufs k b) = length bufs.
Proof. apply length_insert. Qed.

Lemma fillNulls_spec sb i rows bn :
  (i < length (nullBufs sb))%nat → length bn = ((rows + 7) / 8)%nat →
  ∃ nulls, fillNulls sb i rows bn = Ret (bn, nulls) ∧ length nulls = length (nullBufs sb).
Proof.
  intros Hi Hbn. unfold fillNulls, getNullBuf.
  destruct (getBuf_spec (nullBufs sb) i ((rows + 7) / 8) Hi) as (b & bufs & -> & Hb & Hl).
  cbn [mbind go_bind]. rewrite copy_full by (rewrite length_take; lia).
  eexists. split; [done|]. by rewrite length_putBuf.
Qed.

(** Whatever the buffers hold, the decoded values are the block's. *)
Lemma decodeFixed_spec {V} (enc1 : V → list Z) sz stride conv (get : V → Z) bufs sb i k bn vs :
  (0 < stride)%nat →
  (∀ v, v ∈ vs → ∃ w, enc1 v = le_bytes sz w ∧ conv (w mod 256 ^ Z.of_nat sz) = get v) →
  (∀ v, length (enc1 v) = sz) →
  colBufIdx sb !! i = Some (Z.of_nat k) → (k < length bufs)%nat → (i < length (nullBufs sb))%nat →
  length bn = ((length vs + 7) / 8)%nat →
  ∃ bufs' nulls', decodeFixed sz stride conv bufs sb i bn (concat (enc1 <$> vs)) (length vs)
    = Ret (get <$> vs, bn, bufs', nulls') ∧ length bufs' = length bufs ∧
    length nulls' = length (nullBufs sb).
Proof.
  intros Hs Henc Hsz Hidx Hk Hi Hbn. unfold decodeFixed.
  rewrite (index_Ret _ _ _ Hidx). cbn [mbind go_bind].
  destruct (getBuf_spec bufs k (length vs) Hk) as (b & bufs1 & -> & Hb & Hl).
  cbn [mbind go_bind]. pose proof (length_concat_enc enc1 sz vs Hsz) as Hlp.
  rewrite slice_Ret by lia. cbn [mbind go_bind]. rewrite drop_0, take_ge by lia.
  rewrite decodeLoop_eq by lia. rewrite Nat.sub_0_r.
  rewrite (putElem_loop enc1 sz conv get) by done. cbn [mbind go_bind].
  destruct (fillNulls_spec sb i (length vs) bn Hi Hbn) as (nulls & -> & Hn). cbn [mbind go_bind].
  rewrite take_app_length' by by rewrite length_fmap.
  eexists _, _. split; [done|]. by rewrite length_putBuf.
Qed.

(** Buffers that serve the columns of [schema]. *)
Definition bufs_wf (schema : Schema) (sb : scanBuffers) : Prop :=
  length (nullBufs sb) = length schema ∧
  ∀ i f, schema !! i = Some f →
    let has (bufs : list (list Z)) :=
      ∃ k, colBufIdx sb !! i = Some (Z.of_nat k) ∧ (k < length bufs)%nat in
    match Type_ f with
    | TypeInt64 => has (int64Bufs sb)
    | TypeFloat64 => has (float64Bufs sb)
    | TypeDate => has (int32Bufs sb)
    | TypeString => has (uint32Bufs sb)
    | _ => True
    end.

Lemma initScanBuffers_wf schema : bufs_wf schema (initScanBuffers schema).
Proof.
  unfold initScanBuffers. match goal with |- context [foldl ?g _ _] => set (step := g) end.
  assert (H : let '(idx, n64, nf, n32, nu) := foldl step ([], 0%nat, 0%nat, 0%nat, 0%nat) schema in
    length idx = length schema ∧ ∀ i f, schema !! i = Some f →
    let has (n : nat) := ∃ k, idx !! i = Some (Z.of_nat k) ∧ (k < n)%nat in
    match Type_ f with
    | TypeInt64 => has n64 | TypeFloat64 => has nf | TypeDate => has n32 | TypeString => has nu
    | _ => True
    end).
  { induction schema as [|f schema IH] using rev_ind; [done|].
    rewrite foldl_app. destruct (foldl step _ schema) as [[[[idx n64] nf] n32] nu].
    destruct IH as [Hl IH]. cbn [foldl]. rewrite length_app. cbn [length].
    destruct (Type_ f) eqn:Et; unfold step; rewrite Et; (split; [rewrite length_app; simpl; lia|]);
      intros i g [[_ Hg]|[-> <-]]%lookup_snoc_Some; rewrite ?Et; cbv zeta.
    all: try (specialize (IH i g Hg); cbv zeta in IH;
      destruct (Type_ g); try done; destruct IH as (k & Hk & ?); exists k;
      (split; [by apply lookup_app_l_Some|lia])).
    all: try done; eexists; (split; [rewrite <- Hl; apply lookup_snoc_last|lia]). }
  revert H. destruct (foldl step _ schema) as [[[[idx n64] nf] n32] nu]. intros [Hl H].
  split; [apply length_replicate|]. intros i f Hf. specialize (H i f Hf). cbv zeta in *.
  cbn [colBufIdx int64Bufs float64Bufs int32Bufs uint32Bufs].
  destruct (Type_ f); rewrite ?length_replicate; done.
Qed.

(** ** Lemmas: one block of one column *)

(** [v] is a well-formed vector of type [t] that reads as [cells]. *)
Definition vec_is (t : DataType) (cells : list (option Cell)) (v : Vector) : Prop :=
  VType v = t ∧ vec_ok v ∧ Len v = length cells ∧ vec_cells v = Ret cells.

(** The rows of a column, as cells. *)
Definition col_cells (d : ColData) : list (option Cell) :=
  match d.2 with
  | VInt64 vs => cells_of CInt (col_rows d.1 vs)
  | VFloat64 vs => cells_of CFloat (col_rows d.1 vs)
  | VBool vs => cells_of CBool (col_rows d.1 vs)
  | VString vs => cells_of CStr (col_rows d.1 vs)
  | VDate vs => cells_of CDate (col_rows d.1 vs)
  | VOther => []
  end.

(** Block [b] of a column of type [t] decodes to [cells], whatever the buffers
    hold; [rd] is what reading the column's dictionary gives. *)
Definition block_decodes (t : DataType) (rd : go Dictionary) (b : Block)
    (cells : list (option Cell)) : Prop :=
  b.2 = length cells ∧
  ∀ schema sb i f cr, bufs_wf schema sb → schema !! i = Some f → Type_ f = t →
    readDictionary cr = rd →
    ∃ v sb', payloadToVector sb f b.1.1 b.1.2 b.2 cr i = Ret (v, sb') ∧
      bufs_wf schema sb' ∧ vec_is t cells v.

Lemma bufs_wf_update schema sb b64 bf b32 bu nulls :
  bufs_wf schema sb → length b64 = length (int64Bufs sb) → length bf = length (float64Bufs sb) →
  length b32 = length (int32Bufs sb) → length bu = length (uint32Bufs sb) →
  length nulls = length (nullBufs sb) →
  bufs_wf schema (mkScanBuffers b64 bf b32 bu nulls (colBufIdx sb)).
Proof.
  intros [Hn H] H64 Hf H32 Hu Hnl. split; [simpl; by rewrite Hnl|]. intros i f Hi.
  specialize (H i f Hi). cbv zeta in *. cbn [colBufIdx int64Bufs float64Bufs int32Bufs uint32Bufs].
  by rewrite H64, Hf, H32, Hu.
Qed.

Lemma enc_i64_dec v : inS 64 v → to_i64 (to_u64 v mod 256 ^ Z.of_nat 8) = v.
Proof.
  intros H. change (256 ^ Z.of_nat 8) with (2 ^ 64). fold (wrapU 64 (to_u64 v)).
  rewrite (wrapU_id 64 (to_u64 v)) by (apply wrapU_in; lia). by apply wrapS_wrapU.
Qed.

Lemma enc_i32_dec v : inS 32 v → to_i32 (to_u32 v mod 256 ^ Z.of_nat 4) = v.
Proof.
  intros H. change (256 ^ Z.of_nat 4) with (2 ^ 32). fold (wrapU 32 (to_u32 v)).
  rewrite (wrapU_id 32 (to_u32 v)) by (apply wrapU_in; lia). by apply wrapS_wrapU.
Qed.

(** The three fixed-width types: name the encoding, the pool, and how one
    element decodes. *)
#[local] Ltac decodes_fixed enc sz stride conv pool dec cells :=
  split; [cbn; by rewrite length_cells_of, length_col_rows|];
  let schema := fresh "schema" in let sb := fresh "sb" in let i := fresh "i" in
  let f := fresh "f" in let Hwf := fresh "Hwf" in let Hi := fresh "Hi" in
  let Ht := fresh "Ht" in let Hh := fresh "Hh" in let k := fresh "k" in
  let Hnl := fresh "Hnl" in let E := fresh "E" in
  intros schema sb i f ? Hwf Hi Ht _; pose proof Hwf as [Hnl Hh];
  specialize (Hh i f Hi); rewrite Ht in Hh; destruct Hh as (k & ? & ?);
  unfold payloadToVector; rewrite Ht; cbn [fst snd];
  match goal with
  | bn : list Z, vs : list Z, Hv : Forall _ _ |- _ =>
      destruct (decodeFixed_spec enc sz stride conv id (pool sb) sb i k bn vs)
        as (? & ? & E & ? & ?);
        [lia
        |intros v Hvin; eexists; split; [reflexivity|]; apply dec; by eapply Forall_forall in Hv
        |intros; apply length_le_bytes|done|done|rewrite Hnl; by eapply lookup_lt_Some|done|];
      change (default [] (Some bn)) with bn; rewrite E
  end; cbn [mbind go_bind]; rewrite list_fmap_id;
  eexists _, _; split; [done|]; split; [by apply bufs_wf_update|];
  split; [done|]; split; [split; [split; [cbn [Len Nulls]; lia|done]|done]|];
  split; [by rewrite length_cells_of, length_col_rows|]; apply cells; lia.

Lemma decodes_int64 rd bn vs :
  length bn = ((length vs + 7) / 8)%nat → Forall (inS 64) vs →
  block_decodes TypeInt64 rd (Some bn, concat (enc_i64 <$> vs), length vs)
    (cells_of CInt (col_rows bn vs)).
Proof.
  intros Hbn Hv. decodes_fixed enc_i64 8%nat 8%nat (wrapS 64) int64Bufs enc_i64_dec vec_cells_int64.
Qed.
Lemma decodes_float64 rd bn vs :
  length bn = ((length vs + 7) / 8)%nat → Forall (inU 64) vs →
  block_decodes TypeFloat64 rd (Some bn, concat (enc_u64 <$> vs), length vs)
    (cells_of CFloat (col_rows bn vs)).
Proof.
  intros Hbn Hv.
  decodes_fixed enc_u64 8%nat 8%nat (@id Z) float64Bufs (wrapU_id 64) vec_cells_float64.
Qed.
Lemma decodes_date rd bn vs :
  length bn = ((length vs + 7) / 8)%nat → Forall (inS 32) vs →
  block_decodes TypeDate rd (Some bn, concat (enc_i32 <$> vs), length vs)
    (cells_of CDate (col_rows bn vs)).
Proof.
  intros Hbn Hv. decodes_fixed enc_i32 4%nat 16%nat (wrapS 32) int32Bufs enc_i32_dec vec_cells_date.
Qed.

Lemma decodes_string keys bn codes rows :
  NoDup keys → dict_fits keys → Forall2 (code_of keys) codes rows → Forall (inU 32) codes →
  length bn = ((length codes + 7) / 8)%nat →
  (∀ i o, rows !! i = Some o → bit_valid bn i = bool_decide (is_Some o)) →
  block_decodes TypeString (Ret (mkDictionary (dict_offsets keys) (dict_data keys) []))
    (Some bn, concat (enc_u32 <$> codes), length codes) (cells_of CStr rows).
Proof.
  intros Hnd Hfit Hcodes Hu Hbn Hbits. pose proof (Forall2_length _ _ _ Hcodes) as Hlen.
  split; [cbn; by rewrite length_cells_of|].
  intros schema sb i f cr Hwf Hi Ht Hrd. pose proof Hwf as [Hnl Hh].
  specialize (Hh i f Hi). rewrite Ht in Hh. destruct Hh as (k & Hk & Hkl).
  unfold payloadToVector. rewrite Ht. cbn [fst snd].
  rewrite (index_Ret _ _ _ Hk). cbn [mbind go_bind].
  destruct (getBuf_spec (uint32Bufs sb) k (length codes) Hkl) as (b & bufs & -> & Hb & Hl).
  cbn [mbind go_bind]. rewrite (putElem_loop enc_u32 4 id id); [|
    |intros; apply length_le_bytes|done].
  2:{ intros v Hv. exists v. split; [done|]. apply (wrapU_id 32). by eapply Forall_forall in Hv. }
  cbn [mbind go_bind]. change (default [] (Some bn)) with bn.
  destruct (fillNulls_spec sb i (length codes) bn) as (nulls & -> & Hnulls);
    [rewrite Hnl; by eapply lookup_lt_Some|done|].
  cbn [mbind go_bind]. rewrite Hrd. cbn [mbind go_bind]. rewrite list_fmap_id, take_app_length.
  eexists _, _. split; [done|]. split; [apply bufs_wf_update; rewrite ?length_putBuf; done|].
  split; [done|]. split.
  { split; [split; [cbn [Len Nulls]; lia|done]|]. exists keys.
    split; [done|]. split; [done|]. split; [apply dict_inv_fresh|]. intros j c Hj Hv.
    destruct (Forall2_lookup_l _ _ _ _ _ Hcodes Hj) as (o & Ho & Hco).
    rewrite (Hbits _ _ Ho) in Hv. destruct o as [s|]; [|done].
    destruct Hco as (m & -> & Hm). eauto. }
  split; [by rewrite length_cells_of|].
  apply (vec_cells_string _ _ keys); [done|apply dict_inv_fresh|done|lia|..].
  - intros j s Hj. split; [rewrite (Hbits _ _ Hj); by apply bool_decide_true|].
    destruct (Forall2_lookup_r _ _ _ _ _ Hcodes Hj) as (c & Hc & m & -> & Hm). eauto.
  - intros j Hj. rewrite (Hbits _ _ Hj). apply bool_decide_false. by intros [].
Qed.

(** The bits of a decoded BOOL block, one [Set] per value. *)
Lemma bv_Set_loop vals bits0 :
  (length vals ≤ 8 * length bits0)%nat → (∀ i, bit_valid bits0 i = false) →
  ∃ bits, foldM (λ bits '(i, v), bv_Set bits i v) bits0 (enum vals) = Ret bits ∧
    length bits = length bits0 ∧ ∀ i v, vals !! i = Some v → bit_valid bits i = v.
Proof.
  intros Hl H0. destruct (foldM_enum_ind (λ bits '(i, v), bv_Set bits i v)
    (λ k bits, length bits = length bits0 ∧
      ∀ i v, vals !! i = Some v → (i < k)%nat → bit_valid bits i = v) vals bits0)
    as (bits & E & Hlb & Hb).
  - split; [done|]. intros; lia.
  - intros k v bits Hk [Hlb Hb]. pose proof (lookup_lt_Some _ _ _ Hk).
    rewrite bv_Set_Ret by lia. eexists. split; [done|]. split; [by rewrite length_bm_set|].
    intros i w Hi Hik. rewrite bit_valid_bm_set by lia. case_decide as Hd.
    + subst. congruence.
    + apply Hb; [done|lia].
  - exists bits. split; [done|]. split; [done|]. intros i v Hi. apply Hb; [done|].
    by eapply lookup_lt_Some.
Qed.

Lemma decodes_bool rd bn vs :
  (length vs ≤ 8 * length bn)%nat → (length vs ≤ BlockRows)%nat →
  block_decodes TypeBool rd (None, bool_block bn vs, length vs) (cells_of CBool (col_rows bn vs)).
Proof.
  intros Hc Hs. split; [cbn; by rewrite length_cells_of, length_col_rows|].
  intros schema sb i f cr Hwf Hi Ht _. unfold payloadToVector. rewrite Ht. cbn [fst snd].
  destruct (EncodeDecodeRLE vs bn Hc (BlockRows_small _ Hs))
    as (b & values & nulls & Eb & Ed & Hlv & Hln & Hnb & Hvals).
  unfold bool_block. rewrite Eb, Ed. cbn [mbind go_bind].
  rewrite copy_full by by rewrite length_replicate.
  destruct (bv_Set_loop values (replicate ((length vs + 7) / 8) 0)) as (bits & -> & Hlb & Hb);
    [rewrite length_replicate; lia|intros; apply bit_valid_zeros|].
  rewrite length_replicate in Hlb. cbn [mbind go_bind].
  eexists _, _. split; [done|]. split; [done|]. split; [done|].
  split; [split; [split; cbn [Len Nulls]; lia|done]|]. split; [by rewrite length_cells_of, length_col_rows|].
  apply vec_cells_spec; [by rewrite length_cells_of, length_col_rows|].
  intros j c Hj. unfold cells_of, col_rows in Hj. rewrite list_lookup_fmap, list_lookup_imap in Hj.
  destruct (vs !! j) as [v|] eqn:Hv; [|done]. injection Hj as <-.
  pose proof (lookup_lt_Some _ _ _ Hv). unfold vec_cell.
  rewrite IsNull_Ret by (cbn [Nulls]; lia). cbn [mbind go_bind Nulls].
  rewrite Hnb, bool_decide_true by done. simpl. pose proof (Hvals _ _ Hv) as Hvj.
  destruct (bit_valid bn j); [|done]. cbn [negb vec_value].
  rewrite bv_Get_Ret by lia. cbn [mbind go_bind]. by rewrite (Hb _ _ Hvj).
Qed.

(** ** Lemmas: one column, block after block *)

Lemma window_dict cr off n : readDictionary (window cr off n).2 = readDictionary cr.
Proof. unfold window. repeat case_match; try done; by repeat case_match. Qed.
Lemma nextFixedBlock_dict cr rows : readDictionary (nextFixedBlock cr rows).2 = readDictionary cr.
Proof.
  unfold nextFixedBlock. pose proof (window_dict cr (cr_pos cr)
    (Z.of_nat (NullBitmapBytes + rows * ValueSize (Type_ (cr_field cr)) + 4))) as H. cbv zeta.
  destruct (window _ _ _) as [[buf|e| |] cr']; try done. destruct (VerifyTrailing buf); exact H.
Qed.
Lemma nextBoolBlock_dict cr rows : readDictionary (nextBoolBlock cr rows).2 = readDictionary cr.
Proof.
  unfold nextBoolBlock. pose proof (window_dict cr (cr_pos cr) 4) as H. cbv zeta.
  destruct (window cr (cr_pos cr) 4) as [[buf|e| |] cr']; try done. cbn [snd] in H.
  destruct (GetUint32 buf) as [rc|e| |]; try done. case_decide; [done|].
  pose proof (window_dict cr' (cr_pos cr) (4 + rc * 5 + 4)) as H2.
  destruct (window cr' _ _) as [[b|e| |] cr2]; cbn [snd] in *; by rewrite <- H.
Qed.
Lemma NextBlock_dict cr : readDictionary (NextBlock cr).2 = readDictionary cr.
Proof.
  unfold NextBlock. case_decide; [done|]. cbv zeta. cbn [cr_field].
  destruct (Type_ (cr_field cr)); (etrans; [apply nextBoolBlock_dict || apply nextFixedBlock_dict|done]).
Qed.

(** The blocks still to come decode to [bl]. *)
Definition serves (t : DataType) (cr : ColumnReader) (bl : list (list (option Cell))) : Prop :=
  ∃ fuel blocks, readBlocks fuel cr = Ret blocks ∧
    Forall2 (block_decodes t (readDictionary cr)) blocks bl.

Lemma serves_nil t cr : serves t cr [] → ∃ cr', NextBlock cr = (Err EOF, cr').
Proof.
  intros (fuel & blocks & Hr & ->%Forall2_nil_inv_r). destruct fuel as [|fuel]; [done|].
  cbn [readBlocks] in Hr. destruct (NextBlock cr) as [[b|e| |] cr']; try done.
  - apply go_bind_Ret_inv in Hr as (bs & _ & [=]).
  - destruct e; try done. eauto.
Qed.
Lemma serves_cons t cr c bl :
  serves t cr (c :: bl) →
  ∃ b cr', NextBlock cr = (Ret b, cr') ∧ block_decodes t (readDictionary cr') b c ∧
    serves t cr' bl.
Proof.
  intros (fuel & blocks & Hr & H). pose proof (NextBlock_dict cr) as Hd.
  apply Forall2_cons_inv_r in H as (b & blocks' & Hb & H & ->).
  destruct fuel as [|fuel]; [done|]. cbn [readBlocks] in Hr.
  destruct (NextBlock cr) as [[b'|e| |] cr']; try done; [|by destruct e].
  apply go_bind_Ret_inv in Hr as (bs & Hbs & [= -> ->]). cbn [snd] in Hd.
  exists b, cr'. rewrite <- Hd in Hb, H. split; [done|]. split; [done|]. by exists fuel, blocks'.
Qed.

Lemma blk_cells_of {V} (mk : V → Cell) s rows :
  blk s (cells_of mk rows) = cells_of mk (blk s rows).
Proof. unfold blk, cells_of. by rewrite fmap_take, fmap_drop, length_fmap. Qed.

(** The rows of a column of [n] rows, cut into blocks. *)
Definition cell_blocks (n : nat) (cells : list (option Cell)) : list (list (option Cell)) :=
  (λ s, blk s cells) <$> block_starts n.

Lemma length_col_cells n d : data_ok n d → d.2 ≠ VOther → length (col_cells d) = n.
Proof.
  intros [_ H] Hd. unfold col_cells. destruct (d.2); try done;
    rewrite length_cells_of, length_col_rows; try done; by destruct H.
Qed.

(** A fixed-width column serves its rows, if its blocks decode. *)
Lemma serves_fixed {V W} (enc1 : W → list Z) (mk : V → Cell) t cr fuel nulls (vals : list W)
    (rows : list (option V)) :
  readBlocks fuel cr = Ret (fixed_blocks enc1 nulls vals) →
  length rows = length vals →
  (∀ s, (s < length vals)%nat → block_decodes t (readDictionary cr)
     (Some (sub_bm nulls s (length (blk s vals))), concat (enc1 <$> blk s vals), length (blk s vals))
     (cells_of mk (blk s rows))) →
  serves t cr (cell_blocks (length vals) (cells_of mk rows)).
Proof.
  intros Hr Hl Hb. exists fuel, (fixed_blocks enc1 nulls vals). split; [done|].
  unfold fixed_blocks, cell_blocks. apply Forall2_fmap. apply Forall2_same_length_lookup.
  split; [done|]. intros k s s' Hs Hs'. rewrite Hs in Hs'. injection Hs' as <-.
  apply lookup_block_starts in Hs as [-> Hs]. rewrite blk_cells_of. by apply Hb.
Qed.

Lemma stored_serves file t n m d f :
  stored file t n m d → Type_ f = t → Z.of_nat (length file) < 2 ^ 63 →
  serves t (freshColumn file f m n) (cell_blocks n (col_cells d)).
Proof.
  intros Hst Htf Hsz. pose proof (stored_reads _ _ _ _ _ f Hst Htf Hsz) as Hrd.
  destruct Hst as ((Hcover & Hd) & Ht & _). specialize (Hrd _ (Nat.lt_succ_diag_r _)).
  destruct d as [nulls values]. unfold col_cells. cbn [fst snd] in *.
  assert (Hblk : ∀ {V} (vs : list V) s, length vs = n → (s < length vs)%nat →
    length (sub_bm nulls s (length (blk s vs))) = ((length (blk s vs) + 7) / 8)%nat ∧
    (length (blk s vs) ≤ BlockRows)%nat ∧
    col_rows (sub_bm nulls s (length (blk s vs))) (blk s vs) = blk s (col_rows nulls vs)).
  { intros V vs s Hl Hs. pose proof (block_end_spec _ _ Hs). rewrite length_blk by done.
    destruct (sub_bm_spec nulls s (block_end (length vs) s - s)) as (-> & _ & _); [lia|].
    split; [done|]. split; [lia|]. apply col_rows_blk; [done|lia]. }
  assert (Hsub : ∀ (P : Z → Prop) vs s, Forall P vs → Forall P (blk s vs)).
  { intros P vs s HP. by apply Forall_take, Forall_drop. }
  destruct values as [vs|vs|vs|vs|vs|]; [| | | | |done]; destruct t; try done.
  - destruct Hd as [Hl Hv]. rewrite <- Hl at 2.
    eapply serves_fixed; [exact Hrd|apply length_col_rows|]. intros s Hs.
    destruct (Hblk _ vs s Hl Hs) as (? & ? & <-). apply decodes_int64; auto.
  - destruct Hd as [Hl Hv]. rewrite <- Hl at 2.
    eapply serves_fixed; [exact Hrd|apply length_col_rows|]. intros s Hs.
    destruct (Hblk _ vs s Hl Hs) as (? & ? & <-). apply decodes_float64; auto.
  - rewrite <- Hd at 2. eexists _, _. split; [exact Hrd|]. unfold bool_blocks, cell_blocks.
    apply Forall2_fmap, Forall2_same_length_lookup. split; [done|].
    intros k s s' Hs Hs'. rewrite Hs in Hs'. injection Hs' as <-.
    apply lookup_block_starts in Hs as [-> Hs]. rewrite blk_cells_of.
    destruct (Hblk _ vs _ Hd Hs) as (? & ? & <-). apply decodes_bool; lia.
  - destruct Hrd as (keys & codes & Hnd & Hfit & Hlc & Hcodes & Hrd & Hdict).
    destruct Hd as [Hl _]. pose proof (Forall2_length _ _ _ Hcodes) as Hlr.
    rewrite <- Hlc at 2.
    eapply serves_fixed; [exact Hrd|done|]. intros s Hs. rewrite Hdict.
    destruct (Hblk _ codes s Hlc Hs) as (Hlb & ? & _).
    apply (decodes_string keys); try done.
    + unfold blk. rewrite Hlr. by apply Forall2_take, Forall2_drop.
    + apply Hsub. by eapply code_of_in32.
    + intros i o Hi. unfold blk in Hi.
      destruct (decide (i < block_end (length (col_rows nulls vs)) s - s)%nat) as [Hlt|Hge];
        [|by rewrite lookup_take_ge in Hi by lia].
      rewrite lookup_take_lt, lookup_drop in Hi by done. unfold col_rows in Hi.
      rewrite list_lookup_imap in Hi. destruct (vs !! (s + i)%nat) as [w|] eqn:Hw; [|done].
      injection Hi as <-. rewrite length_blk by done. rewrite Hlr, length_col_rows in *.
      pose proof (block_end_spec (length vs) s ltac:(lia)).
      destruct (sub_bm_spec nulls s (block_end (length vs) s - s)) as (_ & _ & ->); [lia|].
      rewrite bool_decide_true by done. simpl. by destruct (bit_valid nulls (s + i)).
  - destruct Hd as [Hl Hv]. rewrite <- Hl at 2.
    eapply serves_fixed; [exact Hrd|apply length_col_rows|]. intros s Hs.
    destruct (Hblk _ vs s Hl Hs) as (? & ? & <-). apply decodes_date; auto.
Qed.

(** ** Lemmas: one batch *)

(** Column [j] of a block given as a list of columns. *)
Definition c_at (c : list (list (option Cell))) (j : nat) : list (option Cell) := default [] (c !! j).

Lemma readColumns_block schema c rest L crs : ∀ i sb vectors bl,
  (length crs + i)%nat = length schema → bufs_wf schema sb →
  (∀ j f cr, schema !! (i + j)%nat = Some f → crs !! j = Some cr →
     serves (Type_ f) cr (c_at c (i + j) :: ((λ x, c_at x (i + j)) <$> rest))) →
  (∀ j, (i ≤ j < length schema)%nat → length (c_at c j) = L) →
  ∃ crs' vs sb' bl',
    readColumns schema crs i sb vectors bl = (Ret (Some (vectors ++ vs, bl')), crs', sb') ∧
    bufs_wf schema sb' ∧ length crs' = length crs ∧ length vs = length crs ∧
    (∀ j f cr, schema !! (i + j)%nat = Some f → crs' !! j = Some cr →
       serves (Type_ f) cr ((λ x, c_at x (i + j)) <$> rest)) ∧
    (∀ j f v, schema !! (i + j)%nat = Some f → vs !! j = Some v →
       vec_is (Type_ f) (c_at c (i + j)) v) ∧
    (i ≠ 0%nat → bl' = bl) ∧ (i = 0%nat → crs ≠ [] → bl' = L).
Proof.
  induction crs as [|cr crs IH]; intros i sb vectors bl Hlen Hwf Hserve HL.
  { exists [], [], sb, bl. rewrite app_nil_r. repeat (split; [done|]).
    by intros _ []. }
  cbn [length] in Hlen. destruct (lookup_lt_is_Some_2 schema i) as [f Hf]; [lia|].
  pose proof (Hserve 0%nat f cr) as H0. rewrite Nat.add_0_r in H0.
  destruct (serves_cons _ _ _ _ (H0 Hf eq_refl)) as (b & cr' & Hnext & [Hb Hdec] & Hserve').
  cbn [readColumns]. rewrite Hnext. destruct b as [[nb p] rows]. cbn [fst snd] in *.
  rewrite (index_Ret _ _ _ Hf). cbn [mbind go_bind].
  destruct (Hdec schema sb i f cr' Hwf Hf eq_refl eq_refl) as (v & sb' & -> & Hwf' & Hv).
  set (bl1 := if decide (i = 0%nat) then rows else bl).
  destruct (IH (S i) sb' (vectors ++ [v]) bl1) as (crs' & vs & sb2 & bl' & E & Hwf2 & Hlc & Hlv & Hs2 & Hv2 & Hbl & _);
    [lia|done| |intros; apply HL; lia|].
  { intros j g cr0 Hg Hcr. replace (S i + j)%nat with (i + S j)%nat in * by lia. by apply Hserve. }
  rewrite E. exists (cr' :: crs'), (v :: vs), sb2, bl'. rewrite <- app_assoc.
  split; [done|]. split; [done|]. split; [simpl; lia|]. split; [simpl; lia|]. split; [|split; [|split]].
  - intros [|j] g cr0 Hg Hcr.
    + injection Hcr as <-. rewrite Nat.add_0_r in *. rewrite Hf in Hg. by injection Hg as <-.
    + replace (i + S j)%nat with (S i + j)%nat in * by lia. by apply Hs2.
  - intros [|j] g v0 Hg Hv0.
    + injection Hv0 as <-. rewrite Nat.add_0_r in *. rewrite Hf in Hg. by injection Hg as <-.
    + replace (i + S j)%nat with (S i + j)%nat in * by lia. by apply Hv2.
  - intros Hi. rewrite Hbl by done. subst bl1. by rewrite decide_False.
  - intros -> _. rewrite Hbl by done. subst bl1. cbn. rewrite Hb. apply HL. simpl in Hlen. lia.
Qed.

Lemma readColumns_eof schema cr crs sb f :
  serves (Type_ f) cr [] →
  ∃ crs', readColumns schema (cr :: crs) 0 sb [] 0 = (Ret None, crs', sb).
Proof. intros [cr' E]%serves_nil. exists (cr' :: crs). cbn [readColumns]. by rewrite E. Qed.

(** ** The rows a scan yields *)

Definition kept (zp : option ZonePredicate) (rg : RowGroupMeta) : bool :=
  match zp with Some p => p rg | None => true end.
(** The projected columns of one row group, and its batches. *)
Definition group_rows (cm : list Z) (g : nat * list ColData) : list (list (option Cell)) :=
  (λ c, col_cells (default ([], VOther) (g.2 !! Z.to_nat c))) <$> cm.
Definition group_batches (cm : list Z) (g : nat * list ColData)
    : list (list (list (option Cell))) :=
  (λ s, blk s <$> group_rows cm g) <$> block_starts g.1.
(** Row groups [i, e). *)
Definition sub {A} (i e : nat) (l : list A) : list A := take (e - i) (drop i l).
Definition scan_batches (cm : list Z) (zp : option ZonePredicate) (rgs : list RowGroupMeta)
    (gs : list (nat * list ColData)) : list (list (list (option Cell))) :=
  concat (zip_with (λ rg g, if kept zp rg then group_batches cm g else []) rgs gs).

(** A batch that holds the block [c], row for row. *)
Definition batch_is (schema : Schema) (c : list (list (option Cell))) (b : Batch) : Prop :=
  b_Schema b = schema ∧ SelVec b = None ∧ length (Vectors b) = length schema ∧
  (0 < b_Length b ≤ BlockRows)%nat ∧
  ∀ j f v, schema !! j = Some f → Vectors b !! j = Some v →
    vec_is (Type_ f) (c_at c j) v ∧ Len v = b_Length b.

Lemma sub_cons {A} i e (l : list A) x :
  (i < e)%nat → l !! i = Some x → sub i e l = x :: sub (S i) e l.
Proof.
  intros Hi Hx. unfold sub. rewrite (drop_S _ _ _ Hx).
  by replace (e - i)%nat with (S (e - S i)) by lia.
Qed.
Lemma sub_nil {A} i e (l : list A) : (e ≤ i)%nat → sub i e l = [].
Proof. intros. unfold sub. by replace (e - i)%nat with 0%nat by lia. Qed.

Section scan.
Context (r : Reader) (src schema : Schema) (sess : Session) (cm : list Z)
  (zp : option ZonePredicate).
Hypothesis Hfile : file_repr src r sess.
(** Each output column has the type of the file column it maps to. *)
Hypothesis Hmap : Forall2 (λ f c, ∃ k f', c = Z.of_nat k ∧ src !! k = Some f' ∧
  Type_ f = Type_ f') schema cm.
Hypothesis Hcols : schema ≠ [].

#[local] Abbreviation rgs := (RowGroups (r_meta r)).
#[local] Abbreviation gs := (s_done sess).

Definition from (i e : nat) : list (list (list (option Cell))) :=
  scan_batches cm zp (sub i e rgs) (sub i e gs).

Lemma from_step i e rg g :
  (i < e)%nat → rgs !! i = Some rg → gs !! i = Some g →
  from i e = (if kept zp rg then group_batches cm g else []) ++ from (S i) e.
Proof using.
  intros Hi Hrg Hg. unfold from.
  by rewrite (sub_cons _ _ _ _ Hi Hrg), (sub_cons _ _ _ _ Hi Hg).
Qed.
Lemma from_end i e : (e ≤ i)%nat → from i e = [].
Proof using. intros. unfold from. by rewrite !sub_nil. Qed.

(** Open column readers of the current row group, with [cur] still to come. *)
Definition block_ok (c : list (list (option Cell))) : Prop :=
  ∃ L, (0 < L ≤ BlockRows)%nat ∧ ∀ j, (j < length schema)%nat → length (c_at c j) = L.
Definition crs_at (crs : list ColumnReader) (cur : list (list (list (option Cell)))) : Prop :=
  length crs = length schema ∧ Forall block_ok cur ∧
  ∀ j f cr, schema !! j = Some f → crs !! j = Some cr →
    serves (Type_ f) cr ((λ x, c_at x j) <$> cur).

Definition pending (s : TableScan) (rem : list (list (list (option Cell)))) : Prop :=
  ts_reader s = r ∧ ts_schema s = schema ∧ colMap s = cm ∧ zonePred s = zp ∧
  match bufs s with Some sb => bufs_wf schema sb | None => True end ∧
  ∃ i e, rgIdx s = Z.of_nat i ∧ rgEnd s = Z.of_nat e ∧ (e ≤ length gs)%nat ∧
  match crList s with
  | None => rem = from i e
  | Some crs => (i < e)%nat ∧ ∃ cur, rem = cur ++ from (S i) e ∧ crs_at crs cur
  end.

Lemma group_at i : (i < length gs)%nat → ∃ rg g, rgs !! i = Some rg ∧ gs !! i = Some g.
Proof using Hfile.
  intros Hi. destruct Hfile as (_ & _ & Hd). pose proof (Forall2_length _ _ _ Hd).
  destruct (lookup_lt_is_Some_2 gs i Hi) as [g Hg].
  destruct (lookup_lt_is_Some_2 rgs i) as [rg Hrg]; [lia|]. eauto.
Qed.

(** The data of an output column of group [i]. *)
Lemma group_column i n ds j f :
  gs !! i = Some (n, ds) → schema !! j = Some f →
  ∃ k f' d m, cm !! j = Some (Z.of_nat k) ∧ src !! k = Some f' ∧ Type_ f = Type_ f' ∧
    ds !! k = Some d ∧ stored (r_file r) (Type_ f') n m d ∧
    OpenColumn r (Z.of_nat i) (Z.of_nat k) = Ret (freshColumn (r_file r) f' m n).
Proof using Hfile Hmap.
  intros Hg Hf. destruct (Forall2_lookup_l _ _ _ _ _ Hmap Hf) as (c & Hc & k & f' & -> & Hk & Ht).
  pose proof Hfile as (_ & _ & Hd).
  destruct (Forall2_lookup_r _ _ _ _ _ Hd Hg) as (rg & Hrg & _ & _ & _ & Hlm & Hlc & _).
  cbn [snd] in Hlc. rewrite length_fmap in Hlc.
  destruct (lookup_lt_is_Some_2 ds k) as [d Hdk]; [apply lookup_lt_Some in Hk; congruence|].
  destruct (file_repr_column _ _ _ _ _ _ _ _ _ Hfile Hg Hdk Hk) as (? & m & _ & _ & _ & Hst & Ho).
  by exists k, f', d, m.
Qed.

Lemma group_column_cells i n ds j f :
  gs !! i = Some (n, ds) → schema !! j = Some f →
  ∃ d, c_at (group_rows cm (n, ds)) j = col_cells d ∧ length (col_cells d) = n.
Proof using Hfile Hmap.
  intros Hg Hf. destruct (group_column _ _ _ _ _ Hg Hf) as (k & f' & d & m & Hk & _ & _ & Hd & Hst & _).
  exists d. unfold c_at, group_rows. rewrite list_lookup_fmap, Hk. cbn [fmap option_fmap option_map default].
  rewrite Nat2Z.id. cbn [snd]. rewrite Hd. split; [done|].
  destruct Hst as (Hok & Ht & _). apply length_col_cells; [done|]. intros E. rewrite E in Ht.
  by destruct (Type_ f').
Qed.

Lemma Forall_choose {A B : Type} (P : A → B → Prop) l : Forall (λ a, ∃ b, P a b) l → ∃ bs, Forall2 P l bs.
Proof using.
  induction 1 as [|a l [b Hb] _ [bs Hbs]]; [by exists []|]. exists (b :: bs). by constructor.
Qed.
Lemma c_at_blk s rows j : c_at (blk s <$> rows) j = blk s (c_at rows j).
Proof using. unfold c_at. rewrite list_lookup_fmap. destruct (rows !! j); [done|].
  simpl. unfold blk. by rewrite drop_nil, take_nil.
Qed.

Lemma group_opened s i g :
  ts_reader s = r → colMap s = cm → gs !! i = Some g →
  ∃ crs, openRowGroup s (Z.of_nat i) = Ret crs ∧ crs_at crs (group_batches cm g).
Proof using Hfile Hmap.
  intros Hr Hc Hg. destruct g as [n ds]. unfold openRowGroup. rewrite Hr, Hc.
  destruct (Forall_choose (λ c cr, OpenColumn r (Z.of_nat i) c = Ret cr) cm) as [crs Hcrs].
  { apply Forall_lookup. intros j c Hj.
    destruct (Forall2_lookup_r _ _ _ _ _ Hmap Hj) as (f & Hf & _).
    destruct (group_column _ _ _ _ _ Hg Hf) as (k & f' & d & m & Hk & _ & _ & _ & _ & Ho).
    rewrite Hj in Hk. injection Hk as ->. eauto. }
  exists crs. rewrite (foldM_snoc _ _ crs Hcrs). split; [done|].
  pose proof (Forall2_length _ _ _ Hcrs). pose proof (Forall2_length _ _ _ Hmap).
  split; [lia|]. split.
  - apply Forall_fmap, Forall_lookup. intros k s0 [-> Hs]%lookup_block_starts. cbn [fst] in Hs.
    pose proof (block_end_spec _ _ Hs).
    exists (block_end n (k * BlockRows) - k * BlockRows)%nat. split; [lia|]. intros j Hj.
    destruct (lookup_lt_is_Some_2 schema j Hj) as [f Hf]. cbn [compose].
    rewrite c_at_blk. destruct (group_column_cells _ _ _ _ _ Hg Hf) as (d & -> & Hl).
    rewrite length_blk by lia. by rewrite Hl.
  - intros j f cr Hf Hcr. destruct (group_column_cells _ _ _ _ _ Hg Hf) as (d & Hd & _).
    destruct (group_column _ _ _ _ _ Hg Hf) as (k & f' & d' & m & Hk & Hkf & Ht & Hdk & Hst & Ho).
    assert (Hdd : c_at (group_rows cm (n, ds)) j = col_cells d').
    { unfold c_at, group_rows. rewrite list_lookup_fmap, Hk. cbn. by rewrite Nat2Z.id, Hdk. }
    rewrite (Forall2_lookup_lr _ _ _ _ _ _ Hcrs Hk Hcr) in Ho. injection Ho as ->.
    assert ((λ x, c_at x j) <$> group_batches cm (n, ds) = cell_blocks n (col_cells d')) as ->.
    { unfold group_batches, cell_blocks. rewrite <- list_fmap_compose. cbn [fst].
      apply list_fmap_ext. intros ? s0 _. cbn [compose]. by rewrite c_at_blk, Hdd. }
    rewrite Ht. apply stored_serves; [done|done|]. by destruct Hfile as (_ & ? & _).
Qed.

(** One call: the next block of rows, or the end. *)
Definition next_ok (res : go (option Batch) * TableScan) (rem : list (list (list (option Cell))))
    : Prop :=
  match rem with
  | [] => ∃ s', res = (Ret None, s') ∧ pending s' []
  | c :: rem => ∃ b s', res = (Ret (Some b), s') ∧ batch_is schema c b ∧ pending s' rem
  end.

Lemma readBlock_spec s crs cur i e :
  ts_reader s = r → ts_schema s = schema → colMap s = cm → zonePred s = zp →
  match bufs s with Some sb => bufs_wf schema sb | None => True end →
  rgIdx s = Z.of_nat i → rgEnd s = Z.of_nat e → (i < e)%nat → (e ≤ length gs)%nat →
  crList s = Some crs → crs_at crs cur →
  match cur with
  | [] => ∃ s', readBlock s = (Ret None, s') ∧
      rgIdx s' = rgIdx s ∧ rgEnd s' = rgEnd s ∧
      pending (set_rg (closeRowGroup s') (rgIdx s' + 1) None) (from (S i) e)
  | c :: cur => ∃ b s', readBlock s = (Ret (Some b), s') ∧ batch_is schema c b ∧
      pending s' (cur ++ from (S i) e)
  end.
Proof using Hcols Hmap.
  intros Hr Hs Hc Hz Hb Hi He Hie Hel Hcr (Hlc & Hok & Hserve). unfold readBlock.
  rewrite Hcr. destruct crs as [|cr crs]; [destruct schema; done|].
  rewrite Hs. set (sb := match bufs s with Some sb => sb | None => _ end).
  assert (Hwf : bufs_wf schema sb) by (subst sb; destruct (bufs s); [done|apply initScanBuffers_wf]).
  clearbody sb. destruct cur as [|c cur].
  - destruct (lookup_lt_is_Some_2 schema 0%nat) as [f Hf]; [simpl in Hlc; lia|].
    destruct (readColumns_eof schema cr crs sb f (Hserve 0%nat f cr Hf eq_refl)) as [crs' ->].
    eexists. split; [done|]. split; [done|]. split; [done|].
    repeat (split; [done|]). exists (S i), e. split; [cbn [rgIdx set_rg set_bufs]; lia|]. by split.
  - apply Forall_cons in Hok as [(L & HL & Hlen) Hok].
    destruct (readColumns_block schema c cur L (cr :: crs) 0 sb [] 0)
      as (crs' & vs & sb' & bl & -> & Hwf' & Hlc' & Hlv & Hs' & Hv & _ & Hbl);
      [simpl in *; lia|done|exact Hserve|intros j [_ Hj]; by apply Hlen|].
    specialize (Hbl eq_refl ltac:(done)). subst bl. eexists _, _. split; [done|].
    split.
    { repeat (split; [done || (simpl in *; lia)|]). intros j f v Hf Hvj.
      pose proof (Hv j f v Hf Hvj) as Hvec. split; [exact Hvec|].
      destruct Hvec as (_ & _ & -> & _). apply Hlen. by eapply lookup_lt_Some. }
    repeat (split; [done|]). exists i, e. split; [done|]. split; [done|]. split; [done|].
    cbn [crList set_bufs set_rg]. split; [done|]. exists cur. split; [done|].
    split; [lia|]. by split.
Qed.

Lemma ScanNext_spec fuel : ∀ s rem,
  pending s rem → (Z.to_nat (rgEnd s - rgIdx s) < fuel)%nat → next_ok (ScanNext fuel None s) rem.
Proof using Hfile Hmap Hcols.
  induction fuel as [|fuel IH]; intros s rem Hp Hf; [lia|].
  assert (Hmid : ∀ s crs cur i e,
    ts_reader s = r → ts_schema s = schema → colMap s = cm → zonePred s = zp →
    match bufs s with Some sb => bufs_wf schema sb | None => True end →
    rgIdx s = Z.of_nat i → rgEnd s = Z.of_nat e → (i < e)%nat → (e ≤ length gs)%nat →
    (e - i < S fuel)%nat → crList s = Some crs → crs_at crs cur →
    next_ok match readBlock s with
      | (Ret (Some batch), s) => (Ret (Some batch), s)
      | (Ret None, s) => ScanNext fuel None (set_rg (closeRowGroup s) (rgIdx s + 1) None)
      | (Err e, s) => (Err e, s) | (Panic, s) => (Panic, s) | (OutOfFuel, s) => (OutOfFuel, s)
      end (cur ++ from (S i) e)).
  { clear s rem Hp Hf. intros s crs cur i e ? ? ? ? ? Hi He Hie ? Hf Hcr Hat.
    pose proof (readBlock_spec s crs cur i e) as Hrb. destruct cur as [|c cur].
    - destruct Hrb as (s' & -> & E1 & E2 & Hp); try done. apply IH; [done|].
      cbn [rgIdx rgEnd set_rg closeRowGroup]. lia.
    - destruct Hrb as (b & s' & -> & Hb & Hp); try done. by exists b, s'. }
  destruct Hp as (Hr & Hs & Hc & Hz & Hb & i & e & Hi & He & Hel & Hcr).
  cbn [ScanNext]. destruct (crList s) as [crs|] eqn:Ecr.
  { destruct Hcr as (Hie & cur & -> & Hat). eapply Hmid; try done. lia. }
  subst rem. destruct (decide (rgEnd s ≤ rgIdx s)).
  { rewrite from_end by lia. exists s. split; [done|]. repeat (split; [done|]).
    exists i, e. rewrite Ecr. repeat (split; [done|]). by rewrite from_end by lia. }
  destruct (group_at i) as (rg & g & Hrg & Hg); [lia|].
  rewrite decide_False by lia. rewrite Hi, Nat2Z.id, Hr, (index_Ret _ _ _ Hrg).
  rewrite (from_step i e rg g) by (done || lia).
  assert (match zonePred s with Some p => negb (p rg) | None => false end = negb (kept zp rg))
    as -> by (rewrite Hz; by destruct zp).
  destruct (kept zp rg); cbn [negb].
  - destruct (group_opened s i g Hr Hc Hg) as (crs & -> & Hat).
    eapply (Hmid (set_rg s (Z.of_nat i) (Some crs))); try done; lia.
  - apply IH; [|cbn [rgIdx rgEnd set_rg]; lia]. repeat (split; [done|]).
    exists (S i), e. split; [cbn [rgIdx set_rg]; lia|]. by split.
Qed.

Lemma scan_all_spec rem : ∀ s fuel,
  pending s rem → (length rem < fuel)%nat →
  ∃ bs, scan_all fuel s = Ret bs ∧ Forall2 (batch_is schema) rem bs.
Proof using Hfile Hmap Hcols.
  induction rem as [|c rem IH]; intros s fuel Hp Hf; (destruct fuel as [|fuel]; [simpl in Hf; lia|]);
    pose proof (ScanNext_spec _ s _ Hp (Nat.lt_succ_diag_r _)) as H; cbn [scan_all].
  - destruct H as (s' & -> & _). by exists [].
  - destruct H as (b & s' & -> & Hb & Hp'). destruct (IH s' fuel Hp') as (bs & -> & Hbs);
      [simpl in Hf; lia|]. exists (b :: bs). split; [done|]. by constructor.
Qed.
End scan.

(** ** Lemmas: setting up a scan *)

Lemma IndexOf_cases src name :
  (∃ k f, IndexOf src name = Z.of_nat k ∧ src !! k = Some f ∧ Name f = name) ∨
  (IndexOf src name = -1 ∧ name ∉ Name <$> src).
Proof.
  destruct (list_find (λ f, Name f = name) src) as [[k f]|] eqn:E.
  - left. exists k, f. rewrite (IndexOf_Some _ _ _ _ E). apply list_find_Some in E. naive_solver.
  - right. split; [by apply IndexOf_None|]. apply list_find_None in E.
    intros (f & -> & Hf)%list_elem_of_fmap. by eapply Forall_forall in E.
Qed.

(** Output column [f] is file column [c]. *)
Definition same_field (src : Schema) (f : Field) (c : Z) : Prop :=
  ∃ k f', c = Z.of_nat k ∧ src !! k = Some f' ∧ Type_ f = Type_ f'.

Lemma project_names src names fs0 cm0 :
  let res := foldM (λ '(fs, cm) name,
      let idx := IndexOf src name in
      if decide (idx < 0) then Err (ErrMsg "exec: scan: column not found") else
      f ← index src (Z.to_nat idx); Ret (fs ++ [f], cm ++ [idx])) (fs0, cm0) names in
  if decide (Forall (λ name, name ∈ Name <$> src) names)
  then ∃ fs cm, res = Ret (fs0 ++ fs, cm0 ++ cm) ∧ Name <$> fs = names ∧
    Forall2 (same_field src) fs cm
  else ∃ e, res = Err e.
Proof.
  revert fs0 cm0. induction names as [|name names IH]; intros fs0 cm0; cbv zeta.
  { exists [], []. rewrite !app_nil_r. split; [done|]. by split. }
  cbn [foldM]. destruct (IndexOf_cases src name) as [(k & f & -> & Hf & Hn)|[-> Hn]].
  - rewrite (decide_False (P := Z.of_nat k < 0)) by lia.
    rewrite Nat2Z.id, (index_Ret _ _ _ Hf). cbn [mbind go_bind].
    specialize (IH (fs0 ++ [f]) (cm0 ++ [Z.of_nat k])). cbv zeta in IH.
    assert (Hin : name ∈ Name <$> src)
      by (rewrite <- Hn; apply list_elem_of_fmap_2; by eapply list_elem_of_lookup_2).
    destruct (decide (Forall _ names)) as [Hall|Hall].
    + rewrite decide_True by (by constructor). destruct IH as (fs & cm & -> & Hfs & Hcm).
      exists (f :: fs), (Z.of_nat k :: cm). rewrite <- !app_assoc. split; [done|].
      split; [by rewrite fmap_cons, Hn, Hfs|]. constructor; [|done]. by exists k, f.
    + rewrite decide_False; [done|]. by intros [_ ?]%Forall_cons.
  - rewrite (decide_True (P := -1 < 0)) by lia. rewrite decide_False; [by eexists|].
    by intros [? _]%Forall_cons.
Qed.

Lemma NewTableScanRange_spec r names zp a e :
  let src := fm_Schema (r_meta r) in
  if decide (Forall (λ name, name ∈ Name <$> src) names)
  then ∃ s, NewTableScanRange r names zp a e = Ret s ∧
    Name <$> ts_schema s = (if decide (names = []) then Name <$> src else names) ∧
    Forall2 (same_field src) (ts_schema s) (colMap s) ∧
    s = mkTableScan r (ts_schema s) (colMap s) zp a e a None None
  else ∃ e', NewTableScanRange r names zp a e = Err e'.
Proof.
  cbv zeta. unfold NewTableScanRange. set (src := fm_Schema (r_meta r)).
  pose proof (project_names src names [] []) as H. cbv zeta in H.
  destruct names as [|name names].
  - rewrite decide_True by constructor. eexists. split; [done|]. split; [done|]. split; [|done].
    apply Forall2_same_length_lookup. cbn [ts_schema colMap]. rewrite length_fmap, length_seq.
    split; [done|]. intros i f c Hf Hc. rewrite list_lookup_fmap in Hc.
    destruct (seq 0 (length src) !! i) eqn:Hs; [|done]. apply lookup_seq in Hs as [-> _].
    injection Hc as <-. by exists i, f.
  - rewrite (decide_False (P := length (name :: names) = 0%nat)) by done.
    rewrite (decide_False (P := name :: names = [])) by done.
    destruct (decide (Forall _ (name :: names))).
    + destruct H as (fs & cm & -> & Hfs & Hcm). eexists. split; [done|]. by split.
    + destruct H as [e' ->]. by exists e'.
Qed.

(** Renaming keeps the columns. *)
Lemma SetOutputNames_spec s names src :
  length names = length (ts_schema s) → Forall2 (same_field src) (ts_schema s) (colMap s) →
  ∃ s', SetOutputNames s names = Ret s' ∧ Name <$> ts_schema s' = names ∧
    Forall2 (same_field src) (ts_schema s') (colMap s') ∧
    s' = mkTableScan (ts_reader s) (ts_schema s') (colMap s) (zonePred s) (rgStart s) (rgEnd s)
           (rgIdx s) (crList s) (bufs s).
Proof.
  intros Hl H. unfold SetOutputNames. rewrite decide_False by auto. eexists. split; [done|].
  cbn [ts_schema colMap]. split; [|split; [|done]].
  - clear H. revert names Hl. generalize (ts_schema s) as fields.
    induction fields as [|f fs IH]; intros names Hl; destruct names; try done.
    cbn [zip_with fmap list_fmap Name]. f_equal. apply IH. simpl in Hl. lia.
  - apply Forall2_same_length_lookup. pose proof (Forall2_length _ _ _ H) as Hlc.
    rewrite length_zip_with. split; [lia|]. intros i f c Hf Hc.
    apply lookup_zip_with_Some in Hf as (g & name & -> & Hg & _).
    apply (Forall2_lookup_lr _ _ _ _ _ _ H Hg Hc).
Qed.

(** Cutting into blocks loses nothing. *)
Lemma concat_blk {A} (l : list A) : concat ((λ s, blk s l) <$> block_starts (length l)) = l.
Proof.
  set (starts := block_starts (length l)).
  assert (H : ∀ k, (k ≤ length starts)%nat →
    concat (take k ((λ s, blk s l) <$> starts)) = take (k * BlockRows) l).
  { induction k as [|k IH]; intros Hk; [done|].
    destruct (lookup_lt_is_Some_2 starts k) as [s Hs]; [lia|].
    pose proof Hs as [-> Hlt]%lookup_block_starts.
    rewrite (take_S_r _ _ (blk (k * BlockRows) l)) by (by rewrite list_lookup_fmap, Hs).
    rewrite concat_app, IH by lia. cbn [concat]. by rewrite app_nil_r, take_blk. }
  pose proof (length_block_starts (length l)) as [_ Hl].
  rewrite <- (take_ge ((λ s, blk s l) <$> starts) (length starts)) by by rewrite length_fmap.
  rewrite H by done. by apply take_ge.
Qed.

(** All rows of output column [j] of a run of batches. *)
Definition column_of (bs : list Batch) (j : nat) : go (list (option Cell)) :=
  foldM (λ acc b, v ← index (Vectors b) j; cs ← vec_cells v; Ret (acc ++ cs)) [] bs.
(** The rows of column [j] in the row groups a scan keeps. *)
Definition kept_column (cm : list Z) (zp : option ZonePredicate) (rgs : list RowGroupMeta)
    (gs : list (nat * list ColData)) (j : nat) : list (option Cell) :=
  concat (zip_with (λ rg g, if kept zp rg then c_at (group_rows cm g) j else []) rgs gs).

Lemma column_of_batches schema cs bs j f :
  Forall2 (batch_is schema) cs bs → schema !! j = Some f →
  column_of bs j = Ret (concat ((λ c, c_at c j) <$> cs)).
Proof.
  intros H Hf. unfold column_of.
  assert (G : ∀ acc, foldM (λ acc b, v ← index (Vectors b) j; cs ← vec_cells v; Ret (acc ++ cs))
    acc bs = Ret (acc ++ concat ((λ c, c_at c j) <$> cs))); [|apply (G [])].
  induction H as [|c b cs bs (_ & _ & Hl & _ & Hv) _ IH]; intros acc; [by rewrite app_nil_r|].
  cbn [foldM]. destruct (lookup_lt_is_Some_2 (Vectors b) j) as [v Hvj];
    [rewrite Hl; by eapply lookup_lt_Some|].
  rewrite (index_Ret _ _ _ Hvj). cbn [mbind go_bind].
  destruct (Hv j f v Hf Hvj) as ((_ & _ & _ & ->) & _). cbn [mbind go_bind].
  rewrite IH. cbn [fmap list_fmap concat]. by rewrite <- app_assoc.
Qed.

Lemma scan_column r src schema sess cm zp i e j f :
  file_repr src r sess → Forall2 (same_field src) schema cm → schema !! j = Some f →
  concat ((λ c, c_at c j) <$> scan_batches cm zp (sub i e (RowGroups (r_meta r))) (sub i e (s_done sess)))
  = kept_column cm zp (sub i e (RowGroups (r_meta r))) (sub i e (s_done sess)) j.
Proof.
  intros Hfile Hmap Hf. unfold scan_batches, kept_column.
  assert (Hall : Forall (λ g, length (c_at (group_rows cm g) j) = g.1) (sub i e (s_done sess))).
  { apply Forall_take, Forall_drop, Forall_lookup. intros k [n ds] Hg.
    by destruct (group_column_cells r src schema sess cm Hfile Hmap k n ds j f Hg Hf) as (d & -> & ?). }
  revert Hall. generalize (sub i e (RowGroups (r_meta r))) as rgs, (sub i e (s_done sess)) as gs.
  intros rgs gs Hall. revert rgs. induction Hall as [|g gs Hg _ IH]; intros [|rg rgs]; try done.
  cbn [zip_with concat]. rewrite fmap_app, concat_app, IH. f_equal.
  destruct (kept zp rg); [|done]. unfold group_batches. rewrite <- list_fmap_compose.
  rewrite (list_fmap_ext _ (λ s, blk s (c_at (group_rows cm g) j)) (block_starts g.1)).
  - rewrite <- Hg. apply concat_blk.
  - intros ? s _. cbn [compose]. apply c_at_blk.
Qed.

(** The rows of row groups [a, e), as a scan's batches must hold them. *)
Definition yields (schema : Schema) (r : Reader) (sess : Session) (cm : list Z)
    (zp : option ZonePredicate) (a e : nat) (bs : list Batch) : Prop :=
  let rgs := sub a e (RowGroups (r_meta r)) in
  let gs := sub a e (s_done sess) in
  Forall2 (batch_is schema) (scan_batches cm zp rgs gs) bs ∧
  ∀ j, (j < length schema)%nat → column_of bs j = Ret (kept_column cm zp rgs gs j).

Lemma scan_yields r src schema sess cm zp a e s fuel :
  file_repr src r sess → Forall2 (same_field src) schema cm → schema ≠ [] →
  pending r schema sess cm zp s (from r sess cm zp a e) →
  (length (from r sess cm zp a e) < fuel)%nat →
  ∃ bs, scan_all fuel s = Ret bs ∧ yields schema r sess cm zp a e bs.
Proof.
  intros Hfile Hmap Hne Hp Hf.
  destruct (scan_all_spec r src schema sess cm zp Hfile Hmap Hne _ s fuel Hp Hf) as (bs & E & Hbs).
  exists bs. split; [done|]. split; [done|]. intros j [f Hj]%lookup_lt_is_Some.
  rewrite (column_of_batches _ _ _ _ _ Hbs Hj). f_equal. by eapply scan_column.
Qed.

Lemma scan_all_mono fuel fuel' s bs :
  scan_all fuel s = Ret bs → (fuel ≤ fuel')%nat → scan_all fuel' s = Ret bs.
Proof.
  revert fuel' s bs. induction fuel as [|fuel IH]; intros fuel' s bs H Hf; [done|].
  destruct fuel' as [|fuel']; [lia|]. cbn [scan_all] in *.
  destruct (ScanNext _ None s) as [[[b|]|e| |] s']; try done.
  apply go_bind_Ret_inv in H as (bs' & H & [= <-]). by rewrite (IH fuel' _ _ H) by lia.
Qed.

(** [k] calls of [Next], whatever they return. *)
Fixpoint scan_steps (k : nat) (s : TableScan) : TableScan :=
  match k with
  | O => s
  | S k => scan_steps k (ScanNext (S (Z.to_nat (rgEnd s - rgIdx s))) None s).2
  end.
Lemma scan_steps_pending r src schema sess cm zp k s rem :
  file_repr src r sess → Forall2 (same_field src) schema cm → schema ≠ [] →
  pending r schema sess cm zp s rem → ∃ rem', pending r schema sess cm zp (scan_steps k s) rem'.
Proof.
  intros Hfile Hmap Hne. revert s rem. induction k as [|k IH]; intros s rem Hp; [by exists rem|].
  pose proof (ScanNext_spec r src schema sess cm zp Hfile Hmap Hne _ s rem Hp (Nat.lt_succ_diag_r _)) as H.
  cbn [scan_steps]. destruct rem as [|c rem].
  - destruct H as (s' & -> & Hp'). by eapply IH.
  - destruct H as (b & s' & -> & _ & Hp'). by eapply IH.
Qed.

Lemma pending_start r schema sess cm zp a e bs0 :
  (e ≤ length (s_done sess))%nat →
  match bs0 with Some sb => bufs_wf schema sb | None => True end → ∀ x,
  pending r schema sess cm zp
    (mkTableScan r schema cm zp x (Z.of_nat e) (Z.of_nat a) None bs0) (from r sess cm zp a e).
Proof. intros He Hb x. repeat (split; [done|]). by exists a, e. Qed.

(** ** Properties *)

(** C2: A scan returns the table.  Whatever legal sequence of writer calls made
    the file, opening it and scanning row groups [a, e) of any projection (all
    columns, or any list of existing names, in any order, repeated or renamed)
    yields batches that hold, column by column and in order, exactly the rows
    appended to the row groups the zone predicate keeps, NULLs included.  Each
    batch has the scan's schema, no selection vector, 1 to 1024 rows and as many
    in every vector; the scan ends, and no call fails or panics. *)
Theorem scan_returns_table path schema fs ops io :
  Z.of_nat (length schema) < 2 ^ 32 → Forall field_fits schema →
  legal schema emptySession ops →
  let sess := spec_ops schema emptySession ops in
  s_open sess = None → Z.of_nat (length (s_done sess)) < 2 ^ 32 →
  (let w := run_ops (NewWriter path schema fs).1 ops in
   Z.of_nat (length (w_out w ++ marshalFooter w)) < 2 ^ 63) →
  allOK io →
  ∃ fs' r,
    Finish io (run_ops (NewWriter path schema fs).1 ops) (NewWriter path schema fs).2
    = (Ret (), fs') ∧ Open fs' path = Ret r ∧
    ∀ names zp a e s, (e ≤ length (s_done sess))%nat →
      NewTableScanRange r names zp (Z.of_nat a) (Z.of_nat e) = Ret s → ts_schema s ≠ [] →
      ∃ n bs, (∀ fuel, (n < fuel)%nat → scan_all fuel s = Ret bs) ∧
        yields (ts_schema s) r sess (colMap s) zp a e bs.
Proof.
  intros Hsch Hf Hl sess Ho Hrg Hsz Hio.
  destruct (run_ops_repr path schema _ _ ops (repr_new path schema fs) Hl) as [Hr _].
  destruct (open_finished path schema _ _ io (NewWriter path schema fs).2 Hr)
    as (fs' & r & ? & ? & Hfr); try done.
  exists fs', r. split; [done|]. split; [done|]. intros names zp a e s He Hs Hne.
  pose proof (NewTableScanRange_spec r names zp (Z.of_nat a) (Z.of_nat e)) as H1. cbv zeta in H1.
  case_decide; [|destruct H1 as [? E]; congruence].
  destruct H1 as (s' & E & _ & Hmap & Hs'). rewrite E in Hs. injection Hs as ->.
  pose proof Hfr as (Hsrc & _). rewrite Hsrc in Hmap.
  set (n := length (from r sess (colMap s) zp a e)).
  assert (Hp : pending r (ts_schema s) sess (colMap s) zp s (from r sess (colMap s) zp a e)).
  { rewrite Hs' at 3. by apply pending_start. }
  destruct (scan_yields r schema (ts_schema s) sess (colMap s) zp a e s (S n) Hfr Hmap Hne Hp)
    as (bs & E' & Hy); [subst n; lia|].
  exists n, bs. split; [|done]. intros fuel Hfuel. by apply (scan_all_mono (S n)).
Qed.

Lemma scan_returns_table_witness :
  ∃ fs' r,
    Finish demo_io (run_ops (NewWriter "t" demo_schema ∅).1 demo_ops)
      (NewWriter "t" demo_schema ∅).2 = (Ret (), fs') ∧ Open fs' "t" = Ret r ∧
    ∀ names zp a e s, (e ≤ length (s_done (spec_ops demo_schema emptySession demo_ops)))%nat →
      NewTableScanRange r names zp (Z.of_nat a) (Z.of_nat e) = Ret s → ts_schema s ≠ [] →
      ∃ n bs, (∀ fuel, (n < fuel)%nat → scan_all fuel s = Ret bs) ∧
        yields (ts_schema s) r (spec_ops demo_schema emptySession demo_ops) (colMap s) zp a e bs.
Proof.
  apply (scan_returns_table "t" demo_schema ∅ demo_ops demo_io).
  - reflexivity.
  - repeat constructor.
  - exact demo_legal.
  - reflexivity.
  - reflexivity.
  - vm_compute. reflexivity.
  - repeat split.
Defined.

(** C18: [Reset] restarts a scan cleanly.  Take a scan (renamed or not) over a
    file that stores a session, call [Next] any number of times, stopping
    anywhere (mid row group included), and [Reset] it to row groups [a, e): it
    yields exactly the rows of those row groups, whatever the abandoned reads
    left in its buffers and readers.  So one open scan serves many morsels. *)
Theorem Reset_restarts r src sess names zp a0 e0 s0 rename s k a e :
  file_repr src r sess → (e0 ≤ length (s_done sess))%nat → (e ≤ length (s_done sess))%nat →
  NewTableScanRange r names zp (Z.of_nat a0) (Z.of_nat e0) = Ret s0 → ts_schema s0 ≠ [] →
  SetOutputNames s0 rename = Ret s →
  ∃ n bs, (∀ fuel, (n < fuel)%nat →
      scan_all fuel (Reset (scan_steps k s) (Z.of_nat a) (Z.of_nat e)) = Ret bs) ∧
    yields (ts_schema s) r sess (colMap s) zp a e bs.
Proof.
  intros Hfr He0 He Hs0 Hne Hs. pose proof Hfr as (Hsrc & _).
  pose proof (NewTableScanRange_spec r names zp (Z.of_nat a0) (Z.of_nat e0)) as H0. cbv zeta in H0.
  case_decide; [|destruct H0 as [? E]; congruence].
  destruct H0 as (s' & E & _ & Hmap0 & Hs'). rewrite E in Hs0. injection Hs0 as ->.
  rewrite Hsrc in Hmap0. assert (Hl : length rename = length (ts_schema s0)).
  { unfold SetOutputNames in Hs. by case_decide. }
  destruct (SetOutputNames_spec s0 rename src Hl Hmap0) as (s1 & E1 & Hn & Hmap & Hs1).
  rewrite E1 in Hs. injection Hs as ->.
  assert (Hne1 : ts_schema s ≠ []).
  { intros E2. rewrite E2 in Hn. simpl in Hn. subst rename. by destruct (ts_schema s0). }
  assert (Hcm : colMap s = colMap s0) by (rewrite Hs1; done).
  assert (Hp : pending r (ts_schema s) sess (colMap s) zp s (from r sess (colMap s) zp a0 e0)).
  { assert (Hs2 : s = mkTableScan r (ts_schema s) (colMap s) zp (Z.of_nat a0) (Z.of_nat e0)
      (Z.of_nat a0) None None).
    { etrans; [exact Hs1|]. f_equal; [by rewrite Hs'|done|by rewrite Hs'..]. }
    rewrite Hs2 at 3. by apply pending_start. }
  destruct (scan_steps_pending r src (ts_schema s) sess (colMap s) zp k s _ Hfr Hmap Hne1 Hp)
    as (rem' & Hr & Hsch & Hc & Hz & Hb & _).
  assert (HpR : pending r (ts_schema s) sess (colMap s) zp
    (Reset (scan_steps k s) (Z.of_nat a) (Z.of_nat e)) (from r sess (colMap s) zp a e)).
  { unfold Reset, closeRowGroup, set_rg.
    cbn [ts_reader ts_schema colMap zonePred crList bufs]. rewrite Hr, Hsch, Hc, Hz.
    by apply pending_start. }
  set (n := length (from r sess (colMap s) zp a e)).
  destruct (scan_yields r src (ts_schema s) sess (colMap s) zp a e _ (S n) Hfr Hmap Hne1 HpR)
    as (bs & E' & Hy); [subst n; lia|].
  exists n, bs. split; [|done]. intros fuel Hfuel. by apply (scan_all_mono (S n)).
Qed.

Definition demo_field : Field := mkField "id" TypeInt64 EncPlain false.
Definition demo_reader : Reader :=
  mkReader demo_file (mkFileMeta [demo_field] [mkRowGroupMeta 4 3 [demo_meta]]).
Definition demo_session : Session := mkSession [(3%nat, [demo_nulls_vals])] None.
Lemma demo_reader_repr : file_repr [demo_field] demo_reader demo_session.
Proof.
  split; [done|]. split; [vm_compute; done|]. constructor; [|constructor].
  split; [done|]. split; [vm_compute; done|]. split; [vm_compute; done|].
  split; [done|]. split; [done|]. intros i f d Hf Hd. destruct i as [|i]; [|by destruct i].
  injection Hf as <-. injection Hd as <-. exists demo_meta. split; [done|]. exact demo_stored.
Qed.
Definition demo_scan (name : string) : TableScan :=
  mkTableScan demo_reader [mkField name TypeInt64 EncPlain false] [0] None 0 1 0 None None.

Lemma Reset_restarts_witness :
  ∃ n bs, (∀ fuel, (n < fuel)%nat →
      scan_all fuel (Reset (scan_steps 1 (demo_scan "t.id")) 0 1) = Ret bs) ∧
    yields [mkField "t.id" TypeInt64 EncPlain false] demo_reader demo_session [0] None 0 1 bs.
Proof.
  apply (Reset_restarts demo_reader [demo_field] demo_session ["id"%string] None 0 1
    (demo_scan "id") ["t.id"%string] (demo_scan "t.id") 1 0 1).
  - exact demo_reader_repr.
  - reflexivity.
  - reflexivity.
  - reflexivity.
  - discriminate.
  - reflexivity.
Defined.
Example scan_example :
  (bs ← scan_all 5 (demo_scan "id"); column_of bs 0) = Ret [Some (CInt 7); Some (CInt (-1)); Some (CInt 3)].
Proof. vm_compute. reflexivity. Qed.
