(* ===== verification/VExpr.v ===== *)
(** * Package exec: vectorised expressions ([exec/expr.go])

    [Eval] computes a column of results a batch at a time, with the kernels the
    source uses: comparisons eight rows to a byte, three-valued AND and OR a
    byte of rows at a time.  Every node's output buffer is acquired zeroed, which
    [Scratch] proves equal to a fresh one, so buffers do not appear here; the
    cache of a [Literal] is modelled in [LiteralCache].  A dictionary's memo only
    speeds up [Get] ([Codec]), so its updates are dropped. *)
From Stdlib Require Import ZArith Lia ZifyNat Ascii.
From stdpp Require Import base numbers list strings gmap.
From S2P Require Import Prelude Encoding Codec Float64 Schema Writer Reader Batch Scratch.
#[local] Open Scope Z_scope.

(** ** Operators *)

Inductive BinOpKind : Type :=
  | BinEQ | BinNE | BinLT | BinLE | BinGT | BinGE | BinAdd | BinSub | BinMul | BinDiv.
#[export] Instance BinOpKind_eq_dec : EqDecision BinOpKind.
Proof. solve_decision. Defined.
Definition is_cmp (op : BinOpKind) : bool :=
  match op with BinEQ | BinNE | BinLT | BinLE | BinGT | BinGE => true | _ => false end.

(** [cmpInt64] and [cmpInt32]. *)
Definition cmpInt (op : BinOpKind) (a b : Z) : bool :=
  match op with
  | BinEQ => a =? b | BinNE => negb (a =? b) | BinLT => a <? b | BinLE => a <=? b
  | BinGT => a >? b | BinGE => a >=? b | _ => false
  end.
Definition cmpFloat64 (op : BinOpKind) (a b : Z) : bool :=
  match op with
  | BinEQ => f64_eq a b | BinNE => negb (f64_eq a b) | BinLT => f64_lt a b | BinLE => f64_le a b
  | BinGT => f64_lt b a | BinGE => f64_le b a | _ => false
  end.

(** Go's [/] truncates; every result wraps to 64 bits. *)
Definition applyArithInt64 (op : BinOpKind) (a b : Z) : Z :=
  match op with
  | BinAdd => to_i64 (a + b)
  | BinSub => to_i64 (a - b)
  | BinMul => to_i64 (a * b)
  | BinDiv => if b =? 0 then 0 else to_i64 (Z.quot a b)
  | _ => 0
  end.
Definition applyArithFloat64 (op : BinOpKind) (a b : Z) : Z :=
  match op with
  | BinAdd => f64_add a b
  | BinSub => f64_sub a b
  | BinMul => f64_mul a b
  | BinDiv => if f64_eq b 0 then f64_nan else f64_div a b
  | _ => 0
  end.

(** ** Comparison kernels *)

(** One byte of the result: the tests of rows [i .. i+7]. *)
Definition cmpByte (test : Z → Z → bool) (lv rv : list Z) (i : nat) : go Z :=
  foldM (λ byte k, a ← index lv (i + k); b ← index rv (i + k);
    Ret (if test a b then Z.lor byte (Z.shiftl 1 (Z.of_nat k)) else byte)) 0 (seq 0 8).
(** The unrolled loop; returns the first row it left. *)
Fixpoint cmpLoop (fuel : nat) (test : Z → Z → bool) (lv rv mask : list Z) (n i : nat)
    (bits : list Z) : go (nat * list Z) :=
  match fuel with
  | O => OutOfFuel
  | S fuel =>
      if decide (i + 8 ≤ n)%nat then
        byte ← cmpByte test lv rv i;
        m ← index mask (i / 8);
        bits ← store bits (i / 8) (Z.land byte m);
        cmpLoop fuel test lv rv mask n (i + 8) bits
      else Ret (i, bits)
  end.
(** [evalCmpInt64], [evalCmpFloat64] and [evalCmpDate], by the comparison they
    use: whole bytes first, then the rows left over. *)
Definition evalCmpKernel (cmp : BinOpKind → Z → Z → bool) (op : BinOpKind) (lv rv mask : list Z)
    (n : nat) (bits : list Z) : go (list Z) :=
  '(i, bits) ← (if is_cmp op then cmpLoop (S n) (cmp op) lv rv mask n 0 bits else Ret (0%nat, bits));
  foldM (λ bits i,
      isnull ← IsNullBit mask i;
      if (isnull : bool) then Ret bits else
      a ← index lv i; b ← index rv i; bv_Set bits i (cmp op a b))
    bits (seq i (n - i)).

Definition evalCmp (op : BinOpKind) (lv rv : Vector) (n : nat) : go Vector :=
  let size := bitmapSize n in
  let nulls := (λ i, Z.land (default 0xFF (Nulls lv !! i)) (default 0xFF (Nulls rv !! i)))
                 <$> seq 0 size in
  let bits := replicate size 0 in
  match lv, rv with
  | Int64Vector l _, Int64Vector r _ | DateVector l _, DateVector r _ =>
      bits ← evalCmpKernel cmpInt op l r nulls n bits; Ret (BoolVector bits nulls n)
  | Float64Vector l _, Float64Vector r _ =>
      bits ← evalCmpKernel cmpFloat64 op l r nulls n bits; Ret (BoolVector bits nulls n)
  | (Int64Vector _ _ | Float64Vector _ _ | DateVector _ _), _ => Panic
  | _, _ => Err (ErrMsg "expr: cmp not supported for type")
  end.

(** ** Arithmetic *)

(** The row loop shared by both types: values, then the bitmap. *)
Definition arithLoop (apply : BinOpKind → Z → Z → Z) (isZero : Z → bool) (op : BinOpKind)
    (l r : list Z) (n : nat) (nulls : list Z) : go (list Z * list Z) :=
  foldM (λ '(vals, nulls) i,
      isnull ← IsNullBit nulls i;
      if (isnull : bool) then Ret (vals, nulls) else
      b ← index r i;
      if bool_decide (op = BinDiv) && isZero b
      then nulls ← SetNullBit nulls i; Ret (vals, nulls)
      else a ← index l i; vals ← store vals i (apply op a b); Ret (vals, nulls))
    (replicate n 0, nulls) (seq 0 n).
Definition evalArith (op : BinOpKind) (lv rv : Vector) (n : nat) : go Vector :=
  let nulls := mergeNullBitmapsInto (replicate (bitmapSize n) 0) (Nulls lv) (Nulls rv) n in
  match lv, rv with
  | Int64Vector l _, Int64Vector r _ =>
      '(vals, nulls) ← arithLoop applyArithInt64 (Z.eqb 0) op l r n nulls;
      Ret (Int64Vector vals nulls)
  | Float64Vector l _, Float64Vector r _ =>
      '(vals, nulls) ← arithLoop applyArithFloat64 (λ b, f64_eq b 0) op l r n nulls;
      Ret (Float64Vector vals nulls)
  | (Int64Vector _ _ | Float64Vector _ _), _ => Err (ErrMsg "expr: arithmetic type mismatch")
  | _, _ => Err (ErrMsg "expr: arithmetic not supported for type")
  end.

(** ** Boolean connectives, a byte of rows at a time *)

Definition byte_not (b : Z) : Z := Z.lxor b 0xFF.
(** The known-true and known-false rows of both sides, combined. *)
Definition and_byte (ob on cb cn : Z) : Z * Z :=
  let lt := Z.land ob on in let lf := Z.land (byte_not ob) on in
  let rt := Z.land cb cn in let rf := Z.land (byte_not cb) cn in
  let t := Z.land lt rt in let f := Z.lor lf rf in (t, Z.lor t f).
Definition or_byte (ob on cb cn : Z) : Z * Z :=
  let lt := Z.land ob on in let lf := Z.land (byte_not ob) on in
  let rt := Z.land cb cn in let rf := Z.land (byte_not cb) cn in
  let t := Z.lor lt rt in let f := Z.land lf rf in (t, Z.lor t f).

(** Folding one child into the output. *)
Definition combine (byte : Z → Z → Z → Z → Z * Z) (n : nat) (out : list Z * list Z) (child : Vector)
    : go (list Z * list Z) :=
  match child with
  | BoolVector cb cn _ =>
      foldM (λ '(bits, nulls) i,
          ob ← index bits i; on ← index nulls i; b ← index cb i; m ← index cn i;
          let '(t, v) := byte ob on b m in
          bits ← store bits i t; nulls ← store nulls i v; Ret (bits, nulls))
        out (seq 0 (bitmapSize n))
  | _ => Err (ErrMsg "expr: boolean operands required")
  end.
(** The output starts as the first child. *)
Definition firstChild (first : Vector) : go (nat * (list Z * list Z)) :=
  match first with
  | BoolVector fb fn n =>
      let size := bitmapSize n in
      Ret (n, (copy (replicate size 0) fb, copy (replicate size 0) fn))
  | _ => Err (ErrMsg "expr: boolean operands required")
  end.
Definition notVector (v : Vector) : go Vector :=
  match v with
  | BoolVector cb cn n =>
      let size := bitmapSize n in
      '(bits, nulls) ← foldM (λ '(bits, nulls) i,
          m ← index cn i; b ← index cb i;
          nulls ← store nulls i m; bits ← store bits i (Z.land (byte_not b) m);
          Ret (bits, nulls))
        (replicate size 0, replicate size 0) (seq 0 size);
      Ret (BoolVector bits nulls n)
  | _ => Err (ErrMsg "expr: NOT requires a boolean operand")
  end.

(** ** Row loops that write one bit a row *)

(** For each row: [None] leaves it NULL, [Some v] marks it valid and sets it. *)
Definition bitRows (row : nat → go (option bool)) (n : nat) : go Vector :=
  let size := bitmapSize n in
  '(bits, nulls) ← foldM (λ '(bits, nulls) i,
      r ← row i;
      match r with
      | None => Ret (bits, nulls)
      | Some v => nulls ← SetValidBit nulls i; bits ← bv_Set bits i v; Ret (bits, nulls)
      end) (replicate size 0, replicate size 0) (seq 0 n);
  Ret (BoolVector bits nulls n).

(** [IS NULL] ([want = true]) and [IS NOT NULL]. *)
Definition isNullVector (want : bool) (v : Vector) : go Vector :=
  let n := Len v in
  bits ← foldM (λ bits i, isnull ← IsNull v i; bv_Set bits i (eqb isnull want))
    (replicate (bitmapSize n) 0) (seq 0 n);
  Ret (BoolVector bits (setAllValid (replicate (bitmapSize n) 0) n) n).

(** A list value equals a cell of its own type. *)
Definition set_has (c : Cell) (sv : Cell) : bool :=
  match c, sv with
  | CInt a, CInt b | CDate a, CDate b => a =? b
  | CFloat a, CFloat b => f64_eq a b
  | CStr a, CStr b => String.eqb a b
  | CBool a, CBool b => eqb a b
  | _, _ => false
  end.
Definition inVector (set : list Cell) (hasNull : bool) (v : Vector) : go Vector :=
  bitRows (λ i,
    isnull ← IsNull v i;
    if (isnull : bool) then Ret None else
    c ← vec_value v i;
    let found := existsb (set_has c) set in
    Ret (if negb found && hasNull then None else Some found)) (Len v).

(** [likeMatchRec] on bytes. *)
Fixpoint suffixes (s : list ascii) : list (list ascii) :=
  s :: match s with [] => [] | _ :: s => suffixes s end.
Definition percent : ascii := ascii_of_nat 37.
Definition underscore : ascii := ascii_of_nat 95.
Fixpoint likeMatchRec (p s : list ascii) : bool :=
  match p with
  | [] => match s with [] => true | _ => false end
  | c :: p =>
      if decide (c = percent) then
        match p with [] => true | _ => existsb (likeMatchRec p) (suffixes s) end
      else if decide (c = underscore) then
        match s with [] => false | _ :: s => likeMatchRec p s end
      else match s with
           | [] => false
           | d :: s => if decide (c = d) then likeMatchRec p s else false
           end
  end.
Definition likeMatch (pattern s : string) : bool :=
  likeMatchRec (String.list_ascii_of_string pattern) (String.list_ascii_of_string s).
Definition likeVector (pattern : string) (v : Vector) : go Vector :=
  match v with
  | StringVector codes dict nb =>
      bitRows (λ i,
        isnull ← IsNull v i;
        if (isnull : bool) then Ret None else
        '(s, _) ← sv_Get codes dict i; Ret (Some (likeMatch pattern s))) (length codes)
  | _ => Err (ErrMsg "expr: LIKE requires STRING column")
  end.

Definition stringEqVector (literal : string) (negate : bool) (v : Vector) : go Vector :=
  match v with
  | StringVector codes dict nb =>
      let n := length codes in
      let size := bitmapSize n in
      match dict with
      | None => Ret (BoolVector (replicate size 0) (replicate size 0) n)
      | Some d =>
          '(code, _) ← Lookup d literal;
          match code with
          | None =>
              if negate then
                let nulls := setAllValid (replicate size 0) n in
                Ret (BoolVector nulls nulls n)
              else Ret (BoolVector (replicate size 0) (replicate size 0) n)
          | Some code =>
              bitRows (λ i,
                isnull ← IsNull v i;
                if (isnull : bool) then Ret None else
                c ← index codes i;
                Ret (Some (if negate then negb (c =? code) else c =? code))) n
          end
      end
  | _ => Err (ErrMsg "expr: StringEqExpr: column is not STRING")
  end.

Definition castIntToFloat (v : Vector) : go Vector :=
  match v with
  | Int64Vector vs nb => Ret (Float64Vector (f64_of_int <$> vs) nb)
  | _ => Err (ErrMsg "expr: CastIntToFloat: expected *Int64Vector")
  end.

(** ** CASE *)

Definition nullVector (t : DataType) (n : nat) : Vector :=
  let nulls := replicate (bitmapSize n) 0 in
  match t with
  | TypeInt64 => Int64Vector (replicate n 0) nulls
  | TypeFloat64 => Float64Vector (replicate n 0) nulls
  | TypeString => StringVector (replicate n 0) None nulls
  | TypeDate => DateVector (replicate n 0) nulls
  | _ => BoolVector (replicate (bitmapSize n) 0) nulls n
  end.

(** The condition holds in row [i]. *)
Definition condTrue (cond : Vector) (i : nat) : go bool :=
  isnull ← IsNull cond i;
  if (isnull : bool) then Ret false else
  match cond with BoolVector bits _ _ => bv_Get bits i | _ => Panic end.
(** The row loop of the value types: [vals], [nulls] start as the base's. *)
Definition mergeLoop (cond vv : Vector) (vvals : list Z) (n : nat) (vals nulls : list Z)
    : go (list Z * list Z) :=
  foldM (λ '(vals, nulls) i,
      c ← condTrue cond i;
      if (c : bool) then
        x ← index vvals i; vals ← store vals i x;
        isnull ← IsNull vv i;
        nulls ← (if (isnull : bool) then SetNullBit nulls i else SetValidBit nulls i);
        Ret (vals, nulls)
      else Ret (vals, nulls))
    (vals, nulls) (seq 0 n).
(** [db.Add(dict.Get(i))] for every entry: the new code of each old one. *)
Definition remap (dict : option Dictionary) (db : DictBuilder) : go (list Z * DictBuilder) :=
  match dict with
  | None => Ret ([], db)
  | Some d =>
      foldM (λ '(codes, db) i, '(s, _) ← Get d (Z.of_nat i);
        let '(c, db) := Add db s in Ret (codes ++ [c], db)) ([], db) (seq 0 (d_Len d))
  end.
Definition mergeVectors (cond valV base : Vector) (n : nat) : go Vector :=
  let size := bitmapSize n in
  let nulls0 := copy (replicate size 0) (Nulls base) in
  match base, valV with
  | Int64Vector bv _, Int64Vector vv _ =>
      '(vals, nulls) ← mergeLoop cond valV vv n (copy (replicate n 0) bv) nulls0;
      Ret (Int64Vector vals nulls)
  | Float64Vector bv _, Float64Vector vv _ =>
      '(vals, nulls) ← mergeLoop cond valV vv n (copy (replicate n 0) bv) nulls0;
      Ret (Float64Vector vals nulls)
  | DateVector bv _, DateVector vv _ =>
      '(vals, nulls) ← mergeLoop cond valV vv n (copy (replicate n 0) bv) nulls0;
      Ret (DateVector vals nulls)
  | BoolVector bv _ _, BoolVector vv _ _ =>
      '(bits, nulls) ← foldM (λ '(bits, nulls) i,
          c ← condTrue cond i;
          if (c : bool) then
            x ← bv_Get vv i; bits ← bv_Set bits i x;
            isnull ← IsNull valV i;
            nulls ← (if (isnull : bool) then SetNullBit nulls i else SetValidBit nulls i);
            Ret (bits, nulls)
          else Ret (bits, nulls))
        (copy (replicate size 0) bv, nulls0) (seq 0 n);
      Ret (BoolVector bits nulls n)
  | StringVector bcodes bdict _, StringVector vcodes vdict _ =>
      '(baseRemap, db) ← remap bdict NewDictBuilder;
      '(valRemap, db) ← remap vdict db;
      '(codes, nulls) ← foldM (λ '(codes, nulls) i,
          c ← condTrue cond i;
          let '(side, sideCodes, sideRemap) :=
            if (c : bool) then (valV, vcodes, valRemap) else (base, bcodes, baseRemap) in
          isnull ← IsNull side i;
          if (isnull : bool) then Ret (codes, nulls) else
          old ← index sideCodes i;
          new ← index sideRemap (Z.to_nat old);
          codes ← store codes i new;
          nulls ← SetValidBit nulls i;
          Ret (codes, nulls))
        (replicate n 0, replicate size 0) (seq 0 n);
      newStringVector db codes nulls
  | _, _ => Panic
  end.

(** ** Expressions *)

Inductive Expr : Type :=
  | ColumnRef (Name : string) (Idx : Z) (T : DataType)
  | Literal (Val : Cell) (T : DataType)
  | CastIntToFloatExpr (Inner : Expr)
  | BinOp (Op : BinOpKind) (Left Right : Expr) (T : DataType)
  | AndExpr (Children : list Expr)
  | OrExpr (Children : list Expr)
  | NotExpr (Child : Expr)
  | IsNullExpr (Child : Expr)
  | IsNotNullExpr (Child : Expr)
  | InExpr (Child : Expr) (Set_ : list Cell) (HasNull : bool)
  | LikeExpr (Child : Expr) (Pattern : string)
  | BetweenExpr (Child Lo Hi : Expr)
  | StringEqExpr (ColIdx : Z) (Lit : string) (Negate : bool)
  | CaseExpr (Whens : list (Expr * Expr)) (Else : option Expr) (T : DataType).

(** [Expr.Type]. *)
Definition EType (e : Expr) : DataType :=
  match e with
  | ColumnRef _ _ t | Literal _ t | BinOp _ _ _ t | CaseExpr _ _ t => t
  | CastIntToFloatExpr _ => TypeFloat64
  | _ => TypeBool
  end.

(** The broadcast vector of a literal; [l.Val] of another Go type panics. *)
Definition literalVector (val : Cell) (t : DataType) (n : nat) : go Vector :=
  let valid := setAllValid (replicate (bitmapSize n) 0) n in
  match t, val with
  | TypeInt64, CInt v => Ret (Int64Vector (replicate n v) valid)
  | TypeFloat64, CFloat v => Ret (Float64Vector (replicate n v) valid)
  | TypeDate, CDate v => Ret (DateVector (replicate n v) valid)
  | TypeBool, CBool v =>
      bits ← foldM (λ bits i, bv_Set bits i v) (replicate (bitmapSize n) 0) (seq 0 n);
      Ret (BoolVector bits valid n)
  | TypeString, CStr s =>
      let '(code, db) := Add NewDictBuilder s in newStringVector db (replicate n code) valid
  | TypeOther _, _ => Err (ErrMsg "expr: unknown literal type")
  | _, _ => Panic
  end.

Definition vectorAt (b : Batch) (idx : Z) : go Vector :=
  if decide (idx < 0) then Panic else index (Vectors b) (Z.to_nat idx).

Fixpoint Eval (e : Expr) (b : Batch) : go Vector :=
  let evalAll byte := fix evalAll (es : list Expr) (n : nat) (out : list Z * list Z) : go Vector :=
    match es with
    | [] => Ret (BoolVector out.1 out.2 n)
    | e :: es => cv ← Eval e b; out ← combine byte n out cv; evalAll es n out
    end in
  match e with
  | ColumnRef _ idx _ =>
      if decide (idx < 0 ∨ Z.of_nat (length (Vectors b)) ≤ idx)
      then Err (ErrMsg "expr: column index out of range") else vectorAt b idx
  | Literal val t => literalVector val t (evalLen b)
  | CastIntToFloatExpr x => v ← Eval x b; castIntToFloat v
  | BinOp op l r _ =>
      lv ← Eval l b;
      rv ← Eval r b;
      if is_cmp op then evalCmp op lv rv (Len lv) else evalArith op lv rv (Len lv)
  | AndExpr [] =>
      let n := evalLen b in
      let ones := setAllValid (replicate (bitmapSize n) 0) n in
      Ret (BoolVector ones ones n)
  | AndExpr (c :: cs) =>
      fv ← Eval c b; '(n, out) ← firstChild fv; evalAll and_byte cs n out
  | OrExpr [] =>
      let n := evalLen b in
      Ret (BoolVector (replicate (bitmapSize n) 0) (setAllValid (replicate (bitmapSize n) 0) n) n)
  | OrExpr (c :: cs) =>
      fv ← Eval c b; '(n, out) ← firstChild fv; evalAll or_byte cs n out
  | NotExpr x => v ← Eval x b; notVector v
  | IsNullExpr x => v ← Eval x b; isNullVector true v
  | IsNotNullExpr x => v ← Eval x b; isNullVector false v
  | InExpr x set hasNull => v ← Eval x b; inVector set hasNull v
  | LikeExpr x pattern => v ← Eval x b; likeVector pattern v
  | BetweenExpr x lo hi =>
      (* (x >= lo) AND (x <= hi), both comparisons evaluated in full *)
      xv ← Eval x b; lov ← Eval lo b; ge ← evalCmp BinGE xv lov (Len xv);
      '(n, out) ← firstChild ge;
      xv ← Eval x b; hiv ← Eval hi b; le ← evalCmp BinLE xv hiv (Len xv);
      out ← combine and_byte n out le;
      Ret (BoolVector out.1 out.2 n)
  | StringEqExpr idx lit negate => v ← vectorAt b idx; stringEqVector lit negate v
  | CaseExpr whens els t =>
      let n := evalLen b in
      base ← match els with Some x => Eval x b | None => Ret (nullVector t n) end;
      (* the last WHEN first, so that the first one wins *)
      (fix evalWhens (ws : list (Expr * Expr)) : go Vector :=
         match ws with
         | [] => Ret base
         | (cond, res) :: ws =>
             result ← evalWhens ws;
             condV ← Eval cond b;
             match condV with
             | BoolVector _ _ _ => valV ← Eval res b; mergeVectors condV valV result n
             | _ => Err (ErrMsg "expr: CASE WHEN condition must return BOOL")
             end
         end) whens
  end.

(** ** Selection *)

(** [BoolToSelVecInto], whose buffer only serves as storage. *)
Definition BoolToSelVec (b : Batch) (bv : Vector) : go (list Z) :=
  match SelVec b with
  | None =>
      foldM (λ out i, c ← condTrue bv i; Ret (if (c : bool) then out ++ [to_u16 (Z.of_nat i)] else out))
        [] (seq 0 (Len bv))
  | Some sel =>
      foldM (λ out idx, c ← condTrue bv (Z.to_nat idx); Ret (if (c : bool) then out ++ [idx] else out))
        [] sel
  end.

Definition demo_batch : Batch :=
  mkBatch [] [Int64Vector [5; -3; 0; 7] [13]; Int64Vector [2; 2; 0; 2] [15]] 4 None.
Example eval_example :
  (v ← Eval (OrExpr [BinOp BinGT (ColumnRef "a" 0 TypeInt64) (ColumnRef "b" 1 TypeInt64) TypeBool;
                     NotExpr (IsNotNullExpr (ColumnRef "a" 0 TypeInt64))]) demo_batch;
   cs ← vec_cells v; sel ← BoolToSelVec demo_batch v; Ret (cs, sel))
  = Ret ([Some (CBool true); Some (CBool true); Some (CBool false); Some (CBool true)], [0; 1; 3]).
Proof. reflexivity. Qed.
(** Division by zero is NULL; the smallest integer over -1 wraps. *)
Example arith_example :
  (v ← Eval (BinOp BinDiv (Literal (CInt (-2 ^ 63)) TypeInt64) (ColumnRef "a" 0 TypeInt64) TypeInt64)
         (mkBatch [] [Int64Vector [-1; 0; 3] [7]] 3 None); vec_cells v)
  = Ret [Some (CInt (-2 ^ 63)); None; Some (CInt (-3074457345618258602))].
Proof. reflexivity. Qed.
