(* ===== verification/VKernel.v ===== *)
(** * Package exec: what each vector kernel computes, cell by cell

    [column v t n f]: the vector [v] is well-formed, has type [t] and [n] rows,
    and its row [i] reads as [f i].  Each kernel of [VExpr] maps columns to the
    column of the pointwise operation of SQL's three-valued logic. *)
From Stdlib Require Import ZArith Lia ZifyNat Ascii.
From stdpp Require Import base numbers list strings gmap.
From S2P Require Import Prelude Encoding Codec Float64 Schema Writer Reader Batch Scratch VExpr.
#[local] Open Scope Z_scope.

(** ** Three-valued logic on cells *)

Definition tri (c : option Cell) : option bool :=
  match c with Some (CBool b) => Some b | _ => None end.
Definition and3 (a b : option bool) : option bool :=
  match a, b with
  | Some false, _ | _, Some false => Some false
  | Some true, Some true => Some true
  | _, _ => None
  end.
Definition or3 (a b : option bool) : option bool :=
  match a, b with
  | Some true, _ | _, Some true => Some true
  | Some false, Some false => Some false
  | _, _ => None
  end.

(** A comparison or an operation of two cells; NULL in, NULL out. *)
Definition bin_cell (op : BinOpKind) (a b : option Cell) : option Cell :=
  match a, b with
  | Some (CInt x), Some (CInt y) =>
      if is_cmp op then Some (CBool (cmpInt op x y))
      else if bool_decide (op = BinDiv) && (0 =? y) then None else Some (CInt (applyArithInt64 op x y))
  | Some (CFloat x), Some (CFloat y) =>
      if is_cmp op then Some (CBool (cmpFloat64 op x y))
      else if bool_decide (op = BinDiv) && f64_eq y 0 then None
      else Some (CFloat (applyArithFloat64 op x y))
  | Some (CDate x), Some (CDate y) => if is_cmp op then Some (CBool (cmpInt op x y)) else None
  | _, _ => None
  end.

(** Membership with SQL's NULL rule. *)
Definition in_cell (set : list Cell) (hasNull : bool) (c : option Cell) : option bool :=
  match c with
  | None => None
  | Some v => if existsb (set_has v) set then Some true
              else if hasNull then None else Some false
  end.
(** [StringEqExpr]: what it computes when the dictionary lacks the literal is
    not what SQL says, see [string_eq_not_sql]. *)
Definition string_eq_cell (has : option (string → bool)) (lit : string) (negate : bool)
    (c : option Cell) : option bool :=
  match has with
  | None => None
  | Some has =>
      if has lit then
        match c with Some (CStr s) => Some (xorb negate (String.eqb s lit)) | _ => None end
      else if negate then Some true else None
  end.

Definition cell_type (c : Cell) : DataType :=
  match c with
  | CInt _ => TypeInt64 | CFloat _ => TypeFloat64 | CBool _ => TypeBool
  | CStr _ => TypeString | CDate _ => TypeDate
  end.
Definition comparable (t : DataType) : bool :=
  match t with TypeInt64 | TypeFloat64 | TypeDate => true | _ => false end.
Definition numeric (t : DataType) : bool :=
  match t with TypeInt64 | TypeFloat64 => true | _ => false end.

(** ** Columns *)

Definition column (v : Vector) (t : DataType) (n : nat) (f : nat → option Cell) : Prop :=
  vec_ok v ∧ VType v = t ∧ Len v = n ∧ ∀ i, (i < n)%nat → cell v i = f i.

(** The types whose vectors hold one machine word a row. *)
Inductive fixed : DataType → (list Z → list Z → Vector) → (Z → Cell) → Prop :=
  | fixed_int64 : fixed TypeInt64 Int64Vector CInt
  | fixed_float64 : fixed TypeFloat64 Float64Vector CFloat
  | fixed_date : fixed TypeDate DateVector CDate.
#[export] Hint Constructors fixed : core.

(** A nullable bit. *)
Definition tri_at (bits nulls : list Z) (i : nat) : option bool :=
  if bit_valid nulls i then Some (bit_valid bits i) else None.

(** ** What a column of each type is made of *)

Lemma column_ext v t n f g : column v t n f → (∀ i, (i < n)%nat → f i = g i) → column v t n g.
Proof. intros (? & ? & ? & H) E. do 3 (split; [done|]). intros i Hi. by rewrite H, E. Qed.

Lemma column_fixed t mkV mkC v n f :
  fixed t mkV mkC →
  column v t n f ↔ ∃ vs nb, v = mkV vs nb ∧ length vs = n ∧ (n ≤ 8 * length nb)%nat ∧
    ∀ i x, vs !! i = Some x → f i = if bit_valid nb i then Some (mkC x) else None.
Proof.
  intros Hf. split.
  - intros (((Hw & _) & _) & Ht & Hl & Hc).
    destruct Hf, v as [vs nb|vs nb|? ? ?|? ? ?|vs nb]; try done; cbn [Len Nulls] in *; exists vs, nb.
    all: split; [done|]; split; [done|]; split; [lia|]; intros i x Hx.
    all: pose proof (lookup_lt_Some _ _ _ Hx); rewrite <- Hc by lia.
    + by apply cell_int64; [|lia].
    + by apply cell_float64; [|lia].
    + by apply cell_date; [|lia].
  - intros (vs & nb & -> & Hl & Hn & Hc).
    assert (∀ i, (i < n)%nat → ∃ x, vs !! i = Some x) as Hx.
    { intros i Hi. apply lookup_lt_is_Some_2. lia. }
    destruct Hf; (split; [split; [split; cbn; [lia|done]|done]|split; [done|split; [done|]]]).
    all: intros i Hi; destruct (Hx i Hi) as [x Ex]; rewrite (Hc _ _ Ex).
    + by apply cell_int64; [|lia].
    + by apply cell_float64; [|lia].
    + by apply cell_date; [|lia].
Qed.

Lemma column_bool v n f :
  column v TypeBool n f ↔ ∃ bits nb, v = BoolVector bits nb n ∧ (n ≤ 8 * length bits)%nat ∧
    (n ≤ 8 * length nb)%nat ∧ ∀ i, (i < n)%nat → f i = CBool <$> tri_at bits nb i.
Proof.
  assert (H : ∀ bits nb i, (n ≤ 8 * length bits)%nat → (n ≤ 8 * length nb)%nat → (i < n)%nat →
    cell (BoolVector bits nb n) i = CBool <$> tri_at bits nb i).
  { intros. rewrite cell_bool by lia. unfold tri_at. by destruct (bit_valid nb i). }
  split.
  - intros (((Hw & Hb) & _) & Ht & Hl & Hc). destruct v as [| |bits nb m| |]; try done.
    cbn [Len Nulls] in *. subst m. exists bits, nb. do 3 (split; [done|]).
    intros i Hi. rewrite <- Hc by done. by apply H.
  - intros (bits & nb & -> & Hb & Hn & Hc). split; [by split|]. do 2 (split; [done|]).
    intros i Hi. rewrite Hc by done. by apply H.
Qed.

Lemma column_string v n f :
  column v TypeString n f ↔ ∃ codes dict nb, v = StringVector codes dict nb ∧ length codes = n ∧
    (n ≤ 8 * length nb)%nat ∧ (∀ i, (i < n)%nat → bit_valid nb i = false → f i = None) ∧
    match dict with
    | None => ∀ i, (i < n)%nat → bit_valid nb i = false
    | Some d => ∃ keys, NoDup keys ∧ dict_fits keys ∧ dict_inv keys d ∧
        ∀ i, (i < n)%nat → bit_valid nb i = true →
          ∃ k s, codes !! i = Some (Z.of_nat k) ∧ keys !! k = Some s ∧ f i = Some (CStr s)
    end.
Proof.
  split.
  - intros (((Hw & _) & Hd) & Ht & Hl & Hc). destruct v as [| | |codes dict nb|]; try done.
    cbn [Len Nulls] in *. exists codes, dict, nb. split; [done|]. split; [done|]. split; [lia|].
    split; [intros i Hi E; rewrite <- Hc by done; apply cell_null; [done|cbn [Nulls]; lia]|].
    destruct dict as [d|]; [|intros i Hi; apply Hd; lia].
    destruct Hd as (keys & Hnd & Hf & Hdi & Hk). exists keys. do 3 (split; [done|]).
    intros i Hi E. destruct (lookup_lt_is_Some_2 codes i) as [c Hci]; [lia|].
    destruct (Hk _ _ Hci E) as (k & s & -> & Hks). exists k, s. do 2 (split; [done|]).
    rewrite <- Hc, (cell_string _ _ keys _ _ k s) by (done || lia). by rewrite E.
  - intros (codes & dict & nb & -> & Hl & Hn & Hnull & Hd). split; [split; [split; cbn; [lia|done]|]|].
    + destruct dict as [d|]; cbn [vec_dict]; [|by rewrite Hl].
      destruct Hd as (keys & Hnd & Hf & Hdi & Hk). exists keys. do 3 (split; [done|]).
      intros i c Hci E. destruct (Hk i) as (k & s & Hci' & Hks & _);
        [apply lookup_lt_Some in Hci; lia|done|]. exists k, s. split; [congruence|done].
    + do 2 (split; [done|]). intros i Hi. destruct (bit_valid nb i) eqn:E.
      * destruct dict as [d|]; [|by rewrite Hd in E]. destruct Hd as (keys & Hnd & Hf & Hdi & Hk).
        destruct (Hk i Hi E) as (k & s & Hci & Hks & ->).
        rewrite (cell_string _ _ keys _ _ k s) by (done || lia). by rewrite E.
      * rewrite Hnull by done. apply cell_null; [done|cbn [Nulls]; lia].
Qed.

(** Reading a column. *)
Lemma column_Len v t n f : column v t n f → Len v = n.
Proof. by intros (_ & _ & ? & _). Qed.
Lemma column_IsNull v t n f i :
  column v t n f → (i < n)%nat → IsNull v i = Ret (bool_decide (f i = None)).
Proof.
  intros (Hv & Ht & Hl & Hc) Hi. pose proof (vec_cell_ok v i Hv) as H. rewrite Hl, Hc in H by done.
  specialize (H Hi). unfold vec_cell in H.
  destruct Hv as [[Hn _] _]. rewrite IsNull_Ret in * by lia. cbn [mbind go_bind] in H. f_equal.
  destruct (bit_valid (Nulls v) i); cbn [negb] in *.
  - destruct (vec_value v i); [|done..]. cbn [mbind go_bind] in H. injection H as <-.
    by rewrite bool_decide_false.
  - injection H as <-. by rewrite bool_decide_true.
Qed.
Lemma column_value v t n f i c :
  column v t n f → (i < n)%nat → f i = Some c → vec_value v i = Ret c.
Proof.
  intros (Hv & Ht & Hl & Hc) Hi E. pose proof (vec_cell_ok v i Hv) as H. rewrite Hl, Hc in H by done.
  specialize (H Hi). unfold vec_cell in H.
  destruct (IsNull v i) as [[]| | |]; cbn [mbind go_bind] in H; try congruence.
  destruct (vec_value v i); [|done..]. cbn [mbind go_bind] in H. congruence.
Qed.

(** ** Loops that write one bit a row *)

Lemma size_bits n : (n ≤ 8 * bitmapSize n)%nat.
Proof. unfold bitmapSize. lia. Qed.
Lemma size_index n i : (i < n)%nat → (i / 8 < bitmapSize n)%nat.
Proof. unfold bitmapSize. lia. Qed.
#[local] Hint Resolve size_bits size_index : core.

Lemma bitRows_spec row (g : nat → option bool) n :
  (∀ i, (i < n)%nat → row i = Ret (g i)) →
  ∃ v, bitRows row n = Ret v ∧ column v TypeBool n (λ i, CBool <$> g i).
Proof.
  intros Hrow. unfold bitRows. set (size := bitmapSize n).
  edestruct (foldM_seq_ind (λ '(bits, nulls) i,
      r ← row i;
      match r with
      | None => Ret (bits, nulls)
      | Some v => nulls ← SetValidBit nulls i; bits ← bv_Set bits i v; Ret (bits, nulls)
      end) (λ k '(bits, nulls), length bits = size ∧ length nulls = size ∧
        (∀ j, (j < k)%nat → tri_at bits nulls j = g j) ∧ ∀ j, (k ≤ j)%nat → bit_valid nulls j = false)
      n (replicate size 0, replicate size 0)) as ([bits nulls] & -> & Hb & Hn & Hg & _).
  - rewrite !length_replicate. split_and!; [done..|lia|]. intros. apply bit_valid_zeros.
  - intros k [bits nulls] Hk (Hb & Hn & Hg & Hz). rewrite (Hrow k Hk). cbn [mbind go_bind].
    pose proof (size_index n k Hk). destruct (g k) as [v|] eqn:Eg.
    + rewrite SetValidBit_Ret by lia. cbn [mbind go_bind]. rewrite bv_Set_Ret by lia. cbn [mbind go_bind].
      eexists. split; [done|]. cbv beta iota. rewrite !length_bm_set. split_and!; [done..| |].
      * intros j Hj. unfold tri_at. rewrite !bit_valid_bm_set by lia.
        destruct (decide (j = k)) as [->|]; [rewrite Eg; by rewrite ?decide_True|].
        rewrite <- (Hg j) by lia. by rewrite ?decide_False by lia.
      * intros j Hj. rewrite bit_valid_bm_set by lia. rewrite decide_False by lia. apply Hz. lia.
    + eexists. split; [done|]. split_and!; [done..| |intros; apply Hz; lia].
      intros j Hj. destruct (decide (j = k)) as [->|]; [|apply Hg; lia].
      unfold tri_at. by rewrite Hz, Eg by lia.
  - cbn [mbind go_bind]. eexists. split; [done|]. apply column_bool. exists bits, nulls.
    rewrite Hb, Hn. split_and!; [done|apply size_bits..|]. intros i Hi. by rewrite Hg.
Qed.

Lemma is_null_dec (c : option Cell) : bool_decide (c = None) = match c with None => true | _ => false end.
Proof. destruct c; [by rewrite bool_decide_false|by rewrite bool_decide_true]. Qed.

Lemma inVector_spec set hasNull v t n f :
  column v t n f →
  ∃ v', inVector set hasNull v = Ret v' ∧
    column v' TypeBool n (λ i, CBool <$> in_cell set hasNull (f i)).
Proof.
  intros Hv. unfold inVector. rewrite (column_Len _ _ _ _ Hv).
  apply (bitRows_spec _ (λ i, in_cell set hasNull (f i))). intros i Hi.
  rewrite (column_IsNull v t n f) by done. rewrite is_null_dec. cbn [mbind go_bind].
  destruct (f i) as [c|] eqn:Ef; [|done]. rewrite (column_value v t n f i c) by done.
  cbn [mbind go_bind in_cell]. by destruct (existsb _ _), hasNull.
Qed.

Lemma likeVector_spec pattern v n f :
  column v TypeString n f →
  ∃ v', likeVector pattern v = Ret v' ∧
    column v' TypeBool n (λ i, match f i with Some (CStr s) => Some (CBool (likeMatch pattern s)) | _ => None end).
Proof.
  intros Hv. destruct (proj1 (column_string _ _ _) Hv) as (codes & dict & nb & -> & Hl & Hn & Hnull & Hd).
  cbn [likeVector]. rewrite Hl.
  edestruct (bitRows_spec (λ i, isnull ← IsNull (StringVector codes dict nb) i;
        if (isnull : bool) then Ret None else
        '(s, _) ← sv_Get codes dict i; Ret (Some (likeMatch pattern s)))
    (λ i, match f i with Some (CStr s) => Some (likeMatch pattern s) | _ => None end) n) as (v' & E & Hc).
  - intros i Hi. rewrite (column_IsNull _ _ _ _ _ Hv Hi), is_null_dec. cbn [mbind go_bind].
    destruct (f i) as [c|] eqn:Ef; [|done].
    pose proof (column_value _ _ _ _ _ _ Hv Hi Ef) as Hs. cbn [vec_value] in Hs.
    destruct (sv_Get codes dict i) as [[s d]| | |]; cbn [mbind go_bind] in *; [|done..].
    by injection Hs as <-.
  - exists v'. split; [done|]. eapply column_ext; [done|]. intros i Hi. cbv beta.
    by destruct (f i) as [[]|].
Qed.

(** What [Lookup] says about the dictionary of a column ([None]: it has none). *)
Definition dict_has (v : Vector) : option (string → bool) :=
  match v with
  | StringVector _ (Some d) _ =>
      Some (λ s, match Lookup d s with Ret (Some _, _) => true | _ => false end)
  | _ => None
  end.

Lemma xorb_eqb (negate b : bool) : (if negate then negb b else b) = xorb negate b.
Proof. by destruct negate, b. Qed.
Lemma constant_column (b : bool) valid n :
  length valid = bitmapSize n → (∀ i, (i < n)%nat → bit_valid valid i = b) →
  column (BoolVector valid valid n) TypeBool n (λ _, if b then Some (CBool true) else None).
Proof.
  intros Hl Hb. apply column_bool. exists valid, valid. rewrite Hl. split_and!; [done|auto..|].
  intros i Hi. unfold tri_at. rewrite Hb by done. by destruct b.
Qed.
Lemma bit_valid_full n i : (i < n)%nat → bit_valid (setAllValid (replicate (bitmapSize n) 0) n) i = true.
Proof.
  intros. rewrite setAllValid_full by apply length_replicate.
  by rewrite bit_valid_FullBitmap, bool_decide_true.
Qed.
Lemma length_full n : length (setAllValid (replicate (bitmapSize n) 0) n) = bitmapSize n.
Proof. rewrite setAllValid_full by apply length_replicate. apply length_FullBitmap. Qed.

Lemma stringEqVector_spec lit negate v n f :
  column v TypeString n f →
  ∃ v', stringEqVector lit negate v = Ret v' ∧
    column v' TypeBool n (λ i, CBool <$> string_eq_cell (dict_has v) lit negate (f i)).
Proof.
  intros Hv. destruct (proj1 (column_string _ _ _) Hv) as (codes & dict & nb & -> & Hl & Hn & Hnull & Hd).
  unfold stringEqVector. rewrite Hl. cbn [dict_has].
  assert (Hnone : column (BoolVector (replicate (bitmapSize n) 0) (replicate (bitmapSize n) 0) n)
    TypeBool n (λ _, None)).
  { apply (constant_column false); [apply length_replicate|]. intros. apply bit_valid_zeros. }
  destruct dict as [d|]; [|eexists; split; [done|]; by eapply column_ext].
  destruct Hd as (keys & Hnd & Hfit & Hdi & Hk).
  destruct (Lookup_spec keys d lit Hfit Hdi) as (d' & _ & E). rewrite E. cbn [mbind go_bind].
  destruct (list_find (lit =.) keys) as [[p s]|] eqn:Ep; cbn [fmap option_fmap option_map fst].
  - apply list_find_Some in Ep as (Hp & <- & _).
    edestruct (bitRows_spec (λ i, isnull ← IsNull (StringVector codes (Some d) nb) i;
        if (isnull : bool) then Ret None else
        c ← index codes i;
        Ret (Some (if negate then negb (c =? Z.of_nat p) else c =? Z.of_nat p)))
      (λ i, match f i with Some (CStr s) => Some (xorb negate (String.eqb s lit)) | _ => None end) n)
      as (v' & E' & Hc); [|exists v'; split; [done|]; eapply column_ext; [done|]].
    + intros i Hi. rewrite (column_IsNull _ _ _ _ _ Hv Hi), is_null_dec. cbn [mbind go_bind].
      destruct (f i) as [c|] eqn:Ef; [|done].
      destruct (bit_valid nb i) eqn:Eb; [|rewrite Hnull in Ef by done; done].
      destruct (Hk i Hi Eb) as (k & s & Hci & Hks & Es). rewrite Ef in Es. injection Es as ->.
      rewrite (index_Ret _ _ _ Hci). cbn [mbind go_bind]. rewrite xorb_eqb. do 3 f_equal.
      destruct (String.eqb_spec s lit) as [->|Hne].
      * apply Z.eqb_eq. f_equal. by eapply NoDup_lookup.
      * apply Z.eqb_neq. intros Hkp%Nat2Z.inj. subst k. congruence.
    + intros i Hi. cbv beta. unfold string_eq_cell. by rewrite E.
  - destruct negate; (eexists; split; [done|]); (eapply column_ext;
      [|intros i Hi; unfold string_eq_cell; by rewrite E]).
    + apply (constant_column true); [apply length_full|]. intros. by apply bit_valid_full.
    + done.
Qed.

Lemma isNullVector_spec want v t n f :
  column v t n f →
  ∃ v', isNullVector want v = Ret v' ∧
    column v' TypeBool n (λ i, Some (CBool (eqb (bool_decide (f i = None)) want))).
Proof.
  intros Hv. unfold isNullVector. rewrite (column_Len _ _ _ _ Hv).
  edestruct (foldM_seq_ind (λ bits i, isnull ← IsNull v i; bv_Set bits i (eqb isnull want))
    (λ k bits, length bits = bitmapSize n ∧
       ∀ j, (j < k)%nat → bit_valid bits j = eqb (bool_decide (f j = None)) want)
    n (replicate (bitmapSize n) 0)) as (bits & -> & Hb & Hj).
  - split; [apply length_replicate|lia].
  - intros k bits Hk (Hb & Hj). rewrite (column_IsNull _ _ _ _ _ Hv Hk). cbn [mbind go_bind].
    pose proof (size_index n k Hk). rewrite bv_Set_Ret by lia. eexists. split; [done|].
    rewrite length_bm_set. split; [done|]. intros j Hjk. rewrite bit_valid_bm_set by lia.
    destruct (decide (j = k)) as [->|]; [done|apply Hj; lia].
  - cbn [mbind go_bind]. eexists. split; [done|]. apply column_bool. eexists _, _.
    split; [done|]. rewrite length_full, Hb. split_and!; [auto..|].
    intros i Hi. unfold tri_at. by rewrite bit_valid_full, Hj.
Qed.

(** ** Connectives: a byte of rows at a time *)

(** [byte] computes [op3] in each of the eight rows of a byte. *)
Definition tri_bit (bits nulls : Z) (k : Z) : option bool :=
  if Z.testbit nulls k then Some (Z.testbit bits k) else None.
Definition byte_computes (byte : Z → Z → Z → Z → Z * Z) (op3 : option bool → option bool → option bool) : Prop :=
  ∀ ob on cb cn k, 0 ≤ k < 8 →
    tri_bit (byte ob on cb cn).1 (byte ob on cb cn).2 k = op3 (tri_bit ob on k) (tri_bit cb cn k).

Lemma testbit_byte_not b k : 0 ≤ k < 8 → Z.testbit (byte_not b) k = negb (Z.testbit b k).
Proof.
  intros Hk. unfold byte_not. rewrite Z.lxor_spec. change 0xFF with (Z.ones 8).
  rewrite Z.ones_spec_low by lia. by destruct (Z.testbit b k).
Qed.
Ltac byte_cases :=
  intros ob on cb cn k Hk; unfold tri_bit, and_byte, or_byte; cbn [fst snd];
  rewrite ?Z.lor_spec, ?Z.land_spec, ?testbit_byte_not by done;
  destruct (Z.testbit ob k), (Z.testbit on k), (Z.testbit cb k), (Z.testbit cn k); done.
Lemma and_byte_computes : byte_computes and_byte and3.
Proof. byte_cases. Qed.
Lemma or_byte_computes : byte_computes or_byte or3.
Proof. byte_cases. Qed.

Lemma tri_at_bytes bits nulls i b m :
  bits !! (i / 8)%nat = Some b → nulls !! (i / 8)%nat = Some m →
  tri_at bits nulls i = tri_bit b m (Z.of_nat (i mod 8)).
Proof. intros Hb Hm. unfold tri_at, tri_bit, bit_valid. by rewrite Hb, Hm. Qed.

(** The output being folded: bitmaps of the full size whose rows are [f]. *)
Definition folding (n : nat) (out : list Z * list Z) (f : nat → option bool) : Prop :=
  length out.1 = bitmapSize n ∧ length out.2 = bitmapSize n ∧
  ∀ i, (i < n)%nat → tri_at out.1 out.2 i = f i.

Lemma folding_column n out f :
  folding n out f → column (BoolVector out.1 out.2 n) TypeBool n (λ i, CBool <$> f i).
Proof.
  intros (Hb & Hn & Hf). apply column_bool. exists out.1, out.2. rewrite Hb, Hn.
  split_and!; [done|auto..|]. intros i Hi. by rewrite Hf.
Qed.

Lemma CBool_fmap_inj (a b : option bool) : CBool <$> a = CBool <$> b → a = b.
Proof. destruct a, b; simpl; congruence. Qed.

Lemma combine_spec byte op3 n out f cv g :
  byte_computes byte op3 → folding n out f → column cv TypeBool n (λ i, CBool <$> g i) →
  ∃ out', combine byte n out cv = Ret out' ∧ folding n out' (λ i, op3 (f i) (g i)).
Proof.
  intros Hbyte (Hob & Hon & Hf) (cb & cn & -> & Hcb & Hcn & Hg)%column_bool.
  destruct out as [ob on]. cbn [fst snd] in *. unfold combine.
  edestruct (foldM_seq_ind (λ '(bits, nulls) i,
      ob ← index bits i; on ← index nulls i; b ← index cb i; m ← index cn i;
      let '(t, v) := byte ob on b m in
      bits ← store bits i t; nulls ← store nulls i v; Ret (bits, nulls))
    (λ k '(bits, nulls), length bits = bitmapSize n ∧ length nulls = bitmapSize n ∧
      (∀ j, (k ≤ j)%nat → bits !! j = ob !! j ∧ nulls !! j = on !! j) ∧
      ∀ i, (i / 8 < k)%nat → tri_at bits nulls i = op3 (tri_at ob on i) (tri_at cb cn i))
    (bitmapSize n) (ob, on)) as ([bits nulls] & -> & Hb & Hn & _ & Hr).
  - split_and!; [done..|lia].
  - intros k [bits nulls] Hk (Hb & Hn & Hsame & Hr).
    destruct (Hsame k) as [E1 E2]; [done|].
    destruct (lookup_lt_is_Some_2 ob k) as [o Ho]; [lia|]. destruct (lookup_lt_is_Some_2 on k) as [o' Ho']; [lia|].
    unfold bitmapSize in Hk.
    destruct (lookup_lt_is_Some_2 cb k) as [c Hc]; [lia|]. destruct (lookup_lt_is_Some_2 cn k) as [c' Hc']; [lia|].
    rewrite (index_Ret bits k o), (index_Ret nulls k o'), (index_Ret cb k c), (index_Ret cn k c') by congruence.
    cbn [mbind go_bind]. pose proof (Hbyte o o' c c') as Hop.
    destruct (byte o o' c c') as [t v]. cbn [fst snd] in Hop.
    rewrite !store_Ret by (unfold bitmapSize in *; lia). cbn [mbind go_bind]. eexists. split; [done|].
    cbv beta iota. rewrite !length_insert. split_and!; [done..| |].
    + intros j Hj. rewrite !list_lookup_insert_ne by lia. apply Hsame. lia.
    + intros i Hi. destruct (decide (i / 8 = k)%nat) as [Ei|].
      * rewrite (tri_at_bytes _ _ i t v), (tri_at_bytes ob on i o o'), (tri_at_bytes cb cn i c c')
          by (rewrite Ei, ?list_lookup_insert_eq by (unfold bitmapSize in *; lia); done).
        apply Hop. lia.
      * rewrite <- Hr by lia. unfold tri_at, bit_valid. by rewrite !list_lookup_insert_ne by done.
  - eexists. split; [done|]. split; [done|]. split; [done|]. intros i Hi. cbn [fst snd].
    rewrite Hr by auto. rewrite Hf by done. f_equal. apply CBool_fmap_inj. by rewrite <- Hg.
Qed.

Lemma firstChild_spec cv n f :
  column cv TypeBool n (λ i, CBool <$> f i) → ∃ out, firstChild cv = Ret (n, out) ∧ folding n out f.
Proof.
  intros (cb & cn & -> & Hcb & Hcn & Hg)%column_bool. eexists. split; [done|].
  unfold folding. cbn [fst snd]. rewrite !length_copy, length_replicate. do 2 (split; [done|]).
  intros i Hi. apply CBool_fmap_inj. rewrite Hg by done. unfold tri_at.
  by rewrite !bit_valid_copy by done.
Qed.

Lemma notVector_spec v n f :
  column v TypeBool n (λ i, CBool <$> f i) →
  ∃ v', notVector v = Ret v' ∧ column v' TypeBool n (λ i, CBool <$> (negb <$> f i)).
Proof.
  intros (cb & cn & -> & Hcb & Hcn & Hg)%column_bool. unfold notVector.
  edestruct (foldM_seq_ind (λ '(bits, nulls) i,
      m ← index cn i; b ← index cb i;
      nulls ← store nulls i m; bits ← store bits i (Z.land (byte_not b) m);
      Ret (bits, nulls))
    (λ k '(bits, nulls), length bits = bitmapSize n ∧ length nulls = bitmapSize n ∧
      ∀ i, (i / 8 < k)%nat → tri_at bits nulls i = negb <$> tri_at cb cn i)
    (bitmapSize n) (replicate (bitmapSize n) 0, replicate (bitmapSize n) 0))
    as ([bits nulls] & -> & Hb & Hn & Hr).
  - rewrite length_replicate. split_and!; [done..|lia].
  - intros k [bits nulls] Hk (Hb & Hn & Hr). pose proof Hk as Hk'. unfold bitmapSize in Hk.
    destruct (lookup_lt_is_Some_2 cb k) as [c Hc]; [lia|]. destruct (lookup_lt_is_Some_2 cn k) as [c' Hc']; [lia|].
    rewrite (index_Ret cb k c), (index_Ret cn k c') by congruence. cbn [mbind go_bind].
    rewrite !store_Ret by lia. cbn [mbind go_bind].
    eexists. split; [done|]. cbv beta iota. rewrite !length_insert. split_and!; [done..|].
    intros i Hi. destruct (decide (i / 8 = k)%nat) as [Ei|].
    + rewrite (tri_at_bytes _ _ i (Z.land (byte_not c) c') c'), (tri_at_bytes cb cn i c c')
        by (rewrite Ei, ?list_lookup_insert_eq by lia; done).
      unfold tri_bit. rewrite Z.land_spec, testbit_byte_not by lia.
      by destruct (Z.testbit c' (Z.of_nat (i mod 8))), (Z.testbit c (Z.of_nat (i mod 8))).
    + rewrite <- Hr by lia. unfold tri_at, bit_valid. by rewrite !list_lookup_insert_ne by done.
  - cbn [mbind go_bind]. eexists. split; [done|]. apply (folding_column n (bits, nulls)).
    split; [done|]. split; [done|]. intros i Hi. cbn [fst snd]. rewrite Hr by auto. f_equal.
    apply CBool_fmap_inj. by rewrite <- Hg.
Qed.

(** ** Comparison kernels *)

(** The test of row [i], and the bits a comparison leaves under [mask]. *)
Definition row_test (test : Z → Z → bool) (lv rv : list Z) (i : nat) : bool :=
  match lv !! i, rv !! i with Some a, Some b => test a b | _, _ => false end.

Lemma cmpByte_spec test lv rv i :
  (i + 8 ≤ length lv)%nat → (i + 8 ≤ length rv)%nat →
  ∃ byte, cmpByte test lv rv i = Ret byte ∧
    ∀ k, (k < 8)%nat → Z.testbit byte (Z.of_nat k) = row_test test lv rv (i + k).
Proof.
  intros Hl Hr. unfold cmpByte.
  edestruct (foldM_seq_ind (λ byte k, a ← index lv (i + k); b ← index rv (i + k);
      Ret (if test a b then Z.lor byte (Z.shiftl 1 (Z.of_nat k)) else byte))
    (λ k byte, ∀ j, Z.testbit byte (Z.of_nat j) = bool_decide (j < k)%nat && row_test test lv rv (i + j))
    8%nat 0) as (byte & E & Hb).
  - intros j. by rewrite Z.testbit_0_l, bool_decide_false by lia.
  - intros k byte Hk Hj.
    destruct (lookup_lt_is_Some_2 lv (i + k)) as [a Ha]; [lia|].
    destruct (lookup_lt_is_Some_2 rv (i + k)) as [b Hb]; [lia|].
    rewrite (index_Ret _ _ _ Ha), (index_Ret _ _ _ Hb). cbn [mbind go_bind].
    eexists. split; [done|]. intros j.
    assert (Ht : row_test test lv rv (i + k) = test a b) by (unfold row_test; by rewrite Ha, Hb).
    destruct (decide (j = k)) as [->|Hne].
    + rewrite (bool_decide_true (k < S k)%nat), Ht by lia.
      destruct (test a b); rewrite ?Z.lor_spec, Hj, ?testbit_one_shift, (bool_decide_false (k < k)%nat) by lia;
        [by rewrite bool_decide_true|done].
    + rewrite (bool_decide_ext (j < S k)%nat (j < k)%nat) by lia. rewrite <- Hj.
      destruct (test a b); [|done]. rewrite Z.lor_spec, testbit_one_shift, bool_decide_false by lia.
      by rewrite orb_false_r.
  - exists byte. split; [done|]. intros k Hk. by rewrite Hb, bool_decide_true by done.
Qed.

Section CmpKernel.
Context (lv rv mask : list Z) (n : nat).
Context (Hl : length lv = n) (Hr : length rv = n) (Hm : length mask = bitmapSize n).

Definition compared (test : Z → Z → bool) (i : nat) (bits : list Z) : Prop :=
  length bits = bitmapSize n ∧
  ∀ j, bit_valid bits j = bool_decide (j < i)%nat && (bit_valid mask j && row_test test lv rv j).

Lemma compared_byte test i bits byte m :
  compared test i bits → (i mod 8 = 0)%nat → (i + 8 ≤ n)%nat → mask !! (i / 8)%nat = Some m →
  (∀ k, (k < 8)%nat → Z.testbit byte (Z.of_nat k) = row_test test lv rv (i + k)) →
  compared test (i + 8) (<[(i / 8)%nat := Z.land byte m]> bits).
Proof using All.
  intros (Hb & Hj) Hi Hin Hmi Hk. split; [by rewrite length_insert|]. intros j.
  destruct (decide (j / 8 = i / 8)%nat) as [E|E].
  - unfold bit_valid at 1 2. rewrite E, list_lookup_insert_eq, Hmi by (unfold bitmapSize in *; lia).
    rewrite Z.land_spec, Hk, bool_decide_true by lia.
    replace (i + j mod 8)%nat with j by lia. rewrite andb_true_l. apply andb_comm.
  - rewrite (bool_decide_ext _ (j < i)%nat) by lia. rewrite <- Hj. unfold bit_valid.
    by rewrite list_lookup_insert_ne by done.
Qed.

Lemma cmpLoop_spec test fuel i bits :
  compared test i bits → (i mod 8 = 0)%nat → (i ≤ n)%nat → (n - i < fuel)%nat →
  ∃ i' bits', cmpLoop fuel test lv rv mask n i bits = Ret (i', bits') ∧
    compared test i' bits' ∧ (i' ≤ n)%nat.
Proof using All.
  revert i bits. induction fuel as [|fuel IH]; intros i bits Hc Hi Hin Hf; [lia|]. cbn [cmpLoop].
  case_decide as Hd; [|eauto].
  destruct (cmpByte_spec test lv rv i) as (byte & -> & Hbyte); [lia..|]. cbn [mbind go_bind].
  destruct (lookup_lt_is_Some_2 mask (i / 8)) as [m Hmi]; [unfold bitmapSize in *; lia|].
  rewrite (index_Ret _ _ _ Hmi). cbn [mbind go_bind].
  rewrite store_Ret by (destruct Hc as [-> _]; auto with lia). cbn [mbind go_bind].
  apply IH; [by apply compared_byte|lia..].
Qed.

Lemma evalCmpKernel_spec cmp op :
  is_cmp op = true →
  ∃ bits, evalCmpKernel cmp op lv rv mask n (replicate (bitmapSize n) 0) = Ret bits ∧
    length bits = bitmapSize n ∧
    ∀ j, (j < n)%nat → bit_valid bits j = bit_valid mask j && row_test (cmp op) lv rv j.
Proof using All.
  intros Hop. unfold evalCmpKernel. rewrite Hop.
  destruct (cmpLoop_spec (cmp op) (S n) 0 (replicate (bitmapSize n) 0)) as (i & bits & -> & Hc & Hi);
    [|done|lia..|].
  { split; [apply length_replicate|]. intros j. by rewrite bit_valid_zeros, bool_decide_false by lia. }
  cbn [mbind go_bind].
  edestruct (foldM_list_ind (λ bits i,
      isnull ← IsNullBit mask i;
      if (isnull : bool) then Ret bits else
      a ← index lv i; b ← index rv i; bv_Set bits i (cmp op a b))
    (λ k bits, compared (cmp op) (i + k) bits) (seq i (n - i)) bits) as (bits' & E & Hb & Hj);
    [by rewrite Nat.add_0_r| |].
  - intros k a bits' [-> Hk]%lookup_seq (Hb & Hj).
    pose proof (size_index n (i + k)) as Hs.
    rewrite IsNullBit_Ret by lia. cbn [mbind go_bind].
    assert (Hstep : ∀ bits'', length bits'' = length bits' →
      (∀ j, bit_valid bits'' j = if decide (j = i + k)%nat
         then bit_valid mask j && row_test (cmp op) lv rv j else bit_valid bits' j) →
      compared (cmp op) (i + S k) bits'').
    { intros bits'' Hl' Hb'. split; [by rewrite Hl'|]. intros j. rewrite Hb'. case_decide as Ej.
      - by rewrite bool_decide_true by lia.
      - rewrite Hj. f_equal. apply bool_decide_ext. lia. }
    destruct (bit_valid mask (i + k)) eqn:Em; cbn [negb].
    + destruct (lookup_lt_is_Some_2 lv (i + k)) as [a Ha]; [lia|].
      destruct (lookup_lt_is_Some_2 rv (i + k)) as [b Hb']; [lia|].
      rewrite (index_Ret _ _ _ Ha), (index_Ret _ _ _ Hb'). cbn [mbind go_bind].
      rewrite bv_Set_Ret by lia. eexists. split; [done|]. apply Hstep; [apply length_bm_set|].
      intros j. rewrite bit_valid_bm_set by lia. case_decide as Ej; [|done]. subst j.
      unfold row_test. by rewrite Em, Ha, Hb'.
    + eexists. split; [done|]. apply Hstep; [done|]. intros j. case_decide as Ej; [|done]. subst j.
      by rewrite Hj, Em, andb_false_r.
  - rewrite length_seq in Hj. exists bits'. split; [done|]. split; [done|]. intros j Hjn.
    by rewrite Hj, bool_decide_true by lia.
Qed.
End CmpKernel.

(** The bitmap of a comparison: both sides valid. *)
Lemma merged_nulls a b n i :
  (n ≤ 8 * length a)%nat → (n ≤ 8 * length b)%nat → (i < n)%nat →
  bit_valid ((λ i, Z.land (default 0xFF (a !! i)) (default 0xFF (b !! i))) <$> seq 0 (bitmapSize n)) i
  = bit_valid a i && bit_valid b i.
Proof.
  intros Ha Hb Hi. unfold bit_valid. rewrite list_lookup_fmap, lookup_seq_lt by auto.
  cbn [fmap option_fmap option_map].
  destruct (lookup_lt_is_Some_2 a (i / 8)) as [x Hx]; [lia|].
  destruct (lookup_lt_is_Some_2 b (i / 8)) as [y Hy]; [lia|].
  rewrite Nat.add_0_l, Hx, Hy. apply Z.land_spec.
Qed.

Lemma evalCmp_fixed t mkV mkC cmp op lv rv ln rn n f g :
  is_cmp op = true →
  (∀ a b, bin_cell op (Some (mkC a)) (Some (mkC b)) = Some (CBool (cmp op a b))) →
  fixed t mkV mkC → column (mkV lv ln) t n f → column (mkV rv rn) t n g →
  let nulls := (λ i, Z.land (default 0xFF (ln !! i)) (default 0xFF (rn !! i))) <$> seq 0 (bitmapSize n) in
  ∃ bits, evalCmpKernel cmp op lv rv nulls n (replicate (bitmapSize n) 0) = Ret bits ∧
    column (BoolVector bits nulls n) TypeBool n (λ i, bin_cell op (f i) (g i)).
Proof.
  intros Hop Hcell Hfix Hl Hr nulls.
  apply (column_fixed _ _ _ _ _ _ Hfix) in Hl as (lv' & ln' & El & Hl1 & Hl2 & Hl3).
  apply (column_fixed _ _ _ _ _ _ Hfix) in Hr as (rv' & rn' & Er & Hr1 & Hr2 & Hr3).
  assert (lv' = lv ∧ ln' = ln ∧ rv' = rv ∧ rn' = rn) as (-> & -> & -> & ->) by (destruct Hfix; naive_solver).
  assert (Hlen : length nulls = bitmapSize n) by (unfold nulls; by rewrite length_fmap, length_seq).
  destruct (evalCmpKernel_spec lv rv nulls n Hl1 Hr1 Hlen cmp op Hop) as (bits & -> & Hb & Hj).
  exists bits. split; [done|]. apply column_bool. exists bits, nulls. rewrite Hb, Hlen.
  split_and!; [done|auto..|]. intros i Hi. unfold tri_at. rewrite Hj by done.
  unfold nulls. rewrite merged_nulls by done.
  destruct (lookup_lt_is_Some_2 lv i) as [a Ha]; [lia|]. destruct (lookup_lt_is_Some_2 rv i) as [b Hb']; [lia|].
  rewrite (Hl3 _ _ Ha), (Hr3 _ _ Hb').
  destruct (bit_valid ln i), (bit_valid rn i); cbn [andb]; rewrite ?Hcell;
    try (destruct Hfix; done). unfold row_test. by rewrite Ha, Hb'.
Qed.

Lemma evalCmp_spec op t lv rv n f g :
  is_cmp op = true → comparable t = true → column lv t n f → column rv t n g →
  ∃ v, evalCmp op lv rv n = Ret v ∧ column v TypeBool n (λ i, bin_cell op (f i) (g i)).
Proof.
  intros Hop Ht Hl Hr. pose proof Hl as (_ & El & _). pose proof Hr as (_ & Er & _).
  assert (∀ m (v : list Z → Vector) (Q : Vector → Prop), (∃ bits, m = Ret bits ∧ Q (v bits)) →
    ∃ v', (bits ← m; Ret (v bits)) = Ret v' ∧ Q v') as Hret.
  { intros m v Q (bits & -> & HQ). by exists (v bits). }
  destruct t; try done; destruct lv, rv; try done; unfold evalCmp; cbn [Nulls]; apply Hret.
  - apply (evalCmp_fixed TypeInt64 Int64Vector CInt); auto. intros. simpl. by rewrite Hop.
  - apply (evalCmp_fixed TypeFloat64 Float64Vector CFloat); auto. intros. simpl. by rewrite Hop.
  - apply (evalCmp_fixed TypeDate DateVector CDate); auto. intros. simpl. by rewrite Hop.
Qed.

(** ** Arithmetic *)

Lemma arithLoop_spec apply isZero op l r n nulls :
  length l = n → length r = n → length nulls = bitmapSize n →
  ∃ vals nulls', arithLoop apply isZero op l r n nulls = Ret (vals, nulls') ∧
    length vals = n ∧ length nulls' = bitmapSize n ∧
    ∀ i a b, l !! i = Some a → r !! i = Some b →
      bit_valid nulls' i = bit_valid nulls i && negb (bool_decide (op = BinDiv) && isZero b) ∧
      (bit_valid nulls' i = true → vals !! i = Some (apply op a b)).
Proof.
  intros Hl Hr Hn. unfold arithLoop.
  edestruct (foldM_seq_ind (λ '(vals, nulls) i,
      isnull ← IsNullBit nulls i;
      if (isnull : bool) then Ret (vals, nulls) else
      b ← index r i;
      if bool_decide (op = BinDiv) && isZero b
      then nulls ← SetNullBit nulls i; Ret (vals, nulls)
      else a ← index l i; vals ← store vals i (apply op a b); Ret (vals, nulls))
    (λ k '(vals, nulls'), length vals = n ∧ length nulls' = bitmapSize n ∧
      (∀ i, (k ≤ i)%nat → bit_valid nulls' i = bit_valid nulls i) ∧
      ∀ i a b, (i < k)%nat → l !! i = Some a → r !! i = Some b →
        bit_valid nulls' i = bit_valid nulls i && negb (bool_decide (op = BinDiv) && isZero b) ∧
        (bit_valid nulls' i = true → vals !! i = Some (apply op a b)))
    n (replicate n 0, nulls)) as ([vals nulls'] & E & Hv & Hn' & _ & Hi).
  - rewrite length_replicate. split_and!; [done..|lia].
  - intros k [vals nulls'] Hk (Hv & Hn' & Hsame & Hi).
    pose proof (size_index n k Hk) as Hs.
    destruct (lookup_lt_is_Some_2 l k) as [a Ha]; [lia|]. destruct (lookup_lt_is_Some_2 r k) as [b Hb]; [lia|].
    rewrite IsNullBit_Ret by lia. cbn [mbind go_bind]. rewrite Hsame by done.
    destruct (bit_valid nulls k) eqn:Ek; cbn [negb].
    2: { eexists. split; [done|]. split_and!; [done..|intros; apply Hsame; lia|].
      intros i a' b' Hik Ha' Hb'. destruct (decide (i = k)) as [->|]; [|apply Hi; (done || lia)].
      by rewrite Hsame, Ek by done. }
    rewrite (index_Ret _ _ _ Hb). cbn [mbind go_bind].
    destruct (bool_decide (op = BinDiv) && isZero b) eqn:Ez.
    + rewrite SetNullBit_Ret by lia. cbn [mbind go_bind]. eexists. split; [done|].
      cbv beta iota. rewrite length_bm_set. split_and!; [done..| |].
      * intros i Hik. rewrite bit_valid_bm_set, decide_False by lia. apply Hsame. lia.
      * intros i a' b' Hik Ha' Hb'. rewrite bit_valid_bm_set by lia.
        destruct (decide (i = k)) as [->|]; [|apply Hi; (done || lia)].
        assert (b' = b) as -> by congruence. by rewrite Ek, Ez.
    + rewrite (index_Ret _ _ _ Ha). cbn [mbind go_bind]. rewrite store_Ret by lia. cbn [mbind go_bind].
      eexists. split; [done|]. cbv beta iota. rewrite length_insert.
      split_and!; [done..|intros; apply Hsame; lia|].
      intros i a' b' Hik Ha' Hb'. destruct (decide (i = k)) as [->|].
      * assert (b' = b) as -> by congruence. assert (a' = a) as -> by congruence.
        rewrite Hsame, Ek, Ez by done. split; [done|]. by rewrite list_lookup_insert_eq by lia.
      * rewrite list_lookup_insert_ne by done. apply Hi; (done || lia).
  - exists vals, nulls'. split; [done|]. split; [done|]. split; [done|]. intros i a b Ha Hb.
    apply Hi; [|done..]. apply lookup_lt_Some in Ha. lia.
Qed.

Lemma arith_fixed t mkV mkC apply isZero op lv rv ln rn n f g :
  is_cmp op = false → fixed t mkV mkC →
  (∀ a b, bin_cell op (Some (mkC a)) (Some (mkC b))
     = if bool_decide (op = BinDiv) && isZero b then None else Some (mkC (apply op a b))) →
  column (mkV lv ln) t n f → column (mkV rv rn) t n g →
  ∃ r, arithLoop apply isZero op lv rv n
         (mergeNullBitmapsInto (replicate (bitmapSize n) 0) ln rn n) = Ret r ∧
    column (mkV r.1 r.2) t n (λ i, bin_cell op (f i) (g i)).
Proof.
  intros Hop Hfix Hcell Hl Hr.
  apply (column_fixed _ _ _ _ _ _ Hfix) in Hl as (lv' & ln' & El & Hl1 & Hl2 & Hl3).
  apply (column_fixed _ _ _ _ _ _ Hfix) in Hr as (rv' & rn' & Er & Hr1 & Hr2 & Hr3).
  assert (lv' = lv ∧ ln' = ln ∧ rv' = rv ∧ rn' = rn) as (-> & -> & -> & ->) by (destruct Hfix; naive_solver).
  destruct (arithLoop_spec apply isZero op lv rv n
    (mergeNullBitmapsInto (replicate (bitmapSize n) 0) ln rn n)) as (vals & nulls & -> & Hv & Hn & Hi);
    [done..|by rewrite length_mergeNullBitmapsInto, length_replicate|].
  exists (vals, nulls). split; [done|]. apply (column_fixed _ _ _ _ _ _ Hfix).
  exists vals, nulls. rewrite Hn. split_and!; [done|done|auto|]. intros i x Hx. cbn [fst snd] in *.
  pose proof (lookup_lt_Some _ _ _ Hx) as Hlt.
  destruct (lookup_lt_is_Some_2 lv i) as [a Ha]; [lia|]. destruct (lookup_lt_is_Some_2 rv i) as [b Hb]; [lia|].
  destruct (Hi i a b Ha Hb) as [Hnull Hval].
  rewrite mergeNullBitmapsInto_spec in Hnull by (rewrite ?length_replicate; auto; lia).
  rewrite (Hl3 _ _ Ha), (Hr3 _ _ Hb).
  destruct (bit_valid ln i), (bit_valid rn i); cbn [andb] in Hnull; rewrite Hnull;
    try (destruct Hfix; done).
  rewrite Hcell. destruct (bool_decide (op = BinDiv) && isZero b); cbn [negb] in *; [done|].
  rewrite Hx in Hval. specialize (Hval Hnull). congruence.
Qed.

Lemma evalArith_spec op t lv rv n f g :
  is_cmp op = false → numeric t = true → column lv t n f → column rv t n g →
  ∃ v, evalArith op lv rv n = Ret v ∧ column v t n (λ i, bin_cell op (f i) (g i)).
Proof.
  intros Hop Ht Hl Hr. pose proof Hl as (_ & El & _). pose proof Hr as (_ & Er & _).
  destruct t; try done; destruct lv as [lv ln|lv ln| | |], rv as [rv rn|rv rn| | |]; try done; cbn [evalArith Nulls].
  - destruct (arith_fixed TypeInt64 Int64Vector CInt applyArithInt64 (Z.eqb 0) op lv rv ln rn n f g)
      as ([vals nulls] & -> & Hc); eauto. intros. simpl. by rewrite Hop.
  - destruct (arith_fixed TypeFloat64 Float64Vector CFloat applyArithFloat64 (λ b, f64_eq b 0) op
      lv rv ln rn n f g) as ([vals nulls] & -> & Hc); eauto. intros. simpl. by rewrite Hop.
Qed.

Lemma castIntToFloat_spec v n f :
  column v TypeInt64 n f →
  ∃ v', castIntToFloat v = Ret v' ∧
    column v' TypeFloat64 n (λ i, match f i with Some (CInt z) => Some (CFloat (f64_of_int z)) | _ => None end).
Proof.
  intros (vs & nb & -> & Hl & Hn & Hf)%(column_fixed _ _ _ _ _ _ fixed_int64).
  eexists. split; [done|]. apply (column_fixed _ _ _ _ _ _ fixed_float64).
  eexists _, _. split; [done|]. rewrite length_fmap. split; [done|]. split; [done|].
  intros i x Hx. rewrite list_lookup_fmap in Hx. destruct (vs !! i) as [z|] eqn:Ez; [|done].
  injection Hx as <-. rewrite (Hf _ _ Ez). by destruct (bit_valid nb i).
Qed.
