(* ===== verification/VCase.v ===== *)
(** * Package exec: literals and the merge of CASE, cell by cell *)
From Stdlib Require Import ZArith Lia ZifyNat Ascii.
From stdpp Require Import base numbers list strings gmap.
From S2P Require Import Prelude Encoding Codec Float64 Schema Writer Reader Batch Scratch VExpr VKernel.
#[local] Open Scope Z_scope.
#[local] Hint Resolve size_bits size_index : core.

(** What a result's dictionary occupies: the marshalled form holds it while it
    stays below 2^32 entries and bytes. *)
Definition dict_size (v : Vector) : Z :=
  match v with
  | StringVector _ (Some d) _ => Z.of_nat (length (Offsets d) + length (Data d))
  | _ => 0
  end.
(** The row a CASE branch leaves: the branch's own when the condition holds. *)
Definition merged (c : nat → option bool) (g f : nat → option Cell) (i : nat) : option Cell :=
  if bool_decide (c i = Some true) then g i else f i.

Lemma nullVector_spec t n :
  match t with TypeOther _ => False | _ => True end → column (nullVector t n) t n (λ _, None).
Proof.
  intros Ht. assert (∀ i, (i < n)%nat → bit_valid (replicate (bitmapSize n) 0) i = false) as Hz
    by (intros; apply bit_valid_zeros).
  destruct t; try done.
  - apply (column_fixed _ _ _ _ _ _ fixed_int64). eexists _, _. split; [done|].
    rewrite !length_replicate. split; [done|]. split; [auto|]. intros i x _. by rewrite bit_valid_zeros.
  - apply (column_fixed _ _ _ _ _ _ fixed_float64). eexists _, _. split; [done|].
    rewrite !length_replicate. split; [done|]. split; [auto|]. intros i x _. by rewrite bit_valid_zeros.
  - apply (constant_column false); [apply length_replicate|done].
  - apply column_string. eexists _, _, _. split; [done|]. rewrite !length_replicate. auto.
  - apply (column_fixed _ _ _ _ _ _ fixed_date). eexists _, _. split; [done|].
    rewrite !length_replicate. split; [done|]. split; [auto|]. intros i x _. by rewrite bit_valid_zeros.
Qed.

Lemma newStringVector_fits db codes nb :
  dict_fits (db_keys db) →
  newStringVector db codes nb
  = Ret (StringVector codes (Some (mkDictionary (dict_offsets (db_keys db)) (dict_data (db_keys db)) [])) nb).
Proof.
  intros Hf. unfold newStringVector. rewrite Marshal_spec by done. cbn [mbind go_bind].
  by rewrite UnmarshalDictionary_body by done.
Qed.
Lemma dict_size_keys keys codes nb :
  dict_size (StringVector codes (Some (mkDictionary (dict_offsets keys) (dict_data keys) [])) nb)
  = Z.of_nat (length keys + length (dict_data keys)).
Proof. simpl. by rewrite length_dict_offsets. Qed.

(** ** Literals *)

Lemma full_fixed t mkV mkC n x :
  fixed t mkV mkC →
  column (mkV (replicate n x) (setAllValid (replicate (bitmapSize n) 0) n)) t n (λ _, Some (mkC x)).
Proof.
  intros Hf. apply (column_fixed _ _ _ _ _ _ Hf). eexists _, _. split; [done|].
  rewrite length_replicate, length_full. split; [done|]. split; [auto|].
  intros i y [-> Hi]%lookup_replicate. by rewrite bit_valid_full.
Qed.

Lemma literalVector_spec c n :
  match c with CStr s => 1 + Z.of_nat (strlen s) < 2 ^ 32 | _ => True end →
  ∃ v, literalVector c (cell_type c) n = Ret v ∧
    column v (cell_type c) n (λ _, Some c) ∧
    dict_size v ≤ match c with CStr s => 1 + Z.of_nat (strlen s) | _ => 0 end.
Proof.
  intros Hc. destruct c as [x|x|b|s|x]; cbn [literalVector cell_type].
  - eexists. split; [done|]. split; [by apply full_fixed|done].
  - eexists. split; [done|]. split; [by apply full_fixed|done].
  - edestruct (foldM_seq_ind (λ bits i, bv_Set bits i b)
      (λ k bits, length bits = bitmapSize n ∧ ∀ j, (j < k)%nat → bit_valid bits j = b)
      n (replicate (bitmapSize n) 0)) as (bits & -> & Hb & Hj).
    + split; [apply length_replicate|lia].
    + intros k bits Hk (Hb & Hj). pose proof (size_index n k Hk). rewrite bv_Set_Ret by lia.
      eexists. split; [done|]. rewrite length_bm_set. split; [done|]. intros j Hjk.
      rewrite bit_valid_bm_set by lia. case_decide; [done|apply Hj; lia].
    + cbn [mbind go_bind]. eexists. split; [done|]. split; [|done]. apply column_bool.
      eexists _, _. split; [done|]. rewrite Hb, length_full. split_and!; [auto..|].
      intros i Hi. unfold tri_at. by rewrite bit_valid_full, Hj.
  - assert (Hk : db_keys (Add NewDictBuilder s).2 = [s]) by done.
    assert (Hs : length (dict_data [s]) = strlen s).
    { unfold dict_data, strlen. simpl. by rewrite app_nil_r. }
    assert (Hf : dict_fits [s]) by (split; rewrite ?Hs; simpl; lia).
    change (Add NewDictBuilder s) with (0, (Add NewDictBuilder s).2). cbv beta iota.
    rewrite newStringVector_fits by by rewrite Hk. rewrite Hk. eexists. split; [done|].
    split; [|rewrite dict_size_keys, Hs; simpl; lia]. apply column_string. eexists _, _, _.
    split; [done|]. rewrite length_replicate, length_full. split; [done|]. split; [auto|].
    split; [intros i Hi; by rewrite bit_valid_full|]. exists [s].
    split; [apply NoDup_singleton|]. split; [done|]. split; [apply dict_inv_fresh|].
    intros i Hi _. exists 0%nat, s. by rewrite lookup_replicate_2.
  - eexists. split; [done|]. split; [by apply full_fixed|done].
Qed.

(** ** Merging one branch *)

Lemma condTrue_spec cond n (c : nat → option bool) i :
  column cond TypeBool n (λ i, CBool <$> c i) → (i < n)%nat →
  condTrue cond i = Ret (bool_decide (c i = Some true)).
Proof.
  intros Hc Hi. unfold condTrue. rewrite (column_IsNull _ _ _ _ _ Hc Hi), is_null_dec.
  cbn [mbind go_bind]. destruct (c i) as [b|] eqn:E; cbn [fmap option_fmap option_map].
  - destruct (proj1 (column_bool _ _ _) Hc) as (bits & nb & -> & _).
    assert (H : (λ i, CBool <$> c i) i = Some (CBool b)) by (simpl; by rewrite E).
    pose proof (column_value _ _ _ _ _ _ Hc Hi H) as Hv.
    cbn [vec_value] in Hv. destruct (bv_Get bits i); cbn [mbind go_bind] in *; [|done..].
    injection Hv as ->. by destruct b.
  - done.
Qed.

(** The bitmap half of every merge step. *)
Lemma set_null_step nulls n i (isnull : bool) :
  length nulls = bitmapSize n → (i < n)%nat →
  (if isnull then SetNullBit nulls i else SetValidBit nulls i) = Ret (bm_set (negb isnull) nulls i).
Proof.
  intros Hn Hi. pose proof (size_index n i Hi).
  destruct isnull; [apply SetNullBit_Ret|apply SetValidBit_Ret]; lia.
Qed.

(** After [k] rows the buffers read [rd] as the merged cells below [k], and as
    the base above. *)
Definition merging {S} (rd : S → list Z → nat → option Cell) (ok : S → Prop) (n : nat)
    (c : nat → option bool) (g f : nat → option Cell) (k : nat) (st : S * list Z) : Prop :=
  ok st.1 ∧ length st.2 = bitmapSize n ∧
  ∀ i, (i < n)%nat → rd st.1 st.2 i = if decide (i < k)%nat then merged c g f i else f i.

Lemma merging_step {S} rd (ok : S → Prop) n c g f k st st' :
  merging rd ok n c g f k st → ok st'.1 → length st'.2 = bitmapSize n →
  rd st'.1 st'.2 k = merged c g f k →
  (∀ i, (i < n)%nat → i ≠ k → rd st'.1 st'.2 i = rd st.1 st.2 i) →
  merging rd ok n c g f (Datatypes.S k) st'.
Proof.
  intros (_ & _ & Hr) Hok Hn Hk Hne. split; [done|]. split; [done|]. intros i Hi.
  destruct (decide (i = k)) as [->|]; [by rewrite decide_True by lia|].
  rewrite Hne, Hr by done. do 2 case_decide; (done || lia).
Qed.
Lemma merging_skip {S} rd (ok : S → Prop) n c g f k st :
  merging rd ok n c g f k st → (k < n)%nat → c k ≠ Some true →
  merging rd ok n c g f (Datatypes.S k) st.
Proof.
  intros H Hk Hc. pose proof H as (Hok & Hn & Hr). apply (merging_step _ _ _ _ _ _ _ st); auto.
  rewrite Hr, decide_False by lia. unfold merged. by rewrite bool_decide_false.
Qed.

Definition rd_fixed (mkC : Z → Cell) (vals nulls : list Z) (i : nat) : option Cell :=
  if bit_valid nulls i then mkC <$> (vals !! i) else None.

Lemma mergeLoop_spec t mkV mkC n cond c vv vn g bv bn f :
  fixed t mkV mkC → column cond TypeBool n (λ i, CBool <$> c i) →
  column (mkV vv vn) t n g → column (mkV bv bn) t n f →
  ∃ r, mergeLoop cond (mkV vv vn) vv n (copy (replicate n 0) bv) (copy (replicate (bitmapSize n) 0) bn)
       = Ret r ∧ column (mkV r.1 r.2) t n (merged c g f).
Proof.
  intros Hfix Hc Hv Hb. pose proof Hv as Hv0.
  apply (column_fixed _ _ _ _ _ _ Hfix) in Hv as (vv' & vn' & Ev & Hv1 & Hv2 & Hv3).
  apply (column_fixed _ _ _ _ _ _ Hfix) in Hb as (bv' & bn' & Eb & Hb1 & Hb2 & Hb3).
  assert (vv' = vv ∧ vn' = vn ∧ bv' = bv ∧ bn' = bn) as (-> & -> & -> & ->) by (destruct Hfix; naive_solver).
  unfold mergeLoop.
  edestruct (foldM_seq_ind (λ '(vals, nulls) i,
      c ← condTrue cond i;
      if (c : bool) then
        x ← index vv i; vals ← store vals i x;
        isnull ← IsNull (mkV vv vn) i;
        nulls ← (if (isnull : bool) then SetNullBit nulls i else SetValidBit nulls i);
        Ret (vals, nulls)
      else Ret (vals, nulls))
    (merging (rd_fixed mkC) (λ vals, length vals = n) n c g f) n
    (copy (replicate n 0) bv, copy (replicate (bitmapSize n) 0) bn)) as (r & -> & Hok & Hn & Hr).
  - unfold merging. cbn [fst snd]. rewrite !length_copy, !length_replicate. split_and!; [done..|].
    intros i Hi. rewrite decide_False by lia. unfold rd_fixed. rewrite bit_valid_copy by done.
    rewrite copy_full by (by rewrite length_replicate).
    destruct (lookup_lt_is_Some_2 bv i) as [x Hx]; [lia|]. by rewrite Hx, (Hb3 _ _ Hx).
  - intros k [vals nulls] Hk (Hok & Hn & Hr). cbn [fst snd] in *.
    rewrite (condTrue_spec _ _ _ _ Hc Hk). cbn [mbind go_bind].
    destruct (decide (c k = Some true)) as [Et|Et];
      [rewrite bool_decide_true by done|rewrite bool_decide_false by done].
    + destruct (lookup_lt_is_Some_2 vv k) as [x Hx]; [lia|]. rewrite (index_Ret _ _ _ Hx).
      cbn [mbind go_bind]. rewrite store_Ret by lia. cbn [mbind go_bind].
      rewrite (column_IsNull _ _ _ _ _ Hv0 Hk), is_null_dec. cbn [mbind go_bind].
      rewrite (set_null_step nulls n) by done. cbn [mbind go_bind]. eexists. split; [done|].
      pose proof (size_index n k Hk). apply (merging_step _ _ _ _ _ _ _ (vals, nulls)); [exact (conj Hok (conj Hn Hr))|..];
        cbn [fst snd]; rewrite ?length_insert, ?length_bm_set; [done..| |].
      * unfold rd_fixed, merged. rewrite bit_valid_bm_set, decide_True, list_lookup_insert_eq by lia.
        rewrite bool_decide_true, (Hv3 _ _ Hx) by done. by destruct (bit_valid vn k).
      * intros i Hi Hik. unfold rd_fixed. rewrite bit_valid_bm_set, decide_False by lia.
        by rewrite list_lookup_insert_ne by done.
    + eexists. split; [done|]. apply merging_skip; [exact (conj Hok (conj Hn Hr))|done..].
  - exists r. split; [done|]. apply (column_fixed _ _ _ _ _ _ Hfix). exists r.1, r.2.
    rewrite Hn. split_and!; [done..|auto|]. intros i x Hx. pose proof (lookup_lt_Some _ _ _ Hx).
    rewrite <- (decide_True (merged c g f i) (f i) (P := (i < n)%nat)) by lia. rewrite <- Hr by lia.
    unfold rd_fixed. by rewrite Hx.
Qed.

Definition rd_bool (bits nulls : list Z) (i : nat) : option Cell := CBool <$> tri_at bits nulls i.

Lemma mergeBool_spec n cond c v g b f :
  column cond TypeBool n (λ i, CBool <$> c i) →
  column v TypeBool n g → column b TypeBool n f →
  ∃ v', mergeVectors cond v b n = Ret v' ∧ column v' TypeBool n (merged c g f).
Proof.
  intros Hc Hv Hb. pose proof Hv as Hv0.
  apply column_bool in Hv as (vv & vn & -> & Hv1 & Hv2 & Hv3).
  apply column_bool in Hb as (bv & bn & -> & Hb1 & Hb2 & Hb3). cbn [mergeVectors Nulls].
  edestruct (foldM_seq_ind (λ '(bits, nulls) i,
      c ← condTrue cond i;
      if (c : bool) then
        x ← bv_Get vv i; bits ← bv_Set bits i x;
        isnull ← IsNull (BoolVector vv vn n) i;
        nulls ← (if (isnull : bool) then SetNullBit nulls i else SetValidBit nulls i);
        Ret (bits, nulls)
      else Ret (bits, nulls))
    (merging rd_bool (λ bits, length bits = bitmapSize n) n c g f) n
    (copy (replicate (bitmapSize n) 0) bv, copy (replicate (bitmapSize n) 0) bn))
    as ([bits nulls] & -> & Hok & Hn & Hr).
  - unfold merging. cbn [fst snd]. rewrite !length_copy, !length_replicate. split_and!; [done..|].
    intros i Hi. rewrite decide_False by lia. unfold rd_bool, tri_at. rewrite !bit_valid_copy by done.
    by rewrite Hb3 by done.
  - intros k [bits nulls] Hk (Hok & Hn & Hr). cbn [fst snd] in *. pose proof (size_index n k Hk).
    rewrite (condTrue_spec _ _ _ _ Hc Hk). cbn [mbind go_bind].
    destruct (decide (c k = Some true)) as [Et|Et];
      [rewrite bool_decide_true by done|rewrite bool_decide_false by done].
    + rewrite bv_Get_Ret by lia. cbn [mbind go_bind]. rewrite bv_Set_Ret by lia. cbn [mbind go_bind].
      rewrite (column_IsNull _ _ _ _ _ Hv0 Hk), is_null_dec. cbn [mbind go_bind].
      rewrite (set_null_step nulls n) by done. cbn [mbind go_bind]. eexists. split; [done|].
      apply (merging_step _ _ _ _ _ _ _ (bits, nulls)); [exact (conj Hok (conj Hn Hr))|..];
        cbn [fst snd]; rewrite ?length_bm_set; [done..| |].
      * unfold rd_bool, tri_at, merged. rewrite !bit_valid_bm_set, !decide_True by (done || lia).
        rewrite bool_decide_true, Hv3 by done. unfold tri_at. by destruct (bit_valid vn k).
      * intros i Hi Hik. unfold rd_bool, tri_at. by rewrite !bit_valid_bm_set, !decide_False by (done || lia).
    + eexists. split; [done|]. apply merging_skip; [exact (conj Hok (conj Hn Hr))|done..].
  - eexists. split; [done|]. apply column_bool. exists bits, nulls. cbn [fst snd] in *.
    rewrite Hok, Hn. split_and!; [done|auto..|]. intros i Hi. specialize (Hr i Hi).
    rewrite decide_True in Hr by done. by rewrite <- Hr.
Qed.

(** ** Merging strings: the dictionaries of both sides are added to a new one *)

Lemma remap_add_all d keys db :
  dict_fits keys → dict_inv keys d → remap (Some d) db = Ret (add_all db keys).
Proof.
  intros Hf Hd. unfold remap, d_Len. pose proof Hd as [[Ho _] _].
  rewrite Ho, length_dict_offsets.
  cut (∀ rest pre codes db, keys = pre ++ rest →
    foldM (λ '(codes, db) i, '(s, _) ← Get d (Z.of_nat i);
        let '(c, db) := Add db s in Ret (codes ++ [c], db)) (codes, db) (seq (length pre) (length rest))
    = Ret (codes ++ (add_all db rest).1, (add_all db rest).2)).
  { intros H. etrans; [apply (H keys [] [] db eq_refl)|]. by destruct (add_all db keys). }
  induction rest as [|s rest IH]; intros pre codes db' Hk; [by rewrite app_nil_r|].
  cbn [length seq foldM]. destruct (Get_spec keys d (length pre) s Hf) as (d' & -> & _);
    [done|rewrite Hk; by rewrite lookup_app_r, Nat.sub_diag by lia|]. cbn [mbind go_bind add_all].
  destruct (Add db' s) as [c db'']. cbn [mbind go_bind].
  replace (S (length pre)) with (length (pre ++ [s])) by (rewrite length_app; simpl; lia).
  rewrite IH by (by rewrite <- app_assoc). destruct (add_all db'' rest). cbn [fst snd].
  by rewrite <- app_assoc.
Qed.

(** A side after its remap: each of its strings has a code in the merged keys. *)
Definition remapped (keys : list string) (codes rm : list Z) (n : nat) (f : nat → option Cell) : Prop :=
  ∀ i, (i < n)%nat → match f i with
    | None => True
    | Some c => ∃ s old new, c = CStr s ∧ codes !! i = Some old ∧
        rm !! Z.to_nat old = Some new ∧ coded keys new s
    end.

Lemma coded_app keys more c s : coded keys c s → coded (keys ++ more) c s.
Proof. intros (i & -> & Hi). exists i. split; [done|]. by apply lookup_app_l_Some. Qed.
Lemma remapped_app keys more codes rm n f :
  remapped keys codes rm n f → remapped (keys ++ more) codes rm n f.
Proof.
  intros H i Hi. specialize (H i Hi). destruct (f i) as [c|]; [|done].
  destruct H as (s & old & new & ? & ? & ? & ?). exists s, old, new. auto using coded_app.
Qed.

Lemma remap_spec codes dict nb n f db :
  column (StringVector codes dict nb) TypeString n f → db_wf db →
  Z.of_nat (length (db_keys db)) + dict_size (StringVector codes dict nb) < 2 ^ 32 →
  ∃ rm db' more, remap dict db = Ret (rm, db') ∧ db_wf db' ∧ db_keys db' = db_keys db ++ more ∧
    Z.of_nat (length more + length (dict_data more)) ≤ dict_size (StringVector codes dict nb) ∧
    remapped (db_keys db') codes rm n f.
Proof.
  intros Hc Hwf Hsz. apply column_string in Hc as (codes' & dict' & nb' & E & Hl & Hn & Hnull & Hd).
  injection E as <- <- <-. destruct dict as [d|].
  - destruct Hd as (keys & Hnd & Hf & Hdi & Hk). pose proof (remap_add_all d keys db Hf Hdi) as Hr.
    cbn [dict_size] in *. destruct Hdi as [[Ho Hdd] _]. rewrite Ho, Hdd, length_dict_offsets in *.
    pose proof (add_all_spec db keys Hwf) as Ha. destruct (add_all db keys) as [rm db'].
    destruct Ha as (Hwf' & (more & Hkeys & Hm1 & Hm2) & Hcoded); [lia|].
    exists rm, db', more. split; [done|]. split; [done|]. split; [done|]. split; [lia|].
    intros i Hi. destruct (bit_valid nb i) eqn:Eb; [|by rewrite Hnull].
    destruct (Hk i Hi Eb) as (k & s & Hci & Hks & ->).
    destruct (Forall2_lookup_r _ _ _ _ _ Hcoded Hks) as (new & Hnew & Hcd).
    exists s, (Z.of_nat k), new. by rewrite Nat2Z.id.
  - exists [], db, []. rewrite app_nil_r. split_and!; [done..|].
    intros i Hi. by rewrite Hnull by auto.
Qed.

(** What a row of the merged vector has to say about the merged cell. *)
Definition string_row (keys : list string) (codes nulls : list Z) (i : nat) (c : option Cell) : Prop :=
  match c with
  | None => bit_valid nulls i = false
  | Some c => bit_valid nulls i = true ∧ ∃ s new, c = CStr s ∧ codes !! i = Some new ∧ coded keys new s
  end.

Section MergeStrings.
Context (cond : Vector) (c : nat → option bool) (n : nat).
Context (vcodes : list Z) (vdict : option Dictionary) (vnulls : list Z) (g : nat → option Cell).
Context (bcodes : list Z) (bdict : option Dictionary) (bnulls : list Z) (f : nat → option Cell).
Context (Hcond : column cond TypeBool n (λ i, CBool <$> c i)).
Context (Hval : column (StringVector vcodes vdict vnulls) TypeString n g).
Context (Hbase : column (StringVector bcodes bdict bnulls) TypeString n f).

(** One row of the loop, against the keys of the merged dictionary. *)
Definition string_step (bremap vremap : list Z) : list Z * list Z → nat → go (list Z * list Z) :=
  λ '(codes, nulls) i,
    c ← condTrue cond i;
    let '(side, sideCodes, sideRemap) :=
      if (c : bool) then (StringVector vcodes vdict vnulls, vcodes, vremap)
      else (StringVector bcodes bdict bnulls, bcodes, bremap) in
    isnull ← IsNull side i;
    if (isnull : bool) then Ret (codes, nulls) else
    old ← index sideCodes i;
    new ← index sideRemap (Z.to_nat old);
    codes ← store codes i new;
    nulls ← SetValidBit nulls i;
    Ret (codes, nulls).

Lemma string_step_spec keys bremap vremap codes nulls i :
  remapped keys vcodes vremap n g → remapped keys bcodes bremap n f →
  length codes = n → length nulls = bitmapSize n → (i < n)%nat → bit_valid nulls i = false →
  ∃ codes' nulls', string_step bremap vremap (codes, nulls) i = Ret (codes', nulls') ∧
    length codes' = n ∧ length nulls' = bitmapSize n ∧
    string_row keys codes' nulls' i (merged c g f i) ∧
    ∀ j, j ≠ i → codes' !! j = codes !! j ∧ bit_valid nulls' j = bit_valid nulls j.
Proof using All.
  intros Hv Hb Hc Hn Hi Hz. unfold string_step. rewrite (condTrue_spec _ _ _ _ Hcond Hi). cbn [mbind go_bind].
  pose proof (size_index n i Hi).
  set (side := if bool_decide (c i = Some true)
    then (StringVector vcodes vdict vnulls, vcodes, vremap)
    else (StringVector bcodes bdict bnulls, bcodes, bremap)).
  assert (Hside : IsNull side.1.1 i = Ret (bool_decide (merged c g f i = None)) ∧
    match merged c g f i with
    | None => True
    | Some x => ∃ s old new, x = CStr s ∧ side.1.2 !! i = Some old ∧
        side.2 !! Z.to_nat old = Some new ∧ coded keys new s
    end).
  { unfold merged, side. case_bool_decide; cbn [fst snd].
    - split; [by eapply column_IsNull|by apply Hv].
    - split; [by eapply column_IsNull|by apply Hb]. }
  destruct side as [[v codes0] rm]. cbn [fst snd] in Hside. destruct Hside as [-> Hside].
  rewrite is_null_dec. cbn [mbind go_bind].
  destruct (merged c g f i) as [x|] eqn:Em; [|by exists codes, nulls].
  destruct Hside as (s & old & new & -> & Ho & Hnew & Hcd).
  rewrite (index_Ret _ _ _ Ho). cbn [mbind go_bind]. rewrite (index_Ret _ _ _ Hnew). cbn [mbind go_bind].
  rewrite store_Ret by lia. cbn [mbind go_bind]. rewrite SetValidBit_Ret by lia. cbn [mbind go_bind].
  eexists _, _. split; [done|]. rewrite length_insert, length_bm_set. split; [done|]. split; [done|].
  split.
  - cbn [string_row]. rewrite bit_valid_bm_set, decide_True by (done || lia). split; [done|].
    exists s, new. by rewrite list_lookup_insert_eq by lia.
  - intros j Hj. rewrite bit_valid_bm_set, decide_False by (done || lia).
    by rewrite list_lookup_insert_ne.
Qed.

Lemma string_loop_spec keys bremap vremap :
  remapped keys vcodes vremap n g → remapped keys bcodes bremap n f →
  ∃ codes nulls, foldM (string_step bremap vremap) (replicate n 0, replicate (bitmapSize n) 0) (seq 0 n)
      = Ret (codes, nulls) ∧ length codes = n ∧ length nulls = bitmapSize n ∧
    ∀ i, (i < n)%nat → string_row keys codes nulls i (merged c g f i).
Proof using All.
  intros Hv Hb.
  destruct (foldM_seq_ind (string_step bremap vremap)
    (λ k '(codes, nulls), length codes = n ∧ length nulls = bitmapSize n ∧
      (∀ i, (k ≤ i)%nat → bit_valid nulls i = false) ∧
      ∀ i, (i < k)%nat → string_row keys codes nulls i (merged c g f i))
    n (replicate n 0, replicate (bitmapSize n) 0)) as ([codes nulls] & E & Hc & Hn & _ & Hi).
  - rewrite !length_replicate. split_and!; [done..|intros; apply bit_valid_zeros|lia].
  - intros k [codes nulls] Hk (Hc & Hn & Hz & Hi).
    destruct (string_step_spec keys bremap vremap codes nulls k) as (codes' & nulls' & E & Hc' & Hn' & Hr & Ho);
      [done..|by apply Hz|]. exists (codes', nulls'). split; [done|]. split_and!; [done..| |].
    + intros i Hik. destruct (Ho i) as [_ ->]; [lia|]. apply Hz. lia.
    + intros i Hik. destruct (decide (i = k)) as [->|Hne]; [done|]. destruct (Ho i Hne) as [E1 E2].
      assert (Hik' : (i < k)%nat) by lia. specialize (Hi i Hik'). unfold string_row. by rewrite E1, E2.
  - eauto 10.
Qed.

Lemma mergeStrings_spec :
  dict_size (StringVector bcodes bdict bnulls) + dict_size (StringVector vcodes vdict vnulls) < 2 ^ 32 →
  ∃ v', mergeVectors cond (StringVector vcodes vdict vnulls) (StringVector bcodes bdict bnulls) n = Ret v' ∧
    column v' TypeString n (merged c g f) ∧
    dict_size v' ≤ dict_size (StringVector bcodes bdict bnulls) + dict_size (StringVector vcodes vdict vnulls).
Proof using All.
  intros Hsz. cbn [mergeVectors].
  assert (0 ≤ dict_size (StringVector vcodes vdict vnulls)) by (destruct vdict; simpl; lia).
  destruct (remap_spec _ _ _ _ _ NewDictBuilder Hbase db_wf_new) as (brm & db1 & m1 & -> & Hw1 & Hk1 & Hm1 & Hb);
    [change (length (db_keys NewDictBuilder)) with 0%nat; lia|].
  cbn [mbind go_bind]. change (db_keys NewDictBuilder) with (@nil string) in Hk1. cbn [app] in Hk1.
  destruct (remap_spec _ _ _ _ _ db1 Hval Hw1) as (vrm & db2 & m2 & -> & Hw2 & Hk2 & Hm2 & Hv);
    [rewrite Hk1; lia|]. cbn [mbind go_bind].
  assert (Hb' : remapped (db_keys db2) bcodes brm n f) by (rewrite Hk2; by apply remapped_app).
  destruct (string_loop_spec (db_keys db2) brm vrm Hv Hb') as (codes & nulls & E & Hc & Hn & Hi).
  unfold string_step in E. rewrite E. cbn [mbind go_bind].
  assert (Hf : dict_fits (db_keys db2)).
  { rewrite Hk2, Hk1. unfold dict_fits. rewrite dict_data_app, !length_app. lia. }
  rewrite newStringVector_fits by done. eexists. split; [done|]. split.
  - apply column_string. eexists _, _, _. split; [done|]. rewrite Hn. split; [done|]. split; [auto|]. split.
    + intros i Hin Eb. specialize (Hi i Hin). destruct (merged c g f i); [|done].
      destruct Hi as [Hi _]. congruence.
    + exists (db_keys db2). split; [by apply db_wf_NoDup|]. split; [done|]. split; [apply dict_inv_fresh|].
      intros i Hin Eb. specialize (Hi i Hin). destruct (merged c g f i); [|simpl in Hi; congruence].
      destruct Hi as (_ & s & new & -> & Hcode & k & -> & Hk). eauto.
  - rewrite dict_size_keys, Hk2, Hk1, dict_data_app, !length_app. lia.
Qed.
End MergeStrings.

(** Every type: the merged column, and what its dictionary occupies. *)
Lemma mergeVectors_spec t n cond c v g b f :
  column cond TypeBool n (λ i, CBool <$> c i) → column v t n g → column b t n f →
  dict_size b + dict_size v < 2 ^ 32 →
  ∃ v', mergeVectors cond v b n = Ret v' ∧ column v' t n (merged c g f) ∧
    dict_size v' ≤ dict_size b + dict_size v.
Proof.
  intros Hc Hv Hb Hsz. pose proof Hv as (_ & Ev & _). pose proof Hb as (_ & Eb & _).
  destruct v as [vv vn|vv vn|vv vn m|vc vd vn|vv vn], b as [bv bn|bv bn|bv bn m'|bc bd bn|bv bn];
    simpl in Ev, Eb; subst t; try done.
  - destruct (mergeLoop_spec _ _ _ n cond c vv vn g bv bn f fixed_int64) as ([vals nulls] & E & Hr); auto.
    cbn [mergeVectors Nulls]. rewrite E. by eexists.
  - destruct (mergeLoop_spec _ _ _ n cond c vv vn g bv bn f fixed_float64) as ([vals nulls] & E & Hr); auto.
    cbn [mergeVectors Nulls]. rewrite E. by eexists.
  - destruct (mergeBool_spec n cond c _ g _ f Hc Hv Hb) as (v' & E & Hr). exists v'.
    split; [done|]. split; [done|]. pose proof Hr as (_ & Er & _). by destruct v'.
  - by apply mergeStrings_spec.
  - destruct (mergeLoop_spec _ _ _ n cond c vv vn g bv bn f fixed_date) as ([vals nulls] & E & Hr); auto.
    cbn [mergeVectors Nulls]. rewrite E. by eexists.
Qed.
