(* ===== verification/VExprSpec.v ===== *)
(** * Package exec: vectorised evaluation is row-wise evaluation

    [row_eval] is the meaning of an expression on one row, in SQL's three-valued
    logic.  The main theorem: on a well-formed batch, [Eval] of a well-typed
    expression succeeds and its vector holds, row by row, exactly [row_eval];
    so neither the byte-at-a-time kernels nor the batch boundaries are visible. *)
From Stdlib Require Import ZArith Lia ZifyNat Ascii.
From stdpp Require Import base numbers list strings gmap.
From S2P Require Import Prelude Encoding Codec Float64 Schema Writer Reader Batch Scratch VExpr VKernel VCase.
#[local] Open Scope Z_scope.

(** ** Rows *)

(** A row: its cells, and for each column which literals its dictionary holds
    ([None]: no dictionary). *)
Record Row : Type := mkRow { r_cells : list (option Cell); r_dict : nat → option (string → bool) }.

Fixpoint row_eval (r : Row) (e : Expr) : option Cell :=
  match e with
  | ColumnRef _ idx _ => default None (r_cells r !! Z.to_nat idx)
  | Literal v _ => Some v
  | CastIntToFloatExpr x =>
      match row_eval r x with Some (CInt z) => Some (CFloat (f64_of_int z)) | _ => None end
  | BinOp op x y _ => bin_cell op (row_eval r x) (row_eval r y)
  | AndExpr es => CBool <$> foldl and3 (Some true) (map (λ e, tri (row_eval r e)) es)
  | OrExpr es => CBool <$> foldl or3 (Some false) (map (λ e, tri (row_eval r e)) es)
  | NotExpr x => CBool <$> (negb <$> tri (row_eval r x))
  | IsNullExpr x => Some (CBool (bool_decide (row_eval r x = None)))
  | IsNotNullExpr x => Some (CBool (bool_decide (row_eval r x ≠ None)))
  | InExpr x set hasNull => CBool <$> in_cell set hasNull (row_eval r x)
  | LikeExpr x pattern =>
      match row_eval r x with Some (CStr s) => Some (CBool (likeMatch pattern s)) | _ => None end
  | BetweenExpr x lo hi =>
      CBool <$> and3 (tri (bin_cell BinGE (row_eval r x) (row_eval r lo)))
                     (tri (bin_cell BinLE (row_eval r x) (row_eval r hi)))
  | StringEqExpr idx lit negate =>
      CBool <$> string_eq_cell (r_dict r (Z.to_nat idx)) lit negate
                  (default None (r_cells r !! Z.to_nat idx))
  | CaseExpr ws els _ =>
      (fix whens (ws : list (Expr * Expr)) : option Cell :=
         match ws with
         | [] => match els with Some x => row_eval r x | None => None end
         | (cond, res) :: ws =>
             if bool_decide (tri (row_eval r cond) = Some true) then row_eval r res else whens ws
         end) ws
  end.

(** ** Typing *)

(** The vector type of [e] over columns of types [tys]; [None] is ill-typed. *)
Fixpoint typeof (tys : list DataType) (e : Expr) : option DataType :=
  let is_bool e := bool_decide (typeof tys e = Some TypeBool) in
  let cmp x y := match typeof tys x, typeof tys y with
    | Some t, Some t' => bool_decide (t = t') && comparable t | _, _ => false end in
  match e with
  | ColumnRef _ idx _ => if decide (0 ≤ idx) then tys !! Z.to_nat idx else None
  | Literal v t => if decide (cell_type v = t) then Some t else None
  | CastIntToFloatExpr x => if decide (typeof tys x = Some TypeInt64) then Some TypeFloat64 else None
  | BinOp op x y _ =>
      if is_cmp op then if cmp x y then Some TypeBool else None
      else match typeof tys x, typeof tys y with
           | Some t, Some t' => if bool_decide (t = t') && numeric t then Some t else None
           | _, _ => None
           end
  | AndExpr es | OrExpr es => if forallb is_bool es then Some TypeBool else None
  | NotExpr x => if is_bool x then Some TypeBool else None
  | IsNullExpr x | IsNotNullExpr x | InExpr x _ _ =>
      match typeof tys x with Some _ => Some TypeBool | None => None end
  | LikeExpr x _ => if decide (typeof tys x = Some TypeString) then Some TypeBool else None
  | BetweenExpr x lo hi => if cmp x lo && cmp x hi then Some TypeBool else None
  | StringEqExpr idx _ _ =>
      if decide (0 ≤ idx ∧ tys !! Z.to_nat idx = Some TypeString) then Some TypeBool else None
  | CaseExpr ws els t =>
      let ok x := bool_decide (typeof tys x = Some t) in
      if match t with TypeOther _ => false | _ => true end &&
         forallb (λ '(c, x), is_bool c && ok x) ws &&
         match els with Some x => ok x | None => true end
      then Some t else None
  end.

(** Entries and bytes of dictionary a result may hold: [D] for a column, a
    string literal's own, and the sum over the branches CASE merges. *)
Fixpoint budget (D : Z) (e : Expr) : Z :=
  match e with
  | ColumnRef _ _ _ => D
  | Literal (CStr s) _ => 1 + Z.of_nat (strlen s)
  | CaseExpr ws els _ =>
      foldr Z.add (match els with Some x => budget D x | None => 0 end) (map (λ '(_, x), budget D x) ws)
  | _ => 0
  end.
(** The dictionaries the expression builds, for its literals and its CASEs, have
    the 32-bit offsets of their marshalled form. *)
Fixpoint fits (D : Z) (e : Expr) : bool :=
  match e with
  | ColumnRef _ _ _ | StringEqExpr _ _ _ => true
  | Literal _ _ => budget D e <? 2 ^ 32
  | CastIntToFloatExpr x | NotExpr x | IsNullExpr x | IsNotNullExpr x | InExpr x _ _ | LikeExpr x _ => fits D x
  | BinOp _ x y _ => fits D x && fits D y
  | BetweenExpr x lo hi => fits D x && fits D lo && fits D hi
  | AndExpr es | OrExpr es => forallb (fits D) es
  | CaseExpr ws els _ =>
      forallb (λ '(c, x), fits D c && fits D x) ws &&
      match els with Some x => fits D x | None => true end && (budget D e <? 2 ^ 32)
  end.

(** A batch of [evalLen b] physical rows over columns of types [tys], none of
    whose dictionaries occupies more than [D]. *)
Definition batch_ok (tys : list DataType) (D : Z) (b : Batch) : Prop :=
  0 ≤ D ∧
  Forall2 (λ v t, vec_ok v ∧ VType v = t ∧ Len v = evalLen b ∧ dict_size v ≤ D) (Vectors b) tys.
Definition row_at (b : Batch) (i : nat) : Row :=
  mkRow ((λ v, cell v i) <$> Vectors b)
    (λ j, match Vectors b !! j with Some v => dict_has v | None => None end).

(** ** Induction over expressions and their children *)

Definition opt_P (P : Expr → Prop) (o : option Expr) : Prop := match o with Some e => P e | None => True end.

Section ExprInd.
Context (P : Expr → Prop).
Context (Hcol : ∀ n i t, P (ColumnRef n i t)) (Hlit : ∀ v t, P (Literal v t)).
Context (Hcast : ∀ x, P x → P (CastIntToFloatExpr x)).
Context (Hbin : ∀ op x y t, P x → P y → P (BinOp op x y t)).
Context (Hand : ∀ es, Forall P es → P (AndExpr es)) (Hor : ∀ es, Forall P es → P (OrExpr es)).
Context (Hnot : ∀ x, P x → P (NotExpr x)) (Hnull : ∀ x, P x → P (IsNullExpr x)).
Context (Hnotnull : ∀ x, P x → P (IsNotNullExpr x)).
Context (Hin : ∀ x s h, P x → P (InExpr x s h)) (Hlike : ∀ x p, P x → P (LikeExpr x p)).
Context (Hbetween : ∀ x lo hi, P x → P lo → P hi → P (BetweenExpr x lo hi)).
Context (Hstr : ∀ i l neg, P (StringEqExpr i l neg)).
Context (Hcase : ∀ ws els t, Forall (λ w, P w.1 ∧ P w.2) ws → opt_P P els → P (CaseExpr ws els t)).

Fixpoint Expr_nested_ind (e : Expr) : P e :=
  let all := fix all (es : list Expr) : Forall P es :=
    match es with
    | [] => List.Forall_nil _
    | e :: es => List.Forall_cons _ _ _ (Expr_nested_ind e) (all es)
    end in
  match e with
  | ColumnRef n i t => Hcol n i t
  | Literal v t => Hlit v t
  | CastIntToFloatExpr x => Hcast x (Expr_nested_ind x)
  | BinOp op x y t => Hbin op x y t (Expr_nested_ind x) (Expr_nested_ind y)
  | AndExpr es => Hand es (all es)
  | OrExpr es => Hor es (all es)
  | NotExpr x => Hnot x (Expr_nested_ind x)
  | IsNullExpr x => Hnull x (Expr_nested_ind x)
  | IsNotNullExpr x => Hnotnull x (Expr_nested_ind x)
  | InExpr x s h => Hin x s h (Expr_nested_ind x)
  | LikeExpr x p => Hlike x p (Expr_nested_ind x)
  | BetweenExpr x lo hi =>
      Hbetween x lo hi (Expr_nested_ind x) (Expr_nested_ind lo) (Expr_nested_ind hi)
  | StringEqExpr i l n => Hstr i l n
  | CaseExpr ws els t =>
      Hcase ws els t
        ((fix whens (ws : list (Expr * Expr)) : Forall (λ w, P w.1 ∧ P w.2) ws :=
            match ws with
            | [] => List.Forall_nil _
            | (c, x) :: ws =>
                List.Forall_cons _ (c, x) ws (conj (Expr_nested_ind c) (Expr_nested_ind x)) (whens ws)
            end) ws)
        (match els with Some x => Expr_nested_ind x | None => I end)
  end.
End ExprInd.

(** ** Lemmas *)

Lemma column_tri v n f : column v TypeBool n f → column v TypeBool n (λ i, CBool <$> tri (f i)).
Proof.
  intros Hc. eapply column_ext; [done|]. apply column_bool in Hc as (bits & nb & _ & _ & _ & Hf).
  intros i Hi. rewrite Hf by done. by destruct (tri_at bits nb i).
Qed.

(** The children of AND and OR after the first, for any evaluator. *)
Definition fold_children (ev : Expr → go Vector) (byte : Z → Z → Z → Z → Z * Z) :=
  fix evalAll (es : list Expr) (n : nat) (out : list Z * list Z) : go Vector :=
    match es with
    | [] => Ret (BoolVector out.1 out.2 n)
    | e :: es => cv ← ev e; out ← combine byte n out cv; evalAll es n out
    end.

Lemma fold_children_spec ev byte op3 (rd : Expr → nat → option bool) n es out f :
  byte_computes byte op3 → folding n out f →
  Forall (λ e, ∃ cv, ev e = Ret cv ∧ column cv TypeBool n (λ i, CBool <$> rd e i)) es →
  ∃ v, fold_children ev byte es n out = Ret v ∧
    column v TypeBool n (λ i, CBool <$> foldl op3 (f i) (map (λ e, rd e i) es)).
Proof.
  intros Hb Ho Hes. revert out f Ho. induction Hes as [|e es (cv & E & Hc) _ IH]; intros out f Ho.
  - eexists. split; [done|]. by apply folding_column.
  - cbn [fold_children]. rewrite E. cbn [mbind go_bind].
    destruct (combine_spec _ _ _ _ _ _ _ Hb Ho Hc) as (out' & -> & Ho'). cbn [mbind go_bind].
    destruct (IH _ _ Ho') as (v & Ev & Hv). exists v. by split.
Qed.

Lemma foldr_add_le {A} (g : A → Z) z l x :
  0 ≤ z → Forall (λ y, 0 ≤ g y) l → x ∈ l → g x ≤ foldr Z.add z (map g l).
Proof.
  intros Hz Hl. induction Hl as [|y l Hy Hl IH]; [by intros ?%elem_of_nil|].
  assert (0 ≤ foldr Z.add z (map g l)) by (clear IH; induction Hl; simpl; lia).
  intros [->|Hin]%elem_of_cons; simpl; [lia|]. specialize (IH Hin). lia.
Qed.
Lemma foldr_add_ge0 z l : 0 ≤ z → Forall (λ y, 0 ≤ y) l → 0 ≤ foldr Z.add z l.
Proof. intros Hz. induction 1; simpl; lia. Qed.

Lemma budget_ge0 D e : 0 ≤ D → 0 ≤ budget D e.
Proof.
  intros HD. induction e using Expr_nested_ind; cbn [budget]; try lia.
  - destruct v; lia.
  - apply foldr_add_ge0; [destruct els; simpl in *; lia|]. apply Forall_fmap.
    eapply Forall_impl; [done|]. intros [c x]. simpl. lia.
Qed.

Section Rowwise.
Context (tys : list DataType) (D : Z) (b : Batch) (Hb : batch_ok tys D b).
Abbreviation n := (evalLen b).
Abbreviation rd := (λ e i, row_eval (row_at b i) e).

(** What the induction establishes of one expression. *)
Definition rowwise (e : Expr) : Prop :=
  ∀ t, typeof tys e = Some t → fits D e = true →
  ∃ v, Eval e b = Ret v ∧ column v t n (rd e) ∧ dict_size v ≤ budget D e.

Lemma bool_size v f : column v TypeBool n f → dict_size v = 0.
Proof. intros (_ & H & _). by destruct v. Qed.

Lemma batch_column idx t :
  0 ≤ idx → tys !! Z.to_nat idx = Some t →
  ∃ v, Vectors b !! Z.to_nat idx = Some v ∧
    column v t n (λ i, default None (r_cells (row_at b i) !! Z.to_nat idx)) ∧ dict_size v ≤ D.
Proof using Hb.
  intros Hi Ht. destruct Hb as [_ HF]. destruct (Forall2_lookup_r _ _ _ _ _ HF Ht) as (v & Hv & Hok & Et & Hl & Hd).
  exists v. split; [done|]. split; [|done]. split; [done|]. split; [done|]. split; [done|].
  intros i _. cbn [row_at r_cells]. by rewrite list_lookup_fmap, Hv.
Qed.

(** The result of a boolean operation needs no dictionary. *)
Lemma bool_result e m :
  0 ≤ budget D e → (∃ v, m = Ret v ∧ column v TypeBool n (rd e)) →
  ∃ v, m = Ret v ∧ column v TypeBool n (rd e) ∧ dict_size v ≤ budget D e.
Proof.
  intros H0 (v & -> & Hv). exists v. split; [done|]. split; [done|]. by rewrite (bool_size _ _ Hv).
Qed.

Lemma rowwise_bool e :
  rowwise e → bool_decide (typeof tys e = Some TypeBool) = true → fits D e = true →
  ∃ v, Eval e b = Ret v ∧ column v TypeBool n (λ i, CBool <$> tri (rd e i)).
Proof.
  intros He Ht%bool_decide_eq_true Hs. destruct (He _ Ht Hs) as (v & E & Hc & _).
  exists v. split; [done|]. by apply column_tri.
Qed.

Lemma rowwise_children es :
  Forall rowwise es → forallb (λ e, bool_decide (typeof tys e = Some TypeBool)) es = true →
  forallb (fits D) es = true →
  Forall (λ e, ∃ cv, Eval e b = Ret cv ∧ column cv TypeBool n (λ i, CBool <$> tri (rd e i))) es.
Proof.
  intros He Ht Hs. induction He as [|e es He Hes IH]; constructor; cbn [forallb] in *;
    apply andb_true_iff in Ht as [? ?], Hs as [? ?]; [by apply rowwise_bool|by apply IH].
Qed.

Lemma foldl_connective (op3 : option bool → option bool → option bool) e0 (es : list Expr) e i :
  (∀ x, op3 e0 x = x) →
  foldl op3 e0 (map (λ e, tri (rd e i)) (e :: es))
  = foldl op3 (tri (rd e i)) (map (λ e, tri (rd e i)) es).
Proof. intros H. cbn [map foldl]. by rewrite H. Qed.

Lemma connective_rowwise byte op3 e0 e es :
  byte_computes byte op3 → (∀ x, op3 e0 x = x) → Forall rowwise (e :: es) →
  forallb (λ e, bool_decide (typeof tys e = Some TypeBool)) (e :: es) = true →
  forallb (fits D) (e :: es) = true →
  ∃ v, (fv ← Eval e b; '(n, out) ← firstChild fv; fold_children (λ e, Eval e b) byte es n out) = Ret v ∧
    column v TypeBool n (λ i, CBool <$> foldl op3 e0 (map (λ e, tri (rd e i)) (e :: es))).
Proof using Hb.
  intros Hbyte He0 He Ht Hs. pose proof (rowwise_children _ He Ht Hs) as Hc.
  inversion Hc as [|? ? (fv & E & Hfv) Hes]; subst. rewrite E. cbn [mbind go_bind].
  destruct (firstChild_spec _ _ _ Hfv) as (out & -> & Ho). cbn [mbind go_bind].
  destruct (fold_children_spec (λ e, Eval e b) byte op3 (λ e i, tri (rd e i)) n es out _ Hbyte Ho Hes)
    as (v & -> & Hv). exists v. split; [done|]. eapply column_ext; [done|]. intros i Hi. cbv beta.
  by rewrite (foldl_connective _ _ _ _ _ He0).
Qed.

(** CASE, from the last WHEN to the first. *)
Definition fold_whens (ev : Expr → go Vector) (m : nat) (base : Vector) :=
  fix evalWhens (ws : list (Expr * Expr)) : go Vector :=
    match ws with
    | [] => Ret base
    | (cond, res) :: ws =>
        result ← evalWhens ws;
        condV ← ev cond;
        match condV with
        | BoolVector _ _ _ => valV ← ev res; mergeVectors condV valV result m
        | _ => Err (ErrMsg "expr: CASE WHEN condition must return BOOL")
        end
    end.
Definition whens_row (r : Row) (base : option Cell) :=
  fix whens (ws : list (Expr * Expr)) : option Cell :=
    match ws with
    | [] => base
    | (cond, res) :: ws =>
        if bool_decide (tri (row_eval r cond) = Some true) then row_eval r res else whens ws
    end.

Definition when_ok (t : DataType) (w : Expr * Expr) : bool :=
  bool_decide (typeof tys w.1 = Some TypeBool) && bool_decide (typeof tys w.2 = Some t).

Lemma fold_whens_spec t base f s0 ws :
  column base t n f → dict_size base ≤ s0 → 0 ≤ s0 →
  Forall (λ w, rowwise w.1 ∧ rowwise w.2) ws → forallb (when_ok t) ws = true →
  forallb (λ '(c, x), fits D c && fits D x) ws = true →
  foldr Z.add s0 (map (λ '(_, x), budget D x) ws) < 2 ^ 32 →
  ∃ v, fold_whens (λ e, Eval e b) n base ws = Ret v ∧
    column v t n (λ i, whens_row (row_at b i) (f i) ws) ∧
    dict_size v ≤ foldr Z.add s0 (map (λ '(_, x), budget D x) ws).
Proof using Hb.
  intros Hbase Hsz H0 Hws. pose proof Hb as [HD _].
  induction Hws as [|[cond res] ws [Hc Hr] _ IH]; intros Ht Hfit Hs; [by eexists|].
  cbn [map foldr fst snd forallb when_ok] in *.
  apply andb_true_iff in Ht as [Htw Ht]. apply andb_true_iff in Htw as [Htc Htr].
  apply andb_true_iff in Hfit as [Hfw Hfit]. apply andb_true_iff in Hfw as [Hfc Hfr].
  pose proof (budget_ge0 D res HD).
  destruct IH as (v & E & Hv & Hvs); [done|done|lia|].
  assert (0 ≤ foldr Z.add s0 (map (λ '(_, x), budget D x) ws)).
  { apply foldr_add_ge0; [done|]. apply Forall_fmap, Forall_true. intros [c x]. simpl.
    by apply budget_ge0. }
  destruct (rowwise_bool _ Hc Htc Hfc) as (cv & Ec & Hcv).
  apply bool_decide_eq_true in Htr. destruct (Hr _ Htr Hfr) as (rv & Er & Hrv & Hrs).
  cbn [fold_whens]. fold (fold_whens (λ e, Eval e b) n base). rewrite E, Ec. cbn [mbind go_bind].
  destruct (mergeVectors_spec _ _ _ _ _ _ _ _ Hcv Hrv Hv) as (v' & Em & Hv' & Hs'); [lia|].
  pose proof Hcv as (_ & Et & _). destruct cv; try done. rewrite Er. cbn [mbind go_bind].
  exists v'. split; [done|]. split; [|lia]. eapply column_ext; [done|]. done.
Qed.

Lemma eqb_true (x : bool) : eqb x true = x.
Proof. by destruct x. Qed.

(** One case per constructor. *)
Lemma rowwise_literal c t : rowwise (Literal c t).
Proof using Hb.
  intros t' Ht Hs. cbn [typeof] in Ht. case_decide as Ec; [|done]. injection Ht as <-. subst t.
  destruct (literalVector_spec c n) as (v & E & Hv & Hd); [destruct c; try done; by apply Z.ltb_lt in Hs|].
  exists v. split; [done|]. split; [done|]. by destruct c.
Qed.
Lemma rowwise_BinOp op x y t : rowwise x → rowwise y → rowwise (BinOp op x y t).
Proof using Hb.
  intros Hx Hy t' Ht Hs. cbn [typeof budget fits] in *. apply andb_true_iff in Hs as [Hsx Hsy].
  destruct (typeof tys x) as [tx|] eqn:Ex, (typeof tys y) as [ty|] eqn:Ey;
    try (destruct (is_cmp op); done).
  destruct (Hx tx Ex Hsx) as (lv & El & Hl & _). destruct (Hy ty Ey Hsy) as (rv & Er & Hr & _).
  assert (Hm : ∀ m, (∃ v, m = Ret v ∧ column v t' n (rd (BinOp op x y t))) → numeric t' = true ∨ t' = TypeBool →
    ∃ v, m = Ret v ∧ column v t' n (rd (BinOp op x y t)) ∧ dict_size v ≤ 0).
  { intros m (v & -> & Hv) Hn. exists v. split; [done|]. split; [done|].
    pose proof Hv as (_ & Et & _). destruct v; simpl in Et; subst t'; try (simpl; lia). by destruct Hn. }
  cbn [Eval]. rewrite El, Er. cbn [mbind go_bind]. rewrite (column_Len _ _ _ _ Hl).
  destruct (is_cmp op) eqn:Ec.
  - destruct (bool_decide (tx = ty) && comparable tx) eqn:E; [|done]. injection Ht as <-.
    apply andb_true_iff in E as [->%bool_decide_eq_true Ht]. apply Hm; [|by right].
    by apply (evalCmp_spec op ty).
  - destruct (bool_decide (tx = ty) && numeric tx) eqn:E; [|done]. injection Ht as <-.
    apply andb_true_iff in E as [->%bool_decide_eq_true Ht]. apply Hm; [|by left].
    by apply (evalArith_spec op ty).
Qed.
Lemma rowwise_Between x lo hi : rowwise x → rowwise lo → rowwise hi → rowwise (BetweenExpr x lo hi).
Proof using Hb.
  intros Hx Hlo Hhi t' Ht Hs. cbn [typeof budget fits] in *.
  apply andb_true_iff in Hs as [[Hsx Hsl]%andb_true_iff Hsh].
  destruct (typeof tys x) as [tx|] eqn:Ex; [|done].
  destruct (typeof tys lo) as [tl|] eqn:El; [|done].
  destruct (typeof tys hi) as [th|] eqn:Eh; [|by rewrite andb_false_r in Ht].
  destruct ((bool_decide (tx = tl) && comparable tx) && (bool_decide (tx = th) && comparable tx)) eqn:E; [|done].
  injection Ht as <-. apply andb_true_iff in E as [[<-%bool_decide_eq_true Hc]%andb_true_iff
    [<-%bool_decide_eq_true _]%andb_true_iff].
  destruct (Hx tx Ex Hsx) as (xv & Exv & Hxv & _). destruct (Hlo tx El Hsl) as (lv & Elv & Hlv & _).
  destruct (Hhi tx Eh Hsh) as (hv & Ehv & Hhv & _). apply (bool_result (BetweenExpr x lo hi)); [done|].
  cbn [Eval]. rewrite Exv, Elv. cbn [mbind go_bind]. rewrite (column_Len _ _ _ _ Hxv).
  destruct (evalCmp_spec BinGE tx xv lv n _ _ eq_refl Hc Hxv Hlv) as (ge & -> & Hge). cbn [mbind go_bind].
  destruct (firstChild_spec _ _ _ (column_tri _ _ _ Hge)) as (out & -> & Ho). cbn [mbind go_bind].
  rewrite Ehv. cbn [mbind go_bind].
  destruct (evalCmp_spec BinLE tx xv hv n _ _ eq_refl Hc Hxv Hhv) as (le & -> & Hle). cbn [mbind go_bind].
  destruct (combine_spec _ _ _ _ _ _ _ and_byte_computes Ho (column_tri _ _ _ Hle)) as (out' & -> & Ho').
  cbn [mbind go_bind]. eexists. split; [done|]. by apply folding_column.
Qed.
Lemma rowwise_Case ws els t :
  Forall (λ w, rowwise w.1 ∧ rowwise w.2) ws → opt_P rowwise els → rowwise (CaseExpr ws els t).
Proof using Hb.
  intros Hws Hels t' Ht Hs. cbn [typeof budget fits] in *. pose proof Hb as [HD _].
  apply andb_true_iff in Hs as [[Hfw Hfe]%andb_true_iff Hs%Z.ltb_lt].
  match type of Ht with (if ?c then _ else _) = _ => destruct c eqn:E end; [|done]. injection Ht as <-.
  apply andb_true_iff in E as [[Hk Hw]%andb_true_iff He].
  set (s0 := match els with Some x => budget D x | None => 0 end) in *.
  assert (Hs0 : 0 ≤ s0) by (destruct els; simpl; [by apply budget_ge0|done]).
  assert (Hle : s0 ≤ foldr Z.add s0 (map (λ '(_, x), budget D x) ws)).
  { clear -HD Hs0. induction ws as [|[c x] ws IH]; simpl; [lia|].
    pose proof (budget_ge0 D x HD). lia. }
  assert (∃ base, match els with Some x => Eval x b | None => Ret (nullVector t n) end = Ret base ∧
    column base t n (λ i, match els with Some x => rd x i | None => None end) ∧ dict_size base ≤ s0)
    as (base & Eb & Hbase & Hsb).
  { destruct els as [x|]; [apply bool_decide_eq_true in He; by apply (Hels t He)|].
    eexists. split; [done|]. split; [apply nullVector_spec; by destruct t|]. by destruct t. }
  cbn [Eval]. rewrite Eb. cbn [mbind go_bind].
  destruct (fold_whens_spec t base _ s0 ws Hbase Hsb Hs0 Hws) as (v & Ev & Hv & Hvs); [|done|done|].
  { rewrite <- Hw. clear. induction ws as [|[c x] ws IH]; [done|]. cbn [forallb]. by rewrite IH. }
  exists v. split; [done|]. split; [|done]. eapply column_ext; [done|]. intros i _. cbv beta.
  by destruct els.
Qed.
Lemma rowwise_And es : Forall rowwise es → rowwise (AndExpr es).
Proof using Hb.
  intros He t Ht Hs. cbn [typeof] in Ht. destruct (forallb _ es) eqn:E; [|done]. injection Ht as <-.
  pose proof Hb as [HD _]. apply bool_result; [by apply budget_ge0|]. destruct es as [|e es].
  - eexists. split; [done|]. apply (constant_column true); [apply length_full|]. intros. by apply bit_valid_full.
  - apply (connective_rowwise and_byte and3 (Some true) e es and_byte_computes); try done. by intros [[]|].
Qed.
Lemma rowwise_Or es : Forall rowwise es → rowwise (OrExpr es).
Proof using Hb.
  intros He t Ht Hs. cbn [typeof] in Ht. destruct (forallb _ es) eqn:E; [|done]. injection Ht as <-.
  pose proof Hb as [HD _]. apply bool_result; [by apply budget_ge0|]. destruct es as [|e es].
  - eexists. split; [done|]. apply column_bool. eexists _, _. split; [done|].
    rewrite length_full, length_replicate. split; [apply size_bits|]. split; [apply size_bits|].
    intros i Hi. unfold tri_at. by rewrite bit_valid_full, bit_valid_zeros.
  - apply (connective_rowwise or_byte or3 (Some false) e es or_byte_computes); try done. by intros [[]|].
Qed.

(** A boolean operation on one operand. *)
Lemma rowwise_unary e x tx (op : Vector → go Vector) g :
  rowwise x → typeof tys x = Some tx → fits D e = fits D x →
  Eval e b = (v ← Eval x b; op v) → (∀ i, row_eval (row_at b i) e = g (rd x i)) →
  (∀ v f, column v tx n f → ∃ v', op v = Ret v' ∧ column v' TypeBool n (λ i, g (f i))) →
  fits D e = true →
  ∃ v, Eval e b = Ret v ∧ column v TypeBool n (rd e) ∧ dict_size v ≤ budget D e.
Proof using Hb.
  intros Hx Ht Hbe He Hg Hop Hs. pose proof Hb as [HD _].
  apply bool_result; [by apply budget_ge0|]. destruct (Hx tx Ht) as (v & E & Hv & _); [by rewrite <- Hbe|].
  rewrite He, E. cbn [mbind go_bind]. destruct (Hop v _ Hv) as (v' & -> & Hv').
  exists v'. split; [done|]. eapply column_ext; [done|]. intros i _. cbv beta. by rewrite Hg.
Qed.

Lemma rowwise_all e : rowwise e.
Proof using Hb.
  induction e using Expr_nested_ind; auto using rowwise_literal, rowwise_BinOp, rowwise_And, rowwise_Or,
    rowwise_Between, rowwise_Case; intros t' Ht Hs; cbn [typeof] in Ht; pose proof Hb as [HD Hvs].
  - destruct (decide (0 ≤ i)) as [Hi|]; [|done]. destruct (batch_column i t' Hi Ht) as (v & Ev & Hv & Hd).
    exists v. split; [|done]. cbn [Eval]. pose proof (lookup_lt_Some _ _ _ Ev).
    rewrite decide_False by lia. unfold vectorAt. rewrite decide_False by lia. by apply index_Ret.
  - destruct (decide (typeof tys e = Some TypeInt64)) as [Et|]; [|done]. injection Ht as <-.
    destruct (IHe _ Et Hs) as (v & E & Hv & _). cbn [Eval]. rewrite E. cbn [mbind go_bind].
    destruct (castIntToFloat_spec v n _ Hv) as (v' & -> & Hv'). exists v'. split; [done|]. split; [done|].
    pose proof (budget_ge0 D e HD). pose proof Hv' as (_ & Et' & _). by destruct v'.
  - destruct (bool_decide (typeof tys e = Some TypeBool)) eqn:E; [|done]. injection Ht as <-.
    apply bool_decide_eq_true in E.
    apply (rowwise_unary _ e TypeBool notVector (λ c, CBool <$> (negb <$> tri c))); auto.
    intros v f Hf. apply notVector_spec. by apply column_tri.
  - destruct (typeof tys e) as [te|] eqn:E; [|done]. injection Ht as <-.
    apply (rowwise_unary _ e te (isNullVector true) (λ c, Some (CBool (eqb (bool_decide (c = None)) true)))); auto.
    + intros i. cbn [row_eval]. by rewrite eqb_true.
    + intros v f. apply isNullVector_spec.
  - destruct (typeof tys e) as [te|] eqn:E; [|done]. injection Ht as <-.
    apply (rowwise_unary _ e te (isNullVector false) (λ c, Some (CBool (eqb (bool_decide (c = None)) false)))); auto.
    + intros i. cbn [row_eval]. destruct (row_eval (row_at b i) e); [by rewrite bool_decide_true, bool_decide_false|].
      by rewrite bool_decide_false, bool_decide_true by naive_solver.
    + intros v f. apply isNullVector_spec.
  - destruct (typeof tys e) as [te|] eqn:E; [|done]. injection Ht as <-.
    apply (rowwise_unary _ e te (inVector s h) (λ c, CBool <$> in_cell s h c)); auto.
    intros v f. apply inVector_spec.
  - destruct (decide (typeof tys e = Some TypeString)) as [E|]; [|done]. injection Ht as <-.
    apply (rowwise_unary _ e TypeString (likeVector p) (λ c,
      match c with Some (CStr s) => Some (CBool (likeMatch p s)) | _ => None end)); auto.
    intros v f. apply likeVector_spec.
  - destruct (decide (0 ≤ i ∧ tys !! Z.to_nat i = Some TypeString)) as [[Hi Et]|]; [|done]. injection Ht as <-.
    destruct (batch_column i _ Hi Et) as (v & Ev & Hv & _). apply bool_result; [done|]. cbn [Eval].
    unfold vectorAt. rewrite decide_False by lia. rewrite (index_Ret _ _ _ Ev). cbn [mbind go_bind].
    destruct (stringEqVector_spec l neg v n _ Hv) as (v' & -> & Hv'). exists v'. split; [done|].
    eapply column_ext; [done|]. intros j _. cbn [row_eval row_at r_dict]. by rewrite Ev.
Qed.
End Rowwise.

(** ** Properties *)


(** Nine rows (so that a whole byte and a tail are both used), one column NULL
    in row 1, and a CASE over strings. *)
Definition nine_rows : Batch :=
  mkBatch [] [Int64Vector [5; -3; 0; 7; 1; 2; 3; 4; 9] [253; 1]] 9 None.
Definition sign_expr : Expr :=
  CaseExpr [(BinOp BinGT (ColumnRef "a" 0 TypeInt64) (Literal (CInt 4) TypeInt64) TypeBool, Literal (CStr "big") TypeString);
            (NotExpr (IsNullExpr (ColumnRef "a" 0 TypeInt64)), Literal (CStr "small") TypeString)]
    None TypeString.
Lemma nine_rows_ok : batch_ok [TypeInt64] 0 nine_rows.
Proof.
  split; [done|]. repeat constructor. by vm_compute.
Qed.

(** [NULL <> 'x'] is TRUE when no row of the column holds ['x']: the fast path
    marks every row valid without looking at the column's NULLs. *)
Example string_eq_not_sql :
  (v ← Eval (StringEqExpr 0 "x" true)
         (mkBatch [] [StringVector [0; 0] (Some (mkDictionary [0] [121] [])) [1]] 2 None); vec_cells v)
  = Ret [Some (CBool true); Some (CBool true)].
Proof. reflexivity. Qed.
