(* ===== verification/LiteralCache.v ===== *)
(** * Package exec: the cached vector of a literal, and LIKE ([exec/expr.go])

    A [Literal] builds its broadcast vector once and reuses it: only the rows
    past [filled] are written, and the bitmap buffer is rewritten in place.  The
    theorem is the comment above [Literal]: whatever lengths earlier batches had,
    the vector equals a freshly built one. *)
From Stdlib Require Import ZArith Lia ZifyNat Ascii.
From stdpp Require Import base numbers list strings gmap.
From S2P Require Import Prelude Encoding Codec Float64 Schema Writer Reader Batch Scratch VExpr VKernel VCase.
#[local] Open Scope Z_scope.

(** The fields of [Literal] that outlive a batch: the slice of the cached vector
    ([None]: no vector yet), its dictionary, [filled] and [validBmp]. *)
Record LitCache : Type := mkLitCache {
  lc_vals : option slc; lc_dict : option Dictionary; litCode : Z; filled : nat; validBmp : slc
}.
Definition emptyCache : LitCache := mkLitCache None None 0 0 (mkSlc [] 0).

(** The cached slice when it is large enough. *)
Definition cachedSlice (c : LitCache) (size : nat) : option slc :=
  match lc_vals c with
  | Some s => if decide (s_cap s < size)%nat then None else Some s
  | None => None
  end.
(** [for i := l.filled; i < n; i++ { vals[i] = x }]. *)
Definition fillValues (x : Z) (vals : slc) (from n : nat) : go slc :=
  data ← foldM (λ data i, store data i x) (s_data vals) (seq from (n - from));
  Ret (mkSlc (data ++ drop (s_len vals) (arr vals)) (s_len vals)).
Definition growFilled (filled n : nat) : nat := if decide (filled < n)%nat then n else filled.

(** The INT64, FLOAT64 and DATE branches. *)
Definition fixedLiteral (x : Z) (c : LitCache) (n : nat) : go (list Z * list Z * LitCache) :=
  let '(s, from) := match cachedSlice c n with Some s => (s, filled c) | None => (s_make n, 0%nat) end in
  vals ← fillValues x (s_reslice s n) from n;
  let '(valid, bmp) := acquireValidBitmap (validBmp c) n in
  Ret (s_data vals, valid, mkLitCache (Some vals) None 0 (growFilled from n) bmp).

(** The BOOL branch: the bits past the last row are masked off, so [filled]
    becomes exactly [n]. *)
Definition boolLiteral (v : bool) (c : LitCache) (n : nat) : go (list Z * list Z * LitCache) :=
  let size := ((n + 7) / 8)%nat in
  let '(s, from) := match cachedSlice c size with Some s => (s, filled c) | None => (s_make size, 0%nat) end in
  let bits := s_reslice s size in
  data ← foldM (λ data i, bv_Set data i v) (s_data bits) (seq from (n - from));
  data ← (if decide (n mod 8 ≠ 0)%nat
          then last ← index data (size - 1);
               store data (size - 1) (Z.land last (Z.shiftl 1 (Z.of_nat (n mod 8)) - 1))
          else Ret data);
  let bits := mkSlc (data ++ drop size (arr bits)) size in
  let '(valid, bmp) := acquireValidBitmap (validBmp c) n in
  Ret (data, valid, mkLitCache (Some bits) None 0 n bmp).

(** The STRING branch: the dictionary is built with the slice. *)
Definition stringLiteral (s : string) (c : LitCache) (n : nat)
    : go (list Z * option Dictionary * list Z * LitCache) :=
  '(vals, dict, code, from) ←
    match cachedSlice c n with
    | Some vals => Ret (vals, lc_dict c, litCode c, filled c)
    | None =>
        let '(code, db) := Add NewDictBuilder s in
        sv ← newStringVector db (replicate n 0) [];
        match sv with
        | StringVector _ dict _ => Ret (s_make n, dict, code, 0%nat)
        | _ => Panic
        end
    end;
  vals ← fillValues code (s_reslice vals n) from n;
  let '(valid, bmp) := acquireValidBitmap (validBmp c) n in
  Ret (s_data vals, dict, valid, mkLitCache (Some vals) dict code (growFilled from n) bmp).

(** [Literal.Eval] on a batch of [n] physical rows. *)
Definition EvalLiteral (val : Cell) (t : DataType) (c : LitCache) (n : nat) : go (Vector * LitCache) :=
  match t, val with
  | TypeInt64, CInt x => '(vs, valid, c) ← fixedLiteral x c n; Ret (Int64Vector vs valid, c)
  | TypeFloat64, CFloat x => '(vs, valid, c) ← fixedLiteral x c n; Ret (Float64Vector vs valid, c)
  | TypeDate, CDate x => '(vs, valid, c) ← fixedLiteral x c n; Ret (DateVector vs valid, c)
  | TypeBool, CBool v => '(bits, valid, c) ← boolLiteral v c n; Ret (BoolVector bits valid n, c)
  | TypeString, CStr s =>
      '(codes, dict, valid, c) ← stringLiteral s c n; Ret (StringVector codes dict valid, c)
  | TypeOther _, _ => Err (ErrMsg "expr: unknown literal type")
  | _, _ => Panic
  end.
(** One literal over a sequence of batches. *)
Fixpoint evalBatches (val : Cell) (t : DataType) (c : LitCache) (ns : list nat) : go (list Vector) :=
  match ns with
  | [] => Ret []
  | n :: ns =>
      '(v, c) ← EvalLiteral val t c n;
      vs ← evalBatches val t c ns;
      Ret (v :: vs)
  end.

(** ** Lemmas *)

Lemma acquireValidBitmap_full slot n : (acquireValidBitmap slot n).1 = setAllValid (replicate (bitmapSize n) 0) n.
Proof.
  rewrite setAllValid_full by apply length_replicate. unfold acquireValidBitmap. simpl.
  apply setAllValid_full. case_decide.
  - by rewrite s_data_make, length_replicate.
  - unfold s_data, s_reslice, s_cap in *. simpl. rewrite length_take. lia.
Qed.

(** What a cache of words holds: the value, in the first [filled] elements. *)
Definition words_cached (x : Z) (c : LitCache) : Prop :=
  match lc_vals c with
  | Some s => (filled c ≤ s_cap s)%nat ∧ ∀ i, (i < filled c)%nat → arr s !! i = Some x
  | None => True
  end.

Lemma fillValues_spec x s from n :
  (n ≤ s_cap s)%nat → (from ≤ s_cap s)%nat → (∀ i, (i < from)%nat → arr s !! i = Some x) →
  ∃ vals, fillValues x (s_reslice s n) from n = Ret vals ∧ s_data vals = replicate n x ∧
    s_cap vals = s_cap s ∧ ∀ i, (i < growFilled from n)%nat → arr vals !! i = Some x.
Proof.
  intros Hn Hf Hx. unfold fillValues, s_reslice, s_data, s_cap in *. cbn [arr s_len].
  destruct (foldM_list_ind (λ data i, store data i x)
    (λ k data, length data = n ∧ ∀ i, (i < from + k)%nat → (i < n)%nat → data !! i = Some x)
    (seq from (n - from)) (take n (arr s))) as (data & -> & Hl & Hd).
  - rewrite length_take. split; [lia|]. intros i Hi Hin. rewrite lookup_take_lt by lia. apply Hx. lia.
  - intros k i data [-> Hk]%lookup_seq (Hl & Hd). rewrite store_Ret by lia. eexists. split; [done|].
    rewrite length_insert. split; [done|]. intros i Hi Hin. destruct (decide (i = from + k)%nat) as [->|].
    + by rewrite list_lookup_insert_eq by lia.
    + rewrite list_lookup_insert_ne by done. apply Hd; lia.
  - rewrite length_seq in Hd. cbn [mbind go_bind]. eexists. split; [done|]. cbn [arr s_len].
    split; [|split].
    + rewrite take_app_le, take_ge by lia. apply list_eq. intros i. destruct (decide (i < n)%nat).
      * rewrite Hd by lia. by rewrite lookup_replicate_2.
      * rewrite lookup_replicate_ge by lia. apply lookup_ge_None. lia.
    + rewrite length_app, length_drop. lia.
    + intros i Hi. unfold growFilled in Hi. destruct (decide (i < n)%nat).
      * rewrite lookup_app_l by lia. apply Hd; [|lia]. case_decide; lia.
      * rewrite lookup_app_r, lookup_drop by lia. rewrite Hl. replace (n + (i - n))%nat with i by lia.
        apply Hx. case_decide; lia.
Qed.

Lemma fixedLiteral_spec x c n :
  words_cached x c →
  ∃ c', fixedLiteral x c n = Ret (replicate n x, setAllValid (replicate (bitmapSize n) 0) n, c') ∧
    words_cached x c'.
Proof.
  intros Hc. unfold fixedLiteral. set (p := match cachedSlice c n with Some s => _ | None => _ end).
  assert (Hp : (n ≤ s_cap p.1)%nat ∧ (p.2 ≤ s_cap p.1)%nat ∧ ∀ i, (i < p.2)%nat → arr p.1 !! i = Some x).
  { unfold p, cachedSlice, words_cached in *. destruct (lc_vals c) as [s|]; [case_decide|]; cbn [fst snd].
    - unfold s_cap, s_make. simpl. rewrite length_replicate. split_and!; lia.
    - destruct Hc. split_and!; [lia|done..].
    - unfold s_cap, s_make. simpl. rewrite length_replicate. split_and!; lia. }
  destruct p as [s from]. cbn [fst snd] in Hp. destruct Hp as (H1 & H2 & H3).
  destruct (fillValues_spec x s from n H1 H2 H3) as (vals & -> & Hd & Hcap & Hv). cbn [mbind go_bind].
  pose proof (acquireValidBitmap_full (validBmp c) n) as Hb.
  destruct (acquireValidBitmap (validBmp c) n) as [valid bmp]. cbn [fst] in Hb. subst valid. rewrite Hd.
  eexists. split; [done|]. split; [|done]. cbn [filled]. unfold growFilled. case_decide; lia.
Qed.

(** Byte lists are equal when their bits are. *)
Lemma bitmap_ext a b :
  bytes_ok a → bytes_ok b → length a = length b → (∀ i, bit_valid a i = bit_valid b i) → a = b.
Proof.
  intros Ha Hb Hl Hi. apply list_eq. intros k. destruct (decide (k < length a)%nat) as [Hk|].
  2: { rewrite !lookup_ge_None_2 by lia. done. }
  destruct (lookup_lt_is_Some_2 a k) as [x Hx]; [done|].
  destruct (lookup_lt_is_Some_2 b k) as [y Hy]; [lia|]. rewrite Hx, Hy. f_equal.
  pose proof (Forall_lookup_1 _ _ _ _ Ha Hx) as Bx. pose proof (Forall_lookup_1 _ _ _ _ Hb Hy) as By.
  apply Z.bits_inj'. intros j Hj. destruct (decide (8 ≤ j)); [by rewrite !(bits_above 8) by done|].
  specialize (Hi (8 * k + Z.to_nat j)%nat). unfold bit_valid in Hi.
  replace ((8 * k + Z.to_nat j) / 8)%nat with k in Hi by lia.
  rewrite Hx, Hy in Hi. replace (Z.of_nat ((8 * k + Z.to_nat j) mod 8)) with j in Hi by lia. done.
Qed.

(** Setting the rows [from .. n-1] of a bitmap. *)
Lemma fill_bits_spec v bits from n :
  bytes_ok bits → (n ≤ 8 * length bits)%nat →
  ∃ bits', foldM (λ data i, bv_Set data i v) bits (seq from (n - from)) = Ret bits' ∧
    bytes_ok bits' ∧ length bits' = length bits ∧
    ∀ i, bit_valid bits' i = if decide (from ≤ i ∧ i < n)%nat then v else bit_valid bits i.
Proof.
  intros Hb Hn.
  destruct (foldM_list_ind (λ data i, bv_Set data i v)
    (λ k data, bytes_ok data ∧ length data = length bits ∧
       ∀ i, bit_valid data i = if decide (from ≤ i ∧ i < from + k)%nat then v else bit_valid bits i)
    (seq from (n - from)) bits) as (data & E & Hd & Hl & Hi).
  - split_and!; [done..|]. intros i. by rewrite decide_False by lia.
  - intros k i data [-> Hk]%lookup_seq (Hd & Hl & Hi). rewrite bv_Set_Ret by lia.
    eexists. split; [done|]. rewrite length_bm_set. split; [by apply bm_set_ok|]. split; [done|].
    intros j. rewrite bit_valid_bm_set by lia. rewrite Hi. repeat case_decide; try lia; done.
  - exists data. split; [done|]. split; [done|]. split; [done|]. intros i. rewrite Hi, length_seq.
    repeat case_decide; try lia; done.
Qed.

Definition bool_cached (v : bool) (c : LitCache) : Prop :=
  match lc_vals c with
  | Some s => bytes_ok (arr s) ∧ (filled c ≤ 8 * s_cap s)%nat ∧
      ∀ i, (i < filled c)%nat → bit_valid (arr s) i = v
  | None => True
  end.

(** The mask of the last byte. *)
Lemma mask_last data n :
  bytes_ok data → length data = bitmapSize n → (n mod 8 ≠ 0)%nat →
  ∃ data', (last ← index data (bitmapSize n - 1);
            store data (bitmapSize n - 1) (Z.land last (Z.shiftl 1 (Z.of_nat (n mod 8)) - 1))) = Ret data' ∧
    bytes_ok data' ∧ length data' = bitmapSize n ∧
    ∀ i, bit_valid data' i = bool_decide (i < n)%nat && bit_valid data i.
Proof.
  intros Hd Hl Hn. unfold bitmapSize in *.
  destruct (lookup_lt_is_Some_2 data ((n + 7) / 8 - 1)) as [last Hlast]; [lia|].
  rewrite (index_Ret _ _ _ Hlast). cbn [mbind go_bind]. rewrite store_Ret by lia.
  pose proof (Forall_lookup_1 _ _ _ _ Hd Hlast) as Hb. eexists. split; [done|].
  rewrite length_insert. split; [|split; [done|]].
  - apply Forall_insert; [done|]. destruct Hb as [H0 H8]. unfold is_byte, inU.
    rewrite Z.shiftl_1_l. replace (2 ^ Z.of_nat (n mod 8) - 1) with (Z.ones (Z.of_nat (n mod 8)))
      by (rewrite Z.ones_equiv; lia). rewrite Z.land_ones by lia.
    pose proof (Z.mod_pos_bound last (2 ^ Z.of_nat (n mod 8))).
    assert (2 ^ Z.of_nat (n mod 8) ≤ 2 ^ 8) by (apply Z.pow_le_mono_r; lia). lia.
  - intros i. unfold bit_valid. destruct (decide (i / 8 = (n + 7) / 8 - 1)%nat) as [E|E].
    + rewrite E, list_lookup_insert_eq, Hlast by lia. rewrite Z.land_spec, andb_comm. f_equal.
      rewrite testbit_ones_nat. apply bool_decide_ext. lia.
    + rewrite list_lookup_insert_ne by done. destruct (decide (i < n)%nat).
      * by rewrite bool_decide_true.
      * rewrite bool_decide_false by done. by rewrite lookup_ge_None_2 by lia.
Qed.

(** The bits of a full batch of [v], and nothing else. *)
Definition broadcast (v : bool) (n : nat) (bits : list Z) : Prop :=
  bytes_ok bits ∧ length bits = bitmapSize n ∧ ∀ i, bit_valid bits i = bool_decide (i < n)%nat && v.
Lemma broadcast_unique v n a b : broadcast v n a → broadcast v n b → a = b.
Proof.
  intros (Ha & La & Ia) (Hb & Lb & Ib). apply bitmap_ext; [done|done|congruence|].
  intros i. by rewrite Ia, Ib.
Qed.
Lemma zeros_ok n : bytes_ok (replicate n 0).
Proof. apply Forall_replicate. by split. Qed.
Lemma broadcast_fresh v n :
  ∃ bits, foldM (λ bits i, bv_Set bits i v) (replicate (bitmapSize n) 0) (seq 0 n) = Ret bits ∧
    broadcast v n bits.
Proof.
  destruct (fill_bits_spec v (replicate (bitmapSize n) 0) 0 n) as (bits & E & Hb & Hl & Hi);
    [apply zeros_ok|rewrite length_replicate; apply size_bits|].
  rewrite Nat.sub_0_r in E. exists bits. split; [done|]. split; [done|].
  split; [by rewrite Hl, length_replicate|]. intros i. rewrite Hi, bit_valid_zeros.
  case_decide; [by rewrite bool_decide_true by lia|by rewrite bool_decide_false by lia].
Qed.

Lemma bit_valid_app_l a b i : (i < 8 * length a)%nat → bit_valid (a ++ b) i = bit_valid a i.
Proof. intros Hi. unfold bit_valid. by rewrite lookup_app_l by lia. Qed.
Lemma bit_valid_take bm m i : (i < 8 * m)%nat → bit_valid (take m bm) i = bit_valid bm i.
Proof. intros Hi. unfold bit_valid. by rewrite lookup_take_lt by lia. Qed.

Lemma boolLiteral_spec v c n :
  bool_cached v c →
  ∃ bits c', boolLiteral v c n = Ret (bits, setAllValid (replicate (bitmapSize n) 0) n, c') ∧
    broadcast v n bits ∧ bool_cached v c'.
Proof.
  intros Hc. unfold boolLiteral. fold (bitmapSize n).
  set (p := match cachedSlice c (bitmapSize n) with Some s => _ | None => _ end).
  assert (Hp : bytes_ok (arr p.1) ∧ (bitmapSize n ≤ s_cap p.1)%nat ∧
    ∀ i, (i < p.2)%nat → bit_valid (arr p.1) i = v).
  { unfold p, cachedSlice, bool_cached in *.
    assert (Hs : bytes_ok (arr (s_make (bitmapSize n))) ∧ (bitmapSize n ≤ s_cap (s_make (bitmapSize n)))%nat).
    { unfold s_cap, s_make. simpl. rewrite length_replicate. split; [apply zeros_ok|done]. }
    destruct (lc_vals c) as [s|]; [case_decide|]; cbn [fst snd]; [destruct Hs; split_and!; [done..|lia]| |
      destruct Hs; split_and!; [done..|lia]]. destruct Hc as (? & ? & ?). split_and!; [done|lia|done]. }
  destruct p as [s from]. cbn [fst snd] in Hp. destruct Hp as (Hok & Hcap & Hf).
  unfold s_reslice, s_data, s_cap in *. cbn [arr s_len]. pose proof (size_bits n) as Hsb.
  destruct (fill_bits_spec v (take (bitmapSize n) (arr s)) from n) as (data & -> & Hd & Hl & Hi);
    [by apply Forall_take|rewrite length_take; lia|]. cbn [mbind go_bind].
  rewrite length_take in Hl. rewrite Nat.min_l in Hl by lia.
  assert (Hin : ∀ i, (i < n)%nat → bit_valid data i = v).
  { intros i Hn. rewrite Hi. case_decide; [done|]. rewrite bit_valid_take by lia. apply Hf. lia. }
  assert (∃ data', (if decide (n mod 8 ≠ 0)%nat
          then last ← index data (bitmapSize n - 1);
               store data (bitmapSize n - 1) (Z.land last (Z.shiftl 1 (Z.of_nat (n mod 8)) - 1))
          else Ret data) = Ret data' ∧ broadcast v n data') as (data' & -> & Hb).
  { case_decide as Hm.
    - destruct (mask_last data n Hd Hl Hm) as (data' & -> & Hd' & Hl' & Hi'). exists data'.
      split; [done|]. split; [done|]. split; [done|]. intros i. rewrite Hi'.
      destruct (decide (i < n)%nat); [rewrite Hin by done|rewrite bool_decide_false by done]; done.
    - exists data. split; [done|]. split; [done|]. split; [done|]. intros i.
      destruct (decide (i < n)%nat); [rewrite bool_decide_true, Hin by done; done|].
      rewrite bool_decide_false by done. unfold bit_valid. unfold bitmapSize in Hl.
      by rewrite lookup_ge_None_2 by lia. }
  cbn [mbind go_bind]. pose proof (acquireValidBitmap_full (validBmp c) n) as Hv.
  destruct (acquireValidBitmap (validBmp c) n) as [valid bmp]. cbn [fst] in Hv. subst valid.
  eexists _, _. split; [done|]. split; [done|]. destruct Hb as (Hb1 & Hb2 & Hb3).
  unfold bool_cached, s_cap. cbn [lc_vals filled arr]. split; [|split].
  - apply Forall_app. split; [done|]. by apply Forall_drop.
  - rewrite length_app. lia.
  - intros i Hn. rewrite bit_valid_app_l by lia. by rewrite Hb3, bool_decide_true.
Qed.

(** A string literal's dictionary does not depend on the rows. *)
Definition string_cached (s : string) (c : LitCache) : Prop :=
  lc_vals c ≠ None → words_cached (litCode c) c ∧
    ∀ nb codes, (let '(_, db) := Add NewDictBuilder s in newStringVector db codes nb)
      = Ret (StringVector codes (lc_dict c) nb) ∧ litCode c = (Add NewDictBuilder s).1.
Lemma newStringVector_frame db codes nb codes' nb' :
  newStringVector db codes' nb' =
    match newStringVector db codes nb with
    | Ret (StringVector _ d _) => Ret (StringVector codes' d nb') | Ret _ => Panic
    | Err e => Err e | Panic => Panic | OutOfFuel => OutOfFuel
    end.
Proof.
  unfold newStringVector. destruct (Marshal db) as [raw| | |]; cbn [mbind go_bind]; [|done..].
  by destruct (UnmarshalDictionary raw).
Qed.

Definition cache_ok (val : Cell) (c : LitCache) : Prop :=
  match val with
  | CInt x | CFloat x | CDate x => words_cached x c
  | CBool v => bool_cached v c
  | CStr s => string_cached s c
  end.
(** A run that reuses the cache agrees with one that does not. *)
Definition agrees (val : Cell) (fresh : go Vector) (cached : go (Vector * LitCache)) : Prop :=
  match fresh with
  | Ret v => ∃ c, cached = Ret (v, c) ∧ cache_ok val c
  | Err e => cached = Err e
  | Panic => cached = Panic
  | OutOfFuel => cached = OutOfFuel
  end.

Lemma stringLiteral_agrees s c n :
  string_cached s c →
  agrees (CStr s) (literalVector (CStr s) TypeString n) (EvalLiteral (CStr s) TypeString c n).
Proof.
  intros Hc. cbn [literalVector EvalLiteral]. unfold stringLiteral.
  pose proof (acquireValidBitmap_full (validBmp c) n) as Hv.
  destruct (acquireValidBitmap (validBmp c) n) as [valid bmp]. cbn [fst] in Hv. subst valid.
  assert (Hcached : ∀ vals dict code from,
    (n ≤ s_cap vals)%nat → (from ≤ s_cap vals)%nat → (∀ i, (i < from)%nat → arr vals !! i = Some code) →
    code = (Add NewDictBuilder s).1 →
    (∀ nb codes, newStringVector (Add NewDictBuilder s).2 codes nb = Ret (StringVector codes dict nb)) →
    agrees (CStr s) (newStringVector (Add NewDictBuilder s).2 (replicate n (Add NewDictBuilder s).1)
        (setAllValid (replicate (bitmapSize n) 0) n))
      ('(codes, dict, valid, c) ← (vals ← fillValues code (s_reslice vals n) from n;
          Ret (s_data vals, dict, setAllValid (replicate (bitmapSize n) 0) n,
               mkLitCache (Some vals) dict code (growFilled from n) bmp));
       Ret (StringVector codes dict valid, c))).
  { intros vals dict code from H1 H2 H3 Hcode Hsv.
    destruct (fillValues_spec code vals from n H1 H2 H3) as (vals' & -> & Hd & Hcap & Hx).
    cbn [mbind go_bind]. rewrite Hd, Hsv, <- Hcode. eexists. split; [done|].
    intros _. cbn [litCode lc_dict]. split.
    - split; cbn [filled]; [unfold growFilled; case_decide; lia|done].
    - intros nb codes. rewrite <- Hsv. split; [by destruct (Add NewDictBuilder s)|done]. }
  destruct (Add NewDictBuilder s) as [code db] eqn:Ea. cbn [fst snd] in *.
  assert (Hnew : ∀ m, m = (sv ← newStringVector db (replicate n 0) [];
        match sv with StringVector _ dict _ => Ret (s_make n, dict, code, 0%nat) | _ => Panic end) →
    agrees (CStr s) (newStringVector db (replicate n code) (setAllValid (replicate (bitmapSize n) 0) n))
      ('(codes, dict, valid, c) ← ('(vals, dict, code, from) ← m;
          vals ← fillValues code (s_reslice vals n) from n;
          Ret (s_data vals, dict, setAllValid (replicate (bitmapSize n) 0) n,
               mkLitCache (Some vals) dict code (growFilled from n) bmp));
       Ret (StringVector codes dict valid, c))).
  { intros m ->. rewrite (newStringVector_frame db (replicate n 0) []).
    destruct (newStringVector db (replicate n 0) []) as [[| | |codes d nb|]| | |] eqn:En;
      cbn [mbind go_bind]; try done.
    specialize (Hcached (s_make n) d code 0%nat).
    rewrite (newStringVector_frame db (replicate n 0) []), En in Hcached. apply Hcached; try done; try lia.
    - unfold s_cap, s_make. simpl. by rewrite length_replicate.
    - intros nb' codes'. by rewrite (newStringVector_frame db (replicate n 0) []), En. }
  unfold cachedSlice. destruct (lc_vals c) as [vals|] eqn:El; [|by apply Hnew].
  case_decide; [by apply Hnew|]. destruct Hc as [Hw Hsv]; [by rewrite El|]. cbn [mbind go_bind].
  unfold words_cached in Hw. rewrite El in Hw. destruct Hw as [H2 H3]. rewrite Ea in Hsv.
  apply Hcached; [lia|done|done|by apply (Hsv [] [])|]. intros nb codes. by apply Hsv.
Qed.

Lemma EvalLiteral_agrees val t c n :
  cache_ok val c → agrees val (literalVector val t n) (EvalLiteral val t c n).
Proof.
  intros Hc. destruct t, val; try done.
  - destruct (fixedLiteral_spec _ c n Hc) as (c' & E & Hc'). cbn [EvalLiteral]. rewrite E. by exists c'.
  - destruct (fixedLiteral_spec _ c n Hc) as (c' & E & Hc'). cbn [EvalLiteral]. rewrite E. by exists c'.
  - cbn [literalVector EvalLiteral]. destruct (boolLiteral_spec v c n Hc) as (bits & c' & -> & Hb & Hc').
    destruct (broadcast_fresh v n) as (bits' & -> & Hb'). cbn [mbind go_bind agrees].
    rewrite (broadcast_unique v n bits' bits) by done. by exists c'.
  - by apply stringLiteral_agrees.
  - destruct (fixedLiteral_spec _ c n Hc) as (c' & E & Hc'). cbn [EvalLiteral]. rewrite E. by exists c'.
Qed.

(** ** Properties *)

(** C19: A literal's cache is invisible.  Over any sequence of batches, of any
    lengths, growing or shrinking, the cached evaluation returns exactly the
    vectors that building each from nothing would, byte for byte (values, bits,
    null bitmap, codes and dictionary), and fails exactly where that would. *)
Theorem literal_cache_fresh val t ns :
  evalBatches val t emptyCache ns
  = foldM (λ vs n, v ← literalVector val t n; Ret (vs ++ [v])) [] ns.
Proof.
  assert (H : ∀ c pre, cache_ok val c →
    foldM (λ vs n, v ← literalVector val t n; Ret (vs ++ [v])) pre ns
    = (vs ← evalBatches val t c ns; Ret (pre ++ vs))).
  { induction ns as [|n ns IH]; intros c pre Hc; cbn [foldM evalBatches]; [by rewrite go_bind_ret_l, app_nil_r|].
    pose proof (EvalLiteral_agrees val t c n Hc) as Ha. unfold agrees in Ha.
    destruct (literalVector val t n) as [v| | |]; [destruct Ha as (c' & -> & Hc')|by rewrite Ha..].
    cbn [mbind go_bind]. rewrite (IH c') by done. destruct (evalBatches val t c' ns); cbn [mbind go_bind]; try done.
    by rewrite <- app_assoc. }
  rewrite (H emptyCache []) by (by destruct val). by rewrite go_bind_ret_r.
Qed.

(** Nine TRUEs, three, then twelve: the masked bits are set again. *)
Example bool_literal_example :
  evalBatches (CBool true) TypeBool emptyCache [9; 3; 12]%nat
  = Ret [BoolVector [255; 1] [255; 1] 9; BoolVector [7] [7] 3; BoolVector [255; 15] [255; 15] 12].
Proof. reflexivity. Qed.

(** ** LIKE *)

(** What a pattern means: [%] any run of bytes, [_] any one byte, any other byte
    itself.  (The source's comment says [_] matches one character; on text
    outside ASCII the two differ.) *)
Inductive Like : list ascii → list ascii → Prop :=
  | Like_nil : Like [] []
  | Like_percent p s1 s2 : Like p s2 → Like (percent :: p) (s1 ++ s2)
  | Like_underscore p c s : Like p s → Like (underscore :: p) (c :: s)
  | Like_byte p c s : c ≠ percent → c ≠ underscore → Like p s → Like (c :: p) (c :: s).

Lemma elem_suffixes s t : t ∈ suffixes s ↔ ∃ s1, s = s1 ++ t.
Proof.
  induction s as [|c s IH]; cbn [suffixes].
  - rewrite list_elem_of_singleton. split; [intros ->; by exists []|].
    intros [s1 E]. symmetry in E. by apply app_eq_nil in E as [_ ->].
  - rewrite elem_of_cons, IH. split.
    + intros [->|[s1 ->]]; [by exists []|by exists (c :: s1)].
    + intros [[|c' s1] E]; [by left|right]. injection E as <- ->. by exists s1.
Qed.


Example like_example :
  likeMatch "a%_b" "axyzb" = true ∧ likeMatch "a%_b" "ab" = false ∧ likeMatch "%" "" = true.
Proof. repeat split; reflexivity. Qed.
