(* ===== verification/Operator.v ===== *)
(** * Package exec: the operator interface and its streams ([exec/operator.go])

    [Operator] is the interface: one [Next] that returns a batch, the end of the
    stream or an error, and the state after it.  [runs] says which batches an
    operator delivers before it stops and whether it stops with an error; every
    operator is specified by how its [runs] follows from its child's, so plans
    compose.  [Next] takes fuel for its retry loops; [next_is] asks for the same
    answer with any larger fuel. *)
From Stdlib Require Import ZArith Lia ZifyNat.
From stdpp Require Import base numbers list strings gmap.
From S2P Require Import Prelude Encoding Codec Float64 Schema Writer Reader Batch Scratch VExpr VKernel VCase VExprSpec.
#[local] Open Scope Z_scope.

(** ** The interface *)

Class Operator (S : Type) : Type := {
  Next : nat → S → go (option Batch) * S;
  OpSchema : S → Schema
}.

Section Streams.
Context {S : Type} `{Operator S}.

Definition next_is (s : S) (r : go (option Batch)) (s' : S) : Prop :=
  ∃ k, ∀ fuel, (k ≤ fuel)%nat → Next fuel s = (r, s').

(** The batches a consumer receives, then [None] for the end of the stream or
    the error that ends it. *)
Inductive runs : S → list Batch → option error → Prop :=
  | runs_end s s' : next_is s (Ret None) s' → runs s [] None
  | runs_error s s' e : next_is s (Err e) s' → runs s [] (Some e)
  | runs_batch s b s' bs o : next_is s (Ret (Some b)) s' → runs s' bs o → runs s (b :: bs) o.

(** The same, with the state the last call leaves. *)
Inductive runs_to : S → list Batch → option error → S → Prop :=
  | runs_to_end s s' : next_is s (Ret None) s' → runs_to s [] None s'
  | runs_to_error s s' e : next_is s (Err e) s' → runs_to s [] (Some e) s'
  | runs_to_batch s b s' bs o s'' : next_is s (Ret (Some b)) s' → runs_to s' bs o s'' → runs_to s (b :: bs) o s''.
Lemma runs_to_runs s bs o s' : runs_to s bs o s' → runs s bs o.
Proof. induction 1; [by eapply runs_end|by eapply runs_error|by eapply runs_batch]. Qed.
Lemma runs_runs_to s bs o : runs s bs o → ∃ s', runs_to s bs o s'.
Proof.
  induction 1 as [s s' Hn|s s' e Hn|s b s' bs o Hn _ (s'' & IH)];
    [exists s'; by constructor|exists s'; by constructor|exists s''; by eapply runs_to_batch].
Qed.

Lemma next_is_inj s r1 s1 r2 s2 : next_is s r1 s1 → next_is s r2 s2 → r1 = r2 ∧ s1 = s2.
Proof.
  intros [k1 H1] [k2 H2]. specialize (H1 (k1 `max` k2)%nat). specialize (H2 (k1 `max` k2)%nat).
  rewrite H1 in H2 by lia. specialize (H2 ltac:(lia)). by injection H2.
Qed.

(** An operator delivers one stream. *)
Lemma runs_inj s bs1 o1 bs2 o2 : runs s bs1 o1 → runs s bs2 o2 → bs1 = bs2 ∧ o1 = o2.
Proof.
  intros H1. revert bs2 o2. induction H1 as [s s' Hn|s s' e Hn|s b s' bs o Hn Hr IH]; intros bs2 o2 H2;
    inversion H2 as [t t' Ht|t t' e' Ht|t b' t' bs' o' Ht Hr2]; subst;
    destruct (next_is_inj _ _ _ _ _ Hn Ht) as [E1 E2]; try done; simplify_eq; try done.
  by destruct (IH _ _ Hr2) as [-> ->].
Qed.

(** A state whose [Next] answers as another's runs as the other. *)
Lemma runs_retry s s' bs o :
  (∃ m, ∀ fuel, (m ≤ fuel)%nat → Next fuel s = Next fuel s') → runs s' bs o → runs s bs o.
Proof.
  intros [m Hm] Hr.
  assert (Hnext : ∀ r t, next_is s' r t → next_is s r t).
  { intros r t [k Hk]. exists (m `max` k)%nat. intros fuel Hf. rewrite Hm by lia. apply Hk. lia. }
  inversion Hr; subst; [eapply runs_end|eapply runs_error|eapply runs_batch]; eauto.
Qed.
End Streams.

(** ** The rows of a batch *)

(** The physical indices a consumer visits: [Batch.rows]. *)
Definition sel_rows (b : Batch) : list nat :=
  match SelVec b with Some sel => Z.to_nat <$> sel | None => seq 0 (b_Length b) end.
Definition rows_of (b : Batch) : list Row := row_at b <$> sel_rows b.
Definition all_rows (bs : list Batch) : list Row := concat (rows_of <$> bs).

(** A batch between operators: well-formed columns of at least one, the length
    the consumer reads, and selected rows inside them; a batch never exceeds
    what a 16-bit selection index can name. *)
Definition batch_wf (tys : list DataType) (D : Z) (b : Batch) : Prop :=
  batch_ok tys D b ∧ Vectors b ≠ [] ∧ b_Length b = length (sel_rows b) ∧
  Forall (λ i, i < evalLen b)%nat (sel_rows b) ∧
  (Z.of_nat (evalLen b) ≤ 2 ^ 16 ∧ Z.of_nat (length (sel_rows b)) ≤ 2 ^ 16) ∧
  match SelVec b with Some sel => Forall (λ x, 0 ≤ x) sel | None => True end.

(** Narrowing a batch to some of its rows, as Filter, Limit and Distinct do. *)
Lemma batch_wf_mono tys D D' b : D ≤ D' → batch_wf tys D b → batch_wf tys D' b.
Proof.
  intros HD ([H0 Hv] & Hrest). split; [|done]. split; [lia|]. eapply Forall2_impl; [exact Hv|].
  cbv beta. intros v t (? & ? & ? & ?). split_and!; (done || lia).
Qed.
Definition with_sel (b : Batch) (sel : list Z) : Batch :=
  mkBatch (b_Schema b) (Vectors b) (length sel) (Some sel).

Lemma physicalLen_wf tys D b : batch_wf tys D b → physicalLen b = evalLen b.
Proof.
  intros ((_ & Hvs) & Hne & Hl & _). unfold evalLen, physicalLen. destruct (SelVec b) eqn:E; [done|].
  destruct (Vectors b) as [|v vs] eqn:Ev; [done|]. inversion Hvs as [|? t ? ? (_ & _ & Hlen & _)]; subst.
  unfold evalLen in Hlen. by rewrite E in Hlen.
Qed.
Lemma evalLen_with_sel tys D b sel : batch_wf tys D b → evalLen (with_sel b sel) = evalLen b.
Proof. intros Hb. rewrite <- (physicalLen_wf _ _ _ Hb). unfold evalLen, physicalLen. simpl. by destruct (Vectors b) eqn:E; [destruct Hb as (_ & ? & _)|]. Qed.

Lemma row_at_with_sel b sel i : row_at (with_sel b sel) i = row_at b i.
Proof. done. Qed.

Lemma with_sel_wf tys D b sel :
  batch_wf tys D b → Forall (λ x, 0 ≤ x ∧ (Z.to_nat x < evalLen b)%nat) sel →
  (length sel ≤ length (sel_rows b))%nat → batch_wf tys D (with_sel b sel).
Proof.
  intros Hb Hs Hls. pose proof (evalLen_with_sel tys D b sel Hb) as He.
  destruct Hb as ([HD Hvs] & Hne & Hl & Hi & Hm & Hp). unfold batch_wf, batch_ok. rewrite He.
  split; [split; [done|]|split; [done|]]. { cbn [with_sel Vectors]. exact Hvs. }
  unfold sel_rows at 1 2 3. cbn [with_sel SelVec b_Length]. rewrite length_fmap. split; [done|].
  split; [|split; [lia|]].
  - apply Forall_fmap. eapply Forall_impl; [done|]. by intros x [_ Hx].
  - eapply Forall_impl; [done|]. by intros x [Hx _].
Qed.

Lemma rows_with_sel b sel : rows_of (with_sel b sel) = row_at b <$> (Z.to_nat <$> sel).
Proof. done. Qed.
Lemma length_rows_of b : length (rows_of b) = length (sel_rows b).
Proof. apply length_fmap. Qed.

(** ** Operators that handle one batch of their child at a time

    Filter, Limit, Distinct and Project share the loop of their [Next]: stop if
    there is nothing left to deliver, pull a batch, then deliver a batch or
    [continue].  [PullOp] is what each fills in. *)

Class PullOp (St : Type) : Type := {
  finished : St → bool;
  body : St → Batch → go (option Batch * St);
  out_schema : St → Schema → Schema
}.
Record Pull (S St : Type) : Type := mkPull { p_child : S; p_state : St }.
Arguments mkPull {S St}.
Arguments p_child {S St}.
Arguments p_state {S St}.

Section Pulling.
Context {S St : Type} `{Operator S} `{PullOp St}.

Fixpoint pull (fuel k : nat) (c : S) (st : St) : go (option Batch) * Pull S St :=
  match k with
  | O => (OutOfFuel, mkPull c st)
  | Datatypes.S k =>
      if finished st then (Ret None, mkPull c st) else
      match Next fuel c with
      | (Ret None, c) => (Ret None, mkPull c st)
      | (Ret (Some b), c) =>
          match body st b with
          | Ret (Some b', st) => (Ret (Some b'), mkPull c st)
          | Ret (None, st) => pull fuel k c st
          | Err e => (Err e, mkPull c st)
          | Panic => (Panic, mkPull c st)
          | OutOfFuel => (OutOfFuel, mkPull c st)
          end
      | (Err e, c) => (Err e, mkPull c st)
      | (Panic, c) => (Panic, mkPull c st)
      | (OutOfFuel, c) => (OutOfFuel, mkPull c st)
      end
  end.

#[export] Instance pull_operator : Operator (Pull S St) := {
  Next fuel p := pull fuel fuel (p_child p) (p_state p);
  OpSchema p := out_schema (p_state p) (OpSchema (p_child p))
}.

(** What the loop makes of the child's batches, without a child. *)
Fixpoint pull_stream (st : St) (bs : list Batch) : go (list Batch * St) :=
  match bs with
  | [] => Ret ([], st)
  | b :: bs =>
      if finished st then Ret ([], st) else
      '(o, st) ← body st b;
      '(out, st) ← pull_stream st bs;
      Ret (match o with Some b' => b' :: out | None => out end, st)
  end.

(** [pull] with enough fuel for the retries and for the child. *)
Definition pull_is (c : S) (st : St) (r : go (option Batch)) (p : Pull S St) : Prop :=
  ∃ m, ∀ fuel k, (m ≤ fuel)%nat → (m ≤ k)%nat → pull fuel k c st = (r, p).
Lemma pull_is_next c st r p : pull_is c st r p → next_is (mkPull c st) r p.
Proof. intros [m Hm]. exists m. intros fuel Hf. cbn [Next pull_operator p_child p_state]. by apply Hm. Qed.

Lemma pull_is_finished c st : finished st = true → pull_is c st (Ret None) (mkPull c st).
Proof. intros E. exists 1%nat. intros fuel [|k] _ Hk; [lia|]. cbn [pull]. by rewrite E. Qed.
Lemma pull_is_end c c' st :
  finished st = false → next_is c (Ret None) c' → pull_is c st (Ret None) (mkPull c' st).
Proof.
  intros E [m Hm]. exists (Datatypes.S m). intros fuel [|k] Hf Hk; [lia|]. cbn [pull].
  by rewrite E, Hm by lia.
Qed.
Lemma pull_is_error c c' st e :
  finished st = false → next_is c (Err e) c' → pull_is c st (Err e) (mkPull c' st).
Proof.
  intros E [m Hm]. exists (Datatypes.S m). intros fuel [|k] Hf Hk; [lia|]. cbn [pull].
  by rewrite E, Hm by lia.
Qed.
Lemma pull_is_emit c c' st st' b b' :
  finished st = false → next_is c (Ret (Some b)) c' → body st b = Ret (Some b', st') →
  pull_is c st (Ret (Some b')) (mkPull c' st').
Proof.
  intros E [m Hm] Hb. exists (Datatypes.S m). intros fuel [|k] Hf Hk; [lia|]. cbn [pull].
  by rewrite E, Hm, Hb by lia.
Qed.
Lemma pull_is_skip c c' st st' b r p :
  finished st = false → next_is c (Ret (Some b)) c' → body st b = Ret (None, st') →
  pull_is c' st' r p → pull_is c st r p.
Proof.
  intros E [m Hm] Hb [m' Hp]. exists (Datatypes.S (m `max` m')). intros fuel [|k] Hf Hk; [lia|]. cbn [pull].
  rewrite E, Hm, Hb by lia. apply Hp; lia.
Qed.

(** A run of the whole operator, loop state made explicit. *)
Inductive pull_runs : S → St → list Batch → option error → Pull S St → Prop :=
  | pull_runs_stop c st p : pull_is c st (Ret None) p → pull_runs c st [] None p
  | pull_runs_error c st p e : pull_is c st (Err e) p → pull_runs c st [] (Some e) p
  | pull_runs_batch c st c' st' b bs o p :
      pull_is c st (Ret (Some b)) (mkPull c' st') → pull_runs c' st' bs o p → pull_runs c st (b :: bs) o p.
Lemma pull_runs_to c st bs o p : pull_runs c st bs o p → runs_to (mkPull c st) bs o p.
Proof.
  induction 1 as [c st p Hp|c st p e Hp|c st c' st' b bs o p Hp _ IH].
  - apply runs_to_end. by apply pull_is_next.
  - apply runs_to_error. by apply pull_is_next.
  - eapply runs_to_batch; [by apply pull_is_next|done].
Qed.

(** The stream of the operator follows from its child's: it stops as its child
    does, unless it finished first. *)
Lemma pull_to c st bs o c' out st' :
  runs_to c bs o c' → pull_stream st bs = Ret (out, st') →
  ∃ c'', runs_to (mkPull c st) out (if finished st' then None else o) (mkPull c'' st') ∧ (finished st' = false → c'' = c').
Proof.
  intros Hr Hp. cut (∃ c'', pull_runs c st out (if finished st' then None else o) (mkPull c'' st') ∧ (finished st' = false → c'' = c')).
  { intros (c'' & Hrun & Hc). exists c''. split; [by apply pull_runs_to|done]. }
  revert st out st' Hp. induction Hr as [c c' Hn|c c' e Hn|c b c' bs o c1 Hn Hr IH]; intros st out st' Hp.
  - injection Hp as <- <-. destruct (finished st) eqn:E.
    + exists c. split; [|done]. by apply pull_runs_stop, pull_is_finished.
    + exists c'. split; [|done]. by apply pull_runs_stop, pull_is_end.
  - injection Hp as <- <-. destruct (finished st) eqn:E.
    + exists c. split; [|done]. by apply pull_runs_stop, pull_is_finished.
    + exists c'. split; [|done]. by apply pull_runs_error, pull_is_error.
  - cbn [pull_stream] in Hp. destruct (finished st) eqn:E.
    { injection Hp as <- <-. rewrite E. exists c. split; [|done]. by apply pull_runs_stop, pull_is_finished. }
    destruct (body st b) as [[ob st1]| | |] eqn:Eb; try done. cbn [mbind go_bind] in Hp.
    destruct (pull_stream st1 bs) as [[out1 st2]| | |] eqn:Es; try done. cbn [mbind go_bind] in Hp.
    injection Hp as <- <-. destruct (IH _ _ _ Es) as (c2 & Hrun & Hc). exists c2. split; [|done]. destruct ob as [b'|].
    + eapply pull_runs_batch; [by eapply pull_is_emit|done].
    + inversion Hrun as [c3 st3 p Hq|c3 st3 p e Hq|c3 st3 c4 st4 b2 bs2 o2 p Hq Hrest]; subst.
      * eapply pull_runs_stop. by eapply pull_is_skip.
      * eapply pull_runs_error. by eapply pull_is_skip.
      * eapply pull_runs_batch; [by eapply pull_is_skip|done].
Qed.
Lemma pull_spec c st bs o out st' :
  runs c bs o → pull_stream st bs = Ret (out, st') →
  runs (mkPull c st) out (if finished st' then None else o).
Proof.
  intros (c' & Hr)%runs_runs_to Hp. destruct (pull_to c st bs o c' out st' Hr Hp) as (c'' & Hrun & _). by eapply runs_to_runs.
Qed.
End Pulling.

(** ** Operators that consume their whole input first *)

(** Go on with the value of [r], or return its failure in the state [s]. *)
Definition on_ret {A B S} (r : go A) (s : S) (k : A → go B * S) : go B * S :=
  match r with Ret a => k a | Err e => (Err e, s) | Panic => (Panic, s) | OutOfFuel => (OutOfFuel, s) end.

Section Draining.
Context {S Acc : Type} `{Operator S} (step : Acc → Batch → go Acc).

(** [for { batch, err := child.Next(ctx); if batch == nil { break }; ... }]: how
    the loop ends, what it has accumulated by then, and the child after it. *)
Fixpoint drain (fuel k : nat) (c : S) (acc : Acc) : go () * Acc * S :=
  match k with
  | O => (OutOfFuel, acc, c)
  | Datatypes.S k =>
      match Next fuel c with
      | (Ret None, c) => (Ret (), acc, c)
      | (Ret (Some b), c) =>
          match step acc b with
          | Ret acc => drain fuel k c acc
          | Err e => (Err e, acc, c)
          | Panic => (Panic, acc, c)
          | OutOfFuel => (OutOfFuel, acc, c)
          end
      | (Err e, c) => (Err e, acc, c)
      | (Panic, c) => (Panic, acc, c)
      | (OutOfFuel, c) => (OutOfFuel, acc, c)
      end
  end.

Lemma drain_to c bs o c' acc acc' :
  runs_to c bs o c' → foldM step acc bs = Ret acc' →
  ∃ m, ∀ fuel k, (m ≤ fuel)%nat → (m ≤ k)%nat →
    drain fuel k c acc = (match o with None => Ret () | Some e => Err e end, acc', c').
Proof.
  intros Hr. revert acc. induction Hr as [c c' [m Hm]|c c' e [m Hm]|c b c' bs o c'' [m Hm] Hr IH]; intros acc Hf.
  - injection Hf as <-. exists (Datatypes.S m). intros fuel [|k] Hfu Hk; [lia|]. cbn [drain]. by rewrite Hm by lia.
  - injection Hf as <-. exists (Datatypes.S m). intros fuel [|k] Hfu Hk; [lia|]. cbn [drain]. by rewrite Hm by lia.
  - cbn [foldM] in Hf. destruct (step acc b) as [acc1| | |] eqn:Es; try done. cbn [mbind go_bind] in Hf.
    destruct (IH _ Hf) as (m2 & H2). exists (Datatypes.S (m `max` m2)).
    intros fuel [|k] Hfu Hk; [lia|]. cbn [drain]. rewrite Hm, Es by lia. apply H2; lia.
Qed.
Lemma drain_spec c bs o acc acc' :
  runs c bs o → foldM step acc bs = Ret acc' →
  ∃ c' m, ∀ fuel k, (m ≤ fuel)%nat → (m ≤ k)%nat →
    drain fuel k c acc = (match o with None => Ret () | Some e => Err e end, acc', c').
Proof.
  intros (c' & Hr)%runs_runs_to Hf. exists c'. by eapply drain_to.
Qed.
End Draining.

(** ** An operator over given batches, for the examples *)

Record Given : Type := given { g_batches : list Batch }.
#[export] Instance given_operator : Operator Given := {
  Next _ g := match g_batches g with [] => (Ret None, g) | b :: bs => (Ret (Some b), given bs) end;
  OpSchema g := match g_batches g with [] => [] | b :: _ => b_Schema b end
}.
Lemma runs_given bs : runs (given bs) bs None.
Proof.
  induction bs as [|b bs IH].
  - apply (runs_end _ (given [])). by exists 0%nat.
  - apply (runs_batch _ _ (given bs)); [by exists 0%nat|done].
Qed.
(** Two batches of one integer column, the second through a selection. *)
Definition ex_batches : list Batch :=
  [mkBatch [] [Int64Vector [5; -3; 0; 7] [13]] 4 None; mkBatch [] [Int64Vector [1; 2; 3] [7]] 2 (Some [0; 2])].
Lemma ex_batches_wf : Forall (batch_wf [TypeInt64] 0) ex_batches.
Proof.
  repeat constructor; try done; vm_compute; try lia; try done; repeat constructor; lia.
Qed.
