(* ===== verification/RowOps.v ===== *)
(** * Package exec: Filter, Limit and Project

    [exec/filter.go], [exec/limit.go] and [exec/project.go], each as the state
    and loop body it adds to the operator interface.  The theorems give the rows
    each delivers as a function of the rows its child delivers, whatever the
    child is, however the rows are cut into batches, and whether they come
    through a selection vector. *)
From Stdlib Require Import ZArith Lia ZifyNat.
From stdpp Require Import base numbers list strings gmap.
From S2P Require Import Prelude Encoding Codec Float64 Schema Writer Reader Batch Scratch VExpr VKernel VCase VExprSpec Operator.
#[local] Open Scope Z_scope.

(** ** Filter *)

Record FilterState : Type := mkFilterState { predicate : Expr; f_sel : list Z }.
Definition Filter (S : Type) : Type := Pull S FilterState.

Definition filter_body (st : FilterState) (b : Batch) : go (option Batch * FilterState) :=
  bv ← Eval (predicate st) b;
  match bv with
  | BoolVector _ _ _ =>
      sel ← BoolToSelVec b bv;
      let st := mkFilterState (predicate st) sel in
      if decide (length sel = 0)%nat then Ret (None, st) else Ret (Some (with_sel b sel), st)
  | _ => Err (ErrMsg "exec: filter: predicate returned another vector")
  end.
#[export] Instance filter_op : PullOp FilterState := {
  finished _ := false;
  body := filter_body;
  out_schema _ s := s
}.
Definition NewFilter {S} (child : S) (predicate : Expr) : go (Filter S) :=
  if decide (EType predicate = TypeBool) then Ret (mkPull child (mkFilterState predicate []))
  else Err (ErrMsg "exec: filter predicate must return BOOL").

(** ** Limit *)

Record LimitState : Type := mkLimitState { remaining : Z; skip : Z }.
Definition Limit (S : Type) : Type := Pull S LimitState.
Definition NewLimit {S} (child : S) (n : Z) : Limit S := mkPull child (mkLimitState n 0).
Definition NewLimitOffset {S} (child : S) (n offset : Z) : Limit S := mkPull child (mkLimitState n offset).

Definition keepRows (b : Batch) (from n : nat) : go Batch :=
  sel ← match SelVec b with
        | Some sel => slice sel from (from + n)
        | None => Ret ((λ i, to_u16 (Z.of_nat (from + i))) <$> seq 0 n)
        end;
  Ret (mkBatch (b_Schema b) (Vectors b) n (Some sel)).
Definition limit_body (st : LimitState) (b : Batch) : go (option Batch * LimitState) :=
  let len b := Z.of_nat (b_Length b) in
  if bool_decide (0 < skip st) && bool_decide (len b ≤ skip st)
  then Ret (None, mkLimitState (remaining st) (skip st - len b)) else
  b ← (if decide (0 < skip st) then keepRows b (Z.to_nat (skip st)) (Z.to_nat (len b - skip st)) else Ret b);
  let skip := if decide (0 < skip st) then 0 else skip st in
  if decide (remaining st < 0 ∨ len b ≤ remaining st)
  then Ret (Some b, mkLimitState (if decide (0 < remaining st) then remaining st - len b else remaining st) skip)
  else b ← keepRows b 0 (Z.to_nat (remaining st)); Ret (Some b, mkLimitState 0 skip).
#[export] Instance limit_op : PullOp LimitState := {
  finished st := bool_decide (remaining st = 0);
  body := limit_body;
  out_schema _ s := s
}.

(** ** Project *)

Record ProjectExpr : Type := mkProjectExpr { pe_Name : string; pe_Expr : Expr }.
Record ProjectState : Type := mkProjectState { exprs : list ProjectExpr; p_schema : Schema; passthrough : list bool }.
Definition Project (S : Type) : Type := Pull S ProjectState.

Definition is_column (e : Expr) : bool := match e with ColumnRef _ _ _ => true | _ => false end.
Definition NewProject {S} (child : S) (exprs : list ProjectExpr) : go (Project S) :=
  if decide (length exprs = 0)%nat then Err (ErrMsg "exec: project: no expressions") else
  Ret (mkPull child (mkProjectState exprs
    ((λ pe, mkField (pe_Name pe) (EType (pe_Expr pe)) EncPlain true) <$> exprs)
    ((λ pe, is_column (pe_Expr pe)) <$> exprs))).

(** The row loop of [materialize]: copy the element, then the validity. *)
Definition materializeLoop (src : Vector) (vs : list Z) (sel : list Z) : go (list Z * list Z) :=
  foldM (λ '(out, nulls) '(i, idx),
      x ← index vs (Z.to_nat idx); out ← store out i x;
      isnull ← IsNull src (Z.to_nat idx);
      nulls ← (if (isnull : bool) then Ret nulls else SetValidBit nulls i);
      Ret (out, nulls))
    (replicate (length sel) 0, replicate (bitmapSize (length sel)) 0) (enum sel).
Definition materialize (v : Vector) (sel : list Z) : go Vector :=
  let n := length sel in
  match v with
  | Int64Vector vs _ =>
      '(out, nulls) ← materializeLoop v vs sel; Ret (Int64Vector out nulls)
  | Float64Vector vs _ =>
      '(out, nulls) ← materializeLoop v vs sel; Ret (Float64Vector out nulls)
  | DateVector vs _ =>
      '(out, nulls) ← materializeLoop v vs sel; Ret (DateVector out nulls)
  | StringVector codes dict _ =>
      '(out, nulls) ← materializeLoop v codes sel; Ret (StringVector out dict nulls)
  | BoolVector bits _ _ =>
      '(out, nulls) ← foldM (λ '(out, nulls) '(i, idx),
          x ← bv_Get bits (Z.to_nat idx); out ← bv_Set out i x;
          isnull ← IsNull v (Z.to_nat idx);
          nulls ← (if (isnull : bool) then Ret nulls else SetValidBit nulls i);
          Ret (out, nulls))
        (replicate (bitmapSize n) 0, replicate (bitmapSize n) 0) (enum sel);
      Ret (BoolVector out nulls n)
  end.

Definition project_body (st : ProjectState) (b : Batch) : go (option Batch * ProjectState) :=
  let outLen := match SelVec b with Some sel => length sel | None => b_Length b end in
  outVecs ← foldM (λ outVecs '(pe, pass),
      raw ← Eval (pe_Expr pe) b;
      raw ← match SelVec b with
            | Some sel => materialize raw sel
            | None => if (pass : bool) then Ret raw else copyVector raw (Len raw)
            end;
      Ret (outVecs ++ [raw]))
    [] (zip (exprs st) (passthrough st));
  Ret (Some (mkBatch (p_schema st) outVecs outLen None), st).
#[export] Instance project_op : PullOp ProjectState := {
  finished _ := false;
  body := project_body;
  out_schema st _ := p_schema st
}.

(** ** Lemmas: selection *)

(** [BoolToSelVec] keeps the visited rows whose condition is true. *)
Lemma BoolToSelVec_spec tys D b bv g :
  batch_wf tys D b → column bv TypeBool (evalLen b) (λ i, CBool <$> g i) →
  ∃ sel, BoolToSelVec b bv = Ret sel ∧
    Z.to_nat <$> sel = filter (λ i, g i = Some true) (sel_rows b) ∧
    Forall (λ x, 0 ≤ x ∧ (Z.to_nat x < evalLen b)%nat) sel.
Proof.
  intros (_ & _ & _ & Hi & Hm & Hp) Hbv. unfold BoolToSelVec, sel_rows in *.
  destruct (SelVec b) as [sel0|] eqn:Es.
  - destruct (foldM_list_ind (λ out idx, c ← condTrue bv (Z.to_nat idx);
        Ret (if (c : bool) then out ++ [idx] else out))
      (λ k out, Z.to_nat <$> out = filter (λ i, g i = Some true) (Z.to_nat <$> take k sel0) ∧
         Forall (λ x, 0 ≤ x ∧ (Z.to_nat x < evalLen b)%nat) out) sel0 []) as (sel & E & Hs & Hf).
    + by rewrite take_0.
    + intros k x out Hx (Ho & Hf). pose proof (Forall_lookup_1 _ _ _ _ Hp Hx) as H0.
      rewrite Forall_fmap in Hi. pose proof (Forall_lookup_1 _ _ _ _ Hi Hx) as Hlt. simpl in Hlt, H0.
      rewrite (condTrue_spec _ _ _ _ Hbv Hlt). cbn [mbind go_bind]. eexists. split; [done|].
      rewrite (take_S_r _ _ _ Hx), fmap_app, filter_app, <- Ho. cbn [fmap list_fmap filter list_filter].
      destruct (decide (g (Z.to_nat x) = Some true)).
      * rewrite bool_decide_true, fmap_app by done. split; [done|]. by apply Forall_app_2; [|constructor].
      * rewrite bool_decide_false, app_nil_r by done. by split.
    + exists sel. rewrite take_ge in Hs by done. by split_and!.
  - rewrite (column_Len _ _ _ _ Hbv). assert (He : evalLen b = b_Length b) by (unfold evalLen; by rewrite Es).
    destruct (foldM_seq_ind (λ out i, c ← condTrue bv i;
        Ret (if (c : bool) then out ++ [to_u16 (Z.of_nat i)] else out))
      (λ k out, Z.to_nat <$> out = filter (λ i, g i = Some true) (seq 0 k) ∧
         Forall (λ x, 0 ≤ x ∧ (Z.to_nat x < evalLen b)%nat) out) (evalLen b) []) as (sel & E & Hs & Hf).
    + done.
    + intros k out Hk (Ho & Hf). rewrite (condTrue_spec _ _ _ _ Hbv Hk). cbn [mbind go_bind].
      eexists. split; [done|]. rewrite seq_S, filter_app, <- Ho. cbn [filter list_filter Nat.add].
      destruct (decide (g k = Some true)).
      * rewrite bool_decide_true, fmap_app by done. rewrite wrapU_id by (split; lia).
        cbn [fmap list_fmap]. rewrite Nat2Z.id. split; [done|].
        apply Forall_app_2; [done|]. constructor; [lia|done].
      * rewrite bool_decide_false, app_nil_r by done. by split.
    + exists sel. rewrite He in *. by split_and!.
Qed.

Lemma filter_fmap_rows b (P : Row → Prop) `{∀ r, Decision (P r)} (l : list nat) :
  row_at b <$> filter (λ i, P (row_at b i)) l = filter P (row_at b <$> l).
Proof.
  induction l as [|i l IH]; [done|]. cbn [fmap list_fmap]. rewrite !filter_cons. case_decide; [|done].
  cbn [fmap list_fmap]. by rewrite <- IH.
Qed.

(** What a WHERE clause keeps. *)
Definition keeps (pred : Expr) (r : Row) : Prop := tri (row_eval r pred) = Some true.
#[export] Instance keeps_dec pred r : Decision (keeps pred r).
Proof. unfold keeps. apply _. Defined.

Lemma filter_body_spec tys D pred sel0 b :
  batch_wf tys D b → typeof tys pred = Some TypeBool → fits D pred = true →
  ∃ o st, filter_body (mkFilterState pred sel0) b = Ret (o, st) ∧ predicate st = pred ∧
    match o with
    | Some b' => batch_wf tys D b' ∧ rows_of b' = filter (keeps pred) (rows_of b) ∧ (0 < length (rows_of b'))%nat
    | None => filter (keeps pred) (rows_of b) = []
    end.
Proof.
  intros Hb Ht Hs. pose proof Hb as (Hok & _).
  destruct (rowwise_all tys D b Hok pred _ Ht Hs) as (bv & E & Hc & _).
  apply column_tri in Hc. unfold filter_body. cbn [predicate]. rewrite E. cbn [mbind go_bind].
  pose proof (proj1 (column_bool _ _ _) Hc) as (bits & nb & -> & _).
  destruct (BoolToSelVec_spec _ _ _ _ _ Hb Hc) as (sel & -> & Hsel & Hf). cbn [mbind go_bind].
  assert (Hrows : row_at b <$> (Z.to_nat <$> sel) = filter (keeps pred) (rows_of b)).
  { rewrite Hsel. etrans; [|apply (filter_fmap_rows b (keeps pred) (sel_rows b))].
    done. }
  case_decide as Hl; (eexists _, _; split; [done|]; split; [done|]).
  - apply length_zero_iff_nil in Hl as ->. by rewrite <- Hrows.
  - split.
    { apply with_sel_wf; [done..|]. rewrite <- (length_fmap Z.to_nat), Hsel. apply length_filter. }
    rewrite rows_with_sel. split; [done|]. rewrite !length_fmap. lia.
Qed.

Lemma filter_stream tys D pred sel0 bs :
  Forall (batch_wf tys D) bs → typeof tys pred = Some TypeBool → fits D pred = true →
  ∃ out st, pull_stream (mkFilterState pred sel0) bs = Ret (out, st) ∧
    Forall (batch_wf tys D) out ∧ all_rows out = filter (keeps pred) (all_rows bs) ∧
    Forall (λ b, 0 < length (rows_of b))%nat out.
Proof.
  intros Hbs Ht Hs. revert sel0. induction Hbs as [|b bs Hb _ IH]; intros sel0; [by eexists _, _|].
  cbn [pull_stream finished filter_op body].
  destruct (filter_body_spec tys D pred sel0 b Hb Ht Hs) as (o & [p sel] & -> & Hp & Ho).
  cbn [predicate] in Hp. subst p. cbn [mbind go_bind].
  destruct (IH sel) as (out & st & -> & Hout & Hrows & Hne). cbn [mbind go_bind].
  eexists _, _. split; [done|]. unfold all_rows in *. cbn [fmap list_fmap concat]. rewrite filter_app, <- Hrows.
  destruct o as [b'|]; [|by rewrite Ho]. destruct Ho as (Hw & <- & Hpos).
  split; [by constructor|]. split; [done|by constructor].
Qed.

(** ** Lemmas: Limit *)

(** What OFFSET and LIMIT keep of all rows; a negative count keeps everything. *)
Definition window {A} (rem : Z) (skip : nat) (l : list A) : list A :=
  if decide (rem < 0) then drop skip l else take (Z.to_nat rem) (drop skip l).

Lemma rows_length_wf tys D b : batch_wf tys D b → length (rows_of b) = b_Length b.
Proof. intros (_ & _ & Hl & _). by rewrite length_rows_of. Qed.

Lemma take_drop_fmap {A B} (f : A → B) l from n : take n (drop from (f <$> l)) = f <$> take n (drop from l).
Proof. by rewrite fmap_take, fmap_drop. Qed.

Lemma keepRows_spec tys D b from n :
  batch_wf tys D b → (from + n ≤ b_Length b)%nat →
  ∃ b', keepRows b from n = Ret b' ∧ batch_wf tys D b' ∧ b_Length b' = n ∧
    rows_of b' = take n (drop from (rows_of b)).
Proof.
  intros Hb Hn. pose proof Hb as (_ & _ & Hl & Hi & Hm & Hp). unfold keepRows.
  assert (∃ sel, match SelVec b with Some sel => slice sel from (from + n)
            | None => Ret ((λ i, to_u16 (Z.of_nat (from + i))) <$> seq 0 n) end = Ret sel ∧
    length sel = n ∧ Z.to_nat <$> sel = take n (drop from (sel_rows b)) ∧ Forall (λ x, 0 ≤ x) sel)
    as (sel & -> & Hls & Hs & H0).
  { unfold sel_rows in *. destruct (SelVec b) as [sel|] eqn:Es.
    - rewrite length_fmap in Hl. rewrite slice_Ret by lia. eexists. split; [done|].
      replace (from + n - from)%nat with n by lia.
      split; [rewrite length_take, length_drop; lia|]. rewrite <- take_drop_fmap. split; [done|].
      by apply Forall_take, Forall_drop.
    - assert (He : evalLen b = b_Length b) by (unfold evalLen; by rewrite Es). eexists. split; [done|].
      rewrite length_fmap, length_seq. split; [done|]. split.
      + rewrite drop_seq, take_seq. rewrite Nat.min_l by lia. rewrite <- list_fmap_compose.
        apply list_eq. intros i. rewrite list_lookup_fmap. destruct (decide (i < n)%nat).
        * rewrite !lookup_seq_lt by lia. simpl. rewrite wrapU_id by (split; lia). f_equal. lia.
        * by rewrite !lookup_seq_ge by lia.
      + apply Forall_fmap, Forall_true. intros i. simpl. apply Z.mod_pos_bound. lia. }
  cbn [mbind go_bind]. rewrite <- Hls. fold (with_sel b sel). eexists. split; [done|]. split; [|split; [done|]].
  - apply with_sel_wf; [done| |lia]. apply Forall_and. split; [done|].
    apply (Forall_fmap _ (λ i, i < evalLen b)%nat). rewrite Hs. by apply Forall_take, Forall_drop.
  - rewrite rows_with_sel, Hs, Hls. unfold rows_of. by rewrite take_drop_fmap.
Qed.

(** One step of the window: what is emitted, and what remains of it. *)
Lemma limit_body_spec tys D rem sk b {A} (f : Row → A) L :
  batch_wf tys D b → rem ≠ 0 →
  ∃ o rem' sk', limit_body (mkLimitState rem (Z.of_nat sk)) b = Ret (o, mkLimitState rem' (Z.of_nat sk')) ∧
    window rem sk ((f <$> rows_of b) ++ L)
    = match o with Some b' => f <$> rows_of b' | None => [] end ++ window rem' sk' L ∧
    (rem < 0 → rem' < 0) ∧ match o with Some b' => batch_wf tys D b' | None => True end.
Proof.
  intros Hb Hrem. pose proof (rows_length_wf _ _ _ Hb) as Hlen. unfold limit_body. cbn [skip remaining].
  set (len := b_Length b) in *. destruct (bool_decide (0 < Z.of_nat sk) && bool_decide (Z.of_nat len ≤ Z.of_nat sk)) eqn:Esk.
  { apply andb_true_iff in Esk as [H1%bool_decide_eq_true H2%bool_decide_eq_true].
    exists None, rem, (sk - len)%nat. split; [do 3 f_equal; lia|]. split; [|done].
    unfold window. rewrite drop_app_ge by (rewrite length_fmap; lia). rewrite length_fmap, Hlen. done. }
  assert (∃ b1, (if decide (0 < Z.of_nat sk)
       then keepRows b (Z.to_nat (Z.of_nat sk)) (Z.to_nat (Z.of_nat len - Z.of_nat sk)) else Ret b) = Ret b1 ∧
    batch_wf tys D b1 ∧ b_Length b1 = (len - sk)%nat ∧ rows_of b1 = drop sk (rows_of b) ∧ (sk ≤ len)%nat)
    as (b1 & -> & Hb1 & Hl1 & Hr1 & Hle).
  { case_decide as Hs.
    - assert (sk < len)%nat.
      { apply andb_false_iff in Esk as [H%bool_decide_eq_false|H%bool_decide_eq_false]; lia. }
      destruct (keepRows_spec tys D b sk (len - sk) Hb) as (b1 & E & Hb1 & Hl1 & Hr1); [unfold len in *; lia|].
      exists b1. rewrite Nat2Z.id. replace (Z.to_nat (Z.of_nat len - Z.of_nat sk)) with (len - sk)%nat by lia.
      split_and!; [done..|rewrite Hr1, take_ge; [done|rewrite length_drop; lia]|lia].
    - exists b. split_and!; [done..|unfold len; lia|by replace sk with 0%nat by lia|lia]. }
  cbn [mbind go_bind]. replace (if decide (0 < Z.of_nat sk) then 0 else Z.of_nat sk) with (Z.of_nat 0)
    by (destruct (decide (0 < Z.of_nat sk)); [done|f_equal; lia]).
  assert (Hd : drop sk ((f <$> rows_of b) ++ L) = (f <$> rows_of b1) ++ L).
  { rewrite drop_app_le, Hr1, fmap_drop by (rewrite length_fmap; lia). done. }
  pose proof (rows_length_wf _ _ _ Hb1) as Hlen1.
  destruct (decide (rem < 0 ∨ Z.of_nat (b_Length b1) ≤ rem)) as [Hc|Hc].
  - exists (Some b1). eexists _, 0%nat. split; [done|]. split; [|split; [intros; destruct (decide (0 < rem)); lia|done]].
    unfold window. rewrite Hd, drop_0. destruct (decide (rem < 0)).
    + rewrite (decide_False (P := 0 < rem)), decide_True by lia. done.
    + rewrite (decide_True (P := 0 < rem)), decide_False by lia.
      rewrite take_app_ge by (rewrite length_fmap; lia). rewrite length_fmap, Hlen1. f_equal. f_equal. lia.
  - destruct (keepRows_spec tys D b1 0 (Z.to_nat rem) Hb1) as (b2 & -> & Hb2 & Hl2 & Hr2); [lia|].
    cbn [mbind go_bind]. exists (Some b2), 0, 0%nat. split; [done|]. split; [|split; [lia|done]].
    unfold window. rewrite Hd, decide_False, decide_False by lia.
    rewrite Hr2, drop_0, take_app_le, fmap_take by (rewrite length_fmap; lia). by rewrite app_nil_r.
Qed.

Lemma window_0 {A} sk (l : list A) : window 0 sk l = [].
Proof. done. Qed.

Lemma limit_stream tys D {A} (f : Row → A) rem sk bs :
  Forall (batch_wf tys D) bs →
  ∃ out rem' sk', pull_stream (mkLimitState rem (Z.of_nat sk)) bs = Ret (out, mkLimitState rem' sk') ∧
    Forall (batch_wf tys D) out ∧
    f <$> all_rows out = window rem sk (f <$> all_rows bs) ∧ (rem < 0 → rem' < 0).
Proof.
  intros Hbs. revert rem sk. induction Hbs as [|b bs Hb _ IH]; intros rem sk.
  { eexists _, _, _. split; [done|]. split; [done|]. split; [|done]. unfold window.
    change (f <$> all_rows []) with (@nil A). rewrite drop_nil, take_nil. by case_decide. }
  cbn [pull_stream finished limit_op body remaining]. destruct (decide (rem = 0)) as [->|Hrem].
  { rewrite bool_decide_true by done. eexists _, _, _. split; [done|]. split; [done|]. by rewrite window_0. }
  rewrite bool_decide_false by done.
  destruct (limit_body_spec tys D rem sk b f (f <$> all_rows bs) Hb Hrem) as (o & rem' & sk' & -> & Hw & Hneg & Ho).
  cbn [mbind go_bind]. destruct (IH rem' sk') as (out & rem2 & sk2 & -> & Hout & Hrows & Hneg2).
  cbn [mbind go_bind]. eexists _, _, _. split; [done|]. split; [destruct o; [by constructor|done]|].
  split; [|auto]. unfold all_rows in *. cbn [fmap list_fmap concat]. rewrite fmap_app, Hw, <- Hrows.
  destruct o; [|done]. cbn [fmap list_fmap concat]. by rewrite fmap_app.
Qed.

(** ** Lemmas: Project *)

(** The rows a selection visits, of a column. *)
Definition picked (sel : list Z) (f : nat → option Cell) (i : nat) : option Cell :=
  match sel !! i with Some x => f (Z.to_nat x) | None => None end.
Definition within (n : nat) (sel : list Z) : Prop := Forall (λ x, Z.to_nat x < n)%nat sel.

Lemma set_valid_if nulls size i (isnull : bool) :
  length nulls = size → (i / 8 < size)%nat → bit_valid nulls i = false →
  ∃ nulls', (if isnull then Ret nulls else SetValidBit nulls i) = Ret nulls' ∧ length nulls' = size ∧
    ∀ j, bit_valid nulls' j = if decide (j = i) then negb isnull else bit_valid nulls j.
Proof.
  intros Hl Hi Hz. destruct isnull.
  - exists nulls. do 2 (split; [done|]). intros j. by case_decide; subst.
  - rewrite SetValidBit_Ret by lia. eexists. split; [done|]. rewrite length_bm_set. split; [done|].
    intros j. by rewrite bit_valid_bm_set by lia.
Qed.

Lemma materializeLoop_spec src t m f vs sel :
  column src t m f → length vs = m → within m sel →
  ∃ out nulls, materializeLoop src vs sel = Ret (out, nulls) ∧
    length out = length sel ∧ length nulls = bitmapSize (length sel) ∧
    ∀ i x, sel !! i = Some x →
      out !! i = vs !! Z.to_nat x ∧ bit_valid nulls i = negb (bool_decide (f (Z.to_nat x) = None)).
Proof.
  intros Hc Hl Hw. unfold materializeLoop. set (size := bitmapSize (length sel)).
  destruct (foldM_enum_ind (λ '(out, nulls) '(i, idx),
      x ← index vs (Z.to_nat idx); out ← store out i x;
      isnull ← IsNull src (Z.to_nat idx);
      nulls ← (if (isnull : bool) then Ret nulls else SetValidBit nulls i);
      Ret (out, nulls))
    (λ k '(out, nulls), length out = length sel ∧ length nulls = size ∧
      (∀ j, (k ≤ j)%nat → bit_valid nulls j = false) ∧
      ∀ i x, (i < k)%nat → sel !! i = Some x →
        out !! i = vs !! Z.to_nat x ∧ bit_valid nulls i = negb (bool_decide (f (Z.to_nat x) = None)))
    sel (replicate (length sel) 0, replicate size 0)) as ([out nulls] & E & Ho & Hn & _ & Hi).
  - rewrite !length_replicate. split_and!; [done..|intros; apply bit_valid_zeros|lia].
  - intros k idx [out nulls] Hk (Ho & Hn & Hz & Hi). pose proof (lookup_lt_Some _ _ _ Hk) as Hlt.
    pose proof (Forall_lookup_1 _ _ _ _ Hw Hk) as Hx. simpl in Hx.
    destruct (lookup_lt_is_Some_2 vs (Z.to_nat idx)) as [x Hvx]; [lia|].
    rewrite (index_Ret _ _ _ Hvx). cbn [mbind go_bind]. rewrite store_Ret by lia. cbn [mbind go_bind].
    rewrite (column_IsNull _ _ _ _ _ Hc Hx). cbn [mbind go_bind].
    destruct (set_valid_if nulls size k (bool_decide (f (Z.to_nat idx) = None)) Hn) as (nulls' & -> & Hn' & Hb);
      [by apply size_index|by apply Hz|]. cbn [mbind go_bind]. eexists. split; [done|].
    cbv beta iota. rewrite length_insert. split_and!; [done..| |].
    + intros j Hj. rewrite Hb, decide_False by lia. apply Hz. lia.
    + intros i y Hik Hy. rewrite Hb. destruct (decide (i = k)) as [->|].
      * assert (y = idx) as -> by congruence. by rewrite list_lookup_insert_eq by lia.
      * rewrite list_lookup_insert_ne by done. apply Hi; [lia|done].
  - exists out, nulls. do 3 (split; [done|]). intros i x Hx. apply Hi; [|done]. by eapply lookup_lt_Some.
Qed.

Lemma materialize_fixed t mkV mkC vs nb m f sel :
  fixed t mkV mkC → column (mkV vs nb) t m f → within m sel →
  ∃ r, materializeLoop (mkV vs nb) vs sel = Ret r ∧
    column (mkV r.1 r.2) t (length sel) (picked sel f).
Proof.
  intros Hfix Hc Hw. pose proof Hc as Hc0. apply (column_fixed _ _ _ _ _ _ Hfix) in Hc as (vs' & nb' & E & Hl & Hn & Hf).
  assert (vs' = vs ∧ nb' = nb) as [-> ->] by (destruct Hfix; naive_solver).
  destruct (materializeLoop_spec _ _ _ _ vs sel Hc0 Hl Hw) as (out & nulls & -> & Ho & Hnl & Hi).
  exists (out, nulls). split; [done|]. apply (column_fixed _ _ _ _ _ _ Hfix). exists out, nulls.
  split; [done|]. split; [done|]. split; [rewrite Hnl; apply size_bits|]. intros i y Hy.
  pose proof (lookup_lt_Some _ _ _ Hy) as Hlt. destruct (lookup_lt_is_Some_2 sel i) as [x Hx]; [lia|].
  destruct (Hi _ _ Hx) as [Hoi ->]. unfold picked. rewrite Hx. rewrite Hy in Hoi. symmetry in Hoi.
  rewrite (Hf _ _ Hoi). by destruct (bit_valid nb (Z.to_nat x)).
Qed.

Lemma materialize_bool bits nb m f sel :
  column (BoolVector bits nb m) TypeBool m f → within m sel →
  ∃ v, materialize (BoolVector bits nb m) sel = Ret v ∧ column v TypeBool (length sel) (picked sel f).
Proof.
  intros Hc Hw. pose proof Hc as Hc0. apply column_bool in Hc as (bits' & nb' & E & Hb & Hn & Hf).
  injection E as <- <-. cbn [materialize]. set (size := bitmapSize (length sel)).
  destruct (foldM_enum_ind (λ '(out, nulls) '(i, idx),
          x ← bv_Get bits (Z.to_nat idx); out ← bv_Set out i x;
          isnull ← IsNull (BoolVector bits nb m) (Z.to_nat idx);
          nulls ← (if (isnull : bool) then Ret nulls else SetValidBit nulls i);
          Ret (out, nulls))
    (λ k '(out, nulls), length out = size ∧ length nulls = size ∧
      (∀ j, (k ≤ j)%nat → bit_valid nulls j = false) ∧
      ∀ i x, (i < k)%nat → sel !! i = Some x → tri_at out nulls i = tri_at bits nb (Z.to_nat x))
    sel (replicate size 0, replicate size 0)) as ([out nulls] & -> & Ho & Hnl & _ & Hi).
  - rewrite length_replicate. split_and!; [done..|intros; apply bit_valid_zeros|lia].
  - intros k idx [out nulls] Hk (Ho & Hnl & Hz & Hi). pose proof (lookup_lt_Some _ _ _ Hk) as Hlt.
    pose proof (Forall_lookup_1 _ _ _ _ Hw Hk) as Hx. simpl in Hx. pose proof (size_index _ _ Hlt) as Hs.
    rewrite bv_Get_Ret by lia. cbn [mbind go_bind]. rewrite bv_Set_Ret by (unfold size in *; lia).
    cbn [mbind go_bind]. rewrite (column_IsNull _ _ _ _ _ Hc0 Hx). cbn [mbind go_bind].
    destruct (set_valid_if nulls size k (bool_decide (f (Z.to_nat idx) = None)) Hnl) as (nulls' & -> & Hn' & Hb');
      [done|by apply Hz|]. cbn [mbind go_bind]. eexists. split; [done|].
    cbv beta iota. rewrite length_bm_set. split_and!; [done..| |].
    + intros j Hj. rewrite Hb', decide_False by lia. apply Hz. lia.
    + intros i y Hik Hy. unfold tri_at at 1. rewrite Hb', bit_valid_bm_set by (unfold size in *; lia).
      destruct (decide (i = k)) as [->|].
      * assert (y = idx) as -> by congruence. rewrite Hf by done. unfold tri_at.
        by destruct (bit_valid nb (Z.to_nat idx)).
      * fold (tri_at out nulls i). apply Hi; [lia|done].
  - cbn [mbind go_bind]. eexists. split; [done|]. apply column_bool. exists out, nulls. rewrite Ho, Hnl.
    split_and!; [done|apply size_bits..|]. intros i Hlt. destruct (lookup_lt_is_Some_2 sel i) as [x Hx]; [done|].
    rewrite (Hi _ _ Hlt Hx). unfold picked. rewrite Hx. apply Hf. exact (Forall_lookup_1 _ _ _ _ Hw Hx).
Qed.

Lemma materialize_string codes dict nb m f sel :
  column (StringVector codes dict nb) TypeString m f → within m sel →
  ∃ out nulls, materializeLoop (StringVector codes dict nb) codes sel = Ret (out, nulls) ∧
    column (StringVector out dict nulls) TypeString (length sel) (picked sel f).
Proof.
  intros Hc Hw. pose proof Hc as Hc0. apply column_string in Hc as (codes' & dict' & nb' & E & Hl & Hn & Hnull & Hd).
  injection E as <- <- <-.
  destruct (materializeLoop_spec _ _ _ _ codes sel Hc0 Hl Hw) as (out & nulls & -> & Ho & Hnl & Hi).
  exists out, nulls. split; [done|]. apply column_string. exists out, dict, nulls. rewrite Hnl.
  split; [done|]. split; [done|]. split; [apply size_bits|].
  assert (Hpick : ∀ i, (i < length sel)%nat → ∃ x, (Z.to_nat x < m)%nat ∧ out !! i = codes !! Z.to_nat x ∧
    picked sel f i = f (Z.to_nat x) ∧ bit_valid nulls i = negb (bool_decide (f (Z.to_nat x) = None))).
  { intros i Hlt. destruct (lookup_lt_is_Some_2 sel i) as [x Hx]; [done|]. destruct (Hi _ _ Hx).
    exists x. unfold picked. rewrite Hx. split_and!; [exact (Forall_lookup_1 _ _ _ _ Hw Hx)|done..]. }
  split.
  - intros i Hlt Eb. destruct (Hpick i Hlt) as (x & Hx & _ & -> & Hb). rewrite Hb in Eb.
    apply negb_false_iff, bool_decide_eq_true in Eb. done.
  - destruct dict as [d|].
    + destruct Hd as (keys & Hnd & Hfit & Hdi & Hk). exists keys. do 3 (split; [done|]).
      intros i Hlt Eb. destruct (Hpick i Hlt) as (x & Hx & Hout & -> & Hb). rewrite Hb in Eb.
      apply negb_true_iff, bool_decide_eq_false in Eb. destruct (bit_valid nb (Z.to_nat x)) eqn:Ev.
      * destruct (Hk _ Hx Ev) as (k & s & ? & ? & ?). exists k, s. by rewrite Hout.
      * destruct Eb. by apply Hnull.
    + intros i Hlt. destruct (Hpick i Hlt) as (x & Hx & _ & _ & ->).
      rewrite Hnull; [done|done|by apply Hd].
Qed.

Lemma materialize_spec v t m f sel :
  column v t m f → within m sel →
  ∃ v', materialize v sel = Ret v' ∧ column v' t (length sel) (picked sel f) ∧ dict_size v' = dict_size v.
Proof.
  intros Hc Hw. pose proof Hc as (_ & Et & El & _).
  destruct v as [vs nb|vs nb|bits nb m'|codes dict nb|vs nb]; simpl in Et; subst t; cbn [materialize].
  - destruct (materialize_fixed _ _ _ _ _ _ _ _ fixed_int64 Hc Hw) as ([out nulls] & -> & Hr). by eexists.
  - destruct (materialize_fixed _ _ _ _ _ _ _ _ fixed_float64 Hc Hw) as ([out nulls] & -> & Hr). by eexists.
  - simpl in El. subst m'. destruct (materialize_bool _ _ _ _ _ Hc Hw) as (v' & E & Hr). exists v'.
    split; [exact E|]. split; [done|]. pose proof Hr as (_ & Et & _). by destruct v'.
  - destruct (materialize_string _ _ _ _ _ _ Hc Hw) as (out & nulls & -> & Hr). by eexists.
  - destruct (materialize_fixed _ _ _ _ _ _ _ _ fixed_date Hc Hw) as ([out nulls] & -> & Hr). by eexists.
Qed.

Lemma slice_all {A} (l : list A) : slice l 0 (length l) = Ret l.
Proof. rewrite slice_Ret by lia. by rewrite drop_0, Nat.sub_0_r, take_ge by lia. Qed.

(** Copying all of a column. *)
Lemma copyVector_column v t n f :
  column v t n f → ∃ v', copyVector v n = Ret v' ∧ column v' t n f ∧ dict_size v' = dict_size v.
Proof.
  intros Hc. pose proof Hc as (_ & Et & El & _).
  assert (Hcopy : ∀ vs : list Z, length vs = n → copy (replicate n 0) vs = vs).
  { intros vs Hl. apply copy_full. by rewrite length_replicate. }
  assert (Hfix : ∀ mkV mkC vs nb, fixed t mkV mkC → column (mkV vs nb) t n f →
    column (mkV (copy (replicate n 0) vs) (copy (replicate (bitmapSize n) 0) nb)) t n f).
  { intros mkV mkC vs nb Hfix Hv. apply (column_fixed _ _ _ _ _ _ Hfix) in Hv as (vs' & nb' & E & Hl & Hn & Hf).
    assert (vs' = vs ∧ nb' = nb) as [-> ->] by (destruct Hfix; naive_solver). rewrite Hcopy by done.
    apply (column_fixed _ _ _ _ _ _ Hfix). eexists _, _. split; [done|]. split; [done|].
    rewrite length_copy, length_replicate. split; [apply size_bits|]. intros i x Hx.
    rewrite bit_valid_copy by (done || by apply lookup_lt_Some in Hx; lia). by apply Hf. }
  destruct v as [vs nb|vs nb|bits nb m|codes dict nb|vs nb]; simpl in Et, El; subst t n;
    cbn [copyVector Nulls]; rewrite ?slice_all; cbn [mbind go_bind];
    (eexists; split; [done|]; split; [|done]).
  - by eapply Hfix.
  - by eapply Hfix.
  - apply column_bool in Hc as (bits' & nb' & E & Hb & Hn & Hf). injection E as <- <-.
    apply column_bool. eexists _, _. split; [done|]. rewrite !length_copy, length_replicate.
    split; [apply size_bits|]. split; [apply size_bits|]. intros i Hi. rewrite Hf by done.
    unfold tri_at. by rewrite !bit_valid_copy by done.
  - apply column_string in Hc as (codes' & dict' & nb' & E & Hl & Hn & Hnull & Hd). injection E as <- <- <-.
    rewrite Hcopy by done. apply column_string. eexists _, _, _. split; [done|]. split; [done|].
    rewrite length_copy, length_replicate. split; [apply size_bits|]. split.
    + intros i Hi. rewrite bit_valid_copy by done. by apply Hnull.
    + destruct dict as [d|]; [|intros i Hi; rewrite bit_valid_copy by done; by apply Hd].
      destruct Hd as (keys & ? & ? & ? & Hk). exists keys. do 3 (split; [done|]). intros i Hi.
      rewrite bit_valid_copy by done. by apply Hk.
  - by eapply Hfix.
Qed.

(** The column an expression contributes to the projected batch. *)
Definition proj_len (b : Batch) : nat := match SelVec b with Some sel => length sel | None => b_Length b end.
Definition proj_cell (b : Batch) (e : Expr) (i : nat) : option Cell :=
  match sel_rows b !! i with Some x => row_eval (row_at b x) e | None => None end.

Lemma proj_len_rows tys D b : batch_wf tys D b → proj_len b = length (sel_rows b).
Proof. intros (_ & _ & Hl & _). unfold proj_len, sel_rows in *. destruct (SelVec b); [by rewrite length_fmap|done]. Qed.

Lemma project_column tys D b pe t (pass : bool) :
  batch_wf tys D b → typeof tys (pe_Expr pe) = Some t → fits D (pe_Expr pe) = true →
  ∃ v, (raw ← Eval (pe_Expr pe) b;
        match SelVec b with
        | Some sel => materialize raw sel
        | None => if pass then Ret raw else copyVector raw (Len raw)
        end) = Ret v ∧
    column v t (proj_len b) (proj_cell b (pe_Expr pe)) ∧ dict_size v ≤ budget D (pe_Expr pe).
Proof.
  intros Hb Ht Hs. pose proof Hb as (Hok & _ & Hl & Hi & _).
  destruct (rowwise_all tys D b Hok _ t Ht Hs) as (raw & -> & Hc & Hd). cbn [mbind go_bind].
  unfold proj_len, proj_cell, sel_rows in *. destruct (SelVec b) as [sel|] eqn:Es.
  - destruct (materialize_spec raw t _ _ sel Hc) as (v & -> & Hv & Hsz); [by rewrite Forall_fmap in Hi|].
    exists v. split; [done|]. split; [|lia]. eapply column_ext; [done|]. intros i _. unfold picked.
    rewrite list_lookup_fmap. by destruct (sel !! i).
  - assert (He : evalLen b = b_Length b) by (unfold evalLen; by rewrite Es). rewrite He in Hc.
    assert (Hext : ∀ v, column v t (b_Length b) (λ i, row_eval (row_at b i) (pe_Expr pe)) →
      column v t (b_Length b) (λ i, match seq 0 (b_Length b) !! i with
        | Some x => row_eval (row_at b x) (pe_Expr pe) | None => None end)).
    { intros v Hv. eapply column_ext; [done|]. intros i Hlt. by rewrite lookup_seq_lt. }
    destruct pass; [exists raw; auto|]. rewrite (column_Len _ _ _ _ Hc).
    destruct (copyVector_column _ _ _ _ Hc) as (v & -> & Hv & Hsz). exists v. split; [done|]. split; [auto|lia].
Qed.

(** The schema of the projection agrees with the types of its expressions. *)
Definition projects (tys : list DataType) (D D' : Z) (pes : list ProjectExpr) (ts : list DataType) : Prop :=
  pes ≠ [] ∧ 0 ≤ D' ∧
  Forall2 (λ pe t, typeof tys (pe_Expr pe) = Some t ∧ fits D (pe_Expr pe) = true ∧
                   budget D (pe_Expr pe) ≤ D') pes ts.
Definition proj_row (pes : list ProjectExpr) (r : Row) : list (option Cell) :=
  (λ pe, row_eval r (pe_Expr pe)) <$> pes.
Definition project_state (pes : list ProjectExpr) : ProjectState :=
  mkProjectState pes ((λ pe, mkField (pe_Name pe) (EType (pe_Expr pe)) EncPlain true) <$> pes)
    ((λ pe, is_column (pe_Expr pe)) <$> pes).

Lemma project_body_spec tys D D' pes ts b :
  batch_wf tys D b → projects tys D D' pes ts →
  ∃ b', project_body (project_state pes) b = Ret (Some b', project_state pes) ∧ batch_wf ts D' b' ∧
    r_cells <$> rows_of b' = proj_row pes <$> rows_of b.
Proof.
  intros Hb (Hne & HD & Hp). pose proof Hb as (_ & _ & Hl & Hi & Hm & _).
  unfold project_body, project_state. cbn [exprs passthrough p_schema]. fold (proj_len b).
  assert (∃ vecs, foldM (λ outVecs '(pe, pass),
      raw ← Eval (pe_Expr pe) b;
      raw ← match SelVec b with
            | Some sel => materialize raw sel
            | None => if (pass : bool) then Ret raw else copyVector raw (Len raw)
            end;
      Ret (outVecs ++ [raw])) [] (zip pes ((λ pe, is_column (pe_Expr pe)) <$> pes)) = Ret vecs ∧
    Forall2 (λ v '(pe, t), column v t (proj_len b) (proj_cell b (pe_Expr pe)) ∧ dict_size v ≤ D') vecs (zip pes ts))
    as (vecs & -> & Hv).
  { cut (∀ pre, ∃ vecs, foldM (λ outVecs '(pe, pass),
      raw ← Eval (pe_Expr pe) b;
      raw ← match SelVec b with
            | Some sel => materialize raw sel
            | None => if (pass : bool) then Ret raw else copyVector raw (Len raw)
            end;
      Ret (outVecs ++ [raw])) pre (zip pes ((λ pe, is_column (pe_Expr pe)) <$> pes)) = Ret (pre ++ vecs) ∧
    Forall2 (λ v '(pe, t), column v t (proj_len b) (proj_cell b (pe_Expr pe)) ∧ dict_size v ≤ D') vecs (zip pes ts)).
    { intros H. apply (H []). }
    clear Hne. induction Hp as [|pe t pes ts (Ht & Hs & HD') Hp IH]; intros pre; [exists []; by rewrite app_nil_r|].
    cbn [fmap list_fmap zip_with foldM].
    destruct (project_column tys D b pe t (is_column (pe_Expr pe)) Hb Ht Hs) as (v & E & Hc & Hd).
    apply go_bind_Ret_inv in E as (raw & E1 & E2). rewrite E1. cbn [mbind go_bind]. rewrite E2. cbn [mbind go_bind].
    destruct (IH (pre ++ [v])) as (vecs & E & Hvs). exists (v :: vecs).
    cbn [zip_with fmap list_fmap]. rewrite <- app_assoc in E. split; [exact E|]. constructor; [split; [done|lia]|done]. }
  cbn [mbind go_bind]. eexists. split; [done|]. pose proof (Forall2_length _ _ _ Hp) as Hlen.
  pose proof (proj_len_rows _ _ _ Hb) as Hpl.
  assert (Hvl : length vecs = length pes).
  { rewrite (Forall2_length _ _ _ Hv), length_zip_with. lia. }
  assert (Hzip : ∀ k pe t, pes !! k = Some pe → ts !! k = Some t → zip pes ts !! k = Some (pe, t)).
  { intros k pe t H1 H2. apply lookup_zip_with_Some. by exists pe, t. }
  split.
  - unfold batch_wf, batch_ok, sel_rows. cbn [SelVec Vectors b_Length].
    assert (He : evalLen (mkBatch ((λ pe, mkField (pe_Name pe) (EType (pe_Expr pe)) EncPlain true) <$> pes)
      vecs (proj_len b) None) = proj_len b) by done.
    rewrite He, length_seq. split_and!; [done| |by destruct vecs, pes|done| |lia|lia|done].
    + apply Forall2_same_length_lookup. split; [lia|]. intros k v t Hvk Htk.
      destruct (lookup_lt_is_Some_2 pes k) as [pe Hpe]; [apply lookup_lt_Some in Hvk; lia|].
      destruct (Forall2_lookup_lr _ _ _ _ _ _ Hv Hvk (Hzip _ _ _ Hpe Htk)) as [(Hok & Et & El & _) Hd]. done.
    + apply Forall_seq. intros j Hj. lia.
  - unfold rows_of. rewrite <- !list_fmap_compose. apply list_eq. intros i. rewrite !list_lookup_fmap.
    unfold sel_rows at 1. cbn [SelVec b_Length]. rewrite Hpl.
    destruct (decide (i < length (sel_rows b))%nat) as [Hlt|].
    2: { rewrite lookup_seq_ge by lia. by rewrite lookup_ge_None_2 by lia. }
    rewrite lookup_seq_lt by lia. destruct (lookup_lt_is_Some_2 (sel_rows b) i Hlt) as [x Hx]. rewrite Hx.
    cbn [fmap option_fmap option_map compose row_at r_cells Vectors]. f_equal. unfold proj_row.
    apply list_eq. intros k. rewrite !list_lookup_fmap.
    destruct (vecs !! k) as [v|] eqn:Hvk.
    + destruct (Forall2_lookup_l _ _ _ _ _ Hv Hvk) as ([pe t] & Hz & (_ & _ & _ & Hc) & _).
      apply lookup_zip_with_Some in Hz as (? & ? & [= -> ->] & -> & _). cbn [fmap option_fmap option_map].
      f_equal. rewrite Nat.add_0_l, Hc by lia. unfold proj_cell. by rewrite Hx.
    + apply lookup_ge_None in Hvk. by rewrite lookup_ge_None_2 by lia.
Qed.

Lemma project_stream tys D D' pes ts bs :
  Forall (batch_wf tys D) bs → projects tys D D' pes ts →
  ∃ out st, pull_stream (project_state pes) bs = Ret (out, st) ∧ Forall (batch_wf ts D') out ∧
    r_cells <$> all_rows out = proj_row pes <$> all_rows bs.
Proof.
  intros Hbs Hp. induction Hbs as [|b bs Hb _ IH]; [by eexists _, _|].
  cbn [pull_stream finished project_op body].
  destruct (project_body_spec tys D D' pes ts b Hb Hp) as (b' & -> & Hw & Hr). cbn [mbind go_bind].
  destruct IH as (out & st & -> & Hout & Hrows). cbn [mbind go_bind]. eexists _, _. split; [done|].
  split; [by constructor|]. unfold all_rows in *. cbn [fmap list_fmap concat]. by rewrite !fmap_app, Hr, Hrows.
Qed.

(** ** Properties *)

(** C33: Filter is WHERE.  Whatever its child is and however it cuts its rows
    into batches, Filter delivers exactly the rows for which the predicate is
    TRUE (not NULL), in order, in well-formed non-empty batches, and ends as its
    child does, errors included. *)
Theorem filter_rows {S} `{Operator S} tys D (c : S) pred bs o :
  runs c bs o → Forall (batch_wf tys D) bs →
  EType pred = TypeBool → typeof tys pred = Some TypeBool → fits D pred = true →
  ∃ f out, NewFilter c pred = Ret f ∧ runs f out o ∧ Forall (batch_wf tys D) out ∧
    all_rows out = filter (keeps pred) (all_rows bs) ∧
    Forall (λ b, 0 < length (rows_of b))%nat out.
Proof.
  intros Hr Hbs Hty Ht Hs.
  destruct (filter_stream tys D pred [] bs Hbs Ht Hs) as (out & st & E & Hout & Hrows & Hne).
  eexists _, out. unfold NewFilter. rewrite decide_True by done. split; [done|].
  split; [|done]. exact (pull_spec c (mkFilterState pred []) bs o out st Hr E).
Qed.

(** C35: Limit is OFFSET and LIMIT.  Over a child that ends without an error it
    delivers the rows from the offset-th on, at most [n] of them (all of them
    when [n] is negative), in order, whether the child's batches carry a
    selection vector or not. *)
Theorem limit_rows {S} `{Operator S} tys D (c : S) n offset bs :
  runs c bs None → Forall (batch_wf tys D) bs → 0 ≤ offset →
  ∃ out, runs (NewLimitOffset c n offset) out None ∧ Forall (batch_wf tys D) out ∧
    all_rows out = window n (Z.to_nat offset) (all_rows bs).
Proof.
  intros Hr Hbs Hoff.
  destruct (limit_stream tys D (λ r, r) n (Z.to_nat offset) bs Hbs) as (out & rem' & sk' & E & Hout & Hrows & _).
  rewrite Z2Nat.id in E by done. exists out. split; [|split; [done|by rewrite !list_fmap_id in Hrows]].
  pose proof (pull_spec c (mkLimitState n offset) bs None out _ Hr E) as Hrun. by destruct (finished _) in Hrun.
Qed.

(** C34: Project is the SELECT list.  It delivers one row per row of its child,
    holding exactly the value of each expression on that row, in well-formed
    batches without a selection vector, and ends as its child does. *)
Theorem project_rows {S} `{Operator S} tys D D' (c : S) pes ts bs o :
  runs c bs o → Forall (batch_wf tys D) bs → projects tys D D' pes ts →
  ∃ p out, NewProject c pes = Ret p ∧ runs p out o ∧ Forall (batch_wf ts D') out ∧
    r_cells <$> all_rows out = proj_row pes <$> all_rows bs.
Proof.
  intros Hr Hbs Hp. destruct (project_stream tys D D' pes ts bs Hbs Hp) as (out & st & E & Hout & Hrows).
  eexists _, out. unfold NewProject. destruct Hp as (Hne & _). rewrite decide_False by by destruct pes.
  split; [done|]. split; [|done]. exact (pull_spec c (project_state pes) bs o out st Hr E).
Qed.

(** [a > 2] over the example batches: 5, 7 and 3; NULL and the others drop. *)
Definition gt2 : Expr := BinOp BinGT (ColumnRef "a" 0 TypeInt64) (Literal (CInt 2) TypeInt64) TypeBool.
Lemma filter_rows_witness :
  ∃ f out, NewFilter (given ex_batches) gt2 = Ret f ∧ runs f out None ∧
    Forall (batch_wf [TypeInt64] 0) out ∧
    all_rows out = filter (keeps gt2) (all_rows ex_batches) ∧
    Forall (λ b, 0 < length (rows_of b))%nat out.
Proof.
  apply (filter_rows [TypeInt64] 0 (given ex_batches) gt2 ex_batches None);
    [apply runs_given|exact ex_batches_wf|reflexivity..].
Defined.
Lemma limit_rows_witness :
  ∃ out, runs (NewLimitOffset (given ex_batches) 3 2) out None ∧ Forall (batch_wf [TypeInt64] 0) out ∧
    all_rows out = window 3 2 (all_rows ex_batches).
Proof.
  apply (limit_rows [TypeInt64] 0 (given ex_batches) 3 2 ex_batches);
    [apply runs_given|exact ex_batches_wf|lia].
Defined.
Definition double_a : ProjectExpr :=
  mkProjectExpr "d" (BinOp BinAdd (ColumnRef "a" 0 TypeInt64) (ColumnRef "a" 0 TypeInt64) TypeInt64).
Lemma project_rows_witness :
  ∃ p out, NewProject (given ex_batches) [double_a] = Ret p ∧ runs p out None ∧
    Forall (batch_wf [TypeInt64] 0) out ∧
    r_cells <$> all_rows out = proj_row [double_a] <$> all_rows ex_batches.
Proof.
  apply (project_rows [TypeInt64] 0 0 (given ex_batches) [double_a] [TypeInt64] ex_batches None);
    [apply runs_given|exact ex_batches_wf|].
  split; [discriminate|]. split; [lia|]. repeat constructor; simpl; lia.
Defined.
Example filter_example :
  (let '(r, _) := Next 3 (mkPull (given ex_batches) (mkFilterState gt2 [])) in
   ob ← r; match ob with Some b => Ret (sel_rows b, b_Length b) | None => Ret ([], 0%nat) end)
  = Ret ([0; 3]%nat, 2%nat).
Proof. reflexivity. Qed.
