(* ===== verification/Distinct.v ===== *)
(** * Package exec: Distinct ([exec/distinct.go])

    Rows are compared through a serialised key.  The key of a row determines its
    cells ([row_key_inj]), so the operator keeps exactly the first occurrence of
    each row. *)
From Stdlib Require Import ZArith Lia ZifyNat.
From stdpp Require Import base numbers list strings gmap.
From S2P Require Import Prelude Encoding Codec Float64 Schema Writer Reader Batch Scratch VExpr VKernel VCase VExprSpec Operator.
#[local] Open Scope Z_scope.

(** [extractInt64] ([exec/aggregate.go]). *)
Definition extractInt64 (v : Vector) (i : nat) : go Z :=
  match v with
  | Int64Vector vs _ => index vs i
  | Float64Vector vs _ => x ← index vs i; Ret (to_i64 x)
  | DateVector vs _ => index vs i
  | BoolVector bits _ _ => x ← bv_Get bits i; Ret (if (x : bool) then 1 else 0)
  | StringVector _ _ _ => Ret 0
  end.

Record DistinctState : Type := mkDistinctState { seen : gset (list Z) }.
Definition Distinct (S : Type) : Type := Pull S DistinctState.
Definition NewDistinct {S} (child : S) : Distinct S := mkPull child (mkDistinctState ∅).

(** The key of a row: each column tagged, and terminated by 0xFF. *)
Definition appendKey (rowIdx : nat) (buf : list Z) (v : Vector) : go (list Z) :=
  isnull ← IsNull v rowIdx;
  if (isnull : bool) then Ret (buf ++ [0; 0xFF]) else
  match v with
  | StringVector codes dict _ =>
      '(s, _) ← sv_Get codes dict rowIdx;
      Ret (AppendUint32 (buf ++ [2]) (to_u32 (Z.of_nat (strlen s))) ++ bytes_of s ++ [0xFF])
  | _ =>
      x ← extractInt64 v rowIdx;
      Ret (AppendUint64 (buf ++ [1]) (to_u64 x) ++ [0xFF])
  end.
Definition buildKey (b : Batch) (rowIdx : nat) : go (list Z) := foldM (appendKey rowIdx) [] (Vectors b).

(** One visited row: remember its key, keep the row when the key is new. *)
Definition distinct_row (b : Batch) (acc : gset (list Z) * list Z) (idx : Z) : go (gset (list Z) * list Z) :=
  let '(seen, sel) := acc in
  key ← buildKey b (Z.to_nat idx);
  if decide (key ∈ seen) then Ret (seen, sel) else Ret ({[ key ]} ∪ seen, sel ++ [to_u16 idx]).
Definition distinct_body (st : DistinctState) (b : Batch) : go (option Batch * DistinctState) :=
  let rows := match SelVec b with Some sel => sel | None => Z.of_nat <$> seq 0 (b_Length b) end in
  '(seen, sel) ← foldM (distinct_row b) (seen st, []) rows;
  let st := mkDistinctState seen in
  if decide (length sel = 0)%nat then Ret (None, st) else Ret (Some (with_sel b sel), st).
#[export] Instance distinct_op : PullOp DistinctState := {
  finished _ := false;
  body := distinct_body;
  out_schema _ s := s
}.

(** ** What a key says *)

(** The 64-bit word of a cell that is not a string. *)
Definition cell_word (c : Cell) : Z :=
  match c with
  | CInt x | CDate x => x
  | CFloat x => to_i64 x
  | CBool b => if b then 1 else 0
  | CStr _ => 0
  end.
Definition cell_key (c : option Cell) : list Z :=
  match c with
  | None => [0; 0xFF]
  | Some (CStr s) => [2] ++ le_bytes 4 (Z.of_nat (strlen s)) ++ bytes_of s ++ [0xFF]
  | Some c => [1] ++ le_bytes 8 (to_u64 (cell_word c)) ++ [0xFF]
  end.
Definition row_key (r : list (option Cell)) : list Z := concat (cell_key <$> r).

(** A cell holds what its Go type can. *)
Definition cell_fits (c : option Cell) : Prop :=
  match c with
  | None => True
  | Some (CInt x) => inS 64 x
  | Some (CFloat x) => inU 64 x
  | Some (CDate x) => inS 32 x
  | Some (CStr s) => Z.of_nat (strlen s) < 2 ^ 32
  | Some (CBool _) => True
  end.
Definition cell_has_type (c : option Cell) (t : DataType) : Prop :=
  match c with None => True | Some c => cell_type c = t end.
#[export] Instance cell_fits_dec c : Decision (cell_fits c).
Proof. destruct c as [[]|]; apply _. Defined.
Definition row_fits (r : Row) : Prop := Forall cell_fits (r_cells r).

(** The first occurrence of each row. *)
Fixpoint first_rows (seen : list (list (option Cell))) (rs : list Row) : list Row :=
  match rs with
  | [] => []
  | r :: rs =>
      if decide (r_cells r ∈ seen) then first_rows seen rs else r :: first_rows (r_cells r :: seen) rs
  end.

(** ** Lemmas: keys *)

Lemma le_bytes_inj n a b :
  0 ≤ a < 256 ^ Z.of_nat n → 0 ≤ b < 256 ^ Z.of_nat n → le_bytes n a = le_bytes n b → a = b.
Proof. intros Ha Hb E. by rewrite <- (le_val_bytes_id n a Ha), E, le_val_bytes_id. Qed.

Lemma word_in64 c : cell_fits (Some c) → inS 64 (cell_word c).
Proof.
  destruct c as [x|x|b|s|x]; cbn [cell_fits cell_word].
  - done.
  - intros _. by apply wrapS_in.
  - intros _. by destruct b.
  - done.
  - unfold inS. lia.
Qed.
Lemma wrapU64_inj a b : inS 64 a → inS 64 b → to_u64 a = to_u64 b → a = b.
Proof. intros Ha Hb E. by rewrite <- (wrapS_wrapU 64 a), E, wrapS_wrapU by (done || lia). Qed.
Lemma word_inj c c' :
  cell_type c = cell_type c' → cell_type c ≠ TypeString → cell_fits (Some c) → cell_fits (Some c') →
  to_u64 (cell_word c) = to_u64 (cell_word c') → c = c'.
Proof.
  intros Ht Hs Hc Hc' E. apply wrapU64_inj in E; [|by apply word_in64..].
  destruct c as [x|x|b|s|x], c' as [x'|x'|b'|s'|x']; try done; simpl in *; try congruence.
  - f_equal. by rewrite <- (wrapU_wrapS 64 x), E, wrapU_wrapS by (done || lia).
  - by destruct b, b'.
Qed.

Lemma strlen_length s : strlen s = length (bytes_of s).
Proof. done. Qed.
Lemma in_pow256_4 z : 0 ≤ z < 2 ^ 32 → 0 ≤ z < 256 ^ Z.of_nat 4.
Proof. done. Qed.

(** A key is a prefix code among cells of one type. *)
Lemma cell_key_prefix t c c' r r' :
  cell_has_type c t → cell_has_type c' t → cell_fits c → cell_fits c' →
  cell_key c ++ r = cell_key c' ++ r' → c = c' ∧ r = r'.
Proof.
  intros Ht Ht' Hc Hc' E.
  destruct c as [c|], c' as [c'|]; [| | |injection E as ->; by split].
  2: { destruct c; cbn in E; congruence. }
  2: { destruct c'; cbn in E; congruence. }
  cbn [cell_has_type] in *. assert (Htt : cell_type c = cell_type c') by congruence.
  destruct (decide (cell_type c = TypeString)) as [Hs|Hs].
  - destruct c as [| | |s|], c' as [| | |s'|]; try done. cbn [cell_key cell_fits] in *.
    rewrite <- !app_assoc in E. apply app_inj_1 in E as [_ E]; [|done].
    apply app_inj_1 in E as [E1 E]; [|by rewrite !length_le_bytes].
    apply le_bytes_inj in E1; [|apply in_pow256_4; lia..]. apply Nat2Z.inj in E1.
    apply app_inj_1 in E as [E2 E]; [|done]. apply bytes_of_inj in E2 as ->.
    apply app_inj_1 in E as [_ ->]; [|done]. done.
  - assert (Hk : ∀ c, cell_type c ≠ TypeString →
      cell_key (Some c) = [1] ++ le_bytes 8 (to_u64 (cell_word c)) ++ [0xFF]) by by intros [].
    rewrite !Hk in E by congruence. rewrite <- !app_assoc in E.
    apply app_inj_1 in E as [_ E]; [|done].
    apply app_inj_1 in E as [E1 E]; [|by rewrite !length_le_bytes].
    apply le_bytes_inj in E1; [|apply (wrapU_in 64); lia..].
    apply word_inj in E1 as ->; [|done..]. apply app_inj_1 in E as [_ ->]; done.
Qed.

Lemma row_key_inj ts r r' :
  Forall2 cell_has_type r ts → Forall2 cell_has_type r' ts → Forall cell_fits r → Forall cell_fits r' →
  row_key r = row_key r' → r = r'.
Proof.
  intros Hr. revert r'. induction Hr as [|c t r ts Hc Hr IH]; intros r' Hr' Hf Hf' E;
    inversion Hr' as [|c' t' r2 ts' Hc' Hr2]; subst; [done|].
  apply Forall_cons in Hf as [? ?]. apply Forall_cons in Hf' as [? ?].
  unfold row_key in E. cbn [fmap list_fmap concat] in E.
  apply (cell_key_prefix t) in E as [-> E]; [|done..]. f_equal. by apply IH.
Qed.

Lemma column_self v t n : vec_ok v → VType v = t → Len v = n → column v t n (cell v).
Proof. intros. by split; [|split; [|split]]. Qed.

(** Cells of a column have its type. *)
Lemma column_has_type v t n f i : column v t n f → (i < n)%nat → cell_has_type (f i) t.
Proof.
  intros Hc Hi. pose proof Hc as (_ & Et & _). destruct (f i) as [c|] eqn:Ef; [|done].
  pose proof (column_value _ _ _ _ _ _ Hc Hi Ef) as Hv. subst t.
  destruct v as [vs nb|vs nb|bits nb m|codes dict nb|vs nb]; cbn [vec_value] in Hv.
  - destruct (index vs i); cbn in Hv; simplify_eq; done.
  - destruct (index vs i); cbn in Hv; simplify_eq; done.
  - destruct (bv_Get bits i); cbn in Hv; simplify_eq; done.
  - destruct (sv_Get codes dict i) as [[]| | |]; cbn in Hv; simplify_eq; done.
  - destruct (index vs i); cbn in Hv; simplify_eq; done.
Qed.
Lemma batch_cells tys D b i :
  batch_ok tys D b → (i < evalLen b)%nat → Forall2 cell_has_type (r_cells (row_at b i)) tys.
Proof.
  intros (_ & Hvs) Hi. cbn [row_at r_cells]. apply Forall2_fmap_l.
  eapply Forall2_impl; [exact Hvs|]. intros v t (Hok & Et & Hl & _). cbn.
  apply (column_has_type v t (evalLen b) (cell v)); [|done]. by apply column_self.
Qed.

Lemma extractInt64_spec v t n f i c :
  column v t n f → (i < n)%nat → f i = Some c → t ≠ TypeString → extractInt64 v i = Ret (cell_word c).
Proof.
  intros Hc Hi Ef Ht. pose proof (column_value _ _ _ _ _ _ Hc Hi Ef) as Hv. destruct Hc as (_ & <- & _).
  destruct v as [vs nb|vs nb|bits nb m|codes dict nb|vs nb]; cbn [vec_value extractInt64] in *; try done.
  - destruct (index vs i); cbn [mbind go_bind] in *; by simplify_eq.
  - destruct (index vs i); cbn [mbind go_bind] in *; by simplify_eq.
  - destruct (bv_Get bits i); cbn [mbind go_bind] in *; by simplify_eq.
  - destruct (index vs i); cbn [mbind go_bind] in *; by simplify_eq.
Qed.
Lemma sv_Get_spec codes dict nb n f i s :
  column (StringVector codes dict nb) TypeString n f → (i < n)%nat → f i = Some (CStr s) →
  ∃ d, sv_Get codes dict i = Ret (s, d).
Proof.
  intros Hc Hi Ef. pose proof (column_value _ _ _ _ _ _ Hc Hi Ef) as Hv. cbn [vec_value] in Hv.
  destruct (sv_Get codes dict i) as [[s' d]| | |]; cbn [mbind go_bind] in *; simplify_eq. eauto.
Qed.

(** The key of one column's cell. *)
Lemma value_key v t n f i :
  column v t n f → (i < n)%nat → cell_fits (f i) →
  ∀ buf, appendKey i buf v = Ret (buf ++ cell_key (f i)).
Proof.
  intros Hc Hi Hf buf. unfold appendKey. rewrite (column_IsNull _ _ _ _ _ Hc Hi), is_null_dec. cbn [mbind go_bind].
  destruct (f i) as [c|] eqn:Ef; [|done].
  pose proof (column_has_type _ _ _ _ _ Hc Hi) as Ht. rewrite Ef in Ht. cbn [cell_has_type] in Ht.
  destruct (decide (t = TypeString)) as [->|Hns].
  - destruct c as [| | |s|]; try done. pose proof Hc as (_ & Ev & _). destruct v as [| | |codes dict nb|]; try done.
    destruct (sv_Get_spec _ _ _ _ _ _ _ Hc Hi Ef) as (d & ->). cbn [mbind go_bind cell_key cell_fits] in *.
    unfold AppendUint32. rewrite (wrapU_id 32) by (split; lia). by rewrite <- !app_assoc.
  - pose proof (extractInt64_spec _ _ _ _ _ _ Hc Hi Ef Hns) as E. destruct Hc as (_ & Ev & _).
    assert (Hw : Ret (AppendUint64 (buf ++ [1]) (to_u64 (cell_word c)) ++ [0xFF]) = Ret (buf ++ cell_key (Some c))).
    { unfold AppendUint64. destruct c; try (simpl in Ht; congruence); cbn [cell_key]; by rewrite <- !app_assoc. }
    destruct v; try (simpl in Ev; congruence); rewrite E; exact Hw.
Qed.

Lemma buildKey_spec tys D b i :
  batch_ok tys D b → (i < evalLen b)%nat → row_fits (row_at b i) →
  buildKey b i = Ret (row_key (r_cells (row_at b i))).
Proof.
  intros (_ & Hvs) Hi Hf. unfold buildKey, row_fits, row_key in *. cbn [row_at r_cells] in *.
  change (concat (cell_key <$> ((λ v, cell v i) <$> Vectors b)))
    with ([] ++ concat (cell_key <$> ((λ v, cell v i) <$> Vectors b))). generalize (@nil Z).
  induction Hvs as [|v t vs ts (Hok & Et & Hl & _) Hvs IH]; intros buf; [by rewrite app_nil_r|].
  cbn [fmap list_fmap] in Hf. apply Forall_cons in Hf as [Hc Hf]. cbn [foldM].
  rewrite (value_key v t (evalLen b) (cell v) i) by (done || by apply column_self).
  cbn [mbind go_bind fmap list_fmap concat]. rewrite (IH Hf). by rewrite <- app_assoc.
Qed.

(** ** Lemmas: the stream *)

Lemma first_rows_app known rs1 rs2 :
  first_rows known (rs1 ++ rs2) = first_rows known rs1 ++ first_rows (rev (r_cells <$> first_rows known rs1) ++ known) rs2.
Proof.
  revert known. induction rs1 as [|r rs1 IH]; intros known; [done|]. cbn [app first_rows].
  case_decide; [apply IH|]. cbn [app fmap list_fmap rev]. rewrite <- app_assoc. f_equal. apply IH.
Qed.
Lemma first_rows_ext k1 k2 rs : (∀ r, r ∈ k1 ↔ r ∈ k2) → first_rows k1 rs = first_rows k2 rs.
Proof.
  revert k1 k2. induction rs as [|r rs IH]; intros k1 k2 E; [done|]. cbn [first_rows].
  destruct (decide (r_cells r ∈ k1)) as [H1|H1].
  - rewrite decide_True by by apply E. by apply IH.
  - rewrite decide_False by (by rewrite <- E). f_equal. apply IH. intros r'. by rewrite !elem_of_cons, E.
Qed.

(** The keys remembered are those of the rows known so far. *)
Definition knows (ts : list DataType) (seen : gset (list Z)) (known : list (list (option Cell))) : Prop :=
  (∀ r, r ∈ known → Forall2 cell_has_type r ts ∧ Forall cell_fits r) ∧
  ∀ k, k ∈ seen ↔ ∃ r, r ∈ known ∧ k = row_key r.

Lemma knows_test ts seen known r :
  knows ts seen known → Forall2 cell_has_type r ts → Forall cell_fits r →
  row_key r ∈ seen ↔ r ∈ known.
Proof.
  intros [Hk Hs] Ht Hf. rewrite Hs. split; [|by exists r]. intros (r' & Hr' & E).
  destruct (Hk _ Hr'). by rewrite (row_key_inj ts r r').
Qed.
Lemma knows_add ts seen known r :
  knows ts seen known → Forall2 cell_has_type r ts → Forall cell_fits r →
  knows ts ({[ row_key r ]} ∪ seen) (r :: known).
Proof.
  intros [Hk Hs] Ht Hf. split.
  - intros r' [->|Hr']%elem_of_cons; auto.
  - intros k. rewrite elem_of_union, elem_of_singleton, Hs. split.
    + intros [->|(r' & Hr' & ->)]; [exists r|exists r']; split; [by left|done|by right|done].
    + intros (r' & [->|Hr']%elem_of_cons & ->); [by left|right; eauto].
Qed.

Lemma distinct_row_eq b seen sel idx :
  distinct_row b (seen, sel) idx =
  (key ← buildKey b (Z.to_nat idx);
   if decide (key ∈ seen) then Ret (seen, sel) else Ret ({[ key ]} ∪ seen, sel ++ [to_u16 idx])).
Proof. done. Qed.

(** The rows of a batch a loop over indices [idxs] keeps. *)
Lemma distinct_loop tys D b known seen idxs sel0 :
  batch_ok tys D b → knows tys seen known →
  Forall (λ x, (0 ≤ x < 2 ^ 16) ∧ (Z.to_nat x < evalLen b)%nat ∧ row_fits (row_at b (Z.to_nat x))) idxs →
  ∃ seen' sel, foldM (distinct_row b) (seen, sel0) idxs = Ret (seen', sel0 ++ sel) ∧
    let out := first_rows known (row_at b <$> (Z.to_nat <$> idxs)) in
    row_at b <$> (Z.to_nat <$> sel) = out ∧ knows tys seen' (rev (r_cells <$> out) ++ known) ∧
    Forall (λ x, x ∈ idxs) sel ∧ (length sel ≤ length idxs)%nat.
Proof.
  intros Hb Hk Hidx. revert known seen sel0 Hk.
  induction Hidx as [|x idxs (H0 & Hx & Hf) _ IH]; intros known seen sel0 Hk.
  { exists seen, []. rewrite app_nil_r. cbn. split; [done|]. split; [done|]. split; [exact Hk|]. split; [by apply List.Forall_nil|lia]. }
  cbn [foldM fmap list_fmap first_rows]. rewrite distinct_row_eq, (buildKey_spec tys D) by done. cbn [mbind go_bind].
  pose proof (batch_cells tys D b _ Hb Hx) as Ht.
  pose proof (knows_test tys seen known _ Hk Ht Hf) as Htest.
  destruct (decide (row_key (r_cells (row_at b (Z.to_nat x))) ∈ seen)) as [Hin|Hout]; cbn [mbind go_bind].
  - rewrite decide_True by by apply Htest. destruct (IH known seen sel0 Hk) as (seen' & sel & -> & Hrest).
    exists seen', sel. split; [done|]. destruct Hrest as (? & ? & Hs & ?). split; [done|]. split; [done|].
    split; [|cbn; lia]. eapply Forall_impl; [exact Hs|]. intros y Hy. by right.
  - rewrite decide_False by (by rewrite <- Htest).
    destruct (IH _ _ (sel0 ++ [to_u16 x]) (knows_add tys seen known _ Hk Ht Hf)) as (seen' & sel & -> & Hrest).
    rewrite wrapU_id in * by (split; lia). exists seen', (x :: sel). rewrite <- app_assoc. split; [done|].
    destruct Hrest as (Hrows & Hkn & Hs & Hl). cbn [fmap list_fmap]. split; [by f_equal|].
    split; [|split; [|cbn; lia]].
    + cbn [rev]. rewrite <- app_assoc. exact Hkn.
    + constructor; [by left|]. eapply Forall_impl; [exact Hs|]. intros y Hy. by right.
Qed.

Lemma distinct_body_spec tys D b known st :
  batch_wf tys D b → knows tys (seen st) known → Forall row_fits (rows_of b) →
  ∃ o st', distinct_body st b = Ret (o, st') ∧
    knows tys (seen st') (rev (r_cells <$> first_rows known (rows_of b)) ++ known) ∧
    match o with
    | Some b' => batch_wf tys D b' ∧ rows_of b' = first_rows known (rows_of b)
    | None => first_rows known (rows_of b) = []
    end.
Proof.
  intros Hb Hk Hf. pose proof Hb as (Hok & _ & _ & Hi & [Hm Hm'] & Hp). unfold distinct_body.
  set (idxs := match SelVec b with Some sel => sel | None => Z.of_nat <$> seq 0 (b_Length b) end).
  assert (Hidx : Z.to_nat <$> idxs = sel_rows b).
  { unfold idxs, sel_rows. destruct (SelVec b); [done|]. rewrite <- list_fmap_compose.
    rewrite (list_fmap_ext _ id); [by rewrite list_fmap_id|]. intros j y _. apply Nat2Z.id. }
  assert (Hpos : Forall (λ x, 0 ≤ x) idxs).
  { unfold idxs. destruct (SelVec b); [done|]. apply Forall_fmap, Forall_true. intros. simpl. lia. }
  assert (Hall : Forall (λ x, (0 ≤ x < 2 ^ 16) ∧ (Z.to_nat x < evalLen b)%nat ∧ row_fits (row_at b (Z.to_nat x))) idxs).
  { apply Forall_lookup. intros k x Hx. pose proof (Forall_lookup_1 _ _ _ _ Hpos Hx) as H0. simpl in H0.
    assert (Hsx : sel_rows b !! k = Some (Z.to_nat x)) by (rewrite <- Hidx, list_lookup_fmap, Hx; done).
    pose proof (Forall_lookup_1 _ _ _ _ Hi Hsx) as Hlt. simpl in Hlt. split; [lia|]. split; [done|].
    unfold rows_of in Hf. rewrite Forall_fmap in Hf. exact (Forall_lookup_1 _ _ _ _ Hf Hsx). }
  destruct (distinct_loop tys D b known (seen st) idxs [] Hok Hk Hall) as (seen' & sel & -> & Hrows & Hkn & Hs & Hl).
  cbn [app mbind go_bind]. rewrite Hidx in *. fold (rows_of b) in *.
  case_decide as He; (eexists _, _; split; [done|]; split; [done|]).
  - apply length_zero_iff_nil in He as ->. by rewrite <- Hrows.
  - split; [|by rewrite rows_with_sel]. apply with_sel_wf; [done| |].
    + eapply Forall_impl; [exact Hs|]. intros x Hx. rewrite Forall_forall in Hall.
      destruct (Hall x Hx) as (? & ? & _). simpl. lia.
    + rewrite <- Hidx, length_fmap. done.
Qed.

Lemma distinct_stream tys D bs st known :
  Forall (batch_wf tys D) bs → knows tys (seen st) known → Forall row_fits (all_rows bs) →
  ∃ out st', pull_stream st bs = Ret (out, st') ∧ Forall (batch_wf tys D) out ∧
    all_rows out = first_rows known (all_rows bs).
Proof.
  intros Hbs. revert st known. induction Hbs as [|b bs Hb _ IH]; intros st known Hk Hf; [by eexists _, _|].
  unfold all_rows in Hf. cbn [fmap list_fmap concat] in Hf. apply Forall_app in Hf as [Hfb Hf].
  cbn [pull_stream finished distinct_op body].
  destruct (distinct_body_spec tys D b known st Hb Hk Hfb) as (o & st' & -> & Hk' & Ho). cbn [mbind go_bind].
  destruct (IH st' _ Hk' Hf) as (out & st2 & -> & Hout & Hrows). cbn [mbind go_bind]. eexists _, _.
  split; [done|]. split; [destruct o as [b'|]; [destruct Ho; by constructor|done]|].
  unfold all_rows in *. cbn [fmap list_fmap concat]. rewrite first_rows_app, <- Hrows.
  destruct o as [b'|]; [destruct Ho as [_ <-]; done|by rewrite Ho].
Qed.

Lemma first_rows_NoDup known rs :
  NoDup (r_cells <$> first_rows known rs) ∧ ∀ r, r ∈ r_cells <$> first_rows known rs → r ∉ known.
Proof.
  revert known. induction rs as [|r rs IH]; intros known; cbn [first_rows].
  - split; [constructor|]. by intros r ?%elem_of_nil.
  - case_decide as Hr; [apply IH|]. destruct (IH (r_cells r :: known)) as [Hnd Hout]. cbn [fmap list_fmap]. split.
    + constructor; [|done]. intros Hin. destruct (Hout _ Hin). by left.
    + intros r' [->|Hin]%elem_of_cons; [done|]. intros Hk. destruct (Hout _ Hin). by right.
Qed.
Lemma first_rows_all known rs r :
  r ∈ r_cells <$> rs → r ∈ known ∨ r ∈ r_cells <$> first_rows known rs.
Proof.
  revert known. induction rs as [|r0 rs IH]; intros known; [by intros ?%elem_of_nil|].
  cbn [fmap list_fmap first_rows]. intros [->|Hin]%elem_of_cons; case_decide as Hr; [by left| | |].
  - right. by left.
  - by apply IH.
  - destruct (IH (r_cells r0 :: known) Hin) as [[->|Hk]%elem_of_cons|Hf]; [right; by left|by left|].
    right. by right.
Qed.

(** ** Property *)

(** C36: Distinct is SELECT DISTINCT.  Over a child whose rows hold what their Go
    types can, it delivers the first occurrence of each row and nothing else, in
    order and in well-formed batches, and ends as its child does: no two rows it
    delivers are equal, and every row of the child equals one it delivered.  So
    two rows never share a serialised key unless they are equal. *)
Theorem distinct_rows {S} `{Operator S} tys D (c : S) bs o :
  runs c bs o → Forall (batch_wf tys D) bs → Forall row_fits (all_rows bs) →
  ∃ out, runs (NewDistinct c) out o ∧ Forall (batch_wf tys D) out ∧
    all_rows out = first_rows [] (all_rows bs) ∧ NoDup (r_cells <$> all_rows out) ∧
    ∀ r, r ∈ r_cells <$> all_rows bs → r ∈ r_cells <$> all_rows out.
Proof.
  intros Hr Hbs Hf.
  destruct (distinct_stream tys D bs (mkDistinctState ∅) [] Hbs) as (out & st & E & Hout & Hrows); [|done|].
  { split; [by intros r ?%elem_of_nil|]. intros k. cbn [seen]. split; [set_solver|].
    by intros (r & ?%elem_of_nil & _). }
  exists out. split; [exact (pull_spec c (mkDistinctState ∅) bs o out st Hr E)|].
  split; [done|]. split; [done|]. rewrite Hrows. split; [apply first_rows_NoDup|].
  intros r Hin. destruct (first_rows_all [] _ _ Hin) as [?%elem_of_nil|]; done.
Qed.

Definition dup_batches : list Batch :=
  [mkBatch [] [Int64Vector [5; -3; 5; 7] [15]] 4 None; mkBatch [] [Int64Vector [7; 2; -3] [7]] 2 (Some [0; 1])].
Lemma distinct_rows_witness :
  ∃ out, runs (NewDistinct (given dup_batches)) out None ∧ Forall (batch_wf [TypeInt64] 0) out ∧
    all_rows out = first_rows [] (all_rows dup_batches) ∧ NoDup (r_cells <$> all_rows out) ∧
    ∀ r, r ∈ r_cells <$> all_rows dup_batches → r ∈ r_cells <$> all_rows out.
Proof.
  apply (distinct_rows [TypeInt64] 0 (given dup_batches) dup_batches None); [apply runs_given| |].
  - repeat constructor; try done; vm_compute; try lia; try done; repeat constructor; lia.
  - repeat constructor; vm_compute; done.
Defined.
