(* ===== verification/Sorting.v ===== *)
(** * Comparisons and a stable sort

    Orders given as a [comparison], closed under what the engine builds them
    from (lexicographic order, a direction, NULLs first), and the stable sort
    that Go's [sort.SliceStable] documents: the rows in order, equal rows in
    their original order.  The comparator may fail, as Go code can. *)
From Stdlib Require Import ZArith Lia Sorted.
From stdpp Require Import base numbers list sorting.
From S2P Require Import Prelude.
#[local] Open Scope Z_scope.

(** ** Comparisons *)

(** A total preorder: opposite arguments give the opposite answer, [Eq] rows are
    interchangeable and [Lt] is transitive. *)
Class GoodCmp {A} (cmp : A → A → comparison) : Prop := {
  cmp_opp a b : cmp b a = CompOpp (cmp a b);
  cmp_eq_l a b c : cmp a b = Eq → cmp a c = cmp b c;
  cmp_lt_trans a b c : cmp a b = Lt → cmp b c = Lt → cmp a c = Lt
}.

Section Good.
Context {A} (cmp : A → A → comparison) `{!GoodCmp cmp}.
Lemma cmp_refl a : cmp a a = Eq.
Proof using All. pose proof (cmp_opp a a) as H. destruct (cmp a a); simpl in H; congruence. Qed.
Lemma cmp_eq_r a b c : cmp b c = Eq → cmp a b = cmp a c.
Proof using All.
  intros H. rewrite (cmp_opp (cmp:=cmp) b a), (cmp_opp (cmp:=cmp) c a). f_equal. by apply cmp_eq_l.
Qed.
(** Not greater: the order a sorted list is in. *)
Definition cmp_le (a b : A) : Prop := cmp a b ≠ Gt.
Lemma cmp_le_trans a b c : cmp_le a b → cmp_le b c → cmp_le a c.
Proof using All.
  unfold cmp_le. intros Hab Hbc. destruct (cmp a b) eqn:Eab; [|destruct (cmp b c) eqn:Ebc|done].
  - by rewrite (cmp_eq_l a b c Eab).
  - by rewrite <- (cmp_eq_r a b c Ebc), Eab.
  - by rewrite (cmp_lt_trans a b c Eab Ebc).
  - done.
Qed.
Lemma cmp_le_total a b : cmp_le a b ∨ cmp_le b a.
Proof using All. unfold cmp_le. rewrite (cmp_opp (cmp:=cmp) a b). destruct (cmp a b); simpl; auto. Qed.
End Good.

#[export] Instance Z_compare_good : GoodCmp Z.compare.
Proof.
  split.
  - intros a b. apply Z.compare_antisym.
  - intros a b c ->%Z.compare_eq_iff. done.
  - intros a b c. rewrite !Z.compare_lt_iff. lia.
Qed.

(** Comparing through a function; the reverse direction; NULLs first. *)
Definition cmp_on {A B} (f : A → B) (cmp : B → B → comparison) (a b : A) : comparison := cmp (f a) (f b).
Definition cmp_dir {A} (desc : bool) (cmp : A → A → comparison) (a b : A) : comparison :=
  if desc then cmp b a else cmp a b.
Definition cmp_nulls {A} (cmp : A → A → comparison) (a b : option A) : comparison :=
  match a, b with
  | None, None => Eq
  | None, Some _ => Lt
  | Some _, None => Gt
  | Some a, Some b => cmp a b
  end.
#[export] Instance cmp_on_good {A B} (f : A → B) cmp : GoodCmp cmp → GoodCmp (cmp_on f cmp).
Proof. intros []. split; unfold cmp_on; eauto. Qed.
#[export] Instance cmp_dir_good {A} desc (cmp : A → A → comparison) : GoodCmp cmp → GoodCmp (cmp_dir desc cmp).
Proof.
  intros H. unfold cmp_dir. destruct desc; split; intros.
  - apply cmp_opp.
  - apply (cmp_eq_r cmp). by rewrite (cmp_opp (cmp:=cmp)), H0.
  - by apply (cmp_lt_trans c b a).
  - apply cmp_opp.
  - by apply cmp_eq_l.
  - by apply (cmp_lt_trans a b c).
Qed.
#[export] Instance cmp_nulls_good {A} (cmp : A → A → comparison) : GoodCmp cmp → GoodCmp (cmp_nulls cmp).
Proof.
  intros H. split.
  - intros [a|] [b|]; simpl; try done. apply cmp_opp.
  - intros [a|] [b|] [c|]; simpl; try done. apply cmp_eq_l.
  - intros [a|] [b|] [c|]; simpl; try done. apply cmp_lt_trans.
Qed.

(** One comparison, then another where it leaves a tie. *)
Definition cmp_then {A} (c1 c2 : A → A → comparison) (a b : A) : comparison :=
  match c1 a b with Eq => c2 a b | c => c end.
#[export] Instance cmp_then_good {A} (c1 c2 : A → A → comparison) :
  GoodCmp c1 → GoodCmp c2 → GoodCmp (cmp_then c1 c2).
Proof.
  intros H1 H2. unfold cmp_then. split.
  - intros a b. rewrite (cmp_opp (cmp:=c1) a b). destruct (c1 a b); simpl; [apply cmp_opp|done|done].
  - intros a b c. destruct (c1 a b) eqn:E; [|done..]. intros E2. rewrite (cmp_eq_l (cmp:=c1) a b c E).
    by rewrite (cmp_eq_l (cmp:=c2) a b c E2).
  - intros a b c. destruct (c1 a b) eqn:Eab; [|destruct (c1 b c) eqn:Ebc|done]; try done.
    + rewrite (cmp_eq_l (cmp:=c1) a b c Eab). destruct (c1 b c); [apply cmp_lt_trans|done..].
    + intros _ _. by rewrite <- (cmp_eq_r c1 a b c Ebc), Eab.
    + intros _ _. by rewrite (cmp_lt_trans (cmp:=c1) a b c Eab Ebc).
Qed.
#[export] Instance cmp_eq_good {A} : GoodCmp (λ _ _ : A, Eq).
Proof. by split. Qed.
(** The first of a list of comparisons that decides. *)
Definition cmp_first {A} (cmps : list (A → A → comparison)) : A → A → comparison :=
  foldr cmp_then (λ _ _, Eq) cmps.
#[export] Instance cmp_first_good {A} (cmps : list (A → A → comparison)) :
  TCForall GoodCmp cmps → GoodCmp (cmp_first cmps).
Proof. induction 1; apply _. Qed.
Lemma cmp_first_Forall {A} (cmps : list (A → A → comparison)) :
  Forall GoodCmp cmps → GoodCmp (cmp_first cmps).
Proof. induction 1; [apply cmp_eq_good|by apply cmp_then_good]. Qed.

(** Bytes in lexicographic order: Go's order of strings. *)
Fixpoint lex (a b : list Z) : comparison :=
  match a, b with
  | [], [] => Eq
  | [], _ :: _ => Lt
  | _ :: _, [] => Gt
  | x :: a, y :: b => match x ?= y with Eq => lex a b | c => c end
  end.
#[export] Instance lex_good : GoodCmp lex.
Proof.
  split.
  - induction a as [|x a IH]; intros [|y b]; simpl; try done.
    rewrite (Z.compare_antisym x y). destruct (x ?= y); simpl; auto.
  - induction a as [|x a IH]; intros [|y b] [|z c]; simpl; try done.
    destruct (x ?= y) eqn:E; [|done..]. intros E2. apply Z.compare_eq_iff in E as ->.
    destruct (y ?= z); auto.
  - induction a as [|x a IH]; intros [|y b] [|z c]; simpl; try done.
    destruct (x ?= y) eqn:E; [|destruct (y ?= z) eqn:E2|done]; try done.
    + apply Z.compare_eq_iff in E as ->. destruct (y ?= z); eauto.
    + apply Z.compare_eq_iff in E2 as ->. by rewrite E.
    + intros _ _. by rewrite (cmp_lt_trans x y z E E2).
Qed.
Lemma lex_eq a b : lex a b = Eq ↔ a = b.
Proof.
  revert b. induction a as [|x a IH]; intros [|y b]; simpl; try done.
  destruct (x ?= y) eqn:E; [apply Z.compare_eq_iff in E as ->|..].
  - rewrite IH. split; [by intros ->|by injection 1].
  - split; [done|]. intros [= -> ->]. by rewrite Z.compare_refl in E.
  - split; [done|]. intros [= -> ->]. by rewrite Z.compare_refl in E.
Qed.

(** ** The sort *)

(** [x] goes before the first element that is not less than it. *)
Fixpoint insertStable {A} (less : A → A → go bool) (x : A) (l : list A) : go (list A) :=
  match l with
  | [] => Ret [x]
  | y :: l =>
      b ← less y x;
      if (b : bool) then r ← insertStable less x l; Ret (y :: r) else Ret (x :: y :: l)
  end.
Fixpoint SliceStable {A} (less : A → A → go bool) (l : list A) : go (list A) :=
  match l with
  | [] => Ret []
  | x :: l => r ← SliceStable less l; insertStable less x r
  end.

Section SortSpec.
Context {A} (cmp : A → A → comparison) (Hcmp : GoodCmp cmp).
Definition is_lt (c : comparison) : bool := match c with Lt => true | _ => false end.

Fixpoint insert_by (x : A) (l : list A) : list A :=
  match l with
  | [] => [x]
  | y :: l => if is_lt (cmp y x) then y :: insert_by x l else x :: y :: l
  end.
Definition sort_by (l : list A) : list A := foldr insert_by [] l.

Lemma insert_by_perm x l : insert_by x l ≡ₚ x :: l.
Proof.
  induction l as [|y l IH]; [done|]. cbn [insert_by]. destruct (is_lt _); [|done]. rewrite IH. constructor.
Qed.
Lemma sort_by_perm l : sort_by l ≡ₚ l.
Proof. induction l as [|x l IH]; [done|]. cbn. by rewrite insert_by_perm, IH. Qed.

Lemma insert_by_sorted x l : StronglySorted (cmp_le cmp) l → StronglySorted (cmp_le cmp) (insert_by x l).
Proof using All.
  induction 1 as [|y l Hs IH Hy]; cbn [insert_by]; [repeat constructor|].
  destruct (cmp y x) eqn:E; cbn [is_lt]; constructor; try done.
  - by constructor.
  - constructor; [unfold cmp_le; rewrite cmp_opp, E; done|].
    eapply Forall_impl; [done|]. intros z Hz. eapply cmp_le_trans; [done| |done].
    unfold cmp_le. by rewrite cmp_opp, E.
  - rewrite insert_by_perm. constructor; [unfold cmp_le; by rewrite E|done].
  - by constructor.
  - constructor; [unfold cmp_le; rewrite cmp_opp, E; done|].
    eapply Forall_impl; [done|]. intros z Hz. eapply cmp_le_trans; [done| |done].
    unfold cmp_le. by rewrite cmp_opp, E.
Qed.
Lemma sort_by_sorted l : StronglySorted (cmp_le cmp) (sort_by l).
Proof using All. induction l; [constructor|by apply insert_by_sorted]. Qed.

(** Equal elements keep their order. *)
Lemma insert_by_stable a x l :
  filter (λ y, cmp a y = Eq) (insert_by x l) = filter (λ y, cmp a y = Eq) (x :: l).
Proof using All.
  induction l as [|y l IH]; [done|]. cbn [insert_by]. destruct (cmp y x) eqn:E; cbn [is_lt]; [done| |done].
  rewrite filter_cons, IH, !filter_cons.
  destruct (decide (cmp a y = Eq)) as [Hy|Hy], (decide (cmp a x = Eq)) as [Hx|Hx]; try done.
  rewrite (cmp_eq_l a y x Hy), E in Hx. done.
Qed.
Lemma sort_by_stable a l : filter (λ y, cmp a y = Eq) (sort_by l) = filter (λ y, cmp a y = Eq) l.
Proof using All.
  induction l as [|x l IH]; [done|]. cbn [sort_by foldr]. rewrite insert_by_stable, !filter_cons.
  fold (sort_by l). by rewrite IH.
Qed.

(** A failing comparator on representations [f] of elements that satisfy [P],
    where it computes the comparison, sorts them. *)
Lemma SliceStable_fmap {B} (less : B → B → go bool) (f : A → B) (P : A → Prop) l :
  (∀ a b, P a → P b → less (f a) (f b) = Ret (is_lt (cmp a b))) → Forall P l →
  SliceStable less (f <$> l) = Ret (f <$> sort_by l).
Proof.
  intros Hless. assert (Hins : ∀ x l, P x → Forall P l → insertStable less (f x) (f <$> l) = Ret (f <$> insert_by x l)).
  { intros x l' Hx. induction 1 as [|y l' Hy Hl IH]; [done|]. cbn [fmap list_fmap insertStable insert_by].
    rewrite Hless by done. cbn [mbind go_bind]. destruct (is_lt _); [|done].
    change (list_fmap A B f l') with (f <$> l'). by rewrite IH. }
  induction 1 as [|x l Hx Hl IH]; [done|]. cbn [fmap list_fmap SliceStable sort_by foldr].
  change (list_fmap A B f l) with (f <$> l). rewrite IH. cbn [mbind go_bind].
  fold (sort_by l). apply Hins; [done|]. by rewrite sort_by_perm.
Qed.
End SortSpec.
