(* ===== verification/Emit.v ===== *)
(** * Package exec: building a column row by row

    Sort, aggregation and joins build their output columns in one way: zeroed
    values beside a zeroed bitmap, then for each row that is not NULL a store and
    a valid bit.  These lemmas turn what one step of such a loop does into the
    column the loop builds, columns into a batch of rows, and a [Next] that emits
    1024 rows at a time into the stream of all rows. *)
From Stdlib Require Import ZArith Lia ZifyNat.
From stdpp Require Import base numbers list strings gmap.
From S2P Require Import Prelude Encoding Codec Float64 Schema Writer Reader Batch Scratch VExpr VKernel VCase VExprSpec Operator.
#[local] Open Scope Z_scope.
#[local] Hint Resolve size_bits size_index : core.

(** Entries and bytes that a cell may add to a dictionary. *)
Definition cell_weight (c : option Cell) : Z :=
  match c with Some (CStr s) => 1 + Z.of_nat (strlen s) | _ => 0 end.
Definition weight (cs : list (option Cell)) : Z := foldr Z.add 0 (map cell_weight cs).

Lemma cell_weight_ge0 c : 0 ≤ cell_weight c.
Proof. destruct c as [[]|]; simpl; lia. Qed.
Lemma weight_cons c cs : weight (c :: cs) = cell_weight c + weight cs.
Proof. done. Qed.
Lemma weight_app cs1 cs2 : weight (cs1 ++ cs2) = weight cs1 + weight cs2.
Proof. induction cs1 as [|c cs IH]; [done|]. rewrite <- app_comm_cons, !weight_cons, IH. lia. Qed.
Lemma weight_ge0 cs : 0 ≤ weight cs.
Proof. induction cs as [|c cs IH]; [done|]. rewrite weight_cons. pose proof (cell_weight_ge0 c). lia. Qed.
Lemma weight_take k cs : weight (take k cs) ≤ weight cs.
Proof. rewrite <- (take_drop k cs) at 2. rewrite weight_app. pose proof (weight_ge0 (drop k cs)). lia. Qed.
Lemma weight_drop k cs : weight (drop k cs) ≤ weight cs.
Proof. rewrite <- (take_drop k cs) at 2. rewrite weight_app. pose proof (weight_ge0 (take k cs)). lia. Qed.
#[export] Instance weight_perm : Proper ((≡ₚ) ==> eq) weight.
Proof. induction 1; rewrite ?weight_cons in *; lia. Qed.

(** The bitmap starts all NULL, or with every row valid ([full]), and only the
    rows that differ are marked. *)
Definition bitmap0 (n : nat) (full : bool) : list Z :=
  if full then FullBitmap n else replicate (bitmapSize n) 0.
Definition mark (full valid : bool) (nb : list Z) (i : nat) : list Z :=
  if eqb full valid then nb else bm_set valid nb i.
Lemma length_bitmap0 n full : length (bitmap0 n full) = bitmapSize n.
Proof. destruct full; [apply length_FullBitmap|apply length_replicate]. Qed.
Lemma bit_bitmap0 n full i : (i < n)%nat → bit_valid (bitmap0 n full) i = full.
Proof.
  intros Hi. destruct full; cbn [bitmap0]; [|apply bit_valid_zeros].
  rewrite bit_valid_FullBitmap. by rewrite bool_decide_true.
Qed.
Lemma length_mark full valid nb i : length (mark full valid nb i) = length nb.
Proof. unfold mark. destruct (eqb _ _); [done|apply length_bm_set]. Qed.
Lemma bit_mark n full valid nb i j :
  length nb = bitmapSize n → (i < n)%nat → bit_valid nb i = full →
  bit_valid (mark full valid nb i) j = if decide (j = i) then valid else bit_valid nb j.
Proof.
  intros Hl Hi Hb. pose proof (size_index n i Hi). unfold mark. destruct (eqb_spec full valid) as [->|Hne].
  - case_decide; [by subst|done].
  - apply bit_valid_bm_set. lia.
Qed.

Section Emit.
Context {R : Type} (rows : list R) (cs : list (option Cell)).
Context (Hlen : length cs = length rows).
Abbreviation n := (length rows).
Abbreviation size := (bitmapSize n).
Definition at_ (i : nat) : option Cell := default None (cs !! i).

(** Values in a list of words. *)
Definition word_step (full : bool) (mkC : Z → Cell) (step : list Z * list Z → nat * R → go (list Z * list Z)) : Prop :=
  ∀ i r c vals nb, rows !! i = Some r → cs !! i = Some c → length vals = n → length nb = size →
    match c with
    | None => step (vals, nb) (i, r) = Ret (vals, mark full false nb i)
    | Some c => ∃ x, c = mkC x ∧ step (vals, nb) (i, r) = Ret (<[i:=x]> vals, mark full true nb i)
    end.
Lemma emit_words full t mkV mkC step :
  fixed t mkV mkC → word_step full mkC step →
  ∃ vals nb, foldM step (replicate n 0, bitmap0 n full) (enum rows) = Ret (vals, nb) ∧
    column (mkV vals nb) t n at_.
Proof using Hlen.
  intros Hf Hstep.
  destruct (foldM_enum_ind step (λ k '(vals, nb), length vals = n ∧ length nb = size ∧
    ∀ i, (i < n)%nat → if decide (i < k)%nat
      then ∀ x, vals !! i = Some x → at_ i = if bit_valid nb i then Some (mkC x) else None
      else bit_valid nb i = full) rows (replicate n 0, bitmap0 n full)) as ([vals nb] & E & Hv & Hn & Hc).
  - rewrite length_replicate, length_bitmap0. split; [done|]. split; [done|]. intros i Hi. rewrite decide_False by lia.
    by apply bit_bitmap0.
  - intros k r [vals nb] Hr (Hv & Hn & Hc). pose proof (lookup_lt_Some _ _ _ Hr) as Hk.
    destruct (lookup_lt_is_Some_2 cs k) as [c Ec]; [lia|].
    pose proof (Hc k Hk) as Hbk. rewrite decide_False in Hbk by lia.
    specialize (Hstep k r c vals nb Hr Ec Hv Hn). destruct c as [c|].
    + destruct Hstep as (x & -> & ->). eexists. split; [done|]. cbv beta iota. rewrite length_insert, length_mark.
      split; [done|]. split; [done|]. intros i Hi. specialize (Hc i Hi).
      rewrite (bit_mark n) by done. destruct (decide (i = k)) as [->|Hne].
      * rewrite decide_True by lia. rewrite list_lookup_insert_eq by lia. intros y [= <-].
        unfold at_. by rewrite Ec.
      * rewrite list_lookup_insert_ne by done. do 2 case_decide; (done || lia).
    + rewrite Hstep. eexists. split; [done|]. cbv beta iota. rewrite length_mark. split; [done|]. split; [done|].
      intros i Hi. specialize (Hc i Hi). rewrite (bit_mark n) by done.
      destruct (decide (i = k)) as [->|Hne]; [|do 2 case_decide; (done || lia)].
      rewrite decide_True by lia. intros y _. unfold at_. by rewrite Ec.
  - exists vals, nb. split; [done|]. apply (column_fixed _ _ _ _ _ _ Hf). exists vals, nb.
    split; [done|]. split; [done|]. rewrite Hn. split; [auto|]. intros i x Hx.
    assert (Hi : (i < n)%nat) by (apply lookup_lt_Some in Hx; lia). specialize (Hc i Hi).
    rewrite decide_True in Hc by done. by apply Hc.
Qed.

(** Bits in a bitmap. *)
Definition bit_step (full : bool) (step : list Z * list Z → nat * R → go (list Z * list Z)) : Prop :=
  ∀ i r c bits nb, rows !! i = Some r → cs !! i = Some c → length bits = size → length nb = size →
    match c with
    | None => step (bits, nb) (i, r) = Ret (bits, mark full false nb i)
    | Some c => ∃ x, c = CBool x ∧ step (bits, nb) (i, r) = Ret (bm_set x bits i, mark full true nb i)
    end.
Lemma emit_bits full step :
  bit_step full step →
  ∃ bits nb, foldM step (replicate size 0, bitmap0 n full) (enum rows) = Ret (bits, nb) ∧
    column (BoolVector bits nb n) TypeBool n at_.
Proof using Hlen.
  intros Hstep.
  destruct (foldM_enum_ind step (λ k '(bits, nb), length bits = size ∧ length nb = size ∧
    ∀ i, (i < n)%nat → if decide (i < k)%nat then at_ i = CBool <$> tri_at bits nb i
      else bit_valid nb i = full) rows (replicate size 0, bitmap0 n full)) as ([bits nb] & E & Hv & Hn & Hc).
  - rewrite length_replicate, length_bitmap0. split; [done|]. split; [done|]. intros i Hi. rewrite decide_False by lia.
    by apply bit_bitmap0.
  - intros k r [bits nb] Hr (Hv & Hn & Hc). pose proof (lookup_lt_Some _ _ _ Hr) as Hk.
    destruct (lookup_lt_is_Some_2 cs k) as [c Ec]; [lia|]. pose proof (size_index n k Hk).
    pose proof (Hc k Hk) as Hbk. rewrite decide_False in Hbk by lia.
    specialize (Hstep k r c bits nb Hr Ec Hv Hn). destruct c as [c|].
    + destruct Hstep as (x & -> & ->). eexists. split; [done|]. cbv beta iota. rewrite length_bm_set, length_mark.
      split; [done|]. split; [done|]. intros i Hi. specialize (Hc i Hi). unfold tri_at in *.
      rewrite (bit_mark n) by done. rewrite bit_valid_bm_set by lia. destruct (decide (i = k)) as [->|Hne].
      * rewrite decide_True by lia. unfold at_. by rewrite Ec.
      * do 2 case_decide; (done || lia).
    + rewrite Hstep. eexists. split; [done|]. cbv beta iota. rewrite length_mark. split; [done|]. split; [done|].
      intros i Hi. specialize (Hc i Hi). unfold tri_at in *. rewrite (bit_mark n) by done.
      destruct (decide (i = k)) as [->|Hne]; [|do 2 case_decide; (done || lia)].
      rewrite decide_True by lia. unfold at_. by rewrite Ec.
  - exists bits, nb. split; [done|]. apply column_bool. exists bits, nb.
    rewrite Hn, Hv. split; [done|]. split; [auto|]. split; [auto|]. intros i Hi. specialize (Hc i Hi).
    by rewrite decide_True in Hc by lia.
Qed.

(** Strings through a dictionary. *)
Definition str_step (step : DictBuilder * list Z * list Z → nat * R → go (DictBuilder * list Z * list Z)) : Prop :=
  ∀ i r c db codes nb, rows !! i = Some r → cs !! i = Some c → length codes = n → length nb = size →
    match c with
    | None => step (db, codes, nb) (i, r) = Ret (db, codes, nb)
    | Some c => ∃ s, c = CStr s ∧
        step (db, codes, nb) (i, r) = Ret ((Add db s).2, <[i:=(Add db s).1]> codes, bm_set true nb i)
    end.
Lemma Add_weight db s :
  db_wf db → Z.of_nat (length (db_keys db) + length (dict_data (db_keys db))) + cell_weight (Some (CStr s)) < 2 ^ 32 →
  db_wf (Add db s).2 ∧ (∃ i, (Add db s).1 = Z.of_nat i ∧ db_keys (Add db s).2 !! i = Some s) ∧
  db_keys db `prefix_of` db_keys (Add db s).2 ∧
  Z.of_nat (length (db_keys (Add db s).2) + length (dict_data (db_keys (Add db s).2)))
    ≤ Z.of_nat (length (db_keys db) + length (dict_data (db_keys db))) + cell_weight (Some (CStr s)).
Proof.
  intros Hwf Hb. cbn [cell_weight] in *. destruct (Add_wf db s Hwf) as [Hwf' Hi]; [lia|].
  split; [done|]. split; [done|]. rewrite Add_keys by done. case_decide; [split; [done|lia]|].
  split; [by exists [s]|]. rewrite dict_data_app, !length_app. unfold dict_data at 2. cbn [fmap list_fmap concat length].
  rewrite app_nil_r. change (length (bytes_of s)) with (strlen s). lia.
Qed.
Lemma emit_strs step :
  str_step step → weight cs < 2 ^ 32 →
  ∃ db codes nb v, foldM step (NewDictBuilder, replicate n 0, replicate size 0) (enum rows) = Ret (db, codes, nb) ∧
    newStringVector db codes nb = Ret v ∧ column v TypeString n at_ ∧ dict_size v ≤ weight cs.
Proof using Hlen.
  intros Hstep Hw.
  destruct (foldM_enum_ind step (λ k '(db, codes, nb), length codes = n ∧ length nb = size ∧ db_wf db ∧
    Z.of_nat (length (db_keys db) + length (dict_data (db_keys db))) ≤ weight (take k cs) ∧
    ∀ i, if decide (i < k)%nat
      then match at_ i with
           | None => bit_valid nb i = false
           | Some c => bit_valid nb i = true ∧ ∃ j s, c = CStr s ∧ codes !! i = Some (Z.of_nat j) ∧ db_keys db !! j = Some s
           end
      else bit_valid nb i = false) rows (NewDictBuilder, replicate n 0, replicate size 0))
    as ([[db codes] nb] & E & Hv & Hn & Hdb & Hdw & Hc).
  - rewrite !length_replicate, take_0. split_and!; [done|done|apply db_wf_new|done|]. intros i.
    rewrite decide_False by lia. apply bit_valid_zeros.
  - intros k r [[db codes] nb] Hr (Hv & Hn & Hdb & Hdw & Hc). pose proof (lookup_lt_Some _ _ _ Hr) as Hk.
    destruct (lookup_lt_is_Some_2 cs k) as [c Ec]; [lia|]. pose proof (size_index n k Hk).
    assert (Hws : weight (take (S k) cs) = weight (take k cs) + cell_weight c).
    { rewrite (take_S_r _ _ _ Ec), weight_app. unfold weight at 2. simpl. lia. }
    specialize (Hstep k r c db codes nb Hr Ec Hv Hn). destruct c as [c|].
    + destruct Hstep as (s & -> & ->). pose proof (weight_take (S k) cs).
      destruct (Add_weight db s Hdb) as (Hdb' & (j & Hj & Hjk) & Hpre & Hsz); [lia|].
      eexists. split; [done|]. cbv beta iota. rewrite length_insert, length_bm_set.
      split_and!; [done|done|done|lia|]. intros i. specialize (Hc i).
      rewrite bit_valid_bm_set by lia. destruct (decide (i = k)) as [->|Hne].
      * rewrite decide_True by lia. unfold at_. rewrite Ec. cbn [default]. split; [done|].
        exists j, s. rewrite list_lookup_insert_eq, Hj by lia. done.
      * rewrite list_lookup_insert_ne by done. do 2 case_decide; try (done || lia).
        destruct (at_ i); [|done]. destruct Hc as (? & j' & s' & ? & ? & ?). split; [done|].
        exists j', s'. split_and!; [done..|]. by eapply prefix_lookup_Some.
    + rewrite Hstep. eexists. split; [done|]. rewrite Hws. cbn [cell_weight]. split_and!; [done|done|done|lia|].
      intros i. specialize (Hc i).
      destruct (decide (i = k)) as [->|Hne]; [|do 2 case_decide; (done || lia)].
      rewrite decide_True by lia. rewrite decide_False in Hc by lia. unfold at_. by rewrite Ec.
  - rewrite take_ge in Hdw by lia. assert (Hf : dict_fits (db_keys db)) by (split; lia).
    exists db, codes, nb. eexists. split; [done|]. split; [by apply newStringVector_fits|].
    split; [|rewrite dict_size_keys; lia]. apply column_string. eexists _, _, _. split; [done|].
    rewrite Hn. split; [done|]. split; [auto|]. split.
    + intros i Hi Hb. specialize (Hc i). rewrite decide_True in Hc by lia.
      destruct (at_ i); [|done]. destruct Hc as [Hc _]. congruence.
    + exists (db_keys db). split; [by apply db_wf_NoDup|]. split; [done|]. split; [apply dict_inv_fresh|].
      intros i Hi Hb. specialize (Hc i). rewrite decide_True in Hc by lia.
      destruct (at_ i); [|congruence]. destruct Hc as (_ & j & s & -> & ? & ?). eauto.
Qed.
End Emit.

(** ** Columns as a batch of rows *)

(** The cells of one column of a list of rows. *)
Definition col_at (c : nat) (rs : list (list (option Cell))) : list (option Cell) :=
  (λ r, default None (r !! c)) <$> rs.
#[export] Instance col_at_perm c : Proper ((≡ₚ) ==> (≡ₚ)) (col_at c).
Proof. intros rs rs' E. unfold col_at. by rewrite E. Qed.
Lemma weight_col_take c k rs : weight (col_at c (take k rs)) ≤ weight (col_at c rs).
Proof. unfold col_at. rewrite fmap_take. apply weight_take. Qed.
Lemma weight_col_drop c k rs : weight (col_at c (drop k rs)) ≤ weight (col_at c rs).
Proof. unfold col_at. rewrite fmap_drop. apply weight_drop. Qed.

(** [vecs] are the columns of [rs]. *)
Definition columns_of (tys : list DataType) (W : Z) (rs : list (list (option Cell))) (vecs : list Vector) : Prop :=
  Forall2 (λ v '(c, t), column v t (length rs) (at_ (col_at c rs)) ∧ dict_size v ≤ W) vecs (enum tys).
Definition whole (b : Batch) : Prop := SelVec b = None ∧ (b_Length b ≤ BlockRows)%nat.

Lemma columns_batch schema tys W rs vecs :
  columns_of tys W rs vecs → tys ≠ [] → Forall (λ r, length r = length tys) rs → (length rs ≤ BlockRows)%nat → 0 ≤ W →
  let b := mkBatch schema vecs (length rs) None in
  batch_wf tys W b ∧ whole b ∧ r_cells <$> rows_of b = rs.
Proof.
  intros Hvecs Hne Hrs Hlen HW b.
  assert (Hlook : ∀ c v, vecs !! c = Some v → ∃ t, tys !! c = Some t ∧
    column v t (length rs) (at_ (col_at c rs)) ∧ dict_size v ≤ W).
  { intros c v Hv. destruct (Forall2_lookup_l _ _ _ _ _ Hvecs Hv) as ([c' t] & [Ec Et]%lookup_enum & H).
    simpl in *. subst c'. eauto. }
  pose proof (Forall2_length _ _ _ Hvecs) as Hlv. rewrite length_enum in Hlv.
  assert (Hok : batch_ok tys W b).
  { split; [done|]. apply Forall2_same_length_lookup. split; [done|]. intros c v t Hv Ht.
    destruct (Hlook c v Hv) as (t' & Ht' & (? & ? & ? & _) & ?). replace t' with t in * by congruence.
    cbn [evalLen SelVec b_Length]. done. }
  split; [|split; [done|]].
  - split; [done|]. unfold sel_rows, evalLen. cbn [b Vectors SelVec b_Length].
    rewrite length_seq. split; [by destruct vecs, tys|]. split; [done|]. split.
    + apply Forall_forall. intros i Hi%elem_of_seq. lia.
    + split; [|done]. change BlockRows with 1024%nat in Hlen. lia.
  - apply list_eq. intros i. unfold rows_of, sel_rows. cbn [b SelVec b_Length]. rewrite !list_lookup_fmap.
    destruct (decide (i < length rs)%nat) as [Hi|]; [|by rewrite lookup_seq_ge, lookup_ge_None_2 by lia].
    rewrite lookup_seq_lt by done. destruct (lookup_lt_is_Some_2 rs i Hi) as [r Er]. rewrite Er.
    cbn [fmap option_fmap option_map]. f_equal. apply list_eq. intros c. cbn [row_at r_cells Vectors Nat.add].
    change (Vectors b) with vecs. rewrite list_lookup_fmap. pose proof (Forall_lookup_1 _ _ _ _ Hrs Er) as Hlr. simpl in Hlr.
    destruct (vecs !! c) as [v|] eqn:Ev.
    + destruct (Hlook c v Ev) as (t & Ht & (_ & _ & _ & Hcell) & _). cbn [fmap option_fmap option_map].
      destruct (lookup_lt_is_Some_2 r c) as [x Ex]; [apply lookup_lt_Some in Ht; lia|]. rewrite Ex, Hcell by done.
      unfold at_, col_at. by rewrite list_lookup_fmap, Er; cbn; rewrite Ex.
    + symmetry. apply lookup_ge_None_2. apply lookup_ge_None_1 in Ev. lia.
Qed.

(** ** Emitting 1024 rows at a time *)

Lemma chunks_run {S} `{Operator S} tys W (rs : list (list (option Cell))) (st : nat → S) :
  (∀ p, (length rs ≤ p)%nat → next_is (st p) (Ret None) (st p)) →
  (∀ p, (p < length rs)%nat → let e := Nat.min (p + BlockRows) (length rs) in
     ∃ b, next_is (st p) (Ret (Some b)) (st e) ∧ batch_wf tys W b ∧ whole b ∧
       r_cells <$> rows_of b = take (e - p) (drop p rs)) →
  ∃ out, runs (st 0%nat) out None ∧ Forall (batch_wf tys W) out ∧ Forall whole out ∧ r_cells <$> all_rows out = rs.
Proof.
  intros Hend Hstep. cut (∀ m p, (length rs - p ≤ m)%nat → ∃ out, runs (st p) out None ∧
    Forall (batch_wf tys W) out ∧ Forall whole out ∧ r_cells <$> all_rows out = drop p rs).
  { intros C. exact (C (length rs) 0%nat ltac:(lia)). }
  assert (HB : BlockRows = 1024%nat) by done.
  induction m as [|m IH]; intros p Hp.
  { exists []. rewrite drop_ge by lia. split; [|done]. eapply runs_end, Hend. lia. }
  destruct (decide (length rs ≤ p)%nat) as [Hle|Hgt]; [apply IH; lia|].
  destruct (Hstep p ltac:(lia)) as (b & Hn & Hwf & Hwh & Hrows). set (e := Nat.min (p + BlockRows) (length rs)) in *.
  destruct (IH e) as (out & Hout & Hwfs & Hwhs & Hall); [lia|]. exists (b :: out).
  split; [by eapply runs_batch|]. do 2 (split; [by constructor|]).
  unfold all_rows in *. cbn [fmap list_fmap concat]. rewrite fmap_app, Hrows, Hall.
  rewrite <- (take_drop (e - p) (drop p rs)) at 2. rewrite drop_drop. do 2 f_equal. lia.
Qed.
