(* ===== verification/Sort.v ===== *)
(** * Package exec: ExternalSort ([exec/sort.go])

    The operator drains its child into rows of raw words and strings, sorts them
    and emits batches of 1024.  The theorem: what it delivers is the stable sort
    of its child's rows under ORDER BY's comparison. *)
From Stdlib Require Import ZArith Lia ZifyNat Sorted.
From stdpp Require Import base numbers list strings gmap.
From S2P Require Import Prelude Encoding Codec Float64 Schema Writer Reader Batch Scratch VExpr VKernel VCase VExprSpec Operator Distinct Sorting Emit.
#[local] Open Scope Z_scope.

(** ** State *)

Record SortKey : Type := mkSortKey { ColIdx : nat; Descending : bool }.
Record sortRow : Type := mkSortRow { values : list Z; nulls : list bool; strValues : list string }.
(** The child's schema is the one read when the operator was built. *)
Record ExternalSort (S : Type) : Type := mkExternalSort {
  es_child : S; es_keys : list SortKey; es_schema : Schema;
  es_rows : list sortRow; es_done : bool; emitPos : nat
}.
Arguments mkExternalSort {S}.
Arguments es_child {S}. Arguments es_keys {S}. Arguments es_schema {S}.
Arguments es_rows {S}. Arguments es_done {S}. Arguments emitPos {S}.

Definition NewExternalSort {S} `{Operator S} (child : S) (keys : list SortKey) : go (ExternalSort S) :=
  if decide (length keys = 0)%nat then Err (ErrMsg "exec: sort: no sort keys")
  else Ret (mkExternalSort child keys (OpSchema child) [] false 0).

(** ** Consuming *)

(** One column of a row: NULL, or the string, or the raw word. *)
Definition sortCell (rowIdx : nat) (row : sortRow) (v : Vector) : go sortRow :=
  isnull ← IsNull v rowIdx;
  '(x, s) ← (if (isnull : bool) then Ret (0, ""%string) else
    match v with
    | StringVector codes dict _ => '(s, _) ← sv_Get codes dict rowIdx; Ret (0, s)
    | _ => x ← extractInt64 v rowIdx; Ret (x, ""%string)
    end);
  Ret (mkSortRow (values row ++ [x]) (nulls row ++ [isnull]) (strValues row ++ [s])).
Definition consumeRow (numCols : nat) (b : Batch) (rows : list sortRow) (rowIdx : nat) : go (list sortRow) :=
  row ← foldM (λ row c, v ← index (Vectors b) c; sortCell rowIdx row v) (mkSortRow [] [] []) (seq 0 numCols);
  Ret (rows ++ [row]).
Definition consumeBatch (numCols : nat) (rows : list sortRow) (b : Batch) : go (list sortRow) :=
  foldM (consumeRow numCols b) rows (sel_rows b).

(** ** Ordering *)

Definition string_gt (a b : string) : bool := is_lt (lex (bytes_of b) (bytes_of a)).
(** [less] over the keys left; ties go on to the next key. *)
Fixpoint less (schema : Schema) (keys : list SortKey) (a b : sortRow) : go bool :=
  match keys with
  | [] => Ret false
  | key :: keys =>
      let ci := ColIdx key in
      let desc := Descending key in
      aN ← index (nulls a) ci;
      bN ← index (nulls b) ci;
      if (aN : bool) && (bN : bool) then less schema keys a b else
      if aN then Ret true else if bN then Ret false else
      f ← index schema ci;
      match Type_ f with
      | TypeString =>
          sa ← index (strValues a) ci; sb ← index (strValues b) ci;
          if String.eqb sa sb then less schema keys a b else
          Ret (if desc then string_gt sa sb else string_gt sb sa)
      | TypeFloat64 =>
          x ← index (values a) ci; y ← index (values b) ci;
          let af := to_u64 x in let bf := to_u64 y in
          if f64_eq af bf || (f64_isNaN af && f64_isNaN bf) then less schema keys a b else
          if f64_isNaN af || f64_isNaN bf then Ret (negb (eqb (f64_isNaN bf) desc)) else
          Ret (if desc then f64_lt bf af else f64_lt af bf)
      | _ =>
          x ← index (values a) ci; y ← index (values b) ci;
          if x =? y then less schema keys a b else Ret (if desc then x >? y else x <? y)
      end
  end.

(** ** Emitting *)

(** The row loop of the word types, [conv] being the conversion from [int64]. *)
Definition emitWords (conv : Z → Z) (rows : list sortRow) (c : nat) : go (list Z * list Z) :=
  foldM (λ '(vals, nb) '(i, r),
      isnull ← index (nulls r) c;
      if (isnull : bool) then Ret (vals, nb) else
      x ← index (values r) c; vals ← store vals i (conv x); nb ← SetValidBit nb i; Ret (vals, nb))
    (replicate (length rows) 0, replicate (bitmapSize (length rows)) 0) (enum rows).
Definition emitColumn (rows : list sortRow) (c : nat) (t : DataType) : go Vector :=
  let n := length rows in
  match t with
  | TypeFloat64 => '(vals, nb) ← emitWords to_u64 rows c; Ret (Float64Vector vals nb)
  | TypeDate => '(vals, nb) ← emitWords to_i32 rows c; Ret (DateVector vals nb)
  | TypeString =>
      '(db, codes, nb) ← foldM (λ '(db, codes, nb) '(i, r),
          isnull ← index (nulls r) c;
          if (isnull : bool) then Ret (db, codes, nb) else
          s ← index (strValues r) c;
          let '(code, db) := Add db s in
          codes ← store codes i code; nb ← SetValidBit nb i; Ret (db, codes, nb))
        (NewDictBuilder, replicate n 0, replicate (bitmapSize n) 0) (enum rows);
      newStringVector db codes nb
  | TypeBool =>
      '(bits, nb) ← foldM (λ '(bits, nb) '(i, r),
          isnull ← index (nulls r) c;
          if (isnull : bool) then Ret (bits, nb) else
          x ← index (values r) c; bits ← bv_Set bits i (negb (x =? 0)); nb ← SetValidBit nb i; Ret (bits, nb))
        (replicate (bitmapSize n) 0, replicate (bitmapSize n) 0) (enum rows);
      Ret (BoolVector bits nb n)
  | TypeInt64 | TypeOther _ => '(vals, nb) ← emitWords (λ x, x) rows c; Ret (Int64Vector vals nb)
  end.
Definition emitBatch (schema : Schema) (rows : list sortRow) : go Batch :=
  vecs ← foldM (λ vecs '(c, f), v ← emitColumn rows c (Type_ f); Ret (vecs ++ [v])) [] (enum schema);
  Ret (mkBatch schema vecs (length rows) None).

(** ** Next *)

Section Next.
Context {S : Type} `{Operator S}.

Definition with_rows (s : ExternalSort S) (c : S) (rows : list sortRow) : ExternalSort S :=
  mkExternalSort c (es_keys s) (es_schema s) rows (es_done s) (emitPos s).
Definition consumeAndSort (fuel : nat) (s : ExternalSort S) : go () * ExternalSort S :=
  let '(r, rows, c) := drain (consumeBatch (length (es_schema s))) fuel fuel (es_child s) (es_rows s) in
  let s := with_rows s c rows in
  on_ret r s (λ _,
  on_ret (SliceStable (less (es_schema s) (es_keys s)) rows) s (λ rows,
  (Ret (), with_rows s c rows))).

Definition sort_emit (s : ExternalSort S) : go (option Batch) * ExternalSort S :=
  if decide (length (es_rows s) ≤ emitPos s)%nat then (Ret None, s) else
  let end_ := Nat.min (emitPos s + BlockRows) (length (es_rows s)) in
  on_ret (rows ← slice (es_rows s) (emitPos s) end_; emitBatch (es_schema s) rows) s (λ b,
  (Ret (Some b), mkExternalSort (es_child s) (es_keys s) (es_schema s) (es_rows s) (es_done s) end_)).
Definition sort_next (fuel : nat) (s : ExternalSort S) : go (option Batch) * ExternalSort S :=
  if es_done s then sort_emit s else
  let '(r, s) := consumeAndSort fuel s in
  on_ret r s (λ _,
  sort_emit (mkExternalSort (es_child s) (es_keys s) (es_schema s) (es_rows s) true (emitPos s))).
#[export] Instance sort_operator : Operator (ExternalSort S) := {
  Next := sort_next;
  OpSchema := es_schema
}.
End Next.

(** ** ORDER BY's comparison *)

(** NaN is above every number; strings compare by their bytes. *)
Definition num_key (c : Cell) : Z :=
  match c with
  | CInt x | CDate x => x
  | CBool b => if b then 1 else 0
  | CFloat x => if f64_isNaN x then 2 ^ 64 else f64_key x
  | CStr _ => 0
  end.
Definition str_key (c : Cell) : list Z := match c with CStr s => bytes_of s | _ => [] end.
Definition cell_cmp : Cell → Cell → comparison :=
  cmp_then (cmp_on num_key Z.compare) (cmp_on str_key lex).
(** NULLs come first in either direction. *)
Definition key_cmp (k : SortKey) : list (option Cell) → list (option Cell) → comparison :=
  cmp_on (λ r, default None (r !! ColIdx k)) (cmp_nulls (cmp_dir (Descending k) cell_cmp)).
Definition row_cmp (keys : list SortKey) : list (option Cell) → list (option Cell) → comparison :=
  cmp_first (key_cmp <$> keys).
#[export] Instance row_cmp_good keys : GoodCmp (row_cmp keys).
Proof.
  apply cmp_first_Forall, Forall_fmap, Forall_true. intros k. simpl.
  apply cmp_on_good, cmp_nulls_good, cmp_dir_good, cmp_then_good; apply cmp_on_good; apply _.
Qed.

(** The row the operator keeps for a row of cells. *)
Definition sort_cell (c : option Cell) : Z * bool * string :=
  match c with
  | None => (0, true, ""%string)
  | Some (CStr s) => (0, false, s)
  | Some c => (cell_word c, false, ""%string)
  end.
Definition sort_row (r : list (option Cell)) : sortRow :=
  mkSortRow ((λ c, (sort_cell c).1.1) <$> r) ((λ c, (sort_cell c).1.2) <$> r) ((λ c, (sort_cell c).2) <$> r).

(** ** Lemmas: consuming *)

Lemma sort_row_snoc r c :
  sort_row (r ++ [c]) = mkSortRow (values (sort_row r) ++ [(sort_cell c).1.1])
    (nulls (sort_row r) ++ [(sort_cell c).1.2]) (strValues (sort_row r) ++ [(sort_cell c).2]).
Proof. unfold sort_row. by rewrite !fmap_app. Qed.

Lemma sortCell_spec v t n f i r :
  column v t n f → (i < n)%nat → sortCell i (sort_row r) v = Ret (sort_row (r ++ [f i])).
Proof.
  intros Hc Hi. unfold sortCell. rewrite (column_IsNull _ _ _ _ _ Hc Hi), is_null_dec, sort_row_snoc. cbn [mbind go_bind].
  pose proof (column_has_type _ _ _ _ _ Hc Hi) as Ht. destruct (f i) as [c|] eqn:Ef; [|done]. cbn [cell_has_type] in Ht.
  destruct (decide (t = TypeString)) as [->|Hns].
  - destruct c as [| | |s|]; try done. pose proof Hc as (_ & Ev & _). destruct v as [| | |codes dict nb|]; try done.
    by destruct (sv_Get_spec _ _ _ _ _ _ _ Hc Hi Ef) as (d & ->).
  - pose proof (extractInt64_spec _ _ _ _ _ _ Hc Hi Ef Hns) as E. destruct Hc as (_ & Ev & _).
    destruct c; try (simpl in Ht; congruence); destruct v; try (simpl in Ev; congruence); by rewrite E.
Qed.

Lemma consumeRow_spec tys D b rows i :
  batch_ok tys D b → (i < evalLen b)%nat →
  consumeRow (length tys) b rows i = Ret (rows ++ [sort_row (r_cells (row_at b i))]).
Proof.
  intros (_ & Hvs) Hi. unfold consumeRow. pose proof (Forall2_length _ _ _ Hvs) as Hl.
  destruct (foldM_seq_ind (λ row c, v ← index (Vectors b) c; sortCell i row v)
    (λ k row, row = sort_row ((λ v, cell v i) <$> take k (Vectors b))) (length tys) (mkSortRow [] [] []))
    as (row & -> & ->); [done| |].
  - intros k row Hk ->. destruct (lookup_lt_is_Some_2 (Vectors b) k) as [v Hv]; [lia|].
    rewrite (index_Ret _ _ _ Hv). cbn [mbind go_bind].
    destruct (Forall2_lookup_l _ _ _ _ _ Hvs Hv) as (t & _ & Hok & Et & Hlen & _).
    rewrite (sortCell_spec v t (evalLen b) (cell v)) by (done || by apply column_self).
    eexists. split; [done|]. by rewrite (take_S_r _ _ _ Hv), fmap_app.
  - cbn [mbind go_bind]. by rewrite take_ge by lia.
Qed.
Lemma consumeBatch_spec tys D b rows :
  batch_wf tys D b →
  consumeBatch (length tys) rows b = Ret (rows ++ (sort_row <$> (r_cells <$> rows_of b))).
Proof.
  intros (Hok & _ & _ & Hi & _). unfold consumeBatch, rows_of. revert rows.
  induction Hi as [|i l Hi _ IH]; intros rows; [by rewrite app_nil_r|]. cbn [foldM].
  rewrite (consumeRow_spec tys D) by done. cbn [mbind go_bind]. rewrite IH. by rewrite <- app_assoc.
Qed.
Lemma consume_all tys D bs rows :
  Forall (batch_wf tys D) bs →
  foldM (consumeBatch (length tys)) rows bs = Ret (rows ++ (sort_row <$> (r_cells <$> all_rows bs))).
Proof.
  intros Hbs. revert rows. induction Hbs as [|b bs Hb _ IH]; intros rows; [by rewrite app_nil_r|]. cbn [foldM].
  rewrite (consumeBatch_spec tys D) by done. cbn [mbind go_bind]. rewrite IH. unfold all_rows.
  cbn [fmap list_fmap concat]. by rewrite !fmap_app, app_assoc.
Qed.

(** ** Lemmas: ordering *)

Definition row_ok (tys : list DataType) (r : list (option Cell)) : Prop :=
  Forall2 cell_has_type r tys ∧ Forall cell_fits r.

Lemma index_sort_row r i c :
  r !! i = Some c →
  index (values (sort_row r)) i = Ret (sort_cell c).1.1 ∧ index (nulls (sort_row r)) i = Ret (sort_cell c).1.2 ∧
  index (strValues (sort_row r)) i = Ret (sort_cell c).2.
Proof. intros E. cbn [sort_row values nulls strValues]. split_and!; apply index_Ret; by rewrite list_lookup_fmap, E. Qed.

(** The answer of one key: decided, or left to the rest [k] of the keys. *)
Definition answer (c : comparison) (k : go bool) : go bool :=
  match c with Eq => k | c => Ret (is_lt c) end.
Lemma answer_row_cmp k keys r r' rest :
  rest = Ret (is_lt (row_cmp keys r r')) →
  answer (key_cmp k r r') rest = Ret (is_lt (row_cmp (k :: keys) r r')).
Proof.
  intros ->. unfold answer. change (row_cmp (k :: keys) r r')
    with (match key_cmp k r r' with Eq => row_cmp keys r r' | c => c end). by destruct (key_cmp k r r').
Qed.

Lemma str_answer desc s s' k :
  (if String.eqb s s' then k else Ret (if desc : bool then string_gt s s' else string_gt s' s))
  = answer (cmp_dir desc cell_cmp (CStr s) (CStr s')) k.
Proof.
  assert (E : ∀ s s', cell_cmp (CStr s) (CStr s') = lex (bytes_of s) (bytes_of s')) by done.
  unfold cmp_dir, string_gt. destruct (String.eqb_spec s s') as [<-|Hne].
  - by destruct desc; rewrite E, (proj2 (lex_eq _ _) eq_refl).
  - assert (lex (bytes_of s) (bytes_of s') ≠ Eq ∧ lex (bytes_of s') (bytes_of s) ≠ Eq) as [H1 H2].
    { split; rewrite lex_eq; intros H%bytes_of_inj; congruence. }
    by destruct desc; rewrite E; [destruct (lex (bytes_of s') _)|destruct (lex (bytes_of s) _)].
Qed.
Lemma word_answer desc x y c c' k :
  cell_cmp c c' = (x ?= y) → cell_cmp c' c = (y ?= x) →
  (if x =? y then k else Ret (if desc : bool then x >? y else x <? y)) = answer (cmp_dir desc cell_cmp c c') k.
Proof.
  intros E E'. unfold cmp_dir, answer. rewrite Z.gtb_ltb, E, E'. destruct (Z.eqb_spec x y) as [->|Hne].
  - by destruct desc; rewrite Z.compare_refl.
  - unfold Z.ltb. rewrite (Z.compare_antisym x y).
    destruct desc; by destruct (x ?= y) eqn:Exy; [apply Z.compare_eq_iff in Exy|..].
Qed.
Lemma to_u64_word x : inU 64 x → to_u64 (to_i64 x) = x.
Proof. intros. by apply wrapU_wrapS. Qed.
Lemma float_answer desc x y k :
  inU 64 x → inU 64 y →
  (if f64_eq x y || (f64_isNaN x && f64_isNaN y) then k else
   if f64_isNaN x || f64_isNaN y then Ret (negb (eqb (f64_isNaN y) desc)) else
   Ret (if desc : bool then f64_lt y x else f64_lt x y))
  = answer (cmp_dir desc cell_cmp (CFloat x) (CFloat y)) k.
Proof.
  intros Hx Hy. assert (E : ∀ x y, cell_cmp (CFloat x) (CFloat y) = (num_key (CFloat x) ?= num_key (CFloat y))).
  { intros. unfold cell_cmp, cmp_then, cmp_on. cbn [str_key lex]. by destruct (_ ?= _). }
  assert (Hkey : ∀ x, - 2 ^ 64 < f64_key x < 2 ^ 64).
  { intros z. unfold f64_key. pose proof (Z.mod_pos_bound z (2 ^ 63)). destruct (f64_sign z); lia. }
  assert (Heq : f64_eq x y = (negb (f64_isNaN x) && negb (f64_isNaN y) && (f64_key x =? f64_key y))).
  { apply eq_true_iff_eq. rewrite f64_eq_spec, !andb_true_iff, !negb_true_iff, Z.eqb_eq by done. tauto. }
  assert (Hlt : ∀ x y, inU 64 x → inU 64 y → f64_lt x y = (negb (f64_isNaN x) && negb (f64_isNaN y) && (f64_key x <? f64_key y))).
  { intros a b Ha Hb. apply eq_true_iff_eq. rewrite f64_lt_spec, !andb_true_iff, !negb_true_iff, Z.ltb_lt by done. tauto. }
  rewrite Heq, !Hlt by done. rewrite <- (word_answer desc _ _ _ _ k (E x y) (E y x)). cbn [num_key].
  pose proof (Hkey x). pose proof (Hkey y).
  destruct (f64_isNaN x), (f64_isNaN y); cbn [negb andb orb]; rewrite ?Z.gtb_ltb, ?Z.eqb_refl; try done.
  - rewrite (proj2 (Z.eqb_neq _ _)) by lia. destruct desc; cbn [eqb negb]; f_equal; lia.
  - rewrite (proj2 (Z.eqb_neq _ _)) by lia. destruct desc; cbn [eqb negb]; f_equal; lia.
  - by rewrite orb_false_r.
Qed.

Lemma less_spec schema tys keys r r' :
  Type_ <$> schema = tys → Forall (λ k, ColIdx k < length tys)%nat keys → row_ok tys r → row_ok tys r' →
  less schema keys (sort_row r) (sort_row r') = Ret (is_lt (row_cmp keys r r')).
Proof.
  intros Hs Hk [Ht Hf] [Ht' Hf']. induction Hk as [|k keys Hk _ IH]; [done|]. cbn [less].
  destruct (lookup_lt_is_Some_2 tys (ColIdx k) Hk) as [t Et].
  destruct (Forall2_lookup_r _ _ _ _ _ Ht Et) as (c & Ec & Hc).
  destruct (Forall2_lookup_r _ _ _ _ _ Ht' Et) as (c' & Ec' & Hc').
  pose proof (Forall_lookup_1 _ _ _ _ Hf Ec) as Hfc. pose proof (Forall_lookup_1 _ _ _ _ Hf' Ec') as Hfc'.
  destruct (index_sort_row r _ _ Ec) as (-> & -> & ->). destruct (index_sort_row r' _ _ Ec') as (-> & -> & ->).
  cbn [mbind go_bind]. rewrite <- (answer_row_cmp k keys r r' _ IH).
  assert (Ek : key_cmp k r r' = cmp_nulls (cmp_dir (Descending k) cell_cmp) c c').
  { unfold key_cmp, cmp_on. by rewrite Ec, Ec'. }
  rewrite Ek. assert (Ef : Type_ <$> (schema !! ColIdx k) = Some t) by (by rewrite <- Et, <- Hs, list_lookup_fmap).
  destruct (schema !! ColIdx k) as [f|] eqn:Ef'; [|done]. injection Ef as <-. rewrite (index_Ret _ _ _ Ef').
  destruct c as [c|], c' as [c'|]; [|by destruct c|by destruct c'|done]. cbn [cell_has_type cell_fits] in *.
  destruct c as [x|x|x|x|x], c' as [y|y|y|y|y]; try (simpl in *; congruence);
    cbn [sort_cell fst snd andb mbind go_bind cell_word cmp_nulls]; rewrite <- Hc; cbn [cell_type];
    rewrite ?(to_u64_word x), ?(to_u64_word y) by done;
    first [by apply str_answer|by apply float_answer|idtac].
  - apply word_answer; unfold cell_cmp, cmp_then, cmp_on; cbn; by destruct (_ ?= _).
  - apply word_answer; by destruct x, y.
  - apply word_answer; unfold cell_cmp, cmp_then, cmp_on; cbn; by destruct (_ ?= _).
Qed.

(** ** Lemmas: emitting *)

Definition real_type (t : DataType) : Prop := match t with TypeOther _ => False | _ => True end.

Section EmitColumn.
Context (tys : list DataType) (rs : list (list (option Cell))) (c : nat) (t : DataType).
Context (Hrs : Forall (row_ok tys) rs) (Ht : tys !! c = Some t).

(** One row of any of the loops: its NULL bit, then its value. *)
Lemma emit_row i r o :
  (sort_row <$> rs) !! i = Some r → col_at c rs !! i = Some o →
  index (nulls r) c = Ret (bool_decide (o = None)) ∧ index (values r) c = Ret (sort_cell o).1.1 ∧
  index (strValues r) c = Ret (sort_cell o).2 ∧ cell_has_type o t ∧ cell_fits o.
Proof using All.
  rewrite list_lookup_fmap. unfold col_at. rewrite list_lookup_fmap. destruct (rs !! i) as [cells|] eqn:Er; [|done].
  intros [= <-] [= <-]. destruct (Forall_lookup_1 _ _ _ _ Hrs Er) as [Hty Hf].
  destruct (Forall2_lookup_r _ _ _ _ _ Hty Ht) as (x & Ex & Hx). rewrite Ex. cbn [default].
  destruct (index_sort_row cells c x Ex) as (-> & -> & ->). rewrite is_null_dec.
  split; [by destruct x as [[]|]|]. do 2 (split; [done|]). split; [done|]. exact (Forall_lookup_1 _ _ _ _ Hf Ex).
Qed.

Lemma emitWords_spec conv mkV mkC :
  fixed t mkV mkC →
  (∀ x, cell_type x = t → cell_fits (Some x) → x = mkC (conv (sort_cell (Some x)).1.1)) →
  ∃ vals nb, emitWords conv (sort_row <$> rs) c = Ret (vals, nb) ∧
    column (mkV vals nb) t (length rs) (at_ (col_at c rs)).
Proof using All.
  intros Hfix Hconv. unfold emitWords. rewrite <- (length_fmap sort_row rs).
  apply (emit_words _ _ (eq_trans (length_fmap _ _) (eq_sym (length_fmap _ _))) false t mkV mkC); [done|].
  intros i r o vals nb Hr Ho Hv Hn. destruct (emit_row i r o Hr Ho) as (-> & -> & _ & Hty & Hf).
  pose proof (lookup_lt_Some _ _ _ Hr) as Hi. rewrite is_null_dec. destruct o as [x|]; cbn [mbind go_bind]; [|done].
  eexists. split; [by apply (Hconv x)|]. rewrite store_Ret by lia. cbn [mbind go_bind].
  rewrite SetValidBit_Ret by (rewrite Hn; by apply size_index). done.
Qed.

End EmitColumn.

Lemma emitColumn_spec tys rs c t :
  Forall (row_ok tys) rs → tys !! c = Some t → real_type t → weight (col_at c rs) < 2 ^ 32 →
  ∃ v, emitColumn (sort_row <$> rs) c t = Ret v ∧ column v t (length rs) (at_ (col_at c rs)) ∧
    dict_size v ≤ weight (col_at c rs).
Proof.
  intros Hrs Ht Hreal Hw. pose proof (weight_ge0 (col_at c rs)) as H0. unfold emitColumn.
  assert (Hl : length (col_at c rs) = length (sort_row <$> rs)) by (unfold col_at; by rewrite !length_fmap).
  pose proof (emit_row tys rs c t Hrs Ht) as Hrow. pose proof (emitWords_spec tys rs c t Hrs Ht) as Hwords.
  destruct t as [| | | | |o]; try done.
  - destruct (Hwords (λ x, x) Int64Vector CInt) as (vals & nb & -> & Hc);
      [constructor|by intros [x|x|x|x|x] E Hf|]. eexists. split; [done|]. split; [exact Hc|]. done.
  - destruct (Hwords to_u64 Float64Vector CFloat) as (vals & nb & -> & Hc); [constructor| |].
    { intros [x|x|x|x|x] E Hf; try done. cbn. by rewrite to_u64_word. }
    eexists. split; [done|]. split; [exact Hc|]. done.
  - rewrite <- (length_fmap sort_row rs). edestruct (emit_bits (sort_row <$> rs) (col_at c rs) Hl false) as (bits & nb & -> & Hc).
    + intros i r o bits nb Hr Ho Hv Hn. destruct (Hrow i r o Hr Ho) as (-> & -> & _ & Hty & Hf).
      pose proof (size_index _ _ (lookup_lt_Some _ _ _ Hr)). rewrite is_null_dec.
      destruct o as [x|]; cbn [mbind go_bind]; [|done]. cbn [cell_has_type] in Hty.
      destruct x as [| |x| |]; try done. exists x. split; [done|]. rewrite bv_Set_Ret by lia. cbn [mbind go_bind].
      rewrite SetValidBit_Ret by lia. cbn. by destruct x.
    + eexists. split; [done|]. split; [exact Hc|]. done.
  - rewrite <- (length_fmap sort_row rs).
    edestruct (emit_strs (sort_row <$> rs) (col_at c rs) Hl) as (db & codes & nb & v & -> & Ev & Hc & Hd); [|done|].
    + intros i r o db codes nb Hr Ho Hv Hn. destruct (Hrow i r o Hr Ho) as (-> & _ & -> & Hty & Hf).
      pose proof (size_index _ _ (lookup_lt_Some _ _ _ Hr)). pose proof (lookup_lt_Some _ _ _ Hr). rewrite is_null_dec.
      destruct o as [x|]; cbn [mbind go_bind]; [|done]. cbn [cell_has_type] in Hty.
      destruct x as [| | |s|]; try done. exists s. split; [done|]. cbn [sort_cell snd].
      destruct (Add db s) as [code db']. rewrite store_Ret by lia. cbn [mbind go_bind].
      rewrite SetValidBit_Ret by lia. done.
    + cbn [mbind go_bind]. by exists v.
  - destruct (Hwords to_i32 DateVector CDate) as (vals & nb & -> & Hc); [constructor| |].
    { intros [x|x|x|x|x] E Hf; try done. cbn. by rewrite wrapS_id. }
    eexists. split; [done|]. split; [exact Hc|]. done.
Qed.

(** A batch of whole rows. *)
Lemma emitBatch_spec schema tys rs W :
  Type_ <$> schema = tys → Forall real_type tys → tys ≠ [] → Forall (row_ok tys) rs →
  (∀ c, weight (col_at c rs) ≤ W) → W < 2 ^ 32 → (length rs ≤ BlockRows)%nat →
  ∃ b, emitBatch schema (sort_row <$> rs) = Ret b ∧ batch_wf tys W b ∧ whole b ∧ r_cells <$> rows_of b = rs.
Proof.
  intros Hs Hreal Hne Hrs Hw HW Hlen. unfold emitBatch.
  destruct (foldM_enum_ind (λ vecs '(c, f), v ← emitColumn (sort_row <$> rs) c (Type_ f); Ret (vecs ++ [v]))
    (λ k vecs, Forall2 (λ v '(c, t), column v t (length rs) (at_ (col_at c rs)) ∧ dict_size v ≤ W) vecs
                 (take k (enum tys))) schema []) as (vecs & -> & Hvecs).
  - constructor.
  - intros k f vecs Hf Hvecs. assert (Ht : tys !! k = Some (Type_ f)) by (by rewrite <- Hs, list_lookup_fmap, Hf).
    destruct (emitColumn_spec tys rs k (Type_ f) Hrs Ht) as (v & -> & Hc & Hd);
      [exact (Forall_lookup_1 _ _ _ _ Hreal Ht)|specialize (Hw k); lia|].
    eexists. split; [done|]. rewrite (take_S_r _ _ (k, Type_ f)) by by apply lookup_enum.
    apply Forall2_app; [done|]. constructor; [|constructor]. split; [done|]. specialize (Hw k). lia.
  - assert (Hls : length schema = length tys) by (by rewrite <- Hs, length_fmap).
    rewrite take_ge in Hvecs by (rewrite length_enum; lia). cbn [mbind go_bind]. eexists. split; [done|].
    rewrite length_fmap. apply columns_batch; [done..| |done|].
    + eapply Forall_impl; [exact Hrs|]. intros r [Hty _]. by eapply Forall2_length.
    + pose proof (Hw 0%nat). pose proof (weight_ge0 (col_at 0 rs)). lia.
Qed.

(** ** Lemmas: the stream *)

Lemma sort_emits {S} `{Operator S} tys rs W schema keys (c : S) :
  Type_ <$> schema = tys → Forall real_type tys → tys ≠ [] → Forall (row_ok tys) rs →
  (∀ c, weight (col_at c rs) ≤ W) → W < 2 ^ 32 →
  ∃ out, runs (mkExternalSort c keys schema (sort_row <$> rs) true 0) out None ∧
    Forall (batch_wf tys W) out ∧ Forall whole out ∧ r_cells <$> all_rows out = rs.
Proof.
  intros Hs Hreal Hne Hrs Hw HW. assert (HB : BlockRows = 1024%nat) by done.
  apply (chunks_run tys W rs (mkExternalSort c keys schema (sort_row <$> rs) true)).
  - intros p Hp. exists 0%nat. intros fuel _. cbn [Next sort_operator sort_next es_done]. unfold sort_emit.
    cbn [es_rows emitPos]. rewrite length_fmap, decide_True by lia. done.
  - intros p Hp e. destruct (emitBatch_spec schema tys (take (e - p) (drop p rs)) W) as (b & Eb & Hwf & Hwh & Hrows); try done.
    { by apply Forall_take, Forall_drop. }
    { intros j. pose proof (weight_col_take j (e - p) (drop p rs)). pose proof (weight_col_drop j p rs). specialize (Hw j). lia. }
    { rewrite length_take. lia. }
    exists b. split; [|done]. exists 0%nat. intros fuel _.
    cbn [Next sort_operator sort_next es_done]. unfold sort_emit. cbn [es_rows emitPos es_schema].
    rewrite !length_fmap, decide_False by lia. fold e. rewrite slice_Ret by (rewrite ?length_fmap; lia).
    cbn [mbind go_bind]. rewrite <- fmap_drop, <- fmap_take, Eb. done.
Qed.

Lemma rows_row_ok tys D bs :
  Forall (batch_wf tys D) bs → Forall row_fits (all_rows bs) → Forall (row_ok tys) (r_cells <$> all_rows bs).
Proof.
  intros Hbs Hf. apply Forall_fmap, Forall_forall. intros r Hr. split; [|by rewrite Forall_forall in Hf; apply Hf].
  unfold all_rows in Hr. apply list_elem_of_In, in_concat in Hr as (rb & Hrb & Hr). apply list_elem_of_In in Hrb, Hr.
  apply list_elem_of_fmap in Hrb as (b & -> & Hb). apply list_elem_of_fmap in Hr as (i & -> & Hi).
  rewrite Forall_forall in Hbs. destruct (Hbs _ Hb) as (Hok & _ & _ & Hidx & _). rewrite Forall_forall in Hidx.
  apply (batch_cells tys D b); [done|]. by apply Hidx.
Qed.
Lemma batch_real tys D b : batch_wf tys D b → Forall real_type tys ∧ tys ≠ [].
Proof.
  intros ((_ & Hvs) & Hne & _). split.
  - apply Forall_lookup. intros i t Ht. destruct (Forall2_lookup_r _ _ _ _ _ Hvs Ht) as (v & _ & _ & <- & _).
    by destruct v.
  - intros ->. by inversion Hvs; destruct (Vectors b).
Qed.

(** ** Property *)

Lemma sort_runs {S} `{Operator S} tys D W (c : S) keys bs o :
  runs c bs o → Forall (batch_wf tys D) bs → Forall row_fits (all_rows bs) →
  Type_ <$> OpSchema c = tys → keys ≠ [] → Forall (λ k, ColIdx k < length tys)%nat keys →
  (∀ j, weight (col_at j (r_cells <$> all_rows bs)) ≤ W) → W < 2 ^ 32 →
  ∃ s, NewExternalSort c keys = Ret s ∧
  match o with
  | Some e => runs s [] (Some e)
  | None => ∃ out, runs s out None ∧ Forall (batch_wf tys W) out ∧ Forall whole out ∧
      let rs := r_cells <$> all_rows bs in
      let sorted := r_cells <$> all_rows out in
      sorted ≡ₚ rs ∧ StronglySorted (cmp_le (row_cmp keys)) sorted ∧
      ∀ r, filter (λ r', row_cmp keys r r' = Eq) sorted = filter (λ r', row_cmp keys r r' = Eq) rs
  end.
Proof.
  intros Hr Hbs Hf Hs Hk Hci Hw HW. eexists. split; [unfold NewExternalSort; rewrite decide_False; [done|by destruct keys]|].
  pose proof (rows_row_ok tys D bs Hbs Hf) as Hok. set (rs := r_cells <$> all_rows bs) in *.
  pose proof (consume_all tys D bs [] Hbs) as Hall. cbn [app] in Hall.
  destruct (drain_spec _ _ _ _ _ _ Hr Hall) as (c' & m & Hdrain).
  assert (Hls : length (OpSchema c) = length tys) by (by rewrite <- Hs, length_fmap).
  assert (Hcons : ∀ fuel, (m ≤ fuel)%nat → consumeAndSort fuel (mkExternalSort c keys (OpSchema c) [] false 0) =
    on_ret (match o with None => Ret () | Some e => Err e end) (mkExternalSort c' keys (OpSchema c) (sort_row <$> rs) false 0)
      (λ _, (Ret (), mkExternalSort c' keys (OpSchema c) (sort_row <$> sort_by (row_cmp keys) rs) false 0))).
  { intros fuel Hfuel. unfold consumeAndSort. cbn [es_schema es_child es_rows]. rewrite Hls, Hdrain by done.
    destruct o as [e|]; [done|]. cbn [on_ret with_rows es_keys es_schema es_done emitPos].
    rewrite (SliceStable_fmap (row_cmp keys) _ sort_row (row_ok tys)); [done|..|done].
    intros a b Ha Hb. by apply (less_spec _ tys). }
  destruct o as [e|].
  - eapply runs_error. exists m. intros fuel Hfuel. cbn [Next sort_operator]. unfold sort_next. cbn [es_done].
    rewrite Hcons by done. done.
  - destruct bs as [|b bs].
    { exists []. split; [|by repeat constructor]. eapply runs_end. exists m. intros fuel Hfuel.
      cbn [Next sort_operator]. unfold sort_next. cbn [es_done]. rewrite Hcons by done. done. }
    inversion Hbs as [|? ? Hb _]; subst. destruct (batch_real _ _ _ Hb) as [Hreal Hne].
    pose proof (sort_by_perm (row_cmp keys) rs) as Hperm.
    destruct (sort_emits (Type_ <$> OpSchema c) (sort_by (row_cmp keys) rs) W (OpSchema c) keys c' eq_refl Hreal Hne
      ltac:(by rewrite Hperm)) as (out & Hout & Hwf & Hwh & Hall'); [|done|].
    { intros j. unfold col_at. rewrite Hperm. apply Hw. }
    exists out. split; [|split; [done|split; [done|]]].
    + eapply runs_retry; [|exact Hout]. exists m. intros fuel Hfuel. cbn [Next sort_operator]. unfold sort_next at 1.
      cbn [es_done]. rewrite Hcons by done. done.
    + rewrite Hall'. split; [done|]. split; [by apply sort_by_sorted, _|]. intros r. by apply sort_by_stable, _.
Qed.

(** C25: ORDER BY is a stable sort.  Over any child, ExternalSort delivers in
    whole batches of at most 1024 rows exactly the child's rows, each once,
    ordered by its keys: NULLs first whatever the direction, floats by value
    with NaN above every number, strings by their bytes, then the next key; and
    rows that tie on every key keep their order.  An error of the child is the
    error of the sort. *)
Theorem sort_rows {S} `{Operator S} tys D W (c : S) keys bs o :
  runs c bs o → Forall (batch_wf tys D) bs → Forall row_fits (all_rows bs) →
  Type_ <$> OpSchema c = tys → keys ≠ [] → Forall (λ k, ColIdx k < length tys)%nat keys →
  (∀ j, weight (col_at j (r_cells <$> all_rows bs)) ≤ W) → W < 2 ^ 32 →
  ∃ s, NewExternalSort c keys = Ret s ∧
  match o with
  | Some e => runs s [] (Some e)
  | None => ∃ out, runs s out None ∧ Forall (batch_wf tys W) out ∧ Forall whole out ∧
      let rs := r_cells <$> all_rows bs in
      let sorted := r_cells <$> all_rows out in
      sorted ≡ₚ rs ∧ StronglySorted (cmp_le (row_cmp keys)) sorted ∧
      ∀ r, filter (λ r', row_cmp keys r r' = Eq) sorted = filter (λ r', row_cmp keys r r' = Eq) rs
  end.
Proof. apply sort_runs. Qed.

(** ORDER BY b DESC, a: a NULL first, then NaN, then the two equal floats by the
    integer, in ascending order. *)
Definition sort_batches : list Batch :=
  let schema := [mkField "a" TypeInt64 EncPlain true; mkField "b" TypeFloat64 EncPlain true] in
  [mkBatch schema [Int64Vector [5; -3; 0] [7]; Float64Vector [f64_of_int 2; f64_nan; f64_of_int 2] [7]] 3 None;
   mkBatch schema [Int64Vector [1; 2] [3]; Float64Vector [f64_of_int (-1); 0] [1]] 1 (Some [1])].
Definition sort_keys : list SortKey := [mkSortKey 1 true; mkSortKey 0 false].
Example sort_example :
  (rows ← foldM (consumeBatch 2) [] sort_batches;
   rows ← SliceStable (less (OpSchema (given sort_batches)) sort_keys) rows; Ret (map values rows))
  = Ret [[2; 0]; [-3; f64_nan]; [0; f64_of_int 2]; [5; f64_of_int 2]].
Proof. vm_compute. reflexivity. Qed.
Lemma sort_rows_witness :
  ∃ s, NewExternalSort (given sort_batches) sort_keys = Ret s ∧
  ∃ out, runs s out None ∧ Forall (batch_wf [TypeInt64; TypeFloat64] 0) out ∧ Forall whole out ∧
    let rs := r_cells <$> all_rows sort_batches in
    let sorted := r_cells <$> all_rows out in
    sorted ≡ₚ rs ∧ StronglySorted (cmp_le (row_cmp sort_keys)) sorted ∧
    ∀ r, filter (λ r', row_cmp sort_keys r r' = Eq) sorted = filter (λ r', row_cmp sort_keys r r' = Eq) rs.
Proof.
  apply (sort_rows [TypeInt64; TypeFloat64] 0 0 (given sort_batches) sort_keys sort_batches None); [apply runs_given|..].
  - repeat constructor; try done; vm_compute; try lia; try done; repeat constructor; lia.
  - repeat constructor; vm_compute; done.
  - done.
  - done.
  - repeat constructor; simpl; lia.
  - intros [|[|j]]; vm_compute; done.
  - done.
Defined.
