(* ===== verification/Pipeline.v ===== *)
(** * A query over a file: the scan as an operator, and plans over it

    The scan is an operator, so the row operators' theorems compose with the
    scan's: a plan built by [NewTableScanRange], [NewFilter], [NewProject] and
    [NewLimitOffset] over a file delivers the rows SQL gives.  Also the row-count
    bound of [exec/row_bound.go]. *)
From Stdlib Require Import ZArith Lia ZifyNat.
From stdpp Require Import base numbers list strings gmap.
From S2P Require Import Prelude Encoding Codec Float64 Schema Writer Reader Volume Batch Scratch Scan VExpr VKernel VCase VExprSpec Operator RowOps Distinct Sorting Emit Sort.
#[local] Open Scope Z_scope.

#[export] Instance scan_operator : Operator TableScan := {
  Next fuel s := ScanNext fuel None s;
  OpSchema := ts_schema
}.

(** ** The rows of a table *)

(** Row [i] of a block of columns, and all its rows. *)
Definition block_row (cols : list (list (option Cell))) (i : nat) : list (option Cell) :=
  (λ col, default None (col !! i)) <$> cols.
Definition block_rows_of (n : nat) (cols : list (list (option Cell))) : list (list (option Cell)) :=
  block_row cols <$> seq 0 n.
(** The rows of the columns [cm] of the row groups that a scan keeps. *)
Definition table_rows (cm : list Z) (zp : option ZonePredicate) (rgs : list RowGroupMeta)
    (gs : list (nat * list ColData)) : list (list (option Cell)) :=
  concat (zip_with (λ rg g, if kept zp rg then block_rows_of g.1 (group_rows cm g) else []) rgs gs).

(** ** The row-count bound ([exec/row_bound.go]) *)

(** The interface: the method, where an operator has it. *)
Class RowCountBound (S : Type) : Type := row_bound : S → option (go (Z * bool)).
(** The loop runs to [rgEnd] or to the last row group. *)
Definition scan_RowCountBound (s : TableScan) : go (Z * bool) :=
  let rgs := RowGroups (r_meta (ts_reader s)) in
  let last := Z.min (rgEnd s) (Z.of_nat (length rgs)) in
  rows ← foldM (λ rows i,
      if decide (rgStart s + Z.of_nat i < 0) then Panic else
      rg ← index rgs (Z.to_nat (rgStart s + Z.of_nat i));
      if match zonePred s with Some p => negb (p rg) | None => false end then Ret rows
      else Ret (rows + Z.of_nat (NumRows rg)))
    0 (seq 0 (Z.to_nat (last - rgStart s)));
  Ret (rows, true).
#[export] Instance scan_bound : RowCountBound TableScan := λ s, Some (scan_RowCountBound s).
Definition filter_RowCountBound {S} `{RowCountBound S} (f : Filter S) : go (Z * bool) :=
  match row_bound (p_child f) with
  | None => Ret (0, false)
  | Some m => '(rows, _) ← m; Ret (rows, false)
  end.
#[export] Instance filter_bound {S} `{RowCountBound S} : RowCountBound (Filter S) :=
  λ f, Some (filter_RowCountBound f).

(** ** Lemmas: a scan's stream *)

Lemma vec_is_dict t cells v : vec_is t cells v → dict_size v ≤ 2 ^ 33.
Proof.
  intros (_ & [_ Hd] & _). destruct v as [| | |codes [d|] nb|]; cbn [dict_size] in *; try lia.
  destruct Hd as (keys & _ & [H1 H2] & [[-> ->] _] & _). rewrite length_dict_offsets. lia.
Qed.
Lemma vec_is_cell t cells v i : vec_is t cells v → (i < length cells)%nat → cell v i = default None (cells !! i).
Proof.
  intros (_ & Hok & Hl & Hc) Hi. rewrite (vec_cells_ok v Hok) in Hc. injection Hc as <-.
  rewrite list_lookup_fmap, lookup_seq_lt by lia. done.
Qed.

Lemma batch_is_wf schema c b :
  batch_is schema c b → schema ≠ [] → batch_wf (Type_ <$> schema) (2 ^ 33) b.
Proof.
  intros (Hs & Hsel & Hl & Hn & Hv) Hne.
  assert (He : evalLen b = b_Length b) by (unfold evalLen; by rewrite Hsel).
  assert (Hsr : sel_rows b = seq 0 (b_Length b)) by (unfold sel_rows; by rewrite Hsel).
  split; [split; [done|]|].
  - apply Forall2_fmap_r, Forall2_same_length_lookup. split; [done|]. intros j v f Hvj Hf.
    destruct (Hv j f v Hf Hvj) as (Hvi & Hlen). pose proof (vec_is_dict _ _ _ Hvi). rewrite He.
    by destruct Hvi as (? & ? & _).
  - split; [by destruct (Vectors b), schema|]. rewrite Hsr, length_seq, He. split; [done|]. split.
    + apply Forall_seq. intros j Hj. lia.
    + rewrite Hsel. change BlockRows with 1024%nat in Hn. split; [lia|done].
Qed.
Lemma batch_is_rows schema c b n :
  batch_is schema c b → length c = length schema → Forall (λ col, length col = n) c → schema ≠ [] →
  r_cells <$> rows_of b = block_rows_of n c.
Proof.
  intros (Hs & Hsel & Hl & Hn & Hv) Hlc Hcn Hne.
  assert (Hb : b_Length b = n).
  { destruct schema as [|f schema]; [done|]. destruct c as [|col c]; [done|].
    destruct (lookup_lt_is_Some_2 (Vectors b) 0) as [v Hv0]; [rewrite Hl; simpl; lia|].
    destruct (Hv 0%nat f v eq_refl Hv0) as ((_ & _ & Hlv & _) & <-). rewrite Hlv. unfold c_at. simpl.
    by apply Forall_cons in Hcn as [? _]. }
  unfold rows_of, block_rows_of, sel_rows. rewrite Hsel, Hb, <- list_fmap_compose.
  apply list_fmap_ext. intros i j [-> Hj]%lookup_seq. cbn [compose row_at r_cells]. unfold block_row.
  apply list_eq. intros k. rewrite !list_lookup_fmap. destruct (c !! k) as [col|] eqn:Ec.
  - pose proof (lookup_lt_Some _ _ _ Ec). destruct (lookup_lt_is_Some_2 schema k) as [f Hf]; [lia|].
    destruct (lookup_lt_is_Some_2 (Vectors b) k) as [v Hvk]; [lia|]. rewrite Hvk. cbn [fmap option_fmap option_map].
    destruct (Hv k f v Hf Hvk) as (Hvi & Hlen). assert (E : c_at c k = col) by (unfold c_at; by rewrite Ec).
    rewrite E in Hvi. f_equal. eapply vec_is_cell; [done|]. rewrite Forall_forall in Hcn.
    rewrite (Hcn col); [done|]. by eapply list_elem_of_lookup_2.
  - apply lookup_ge_None in Ec. by rewrite lookup_ge_None_2 by lia.
Qed.

(** The blocks of a group are its rows. *)
Lemma blocks_rows_of n cols :
  Forall (λ col, length col = n) cols →
  concat ((λ s, block_rows_of (block_end n s - s) (blk s <$> cols)) <$> block_starts n) = block_rows_of n cols.
Proof.
  intros Hc. unfold block_rows_of at 2. rewrite <- (concat_blk (block_row cols <$> seq 0 n)).
  rewrite length_fmap, length_seq. f_equal. apply list_fmap_ext. intros k s Hs.
  pose proof (lookup_block_starts n k s) as H. apply H in Hs as [E Hs]. rewrite <- E in Hs. clear H E. pose proof (block_end_spec n s Hs).
  unfold blk. rewrite length_fmap, length_seq. unfold block_rows_of. apply list_eq. intros i.
  rewrite list_lookup_fmap. destruct (decide (i < block_end n s - s)%nat) as [Hi|Hi].
  - rewrite lookup_seq_lt, lookup_take_lt, lookup_drop, list_lookup_fmap, lookup_seq_lt by lia.
    cbn [fmap option_fmap option_map Nat.add]. f_equal. unfold block_row. rewrite <- list_fmap_compose.
    apply list_fmap_ext. intros j col Hj. cbn [compose]. pose proof (Forall_lookup_1 _ _ _ _ Hc Hj) as Hl.
    simpl in Hl. rewrite Hl, lookup_take_lt, lookup_drop by lia. done.
  - rewrite lookup_seq_ge, lookup_take_ge by lia. done.
Qed.

(** More fuel does not change an answer. *)
Lemma ScanNext_mono ctx fuel fuel' s o s' :
  ScanNext fuel ctx s = (Ret o, s') → (fuel ≤ fuel')%nat → ScanNext fuel' ctx s = (Ret o, s').
Proof.
  revert fuel' s. induction fuel as [|fuel IH]; intros fuel' s E Hf; [done|].
  destruct fuel' as [|fuel']; [lia|]. cbn [ScanNext] in *. destruct ctx; [done|].
  repeat (case_match; simplify_eq; try done); by apply IH; [|lia].
Qed.

Section ScanRuns.
Context (r : Reader) (src schema : Schema) (sess : Session) (cm : list Z) (zp : option ZonePredicate).
Hypothesis Hfile : file_repr src r sess.
Hypothesis Hmap : Forall2 (same_field src) schema cm.
Hypothesis Hne : schema ≠ [].

Lemma pending_runs rem : ∀ s,
  pending r schema sess cm zp s rem →
  ∃ bs s', runs_to s bs None s' ∧ pending r schema sess cm zp s' [] ∧ Forall2 (batch_is schema) rem bs.
Proof using Hfile Hmap Hne.
  assert (Hnext : ∀ s rem, pending r schema sess cm zp s rem → ∀ fuel,
    (S (Z.to_nat (rgEnd s - rgIdx s)) ≤ fuel)%nat →
    next_ok r schema sess cm zp (ScanNext fuel None s) rem).
  { intros s rem0 Hp fuel Hf. by apply (ScanNext_spec r src schema sess cm zp Hfile Hmap Hne). }
  induction rem as [|c rem IH]; intros s Hp; pose proof (Hnext s _ Hp) as H.
  - destruct (H _ (le_n _)) as (s' & E & Hp'). exists [], s'. split; [|split; [done|constructor]].
    apply runs_to_end. eexists. intros fuel Hf. cbn [Next scan_operator]. by rewrite (ScanNext_mono _ _ _ _ _ _ E Hf).
  - destruct (H _ (le_n _)) as (b & s' & E & Hb & Hp'). destruct (IH s' Hp') as (bs & s'' & Hr & Hend & Hbs).
    exists (b :: bs), s''. split; [|split; [done|by constructor]]. eapply runs_to_batch; [|done]. eexists. intros fuel Hf.
    cbn [Next scan_operator]. by rewrite (ScanNext_mono _ _ _ _ _ _ E Hf).
Qed.
End ScanRuns.

Section TableRuns.
Context (r : Reader) (src schema : Schema) (sess : Session) (cm : list Z) (zp : option ZonePredicate).
Hypothesis Hfile : file_repr src r sess.
Hypothesis Hmap : Forall2 (same_field src) schema cm.
Hypothesis Hne : schema ≠ [].

(** The columns of a stored group are as long as the group. *)
Lemma group_cols_length k g :
  s_done sess !! k = Some g → length (group_rows cm g) = length schema ∧
  Forall (λ col, length col = g.1) (group_rows cm g).
Proof using Hfile Hmap.
  intros Hg. assert (Hl : length (group_rows cm g) = length schema).
  { unfold group_rows. rewrite length_fmap. symmetry. by eapply Forall2_length. }
  split; [done|]. apply Forall_lookup. intros j col Hcol. destruct g as [n ds].
  destruct (lookup_lt_is_Some_2 schema j) as [f Hf]; [apply lookup_lt_Some in Hcol; lia|].
  destruct (group_column_cells r src schema sess cm Hfile Hmap k n ds j f Hg Hf) as (d & E & Hd).
  unfold c_at in E. rewrite Hcol in E. change (col = col_cells d) in E. by rewrite E.
Qed.

Definition cols_rows (c : list (list (option Cell))) : list (list (option Cell)) :=
  block_rows_of (length (c_at c 0)) c.
Lemma group_batches_rows k g :
  s_done sess !! k = Some g →
  concat (cols_rows <$> group_batches cm g) = block_rows_of g.1 (group_rows cm g) ∧
  Forall (λ c, length c = length schema ∧ Forall (λ col, length col = length (c_at c 0)) c) (group_batches cm g).
Proof using Hfile Hmap Hne.
  intros Hg. destruct (group_cols_length k g Hg) as [Hl Hc].
  assert (H0 : ∀ s, (s < g.1)%nat → length (c_at (blk s <$> group_rows cm g) 0) = (block_end g.1 s - s)%nat).
  { intros s Hs. rewrite c_at_blk. destruct (group_rows cm g) as [|col cols] eqn:E; [by destruct schema|].
    apply Forall_cons in Hc as [Hc _]. unfold c_at. cbn. rewrite <- Hc. by apply length_blk; rewrite Hc. }
  split.
  - rewrite <- (blocks_rows_of _ _ Hc). unfold group_batches. rewrite <- list_fmap_compose. f_equal.
    apply list_fmap_ext. intros i s Hs. cbn [compose]. unfold cols_rows. rewrite H0; [done|].
    apply lookup_block_starts in Hs. lia.
  - unfold group_batches. apply Forall_fmap, Forall_lookup. intros i s Hs. apply lookup_block_starts in Hs.
    cbn [compose]. rewrite length_fmap. split; [done|]. rewrite H0 by lia. apply Forall_fmap.
    eapply Forall_impl; [exact Hc|]. intros col Hcol. cbn in Hcol. cbn [compose]. rewrite <- Hcol. apply length_blk. destruct Hs; lia.
Qed.

Lemma scan_batches_rows i e :
  concat (cols_rows <$> scan_batches cm zp (sub i e (RowGroups (r_meta r))) (sub i e (s_done sess)))
  = table_rows cm zp (sub i e (RowGroups (r_meta r))) (sub i e (s_done sess)) ∧
  Forall (λ c, length c = length schema ∧ Forall (λ col, length col = length (c_at c 0)) c)
    (scan_batches cm zp (sub i e (RowGroups (r_meta r))) (sub i e (s_done sess))).
Proof using Hfile Hmap Hne.
  assert (Hall : Forall (λ g, ∃ k, s_done sess !! k = Some g) (sub i e (s_done sess))).
  { apply Forall_take, Forall_drop, Forall_lookup. intros k g Hg. by exists k. }
  unfold scan_batches, table_rows. revert Hall. generalize (sub i e (RowGroups (r_meta r))) as rgs, (sub i e (s_done sess)) as gs.
  intros rgs gs Hall. revert rgs. induction Hall as [|g gs [k Hg] _ IH]; intros [|rg rgs]; try (split; [done|constructor]).
  cbn [zip_with concat]. destruct (IH rgs) as [IH1 IH2]. destruct (group_batches_rows k g Hg) as [H1 H2].
  rewrite fmap_app, concat_app, IH1. destruct (kept zp rg); [|done].
  rewrite H1. split; [done|]. by apply Forall_app.
Qed.

(** The stream of a scan that starts at row group [i]. *)
Lemma table_runs s i e :
  pending r schema sess cm zp s (from r sess cm zp i e) →
  ∃ bs s', runs_to s bs None s' ∧ pending r schema sess cm zp s' [] ∧ Forall (batch_wf (Type_ <$> schema) (2 ^ 33)) bs ∧
    r_cells <$> all_rows bs = table_rows cm zp (sub i e (RowGroups (r_meta r))) (sub i e (s_done sess)).
Proof using Hfile Hmap Hne.
  intros Hp. destruct (pending_runs r src schema sess cm zp Hfile Hmap Hne _ s Hp) as (bs & s' & Hr & Hend & Hbs).
  exists bs, s'. split; [done|]. split; [done|]. unfold from in Hbs. destruct (scan_batches_rows i e) as [<- Hc].
  revert Hbs Hc. generalize (scan_batches cm zp (sub i e (RowGroups (r_meta r))) (sub i e (s_done sess))) as cs.
  intros cs Hbs Hc. clear Hr Hp Hend. induction Hbs as [|c b cs bs Hb Hbs IH]; [done|].
  apply Forall_cons in Hc as [[Hl Hcl] Hc]. destruct (IH Hc) as [IH1 IH2]. split.
  - constructor; [|done]. by apply (batch_is_wf _ c).
  - unfold all_rows in *. cbn [fmap list_fmap concat]. rewrite fmap_app, IH2. f_equal. by apply (batch_is_rows schema).
Qed.
End TableRuns.

(** ** Lemmas: the bound *)

Lemma length_table_rows schema file cm zp rgs gs :
  Forall2 (rg_stored schema file) rgs gs →
  Z.of_nat (length (table_rows cm zp rgs gs))
  = foldr Z.add 0 (map (λ rg, if kept zp rg then Z.of_nat (NumRows rg) else 0) rgs).
Proof.
  induction 1 as [|rg g rgs gs (Hn & _) _ IH]; [done|]. unfold table_rows in *. cbn [zip_with concat map foldr].
  rewrite length_app, Nat2Z.inj_add, IH, Hn. f_equal. destruct (kept zp rg); [|done].
  unfold block_rows_of. by rewrite length_fmap, length_seq.
Qed.
Lemma scan_bound_spec s a e :
  rgStart s = Z.of_nat a → rgEnd s = Z.of_nat e →
  let rgs := RowGroups (r_meta (ts_reader s)) in
  scan_RowCountBound s
  = Ret (foldr Z.add 0 (map (λ rg, if kept (zonePred s) rg then Z.of_nat (NumRows rg) else 0) (sub a e rgs)), true).
Proof.
  intros Ha He rgs. unfold scan_RowCountBound. rewrite Ha, He. fold rgs.
  set (w := λ rg, if kept (zonePred s) rg then Z.of_nat (NumRows rg) else 0).
  assert (Hlen : Z.to_nat (Z.min (Z.of_nat e) (Z.of_nat (length rgs)) - Z.of_nat a) = length (sub a e rgs)).
  { unfold sub. rewrite length_take, length_drop. lia. }
  rewrite Hlen. edestruct (foldM_seq_ind (λ rows i,
      if decide (Z.of_nat a + Z.of_nat i < 0) then Panic else
      rg ← index rgs (Z.to_nat (Z.of_nat a + Z.of_nat i));
      if match zonePred s with Some p => negb (p rg) | None => false end then Ret rows
      else Ret (rows + Z.of_nat (NumRows rg)))
    (λ k rows, rows + foldr Z.add 0 (map w (drop k (sub a e rgs))) = foldr Z.add 0 (map w (sub a e rgs)))
    (length (sub a e rgs)) 0) as (rows & -> & Hrows).
  - done.
  - intros k rows Hk Hrows. rewrite decide_False by lia. destruct (lookup_lt_is_Some_2 _ _ Hk) as [rg Hrg].
    assert (Hidx : rgs !! Z.to_nat (Z.of_nat a + Z.of_nat k) = Some rg).
    { replace (Z.to_nat (Z.of_nat a + Z.of_nat k)) with (a + k)%nat by lia. unfold sub in Hrg.
      apply lookup_take_Some in Hrg as [Hrg _]. by rewrite lookup_drop in Hrg. }
    rewrite (index_Ret _ _ _ Hidx). cbn [mbind go_bind]. rewrite (drop_S _ _ _ Hrg) in Hrows. cbn [map foldr] in Hrows.
    assert (Ew : w rg = if match zonePred s with Some p => negb (p rg) | None => false end then 0 else Z.of_nat (NumRows rg)).
    { unfold w, kept. destruct (zonePred s) as [p|]; [|done]. by destruct (p rg). }
    destruct (match zonePred s with Some p => _ | None => _ end); eexists; (split; [done|]); lia.
  - cbn [mbind go_bind]. rewrite drop_ge in Hrows by done. cbn [map foldr] in Hrows. do 2 f_equal. lia.
Qed.

(** ** Expressions over cells alone

    Only the dictionary fast path of string equality can tell two rows with the
    same cells apart; without it an expression is a function of the cells. *)
Fixpoint dict_free (e : Expr) : bool :=
  match e with
  | ColumnRef _ _ _ | Literal _ _ => true
  | StringEqExpr _ _ _ => false
  | CastIntToFloatExpr x | NotExpr x | IsNullExpr x | IsNotNullExpr x | InExpr x _ _ | LikeExpr x _ => dict_free x
  | BinOp _ x y _ => dict_free x && dict_free y
  | BetweenExpr x lo hi => dict_free x && dict_free lo && dict_free hi
  | AndExpr es | OrExpr es => forallb dict_free es
  | CaseExpr ws els _ =>
      forallb (λ '(c, x), dict_free c && dict_free x) ws && match els with Some x => dict_free x | None => true end
  end.
Definition cells_row (cells : list (option Cell)) : Row := mkRow cells (λ _, None).

Lemma row_eval_cells e r : dict_free e = true → row_eval r e = row_eval (cells_row (r_cells r)) e.
Proof.
  assert (Hmap : ∀ es, Forall (λ e, dict_free e = true → row_eval r e = row_eval (cells_row (r_cells r)) e) es →
    forallb dict_free es = true →
    map (λ e, tri (row_eval r e)) es = map (λ e, tri (row_eval (cells_row (r_cells r)) e)) es).
  { induction 1 as [|x es Hx _ IH]; [done|]. cbn [forallb map]. intros [H1 H2]%andb_true_iff. by rewrite (Hx H1), IH. }
  induction e using Expr_nested_ind; cbn [dict_free row_eval]; rewrite ?andb_true_iff; intros Hd; try done.
  - by rewrite IHe.
  - destruct Hd. by rewrite IHe1, IHe2.
  - by rewrite Hmap.
  - by rewrite Hmap.
  - by rewrite IHe.
  - by rewrite IHe.
  - by rewrite IHe.
  - by rewrite IHe.
  - by rewrite IHe.
  - destruct Hd as [[] ]. by rewrite IHe1, IHe2, IHe3.
  - destruct Hd as [Hw He]. induction H as [|[c x] ws [Hc Hx] _ IH]; [by destruct els; auto|].
    cbn [forallb fst snd] in *. apply andb_true_iff in Hw as [[H1 H2]%andb_true_iff Hw]. rewrite (Hc H1), (Hx H2).
    case_bool_decide; [done|]. by apply IH.
Qed.

(** SELECT exprs FROM a table WHERE pred LIMIT n OFFSET k, on rows of cells. *)
Definition cells_keep (pred : Expr) (cells : list (option Cell)) : Prop := keeps pred (cells_row cells).
#[export] Instance cells_keep_dec pred cells : Decision (cells_keep pred cells).
Proof. unfold cells_keep. apply _. Defined.
Definition cells_project (pes : list ProjectExpr) (cells : list (option Cell)) : list (option Cell) :=
  proj_row pes (cells_row cells).
Definition sql_rows (pred : Expr) (pes : list ProjectExpr) (n : Z) (offset : nat)
    (rows : list (list (option Cell))) : list (list (option Cell)) :=
  window n offset (cells_project pes <$> filter (cells_keep pred) rows).

Lemma filter_cells pred (rs : list Row) :
  dict_free pred = true → r_cells <$> filter (keeps pred) rs = filter (cells_keep pred) (r_cells <$> rs).
Proof.
  intros Hd. induction rs as [|r rs IH]; [done|]. cbn [fmap list_fmap]. rewrite !filter_cons.
  assert (E : keeps pred r ↔ cells_keep pred (r_cells r)).
  { unfold cells_keep, keeps. by rewrite (row_eval_cells pred r Hd). }
  destruct (decide (keeps pred r)) as [H|H].
  - rewrite decide_True by by apply E. cbn [fmap list_fmap]. by rewrite <- IH.
  - rewrite decide_False by by rewrite <- E. exact IH.
Qed.
Lemma project_cells pes r :
  Forall (λ pe, dict_free (pe_Expr pe) = true) pes → proj_row pes r = cells_project pes (r_cells r).
Proof.
  intros Hd. unfold proj_row, cells_project, proj_row. apply list_fmap_ext. intros i pe Hpe.
  apply row_eval_cells. exact (Forall_lookup_1 _ _ _ _ Hd Hpe).
Qed.

(** The plan over any child whose rows are known. *)
Lemma select_runs {S} `{Operator S} tys D D' (c : S) bs pred pes ts n offset :
  runs c bs None → Forall (batch_wf tys D) bs →
  EType pred = TypeBool → typeof tys pred = Some TypeBool → fits D pred = true → dict_free pred = true →
  projects tys D D' pes ts → Forall (λ pe, dict_free (pe_Expr pe) = true) pes → 0 ≤ offset →
  ∃ f p out, NewFilter c pred = Ret f ∧ NewProject f pes = Ret p ∧
    runs (NewLimitOffset p n offset) out None ∧ Forall (batch_wf ts D') out ∧
    r_cells <$> all_rows out = sql_rows pred pes n (Z.to_nat offset) (r_cells <$> all_rows bs).
Proof.
  intros Hr Hbs Hty Ht Hs Hd Hp Hdp Hoff.
  destruct (filter_stream tys D pred [] bs Hbs Ht Hs) as (b1 & st1 & E1 & Hb1 & Hr1 & _).
  pose proof (pull_spec c (mkFilterState pred []) bs None b1 st1 Hr E1) as Hrun1. cbn [finished filter_op] in Hrun1.
  destruct (project_stream tys D D' pes ts b1 Hb1 Hp) as (b2 & st2 & E2 & Hb2 & Hr2).
  pose proof (pull_spec _ (project_state pes) b1 None b2 st2 Hrun1 E2) as Hrun2. cbn [finished project_op] in Hrun2.
  destruct (limit_stream ts D' r_cells n (Z.to_nat offset) b2 Hb2) as (b3 & rem' & sk' & E3 & Hb3 & Hr3 & _).
  rewrite Z2Nat.id in E3 by done.
  pose proof (pull_spec _ (mkLimitState n offset) b2 None b3 _ Hrun2 E3) as Hrun3.
  assert (Hrun : runs (NewLimitOffset (mkPull (mkPull c (mkFilterState pred [])) (project_state pes)) n offset) b3 None)
    by (by destruct (finished _) in Hrun3).
  eexists _, _, b3. unfold NewFilter, NewProject. destruct Hp as (Hne & _). rewrite decide_True by done.
  split; [done|]. rewrite decide_False by by destruct pes. split; [done|]. split; [exact Hrun|]. split; [done|].
  rewrite Hr3, Hr2, Hr1. unfold sql_rows. f_equal. rewrite <- filter_cells, <- list_fmap_compose by done.
  apply list_fmap_ext. intros i r _. by apply project_cells.
Qed.

(** ** Properties *)


(** C37: The row-count bound the join presizes from is exact.  For a scan of any
    projection of row groups [a, e) of a file that stores a session, and for the
    same scan after any number of calls of [Next] and a [Reset] to other row
    groups, [RowCountBound] reports a tight bound, without reading, and it is the
    number of rows the scan then delivers; a Filter over it reports the same
    number, loosely, and delivers no more rows than that. *)
Theorem RowCountBound_exact r src sess names zp a0 e0 s0 k a e pred :
  file_repr src r sess → (e0 ≤ length (s_done sess))%nat → (e ≤ length (s_done sess))%nat →
  NewTableScanRange r names zp (Z.of_nat a0) (Z.of_nat e0) = Ret s0 → ts_schema s0 ≠ [] →
  let s := Reset (scan_steps k s0) (Z.of_nat a) (Z.of_nat e) in
  let tys := Type_ <$> ts_schema s0 in
  typeof tys pred = Some TypeBool → fits (2 ^ 33) pred = true →
  ∃ n bs, scan_RowCountBound s = Ret (Z.of_nat n, true) ∧ runs s bs None ∧ length (all_rows bs) = n ∧
    let f := mkPull s (mkFilterState pred []) in
    filter_RowCountBound f = Ret (Z.of_nat n, false) ∧ ∃ out, runs f out None ∧ (length (all_rows out) ≤ n)%nat.
Proof.
  intros Hfr He0 He Hs0 Hne s tys Ht Hfit. pose proof Hfr as (Hsrc & _ & Hst).
  pose proof (NewTableScanRange_spec r names zp (Z.of_nat a0) (Z.of_nat e0)) as H0. cbv zeta in H0.
  case_decide; [|destruct H0 as [? E]; congruence].
  destruct H0 as (s' & E & _ & Hmap & Hs'). rewrite E in Hs0. injection Hs0 as ->. rewrite Hsrc in Hmap.
  assert (Hp0 : pending r (ts_schema s0) sess (colMap s0) zp s0 (from r sess (colMap s0) zp a0 e0)).
  { rewrite Hs' at 3. by apply pending_start. }
  destruct (scan_steps_pending r src (ts_schema s0) sess (colMap s0) zp k s0 _ Hfr Hmap Hne Hp0)
    as (rem' & Hr & Hsch & Hc & Hz & Hb & _).
  assert (Hes : s = mkTableScan r (ts_schema s0) (colMap s0) zp (Z.of_nat a) (Z.of_nat e) (Z.of_nat a) None (bufs (scan_steps k s0))).
  { unfold s, Reset, closeRowGroup, set_rg. cbn [ts_reader ts_schema colMap zonePred crList bufs]. by rewrite Hr, Hsch, Hc, Hz. }
  assert (Hp : pending r (ts_schema s0) sess (colMap s0) zp s (from r sess (colMap s0) zp a e)).
  { rewrite Hes. by apply pending_start. }
  destruct (table_runs r src (ts_schema s0) sess (colMap s0) zp Hfr Hmap Hne s a e Hp) as (bs & send & Hrun%runs_to_runs & _ & Hwf & Hrows).
  exists (length (all_rows bs)), bs.
  assert (Hbound : scan_RowCountBound s = Ret (Z.of_nat (length (all_rows bs)), true)).
  { rewrite (scan_bound_spec s a e) by by rewrite Hes. f_equal. f_equal.
    rewrite <- (length_fmap r_cells), Hrows. rewrite Hes. cbn [zonePred ts_reader].
    symmetry. apply (length_table_rows src (r_file r)). by apply Forall2_take, Forall2_drop. }
  split; [done|]. split; [done|]. split; [done|]. cbv zeta. split.
  - unfold filter_RowCountBound. cbn [row_bound scan_bound p_child]. rewrite Hbound. done.
  - destruct (filter_stream tys (2 ^ 33) pred [] bs Hwf Ht Hfit) as (out & st & Eo & _ & Ho & _).
    exists out. split; [exact (pull_spec s (mkFilterState pred []) bs None out st Hrun Eo)|].
    rewrite Ho. apply length_filter.
Qed.

Lemma RowCountBound_exact_witness :
  let s := Reset (scan_steps 1 (demo_scan "id")) 0 1 in
  let pred := IsNotNullExpr (ColumnRef "id" 0 TypeInt64) in
  ∃ n bs, scan_RowCountBound s = Ret (Z.of_nat n, true) ∧ runs s bs None ∧ length (all_rows bs) = n ∧
    let f := mkPull s (mkFilterState pred []) in
    filter_RowCountBound f = Ret (Z.of_nat n, false) ∧ ∃ out, runs f out None ∧ (length (all_rows out) ≤ n)%nat.
Proof.
  apply (RowCountBound_exact demo_reader [demo_field] demo_session ["id"%string] None 0 1 (demo_scan "id") 1 0 1
    (IsNotNullExpr (ColumnRef "id" 0 TypeInt64))).
  - exact demo_reader_repr.
  - reflexivity.
  - reflexivity.
  - reflexivity.
  - discriminate.
  - reflexivity.
  - reflexivity.
Defined.

(** SELECT name, id FROM t WHERE id > 0 LIMIT 1 OFFSET 1, over the rows (7, x),
    (-1, NULL), (3, y). *)
Definition demo_pred : Expr := BinOp BinGT (ColumnRef "id" 0 TypeInt64) (Literal (CInt 0) TypeInt64) TypeBool.
Definition demo_select : list ProjectExpr :=
  [mkProjectExpr "name" (ColumnRef "name" 1 TypeString); mkProjectExpr "id" (ColumnRef "id" 0 TypeInt64)].
