(* ===== verification/Aggregate.v ===== *)
(** * Package exec: HashAggregate ([exec/aggregate.go], [exec/agg_intkey.go])

    The code's maps from a group key to accumulators, non-null counts, string
    accumulators, distinct sets and samples always have the same keys, so they
    are one map to a record.  A group's key is its serialised byte string, and
    while the integer-key path is on, a packed word of global dictionary codes.
    The theorems are in AggSpec and later files. *)
From Stdlib Require Import ZArith Lia ZifyNat.
From stdpp Require Import base numbers list strings gmap.
From S2P Require Import Prelude Encoding Codec Float64 Schema Writer Reader Batch Scratch VExpr VKernel VCase VExprSpec Operator Distinct Sorting Emit Sort.
#[local] Open Scope Z_scope.

(** ** Data *)

Inductive AggKind : Type := AggCount | AggSum | AggAvg | AggMin | AggMax | AggCountDistinct.
#[export] Instance AggKind_eq_dec : EqDecision AggKind.
Proof. solve_decision. Defined.
Record AggExpr : Type := mkAggExpr {
  Kind : AggKind; a_ColIdx : Z; OutName : string; a_Distinct : bool; AccumType : DataType
}.
Definition AccumTypeFor (kind : AggKind) (srcType : DataType) : DataType :=
  match kind with
  | AggAvg => TypeFloat64
  | AggSum => match srcType with TypeFloat64 => TypeFloat64 | _ => TypeInt64 end
  | AggMin | AggMax =>
      match srcType with TypeFloat64 => TypeFloat64 | TypeString => TypeString | _ => TypeInt64 end
  | AggCount | AggCountDistinct => TypeInt64
  end.

Record groupByVal : Type := mkGroupByVal { g_isNull : bool; strVal : string; bits_ : Z }.
(** Everything kept for one group. *)
Record group : Type := mkGroup {
  accs : list Z; nonNull : list Z; strs : list string;
  intSets : list (option (gset Z)); strSets : list (option (gset string));
  sample : option (list groupByVal)
}.
(** [intKeyState]; the remap memo is keyed by the dictionary's contents, which a
    pointer determines. *)
Record intKeyState : Type := mkIntKeyState {
  enabled : bool;
  globalDicts : list DictBuilder; shifts : list Z; widths : list Z;
  remaps : list (gmap (list Z * list Z) (list Z));
  intKeys : list Z; intGroups : gmap Z group
}.
(** What is fixed at construction, and what accumulates. *)
Record aggConf : Type := mkAggConf {
  groupBy : list Z; aggExprs : list AggExpr; ha_schema : Schema; hasDistinct : bool
}.
Record aggState : Type := mkAggState {
  keys : list (list Z); groups : gmap (list Z) group; intKey : intKeyState; intKeyDecided : bool
}.
Record HashAggregate (S : Type) : Type := mkHashAggregate {
  ha_child : S; conf : aggConf; state : aggState; ha_done : bool; outPos : nat
}.
Arguments mkHashAggregate {S}.
Arguments ha_child {S}. Arguments conf {S}. Arguments state {S}. Arguments ha_done {S}. Arguments outPos {S}.

Definition zeroIntKey : intKeyState := mkIntKeyState false [] [] [] [] [] ∅.
Definition hasStrAgg (c : aggConf) : bool := existsb (λ ae, bool_decide (AccumType ae = TypeString)) (aggExprs c).
(** [initMaps]. *)
Definition initMaps : aggState := mkAggState [] ∅ zeroIntKey false.

(** One aggregate of [NewHashAggregate]'s loop: the resolved expression and its
    output field. *)
Definition resolveAgg (childSchema : Schema) (ae : AggExpr) : go (AggExpr * Field) :=
  srcType ← (if decide (0 ≤ a_ColIdx ae) then
      if decide (Z.of_nat (length childSchema) ≤ a_ColIdx ae)
      then Err (ErrMsg "exec: hash aggregate: aggregate column out of range")
      else f ← index childSchema (Z.to_nat (a_ColIdx ae)); Ret (Type_ f)
    else Ret TypeInt64);
  if decide ((Kind ae = AggSum ∨ Kind ae = AggAvg) ∧ srcType ≠ TypeInt64 ∧ srcType ≠ TypeFloat64)
  then Err (ErrMsg "exec: hash aggregate: SUM/AVG input must be numeric") else
  let accum := if decide (AccumType ae = TypeOther 0) then AccumTypeFor (Kind ae) srcType else AccumType ae in
  let t := match Kind ae with
    | AggCount | AggCountDistinct => TypeInt64
    | AggSum | AggMin | AggMax => srcType
    | AggAvg => TypeFloat64
    end in
  Ret (mkAggExpr (Kind ae) (a_ColIdx ae) (OutName ae) (a_Distinct ae) accum, mkField (OutName ae) t EncPlain true).
Definition NewHashAggregate {S} `{Operator S} (child : S) (groupBy : list Z) (aggs : list AggExpr)
    : go (HashAggregate S) :=
  if decide (length aggs = 0 ∧ length groupBy = 0)%nat
  then Err (ErrMsg "exec: hash aggregate: no group-by columns or aggregate expressions") else
  let childSchema := OpSchema child in
  outFields ← foldM (λ outFields idx,
      if decide (idx < 0 ∨ Z.of_nat (length childSchema) ≤ idx)
      then Err (ErrMsg "exec: hash aggregate: group-by column out of range")
      else f ← index childSchema (Z.to_nat idx); Ret (outFields ++ [f])) [] groupBy;
  '(resolved, outFields) ← foldM (λ '(resolved, outFields) ae,
      '(ae, f) ← resolveAgg childSchema ae; Ret (resolved ++ [ae], outFields ++ [f])) ([], outFields) aggs;
  let hasDistinct := existsb (λ ae, bool_decide (Kind ae = AggCountDistinct)) aggs in
  Ret (mkHashAggregate child (mkAggConf groupBy resolved outFields hasDistinct) initMaps false 0).

(** ** New groups *)

Definition MaxInt64 : Z := 2 ^ 63 - 1.
Definition MinInt64 : Z := - 2 ^ 63.
(** [math.MaxFloat64] and its negation, as bit patterns. *)
Definition MaxFloat64 : Z := 0x7FEFFFFFFFFFFFFF.
Definition NegMaxFloat64 : Z := 0xFFEFFFFFFFFFFFFF.
Definition seed (ae : AggExpr) : Z :=
  match Kind ae with
  | AggMin => match AccumType ae with
              | TypeFloat64 => to_i64 MaxFloat64 | TypeString => 0 | _ => MaxInt64 end
  | AggMax => match AccumType ae with
              | TypeFloat64 => to_i64 NegMaxFloat64 | TypeString => 0 | _ => MinInt64 end
  | _ => 0
  end.
Definition newAccums (c : aggConf) : list Z := seed <$> aggExprs c.
Definition newStrAccums (c : aggConf) : list string :=
  if hasStrAgg c then replicate (length (aggExprs c)) ""%string else [].

(** The group-by values of a row. *)
Definition sampleOf (v : Vector) (rowIdx : nat) : go groupByVal :=
  isnull ← IsNull v rowIdx;
  if (isnull : bool) then Ret (mkGroupByVal true "" 0) else
  match v with
  | StringVector codes dict _ => '(s, _) ← sv_Get codes dict rowIdx; Ret (mkGroupByVal false s 0)
  | _ => x ← extractInt64 v rowIdx; Ret (mkGroupByVal false "" (to_u64 x))
  end.
Definition takeSample (c : aggConf) (b : Batch) (rowIdx : nat) : go (list groupByVal) :=
  foldM (λ out colIdx, v ← vectorAt b colIdx; s ← sampleOf v rowIdx; Ret (out ++ [s])) [] (groupBy c).

(** Distinct sets of a new group: allocated for COUNT(DISTINCT) by the kind of
    the aggregate's vector. *)
Definition newIntSet (aggVecs : list (option Vector)) (jae : nat * AggExpr) : go (option (gset Z)) :=
  let '(j, ae) := jae in
  match Kind ae with
  | AggCountDistinct =>
      if decide (a_ColIdx ae < 0) then Ret None else
      vec ← index aggVecs j; Ret (match vec with Some (StringVector _ _ _) => None | _ => Some ∅ end)
  | _ => Ret None
  end.
Definition newStrSet (aggVecs : list (option Vector)) (jae : nat * AggExpr) : go (option (gset string)) :=
  let '(j, ae) := jae in
  match Kind ae with
  | AggCountDistinct =>
      if decide (a_ColIdx ae < 0) then Ret None else
      vec ← index aggVecs j; Ret (match vec with Some (StringVector _ _ _) => Some ∅ | _ => None end)
  | _ => Ret None
  end.
Definition newGroup (c : aggConf) (b : Batch) (rowIdx : nat) (aggVecs : list (option Vector)) : go group :=
  sample ← takeSample c b rowIdx;
  ints ← (if hasDistinct c then foldM (λ l x, s ← newIntSet aggVecs x; Ret (l ++ [s])) [] (enum (aggExprs c)) else Ret []);
  strs ← (if hasDistinct c then foldM (λ l x, s ← newStrSet aggVecs x; Ret (l ++ [s])) [] (enum (aggExprs c)) else Ret []);
  Ret (mkGroup (newAccums c) (replicate (length (aggExprs c)) 0) (newStrAccums c) ints strs (Some sample)).

(** ** Folding one row into a group *)

Definition vec_of (v : option Vector) : go Vector := match v with Some v => Ret v | None => Panic end.
Definition set_accs (g : group) (l : list Z) : group :=
  mkGroup l (nonNull g) (strs g) (intSets g) (strSets g) (sample g).
Definition set_nonNull (g : group) (l : list Z) : group :=
  mkGroup (accs g) l (strs g) (intSets g) (strSets g) (sample g).
Definition set_strs (g : group) (l : list string) : group :=
  mkGroup (accs g) (nonNull g) l (intSets g) (strSets g) (sample g).
(** [accs[j] = x] and [nonNull[j] += d]. *)
Definition put_acc (g : group) (j : nat) (x : Z) : go group := l ← store (accs g) j x; Ret (set_accs g l).
Definition add_nonNull (g : group) (j : nat) (d : Z) : go group :=
  x ← index (nonNull g) j; l ← store (nonNull g) j (to_i64 (x + d)); Ret (set_nonNull g l).

(** [v.( *Float64Vector).Values[rowIdx]] and [v.( *StringVector).Get(rowIdx)]. *)
Definition floatAt (v : Vector) (rowIdx : nat) : go Z :=
  match v with Float64Vector vs _ => index vs rowIdx | _ => Panic end.
Definition stringAt (v : Vector) (rowIdx : nat) : go string :=
  match v with StringVector codes dict _ => '(s, _) ← sv_Get codes dict rowIdx; Ret s | _ => Panic end.
Definition string_lt (a b : string) : bool := is_lt (lex (bytes_of a) (bytes_of b)).

Definition minMaxString (strs : list string) (j : nat) (s : string) (seen less : bool) : go (list string) :=
  if negb seen then store strs j s else
  cur ← index strs j;
  if (if less then string_lt s cur else string_lt cur s) then store strs j s else Ret strs.

(** The case of SUM. *)
Definition foldSum (ae : AggExpr) (v : Vector) (rowIdx j : nat) (g : group) : go group :=
  g ← add_nonNull g j 1;
  acc ← index (accs g) j;
  match AccumType ae with
  | TypeFloat64 => x ← floatAt v rowIdx; put_acc g j (to_i64 (f64_add (to_u64 acc) x))
  | _ => x ← extractInt64 v rowIdx; put_acc g j (to_i64 (acc + x))
  end.
(** The case of AVG: integers are added as floats. *)
Definition foldAvg (v : Vector) (rowIdx j : nat) (g : group) : go group :=
  g ← add_nonNull g j 1;
  acc ← index (accs g) j;
  x ← match v with
      | Float64Vector vs _ => index vs rowIdx
      | _ => x ← extractInt64 v rowIdx; Ret (f64_of_int x)
      end;
  put_acc g j (to_i64 (f64_add (to_u64 acc) x)).
(** The cases of MIN ([less]) and MAX. *)
Definition foldMinMax (less : bool) (ae : AggExpr) (v : Vector) (rowIdx j : nat) (g : group) : go group :=
  match AccumType ae with
  | TypeString =>
      s ← stringAt v rowIdx;
      n ← index (nonNull g) j;
      l ← minMaxString (strs g) j s (bool_decide (0 < n)) less;
      add_nonNull (set_strs g l) j 1
  | t =>
      g ← add_nonNull g j 1;
      val ← extractInt64 v rowIdx;
      acc ← index (accs g) j;
      let better := match t with
        | TypeFloat64 => if less then f64_lt (to_u64 val) (to_u64 acc) else f64_lt (to_u64 acc) (to_u64 val)
        | _ => if less then val <? acc else acc <? val
        end in
      if better then put_acc g j val else Ret g
  end.
(** COUNT(DISTINCT): the value joins the set of its kind. *)
Definition addDistinct (v : Vector) (rowIdx j : nat) (g : group) : go group :=
  match v with
  | StringVector _ _ _ =>
      s ← stringAt v rowIdx;
      o ← index (strSets g) j;
      l ← store (strSets g) j (Some ({[s]} ∪ default ∅ o));
      Ret (mkGroup (accs g) (nonNull g) (strs g) (intSets g) l (sample g))
  | _ =>
      x ← extractInt64 v rowIdx;
      o ← index (intSets g) j;
      l ← store (intSets g) j (Some ({[x]} ∪ default ∅ o));
      Ret (mkGroup (accs g) (nonNull g) (strs g) l (strSets g) (sample g))
  end.

(** One aggregate of a row: the switch of [accumulate], and without the DISTINCT
    case that of [foldRow]. *)
Definition foldAgg (aggVecs : list (option Vector)) (rowIdx : nat) (g : group) (jae : nat * AggExpr) : go group :=
  let '(j, ae) := jae in
  v ← index aggVecs j;
  let count g := acc ← index (accs g) j; g ← put_acc g j (to_i64 (acc + 1)); add_nonNull g j 1 in
  if bool_decide (Kind ae = AggCount ∧ a_ColIdx ae < 0) then count g else
  v ← vec_of v;
  isnull ← IsNull v rowIdx;
  if (isnull : bool) then Ret g else
  match Kind ae with
  | AggCount => count g
  | AggCountDistinct => addDistinct v rowIdx j g
  | AggSum => foldSum ae v rowIdx j g
  | AggAvg => foldAvg v rowIdx j g
  | AggMin => foldMinMax true ae v rowIdx j g
  | AggMax => foldMinMax false ae v rowIdx j g
  end.
Definition accumulateAggs (c : aggConf) (aggVecs : list (option Vector)) (rowIdx : nat) (g : group) : go group :=
  foldM (foldAgg aggVecs rowIdx) g (enum (aggExprs c)).
(** [foldRow] passes over COUNT(DISTINCT). *)
Definition foldRow (c : aggConf) (aggVecs : list (option Vector)) (rowIdx : nat) (g : group) : go group :=
  foldM (λ g jae, match Kind jae.2 with AggCountDistinct => Ret g | _ => foldAgg aggVecs rowIdx g jae end)
    g (enum (aggExprs c)).

(** ** The string-key path *)

Definition buildKey (c : aggConf) (b : Batch) (rowIdx : nat) : go (list Z) :=
  foldM (λ buf colIdx, v ← vectorAt b colIdx; appendKey rowIdx buf v) [] (groupBy c).
Definition set_groups (s : aggState) (keys : list (list Z)) (groups : gmap (list Z) group) : aggState :=
  mkAggState keys groups (intKey s) (intKeyDecided s).
(** One row by its key: find or create the group, then fold the row into it. *)
Definition upsert (c : aggConf) (b : Batch) (aggVecs : list (option Vector)) (rowIdx : nat)
    (fold : group → go group) (s : aggState) (key : list Z) : go aggState :=
  '(keys, g) ← match groups s !! key with
               | Some g => Ret (keys s, g)
               | None => g ← newGroup c b rowIdx aggVecs; Ret (keys s ++ [key], g)
               end;
  g ← fold g;
  Ret (set_groups s keys (<[key := g]> (groups s))).
(** The row loop of [accumulate]. *)
Definition accumulateRow (c : aggConf) (b : Batch) (aggVecs : list (option Vector)) (s : aggState) (rowIdx : nat) : go aggState :=
  key ← buildKey c b rowIdx;
  upsert c b aggVecs rowIdx (accumulateAggs c aggVecs rowIdx) s key.
(** [accumulateOneRow]. *)
Definition accumulateOneRow (c : aggConf) (key : list Z) (b : Batch) (rowIdx : nat) (aggVecs : list (option Vector))
    (s : aggState) : go aggState :=
  upsert c b aggVecs rowIdx (foldRow c aggVecs rowIdx) s key.

(** [for ri := 0; ri < rows.n; ri++ { rowIdx := rows.at(ri); ... }] *)
Definition rowLoop {A} (rows : rowSet) (f : A → nat → go A) (a : A) : go A :=
  foldM (λ a ri, rowIdx ← rs_at rows ri; f a rowIdx) a (seq 0 (rs_n rows)).
Definition accumulateStringKey (c : aggConf) (b : Batch) (rows : rowSet) (aggVecs : list (option Vector))
    (s : aggState) : go aggState :=
  rowLoop rows (λ s rowIdx, key ← buildKey c b rowIdx; accumulateOneRow c key b rowIdx aggVecs s) s.

(** ** Without GROUP BY: one column at a time *)

(** Type assertions outside a loop. *)
Definition asFloat (v : option Vector) : go (option Vector) :=
  match v with Some (Float64Vector _ _) => Ret v | _ => Panic end.
Definition asString (v : option Vector) : go (option Vector) :=
  match v with Some (StringVector _ _ _) => Ret v | _ => Panic end.
(** A loop over the non-NULL rows of [v] with a local [cur] and the count. *)
Definition directLoop {A} (rows : rowSet) (v : option Vector) (j : nat) (step : Vector → A → nat → go A)
    (cur : A) (g : group) : go (A * group) :=
  rowLoop rows (λ '(cur, g) rowIdx,
      v ← vec_of v; isnull ← IsNull v rowIdx;
      if (isnull : bool) then Ret (cur, g) else
      cur ← step v cur rowIdx; g ← add_nonNull g j 1; Ret (cur, g)) (cur, g).
(** A loop that reads and writes the group itself. *)
Definition directRows (rows : rowSet) (v : option Vector) (f : Vector → group → nat → go group) (g : group) : go group :=
  rowLoop rows (λ g rowIdx,
      v ← vec_of v; isnull ← IsNull v rowIdx; if (isnull : bool) then Ret g else f v g rowIdx) g.

Definition directMinMax (less : bool) (ae : AggExpr) (rows : rowSet) (v : option Vector) (j : nat) (g : group) : go group :=
  match AccumType ae with
  | TypeString =>
      v ← asString v;
      directRows rows v (λ v g rowIdx,
        s ← stringAt v rowIdx; n ← index (nonNull g) j;
        l ← minMaxString (strs g) j s (bool_decide (0 < n)) less; add_nonNull (set_strs g l) j 1) g
  | TypeFloat64 =>
      v ← asFloat v;
      acc ← index (accs g) j;
      '(cur, g) ← directLoop rows v j (λ v cur rowIdx, x ← floatAt v rowIdx;
         Ret (if (if less then f64_lt x cur else f64_lt cur x) then x else cur)) (to_u64 acc) g;
      put_acc g j (to_i64 cur)
  | _ =>
      directRows rows v (λ v g rowIdx,
        val ← extractInt64 v rowIdx; acc ← index (accs g) j;
        g ← (if (if less then val <? acc else acc <? val) then put_acc g j val else Ret g);
        add_nonNull g j 1) g
  end.
Definition directSum (ae : AggExpr) (rows : rowSet) (v : option Vector) (j : nat) (g : group) : go group :=
  match AccumType ae with
  | TypeFloat64 =>
      v ← asFloat v;
      acc ← index (accs g) j;
      '(cur, g) ← directLoop rows v j (λ v cur rowIdx, x ← floatAt v rowIdx; Ret (f64_add cur x)) (to_u64 acc) g;
      put_acc g j (to_i64 cur)
  | _ =>
      directRows rows v (λ v g rowIdx,
        acc ← index (accs g) j; x ← extractInt64 v rowIdx; g ← put_acc g j (to_i64 (acc + x)); add_nonNull g j 1) g
  end.
Definition directAvg (rows : rowSet) (v : option Vector) (j : nat) (g : group) : go group :=
  acc ← index (accs g) j;
  '(cur, g) ← directLoop rows v j (λ v cur rowIdx,
      x ← match v with
          | Float64Vector vs _ => index vs rowIdx
          | _ => x ← extractInt64 v rowIdx; Ret (f64_of_int x)
          end;
      Ret (f64_add cur x)) (to_u64 acc) g;
  put_acc g j (to_i64 cur).
Definition directAgg (rows : rowSet) (aggVecs : list (option Vector)) (g : group) (jae : nat * AggExpr) : go group :=
  let '(j, ae) := jae in
  v ← index aggVecs j;
  match Kind ae with
  | AggCount =>
      if decide (a_ColIdx ae < 0) then
        let n := Z.of_nat (rs_n rows) in
        acc ← index (accs g) j; g ← put_acc g j (to_i64 (acc + n)); add_nonNull g j n
      else
        directRows rows v (λ _ g _, acc ← index (accs g) j; g ← put_acc g j (to_i64 (acc + 1)); add_nonNull g j 1) g
  | AggCountDistinct => directRows rows v (λ v g rowIdx, addDistinct v rowIdx j g) g
  | AggSum => directSum ae rows v j g
  | AggAvg => directAvg rows v j g
  | AggMin => directMinMax true ae rows v j g
  | AggMax => directMinMax false ae rows v j g
  end.
(** [accumulateDirect], for the one group of key "". *)
Definition accumulateDirect (c : aggConf) (rows : rowSet) (aggVecs : list (option Vector)) (s : aggState) : go aggState :=
  let n := length (aggExprs c) in
  let sets {A} : list (option A) := if hasDistinct c then replicate n None else [] in
  let '(keys, g) := match groups s !! [] with
    | Some g => (keys s, g)
    | None => (keys s ++ [[]], mkGroup (newAccums c) (replicate n 0) (newStrAccums c) sets sets None)
    end in
  g ← foldM (directAgg rows aggVecs) g (enum (aggExprs c));
  Ret (set_groups s keys (<[[] := g]> (groups s))).

(** ** The integer-key path *)

(** Column [i] takes bits [shifts[i], shifts[i] + widths[i]). *)
Definition packing (n : nat) : Z :=
  if decide (n ≤ 2)%nat then 32 else if decide (n ≤ 4)%nat then 16 else if decide (n ≤ 8)%nat then 8 else 0.
Definition intKey_init (n : nat) : intKeyState :=
  let w := packing n in
  mkIntKeyState true (replicate n NewDictBuilder) ((λ i, Z.of_nat i * w) <$> seq 0 n) (replicate n w)
    (replicate n ∅) [] ∅.
Fixpoint allDict (b : Batch) (groupBy : list Z) : go bool :=
  match groupBy with
  | [] => Ret true
  | colIdx :: groupBy =>
      v ← vectorAt b colIdx;
      match v with StringVector _ (Some _) _ => allDict b groupBy | _ => Ret false end
  end.
Definition canUseIntKey (b : Batch) (groupBy : list Z) : go bool :=
  if decide (length groupBy = 0 ∨ 8 < length groupBy)%nat then Ret false else allDict b groupBy.

Definition set_dicts (ik : intKeyState) (gds : list DictBuilder) (rms : list (gmap (list Z * list Z) (list Z))) : intKeyState :=
  mkIntKeyState (enabled ik) gds (shifts ik) (widths ik) rms (intKeys ik) (intGroups ik).
Definition set_ints (ik : intKeyState) (keys : list Z) (groups : gmap Z group) : intKeyState :=
  mkIntKeyState (enabled ik) (globalDicts ik) (shifts ik) (widths ik) (remaps ik) keys groups.
(** One entry of a new dictionary: its global code. *)
Definition remapEntry (colPos : nat) : list Z * Dictionary * list DictBuilder → nat → go (list Z * Dictionary * list DictBuilder) :=
  λ '(remap, d, gds) localCode,
    '(s, d) ← Get d (Z.of_nat localCode);
    gd ← index gds colPos;
    let '(code, gd) := Add gd s in
    gds ← store gds colPos gd;
    remap ← store remap localCode code;
    Ret (remap, d, gds).
Definition getOrBuildRemap (ik : intKeyState) (colPos : nat) (dict : option Dictionary) : go (list Z * intKeyState) :=
  memo ← index (remaps ik) colPos;
  match dict with
  | None => Panic
  | Some d =>
      match memo !! (Offsets d, Data d) with
      | Some remap => Ret (remap, ik)
      | None =>
          '(remap, _, gds) ← foldM (remapEntry colPos)
            (replicate (length (Offsets d)) 0, d, globalDicts ik) (seq 0 (length (Offsets d)));
          rms ← store (remaps ik) colPos (<[(Offsets d, Data d) := remap]> memo);
          Ret (remap, set_dicts ik gds rms)
      end
  end.
Definition codeOverflows (ik : intKeyState) : go bool :=
  foldM (λ r '(i, gd), w ← index (widths ik) i;
      Ret (r || bool_decide (Z.shiftl 1 w ≤ Z.of_nat (db_Len gd)))) false (enum (globalDicts ik)).

(** A packed key back to the canonical byte key. *)
Definition intKeyToStringKey (ik : intKeyState) (n : nat) (key : Z) : go (list Z) :=
  foldM (λ buf i,
      shift ← index (shifts ik) i; width ← index (widths ik) i;
      let globalCode := to_u32 (Z.land (Z.shiftr key shift) (Z.shiftl 1 width - 1)) in
      isnull ← match intGroups ik !! key with
               | Some g => match sample g with Some sm => s ← index sm i; Ret (g_isNull s) | None => Ret false end
               | None => Ret false
               end;
      if (isnull : bool) then Ret (buf ++ [0; 0xFF]) else
      gd ← index (globalDicts ik) i;
      s ← GetByCode gd globalCode;
      Ret (AppendUint32 (buf ++ [2]) (to_u32 (Z.of_nat (strlen s))) ++ bytes_of s ++ [0xFF])) [] (seq 0 n).
Definition materializeToStringMaps (c : aggConf) (s : aggState) : go aggState :=
  let ik := intKey s in
  foldM (λ s key,
      strKey ← intKeyToStringKey ik (length (groupBy c)) key;
      g ← match intGroups ik !! key with Some g => Ret g | None => Panic end;
      Ret (set_groups s (keys s ++ [strKey]) (<[strKey := g]> (groups s)))) s (intKeys ik).

Definition set_intKey (s : aggState) (ik : intKeyState) : aggState :=
  mkAggState (keys s) (groups s) ik (intKeyDecided s).
(** [sv.IsNull] on some GROUP BY column. *)
Fixpoint anyNull (svecs : list Vector) (rowIdx : nat) : go bool :=
  match svecs with
  | [] => Ret false
  | v :: svecs => isnull ← IsNull v rowIdx; if (isnull : bool) then Ret true else anyNull svecs rowIdx
  end.
Definition codesOf (v : Vector) : go (list Z) := match v with StringVector codes _ _ => Ret codes | _ => Panic end.
(** The packing loop of a row; a shift past bit 63 drops bits. *)
Definition packKey (ik : intKeyState) (svecs : list Vector) (remaps : list (list Z)) (rowIdx : nat) : go Z :=
  foldM (λ key '(i, sv),
      codes ← codesOf sv; localCode ← index codes rowIdx;
      remap ← index remaps i; globalCode ← index remap (Z.to_nat localCode);
      shift ← index (shifts ik) i;
      Ret (Z.lor key (to_u64 (Z.shiftl globalCode shift)))) 0 (enum svecs).
Definition sampleStrings (svecs : list Vector) (rowIdx : nat) : go (list groupByVal) :=
  foldM (λ out sv, s ← stringAt sv rowIdx; Ret (out ++ [mkGroupByVal false s 0])) [] svecs.
Definition intRow (c : aggConf) (b : Batch) (svecs : list Vector) (remaps : list (list Z))
    (aggVecs : list (option Vector)) (s : aggState) (rowIdx : nat) : go aggState :=
  hasNull ← anyNull svecs rowIdx;
  if (hasNull : bool) then key ← buildKey c b rowIdx; accumulateOneRow c key b rowIdx aggVecs s else
  let ik := intKey s in
  key ← packKey ik svecs remaps rowIdx;
  '(ikeys, g) ← match intGroups ik !! key with
                | Some g => Ret (intKeys ik, g)
                | None => sm ← sampleStrings svecs rowIdx;
                    Ret (intKeys ik ++ [key],
                      mkGroup (newAccums c) (replicate (length (aggExprs c)) 0) (newStrAccums c) [] [] (Some sm))
                end;
  g ← foldRow c aggVecs rowIdx g;
  Ret (set_intKey s (set_ints ik ikeys (<[key := g]> (intGroups ik)))).
(** A dictionary has outgrown its bits: the groups move to the string maps. *)
Definition disabled (ik : intKeyState) (keys : list Z) (groups : gmap Z group) : intKeyState :=
  mkIntKeyState false (globalDicts ik) (shifts ik) (widths ik) (remaps ik) keys groups.
Definition leaveIntKey (c : aggConf) (s : aggState) : go aggState :=
  let ik := intKey s in
  let s := set_intKey s (disabled ik (intKeys ik) (intGroups ik)) in
  if decide (0 < length (intKeys ik))%nat then
    s ← materializeToStringMaps c s; Ret (set_intKey s (disabled ik [] ∅))
  else Ret s.
Definition accumulateIntKey (c : aggConf) (b : Batch) (rows : rowSet) (aggVecs : list (option Vector))
    (s : aggState) : go aggState :=
  '(svecs, rms, ik) ← foldM (λ '(svecs, rms, ik) '(i, colIdx),
      v ← vectorAt b colIdx;
      match v with
      | StringVector _ dict _ => '(rm, ik) ← getOrBuildRemap ik i dict; Ret (svecs ++ [v], rms ++ [rm], ik)
      | _ => Panic
      end) ([], [], intKey s) (enum (groupBy c));
  let s := set_intKey s ik in
  over ← codeOverflows ik;
  if (over : bool) then
    s ← leaveIntKey c s;
    accumulateStringKey c b rows aggVecs s
  else rowLoop rows (intRow c b svecs rms aggVecs) s.

(** ** Consuming *)

Definition acquireAggVecs (c : aggConf) (b : Batch) : go (list (option Vector)) :=
  foldM (λ vs ae,
      if decide (0 ≤ a_ColIdx ae) then v ← vectorAt b (a_ColIdx ae); Ret (vs ++ [Some v]) else Ret (vs ++ [None]))
    [] (aggExprs c).
Definition checkStrAggVecs (c : aggConf) (aggVecs : list (option Vector)) : go () :=
  foldM (λ _ '(j, ae),
      if decide (AccumType ae = TypeString) then
        v ← index aggVecs j;
        match v with
        | Some (StringVector _ _ _) => Ret ()
        | _ => Err (ErrMsg "exec: aggregate accumulates strings but its column is of another type")
        end
      else Ret ()) () (enum (aggExprs c)).
Definition accumulate (c : aggConf) (s : aggState) (b : Batch) : go aggState :=
  aggVecs ← acquireAggVecs c b;
  (if hasStrAgg c then checkStrAggVecs c aggVecs else Ret ());;
  let rows := batchRows b in
  if decide (length (groupBy c) = 0)%nat then accumulateDirect c rows aggVecs s else
  s ← (if intKeyDecided s then Ret s else
       use ← (if hasDistinct c then Ret false else canUseIntKey b (groupBy c));
       Ret (mkAggState (keys s) (groups s)
              (if (use : bool) then intKey_init (length (groupBy c)) else intKey s) true));
  if enabled (intKey s) then accumulateIntKey c b rows aggVecs s else
  rowLoop rows (accumulateRow c b aggVecs) s.

(** ** Output *)

Definition groupOf (s : aggState) (key : list Z) : go group :=
  match groups s !! key with Some g => Ret g | None => Panic end.
(** The value loop of an aggregate column: [get] reads the group's value, or says
    that it is NULL. *)
Definition outWords (s : aggState) (keys : list (list Z)) (get : group → go (option Z)) : go (list Z * list Z) :=
  foldM (λ '(vals, nb) '(i, key),
      g ← groupOf s key;
      o ← get g;
      match o with
      | None => nb ← SetNullBit nb i; Ret (vals, nb)
      | Some x => vals ← store vals i x; Ret (vals, nb)
      end) (replicate (length keys) 0, FullBitmap (length keys)) (enum keys).
(** [accs[j]] as it is or converted, NULL when no input was non-NULL. *)
Definition accOr (conv : Z → Z) (j : nat) (g : group) : go (option Z) :=
  n ← index (nonNull g) j;
  if decide (n = 0) then Ret None else acc ← index (accs g) j; Ret (Some (conv acc)).
Definition distinctCount (j : nat) (g : group) : go (option Z) :=
  n1 ← (if decide (length (intSets g) = 0)%nat then Ret 0 else
        o ← index (intSets g) j; Ret (match o with Some s => Z.of_nat (size s) | None => 0 end));
  n2 ← (if decide (length (strSets g) = 0)%nat then Ret None else
        o ← index (strSets g) j; Ret (match o with Some s => Some (Z.of_nat (size s)) | None => None end));
  Ret (Some (default n1 n2)).
Definition avgOf (j : nat) (g : group) : go (option Z) :=
  cnt ← index (nonNull g) j;
  if decide (0 < cnt) then acc ← index (accs g) j; Ret (Some (f64_div (to_u64 acc) (f64_of_int cnt))) else Ret None.

Definition buildMinMaxVector (s : aggState) (keys : list (list Z)) (j : nat) (outType : DataType) : go Vector :=
  let n := length keys in
  match outType with
  | TypeString =>
      '(db, codes, bmp) ← foldM (λ '(db, codes, bmp) '(i, key),
          g ← groupOf s key;
          cnt ← index (nonNull g) j;
          if decide (cnt = 0) then Ret (db, codes, bmp) else
          str ← (if decide (length (strs g) = 0)%nat then Ret ""%string else index (strs g) j);
          let '(code, db) := Add db str in
          codes ← store codes i code; bmp ← SetValidBit bmp i; Ret (db, codes, bmp))
        (NewDictBuilder, replicate n 0, replicate (bitmapSize n) 0) (enum keys);
      newStringVector db codes bmp
  | TypeFloat64 => '(vals, nb) ← outWords s keys (accOr to_u64 j); Ret (Float64Vector vals nb)
  | TypeDate => '(vals, nb) ← outWords s keys (accOr to_i32 j); Ret (DateVector vals nb)
  | TypeBool =>
      '(bits, nb) ← foldM (λ '(bits, nb) '(i, key),
          g ← groupOf s key;
          cnt ← index (nonNull g) j;
          if decide (cnt = 0) then nb ← SetNullBit nb i; Ret (bits, nb) else
          acc ← index (accs g) j; bits ← bv_Set bits i (negb (acc =? 0)); Ret (bits, nb))
        (replicate (bitmapSize n) 0, FullBitmap n) (enum keys);
      Ret (BoolVector bits nb n)
  | _ => '(vals, nb) ← outWords s keys (accOr (λ x, x) j); Ret (Int64Vector vals nb)
  end.
Definition aggVector (s : aggState) (keys : list (list Z)) (j : nat) (ae : AggExpr) (outType : DataType) : go Vector :=
  match Kind ae with
  | AggCount =>
      match AccumType ae with
      | TypeFloat64 =>
          '(vals, nb) ← outWords s keys (λ g, acc ← index (accs g) j; Ret (Some (to_u64 acc))); Ret (Float64Vector vals nb)
      | _ => '(vals, nb) ← outWords s keys (λ g, acc ← index (accs g) j; Ret (Some acc)); Ret (Int64Vector vals nb)
      end
  | AggCountDistinct => '(vals, nb) ← outWords s keys (distinctCount j); Ret (Int64Vector vals nb)
  | AggSum =>
      match AccumType ae with
      | TypeFloat64 => '(vals, nb) ← outWords s keys (accOr to_u64 j); Ret (Float64Vector vals nb)
      | _ => '(vals, nb) ← outWords s keys (accOr (λ x, x) j); Ret (Int64Vector vals nb)
      end
  | AggMin | AggMax => buildMinMaxVector s keys j outType
  | AggAvg => '(vals, nb) ← outWords s keys (avgOf j); Ret (Float64Vector vals nb)
  end.

(** The sample of a key; [None] when the group has none or is NULL there. *)
Definition sampleAt (s : aggState) (key : list Z) (gbPos : nat) : go (option groupByVal) :=
  g ← groupOf s key;
  match sample g with
  | None => Ret None
  | Some sm => v ← index sm gbPos; Ret (if g_isNull v then None else Some v)
  end.
Definition gbWords (s : aggState) (keys : list (list Z)) (gbPos : nat) (conv : Z → Z) : go (list Z * list Z) :=
  foldM (λ '(vals, nb) '(i, key),
      o ← sampleAt s key gbPos;
      match o with
      | None => Ret (vals, nb)
      | Some v => vals ← store vals i (conv (bits_ v)); nb ← SetValidBit nb i; Ret (vals, nb)
      end) (replicate (length keys) 0, replicate (bitmapSize (length keys)) 0) (enum keys).
Definition buildGroupByVector (s : aggState) (keys : list (list Z)) (gbPos : nat) (srcType : DataType) : go Vector :=
  let n := length keys in
  match srcType with
  | TypeString =>
      '(db, codes, nb) ← foldM (λ '(db, codes, nb) '(i, key),
          o ← sampleAt s key gbPos;
          match o with
          | None => Ret (db, codes, nb)
          | Some v =>
              let '(code, db) := Add db (strVal v) in
              codes ← store codes i code; nb ← SetValidBit nb i; Ret (db, codes, nb)
          end)
        (NewDictBuilder, replicate n 0, replicate (bitmapSize n) 0) (enum keys);
      newStringVector db codes nb
  | TypeFloat64 => '(vals, nb) ← gbWords s keys gbPos (λ x, x); Ret (Float64Vector vals nb)
  | TypeDate => '(vals, nb) ← gbWords s keys gbPos to_i32; Ret (DateVector vals nb)
  | TypeBool =>
      '(bits, nb) ← foldM (λ '(bits, nb) '(i, key),
          o ← sampleAt s key gbPos;
          match o with
          | None => Ret (bits, nb)
          | Some v => bits ← bv_Set bits i (negb (bits_ v =? 0)); nb ← SetValidBit nb i; Ret (bits, nb)
          end) (replicate (bitmapSize n) 0, replicate (bitmapSize n) 0) (enum keys);
      Ret (BoolVector bits nb n)
  | _ => '(vals, nb) ← gbWords s keys gbPos to_i64; Ret (Int64Vector vals nb)
  end.
Definition buildOutputBatch (c : aggConf) (s : aggState) (keys : list (list Z)) : go Batch :=
  let ngb := length (groupBy c) in
  vecs ← foldM (λ vecs gbPos,
      f ← index (ha_schema c) gbPos; v ← buildGroupByVector s keys gbPos (Type_ f); Ret (vecs ++ [v])) [] (seq 0 ngb);
  vecs ← foldM (λ vecs '(j, ae),
      f ← index (ha_schema c) (ngb + j); v ← aggVector s keys j ae (Type_ f); Ret (vecs ++ [v])) vecs (enum (aggExprs c));
  Ret (mkBatch (ha_schema c) vecs (length keys) None).

(** [nullVectorOfType] and the row of an aggregate over nothing. *)
Definition nullVectorOfType (t : DataType) : Vector :=
  match t with
  | TypeString => StringVector [0] None [0]
  | TypeFloat64 => Float64Vector [0] [0]
  | TypeDate => DateVector [0] [0]
  | TypeBool => BoolVector [0] [0] 1
  | _ => Int64Vector [0] [0]
  end.
Definition emptyAgg (c : aggConf) (j : nat) (ae : AggExpr) : go Vector :=
  match Kind ae with
  | AggCount | AggCountDistinct => Ret (Int64Vector [0] (FullBitmap 1))
  | AggMin | AggMax => f ← index (ha_schema c) j; Ret (nullVectorOfType (Type_ f))
  | AggSum => Ret (match AccumType ae with TypeFloat64 => Float64Vector [0] [0] | _ => Int64Vector [0] [0] end)
  | AggAvg => Ret (Float64Vector [0] [0])
  end.
Definition buildEmptyGlobalResult (c : aggConf) : go Batch :=
  vecs ← foldM (λ vecs '(j, ae), v ← emptyAgg c j ae; Ret (vecs ++ [v])) [] (enum (aggExprs c));
  Ret (mkBatch (ha_schema c) vecs 1 None).

(** ** Next *)

Section Next.
Context {S : Type} `{Operator S}.
Definition with_state (h : HashAggregate S) (c : S) (s : aggState) : HashAggregate S :=
  mkHashAggregate c (conf h) s (ha_done h) (outPos h).
Definition consumeAll (fuel : nat) (h : HashAggregate S) : go () * HashAggregate S :=
  let '(r, s, c) := drain (accumulate (conf h)) fuel fuel (ha_child h) initMaps in
  let h := with_state h c s in
  on_ret r h (λ _,
  if enabled (intKey s) && bool_decide (0 < length (intKeys (intKey s)))%nat
  then on_ret (materializeToStringMaps (conf h) s) h (λ s, (Ret (), with_state h c s))
  else (Ret (), h)).
Definition agg_emit (h : HashAggregate S) : go (option Batch) * HashAggregate S :=
  let ks := keys (state h) in
  if decide (length ks ≤ outPos h)%nat then (Ret None, h) else
  let end_ := Nat.min (outPos h + BlockRows) (length ks) in
  on_ret (ks ← slice ks (outPos h) end_; buildOutputBatch (conf h) (state h) ks) h (λ b,
  (Ret (Some b), mkHashAggregate (ha_child h) (conf h) (state h) (ha_done h) end_)).
Definition agg_next (fuel : nat) (h : HashAggregate S) : go (option Batch) * HashAggregate S :=
  if ha_done h then agg_emit h else
  let '(r, h) := consumeAll fuel h in
  on_ret r h (λ _,
  let h := mkHashAggregate (ha_child h) (conf h) (state h) true (outPos h) in
  if decide (length (keys (state h)) = 0 ∧ length (groupBy (conf h)) = 0)%nat then
    on_ret (buildEmptyGlobalResult (conf h)) h (λ b,
    (Ret (Some b), mkHashAggregate (ha_child h) (conf h) (state h) true 1))
  else agg_emit h).
#[export] Instance agg_operator : Operator (HashAggregate S) := {
  Next := agg_next;
  OpSchema h := ha_schema (conf h)
}.
End Next.
