(* ===== verification/AggSpec.v ===== *)
(** * Package exec: what folding rows into a group computes

    [step] is one aggregate of one row on plain cells.  The row-at-a-time switch
    ([accumulateAggs], [foldRow]) and the column-at-a-time loops of the path
    without GROUP BY ([directAgg]) both compute it, so the code's copies of the
    fold agree. *)
From Stdlib Require Import ZArith Lia ZifyNat.
From stdpp Require Import base numbers list strings gmap.
From S2P Require Import Prelude Encoding Codec Float64 Schema Writer Reader Batch Scratch VExpr VKernel VCase VExprSpec Operator Distinct Sorting Emit Sort Aggregate.
#[local] Open Scope Z_scope.

(** ** Steps on cells *)

Abbreviation cells := (list (option Cell)).

(** The state of one aggregate in one group. *)
Record aggSt : Type := mkAggSt {
  s_acc : Z; s_nn : Z; s_str : string; s_ints : option (gset Z); s_strs : option (gset string)
}.
Definition bump (acc : Z) (st : aggSt) : aggSt :=
  mkAggSt acc (to_i64 (s_nn st + 1)) (s_str st) (s_ints st) (s_strs st).
Definition arg (ae : AggExpr) (r : cells) : option Cell := default None (r !! Z.to_nat (a_ColIdx ae)).
Definition is_star (ae : AggExpr) : bool := bool_decide (Kind ae = AggCount ∧ a_ColIdx ae < 0).
Definition cell_float (c : Cell) : Z := match c with CFloat x => x | _ => f64_of_int (cell_word c) end.
Definition cell_str (c : Cell) : string := match c with CStr s => s | _ => ""%string end.

Definition step_minmax (less : bool) (ae : AggExpr) (c : Cell) (st : aggSt) : aggSt :=
  match AccumType ae with
  | TypeString =>
      let s := cell_str c in
      let better := if less then string_lt s (s_str st) else string_lt (s_str st) s in
      mkAggSt (s_acc st) (to_i64 (s_nn st + 1))
        (if bool_decide (0 < s_nn st) then if better then s else s_str st else s) (s_ints st) (s_strs st)
  | TypeFloat64 =>
      let x := to_u64 (cell_word c) in let m := to_u64 (s_acc st) in
      bump (if (if less then f64_lt x m else f64_lt m x) then cell_word c else s_acc st) st
  | _ =>
      let x := cell_word c in
      bump (if (if less then x <? s_acc st else s_acc st <? x) then x else s_acc st) st
  end.
Definition step_cell (ae : AggExpr) (c : Cell) (st : aggSt) : aggSt :=
  match Kind ae with
  | AggCount => bump (to_i64 (s_acc st + 1)) st
  | AggCountDistinct =>
      match c with
      | CStr s => mkAggSt (s_acc st) (s_nn st) (s_str st) (s_ints st) (Some ({[s]} ∪ default ∅ (s_strs st)))
      | _ => mkAggSt (s_acc st) (s_nn st) (s_str st) (Some ({[cell_word c]} ∪ default ∅ (s_ints st))) (s_strs st)
      end
  | AggSum =>
      bump match AccumType ae with
           | TypeFloat64 => to_i64 (f64_add (to_u64 (s_acc st)) (cell_float c))
           | _ => to_i64 (s_acc st + cell_word c)
           end st
  | AggAvg => bump (to_i64 (f64_add (to_u64 (s_acc st)) (cell_float c))) st
  | AggMin => step_minmax true ae c st
  | AggMax => step_minmax false ae c st
  end.
Definition step (ae : AggExpr) (st : aggSt) (r : cells) : aggSt :=
  if is_star ae then bump (to_i64 (s_acc st + 1)) st else
  match arg ae r with None => st | Some c => step_cell ae c st end.

(** ** Well-typed aggregates *)

Definition agg_ok (tys : list DataType) (ae : AggExpr) : Prop :=
  if is_star ae then AccumType ae = TypeInt64 else
  0 ≤ a_ColIdx ae ∧ ∃ t, tys !! Z.to_nat (a_ColIdx ae) = Some t ∧ AccumType ae = AccumTypeFor (Kind ae) t ∧
    match Kind ae with AggSum | AggAvg => numeric t = true | _ => True end.
Definition conf_ok (tys : list DataType) (c : aggConf) : Prop :=
  Forall (agg_ok tys) (aggExprs c) ∧ Forall (λ i, 0 ≤ i ∧ (Z.to_nat i < length tys)%nat) (groupBy c) ∧
  hasDistinct c = existsb (λ ae, bool_decide (Kind ae = AggCountDistinct)) (aggExprs c).

(** The concrete group of aggregate states [sts]. *)
Definition grp (c : aggConf) (sts : list aggSt) (sm : option (list groupByVal)) : group :=
  mkGroup (s_acc <$> sts) (s_nn <$> sts) (if hasStrAgg c then s_str <$> sts else [])
    (if hasDistinct c then s_ints <$> sts else []) (if hasDistinct c then s_strs <$> sts else []) sm.

Lemma fmap_insert_same {A B} (f : A → B) (l : list A) j x y :
  l !! j = Some y → f x = f y → f <$> <[j := x]> l = f <$> l.
Proof. intros Hj E. rewrite list_fmap_insert, E. apply list_insert_id. by rewrite list_lookup_fmap, Hj. Qed.

(** A loop that updates one entry of a list at each index. *)
Lemma enum_update {A B G} (f : A → B → B) (l : list A) (mk : list B → G) (F : G → nat * A → go G) sts :
  length sts = length l →
  (∀ sts' j a st, l !! j = Some a → sts !! j = Some st → sts' !! j = Some st → length sts' = length l →
     F (mk sts') (j, a) = Ret (mk (<[j := f a st]> sts'))) →
  foldM F (mk sts) (enum l) = Ret (mk (zip_with f l sts)).
Proof.
  intros Hl Hstep.
  destruct (foldM_enum_ind F (λ k g, g = mk (zip_with f (take k l) (take k sts) ++ drop k sts)) l (mk sts)) as (g & -> & ->).
  - by rewrite !take_0, drop_0.
  - intros k a g Hk ->. pose proof (lookup_lt_Some _ _ _ Hk) as Hlt.
    destruct (lookup_lt_is_Some_2 sts k) as [st Hst]; [lia|].
    assert (Hlz : length (zip_with f (take k l) (take k sts)) = k) by (rewrite length_zip_with, !length_take; lia).
    rewrite (Hstep _ k a st); [|done|done| |rewrite length_app, Hlz, length_drop; lia].
    + eexists. split; [done|]. f_equal. rewrite (take_S_r _ _ _ Hk), (take_S_r _ _ _ Hst), (drop_S _ _ _ Hst).
      rewrite zip_with_app by (rewrite !length_take; lia). rewrite insert_app_r_alt by lia. rewrite Hlz, Nat.sub_diag.
      cbn [zip_with]. by rewrite <- app_assoc.
    + rewrite lookup_app_r by lia. rewrite Hlz, Nat.sub_diag, (drop_S _ _ _ Hst). done.
  - rewrite drop_ge, app_nil_r, !take_ge by lia. done.
Qed.
(** A loop over the indices of a list that reads the list. *)
Lemma foldM_seq_index {A B} (g : A → nat → go A) (h : A → B → go A) (l : list B) a :
  (∀ i x, l !! i = Some x → ∀ a, g a i = h a x) → foldM g a (seq 0 (length l)) = foldM h a l.
Proof.
  intros H. cut (∀ k a, (k ≤ length l)%nat → foldM g a (seq k (length l - k)) = foldM h a (drop k l)).
  { intros C. specialize (C 0%nat a ltac:(lia)). by rewrite Nat.sub_0_r, drop_0 in C. }
  intros k. remember (length l - k)%nat as m eqn:Hm. revert k Hm.
  induction m as [|m IH]; intros k Hm a' Hk; [by rewrite drop_ge by lia|].
  destruct (lookup_lt_is_Some_2 l k) as [x Hx]; [lia|]. rewrite (drop_S _ _ _ Hx). cbn [seq foldM].
  rewrite (H k x Hx). destruct (h a' x); cbn [mbind go_bind]; try done. apply IH; lia.
Qed.
(** A loop that collects one value per index. *)
Lemma foldM_enum_snoc {A B} (f : nat * A → go B) (g : A → B) (l : list A) :
  (∀ j a, l !! j = Some a → f (j, a) = Ret (g a)) →
  ∀ acc, foldM (λ l x, s ← f x; Ret (l ++ [s])) acc (enum l) = Ret (acc ++ (g <$> l)).
Proof.
  intros H acc.
  destruct (foldM_enum_ind (λ l x, s ← f x; Ret (l ++ [s])) (λ k s, s = acc ++ (g <$> take k l)) l acc) as (s & -> & ->).
  - by rewrite app_nil_r.
  - intros k a s Ha ->. rewrite (H k a Ha). eexists. split; [done|].
    by rewrite (take_S_r _ _ _ Ha), fmap_app, <- app_assoc.
  - by rewrite take_ge.
Qed.
Lemma foldM_fmap {A B C} (f : A → B → go A) (g : C → B) (l : list C) a :
  foldM f a (g <$> l) = foldM (λ a x, f a (g x)) a l.
Proof. revert a. induction l as [|x l IH]; intros a; [done|]. cbn [fmap list_fmap foldM]. by destruct (f a (g x)); cbn; [apply IH|..]. Qed.

Section Fold.
Context (tys : list DataType) (D : Z) (c : aggConf) (b : Batch).
Context (Hc : conf_ok tys c) (Hb : batch_ok tys D b).
Abbreviation n := (evalLen b).
Abbreviation row i := (r_cells (row_at b i)).

(** The vectors of the aggregates. *)
Definition agg_vec (ae : AggExpr) : option Vector :=
  if decide (0 ≤ a_ColIdx ae) then Vectors b !! Z.to_nat (a_ColIdx ae) else None.
Definition agg_vecs : list (option Vector) := agg_vec <$> aggExprs c.

Lemma agg_column ae :
  agg_ok tys ae → is_star ae = false → ∃ v t, agg_vec ae = Some v ∧ Vectors b !! Z.to_nat (a_ColIdx ae) = Some v ∧
    AccumType ae = AccumTypeFor (Kind ae) t ∧ column v t n (λ i, arg ae (row i)) ∧
    match Kind ae with AggSum | AggAvg => numeric t = true | _ => True end.
Proof using Hb.
  unfold agg_ok. intros Ha Hs. rewrite Hs in Ha. destruct Ha as (Hi & t & Ht & Hat & Hn). destruct Hb as [_ Hvs].
  destruct (Forall2_lookup_r _ _ _ _ _ Hvs Ht) as (v & Ev & Hok & Et & Hl & _).
  exists v, t. unfold agg_vec. rewrite decide_True by done. split; [done|]. split; [done|]. split; [done|].
  split; [|done]. eapply column_ext; [by apply column_self|]. intros i _. unfold arg, row_at. cbn [r_cells].
  by rewrite list_lookup_fmap, Ev.
Qed.

Lemma acquire_spec : acquireAggVecs c b = Ret agg_vecs.
Proof using Hc Hb.
  unfold acquireAggVecs, agg_vecs. destruct Hc as (Ha & _). clear Hc.
  cut (∀ acc, foldM (λ vs ae, if decide (0 ≤ a_ColIdx ae)
      then v ← vectorAt b (a_ColIdx ae); Ret (vs ++ [Some v]) else Ret (vs ++ [None])) acc (aggExprs c)
    = Ret (acc ++ (agg_vec <$> aggExprs c))); [intros H; apply (H [])|].
  induction Ha as [|ae aes Hae _ IH]; intros acc; [by rewrite app_nil_r|]. cbn [foldM fmap list_fmap].
  destruct (decide (0 ≤ a_ColIdx ae)) as [Hi|Hi].
  - assert (Hs : is_star ae = false) by (unfold is_star; apply bool_decide_eq_false_2; lia).
    destruct (agg_column ae Hae Hs) as (v & t & Eav & Ev & _). unfold vectorAt. rewrite decide_False by lia.
    rewrite (index_Ret _ _ _ Ev). cbn [mbind go_bind]. by rewrite IH, <- app_assoc, Eav.
  - assert (Eav : agg_vec ae = None) by (unfold agg_vec; by rewrite decide_False). rewrite go_bind_ret_l. by rewrite IH, <- app_assoc, Eav.
Qed.

(** ** One aggregate, one row *)

Lemma put_acc_grp sts sm j st x :
  sts !! j = Some st →
  put_acc (grp c sts sm) j x = Ret (grp c (<[j := mkAggSt x (s_nn st) (s_str st) (s_ints st) (s_strs st)]> sts) sm).
Proof using.
  intros Hj. unfold put_acc. cbn [accs grp]. rewrite store_Ret by (rewrite length_fmap; by eapply lookup_lt_Some).
  cbn [mbind go_bind]. unfold set_accs, grp. cbn [nonNull strs intSets strSets sample]. f_equal.
  rewrite (list_fmap_insert s_acc), (fmap_insert_same s_nn _ _ _ _ Hj), (fmap_insert_same s_str _ _ _ _ Hj), (fmap_insert_same s_ints _ _ _ _ Hj), (fmap_insert_same s_strs _ _ _ _ Hj) by done. done.
Qed.
Lemma add_nonNull_grp sts sm j st d :
  sts !! j = Some st →
  add_nonNull (grp c sts sm) j d
  = Ret (grp c (<[j := mkAggSt (s_acc st) (to_i64 (s_nn st + d)) (s_str st) (s_ints st) (s_strs st)]> sts) sm).
Proof using.
  intros Hj. unfold add_nonNull. cbn [nonNull grp]. rewrite (index_Ret _ _ (s_nn st)) by by rewrite list_lookup_fmap, Hj.
  cbn [mbind go_bind]. rewrite store_Ret by (rewrite length_fmap; by eapply lookup_lt_Some).
  cbn [mbind go_bind]. unfold set_nonNull, grp. cbn [accs strs intSets strSets sample]. f_equal.
  rewrite (list_fmap_insert s_nn), (fmap_insert_same s_acc _ _ _ _ Hj), (fmap_insert_same s_str _ _ _ _ Hj), (fmap_insert_same s_ints _ _ _ _ Hj), (fmap_insert_same s_strs _ _ _ _ Hj) by done. done.
Qed.
Lemma index_accs sts sm j st : sts !! j = Some st → index (accs (grp c sts sm)) j = Ret (s_acc st).
Proof using. intros Hj. apply index_Ret. cbn [accs grp]. by rewrite list_lookup_fmap, Hj. Qed.
Lemma index_nonNull sts sm j st : sts !! j = Some st → index (nonNull (grp c sts sm)) j = Ret (s_nn st).
Proof using. intros Hj. apply index_Ret. cbn [nonNull grp]. by rewrite list_lookup_fmap, Hj. Qed.
Lemma set_acc_bump sts sm j st x :
  sts !! j = Some st →
  (g ← put_acc (grp c sts sm) j x; add_nonNull g j 1) = Ret (grp c (<[j := bump x st]> sts) sm).
Proof using.
  intros Hj. rewrite (put_acc_grp _ _ _ st) by done. cbn [mbind go_bind]. erewrite add_nonNull_grp.
  2: { rewrite list_lookup_insert_eq; [done|]. by eapply lookup_lt_Some. }
  by rewrite list_insert_insert_eq.
Qed.
Lemma bump_set_acc sts sm j st x :
  sts !! j = Some st →
  (g ← add_nonNull (grp c sts sm) j 1; put_acc g j x) = Ret (grp c (<[j := bump x st]> sts) sm).
Proof using.
  intros Hj. rewrite (add_nonNull_grp _ _ _ st) by done. cbn [mbind go_bind]. erewrite put_acc_grp.
  2: { rewrite list_lookup_insert_eq; [done|]. by eapply lookup_lt_Some. }
  by rewrite list_insert_insert_eq.
Qed.

Lemma conf_agg j ae : aggExprs c !! j = Some ae → agg_ok tys ae.
Proof using Hc. destruct Hc as (Ha & _). intros Hj. exact (Forall_lookup_1 _ _ _ _ Ha Hj). Qed.
Lemma conf_str j ae : aggExprs c !! j = Some ae → AccumType ae = TypeString → hasStrAgg c = true.
Proof using.
  clear. intros Hj Ht. unfold hasStrAgg. apply existsb_exists. exists ae. split; [|by apply bool_decide_eq_true_2].
  apply list_elem_of_In. by eapply list_elem_of_lookup_2.
Qed.
Lemma conf_distinct j ae : aggExprs c !! j = Some ae → Kind ae = AggCountDistinct → hasDistinct c = true.
Proof using Hc.
  destruct Hc as (_ & _ & ->). clear. intros Hj Ht. apply existsb_exists. exists ae. split; [|by apply bool_decide_eq_true_2].
  apply list_elem_of_In. by eapply list_elem_of_lookup_2.
Qed.

(** Reading a non-NULL value of the aggregate's column. *)
Lemma read_float v t i x :
  column v t n (λ i, arg x (row i)) → (i < n)%nat → ∀ c0, arg x (row i) = Some c0 → t = TypeFloat64 →
  floatAt v i = Ret (cell_float c0) ∧ cell_word c0 = to_i64 (cell_float c0).
Proof using.
  clear. intros Hcol Hi c0 Hx ->. pose proof (column_value _ _ _ _ _ _ Hcol Hi Hx) as Hv.
  pose proof (column_has_type _ _ _ _ _ Hcol Hi) as Ht. cbv beta in Ht. rewrite Hx in Ht. cbn [cell_has_type] in Ht.
  destruct Hcol as (_ & Et & _). destruct v as [|vs nb| | |]; try done. destruct c0 as [|y| | |]; try done.
  cbn [vec_value floatAt] in *. destruct (index vs i); cbn [mbind go_bind] in *; by simplify_eq.
Qed.
Lemma read_string v i x c0 :
  column v TypeString n (λ i, arg x (row i)) → (i < n)%nat → arg x (row i) = Some c0 →
  stringAt v i = Ret (cell_str c0) ∧ c0 = CStr (cell_str c0).
Proof using.
  clear. intros Hcol Hi Hx. pose proof (column_has_type _ _ _ _ _ Hcol Hi) as Ht. cbv beta in Ht.
  rewrite Hx in Ht. destruct c0 as [| | |s|]; try done.
  pose proof Hcol as (_ & Et & _). destruct v as [| | |codes dict nb|]; try done.
  cbn [stringAt]. destruct (sv_Get_spec _ _ _ _ _ _ _ Hcol Hi Hx) as (d & ->). done.
Qed.

Lemma grp_strs sts sm l :
  hasStrAgg c = true → set_strs (grp c sts sm) (s_str <$> l) =
  mkGroup (s_acc <$> sts) (s_nn <$> sts) (s_str <$> l) (intSets (grp c sts sm)) (strSets (grp c sts sm)) sm.
Proof using. done. Qed.
Lemma set_str_grp sts sm j st s :
  hasStrAgg c = true → sts !! j = Some st →
  set_strs (grp c sts sm) (<[j := s]> (s_str <$> sts))
  = grp c (<[j := mkAggSt (s_acc st) (s_nn st) s (s_ints st) (s_strs st)]> sts) sm.
Proof using.
  intros Hs Hj. unfold set_strs, grp. cbn [accs nonNull intSets strSets sample]. rewrite Hs.
  by rewrite (list_fmap_insert s_str), (fmap_insert_same s_acc _ _ _ _ Hj), (fmap_insert_same s_nn _ _ _ _ Hj),
    (fmap_insert_same s_ints _ _ _ _ Hj), (fmap_insert_same s_strs _ _ _ _ Hj) by done.
Qed.

Lemma minMaxString_spec less (l : list aggSt) j st s :
  l !! j = Some st →
  minMaxString (s_str <$> l) j s (bool_decide (0 < s_nn st)) less
  = Ret (<[j := if bool_decide (0 < s_nn st)
                then if (if less then string_lt s (s_str st) else string_lt (s_str st) s) then s else s_str st
                else s]> (s_str <$> l)).
Proof using.
  clear. intros Hj. assert (Hl : (j < length (s_str <$> l))%nat) by (rewrite length_fmap; by eapply lookup_lt_Some).
  assert (Hjs : (s_str <$> l) !! j = Some (s_str st)) by by rewrite list_lookup_fmap, Hj.
  unfold minMaxString. destruct (bool_decide (0 < s_nn st)); cbn [negb]; [|by apply store_Ret].
  rewrite (index_Ret _ _ _ Hjs). cbn [mbind go_bind]. destruct (if less then _ else _); [by apply store_Ret|].
  by rewrite list_insert_id.
Qed.

Lemma foldMinMax_spec less sts sm j ae st i v t c0 :
  aggExprs c !! j = Some ae → sts !! j = Some st → (i < n)%nat → arg ae (row i) = Some c0 →
  column v t n (λ i, arg ae (row i)) → AccumType ae = AccumTypeFor AggMin t →
  foldMinMax less ae v i j (grp c sts sm) = Ret (grp c (<[j := step_minmax less ae c0 st]> sts) sm).
Proof using.
  intros Hj Hst Hi Hx Hcol Hat. unfold foldMinMax, step_minmax. rewrite Hat.
  destruct (decide (t = TypeString)) as [->|Hns].
  - destruct (read_string v i ae c0 Hcol Hi Hx) as [-> _]. cbn [AccumTypeFor mbind go_bind].
    assert (Hs : hasStrAgg c = true) by (eapply conf_str; [exact Hj|by rewrite Hat]).
    rewrite (index_nonNull _ _ _ _ Hst). cbn [mbind go_bind]. cbn [strs grp]. rewrite Hs, minMaxString_spec by done.
    cbn [mbind go_bind]. rewrite (set_str_grp _ _ _ st) by done. erewrite add_nonNull_grp.
    2: { rewrite list_lookup_insert_eq; [done|]. by eapply lookup_lt_Some. }
    by rewrite list_insert_insert_eq.
  - rewrite (add_nonNull_grp _ _ _ st), (extractInt64_spec _ _ _ _ _ _ Hcol Hi Hx Hns) by done. cbn [mbind go_bind].
    set (g1 := <[j := _]> sts). assert (Hg1 : g1 !! j = Some (bump (s_acc st) st))
      by (apply list_lookup_insert_eq; by eapply lookup_lt_Some).
    rewrite (index_accs _ _ _ _ Hg1). cbn [mbind go_bind bump s_acc].
    assert (Hput : ∀ x, put_acc (grp c g1 sm) j x = Ret (grp c (<[j := bump x st]> sts) sm)).
    { intros x. rewrite (put_acc_grp _ _ _ _ _ Hg1). unfold g1. by rewrite list_insert_insert_eq. }
    destruct t; cbn [AccumTypeFor]; try done; destruct (if less then _ else _); try apply Hput; done.
Qed.

(** The value AVG adds, in its match on the vector. *)
Lemma avg_value v t i ae c0 :
  column v t n (λ i, arg ae (row i)) → (i < n)%nat → arg ae (row i) = Some c0 → numeric t = true →
  (match v with
   | Float64Vector vs _ => index vs i
   | _ => x ← extractInt64 v i; Ret (f64_of_int x)
   end) = Ret (cell_float c0).
Proof using.
  clear. intros Hcol Hi Hx Hn. pose proof (column_has_type _ _ _ _ _ Hcol Hi) as Ht. cbv beta in Ht.
  rewrite Hx in Ht. cbn [cell_has_type] in Ht. destruct (decide (t = TypeFloat64)) as [->|Hf].
  - destruct (read_float v _ i ae Hcol Hi c0 Hx eq_refl) as [Hr _]. destruct Hcol as (_ & Et & _). by destruct v.
  - destruct t; try done. pose proof (extractInt64_spec _ _ _ _ _ _ Hcol Hi Hx) as He.
    destruct Hcol as (_ & Et & _). destruct v; try done. rewrite He by done. cbn [mbind go_bind].
    by destruct c0.
Qed.
Lemma addDistinct_spec v t i j sts sm st ae c0 :
  hasDistinct c = true → Kind ae = AggCountDistinct → sts !! j = Some st → (i < n)%nat →
  arg ae (row i) = Some c0 → column v t n (λ i, arg ae (row i)) →
  addDistinct v i j (grp c sts sm) = Ret (grp c (<[j := match c0 with
      | CStr s => mkAggSt (s_acc st) (s_nn st) (s_str st) (s_ints st) (Some ({[s]} ∪ default ∅ (s_strs st)))
      | _ => mkAggSt (s_acc st) (s_nn st) (s_str st) (Some ({[cell_word c0]} ∪ default ∅ (s_ints st))) (s_strs st)
      end]> sts) sm).
Proof using.
  intros Hd Hk Hst Hi Hx Hcol. assert (Hl : (j < length sts)%nat) by by eapply lookup_lt_Some.
  pose proof (column_has_type _ _ _ _ _ Hcol Hi) as Ht. cbv beta in Ht. rewrite Hx in Ht. cbn [cell_has_type] in Ht.
  assert (Hgs : strSets (grp c sts sm) = s_strs <$> sts) by (cbn [strSets grp]; by rewrite Hd).
  assert (Hgi : intSets (grp c sts sm) = s_ints <$> sts) by (cbn [intSets grp]; by rewrite Hd).
  destruct (decide (t = TypeString)) as [->|Hns].
  - destruct (read_string v i ae c0 Hcol Hi Hx) as [Hr Hc0]. destruct c0 as [| | |s|]; try done.
    pose proof Hcol as (_ & Et & _). destruct v as [| | |codes dict nb|]; try done. unfold addDistinct. rewrite Hr.
    cbn [mbind go_bind cell_str]. rewrite Hgs, (index_Ret _ _ (s_strs st)) by by rewrite list_lookup_fmap, Hst.
    cbn [mbind go_bind]. rewrite store_Ret by by rewrite length_fmap. cbn [mbind go_bind]. f_equal.
    unfold grp. cbn [accs nonNull strs intSets sample]. rewrite Hd.
    by rewrite (list_fmap_insert s_strs), (fmap_insert_same s_acc _ _ _ _ Hst), (fmap_insert_same s_nn _ _ _ _ Hst),
      (fmap_insert_same s_ints _ _ _ _ Hst), (fmap_insert_same s_str _ _ _ _ Hst) by done.
  - assert (Hnew : ∀ w, (o ← index (intSets (grp c sts sm)) j;
        l ← store (intSets (grp c sts sm)) j (Some ({[w]} ∪ default ∅ o));
        Ret (mkGroup (accs (grp c sts sm)) (nonNull (grp c sts sm)) (strs (grp c sts sm)) l (strSets (grp c sts sm)) sm))
      = Ret (grp c (<[j := mkAggSt (s_acc st) (s_nn st) (s_str st) (Some ({[w]} ∪ default ∅ (s_ints st))) (s_strs st)]> sts) sm)).
    { intros w. rewrite Hgi, (index_Ret _ _ (s_ints st)) by by rewrite list_lookup_fmap, Hst.
      cbn [mbind go_bind]. rewrite store_Ret by by rewrite length_fmap. cbn [mbind go_bind]. f_equal.
      unfold grp. cbn [accs nonNull strs strSets sample]. rewrite Hd.
      by rewrite (list_fmap_insert s_ints), (fmap_insert_same s_acc _ _ _ _ Hst), (fmap_insert_same s_nn _ _ _ _ Hst),
        (fmap_insert_same s_strs _ _ _ _ Hst), (fmap_insert_same s_str _ _ _ _ Hst) by done. }
    pose proof (extractInt64_spec _ _ _ _ _ _ Hcol Hi Hx Hns) as He. pose proof Hcol as (_ & Et & _).
    destruct c0; try (simpl in Ht; congruence); destruct v; try (simpl in Et; congruence);
      unfold addDistinct; rewrite He; apply Hnew.
Qed.

Lemma foldAgg_spec sts sm j ae st i :
  aggExprs c !! j = Some ae → sts !! j = Some st → (i < n)%nat →
  foldAgg agg_vecs i (grp c sts sm) (j, ae) = Ret (grp c (<[j := step ae st (row i)]> sts) sm).
Proof using Hc Hb.
  intros Hj Hst Hi. pose proof (conf_agg j ae Hj) as Ha. unfold foldAgg, step.
  rewrite (index_Ret _ _ (agg_vec ae)) by (unfold agg_vecs; by rewrite list_lookup_fmap, Hj). cbn [mbind go_bind].
  change (bool_decide (Kind ae = AggCount ∧ a_ColIdx ae < 0)) with (is_star ae).
  assert (Hcount : (acc ← index (accs (grp c sts sm)) j; g ← put_acc (grp c sts sm) j (to_i64 (acc + 1)); add_nonNull g j 1)
    = Ret (grp c (<[j := bump (to_i64 (s_acc st + 1)) st]> sts) sm)).
  { rewrite (index_accs _ _ _ _ Hst), go_bind_ret_l. by apply set_acc_bump. }
  destruct (is_star ae) eqn:Es; [exact Hcount|].
  destruct (agg_column ae Ha Es) as (v & t & -> & _ & Hat & Hcol & Hnum). cbn [vec_of mbind go_bind].
  rewrite (column_IsNull _ _ _ _ _ Hcol Hi), is_null_dec. cbn [mbind go_bind].
  destruct (arg ae (row i)) as [c0|] eqn:Hx; [|by rewrite list_insert_id].
  unfold step_cell. destruct (Kind ae) eqn:Ek.
  - exact Hcount.
  - unfold foldSum. rewrite (add_nonNull_grp _ _ _ st) by done. cbn [mbind go_bind].
    set (g1 := <[j := _]> sts). assert (Hg1 : g1 !! j = Some (bump (s_acc st) st))
      by (apply list_lookup_insert_eq; by eapply lookup_lt_Some).
    rewrite (index_accs _ _ _ _ Hg1). cbn [mbind go_bind bump s_acc].
    assert (Hput : ∀ x, put_acc (grp c g1 sm) j x = Ret (grp c (<[j := bump x st]> sts) sm)).
    { intros x. rewrite (put_acc_grp _ _ _ _ _ Hg1). unfold g1. by rewrite list_insert_insert_eq. }
    rewrite Hat. destruct t; try done; cbn [AccumTypeFor].
    + rewrite (extractInt64_spec _ _ _ _ _ _ Hcol Hi Hx) by done. apply Hput.
    + destruct (read_float v _ i ae Hcol Hi c0 Hx eq_refl) as [-> _]. apply Hput.
  - unfold foldAvg. rewrite (add_nonNull_grp _ _ _ st) by done. cbn [mbind go_bind].
    set (g1 := <[j := _]> sts). assert (Hg1 : g1 !! j = Some (bump (s_acc st) st))
      by (apply list_lookup_insert_eq; by eapply lookup_lt_Some).
    rewrite (index_accs _ _ _ _ Hg1). cbn [mbind go_bind bump s_acc].
    assert (Hput : ∀ x, put_acc (grp c g1 sm) j x = Ret (grp c (<[j := bump x st]> sts) sm)).
    { intros x. rewrite (put_acc_grp _ _ _ _ _ Hg1). unfold g1. by rewrite list_insert_insert_eq. }
    rewrite <- Hput. rewrite (avg_value v t i ae c0) by done. done.
  - by apply (foldMinMax_spec true _ _ _ _ _ _ v t).
  - by apply (foldMinMax_spec false _ _ _ _ _ _ v t).
  - apply (addDistinct_spec v t i j sts sm st ae c0); try done. by apply (conf_distinct j ae).
Qed.

(** ** All aggregates of one row *)

Definition step_all (aggs : list AggExpr) (sts : list aggSt) (r : cells) : list aggSt :=
  zip_with (λ ae st, step ae st r) aggs sts.

Lemma accumulateAggs_spec sts sm i :
  length sts = length (aggExprs c) → (i < n)%nat →
  accumulateAggs c agg_vecs i (grp c sts sm) = Ret (grp c (step_all (aggExprs c) sts (row i)) sm).
Proof using Hc Hb.
  intros Hl Hi. apply (enum_update (λ ae st, step ae st (row i)) _ (λ sts, grp c sts sm)); [done|].
  intros sts' j ae st Hj _ Hst _. by apply foldAgg_spec.
Qed.
(** [foldRow], where there is no COUNT(DISTINCT). *)
Lemma foldRow_spec sts sm i :
  hasDistinct c = false → length sts = length (aggExprs c) → (i < n)%nat →
  foldRow c agg_vecs i (grp c sts sm) = Ret (grp c (step_all (aggExprs c) sts (row i)) sm).
Proof using Hc Hb.
  intros Hd Hl Hi. apply (enum_update (λ ae st, step ae st (row i)) _ (λ sts, grp c sts sm)); [done|].
  intros sts' j ae st Hj _ Hst _. cbn [snd]. destruct (Kind ae) eqn:Ek; try by apply foldAgg_spec.
  pose proof (conf_distinct j ae Hj Ek). congruence.
Qed.

(** ** One aggregate, column at a time *)

Lemma rowLoop_spec {A} (f : A → nat → go A) a : rowLoop (batchRows b) f a = foldM f a (sel_rows b).
Proof using.
  clear Hb. unfold rowLoop, batchRows, sel_rows. destruct (SelVec b) as [sel|]; cbn [rs_n rs_at rs_sel].
  - rewrite foldM_fmap. apply foldM_seq_index. intros i x Hx a0. by rewrite (index_Ret _ _ _ Hx).
  - done.
Qed.

(** What a loop over rows [idx] makes of one state. *)
Definition run_agg (ae : AggExpr) (st : aggSt) (idx : list nat) : aggSt := foldl (step ae) st ((λ i, row i) <$> idx).
Lemma run_agg_cons ae st i idx : run_agg ae st (i :: idx) = run_agg ae (step ae st (row i)) idx.
Proof using. done. Qed.
Lemma step_arg ae st r :
  is_star ae = false → step ae st r = match arg ae r with Some c0 => step_cell ae c0 st | None => st end.
Proof using. clear. unfold step. by intros ->. Qed.

Section Direct.
Context (j : nat) (ae : AggExpr) (Hj : aggExprs c !! j = Some ae) (sm : option (list groupByVal)).
Context (v : Vector) (t : DataType) (Hcol : column v t n (λ i, arg ae (row i))) (Hstar : is_star ae = false).

(** Loops whose body updates the group. *)
Lemma directRows_spec f idx : ∀ sts st,
  (∀ sts st i c0, sts !! j = Some st → (i < n)%nat → arg ae (row i) = Some c0 →
     f v (grp c sts sm) i = Ret (grp c (<[j := step_cell ae c0 st]> sts) sm)) →
  sts !! j = Some st → Forall (λ i, i < n)%nat idx →
  foldM (λ g rowIdx, v ← vec_of (Some v); isnull ← IsNull v rowIdx; if (isnull : bool) then Ret g else f v g rowIdx)
    (grp c sts sm) idx = Ret (grp c (<[j := run_agg ae st idx]> sts) sm).
Proof using Hcol Hstar.
  intros sts st Hf Hst Hidx. revert sts st Hst. induction Hidx as [|i idx Hi _ IH]; intros sts st Hst.
  { unfold run_agg. cbn. by rewrite list_insert_id. }
  cbn [foldM vec_of]. rewrite go_bind_ret_l, (column_IsNull _ _ _ _ _ Hcol Hi), is_null_dec, go_bind_ret_l.
  rewrite run_agg_cons, (step_arg _ _ _ Hstar).
  destruct (arg ae (row i)) as [c0|] eqn:Hx.
  - rewrite (Hf sts st i c0), go_bind_ret_l by done. rewrite (IH _ (step_cell ae c0 st)).
    2: { apply list_lookup_insert_eq. by eapply lookup_lt_Some. }
    by rewrite list_insert_insert_eq.
  - rewrite go_bind_ret_l. by apply IH.
Qed.

(** Loops with a local float: the group keeps its accumulator until the end. *)
Lemma directLoop_spec g idx : ∀ sts st cur nn,
  (∀ i c0 st, (i < n)%nat → arg ae (row i) = Some c0 → row_fits (row_at b i) → inS 64 (s_acc st) →
     ∃ x, g v (to_u64 (s_acc st)) i = Ret x ∧ inU 64 x ∧ step_cell ae c0 st = bump (to_i64 x) st) →
  sts !! j = Some st → cur = to_u64 (s_acc st) → inS 64 (s_acc st) →
  Forall (λ i, i < n ∧ row_fits (row_at b i))%nat idx →
  ('(cur, g') ← foldM (λ '(cur, g') rowIdx, v ← vec_of (Some v); isnull ← IsNull v rowIdx;
      if (isnull : bool) then Ret (cur, g') else
      cur ← g v cur rowIdx; g' ← add_nonNull g' j 1; Ret (cur, g'))
    (cur, grp c (<[j := mkAggSt nn (s_nn st) (s_str st) (s_ints st) (s_strs st)]> sts) sm) idx;
   put_acc g' j (to_i64 cur))
  = Ret (grp c (<[j := run_agg ae st idx]> sts) sm).
Proof using Hcol Hstar.
  intros sts st cur nn Hg Hst -> Hin Hidx. assert (Hl : (j < length sts)%nat) by by eapply lookup_lt_Some.
  assert (Hlook : ∀ x, <[j := x]> sts !! j = Some x) by (intros x; by apply list_lookup_insert_eq).
  clear Hst. revert st Hin. induction Hidx as [|i idx [Hi Hf] _ IH]; intros st Hin.
  { unfold run_agg. cbn [foldM fmap list_fmap foldl]. rewrite go_bind_ret_l.
    rewrite (put_acc_grp _ _ _ _ _ (Hlook _)), list_insert_insert_eq. cbn [s_nn s_str s_ints s_strs].
    rewrite wrapS_wrapU by done. by destruct st. }
  cbn [foldM vec_of]. rewrite go_bind_ret_l, (column_IsNull _ _ _ _ _ Hcol Hi), is_null_dec, go_bind_ret_l.
  rewrite run_agg_cons, (step_arg _ _ _ Hstar).
  destruct (arg ae (row i)) as [c0|] eqn:Hx; [|rewrite go_bind_ret_l; by apply IH].
  destruct (Hg i c0 st Hi Hx Hf Hin) as (x & -> & Hxu & ->). rewrite go_bind_ret_l.
  rewrite (add_nonNull_grp _ _ _ _ _ (Hlook _)), list_insert_insert_eq, !go_bind_ret_l. cbn [s_nn s_str s_ints s_strs s_acc].
  specialize (IH (bump (to_i64 x) st)). cbn [bump s_acc s_nn s_str s_ints s_strs] in IH.
  rewrite wrapU_wrapS in IH by done. apply IH. by apply wrapS_in.
Qed.
End Direct.

Lemma wrapS_succ x k : to_i64 (to_i64 (x + k) + 1) = to_i64 (x + (k + 1)).
Proof using. clear. rewrite wrapS_add_l by lia. f_equal. lia. Qed.
(** COUNT( * ) adds the number of rows at once. *)
Lemma run_star ae st idx :
  is_star ae = true → inS 64 (s_acc st) → inS 64 (s_nn st) →
  run_agg ae st idx = mkAggSt (to_i64 (s_acc st + Z.of_nat (length idx))) (to_i64 (s_nn st + Z.of_nat (length idx)))
                        (s_str st) (s_ints st) (s_strs st).
Proof using.
  clear. intros Hs Ha Hn. induction idx as [|i idx IH] using rev_ind.
  - rewrite !Z.add_0_r, !wrapS_id by (done || lia). by destruct st.
  - unfold run_agg in *. rewrite fmap_app, foldl_app, IH. cbn [fmap list_fmap foldl]. unfold step. rewrite Hs.
    unfold bump. cbn [s_acc s_nn s_str s_ints s_strs]. rewrite length_app. cbn [length].
    rewrite !wrapS_succ. do 2 f_equal; f_equal; lia.
Qed.

Lemma directAgg_spec sts sm j ae st :
  aggExprs c !! j = Some ae → sts !! j = Some st → inS 64 (s_acc st) → inS 64 (s_nn st) →
  Forall (λ i, i < n ∧ row_fits (row_at b i))%nat (sel_rows b) →
  directAgg (batchRows b) agg_vecs (grp c sts sm) (j, ae)
  = Ret (grp c (<[j := run_agg ae st (sel_rows b)]> sts) sm).
Proof using Hc Hb.
  intros Hj Hst Hin Hnn Hidx. pose proof (conf_agg j ae Hj) as Ha. unfold directAgg.
  rewrite (index_Ret _ _ (agg_vec ae)) by (unfold agg_vecs; by rewrite list_lookup_fmap, Hj). rewrite go_bind_ret_l.
  assert (Hlt : Forall (λ i, i < n)%nat (sel_rows b)) by (eapply Forall_impl; [exact Hidx|by intros i []]).
  destruct (is_star ae) eqn:Es.
  { rewrite run_star by done. apply bool_decide_eq_true in Es as [Ek Hi]. rewrite Ek, decide_True by done.
    assert (Hn : rs_n (batchRows b) = length (sel_rows b)).
    { unfold batchRows, sel_rows. destruct (SelVec b); cbn [rs_n]; by rewrite ?length_fmap, ?length_seq. }
    rewrite Hn, (index_accs _ _ _ _ Hst), go_bind_ret_l, (put_acc_grp _ _ _ st), go_bind_ret_l by done.
    erewrite add_nonNull_grp; [|apply list_lookup_insert_eq; by eapply lookup_lt_Some]. by rewrite list_insert_insert_eq. }
  assert (Hcnt : Kind ae = AggCount → ¬ a_ColIdx ae < 0).
  { intros Ek Hi. apply bool_decide_eq_false in Es. by apply Es. }
  destruct (agg_column ae Ha Es) as (v & t & -> & _ & Hat & Hcol & Hnum).
  assert (Hrows : ∀ f, (∀ sts st i c0, sts !! j = Some st → (i < n)%nat → arg ae (row i) = Some c0 →
      f v (grp c sts sm) i = Ret (grp c (<[j := step_cell ae c0 st]> sts) sm)) →
    directRows (batchRows b) (Some v) f (grp c sts sm) = Ret (grp c (<[j := run_agg ae st (sel_rows b)]> sts) sm)).
  { intros f Hf. unfold directRows. rewrite rowLoop_spec. by apply (directRows_spec j ae sm v t Hcol Es). }
  assert (Hloop : ∀ g, (∀ i c0 st, (i < n)%nat → arg ae (row i) = Some c0 → row_fits (row_at b i) → inS 64 (s_acc st) →
      ∃ x, g v (to_u64 (s_acc st)) i = Ret x ∧ inU 64 x ∧ step_cell ae c0 st = bump (to_i64 x) st) →
    ('(cur, g') ← directLoop (batchRows b) (Some v) j g (to_u64 (s_acc st)) (grp c sts sm); put_acc g' j (to_i64 cur))
    = Ret (grp c (<[j := run_agg ae st (sel_rows b)]> sts) sm)).
  { intros g Hg. unfold directLoop. rewrite rowLoop_spec.
    rewrite <- (directLoop_spec j ae sm v t Hcol Es g (sel_rows b) sts st _ (s_acc st) Hg Hst eq_refl Hin Hidx).
    do 3 f_equal. rewrite list_insert_id; [done|]. by destruct st. }
  assert (Hmm : ∀ less : bool, Kind ae = (if less then AggMin else AggMax) →
    directMinMax less ae (batchRows b) (Some v) j (grp c sts sm) = Ret (grp c (<[j := run_agg ae st (sel_rows b)]> sts) sm)).
  { intros less Ek. assert (Hsc : ∀ c0 st, step_cell ae c0 st = step_minmax less ae c0 st)
      by (intros; unfold step_cell; rewrite Ek; by destruct less).
    assert (Hat' : AccumType ae = AccumTypeFor AggMin t) by (rewrite Hat, Ek; by destruct less).
    unfold directMinMax. rewrite Hat'. destruct t; try done; cbn [AccumTypeFor].
    all: try (apply Hrows; intros sts' st' i c0 Hst' Hi Hx; rewrite Hsc; unfold step_minmax; rewrite Hat';
      rewrite (extractInt64_spec _ _ _ _ _ _ Hcol Hi Hx), go_bind_ret_l by done; cbn [AccumTypeFor];
      rewrite (index_accs _ _ _ _ Hst'), go_bind_ret_l;
      destruct (if less then cell_word c0 <? s_acc st' else s_acc st' <? cell_word c0);
      [by apply set_acc_bump|rewrite go_bind_ret_l; by rewrite (add_nonNull_grp _ _ _ st')]).
    - assert (Hv : asFloat (Some v) = Ret (Some v)) by (destruct Hcol as (_ & Et & _); by destruct v).
      rewrite Hv, go_bind_ret_l, (index_accs _ _ _ _ Hst), go_bind_ret_l. apply Hloop.
      intros i c0 st' Hi Hx Hf Hin'. destruct (read_float v _ i ae Hcol Hi c0 Hx eq_refl) as [-> Hw].
      rewrite go_bind_ret_l. eexists. split; [done|].
      assert (Hfc : inU 64 (cell_float c0)).
      { pose proof (column_has_type _ _ _ _ _ Hcol Hi) as Ht. cbv beta in Ht. rewrite Hx in Ht.
        destruct c0 as [|x| | |]; try done. cbn [cell_float]. unfold row_fits in Hf. rewrite Forall_forall in Hf.
        apply (Hf (Some (CFloat x))). unfold arg in Hx. destruct (row i !! Z.to_nat (a_ColIdx ae)) as [o|] eqn:E; [|done].
        simpl in Hx. subst o. by eapply list_elem_of_lookup_2. }
      rewrite Hsc. unfold step_minmax. rewrite Hat'. cbn [AccumTypeFor]. rewrite Hw, wrapU_wrapS by done.
      destruct (if less then f64_lt _ _ else _); [done|]. split; [by apply wrapU_in|]. by rewrite wrapS_wrapU.
    - assert (Hv : asString (Some v) = Ret (Some v)) by (destruct Hcol as (_ & Et & _); by destruct v).
      rewrite Hv, go_bind_ret_l. apply Hrows. intros sts' st' i c0 Hst' Hi Hx.
      rewrite Hsc, <- (foldMinMax_spec less sts' sm j ae st' i v TypeString c0) by done.
      unfold foldMinMax. by rewrite Hat'. }
  destruct (Kind ae) eqn:Ek.
  - rewrite decide_False by by apply Hcnt. apply Hrows. intros sts' st' i c0 Hst' Hi Hx.
    rewrite (index_accs _ _ _ _ Hst'), go_bind_ret_l, (set_acc_bump _ _ _ st') by done. unfold step_cell. by rewrite Ek.
  - unfold directSum. rewrite Hat. destruct t; try done; cbn [AccumTypeFor].
    + apply Hrows. intros sts' st' i c0 Hst' Hi Hx. rewrite (index_accs _ _ _ _ Hst'), go_bind_ret_l.
      rewrite (extractInt64_spec _ _ _ _ _ _ Hcol Hi Hx), go_bind_ret_l, (set_acc_bump _ _ _ st') by done.
      unfold step_cell. by rewrite Ek, Hat.
    + assert (Hv : asFloat (Some v) = Ret (Some v)) by (destruct Hcol as (_ & Et & _); by destruct v).
      rewrite Hv, go_bind_ret_l, (index_accs _ _ _ _ Hst), go_bind_ret_l. apply Hloop.
      intros i c0 st' Hi Hx Hf Hin'. destruct (read_float v _ i ae Hcol Hi c0 Hx eq_refl) as [-> Hw].
      rewrite go_bind_ret_l. eexists. split; [done|]. split; [apply f64_encode_in|]. unfold step_cell. by rewrite Ek, Hat.
  - unfold directAvg. rewrite (index_accs _ _ _ _ Hst), go_bind_ret_l. apply Hloop.
    intros i c0 st' Hi Hx Hf Hin'. rewrite (avg_value v t i ae c0), go_bind_ret_l by done. eexists. split; [done|].
    split; [apply f64_encode_in|]. unfold step_cell. by rewrite Ek.
  - by apply (Hmm true).
  - by apply (Hmm false).
  - apply Hrows. intros sts' st' i c0 Hst' Hi Hx. rewrite (addDistinct_spec v t i j sts' sm st' ae c0); try done.
    + unfold step_cell. by rewrite Ek.
    + by apply (conf_distinct j ae).
Qed.

(** ** All aggregates of all rows *)

Definition st_ok (st : aggSt) : Prop := inS 64 (s_acc st) ∧ inS 64 (s_nn st).
Lemma foldl_step_all aggs sts rs :
  length sts = length aggs →
  zip_with (λ ae st, foldl (step ae) st rs) aggs sts = foldl (step_all aggs) sts rs.
Proof using.
  clear. revert sts. induction rs as [|r rs IH]; intros sts Hl.
  - cbn [foldl]. apply list_eq. intros i. rewrite lookup_zip_with. destruct (aggs !! i) eqn:E1, (sts !! i) eqn:E2; try done.
    apply lookup_ge_None in E1. apply lookup_lt_Some in E2. lia.
  - cbn [foldl]. rewrite <- IH by (unfold step_all; rewrite length_zip_with; lia). unfold step_all.
    apply list_eq. intros i. rewrite !lookup_zip_with. by destruct (aggs !! i), (sts !! i).
Qed.

(** The column-at-a-time loops. *)
Lemma directAggs_spec sts sm :
  length sts = length (aggExprs c) → Forall st_ok sts →
  Forall (λ i, i < n ∧ row_fits (row_at b i))%nat (sel_rows b) →
  foldM (directAgg (batchRows b) agg_vecs) (grp c sts sm) (enum (aggExprs c))
  = Ret (grp c (foldl (step_all (aggExprs c)) sts (r_cells <$> rows_of b)) sm).
Proof using Hc Hb.
  intros Hl Hok Hidx. rewrite <- foldl_step_all by done.
  rewrite (enum_update (λ ae st, run_agg ae st (sel_rows b)) (aggExprs c) (λ sts, grp c sts sm)); [| done|].
  - unfold run_agg, rows_of. by rewrite <- list_fmap_compose.
  - intros sts' j ae st Hj Hst Hst' _. destruct (Forall_lookup_1 _ _ _ _ Hok Hst). by apply directAgg_spec.
Qed.
(** The row-at-a-time loops. *)
Lemma rowAggs_spec sts sm :
  length sts = length (aggExprs c) → Forall (λ i, i < n)%nat (sel_rows b) →
  foldM (λ g i, accumulateAggs c agg_vecs i g) (grp c sts sm) (sel_rows b)
  = Ret (grp c (foldl (step_all (aggExprs c)) sts (r_cells <$> rows_of b)) sm).
Proof using Hc Hb.
  intros Hl Hidx. unfold rows_of. revert sts Hl. induction Hidx as [|i idx Hi _ IH]; intros sts Hl; [done|].
  cbn [foldM]. rewrite accumulateAggs_spec, go_bind_ret_l by done. rewrite IH; [done|].
  unfold step_all. rewrite length_zip_with. lia.
Qed.
End Fold.

(** C27: Without GROUP BY the code folds a batch one column at a time, in loops of
    its own for each aggregate and accumulator type.  On every well-formed group
    and batch they succeed and leave exactly what folding the selected rows one
    at a time through the general switch leaves. *)
Theorem column_loops_equal_row_loop tys D c b sts sm :
  conf_ok tys c → batch_ok tys D b → length sts = length (aggExprs c) → Forall st_ok sts →
  Forall (λ i, i < evalLen b ∧ row_fits (row_at b i))%nat (sel_rows b) →
  ∃ g, foldM (directAgg (batchRows b) (agg_vecs c b)) (grp c sts sm) (enum (aggExprs c)) = Ret g ∧
    foldM (λ g i, accumulateAggs c (agg_vecs c b) i g) (grp c sts sm) (sel_rows b) = Ret g.
Proof.
  intros Hc Hb Hl Hok Hidx. eexists. split; [by apply (directAggs_spec tys D)|].
  apply (rowAggs_spec tys D c b Hc Hb); [done|]. eapply Forall_impl; [exact Hidx|]. by intros i [].
Qed.
(** SUM and AVG of floats, MAX of integers, over two of three rows. *)
Definition direct_conf : aggConf :=
  mkAggConf [] [mkAggExpr AggSum 1 "s" false TypeFloat64; mkAggExpr AggAvg 1 "a" false TypeFloat64;
                mkAggExpr AggMax 0 "m" false TypeInt64] [] false.
Definition direct_batch : Batch :=
  mkBatch [] [Int64Vector [5; -3; 9] [7]; Float64Vector [f64_of_int 2; f64_of_int 7; f64_nan] [5]] 2 (Some [0; 1]).
Lemma column_loops_equal_row_loop_witness :
  let g0 := grp direct_conf [mkAggSt 0 0 "" None None; mkAggSt 0 0 "" None None; mkAggSt MinInt64 0 "" None None] None in
  ∃ g, foldM (directAgg (batchRows direct_batch) (agg_vecs direct_conf direct_batch)) g0 (enum (aggExprs direct_conf)) = Ret g ∧
    foldM (λ g i, accumulateAggs direct_conf (agg_vecs direct_conf direct_batch) i g) g0 (sel_rows direct_batch) = Ret g.
Proof.
  apply (column_loops_equal_row_loop [TypeInt64; TypeFloat64] 0).
  - split; [|by split; [apply Forall_nil|]].
    apply Forall_cons; split; [|apply Forall_cons; split; [|apply Forall_cons; split; [|by apply Forall_nil]]];
      (split; [done|]); eexists; done.
  - split; [done|]. repeat constructor; try done; vm_compute; lia.
  - done.
  - repeat constructor; try done; vm_compute; done.
  - repeat constructor; try done; vm_compute; try lia; done.
Defined.
