(* ===== verification/AggKeys.v ===== *)
(** * Package exec: the groups an aggregate holds

    [str_state] says which groups the string-keyed map holds after the rows [rs]:
    one for each distinct key, with the fold of that key's rows.  [AggPath] says
    the same of the integer-keyed map. *)
From Stdlib Require Import ZArith Lia ZifyNat.
From stdpp Require Import base numbers list strings gmap.
From S2P Require Import Prelude Encoding Codec Float64 Schema Writer Reader Batch Scratch VExpr VKernel VCase VExprSpec Operator Distinct Sorting Emit Sort Aggregate AggSpec.
#[local] Open Scope Z_scope.

(** ** Distinct elements, in order of first occurrence *)

Section Uniq.
Context {A} `{EqDecision A}.
Definition uniq_step (acc : list A) (x : A) : list A := if decide (x ∈ acc) then acc else acc ++ [x].
Definition uniq (l : list A) : list A := foldl uniq_step [] l.
Lemma uniq_snoc l x : uniq (l ++ [x]) = uniq_step (uniq l) x.
Proof. unfold uniq. by rewrite foldl_app. Qed.
Lemma elem_of_uniq l x : x ∈ uniq l ↔ x ∈ l.
Proof.
  induction l as [|y l IH] using rev_ind; [done|]. rewrite uniq_snoc. unfold uniq_step.
  rewrite elem_of_app, list_elem_of_singleton, <- IH. destruct (decide (y ∈ uniq l)); [naive_solver|].
  by rewrite elem_of_app, list_elem_of_singleton.
Qed.
Lemma uniq_NoDup l : NoDup (uniq l).
Proof.
  induction l as [|y l IH] using rev_ind; [constructor|]. rewrite uniq_snoc. unfold uniq_step.
  case_decide; [done|]. apply NoDup_app. split; [done|]. split; [|apply NoDup_singleton].
  intros x Hx ->%list_elem_of_singleton. done.
Qed.
End Uniq.

Lemma replicate_fmap_const {A B} (f : A → B) x (l : list A) : (∀ a, f a = x) → replicate (length l) x = f <$> l.
Proof. intros H. induction l as [|a l IH]; [done|]. cbn. by rewrite H, IH. Qed.

(** ** Keys and samples *)

Definition gb_key (c : aggConf) (r : cells) : cells := (λ i, default None (r !! Z.to_nat i)) <$> groupBy c.
Definition gbv (o : option Cell) : groupByVal :=
  match o with
  | None => mkGroupByVal true "" 0
  | Some (CStr s) => mkGroupByVal false s 0
  | Some c => mkGroupByVal false "" (to_u64 (cell_word c))
  end.
Definition gb_types (tys : list DataType) (c : aggConf) : list DataType :=
  (λ i, default (TypeOther 0) (tys !! Z.to_nat i)) <$> groupBy c.
Definition key_ok (tys : list DataType) (c : aggConf) (k : cells) : Prop :=
  Forall2 cell_has_type k (gb_types tys c) ∧ Forall cell_fits k.

(** The states a group starts with; [typed] when its distinct sets are allocated
    by the type of the column. *)
Definition init_st (tys : list DataType) (typed : bool) (ae : AggExpr) : aggSt :=
  let t := tys !! Z.to_nat (a_ColIdx ae) in
  let d := typed && bool_decide (Kind ae = AggCountDistinct) in
  mkAggSt (seed ae) 0 "" (if d && bool_decide (t ≠ Some TypeString) then Some ∅ else None)
    (if d && bool_decide (t = Some TypeString) then Some ∅ else None).
Lemma newAccums_init tys typed c : newAccums c = s_acc <$> (init_st tys typed <$> aggExprs c).
Proof. unfold newAccums. by rewrite <- list_fmap_compose. Qed.
Lemma nonNull_init tys typed c : replicate (length (aggExprs c)) 0 = s_nn <$> (init_st tys typed <$> aggExprs c).
Proof. rewrite <- list_fmap_compose. by apply replicate_fmap_const. Qed.
Lemma newStrAccums_init tys typed c :
  newStrAccums c = if hasStrAgg c then s_str <$> (init_st tys typed <$> aggExprs c) else [].
Proof. unfold newStrAccums. destruct (hasStrAgg c); [|done]. rewrite <- list_fmap_compose. by apply replicate_fmap_const. Qed.
(** The states after the rows of one key. *)
Definition states (tys : list DataType) (typed : bool) (c : aggConf) (rs : list cells) : list aggSt :=
  foldl (step_all (aggExprs c)) (init_st tys typed <$> aggExprs c) rs.
Definition rows_with (c : aggConf) (k : cells) (rs : list cells) : list cells := filter (λ r, gb_key c r = k) rs.

Lemma length_states tys typed c rs : length (states tys typed c rs) = length (aggExprs c).
Proof.
  unfold states. induction rs as [|r rs IH] using rev_ind; [apply length_fmap|].
  rewrite foldl_app. cbn [foldl]. unfold step_all at 1. rewrite length_zip_with, IH. lia.
Qed.
Lemma states_snoc tys typed c rs r :
  states tys typed c (rs ++ [r]) = step_all (aggExprs c) (states tys typed c rs) r.
Proof. unfold states. by rewrite foldl_app. Qed.
Lemma row_key_key_inj tys c k k' : key_ok tys c k → key_ok tys c k' → row_key k = row_key k' → k = k'.
Proof. intros [] []. by apply (row_key_inj (gb_types tys c)). Qed.

Section Keys.
Context (tys : list DataType) (D : Z) (c : aggConf) (b : Batch).
Context (Hc : conf_ok tys c) (Hb : batch_ok tys D b).
Abbreviation n := (evalLen b).
Abbreviation row i := (r_cells (row_at b i)).

Lemma gb_column i :
  i ∈ groupBy c → ∃ v t, vectorAt b i = Ret v ∧ Vectors b !! Z.to_nat i = Some v ∧ tys !! Z.to_nat i = Some t ∧
    column v t n (λ x, default None (row x !! Z.to_nat i)).
Proof using Hc Hb.
  intros Hi. destruct Hc as (_ & Hg & _). rewrite Forall_forall in Hg. destruct (Hg i Hi) as [H0 Hlt].
  destruct Hb as [_ Hvs]. destruct (lookup_lt_is_Some_2 tys _ Hlt) as [t Ht].
  destruct (Forall2_lookup_r _ _ _ _ _ Hvs Ht) as (v & Ev & Hok & Et & Hl & _). exists v, t.
  split; [|split; [done|split; [done|]]].
  - unfold vectorAt. rewrite decide_False by lia. by apply index_Ret.
  - eapply column_ext; [by apply column_self|]. intros x _. cbn [row_at r_cells]. by rewrite list_lookup_fmap, Ev.
Qed.
Lemma gb_key_ok i : (i < n)%nat → row_fits (row_at b i) → key_ok tys c (gb_key c (row i)).
Proof using Hc Hb.
  intros Hi Hf. split.
  - unfold gb_key, gb_types. apply Forall2_fmap, Forall_Forall2_diag, Forall_forall. intros x Hx. cbv beta.
    destruct (gb_column x Hx) as (v & t & _ & _ & -> & Hcol). cbn [default]. exact (column_has_type _ _ _ _ _ Hcol Hi).
  - unfold gb_key. apply Forall_fmap, Forall_true. intros x. cbn [compose]. unfold row_fits in Hf.
    destruct (row i !! Z.to_nat x) eqn:E; [|done]. exact (Forall_lookup_1 _ _ _ _ Hf E).
Qed.
Lemma buildKey_key i :
  (i < n)%nat → row_fits (row_at b i) → Aggregate.buildKey c b i = Ret (row_key (gb_key c (row i))).
Proof using Hc Hb.
  intros Hi Hf. destruct (gb_key_ok i Hi Hf) as [_ Hfits]. unfold Aggregate.buildKey, row_key, gb_key in *.
  assert (Hall : Forall (λ x, x ∈ groupBy c) (groupBy c)) by by apply Forall_forall.
  revert Hall Hfits. generalize (groupBy c) at 2 3 4 5 as gs. intros gs Hall Hfits.
  cut (∀ buf, foldM (λ buf colIdx, v ← vectorAt b colIdx; appendKey i buf v) buf gs
    = Ret (buf ++ concat (cell_key <$> ((λ x, default None (row i !! Z.to_nat x)) <$> gs)))); [intros C; apply (C [])|].
  induction Hall as [|x gs Hx _ IH]; intros buf; [by rewrite app_nil_r|]. cbn [foldM fmap list_fmap concat].
  apply Forall_cons in Hfits as [Hfx Hfits]. destruct (gb_column x Hx) as (v & t & -> & _ & _ & Hcol).
  rewrite go_bind_ret_l, (value_key _ _ _ _ _ Hcol Hi Hfx), go_bind_ret_l, (IH Hfits). by rewrite <- app_assoc.
Qed.
Lemma sampleOf_spec v t f i : column v t n f → (i < n)%nat → sampleOf v i = Ret (gbv (f i)).
Proof using.
  clear. intros Hcol Hi. unfold sampleOf. rewrite (column_IsNull _ _ _ _ _ Hcol Hi), is_null_dec. cbn [mbind go_bind].
  pose proof (column_has_type _ _ _ _ _ Hcol Hi) as Ht. destruct (f i) as [c0|] eqn:Ef; [|done]. cbn [cell_has_type] in Ht.
  destruct (decide (t = TypeString)) as [->|Hns].
  - destruct c0 as [| | |s|]; try done. pose proof Hcol as (_ & Ev & _). destruct v as [| | |codes dict nb|]; try done.
    by destruct (sv_Get_spec _ _ _ _ _ _ _ Hcol Hi Ef) as (d & ->).
  - pose proof (extractInt64_spec _ _ _ _ _ _ Hcol Hi Ef Hns) as E. destruct Hcol as (_ & Ev & _).
    destruct c0; try (simpl in Ht; congruence); destruct v; try (simpl in Ev; congruence); by rewrite E.
Qed.
Lemma takeSample_spec i : (i < n)%nat → takeSample c b i = Ret (gbv <$> gb_key c (row i)).
Proof using Hc Hb.
  intros Hi. unfold takeSample, gb_key.
  assert (Hall : Forall (λ x, x ∈ groupBy c) (groupBy c)) by by apply Forall_forall.
  revert Hall. generalize (groupBy c) at 2 3 4 as gs. intros gs Hall.
  cut (∀ out, foldM (λ out colIdx, v ← vectorAt b colIdx; s ← sampleOf v i; Ret (out ++ [s])) out gs
    = Ret (out ++ (gbv <$> ((λ x, default None (row i !! Z.to_nat x)) <$> gs)))); [intros C; apply (C [])|].
  induction Hall as [|x gs Hx _ IH]; intros out; [by rewrite app_nil_r|]. cbn [foldM fmap list_fmap].
  destruct (gb_column x Hx) as (v & t & -> & _ & _ & Hcol).
  rewrite go_bind_ret_l, (sampleOf_spec v t _ i Hcol Hi), !go_bind_ret_l, IH. by rewrite <- app_assoc.
Qed.
Lemma newGroup_spec i :
  (i < n)%nat →
  newGroup c b i (agg_vecs c b) = Ret (grp c (init_st tys true <$> aggExprs c) (Some (gbv <$> gb_key c (row i)))).
Proof using Hc Hb.
  intros Hi. unfold newGroup. rewrite takeSample_spec, go_bind_ret_l by done.
  assert (Hvec : ∀ j ae, aggExprs c !! j = Some ae → Kind ae = AggCountDistinct →
    ∃ v, index (agg_vecs c b) j = Ret (Some v) ∧ 0 ≤ a_ColIdx ae ∧ tys !! Z.to_nat (a_ColIdx ae) = Some (VType v)).
  { intros j ae Hj Hk. pose proof (conf_agg tys c Hc j ae Hj) as Ha. unfold agg_ok in Ha.
    assert (Hs : is_star ae = false) by (apply bool_decide_eq_false_2; rewrite Hk; by intros []).
    destruct (agg_column tys D b Hb ae Ha Hs) as (v & t & Ev & Evi & _ & (_ & Et & _) & _).
    rewrite Hs in Ha. destruct Ha as (H0 & t' & Ht' & _). exists v.
    split; [apply index_Ret; unfold agg_vecs; by rewrite list_lookup_fmap, Hj; simpl; rewrite Ev|]. split; [done|].
    destruct Hb as [_ Hvs]. destruct (Forall2_lookup_lr _ _ _ _ _ _ Hvs Evi Ht') as (_ & <- & _). done. }
  assert (Hints : ∀ acc, foldM (λ l x, s ← newIntSet (agg_vecs c b) x; Ret (l ++ [s])) acc (enum (aggExprs c))
    = Ret (acc ++ (s_ints <$> (init_st tys true <$> aggExprs c)))).
  { rewrite <- list_fmap_compose. apply foldM_enum_snoc. intros j ae Hj. unfold newIntSet, init_st. unfold compose. destruct (Kind ae) eqn:Ek; try done.
    destruct (Hvec j ae Hj Ek) as (v & -> & H0 & Ht). rewrite decide_False by lia. rewrite go_bind_ret_l, Ht.
    cbn [s_ints andb]. by destruct v. }
  assert (Hstrs : ∀ acc, foldM (λ l x, s ← newStrSet (agg_vecs c b) x; Ret (l ++ [s])) acc (enum (aggExprs c))
    = Ret (acc ++ (s_strs <$> (init_st tys true <$> aggExprs c)))).
  { rewrite <- list_fmap_compose. apply foldM_enum_snoc. intros j ae Hj. unfold newStrSet, init_st. unfold compose. destruct (Kind ae) eqn:Ek; try done.
    destruct (Hvec j ae Hj Ek) as (v & -> & H0 & Ht). rewrite decide_False by lia. rewrite go_bind_ret_l, Ht.
    cbn [s_strs andb]. by destruct v. }
  unfold grp. rewrite Hints, Hstrs. cbn [app].
  rewrite (newAccums_init tys true), (nonNull_init tys true), (newStrAccums_init tys true). by destruct (hasDistinct c).
Qed.
End Keys.

(** ** The groups of the rows seen so far *)

Section Holds.
Context {K : Type} `{Countable K} (tys : list DataType) (typed : bool) (c : aggConf).
Context (sm : cells → option (list groupByVal)).

(** The group of key [k] after the rows [rs]. *)
Definition group_of (k : cells) (rs : list cells) : group := grp c (states tys typed c (rows_with c k rs)) (sm k).
(** [kl] and [m] hold one group for each key of [rs], under the code [enc] of the
    key, in the order [ks]. *)
Record holds (enc : cells → K) (ks rs : list cells) (kl : list K) (m : gmap K group) : Prop := {
  h_keys : kl = enc <$> ks;
  h_nodup : NoDup ks;
  h_rows : ∀ k, k ∈ ks ↔ k ∈ gb_key c <$> rs;
  h_groups : ∀ k, k ∈ ks → m !! enc k = Some (group_of k rs);
  h_dom : ∀ key, is_Some (m !! key) → key ∈ kl
}.

Lemma holds_init enc : holds enc [] [] [] ∅.
Proof. split; [done|apply NoDup_nil_2|done| |]; intros key Hk; [by apply elem_of_nil in Hk|by destruct Hk]. Qed.
Lemma holds_ext enc enc' ks rs kl m : (∀ k, k ∈ ks → enc k = enc' k) → holds enc ks rs kl m → holds enc' ks rs kl m.
Proof.
  intros He [-> Hn Hr Hg Hd]. assert (E : enc <$> ks = enc' <$> ks) by (apply list_fmap_ext; intros i k Hk; by eapply He, list_elem_of_lookup_2).
  split; [done|done|done| |done]. intros k Hk. rewrite <- He by done. auto.
Qed.
Lemma holds_perm enc ks rs kl m : holds enc ks rs kl m → ks ≡ₚ uniq (gb_key c <$> rs).
Proof.
  intros [_ Hn Hr _ _]. apply NoDup_Permutation; [done|apply uniq_NoDup|]. intros k. by rewrite elem_of_uniq.
Qed.

Lemma rows_with_snoc k rs r :
  rows_with c k (rs ++ [r]) = rows_with c k rs ++ (if decide (gb_key c r = k) then [r] else []).
Proof. unfold rows_with. rewrite filter_app. f_equal. Qed.
Lemma rows_with_fresh k rs : k ∉ gb_key c <$> rs → rows_with c k rs = [].
Proof.
  intros Hk. unfold rows_with. induction rs as [|r rs IH]; [done|]. rewrite filter_cons, decide_False.
  - apply IH. intros Hin. apply Hk. by apply list_elem_of_further.
  - intros <-. apply Hk, list_elem_of_here.
Qed.
Lemma group_of_fresh k rs : k ∉ gb_key c <$> rs → group_of k rs = grp c (init_st tys typed <$> aggExprs c) (sm k).
Proof. intros Hk. unfold group_of. by rewrite rows_with_fresh. Qed.

(** One more row: its group gets the row, no other group changes. *)
Lemma holds_row enc ks rs kl m r :
  holds enc ks rs kl m →
  let k := gb_key c r in
  (∀ k', k' ∈ ks → enc k' = enc k → k' = k) →
  m !! enc k = (if decide (k ∈ ks) then Some (group_of k rs) else None) ∧
  holds enc (uniq_step ks k) (rs ++ [r]) (if decide (k ∈ ks) then kl else kl ++ [enc k])
    (<[enc k := grp c (step_all (aggExprs c) (states tys typed c (rows_with c k rs)) r) (sm k)]> m).
Proof.
  intros [-> Hn Hr Hg Hd] k Hinj. split.
  { destruct (decide (k ∈ ks)) as [Hk|Hk]; [auto|]. apply eq_None_not_Some. intros Hs.
    apply Hd, list_elem_of_fmap in Hs as (k' & E & Hk'). apply Hk. by rewrite <- (Hinj k'). }
  assert (Hnew : ∀ k', group_of k' (rs ++ [r]) = if decide (k = k')
      then grp c (step_all (aggExprs c) (states tys typed c (rows_with c k rs)) r) (sm k) else group_of k' rs).
  { intros k'. unfold group_of. rewrite rows_with_snoc. fold k. destruct (decide (k = k')) as [<-|];
      [by rewrite states_snoc|by rewrite app_nil_r]. }
  assert (Hks : uniq_step ks k = if decide (k ∈ ks) then ks else ks ++ [k]) by done.
  split.
  - rewrite Hks. destruct (decide (k ∈ ks)); [done|]. by rewrite fmap_app.
  - rewrite Hks. destruct (decide (k ∈ ks)); [done|]. apply NoDup_app. split; [done|]. split; [|apply NoDup_singleton].
    by intros x Hx ->%list_elem_of_singleton.
  - intros k'. rewrite Hks, fmap_app, elem_of_app, <- Hr. cbn [fmap list_fmap]. fold k. rewrite list_elem_of_singleton.
    destruct (decide (k ∈ ks)); [naive_solver|]. by rewrite elem_of_app, list_elem_of_singleton.
  - intros k' Hk'. rewrite Hnew. destruct (decide (k = k')) as [<-|Hne]; [by rewrite lookup_insert_eq|].
    assert (Hin : k' ∈ ks).
    { rewrite Hks in Hk'. destruct (decide (k ∈ ks)); [done|].
      apply elem_of_app in Hk' as [|E%list_elem_of_singleton]; [done|congruence]. }
    rewrite lookup_insert_ne; [auto|]. intros E. by rewrite (Hinj k') in Hne.
  - intros key [g Hg']. destruct (decide (enc k = key)) as [<-|Hne].
    + destruct (decide (k ∈ ks)); [by apply list_elem_of_fmap_2|]. rewrite elem_of_app, list_elem_of_singleton. auto.
    + rewrite lookup_insert_ne in Hg' by done. destruct (decide (k ∈ ks)); [by apply Hd|].
      apply elem_of_app. left. by apply Hd.
Qed.
End Holds.

(** ** The string-keyed maps *)

Definition sample_of (k : cells) : option (list groupByVal) := Some (gbv <$> k).
Definition keys_ok (tys : list DataType) (c : aggConf) (rs : list cells) : Prop :=
  Forall (λ r, key_ok tys c (gb_key c r)) rs.
Definition str_holds (tys : list DataType) (c : aggConf) (ks rs : list cells) (s : aggState) : Prop :=
  holds tys true c sample_of row_key ks rs (keys s) (groups s).
Definition str_state (tys : list DataType) (c : aggConf) (rs : list cells) (s : aggState) : Prop :=
  ∃ ks, str_holds tys c ks rs s.

Lemma foldM_rows {A} (P : list cells → A → Prop) (f : A → nat → go A) (row : nat → cells) idx rs a :
  Forall (λ i, ∀ rs a, P rs a → ∃ a', f a i = Ret a' ∧ P (rs ++ [row i]) a') idx → P rs a →
  ∃ a', foldM f a idx = Ret a' ∧ P (rs ++ (row <$> idx)) a'.
Proof.
  intros Hidx. revert rs a. induction Hidx as [|i idx Hi _ IH]; intros rs a Ha.
  - exists a. by rewrite app_nil_r.
  - destruct (Hi rs a Ha) as (a1 & E1 & H1). destruct (IH _ _ H1) as (a2 & E2 & H2). exists a2.
    cbn [foldM]. rewrite E1, go_bind_ret_l, E2. split; [done|]. cbn [fmap list_fmap]. by rewrite <- app_assoc in H2.
Qed.

Section StrRows.
Context (tys : list DataType) (D : Z) (c : aggConf) (b : Batch).
Context (Hc : conf_ok tys c) (Hb : batch_ok tys D b).
Abbreviation n := (evalLen b).
Abbreviation row i := (r_cells (row_at b i)).

Lemma str_row fold s rs i :
  str_state tys c rs s → keys_ok tys c rs → (i < n)%nat → row_fits (row_at b i) →
  (∀ sts sm, length sts = length (aggExprs c) →
     fold (grp c sts sm) = Ret (grp c (step_all (aggExprs c) sts (row i)) sm)) →
  ∃ s', (key ← buildKey c b i; upsert c b (agg_vecs c b) i fold s key) = Ret s' ∧
    str_state tys c (rs ++ [row i]) s' ∧ intKey s' = intKey s ∧ intKeyDecided s' = intKeyDecided s.
Proof using Hc Hb.
  intros (ks & Hs) Hok Hi Hf Hfold. rewrite (buildKey_key tys D c b Hc Hb i Hi Hf), go_bind_ret_l.
  pose proof (gb_key_ok tys D c b Hc Hb i Hi Hf) as Hk.
  destruct (holds_row tys true c sample_of row_key ks rs (keys s) (groups s) (row i) Hs) as [Hl Hs'].
  { intros k' Hk' E. apply (row_key_key_inj tys c); [|done|done].
    apply (h_rows _ _ _ _ _ _ _ _ _ Hs), list_elem_of_fmap in Hk' as (r & -> & Hr). unfold keys_ok in Hok. rewrite Forall_forall in Hok. auto. }
  set (k := gb_key c (row i)) in *. unfold upsert.
  exists (set_groups s (if decide (k ∈ ks) then keys s else keys s ++ [row_key k])
    (<[row_key k := grp c (step_all (aggExprs c) (states tys true c (rows_with c k rs)) (row i)) (sample_of k)]> (groups s))).
  split; [|split; [by exists (uniq_step ks k)|done]]. rewrite Hl.
  destruct (decide (k ∈ ks)) as [Hin|Hin].
  - rewrite go_bind_ret_l. unfold group_of. rewrite Hfold by apply length_states. done.
  - rewrite (newGroup_spec tys D c b Hc Hb i Hi), !go_bind_ret_l. fold k (sample_of k).
    rewrite Hfold by apply length_fmap. rewrite go_bind_ret_l. rewrite rows_with_fresh; [done|].
    by rewrite <- (h_rows _ _ _ _ _ _ _ _ _ Hs).
Qed.

Lemma sel_row i : i ∈ sel_rows b → row i ∈ r_cells <$> rows_of b.
Proof using. clear. intros Hi. unfold rows_of. rewrite <- list_fmap_compose. by apply (list_elem_of_fmap_2 (λ i, row i)). Qed.

(** A loop of string-keyed rows, by either fold. *)
Lemma str_rows (f : aggState → nat → go aggState) s rs :
  Forall (λ i, (i < n)%nat ∧ row_fits (row_at b i)) (sel_rows b) →
  (∀ i, (i < n)%nat → ∃ fold,
     (∀ s, f s i = (key ← buildKey c b i; upsert c b (agg_vecs c b) i fold s key)) ∧
     ∀ sts sm, length sts = length (aggExprs c) → fold (grp c sts sm) = Ret (grp c (step_all (aggExprs c) sts (row i)) sm)) →
  str_state tys c rs s → keys_ok tys c rs →
  ∃ s', rowLoop (batchRows b) f s = Ret s' ∧ str_state tys c (rs ++ (r_cells <$> rows_of b)) s' ∧
    intKey s' = intKey s ∧ intKeyDecided s' = intKeyDecided s.
Proof using Hc Hb.
  intros Hidx Hf Hs Hok. rewrite rowLoop_spec.
  destruct (foldM_rows (λ rs s', str_state tys c rs s' ∧ keys_ok tys c rs ∧ intKey s' = intKey s ∧
      intKeyDecided s' = intKeyDecided s) f (λ i, row i) (sel_rows b) rs s) as (s' & E & H1 & _ & H2 & H3); [|done|].
  - eapply Forall_impl; [exact Hidx|]. intros i [Hi Hfi] rs' s1 (Hs1 & Hok1 & Hik & Hid).
    destruct (Hf i Hi) as (fold & Ef & Hfold). rewrite Ef.
    destruct (str_row fold s1 rs' i Hs1 Hok1 Hi Hfi Hfold) as (s' & E & Hs' & Hik' & Hid'). exists s'.
    split; [done|]. split; [done|]. split; [|by rewrite Hik', Hid'].
    apply Forall_app. split; [done|]. apply Forall_singleton. by apply (gb_key_ok tys D).
  - exists s'. split; [done|]. unfold rows_of. by rewrite <- list_fmap_compose.
Qed.
Lemma accumulateRows_spec s rs :
  Forall (λ i, (i < n)%nat ∧ row_fits (row_at b i)) (sel_rows b) → str_state tys c rs s → keys_ok tys c rs →
  ∃ s', rowLoop (batchRows b) (accumulateRow c b (agg_vecs c b)) s = Ret s' ∧
    str_state tys c (rs ++ (r_cells <$> rows_of b)) s' ∧ intKey s' = intKey s ∧ intKeyDecided s' = intKeyDecided s.
Proof using Hc Hb.
  intros Hidx. apply str_rows; [done|]. intros i Hi. exists (accumulateAggs c (agg_vecs c b) i).
  split; [done|]. intros sts sm Hl. by apply (accumulateAggs_spec tys D).
Qed.
Lemma accumulateStringKey_spec s rs :
  hasDistinct c = false →
  Forall (λ i, (i < n)%nat ∧ row_fits (row_at b i)) (sel_rows b) → str_state tys c rs s → keys_ok tys c rs →
  ∃ s', accumulateStringKey c b (batchRows b) (agg_vecs c b) s = Ret s' ∧
    str_state tys c (rs ++ (r_cells <$> rows_of b)) s' ∧ intKey s' = intKey s ∧ intKeyDecided s' = intKeyDecided s.
Proof using Hc Hb.
  intros Hd Hidx. apply str_rows; [done|]. intros i Hi. exists (foldRow c (agg_vecs c b) i).
  split; [done|]. intros sts sm Hl. by apply (foldRow_spec tys D).
Qed.
End StrRows.
