(* ===== verification/AggInt.v ===== *)
(** * Package exec: the integer-key path of an aggregate

    Packing: a key of dictionary strings becomes the word that has the global
    code of column [i] in the bits from [i * w].  While every code is below
    [2^w] the word determines the key, so the integer-keyed maps hold one group
    for each key, and turning them into the string-keyed maps loses nothing. *)
From Stdlib Require Import ZArith Lia ZifyNat.
From stdpp Require Import base numbers list strings gmap.
From S2P Require Import Prelude Encoding Codec Float64 Schema Writer Reader Batch Scratch VExpr VKernel VCase VExprSpec Operator Distinct Sorting Emit Sort Aggregate AggSpec AggKeys.
#[local] Open Scope Z_scope.

(** ** Packed codes *)

Definition packCodes (w : Z) (cs : list Z) : Z :=
  foldl (λ key '(i, code), Z.lor key (to_u64 (Z.shiftl code (Z.of_nat i * w)))) 0 (enum cs).
Definition codes_ok (w : Z) (cs : list Z) : Prop := Forall (λ x, 0 ≤ x < 2 ^ w) cs ∧ Z.of_nat (length cs) * w ≤ 64.

Lemma lor_disjoint a x k : 0 ≤ k → 0 ≤ a < 2 ^ k → 0 ≤ x → Z.lor a (x * 2 ^ k) = a + x * 2 ^ k.
Proof.
  intros Hk Ha Hx. assert (H0 : Z.land a (x * 2 ^ k) = 0).
  { apply Z.bits_inj'. intros i Hi. rewrite Z.land_spec, Z.bits_0. destruct (decide (i < k)).
    - by rewrite Z.mul_pow2_bits_low, andb_false_r by lia.
    - by rewrite (bits_above k a) by (try done; lia). }
  by rewrite <- Z.lxor_lor, <- Z.add_nocarry_lxor.
Qed.
Lemma enum_snoc {A} (l : list A) x : enum (l ++ [x]) = enum l ++ [(length l, x)].
Proof.
  unfold enum. rewrite length_app, seq_app, zip_with_app by apply length_seq. done.
Qed.
Lemma packCodes_snoc w cs x :
  packCodes w (cs ++ [x]) = Z.lor (packCodes w cs) (to_u64 (Z.shiftl x (Z.of_nat (length cs) * w))).
Proof. unfold packCodes. by rewrite enum_snoc, foldl_app. Qed.

Lemma field_mod a k w : 0 ≤ k → 0 ≤ w → Z.land (Z.shiftr a k) (Z.shiftl 1 w - 1) = (a / 2 ^ k) mod 2 ^ w.
Proof.
  intros Hk Hw. rewrite Z.shiftr_div_pow2, Z.shiftl_mul_pow2, Z.mul_1_l by lia.
  rewrite Z.sub_1_r, <- Z.ones_equiv. by apply Z.land_ones.
Qed.
Lemma packCodes_field w cs :
  0 < w → codes_ok w cs →
  0 ≤ packCodes w cs < 2 ^ (Z.of_nat (length cs) * w) ∧
  ∀ i x, cs !! i = Some x → Z.land (Z.shiftr (packCodes w cs) (Z.of_nat i * w)) (Z.shiftl 1 w - 1) = x.
Proof.
  intros Hw. induction cs as [|x cs IH] using rev_ind; intros [Hcs Hl]; [done|].
  apply Forall_app in Hcs as [Hcs Hx]. apply Forall_cons in Hx as [Hx _]. rewrite length_app in Hl. cbn [length] in Hl.
  destruct IH as [HP Hf]; [split; [done|nia]|]. rewrite packCodes_snoc, length_app. cbn [length].
  set (P := packCodes w cs) in *. set (l := Z.of_nat (length cs)) in *.
  assert (Hl0 : 0 ≤ l) by lia. assert (Hpow : 2 ^ ((l + 1) * w) = 2 ^ w * 2 ^ (l * w)) by (replace ((l + 1) * w) with (w + l * w) by ring; apply Z.pow_add_r; nia).
  assert (Hpos : 0 < 2 ^ (l * w)) by (apply Z.pow_pos_nonneg; nia).
  assert (H64 : 2 ^ ((l + 1) * w) ≤ 2 ^ 64) by (apply Z.pow_le_mono_r; lia).
  assert (Hx' : x * 2 ^ (l * w) + 2 ^ (l * w) ≤ 2 ^ ((l + 1) * w)) by (rewrite Hpow; nia).
  rewrite Z.shiftl_mul_pow2 by nia. rewrite (wrapU_id 64) by (split; nia). rewrite lor_disjoint by (nia || lia).
  replace (Z.of_nat (length cs + 1)) with (l + 1) by lia. split; [nia|]. intros i y Hy.
  rewrite field_mod by lia.
  apply lookup_snoc_Some in Hy as [[Hi Hy]|[-> <-]].
  - rewrite <- (Hf i y Hy), field_mod by lia.
    replace (l * w) with ((l - Z.of_nat i - 1) * w + w + Z.of_nat i * w) at 1 by lia.
    rewrite !Z.pow_add_r, !Z.mul_assoc by nia. rewrite Z.div_add by (apply Z.pow_nonzero; lia).
    by rewrite Z.mod_add by (apply Z.pow_nonzero; lia).
  - fold l. rewrite Z.div_add, Z.div_small by lia. by apply Z.mod_small.
Qed.
Lemma packCodes_inj w cs cs' :
  0 < w → codes_ok w cs → codes_ok w cs' → length cs = length cs' → packCodes w cs = packCodes w cs' → cs = cs'.
Proof.
  intros Hw H1 H2 Hl E. destruct (packCodes_field w cs Hw H1) as [_ F1]. destruct (packCodes_field w cs' Hw H2) as [_ F2].
  apply list_eq_same_length with (length cs); [done|done|]. intros i x y _ Hx Hy.
  by rewrite <- (F1 i x Hx), <- (F2 i y Hy), E.
Qed.

(** ** Codes of strings *)

Definition code_of (gd : DictBuilder) (o : option Cell) : Z :=
  match o with Some (CStr s) => default 0 (db_index gd !! s) | _ => 0 end.
(** The strings of key [k] all have codes. *)
Definition coded_key (gds : list DictBuilder) (k : cells) : Prop :=
  Forall2 (λ gd o, ∃ s, o = Some (CStr s) ∧ s ∈ db_keys gd) gds k.
Definition pack (w : Z) (gds : list DictBuilder) (k : cells) : Z := packCodes w (zip_with code_of gds k).
Definition small (w : Z) (gd : DictBuilder) : Prop := Z.of_nat (length (db_keys gd)) < 2 ^ w.
#[export] Instance small_dec w gd : Decision (small w gd).
Proof. unfold small. apply _. Defined.
Definition grows (gd gd' : DictBuilder) : Prop := db_keys gd `prefix_of` db_keys gd'.

#[export] Instance grows_preorder : PreOrder grows.
Proof. split; [intros gd; by exists []; rewrite app_nil_r|]. intros x y z. unfold grows. by etrans. Qed.

Lemma code_of_coded gd s : db_wf gd → s ∈ db_keys gd → coded (db_keys gd) (code_of gd (Some (CStr s))) s.
Proof.
  intros [_ H] [i Hi]%list_elem_of_lookup. exists i. split; [|done]. unfold code_of.
  by rewrite (proj2 (H s (Z.of_nat i))) by eauto.
Qed.
Lemma coded_code_of gd x s : db_wf gd → coded (db_keys gd) x s → x = code_of gd (Some (CStr s)).
Proof. intros [_ H] (i & -> & Hi). unfold code_of. by rewrite (proj2 (H s (Z.of_nat i))) by eauto. Qed.
Lemma coded_grows gd gd' x s : grows gd gd' → coded (db_keys gd) x s → coded (db_keys gd') x s.
Proof. intros Hg (i & -> & Hi). exists i. split; [done|]. by eapply prefix_lookup_Some. Qed.
Lemma coded_key_grows gds gds' k : Forall2 grows gds gds' → coded_key gds k → coded_key gds' k.
Proof.
  intros Hg. revert k. induction Hg as [|gd gd' gds gds' Hgd _ IH]; intros k; [done|].
  intros (o & k' & (s & -> & Hs) & Hk & ->)%Forall2_cons_inv_l. constructor; [|by apply IH].
  exists s. split; [done|]. destruct Hgd as [more Hm]. rewrite Hm, elem_of_app. auto.
Qed.
Lemma codes_grow gds gds' k :
  Forall2 grows gds gds' → Forall db_wf gds → Forall db_wf gds' → coded_key gds k →
  zip_with code_of gds k = zip_with code_of gds' k.
Proof.
  intros Hg Hw Hw' Hk. revert k Hw Hw' Hk.
  induction Hg as [|gd gd' gds gds' Hgd _ IH]; intros k Hw Hw'; [by inversion 1|].
  intros (o & k' & (s & -> & Hs) & Hk & ->)%Forall2_cons_inv_l. apply Forall_cons in Hw as [Hw1 Hw], Hw' as [Hw1' Hw'].
  cbn [zip_with]. f_equal; [|by apply IH]. apply coded_code_of; [done|]. apply (coded_grows gd); [done|]. by apply code_of_coded.
Qed.
(** The word of [k] keeps all its codes. *)
Definition packable (w : Z) (gds : list DictBuilder) (k : cells) : Prop :=
  coded_key gds k ∧ codes_ok w (zip_with code_of gds k).
Lemma packable_grows w gds gds' k :
  Forall2 grows gds gds' → Forall db_wf gds → Forall db_wf gds' → packable w gds k →
  packable w gds' k ∧ pack w gds k = pack w gds' k.
Proof.
  intros Hg Hw Hw' [Hk Hc]. pose proof (codes_grow gds gds' k Hg Hw Hw' Hk) as E. unfold packable, pack. rewrite <- E.
  split; [|done]. split; [by eapply coded_key_grows|done].
Qed.
Lemma packable_small w gds k :
  Forall db_wf gds → Forall (small w) gds → coded_key gds k → Z.of_nat (length gds) * w ≤ 64 → packable w gds k.
Proof.
  intros Hw Hs Hk Hn. pose proof (Forall2_length _ _ _ Hk). split; [done|].
  split; [|rewrite length_zip_with; by rewrite Nat.min_l by lia].
  apply Forall_forall. intros x (i & Hi)%list_elem_of_lookup. rewrite lookup_zip_with in Hi.
  destruct (gds !! i) as [gd|] eqn:Eg; [|done]. destruct (k !! i) as [o|] eqn:Eo; [|done]. cbn in Hi. injection Hi as <-.
  destruct (Forall2_lookup_lr _ _ _ _ _ _ Hk Eg Eo) as (s & -> & Hin).
  destruct (code_of_coded gd s (Forall_lookup_1 _ _ _ _ Hw Eg) Hin) as (j & -> & Hj).
  pose proof (Forall_lookup_1 _ _ _ _ Hs Eg) as Hsm. unfold small in Hsm. apply lookup_lt_Some in Hj. lia.
Qed.
Lemma length_codes w gds k : packable w gds k → length (zip_with code_of gds k) = length gds.
Proof. intros [Hk _]. pose proof (Forall2_length _ _ _ Hk). rewrite length_zip_with. lia. Qed.
Lemma pack_inj w gds k k' :
  0 < w → Forall db_wf gds → packable w gds k → packable w gds k' → pack w gds k = pack w gds k' → k = k'.
Proof.
  intros Hw Hdb H1 H2 E. pose proof (length_codes _ _ _ H1) as L1. pose proof (length_codes _ _ _ H2) as L2.
  destruct H1 as [Hk H1], H2 as [Hk' H2]. unfold pack in E.
  apply packCodes_inj in E; [|done..|congruence]. clear -E Hdb Hk Hk'. revert k k' Hk Hk' E.
  induction Hdb as [|gd gds Hgd _ IH]; intros k k'; [by intros ->%Forall2_nil_inv_l ->%Forall2_nil_inv_l|].
  intros (o & k1 & (s & -> & Hs) & Hk & ->)%Forall2_cons_inv_l (o' & k1' & (s' & -> & Hs') & Hk' & ->)%Forall2_cons_inv_l.
  cbn [zip_with]. intros [=E1 E2]. f_equal; [|by apply IH].
  destruct (code_of_coded gd s Hgd Hs) as (i & Ei & Hi), (code_of_coded gd s' Hgd Hs') as (i' & Ei' & Hi').
  cbn [code_of] in *. do 2 f_equal. assert (i = i') by lia. congruence.
Qed.

(** ** Remaps *)

Lemma dict_inv_inj keys keys' d d' :
  dict_fits keys → dict_inv keys d → dict_fits keys' → dict_inv keys' d' →
  Offsets d = Offsets d' → Data d = Data d' → keys = keys'.
Proof.
  intros Hf [[Ho Hd] _] Hf' [[Ho' Hd'] _] EO ED.
  assert (Hl : length keys = length keys') by (rewrite <- length_dict_offsets, <- Ho, EO, Ho'; apply length_dict_offsets).
  apply list_eq_same_length with (length keys); [done|done|]. intros i s s' _ Hs Hs'.
  destruct (Get_spec keys _ i s Hf (dict_inv_fresh keys) Hs) as (d1 & E & _).
  destruct (Get_spec keys' _ i s' Hf' (dict_inv_fresh keys') Hs') as (d2 & E' & _).
  rewrite <- Ho, <- Hd, EO, ED, Ho', Hd', E' in E. congruence.
Qed.
(** [rm] gives the global code of each entry of a dictionary. *)
Definition remap_ok (gd : DictBuilder) (keys : list string) (rm : list Z) : Prop := Forall2 (coded (db_keys gd)) rm keys.
Definition memo_ok (gd : DictBuilder) (memo : gmap (list Z * list Z) (list Z)) : Prop :=
  ∀ o rm, memo !! o = Some rm →
    ∃ keys, dict_fits keys ∧ o = (dict_offsets keys, dict_data keys) ∧ remap_ok gd keys rm.
Definition col_ok (U : list string) (gd : DictBuilder) (memo : gmap (list Z * list Z) (list Z)) : Prop :=
  db_wf gd ∧ db_keys gd ⊆ U ∧ memo_ok gd memo.
Lemma remap_ok_grows gd gd' keys rm : grows gd gd' → remap_ok gd keys rm → remap_ok gd' keys rm.
Proof. intros Hg H. eapply Forall2_impl; [exact H|]. intros x s. by apply coded_grows. Qed.
Lemma memo_ok_grows gd gd' memo : grows gd gd' → memo_ok gd memo → memo_ok gd' memo.
Proof. intros Hg H o rm Ho. destruct (H o rm Ho) as (keys & ? & ? & ?). exists keys. eauto using remap_ok_grows. Qed.
Lemma universe U gd : db_wf gd → db_keys gd ⊆ U → (length (db_keys gd) ≤ length U)%nat.
Proof. intros Hw Hs. apply submseteq_length, NoDup_submseteq; [by apply db_wf_NoDup|done]. Qed.

Section Remap.
Context (U : list string) (HU : Z.of_nat (length U) < 2 ^ 32).

(** The loop over the entries of a new dictionary. *)
Lemma build_remap keys d gds p gd :
  dict_fits keys → dict_inv keys d → keys ⊆ U → gds !! p = Some gd → db_wf gd → db_keys gd ⊆ U →
  ∃ rm d' gd', foldM (remapEntry p) (replicate (length keys) 0, d, gds) (seq 0 (length keys)) = Ret (rm, d', <[p := gd']> gds) ∧
    db_wf gd' ∧ db_keys gd' ⊆ U ∧ grows gd gd' ∧ remap_ok gd' keys rm.
Proof using HU.
  intros Hf Hd Hsub Hp Hw HgU. pose proof (lookup_lt_Some _ _ _ Hp) as Hlp.
  destruct (foldM_seq_ind (remapEntry p) (λ k '(rm, d, gds'), ∃ gd', gds' = <[p := gd']> gds ∧ dict_inv keys d ∧ db_wf gd' ∧
    db_keys gd' ⊆ U ∧ grows gd gd' ∧ length rm = length keys ∧ remap_ok gd' (take k keys) (take k rm))
    (length keys) (replicate (length keys) 0, d, gds)) as ([[rm d'] gds'] & -> & (gd' & -> & _ & H1 & H2 & H3 & Hl & H4)).
  - exists gd. rewrite list_insert_id, length_replicate by done. split_and!; [done..|constructor].
  - intros k [[rm d1] gds1] Hk (gd1 & -> & Hd1 & Hw1 & HU1 & Hg1 & Hl & Hrm). unfold remapEntry.
    destruct (lookup_lt_is_Some_2 keys k Hk) as [s Hs]. destruct (Get_spec keys d1 k s Hf Hd1 Hs) as (d2 & -> & Hd2).
    rewrite go_bind_ret_l. rewrite (index_Ret _ _ gd1) by by rewrite list_lookup_insert_eq. rewrite go_bind_ret_l.
    pose proof (universe U gd1 Hw1 HU1). destruct (Add_wf gd1 s Hw1) as [Hw2 Hc]; [lia|].
    pose proof (Add_keys gd1 s Hw1) as Hks. destruct (Add gd1 s) as [code gd2]. cbn [fst snd] in *.
    rewrite (store_Ret (<[p:=gd1]> gds)) by (rewrite length_insert; lia). rewrite go_bind_ret_l, list_insert_insert_eq.
    rewrite store_Ret by lia. rewrite go_bind_ret_l. eexists. split; [done|]. exists gd2.
    assert (Hg2 : grows gd1 gd2) by (unfold grows; rewrite Hks; destruct (decide (s ∈ db_keys gd1)); [done|by eexists]).
    split_and!; [done|done|done| |by etrans|by rewrite length_insert|].
    + rewrite Hks. destruct (decide (s ∈ db_keys gd1)); [done|]. intros x [Hx|Hx%list_elem_of_singleton]%elem_of_app; [auto|].
      subst x. apply Hsub. by eapply list_elem_of_lookup_2.
    + unfold remap_ok. rewrite (take_S_r _ _ _ Hs), (take_S_r _ k code) by (rewrite list_lookup_insert_eq; [done|lia]).
      apply Forall2_app; [|by constructor]. rewrite take_insert_ge by lia. by apply (remap_ok_grows gd1).
  - exists rm, d', gd'. rewrite !take_ge in H4 by lia. done.
Qed.

Lemma getOrBuildRemap_spec ik p gd memo d keys :
  globalDicts ik !! p = Some gd → remaps ik !! p = Some memo → col_ok U gd memo →
  dict_fits keys → dict_inv keys d → keys ⊆ U →
  ∃ rm gd' memo', getOrBuildRemap ik p (Some d)
      = Ret (rm, set_dicts ik (<[p := gd']> (globalDicts ik)) (<[p := memo']> (remaps ik))) ∧
    col_ok U gd' memo' ∧ grows gd gd' ∧ remap_ok gd' keys rm.
Proof using HU.
  intros Hg Hm (Hw & HgU & Hmemo) Hf Hd Hsub. unfold getOrBuildRemap. rewrite (index_Ret _ _ _ Hm), go_bind_ret_l.
  pose proof Hd as [[Ho Hda] _]. destruct (memo !! (Offsets d, Data d)) as [rm|] eqn:Em.
  - exists rm, gd, memo. rewrite !list_insert_id by done.
    split; [by destruct ik|]. split; [done|]. split; [done|].
    destruct (Hmemo _ _ Em) as (keys' & Hf' & [= EO ED] & Hrm).
    by rewrite (dict_inv_inj keys keys' d (mkDictionary (dict_offsets keys') (dict_data keys') [])) by eauto using dict_inv_fresh.
  - destruct (build_remap keys d (globalDicts ik) p gd Hf Hd Hsub Hg Hw HgU) as (rm & d' & gd' & E & Hw' & HU' & Hgr & Hrm).
    rewrite Ho, length_dict_offsets. rewrite E, go_bind_ret_l. rewrite store_Ret by by eapply lookup_lt_Some.
    rewrite go_bind_ret_l. exists rm, gd', (<[(dict_offsets keys, Data d) := rm]> memo). split; [done|].
    split; [|done]. split; [done|]. split; [done|]. intros o rm' [[<- <-]|[_ Hl]]%lookup_insert_Some.
    + exists keys. by rewrite Hda.
    + by apply (memo_ok_grows gd gd' memo).
Qed.
End Remap.
