(* ===== verification/AggPath.v ===== *)
(** * Package exec: the batches of an aggregate with GROUP BY

    Which path a batch takes, and that each keeps one group for every key: rows
    with a NULL key go to the string-keyed maps even while the integer keys are
    on, an overflowing dictionary moves the integer-keyed groups over. *)
From Stdlib Require Import ZArith Lia ZifyNat.
From stdpp Require Import base numbers list strings gmap.
From S2P Require Import Prelude Encoding Codec Float64 Schema Writer Reader Batch Scratch VExpr VKernel VCase VExprSpec Operator Distinct Sorting Emit Sort Aggregate AggSpec AggKeys AggInt.
#[local] Open Scope Z_scope.

(** ** The state of the integer-key path *)

Definition has_null (c : aggConf) (r : cells) : Prop := None ∈ gb_key c r.
#[export] Instance has_null_dec c r : Decision (has_null c r).
Proof. unfold has_null. apply _. Defined.
Abbreviation width c := (packing (length (groupBy c))).

Record ik_ok (c : aggConf) (U : list string) (ik : intKeyState) : Prop := {
  ik_shifts : shifts ik = (λ i, Z.of_nat i * width c) <$> seq 0 (length (groupBy c));
  ik_widths : widths ik = replicate (length (groupBy c)) (width c);
  ik_dicts : length (globalDicts ik) = length (groupBy c);
  ik_cols : Forall2 (col_ok U) (globalDicts ik) (remaps ik)
}.
Definition int_holds (tys : list DataType) (c : aggConf) (ks rs : list cells) (ik : intKeyState) : Prop :=
  holds tys true c sample_of (pack (width c) (globalDicts ik)) ks rs (intKeys ik) (intGroups ik) ∧
  Forall (packable (width c) (globalDicts ik)) ks.
Definition int_part (tys : list DataType) (c : aggConf) (rs : list cells) (s : aggState) : Prop :=
  str_state tys c (filter (has_null c) rs) s ∧
  ∃ ks, int_holds tys c ks (filter (λ r, ¬ has_null c r) rs) (intKey s).
Record int_state (tys : list DataType) (c : aggConf) (U : list string) (rs : list cells) (s : aggState) : Prop := {
  is_on : enabled (intKey s) = true;
  is_ok : ik_ok c U (intKey s);
  is_small : Forall (small (width c)) (globalDicts (intKey s));
  is_part : int_part tys c rs s
}.

(** The GROUP BY columns are strings in dictionaries over [U]. *)
Definition gb_dicts (gs : list Z) (U : list string) (b : Batch) : Prop :=
  Forall (λ x, ∀ codes dict nb, Vectors b !! Z.to_nat x = Some (StringVector codes dict nb) →
    ∃ d keys, dict = Some d ∧ dict_fits keys ∧ dict_inv keys d ∧ keys ⊆ U) gs.

Lemma packing_bounds n : (1 ≤ n ≤ 8)%nat → 0 < packing n ≤ 32 ∧ Z.of_nat n * packing n ≤ 64.
Proof. intros Hn. unfold packing. do 3 (case_decide; [lia|]). lia. Qed.
Lemma ik_wf c U ik : ik_ok c U ik → Forall db_wf (globalDicts ik).
Proof. intros [_ _ _ H]. eapply Forall2_Forall_l; [exact H|]. apply Forall_true. by intros memo gd []. Qed.

Lemma rows_with_filter c k (P : cells → Prop) `{∀ r, Decision (P r)} rs :
  (∀ r, gb_key c r = k → P r) → rows_with c k (filter P rs) = rows_with c k rs.
Proof.
  intros HP. unfold rows_with. induction rs as [|r rs IH]; [done|]. rewrite !(filter_cons _ r).
  destruct (decide (gb_key c r = k)) as [E|E].
  - rewrite (decide_True _ _ (HP r E)), filter_cons, decide_True by done. by rewrite IH.
  - destruct (decide (P r)); [|done]. by rewrite filter_cons, decide_False.
Qed.
Lemma filter_snoc {A} (P : A → Prop) `{∀ x, Decision (P x)} l x :
  filter P (l ++ [x]) = filter P l ++ (if decide (P x) then [x] else []).
Proof. by rewrite filter_app. Qed.
Lemma keys_ok_filter tys c (P : cells → Prop) `{∀ r, Decision (P r)} rs : keys_ok tys c rs → keys_ok tys c (filter P rs).
Proof. unfold keys_ok. rewrite !Forall_forall. intros Hk r [_ Hr]%list_elem_of_filter. auto. Qed.
Lemma int_part_same tys c rs s s' :
  keys s' = keys s → groups s' = groups s → intKey s' = intKey s → int_part tys c rs s → int_part tys c rs s'.
Proof. intros Ek Eg Ei [(ks0 & H0) (ks & H1)]. split; [exists ks0|exists ks]; unfold str_holds; by rewrite ?Ek, ?Eg, ?Ei. Qed.

Section Path.
Context (tys : list DataType) (D : Z) (c : aggConf) (U : list string) (b : Batch).
Context (Hc : conf_ok tys c) (Hb : batch_ok tys D b) (HU : Z.of_nat (length U) < 2 ^ 32).
Context (Hnd : hasDistinct c = false) (Hn : (1 ≤ length (groupBy c) ≤ 8)%nat).
Context (Hts : Forall (λ x, tys !! Z.to_nat x = Some TypeString) (groupBy c)) (Hdict : gb_dicts (groupBy c) U b).
Abbreviation n := (evalLen b).
Abbreviation row i := (r_cells (row_at b i)).
Abbreviation w := (width c).

Definition svec (x : Z) : Vector := default (Int64Vector [] []) (Vectors b !! Z.to_nat x).
(** A GROUP BY vector, its global dictionary and its remap. *)
Definition remapped_col (v : Vector) (gd : DictBuilder) (rm : list Z) : Prop :=
  ∃ codes d nb keys, v = StringVector codes (Some d) nb ∧ dict_fits keys ∧ dict_inv keys d ∧ remap_ok gd keys rm.

Lemma str_column x :
  x ∈ groupBy c → vectorAt b x = Ret (svec x) ∧ column (svec x) TypeString n (λ i, default None (row i !! Z.to_nat x)) ∧
    ∃ codes d nb keys, svec x = StringVector codes (Some d) nb ∧ dict_fits keys ∧ dict_inv keys d ∧ keys ⊆ U.
Proof using Hc Hb Hts Hdict.
  intros Hx. destruct (gb_column tys D c b Hc Hb x Hx) as (v & t & Ev & Evx & Et & Hcol). unfold svec. rewrite Evx.
  pose proof (proj1 (Forall_forall _ _) Hts x Hx) as E. cbv beta in E. assert (t = TypeString) as -> by congruence.
  split; [done|]. split; [done|]. pose proof Hcol as (_ & Evt & _). destruct v as [| | |codes dict nb|]; try done.
  destruct (proj1 (Forall_forall _ _) Hdict x Hx _ _ _ Evx) as (d & keys & -> & ? & ? & ?). by exists codes, d, nb, keys.
Qed.

(** Building the remaps of a batch. *)
Definition remapLoop : list Vector * list (list Z) * intKeyState → nat * Z → go (list Vector * list (list Z) * intKeyState) :=
  λ '(svecs, rms, ik) '(i, colIdx),
    v ← vectorAt b colIdx;
    match v with
    | StringVector _ dict _ => '(rm, ik) ← getOrBuildRemap ik i dict; Ret (svecs ++ [v], rms ++ [rm], ik)
    | _ => Panic
    end.
Lemma remaps_spec ik :
  ik_ok c U ik → ∃ rms gds ms, foldM remapLoop ([], [], ik) (enum (groupBy c)) = Ret (svec <$> groupBy c, rms, set_dicts ik gds ms) ∧
    ik_ok c U (set_dicts ik gds ms) ∧ Forall2 grows (globalDicts ik) gds ∧
    Forall3 remapped_col (svec <$> groupBy c) gds rms.
Proof using Hc Hb HU Hn Hts Hdict.
  intros Hik. destruct (foldM_enum_ind remapLoop (λ k '(svecs, rms, ik'), ∃ gds ms, svecs = svec <$> take k (groupBy c) ∧
      ik' = set_dicts ik gds ms ∧ ik_ok c U ik' ∧ Forall2 grows (globalDicts ik) gds ∧
      Forall3 remapped_col svecs (take k gds) rms) (groupBy c) ([], [], ik))
    as ([[svecs rms] ik'] & E & (gds & ms & -> & -> & H1 & H2 & H3)).
  - exists (globalDicts ik), (remaps ik). split; [done|]. split; [by destruct ik|]. split; [done|]. split; [done|constructor].
  - intros k x [[svecs rms] ik'] Hx (gds & ms & -> & -> & [Hs Hw Hl Hcols] & Hg & Hr). unfold remapLoop.
    cbn [shifts widths globalDicts remaps set_dicts] in *.
    destruct (str_column x ltac:(by eapply list_elem_of_lookup_2)) as (-> & Hcol & (codes & d & nb & keys & Ev & Hf & Hd & Hsub)).
    rewrite go_bind_ret_l, Ev. pose proof (lookup_lt_Some _ _ _ Hx) as Hk.
    destruct (lookup_lt_is_Some_2 gds k) as [gd Hgd]; [lia|].
    destruct (Forall2_lookup_l _ _ _ _ _ Hcols Hgd) as (memo & Hm & Hok).
    destruct (getOrBuildRemap_spec U HU (set_dicts ik gds ms) k gd memo d keys Hgd Hm Hok Hf Hd Hsub)
      as (rm & gd' & memo' & -> & Hok' & Hgr & Hrm). rewrite go_bind_ret_l. eexists. split; [done|].
    cbn [globalDicts remaps set_dicts]. exists (<[k:=gd']> gds), (<[k:=memo']> ms).
    rewrite (take_S_r _ _ _ Hx), fmap_app. cbn [fmap list_fmap]. rewrite Ev. split; [done|]. split; [done|]. split; [|split].
    + split; [done|done|cbn; by rewrite length_insert|]. by apply Forall2_insert.
    + apply Forall2_same_length_lookup. split; [rewrite length_insert; by eapply Forall2_length|].
      intros j g1 g2 Hj1 Hj2. apply list_lookup_insert_Some in Hj2 as [(-> & -> & _)|[_ Hj2]].
      * assert (grows g1 gd) by by eapply (Forall2_lookup_lr _ _ _ _ _ _ Hg). by etrans.
      * by eapply (Forall2_lookup_lr _ _ _ _ _ _ Hg).
    + rewrite (take_S_r _ k gd') by (rewrite list_lookup_insert_eq; [done|lia]). rewrite take_insert_ge by lia.
      apply Forall3_app; [done|]. constructor; [|constructor]. by exists codes, d, nb, keys.
  - pose proof (ik_dicts _ _ _ H1) as Hl. cbn in Hl. rewrite !take_ge in H3 by lia. rewrite take_ge in E by lia.
    exists rms, gds, ms. done.
Qed.

(** ** One row *)

Lemma anyNull_spec i : (i < n)%nat → anyNull (svec <$> groupBy c) i = Ret (bool_decide (has_null c (row i))).
Proof using Hc Hb Hn Hts Hdict.
  intros Hi. assert (Hg : ∀ gs, Forall (λ x, x ∈ groupBy c) gs → anyNull (svec <$> gs) i
    = Ret (bool_decide (None ∈ (λ x, default None (row i !! Z.to_nat x)) <$> gs))).
  2: { rewrite Hg by by apply Forall_forall. by f_equal; apply bool_decide_ext. }
  intros gs. induction 1 as [|x gs Hx _ IH].
  - done.
  - cbn [fmap list_fmap anyNull]. destruct (str_column x Hx) as (_ & Hcol & _).
    rewrite (column_IsNull _ _ _ _ _ Hcol Hi), go_bind_ret_l. cbv beta.
    destruct (default None (row i !! Z.to_nat x)) as [c0|] eqn:E.
    + rewrite bool_decide_eq_false_2 by done. rewrite IH. f_equal. apply bool_decide_ext. rewrite elem_of_cons. naive_solver.
    + by rewrite bool_decide_eq_true_2.
Qed.
Lemma sampleStrings_spec i :
  (i < n)%nat → ¬ has_null c (row i) → sampleStrings (svec <$> groupBy c) i = Ret (gbv <$> gb_key c (row i)).
Proof using Hc Hb Hn Hts Hdict.
  intros Hi. unfold has_null, sampleStrings, gb_key. assert (Hall : Forall (λ x, x ∈ groupBy c) (groupBy c)) by by apply Forall_forall.
  revert Hall. generalize (groupBy c) at 2 3 4 5 as gs. intros gs Hall Hnn.
  cut (∀ out, foldM (λ out sv, s ← stringAt sv i; Ret (out ++ [mkGroupByVal false s 0])) out (svec <$> gs)
    = Ret (out ++ (gbv <$> ((λ x, default None (row i !! Z.to_nat x)) <$> gs)))); [intros C; apply (C [])|].
  induction Hall as [|x gs Hx _ IH]; intros out; [by rewrite app_nil_r|]. cbn [fmap list_fmap] in *.
  rewrite not_elem_of_cons in Hnn. destruct Hnn as [Hx0 Hnn]. destruct (str_column x Hx) as (_ & Hcol & _).
  destruct (default None (row i !! Z.to_nat x)) as [c0|] eqn:E; [|done]. cbn [foldM].
  pose proof (column_has_type _ _ _ _ _ Hcol Hi) as Ht. cbv beta in Ht. rewrite E in Ht. destruct c0 as [| | |s|]; try done.
  destruct (svec x) as [| | |codes dict nb|] eqn:Ev; try (by destruct Hcol as (_ & ? & _)).
  unfold stringAt at 2. destruct (sv_Get_spec _ _ _ _ _ _ s Hcol Hi E) as (d & ->).
  rewrite !go_bind_ret_l, (IH Hnn). by rewrite <- app_assoc.
Qed.

(** The code of one column of a row. *)
Lemma local_code v f gd rm i c0 :
  column v TypeString n f → remapped_col v gd rm → (i < n)%nat → f i = Some c0 → db_wf gd →
  ∃ codes x, codesOf v = Ret codes ∧ (localCode ← index codes i; index rm (Z.to_nat localCode)) = Ret x ∧
    x = code_of gd (Some c0) ∧ ∃ s, c0 = CStr s ∧ s ∈ db_keys gd.
Proof using.
  clear. intros Hcol (codes & d & nb & keys & -> & Hf & Hd & Hrm) Hi Hfi Hw.
  destruct (proj1 (column_string _ _ _) Hcol) as (codes' & dict' & nb' & [= <- <- <-] & Hl & Hnb & Hnull & (keys' & _ & Hf' & Hd' & Hk)).
  rewrite (dict_inv_inj keys keys' d d) in * by done.
  destruct (bit_valid nb i) eqn:Ev; [|rewrite Hnull in Hfi by done; done].
  destruct (Hk i Hi Ev) as (k & s & Hci & Hks & Es). rewrite Hfi in Es. injection Es as ->.
  destruct (Forall2_lookup_r _ _ _ _ _ Hrm Hks) as (x & Hx & Hcoded).
  exists codes, x. split; [done|]. rewrite (index_Ret _ _ _ Hci), go_bind_ret_l, Nat2Z.id, (index_Ret _ _ _ Hx).
  split; [done|]. split; [by apply coded_code_of|]. exists s. split; [done|]. destruct Hcoded as (j & _ & Hj).
  by eapply list_elem_of_lookup_2.
Qed.
Lemma row_codes gds rms i :
  Forall3 remapped_col (svec <$> groupBy c) gds rms → Forall db_wf gds → (i < n)%nat → ¬ has_null c (row i) →
  coded_key gds (gb_key c (row i)) ∧
  ∀ p v, (svec <$> groupBy c) !! p = Some v → ∃ codes rm x, codesOf v = Ret codes ∧ rms !! p = Some rm ∧
    (localCode ← index codes i; index rm (Z.to_nat localCode)) = Ret x ∧ zip_with code_of gds (gb_key c (row i)) !! p = Some x.
Proof using Hc Hb Hn Hts Hdict.
  intros Hr Hw Hi Hnn. unfold has_null, gb_key in *.
  assert (Hall : Forall (λ x, x ∈ groupBy c) (groupBy c)) by by apply Forall_forall.
  revert Hall gds rms Hr Hw Hnn. generalize (groupBy c) at 2 3 4 5 6 7 as gs.
  induction 1 as [|x gs Hx _ IH]; intros gds rms Hr Hw Hnn; cbn [fmap list_fmap] in *.
  { inversion Hr; subst. split; [constructor|done]. }
  apply Forall3_cons_inv_l in Hr as (gd & gds' & rm & rms' & -> & -> & Hr1 & Hr). apply Forall_cons in Hw as [Hw1 Hw].
  rewrite not_elem_of_cons in Hnn. destruct Hnn as [Hx0 Hnn]. destruct (IH gds' rms' Hr Hw Hnn) as [IH1 IH2].
  destruct (str_column x Hx) as (_ & Hcol & _).
  destruct (default None (row i !! Z.to_nat x)) as [c0|] eqn:E; [|done].
  destruct (local_code _ _ gd rm i c0 Hcol Hr1 Hi E Hw1) as (codes & y & H1 & H2 & -> & s & -> & Hs).
  split; [constructor; [by exists s|done]|]. intros [|p] v Hp; [|by apply IH2].
  injection Hp as <-. exists codes, rm. eexists. done.
Qed.
Lemma packKey_spec ik rms i :
  ik_ok c U ik → Forall3 remapped_col (svec <$> groupBy c) (globalDicts ik) rms → (i < n)%nat → ¬ has_null c (row i) →
  packKey ik (svec <$> groupBy c) rms i = Ret (pack w (globalDicts ik) (gb_key c (row i))).
Proof using Hc Hb Hn Hts Hdict.
  intros Hik Hr Hi Hnn. destruct (row_codes _ rms i Hr (ik_wf c U ik Hik) Hi Hnn) as [Hck Hcodes].
  set (cs := zip_with code_of (globalDicts ik) (gb_key c (row i))) in *. unfold packKey.
  assert (Hlc : length cs = length (groupBy c)).
  { unfold cs. rewrite length_zip_with, <- (Forall2_length _ _ _ Hck), (ik_dicts _ _ _ Hik). lia. }
  destruct (foldM_enum_ind (λ key '(i0, sv),
      codes ← codesOf sv; localCode ← index codes i; remap ← index rms i0; globalCode ← index remap (Z.to_nat localCode);
      shift ← index (shifts ik) i0; Ret (Z.lor key (to_u64 (Z.shiftl globalCode shift))))
    (λ k key, key = packCodes w (take k cs)) (svec <$> groupBy c) 0) as (key & -> & ->).
  - done.
  - intros k v key Hk ->. destruct (Hcodes k v Hk) as (codes & rm & x & -> & Hrm & Hx & Hcx). rewrite go_bind_ret_l.
    destruct (index codes i) as [lc| | |] eqn:El; try done. rewrite go_bind_ret_l in Hx |- *.
    rewrite (index_Ret _ _ _ Hrm), go_bind_ret_l, Hx, go_bind_ret_l.
    pose proof (lookup_lt_Some _ _ _ Hk) as Hlt. rewrite length_fmap in Hlt.
    rewrite (ik_shifts _ _ _ Hik), (index_Ret _ _ (Z.of_nat k * w)) by by rewrite list_lookup_fmap, lookup_seq_lt.
    rewrite go_bind_ret_l. eexists. split; [done|]. rewrite (take_S_r _ _ _ Hcx), packCodes_snoc, length_take.
    by rewrite Nat.min_l by lia.
  - unfold pack. fold cs. by rewrite take_ge by (rewrite length_fmap; lia).
Qed.

Lemma intRow_spec rms s rs i :
  int_state tys c U rs s → keys_ok tys c rs → Forall3 remapped_col (svec <$> groupBy c) (globalDicts (intKey s)) rms →
  (i < n)%nat → row_fits (row_at b i) →
  ∃ s', intRow c b (svec <$> groupBy c) rms (agg_vecs c b) s i = Ret s' ∧ int_state tys c U (rs ++ [row i]) s' ∧
    globalDicts (intKey s') = globalDicts (intKey s) ∧ intKeyDecided s' = intKeyDecided s.
Proof using Hc Hb Hnd Hn Hts Hdict.
  intros [Hon Hik Hsm (Hstr & ks & Hint & Hcoded)] Hok Hr Hi Hf. unfold intRow. rewrite anyNull_spec, go_bind_ret_l by done.
  assert (Hfold : ∀ sts sm, length sts = length (aggExprs c) →
     foldRow c (agg_vecs c b) i (grp c sts sm) = Ret (grp c (step_all (aggExprs c) sts (row i)) sm)).
  { intros sts sm Hl. by apply (foldRow_spec tys D). }
  destruct (decide (has_null c (row i))) as [Hnull|Hnull].
  - rewrite bool_decide_eq_true_2 by done.
    destruct (str_row tys D c b Hc Hb (foldRow c (agg_vecs c b) i) s _ i Hstr (keys_ok_filter _ _ _ _ Hok) Hi Hf Hfold)
      as (s' & E & Hs' & Eik & Eid).
    exists s'. split; [done|]. rewrite Eik. split; [|done]. split; [by rewrite Eik..|]. split.
    + by rewrite filter_snoc, decide_True.
    + exists ks. rewrite Eik, filter_snoc, decide_False, app_nil_r by tauto. done.
  - rewrite bool_decide_eq_false_2 by done. rewrite (packKey_spec (intKey s) rms i Hik Hr Hi Hnull), go_bind_ret_l.
    destruct (row_codes _ rms i Hr (ik_wf c U _ Hik) Hi Hnull) as [Hck _].
    destruct (packing_bounds (length (groupBy c)) Hn) as [Hw Hw64].
    assert (Hpk : packable w (globalDicts (intKey s)) (gb_key c (row i))).
    { apply packable_small; [by eapply ik_wf|done|done|by rewrite (ik_dicts _ _ _ Hik)]. }
    destruct (holds_row tys true c sample_of (pack w (globalDicts (intKey s))) ks _ _ _ (row i) Hint) as [Hl Hs'].
    { intros k' Hk'. rewrite Forall_forall in Hcoded. apply pack_inj; [lia|by eapply ik_wf|auto|done]. }
    set (k := gb_key c (row i)) in *. rewrite Hl.
    exists (set_intKey s (set_ints (intKey s) (if decide (k ∈ ks) then intKeys (intKey s)
        else intKeys (intKey s) ++ [pack w (globalDicts (intKey s)) k])
      (<[pack w (globalDicts (intKey s)) k := grp c (step_all (aggExprs c) (states tys true c
          (rows_with c k (filter (λ r, ¬ has_null c r) rs))) (row i)) (sample_of k)]> (intGroups (intKey s))))).
    split; [|split; [|done]].
    + destruct (decide (k ∈ ks)) as [Hin|Hin].
      * rewrite go_bind_ret_l. unfold group_of. rewrite Hfold by apply length_states. done.
      * rewrite sampleStrings_spec, !go_bind_ret_l by done. fold k. fold (sample_of k).
        rewrite rows_with_fresh by by rewrite <- (h_rows _ _ _ _ _ _ _ _ _ Hint).
        replace (mkGroup _ _ _ _ _ _) with (grp c (init_st tys true <$> aggExprs c) (sample_of k)).
        { rewrite Hfold by apply length_fmap. done. }
        unfold grp. rewrite Hnd, (newAccums_init tys true), (nonNull_init tys true), (newStrAccums_init tys true). done.
    + split; [done|by destruct Hik|done|]. split.
      * by rewrite filter_snoc, decide_False, app_nil_r.
      * exists (uniq_step ks k). rewrite filter_snoc, decide_True by done. split; [done|].
        unfold uniq_step. destruct (decide (k ∈ ks)); [done|]. apply Forall_app. split; [done|]. by apply Forall_singleton.
Qed.
End Path.

(** ** From the integer keys to the string keys *)

Section Materialize.
Context (tys : list DataType) (c : aggConf) (U : list string).
Context (Hnd : hasDistinct c = false) (Hn : (1 ≤ length (groupBy c) ≤ 8)%nat).
Abbreviation w := (width c).

Lemma cell_key_str s :
  cell_fits (Some (CStr s)) → cell_key (Some (CStr s)) = AppendUint32 [2] (to_u32 (Z.of_nat (strlen s))) ++ bytes_of s ++ [0xFF].
Proof using. clear. cbn [cell_fits]. intros Hf. rewrite (wrapU_id 32) by (split; lia). unfold cell_key, AppendUint32. by rewrite <- app_assoc. Qed.

(** A packed key decodes to the byte key. *)
Lemma intKeyToStringKey_spec ik k g :
  ik_ok c U ik → packable w (globalDicts ik) k → Forall cell_fits k →
  intGroups ik !! pack w (globalDicts ik) k = Some g → sample g = sample_of k →
  intKeyToStringKey ik (length (groupBy c)) (pack w (globalDicts ik) k) = Ret (row_key k).
Proof using Hn.
  intros Hik Hpk Hfits Hg Hsam. pose proof (length_codes _ _ _ Hpk) as Hlc. destruct Hpk as [Hck Hcs]. destruct (packing_bounds (length (groupBy c)) Hn) as [Hw Hw64].
  pose proof (ik_dicts _ _ _ Hik) as Hld. pose proof (Forall2_length _ _ _ Hck) as Hlk.
  destruct (packCodes_field w _ (proj1 Hw) Hcs) as [_ Hfield]. fold (pack w (globalDicts ik) k) in Hfield.
  unfold intKeyToStringKey, row_key. rewrite Hg, Hsam. unfold sample_of. cbv beta iota.
  edestruct (foldM_seq_ind (λ buf i,
      shift ← index (shifts ik) i; width ← index (widths ik) i;
      isnull ← (s ← index (gbv <$> k) i; Ret (g_isNull s));
      if (isnull : bool) then Ret (buf ++ [0; 0xFF]) else
      gd ← index (globalDicts ik) i;
      s ← GetByCode gd (to_u32 (Z.land (Z.shiftr (pack w (globalDicts ik) k) shift) (Z.shiftl 1 width - 1)));
      Ret (AppendUint32 (buf ++ [2]) (to_u32 (Z.of_nat (strlen s))) ++ bytes_of s ++ [0xFF]))
    (λ i buf, buf = concat (cell_key <$> take i k)) (length (groupBy c)) []) as (buf & -> & ->).
  - done.
  - intros i buf Hi ->. rewrite (ik_shifts _ _ _ Hik), (ik_widths _ _ _ Hik).
    rewrite (index_Ret (_ <$> _) _ (Z.of_nat i * w)) by by rewrite list_lookup_fmap, lookup_seq_lt.
    rewrite go_bind_ret_l, (index_Ret (replicate _ _) _ w) by by apply lookup_replicate_2. rewrite go_bind_ret_l.
    destruct (lookup_lt_is_Some_2 (globalDicts ik) i) as [gd Hgd]; [lia|].
    destruct (Forall2_lookup_l _ _ _ _ _ Hck Hgd) as (o & Ho & s & -> & Hs).
    rewrite (index_Ret _ _ (gbv (Some (CStr s)))) by by rewrite list_lookup_fmap, Ho. rewrite !go_bind_ret_l. cbn [gbv g_isNull].
    rewrite (index_Ret _ _ _ Hgd), go_bind_ret_l.
    rewrite (Hfield i (code_of gd (Some (CStr s)))) by by rewrite lookup_zip_with, Hgd; cbn; rewrite Ho.
    pose proof (Forall_lookup_1 _ _ _ _ (ik_wf _ _ _ Hik) Hgd) as Hwf.
    destruct (code_of_coded gd s Hwf Hs) as (j & -> & Hj). pose proof (lookup_lt_Some _ _ _ Hj) as Hjl.
    rewrite (wrapU_id 32) by (destruct Hwf; split; lia). unfold GetByCode. rewrite Nat2Z.id, (index_Ret _ _ _ Hj), go_bind_ret_l.
    eexists. split; [done|]. rewrite (take_S_r _ _ _ Ho), fmap_app, concat_app. cbn [fmap list_fmap concat]. rewrite app_nil_r.
    rewrite cell_key_str by exact (Forall_lookup_1 _ _ _ _ Hfits Ho). unfold AppendUint32. by rewrite <- !app_assoc.
  - by rewrite take_ge by lia.
Qed.

Lemma int_materialize_spec s rs :
  ik_ok c U (intKey s) → int_part tys c rs s → keys_ok tys c rs →
  ∃ s', materializeToStringMaps c s = Ret s' ∧ str_state tys c rs s' ∧ intKey s' = intKey s ∧ intKeyDecided s' = intKeyDecided s.
Proof using Hn.
  intros Hik ((ks0 & H0) & ks1 & H1 & Hcoded) Hok.
  assert (Hin : ∀ k, k ∈ ks0 ++ ks1 ↔ k ∈ gb_key c <$> rs).
  { intros k. rewrite elem_of_app, (h_rows _ _ _ _ _ _ _ _ _ H0), (h_rows _ _ _ _ _ _ _ _ _ H1), !list_elem_of_fmap.
    setoid_rewrite list_elem_of_filter. split; [naive_solver|]. intros (r & -> & Hr).
    destruct (decide (has_null c r)); [left|right]; eauto. }
  assert (Hkok : ∀ k, k ∈ ks0 ++ ks1 → key_ok tys c k).
  { intros k (r & -> & Hr)%Hin%list_elem_of_fmap. unfold keys_ok in Hok. rewrite Forall_forall in Hok. auto. }
  assert (Hgrp : ∀ k (P : cells → Prop) (H : ∀ r, Decision (P r)), k ∈ gb_key c <$> filter P rs → (∀ r r', gb_key c r = gb_key c r' → P r → P r') →
    group_of tys true c sample_of k (filter P rs) = group_of tys true c sample_of k rs).
  { intros k P HP (r & -> & [Hr _]%list_elem_of_filter)%list_elem_of_fmap Hext. unfold group_of. rewrite rows_with_filter; [done|]. eauto. }
  assert (Hdisj : ∀ k, k ∈ ks0 → k ∈ ks1 → False).
  { intros k Hk0 Hk1. apply (h_rows _ _ _ _ _ _ _ _ _ H0), list_elem_of_fmap in Hk0 as (r & -> & [Hr _]%list_elem_of_filter).
    apply (h_rows _ _ _ _ _ _ _ _ _ H1), list_elem_of_fmap in Hk1 as (r' & E & [Hr' _]%list_elem_of_filter).
    apply Hr'. unfold has_null in *. by rewrite <- E. }
  assert (Hkeys : intKeys (intKey s) = pack w (globalDicts (intKey s)) <$> ks1) by apply H1.
  unfold materializeToStringMaps. rewrite Hkeys, foldM_fmap.
  destruct (foldM_list_ind (λ s0 k,
      strKey ← intKeyToStringKey (intKey s) (length (groupBy c)) (pack w (globalDicts (intKey s)) k);
      g ← match intGroups (intKey s) !! pack w (globalDicts (intKey s)) k with Some g => Ret g | None => Panic end;
      Ret (set_groups s0 (keys s0 ++ [strKey]) (<[strKey := g]> (groups s0))))
    (λ m s', keys s' = row_key <$> (ks0 ++ take m ks1) ∧ intKey s' = intKey s ∧ intKeyDecided s' = intKeyDecided s ∧
      (∀ k, k ∈ ks0 ++ take m ks1 → groups s' !! row_key k = Some (group_of tys true c sample_of k rs)) ∧
      (∀ key, is_Some (groups s' !! key) → key ∈ keys s')) ks1 s) as (s' & E & Hk & Hi & Hd & Hg & Hdom).
  - rewrite app_nil_r. split; [apply H0|]. split; [done|]. split; [done|]. split; [|apply H0].
    intros k Hk. rewrite (h_groups _ _ _ _ _ _ _ _ _ H0 k Hk). f_equal. apply Hgrp; [by apply H0|].
    unfold has_null. by intros r r' ->.
  - intros m k s1 Hm (Hk1 & Hi1 & Hd1 & Hg1 & Hdom1). pose proof (list_elem_of_lookup_2 _ _ _ Hm) as Hkin.
    pose proof (h_groups _ _ _ _ _ _ _ _ _ H1 k Hkin) as Hgk.
    rewrite (intKeyToStringKey_spec (intKey s) k _ Hik (proj1 (Forall_forall _ _) Hcoded k Hkin)
      (proj2 (Hkok k (proj2 (elem_of_app _ _ _) (or_intror Hkin)))) Hgk eq_refl), go_bind_ret_l, Hgk, go_bind_ret_l.
    eexists. split; [done|]. cbn [keys groups intKey intKeyDecided set_groups]. rewrite (take_S_r _ _ _ Hm), app_assoc, (fmap_app _ _ [k]), Hk1.
    split; [done|]. split; [done|]. split; [done|]. split.
    + intros k' [Hk'| ->%list_elem_of_singleton]%elem_of_app.
      * rewrite lookup_insert_ne; [auto|]. intros E. apply (row_key_key_inj tys c) in E as <-.
        -- apply elem_of_app in Hk' as [|Hk']; [by eapply Hdisj|].
           apply list_elem_of_lookup in Hk' as [j Hj]. apply lookup_take_Some in Hj as [Hj Hjm].
           pose proof (NoDup_lookup _ _ _ _ (h_nodup _ _ _ _ _ _ _ _ _ H1) Hj Hm). lia.
        -- apply Hkok, elem_of_app. by right.
        -- apply Hkok. apply elem_of_app in Hk' as [|Hk']; apply elem_of_app; [by left|right]. by apply elem_of_take in Hk' as (j & ? & _); eapply list_elem_of_lookup_2.
      * rewrite lookup_insert_eq. f_equal. apply Hgrp; [by apply H1|]. unfold has_null. by intros r r' ->.
    + intros key [g Hg']. rewrite elem_of_app. apply lookup_insert_Some in Hg' as [[<- _]|[_ Hg']]; [right; by apply list_elem_of_here|].
      left. rewrite <- Hk1. apply Hdom1. by eexists.
  - exists s'. split; [done|]. split; [|done]. rewrite take_ge in * by done. exists (ks0 ++ ks1). split; [done| |done|done|done].
    apply NoDup_app. split; [apply H0|]. split; [|apply H1]. intros k Hk0 Hk1. by eapply Hdisj.
Qed.
End Materialize.

(** ** A batch *)

Lemma codeOverflows_spec c U ik :
  ik_ok c U ik → codeOverflows ik = Ret (bool_decide (¬ Forall (small (width c)) (globalDicts ik))).
Proof.
  intros Hik. unfold codeOverflows.
  destruct (foldM_enum_ind (λ r '(i, gd), w ← index (widths ik) i;
      Ret (r || bool_decide (Z.shiftl 1 w ≤ Z.of_nat (db_Len gd))))
    (λ k r, r = true ↔ ¬ Forall (small (width c)) (take k (globalDicts ik))) (globalDicts ik) false) as (r & -> & Hr).
  - split; [done|]. intros H. destruct H. constructor.
  - intros k gd r Hk Hr. rewrite (ik_widths _ _ _ Hik), (index_Ret _ _ (width c)).
    2: { apply lookup_replicate_2. rewrite <- (ik_dicts _ _ _ Hik). by eapply lookup_lt_Some. }
    rewrite go_bind_ret_l. eexists. split; [done|]. rewrite (take_S_r _ _ _ Hk), Forall_app, Forall_singleton, orb_true_iff, Hr.
    rewrite bool_decide_eq_true. unfold small, db_Len. rewrite Z.shiftl_mul_pow2, Z.mul_1_l.
    2: { unfold packing. by repeat case_decide. }
    destruct (decide (Forall (small (width c)) (take k (globalDicts ik)))) as [HF|HF]; [|tauto].
    rewrite Z.le_ngt. unfold small in HF. tauto.
  - rewrite take_ge in Hr by done. f_equal. destruct r; symmetry; [apply bool_decide_eq_true_2|apply bool_decide_eq_false_2]; naive_solver.
Qed.

(** What an aggregate with GROUP BY holds between two batches. *)
Definition gb_state (tys : list DataType) (c : aggConf) (U : list string) (rs : list cells) (s : aggState) : Prop :=
  if intKeyDecided s then
    enabled (intKey s) = false ∧ str_state tys c rs s ∨
    hasDistinct c = false ∧ (1 ≤ length (groupBy c) ≤ 8)%nat ∧
      Forall (λ x, tys !! Z.to_nat x = Some TypeString) (groupBy c) ∧ int_state tys c U rs s
  else rs = [] ∧ s = initMaps.

Section Batches.
Context (tys : list DataType) (D : Z) (c : aggConf) (U : list string).
Context (Hc : conf_ok tys c) (HU : Z.of_nat (length U) < 2 ^ 32).

Lemma int_part_grows rs s gds ms :
  ik_ok c U (intKey s) → ik_ok c U (set_dicts (intKey s) gds ms) → Forall2 grows (globalDicts (intKey s)) gds →
  int_part tys c rs s → int_part tys c rs (set_intKey s (set_dicts (intKey s) gds ms)).
Proof using.
  clear Hc HU. intros Hik Hik' Hg [H0 (ks & H1 & Hp)]. split; [done|]. exists ks.
  assert (Hks : ∀ k, k ∈ ks → packable (width c) gds k ∧ pack (width c) (globalDicts (intKey s)) k = pack (width c) gds k).
  { intros k Hk. apply packable_grows; [done|by eapply ik_wf|exact (ik_wf _ _ _ Hik')|]. revert k Hk. by apply Forall_forall. }
  split; cbn [globalDicts set_dicts set_intKey intKey]; [|apply Forall_forall; intros k Hk; by apply Hks].
  eapply holds_ext; [|exact H1]. intros k Hk. by apply Hks.
Qed.

Definition batch_rows (b : Batch) : list cells := r_cells <$> rows_of b.
Definition rows_ok (b : Batch) : Prop := Forall (λ i, (i < evalLen b)%nat ∧ row_fits (row_at b i)) (sel_rows b).

Lemma leaveIntKey_spec s rs :
  (1 ≤ length (groupBy c) ≤ 8)%nat → ik_ok c U (intKey s) → int_part tys c rs s → keys_ok tys c rs →
  ∃ s', leaveIntKey c s = Ret s' ∧ str_state tys c rs s' ∧ enabled (intKey s') = false ∧ intKeyDecided s' = intKeyDecided s.
Proof using.
  clear Hc HU. intros Hn Hik Hpart Hok. unfold leaveIntKey.
  destruct (int_materialize_spec tys c U Hn (set_intKey s (disabled (intKey s) (intKeys (intKey s)) (intGroups (intKey s)))) rs)
    as (s1 & Em & Hs1 & Hi1 & Hd1).
  - by destruct Hik.
  - destruct Hpart as [H0 (ks & H1 & H2)]. split; [done|]. by exists ks.
  - done.
  - destruct (decide (0 < length (intKeys (intKey s)))%nat) as [Hlt|Hge].
    + rewrite Em, go_bind_ret_l. by eexists.
    + eexists. split; [done|]. split; [|done]. unfold materializeToStringMaps in Em. cbn [intKey set_intKey disabled intKeys] in Em.
      destruct (intKeys (intKey s)); [|cbn in Hge; lia]. injection Em as <-. done.
Qed.
Lemma accumulateIntKey_spec b rs s :
  hasDistinct c = false → (1 ≤ length (groupBy c) ≤ 8)%nat → Forall (λ x, tys !! Z.to_nat x = Some TypeString) (groupBy c) →
  batch_ok tys D b → gb_dicts (groupBy c) U b → rows_ok b →
  int_state tys c U rs s → keys_ok tys c rs → intKeyDecided s = true →
  ∃ s', accumulateIntKey c b (batchRows b) (agg_vecs c b) s = Ret s' ∧ gb_state tys c U (rs ++ batch_rows b) s' ∧
    intKeyDecided s' = true.
Proof using Hc HU.
  intros Hnd Hn Hts Hb Hdict Hidx [Hon Hik Hsm Hpart] Hok Hdec. unfold accumulateIntKey.
  destruct (remaps_spec tys D c U b Hc Hb HU Hn Hts Hdict (intKey s) Hik) as (rms & gds & ms & E & Hik' & Hg & Hr).
  unfold remapLoop in E. rewrite E, go_bind_ret_l. rewrite (codeOverflows_spec c U) by done. rewrite go_bind_ret_l.
  pose proof (int_part_grows rs s gds ms Hik Hik' Hg Hpart) as Hpart'. cbn [globalDicts set_dicts].
  destruct (decide (Forall (small (width c)) gds)) as [Hsm'|Hsm'].
  - rewrite bool_decide_eq_false_2 by tauto. rewrite rowLoop_spec.
    destruct (foldM_rows (λ rs s', int_state tys c U rs s' ∧ keys_ok tys c rs ∧ globalDicts (intKey s') = gds ∧ intKeyDecided s' = true)
        (intRow c b (svec b <$> groupBy c) rms (agg_vecs c b)) (λ i, r_cells (row_at b i)) (sel_rows b) rs
        (set_intKey s (set_dicts (intKey s) gds ms))) as (s' & E' & H1 & _ & _ & H3).
    + eapply Forall_impl; [exact Hidx|]. intros i [Hi Hf] rs1 s1 (Hs1 & Hok1 & Hg1 & Hd1).
      destruct (intRow_spec tys D c U b Hc Hb Hnd Hn Hts Hdict rms s1 rs1 i Hs1 Hok1) as (s2 & E2 & Hs2 & Hg2 & Hd2); [by rewrite Hg1|done|done|].
      exists s2. split; [done|]. split; [done|]. split; [|by rewrite Hg2, Hd2].
      apply Forall_app. split; [done|]. apply Forall_singleton. by apply (gb_key_ok tys D).
    + split; [by split|done].
    + exists s'. split; [done|]. split; [|done]. unfold gb_state. rewrite H3. right. split; [done|]. split; [done|]. split; [done|].
      unfold batch_rows, rows_of. by rewrite <- list_fmap_compose.
  - rewrite bool_decide_eq_true_2 by done.
    destruct (leaveIntKey_spec (set_intKey s (set_dicts (intKey s) gds ms)) rs Hn Hik' Hpart' Hok) as (s1 & -> & Hs1 & He1 & Hd1).
    rewrite go_bind_ret_l.
    destruct (accumulateStringKey_spec tys D c b Hc Hb s1 rs Hnd Hidx Hs1 Hok) as (s2 & E2 & Hs2 & Hi2 & Hd2).
    exists s2. split; [done|]. split; [|by rewrite Hd2, Hd1]. unfold gb_state. rewrite Hd2, Hd1. cbn. rewrite Hdec, Hi2. by left.
Qed.
End Batches.
