(* ===== verification/AggConsume.v ===== *)
(** * Package exec: consuming the input of an aggregate

    After the batches of the child, the maps hold one group for each distinct
    key of all their rows; without GROUP BY the one group of all rows. *)
From Stdlib Require Import ZArith Lia ZifyNat.
From stdpp Require Import base numbers list strings gmap.
From S2P Require Import Prelude Encoding Codec Float64 Schema Writer Reader Batch Scratch VExpr VKernel VCase VExprSpec Operator Distinct Sorting Emit Sort Aggregate AggSpec AggKeys AggInt AggPath.
#[local] Open Scope Z_scope.

(** ** The states stay in range *)

Lemma seed_in ae : inS 64 (seed ae).
Proof. unfold seed. destruct (Kind ae); try done; by destruct (AccumType ae). Qed.
Lemma init_ok tys typed ae : st_ok (init_st tys typed ae).
Proof. split; [apply seed_in|done]. Qed.
Lemma bump_ok x st : inS 64 x → st_ok st → st_ok (bump x st).
Proof. intros Hx [_ Hn]. split; [done|]. by apply wrapS_in. Qed.
Lemma step_minmax_ok less ae x st : cell_fits (Some x) → st_ok st → st_ok (step_minmax less ae x st).
Proof.
  intros Hx Hst. pose proof (word_in64 _ Hx) as Hw. pose proof Hst as [Ha Hn]. unfold step_minmax.
  destruct (AccumType ae); (apply bump_ok; [by case_match|done]).
Qed.
Lemma step_ok ae st r : Forall cell_fits r → st_ok st → st_ok (step ae st r).
Proof.
  intros Hr Hst. unfold step. destruct (is_star ae); [apply bump_ok; [by apply wrapS_in|done]|].
  destruct (arg ae r) as [x|] eqn:E; [|done].
  assert (Hx : cell_fits (Some x)).
  { unfold arg in E. destruct (r !! Z.to_nat (a_ColIdx ae)) as [o|] eqn:El; [|done]. cbn in E. subst o.
    exact (Forall_lookup_1 _ _ _ _ Hr El). }
  unfold step_cell. destruct (Kind ae).
  - apply bump_ok; [by apply wrapS_in|done].
  - apply bump_ok; [destruct (AccumType ae); by apply wrapS_in|done].
  - apply bump_ok; [by apply wrapS_in|done].
  - by apply step_minmax_ok.
  - by apply step_minmax_ok.
  - by destruct x, Hst.
Qed.
Lemma states_ok tys typed c rs : Forall (Forall cell_fits) rs → Forall st_ok (states tys typed c rs).
Proof.
  unfold states. induction rs as [|r rs IH] using rev_ind; intros Hrs.
  - apply Forall_fmap, Forall_true. intros ae. apply init_ok.
  - apply Forall_app in Hrs as [Hrs Hr]. apply Forall_cons in Hr as [Hr _]. rewrite foldl_app. cbn [foldl]. unfold step_all at 1.
    apply Forall_lookup_2. intros j st Hj. rewrite lookup_zip_with in Hj. destruct (aggExprs c !! j) as [ae|]; [|done].
    destruct (foldl _ _ rs !! j) as [st0|] eqn:E; [|done]. cbn in Hj. injection Hj as <-.
    apply step_ok; [done|]. exact (Forall_lookup_1 _ _ _ _ (IH Hrs) E).
Qed.

(** ** One batch *)

Lemma canUseIntKey_spec tys D c b :
  conf_ok tys c → batch_ok tys D b →
  ∃ r, canUseIntKey b (groupBy c) = Ret r ∧
    (r = true → (1 ≤ length (groupBy c) ≤ 8)%nat ∧ Forall (λ x, tys !! Z.to_nat x = Some TypeString) (groupBy c)).
Proof.
  intros Hc Hb. unfold canUseIntKey. case_decide as Hl; [by exists false|].
  assert (Hall : Forall (λ x, x ∈ groupBy c) (groupBy c)) by by apply Forall_forall.
  assert (H : ∀ gs, Forall (λ x, x ∈ groupBy c) gs → ∃ r, allDict b gs = Ret r ∧
    (r = true → Forall (λ x, tys !! Z.to_nat x = Some TypeString) gs)).
  { induction 1 as [|x gs Hx _ (r & E & Hr)]; [by exists true|]. cbn [allDict].
    destruct (gb_column tys D c b Hc Hb x Hx) as (v & t & -> & _ & Et & (_ & Ev & _)). rewrite go_bind_ret_l.
    destruct v as [| | |codes [d|] nb|]; try (by exists false). rewrite E. exists r. split; [done|].
    intros ->. constructor; [|by apply Hr]. rewrite Et. by f_equal. }
  destruct (H _ Hall) as (r & -> & Hr). exists r. split; [done|]. intros Er. split; [lia|auto].
Qed.
Lemma checkStrAggVecs_spec tys D c b :
  conf_ok tys c → batch_ok tys D b → checkStrAggVecs c (agg_vecs c b) = Ret ().
Proof.
  intros Hc Hb. unfold checkStrAggVecs.
  destruct (foldM_enum_ind (λ _ '(j, ae),
      if decide (AccumType ae = TypeString) then
        v ← index (agg_vecs c b) j;
        match v with
        | Some (StringVector _ _ _) => Ret ()
        | _ => Err (ErrMsg "exec: aggregate accumulates strings but its column is of another type")
        end
      else Ret ()) (λ _ _, True) (aggExprs c) ()) as ([] & -> & _); [done| |done].
  intros j ae [] Hj _. destruct (decide (AccumType ae = TypeString)) as [Et|]; [|by exists ()].
  pose proof (conf_agg tys c Hc j ae Hj) as Ha. destruct (is_star ae) eqn:Es.
  { unfold agg_ok in Ha. rewrite Es in Ha. congruence. }
  destruct (agg_column tys D b Hb ae Ha Es) as (v & t & Ev & _ & Eat & (_ & Evt & _) & _).
  rewrite (index_Ret _ _ (Some v)) by by unfold agg_vecs; rewrite list_lookup_fmap, Hj; cbn; rewrite Ev.
  rewrite go_bind_ret_l. exists (). split; [|done]. rewrite Et in Eat.
  destruct v; try done; cbn in Evt; subst t; by destruct (Kind ae).
Qed.

Section Batches.
Context (tys : list DataType) (D : Z) (c : aggConf) (U : list string).
Context (Hc : conf_ok tys c) (HU : Z.of_nat (length U) < 2 ^ 32).

(** The batches an aggregate can take. *)
Definition input_ok (b : Batch) : Prop := batch_ok tys D b ∧ gb_dicts (groupBy c) U b ∧ rows_ok b.

Lemma rows_cells_fit b : rows_ok b → Forall (Forall cell_fits) (batch_rows b).
Proof using.
  clear. intros Hr. unfold batch_rows, rows_of. rewrite <- list_fmap_compose. apply Forall_fmap.
  eapply Forall_impl; [exact Hr|]. by intros i [_ Hf].
Qed.
Lemma batch_keys_ok b : input_ok b → keys_ok tys c (batch_rows b).
Proof using Hc.
  clear HU. intros (Hb & _ & Hr). unfold batch_rows, rows_of, keys_ok. rewrite <- list_fmap_compose. apply Forall_fmap.
  eapply Forall_impl; [exact Hr|]. intros i [Hi Hf]. by apply (gb_key_ok tys D).
Qed.

Lemma int_init :
  (1 ≤ length (groupBy c) ≤ 8)%nat → int_state tys c U [] (mkAggState [] ∅ (intKey_init (length (groupBy c))) true).
Proof using.
  clear. intros Hn. destruct (packing_bounds _ Hn) as [Hw _]. split; [done| | |].
  - split; cbn [intKey intKey_init shifts widths globalDicts remaps]; [done|done|apply length_replicate|].
    apply Forall2_same_length_lookup. rewrite !length_replicate. split; [done|].
    intros i gd memo [-> _]%lookup_replicate [-> _]%lookup_replicate. split; [apply db_wf_new|]. split; [by intros x ?%elem_of_nil|].
    intros o rm. by rewrite lookup_empty.
  - apply Forall_lookup_2. intros i gd [-> _]%lookup_replicate. unfold small. cbn. apply Z.pow_pos_nonneg; lia.
  - split; [exists []; apply holds_init|]. exists []. split; [apply holds_init|constructor].
Qed.

Lemma accumulate_gb b rs s :
  groupBy c ≠ [] → input_ok b → gb_state tys c U rs s → keys_ok tys c rs →
  ∃ s', accumulate c s b = Ret s' ∧ gb_state tys c U (rs ++ batch_rows b) s'.
Proof using Hc HU.
  intros Hne (Hb & Hdict & Hidx) Hs Hok. unfold accumulate. rewrite (acquire_spec tys D c b Hc Hb), go_bind_ret_l.
  assert (Hchk : (if hasStrAgg c then checkStrAggVecs c (agg_vecs c b) else Ret ()) = Ret ()).
  { destruct (hasStrAgg c); [by apply (checkStrAggVecs_spec tys D)|done]. }
  rewrite Hchk, go_bind_ret_l, decide_False by by destruct (groupBy c).
  assert (Hdec : ∃ s1, (if intKeyDecided s then Ret s else
       use ← (if hasDistinct c then Ret false else canUseIntKey b (groupBy c));
       Ret (mkAggState (keys s) (groups s) (if (use : bool) then intKey_init (length (groupBy c)) else intKey s) true)) = Ret s1 ∧
    intKeyDecided s1 = true ∧ gb_state tys c U rs s1).
  { destruct (intKeyDecided s) eqn:Ed; [by exists s|]. unfold gb_state in Hs. rewrite Ed in Hs. destruct Hs as [-> ->].
    assert (Hno : gb_state tys c U [] (mkAggState [] ∅ zeroIntKey true)).
    { left. split; [done|]. exists []. apply holds_init. }
    destruct (hasDistinct c) eqn:Eh; [rewrite go_bind_ret_l; by eexists|].
    destruct (canUseIntKey_spec tys D c b Hc Hb) as (r & -> & Hr). rewrite go_bind_ret_l. eexists. split; [done|]. split; [done|].
    destruct r; [|done]. destruct (Hr eq_refl) as [Hn Hts]. right. split; [done|]. split; [done|]. split; [done|]. by apply int_init. }
  destruct Hdec as (s1 & -> & Hd1 & Hs1). rewrite go_bind_ret_l. unfold gb_state in Hs1. rewrite Hd1 in Hs1.
  destruct Hs1 as [[He Hstr]|(Hnd & Hn & Hts & Hint)].
  - rewrite He. destruct (accumulateRows_spec tys D c b Hc Hb s1 rs Hidx Hstr Hok) as (s2 & -> & Hs2 & Hi2 & Hd2).
    exists s2. split; [done|]. unfold gb_state. rewrite Hd2, Hd1, Hi2. by left.
  - rewrite (is_on _ _ _ _ _ Hint).
    destruct (accumulateIntKey_spec tys D c U Hc HU b rs s1 Hnd Hn Hts Hb Hdict Hidx Hint Hok Hd1) as (s2 & -> & Hs2 & _). by exists s2.
Qed.

(** Without GROUP BY: the one group, once there has been a batch. *)
Definition direct_state (rs : list cells) (s : aggState) : Prop :=
  intKey s = zeroIntKey ∧
  (rs = [] ∧ keys s = [] ∧ groups s = ∅ ∨
   keys s = [[]] ∧ groups s = {[ [] := grp c (states tys false c rs) None ]}).

Lemma accumulate_direct b rs s :
  groupBy c = [] → input_ok b → direct_state rs s → Forall (Forall cell_fits) rs →
  ∃ s', accumulate c s b = Ret s' ∧ direct_state (rs ++ batch_rows b) s'.
Proof using Hc.
  clear HU. intros Hg (Hb & _ & Hidx) [Hik Hs] Hok. unfold accumulate. rewrite (acquire_spec tys D c b Hc Hb), go_bind_ret_l.
  assert (Hchk : (if hasStrAgg c then checkStrAggVecs c (agg_vecs c b) else Ret ()) = Ret ()).
  { destruct (hasStrAgg c); [by apply (checkStrAggVecs_spec tys D)|done]. }
  rewrite Hchk, go_bind_ret_l, decide_True by by rewrite Hg. unfold accumulateDirect.
  assert (Hrun : foldM (directAgg (batchRows b) (agg_vecs c b)) (grp c (states tys false c rs) None) (enum (aggExprs c))
    = Ret (grp c (states tys false c (rs ++ batch_rows b)) None)).
  { rewrite (directAggs_spec tys D c b Hc Hb); [|apply length_states|by apply states_ok|exact Hidx].
    unfold states, batch_rows. by rewrite foldl_app. }
  destruct Hs as [(-> & Hk & Hm)|(Hk & Hm)].
  - rewrite Hm, lookup_empty, Hk.
    replace (mkGroup _ _ _ _ _ _) with (grp c (states tys false c []) None).
    { rewrite Hrun, go_bind_ret_l. eexists. split; [done|]. split; [done|]. by right. }
    unfold grp, states. cbn [foldl]. rewrite <- newAccums_init, <- nonNull_init, <- newStrAccums_init. f_equal.
    + destruct (hasDistinct c); [|done]. rewrite <- list_fmap_compose. symmetry. by apply replicate_fmap_const.
    + destruct (hasDistinct c); [|done]. rewrite <- list_fmap_compose. symmetry. by apply replicate_fmap_const.
  - rewrite Hm, lookup_singleton_eq, Hrun, go_bind_ret_l. eexists. split; [done|]. split; [done|]. right. split; [done|]. cbn. by rewrite insert_singleton_eq.
Qed.
End Batches.
