(* ===== verification/AggValue.v ===== *)
(** * Package exec: the value of an aggregate

    [agg_value] is what each aggregate means on the rows of its group, and
    [agg_cell] what the code writes from the state it folded; they are the
    same.  MIN and MAX of floats start from plus and minus the largest finite
    float, which shows when no value beats it ([minmax_float_sentinel]). *)
From Stdlib Require Import ZArith Lia ZifyNat.
From stdpp Require Import base numbers list strings gmap.
From S2P Require Import Prelude Encoding Codec Float64 Schema Writer Reader Batch Scratch VExpr VKernel VCase VExprSpec Operator Distinct Sorting Emit Sort Aggregate AggSpec AggKeys AggConsume.
#[local] Open Scope Z_scope.

(** The values an aggregate sees: those of its column that are not NULL. *)
Definition vals (ae : AggExpr) (rs : list cells) : list Cell := omap (arg ae) rs.
Definition words (vs : list Cell) : list Z := cell_word <$> vs.
Definition floats (vs : list Cell) : list Z := cell_float <$> vs.
Definition pick {A} (lt : A → A → bool) (a b : A) : A := if lt b a then b else a.
Definition dir {A} (less : bool) (lt : A → A → bool) (a b : A) : bool := if less then lt a b else lt b a.
(** The least ([less]) or greatest value. *)
Definition best (less : bool) (t : DataType) (vs : list Cell) : option Cell :=
  match vs with
  | [] => None
  | v :: vs' => Some
      match t with
      | TypeString => CStr (foldl (pick (dir less string_lt)) (cell_str v) (cell_str <$> vs'))
      | TypeFloat64 => CFloat (foldl (pick (dir less f64_lt)) (if less then MaxFloat64 else NegMaxFloat64) (floats vs))
      | _ =>
          let x := foldl (pick (dir less Z.ltb)) (cell_word v) (words vs') in
          match t with TypeDate => CDate x | TypeBool => CBool (negb (x =? 0)) | _ => CInt x end
      end
  end.
Definition src_type (tys : list DataType) (ae : AggExpr) : DataType := default TypeInt64 (tys !! Z.to_nat (a_ColIdx ae)).
Definition agg_value (tys : list DataType) (ae : AggExpr) (rs : list cells) : option Cell :=
  let vs := vals ae rs in
  match Kind ae with
  | AggCount => Some (CInt (Z.of_nat (if is_star ae then length rs else length vs)))
  | AggCountDistinct => Some (CInt (Z.of_nat (length (uniq vs))))
  | AggSum =>
      if decide (vs = []) then None else Some
        match src_type tys ae with
        | TypeFloat64 => CFloat (foldl f64_add 0 (floats vs))
        | _ => CInt (to_i64 (foldl Z.add 0 (words vs)))
        end
  | AggAvg =>
      if decide (vs = []) then None else
      Some (CFloat (f64_div (foldl f64_add 0 (floats vs)) (f64_of_int (Z.of_nat (length vs)))))
  | AggMin => best true (src_type tys ae) vs
  | AggMax => best false (src_type tys ae) vs
  end.

(** What is written for a state. *)
Definition agg_cell (tys : list DataType) (ae : AggExpr) (st : aggSt) : option Cell :=
  match Kind ae with
  | AggCount => Some (CInt (s_acc st))
  | AggCountDistinct =>
      Some (CInt (default (match s_ints st with Some s => Z.of_nat (size s) | None => 0 end)
        ((λ s : gset string, Z.of_nat (size s)) <$> s_strs st)))
  | AggSum =>
      if decide (s_nn st = 0) then None else Some
        match src_type tys ae with TypeFloat64 => CFloat (to_u64 (s_acc st)) | _ => CInt (s_acc st) end
  | AggAvg =>
      if decide (0 < s_nn st) then Some (CFloat (f64_div (to_u64 (s_acc st)) (f64_of_int (s_nn st)))) else None
  | AggMin | AggMax =>
      if decide (s_nn st = 0) then None else Some
        match src_type tys ae with
        | TypeString => CStr (s_str st)
        | TypeFloat64 => CFloat (to_u64 (s_acc st))
        | TypeDate => CDate (to_i32 (s_acc st))
        | TypeBool => CBool (negb (s_acc st =? 0))
        | _ => CInt (s_acc st)
        end
  end.

(** ** Folds over the values *)

Definition fold_cells (ae : AggExpr) (st : aggSt) (vs : list Cell) : aggSt := foldl (λ st c, step_cell ae c st) st vs.
Lemma fold_cells_snoc ae st vs c : fold_cells ae st (vs ++ [c]) = step_cell ae c (fold_cells ae st vs).
Proof. unfold fold_cells. by rewrite foldl_app. Qed.
Lemma fold_vals ae st rs : is_star ae = false → foldl (step ae) st rs = fold_cells ae st (vals ae rs).
Proof.
  intros Hs. revert st. induction rs as [|r rs IH]; intros st; [done|]. cbn [foldl]. rewrite IH.
  unfold step, vals. rewrite Hs. cbn [omap list_omap]. by destruct (arg ae r).
Qed.

(** A set of representations has as many elements as there are distinct values. *)
Lemma size_distinct {K} `{Countable K} (f : Cell → K) (l : list Cell) :
  (∀ x y, x ∈ l → y ∈ l → f x = f y → x = y) → size (list_to_set (f <$> l) : gset K) = length (uniq l).
Proof.
  intros Hf. transitivity (size (list_to_set (f <$> uniq l) : gset K)).
  - f_equal. apply set_eq. intros k. rewrite !elem_of_list_to_set, !list_elem_of_fmap. by setoid_rewrite elem_of_uniq.
  - rewrite size_list_to_set, length_fmap; [done|]. apply NoDup_fmap_2_strong; [|apply uniq_NoDup].
    intros x y Hx Hy. rewrite elem_of_uniq in Hx, Hy. auto.
Qed.
Lemma cell_word_inj x y :
  cell_type x = cell_type y → cell_type x ≠ TypeString → cell_fits (Some x) → cell_fits (Some y) → cell_word x = cell_word y → x = y.
Proof.
  destruct x as [x|x|x|x|x], y as [y|y|y|y|y]; try done; cbn; intros _ _ Hx Hy E; f_equal; try done.
  - by rewrite <- (wrapU_wrapS 64 x), E, wrapU_wrapS by done.
  - by destruct x, y.
Qed.

Section Values.
Context (tys : list DataType) (ae : AggExpr) (vs : list Cell) (t : DataType) (typed : bool).
Context (Ht : tys !! Z.to_nat (a_ColIdx ae) = Some t) (Hacc : AccumType ae = AccumTypeFor (Kind ae) t).
Context (Hnum : match Kind ae with AggSum | AggAvg => numeric t = true | _ => True end).
Context (Hvs : Forall (λ c, cell_type c = t ∧ cell_fits (Some c)) vs) (Hlen : Z.of_nat (length vs) < 2 ^ 63).
Abbreviation st0 := (init_st tys typed ae).
Abbreviation st := (fold_cells ae st0 vs).

Lemma src_t : src_type tys ae = t.
Proof using Ht. unfold src_type. by rewrite Ht. Qed.

(** A property of the values seen so far, carried through the fold. *)
Lemma fold_ind (P : list Cell → aggSt → Prop) :
  P [] st0 →
  (∀ l c s, Z.of_nat (length l) + 1 < 2 ^ 63 → Forall (λ c, cell_type c = t ∧ cell_fits (Some c)) l →
     cell_type c = t → cell_fits (Some c) → P l s → P (l ++ [c]) (step_cell ae c s)) → P vs st.
Proof using Hvs Hlen.
  clear Hnum Hacc Ht. intros H0 Hs. induction vs as [|c l IH] using rev_ind; [done|]. rewrite fold_cells_snoc.
  apply Forall_app in Hvs as [Hl Hc]. apply Forall_cons in Hc as [[Ec Fc] _]. rewrite length_app in Hlen. cbn [length] in Hlen.
  apply Hs; [lia|done|done|done|]. apply IH; [done|lia].
Qed.
Lemma fold_nn : Kind ae ≠ AggCountDistinct → s_nn st = Z.of_nat (length vs).
Proof using Hvs Hlen.
  clear Hnum Hacc Ht. intros Hk. apply (fold_ind (λ l s, s_nn s = Z.of_nat (length l))); [done|].
  intros l c s Hl _ _ _ E. rewrite length_app. cbn [length].
  assert (Hn : s_nn (step_cell ae c s) = to_i64 (s_nn s + 1)).
  { unfold step_cell, step_minmax. destruct (Kind ae), (AccumType ae); done. }
  rewrite Hn, E, (wrapS_id 64) by (try done; split; lia). lia.
Qed.
Lemma fold_count : Kind ae = AggCount → s_acc st = Z.of_nat (length vs).
Proof using Hvs Hlen.
  clear Hnum Hacc Ht. intros Hk. apply (fold_ind (λ l s, s_acc s = Z.of_nat (length l))).
  { unfold init_st, seed. by rewrite Hk. }
  intros l c s Hl _ _ _ E. unfold step_cell. rewrite Hk. cbn [s_acc bump]. rewrite E, length_app, (wrapS_id 64) by (try done; split; lia).
  cbn [length]. lia.
Qed.
Lemma fold_int_sum : Kind ae = AggSum → t = TypeInt64 → s_acc st = to_i64 (foldl Z.add 0 (words vs)).
Proof using Hvs Hlen Hacc.
  clear Hnum Ht. intros Hk Et. assert (Hat : AccumType ae = TypeInt64) by by rewrite Hacc, Hk, Et.
  apply (fold_ind (λ l s, s_acc s = to_i64 (foldl Z.add 0 (words l)))).
  { unfold init_st, seed. by rewrite Hk. }
  intros l c s _ _ _ _ E. unfold step_cell. rewrite Hk, Hat. cbn [s_acc bump].
  unfold words. rewrite fmap_app, foldl_app. cbn [fmap list_fmap foldl]. rewrite E. by apply wrapS_add_l.
Qed.
Lemma fold_float_sum :
  Kind ae = AggSum ∧ t = TypeFloat64 ∨ Kind ae = AggAvg →
  s_acc st = to_i64 (foldl f64_add 0 (floats vs)) ∧ inU 64 (foldl f64_add 0 (floats vs)).
Proof using Hvs Hlen Hacc.
  clear Hnum Ht. intros Hk.
  apply (fold_ind (λ l s, s_acc s = to_i64 (foldl f64_add 0 (floats l)) ∧ inU 64 (foldl f64_add 0 (floats l)))).
  { unfold init_st, seed. by destruct Hk as [[-> _]| -> ]. }
  intros l c s _ _ _ _ [E Hin]. unfold floats. rewrite fmap_app, foldl_app. cbn [fmap list_fmap foldl]. fold (floats l).
  split; [|apply f64_encode_in]. rewrite <- (wrapU_wrapS 64 (foldl f64_add 0 (floats l))), <- E by done.
  unfold step_cell. destruct Hk as [[Hk Et]|Hk]; rewrite Hk; [by rewrite Hacc, Hk, Et|done].
Qed.

Section MinMax.
Context (less : bool) (Hk : Kind ae = if less then AggMin else AggMax).

Lemma step_minmax_eq c s : step_cell ae c s = step_minmax less ae c s.
Proof using Hk. clear -Hk. unfold step_cell. by destruct less; rewrite Hk. Qed.
Lemma fold_words :
  t ≠ TypeString → t ≠ TypeFloat64 →
  match vs with [] => True | v :: l => s_acc st = foldl (pick (dir less Z.ltb)) (cell_word v) (words l) end.
Proof using Hvs Hlen Hacc Hk.
  clear Hnum Ht. intros Hs Hf. assert (Hat : AccumType ae = TypeInt64).
  { rewrite Hacc. destruct less; rewrite Hk; by destruct t. }
  cut (match vs with [] => s_acc st = seed ae | v :: l => s_acc st = foldl (pick (dir less Z.ltb)) (cell_word v) (words l) end).
  { by destruct vs. }
  apply (fold_ind (λ l s, match l with [] => s_acc s = seed ae | v :: l => s_acc s = foldl (pick (dir less Z.ltb)) (cell_word v) (words l) end));
    [done|].
  intros l c s _ _ _ Hc E. rewrite step_minmax_eq. unfold step_minmax. rewrite Hat. cbn [bump s_acc].
  destruct l as [|v l]; cbn [app].
  - rewrite E. pose proof (word_in64 _ Hc) as [H1 H2]. unfold seed. rewrite Hat.
    change (2 ^ (64 - 1)) with 9223372036854775808 in *.
    destruct less; rewrite Hk; cbn [words fmap list_fmap foldl].
    + change MaxInt64 with 9223372036854775807. destruct (Z.ltb_spec (cell_word c) 9223372036854775807); lia.
    + change MinInt64 with (-9223372036854775808). destruct (Z.ltb_spec (-9223372036854775808) (cell_word c)); lia.
  - unfold words. rewrite fmap_app, foldl_app. cbn [fmap list_fmap foldl]. fold (words l). by rewrite <- E.
Qed.
Lemma fold_strings :
  t = TypeString →
  match vs with [] => True | v :: l => s_str st = foldl (pick (dir less string_lt)) (cell_str v) (cell_str <$> l) end.
Proof using Hvs Hlen Hacc Hk.
  clear Hnum Ht. intros Et. assert (Hat : AccumType ae = TypeString) by (rewrite Hacc, Et; destruct less; by rewrite Hk).
  cut (s_nn st = Z.of_nat (length vs) ∧ match vs with [] => True | v :: l =>
    s_str st = foldl (pick (dir less string_lt)) (cell_str v) (cell_str <$> l) end); [by intros []|].
  apply (fold_ind (λ l s, s_nn s = Z.of_nat (length l) ∧ match l with [] => True | v :: l =>
    s_str s = foldl (pick (dir less string_lt)) (cell_str v) (cell_str <$> l) end)); [done|].
  intros l c s Hl _ _ _ [En E]. rewrite step_minmax_eq. unfold step_minmax. rewrite Hat. cbn [s_nn s_str].
  rewrite En, length_app, (wrapS_id 64) by (try done; split; lia). split; [cbn [length]; lia|].
  destruct l as [|v l]; [done|]. rewrite bool_decide_eq_true_2 by (cbn [length]; lia). cbn [app].
  rewrite fmap_app, foldl_app. cbn [fmap list_fmap foldl]. by rewrite <- E.
Qed.
Lemma fold_floats :
  t = TypeFloat64 →
  let m := foldl (pick (dir less f64_lt)) (if less then MaxFloat64 else NegMaxFloat64) (floats vs) in
  s_acc st = to_i64 m ∧ inU 64 m.
Proof using Hvs Hlen Hacc Hk.
  clear Hnum Ht. intros Et. assert (Hat : AccumType ae = TypeFloat64) by (rewrite Hacc, Et; destruct less; by rewrite Hk).
  apply (fold_ind (λ l s, let m := foldl (pick (dir less f64_lt)) (if less then MaxFloat64 else NegMaxFloat64) (floats l) in
    s_acc s = to_i64 m ∧ inU 64 m)).
  { unfold init_st, seed. rewrite Hat. by destruct less; rewrite Hk. }
  intros l c s _ _ Hct Hc. cbv zeta. unfold floats. rewrite fmap_app, foldl_app. cbn [fmap list_fmap foldl]. fold (floats l).
  set (m := foldl _ _ (floats l)). intros [E Hm]. rewrite step_minmax_eq. unfold step_minmax. rewrite Hat. cbn [bump s_acc].
  rewrite Et in Hct. destruct c as [|x| | |]; try done. cbn [cell_fits cell_word cell_float] in *. rewrite E, !wrapU_wrapS by done.
  unfold pick, dir. by destruct less; case_match.
Qed.
Lemma minmax_value : (if decide (s_nn st = 0) then None else Some
    match t with
    | TypeString => CStr (s_str st)
    | TypeFloat64 => CFloat (to_u64 (s_acc st))
    | TypeDate => CDate (to_i32 (s_acc st))
    | TypeBool => CBool (negb (s_acc st =? 0))
    | _ => CInt (s_acc st)
    end) = best less t vs.
Proof using Hvs Hlen Hacc Hk.
  clear Hnum Ht. rewrite fold_nn by by destruct less; rewrite Hk.
  pose proof fold_words as Hw. pose proof fold_strings as Hs. pose proof fold_floats as Hf.
  unfold best. revert Hw Hs Hf Hvs. generalize st. intros s Hw Hs Hf Hvs'. clear Hlen. destruct vs as [|v l]; [done|]. rewrite decide_False by (cbn [length]; lia). f_equal.
  destruct t; try (rewrite Hw by done; done).
  - destruct (Hf eq_refl) as [-> Hin]. by rewrite wrapU_wrapS.
  - by rewrite Hs.
  - rewrite Hw by done. f_equal. apply (wrapS_id 32); [done|].
    assert (Hall : Forall (λ x, inS 32 x) (words (v :: l))).
    { apply Forall_fmap. eapply Forall_impl; [exact Hvs'|]. intros c [Hct Hc]. by destruct c. }
    change (words (v :: l)) with (cell_word v :: words l) in Hall. revert Hall. clear. generalize (cell_word v) (words l).
    intros y ws [Hy Hws]%Forall_cons. revert y Hy. induction Hws as [|x ws Hx _ IH]; intros y Hy; [done|].
    apply IH. unfold pick. by destruct (dir _ _ _ _).
Qed.
End MinMax.

(** COUNT(DISTINCT) collects the representations of the values. *)
Definition distinct_size (st : aggSt) : Z :=
  default (match s_ints st with Some s => Z.of_nat (size s) | None => 0 end)
    ((λ s : gset string, Z.of_nat (size s)) <$> s_strs st).
Lemma fold_distinct : Kind ae = AggCountDistinct → distinct_size st = Z.of_nat (length (uniq vs)).
Proof using Hvs Hlen Ht.
  clear Hnum Hacc. intros Hk. destruct (decide (t = TypeString)) as [Es|Es].
  - assert (H : s_ints st = None ∧ default ∅ (s_strs st) = list_to_set (cell_str <$> vs)).
    { apply (fold_ind (λ l s, s_ints s = None ∧ default ∅ (s_strs s) = list_to_set (cell_str <$> l))).
      - unfold init_st. rewrite Ht, Es, Hk. cbn. rewrite andb_false_r. split; [done|]. by destruct typed.
      - intros l c s _ _ Hct _ [E1 E2]. unfold step_cell. rewrite Hk. rewrite Es in Hct. destruct c as [| | |x|]; try done.
        cbn [s_ints s_strs default]. split; [done|]. rewrite E2, fmap_app, list_to_set_app_L. cbn. rewrite union_empty_r_L. apply union_comm_L. }
    destruct H as [E1 E2]. rewrite <- (size_distinct cell_str).
    + rewrite <- E2. unfold distinct_size. rewrite E1. by destruct (s_strs st).
    + intros x y Hx Hy. rewrite Forall_forall in Hvs. destruct (Hvs x Hx) as [Hx1 _], (Hvs y Hy) as [Hy1 _]. rewrite Es in Hx1, Hy1.
      destruct x, y; try done. cbn. congruence.
  - assert (H : s_strs st = None ∧ default ∅ (s_ints st) = list_to_set (words vs)).
    { apply (fold_ind (λ l s, s_strs s = None ∧ default ∅ (s_ints s) = list_to_set (words l))).
      - unfold init_st. rewrite Ht, Hk. cbn [s_strs s_ints]. rewrite (bool_decide_eq_false_2 (Some t = Some TypeString)) by congruence.
        rewrite andb_false_r. split; [done|]. by destruct typed; case_match.
      - intros l c s _ _ Hct _ [E1 E2]. unfold step_cell. rewrite Hk. unfold words. rewrite fmap_app, list_to_set_app_L. fold (words l).
        rewrite <- E2. cbn. rewrite union_empty_r_L, (union_comm_L _ {[cell_word c]}). by destruct c. }
    destruct H as [E1 E2]. rewrite <- (size_distinct cell_word).
    + unfold words in E2. rewrite <- E2. unfold distinct_size. rewrite E1. by destruct (s_ints st).
    + intros x y Hx Hy. rewrite Forall_forall in Hvs. destruct (Hvs x Hx) as [Hx1 Hx2], (Hvs y Hy) as [Hy1 Hy2].
      apply cell_word_inj; [congruence|congruence|done|done].
Qed.
End Values.

(** Every aggregate over the typed rows of a group. *)
Lemma vals_typed tys ae t rs :
  tys !! Z.to_nat (a_ColIdx ae) = Some t → Forall (row_ok tys) rs →
  Forall (λ c, cell_type c = t ∧ cell_fits (Some c)) (vals ae rs).
Proof.
  intros Ht. induction 1 as [|r rs [Hr Hf] _ IH]; [constructor|]. unfold vals in *. cbn [omap list_omap].
  destruct (arg ae r) as [x|] eqn:E; [|done]. constructor; [|done]. unfold arg in E.
  destruct (r !! Z.to_nat (a_ColIdx ae)) as [o|] eqn:El; [|done]. cbn in E. subst o. split; [|exact (Forall_lookup_1 _ _ _ _ Hf El)].
  exact (Forall2_lookup_lr _ _ _ _ _ _ Hr El Ht).
Qed.
Lemma length_vals ae rs : (length (vals ae rs) ≤ length rs)%nat.
Proof. unfold vals. induction rs as [|r rs IH]; cbn; [lia|]. destruct (arg ae r); cbn; lia. Qed.
Lemma star_count tys typed ae rs :
  is_star ae = true → Z.of_nat (length rs) < 2 ^ 63 →
  s_acc (foldl (step ae) (init_st tys typed ae) rs) = Z.of_nat (length rs).
Proof.
  intros Hs. induction rs as [|r rs IH] using rev_ind; intros Hl.
  - unfold init_st, seed. unfold is_star in Hs. apply bool_decide_eq_true in Hs as [-> _]. done.
  - rewrite foldl_app. cbn [foldl]. unfold step at 1. rewrite Hs. cbn [s_acc bump]. rewrite length_app in *. cbn [length] in *.
    rewrite IH, (wrapS_id 64) by (try done; try split; lia). lia.
Qed.
Lemma agg_value_spec tys typed ae rs :
  agg_ok tys ae → Forall (row_ok tys) rs → Z.of_nat (length rs) < 2 ^ 63 →
  agg_cell tys ae (foldl (step ae) (init_st tys typed ae) rs) = agg_value tys ae rs.
Proof.
  intros Ha Hrs Hl. unfold agg_ok in Ha. destruct (is_star ae) eqn:Es.
  { pose proof Es as Es'. unfold is_star in Es'. apply bool_decide_eq_true in Es' as [Hk _].
    unfold agg_cell, agg_value. by rewrite Hk, Es, star_count. }
  destruct Ha as (_ & t & Ht & Hacc & Hnum). rewrite fold_vals by done.
  pose proof (vals_typed tys ae t rs Ht Hrs) as Hvs. pose proof (length_vals ae rs).
  assert (Hlv : Z.of_nat (length (vals ae rs)) < 2 ^ 63) by lia.
  unfold agg_value, agg_cell. rewrite Es, (src_t tys ae t Ht). clear Es.
  assert (Hnil : ∀ A (x y : A), (if decide (Z.of_nat (length (vals ae rs)) = 0) then x else y) = (if decide (vals ae rs = []) then x else y)).
  { intros A x y. destruct (vals ae rs); [done|]. by rewrite !decide_False by (done || (cbn; lia)). }
  destruct (Kind ae) eqn:Hk.
  - by rewrite (fold_count tys ae (vals ae rs) t typed Hvs Hlv Hk).
  - rewrite (fold_nn tys ae (vals ae rs) t typed Hvs Hlv), Hnil by congruence. destruct (decide (vals ae rs = [])); [done|]. f_equal.
    destruct t; try done.
    + by rewrite (fold_int_sum tys ae (vals ae rs) TypeInt64 typed) by (rewrite ?Hk; done).
    + destruct (fold_float_sum tys ae (vals ae rs) TypeFloat64 typed) as [-> Hin]; [by rewrite ?Hk|done|done|by left|].
      by rewrite wrapU_wrapS.
  - rewrite (fold_nn tys ae (vals ae rs) t typed Hvs Hlv) by congruence.
    destruct (fold_float_sum tys ae (vals ae rs) t typed) as [-> Hin]; [by rewrite Hk|done|done|by right|].
    rewrite wrapU_wrapS by done. destruct (vals ae rs) as [|v l]; [done|]. rewrite decide_True by (cbn; lia). by rewrite decide_False.
  - apply (minmax_value tys ae (vals ae rs) t typed); rewrite ?Hk; done.
  - apply (minmax_value tys ae (vals ae rs) t typed); rewrite ?Hk; done.
  - do 2 f_equal. by apply (fold_distinct tys ae (vals ae rs) t typed).
Qed.

(** The least of plus infinity alone is the largest finite float. *)
Example minmax_float_sentinel :
  agg_value [TypeFloat64] (mkAggExpr AggMin 0 "m" false TypeFloat64) [[Some (CFloat 0x7FF0000000000000)]]
  = Some (CFloat MaxFloat64).
Proof. reflexivity. Qed.
