(* ===== verification/AggOut.v ===== *)
(** * Package exec: the output of an aggregate

    A row for each group: its key, then the value of each aggregate. *)
From Stdlib Require Import ZArith Lia ZifyNat.
From stdpp Require Import base numbers list strings gmap.
From S2P Require Import Prelude Encoding Codec Float64 Schema Writer Reader Batch Scratch VExpr VKernel VCase VExprSpec Operator Distinct Sorting Emit Sort Aggregate AggSpec AggKeys AggInt AggPath AggConsume AggValue.
#[local] Open Scope Z_scope.
#[local] Hint Resolve size_bits size_index : core.

Lemma to_i32_u64 x : inS 32 x → to_i32 (to_u64 x) = x.
Proof.
  intros Hx. unfold wrapS, wrapU, inS in *. change (2 ^ (32 - 1)) with 2147483648 in *. change (2 ^ 32) with 4294967296.
  change (2 ^ 64) with (4294967296 * 4294967296).
  rewrite Z.rem_mul_r by lia. lia.
Qed.

(** ** One column *)

Section Columns.
Context (s : aggState) (ks : list cells).
Abbreviation kl := (row_key <$> ks).
Abbreviation n := (length ks).

Lemma length_kl : length kl = n.
Proof using. apply length_fmap. Qed.
Lemma kl_lookup (f : cells → option Cell) i key o :
  kl !! i = Some key → (f <$> ks) !! i = Some o → ∃ k, k ∈ ks ∧ key = row_key k ∧ o = f k.
Proof using.
  rewrite !list_lookup_fmap. destruct (ks !! i) as [k|] eqn:E; [|done]. intros [= <-] [= <-]. exists k.
  split; [by eapply list_elem_of_lookup_2|done].
Qed.

Lemma outWords_spec get (f : cells → option Cell) t mkV mkC :
  fixed t mkV mkC →
  (∀ k, k ∈ ks → ∃ g o, groups s !! row_key k = Some g ∧ get g = Ret o ∧ f k = mkC <$> o) →
  ∃ vals nb, outWords s kl get = Ret (vals, nb) ∧ column (mkV vals nb) t n (at_ (f <$> ks)).
Proof using.
  intros Hf Hg. destruct (emit_words kl (f <$> ks) ltac:(by rewrite !length_fmap) true t mkV mkC
    (λ '(vals, nb) '(i, key), g ← groupOf s key; o ← get g;
      match o with
      | None => nb ← SetNullBit nb i; Ret (vals, nb)
      | Some x => vals ← store vals i x; Ret (vals, nb)
      end) Hf) as (vals & nb & E & Hc).
  - intros i key o vals nb Hk Ho Hv Hn. destruct (kl_lookup f i key o Hk Ho) as (k & Hin & -> & ->).
    pose proof (lookup_lt_Some _ _ _ Hk). destruct (Hg k Hin) as (g & o & Eg & Eget & ->). unfold groupOf. rewrite Eg, go_bind_ret_l, Eget, go_bind_ret_l.
    destruct o as [x|]; cbn [fmap option_fmap option_map].
    + exists x. split; [done|]. rewrite store_Ret by lia. done.
    + rewrite SetNullBit_Ret by (rewrite Hn; auto). done.
  - rewrite length_kl in Hc. exists vals, nb. done.
Qed.
(** A step on the sample of a key. *)
Lemma gbWords_spec gbPos conv (f : cells → option Cell) t mkV mkC :
  fixed t mkV mkC →
  (∀ k, k ∈ ks → ∃ o, sampleAt s (row_key k) gbPos = Ret o ∧ f k = (λ v, mkC (conv (bits_ v))) <$> o) →
  ∃ vals nb, gbWords s kl gbPos conv = Ret (vals, nb) ∧ column (mkV vals nb) t n (at_ (f <$> ks)).
Proof using.
  intros Hf Hg. destruct (emit_words kl (f <$> ks) ltac:(by rewrite !length_fmap) false t mkV mkC
    (λ '(vals, nb) '(i, key),
      o ← sampleAt s key gbPos;
      match o with
      | None => Ret (vals, nb)
      | Some v => vals ← store vals i (conv (bits_ v)); nb ← SetValidBit nb i; Ret (vals, nb)
      end) Hf) as (vals & nb & E & Hc).
  - intros i key o vals nb Hk Ho Hv Hn. destruct (kl_lookup f i key o Hk Ho) as (k & Hin & -> & ->).
    pose proof (lookup_lt_Some _ _ _ Hk). destruct (Hg k Hin) as (o & Eo & ->). rewrite Eo, go_bind_ret_l.
    destruct o as [v|]; cbn [fmap option_fmap option_map].
    + exists (conv (bits_ v)). split; [done|]. rewrite store_Ret, go_bind_ret_l by lia.
      rewrite SetValidBit_Ret by (rewrite Hn; auto). done.
    + done.
  - rewrite length_kl in Hc. exists vals, nb. done.
Qed.

(** ** A GROUP BY column *)

(** The sample of each key is the key. *)
Definition sampled (tys : list DataType) (c : aggConf) : Prop :=
  ∀ k, k ∈ ks → key_ok tys c k ∧ ∃ g, groups s !! row_key k = Some g ∧ sample g = sample_of k.
Lemma sampleAt_spec tys c p k t :
  sampled tys c → gb_types tys c !! p = Some t → k ∈ ks →
  ∃ o, k !! p = Some o ∧ cell_has_type o t ∧ cell_fits o ∧
    sampleAt s (row_key k) p = Ret (match o with None => None | Some _ => Some (gbv o) end).
Proof using.
  intros Hs Ht Hk. destruct (Hs k Hk) as ([Hty Hfit] & g & Eg & Esam).
  destruct (Forall2_lookup_r _ _ _ _ _ Hty Ht) as (o & Eo & Ho). exists o. split; [done|]. split; [done|].
  split; [exact (Forall_lookup_1 _ _ _ _ Hfit Eo)|]. unfold sampleAt, groupOf. rewrite Eg, go_bind_ret_l, Esam. cbn [sample_of].
  rewrite (index_Ret _ _ (gbv o)) by by rewrite list_lookup_fmap, Eo. rewrite go_bind_ret_l. by destruct o as [[]|].
Qed.
Definition gb_col (p : nat) : list (option Cell) := (λ k, default None (k !! p)) <$> ks.

Lemma buildGroupByVector_spec tys c p t :
  sampled tys c → gb_types tys c !! p = Some t → (∀ i, t ≠ TypeOther i) → weight (gb_col p) < 2 ^ 32 →
  ∃ v, buildGroupByVector s kl p t = Ret v ∧ column v t n (at_ (gb_col p)) ∧ dict_size v ≤ weight (gb_col p).
Proof using.
  intros Hs Ht Hother Hw. assert (Hfix : ∀ conv mkV mkC, fixed t mkV mkC →
    (∀ x, cell_type x = t → cell_fits (Some x) → mkC (conv (to_u64 (cell_word x))) = x) → t ≠ TypeString →
    ∃ vals nb, gbWords s kl p conv = Ret (vals, nb) ∧ column (mkV vals nb) t n (at_ (gb_col p))).
  { intros conv mkV mkC Hf Hconv Hns. apply (gbWords_spec p conv _ t mkV mkC); [done|]. intros k Hk.
    destruct (sampleAt_spec tys c p k t Hs Ht Hk) as (o & Eo & Hty & Hfit & ->). eexists. split; [done|]. rewrite Eo. cbn [default].
    destruct o as [x|]; [|done]. cbn [fmap option_fmap option_map]. f_equal. unfold id. rewrite <- (Hconv x Hty Hfit) at 1.
    by destruct x. }
  destruct t as [| | | | |i].
  - destruct (Hfix to_i64 Int64Vector CInt) as (vals & nb & E & Hcol); [done| |done|].
    { intros [x| | | |] Hx Hf; try done. cbn. by rewrite wrapS_wrapU. }
    cbn [buildGroupByVector]. rewrite E. eexists. split; [done|]. split; [done|apply weight_ge0].
  - destruct (Hfix (λ x, x) Float64Vector CFloat) as (vals & nb & E & Hcol); [done| |done|].
    { intros [|x| | |] Hx Hf; try done. cbn. by rewrite wrapU_wrapS. }
    cbn [buildGroupByVector]. rewrite E. eexists. split; [done|]. split; [done|apply weight_ge0].
  - destruct (emit_bits kl (gb_col p) ltac:(unfold gb_col; by rewrite !length_fmap) false (λ '(bits, nb) '(i, key),
          o ← sampleAt s key p;
          match o with
          | None => Ret (bits, nb)
          | Some v => bits ← bv_Set bits i (negb (bits_ v =? 0)); nb ← SetValidBit nb i; Ret (bits, nb)
          end)) as (bits & nb & E & Hcol).
    + intros i key o bits nb Hk Ho Hv Hn. destruct (kl_lookup _ i key o Hk Ho) as (k & Hin & -> & ->).
      pose proof (lookup_lt_Some _ _ _ Hk). destruct (sampleAt_spec tys c p k _ Hs Ht Hin) as (o & Eo & Hty & Hfit & ->).
      rewrite go_bind_ret_l, Eo. cbn [default]. destruct o as [x|]; [|done]. destruct x as [| |x| |]; try done. exists x. split; [done|].
      rewrite bv_Set_Ret by (rewrite Hv; auto). rewrite go_bind_ret_l, SetValidBit_Ret by (rewrite Hn; auto). by destruct x.
    + rewrite length_kl in *. cbn [buildGroupByVector]. unfold bitmap0 in E. rewrite length_kl, E. eexists. split; [done|].
      split; [done|apply weight_ge0].
  - destruct (emit_strs kl (gb_col p) ltac:(unfold gb_col; by rewrite !length_fmap) (λ '(db, codes, nb) '(i, key),
          o ← sampleAt s key p;
          match o with
          | None => Ret (db, codes, nb)
          | Some v =>
              let '(code, db) := Add db (strVal v) in
              codes ← store codes i code; nb ← SetValidBit nb i; Ret (db, codes, nb)
          end)) as (db & codes & nb & v & E & Ev & Hcol & Hsz).
    + intros i key o db codes nb Hk Ho Hv Hn. destruct (kl_lookup _ i key o Hk Ho) as (k & Hin & -> & ->).
      pose proof (lookup_lt_Some _ _ _ Hk). destruct (sampleAt_spec tys c p k _ Hs Ht Hin) as (o & Eo & Hty & Hfit & ->).
      rewrite go_bind_ret_l, Eo. cbn [default]. destruct o as [x|]; [|done]. destruct x as [| | |x|]; try done. exists x. split; [done|].
      cbn [strVal gbv]. destruct (Add db x) as [code db']. cbn [fst snd].
      rewrite store_Ret by lia. rewrite go_bind_ret_l, SetValidBit_Ret by (rewrite Hn; auto). done.
    + done.
    + rewrite length_kl in *. cbn [buildGroupByVector]. rewrite length_kl, E. cbn [mbind go_bind]. rewrite Ev. by exists v.
  - destruct (Hfix to_i32 DateVector CDate) as (vals & nb & E & Hcol); [done| |done|].
    { intros [| | | |x] Hx Hf; try done. cbn. f_equal. by apply to_i32_u64. }
    cbn [buildGroupByVector]. rewrite E. eexists. split; [done|]. split; [done|apply weight_ge0].
  - by destruct (Hother i).
Qed.

(** ** The column of an aggregate *)

Section Agg.
Context (tys : list DataType) (c : aggConf) (F : cells → list aggSt) (smf : cells → option (list groupByVal)).
Context (Hc : conf_ok tys c).
Context (HF : ∀ k, k ∈ ks → groups s !! row_key k = Some (grp c (F k) (smf k)) ∧ length (F k) = length (aggExprs c)).
Context (j : nat) (ae : AggExpr) (Hj : aggExprs c !! j = Some ae).

Definition st_at (k : cells) : aggSt := default (mkAggSt 0 0 "" None None) (F k !! j).
Definition agg_col : list (option Cell) := (λ k, agg_cell tys ae (st_at k)) <$> ks.
Definition out_type : DataType :=
  match Kind ae with
  | AggCount | AggCountDistinct => TypeInt64
  | AggSum | AggMin | AggMax => src_type tys ae
  | AggAvg => TypeFloat64
  end.
Lemma st_lookup k : k ∈ ks → F k !! j = Some (st_at k).
Proof using HF Hj.
  intros Hk. destruct (HF k Hk) as [_ Hl]. unfold st_at.
  destruct (lookup_lt_is_Some_2 (F k) j) as [st ->]; [|done]. rewrite Hl. by eapply lookup_lt_Some.
Qed.
Lemma accOr_spec conv k :
  k ∈ ks → accOr conv j (grp c (F k) (smf k))
  = Ret (if decide (s_nn (st_at k) = 0) then None else Some (conv (s_acc (st_at k)))).
Proof using HF Hj.
  intros Hk. unfold accOr. rewrite (index_nonNull _ _ _ _ _ (st_lookup k Hk)), go_bind_ret_l. case_decide; [done|].
  by rewrite (index_accs _ _ _ _ _ (st_lookup k Hk)), go_bind_ret_l.
Qed.
Lemma distinctCount_spec k :
  k ∈ ks → Kind ae = AggCountDistinct →
  distinctCount j (grp c (F k) (smf k)) = Ret (Some (distinct_size (st_at k))).
Proof using Hc HF Hj.
  intros Hk Hkind. pose proof (conf_distinct tys c Hc j ae Hj Hkind) as Hd. pose proof (st_lookup k Hk) as Hst.
  pose proof (lookup_lt_Some _ _ _ Hst). unfold distinctCount, grp. cbn [intSets strSets]. rewrite Hd, !length_fmap, !decide_False by lia.
  rewrite (index_Ret _ _ (s_ints (st_at k))) by by rewrite list_lookup_fmap, Hst. rewrite !go_bind_ret_l.
  rewrite (index_Ret _ _ (s_strs (st_at k))) by by rewrite list_lookup_fmap, Hst. rewrite !go_bind_ret_l.
  unfold distinct_size. by destruct (s_strs (st_at k)).
Qed.

(** Any value loop over the groups. *)
Lemma aggWords get t mkV mkC :
  fixed t mkV mkC →
  (∀ k, k ∈ ks → ∃ o, get (grp c (F k) (smf k)) = Ret o ∧ agg_cell tys ae (st_at k) = mkC <$> o) →
  ∃ vals nb, outWords s kl get = Ret (vals, nb) ∧ column (mkV vals nb) t n (at_ agg_col).
Proof using HF.
  intros Hf Hg. apply (outWords_spec get _ t mkV mkC Hf). intros k Hk. destruct (Hg k Hk) as (o & Eo & Ec).
  destruct (HF k Hk) as [E _]. by exists (grp c (F k) (smf k)), o.
Qed.
Lemma aggWords_accOr conv t mkV mkC :
  fixed t mkV mkC → (∀ st, agg_cell tys ae st = if decide (s_nn st = 0) then None else Some (mkC (conv (s_acc st)))) →
  ∃ vals nb, outWords s kl (accOr conv j) = Ret (vals, nb) ∧ column (mkV vals nb) t n (at_ agg_col).
Proof using HF Hj.
  intros Hf Hcell. apply (aggWords _ t mkV mkC); [done|]. intros k Hk. rewrite accOr_spec by done. eexists. split; [done|].
  rewrite Hcell. by case_decide.
Qed.

Lemma minMax_bool :
  (∀ st, agg_cell tys ae st = if decide (s_nn st = 0) then None else Some (CBool (negb (s_acc st =? 0)))) →
  ∃ v, buildMinMaxVector s kl j TypeBool = Ret v ∧ column v TypeBool n (at_ agg_col) ∧ dict_size v = 0.
Proof using HF Hj.
  intros Hcell. destruct (emit_bits kl agg_col ltac:(unfold agg_col; by rewrite !length_fmap) true (λ '(bits, nb) '(i, key),
          g ← groupOf s key;
          cnt ← index (nonNull g) j;
          if decide (cnt = 0) then nb ← SetNullBit nb i; Ret (bits, nb) else
          acc ← index (accs g) j; bits ← bv_Set bits i (negb (acc =? 0)); Ret (bits, nb))) as (bits & nb & E & Hcol).
  - intros i key o bits nb Hk Ho Hv Hn. destruct (kl_lookup _ i key o Hk Ho) as (k & Hin & -> & ->).
    pose proof (lookup_lt_Some _ _ _ Hk). destruct (HF k Hin) as [Eg _]. unfold groupOf. rewrite Eg, go_bind_ret_l.
    rewrite (index_nonNull _ _ _ _ _ (st_lookup k Hin)), go_bind_ret_l, Hcell. case_decide.
    + by rewrite SetNullBit_Ret by (rewrite Hn; auto).
    + eexists. split; [done|]. rewrite (index_accs _ _ _ _ _ (st_lookup k Hin)), go_bind_ret_l.
      by rewrite bv_Set_Ret by (rewrite Hv; auto).
  - unfold bitmap0 in E. cbn [buildMinMaxVector]. rewrite E. rewrite length_kl in *. by eexists.
Qed.
Lemma minMax_string :
  hasStrAgg c = true → weight agg_col < 2 ^ 32 →
  (∀ st, agg_cell tys ae st = if decide (s_nn st = 0) then None else Some (CStr (s_str st))) →
  ∃ v, buildMinMaxVector s kl j TypeString = Ret v ∧ column v TypeString n (at_ agg_col) ∧ dict_size v ≤ weight agg_col.
Proof using HF Hj.
  intros Hs Hw Hcell. destruct (emit_strs kl agg_col ltac:(unfold agg_col; by rewrite !length_fmap) (λ '(db, codes, bmp) '(i, key),
          g ← groupOf s key;
          cnt ← index (nonNull g) j;
          if decide (cnt = 0) then Ret (db, codes, bmp) else
          str ← (if decide (length (strs g) = 0)%nat then Ret ""%string else index (strs g) j);
          let '(code, db) := Add db str in
          codes ← store codes i code; bmp ← SetValidBit bmp i; Ret (db, codes, bmp))) as (db & codes & nb & v & E & Ev & Hcol & Hsz); [|done|].
  - intros i key o db codes nb Hk Ho Hv Hn. destruct (kl_lookup _ i key o Hk Ho) as (k & Hin & -> & ->).
    pose proof (lookup_lt_Some _ _ _ Hk). destruct (HF k Hin) as [Eg _]. unfold groupOf. rewrite Eg, go_bind_ret_l.
    pose proof (st_lookup k Hin) as Hst. rewrite (index_nonNull _ _ _ _ _ Hst), go_bind_ret_l, Hcell. case_decide; [done|].
    exists (s_str (st_at k)). split; [done|]. unfold grp. cbn [strs]. rewrite Hs, length_fmap.
    rewrite decide_False by (pose proof (lookup_lt_Some _ _ _ Hst); lia).
    rewrite (index_Ret _ _ (s_str (st_at k))) by by rewrite list_lookup_fmap, Hst. rewrite go_bind_ret_l.
    destruct (Add db (s_str (st_at k))) as [code db']. cbn [fst snd].
    rewrite store_Ret by lia. rewrite go_bind_ret_l, SetValidBit_Ret by (rewrite Hn; auto). done.
  - cbn [buildMinMaxVector]. rewrite length_kl in *. rewrite E. cbn [mbind go_bind]. rewrite Ev. by exists v.
Qed.

Lemma minMax_spec t :
  Kind ae = AggMin ∨ Kind ae = AggMax → src_type tys ae = t → (∀ i, t ≠ TypeOther i) →
  (t = TypeString → hasStrAgg c = true) → weight agg_col < 2 ^ 32 →
  ∃ v, buildMinMaxVector s kl j t = Ret v ∧ column v t n (at_ agg_col) ∧ dict_size v ≤ weight agg_col.
Proof using HF Hj.
  intros Hk Ht Hother Hs Hw.
  assert (Hcell : ∀ st, agg_cell tys ae st = if decide (s_nn st = 0) then None else Some
        match t with
        | TypeString => CStr (s_str st) | TypeFloat64 => CFloat (to_u64 (s_acc st)) | TypeDate => CDate (to_i32 (s_acc st))
        | TypeBool => CBool (negb (s_acc st =? 0)) | _ => CInt (s_acc st) end).
  { intros st. unfold agg_cell. rewrite Ht. by destruct Hk as [-> | ->]. }
  pose proof (weight_ge0 agg_col). destruct t as [| | | | |i]; cbn [buildMinMaxVector].
  - destruct (aggWords_accOr (λ x, x) TypeInt64 Int64Vector CInt) as (vals & nb & -> & Hcol); [done..|]. by eexists.
  - destruct (aggWords_accOr to_u64 TypeFloat64 Float64Vector CFloat) as (vals & nb & -> & Hcol); [done..|]. by eexists.
  - destruct (minMax_bool Hcell) as (v & E & Hcol & Hsz). exists v. rewrite Hsz. done.
  - by apply minMax_string; auto.
  - destruct (aggWords_accOr to_i32 TypeDate DateVector CDate) as (vals & nb & -> & Hcol); [done..|]. by eexists.
  - by destruct (Hother i).
Qed.
Lemma aggVector_spec :
  Forall (λ t, ∀ i, t ≠ TypeOther i) tys → weight agg_col < 2 ^ 32 →
  ∃ v, aggVector s kl j ae out_type = Ret v ∧ column v out_type n (at_ agg_col) ∧ dict_size v ≤ weight agg_col.
Proof using Hc HF Hj.
  intros Htys Hw. pose proof (conf_agg tys c Hc j ae Hj) as Ha. unfold aggVector, out_type. pose proof (weight_ge0 agg_col).
  assert (Hsrc : is_star ae = false → ∃ t, src_type tys ae = t ∧ (∀ i, t ≠ TypeOther i) ∧ AccumType ae = AccumTypeFor (Kind ae) t ∧
    match Kind ae with AggSum | AggAvg => numeric t = true | _ => True end).
  { intros Hs. unfold agg_ok in Ha. rewrite Hs in Ha. destruct Ha as (_ & t & Ht & Hat & Hn). exists t.
    unfold src_type. rewrite Ht. split; [done|]. split; [exact (Forall_lookup_1 _ _ _ _ Htys Ht)|done]. }
  assert (Hns : Kind ae ≠ AggCount → is_star ae = false) by (intros Hk; apply bool_decide_eq_false_2; tauto).
  assert (Hcount : Kind ae = AggCount → AccumType ae = TypeInt64).
  { intros Hk. destruct (is_star ae) eqn:Es; [unfold agg_ok in Ha; by rewrite Es in Ha|].
    destruct (Hsrc eq_refl) as (t & _ & _ & -> & _). by rewrite Hk. }
  assert (Hmm : Kind ae = AggMin ∨ Kind ae = AggMax → ∃ v, buildMinMaxVector s kl j (src_type tys ae) = Ret v ∧
    column v (src_type tys ae) n (at_ agg_col) ∧ dict_size v ≤ weight agg_col).
  { intros Hk. destruct (Hsrc (Hns ltac:(by destruct Hk as [-> | ->]))) as (t & Ht & Hot & Hat & _). apply (minMax_spec); rewrite ?Ht; auto.
    intros ->. apply (conf_str c j ae Hj). rewrite Hat. by destruct Hk as [-> | ->]. }
  destruct (Kind ae) eqn:Hk; auto.
  - rewrite Hcount by done. destruct (aggWords (λ g, acc ← index (accs g) j; Ret (Some acc)) TypeInt64 Int64Vector CInt) as (vals & nb & -> & Hcol);
      [done| |by eexists]. intros k Hin. rewrite (index_accs _ _ _ _ _ (st_lookup k Hin)), go_bind_ret_l. eexists. split; [done|].
    unfold agg_cell. by rewrite Hk.
  - destruct (Hsrc (Hns ltac:(done))) as (t & Ht & _ & -> & Hn). rewrite Ht. destruct t; try done; cbn [AccumTypeFor].
    + destruct (aggWords_accOr (λ x, x) TypeInt64 Int64Vector CInt) as (vals & nb & -> & Hcol); [done| |by eexists].
      intros st. unfold agg_cell. by rewrite Hk, Ht.
    + destruct (aggWords_accOr to_u64 TypeFloat64 Float64Vector CFloat) as (vals & nb & -> & Hcol); [done| |by eexists].
      intros st. unfold agg_cell. by rewrite Hk, Ht.
  - destruct (aggWords (avgOf j) TypeFloat64 Float64Vector CFloat) as (vals & nb & -> & Hcol); [done| |by eexists].
    intros k Hin. unfold avgOf, agg_cell. rewrite Hk, (index_nonNull _ _ _ _ _ (st_lookup k Hin)), go_bind_ret_l.
    case_decide; [|by eexists]. rewrite (index_accs _ _ _ _ _ (st_lookup k Hin)), go_bind_ret_l. by eexists.
  - destruct (aggWords (distinctCount j) TypeInt64 Int64Vector CInt) as (vals & nb & -> & Hcol); [done| |by eexists].
    intros k Hin. rewrite distinctCount_spec by done. eexists. split; [done|]. unfold agg_cell. by rewrite Hk.
Qed.
End Agg.
End Columns.
