(* ===== verification/AggRun.v ===== *)
(** * Package exec: an aggregate as an operator

    [agg_rows]: after any stream of batches the operator emits one row for each
    distinct GROUP BY key of all their rows, which holds the key and the value of
    each aggregate over the rows of that key. *)
From Stdlib Require Import ZArith Lia ZifyNat.
From stdpp Require Import base numbers list strings gmap.
From S2P Require Import Prelude Encoding Codec Float64 Schema Writer Reader Batch Scratch VExpr VKernel VCase VExprSpec Operator Distinct Sorting Emit Sort Aggregate AggSpec AggKeys AggInt AggPath AggConsume AggValue AggOut.
#[local] Open Scope Z_scope.

(** ** A batch of groups *)

Definition out_types (tys : list DataType) (c : aggConf) : list DataType := gb_types tys c ++ (out_type tys <$> aggExprs c).
(** The row of key [k] from its aggregate states. *)
Definition state_row (tys : list DataType) (c : aggConf) (k : cells) (sts : list aggSt) : cells :=
  k ++ zip_with (agg_cell tys) (aggExprs c) sts.

Lemma foldM_collect {A} (step : list Vector → A → go (list Vector)) (P : nat → Vector → Prop) l acc :
  (∀ i x, l !! i = Some x → ∃ v, (∀ acc, step acc x = Ret (acc ++ [v])) ∧ P i v) →
  ∃ vs, foldM step acc l = Ret (acc ++ vs) ∧ length vs = length l ∧ ∀ i v, vs !! i = Some v → P i v.
Proof.
  intros H. destruct (foldM_list_ind step (λ k r, ∃ vs, r = acc ++ vs ∧ length vs = k ∧ ∀ i v, vs !! i = Some v → P i v) l acc)
    as (r & E & (vs & -> & Hl & HP)).
  - exists []. by rewrite app_nil_r.
  - intros k x r Hx (vs & -> & Hl & HP). destruct (H k x Hx) as (v & Hv & HPv). rewrite Hv. eexists. split; [done|].
    exists (vs ++ [v]). rewrite app_assoc, length_app. split; [done|]. split; [cbn; lia|].
    intros i v' [[_ Hi]|[-> <-]]%lookup_snoc_Some; [auto|by rewrite Hl].
  - by exists vs.
Qed.

Section Output.
Context (tys : list DataType) (c : aggConf) (s : aggState) (W : Z).
Context (F : cells → list aggSt) (smf : cells → option (list groupByVal)).
Context (Hc : conf_ok tys c) (Htys : Forall (λ t, ∀ i, t ≠ TypeOther i) tys) (HW : W < 2 ^ 32).
Context (Hschema : Type_ <$> ha_schema c = out_types tys c).
Abbreviation out k := (state_row tys c k (F k)).

(** The groups of the keys [ks]. *)
Definition has_groups (ks : list cells) : Prop :=
  ∀ k, k ∈ ks → groups s !! row_key k = Some (grp c (F k) (smf k)) ∧ length (F k) = length (aggExprs c) ∧
    key_ok tys c k ∧ (groupBy c ≠ [] → smf k = sample_of k).

Lemma gb_types_real p t : gb_types tys c !! p = Some t → ∀ i, t ≠ TypeOther i.
Proof using Hc Htys.
  intros Ht. unfold gb_types in Ht. rewrite list_lookup_fmap in Ht. destruct (groupBy c !! p) as [x|] eqn:Ex; [|done].
  cbn in Ht. injection Ht as <-. destruct Hc as (_ & Hg & _). destruct (Forall_lookup_1 _ _ _ _ Hg Ex) as [_ Hlt].
  destruct (lookup_lt_is_Some_2 tys _ Hlt) as [t Et]. rewrite Et. exact (Forall_lookup_1 _ _ _ _ Htys Et).
Qed.
Lemma length_out k ks : has_groups ks → k ∈ ks → length (out k) = length (out_types tys c).
Proof using.
  clear. intros Hg Hk. destruct (Hg k Hk) as (_ & Hl & [Hty _] & _). unfold state_row, out_types.
  rewrite !length_app, length_zip_with, length_fmap, (Forall2_length _ _ _ Hty). lia.
Qed.

Lemma buildOutputBatch_spec ks :
  has_groups ks → (∀ j, weight (col_at j ((λ k, out k) <$> ks)) ≤ W) →
  ∃ vecs, buildOutputBatch c s (row_key <$> ks) = Ret (mkBatch (ha_schema c) vecs (length ks) None) ∧
    columns_of (out_types tys c) W ((λ k, out k) <$> ks) vecs.
Proof using Hc Htys HW Hschema.
  intros Hg Hw. unfold buildOutputBatch.
  assert (Hlgb : length (gb_types tys c) = length (groupBy c)) by apply length_fmap.
  assert (Hidx : ∀ p t, out_types tys c !! p = Some t → ∃ f, index (ha_schema c) p = Ret f ∧ Type_ f = t).
  { intros p t Hp. rewrite <- Hschema, list_lookup_fmap in Hp. destruct (ha_schema c !! p) as [f|] eqn:Ef; [|done].
    exists f. split; [by apply index_Ret|]. cbn in Hp. congruence. }
  assert (Hcol : ∀ p t, out_types tys c !! p = Some t → (p < length (groupBy c))%nat →
    col_at p ((λ k, out k) <$> ks) = gb_col ks p).
  { intros p t Hp Hlt. unfold col_at, gb_col. rewrite <- list_fmap_compose. apply list_fmap_ext. intros i k Hk. unfold compose, state_row.
    destruct (Hg k ltac:(by eapply list_elem_of_lookup_2)) as (_ & _ & [Hty _] & _). apply Forall2_length in Hty.
    by rewrite lookup_app_l by lia. }
  assert (Hcola : ∀ j ae, aggExprs c !! j = Some ae → col_at (length (groupBy c) + j) ((λ k, out k) <$> ks) = agg_col ks tys F j ae).
  { intros j ae Hj. unfold col_at, agg_col. rewrite <- list_fmap_compose. apply list_fmap_ext. intros i k Hk. unfold compose, state_row, st_at.
    destruct (Hg k ltac:(by eapply list_elem_of_lookup_2)) as (_ & Hl & [Hty _] & _). apply Forall2_length in Hty.
    rewrite lookup_app_r by lia. replace (length (groupBy c) + j - length k)%nat with j by lia. rewrite lookup_zip_with, Hj. cbn.
    destruct (lookup_lt_is_Some_2 (F k) j) as [st ->]; [|done]. rewrite Hl. by eapply lookup_lt_Some. }
  set (P off i v := ∀ t, out_types tys c !! (off + i)%nat = Some t →
    column v t (length ks) (at_ (col_at (off + i) ((λ k, out k) <$> ks))) ∧ dict_size v ≤ W).
  destruct (foldM_collect (λ vecs gbPos, f ← index (ha_schema c) gbPos; v ← buildGroupByVector s (row_key <$> ks) gbPos (Type_ f); Ret (vecs ++ [v]))
    (P 0%nat) (seq 0 (length (groupBy c))) []) as (vs1 & E1 & L1 & H1).
  { intros i p [-> Hi]%lookup_seq. destruct (lookup_lt_is_Some_2 (gb_types tys c) i) as [t Ht]; [lia|].
    assert (Hot : out_types tys c !! i = Some t) by by apply lookup_app_l_Some. destruct (Hidx i t Hot) as (f & Ef & Et).
    cbn [Nat.add]. destruct (buildGroupByVector_spec s ks tys c i t) as (v & Ev & Hv & Hd).
    - intros k Hk. destruct (Hg k Hk) as (Eg & _ & Hok & Hs). split; [done|]. eexists. split; [done|]. apply Hs. by destruct (groupBy c); [cbn in Hi; lia|].
    - done.
    - by eapply gb_types_real.
    - rewrite <- (Hcol i t) by done. specialize (Hw i). lia.
    - exists v. split; [intros acc; by rewrite Ef, go_bind_ret_l, Et, Ev|]. intros t' Ht'. cbn [Nat.add] in *.
      assert (t' = t) as -> by congruence. rewrite (Hcol i t) by done. split; [done|]. specialize (Hw i). rewrite (Hcol i t) in Hw by done. lia. }
  rewrite E1, go_bind_ret_l. cbn [app].
  destruct (foldM_collect (λ vecs '(j, ae), f ← index (ha_schema c) (length (groupBy c) + j); v ← aggVector s (row_key <$> ks) j ae (Type_ f); Ret (vecs ++ [v]))
    (P (length (groupBy c))) (enum (aggExprs c)) vs1) as (vs2 & E2 & L2 & H2).
  { intros i [j ae] [Ei Hj]%lookup_enum. cbn [fst snd] in *. subst i.
    assert (Hot : out_types tys c !! (length (groupBy c) + j)%nat = Some (out_type tys ae)).
    { unfold out_types. rewrite lookup_app_r by lia. rewrite Hlgb. replace (_ + j - _)%nat with j by lia. by rewrite list_lookup_fmap, Hj. }
    destruct (Hidx _ _ Hot) as (f & Ef & Et).
    destruct (aggVector_spec s ks tys c F smf Hc) with (j := j) (ae := ae) as (v & Ev & Hv & Hd); [|done|done|..].
    - intros k Hk. by destruct (Hg k Hk) as (? & ? & _).
    - rewrite <- (Hcola j ae) by done. specialize (Hw (length (groupBy c) + j)%nat). lia.
    - exists v. split; [intros acc; by rewrite Ef, go_bind_ret_l, Et, Ev|]. intros t' Ht'.
      assert (t' = out_type tys ae) as -> by congruence. rewrite (Hcola j ae) by done. split; [done|].
      specialize (Hw (length (groupBy c) + j)%nat). rewrite (Hcola j ae) in Hw by done. lia. }
  rewrite E2, go_bind_ret_l, length_fmap. rewrite length_enum in L2. rewrite length_seq in L1. eexists. split; [done|].
  apply Forall2_same_length_lookup. rewrite length_enum, length_app, L1, L2. unfold out_types at 1. rewrite length_app, Hlgb, length_fmap. split; [done|].
  intros i v [i' t] Hv [Ei Ht]%lookup_enum. cbn [fst snd] in *. subst i'. rewrite length_fmap.
  apply lookup_app_Some in Hv as [Hv|[Hge Hv]]; [exact (H1 i v Hv t Ht)|].
  specialize (H2 _ _ Hv t). rewrite L1 in *. replace (length (groupBy c) + (i - length (groupBy c)))%nat with i in H2 by lia. auto.
Qed.
End Output.

(** ** The result *)

(** The key of a row, and the value of GROUP BY [gs] with [aggs] over [rs]. *)
Definition group_key (gs : list Z) (r : cells) : cells := (λ i, default None (r !! Z.to_nat i)) <$> gs.
Definition agg_row (tys : list DataType) (gs : list Z) (aggs : list AggExpr) (rs : list cells) (k : cells) : cells :=
  k ++ ((λ ae, agg_value tys ae (filter (λ r, group_key gs r = k) rs)) <$> aggs).
Definition agg_result (tys : list DataType) (gs : list Z) (aggs : list AggExpr) (rs : list cells) : list cells :=
  agg_row tys gs aggs rs <$> (if decide (gs = []) then [[]] else uniq (group_key gs <$> rs)).

(** ** Construction *)

(** What the planner hands over: columns in range, a numeric one for SUM and AVG,
    an accumulator type that is unset or the one of the column. *)
Definition agg_valid (tys : list DataType) (ae : AggExpr) : Prop :=
  let accum t := AccumType ae = TypeOther 0 ∨ AccumType ae = AccumTypeFor (Kind ae) t in
  Kind ae = AggCount ∧ a_ColIdx ae < 0 ∧ accum TypeInt64 ∨
  0 ≤ a_ColIdx ae ∧ ∃ t, tys !! Z.to_nat (a_ColIdx ae) = Some t ∧ accum t ∧
    match Kind ae with AggSum | AggAvg => numeric t = true | _ => True end.
Definition gb_valid (tys : list DataType) (i : Z) : Prop := 0 ≤ i ∧ (Z.to_nat i < length tys)%nat.
Definition resolved (tys : list DataType) (ae : AggExpr) : AggExpr :=
  let t := if decide (a_ColIdx ae < 0) then TypeInt64 else src_type tys ae in
  mkAggExpr (Kind ae) (a_ColIdx ae) (OutName ae) (a_Distinct ae) (AccumTypeFor (Kind ae) t).

Lemma resolveAgg_spec schema ae :
  agg_valid (Type_ <$> schema) ae →
  ∃ f, resolveAgg schema ae = Ret (resolved (Type_ <$> schema) ae, f) ∧
    Type_ f = out_type (Type_ <$> schema) (resolved (Type_ <$> schema) ae) ∧
    agg_ok (Type_ <$> schema) (resolved (Type_ <$> schema) ae) ∧ f = mkField (OutName ae) (Type_ f) EncPlain true.
Proof.
  assert (Hacc : ∀ k t, AccumType ae = TypeOther 0 ∨ AccumType ae = AccumTypeFor k t →
    (if decide (AccumType ae = TypeOther 0) then AccumTypeFor k t else AccumType ae) = AccumTypeFor k t).
  { intros k t [E|E]; case_decide; congruence. }
  intros [(Hk & Hi & Ha)|(Hi & t & Ht & Ha & Hn)]; unfold resolveAgg, resolved.
  - rewrite decide_False by lia. rewrite go_bind_ret_l, decide_False by (rewrite Hk; by intros [[] _]).
    rewrite (decide_True _ _ Hi), Hacc by done. eexists. split; [done|]. unfold out_type, agg_ok, is_star. cbn. rewrite Hk.
    by rewrite bool_decide_eq_true_2.
  - pose proof (lookup_lt_Some _ _ _ Ht) as Hlt. rewrite length_fmap in Hlt.
    rewrite list_lookup_fmap in Ht. destruct (schema !! Z.to_nat (a_ColIdx ae)) as [f|] eqn:Ef; [|done]. cbn in Ht. injection Ht as Ht.
    rewrite decide_True, decide_False, (index_Ret _ _ _ Ef) by lia. rewrite !go_bind_ret_l, Ht.
    assert (Hsrc : src_type (Type_ <$> schema) ae = t) by (unfold src_type; rewrite list_lookup_fmap, Ef; done).
    rewrite decide_False, (decide_False (P := a_ColIdx ae < 0)), Hsrc, Hacc; [|done|lia|].
    2: { intros [[Hk|Hk] [H1 H2]]; rewrite Hk in Hn; by destruct t. }
    eexists. split; [done|]. split.
    + unfold out_type, src_type. cbn. rewrite list_lookup_fmap, Ef. cbn. rewrite Ht. by destruct (Kind ae).
    + unfold agg_ok, is_star. cbn. rewrite bool_decide_eq_false_2 by lia. split; [|done]. split; [done|]. exists t.
      by rewrite list_lookup_fmap, Ef; cbn; rewrite Ht.
Qed.
(** The columns of the result: the keys', then one for each aggregate. *)
Definition agg_field (tys : list DataType) (ae : AggExpr) : Field :=
  mkField (OutName ae) (out_type tys (resolved tys ae)) EncPlain true.
Definition agg_schema (schema : Schema) (gs : list Z) (aggs : list AggExpr) : Schema :=
  omap (λ i, schema !! Z.to_nat i) gs ++ (agg_field (Type_ <$> schema) <$> aggs).

Section Run.
Context {S : Type} `{Operator S} (tys : list DataType) (gs : list Z) (aggs : list AggExpr).
Context (Hgs : Forall (gb_valid tys) gs) (Haggs : Forall (agg_valid tys) aggs) (Hne : gs ≠ [] ∨ aggs ≠ []).
Context (Hreal : Forall real_type tys).

Lemma NewHashAggregate_spec (child : S) :
  Type_ <$> OpSchema child = tys →
  ∃ c, NewHashAggregate child gs aggs = Ret (mkHashAggregate child c initMaps false 0) ∧
    groupBy c = gs ∧ aggExprs c = resolved tys <$> aggs ∧ conf_ok tys c ∧ Type_ <$> ha_schema c = out_types tys c ∧
    ha_schema c = agg_schema (OpSchema child) gs aggs.
Proof using Hgs Haggs Hne.
  clear Hreal. intros <-. unfold NewHashAggregate. rewrite decide_False by (destruct aggs, gs; cbn; naive_solver). cbv zeta.
  assert (H1 : ∀ acc, ∃ fs, foldM (λ outFields idx,
      if decide (idx < 0 ∨ Z.of_nat (length (OpSchema child)) ≤ idx)
      then Err (ErrMsg "exec: hash aggregate: group-by column out of range")
      else f ← index (OpSchema child) (Z.to_nat idx); Ret (outFields ++ [f])) acc gs = Ret (acc ++ fs) ∧
    Type_ <$> fs = (λ i, default (TypeOther 0) ((Type_ <$> OpSchema child) !! Z.to_nat i)) <$> gs ∧
    fs = omap (λ i, OpSchema child !! Z.to_nat i) gs).
  { clear Hne. induction Hgs as [|i l [H0 Hlt] _ IH]; intros acc; [exists []; by rewrite app_nil_r|].
    rewrite length_fmap in Hlt. destruct (lookup_lt_is_Some_2 _ _ Hlt) as [f Hf]. cbn [foldM].
    rewrite decide_False, (index_Ret _ _ _ Hf), !go_bind_ret_l by lia. destruct (IH (acc ++ [f])) as (fs & -> & E & Ef).
    exists (f :: fs). rewrite <- app_assoc. split; [done|]. cbn [fmap list_fmap omap list_omap]. rewrite E, list_lookup_fmap, Hf, <- Ef. done. }
  assert (H2 : ∀ acc1 acc2, ∃ fs, foldM (λ '(resolved, outFields) ae,
      '(ae, f) ← resolveAgg (OpSchema child) ae; Ret (resolved ++ [ae], outFields ++ [f])) (acc1, acc2) aggs
      = Ret (acc1 ++ (resolved (Type_ <$> OpSchema child) <$> aggs), acc2 ++ fs) ∧
    Type_ <$> fs = out_type (Type_ <$> OpSchema child) <$> (resolved (Type_ <$> OpSchema child) <$> aggs) ∧
    fs = agg_field (Type_ <$> OpSchema child) <$> aggs).
  { clear Hne. induction Haggs as [|ae l Hae _ IH]; intros acc1 acc2; [exists []; by rewrite !app_nil_r|]. cbn [foldM].
    destruct (resolveAgg_spec _ _ Hae) as (f & -> & Ef & _ & Eg). rewrite !go_bind_ret_l.
    destruct (IH (acc1 ++ [resolved (Type_ <$> OpSchema child) ae]) (acc2 ++ [f])) as (fs & -> & E & Efs). exists (f :: fs).
    cbn [fmap list_fmap]. rewrite <- !app_assoc, E, Ef, <- Efs. split; [done|]. split; [done|]. f_equal. rewrite Eg, Ef. done. }
  destruct (H1 []) as (fs1 & -> & E1 & F1). rewrite go_bind_ret_l. destruct (H2 [] ([] ++ fs1)) as (fs2 & -> & E2 & F2). rewrite go_bind_ret_l.
  eexists. split; [done|]. cbn [groupBy aggExprs ha_schema app]. split; [done|]. split; [done|]. split.
  - split; [|split; [exact Hgs|]].
    + cbn. apply Forall_fmap. eapply Forall_impl; [exact Haggs|]. intros ae Hae.
      by destruct (resolveAgg_spec _ _ Hae) as (f & _ & _ & ? & _).
    + cbn. clear. induction aggs as [|ae l IH]; [done|]. cbn. by rewrite IH.
  - rewrite fmap_app, E1, E2. split; [done|]. by rewrite F1, F2.
Qed.
End Run.

(** ** Consuming the whole input *)

Section Consumed.
Context (tys : list DataType) (D : Z) (c : aggConf) (U : list string).
Context (Hc : conf_ok tys c) (HU : Z.of_nat (length U) < 2 ^ 32).
Abbreviation all bs := (r_cells <$> all_rows bs).

Lemma all_cons b bs : all (b :: bs) = batch_rows b ++ all bs.
Proof using. clear. unfold all_rows, batch_rows. cbn [fmap list_fmap concat]. by rewrite fmap_app. Qed.
Lemma accumulate_batches (P : list cells → aggState → Prop) bs rs s :
  Forall (input_ok tys D c U) bs → P rs s →
  (∀ b rs s, input_ok tys D c U b → P rs s → ∃ s', accumulate c s b = Ret s' ∧ P (rs ++ batch_rows b) s') →
  ∃ s', foldM (accumulate c) s bs = Ret s' ∧ P (rs ++ all bs) s'.
Proof using.
  clear. intros Hbs Hs Hstep. revert rs s Hs. induction Hbs as [|b bs Hb _ IH]; intros rs s Hs.
  - exists s. by rewrite app_nil_r.
  - destruct (Hstep b rs s Hb Hs) as (s1 & E1 & H1). destruct (IH _ _ H1) as (s2 & E2 & H2). exists s2.
    cbn [foldM]. rewrite E1, go_bind_ret_l, all_cons, app_assoc. done.
Qed.

(** What the maps hold once the input has ended. *)
Record consumed (rs : list cells) (s : aggState) (ks : list cells) : Prop := {
  cs_keys : keys s = row_key <$> ks;
  cs_perm : ks ≡ₚ (if decide (groupBy c = []) then [[]] else uniq (gb_key c <$> rs)) ∨ groupBy c = [] ∧ rs = [] ∧ ks = [];
  cs_groups : has_groups tys c s (λ k, states tys (bool_decide (groupBy c ≠ [])) c (rows_with c k rs))
    (λ k, if decide (groupBy c = []) then None else sample_of k) ks
}.
Lemma str_consumed rs s : groupBy c ≠ [] → str_state tys c rs s → keys_ok tys c rs → ∃ ks, consumed rs s ks.
Proof using.
  clear. intros Hne (ks & Hs) Hok. exists ks. split; [apply Hs| |].
  - left. rewrite decide_False by done. by eapply holds_perm.
  - intros k Hk. rewrite decide_False, bool_decide_eq_true_2 by done. rewrite (h_groups _ _ _ _ _ _ _ _ _ Hs k Hk).
    split; [done|]. split; [apply length_states|]. split; [|done].
    apply (h_rows _ _ _ _ _ _ _ _ _ Hs), list_elem_of_fmap in Hk as (r & -> & Hr). unfold keys_ok in Hok. rewrite Forall_forall in Hok. auto.
Qed.
Lemma rows_with_nil rs : groupBy c = [] → rows_with c [] rs = rs.
Proof using.
  clear. intros Hg. unfold rows_with. induction rs as [|r rs IH]; [done|]. rewrite filter_cons, decide_True, IH; [done|].
  unfold gb_key. by rewrite Hg.
Qed.
Lemma direct_consumed rs s : groupBy c = [] → direct_state tys c rs s → ∃ ks, consumed rs s ks.
Proof using.
  clear. intros Hg [_ [(-> & Hk & Hm)|(Hk & Hm)]].
  - exists []. split; [done|by right|]. intros k Hin. by apply elem_of_nil in Hin.
  - exists [[]]. split; [done|left; by rewrite decide_True|]. intros k ->%list_elem_of_singleton. cbn [row_key fmap list_fmap concat].
    rewrite Hm, rows_with_nil, bool_decide_eq_false_2, decide_True by tauto. change (row_key []) with (@nil Z). rewrite lookup_singleton_eq.
    split; [done|]. split; [apply length_states|]. split; [|tauto]. unfold key_ok, gb_types. rewrite Hg. by split.
Qed.

Definition endOfInput (s : aggState) : go aggState :=
  if enabled (intKey s) && bool_decide (0 < length (intKeys (intKey s)))%nat then materializeToStringMaps c s else Ret s.
Lemma consumes bs :
  Forall (input_ok tys D c U) bs →
  ∃ s, foldM (accumulate c) initMaps bs = Ret s ∧ ∃ s' ks, endOfInput s = Ret s' ∧ consumed (all bs) s' ks.
Proof using Hc HU.
  intros Hbs. destruct (decide (groupBy c = [])) as [Hg|Hg].
  - destruct (accumulate_batches (λ rs s, direct_state tys c rs s ∧ Forall (Forall cell_fits) rs) bs [] initMaps Hbs) as (s & E & Hs & _).
    + split; [|constructor]. split; [done|]. by left.
    + intros b rs s Hb [Hs Hf]. destruct (accumulate_direct tys D c U Hc b rs s Hg Hb Hs Hf) as (s' & E & Hs').
      exists s'. split; [done|]. split; [done|]. apply Forall_app. split; [done|]. apply rows_cells_fit, Hb.
    + exists s. split; [done|]. destruct (direct_consumed _ _ Hg Hs) as (ks & Hks). exists s, ks. split; [|done].
      unfold endOfInput. by destruct Hs as [-> _].
  - destruct (accumulate_batches (λ rs s, gb_state tys c U rs s ∧ keys_ok tys c rs) bs [] initMaps Hbs) as (s & E & Hs & Hok).
    + split; [done|constructor].
    + intros b rs s Hb [Hs Hf]. destruct (accumulate_gb tys D c U Hc HU b rs s Hg Hb Hs Hf) as (s' & E & Hs').
      exists s'. split; [done|]. split; [done|]. apply Forall_app. split; [done|]. by apply (batch_keys_ok tys D c U Hc).
    + exists s. split; [done|]. cbn [app] in *. assert (Hstr : ∃ s', endOfInput s = Ret s' ∧ str_state tys c (all bs) s').
      { unfold gb_state in Hs. destruct (intKeyDecided s) eqn:Ed.
        - destruct Hs as [[He Hstr]|(_ & Hn & _ & [He Hik _ Hpart])]; unfold endOfInput; rewrite He; [by exists s|]. cbn [andb].
          destruct (int_materialize_spec tys c U Hn s (all bs) Hik Hpart Hok) as (s' & E' & Hs' & _).
          destruct (intKeys (intKey s)) eqn:Ek; [|by exists s'].
          exists s. split; [done|]. unfold materializeToStringMaps in E'. rewrite Ek in E'. by injection E' as <-.
        - destruct Hs as [E0 ->]. rewrite E0. exists initMaps. split; [done|]. exists []. apply holds_init. }
      destruct Hstr as (s' & E' & Hs'). destruct (str_consumed _ _ Hg Hs' Hok) as (ks & Hks). by exists s', ks.
Qed.

(** The states of a key, column by column. *)
Lemma state_row_value typed k rs :
  Forall (row_ok tys) rs → Z.of_nat (length rs) < 2 ^ 63 →
  state_row tys c k (states tys typed c rs) = k ++ ((λ ae, agg_value tys ae rs) <$> aggExprs c).
Proof using Hc.
  clear HU. intros Hrs Hl. unfold state_row. f_equal. unfold states. rewrite <- foldl_step_all by by rewrite length_fmap.
  apply list_eq. intros j. rewrite lookup_zip_with, list_lookup_fmap. destruct (aggExprs c !! j) as [ae|] eqn:Ej; [|done].
  cbn. rewrite lookup_zip_with, Ej. cbn. rewrite list_lookup_fmap, Ej. cbn. f_equal.
  apply agg_value_spec; [|done|done]. destruct Hc as [Ha _]. exact (Forall_lookup_1 _ _ _ _ Ha Ej).
Qed.
End Consumed.

(** ** The operator *)

Lemma real_other t : real_type t ↔ ∀ i, t ≠ TypeOther i.
Proof. split; [by intros Ht i ->|]. intros Hi. destruct t as [| | | | |i]; try done. by destruct (Hi i). Qed.
Lemma out_types_real tys c : conf_ok tys c → Forall real_type tys → Forall real_type (out_types tys c).
Proof.
  intros Hc Hr. apply Forall_app. split.
  - apply Forall_lookup_2. intros p t Hp. apply real_other. eapply (gb_types_real tys c Hc); [|exact Hp].
    eapply Forall_impl; [exact Hr|]. intros t'. apply real_other.
  - apply Forall_fmap. destruct Hc as [Ha _]. eapply Forall_impl; [exact Ha|]. intros ae Hae. unfold compose, out_type.
    unfold agg_ok in Hae. destruct (is_star ae) eqn:Es.
    { unfold is_star in Es. by apply bool_decide_eq_true in Es as [-> _]. }
    destruct Hae as (_ & t & Ht & _). unfold src_type. rewrite Ht. cbn [default]. pose proof (Forall_lookup_1 _ _ _ _ Hr Ht).
    by destruct (Kind ae).
Qed.
(** The batch of an aggregate over no rows at all. *)
Lemma empty_result tys c :
  conf_ok tys c → Forall real_type tys → groupBy c = [] → Type_ <$> ha_schema c = out_types tys c →
  ∃ vecs, buildEmptyGlobalResult c = Ret (mkBatch (ha_schema c) vecs 1 None) ∧
    columns_of (out_types tys c) 0 [(λ ae, agg_value tys ae []) <$> aggExprs c] vecs.
Proof.
  intros Hc Hr Hg Hs. unfold buildEmptyGlobalResult.
  destruct (foldM_collect (λ vecs '(j, ae), v ← emptyAgg c j ae; Ret (vecs ++ [v])) (λ j v, ∀ ae, aggExprs c !! j = Some ae →
    column v (out_type tys ae) 1 (λ _, agg_value tys ae []) ∧ dict_size v ≤ 0) (enum (aggExprs c)) []) as (vs & E & Hl & HP).
  - intros i [j ae] [Ei Hj]%lookup_enum. cbn [fst snd] in *. subst i.
    assert (Hot : out_types tys c !! j = Some (out_type tys ae)).
    { unfold out_types, gb_types. rewrite Hg. cbn [fmap list_fmap app]. by rewrite list_lookup_fmap, Hj. }
    pose proof Hot as Hot'. rewrite <- Hs, list_lookup_fmap in Hot'. destruct (ha_schema c !! j) as [f|] eqn:Ef; [|done].
    cbn in Hot'. injection Hot' as Ht. pose proof (Forall_lookup_1 _ _ _ _ (out_types_real _ _ Hc Hr) Hot) as Hreal.
    assert (Hnull : ∀ t, real_type t → column (nullVectorOfType t) t 1 (λ _, None) ∧ dict_size (nullVectorOfType t) ≤ 0).
    { intros [] Ht'; try done; (split; [|done]); cbn [nullVectorOfType].
      - apply (column_fixed _ _ _ _ _ _ fixed_int64). exists [0], [0]. repeat split; [cbn; lia|by intros [|i] x Hx].
      - apply (column_fixed _ _ _ _ _ _ fixed_float64). exists [0], [0]. repeat split; [cbn; lia|by intros [|i] x Hx].
      - apply column_bool. exists [0], [0]. repeat split; [cbn; lia..|]. intros [|i] Hi; [done|lia].
      - apply column_string. exists [0], None, [0]. repeat split; [cbn; lia|]. intros [|i] Hi; [done|lia].
      - apply (column_fixed _ _ _ _ _ _ fixed_date). exists [0], [0]. repeat split; [cbn; lia|by intros [|i] x Hx]. }
    assert (Hzero : column (Int64Vector [0] (FullBitmap 1)) TypeInt64 1 (λ _, Some (CInt 0))).
    { apply (column_fixed _ _ _ _ _ _ fixed_int64). exists [0], (FullBitmap 1). repeat split; [vm_compute; lia|by intros [|i] x [= <-]]. }
    assert (Hv : ∃ v, emptyAgg c j ae = Ret v ∧ column v (out_type tys ae) 1 (λ _, agg_value tys ae []) ∧ dict_size v ≤ 0).
    { unfold emptyAgg. rewrite (index_Ret _ _ _ Ef), go_bind_ret_l, Ht. unfold out_type, agg_value in *.
      destruct Hc as [Ha _]. pose proof (Forall_lookup_1 _ _ _ _ Ha Hj) as Hae. unfold agg_ok, is_star in Hae.
      destruct (Kind ae) eqn:Hk.
      - eexists. split; [done|]. split; [|done]. by destruct (is_star ae).
      - rewrite bool_decide_eq_false_2 in Hae by (by intros []). destruct Hae as (_ & t & Htt & Hat & Hn).
        unfold src_type in *. rewrite Htt in *. cbn [default] in *. rewrite Hat. destruct t; try done; eexists; (split; [done|]).
        + apply (Hnull TypeInt64). done.
        + apply (Hnull TypeFloat64). done.
      - eexists. split; [done|]. by apply (Hnull TypeFloat64).
      - eexists. split; [done|]. by apply Hnull.
      - eexists. split; [done|]. by apply Hnull.
      - eexists. split; [done|]. by split. }
    destruct Hv as (v & Ev & Hcol). exists v. split; [intros acc; by rewrite Ev|]. intros ae' Hj'. assert (ae' = ae) as -> by congruence. done.
  - rewrite E. eexists. split; [done|]. cbn [app]. rewrite length_enum in Hl.
    apply Forall2_same_length_lookup. unfold out_types, gb_types. rewrite Hg. cbn [fmap list_fmap app]. rewrite length_enum, length_fmap. split; [done|].
    intros i v [i' t] Hv [Ei Ht]%lookup_enum. cbn [fst snd] in *. subst i'. rewrite list_lookup_fmap in Ht.
    destruct (aggExprs c !! i) as [ae|] eqn:Ej; [|done]. cbn in Ht. injection Ht as <-. destruct (HP i v Hv ae Ej) as [Hcol Hd].
    split; [|done]. eapply column_ext; [exact Hcol|]. intros [|p] Hp; [|cbn in Hp; lia]. unfold at_, col_at. cbn.
    by rewrite list_lookup_fmap, Ej.
Qed.

Lemma inputs_ok tys D c U bs :
  Forall (batch_wf tys D) bs → Forall row_fits (all_rows bs) → Forall (gb_dicts (groupBy c) U) bs → Forall (input_ok tys D c U) bs.
Proof.
  induction 1 as [|b bs Hb _ IH]; intros Hf Hd; [constructor|]. apply Forall_cons in Hd as [Hd1 Hd].
  unfold all_rows in Hf. cbn [fmap list_fmap concat] in Hf. apply Forall_app in Hf as [Hf1 Hf]. constructor; [|by apply IH].
  destruct Hb as (Hok & _ & _ & Hidx & _). split; [done|]. split; [done|]. unfold rows_ok. rewrite Forall_forall in Hidx |- *.
  intros i Hi. split; [by apply Hidx|]. rewrite Forall_forall in Hf1. apply Hf1. by apply list_elem_of_fmap_2.
Qed.

Section Emitting.
Context {S : Type} `{Operator S} (tys : list DataType) (c : aggConf) (s : aggState) (W : Z) (child : S).
Context (F : cells → list aggSt) (smf : cells → option (list groupByVal)).
Context (Hc : conf_ok tys c) (Hreal : Forall real_type tys) (HW : 0 ≤ W < 2 ^ 32).
Context (Hschema : Type_ <$> ha_schema c = out_types tys c) (Hne : out_types tys c ≠ []).

(** Emitting from the groups [ks], 1024 at a time. *)
Lemma agg_emits ks :
  keys s = row_key <$> ks → has_groups tys c s F smf ks →
  (∀ j, weight (col_at j ((λ k, state_row tys c k (F k)) <$> ks)) ≤ W) →
  ∃ out, runs (mkHashAggregate child c s true 0) out None ∧ Forall (batch_wf (out_types tys c) W) out ∧ Forall whole out ∧
    r_cells <$> all_rows out = (λ k, state_row tys c k (F k)) <$> ks.
Proof using Hc Hreal HW Hschema Hne.
  intros Hk Hg Hw. assert (Hother : Forall (λ t, ∀ i, t ≠ TypeOther i) tys).
  { eapply Forall_impl; [exact Hreal|]. intros t. apply real_other. }
  assert (Hlk : length (keys s) = length ks) by (rewrite Hk; apply length_fmap).
  apply (chunks_run (out_types tys c) W _ (λ p, mkHashAggregate child c s true p)); intros p Hp; rewrite length_fmap in Hp.
  - exists 0%nat. intros fuel _. cbn [Next agg_operator]. unfold agg_next. cbn [ha_done]. unfold agg_emit. cbn [state outPos].
    by rewrite decide_True by lia.
  - rewrite length_fmap. set (e := Nat.min (p + BlockRows) (length ks)). set (chunk := take (e - p) (drop p ks)).
    assert (HB : BlockRows = 1024%nat) by done. assert (Hle : (p < e ≤ length ks)%nat) by lia.
    assert (Hgc : has_groups tys c s F smf chunk).
    { intros k Hin. apply Hg. unfold chunk in Hin. apply elem_of_take in Hin as (i & Hi & _). rewrite lookup_drop in Hi.
      by eapply list_elem_of_lookup_2. }
    assert (Hwc : ∀ j, weight (col_at j ((λ k, state_row tys c k (F k)) <$> chunk)) ≤ W).
    { intros j. unfold chunk. rewrite fmap_take, fmap_drop. pose proof (weight_col_take j (e - p) (drop p ((λ k, state_row tys c k (F k)) <$> ks))).
      pose proof (weight_col_drop j p ((λ k, state_row tys c k (F k)) <$> ks)). specialize (Hw j). lia. }
    destruct (buildOutputBatch_spec tys c s W F smf Hc Hother (proj2 HW) Hschema chunk Hgc Hwc) as (vecs & E & Hcols).
    exists (mkBatch (ha_schema c) vecs (length chunk) None). split.
    + exists 0%nat. intros fuel _. cbn [Next agg_operator]. unfold agg_next. cbn [ha_done]. unfold agg_emit. cbn [state outPos conf ha_child ha_done].
      rewrite decide_False by lia. rewrite Hlk. fold e. rewrite slice_Ret, Hk, <- fmap_drop, <- fmap_take by lia.
      fold chunk. rewrite go_bind_ret_l, E. done.
    + assert (Hlc : length chunk = (e - p)%nat) by (unfold chunk; rewrite length_take, length_drop; lia).
      destruct (columns_batch (ha_schema c) (out_types tys c) W ((λ k, state_row tys c k (F k)) <$> chunk) vecs Hcols Hne) as (Hwf & Hwh & Hrows); [| |lia|].
      * apply Forall_fmap, Forall_forall. intros k Hin. by apply (length_out tys c s F smf k chunk).
      * rewrite length_fmap. lia.
      * rewrite length_fmap in *. split; [done|]. split; [done|]. rewrite Hrows. unfold chunk. by rewrite fmap_take, fmap_drop.
Qed.
End Emitting.

Section AggRows.
Context {S : Type} `{Operator S} (tys : list DataType) (D W : Z) (U : list string).
Context (gs : list Z) (aggs : list AggExpr).

(** A row of the result from the states of its key. *)
Lemma state_row_result c rs k :
  conf_ok tys c → groupBy c = gs → aggExprs c = resolved tys <$> aggs → Forall (row_ok tys) rs → Z.of_nat (length rs) < 2 ^ 63 →
  state_row tys c k (states tys (bool_decide (groupBy c ≠ [])) c (rows_with c k rs)) = agg_row tys gs aggs rs k.
Proof using.
  intros Hc <- Ha Hrs Hl. rewrite (state_row_value tys c Hc).
  - unfold agg_row. rewrite Ha, <- list_fmap_compose. done.
  - unfold rows_with. rewrite Forall_forall in *. intros r [_ Hr]%list_elem_of_filter. auto.
  - unfold rows_with. pose proof (length_filter (λ r, gb_key c r = k) rs). lia.
Qed.

Lemma all_rows_one b : all_rows [b] = rows_of b.
Proof using. unfold all_rows. cbn [fmap list_fmap concat]. apply app_nil_r. Qed.
(** Once the input is consumed, the rows follow. *)
Lemma finish c s ks rs child (h : HashAggregate S) :
  conf_ok tys c → groupBy c = gs → aggExprs c = resolved tys <$> aggs → Type_ <$> ha_schema c = out_types tys c →
  Forall real_type tys → gs ≠ [] ∨ aggs ≠ [] → Forall (row_ok tys) rs → Z.of_nat (length rs) < 2 ^ 63 →
  (∀ j, weight (col_at j (agg_result tys gs aggs rs)) ≤ W) → W < 2 ^ 32 → consumed tys c rs s ks →
  (∃ m, ∀ fuel, (m ≤ fuel)%nat → Next fuel h =
    let h := mkHashAggregate child c s true 0 in
    if decide (length (keys s) = 0 ∧ length (groupBy c) = 0)%nat then
      on_ret (buildEmptyGlobalResult c) h (λ b, (Ret (Some b), mkHashAggregate child c s true 1))
    else agg_emit h) →
  ∃ out, runs h out None ∧ Forall (batch_wf (out_types tys c) W) out ∧ Forall whole out ∧
    r_cells <$> all_rows out ≡ₚ agg_result tys gs aggs rs.
Proof using.
  intros Hc Hg Ha Hs Hreal Hne Hrs Hl Hw HW [Hkeys Hperm Hgroups] Hnext.
  assert (Hot : out_types tys c ≠ []).
  { unfold out_types, gb_types. rewrite Hg, Ha. by destruct Hne, gs, aggs. }
  pose proof (Hw 0%nat) as HW0. pose proof (weight_ge0 (col_at 0 (agg_result tys gs aggs rs))).
  destruct (decide (length (keys s) = 0 ∧ length (groupBy c) = 0)%nat) as [[Hk0 Hg0]|Hsome].
  - assert (Hgb : groupBy c = []) by by destruct (groupBy c). assert (Hks : ks = []).
    { rewrite Hkeys, length_fmap in Hk0. by destruct ks. }
    destruct Hperm as [Hp|(_ & -> & _)].
    { rewrite decide_True, Hks in Hp by done. by apply Permutation_length in Hp. }
    destruct (empty_result tys c Hc Hreal Hgb Hs) as (vecs & E & Hcols).
    destruct (columns_batch (ha_schema c) (out_types tys c) 0 _ vecs Hcols Hot) as (Hwf & Hwh & Hrows); [|vm_compute; lia|done|].
    { constructor; [|done]. unfold out_types, gb_types. by rewrite length_app, !length_fmap, Hgb. }
    exists [mkBatch (ha_schema c) vecs 1 None]. split; [|split; [|split; [by constructor|]]].
    + destruct Hnext as [m Hm]. eapply runs_batch; [exists m; intros fuel Hfuel; rewrite Hm by done; by rewrite E|].
      eapply runs_end. exists 0%nat. intros fuel _. cbn [Next agg_operator]. unfold agg_next. cbn [ha_done]. unfold agg_emit. cbn [state outPos].
      by rewrite decide_True by lia.
    + constructor; [|done]. apply (batch_wf_mono _ 0 W); [lia|done].
    + rewrite all_rows_one. change (r_cells <$> rows_of (mkBatch (ha_schema c) vecs 1 None) ≡ₚ agg_result tys gs aggs []).
      cbn [length] in Hrows. rewrite Hrows. unfold agg_result.
      rewrite decide_True by congruence. rewrite Ha, <- list_fmap_compose. done.
  - assert (Hrow : ∀ k, state_row tys c k (states tys (bool_decide (groupBy c ≠ [])) c (rows_with c k rs)) = agg_row tys gs aggs rs k).
    { intros k. by apply state_row_result. }
    assert (Hp : ks ≡ₚ (if decide (gs = []) then [[]] else uniq (group_key gs <$> rs))).
    { destruct Hperm as [Hp|(Hgb & -> & ->)]; [by rewrite Hg in Hp; subst gs|]. destruct Hsome. by rewrite Hkeys, Hgb. }
    destruct (agg_emits tys c s W child _ _ Hc Hreal ltac:(lia) Hs Hot ks Hkeys Hgroups) as (out & Hout & Hwf & Hwh & Hall).
    + intros j. specialize (Hw j). unfold agg_result in Hw. rewrite <- Hp in Hw. etrans; [|exact Hw]. apply Z.eq_le_incl. f_equal.
      unfold col_at. f_equal. apply list_fmap_ext. intros i k _. apply Hrow.
    + exists out. split; [|split; [done|split; [done|]]].
      * eapply runs_retry; [|exact Hout]. destruct Hnext as [m Hm]. exists m. intros fuel Hfuel. by rewrite Hm.
      * rewrite Hall. unfold agg_result. rewrite <- Hp. erewrite list_fmap_ext; [done|]. intros i k _. apply Hrow.
Qed.

Lemma agg_runs (child : S) bs o :
  runs child bs o → Forall (batch_wf tys D) bs → Forall row_fits (all_rows bs) → Type_ <$> OpSchema child = tys →
  Forall real_type tys → Forall (gb_valid tys) gs → Forall (agg_valid tys) aggs → gs ≠ [] ∨ aggs ≠ [] →
  Forall (gb_dicts gs U) bs → Z.of_nat (length U) < 2 ^ 32 → Z.of_nat (length (all_rows bs)) < 2 ^ 63 →
  let result := agg_result tys gs aggs (r_cells <$> all_rows bs) in
  (∀ j, weight (col_at j result) ≤ W) → W < 2 ^ 32 →
  ∃ h, NewHashAggregate child gs aggs = Ret h ∧ OpSchema h = agg_schema (OpSchema child) gs aggs ∧
  match o with
  | Some e => runs h [] (Some e)
  | None => ∃ out, runs h out None ∧ Forall (batch_wf (Type_ <$> OpSchema h) W) out ∧ Forall whole out ∧
      r_cells <$> all_rows out ≡ₚ result
  end.
Proof.
  intros Hr Hbs Hf Hs Hreal Hgs Haggs Hne Hdict HU Hlen result Hw HW.
  destruct (NewHashAggregate_spec tys gs aggs Hgs Haggs Hne child Hs) as (c & -> & Hgc & Hac & Hc & Hsch & Hfields).
  eexists. split; [done|]. split; [exact Hfields|]. cbn [OpSchema agg_operator conf]. rewrite Hsch. pose proof (rows_row_ok tys D bs Hbs Hf) as Hok. set (rs := r_cells <$> all_rows bs) in *.
  assert (Hlr : Z.of_nat (length rs) < 2 ^ 63) by (unfold rs; by rewrite length_fmap).
  assert (Hin : Forall (input_ok tys D c U) bs) by by apply inputs_ok; rewrite ?Hgc.
  destruct (consumes tys D c U Hc HU bs Hin) as (s & Efold & s' & ks & Eend & Hcons). fold rs in Hcons.
  destruct (drain_spec _ _ _ _ _ _ Hr Efold) as (child' & m & Hdrain).
  assert (Hca : ∀ fuel, (m ≤ fuel)%nat → consumeAll fuel (mkHashAggregate child c initMaps false 0) =
    on_ret (match o with None => Ret () | Some e => Err e end) (mkHashAggregate child' c s false 0)
      (λ _, (Ret (), mkHashAggregate child' c s' false 0))).
  { intros fuel Hfuel. unfold consumeAll. cbn [conf ha_child]. rewrite Hdrain by done. destruct o as [e|]; [done|]. cbn [on_ret with_state conf].
    unfold endOfInput in Eend. destruct (enabled (intKey s) && _); [by rewrite Eend|by injection Eend as <-]. }
  destruct o as [e|].
  { eapply runs_error. exists m. intros fuel Hfuel. cbn [Next agg_operator]. unfold agg_next. cbn [ha_done]. by rewrite Hca. }
  destruct (finish c s' ks rs child' (mkHashAggregate child c initMaps false 0)) as (out & Hout); [done..| |].
  - exists m. intros fuel Hfuel. cbn [Next agg_operator]. unfold agg_next at 1. cbn [ha_done]. by rewrite Hca.
  - by exists out.
Qed.

End AggRows.

(** SELECT key, COUNT( * ), SUM, MIN, COUNT(DISTINCT): two batches, the second
    through a selection and with another dictionary, a NULL key, a NULL value. *)
Definition agg_batches : list Batch :=
  let schema := [mkField "k" TypeString EncDict true; mkField "x" TypeInt64 EncPlain true] in
  let dict keys := Some (mkDictionary (dict_offsets keys) (dict_data keys) []) in
  [mkBatch schema [StringVector [0; 1; 0; 0] (dict ["a"; "b"]%string) [7]; Int64Vector [5; -3; 9; 1] [11]] 4 None;
   mkBatch schema [StringVector [1; 0; 0] (dict ["c"; "b"]%string) [7]; Int64Vector [4; 8; 8] [7]] 2 (Some [0; 2])].
Definition agg_exprs : list AggExpr :=
  [mkAggExpr AggCount (-1) "n" false (TypeOther 0); mkAggExpr AggSum 1 "s" false (TypeOther 0);
   mkAggExpr AggMin 1 "m" false (TypeOther 0)].
Definition agg_exprs_result : list cells :=
  [[Some (CStr "a"); Some (CInt 2); Some (CInt 5); Some (CInt 5)];
   [Some (CStr "b"); Some (CInt 2); Some (CInt 1); Some (CInt (-3))];
   [None; Some (CInt 1); Some (CInt 1); Some (CInt 1)];
   [Some (CStr "c"); Some (CInt 1); Some (CInt 8); Some (CInt 8)]].
Example agg_example :
  (h ← NewHashAggregate (given agg_batches) [0] agg_exprs;
   match Next 9 h with (Ret (Some b), _) => Ret (r_cells <$> rows_of b) | _ => Panic end)
  = Ret [[None; Some (CInt 1); Some (CInt 1); Some (CInt 1)];
         [Some (CStr "a"); Some (CInt 2); Some (CInt 5); Some (CInt 5)];
         [Some (CStr "b"); Some (CInt 2); Some (CInt 1); Some (CInt (-3))];
         [Some (CStr "c"); Some (CInt 1); Some (CInt 8); Some (CInt 8)]].
Proof. vm_compute. reflexivity. Qed.
Lemma agg_batches_dicts : Forall (gb_dicts [0] ["a"; "b"; "c"]%string) agg_batches.
Proof.
  repeat constructor; intros codes dict nb [= <- <- <-];
    [exists (mkDictionary (dict_offsets ["a"; "b"]%string) (dict_data ["a"; "b"]%string) []), ["a"; "b"]%string
    |exists (mkDictionary (dict_offsets ["c"; "b"]%string) (dict_data ["c"; "b"]%string) []), ["c"; "b"]%string].
  all: split; [done|]; split; [done|]; split; [apply dict_inv_fresh|]; set_solver.
Qed.
Lemma agg_batches_wf : Forall (batch_wf [TypeString; TypeInt64] 4) agg_batches.
Proof.
  assert (Hs : ∀ codes keys nb n, (length codes ≤ n)%nat → NoDup keys → dict_fits keys → length nb = 1%nat → (length codes ≤ 8)%nat →
    Forall (λ x, ∃ k s, x = Z.of_nat k ∧ keys !! k = Some s) codes →
    vec_ok (StringVector codes (Some (mkDictionary (dict_offsets keys) (dict_data keys) [])) nb)).
  { intros codes keys nb n _ Hnd Hf Hn Hl Hall. split; [split; [cbn; lia|done]|]. exists keys. split; [done|]. split; [done|].
    split; [apply dict_inv_fresh|]. intros i x Hx _. exact (Forall_lookup_1 _ _ _ _ Hall Hx). }
  assert (Hv : ∀ codes keys nb vs nb', length codes = length vs → (length codes ≤ 8)%nat → NoDup keys → dict_fits keys →
    length nb = 1%nat → length nb' = 1%nat → Forall (λ x, ∃ k s, x = Z.of_nat k ∧ keys !! k = Some s) codes →
    Z.of_nat (length keys + length (dict_data keys)) ≤ 4 →
    Forall2 (λ v t, vec_ok v ∧ VType v = t ∧ Len v = length vs ∧ dict_size v ≤ 4)
      [StringVector codes (Some (mkDictionary (dict_offsets keys) (dict_data keys) [])) nb; Int64Vector vs nb'] [TypeString; TypeInt64]).
  { intros codes keys nb vs nb' Hl H8 Hnd Hf Hn Hn' Hall Hd. constructor; [|constructor; [|constructor]].
    - split; [by apply (Hs _ _ _ 8%nat)|]. split; [done|]. split; [done|]. unfold dict_size. cbn. rewrite length_dict_offsets. lia.
    - split; [split; [split; cbn; [lia|done]|done]|done]. }
  constructor; [|constructor; [|constructor]]; (split; [split; [done|]|]).
  1: apply (Hv [0; 1; 0; 0] ["a"; "b"]%string [7] [5; -3; 9; 1] [11]).
  10: apply (Hv [1; 0; 0] ["c"; "b"]%string [7] [4; 8; 8] [7]).
  all: try (by apply (bool_decide_unpack _)); try done; try (cbn; lia).
  1, 2: repeat constructor; ((by exists 0%nat; eexists) || (by exists 1%nat; eexists)).
  all: split; [done|]; split; [done|]; split; [repeat constructor; vm_compute; lia|]; by repeat constructor.
Qed.
