(* ===== verification/RowStore.v ===== *)
(** * Package exec: the rows of a join's build side ([exec/join_table.go])

    [rowStore] keeps rows in flat row-major arrays that grow by doubling.  The
    arrays are slices with their capacity, so growth and the zeroed tail that
    [reserve] exposes are visible.  The theorems: whatever the growth, reading
    row [i] gives the [i]-th row appended, and a store told its row count never
    grows. *)
From Stdlib Require Import ZArith Lia ZifyNat.
From stdpp Require Import base numbers list strings gmap.
From S2P Require Import Prelude Encoding Codec Float64 Schema Writer Reader Batch Scratch VExpr VKernel VCase VExprSpec Operator Distinct Sorting Emit Sort.
#[local] Open Scope Z_scope.

(** ** Slices of any element *)

(** [make([]T, n, c)]. *)
Definition sl_make {A} (zero : A) (n c : nat) : sliceOf A := mkSlc (replicate c zero) n.
Definition sl_get {A} (s : sliceOf A) (i : Z) : go A :=
  if decide (i < 0) then Panic else index (s_data s) (Z.to_nat i).
Definition sl_set {A} (s : sliceOf A) (i : Z) (x : A) : go (sliceOf A) :=
  if decide (0 ≤ i ∧ i < Z.of_nat (s_len s)) then Ret (mkSlc (<[Z.to_nat i := x]> (arr s)) (s_len s)) else Panic.
(** [s[:n]], which may extend the slice into its capacity. *)
Definition sl_reslice {A} (s : sliceOf A) (n : nat) : go (sliceOf A) :=
  if decide (n ≤ s_cap s)%nat then Ret (s_reslice s n) else Panic.
(** [copy(dst[lo:lo+n], src[from:from+n])]. *)
Definition sl_copy {A} (dst : sliceOf A) (lo : nat) (src : sliceOf A) (from n : nat) : go (sliceOf A) :=
  if decide (lo + n ≤ s_cap dst)%nat then
    data ← slice (arr src) from (from + n);
    Ret (mkSlc (take lo (arr dst) ++ data ++ drop (lo + n) (arr dst)) (s_len dst))
  else Panic.

(** ** The store *)

Definition noRow : Z := -1.
Definition maxBuildRows : Z := 2 ^ 31 - 1.
Definition rowStoreMinRows : Z := 8.

Record rowStore : Type := mkRowStore {
  numCols : nat; strWidth : nat; strSlot : list Z;
  st_values : sliceOf Z; strs : sliceOf string; st_nulls : sliceOf bool; next : sliceOf Z;
  st_n : Z; capRows : Z; grows : Z
}.
Definition set_arrays (s : rowStore) (vs : sliceOf Z) (ss : sliceOf string) (ns : sliceOf bool) (nx : sliceOf Z) : rowStore :=
  mkRowStore (numCols s) (strWidth s) (strSlot s) vs ss ns nx (st_n s) (capRows s) (grows s).
Definition set_next (s : rowStore) (nx : sliceOf Z) : rowStore :=
  set_arrays s (st_values s) (strs s) (st_nulls s) nx.

(** The slot of each string column, and how many there are. *)
Definition strSlots (schema : Schema) : list Z * nat :=
  foldl (λ '(slots, w) f, match Type_ f with
    | TypeString => (slots ++ [Z.of_nat w], S w)
    | _ => (slots ++ [-1], w)
    end) ([], 0%nat) schema.
Definition newRowStore (schema : Schema) (cap : Z) : rowStore :=
  let nc := length schema in
  let '(slots, w) := strSlots schema in
  if decide (0 < cap) then
    let c := Z.to_nat cap in
    mkRowStore nc w slots (sl_make 0 0 (c * nc)) (if decide (0 < w)%nat then sl_make ""%string 0 (c * w) else mkSlc [] 0)
      (sl_make false 0 (c * nc)) (sl_make 0 0 c) 0 cap 0
  else mkRowStore nc w slots (mkSlc [] 0) (mkSlc [] 0) (mkSlc [] 0) (mkSlc [] 0) 0 0 0.

Definition presizeRows (rows : Z) : Z := if decide (rows ≤ 0 ∨ maxBuildRows < rows) then 0 else rows.

Definition newSizedRowStore (schema : Schema) (rows : Z) : rowStore :=
  let s := newRowStore schema 0 in
  let r := Z.to_nat rows in
  mkRowStore (numCols s) (strWidth s) (strSlot s)
    (sl_make 0 (r * numCols s) (r * numCols s))
    (if decide (0 < strWidth s)%nat then sl_make ""%string (r * strWidth s) (r * strWidth s) else strs s)
    (sl_make false (r * numCols s) (r * numCols s)) (sl_make 0 r r) (to_i32 rows) rows (grows s).

(** ** Growth *)

Definition nextRowCap (cur need : Z) : Z :=
  let capRows := cur * 2 in
  let capRows := if decide (capRows < need) then need else capRows in
  let capRows := if decide (capRows < rowStoreMinRows) then rowStoreMinRows else capRows in
  if decide (maxBuildRows < capRows) then maxBuildRows else capRows.

(** A new array of capacity [c] with [s]'s elements. *)
Definition regrow {A} (zero : A) (s : sliceOf A) (c : nat) : sliceOf A :=
  mkSlc (copy (replicate c zero) (s_data s)) (s_len s).
Definition reallocate (s : rowStore) (rows : Z) : rowStore :=
  let c := nextRowCap (capRows s) rows in
  let n := Z.to_nat c in
  mkRowStore (numCols s) (strWidth s) (strSlot s)
    (regrow 0 (st_values s) (n * numCols s))
    (if decide (0 < strWidth s)%nat then regrow ""%string (strs s) (n * strWidth s) else strs s)
    (regrow false (st_nulls s) (n * numCols s)) (regrow 0 (next s) n) (st_n s) c (grows s + 1).

Definition reserve (s : rowStore) : go (Z * rowStore) :=
  if decide (maxBuildRows ≤ st_n s) then Err (ErrMsg "exec: hash join: build side exceeds the row limit") else
  let row := st_n s in
  let rows := row + 1 in
  let s := mkRowStore (numCols s) (strWidth s) (strSlot s) (st_values s) (strs s) (st_nulls s) (next s)
             rows (capRows s) (grows s) in
  let s := if decide (capRows s < rows) then reallocate s rows else s in
  let r := Z.to_nat rows in
  vs ← sl_reslice (st_values s) (r * numCols s);
  ns ← sl_reslice (st_nulls s) (r * numCols s);
  nx ← sl_reslice (next s) r;
  ss ← (if decide (0 < strWidth s)%nat then sl_reslice (strs s) (r * strWidth s) else Ret (strs s));
  Ret (row, set_arrays s vs ss ns nx).

(** ** Writing and reading *)

Definition writeCol (row : Z) (b : Batch) (rowIdx : nat) (s : rowStore) (c : nat) : go rowStore :=
  let vOff := row * Z.of_nat (numCols s) in
  let sOff := row * Z.of_nat (strWidth s) in
  v ← index (Vectors b) c;
  isnull ← IsNull v rowIdx;
  if (isnull : bool) then
    ns ← sl_set (st_nulls s) (vOff + Z.of_nat c) true;
    Ret (set_arrays s (st_values s) (strs s) ns (next s))
  else match v with
  | StringVector codes dict _ =>
      slot ← index (strSlot s) c;
      match dict with
      | Some d =>
          if decide (0 ≤ slot) then
            code ← index codes rowIdx;
            '(x, _) ← Get d code;
            ss ← sl_set (strs s) (sOff + slot) x;
            Ret (set_arrays s (st_values s) ss (st_nulls s) (next s))
          else Ret s
      | None => Ret s
      end
  | _ =>
      x ← extractInt64 v rowIdx;
      vs ← sl_set (st_values s) (vOff + Z.of_nat c) x;
      Ret (set_arrays s vs (strs s) (st_nulls s) (next s))
  end.
Definition writeRow (s : rowStore) (row : Z) (b : Batch) (rowIdx : nat) : go rowStore :=
  foldM (writeCol row b rowIdx) s (seq 0 (numCols s)).
Definition appendFrom (s : rowStore) (b : Batch) (rowIdx : nat) : go (Z * rowStore) :=
  '(row, s) ← reserve s;
  s ← writeRow s row b rowIdx;
  Ret (row, s).

Definition setFrom (s : rowStore) (dst : Z) (src : rowStore) (srcRow : Z) : go rowStore :=
  if decide (dst < 0 ∨ srcRow < 0) then Panic else
  let d := Z.to_nat dst in let r := Z.to_nat srcRow in
  vs ← sl_copy (st_values s) (d * numCols s) (st_values src) (r * numCols src) (numCols s);
  ns ← sl_copy (st_nulls s) (d * numCols s) (st_nulls src) (r * numCols src) (numCols s);
  ss ← (if decide (0 < strWidth s)%nat
        then sl_copy (strs s) (d * strWidth s) (strs src) (r * strWidth src) (strWidth s) else Ret (strs s));
  Ret (set_arrays s vs ss ns (next s)).

Definition isNull (s : rowStore) (row : Z) (col : nat) : go bool :=
  sl_get (st_nulls s) (row * Z.of_nat (numCols s) + Z.of_nat col).
Definition st_value (s : rowStore) (row : Z) (col : nat) : go Z :=
  sl_get (st_values s) (row * Z.of_nat (numCols s) + Z.of_nat col).
Definition str (s : rowStore) (row : Z) (col : nat) : go string :=
  slot ← index (strSlot s) col;
  if decide (slot < 0) then Ret ""%string else sl_get (strs s) (row * Z.of_nat (strWidth s) + slot).

(** ** What a store holds *)

(** [s] holds [data], has room for [c] elements, and is zero past its length. *)
Definition holds_data {A} (zero : A) (s : sliceOf A) (data : list A) (c : nat) : Prop :=
  s_len s = length data ∧ ∃ k, arr s = data ++ replicate k zero ∧ (c ≤ length data + k)%nat.

(** A row as the arrays hold it: a word, a NULL flag, and the strings of the
    string columns. *)
Record rawRow : Type := mkRawRow { rw : list Z; rn : list bool; rs : list string }.
Definition raw_word (c : option Cell) : Z := match c with Some c => cell_word c | None => 0 end.
Definition raw_str (c : option Cell) : string := match c with Some (CStr s) => s | _ => ""%string end.
Definition raw_strs (tys : list DataType) (cells : list (option Cell)) : list string :=
  concat (zip_with (λ t c, if decide (t = TypeString) then [raw_str c] else []) tys cells).
Definition raw_row (tys : list DataType) (cells : list (option Cell)) : rawRow :=
  mkRawRow (raw_word <$> cells) ((λ c, bool_decide (c = None)) <$> cells) (raw_strs tys cells).
Definition str_width (tys : list DataType) : nat := length (filter (.= TypeString) tys).
Definition zero_row (tys : list DataType) : rawRow :=
  mkRawRow (replicate (length tys) 0) (replicate (length tys) false) (replicate (str_width tys) ""%string).
Definition row_shape (tys : list DataType) (r : rawRow) : Prop :=
  length (rw r) = length tys ∧ length (rn r) = length tys ∧ length (rs r) = str_width tys.

(** The slot of column [c]. *)
Definition slot_of (tys : list DataType) (c : nat) : Z :=
  if decide (tys !! c = Some TypeString) then Z.of_nat (str_width (take c tys)) else -1.
Definition layout (tys : list DataType) (s : rowStore) : Prop :=
  numCols s = length tys ∧ strWidth s = str_width tys ∧ strSlot s = slot_of tys <$> seq 0 (length tys).

Record store_ok (tys : list DataType) (s : rowStore) (rows : list rawRow) (nx : list Z) : Prop := {
  ok_layout : layout tys s;
  ok_n : st_n s = Z.of_nat (length rows);
  ok_next : length nx = length rows;
  ok_cap : Z.of_nat (length rows) ≤ capRows s;
  ok_shape : Forall (row_shape tys) rows;
  ok_values : holds_data 0 (st_values s) (concat (rw <$> rows)) (Z.to_nat (capRows s) * length tys);
  ok_nulls : holds_data false (st_nulls s) (concat (rn <$> rows)) (Z.to_nat (capRows s) * length tys);
  ok_strs : holds_data ""%string (strs s) (concat (rs <$> rows)) (Z.to_nat (capRows s) * str_width tys);
  ok_links : holds_data 0 (next s) nx (Z.to_nat (capRows s))
}.

(** ** Lemmas: slices *)

Section Slices.
Context {A : Type} (zero : A).
Implicit Types (s : sliceOf A) (data : list A).

Lemma holds_s_data s data c : holds_data zero s data c → s_data s = data.
Proof. intros (Hl & k & E & _). unfold s_data. by rewrite Hl, E, take_app_length. Qed.
Lemma holds_nil : holds_data zero (mkSlc [] 0) [] 0.
Proof. split; [done|]. by exists 0%nat. Qed.
Lemma holds_empty c : holds_data zero (sl_make zero 0 c) [] c.
Proof. split; [done|]. exists c. split; [done|simpl; lia]. Qed.
Lemma holds_full n : holds_data zero (sl_make zero n n) (replicate n zero) n.
Proof.
  split; [by rewrite length_replicate|]. exists 0%nat. cbn. rewrite app_nil_r, length_replicate. split; [done|lia].
Qed.
Lemma sl_get_spec s data c i x :
  holds_data zero s data c → data !! i = Some x → sl_get s (Z.of_nat i) = Ret x.
Proof.
  intros Hs Hi. unfold sl_get. rewrite decide_False by lia. rewrite (holds_s_data _ _ _ Hs), Nat2Z.id. by apply index_Ret.
Qed.
Lemma sl_set_spec s data c i x :
  holds_data zero s data c → (i < length data)%nat →
  ∃ s', sl_set s (Z.of_nat i) x = Ret s' ∧ holds_data zero s' (<[i:=x]> data) c.
Proof.
  intros (Hl & k & E & Hc) Hi. unfold sl_set. rewrite decide_True by lia. eexists. split; [done|].
  split; cbn [s_len arr]; rewrite length_insert; [done|]. exists k. split; [|done].
  by rewrite Nat2Z.id, E, insert_app_l.
Qed.
Lemma sl_reslice_spec s data c m :
  holds_data zero s data c → (length data + m ≤ c)%nat →
  ∃ s', sl_reslice s (length data + m) = Ret s' ∧ holds_data zero s' (data ++ replicate m zero) c.
Proof.
  intros (Hl & k & E & Hc) Hm. unfold sl_reslice, s_cap. rewrite E, length_app, length_replicate, decide_True by lia.
  eexists. split; [done|]. unfold s_reslice. split; cbn [s_len arr]; rewrite length_app, length_replicate; [done|].
  exists (k - m)%nat. split; [|lia]. rewrite E, <- app_assoc, <- replicate_add. do 2 f_equal. lia.
Qed.
Lemma regrow_spec s data c c' :
  holds_data zero s data c → (length data ≤ c')%nat → holds_data zero (regrow zero s c') data c'.
Proof.
  intros Hs Hc. pose proof (holds_s_data _ _ _ Hs) as E. destruct Hs as (Hl & _).
  split; [done|]. exists (c' - length data)%nat. unfold regrow. cbn [arr]. rewrite E. split; [|lia].
  unfold copy. by rewrite length_replicate, take_ge, drop_replicate by done.
Qed.
Lemma sl_copy_spec s l1 l2 mid c src sdata sc from new :
  holds_data zero s (l1 ++ mid ++ l2) c → holds_data zero src sdata sc →
  (∃ l3 l4, sdata = l3 ++ new ++ l4 ∧ length l3 = from) → length mid = length new →
  ∃ s', sl_copy s (length l1) src from (length new) = Ret s' ∧ holds_data zero s' (l1 ++ new ++ l2) c.
Proof.
  intros (Hl & k & E & Hc) (Hl' & k' & E' & _) (l3 & l4 & -> & <-) Hm. rewrite !length_app in *. unfold sl_copy, s_cap.
  rewrite decide_True by (rewrite E, !length_app; lia).
  rewrite slice_Ret by (rewrite ?E', ?length_app; lia). cbn [mbind go_bind]. eexists. split; [done|].
  split; cbn [s_len arr]; rewrite !length_app; [lia|]. exists k. split; [|lia].
  rewrite E, E', <- !app_assoc, take_app_length, drop_app_length.
  replace (length l3 + length new - length l3)%nat with (length new) by lia. rewrite take_app_length.
  rewrite <- Hm, <- drop_drop, drop_app_length, drop_app_length. done.
Qed.
End Slices.

(** ** Lemmas: rows in flat arrays *)

Lemma concat_split {R A} (f : R → list A) w (l : list R) r x :
  Forall (λ y, length (f y) = w) l → l !! r = Some x →
  concat (f <$> l) = concat (f <$> take r l) ++ f x ++ concat (f <$> drop (S r) l) ∧
  length (concat (f <$> take r l)) = (r * w)%nat.
Proof.
  intros Hw Hx. split.
  - rewrite <- (take_drop_middle l r x Hx) at 1. rewrite fmap_app, concat_app. done.
  - assert (Hlen : ∀ l', Forall (λ y, length (f y) = w) l' → length (concat (f <$> l')) = (length l' * w)%nat).
    { intros l'. induction 1 as [|y l' Hy _ IH]; [done|]. cbn [fmap list_fmap concat length]. rewrite length_app. lia. }
    rewrite Hlen by by apply Forall_take. rewrite length_take. apply lookup_lt_Some in Hx. f_equal. lia.
Qed.
Lemma concat_lookup {R A} (f : R → list A) w (l : list R) r x c :
  Forall (λ y, length (f y) = w) l → l !! r = Some x → (c < w)%nat →
  concat (f <$> l) !! (r * w + c)%nat = f x !! c.
Proof.
  intros Hw Hx Hc. destruct (concat_split f w l r x Hw Hx) as [-> Hl].
  rewrite lookup_app_r by lia. rewrite lookup_app_l; [f_equal; lia|].
  pose proof (Forall_lookup_1 _ _ _ _ Hw Hx) as E. simpl in E. lia.
Qed.
Lemma concat_snoc {R A} (f : R → list A) l x : concat (f <$> (l ++ [x])) = concat (f <$> l) ++ f x.
Proof. rewrite fmap_app, concat_app. cbn. by rewrite app_nil_r. Qed.

(** ** Lemmas: construction *)

Lemma str_width_snoc l t : str_width (l ++ [t]) = (str_width l + if decide (t = TypeString) then 1 else 0)%nat.
Proof. unfold str_width. rewrite filter_app, length_app. f_equal. cbn. by case_decide. Qed.
Lemma strSlots_spec schema :
  strSlots schema = (slot_of (Type_ <$> schema) <$> seq 0 (length schema), str_width (Type_ <$> schema)).
Proof.
  unfold strSlots. induction schema as [|f schema IH] using rev_ind; [done|].
  rewrite foldl_app, IH. cbn [foldl]. rewrite length_app, seq_app, !fmap_app. cbn [seq fmap list_fmap length Nat.add].
  assert (E : slot_of ((Type_ <$> schema) ++ [Type_ f]) <$> seq 0 (length schema)
    = slot_of (Type_ <$> schema) <$> seq 0 (length schema)).
  { apply list_fmap_ext. intros _ c Hc%list_elem_of_lookup_2%elem_of_seq. unfold slot_of.
    rewrite lookup_app_l, take_app_le by (rewrite length_fmap; lia). done. }
  assert (Es : slot_of ((Type_ <$> schema) ++ [Type_ f]) (length schema)
    = if decide (Type_ f = TypeString) then Z.of_nat (str_width (Type_ <$> schema)) else -1).
  { unfold slot_of. rewrite <- (length_fmap Type_ schema), lookup_snoc_last, take_app_length.
    destruct (decide (Type_ f = TypeString)) as [->|Hne]; [by rewrite decide_True|]. rewrite decide_False; [done|congruence]. }
  rewrite E, Es, str_width_snoc. destruct (Type_ f); cbn [decide]; rewrite ?Nat.add_0_r, ?Nat.add_1_r; try done.
Qed.

Definition zero_next (n : nat) : list Z := replicate n 0.
Lemma newRowStore_ok schema cap :
  store_ok (Type_ <$> schema) (newRowStore schema cap) [] [] ∧
  capRows (newRowStore schema cap) = Z.max 0 cap ∧ grows (newRowStore schema cap) = 0.
Proof.
  unfold newRowStore. rewrite strSlots_spec. set (w := str_width (Type_ <$> schema)).
  destruct (decide (0 < cap)) as [Hc|Hc]; (split; [|cbn; lia]).
  - split; cbn [st_n capRows st_values st_nulls strs next length fmap list_fmap concat]; rewrite ?length_fmap; try done; try lia.
    + repeat split. cbn [numCols]. by rewrite length_fmap.
      cbn [strSlot]. by rewrite length_fmap.
    + apply holds_empty.
    + apply holds_empty.
    + case_decide; [apply holds_empty|]. fold w. replace w with 0%nat by lia. rewrite Nat.mul_0_r. apply holds_nil.
    + apply holds_empty.
  - split; cbn [st_n capRows st_values st_nulls strs next length fmap list_fmap concat]; try done; try lia; try apply holds_nil.
    repeat split; cbn [numCols strSlot]; by rewrite length_fmap.
Qed.

Lemma concat_replicate {A} (x : A) n w : concat (replicate n (replicate w x)) = replicate (n * w) x.
Proof. induction n as [|n IH]; [done|]. cbn. by rewrite IH, replicate_add. Qed.
Lemma zero_shape tys : row_shape tys (zero_row tys).
Proof. split_and!; apply length_replicate. Qed.
Lemma newSizedRowStore_ok schema rows :
  Z.of_nat rows ≤ maxBuildRows →
  let tys := Type_ <$> schema in
  store_ok tys (newSizedRowStore schema (Z.of_nat rows)) (replicate rows (zero_row tys)) (replicate rows 0).
Proof.
  intros Hr tys. unfold newSizedRowStore, newRowStore. rewrite strSlots_spec. fold tys.
  rewrite decide_False by lia. cbn [numCols strWidth strSlot strs grows]. rewrite Nat2Z.id.
  assert (Hn : length schema = length tys) by (unfold tys; by rewrite length_fmap). rewrite Hn.
  split; cbn [st_n capRows st_values st_nulls strs next]; rewrite ?length_replicate, ?fmap_replicate, ?Nat2Z.id; cbn [rw rn rs zero_row];
    rewrite ?concat_replicate; try done; try lia; try apply holds_full.
  - rewrite wrapS_id; [done|done|]. unfold inS, maxBuildRows in *. lia.
  - apply Forall_replicate, zero_shape.
  - case_decide; [apply holds_full|]. replace (str_width tys) with 0%nat by lia. rewrite Nat.mul_0_r. apply holds_nil.
Qed.

(** ** Lemmas: growth *)

Lemma nextRowCap_spec cur need :
  0 ≤ cur → 0 ≤ need ≤ maxBuildRows → need ≤ nextRowCap cur need ≤ maxBuildRows.
Proof. unfold nextRowCap, rowStoreMinRows, maxBuildRows. intros. repeat case_decide; lia. Qed.

Lemma rows_lengths tys rows :
  Forall (row_shape tys) rows →
  length (concat (rw <$> rows)) = (length rows * length tys)%nat ∧ length (concat (rn <$> rows)) = (length rows * length tys)%nat ∧
  length (concat (rs <$> rows)) = (length rows * str_width tys)%nat.
Proof.
  induction 1 as [|r rows (H1 & H2 & H3) _ (I1 & I2 & I3)]; [done|]. cbn [fmap list_fmap concat length]. rewrite !length_app. lia.
Qed.

Lemma reallocate_ok tys s rows nx need :
  store_ok tys s rows nx → Z.of_nat (length rows) ≤ need ≤ maxBuildRows →
  store_ok tys (reallocate s need) rows nx ∧ need ≤ capRows (reallocate s need) ∧
  grows (reallocate s need) = grows s + 1.
Proof.
  intros [(Hnc & Hsw & Hsl) Hn Hnx Hcap Hsh Hv Hu Hs Hl] Hneed.
  destruct (nextRowCap_spec (capRows s) need) as [H1 H2]; [lia..|].
  destruct (rows_lengths _ _ Hsh) as (L1 & L2 & L3).
  split; [|done]. unfold reallocate. split; cbn [st_n capRows st_values st_nulls strs next]; rewrite ?Hnc, ?Hsw; try done; try lia.
  - eapply regrow_spec; [done|]. rewrite L1. apply Nat.mul_le_mono_r. lia.
  - eapply regrow_spec; [done|]. rewrite L2. apply Nat.mul_le_mono_r. lia.
  - case_decide as Hw.
    + eapply regrow_spec; [done|]. rewrite L3. apply Nat.mul_le_mono_r. lia.
    + replace (str_width tys) with 0%nat in * by lia. rewrite Nat.mul_0_r in *. exact Hs.
  - eapply regrow_spec; [done|]. lia.
Qed.

Lemma reserve_spec tys s rows nx :
  store_ok tys s rows nx → Z.of_nat (length rows) < maxBuildRows →
  ∃ s', reserve s = Ret (Z.of_nat (length rows), s') ∧ store_ok tys s' (rows ++ [zero_row tys]) (nx ++ [0]) ∧
    (Z.of_nat (length rows) < capRows s → capRows s' = capRows s ∧ grows s' = grows s).
Proof.
  intros Hok Hmax. unfold reserve. rewrite (ok_n _ _ _ _ Hok), decide_False by lia.
  set (rows1 := Z.of_nat (length rows) + 1).
  set (s1 := mkRowStore _ _ _ _ _ _ _ rows1 _ _). cbn [capRows s1].
  set (s2 := if decide (capRows s < rows1) then reallocate s1 rows1 else s1).
  assert (H2 : layout tys s2 ∧ st_n s2 = rows1 ∧ rows1 ≤ capRows s2 ∧
    holds_data 0 (st_values s2) (concat (rw <$> rows)) (Z.to_nat (capRows s2) * length tys) ∧
    holds_data false (st_nulls s2) (concat (rn <$> rows)) (Z.to_nat (capRows s2) * length tys) ∧
    holds_data ""%string (strs s2) (concat (rs <$> rows)) (Z.to_nat (capRows s2) * str_width tys) ∧
    holds_data 0 (next s2) nx (Z.to_nat (capRows s2)) ∧
    (Z.of_nat (length rows) < capRows s → capRows s2 = capRows s ∧ grows s2 = grows s)).
  { unfold s2. case_decide as Hg.
    - destruct (reallocate_ok tys s rows nx rows1 Hok) as ([Hlay _ _ _ _ Hv Hu Hs Hl] & Hc & _); [lia|].
      split_and!; try done. lia.
    - destruct Hok. split_and!; try done. cbn [s1 capRows]. lia. }
  destruct H2 as ((Hnc & Hsw & Hsl) & Hn & Hcap & Hv & Hu & Hs & Hl & Hcp). clearbody s2.
  destruct (rows_lengths _ _ (ok_shape _ _ _ _ Hok)) as (L1 & L2 & L3).
  replace (Z.to_nat rows1) with (length rows + 1)%nat by lia. rewrite Hnc, Hsw.
  destruct (sl_reslice_spec 0 _ _ _ (length tys) Hv) as (vs & Ev & Hvs); [rewrite L1; nia|].
  destruct (sl_reslice_spec false _ _ _ (length tys) Hu) as (ns & En & Hns); [rewrite L2; nia|].
  destruct (sl_reslice_spec 0 _ _ _ 1 Hl) as (nxs & Ex & Hnxs); [rewrite (ok_next _ _ _ _ Hok); lia|].
  destruct (sl_reslice_spec ""%string _ _ _ (str_width tys) Hs) as (ss & Es & Hss); [rewrite L3; nia|].
  rewrite L1 in Ev. rewrite L2 in En. rewrite L3 in Es. rewrite (ok_next _ _ _ _ Hok) in Ex.
  rewrite !Nat.mul_add_distr_r, !Nat.mul_1_l, Ev, En, Ex. cbn [mbind go_bind].
  assert (Ess : ∃ ss', (if decide (0 < str_width tys)%nat then sl_reslice (strs s2) (length rows * str_width tys + str_width tys)
      else Ret (strs s2)) = Ret ss' ∧
    holds_data ""%string ss' (concat (rs <$> (rows ++ [zero_row tys]))) (Z.to_nat (capRows s2) * str_width tys)).
  { rewrite concat_snoc. case_decide as Hw; [exists ss; by rewrite Es|]. exists (strs s2). split; [done|].
    cbn [rs zero_row]. replace (str_width tys) with 0%nat in * by lia. cbn [replicate]. by rewrite app_nil_r. }
  destruct Ess as (ss' & -> & Hss'). cbn [mbind go_bind]. eexists. split; [done|]. split; [|done].
  unfold set_arrays. split; cbn [st_n capRows st_values st_nulls strs next]; rewrite ?concat_snoc, ?length_app; try done; cbn [length]; try lia.
  - rewrite (ok_next _ _ _ _ Hok). lia.
  - apply Forall_app. split; [by eapply ok_shape|]. apply List.Forall_cons; [apply zero_shape|done].
  - by rewrite <- concat_snoc.
Qed.
Lemma reserve_full tys s rows nx :
  store_ok tys s rows nx → maxBuildRows ≤ Z.of_nat (length rows) → ∃ e, reserve s = Err e.
Proof. intros Hok Hm. unfold reserve. rewrite (ok_n _ _ _ _ Hok), decide_True by lia. eauto. Qed.

(** ** Lemmas: writing a row *)

Lemma resize_snoc {A} (z : A) w d x :
  (length d < w)%nat → resize w z (d ++ [x]) = <[length d := x]> (resize w z d).
Proof.
  intros Hd. rewrite !resize_spec, !take_ge by (rewrite ?length_app; cbn; lia). rewrite length_app. cbn [length].
  replace (w - length d)%nat with (S (w - (length d + 1))) by lia. cbn [replicate].
  rewrite <- app_assoc. rewrite insert_app_r_alt by lia. by rewrite Nat.sub_diag.
Qed.
Lemma resize_zero {A} (z : A) w d : (length d < w)%nat → resize w z (d ++ [z]) = resize w z d.
Proof.
  intros Hd. rewrite !resize_spec, !take_ge by (rewrite ?length_app; cbn; lia). rewrite length_app. cbn [length].
  replace (w - length d)%nat with (S (w - (length d + 1))) by lia. cbn [replicate]. by rewrite <- app_assoc.
Qed.
Lemma set_last {A} (z : A) s l w d c x i :
  holds_data z s (l ++ resize w z d) c → (length d < w)%nat → i = Z.of_nat (length l + length d) →
  ∃ s', sl_set s i x = Ret s' ∧ holds_data z s' (l ++ resize w z (d ++ [x])) c.
Proof.
  intros Hs Hd ->. destruct (sl_set_spec z _ _ _ (length l + length d) x Hs) as (s' & E & Hs').
  { rewrite length_app, length_resize. lia. }
  exists s'. split; [done|]. rewrite insert_app_r in Hs'. by rewrite resize_snoc.
Qed.

(** The part of a row its first columns fill, zero after it. *)
Definition padded (tys : list DataType) (r : rawRow) : rawRow :=
  mkRawRow (resize (length tys) 0 (rw r)) (resize (length tys) false (rn r)) (resize (str_width tys) ""%string (rs r)).
Definition snoc_row (r : rawRow) (t : DataType) (c : option Cell) : rawRow :=
  mkRawRow (rw r ++ [raw_word c]) (rn r ++ [bool_decide (c = None)])
    (rs r ++ if decide (t = TypeString) then [raw_str c] else []).

Lemma raw_row_snoc tys cells t c :
  length tys = length cells → raw_row (tys ++ [t]) (cells ++ [c]) = snoc_row (raw_row tys cells) t c.
Proof.
  intros Hl. unfold raw_row, snoc_row, raw_strs. rewrite !fmap_app, zip_with_app, concat_app by done.
  cbn [zip_with concat rw rn rs fmap list_fmap]. by rewrite app_nil_r.
Qed.
Lemma raw_shape tys cells : length cells = length tys → row_shape tys (raw_row tys cells).
Proof.
  intros Hl. split_and!; cbn [raw_row rw rn rs]; rewrite ?length_fmap; try done.
  revert cells Hl. induction tys as [|t tys IH] using rev_ind; intros cells Hl.
  - by destruct cells.
  - destruct cells as [|c cells _] using rev_ind; rewrite !length_app in Hl; cbn in Hl; [lia|].
    change (raw_strs (tys ++ [t]) (cells ++ [c])) with (rs (raw_row (tys ++ [t]) (cells ++ [c]))).
    rewrite raw_row_snoc by lia. cbn [snoc_row rs raw_row]. rewrite length_app, IH, str_width_snoc by lia. by case_decide.
Qed.
Lemma padded_full tys r : row_shape tys r → padded tys r = r.
Proof.
  destruct r as [a b c]. intros (H1 & H2 & H3). cbn in *. unfold padded. cbn. f_equal; apply resize_all_alt; done.
Qed.

Lemma set_arrays_ok tys s rows r r' nx vs ss ns :
  store_ok tys s (rows ++ [r]) nx → row_shape tys r' →
  holds_data 0 vs (concat (rw <$> rows) ++ rw r') (Z.to_nat (capRows s) * length tys) →
  holds_data false ns (concat (rn <$> rows) ++ rn r') (Z.to_nat (capRows s) * length tys) →
  holds_data ""%string ss (concat (rs <$> rows) ++ rs r') (Z.to_nat (capRows s) * str_width tys) →
  store_ok tys (set_arrays s vs ss ns (next s)) (rows ++ [r']) nx.
Proof.
  intros [Hlay Hn Hnx Hcap Hsh _ _ _ Hl] Hr Hv Hu Hs. apply Forall_app in Hsh as [Hsh _].
  split; cbn [set_arrays st_n capRows st_values st_nulls strs next]; rewrite ?concat_snoc, ?length_app in *; try done.
  apply Forall_app. split; [done|]. by apply List.Forall_cons.
Qed.

(** What column [c] adds to the padded row: zero adds nothing. *)
Lemma pad_word0 tys r t c :
  raw_word c = 0 → (length (rw r) < length tys)%nat → rw (padded tys (snoc_row r t c)) = rw (padded tys r).
Proof. intros E Hl. cbn [padded snoc_row rw]. by rewrite E, resize_zero. Qed.
Lemma pad_flag0 tys r t x :
  (length (rn r) < length tys)%nat → rn (padded tys (snoc_row r t (Some x))) = rn (padded tys r).
Proof. intros Hl. cbn [padded snoc_row rn]. by rewrite bool_decide_eq_false_2, resize_zero. Qed.
Lemma pad_str0 tys r t c :
  t ≠ TypeString ∨ raw_str c = ""%string ∧ (length (rs r) < str_width tys)%nat →
  rs (padded tys (snoc_row r t c)) = rs (padded tys r).
Proof.
  intros H. cbn [padded snoc_row rs]. case_decide; [|by rewrite app_nil_r].
  destruct H as [? | [-> Hl]]; [done|by rewrite resize_zero].
Qed.
Lemma pad_shape tys r : row_shape tys (padded tys r).
Proof. split_and!; apply length_resize. Qed.
Lemma string_room tys k : tys !! k = Some TypeString → (str_width (take k tys) < str_width tys)%nat.
Proof.
  intros Ht. rewrite <- (take_drop_middle tys k _ Ht) at 2. unfold str_width.
  rewrite filter_app, filter_cons, decide_True, length_app by done. cbn. lia.
Qed.

Section WriteRow.
Context (tys : list DataType) (D : Z) (b : Batch) (i : nat) (rows : list rawRow) (nx : list Z).
Context (Hb : batch_ok tys D b) (Hi : (i < evalLen b)%nat).
Abbreviation cells := (r_cells (row_at b i)).
Abbreviation prefix k := (raw_row (take k tys) (take k cells)).
(** [s] after writing some columns of the row at its end. *)
Definition writing (s : rowStore) (r : rawRow) : Prop := store_ok tys s (rows ++ [padded tys r]) nx.
Definition off (w k : nat) : Z := Z.of_nat (length rows) * Z.of_nat w + Z.of_nat k.

Lemma cells_length : length cells = length tys.
Proof using Hb. destruct Hb as [_ Hvs]. cbn [row_at r_cells]. rewrite length_fmap. by eapply Forall2_length. Qed.
Lemma prefix_shape k :
  (k ≤ length tys)%nat →
  length (rw (prefix k)) = k ∧ length (rn (prefix k)) = k ∧ length (rs (prefix k)) = str_width (take k tys).
Proof using Hb.
  clear Hi. intros Hk. destruct (raw_shape (take k tys) (take k cells)) as (S1 & S2 & S3).
  { rewrite !length_take, cells_length. done. }
  rewrite length_take in S1, S2. split_and!; (done || lia).
Qed.

Section Put.
Context (s : rowStore) (k : nat) (t : DataType).
Context (Ht : tys !! k = Some t) (Hok : writing s (prefix k)).

Lemma rows_before : Forall (row_shape tys) rows.
Proof using Hok. pose proof (ok_shape _ _ _ _ Hok) as H. by apply Forall_app in H as [? _]. Qed.
(** Replacing the arrays in which column [k] left a mark. *)
Lemma put c vs ss ns :
  holds_data 0 vs (concat (rw <$> rows) ++ rw (padded tys (snoc_row (prefix k) t c))) (Z.to_nat (capRows s) * length tys) →
  holds_data false ns (concat (rn <$> rows) ++ rn (padded tys (snoc_row (prefix k) t c))) (Z.to_nat (capRows s) * length tys) →
  holds_data ""%string ss (concat (rs <$> rows) ++ rs (padded tys (snoc_row (prefix k) t c))) (Z.to_nat (capRows s) * str_width tys) →
  writing (set_arrays s vs ss ns (next s)) (snoc_row (prefix k) t c).
Proof using Hok. clear Hi. intros. eapply set_arrays_ok; [exact Hok|apply pad_shape|done..]. Qed.
Lemma arrays_now :
  holds_data 0 (st_values s) (concat (rw <$> rows) ++ rw (padded tys (prefix k))) (Z.to_nat (capRows s) * length tys) ∧
  holds_data false (st_nulls s) (concat (rn <$> rows) ++ rn (padded tys (prefix k))) (Z.to_nat (capRows s) * length tys) ∧
  holds_data ""%string (strs s) (concat (rs <$> rows) ++ rs (padded tys (prefix k))) (Z.to_nat (capRows s) * str_width tys).
Proof using Hok. rewrite <- !concat_snoc. by destruct Hok. Qed.

Lemma put_null :
  ∃ ns, sl_set (st_nulls s) (off (length tys) k) true = Ret ns ∧
    writing (set_arrays s (st_values s) (strs s) ns (next s)) (snoc_row (prefix k) t None).
Proof using All.
  pose proof (lookup_lt_Some _ _ _ Ht) as Hk. destruct (prefix_shape k) as (S1 & S2 & S3); [lia|].
  destruct arrays_now as (Hv & Hu & Hs). destruct (rows_lengths _ _ rows_before) as (_ & L2 & _).
  destruct (set_last false _ _ _ _ _ true (off (length tys) k) Hu) as (ns & E & Hns); [lia|unfold off; rewrite L2, S2; lia|].
  exists ns. split; [done|]. apply put; [by rewrite pad_word0 by (done || lia)|exact Hns|].
  rewrite pad_str0; [done|]. destruct (decide (t = TypeString)) as [->|]; [|by left]. right. split; [done|].
  rewrite S3. by apply string_room.
Qed.
Lemma put_word x :
  t ≠ TypeString →
  ∃ vs, sl_set (st_values s) (off (length tys) k) (cell_word x) = Ret vs ∧
    writing (set_arrays s vs (strs s) (st_nulls s) (next s)) (snoc_row (prefix k) t (Some x)).
Proof using All.
  intros Hns. pose proof (lookup_lt_Some _ _ _ Ht) as Hk. destruct (prefix_shape k) as (S1 & S2 & S3); [lia|].
  destruct arrays_now as (Hv & Hu & Hs). destruct (rows_lengths _ _ rows_before) as (L1 & _ & _).
  destruct (set_last 0 _ _ _ _ _ (cell_word x) (off (length tys) k) Hv) as (vs & E & Hvs); [lia|unfold off; rewrite L1, S1; lia|].
  exists vs. split; [done|]. apply put; [exact Hvs|by rewrite pad_flag0 by lia|]. by rewrite pad_str0 by by left.
Qed.
Lemma put_str x :
  t = TypeString →
  ∃ ss, sl_set (strs s) (off (str_width tys) (str_width (take k tys))) x = Ret ss ∧
    writing (set_arrays s (st_values s) ss (st_nulls s) (next s)) (snoc_row (prefix k) t (Some (CStr x))).
Proof using All.
  intros Hts. pose proof (lookup_lt_Some _ _ _ Ht) as Hk. destruct (prefix_shape k) as (S1 & S2 & S3); [lia|].
  destruct arrays_now as (Hv & Hu & Hs). destruct (rows_lengths _ _ rows_before) as (_ & _ & L3).
  destruct (set_last ""%string _ _ _ _ _ x (off (str_width tys) (str_width (take k tys))) Hs) as (ss & E & Hss).
  { rewrite S3. apply string_room. by rewrite <- Hts. }
  { unfold off. rewrite L3, S3. lia. }
  exists ss. split; [done|]. apply put; [by rewrite pad_word0 by (done || lia)|by rewrite pad_flag0 by lia|].
  cbn [padded snoc_row rs]. by rewrite decide_True.
Qed.
(** A string column without a dictionary reads as empty strings, which the zeroed row already holds. *)
Lemma put_empty :
  t = TypeString → writing s (snoc_row (prefix k) t (Some (CStr ""))).
Proof using All.
  intros Hts. pose proof (lookup_lt_Some _ _ _ Ht) as Hk. destruct (prefix_shape k) as (S1 & S2 & S3); [lia|].
  destruct arrays_now as (Hv & Hu & Hs).
  replace s with (set_arrays s (st_values s) (strs s) (st_nulls s) (next s)) by by destruct s.
  apply put; [by rewrite pad_word0 by (done || lia)|by rewrite pad_flag0 by lia|].
  rewrite pad_str0; [done|]. right. split; [done|]. rewrite S3. apply string_room. by rewrite <- Hts.
Qed.
End Put.

Lemma writeCol_spec s k t c :
  tys !! k = Some t → cells !! k = Some c → writing s (prefix k) →
  ∃ s', writeCol (Z.of_nat (length rows)) b i s k = Ret s' ∧ writing s' (snoc_row (prefix k) t c) ∧
    capRows s' = capRows s ∧ grows s' = grows s.
Proof using All.
  intros Ht Hc Hok. pose proof (lookup_lt_Some _ _ _ Ht) as Hk. destruct (ok_layout _ _ _ _ Hok) as (Hnc & Hsw & Hsl).
  pose proof Hb as [_ Hvs]. cbn [row_at r_cells] in Hc. rewrite list_lookup_fmap in Hc.
  destruct (Vectors b !! k) as [v|] eqn:Ev; [|done]. injection Hc as Ec.
  destruct (Forall2_lookup_lr _ _ _ _ _ _ Hvs Ev Ht) as (Hok' & Et & Hlen & _).
  pose proof (column_self v t (evalLen b) Hok' Et Hlen) as Hcol.
  unfold writeCol. rewrite (index_Ret _ _ _ Ev). cbn [mbind go_bind].
  rewrite (column_IsNull _ _ _ _ _ Hcol Hi), is_null_dec, Hnc, Hsw, Hsl. cbn [mbind go_bind]. rewrite Ec.
  destruct c as [x|].
  2: { destruct (put_null s k t Ht Hok) as (ns & E & Hw). unfold off in E. rewrite E. cbn [mbind go_bind]. eauto. }
  destruct (decide (t = TypeString)) as [->|Hns].
  - pose proof (column_has_type _ _ _ _ _ Hcol Hi) as Htx. rewrite Ec in Htx. cbn [cell_has_type] in Htx.
    destruct x as [| | |x|]; try done. destruct v as [| | |codes dict nb|]; try done.
    destruct (sv_Get_spec _ _ _ _ _ _ _ Hcol Hi Ec) as (d' & Eg).
    rewrite (index_Ret _ k (Z.of_nat (str_width (take k tys)))); [cbn [mbind go_bind]|].
    2: { rewrite list_lookup_fmap, lookup_seq_lt by done. cbn. unfold slot_of. by rewrite decide_True. }
    destruct dict as [d|]; cbn [sv_Get] in Eg.
    + rewrite decide_True by lia. destruct (index codes i) as [code| | |]; try done. cbn [mbind go_bind] in *.
      destruct (Get d code) as [[x' d2]| | |]; try done. cbn [mbind go_bind] in *. injection Eg as -> _.
      destruct (put_str s k TypeString Ht Hok x eq_refl) as (ss & E & Hw). unfold off in E. rewrite E. cbn [mbind go_bind]. eauto.
    + injection Eg as <- <-. eexists. split; [done|]. split; [by apply put_empty|done].
  - destruct (put_word s k t Ht Hok x Hns) as (vs & E & Hw). unfold off in E.
    rewrite (extractInt64_spec _ _ _ _ _ _ Hcol Hi Ec Hns). cbn [mbind go_bind]. rewrite E. cbn [mbind go_bind].
    destruct v; try (simpl in Et; congruence); eauto.
Qed.

Lemma writeRow_spec s :
  store_ok tys s (rows ++ [zero_row tys]) nx →
  ∃ s', writeRow s (Z.of_nat (length rows)) b i = Ret s' ∧ store_ok tys s' (rows ++ [raw_row tys cells]) nx ∧
    capRows s' = capRows s ∧ grows s' = grows s.
Proof using All.
  intros Hok. unfold writeRow. destruct (ok_layout _ _ _ _ Hok) as (Hnc & _). rewrite Hnc. pose proof cells_length as Hlc.
  destruct (foldM_seq_ind (writeCol (Z.of_nat (length rows)) b i)
    (λ k s', writing s' (prefix k) ∧ capRows s' = capRows s ∧ grows s' = grows s) (length tys) s) as (s' & E & Hw & Hcg).
  - split; [|done]. unfold writing. rewrite !take_0. replace (padded tys (raw_row [] [])) with (zero_row tys); [done|].
    unfold padded, zero_row. cbn. by rewrite !resize_nil.
  - intros k s1 Hk (Hw & Hc1 & Hg1). destruct (lookup_lt_is_Some_2 tys k Hk) as [t Ht].
    destruct (lookup_lt_is_Some_2 cells k) as [c Hc]; [lia|].
    destruct (writeCol_spec s1 k t c Ht Hc Hw) as (s2 & E & Hw2 & Hc2 & Hg2). exists s2. split; [done|].
    rewrite (take_S_r _ _ _ Ht), (take_S_r _ _ _ Hc), raw_row_snoc by (rewrite !length_take; lia).
    split; [done|]. split; congruence.
  - exists s'. split; [done|]. split; [|done]. rewrite !take_ge in Hw by lia. unfold writing in Hw.
    rewrite padded_full in Hw; [done|]. by apply raw_shape.
Qed.
End WriteRow.

(** ** Lemmas: appending, reading, moving rows *)

Lemma appendFrom_spec tys D b i s rows nx :
  batch_ok tys D b → (i < evalLen b)%nat → store_ok tys s rows nx → Z.of_nat (length rows) < maxBuildRows →
  ∃ s', appendFrom s b i = Ret (Z.of_nat (length rows), s') ∧
    store_ok tys s' (rows ++ [raw_row tys (r_cells (row_at b i))]) (nx ++ [0]) ∧
    (Z.of_nat (length rows) < capRows s → capRows s' = capRows s ∧ grows s' = grows s).
Proof.
  intros Hb Hi Hok Hmax. unfold appendFrom. destruct (reserve_spec tys s rows nx Hok Hmax) as (s1 & -> & H1 & Hg1).
  cbn [mbind go_bind]. destruct (writeRow_spec tys D b i rows (nx ++ [0]) Hb Hi s1 H1) as (s2 & -> & H2 & Hc2 & Hg2).
  cbn [mbind go_bind]. eexists. split; [done|]. split; [done|]. intros Hlt. destruct (Hg1 Hlt). split; congruence.
Qed.

Section Read.
Context (tys : list DataType) (s : rowStore) (rows : list rawRow) (nx : list Z).
Context (Hok : store_ok tys s rows nx).
Context (r c : nat) (cells : list (option Cell)).
Context (Hr : rows !! r = Some (raw_row tys cells)) (Hc : (c < length tys)%nat).
Abbreviation cell_ := (default None (cells !! c)).

Lemma read_shape : length cells = length tys ∧ cells !! c = Some cell_.
Proof using All.
  pose proof (Forall_lookup_1 _ _ _ _ (ok_shape _ _ _ _ Hok) Hr) as (H & _). cbn [raw_row rw] in H.
  rewrite length_fmap in H. split; [done|]. by destruct (lookup_lt_is_Some_2 cells c) as [x ->]; [lia|].
Qed.
Lemma isNull_spec : isNull s (Z.of_nat r) c = Ret (bool_decide (cell_ = None)).
Proof using All.
  destruct read_shape as [Hl Ec]. destruct (ok_layout _ _ _ _ Hok) as (Hnc & _). unfold isNull. rewrite Hnc.
  rewrite <- Nat2Z.inj_mul, <- Nat2Z.inj_add. eapply sl_get_spec; [by eapply ok_nulls|].
  rewrite (concat_lookup rn (length tys) rows r (raw_row tys cells) c); [|eapply Forall_impl; [by eapply ok_shape|]; intros ? Hs; apply Hs|done..].
  cbn [raw_row rn]. rewrite list_lookup_fmap, Ec. by destruct cell_.
Qed.
Lemma st_value_spec : st_value s (Z.of_nat r) c = Ret (raw_word cell_).
Proof using All.
  destruct read_shape as [Hl Ec]. destruct (ok_layout _ _ _ _ Hok) as (Hnc & _). unfold st_value. rewrite Hnc.
  rewrite <- Nat2Z.inj_mul, <- Nat2Z.inj_add. eapply sl_get_spec; [by eapply ok_values|].
  rewrite (concat_lookup rw (length tys) rows r (raw_row tys cells) c); [|eapply Forall_impl; [by eapply ok_shape|]; intros ? Hs; apply Hs|done..].
  cbn [raw_row rw]. rewrite list_lookup_fmap, Ec. by destruct cell_.
Qed.
Lemma str_spec :
  str s (Z.of_nat r) c = Ret (if decide (tys !! c = Some TypeString) then raw_str cell_ else ""%string).
Proof using All.
  destruct read_shape as [Hl Ec]. destruct (ok_layout _ _ _ _ Hok) as (_ & Hsw & Hsl). unfold str. rewrite Hsl, Hsw.
  rewrite (index_Ret _ c (slot_of tys c)) by by rewrite list_lookup_fmap, lookup_seq_lt. cbn [mbind go_bind].
  unfold slot_of. destruct (decide (tys !! c = Some TypeString)) as [Ht|]; [|done]. rewrite decide_False by lia.
  rewrite <- Nat2Z.inj_mul, <- Nat2Z.inj_add. eapply sl_get_spec; [by eapply ok_strs|].
  pose proof (string_room tys c Ht) as Hroom.
  rewrite (concat_lookup rs (str_width tys) rows r (raw_row tys cells) _); [|eapply Forall_impl; [by eapply ok_shape|]; intros ? Hs; apply Hs|done..].
  cbn [raw_row rs]. rewrite <- (take_drop_middle tys c _ Ht) at 2. rewrite <- (take_drop_middle cells c _ Ec) at 1.
  unfold raw_strs. rewrite zip_with_app, concat_app by (rewrite !length_take; lia).
  assert (Hlen : length (concat (zip_with (λ t x, if decide (t = TypeString) then [raw_str x] else []) (take c tys) (take c cells)))
    = str_width (take c tys)).
  { destruct (raw_shape (take c tys) (take c cells)) as (_ & _ & H3); [rewrite !length_take; lia|]. exact H3. }
  rewrite lookup_app_r by lia. by rewrite Hlen, Nat.sub_diag.
Qed.
End Read.

Lemma set_next_ok tys s rows nx nxs nx' :
  store_ok tys s rows nx → holds_data 0 nxs nx' (Z.to_nat (capRows s)) → length nx' = length nx →
  store_ok tys (set_next s nxs) rows nx'.
Proof. intros [] Hh Hl. split; cbn [set_next set_arrays st_n capRows st_values st_nulls strs next]; try done. lia. Qed.

(** Copying one row of a store into another of the same columns. *)
Lemma setFrom_array {A R} (z : A) (f : R → list A) w sl src c c' (dr sr : list R) d r x :
  holds_data z sl (concat (f <$> dr)) c → holds_data z src (concat (f <$> sr)) c' →
  Forall (λ y, length (f y) = w) dr → Forall (λ y, length (f y) = w) sr →
  (d < length dr)%nat → sr !! r = Some x →
  ∃ sl', sl_copy sl (d * w) src (r * w) w = Ret sl' ∧ holds_data z sl' (concat (f <$> <[d:=x]> dr)) c.
Proof.
  intros Hd Hs Hwd Hws Hlt Hx. destruct (lookup_lt_is_Some_2 dr d Hlt) as [y Hy].
  destruct (concat_split f w dr d y Hwd Hy) as [E Hl]. destruct (concat_split f w sr r x Hws Hx) as [E' Hl'].
  rewrite E in Hd. pose proof (Forall_lookup_1 _ _ _ _ Hwd Hy) as Hly. pose proof (Forall_lookup_1 _ _ _ _ Hws Hx) as Hlx.
  simpl in Hly, Hlx.
  destruct (sl_copy_spec z sl _ _ _ c src _ c' (r * w) (f x) Hd Hs) as (sl' & Ec & Hsl'); [by eexists _, _|congruence|].
  rewrite Hl, Hlx in Ec. exists sl'. split; [done|].
  rewrite insert_take_drop, fmap_app, concat_app by done. exact Hsl'.
Qed.
Lemma setFrom_spec tys s rows nx src srows snx d r x :
  store_ok tys s rows nx → store_ok tys src srows snx → (d < length rows)%nat → srows !! r = Some x →
  ∃ s', setFrom s (Z.of_nat d) src (Z.of_nat r) = Ret s' ∧ store_ok tys s' (<[d:=x]> rows) nx ∧ next s' = next s.
Proof.
  intros Hok Hsrc Hd Hx. unfold setFrom. rewrite decide_False by lia. rewrite !Nat2Z.id.
  destruct (ok_layout _ _ _ _ Hok) as (Hnc & Hsw & _). destruct (ok_layout _ _ _ _ Hsrc) as (Hnc' & Hsw' & _).
  rewrite Hnc, Hsw, Hnc', Hsw'. pose proof (ok_shape _ _ _ _ Hok) as Hsh. pose proof (ok_shape _ _ _ _ Hsrc) as Hsh'.
  assert (Hs : ∀ {A} (f : rawRow → list A) w, (∀ y, row_shape tys y → length (f y) = w) →
    Forall (λ y, length (f y) = w) rows ∧ Forall (λ y, length (f y) = w) srows).
  { intros A f w Hf. split; eapply Forall_impl; eauto. }
  destruct (Hs _ rw (length tys)) as [? ?]; [by intros y (? & _)|].
  destruct (Hs _ rn (length tys)) as [? ?]; [by intros y (_ & ? & _)|].
  destruct (Hs _ rs (str_width tys)) as [? ?]; [by intros y (_ & _ & ?)|].
  destruct (setFrom_array 0 rw (length tys) _ _ _ _ _ _ d r x (ok_values _ _ _ _ Hok) (ok_values _ _ _ _ Hsrc)) as (vs & -> & Hvs); [done..|].
  destruct (setFrom_array false rn (length tys) _ _ _ _ _ _ d r x (ok_nulls _ _ _ _ Hok) (ok_nulls _ _ _ _ Hsrc)) as (ns & -> & Hns); [done..|].
  destruct (setFrom_array ""%string rs (str_width tys) _ _ _ _ _ _ d r x (ok_strs _ _ _ _ Hok) (ok_strs _ _ _ _ Hsrc)) as (ss & Ess & Hss); [done..|].
  cbn [mbind go_bind].
  assert (E : ∃ ss', (if decide (0 < str_width tys)%nat
      then sl_copy (strs s) (d * str_width tys) (strs src) (r * str_width tys) (str_width tys) else Ret (strs s)) = Ret ss' ∧
    holds_data ""%string ss' (concat (rs <$> <[d:=x]> rows)) (Z.to_nat (capRows s) * str_width tys)).
  { case_decide as Hw; [by exists ss|]. exists (strs s). split; [done|].
    assert (E0 : ∀ l, Forall (λ y, length (rs y) = str_width tys) l → concat (rs <$> l) = []).
    { intros l. induction 1 as [|y l Hy _ IH]; [done|]. cbn [fmap list_fmap concat]. rewrite IH, app_nil_r.
      apply nil_length_inv. lia. }
    rewrite E0; [rewrite <- (E0 rows) by done; by destruct Hok|]. apply Forall_insert; [done|].
    exact (Forall_lookup_1 (λ y, length (rs y) = str_width tys) srows r x ltac:(done) Hx). }
  destruct E as (ss' & -> & Hss'). cbn [mbind go_bind]. eexists. split; [done|]. split; [|done].
  destruct Hok as [Hlay Hn Hnx Hcap _ _ _ _ Hl].
  split; cbn [set_arrays st_n capRows st_values st_nulls strs next]; rewrite ?length_insert; try done.
  apply Forall_insert; [done|]. exact (Forall_lookup_1 _ _ _ _ Hsh' Hx).
Qed.
