(* ===== verification/JoinTable.v ===== *)
(** * Package exec: the join's hash table ([exec/join_table.go])

    [joinHashTable] is open-addressed with linear probing over a power-of-two
    slot array indexed by the top bits of [radixHash]; the rows of one key are
    chained through the row store's [next].  The probing loops take fuel; the
    load factor keeps a slot empty, so as many steps as there are slots reach
    an answer.  The theorems: the table is a multimap whose per-key order is
    insertion order, through every rehash, and every scan ends. *)
From Stdlib Require Import ZArith Lia ZifyNat Compare_dec Wf_nat.
From stdpp Require Import base numbers list strings gmap.
From S2P Require Import Prelude Encoding Codec Float64 Schema Writer Reader Batch Scratch VExpr VKernel VCase VExprSpec Operator Distinct Sorting Emit Sort RowStore.
#[local] Open Scope Z_scope.

Definition joinTableMinSlots : Z := 8.
Definition joinTableLoadNum : Z := 7.
Definition joinTableLoadDen : Z := 10.

(** ** The hash ([exec/parallel_join.go]) *)

Definition radixHash (key : Z) : Z :=
  let x := to_u64 key in
  let x := Z.lxor x (Z.shiftr x 33) in
  let x := to_u64 (x * 0xff51afd7ed558ccd) in
  let x := Z.lxor x (Z.shiftr x 33) in
  let x := to_u64 (x * 0xc4ceb9fe1a85ec53) in
  Z.lxor x (Z.shiftr x 33).
Definition radixPart (key mask : Z) : Z :=
  if decide (mask = 0) then 0 else Z.land (radixHash key) mask.

(** ** The table *)

Record joinSlot : Type := mkSlot { js_key : Z; js_head : Z; js_tail : Z }.
(** The store is passed beside the table, since tables share one. *)
Record joinHashTable : Type := mkTable {
  slots : list joinSlot; mask : Z; shift : Z; jt_keys : Z; numRow : Z; growAt : Z
}.

(** [next <= slots] is how the code sees [slots * 2] overflow. *)
Fixpoint capacityLoop (fuel : nat) (slots need : Z) : go Z :=
  match fuel with
  | O => OutOfFuel
  | S fuel =>
      if slots <? need then
        let next := to_i64 (slots * 2) in
        if next <=? slots then Ret slots else capacityLoop fuel next need
      else Ret slots
  end.
Definition joinTableCapacity (keys : Z) : go Z :=
  if keys <=? 0 then Ret joinTableMinSlots else
  let need := to_i64 (to_i64 (keys * joinTableLoadDen) + joinTableLoadNum - 1) ÷ joinTableLoadNum in
  capacityLoop 64 joinTableMinSlots need.

(** [bits.TrailingZeros]. *)
Fixpoint pos_ctz (p : positive) : Z := match p with xO p => 1 + pos_ctz p | _ => 0 end.
Definition TrailingZeros (z : Z) : Z := match z with Zpos p => pos_ctz p | _ => 64 end.

Definition setCapacity (t : joinHashTable) (capacity : Z) : joinHashTable :=
  mkTable (replicate (Z.to_nat capacity) (mkSlot 0 noRow 0)) (to_u64 (capacity - 1)) (64 - TrailingZeros capacity)
    (jt_keys t) (numRow t) (to_i64 (capacity * joinTableLoadNum) ÷ joinTableLoadDen).
Definition newJoinHashTable (expectedKeys : Z) : go joinHashTable :=
  c ← joinTableCapacity expectedKeys;
  Ret (setCapacity (mkTable [] 0 0 0 0 0) c).

Definition slotFor (t : joinHashTable) (key : Z) : Z := Z.shiftr (radixHash key) (shift t).
Definition next_slot (t : joinHashTable) (i : Z) : Z := Z.land (i + 1) (mask t).
Definition set_slots (t : joinHashTable) (ss : list joinSlot) : joinHashTable :=
  mkTable ss (mask t) (shift t) (jt_keys t) (numRow t) (growAt t).

(** The scan of [grow] for the first empty slot. *)
Fixpoint emptyFrom (fuel : nat) (t : joinHashTable) (i : Z) : go Z :=
  match fuel with
  | O => OutOfFuel
  | S fuel =>
      s ← index (slots t) (Z.to_nat i);
      if decide (js_head s ≠ noRow) then emptyFrom fuel t (next_slot t i) else Ret i
  end.
Definition grow (t : joinHashTable) : go joinHashTable :=
  let old := slots t in
  let t := setCapacity t (Z.of_nat (length old) * 2) in
  foldM (λ t s,
    if decide (js_head s = noRow) then Ret t else
    i ← emptyFrom (length (slots t)) t (slotFor t (js_key s));
    ss ← store (slots t) (Z.to_nat i) s;
    Ret (set_slots t ss)) t old.

(** The loop of [insert], from slot [i]. *)
Fixpoint insertFrom (fuel : nat) (t : joinHashTable) (st : rowStore) (key row i : Z) : go (joinHashTable * rowStore) :=
  match fuel with
  | O => OutOfFuel
  | S fuel =>
      s ← index (slots t) (Z.to_nat i);
      if decide (js_head s = noRow) then
        ss ← store (slots t) (Z.to_nat i) (mkSlot key row row);
        Ret (mkTable ss (mask t) (shift t) (jt_keys t + 1) (numRow t) (growAt t), st)
      else if decide (js_key s = key) then
        nx ← sl_set (next st) (js_tail s) row;
        ss ← store (slots t) (Z.to_nat i) (mkSlot (js_key s) (js_head s) row);
        Ret (set_slots t ss, set_next st nx)
      else insertFrom fuel t st key row (next_slot t i)
  end.
Definition jt_insert (t : joinHashTable) (st : rowStore) (key row : Z) : go (joinHashTable * rowStore) :=
  t ← (if decide (growAt t ≤ jt_keys t) then grow t else Ret t);
  nx ← sl_set (next st) row noRow;
  let t := mkTable (slots t) (mask t) (shift t) (jt_keys t) (numRow t + 1) (growAt t) in
  insertFrom (length (slots t)) t (set_next st nx) key row (slotFor t key).

Fixpoint lookupFrom (fuel : nat) (t : joinHashTable) (key i : Z) : go Z :=
  match fuel with
  | O => OutOfFuel
  | S fuel =>
      s ← index (slots t) (Z.to_nat i);
      if decide (js_head s = noRow) then Ret noRow else
      if decide (js_key s = key) then Ret (js_head s) else
      lookupFrom fuel t key (next_slot t i)
  end.
Definition lookupHashed (t : joinHashTable) (key h : Z) : go Z :=
  lookupFrom (length (slots t)) t key (Z.shiftr h (shift t)).
Definition jt_lookup (t : joinHashTable) (key : Z) : go Z := lookupHashed t key (radixHash key).

(** [forEachKey], as the list of its calls. *)
Definition forEachKey (t : joinHashTable) : list (Z * Z) :=
  omap (λ s, if decide (js_head s ≠ noRow) then Some (js_key s, js_head s) else None) (slots t).

(** [for ri := head; ri != noRow; ri = next[ri]], as the list of the rows it visits. *)
Fixpoint walk (fuel : nat) (st : rowStore) (ri : Z) : go (list Z) :=
  match fuel with
  | O => OutOfFuel
  | S fuel =>
      if decide (ri = noRow) then Ret [] else
      ri' ← sl_get (next st) ri;
      rs ← walk fuel st ri';
      Ret (ri :: rs)
  end.

(** ** What a table holds *)

Definition occ (s : joinSlot) : Prop := js_head s ≠ noRow.
#[export] Instance occ_dec s : Decision (occ s).
Proof. unfold occ. apply _. Defined.

(** The slot array of 2^k slots, and the numbers derived from its size. *)
Record shape (k : Z) (t : joinHashTable) : Prop := {
  sh_k : 3 ≤ k ≤ 33;
  sh_len : Z.of_nat (length (slots t)) = 2 ^ k;
  sh_mask : mask t = 2 ^ k - 1;
  sh_shift : shift t = 64 - k;
  sh_grow : growAt t = 2 ^ k * 7 ÷ 10
}.
Definition home (t : joinHashTable) (key : Z) : nat := Z.to_nat (slotFor t key).
(** The [d]-th slot of the scan that starts at slot [h]. *)
Definition pos (t : joinHashTable) (h d : nat) : nat := ((h + d) mod length (slots t))%nat.

(** A key sits where its scan reaches it: every slot before is taken by another
    key. *)
Definition reached (t : joinHashTable) (key : Z) (d : nat) : Prop :=
  ∀ e, (e < d)%nat → ∃ s, slots t !! pos t (home t key) e = Some s ∧ occ s ∧ js_key s ≠ key.
Definition paths (t : joinHashTable) : Prop :=
  ∀ i s, slots t !! i = Some s → occ s → ∃ d, (d < length (slots t))%nat ∧
    i = pos t (home t (js_key s)) d ∧ reached t (js_key s) d.
Definition taken (t : joinHashTable) : list joinSlot := filter occ (slots t).

Record tab_wf (t : joinHashTable) : Prop := {
  tw_shape : ∃ k, shape k t;
  tw_paths : paths t;
  tw_keys : jt_keys t = Z.of_nat (length (taken t));
  tw_unique : NoDup (js_key <$> taken t);
  tw_room : jt_keys t ≤ growAt t
}.

(** The rows of [key] among insertions, in order. *)
Definition keyed (key : Z) (ins : list (Z * nat)) : list nat := snd <$> filter (λ p, p.1 = key) ins.
(** [nx] links the rows [rows], starting at [h]. *)
Fixpoint chain (nx : list Z) (h : Z) (rows : list nat) : Prop :=
  match rows with
  | [] => h = noRow
  | r :: rows => h = Z.of_nat r ∧ ∃ h', nx !! r = Some h' ∧ chain nx h' rows
  end.
(** The abstract table: the insertions so far. *)
Record table_repr (t : joinHashTable) (nx : list Z) (ins : list (Z * nat)) : Prop := {
  tr_wf : tab_wf t;
  tr_rows : numRow t = Z.of_nat (length ins);
  tr_slots : ∀ s, s ∈ taken t → let rows := keyed (js_key s) ins in
    chain nx (js_head s) rows ∧ Z.of_nat <$> last rows = Some (js_tail s);
  tr_all : ∀ key, key ∈ ins.*1 → key ∈ js_key <$> taken t;
  tr_fresh : NoDup ins.*2;
  tr_bound : Forall (λ r, r < length nx)%nat ins.*2
}.

(** ** Lemmas: filtering an array *)

Section Filter.
Context {A : Type} (P : A → Prop) `{!∀ x, Decision (P x)}.

Lemma filter_out (l : list A) : Forall (λ x, ¬ P x) l → filter P l = [].
Proof using Type. induction 1 as [|x l Hx _ IH]; [done|]. rewrite filter_cons, decide_False by done. exact IH. Qed.
Lemma filter_fill (l : list A) i x y : l !! i = Some x → ¬ P x → P y → filter P (<[i:=y]> l) ≡ₚ y :: filter P l.
Proof using Type.
  intros Hi Hx Hy. rewrite insert_take_drop by by eapply lookup_lt_Some.
  rewrite <- (take_drop_middle l i x Hi) at 3. rewrite !filter_app, !filter_cons, decide_True, decide_False by done.
  by rewrite <- Permutation_middle.
Qed.
Lemma filter_split (l : list A) i x :
  l !! i = Some x → P x → ∃ rest, filter P l ≡ₚ x :: rest ∧ ∀ y, P y → filter P (<[i:=y]> l) ≡ₚ y :: rest.
Proof using Type.
  intros Hi Hx. exists (filter P (take i l) ++ filter P (drop (S i) l)). split.
  - rewrite <- (take_drop_middle l i x Hi) at 1. rewrite filter_app, filter_cons, decide_True by done.
    by rewrite <- Permutation_middle.
  - intros y Hy. rewrite insert_take_drop by by eapply lookup_lt_Some. rewrite filter_app, filter_cons, decide_True by done.
    by rewrite <- Permutation_middle.
Qed.
End Filter.

(** ** Lemmas: the numbers *)

Lemma radixHash_range key : 0 ≤ radixHash key < 2 ^ 64.
Proof.
  assert (Hx : ∀ x, 0 ≤ x < 2 ^ 64 → 0 ≤ Z.lxor x (Z.shiftr x 33) < 2 ^ 64).
  { intros x Hx. assert (Hs : 0 ≤ Z.shiftr x 33 < 2 ^ 64).
    { rewrite Z.shiftr_div_pow2 by lia. split; [apply Z.div_pos; lia|]. apply Z.div_lt_upper_bound; lia. }
    assert (Hb : 0 ≤ Z.lxor x (Z.shiftr x 33)) by (apply Z.lxor_nonneg; lia). split; [done|].
    destruct (Z.eq_dec (Z.lxor x (Z.shiftr x 33)) 0) as [->|Hne]; [lia|].
    apply Z.log2_lt_pow2; [lia|]. pose proof (Z.log2_lxor x (Z.shiftr x 33) ltac:(lia) ltac:(lia)).
    assert (Hl : ∀ y, 0 ≤ y < 2 ^ 64 → Z.log2 y < 64).
    { intros y Hy. destruct (Z.eq_dec y 0) as [->|]; [done|]. apply Z.log2_lt_pow2; lia. }
    pose proof (Hl x Hx). pose proof (Hl _ Hs). lia. }
  unfold radixHash. cbv zeta. apply Hx. apply (wrapU_in 64). lia.
Qed.
Lemma pos_ctz_pow2 n : pos_ctz (2 ^ n) = Zpos n.
Proof.
  induction n as [|n IH] using Pos.peano_ind; [done|]. rewrite Pos.pow_succ_r. change (2 * 2 ^ n)%positive with (xO (2 ^ n)).
  cbn [pos_ctz]. rewrite IH. lia.
Qed.
Lemma TrailingZeros_pow2 k : 0 ≤ k → TrailingZeros (2 ^ k) = k.
Proof.
  intros Hk. destruct k as [|p|p]; [done| |lia].
  change (2 ^ Zpos p) with (Z.pow_pos 2 p). rewrite <- Pos2Z.inj_pow_pos. apply pos_ctz_pow2.
Qed.
Lemma pow2_double k : 0 ≤ k → 2 ^ k * 2 = 2 ^ (k + 1).
Proof. intros. rewrite Z.pow_add_r by lia. done. Qed.

Lemma setCapacity_shape t k :
  3 ≤ k ≤ 33 → shape k (setCapacity t (2 ^ k)) ∧ taken (setCapacity t (2 ^ k)) = [].
Proof.
  intros Hk. assert (0 < 2 ^ k) by (apply Z.pow_pos_nonneg; lia).
  assert (2 ^ k ≤ 2 ^ 33) by (apply Z.pow_le_mono_r; lia).
  split; [split; cbn [setCapacity slots mask shift growAt]|].
  - done.
  - rewrite length_replicate. lia.
  - apply (wrapU_id 64). split; lia.
  - rewrite TrailingZeros_pow2 by lia. done.
  - rewrite wrapS_id; [done|done|]. unfold inS, joinTableLoadNum. lia.
  - unfold taken. cbn [setCapacity slots]. apply filter_out, Forall_replicate. unfold occ. cbn. intros H1. by destruct H1.
Qed.

(** Fuel 64 is enough: a doubling more than 60 times would overflow. *)
Lemma capacityLoop_spec fuel k need :
  3 ≤ k → need ≤ 2 ^ 32 → k ≤ 32 → (32 - k < Z.of_nat fuel) →
  ∃ k', capacityLoop fuel (2 ^ k) need = Ret (2 ^ k') ∧ k ≤ k' ≤ 32 ∧ need ≤ 2 ^ k'.
Proof.
  revert k. induction fuel as [|fuel IH]; intros k Hk Hn Hk2 Hf; [lia|]. cbn [capacityLoop].
  assert (2 ^ k ≤ 2 ^ 32) by (apply Z.pow_le_mono_r; lia).
  destruct (Z.ltb_spec (2 ^ k) need) as [Hlt|Hge]; [|exists k; split; [done|lia]].
  assert (k ≠ 32) by (intros ->; lia).
  rewrite wrapS_id by (try unfold inS; lia). rewrite pow2_double by lia.
  assert (2 ^ k < 2 ^ (k + 1)) by (apply Z.pow_lt_mono_r; lia).
  destruct (Z.leb_spec (2 ^ (k + 1)) (2 ^ k)); [lia|].
  destruct (IH (k + 1)) as (k' & -> & ? & ?); [lia..|]. exists k'. split; [done|lia].
Qed.
Lemma joinTableCapacity_spec n :
  n ≤ 2 ^ 31 → ∃ k, joinTableCapacity n = Ret (2 ^ k) ∧ 3 ≤ k ≤ 32 ∧ n ≤ 2 ^ k * 7 ÷ 10.
Proof.
  intros Hn. unfold joinTableCapacity. destruct (Z.leb_spec n 0) as [H0|H0].
  { exists 3. split; [done|]. cbn. lia. }
  unfold joinTableLoadDen, joinTableLoadNum. rewrite (wrapS_id 64 (n * 10)) by (try unfold inS; lia).
  rewrite (wrapS_id 64) by (try unfold inS; lia).
  change joinTableMinSlots with (2 ^ 3).
  destruct (capacityLoop_spec 64 3 ((n * 10 + 7 - 1) ÷ 7)) as (k & -> & Hk & Hneed); [lia|rewrite Z.quot_div_nonneg by lia|lia..|].
  { apply Z.div_le_upper_bound; lia. }
  exists k. split; [done|]. split; [lia|]. rewrite Z.quot_div_nonneg in * by lia.
  pose proof (Z.mul_succ_div_gt (n * 10 + 7 - 1) 7 ltac:(lia)).
  apply Z.div_le_lower_bound; lia.
Qed.

(** ** Lemmas: scanning *)

Section Scanning.
Context (t : joinHashTable) (k : Z) (Hsh : shape k t).
Abbreviation N := (length (slots t)).

Lemma slots_pos : (0 < N)%nat.
Proof using Hsh. destruct Hsh. assert (0 < 2 ^ k) by (apply Z.pow_pos_nonneg; lia). lia. Qed.
Lemma pos_lt h d : (pos t h d < N)%nat.
Proof using Hsh. apply Nat.mod_upper_bound. pose proof slots_pos. lia. Qed.
Lemma pos_0 h : (h < N)%nat → pos t h 0 = h.
Proof using Type. intros. unfold pos. by rewrite Nat.add_0_r, Nat.mod_small. Qed.
Lemma next_slot_pos h d : next_slot t (Z.of_nat (pos t h d)) = Z.of_nat (pos t h (S d)).
Proof using Hsh.
  pose proof slots_pos as HN. destruct Hsh as [Hk Hl Hm _ _]. unfold next_slot.
  replace (mask t) with (Z.ones k) by (rewrite Hm, Z.ones_equiv; lia). rewrite Z.land_ones by lia. rewrite <- Hl. unfold pos.
  rewrite !Nat2Z.inj_mod, Nat2Z.inj_add. rewrite Zplus_mod_idemp_l. f_equal. lia.
Qed.
Lemma home_spec key : slotFor t key = Z.of_nat (home t key) ∧ (home t key < N)%nat.
Proof using Hsh.
  destruct Hsh as [Hk Hl _ Hs _]. pose proof (radixHash_range key) as Hr. unfold home, slotFor.
  rewrite Hs, Z.shiftr_div_pow2 by lia.
  assert (H1 : 0 ≤ radixHash key / 2 ^ (64 - k)) by (apply Z.div_pos; [lia|apply Z.pow_pos_nonneg; lia]).
  assert (H2 : radixHash key / 2 ^ (64 - k) < 2 ^ k).
  { apply Z.div_lt_upper_bound; [apply Z.pow_pos_nonneg; lia|]. rewrite <- Z.pow_add_r by lia. replace (64 - k + k) with 64 by lia. apply Hr. }
  lia.
Qed.
(** Every slot is at some distance from any start. *)
Lemma reach h i : (h < N)%nat → (i < N)%nat → ∃ d, (d < N)%nat ∧ pos t h d = i.
Proof using Type.
  intros Hh Hi. exists (if decide (h ≤ i)%nat then i - h else i + N - h)%nat. unfold pos. case_decide.
  - split; [lia|]. rewrite Nat.mod_small by lia. lia.
  - split; [lia|]. replace (h + (i + N - h))%nat with (i + 1 * N)%nat by lia.
    rewrite Nat.Div0.mod_add. by apply Nat.mod_small.
Qed.
(** The first slot of a scan at which to stop. *)
Lemma first_stop (stop : joinSlot → Prop) `{!∀ s, Decision (stop s)} h :
  (h < N)%nat → (∃ s, s ∈ slots t ∧ stop s) →
  ∃ d s, (d < N)%nat ∧ slots t !! pos t h d = Some s ∧ stop s ∧
    ∀ e, (e < d)%nat → ∃ s', slots t !! pos t h e = Some s' ∧ ¬ stop s'.
Proof using Hsh.
  intros Hh (s & [i Hi]%list_elem_of_lookup & Hs).
  destruct (reach h i Hh (lookup_lt_Some _ _ _ Hi)) as (d & Hd & <-). revert s Hd Hi Hs.
  induction d as [d IH] using lt_wf_ind; intros s Hd Hi Hs.
  pose (hit e := match slots t !! pos t h e with Some s' => bool_decide (stop s') | None => false end).
  destruct (decide (Exists (λ e, hit e = true) (seq 0 d))) as [He|He].
  { apply Exists_exists in He as (e & He%elem_of_seq & Hs'). unfold hit in Hs'.
    destruct (slots t !! pos t h e) as [s'|] eqn:Es'; [|done]. apply bool_decide_eq_true in Hs'.
    apply (IH e ltac:(lia) s'); (done || lia). }
  exists d, s. split; [done|]. split; [done|]. split; [done|]. intros e He'.
  destruct (lookup_lt_is_Some_2 (slots t) (pos t h e) (pos_lt h e)) as [s' Es']. exists s'. split; [done|].
  intros Hst. apply He, Exists_exists. exists e. split; [apply elem_of_seq; lia|]. unfold hit. rewrite Es'. by apply bool_decide_eq_true.
Qed.
End Scanning.

(** A loop over a scan reaches its first stop. *)
Lemma scan_to {X} t k (F : nat → Z → X) (act : nat → joinSlot → X) (stop : joinSlot → Prop) `{!∀ s, Decision (stop s)} h d s fuel :
  shape k t →
  (∀ f i s, slots t !! i = Some s →
     F (S f) (Z.of_nat i) = if decide (stop s) then act i s else F f (next_slot t (Z.of_nat i))) →
  (h < length (slots t))%nat → slots t !! pos t h d = Some s → stop s →
  (∀ e, (e < d)%nat → ∃ s', slots t !! pos t h e = Some s' ∧ ¬ stop s') → (d < fuel)%nat →
  F fuel (Z.of_nat h) = act (pos t h d) s.
Proof.
  intros Hsh HF Hh Hd Hs Hbefore Hf. rewrite <- (pos_0 t h Hh) at 1.
  cut (∀ m fuel, (m ≤ d)%nat → (m < fuel)%nat → F fuel (Z.of_nat (pos t h (d - m))) = act (pos t h d) s).
  { intros C. specialize (C d fuel ltac:(lia) Hf). by rewrite Nat.sub_diag in C. }
  clear fuel Hf. induction m as [|m IH]; intros [|f] Hm Hf; try lia.
  - rewrite Nat.sub_0_r. rewrite (HF _ _ _ Hd). by rewrite decide_True.
  - destruct (Hbefore (d - S m)%nat) as (s' & Es' & Hn); [lia|]. rewrite (HF _ _ _ Es'), decide_False by done.
    rewrite (next_slot_pos t k) by done. replace (S (d - S m)) with (d - m)%nat by lia. apply IH; lia.
Qed.

Definition stops (key : Z) (s : joinSlot) : Prop := ¬ occ s ∨ js_key s = key.
#[export] Instance stops_dec key s : Decision (stops key s).
Proof. unfold stops. apply _. Defined.

Lemma taken_elem t s : s ∈ taken t ↔ s ∈ slots t ∧ occ s.
Proof. unfold taken. rewrite list_elem_of_filter. tauto. Qed.

(** A table below its limit has an empty slot. *)
Lemma empty_slot l : (length (filter occ l) < length l)%nat → ∃ s, s ∈ l ∧ ¬ occ s.
Proof.
  induction l as [|s l IH]; cbn [length]; [lia|]. rewrite filter_cons. case_decide as Hs; cbn [length].
  - intros Hl. destruct IH as (s' & ? & ?); [lia|]. exists s'. by rewrite elem_of_cons; auto.
  - intros _. exists s. by rewrite elem_of_cons; auto.
Qed.
Lemma growAt_room k t : shape k t → growAt t < Z.of_nat (length (slots t)).
Proof.
  intros [Hk Hl _ _ Hg]. rewrite Hg, Hl. assert (0 < 2 ^ k) by (apply Z.pow_pos_nonneg; lia).
  rewrite Z.quot_div_nonneg by lia. apply Z.div_lt_upper_bound; lia.
Qed.

(** What the scan for [key] finds: its slot, or an empty one when no slot has
    the key. *)
Definition found (t : joinHashTable) (key : Z) (d : nat) (s : joinSlot) : Prop :=
  (d < length (slots t))%nat ∧ slots t !! pos t (home t key) d = Some s ∧ reached t key d ∧
  (occ s → js_key s = key) ∧ (¬ occ s → key ∉ js_key <$> taken t).
Lemma find_spec k t key :
  shape k t → paths t → (length (taken t) < length (slots t))%nat → ∃ d s, found t key d s.
Proof.
  intros Hsh Hp Hroom. destruct (home_spec t k Hsh key) as [_ Hh].
  destruct (first_stop t k Hsh (stops key) (home t key) Hh) as (d & s & Hd & Es & Hs & Hbefore).
  { destruct (empty_slot (slots t) Hroom) as (s & ? & ?). exists s. split; [done|by left]. }
  assert (Hre : reached t key d).
  { intros e He. destruct (Hbefore e He) as (s' & ? & Hn). exists s'. unfold stops in Hn. split; [done|].
    destruct (decide (occ s')); tauto. }
  exists d, s. split; [done|]. split; [done|]. split; [done|]. split; [by destruct Hs|].
  intros Hno (s' & -> & Hin)%list_elem_of_fmap. apply taken_elem in Hin as [[i Hi]%list_elem_of_lookup Hocc].
  destruct (Hp i s' Hi Hocc) as (d' & Hd' & -> & Hre'). destruct (lt_eq_lt_dec d d') as [[Hlt | ->] | Hgt].
  - destruct (Hre' d Hlt) as (s2 & E2 & ? & _). rewrite Es in E2. by injection E2 as <-.
  - rewrite Es in Hi. by injection Hi as <-.
  - destruct (Hre d' Hgt) as (s2 & E2 & _ & Hne). rewrite Hi in E2. by injection E2 as <-.
Qed.
Lemma find_scan {X} k t key d s (F : nat → Z → X) (act : nat → joinSlot → X) :
  shape k t → found t key d s →
  (∀ f i s, slots t !! i = Some s →
     F (S f) (Z.of_nat i) = if decide (stops key s) then act i s else F f (next_slot t (Z.of_nat i))) →
  F (length (slots t)) (slotFor t key) = act (pos t (home t key) d) s.
Proof.
  intros Hsh (Hd & Es & Hre & Hocc & _) HF. destruct (home_spec t k Hsh key) as [-> Hh].
  apply (scan_to t k F act (stops key)); try done.
  - unfold stops. destruct (decide (occ s)); auto.
  - intros e He. destruct (Hre e He) as (s' & ? & ? & ?). exists s'. split; [done|]. unfold stops. tauto.
Qed.

(** ** Lemmas: filling a slot *)

Section Fill.
Context (k : Z) (t : joinHashTable) (key : Z) (d : nat) (s : joinSlot).
Context (Hsh : shape k t) (Hfound : found t key d s).
Abbreviation i := (pos t (home t key) d).

(** Same size: same homes, same scans. *)
Lemma fill_same t' : length (slots t') = length (slots t) → shift t' = shift t →
  ∀ x h e, home t' x = home t x ∧ pos t' h e = pos t h e.
Proof using Type. intros Hl Hs x h e. unfold home, slotFor, pos. by rewrite Hl, Hs. Qed.

Lemma fill_reached t' s' x e :
  slots t' = <[i := s']> (slots t) → shift t' = shift t → occ s' → js_key s' = key →
  (¬ occ s ∨ js_key s = key) → (x = key → (e ≤ d)%nat) → reached t x e → reached t' x e.
Proof using Hfound.
  intros Hs' Hshift Ho Hk Hor Hxe Hre f Hf. destruct Hfound as (Hd & Es & Hre0 & _).
  pose proof (lookup_lt_Some _ _ _ Es) as Hi.
  destruct (fill_same t' ltac:(by rewrite Hs', length_insert) Hshift x (home t x) f) as [-> ->].
  destruct (Hre f Hf) as (s1 & E1 & Ho1 & Hk1). rewrite Hs'.
  destruct (decide (pos t (home t x) f = i)) as [E|Hne].
  - rewrite E, list_lookup_insert_eq by done. exists s'. split; [done|]. split; [done|]. rewrite Hk. intros <-.
    rewrite E, Es in E1. injection E1 as ->. destruct Hor; [done|congruence].
  - rewrite list_lookup_insert_ne by done. eauto.
Qed.
Lemma fill_paths t' s' :
  slots t' = <[i := s']> (slots t) → shift t' = shift t → occ s' → js_key s' = key →
  (¬ occ s ∨ js_key s = key) → paths t → paths t'.
Proof using Hfound.
  intros Hs' Hshift Ho Hk Hor Hp j s1 Hj Ho1. destruct Hfound as (Hd & Es & Hre0 & _).
  pose proof (lookup_lt_Some _ _ _ Es) as Hi. rewrite Hs' in Hj |- *. rewrite length_insert.
  assert (Hsame := fill_same t' ltac:(by rewrite Hs', length_insert) Hshift).
  destruct (decide (j = i)) as [->|Hne].
  - rewrite list_lookup_insert_eq in Hj by done. injection Hj as <-. rewrite Hk. exists d.
    destruct (Hsame key (home t key) d) as [-> ->]. split; [done|]. split; [done|].
    by eapply fill_reached.
  - rewrite list_lookup_insert_ne in Hj by done. destruct (Hp j s1 Hj Ho1) as (e & He & Ej & Hre).
    exists e. destruct (Hsame (js_key s1) (home t (js_key s1)) e) as [-> ->]. split; [done|]. split; [done|].
    eapply fill_reached; try done. intros E. destruct (decide (e ≤ d)%nat); [done|].
    destruct (Hre d) as (s2 & E2 & Ho2 & Hk2); [lia|]. rewrite E in E2, Hk2. rewrite Es in E2. injection E2 as ->.
    by destruct Hor.
Qed.
End Fill.

(** ** Lemmas: growing *)

Lemma setCapacity_paths t k : 3 ≤ k ≤ 33 → paths (setCapacity t (2 ^ k)).
Proof.
  intros Hk i s Hi Ho. destruct (setCapacity_shape t k Hk) as [_ E].
  assert (s ∈ taken (setCapacity t (2 ^ k))) by (apply taken_elem; split; [by eapply list_elem_of_lookup_2|done]).
  rewrite E in H. by apply elem_of_nil in H.
Qed.
Lemma shape_slots k t ss : shape k t → length ss = length (slots t) → shape k (set_slots t ss).
Proof. intros [] Hl. split; cbn [set_slots slots mask shift growAt]; congruence. Qed.

(** One slot of the old array moves to the first empty slot of its scan. *)
Lemma reinsert k t s :
  shape k t → paths t → (length (taken t) < length (slots t))%nat → occ s → js_key s ∉ js_key <$> taken t →
  ∃ t', (i ← emptyFrom (length (slots t)) t (slotFor t (js_key s));
         ss ← store (slots t) (Z.to_nat i) s; Ret (set_slots t ss)) = Ret t' ∧
    shape k t' ∧ paths t' ∧ taken t' ≡ₚ s :: taken t ∧ jt_keys t' = jt_keys t ∧ numRow t' = numRow t.
Proof.
  intros Hsh Hp Hroom Ho Hnew. destruct (find_spec k t (js_key s) Hsh Hp Hroom) as (d & s0 & Hf).
  pose proof Hf as (Hd & Es & Hre & Hocc & _). destruct (home_spec t k Hsh (js_key s)) as [-> Hh].
  assert (Hno : ¬ occ s0).
  { intros H0. apply Hnew, list_elem_of_fmap. exists s0. split; [by rewrite Hocc|].
    apply taken_elem. split; [by eapply list_elem_of_lookup_2|done]. }
  rewrite (scan_to t k (λ f i, emptyFrom f t i) (λ i _, Ret (Z.of_nat i)) (λ s, ¬ occ s) _ d s0); try done.
  2: { intros f i s1 Ei. cbn [emptyFrom]. rewrite Nat2Z.id, (index_Ret _ _ _ Ei). cbn [mbind go_bind].
       unfold occ. destruct (decide (js_head s1 ≠ noRow)); destruct (decide (¬ js_head s1 ≠ noRow)); tauto. }
  2: { intros e He. destruct (Hre e He) as (s' & ? & ? & _). exists s'. tauto. }
  cbn [mbind go_bind]. rewrite Nat2Z.id, store_Ret by by eapply lookup_lt_Some. cbn [mbind go_bind].
  eexists. split; [done|]. split; [by apply shape_slots; rewrite ?length_insert|]. split.
  - eapply (fill_paths t (js_key s) d s0 Hf _ s); (done || by left).
  - split; [|done]. unfold taken at 1. cbn [set_slots slots]. by eapply filter_fill.
Qed.

Lemma grow_spec k t :
  shape k t → NoDup (js_key <$> taken t) → k < 33 →
  ∃ t', grow t = Ret t' ∧ shape (k + 1) t' ∧ paths t' ∧ taken t' ≡ₚ taken t ∧
    jt_keys t' = jt_keys t ∧ numRow t' = numRow t.
Proof.
  intros Hsh Hnd Hk. unfold grow. pose proof (sh_len _ _ Hsh) as Hl. pose proof (sh_k _ _ Hsh) as Hk3.
  rewrite Hl, pow2_double by lia. set (t0 := setCapacity t (2 ^ (k + 1))).
  destruct (setCapacity_shape t (k + 1)) as [Hs0 Ht0]; [lia|]. fold t0 in Hs0, Ht0.
  destruct (foldM_list_ind (λ t s, if decide (js_head s = noRow) then Ret t else
      i ← emptyFrom (length (slots t)) t (slotFor t (js_key s));
      ss ← store (slots t) (Z.to_nat i) s; Ret (set_slots t ss))
    (λ j t', shape (k + 1) t' ∧ paths t' ∧ taken t' ≡ₚ filter occ (take j (slots t)) ∧
       jt_keys t' = jt_keys t ∧ numRow t' = numRow t) (slots t) t0) as (t' & -> & H1 & H2 & H3 & H4).
  - split; [done|]. split; [apply setCapacity_paths; lia|]. by rewrite Ht0.
  - intros j s t1 Hj (Hsh1 & Hp1 & Ht1 & Hk1 & Hn1). rewrite (take_S_r _ _ _ Hj), filter_app.
    case_decide as Hh.
    + exists t1. split; [done|]. split; [done|]. split; [done|]. split; [|done].
      rewrite (filter_out _ [s]), app_nil_r; [done|]. apply List.Forall_cons; [|done]. unfold occ. tauto.
    + destruct (reinsert (k + 1) t1 s Hsh1 Hp1) as (t2 & -> & ? & ? & Ht2 & ? & ?).
      * rewrite Ht1. pose proof (length_filter occ (take j (slots t))) as Hle. rewrite length_take in Hle.
        apply lookup_lt_Some in Hj. apply Nat2Z.inj_lt. rewrite (sh_len _ _ Hsh1), <- pow2_double by lia. lia.
      * exact Hh.
      * rewrite Ht1. unfold taken in Hnd. rewrite <- (take_drop_middle _ _ _ Hj), filter_app, filter_cons, decide_True, fmap_app, fmap_cons in Hnd by done.
        apply NoDup_app in Hnd as (_ & Hd & _). intros Hin. apply (Hd _ Hin). by left.
      * exists t2. split; [done|]. split; [done|]. split; [done|]. split; [|split; congruence].
        rewrite Ht2, Ht1, filter_cons, decide_True by done. by rewrite Permutation_cons_append.
  - exists t'. split; [done|]. split; [done|]. split; [done|]. split; [|done]. rewrite take_ge in H3 by lia. done.
Qed.

(** ** Lemmas: chains *)

Lemma chain_frame nx nx' h rows :
  (∀ r, r ∈ rows → nx' !! r = nx !! r) → chain nx h rows → chain nx' h rows.
Proof.
  revert h. induction rows as [|r rows IH]; intros h Hf; [done|]. intros (-> & h' & E & Hc).
  split; [done|]. exists h'. rewrite Hf by by left. split; [done|]. apply IH; [|done]. intros q Hq. apply Hf. by right.
Qed.
(** Linking [r] after the last row. *)
Lemma chain_snoc nx h rows r r0 :
  chain nx h rows → last rows = Some r0 → NoDup rows → r ∉ rows → (r0 < length nx)%nat → nx !! r = Some noRow →
  chain (<[r0 := Z.of_nat r]> nx) h (rows ++ [r]).
Proof.
  revert h. induction rows as [|q rows IH]; intros h Hc Hl Hnd Hr Hlt Hnr; [done|].
  destruct Hc as (-> & h' & E & Hc). apply NoDup_cons in Hnd as [Hq Hnd]. apply not_elem_of_cons in Hr as [Hrq Hr].
  cbn [app chain]. split; [done|]. destruct rows as [|q' rows].
  - injection Hl as <-. exists (Z.of_nat r). rewrite list_lookup_insert_eq by done. split; [done|].
    cbn [app chain]. split; [done|]. exists noRow. by rewrite list_lookup_insert_ne by done.
  - exists h'. assert (Hl' : last (q' :: rows) = Some r0) by done.
    assert (q ≠ r0). { intros ->. apply Hq. apply last_Some_elem_of. exact Hl'. }
    rewrite list_lookup_insert_ne by done. split; [done|]. by apply IH.
Qed.
Lemma chain_walk tys st rows nx h rs fuel :
  store_ok tys st rows nx → chain nx h rs → (length rs < fuel)%nat → walk fuel st h = Ret (Z.of_nat <$> rs).
Proof.
  intros Hok. revert h fuel. induction rs as [|r rs IH]; intros h [|fuel] Hc Hf; cbn [length] in *; try lia.
  - rewrite Hc. cbn [walk]. by rewrite decide_True.
  - destruct Hc as (-> & h' & E & Hc). cbn [walk]. rewrite decide_False by (unfold noRow; lia).
    rewrite (sl_get_spec 0 _ _ _ _ _ (ok_links _ _ _ _ Hok) E). cbn [mbind go_bind]. by rewrite IH by (done || lia).
Qed.

Lemma keyed_app key ins ins' : keyed key (ins ++ ins') = keyed key ins ++ keyed key ins'.
Proof. unfold keyed. by rewrite filter_app, fmap_app. Qed.
Lemma keyed_one key key' r : keyed key [(key', r)] = if decide (key' = key) then [r] else [].
Proof. unfold keyed. rewrite filter_cons. cbn [fst]. by case_decide. Qed.
Lemma keyed_in key ins r : r ∈ keyed key ins ↔ (key, r) ∈ ins.
Proof.
  unfold keyed. rewrite list_elem_of_fmap. split.
  - intros ([k' r'] & -> & [E Hin]%list_elem_of_filter). simpl in *. by subst.
  - intros Hin. exists (key, r). split; [done|]. by apply list_elem_of_filter.
Qed.
Lemma keyed_rows key ins r : r ∈ keyed key ins → r ∈ ins.*2.
Proof. rewrite keyed_in. intros Hin. apply list_elem_of_fmap. by exists (key, r). Qed.
Lemma keyed_NoDup key ins : NoDup ins.*2 → NoDup (keyed key ins).
Proof.
  induction ins as [|[k' r] ins IH]; intros Hnd; [constructor|]. rewrite fmap_cons in Hnd. apply NoDup_cons in Hnd as [Hr Hnd].
  unfold keyed. rewrite filter_cons. case_decide; [|by apply IH]. rewrite fmap_cons. apply NoDup_cons.
  split; [|by apply IH]. intros Hin. apply Hr. by eapply keyed_rows.
Qed.
Lemma keyed_length key ins : (length (keyed key ins) ≤ length ins)%nat.
Proof. unfold keyed. rewrite length_fmap. apply length_filter. Qed.
Lemma keyed_nil key ins : key ∉ ins.*1 → keyed key ins = [].
Proof.
  intros Hk. destruct (keyed key ins) as [|r rs] eqn:E; [done|]. destruct Hk.
  assert (Hin : r ∈ keyed key ins) by (rewrite E; by left). apply keyed_in in Hin. apply list_elem_of_fmap. by exists (key, r).
Qed.

(** ** Lemmas: inserting *)

Lemma taken_bound t nx ins : table_repr t nx ins → jt_keys t ≤ Z.of_nat (length ins).
Proof.
  intros Hr. destruct (tr_wf _ _ _ Hr) as [_ _ -> Hu _]. rewrite <- (length_fmap js_key).
  apply inj_le. rewrite <- (length_fmap fst ins). apply submseteq_length, NoDup_submseteq; [done|].
  intros key (s & -> & Hs)%list_elem_of_fmap. destruct (tr_slots _ _ _ Hr s Hs) as (_ & Hlast).
  destruct (keyed (js_key s) ins) as [|r rs] eqn:E; [done|].
  assert (Hin : r ∈ keyed (js_key s) ins) by (rewrite E; by left). apply keyed_in in Hin.
  apply list_elem_of_fmap. by exists (js_key s, r).
Qed.

(** After the growth check there is room for one more key. *)
Lemma make_room t nx ins :
  table_repr t nx ins → Z.of_nat (length ins) < maxBuildRows →
  ∃ k t', (if decide (growAt t ≤ jt_keys t) then grow t else Ret t) = Ret t' ∧ shape k t' ∧ paths t' ∧
    taken t' ≡ₚ taken t ∧ jt_keys t' = jt_keys t ∧ numRow t' = numRow t ∧ jt_keys t' < growAt t'.
Proof.
  intros Hr Hmax. pose proof (taken_bound _ _ _ Hr) as Hb. destruct (tr_wf _ _ _ Hr) as [[k Hsh] Hp Hkeys Hu Hroom].
  case_decide as Hg; [|exists k, t; split_and!; (done || lia)].
  pose proof (sh_grow _ _ Hsh) as Hga. pose proof (sh_k _ _ Hsh). unfold maxBuildRows in Hmax.
  assert (Hlt : k < 33).
  { destruct (Z.lt_ge_cases k 33); [done|]. replace k with 33 in * by lia. rewrite Hga in *.
    change (2 ^ 33 * 7 ÷ 10) with 6012954214 in *. lia. }
  destruct (grow_spec k t Hsh Hu Hlt) as (t' & -> & H1 & H2 & H3 & H4 & H5). exists (k + 1), t'.
  do 6 (split; [done|]). rewrite H4, (sh_grow _ _ H1), <- pow2_double by lia.
  assert (2 ^ 3 ≤ 2 ^ k) by (apply Z.pow_le_mono_r; lia).
  rewrite Z.quot_div_nonneg by lia. rewrite Hga, Z.quot_div_nonneg in * by lia. apply Z.le_lt_trans with (2 ^ k * 7 / 10); [lia|].
  apply Z.div_lt_upper_bound; [lia|]. pose proof (Z.mul_succ_div_gt (2 ^ k * 2 * 7) 10 ltac:(lia)).
  pose proof (Z.mul_div_le (2 ^ k * 7) 10 ltac:(lia)). lia.
Qed.

Lemma repr_in_bound t nx ins key r :
  table_repr t nx ins → r ∈ keyed key ins → (r < length nx)%nat.
Proof. intros Hr Hin%keyed_rows. pose proof (tr_bound _ _ _ Hr) as Hb. rewrite Forall_forall in Hb. by apply Hb. Qed.

(** The links of other tables' rows may change. *)
Lemma repr_frame t nx nx' ins :
  table_repr t nx ins → (length nx ≤ length nx')%nat → (∀ r, r ∈ ins.*2 → nx' !! r = nx !! r) → table_repr t nx' ins.
Proof.
  intros [Hwf Hn Hs Ha Hf Hb] Hl Hnx. split; try done; [|eapply Forall_impl; [done|]; simpl; lia].
  intros s Hin. destruct (Hs s Hin) as [Hc ?]. split; [|done]. eapply chain_frame; [|done].
  intros r Hr. apply Hnx. by eapply keyed_rows.
Qed.

Lemma pairs_inj {A B} (l : list (A * B)) a a' b : NoDup l.*2 → (a, b) ∈ l → (a', b) ∈ l → a = a'.
Proof.
  induction l as [|[x y] l IH]; intros Hnd H1 H2; [by apply elem_of_nil in H1|].
  rewrite fmap_cons in Hnd. apply NoDup_cons in Hnd as [Hy Hnd].
  rewrite elem_of_cons in H1, H2. destruct H1 as [E1|H1], H2 as [E2|H2]; [congruence| | |by apply IH].
  - injection E1 as -> ->. destruct Hy. apply list_elem_of_fmap. by exists (a', y).
  - injection E2 as -> ->. destruct Hy. apply list_elem_of_fmap. by exists (a, y).
Qed.

(** One more row: the slot of its key ends in it, the other slots are as before. *)
Lemma repr_snoc t t' nx nx' ins key r s' rest :
  table_repr t nx ins → (r < length nx)%nat → r ∉ ins.*2 → length nx' = length nx →
  (∀ q, q ∈ ins.*2 → q ∉ keyed key ins → nx' !! q = nx !! q) →
  tab_wf t' → numRow t' = numRow t + 1 → taken t' ≡ₚ s' :: rest → js_key s' = key → js_tail s' = Z.of_nat r →
  chain nx' (js_head s') (keyed key ins ++ [r]) → key ∉ js_key <$> rest →
  (∀ s, s ∈ rest → s ∈ taken t) → (∀ x, x ∈ js_key <$> taken t → x = key ∨ x ∈ js_key <$> rest) →
  table_repr t' nx' (ins ++ [(key, r)]).
Proof.
  intros [Hwf Hn Hs Ha Hf Hb] Hr Hfresh Hl Hnx Hwf' Hn' Htk Hk Htail Hch Hrest Hsub Hcov. split; try done.
  - rewrite Hn', Hn, length_app. cbn [length]. lia.
  - intros s Hin. rewrite Htk in Hin. rewrite keyed_app, keyed_one. apply elem_of_cons in Hin as [->|Hin].
    + rewrite Hk, decide_True by done. split; [done|]. by rewrite last_snoc, Htail.
    + assert (Hne : key ≠ js_key s) by (intros ->; apply Hrest, list_elem_of_fmap; by exists s).
      rewrite decide_False, app_nil_r by done. destruct (Hs s (Hsub s Hin)) as [Hc Hlast]. split; [|done].
      eapply chain_frame; [|done]. intros q Hq. apply Hnx; [by eapply keyed_rows|]. intros Hq'. apply Hne.
      rewrite keyed_in in Hq, Hq'. by apply (pairs_inj ins _ _ q).
  - intros x Hx. rewrite Htk, fmap_cons, elem_of_cons. rewrite fmap_app in Hx. apply elem_of_app in Hx as [Hx|Hx].
    + destruct (Hcov x (Ha x Hx)) as [->|?]; [by left|by right].
    + apply list_elem_of_singleton in Hx as ->. by left.
  - rewrite fmap_app. apply NoDup_app. split; [done|]. split; [|apply NoDup_singleton].
    intros q Hq Hq'. apply list_elem_of_singleton in Hq' as ->. done.
  - rewrite fmap_app. apply Forall_app. rewrite Hl. split; [done|]. by apply List.Forall_cons.
Qed.
(** The scan of [key] in the table [t2] with room for one more key ended at slot
    [i], which holds [s]. *)
Section InsertAt.
Context (t : joinHashTable) (nx : list Z) (ins : list (Z * nat)) (key : Z) (r : nat).
Context (Hr : table_repr t nx ins) (Hlt : (r < length nx)%nat) (Hfresh : r ∉ ins.*2).
Context (k : Z) (t2 : joinHashTable) (d : nat) (s : joinSlot).
Context (Hsh : shape k t2) (Hp : paths t2) (Htk : taken t2 ≡ₚ taken t) (Hf : found t2 key d s).
Context (Hkeys : jt_keys t2 = jt_keys t) (Hrows : numRow t2 = numRow t + 1) (Hroom : jt_keys t2 < growAt t2).
Abbreviation i := (pos t2 (home t2 key) d).
Abbreviation nx1 := (<[r:=noRow]> nx).

Lemma insert_new :
  ¬ occ s →
  table_repr (mkTable (<[i := mkSlot key (Z.of_nat r) (Z.of_nat r)]> (slots t2)) (mask t2) (shift t2) (jt_keys t2 + 1) (numRow t2) (growAt t2))
    nx1 (ins ++ [(key, r)]).
Proof using All.
  intros Hno. pose proof Hf as (Hd & Es & Hre & _ & Hnocc). specialize (Hnocc Hno). rewrite Htk in Hnocc.
  destruct (tr_wf _ _ _ Hr) as [_ _ Hkt Hu _].
  set (s' := mkSlot key (Z.of_nat r) (Z.of_nat r)). assert (Ho' : occ s') by (unfold occ, noRow; cbn; lia).
  set (t' := mkTable _ _ _ _ _ _).
  assert (Htk' : taken t' ≡ₚ s' :: taken t) by (rewrite <- Htk; by apply (filter_fill occ (slots t2) i s s')).
  apply (repr_snoc t t' nx nx1 ins key r s' (taken t)); try done.
  - apply length_insert.
  - intros q Hq _. apply list_lookup_insert_ne. by intros ->.
  - split.
    + exists k. destruct Hsh. split; try done. cbn [t' slots]. by rewrite length_insert.
    + eapply (fill_paths t2 key d s Hf t' s'); (done || by left).
    + rewrite Htk'. cbn [t' jt_keys length]. lia.
    + rewrite Htk', fmap_cons. by apply NoDup_cons.
    + cbn [t' jt_keys growAt]. lia.
  - rewrite keyed_nil by (intros Hin; by apply Hnocc, (tr_all _ _ _ Hr)). cbn [app chain s' js_head]. split; [done|].
    exists noRow. split; [|done]. by rewrite list_lookup_insert_eq.
  - auto.
Qed.

Lemma insert_dup :
  occ s → ∃ r0, js_tail s = Z.of_nat r0 ∧ (r0 < length nx)%nat ∧ r0 ∈ ins.*2 ∧
    table_repr (set_slots t2 (<[i := mkSlot (js_key s) (js_head s) (Z.of_nat r)]> (slots t2)))
      (<[r0 := Z.of_nat r]> nx1) (ins ++ [(key, r)]).
Proof using All.
  intros Ho. pose proof Hf as (Hd & Es & Hre & Hocc & _). specialize (Hocc Ho).
  assert (Hin : s ∈ taken t) by (rewrite <- Htk; apply taken_elem; split; [by eapply list_elem_of_lookup_2|done]).
  destruct (tr_slots _ _ _ Hr s Hin) as [Hc Hl]. rewrite Hocc in Hc, Hl.
  destruct (last (keyed key ins)) as [r0|] eqn:El; [|done]. injection Hl as Hl.
  assert (Hr0 : r0 ∈ keyed key ins) by by apply last_Some_elem_of.
  pose proof (keyed_rows _ _ _ Hr0) as Hr0i. exists r0. split; [done|].
  split; [by eapply repr_in_bound|]. split; [done|]. destruct (tr_wf _ _ _ Hr) as [_ _ Hkt Hu _].
  destruct (filter_split occ (slots t2) i s Es Ho) as (rest & Hrest & Hins). fold (taken t2) in Hrest.
  set (s' := mkSlot _ _ _). set (t' := set_slots _ _). set (nx' := <[r0:=_]> _).
  assert (Htk' : taken t' ≡ₚ s' :: rest) by by apply Hins.
  assert (Hut : NoDup (js_key <$> s :: rest)) by by rewrite <- Hrest, Htk.
  apply (repr_snoc t t' nx nx' ins key r s' rest); try done.
  - unfold nx'. by rewrite !length_insert.
  - intros q Hq Hq'. unfold nx'. rewrite !list_lookup_insert_ne; [done| |]; intros ->; done.
  - split.
    + exists k. apply shape_slots; [done|]. by rewrite length_insert.
    + eapply (fill_paths t2 key d s Hf t' s'); (done || by right).
    + rewrite Htk'. cbn [t' set_slots jt_keys length]. rewrite Hkeys, Hkt, <- Htk, Hrest. done.
    + rewrite Htk'. exact Hut.
    + cbn [t' set_slots jt_keys growAt]. lia.
  - cbn [s' js_head]. unfold nx'. apply chain_snoc; try done.
    + eapply chain_frame; [|done]. intros q Hq. rewrite list_lookup_insert_ne; [done|]. intros ->.
      apply Hfresh. by eapply keyed_rows.
    + apply keyed_NoDup. by destruct Hr.
    + intros Hq. apply Hfresh. by eapply keyed_rows.
    + rewrite length_insert. by eapply repr_in_bound.
    + by rewrite list_lookup_insert_eq.
  - rewrite fmap_cons in Hut. apply NoDup_cons in Hut as [Hut _]. by rewrite <- Hocc.
  - intros x Hx. rewrite <- Htk, Hrest. by right.
  - intros x Hx. rewrite <- Htk, Hrest, fmap_cons in Hx. apply elem_of_cons in Hx as [->|?]; [by left|by right].
Qed.
End InsertAt.

Lemma insert_spec tys t st rows nx ins key r :
  store_ok tys st rows nx → table_repr t nx ins → (r < length nx)%nat → r ∉ ins.*2 →
  Z.of_nat (length ins) < maxBuildRows →
  ∃ t' nxs nx', jt_insert t st key (Z.of_nat r) = Ret (t', set_next st nxs) ∧
    store_ok tys (set_next st nxs) rows nx' ∧ table_repr t' nx' (ins ++ [(key, r)]) ∧ length nx' = length nx ∧
    ∀ q, q ∉ ins.*2 → q ≠ r → nx' !! q = nx !! q.
Proof.
  intros Hok Hr Hlt Hfresh Hmax. unfold jt_insert.
  destruct (make_room t nx ins Hr Hmax) as (k & t1 & -> & Hsh & Hp & Htk & Hk1 & Hn1 & Hroom). cbn [mbind go_bind].
  destruct (sl_set_spec 0 _ _ _ r noRow (ok_links _ _ _ _ Hok) Hlt) as (nxs & -> & Hnxs). cbn [mbind go_bind].
  set (t2 := mkTable (slots t1) (mask t1) (shift t1) (jt_keys t1) (numRow t1 + 1) (growAt t1)).
  assert (Hsh2 : shape k t2) by (by destruct Hsh). assert (Hp2 : paths t2) by exact Hp.
  assert (Htk2 : taken t2 ≡ₚ taken t) by exact Htk.
  pose proof (growAt_room k t1 Hsh) as Hga. destruct (tr_wf _ _ _ Hr) as [_ _ Hkeys Hu _].
  destruct (find_spec k t2 key Hsh2 Hp2) as (d & s & Hf); [rewrite Htk2; cbn [t2 slots]; lia|].
  rewrite (find_scan k t2 key d s (λ f i, insertFrom f t2 (set_next st nxs) key (Z.of_nat r) i)
    (λ i s, insertFrom 1 t2 (set_next st nxs) key (Z.of_nat r) (Z.of_nat i)) Hsh2 Hf).
  2: { intros f i s1 Ei. cbn [insertFrom]. rewrite !Nat2Z.id, !(index_Ret _ _ _ Ei). cbn [mbind go_bind].
       unfold stops, occ. repeat case_decide; tauto. }
  pose proof Hf as (_ & Es & _ & Hocc & _). pose proof (lookup_lt_Some _ _ _ Es) as Hi.
  cbn [insertFrom]. rewrite !Nat2Z.id, (index_Ret _ _ _ Es). cbn [mbind go_bind].
  assert (Hn2 : numRow t2 = numRow t + 1) by (cbn [t2 numRow]; lia).
  case_decide as Hh.
  - rewrite store_Ret by done. cbn [mbind go_bind]. eexists _, nxs, _. split; [done|].
    split; [eapply set_next_ok; [exact Hok|exact Hnxs|apply length_insert]|].
    split; [eapply insert_new; (done || unfold occ; tauto)|]. split; [apply length_insert|].
    intros q _ Hq. by rewrite list_lookup_insert_ne.
  - rewrite decide_True by by apply Hocc.
    destruct (insert_dup t nx ins key r Hr Hlt Hfresh k t2 d s) as (r0 & Htail & Hr0 & Hin0 & Hrepr); try done.
    destruct (sl_set_spec 0 _ _ _ r0 (Z.of_nat r) Hnxs) as (nxs' & Enx & Hnxs'); [by rewrite length_insert|].
    rewrite Htail. cbn [next set_next set_arrays]. rewrite Enx. cbn [mbind go_bind]. rewrite store_Ret by done. cbn [mbind go_bind].
    eexists _, nxs', _. split; [done|].
    split; [eapply (set_next_ok tys _ rows nx); [exact Hok|exact Hnxs'|by rewrite !length_insert]|].
    split; [exact Hrepr|]. split; [by rewrite !length_insert|].
    intros q Hq Hqr. rewrite !list_lookup_insert_ne; [done..|]. by intros ->.
Qed.

(** ** Lemmas: looking up *)

Lemma lookup_spec t nx ins key :
  table_repr t nx ins → ∃ h, lookupHashed t key (radixHash key) = Ret h ∧ chain nx h (keyed key ins).
Proof.
  intros Hr. pose proof Hr as [[[k Hsh] Hp Hkeys Hu Hroom] _ Hs Ha _ _]. pose proof (growAt_room k t Hsh).
  destruct (find_spec k t key Hsh Hp) as (d & s & Hf); [lia|].
  change (lookupHashed t key (radixHash key)) with (lookupFrom (length (slots t)) t key (slotFor t key)).
  rewrite (find_scan k t key d s (λ f i, lookupFrom f t key i) (λ i s, Ret (if decide (js_head s = noRow) then noRow else js_head s)) Hsh Hf).
  2: { intros f i s1 Ei. cbn [lookupFrom]. rewrite Nat2Z.id, (index_Ret _ _ _ Ei). cbn [mbind go_bind].
       unfold stops, occ. repeat case_decide; tauto. }
  destruct Hf as (_ & Es & _ & Hocc & Hnocc). eexists. split; [done|]. case_decide as Hh.
  - rewrite keyed_nil; [done|]. intros Hin. apply Hnocc; [unfold occ; tauto|]. by apply Ha.
  - rewrite <- (Hocc Hh). apply Hs. apply taken_elem. split; [by eapply list_elem_of_lookup_2|done].
Qed.

Lemma newJoinHashTable_spec n nx :
  n ≤ 2 ^ 31 → ∃ t, newJoinHashTable n = Ret t ∧ table_repr t nx [] ∧ n ≤ growAt t.
Proof.
  intros Hn. unfold newJoinHashTable. destruct (joinTableCapacity_spec n Hn) as (k & -> & Hk & Hg). cbn [mbind go_bind].
  eexists. split; [done|]. set (t0 := mkTable [] 0 0 0 0 0). destruct (setCapacity_shape t0 k) as [Hsh Htk]; [lia|].
  split; [|by rewrite (sh_grow _ _ Hsh)]. split; [split| | | | |]; rewrite ?Htk; try done; try apply NoDup_nil_2; try by apply List.Forall_nil.
  - by exists k.
  - apply setCapacity_paths. lia.
  - rewrite (sh_grow _ _ Hsh). change (jt_keys (setCapacity t0 (2 ^ k))) with 0.
    apply Z.quot_pos; [|lia]. assert (0 < 2 ^ k) by (apply Z.pow_pos_nonneg; lia). lia.
  - intros s Hs. by apply elem_of_nil in Hs.
Qed.

(** [numKeys]: the slots taken are the distinct keys. *)
Lemma taken_keys t nx ins : table_repr t nx ins → ∀ x, x ∈ js_key <$> taken t ↔ x ∈ ins.*1.
Proof.
  intros Hr x. split; [|by apply (tr_all _ _ _ Hr)]. intros (s & -> & Hs)%list_elem_of_fmap.
  destruct (decide (js_key s ∈ ins.*1)) as [|Hn]; [done|]. destruct (tr_slots _ _ _ Hr s Hs) as [_ Hl].
  by rewrite keyed_nil in Hl.
Qed.
Lemma forEachKey_fst t : (forEachKey t).*1 = js_key <$> taken t.
Proof.
  unfold forEachKey, taken. induction (slots t) as [|s l IH]; [done|]. cbn [omap list_omap]. rewrite filter_cons.
  destruct (decide (js_head s ≠ noRow)) as [Hs|Hs].
  - rewrite (decide_True (P := occ s)) by exact Hs. cbn [fmap list_fmap fst]. f_equal. exact IH.
  - rewrite (decide_False (P := occ s)) by exact Hs. exact IH.
Qed.

(** A sequence of insertions into one table. *)
Definition insertAll (ts : joinHashTable * rowStore) (ins : list (Z * nat)) : go (joinHashTable * rowStore) :=
  foldM (λ '(t, st) '(key, r), jt_insert t st key (Z.of_nat r)) ts ins.

Lemma insertAll_spec tys t st rows nx ins0 ins :
  store_ok tys st rows nx → table_repr t nx ins0 → NoDup (ins0 ++ ins).*2 → Forall (λ r, r < length nx)%nat ins.*2 →
  Z.of_nat (length (ins0 ++ ins)) ≤ maxBuildRows →
  ∃ t' st' nx', insertAll (t, st) ins = Ret (t', st') ∧ store_ok tys st' rows nx' ∧ length nx' = length nx ∧
    table_repr t' nx' (ins0 ++ ins).
Proof.
  revert t st nx ins0. induction ins as [|[key r] ins IH]; intros t st nx ins0 Hok Hr Hnd Hb Hmax.
  { exists t, st, nx. by rewrite app_nil_r. }
  rewrite fmap_cons in Hb. apply Forall_cons in Hb as [Hlt Hb]. rewrite (cons_middle _ ins0 ins), (app_assoc ins0) in *.
  cbn [insertAll foldM]. destruct (insert_spec tys t st rows nx ins0 key r Hok Hr Hlt) as (t' & nxs & nx' & -> & Hok' & Hr' & Hl & _).
  - rewrite !fmap_app in Hnd. apply NoDup_app in Hnd as (Hnd & _ & _). apply NoDup_app in Hnd as (_ & Hnd & _).
    intros Hin. apply (Hnd r Hin). by left.
  - rewrite !length_app in Hmax. cbn [length] in Hmax. lia.
  - cbn [mbind go_bind]. destruct (IH t' (set_next st nxs) nx' (ins0 ++ [(key, r)])) as (t2 & st2 & nx2 & E & Hok2 & Hl2 & Hr2); try done.
    { by rewrite Hl. }
    exists t2, st2, nx2. split; [exact E|]. split; [done|]. split; [congruence|done].
Qed.

(** ** Property *)

(** C28: The join's table is a multimap that keeps the insertion order of each
    key.  Start from a table for any number of expected keys, over a store of
    [n] rows, and insert any keys with any distinct rows, through however many
    rehashes: every insertion succeeds, and then the lookup of any key, present
    or not, ends and returns the first row of a chain that visits exactly the
    rows inserted under that key, in the order they were inserted; the keys the
    table enumerates are the distinct keys inserted, and its counts are right. *)
Theorem table_multimap tys st rows nx expected ins :
  store_ok tys st rows nx → expected ≤ 2 ^ 31 → NoDup ins.*2 → Forall (λ r, r < length rows)%nat ins.*2 →
  Z.of_nat (length ins) ≤ maxBuildRows →
  ∃ t t' st', newJoinHashTable expected = Ret t ∧ insertAll (t, st) ins = Ret (t', st') ∧
    (∀ key, ∃ h, jt_lookup t' key = Ret h ∧ walk (S (length rows)) st' h = Ret (Z.of_nat <$> keyed key ins)) ∧
    NoDup (forEachKey t').*1 ∧ (∀ key, key ∈ (forEachKey t').*1 ↔ key ∈ ins.*1) ∧
    jt_keys t' = Z.of_nat (length (forEachKey t')) ∧ numRow t' = Z.of_nat (length ins).
Proof.
  intros Hok Hexp Hnd Hb Hmax. destruct (newJoinHashTable_spec expected nx Hexp) as (t & Et & Hr & _).
  pose proof (ok_next _ _ _ _ Hok) as Hnx. rewrite <- Hnx in Hb.
  destruct (insertAll_spec tys t st rows nx [] ins Hok Hr Hnd Hb Hmax) as (t' & st' & nx' & E & Hok' & Hl & Hr').
  cbn [app] in Hr'. exists t, t', st'. split; [done|]. split; [done|]. rewrite forEachKey_fst.
  destruct (tr_wf _ _ _ Hr') as [_ _ Hk Hu _]. split; [|split; [done|split; [|split]]].
  - intros key. destruct (lookup_spec t' nx' ins key Hr') as (h & Eh & Hc). exists h. split; [exact Eh|].
    apply (chain_walk tys st' rows nx' h (keyed key ins)); [done..|].
    assert (Hle : (length (keyed key ins) ≤ length (seq 0 (length rows)))%nat).
    { apply submseteq_length, NoDup_submseteq; [by apply keyed_NoDup|]. intros r Hr2%keyed_rows.
      rewrite Forall_forall in Hb. apply elem_of_seq. specialize (Hb r Hr2). lia. }
    rewrite length_seq in Hle. lia.
  - by apply taken_keys with nx'.
  - rewrite Hk. f_equal. by rewrite <- (length_fmap fst (forEachKey t')), forEachKey_fst, length_fmap.
  - by destruct Hr'.
Qed.

(** Seven rows under six keys: the first table has eight slots and takes five. *)
Definition demo_ins : list (Z * nat) :=
  [(10, 0%nat); (-1, 1%nat); (0, 2%nat); (10, 3%nat); (2 ^ 40, 4%nat); (77, 5%nat); (5, 6%nat)].
Definition demo_store : rowStore := newSizedRowStore [] 7.
Example demo_rehash :
  (t ← newJoinHashTable 0; '(t, _) ← insertAll (t, demo_store) demo_ins; Ret (length (slots t), jt_keys t, growAt t)) = Ret (16%nat, 6, 11).
Proof. vm_compute. reflexivity. Qed.
Lemma table_multimap_witness :
  ∃ t t' st', newJoinHashTable 0 = Ret t ∧ insertAll (t, demo_store) demo_ins = Ret (t', st') ∧
    (∀ key, ∃ h, jt_lookup t' key = Ret h ∧ walk 8 st' h = Ret (Z.of_nat <$> keyed key demo_ins)) ∧
    NoDup (forEachKey t').*1 ∧ (∀ key, key ∈ (forEachKey t').*1 ↔ key ∈ demo_ins.*1) ∧
    jt_keys t' = Z.of_nat (length (forEachKey t')) ∧ numRow t' = Z.of_nat 7.
Proof.
  apply (table_multimap [] demo_store (replicate 7 (zero_row [])) (replicate 7 0) 0 demo_ins).
  - apply (newSizedRowStore_ok [] 7). unfold maxBuildRows. lia.
  - lia.
  - apply (bool_decide_unpack _). reflexivity.
  - apply (bool_decide_unpack _). reflexivity.
  - unfold maxBuildRows. cbn. lia.
Defined.
