(* ===== verification/Join.v ===== *)
(** * Package exec: HashJoin ([exec/join.go])

    The operator drains its build side into a row store and a hash table (or
    probes a table built beforehand), then streams the probe side: the matches
    of a probe batch are buffered and emitted 1024 at a time.  The theorem: it
    delivers, for each probe row in order, the build rows with its key in build
    order.  The output columns of BOOL columns are INT64 vectors ([join_cell]). *)
From Stdlib Require Import ZArith Lia ZifyNat.
From stdpp Require Import base numbers list strings gmap.
From S2P Require Import Prelude Encoding Codec Float64 Schema Writer Reader Volume Batch Scratch Scan VExpr VKernel VCase VExprSpec Operator RowOps Distinct Sorting Emit Sort Pipeline RowStore JoinTable.
#[local] Open Scope Z_scope.
#[local] Hint Resolve size_bits size_index : core.

(** ** Presizing ([exec/row_bound.go]) *)

Definition buildRowsPresize {S} `{RowCountBound S} (src : S) : go Z :=
  match row_bound src with
  | None => Ret 0
  | Some m => '(rows, tight) ← m; Ret (if (tight : bool) then presizeRows rows else 0)
  end.

(** ** Draining the build side *)

Section BuildRows.
Context {Acc : Type} (visit : Acc → Z → Batch → nat → go Acc) (keyIdx : nat).
(** The row loop of [forEachBuildRow]. *)
Definition eachBuildRow (acc : Acc) (b : Batch) : go Acc :=
  kv ← index (Vectors b) keyIdx;
  foldM (λ acc i,
      isnull ← IsNull kv i;
      if (isnull : bool) then Ret acc else
      key ← extractInt64 kv i;
      visit acc key b i) acc (sel_rows b).
Definition forEachBuildRow {S} `{Operator S} (fuel : nat) (src : S) (acc : Acc) : go () * Acc * S :=
  drain eachBuildRow fuel fuel src acc.
End BuildRows.

(** ** State *)

Record joinRow : Type := mkJoinRow { jr_build : Z; jr_probe : Z }.
(** The build side is absent when the join probes a table built beforehand. *)
Record HashJoin (B P : Type) : Type := mkHashJoin {
  hj_build : option B; hj_probe : P; buildKey : nat; probeKey : nat;
  hj_schema : Schema; buildSchema : Schema;
  parts : list joinHashTable; partMask : Z; hj_store : rowStore; buildDone : bool;
  probeBatch : option Batch; probePos : nat; matchBuf : list joinRow; matchPos : nat
}.
Arguments mkHashJoin {B P}.
Arguments hj_build {B P}. Arguments hj_probe {B P}. Arguments buildKey {B P}. Arguments probeKey {B P}.
Arguments hj_schema {B P}. Arguments buildSchema {B P}. Arguments parts {B P}. Arguments partMask {B P}.
Arguments hj_store {B P}. Arguments buildDone {B P}. Arguments probeBatch {B P}. Arguments probePos {B P}.
Arguments matchBuf {B P}. Arguments matchPos {B P}.

Definition empty_store : rowStore := newRowStore [] 0.
Definition NewHashJoin {B P} `{Operator B, Operator P} (build : B) (probe : P) (buildKeyIdx probeKeyIdx : Z)
    : go (HashJoin B P) :=
  let bSchema := OpSchema build in
  let pSchema := OpSchema probe in
  if decide (buildKeyIdx < 0 ∨ Z.of_nat (length bSchema) ≤ buildKeyIdx)
  then Err (ErrMsg "exec: hash join: build key out of range") else
  if decide (probeKeyIdx < 0 ∨ Z.of_nat (length pSchema) ≤ probeKeyIdx)
  then Err (ErrMsg "exec: hash join: probe key out of range") else
  Ret (mkHashJoin (Some build) probe (Z.to_nat buildKeyIdx) (Z.to_nat probeKeyIdx) (bSchema ++ pSchema) bSchema
         [] 0 empty_store false None 0 [] 0).

(** ** Output columns *)

Definition buildWords (conv : Z → Z) (s : rowStore) (rows : list joinRow) (c : nat) : go (list Z * list Z) :=
  foldM (λ '(vals, nb) '(i, r),
      isnull ← isNull s (jr_build r) c;
      if (isnull : bool) then Ret (vals, nb) else
      x ← st_value s (jr_build r) c;
      vals ← store vals i (conv x); nb ← SetValidBit nb i; Ret (vals, nb))
    (replicate (length rows) 0, replicate (bitmapSize (length rows)) 0) (enum rows).
Definition buildColumnFromRows (s : rowStore) (rows : list joinRow) (c : nat) (t : DataType) : go Vector :=
  match t with
  | TypeInt64 => '(vals, nb) ← buildWords (λ x, x) s rows c; Ret (Int64Vector vals nb)
  | TypeFloat64 => '(vals, nb) ← buildWords to_u64 s rows c; Ret (Float64Vector vals nb)
  | TypeDate => '(vals, nb) ← buildWords to_i32 s rows c; Ret (DateVector vals nb)
  | TypeString =>
      '(db, codes, nb) ← foldM (λ '(db, codes, nb) '(i, r),
          isnull ← isNull s (jr_build r) c;
          if (isnull : bool) then Ret (db, codes, nb) else
          x ← str s (jr_build r) c;
          let '(code, db) := Add db x in
          codes ← store codes i code; nb ← SetValidBit nb i; Ret (db, codes, nb))
        (NewDictBuilder, replicate (length rows) 0, replicate (bitmapSize (length rows)) 0) (enum rows);
      newStringVector db codes nb
  | _ => '(vals, nb) ← buildWords (λ x, x) s rows c; Ret (Int64Vector vals nb)
  end.

(** The row loop of a probe column, [get] reading the element of a row. *)
Definition probeWords (get : nat → go Z) (src : Vector) (rows : list joinRow) : go (list Z * list Z) :=
  foldM (λ '(vals, nb) '(i, r),
      let pRow := Z.to_nat (jr_probe r) in
      isnull ← IsNull src pRow;
      if (isnull : bool) then Ret (vals, nb) else
      x ← get pRow;
      vals ← store vals i x; nb ← SetValidBit nb i; Ret (vals, nb))
    (replicate (length rows) 0, replicate (bitmapSize (length rows)) 0) (enum rows).
(** A type assertion on another vector type panics. *)
Definition probeColumnFromRows (pBatch : Batch) (rows : list joinRow) (c : nat) (t : DataType) : go Vector :=
  src ← index (Vectors pBatch) c;
  match t with
  | TypeInt64 =>
      match src with
      | Int64Vector vs _ => '(vals, nb) ← probeWords (index vs) src rows; Ret (Int64Vector vals nb)
      | _ => Panic
      end
  | TypeFloat64 =>
      match src with
      | Float64Vector vs _ => '(vals, nb) ← probeWords (index vs) src rows; Ret (Float64Vector vals nb)
      | _ => Panic
      end
  | TypeDate =>
      match src with
      | DateVector vs _ => '(vals, nb) ← probeWords (index vs) src rows; Ret (DateVector vals nb)
      | _ => Panic
      end
  | TypeString =>
      match src with
      | StringVector codes dict _ => '(vals, nb) ← probeWords (index codes) src rows; Ret (StringVector vals dict nb)
      | _ => Panic
      end
  | _ => '(vals, nb) ← probeWords (extractInt64 src) src rows; Ret (Int64Vector vals nb)
  end.

(** ** Next *)

Section Next.
Context {B P : Type} `{Operator B, Operator P, RowCountBound B}.
Abbreviation HJ := (HashJoin B P).

Definition set_build (j : HJ) (b : option B) (ps : list joinHashTable) (st : rowStore) (done : bool) : HJ :=
  mkHashJoin b (hj_probe j) (buildKey j) (probeKey j) (hj_schema j) (buildSchema j) ps 0 st done
    (probeBatch j) (probePos j) (matchBuf j) (matchPos j).
Definition set_probe (j : HJ) (p : P) (pb : option Batch) (pos : nat) (ms : list joinRow) (mpos : nat) : HJ :=
  mkHashJoin (hj_build j) p (buildKey j) (probeKey j) (hj_schema j) (buildSchema j) (parts j) (partMask j) (hj_store j)
    (buildDone j) pb pos ms mpos.

(** What the callback of [buildHashTable] does with one row. *)
Definition buildVisit (acc : joinHashTable * rowStore) (key : Z) (b : Batch) (rowIdx : nat) : go (joinHashTable * rowStore) :=
  let '(tbl, st) := acc in
  '(row, st) ← appendFrom st b rowIdx;
  jt_insert tbl st key row.
Definition buildHashTable (fuel : nat) (j : HJ) : go () * HJ :=
  match hj_build j with
  | None => (Panic, j)
  | Some build =>
      on_ret (buildRowsPresize build) j (λ rows,
      let st := newRowStore (buildSchema j) rows in
      on_ret (newJoinHashTable rows) j (λ tbl,
      let '(r, (tbl, st), build) := forEachBuildRow buildVisit (buildKey j) fuel build (tbl, st) in
      (r, set_build j (Some build) [tbl] st (buildDone j))))
  end.

(** The matches of a probe batch, appended to [ms]. *)
Definition probeRow (j : HJ) (pv : Vector) (ms : list joinRow) (rowIdx : nat) : go (list joinRow) :=
  isnull ← IsNull pv rowIdx;
  if (isnull : bool) then Ret ms else
  key ← extractInt64 pv rowIdx;
  let h := radixHash key in
  tbl ← index (parts j) (Z.to_nat (Z.land h (partMask j)));
  ri ← lookupHashed tbl key h;
  rs ← walk (S (s_len (next (hj_store j)))) (hj_store j) ri;
  Ret (ms ++ ((λ r, mkJoinRow r (to_i32 (Z.of_nat rowIdx))) <$> rs)).
Definition probeMatches (j : HJ) (pb : Batch) : go (list joinRow) :=
  pv ← index (Vectors pb) (probeKey j);
  foldM (probeRow j pv) [] (sel_rows pb).

Definition emitMatches (j : HJ) : go (option Batch) * HJ :=
  let end_ := Nat.min (matchPos j + BlockRows) (length (matchBuf j)) in
  if decide (end_ ≤ matchPos j)%nat then (Ret None, j) else
  on_ret (slice (matchBuf j) (matchPos j) end_) j (λ rows,
  let j := set_probe j (hj_probe j) (probeBatch j) (probePos j) (matchBuf j) end_ in
  on_ret (
    bvecs ← foldM (λ vecs '(c, f), v ← buildColumnFromRows (hj_store j) rows c (Type_ f); Ret (vecs ++ [v]))
              [] (enum (buildSchema j));
    match probeBatch j with
    | None => Panic
    | Some pb =>
        vecs ← foldM (λ vecs '(c, f), v ← probeColumnFromRows pb rows c (Type_ f); Ret (vecs ++ [v]))
                 bvecs (enum (OpSchema (hj_probe j)));
        Ret (mkBatch (hj_schema j) vecs (length rows) None)
    end) j (λ b, (Ret (Some b), j))).

(** The loop of [Next] after the build. *)
Fixpoint join_loop (fuel k : nat) (j : HJ) : go (option Batch) * HJ :=
  match k with
  | O => (OutOfFuel, j)
  | S k =>
      let probe_on (j : HJ) :=
        match probeBatch j with
        | None => (Panic, j)
        | Some pb =>
            on_ret (probeMatches j pb) j (λ ms,
            join_loop fuel k (set_probe j (hj_probe j) (Some pb) (b_Length pb) ms 0))
        end in
      let probe (j : HJ) :=
        if match probeBatch j with None => true | Some pb => bool_decide (b_Length pb ≤ probePos j)%nat end then
          match Next fuel (hj_probe j) with
          | (Ret None, p) => (Ret None, set_probe j p (probeBatch j) (probePos j) (matchBuf j) (matchPos j))
          | (Ret (Some pb), p) => probe_on (set_probe j p (Some pb) 0 (matchBuf j) (matchPos j))
          | (Err e, p) => (Err e, set_probe j p (probeBatch j) (probePos j) (matchBuf j) (matchPos j))
          | (Panic, p) => (Panic, set_probe j p (probeBatch j) (probePos j) (matchBuf j) (matchPos j))
          | (OutOfFuel, p) => (OutOfFuel, set_probe j p (probeBatch j) (probePos j) (matchBuf j) (matchPos j))
          end
        else probe_on j in
      if decide (matchPos j < length (matchBuf j))%nat then
        match emitMatches j with
        | (Ret None, j) => probe j
        | r => r
        end
      else probe j
  end.
Definition join_next (fuel : nat) (j : HJ) : go (option Batch) * HJ :=
  if buildDone j then join_loop fuel fuel j else
  let '(r, j) := buildHashTable fuel j in
  on_ret r j (λ _,
  join_loop fuel fuel (mkHashJoin (hj_build j) (hj_probe j) (buildKey j) (probeKey j) (hj_schema j) (buildSchema j)
    (parts j) (partMask j) (hj_store j) true (probeBatch j) (probePos j) (matchBuf j) (matchPos j))).
#[export] Instance join_operator : Operator (HashJoin B P) := {
  Next := join_next;
  OpSchema := hj_schema
}.

(** [Reset], given the probe side's. *)
Definition join_Reset (reset : P → P) (j : HJ) : HJ := set_probe j (reset (hj_probe j)) None 0 [] 0.
End Next.

(** ** What a join means *)

(** The key of a row: the 64-bit word of a cell that is not NULL. *)
Definition key_of (kc : nat) (cells : list (option Cell)) : option Z :=
  match cells !! kc with Some (Some c) => Some (cell_word c) | _ => None end.
(** For each probe row in order, the build rows with its key in order. *)
Definition joined (bk pk : nat) (brs prs : list (list (option Cell))) : list (list (option Cell)) :=
  concat ((λ p, match key_of pk p with
    | Some k => (λ b, b ++ p) <$> filter (λ b, key_of bk b = Some k) brs
    | None => []
    end) <$> prs).
(** BOOL columns leave the join as INT64 vectors. *)
Definition join_cell (c : option Cell) : option Cell :=
  match c with Some (CBool b) => Some (CInt (if b then 1 else 0)) | c => c end.
Definition join_type (t : DataType) : DataType := match t with TypeBool => TypeInt64 | t => t end.

(** The build rows a join keeps, with their keys; row [i] of the store is the
    [i]-th of them. *)
Definition keyed_cells (kc : nat) (rs : list (list (option Cell))) : list (Z * list (option Cell)) :=
  omap (λ r, (λ k, (k, r)) <$> key_of kc r) rs.
Definition indexed (brows : list (Z * list (option Cell))) : list (Z * nat) := imap (λ i p, (p.1, i)) brows.
Definition match_rows (brows : list (Z * list (option Cell))) (key : Z) : list nat := keyed key (indexed brows).

(** ** Lemmas: draining *)

Lemma extractInt64_word v t n f i c :
  column v t n f → (i < n)%nat → f i = Some c → extractInt64 v i = Ret (cell_word c).
Proof.
  intros Hc Hi Ef. destruct (decide (t = TypeString)) as [->|Hns]; [|by eapply extractInt64_spec].
  pose proof (column_has_type _ _ _ _ _ Hc Hi) as Ht. rewrite Ef in Ht. cbn [cell_has_type] in Ht.
  destruct Hc as (_ & Ev & _). by destruct c, v.
Qed.
Lemma keyed_cells_app kc l1 l2 : keyed_cells kc (l1 ++ l2) = keyed_cells kc l1 ++ keyed_cells kc l2.
Proof. apply omap_app. Qed.

(** The key column of a batch, at one of its rows. *)
Lemma key_column tys D b kc :
  batch_ok tys D b → (kc < length tys)%nat →
  ∃ kv, Vectors b !! kc = Some kv ∧ ∀ i, (i < evalLen b)%nat →
    IsNull kv i = Ret (match key_of kc (r_cells (row_at b i)) with None => true | _ => false end) ∧
    ∀ k, key_of kc (r_cells (row_at b i)) = Some k → extractInt64 kv i = Ret k.
Proof.
  intros (_ & Hvs) Hk. destruct (lookup_lt_is_Some_2 tys kc Hk) as [t Ht].
  destruct (Forall2_lookup_r _ _ _ _ _ Hvs Ht) as (kv & Ev & Hok & Et & Hlen & _). exists kv. split; [done|]. intros i Hi.
  pose proof (column_self kv t (evalLen b) Hok Et Hlen) as Hcol.
  assert (Ek : key_of kc (r_cells (row_at b i)) = cell_word <$> cell kv i).
  { unfold key_of. cbn [row_at r_cells]. rewrite list_lookup_fmap, Ev. cbn. by destruct (cell kv i). }
  rewrite Ek, (column_IsNull _ _ _ _ _ Hcol Hi), is_null_dec. split; [by destruct (cell kv i)|].
  intros k. destruct (cell kv i) as [c|] eqn:Ec; [|done]. intros [= <-]. by eapply extractInt64_word.
Qed.

Section Drain.
Context {Acc : Type} (visit : Acc → Z → Batch → nat → go Acc) (kc : nat) (tys : list DataType) (D : Z).
(** [Q done acc]: [acc] is the outcome of visiting the rows [done]; up to
    [limit] rows can be visited. *)
Context (Q : list (Z * list (option Cell)) → Acc → Prop) (limit : nat).
Context (Hvisit : ∀ b done acc key i, batch_ok tys D b → (i < evalLen b)%nat → Q done acc → (length done < limit)%nat →
  key_of kc (r_cells (row_at b i)) = Some key →
  ∃ acc', visit acc key b i = Ret acc' ∧ Q (done ++ [(key, r_cells (row_at b i))]) acc').
Context (Hkc : (kc < length tys)%nat).

Lemma eachBuildRow_spec b done acc :
  batch_wf tys D b → Q done acc → (length (done ++ keyed_cells kc (r_cells <$> rows_of b)) ≤ limit)%nat →
  ∃ acc', eachBuildRow visit kc acc b = Ret acc' ∧ Q (done ++ keyed_cells kc (r_cells <$> rows_of b)) acc'.
Proof using Hvisit Hkc.
  intros (Hok & _ & _ & Hi & _) HQ Hlim. destruct (key_column tys D b kc Hok Hkc) as (kv & Ekv & Hkey).
  unfold eachBuildRow. rewrite (index_Ret _ _ _ Ekv). cbn [mbind go_bind]. unfold rows_of in *.
  revert done acc HQ Hlim. induction Hi as [|i l Hi _ IH]; intros done acc HQ Hlim.
  { exists acc. cbn. by rewrite app_nil_r. }
  cbn [foldM fmap list_fmap].
  destruct (Hkey i Hi) as [-> Hk]. unfold keyed_cells in *. cbn [omap list_omap fmap list_fmap] in *.
  destruct (key_of kc (r_cells (row_at b i))) as [k|] eqn:Ek; cbn [mbind go_bind fmap option_fmap option_map] in *.
  - rewrite (Hk k eq_refl). cbn [mbind go_bind]. rewrite cons_middle, app_assoc in Hlim |- *.
    destruct (Hvisit b done acc k i Hok Hi HQ) as (acc1 & -> & HQ1); [rewrite !length_app in Hlim; cbn [length] in Hlim; lia|done|].
    cbn [mbind go_bind]. by apply IH.
  - by apply IH.
Qed.
Lemma drainBuild_spec bs done acc :
  Forall (batch_wf tys D) bs → Q done acc → (length (done ++ keyed_cells kc (r_cells <$> all_rows bs)) ≤ limit)%nat →
  ∃ acc', foldM (eachBuildRow visit kc) acc bs = Ret acc' ∧ Q (done ++ keyed_cells kc (r_cells <$> all_rows bs)) acc'.
Proof using Hvisit Hkc.
  intros Hbs. revert done acc. induction Hbs as [|b bs Hb _ IH]; intros done acc HQ Hlim.
  { exists acc. cbn. by rewrite app_nil_r. }
  unfold all_rows in *. cbn [foldM fmap list_fmap concat] in *. rewrite fmap_app, keyed_cells_app, app_assoc in Hlim |- *.
  destruct (eachBuildRow_spec b done acc Hb HQ) as (acc1 & -> & HQ1); [rewrite length_app in Hlim; lia|].
  cbn [mbind go_bind]. by apply IH.
Qed.
End Drain.

(** ** Lemmas: the build side *)

Lemma indexed_snoc brows p : indexed (brows ++ [p]) = indexed brows ++ [(p.1, length brows)].
Proof. unfold indexed. rewrite imap_app. cbn. by rewrite Nat.add_0_r. Qed.
Lemma indexed_snd brows : (indexed brows).*2 = seq 0 (length brows).
Proof.
  induction brows as [|p brows IH] using rev_ind; [done|].
  rewrite indexed_snoc, fmap_app, IH, length_app. cbn [length fmap list_fmap snd]. by rewrite seq_app.
Qed.
Lemma length_indexed brows : length (indexed brows) = length brows.
Proof. apply length_imap. Qed.
Lemma match_rows_lt brows key r : r ∈ match_rows brows key → (r < length brows)%nat.
Proof. intros Hr%keyed_rows. rewrite indexed_snd in Hr. apply elem_of_seq in Hr. lia. Qed.
Lemma match_rows_length brows key : (length (match_rows brows key) ≤ length brows)%nat.
Proof. unfold match_rows. pose proof (keyed_length key (indexed brows)). by rewrite length_indexed in H. Qed.

(** The rows a key matches, as rows. *)
Lemma match_rows_filter (brows : list (Z * list (option Cell))) key :
  (λ r, brows.*2 !! r) <$> match_rows brows key = Some <$> (filter (λ p, p.1 = key) brows).*2.
Proof.
  induction brows as [|[k r] brows IH] using rev_ind; [done|]. rewrite filter_app, !fmap_app, <- IH.
  unfold match_rows. rewrite indexed_snoc, keyed_app, keyed_one, fmap_app. cbn [fst]. f_equal.
  - apply list_fmap_ext. intros _ i Hi%list_elem_of_lookup_2%match_rows_lt. rewrite lookup_app_l; [done|]. by rewrite length_fmap.
  - rewrite filter_cons. cbn [fst]. destruct (decide (k = key)) as [->|Hne]; [|done].
    cbn [fmap list_fmap snd]. rewrite <- (length_fmap snd). by rewrite lookup_snoc_last.
Qed.
Lemma keyed_cells_filter kc rs key :
  (filter (λ p, p.1 = key) (keyed_cells kc rs)).*2 = filter (λ b, key_of kc b = Some key) rs.
Proof.
  induction rs as [|r rs IH]; [done|]. unfold keyed_cells in *. cbn [omap list_omap]. rewrite filter_cons.
  destruct (key_of kc r) as [k|]; cbn [fmap option_fmap option_map]; [|by rewrite decide_False by done].
  rewrite filter_cons. cbn [fst]. destruct (decide (k = key)) as [->|Hne].
  - rewrite decide_True by done. cbn. by rewrite IH.
  - rewrite decide_False by congruence. done.
Qed.
(** Build rows that answer every key as [rs] does, in the order of [rs]. *)
Definition answers (kc : nat) (rs : list (list (option Cell))) (brows : list (Z * list (option Cell))) : Prop :=
  ∀ key, (filter (λ p, p.1 = key) brows).*2 = filter (λ b, key_of kc b = Some key) rs.

(** A store and partitions that hold the build rows [brows]. *)
Definition built (tys : list DataType) (brows : list (Z * list (option Cell))) (ps : list joinHashTable) (pmask : Z) (st : rowStore) : Prop :=
  ∃ nx, store_ok tys st (raw_row tys <$> brows.*2) nx ∧
    ∀ key, ∃ t ins, ps !! Z.to_nat (Z.land (radixHash key) pmask) = Some t ∧
      table_repr t nx ins ∧ keyed key ins = match_rows brows key.

(** One table, as the serial join builds it; [cap] rows were allocated up front. *)
Definition building (tys : list DataType) (cap : Z) (brows : list (Z * list (option Cell))) (acc : joinHashTable * rowStore) : Prop :=
  ∃ nx, store_ok tys acc.2 (raw_row tys <$> brows.*2) nx ∧ table_repr acc.1 nx (indexed brows) ∧
    (Z.of_nat (length brows) ≤ cap → capRows acc.2 = cap ∧ grows acc.2 = 0).

Lemma indexed_fresh brows : length brows ∉ (indexed brows).*2.
Proof. rewrite indexed_snd. intros Hr%elem_of_seq. lia. Qed.
Lemma buildVisit_spec tys D cap b done acc key i :
  batch_ok tys D b → (i < evalLen b)%nat → building tys cap done acc → Z.of_nat (length done) < maxBuildRows →
  ∃ acc', buildVisit acc key b i = Ret acc' ∧ building tys cap (done ++ [(key, r_cells (row_at b i))]) acc'.
Proof.
  intros Hb Hi (nx & Hst & Htb & Hg) Hmax. destruct acc as [tbl st]. cbn [fst snd] in *.
  assert (Hl : length (raw_row tys <$> done.*2) = length done) by by rewrite !length_fmap.
  unfold buildVisit. destruct (appendFrom_spec tys D b i st _ nx Hb Hi Hst) as (st1 & -> & Hst1 & Hg1); [by rewrite Hl|].
  rewrite Hl in *. cbn [mbind go_bind]. pose proof (ok_next _ _ _ _ Hst) as Hnx. rewrite Hl in Hnx.
  assert (Htb1 : table_repr tbl (nx ++ [0]) (indexed done)).
  { eapply repr_frame; [exact Htb|rewrite length_app; lia|]. intros r Hr. rewrite indexed_snd in Hr. apply elem_of_seq in Hr.
    by rewrite lookup_app_l by lia. }
  destruct (insert_spec tys tbl st1 _ _ (indexed done) key (length done) Hst1 Htb1) as (tbl' & nxs & nx' & -> & Hst2 & Htb2 & _).
  - rewrite length_app. cbn. lia.
  - apply indexed_fresh.
  - by rewrite length_indexed.
  - eexists. split; [done|]. exists nx'. cbn [fst snd]. rewrite indexed_snoc. split; [|split; [done|]].
    + rewrite !fmap_app. exact Hst2.
    + rewrite length_app. cbn [length set_next set_arrays capRows grows]. intros Hc. destruct Hg as [Hc0 Hg0]; [lia|].
      destruct Hg1 as [Hc1 Hg1]; [lia|]. split; congruence.
Qed.

Section Build.
Context {B P : Type} `{Operator B, Operator P, RowCountBound B}.

(** The build: the rows with a key, stored and indexed; a store presized for
    them never grows.  A build side that fails, fails the join. *)
Lemma buildHashTable_spec tys D (j : HashJoin B P) build bs o rows :
  hj_build j = Some build → runs build bs o → Forall (batch_wf tys D) bs → Type_ <$> buildSchema j = tys →
  (buildKey j < length tys)%nat → buildRowsPresize build = Ret rows → 0 ≤ rows ≤ maxBuildRows →
  let brows := keyed_cells (buildKey j) (r_cells <$> all_rows bs) in
  Z.of_nat (length brows) ≤ maxBuildRows →
  ∃ build' tbl st m, (∀ fuel, (m ≤ fuel)%nat → buildHashTable fuel j = (match o with None => Ret () | Some e => Err e end, set_build j (Some build') [tbl] st (buildDone j))) ∧
    building tys rows brows (tbl, st).
Proof.
  intros Hj Hrun Hbs Hs Hk Hpre Hrows brows Hmax.
  destruct (newJoinHashTable_spec rows [] ltac:(unfold maxBuildRows in *; lia)) as (t0 & Et & Ht0 & _).
  destruct (newRowStore_ok (buildSchema j) rows) as (Hst0 & Hcap0 & Hg0). rewrite Hs in Hst0.
  destruct (drainBuild_spec buildVisit (buildKey j) tys D (building tys rows) (Z.to_nat maxBuildRows)
    ltac:(intros; apply buildVisit_spec with D; (done || lia)) Hk bs [] (t0, newRowStore (buildSchema j) rows) Hbs)
    as ([tbl st] & Hfold & HQ).
  - exists []. split; [done|]. split; [done|]. intros _. cbn [snd]. rewrite Hcap0, Hg0. lia.
  - cbn [app]. fold brows. unfold maxBuildRows in *. lia.
  - destruct (drain_spec _ _ _ _ _ _ Hrun Hfold) as (build' & m & Hd). exists build', tbl, st, m. split; [|exact HQ].
    intros fuel Hf. unfold buildHashTable. rewrite Hj, Hpre. cbn [on_ret]. rewrite Et. cbn [on_ret].
    unfold forEachBuildRow. by rewrite Hd by lia.
Qed.
End Build.
Lemma building_built tys cap brows tbl st : building tys cap brows (tbl, st) → built tys brows [tbl] 0 st.
Proof.
  intros (nx & Hst & Htb & _). exists nx. split; [done|]. intros key. exists tbl, (indexed brows).
  rewrite Z.land_0_r. done.
Qed.

(** ** Lemmas: probing *)

(** A match: a build row and the index of a row of the probe batch. *)
Definition mkPair (p : nat * nat) : joinRow := mkJoinRow (Z.of_nat p.1) (Z.of_nat p.2).
Definition row_pairs (brows : list (Z * list (option Cell))) (pk : nat) (pb : Batch) (i : nat) : list (nat * nat) :=
  match key_of pk (r_cells (row_at pb i)) with Some k => (λ r, (r, i)) <$> match_rows brows k | None => [] end.
Definition pairs (brows : list (Z * list (option Cell))) (pk : nat) (pb : Batch) : list (nat * nat) :=
  concat (row_pairs brows pk pb <$> sel_rows pb).

Section Probe.
Context {B P : Type} `{Operator B, Operator P, RowCountBound B}.
Context (btys ptys : list DataType) (D : Z) (brows : list (Z * list (option Cell))) (j : HashJoin B P).
Context (Hbuilt : built btys brows (parts j) (partMask j) (hj_store j)).

Lemma walk_spec key :
  ∃ t h, parts j !! Z.to_nat (Z.land (radixHash key) (partMask j)) = Some t ∧
    lookupHashed t key (radixHash key) = Ret h ∧
    walk (S (s_len (next (hj_store j)))) (hj_store j) h = Ret (Z.of_nat <$> match_rows brows key).
Proof using Hbuilt.
  destruct Hbuilt as (nx & Hst & Hp). destruct (Hp key) as (t & ins & Et & Htb & Ek).
  destruct (lookup_spec t nx ins key Htb) as (h & Eh & Hc). exists t, h. split; [done|]. split; [done|].
  rewrite Ek in Hc. apply (chain_walk _ _ _ _ _ _ _ Hst Hc). pose proof (match_rows_length brows key).
  destruct (ok_links _ _ _ _ Hst) as (-> & _). rewrite (ok_next _ _ _ _ Hst), !length_fmap. lia.
Qed.

Lemma probeMatches_spec pb :
  batch_wf ptys D pb → (probeKey j < length ptys)%nat →
  probeMatches j pb = Ret (mkPair <$> pairs brows (probeKey j) pb).
Proof using Hbuilt.
  intros (Hok & _ & _ & Hi & [H16 _] & _) Hk. destruct (key_column ptys D pb (probeKey j) Hok Hk) as (pv & Epv & Hkey).
  assert (Hrow : ∀ ms i, (i < evalLen pb)%nat →
    probeRow j pv ms i = Ret (ms ++ (mkPair <$> row_pairs brows (probeKey j) pb i))).
  { intros ms i Hlt. unfold probeRow, row_pairs. destruct (Hkey i Hlt) as [-> Hx].
    destruct (key_of (probeKey j) (r_cells (row_at pb i))) as [k|] eqn:Ek; cbn [mbind go_bind]; [|by rewrite app_nil_r].
    rewrite (Hx k eq_refl). cbn [mbind go_bind]. destruct (walk_spec k) as (t & h & Et & Eh & Ew).
    rewrite (index_Ret _ _ _ Et). cbn [mbind go_bind]. rewrite Eh. cbn [mbind go_bind]. rewrite Ew. cbn [mbind go_bind].
    do 2 f_equal. rewrite <- !list_fmap_compose. apply list_fmap_ext. intros _ r _. unfold compose, mkPair. cbn.
    f_equal. apply wrapS_id; [done|]. unfold inS. lia. }
  unfold probeMatches. rewrite (index_Ret _ _ _ Epv). cbn [mbind go_bind]. unfold pairs.
  change (mkPair <$> concat (row_pairs brows (probeKey j) pb <$> sel_rows pb))
    with ([] ++ (mkPair <$> concat (row_pairs brows (probeKey j) pb <$> sel_rows pb))).
  generalize (@nil joinRow). induction Hi as [|i l Hi _ IH]; intros ms; [by rewrite app_nil_r|].
  cbn [foldM fmap list_fmap concat]. rewrite Hrow by done. cbn [mbind go_bind]. rewrite IH.
  by rewrite fmap_app, app_assoc.
Qed.
End Probe.
Lemma pairs_in brows pk pb p :
  p ∈ pairs brows pk pb → (p.1 < length brows)%nat ∧ p.2 ∈ sel_rows pb.
Proof.
  intros Hp. unfold pairs in Hp. apply list_elem_of_In, in_concat in Hp as (l & Hl & Hp). apply list_elem_of_In in Hl, Hp.
  apply list_elem_of_fmap in Hl as (i & -> & Hi). unfold row_pairs in Hp. destruct (key_of _ _) as [k|]; [|by apply elem_of_nil in Hp].
  apply list_elem_of_fmap in Hp as (r & -> & Hr). split; [by eapply match_rows_lt|done].
Qed.

(** ** Lemmas: emitting *)

Definition brow (brows : list (Z * list (option Cell))) (r : nat) : list (option Cell) := default [] (brows.*2 !! r).
Definition out_row (brows : list (Z * list (option Cell))) (pb : Batch) (p : nat * nat) : list (option Cell) :=
  join_cell <$> (brow brows p.1 ++ r_cells (row_at pb p.2)).
Definition out_types (btys ptys : list DataType) : list DataType := join_type <$> (btys ++ ptys).

Section BuildColumn.
Context (tys : list DataType) (brows : list (Z * list (option Cell))) (st : rowStore) (nx : list Z) (ps : list (nat * nat)).
Context (c : nat) (t : DataType).
Context (Hst : store_ok tys st (raw_row tys <$> brows.*2) nx) (Hrows : Forall (row_ok tys) brows.*2).
Context (Hps : Forall (λ p, p.1 < length brows)%nat ps) (Ht : tys !! c = Some t).
Abbreviation cells := ((λ p, join_cell (default None (brow brows p.1 !! c))) <$> ps).

Lemma cells_len : length cells = length (mkPair <$> ps).
Proof using Type. by rewrite !length_fmap. Qed.
(** One row of the loops. *)
Lemma build_row i r o :
  (mkPair <$> ps) !! i = Some r → cells !! i = Some o →
  ∃ x, o = join_cell x ∧ cell_has_type x t ∧ cell_fits x ∧ isNull st (jr_build r) c = Ret (bool_decide (x = None)) ∧
    st_value st (jr_build r) c = Ret (raw_word x) ∧
    str st (jr_build r) c = Ret (if decide (t = TypeString) then raw_str x else ""%string).
Proof using All.
  rewrite !list_lookup_fmap. destruct (ps !! i) as [p|] eqn:Ep; [|done]. intros [= <-] [= <-].
  pose proof (Forall_lookup_1 _ _ _ _ Hps Ep) as Hp. cbn [mkPair jr_build] in *.
  destruct (lookup_lt_is_Some_2 brows.*2 p.1) as [row Er]; [by rewrite length_fmap|].
  pose proof (Forall_lookup_1 _ _ _ _ Hrows Er) as [Hty Hf]. unfold brow. rewrite Er. cbn [from_option id].
  destruct (Forall2_lookup_r _ _ _ _ _ Hty Ht) as (x & Ex & Hx). pose proof (Forall_lookup_1 _ _ _ _ Hf Ex) as Hfx.
  pose proof (lookup_lt_Some _ _ _ Ht) as Hc. exists x. rewrite Ex. cbn [from_option id]. do 3 (split; [done|]).
  assert (Err : (raw_row tys <$> brows.*2) !! p.1 = Some (raw_row tys row)) by by rewrite list_lookup_fmap, Er.
  rewrite (isNull_spec _ _ _ _ Hst _ _ _ Err Hc), (st_value_spec _ _ _ _ Hst _ _ _ Err Hc), (str_spec _ _ _ _ Hst _ _ _ Err Hc), Ex.
  cbn [from_option id]. split; [done|]. split; [done|]. f_equal. destruct (decide (t = TypeString)) as [->|Hne].
  - by rewrite decide_True.
  - by rewrite decide_False by congruence.
Qed.

Lemma buildWords_spec conv t' mkV mkC :
  fixed t' mkV mkC →
  (∀ x, cell_type x = t → cell_fits (Some x) → join_cell (Some x) = Some (mkC (conv (cell_word x)))) →
  ∃ vals nb, buildWords conv st (mkPair <$> ps) c = Ret (vals, nb) ∧
    column (mkV vals nb) t' (length ps) (at_ cells).
Proof using All.
  intros Hfix Hconv. unfold buildWords. rewrite <- (length_fmap mkPair ps).
  apply (emit_words _ _ cells_len false t' mkV mkC); [done|].
  intros i r o vals nb Hr Ho Hv Hn. destruct (build_row i r o Hr Ho) as (x & -> & Hty & Hf & -> & -> & _).
  pose proof (lookup_lt_Some _ _ _ Hr) as Hi. rewrite is_null_dec. destruct x as [x|]; cbn [mbind go_bind]; [|done].
  rewrite (Hconv x Hty Hf). eexists. split; [done|]. cbn [raw_word]. rewrite store_Ret by lia. cbn [mbind go_bind].
  rewrite SetValidBit_Ret by (rewrite Hn; by apply size_index). done.
Qed.

End BuildColumn.

Definition build_cells (brows : list (Z * list (option Cell))) (c : nat) (ps : list (nat * nat)) : list (option Cell) :=
  (λ p, join_cell (default None (brow brows p.1 !! c))) <$> ps.
Lemma buildColumn_spec tys brows st nx ps c t :
  store_ok tys st (raw_row tys <$> brows.*2) nx → Forall (row_ok tys) brows.*2 →
  Forall (λ p, p.1 < length brows)%nat ps → tys !! c = Some t →
  let cells := build_cells brows c ps in
  real_type t → weight cells < 2 ^ 32 →
  ∃ v, buildColumnFromRows st (mkPair <$> ps) c t = Ret v ∧ column v (join_type t) (length ps) (at_ cells) ∧
    dict_size v ≤ weight cells.
Proof.
  intros Hst Hrows Hps Ht cells Hreal Hw.
  pose proof (buildWords_spec tys brows st nx ps c t Hst Hrows Hps Ht) as Hwords.
  pose proof (build_row tys brows st nx ps c t Hst Hrows Hps Ht) as Hrow. fold cells in Hwords, Hrow. pose proof (weight_ge0 cells) as H0. unfold buildColumnFromRows.
  destruct t as [| | | | |o]; try done.
  - destruct (Hwords (λ x, x) TypeInt64 Int64Vector CInt) as (vals & nb & -> & Hc); [constructor|by intros [x|x|x|x|x] E Hf|].
    eexists. split; [done|]. split; [exact Hc|]. done.
  - destruct (Hwords to_u64 TypeFloat64 Float64Vector CFloat) as (vals & nb & -> & Hc); [constructor| |].
    { intros [x|x|x|x|x] E Hf; try done. cbn. by rewrite to_u64_word. }
    eexists. split; [done|]. split; [exact Hc|]. done.
  - destruct (Hwords (λ x, x) TypeInt64 Int64Vector CInt) as (vals & nb & -> & Hc); [constructor|by intros [x|x|x|x|x] E Hf|].
    eexists. split; [done|]. split; [exact Hc|]. done.
  - rewrite <- (length_fmap mkPair ps).
    edestruct (emit_strs (mkPair <$> ps) cells (cells_len brows ps c)) as (db & codes & nb & v & -> & Ev & Hc & Hd); [|done|].
    + intros i r o db codes nb Hr Ho Hv Hn. destruct (Hrow i r o Hr Ho) as (x & -> & Hty & Hf & -> & _ & ->).
      pose proof (size_index _ _ (lookup_lt_Some _ _ _ Hr)). pose proof (lookup_lt_Some _ _ _ Hr). rewrite is_null_dec.
      destruct x as [x|]; cbn [mbind go_bind]; [|done]. cbn [cell_has_type] in Hty.
      destruct x as [| | |x|]; try done. exists x. split; [done|]. rewrite decide_True by done. cbn [raw_str].
      destruct (Add db x) as [code db']. rewrite store_Ret by lia. cbn [mbind go_bind].
      rewrite SetValidBit_Ret by lia. done.
    + cbn [mbind go_bind]. by exists v.
  - destruct (Hwords to_i32 TypeDate DateVector CDate) as (vals & nb & -> & Hc); [constructor| |].
    { intros [x|x|x|x|x] E Hf; try done. cbn. by rewrite wrapS_id. }
    eexists. split; [done|]. split; [exact Hc|]. done.
Qed.

Section ProbeColumn.
Context (src : Vector) (t : DataType) (n : nat) (f : nat → option Cell) (ps : list (nat * nat)).
Context (Hsrc : column src t n f) (Hps : Forall (λ p : nat * nat, p.2 < n)%nat ps).
Abbreviation probe_cells h := ((λ p : nat * nat, h p.2 : option Cell) <$> ps).

Lemma probeWords_spec get t' mkV mkC (h : nat → option Cell) :
  fixed t' mkV mkC →
  (∀ i, (i < n)%nat → match f i with None => h i = None | Some _ => ∃ x, get i = Ret x ∧ h i = Some (mkC x) end) →
  ∃ vals nb, probeWords get src (mkPair <$> ps) = Ret (vals, nb) ∧
    column (mkV vals nb) t' (length ps) (at_ (probe_cells h)).
Proof using All.
  intros Hfix Hget. unfold probeWords. rewrite <- (length_fmap mkPair ps).
  apply (emit_words _ _ (eq_trans (length_fmap _ _) (eq_sym (length_fmap _ _))) false t' mkV mkC); [done|].
  intros i r o vals nb Hr Ho Hv Hn. pose proof (lookup_lt_Some _ _ _ Hr) as Hi.
  rewrite list_lookup_fmap in Hr. rewrite list_lookup_fmap in Ho. destruct (ps !! i) as [p|] eqn:Ep; [|done].
  injection Hr as <-. injection Ho as <-. pose proof (Forall_lookup_1 _ _ _ _ Hps Ep) as Hp. simpl in Hp.
  cbn [mkPair jr_probe]. rewrite Nat2Z.id, (column_IsNull _ _ _ _ _ Hsrc Hp), is_null_dec. specialize (Hget p.2 Hp).
  destruct (f p.2) as [x|]; cbn [mbind go_bind]; [|by rewrite Hget].
  destruct Hget as (w & -> & ->). cbn [mbind go_bind]. eexists. split; [done|]. rewrite store_Ret by lia. cbn [mbind go_bind].
  rewrite SetValidBit_Ret by (rewrite Hn; by apply size_index). done.
Qed.

(** Codes of the same dictionary. *)
Lemma probeCodes_spec codes dict nb0 :
  src = StringVector codes dict nb0 → t = TypeString →
  ∃ vals nb, probeWords (index codes) src (mkPair <$> ps) = Ret (vals, nb) ∧
    column (StringVector vals dict nb) TypeString (length ps) (at_ (probe_cells f)).
Proof using All.
  intros Es Et. pose proof Hsrc as Hc. rewrite Et in Hc.
  apply column_string in Hc as (codes' & dict' & nb' & E & Hl & Hn & Hnull & Hd). rewrite Es in E. injection E as <- <- <-.
  set (h i := match f i with Some _ => CInt <$> codes !! i | None => None end).
  destruct (probeWords_spec (index codes) TypeInt64 Int64Vector CInt h) as (vals & nb & Ew & Hv); [done| |].
  { intros i Hi. unfold h. destruct (f i); [|done]. destruct (lookup_lt_is_Some_2 codes i) as [x Ex]; [lia|].
    exists x. rewrite Ex. split; [by apply index_Ret|done]. }
  exists vals, nb. split; [done|]. apply (column_fixed _ _ _ _ _ _ fixed_int64) in Hv as (vs & nb2 & E & Hlv & Hnv & Hat).
  injection E as <- <-. apply column_string. exists vals, dict, nb. split; [done|]. split; [done|]. split; [done|].
  assert (Hrow : ∀ i, (i < length ps)%nat → ∃ k x, (k < n)%nat ∧ at_ (probe_cells f) i = f k ∧ vals !! i = Some x ∧
    match f k with Some _ => bit_valid nb i = true ∧ codes !! k = Some x | None => bit_valid nb i = false end).
  { intros i Hi. destruct (lookup_lt_is_Some_2 ps i Hi) as [p Ep]. destruct (lookup_lt_is_Some_2 vals i) as [x Ex]; [lia|].
    pose proof (Forall_lookup_1 _ _ _ _ Hps Ep) as Hp. simpl in Hp. exists p.2, x. split; [done|]. specialize (Hat i x Ex).
    unfold at_ in *. rewrite list_lookup_fmap, Ep in Hat |- *. cbn in Hat |- *. split; [done|]. split; [done|].
    unfold h in Hat. destruct (f p.2) as [y|]; [|by destruct (bit_valid nb i)].
    destruct (lookup_lt_is_Some_2 codes p.2) as [z Ez]; [lia|]. rewrite Ez in Hat |- *. cbn in Hat.
    destruct (bit_valid nb i); [|done]. by injection Hat as ->. }
  split.
  - intros i Hi Hb. destruct (Hrow i Hi) as (k & x & Hk & -> & _ & Hm). destruct (f k); [|done]. destruct Hm. congruence.
  - destruct dict as [d|].
    + destruct Hd as (keys & ? & ? & ? & Hkeys). exists keys. do 3 (split; [done|]). intros i Hi Hb.
      destruct (Hrow i Hi) as (k & x & Hk & -> & Hx & Hm). destruct (f k) as [y|] eqn:Ef; [|congruence]. destruct Hm as [_ Hm].
      destruct (bit_valid nb0 k) eqn:Eb; [|by rewrite Hnull in Ef]. destruct (Hkeys k Hk Eb) as (kk & s & E1 & E2 & E3).
      exists kk, s. rewrite Hx, <- Hm. rewrite Ef in E3. done.
    + intros i Hi. destruct (Hrow i Hi) as (k & x & Hk & _ & _ & Hm). rewrite Hnull in Hm; [done|done|by apply Hd].
Qed.
End ProbeColumn.

Lemma join_cell_id t c : t ≠ TypeBool → cell_has_type c t → join_cell c = c.
Proof. intros Ht Hc. destruct c as [[]|]; done. Qed.
Lemma at_ext {A} (g h : A → option Cell) ps i : (∀ p, p ∈ ps → g p = h p) → at_ (g <$> ps) i = at_ (h <$> ps) i.
Proof.
  intros E. unfold at_. rewrite !list_lookup_fmap. destruct (ps !! i) as [p|] eqn:Ep; [|done]. cbn.
  apply E. by eapply list_elem_of_lookup_2.
Qed.

Lemma probeColumn_spec pb src t n f ps c :
  Vectors pb !! c = Some src → column src t n f → Forall (λ p : nat * nat, p.2 < n)%nat ps → real_type t →
  ∃ v, probeColumnFromRows pb (mkPair <$> ps) c t = Ret v ∧
    column v (join_type t) (length ps) (at_ ((λ p, join_cell (f p.2)) <$> ps)) ∧ dict_size v ≤ Z.max 0 (dict_size src).
Proof.
  intros Ev Hsrc Hps Hreal. unfold probeColumnFromRows. rewrite (index_Ret _ _ _ Ev). cbn [mbind go_bind].
  pose proof (probeWords_spec src t n f ps Hsrc Hps) as Hwords.
  assert (Hext : ∀ v t', t ≠ TypeBool → column v t' (length ps) (at_ ((λ p, f p.2) <$> ps)) →
    column v t' (length ps) (at_ ((λ p, join_cell (f p.2)) <$> ps))).
  { intros v t' Ht Hv. eapply column_ext; [done|]. intros i _. apply at_ext. intros p Hp. symmetry.
    apply (join_cell_id t); [done|]. rewrite Forall_forall in Hps. eapply column_has_type; [done|]. by apply Hps. }
  assert (Hfix : ∀ vs nb mkV mkC, fixed t mkV mkC → src = mkV vs nb → ∀ i, (i < n)%nat →
    match f i with None => f i = None | Some _ => ∃ x, index vs i = Ret x ∧ f i = Some (mkC x) end).
  { intros vs nb mkV mkC Hf Es i Hi. rewrite Es in Hsrc. apply (column_fixed _ _ _ _ _ _ Hf) in Hsrc as (vs' & nb' & E & Hl & _ & Hx).
    assert (vs' = vs ∧ nb' = nb) as [-> ->] by (destruct Hf; naive_solver).
    destruct (lookup_lt_is_Some_2 vs i) as [x Ex]; [lia|]. rewrite (Hx i x Ex). destruct (bit_valid nb i); [|done].
    exists x. split; [by apply index_Ret|done]. }
  pose proof Hsrc as (_ & Et & _). destruct t as [| | | | |o]; try done; destruct src as [vs nb|vs nb|bits nb m|codes dict nb|vs nb]; try done.
  - destruct (Hwords (index vs) TypeInt64 Int64Vector CInt f) as (vals & nb' & -> & Hv); [done|by eapply Hfix|].
    cbn [mbind go_bind]. eexists. split; [done|]. split; [by apply Hext|done].
  - destruct (Hwords (index vs) TypeFloat64 Float64Vector CFloat f) as (vals & nb' & -> & Hv); [done|by eapply Hfix|].
    cbn [mbind go_bind]. eexists. split; [done|]. split; [by apply Hext|done].
  - destruct (Hwords (extractInt64 (BoolVector bits nb m)) TypeInt64 Int64Vector CInt (λ i, join_cell (f i))) as (vals & nb' & -> & Hv); [done| |].
    { intros i Hi. destruct (f i) as [x|] eqn:Ef; [|done]. pose proof (column_has_type _ _ _ _ _ Hsrc Hi) as Hx.
      rewrite Ef in Hx. destruct x as [| |x| |]; try done. exists (cell_word (CBool x)). split; [by eapply extractInt64_word|done]. }
    cbn [mbind go_bind]. eexists. split; [done|]. split; [exact Hv|done].
  - destruct (probeCodes_spec _ _ _ _ ps Hsrc Hps codes dict nb eq_refl eq_refl) as (vals & nb' & -> & Hv).
    cbn [mbind go_bind]. eexists. split; [done|]. split; [by apply Hext|]. cbn [dict_size]. destruct dict; lia.
  - destruct (Hwords (index vs) TypeDate DateVector CDate f) as (vals & nb' & -> & Hv); [done|by eapply Hfix|].
    cbn [mbind go_bind]. eexists. split; [done|]. split; [by apply Hext|done].
Qed.

(** ** Lemmas: a batch of matches *)

Lemma weight_le cs M : (∀ c, c ∈ cs → cell_weight c ≤ M) → 0 ≤ M → weight cs ≤ Z.of_nat (length cs) * M.
Proof.
  intros Hc HM. induction cs as [|c cs IH]; [done|]. rewrite weight_cons. cbn [length].
  pose proof (Hc c ltac:(by left)). assert (weight cs ≤ Z.of_nat (length cs) * M); [|lia]. apply IH. intros x Hx. apply Hc. by right.
Qed.
Lemma join_cell_weight c : cell_weight (join_cell c) = cell_weight c.
Proof. by destruct c as [[]|]. Qed.

Section EmitBatch.
Context (btys ptys : list DataType) (D M W : Z) (brows : list (Z * list (option Cell))) (st : rowStore) (nx : list Z).
Context (bsch psch : Schema) (pb : Batch).
Context (Hst : store_ok btys st (raw_row btys <$> brows.*2) nx) (Hrows : Forall (row_ok btys) brows.*2).
Context (Hbs : Type_ <$> bsch = btys) (Hps : Type_ <$> psch = ptys) (Hpb : batch_wf ptys D pb).
Context (Hreal : Forall real_type btys) (HM : Forall (Forall (λ c, cell_weight c ≤ M)) brows.*2).
Context (HM0 : 0 ≤ M) (HMW : 1024 * M < 2 ^ 32) (HW : D ≤ W ∧ 1024 * M ≤ W).

Definition valid_pair (p : nat * nat) : Prop := (p.1 < length brows)%nat ∧ (p.2 < evalLen pb)%nat.
Context (ps : list (nat * nat)) (Hv : Forall valid_pair ps) (Hlen : (length ps ≤ BlockRows)%nat).
Abbreviation rs := (out_row brows pb <$> ps).
Abbreviation tys := (out_types btys ptys).
Definition col_ok (v : Vector) (ct : nat * DataType) : Prop :=
  column v ct.2 (length rs) (at_ (col_at ct.1 rs)) ∧ dict_size v ≤ W.

Lemma pair_rows p : p ∈ ps → length (brow brows p.1) = length btys ∧ length (r_cells (row_at pb p.2)) = length ptys ∧
  Forall (λ c, cell_weight c ≤ M) (brow brows p.1).
Proof using All.
  intros Hp. rewrite Forall_forall in Hv. destruct (Hv p Hp) as [H1 H2]. unfold brow.
  destruct (lookup_lt_is_Some_2 brows.*2 p.1) as [row Er]; [by rewrite length_fmap|]. rewrite Er. cbn [from_option id].
  split; [|split; [|exact (Forall_lookup_1 _ _ _ _ HM Er)]].
  - destruct (Forall_lookup_1 _ _ _ _ Hrows Er) as [Hr _]. by eapply Forall2_length.
  - destruct Hpb as ([_ Hvs] & _). cbn [row_at r_cells]. rewrite length_fmap. by eapply Forall2_length.
Qed.

Lemma emit_build c t :
  btys !! c = Some t →
  ∃ v, buildColumnFromRows st (mkPair <$> ps) c t = Ret v ∧ col_ok v (c, join_type t).
Proof using All.
  intros Ht. pose proof (lookup_lt_Some _ _ _ Ht) as Hc. assert (HB : BlockRows = 1024%nat) by done.
  assert (Hwt : weight (build_cells brows c ps) ≤ 1024 * M).
  { assert (El : length (build_cells brows c ps) = length ps) by apply length_fmap.
    assert (weight (build_cells brows c ps) ≤ Z.of_nat (length ps) * M); [|nia]. rewrite <- El. apply weight_le; [|done].
    intros x (p & -> & Hp)%list_elem_of_fmap. rewrite join_cell_weight. destruct (pair_rows p Hp) as (_ & _ & Hw).
    destruct (brow brows p.1 !! c) as [y|] eqn:Ey; [|done]. exact (Forall_lookup_1 _ _ _ _ Hw Ey). }
  destruct (buildColumn_spec btys brows st nx ps c t Hst Hrows) as (v & E & Hcol & Hd); [|done| |lia|].
  - eapply Forall_impl; [exact Hv|]. by intros p [? _].
  - exact (Forall_lookup_1 _ _ _ _ Hreal Ht).
  - exists v. split; [done|]. split; [|lia]. cbn [fst snd]. rewrite length_fmap. eapply column_ext; [exact Hcol|].
    intros i _. unfold col_at. rewrite <- list_fmap_compose. apply at_ext. intros p Hp. unfold compose, out_row.
    destruct (pair_rows p Hp) as (Hl & _ & _). rewrite list_lookup_fmap, lookup_app_l by lia.
    by destruct (brow brows p.1 !! c).
Qed.
Lemma emit_probe c t :
  ptys !! c = Some t →
  ∃ v, probeColumnFromRows pb (mkPair <$> ps) c t = Ret v ∧ col_ok v ((length btys + c)%nat, join_type t).
Proof using All.
  intros Ht. pose proof Hpb as ([HD Hvs] & _). destruct (Forall2_lookup_r _ _ _ _ _ Hvs Ht) as (src & Esrc & Hok & Et & Hlsrc & Hd).
  pose proof (column_self src t (evalLen pb) Hok Et Hlsrc) as Hcol.
  destruct (probeColumn_spec pb src t (evalLen pb) (cell src) ps c Esrc Hcol) as (v & E & Hv' & Hdv).
  - eapply Forall_impl; [exact Hv|]. by intros p [_ ?].
  - destruct (batch_real ptys D pb Hpb) as [Hr _]. exact (Forall_lookup_1 _ _ _ _ Hr Ht).
  - exists v. split; [done|]. split; [|lia]. cbn [fst snd]. rewrite length_fmap. eapply column_ext; [exact Hv'|].
    intros i _. unfold col_at. rewrite <- list_fmap_compose. apply at_ext. intros p Hp. unfold compose, out_row.
    destruct (pair_rows p Hp) as (Hl & _ & _). rewrite list_lookup_fmap, lookup_app_r by lia.
    replace (length btys + c - length (brow brows p.1))%nat with c by lia. cbn [row_at r_cells].
    by rewrite list_lookup_fmap, Esrc.
Qed.

(** The column loops of [emitMatches]. *)
Lemma emit_columns (mkcol : nat → Field → go Vector) (sch : Schema) (tl : list DataType) o vecs0 :
  Type_ <$> sch = tl → Forall2 col_ok vecs0 (take o (enum tys)) → (o + length tl ≤ length tys)%nat → length vecs0 = o →
  (∀ c t, tl !! c = Some t → tys !! (o + c)%nat = Some (join_type t)) →
  (∀ c f, sch !! c = Some f → ∃ v, mkcol c f = Ret v ∧ col_ok v ((o + c)%nat, join_type (Type_ f))) →
  ∃ vecs, foldM (λ vecs '(c, f), v ← mkcol c f; Ret (vecs ++ [v])) vecs0 (enum sch) = Ret vecs ∧
    Forall2 col_ok vecs (take (o + length tl) (enum tys)).
Proof using Type.
  intros Hs H0 Hle Hl0 Hty Hcol.
  destruct (foldM_enum_ind (λ vecs '(c, f), v ← mkcol c f; Ret (vecs ++ [v]))
    (λ k vecs, Forall2 col_ok vecs (take (o + k) (enum tys))) sch vecs0) as (vecs & E & Hvecs).
  - by rewrite Nat.add_0_r.
  - intros k f vecs Hf Hvecs. destruct (Hcol k f Hf) as (v & -> & Hv'). eexists. split; [done|].
    assert (Ht : tys !! (o + k)%nat = Some (join_type (Type_ f))) by (apply Hty; by rewrite <- Hs, list_lookup_fmap, Hf).
    rewrite Nat.add_succ_r, (take_S_r _ _ ((o + k)%nat, join_type (Type_ f))) by by apply lookup_enum.
    apply Forall2_app; [done|]. by constructor.
  - exists vecs. split; [done|]. rewrite <- Hs, length_fmap. done.
Qed.

Lemma emit_batch_spec out_schema :
  ∃ b, (bvecs ← foldM (λ vecs '(c, f), v ← buildColumnFromRows st (mkPair <$> ps) c (Type_ f); Ret (vecs ++ [v])) [] (enum bsch);
        vecs ← foldM (λ vecs '(c, f), v ← probeColumnFromRows pb (mkPair <$> ps) c (Type_ f); Ret (vecs ++ [v])) bvecs (enum psch);
        Ret (mkBatch out_schema vecs (length (mkPair <$> ps)) None)) = Ret b ∧
    batch_wf tys W b ∧ whole b ∧ r_cells <$> rows_of b = rs.
Proof using All.
  assert (Hlt : length tys = (length btys + length ptys)%nat) by (unfold out_types; by rewrite length_fmap, length_app).
  destruct (emit_columns (λ c f, buildColumnFromRows st (mkPair <$> ps) c (Type_ f)) bsch btys 0 [] Hbs) as (bvecs & -> & Hb); [constructor|lia|done| | |].
  { intros c t Ht. unfold out_types. cbn [Nat.add]. rewrite list_lookup_fmap, lookup_app_l by by eapply lookup_lt_Some. by rewrite Ht. }
  { intros c f Hf. apply emit_build. cbn [Nat.add]. by rewrite <- Hbs, list_lookup_fmap, Hf. }
  cbn [mbind go_bind Nat.add] in *. pose proof (Forall2_length _ _ _ Hb) as Hlb. rewrite length_take, length_enum in Hlb.
  destruct (emit_columns (λ c f, probeColumnFromRows pb (mkPair <$> ps) c (Type_ f)) psch ptys (length btys) bvecs Hps Hb) as (vecs & -> & Hvecs); [lia|lia| | |].
  { intros c t Ht. unfold out_types. rewrite list_lookup_fmap, lookup_app_r by lia.
    replace (length btys + c - length btys)%nat with c by lia. by rewrite Ht. }
  { intros c f Hf. apply emit_probe. by rewrite <- Hps, list_lookup_fmap, Hf. }
  cbn [mbind go_bind]. eexists. split; [done|]. rewrite !length_fmap, <- (length_fmap (out_row brows pb) ps).
  rewrite take_ge in Hvecs by (rewrite length_enum; lia). apply columns_batch.
  - eapply Forall2_impl; [exact Hvecs|]. by intros v [c t].
  - destruct (batch_real ptys D pb Hpb) as [_ Hne]. intros E. apply Hne, nil_length_inv. apply (f_equal length) in E. simpl in E. lia.
  - apply Forall_fmap, Forall_forall. intros p Hp. cbn. destruct (pair_rows p Hp) as (H1 & H2 & _).
    unfold out_row. rewrite length_fmap, length_app. lia.
  - by rewrite length_fmap.
  - lia.
Qed.
End EmitBatch.

(** ** Operators whose schema does not change *)

(** The law clients of an operator rely on when they read its schema late. *)
Class StableSchema (S : Type) `{Operator S} : Prop := next_schema : ∀ fuel s, OpSchema (Next fuel s).2 = OpSchema s.
Lemma next_is_schema {S} `{StableSchema S} s r s' : next_is s r s' → OpSchema s' = OpSchema s.
Proof. intros [m Hm]. specialize (Hm m (le_n m)). pose proof (next_schema m s) as E. by rewrite Hm in E. Qed.

(** For the operators of one batch at a time it is a law of their body. *)
Class StablePull (St : Type) `{PullOp St} : Prop :=
  body_schema : ∀ st b o st' s, body st b = Ret (o, st') → out_schema st' s = out_schema st s.
#[export] Instance pull_stable {S St} `{StableSchema S, StablePull St} : StableSchema (Pull S St).
Proof.
  intros fuel [c st]. cbn [Next pull_operator p_child p_state OpSchema].
  cut (∀ k c st, out_schema (p_state (pull fuel k c st).2) (OpSchema (p_child (pull fuel k c st).2)) = out_schema st (OpSchema c)); [auto|].
  clear c st. induction k as [|k IH]; intros c st; [done|]. cbn [pull]. destruct (finished st); [done|].
  pose proof (next_schema fuel c) as Ec. destruct (Next fuel c) as [[[b|]|e| |] c']; cbn [snd] in Ec; cbn [snd p_child p_state]; try by rewrite Ec.
  destruct (body st b) as [[[b'|] st']|e| |] eqn:Eb; cbn [snd p_child p_state]; rewrite ?IH, ?Ec; try done; by apply (body_schema _ _ _ _ _ Eb).
Qed.
#[export] Instance filter_stable : StablePull FilterState.
Proof. by intros ??????. Qed.
#[export] Instance limit_stable : StablePull LimitState.
Proof. by intros ??????. Qed.
#[export] Instance distinct_stable : StablePull DistinctState.
Proof. by intros ??????. Qed.

(** A join's own schema is fixed at construction: joins nest on the probe side. *)
#[export] Instance join_stable {B P} `{Operator B, Operator P, RowCountBound B} : StableSchema (HashJoin B P).
Proof.
  assert (E : ∀ fuel k (j : HashJoin B P), hj_schema (join_loop fuel k j).2 = hj_schema j).
  { intros fuel k. induction k as [|k IH]; intros j; [done|]. cbn [join_loop].
    assert (Ep : ∀ j1 : HashJoin B P, hj_schema j1 = hj_schema j → hj_schema (match probeBatch j1 with
        | None => (Panic, j1)
        | Some pb => on_ret (probeMatches j1 pb) j1 (λ ms, join_loop fuel k (set_probe j1 (hj_probe j1) (Some pb) (b_Length pb) ms 0))
        end).2 = hj_schema j).
    { intros j1 E1. destruct (probeBatch j1) as [pb|]; [|done]. destruct (probeMatches j1 pb); try done. cbn [on_ret]. by rewrite IH. }
    assert (Ee : hj_schema (emitMatches j).2 = hj_schema j).
    { unfold emitMatches. case_decide; [done|]. destruct (slice _ _ _); try done. cbn [on_ret].
      match goal with |- context [on_ret ?r _ _] => by destruct r end. }
    repeat match goal with
    | |- context [decide ?P] => destruct (decide P)
    | |- context [emitMatches j] => destruct (emitMatches j) as [[[b|]|e| |] j1]; cbn [snd] in Ee; try done
    | |- context [if ?b then _ else _] => destruct b
    | |- context [Next fuel ?p] => destruct (Next fuel p) as [[[pb|]|e| |] p']; try done
    end; by apply Ep. }
  intros fuel j. cbn [Next join_operator OpSchema]. unfold join_next, buildHashTable. destruct (buildDone j); [apply E|].
  destruct (hj_build j) as [build|]; [|done]. destruct (buildRowsPresize build) as [rows|e| |]; try done. cbn [on_ret].
  destruct (newJoinHashTable rows) as [t|e| |]; try done. cbn [on_ret].
  destruct (forEachBuildRow _ _ _ _ _) as [[[[]|e| |] [tbl st]] build']; cbn [on_ret]; try done. by rewrite E.
Qed.
#[export] Instance join_bound {B P} : RowCountBound (HashJoin B P) := λ _, None.

(** ** Lemmas: the stream *)

Section Stream.
Context {B P : Type} `{Operator B, Operator P, RowCountBound B}.
Implicit Types s : HashJoin B P.

Definition join_is s (r : go (option Batch)) s' : Prop :=
  ∃ m, ∀ fuel k, (m ≤ fuel)%nat → (m ≤ k)%nat → join_loop fuel k s = (r, s').
Inductive jruns : HashJoin B P → list Batch → option error → HashJoin B P → Prop :=
  | jruns_stop s s' : buildDone s = true → join_is s (Ret None) s' → jruns s [] None s'
  | jruns_error s s' e : buildDone s = true → join_is s (Err e) s' → jruns s [] (Some e) s'
  | jruns_batch s s' b bs o t : buildDone s = true → join_is s (Ret (Some b)) s' → jruns s' bs o t → jruns s (b :: bs) o t.
Lemma join_is_next s r s' : buildDone s = true → join_is s r s' → next_is s r s'.
Proof. intros Hd [m Hm]. exists m. intros fuel Hf. cbn [Next join_operator]. unfold join_next. rewrite Hd. by apply Hm. Qed.
Lemma jruns_to s bs o t : jruns s bs o t → runs_to s bs o t.
Proof.
  induction 1; [eapply runs_to_end|eapply runs_to_error|eapply runs_to_batch]; try by apply join_is_next. done.
Qed.
(** A turn of the loop that delivers nothing. *)
Lemma jruns_turn s s' bs o t :
  buildDone s = true → (∃ m, ∀ fuel k, (m ≤ fuel)%nat → join_loop fuel (Datatypes.S k) s = join_loop fuel k s') →
  jruns s' bs o t → jruns s bs o t.
Proof.
  intros Hd [m Hm] Hr.
  assert (Hj : ∀ r s2, join_is s' r s2 → join_is s r s2).
  { intros r s2 [m' Hm']. exists (Datatypes.S (m `max` m')). intros fuel [|k] Hf Hk; [lia|]. rewrite Hm by lia. apply Hm'; lia. }
  inversion Hr; subst; [eapply jruns_stop|eapply jruns_error|eapply jruns_batch]; eauto.
Qed.

Context `{!StableSchema P} (btys ptys : list DataType) (D M W : Z) (brows : list (Z * list (option Cell))).
Context (j : HashJoin B P).
Context (Hdone : buildDone j = true) (Hbuilt : built btys brows (parts j) (partMask j) (hj_store j)).
Context (Hrows : Forall (row_ok btys) brows.*2) (Hbs : Type_ <$> buildSchema j = btys).
Context (Hpk : (probeKey j < length ptys)%nat).
Context (Hreal : Forall real_type btys) (HM : Forall (Forall (λ c, cell_weight c ≤ M)) brows.*2).
Context (HM0 : 0 ≤ M) (HMW : 1024 * M < 2 ^ 32) (HW : D ≤ W ∧ 1024 * M ≤ W).
Abbreviation st := (set_probe j).
Abbreviation tys := (out_types btys ptys).

Lemma emitMatches_spec p pb pos ps mpos :
  Type_ <$> OpSchema p = ptys → batch_wf ptys D pb → Forall (valid_pair brows pb) ps → (mpos < length ps)%nat →
  let e := Nat.min (mpos + BlockRows) (length ps) in
  ∃ b, emitMatches (st p (Some pb) pos (mkPair <$> ps) mpos) = (Ret (Some b), st p (Some pb) pos (mkPair <$> ps) e) ∧
    batch_wf tys W b ∧ whole b ∧ r_cells <$> rows_of b = out_row brows pb <$> take (e - mpos) (drop mpos ps).
Proof using All.
  intros Hp Hpb Hps Hm e. assert (HB : BlockRows = 1024%nat) by done. destruct Hbuilt as (nx & Hst & _).
  destruct (emit_batch_spec btys ptys D M W brows (hj_store j) nx (buildSchema j) (OpSchema p) pb Hst Hrows Hbs Hp Hpb Hreal HM HM0 HMW HW
    (take (e - mpos) (drop mpos ps))) with (out_schema := hj_schema j) as (b & Eb & Hb).
  - by apply Forall_take, Forall_drop.
  - rewrite length_take. lia.
  - exists b. split; [|done]. unfold emitMatches. cbn [set_probe matchPos matchBuf probeBatch hj_probe probePos buildSchema hj_store hj_schema].
    rewrite length_fmap. fold e. rewrite decide_False by lia. rewrite slice_Ret by (rewrite ?length_fmap; lia). cbn [on_ret].
    rewrite <- fmap_drop, <- fmap_take, Eb. done.
Qed.

(** The pending matches of a probe batch, then whatever follows. *)
Lemma pending_stream p pb ps rest o t :
  Type_ <$> OpSchema p = ptys → batch_wf ptys D pb → Forall (valid_pair brows pb) ps →
  (∃ out, jruns (st p (Some pb) (b_Length pb) (mkPair <$> ps) (length ps)) out o t ∧ Forall (batch_wf tys W) out ∧
     Forall whole out ∧ r_cells <$> all_rows out = rest) →
  ∀ mpos, (mpos ≤ length ps)%nat →
  ∃ out, jruns (st p (Some pb) (b_Length pb) (mkPair <$> ps) mpos) out o t ∧ Forall (batch_wf tys W) out ∧
    Forall whole out ∧ r_cells <$> all_rows out = (out_row brows pb <$> drop mpos ps) ++ rest.
Proof using All.
  intros Hp Hpb Hps Hrest. assert (HB : BlockRows = 1024%nat) by done.
  assert (C : ∀ n mpos, (length ps - mpos ≤ n)%nat → (mpos ≤ length ps)%nat →
    ∃ out, jruns (st p (Some pb) (b_Length pb) (mkPair <$> ps) mpos) out o t ∧ Forall (batch_wf tys W) out ∧
    Forall whole out ∧ r_cells <$> all_rows out = (out_row brows pb <$> drop mpos ps) ++ rest);
    [|intros mpos Hm; apply (C (length ps)); lia].
  induction n as [|n IH]; intros mpos Hn Hle.
  { replace mpos with (length ps) by lia. by rewrite drop_ge. }
  destruct (decide (mpos < length ps)%nat) as [Hlt|]; [|apply IH; lia].
  destruct (emitMatches_spec p pb (b_Length pb) ps mpos Hp Hpb Hps Hlt) as (b & Eb & Hwf & Hwh & Hb).
  set (e := Nat.min (mpos + BlockRows) (length ps)) in *.
  destruct (IH e) as (out & Hout & Hwfs & Hwhs & Hall); [lia..|]. exists (b :: out). split; [|do 2 (split; [by constructor|])].
  - eapply jruns_batch; [done| |exact Hout]. exists 1%nat. intros fuel [|k] _ Hk; [lia|]. cbn [join_loop].
    cbn [set_probe matchPos matchBuf]. rewrite decide_True by (rewrite length_fmap; lia). fold (st p (Some pb) (b_Length pb) (mkPair <$> ps) mpos).
    by rewrite Eb.
  - unfold all_rows in *. cbn [fmap list_fmap concat]. rewrite fmap_app, Hb, Hall, app_assoc, <- fmap_app. f_equal. f_equal.
    rewrite <- (take_drop (e - mpos) (drop mpos ps)) at 2. rewrite drop_drop. do 2 f_equal. lia.
Qed.

(** Nothing pending: the next turn pulls a probe batch. *)
Definition idle (pbo : option Batch) (pos : nat) (ms : list joinRow) (mpos : nat) : Prop :=
  (length ms ≤ mpos)%nat ∧ match pbo with None => True | Some pb => (b_Length pb ≤ pos)%nat end.
Lemma idle_pull p pbo pos ms mpos fuel k :
  idle pbo pos ms mpos →
  join_loop fuel (Datatypes.S k) (st p pbo pos ms mpos) =
  match Next fuel p with
  | (Ret None, p) => (Ret None, st p pbo pos ms mpos)
  | (Ret (Some pb), p) =>
      on_ret (probeMatches (st p (Some pb) 0 ms mpos) pb) (st p (Some pb) 0 ms mpos) (λ ms,
      join_loop fuel k (st p (Some pb) (b_Length pb) ms 0))
  | (Err e, p) => (Err e, st p pbo pos ms mpos)
  | (Panic, p) => (Panic, st p pbo pos ms mpos)
  | (OutOfFuel, p) => (OutOfFuel, st p pbo pos ms mpos)
  end.
Proof using Type.
  clear Hpk. intros [Hm Hpb]. cbn [join_loop]. cbn [set_probe matchPos matchBuf probeBatch probePos hj_probe].
  rewrite decide_False by lia.
  assert (E : (match pbo with None => true | Some pb => bool_decide (b_Length pb ≤ pos)%nat end) = true).
  { destruct pbo as [pb|]; [by apply bool_decide_eq_true|done]. }
  rewrite E. by destruct (Next fuel p) as [[[pb|]|e| |] p'].
Qed.

Lemma pairs_valid pb pk : batch_wf ptys D pb → Forall (valid_pair brows pb) (pairs brows pk pb).
Proof using Type.
  intros (_ & _ & _ & Hi & _). apply Forall_forall. intros p Hp. destruct (pairs_in _ _ _ _ Hp) as [? Hin].
  split; [done|]. rewrite Forall_forall in Hi. by apply Hi.
Qed.

Lemma idle_stream p pbs o p' pbo pos ms mpos :
  runs_to p pbs o p' → Forall (batch_wf ptys D) pbs → Type_ <$> OpSchema p = ptys → idle pbo pos ms mpos →
  ∃ out pbo' pos' ms' mpos', jruns (st p pbo pos ms mpos) out o (st p' pbo' pos' ms' mpos') ∧
    Forall (batch_wf tys W) out ∧ Forall whole out ∧
    r_cells <$> all_rows out = concat ((λ pb, out_row brows pb <$> pairs brows (probeKey j) pb) <$> pbs).
Proof using All.
  intros Hr. revert pbo pos ms mpos. induction Hr as [p p' Hn|p p' e Hn|p pb p' pbs o p2 Hn Hr IH]; intros pbo pos ms mpos Hpbs Hp Hidle.
  - exists [], pbo, pos, ms, mpos. split; [|done]. eapply (jruns_stop _ (st p' pbo pos ms mpos)); [done|]. destruct Hn as [m Hm].
    exists (Datatypes.S m). intros fuel [|k] Hf Hk; [lia|]. by rewrite idle_pull, Hm by (done || lia).
  - exists [], pbo, pos, ms, mpos. split; [|done]. eapply (jruns_error _ (st p' pbo pos ms mpos)); [done|]. destruct Hn as [m Hm].
    exists (Datatypes.S m). intros fuel [|k] Hf Hk; [lia|]. by rewrite idle_pull, Hm by (done || lia).
  - apply Forall_cons in Hpbs as [Hpb Hpbs]. assert (Hp' : Type_ <$> OpSchema p' = ptys) by by rewrite (next_is_schema _ _ _ Hn).
    set (ps := pairs brows (probeKey j) pb).
    destruct (IH (Some pb) (b_Length pb) (mkPair <$> ps) (length ps) Hpbs Hp') as (out & pbo' & pos' & ms' & mpos' & Hout & H1' & H2' & Hall).
    { split; [by rewrite length_fmap|done]. }
    destruct (pending_stream p' pb ps _ o _ Hp' Hpb (pairs_valid pb _ Hpb) (ex_intro _ out (conj Hout (conj H1' (conj H2' Hall)))) 0%nat)
      as (out2 & Hout2 & Hw2 & Hwh2 & Hall2); [lia|].
    exists out2, pbo', pos', ms', mpos'. split; [|split; [done|split; [done|]]].
    + eapply jruns_turn; [done| |exact Hout2]. destruct Hn as [m Hm]. exists m. intros fuel k Hf.
      rewrite idle_pull, Hm by done.
      rewrite (probeMatches_spec btys ptys D brows (st p' (Some pb) 0 ms mpos) Hbuilt pb Hpb Hpk). done.
    + rewrite Hall2. by rewrite drop_0.
Qed.
End Stream.

(** ** Lemmas: what the pairs mean *)

Lemma pairs_joined bk pk (brs : list (list (option Cell))) brows pb :
  answers bk brs brows →
  out_row brows pb <$> pairs brows pk pb = fmap join_cell <$> joined bk pk brs (r_cells <$> rows_of pb).
Proof.
  intros Ha. unfold pairs, joined, rows_of. induction (sel_rows pb) as [|i l IH]; [done|].
  cbn [fmap list_fmap concat]. rewrite !fmap_app, IH. f_equal. unfold row_pairs.
  destruct (key_of pk (r_cells (row_at pb i))) as [k|]; [|done]. rewrite <- !list_fmap_compose.
  assert (E : (λ r, brow brows r) <$> match_rows brows k = filter (λ b, key_of bk b = Some k) brs).
  { pose proof (f_equal (fmap (default [])) (match_rows_filter brows k)) as E. rewrite (Ha k), <- !list_fmap_compose in E.
    etrans; [exact E|]. rewrite <- (list_fmap_id (filter _ _)) at 2. by apply list_fmap_ext. }
  rewrite <- E, <- !list_fmap_compose. by apply list_fmap_ext.
Qed.
Lemma joined_batches bk pk (brs : list (list (option Cell))) brows (pbs : list Batch) :
  answers bk brs brows →
  concat (list_fmap _ _ (λ pb, out_row brows pb <$> pairs brows pk pb) pbs)
  = list_fmap _ _ (list_fmap _ _ join_cell) (joined bk pk brs (r_cells <$> all_rows pbs)).
Proof.
  intros Ha. induction pbs as [|pb pbs IH]; [done|]. unfold all_rows in *. cbn [fmap list_fmap concat].
  rewrite IH, (pairs_joined bk pk brs brows pb Ha).
  unfold joined. by rewrite (fmap_app r_cells), fmap_app, concat_app, fmap_app.
Qed.

(** A join over a finished table that answers for the rows [brs], nothing pending. *)
Lemma built_stream {B P} `{Operator B, Operator P, RowCountBound B, !StableSchema P} btys ptys D M W brows (j : HashJoin B P) brs p pbs o p' pbo pos ms mpos :
  buildDone j = true → built btys brows (parts j) (partMask j) (hj_store j) → answers (buildKey j) brs brows →
  Forall (row_ok btys) brows.*2 → Type_ <$> buildSchema j = btys → (probeKey j < length ptys)%nat → Forall real_type btys →
  Forall (Forall (λ c, cell_weight c ≤ M)) brows.*2 → 0 ≤ M → 1024 * M < 2 ^ 32 → D ≤ W ∧ 1024 * M ≤ W →
  runs_to p pbs o p' → Forall (batch_wf ptys D) pbs → Type_ <$> OpSchema p = ptys → idle pbo pos ms mpos →
  ∃ out pbo' pos' ms' mpos', runs_to (set_probe j p pbo pos ms mpos) out o (set_probe j p' pbo' pos' ms' mpos') ∧
    Forall (batch_wf (out_types btys ptys) W) out ∧ Forall whole out ∧
    r_cells <$> all_rows out = fmap join_cell <$> joined (buildKey j) (probeKey j) brs (r_cells <$> all_rows pbs).
Proof.
  intros Hd Hb Ha Hrows Hbs Hpk Hreal HM HM0 HMW HW Hr Hpbs Hp Hidle.
  destruct (idle_stream btys ptys D M W brows j Hd Hb Hrows Hbs Hpk Hreal HM HM0 HMW HW p pbs o p' pbo pos ms mpos Hr Hpbs Hp Hidle)
    as (out & pbo' & pos' & ms' & mpos' & Hout & Hwf & Hwh & Hall).
  exists out, pbo', pos', ms', mpos'. split; [by apply jruns_to|]. split; [done|]. split; [done|]. rewrite Hall. by apply joined_batches.
Qed.
Lemma keyed_cells_length kc rs : (length (keyed_cells kc rs) ≤ length rs)%nat.
Proof. unfold keyed_cells. induction rs as [|r rs IH]; [done|]. cbn. destruct (key_of kc r); cbn in *; lia. Qed.
Lemma keyed_cells_Forall (Q : list (option Cell) → Prop) kc rs : Forall Q rs → Forall Q (keyed_cells kc rs).*2.
Proof.
  intros Hrs. apply Forall_forall. intros r ([k r'] & -> & Hin)%list_elem_of_fmap. unfold keyed_cells in Hin.
  apply list_elem_of_omap in Hin as (x & Hx & E). destruct (key_of kc x); [|done]. injection E as <- <-.
  rewrite Forall_forall in Hrs. by apply Hrs.
Qed.
Lemma presize_range {S} `{RowCountBound S} (src : S) n : buildRowsPresize src = Ret n → 0 ≤ n ≤ maxBuildRows.
Proof.
  assert (H0 : 0 ≤ 0 ≤ maxBuildRows) by (unfold maxBuildRows; lia).
  unfold buildRowsPresize. destruct (row_bound src) as [[[rows []]|e| |]|]; cbn [mbind go_bind]; intros [= <-]; try done.
  unfold presizeRows. case_decide; [done|lia].
Qed.

(** ** Property *)

Lemma join_runs {B P} `{Operator B, StableSchema P, RowCountBound B} btys ptys D M W (build : B) (probe : P) bk pk n bbs bo pbs po :
  runs build bbs bo → runs probe pbs po → Forall (batch_wf btys D) bbs → Forall (batch_wf ptys D) pbs →
  Forall row_fits (all_rows bbs) → Type_ <$> OpSchema build = btys → Type_ <$> OpSchema probe = ptys →
  (bk < length btys)%nat → (pk < length ptys)%nat → Forall real_type btys → buildRowsPresize build = Ret n →
  Z.of_nat (length (all_rows bbs)) ≤ maxBuildRows →
  Forall (λ r, Forall (λ c, cell_weight c ≤ M) (r_cells r)) (all_rows bbs) → 0 ≤ M → 1024 * M < 2 ^ 32 → D ≤ W ∧ 1024 * M ≤ W →
  ∃ j, NewHashJoin build probe (Z.of_nat bk) (Z.of_nat pk) = Ret j ∧
  match bo with
  | Some e => runs j [] (Some e)
  | None => ∃ out, runs j out po ∧ Forall (batch_wf (out_types btys ptys) W) out ∧ Forall whole out ∧
      r_cells <$> all_rows out = fmap join_cell <$> joined bk pk (r_cells <$> all_rows bbs) (r_cells <$> all_rows pbs)
  end.
Proof.
  intros Hb Hp Hbw Hpw Hfit Hbs Hps Hbk Hpk Hreal Hpre Hmax HM HM0 HMW HW.
  assert (Hlb : length (OpSchema build) = length btys) by (by rewrite <- Hbs, length_fmap).
  assert (Hlp : length (OpSchema probe) = length ptys) by (by rewrite <- Hps, length_fmap).
  eexists. split; [unfold NewHashJoin; rewrite !decide_False by lia; done|]. rewrite !Nat2Z.id.
  set (j0 := mkHashJoin _ _ _ _ _ _ _ _ _ _ _ _ _ _). set (brows := keyed_cells bk (r_cells <$> all_rows bbs)).
  assert (Hlen : (length brows ≤ length (all_rows bbs))%nat).
  { rewrite <- (length_fmap r_cells (all_rows bbs)). apply keyed_cells_length. }
  destruct (buildHashTable_spec btys D j0 build bbs bo n eq_refl Hb Hbw Hbs Hbk Hpre (presize_range _ _ Hpre))
    as (build' & tbl & st & m & Hbuild & Hbg); [change (buildKey j0) with bk; fold brows; lia|]. change (buildKey j0) with bk in Hbg. fold brows in Hbg.
  destruct bo as [e|].
  - eapply (runs_error _ (set_build j0 (Some build') [tbl] st false)). exists m. intros fuel Hf.
    cbn [Next join_operator]. unfold join_next. cbn [buildDone j0]. by rewrite Hbuild by done.
  - set (j1 := set_build j0 (Some build') [tbl] st true).
    pose proof (rows_row_ok btys D bbs Hbw Hfit) as Hok.
    apply runs_runs_to in Hp as (probe' & Hp).
    destruct (built_stream btys ptys D M W brows j1 (r_cells <$> all_rows bbs) probe pbs po probe' None 0 [] 0 eq_refl (building_built _ _ _ _ _ Hbg))
      as (out & ? & ? & ? & ? & Hout%runs_to_runs & Hwf & Hwh & Hall); try done.
    + intros key. apply keyed_cells_filter.
    + by apply keyed_cells_Forall.
    + apply keyed_cells_Forall. by apply Forall_fmap.
    + exists out. split; [|done]. eapply runs_retry; [|exact Hout]. exists m. intros fuel Hf.
      cbn [Next join_operator]. unfold join_next. cbn [buildDone j0 j1 set_probe set_build]. by rewrite Hbuild by done.
Qed.

(** C29: HashJoin is the inner equi-join.  Over any build and probe sides, it
    delivers, in whole batches of at most 1024 rows, exactly: for each probe
    row in order whose key is not NULL, each build row whose key is the same
    64-bit word, in build order, the build cells then the probe cells; whether or
    not the build side announced its row count, and however both sides cut their
    rows into batches.  A BOOL column comes out as an INT64 column of 0 and 1.
    An error of the build side is the error of the join, before any row; the
    probe side's error comes after the matches of the batches before it. *)
Theorem join_rows {B P} `{Operator B, StableSchema P, RowCountBound B} btys ptys D M W (build : B) (probe : P) bk pk n bbs bo pbs po :
  runs build bbs bo → runs probe pbs po → Forall (batch_wf btys D) bbs → Forall (batch_wf ptys D) pbs →
  Forall row_fits (all_rows bbs) → Type_ <$> OpSchema build = btys → Type_ <$> OpSchema probe = ptys →
  (bk < length btys)%nat → (pk < length ptys)%nat → Forall real_type btys → buildRowsPresize build = Ret n →
  Z.of_nat (length (all_rows bbs)) ≤ maxBuildRows →
  Forall (λ r, Forall (λ c, cell_weight c ≤ M) (r_cells r)) (all_rows bbs) → 0 ≤ M → 1024 * M < 2 ^ 32 → D ≤ W ∧ 1024 * M ≤ W →
  ∃ j, NewHashJoin build probe (Z.of_nat bk) (Z.of_nat pk) = Ret j ∧
  match bo with
  | Some e => runs j [] (Some e)
  | None => ∃ out, runs j out po ∧ Forall (batch_wf (out_types btys ptys) W) out ∧ Forall whole out ∧
      r_cells <$> all_rows out = fmap join_cell <$> joined bk pk (r_cells <$> all_rows bbs) (r_cells <$> all_rows pbs)
  end.
Proof. apply join_runs. Qed.

(** ** An operator over given batches with a schema of its own, for the examples *)

Record Table : Type := tableOf { t_schema : Schema; t_batches : list Batch }.
#[export] Instance table_operator : Operator Table := {
  Next _ t := match t_batches t with [] => (Ret None, t) | b :: bs => (Ret (Some b), tableOf (t_schema t) bs) end;
  OpSchema := t_schema
}.
#[export] Instance table_stable : StableSchema Table.
Proof. by intros fuel [sch [|b bs]]. Qed.
#[export] Instance table_bound : RowCountBound Table :=
  λ t, Some (Ret (Z.of_nat (length (all_rows (t_batches t))), true)).
Lemma runs_table sch bs : runs (tableOf sch bs) bs None.
Proof.
  induction bs as [|b bs IH].
  - apply (runs_end _ (tableOf sch [])). by exists 0%nat.
  - apply (runs_batch _ _ (tableOf sch bs)); [by exists 0%nat|done].
Qed.

(** Two build rows share the key 5 and one has none; the build side has a BOOL column. *)
Definition ex_build : Table :=
  tableOf [mkField "k" TypeInt64 EncPlain true; mkField "b" TypeBool EncPlain true]
    [mkBatch [] [Int64Vector [5; 7; 0] [3]; BoolVector [3] [7] 3] 3 None; mkBatch [] [Int64Vector [5] [1]; BoolVector [0] [1] 1] 1 None].
Definition ex_probe : Table :=
  tableOf [mkField "p" TypeInt64 EncPlain true] [mkBatch [] [Int64Vector [7; 5; 0; 9] [11]] 3 (Some [0; 2; 1])].
Lemma join_rows_witness :
  ∃ j, NewHashJoin ex_build ex_probe 0 0 = Ret j ∧
  ∃ out, runs j out None ∧ Forall (batch_wf [TypeInt64; TypeInt64; TypeInt64] 1024) out ∧ Forall whole out ∧
    r_cells <$> all_rows out =
      [[Some (CInt 7); Some (CInt 1); Some (CInt 7)]; [Some (CInt 5); Some (CInt 1); Some (CInt 5)];
       [Some (CInt 5); Some (CInt 0); Some (CInt 5)]].
Proof.
  apply (join_rows [TypeInt64; TypeBool] [TypeInt64] 0 1 1024 ex_build ex_probe 0 0 4 (t_batches ex_build) None (t_batches ex_probe) None).
  - apply runs_table.
  - apply runs_table.
  - repeat constructor; try done; vm_compute; try lia; try done; repeat constructor; lia.
  - repeat constructor; try done; vm_compute; try lia; try done; repeat constructor; lia.
  - repeat constructor; vm_compute; try lia; done.
  - reflexivity.
  - reflexivity.
  - vm_compute; lia.
  - vm_compute; lia.
  - repeat constructor.
  - reflexivity.
  - vm_compute; discriminate.
  - repeat constructor; vm_compute; congruence.
  - lia.
  - lia.
  - lia.
Defined.

(** The schema of a join still calls a BOOL column BOOL, where its batches hold an
    INT64 vector: an operator above that asserts a BoolVector panics. *)
Example join_bool_column :
  match NewHashJoin ex_build ex_probe 0 0 with
  | Ret j =>
      (Type_ <$> OpSchema j) = [TypeInt64; TypeBool; TypeInt64] ∧
      (match Next 10 j with (Ret (Some b), _) => VType <$> Vectors b | _ => [] end) = [TypeInt64; TypeInt64; TypeInt64]
  | _ => False
  end.
Proof. split; vm_compute; reflexivity. Qed.
