(* ===== verification/Pool.v ===== *)
(** * Package exec: the morsel queue and the workers ([exec/parallel.go], [exec/parallel_join.go])

    Parallel operators share one shape: some goroutines claim morsels from an
    atomic cursor, work on each, and send one result to the goroutine that
    started them.  [pool_step] is that machine, with every interleaving of the
    workers; what a worker does with a morsel is a parameter.  The theorems: every
    execution ends; then either every morsel was claimed by exactly one worker
    and finished, or the error collected is the error of some morsel, never the
    cancellation that error caused. *)
From Stdlib Require Import ZArith Lia ZifyNat.
From stdpp Require Import base numbers list relations strings.
From S2P Require Import Prelude.
#[local] Open Scope Z_scope.

(** ** The queue *)

Record morselQueue : Type := mkQueue { q_next : Z; q_end : Z }.
(** [next.Add(size)] is one atomic step. *)
Definition claim (q : morselQueue) (size : Z) : option (Z * Z) * morselQueue :=
  let next := to_i64 (q_next q + size) in
  let start := to_i64 (next - size) in
  let q := mkQueue next (q_end q) in
  if decide (q_end q ≤ start) then (None, q) else
  let stop := to_i64 (start + size) in
  (Some (start, if decide (q_end q < stop) then q_end q else stop), q).

(** ** The workers *)

Definition canceled : error := ErrMsg "context canceled".

Section Pool.
Context {L J Sh : Type} (size : Z).
(** A worker's own state is [L] between morsels and [J] on one; [Sh] is what the
    workers share besides the queue.  [task] is one step on a morsel, [finish]
    what a worker does before it sends its state. *)
Context (begin : Z → Z → L → J) (task : J → Sh → Sh → J + go L → Prop) (finish : L → go L) (cancels : bool).

(** A worker carries the indices of the morsels it has claimed, which the code
    does not keep: they name what its state has seen. *)
Inductive worker : Type :=
  | Idle (mine : list nat) (l : L)
  | Busy (mine : list nat) (i : nat) (j : J)
  | Gone.
(** [sent]: the results in the order the collecting goroutine receives them. *)
Record conf : Type := mkConf {
  queue : morselQueue; shared : Sh; workers : list worker; sent : list (list nat * go L)
}.
Definition start (n : nat) (l : L) (sh : Sh) (total : Z) : conf :=
  mkConf (mkQueue 0 total) sh (replicate n (Idle [] l)) [].
Definition with_worker (c : conf) (w : nat) (x : worker) (q : morselQueue) (sh : Sh) : conf :=
  mkConf q sh (<[w := x]> (workers c)) (sent c).
Definition send (c : conf) (w : nat) (sh : Sh) (q : morselQueue) (mine : list nat) (r : go L) : conf :=
  mkConf q sh (<[w := Gone]> (workers c)) (sent c ++ [(mine, r)]).

(** One step of one worker.  When a failure has been received and [cancels], the
    context of the others is cancelled and any of them may stop. *)
Inductive pool_step (c : conf) : conf → Prop :=
  | step_claim w mine l a b q :
      workers c !! w = Some (Idle mine l) → claim (queue c) size = (Some (a, b), q) →
      pool_step c (with_worker c w (Busy mine (Z.to_nat (a `div` size)) (begin a b l)) q (shared c))
  | step_exhausted w mine l q :
      workers c !! w = Some (Idle mine l) → claim (queue c) size = (None, q) →
      pool_step c (send c w (shared c) q mine (finish l))
  | step_work w mine i j sh j' :
      workers c !! w = Some (Busy mine i j) → task j (shared c) sh (inl j') →
      pool_step c (with_worker c w (Busy mine i j') (queue c) sh)
  | step_done w mine i j sh l :
      workers c !! w = Some (Busy mine i j) → task j (shared c) sh (inr (Ret l)) →
      pool_step c (with_worker c w (Idle (mine ++ [i]) l) (queue c) sh)
  | step_fail w mine i j sh r :
      workers c !! w = Some (Busy mine i j) → task j (shared c) sh (inr r) → (∀ l, r ≠ Ret l) →
      pool_step c (send c w sh (queue c) (mine ++ [i]) r)
  | step_cancel w mine i j :
      workers c !! w = Some (Busy mine i j) → cancels = true → (∃ e, Err e ∈ (sent c).*2) →
      pool_step c (send c w (shared c) (queue c) (mine ++ [i]) (Err canceled)).
Definition final (c : conf) : Prop := Forall (.= Gone) (workers c).
End Pool.
Arguments Idle {L J}. Arguments Busy {L J}. Arguments Gone {L J}. Arguments mkConf {L J Sh}.
Arguments queue {L J Sh}. Arguments shared {L J Sh}. Arguments workers {L J Sh}. Arguments sent {L J Sh}.

(** What the collecting goroutine makes of the results: a panic ends the
    program, otherwise the first error received counts. *)
Fixpoint first_error {L} (rs : list (go L)) : go (list L) :=
  match rs with
  | [] => Ret []
  | Ret l :: rs => ls ← first_error rs; Ret (l :: ls)
  | Err e :: _ => Err e
  | Panic :: _ => Panic
  | OutOfFuel :: _ => OutOfFuel
  end.
Definition is_panic {L} (r : go L) : bool := match r with Panic => true | _ => false end.
Definition is_outoffuel {L} (r : go L) : bool := match r with OutOfFuel => true | _ => false end.
Definition collect {L} (rs : list (go L)) : go (list L) :=
  if existsb is_panic rs then Panic else if existsb is_outoffuel rs then OutOfFuel else first_error rs.

(** ** Lemmas: the queue *)

(** Morsel [i] of [total] row groups taken [size] at a time. *)
Definition morsels (size total : Z) : nat := Z.to_nat ((total + size - 1) `div` size).
Definition m_start (size : Z) (i : nat) : Z := Z.of_nat i * size.
Definition m_stop (size total : Z) (i : nat) : Z := Z.min (m_start size i + size) total.

Lemma morsels_lt size total i : 0 < size → 0 ≤ total → (i < morsels size total)%nat ↔ m_start size i < total.
Proof.
  intros Hs Ht. unfold morsels, m_start.
  pose proof (Z.div_pos (total + size - 1) size ltac:(lia) Hs).
  pose proof (Z.mul_div_le (total + size - 1) size Hs). pose proof (Z.mul_succ_div_gt (total + size - 1) size Hs). nia.
Qed.
Lemma claim_spec size total k :
  0 < size → 0 ≤ total → m_start size k + size + size < 2 ^ 63 →
  claim (mkQueue (m_start size k) total) size =
    (if decide (k < morsels size total)%nat then Some (m_start size k, m_stop size total k) else None, mkQueue (m_start size (S k)) total).
Proof.
  intros Hs Ht Hb. assert (H0 : 0 ≤ m_start size k) by (unfold m_start; lia). unfold claim. cbn [q_next q_end].
  assert (Hin : ∀ z, 0 ≤ z < 2 ^ 63 → to_i64 z = z) by (intros z Hz; apply wrapS_id; [done|unfold inS; lia]).
  rewrite (Hin (m_start size k + size)) by lia. rewrite (Hin (m_start size k + size - size)) by lia.
  replace (m_start size k + size - size) with (m_start size k) by lia.
  replace (m_start size (S k)) with (m_start size k + size) by (unfold m_start; lia).
  pose proof (morsels_lt size total k Hs Ht). rewrite (Hin (m_start size k + size)) by lia. unfold m_stop.
  destruct (decide (k < morsels size total)%nat); case_decide; try lia; [|done]. do 3 f_equal. case_decide; lia.
Qed.
Lemma m_start_div size i : 0 < size → Z.to_nat (m_start size i `div` size) = i.
Proof. intros Hs. unfold m_start. rewrite Z.div_mul by lia. lia. Qed.

(** ** Lemmas: the machine *)

Section Facts.
Context {L J Sh : Type} (size : Z) (begin : Z → Z → L → J) (task : J → Sh → Sh → J + go L → Prop) (finish : L → go L) (cancels : bool).
Context (n : nat) (total : Z) (l0 : L) (sh0 : Sh).
Context (Hsize : 0 < size) (Htotal : 0 ≤ total) (Hn : (0 < n)%nat) (Hroom : total + (Z.of_nat n + 2) * size < 2 ^ 63).
Abbreviation N := (morsels size total).
Abbreviation worker := (@worker L J).
Abbreviation conf := (@conf L J Sh).
Abbreviation step := (pool_step size begin task finish cancels).

(** What a morsel is: still in the queue, being worked on by a worker that has
    finished the morsels [mine], or finished. *)
Inductive status : Type := Todo | Doing (mine : list nat) (j : J) | Finished.
(** [Own i s sh]: what holds of the shared state for morsel [i]; [Loc ms l]: what
    a worker's state is once it has finished [ms]; [Fin] what it sends; [Bad]: the
    errors a morsel can end in. *)
Context (Own : nat → status → Sh → Prop) (Loc Fin : list nat → L → Prop) (Bad : error → Prop).
Context (Hloc : Loc [] l0) (Htodo : ∀ i, (i < N)%nat → Own i Todo sh0).
Context (Hbegin : ∀ i mine l sh, (i < N)%nat → Loc mine l → Own i Todo sh →
  Own i (Doing mine (begin (m_start size i) (m_stop size total i) l)) sh).
Context (Htask : ∀ i mine j sh sh' r, (i < N)%nat → Own i (Doing mine j) sh → task j sh sh' r →
  match r with
  | inl j' => Own i (Doing mine j') sh'
  | inr (Ret l) => Own i Finished sh' ∧ Loc (mine ++ [i]) l
  | inr (Err e) => Bad e
  | inr _ => False
  end).
Context (Hframe : ∀ i mine j sh sh' r i' s, (i < N)%nat → (i' < N)%nat → Own i (Doing mine j) sh → task j sh sh' r →
  i' ≠ i → Own i' s sh → Own i' s sh').
Context (Hfinish : ∀ mine l, Loc mine l → ∃ l', finish l = Ret l' ∧ Fin mine l').

Definition claims (x : worker) : list nat :=
  match x with Idle mine _ => mine | Busy mine i _ => mine ++ [i] | Gone => [] end.
Definition worker_ok (sh : Sh) (x : worker) : Prop :=
  match x with
  | Idle mine l => Loc mine l ∧ ∀ i, i ∈ mine → Own i Finished sh
  | Busy mine i j => Own i (Doing mine j) sh ∧ ∀ i, i ∈ mine → Own i Finished sh
  | Gone => True
  end.
(** A result: the state of a worker that found the queue empty, or an error. *)
Definition good_result (sh : Sh) (p : list nat * go L) : Prop :=
  ∃ l, p.2 = Ret l ∧ Fin p.1 l ∧ ∀ i, i ∈ p.1 → Own i Finished sh.
Definition results_ok (sh : Sh) (ps : list (list nat * go L)) : Prop :=
  Forall (good_result sh) ps ∨ ∃ ps1 ms e ps2, ps = ps1 ++ (ms, Err e) :: ps2 ∧ Bad e ∧ Forall (good_result sh) ps1 ∧
    Forall (λ p, match p.2 with Ret _ | Err _ => True | _ => False end) ps2.

Definition alive (ws : list worker) : nat := sum_list_with (λ x, match x with Gone => 0%nat | _ => 1%nat end) ws.
(** With [k] claims made; the order of the workers does not matter. *)
Record inv (k : nat) (ws : list worker) (sh : Sh) (ps : list (list nat * go L)) : Prop := {
  inv_claims : (k ≤ N + length ps)%nat;
  inv_alive : (length ps + alive ws = n)%nat;
  inv_split : concat (claims <$> ws) ++ concat ps.*1 ≡ₚ seq 0 (k `min` N);
  inv_workers : Forall (worker_ok sh) ws;
  inv_results : results_ok sh ps;
  inv_todo : ∀ i, (k ≤ i < N)%nat → Own i Todo sh;
  inv_drained : ∀ p l, p ∈ ps → p.2 = Ret l → (N ≤ k)%nat
}.
Definition conf_ok (c : conf) : Prop :=
  ∃ k, queue c = mkQueue (m_start size k) total ∧ inv k (workers c) (shared c) (sent c).

Lemma inv_perm k ws ws' sh ps : ws ≡ₚ ws' → inv k ws sh ps → inv k ws' sh ps.
Proof using All.
  intros E [H1 H2 H3 H4 H5 H6 H7]. split; try done.
  - unfold alive in *. by rewrite <- E.
  - by rewrite <- E.
  - by rewrite <- E.
Qed.
Lemma swap_perm (ws : list worker) w x y : ws !! w = Some x → ws ≡ₚ x :: delete w ws ∧ <[w:=y]> ws ≡ₚ y :: delete w ws.
Proof using All.
  intros Hw. split; [by apply delete_Permutation|]. pose proof (lookup_lt_Some _ _ _ Hw).
  rewrite insert_take_drop by done. rewrite delete_take_drop. by rewrite Permutation_middle.
Qed.
Lemma inv_swap k k' ws w x y sh sh' ps ps' :
  ws !! w = Some x → inv k ws sh ps → (inv k (x :: delete w ws) sh ps → inv k' (y :: delete w ws) sh' ps') →
  inv k' (<[w:=y]> ws) sh' ps'.
Proof using All.
  intros Hw Hi Hs. destruct (swap_perm ws w x y Hw) as [E1 E2]. eapply inv_perm; [symmetry; exact E2|].
  apply Hs. by eapply inv_perm.
Qed.

(** Everything but morsel [i] is untouched by a step on [i]. *)
Definition kept (i : nat) (sh sh' : Sh) : Prop := ∀ i' s, (i' < N)%nat → i' ≠ i → Own i' s sh → Own i' s sh'.
Lemma results_kept i sh sh' ps :
  kept i sh sh' → (∀ i', i' ∈ concat ps.*1 → (i' < N)%nat ∧ i' ≠ i) → results_ok sh ps → results_ok sh' ps.
Proof using All.
  intros Hk Hin Hr.
  assert (Hg : ∀ p, p ∈ ps → good_result sh p → good_result sh' p).
  { intros p Hp (l & E & Hf & Ho). exists l. split; [done|]. split; [done|]. intros i' Hi'. apply Hk; [| |by apply Ho]; apply Hin;
    apply list_elem_of_In, in_concat; exists p.1; split; apply list_elem_of_In; [apply list_elem_of_fmap; by exists p|done|apply list_elem_of_fmap; by exists p|done]. }
  destruct Hr as [Hr|(ps1 & ms & e & ps2 & -> & He & Hr & H2)]; [left|right].
  - apply Forall_forall. intros p Hp. apply Hg; [done|]. by eapply Forall_forall.
  - exists ps1, ms, e, ps2. split; [done|]. split; [done|]. split; [|done]. apply Forall_forall. intros p Hp.
    apply Hg; [by apply elem_of_app; left|]. by eapply Forall_forall.
Qed.
Lemma inv_busy k mine i j rest sh ps :
  inv k (Busy mine i j :: rest) sh ps →
  (i < k)%nat ∧ (i < N)%nat ∧
  (∀ i', i' ∈ mine ++ concat (claims <$> rest) ++ concat ps.*1 → (i' < N)%nat ∧ i' ≠ i) ∧
  (concat (claims <$> rest) ++ concat ps.*1) ++ mine ++ [i] ≡ₚ seq 0 (k `min` N).
Proof using All.
  intros [_ _ Hs _ _ _ _]. cbn [fmap list_fmap claims concat] in Hs. rewrite <- app_assoc in Hs.
  assert (E : i :: mine ++ concat (claims <$> rest) ++ concat ps.*1 ≡ₚ seq 0 (k `min` N)).
  { rewrite <- Hs, <- (app_assoc mine). apply Permutation_middle. }
  assert (Hi : i ∈ seq 0 (k `min` N)) by (rewrite <- E; by left). apply elem_of_seq in Hi.
  split; [lia|]. split; [lia|]. split; [|rewrite <- Hs; apply Permutation_app_comm].
  intros i' Hi'. pose proof (NoDup_seq 0 (k `min` N)) as Hnd. rewrite <- E in Hnd. apply NoDup_cons in Hnd as [Hni _].
  split; [|by intros ->]. assert (Hin : i' ∈ seq 0 (k `min` N)) by (rewrite <- E; by right). apply elem_of_seq in Hin. lia.
Qed.
(** What is left of the invariant when a worker's step on morsel [i] changes the shared state. *)
Lemma inv_kept k mine i j rest sh sh' ps :
  inv k (Busy mine i j :: rest) sh ps → kept i sh sh' →
  Forall (worker_ok sh') rest ∧ results_ok sh' ps ∧ (∀ i', (k ≤ i' < N)%nat → Own i' Todo sh') ∧
  (∀ i', i' ∈ mine → Own i' Finished sh').
Proof using All.
  intros Hi Hk. destruct (inv_busy _ _ _ _ _ _ _ Hi) as (Hik & HiN & Hin & _). destruct Hi as [_ _ _ Hw Hr Ht _].
  apply Forall_cons in Hw as [(Ho & Hm) Hw]. split; [|split; [|split]].
  - apply Forall_forall. intros x Hx. rewrite Forall_forall in Hw. specialize (Hw x Hx).
    assert (Hcl : ∀ i', i' ∈ claims x → (i' < N)%nat ∧ i' ≠ i).
    { intros i' Hi'. apply Hin. apply elem_of_app. right. apply elem_of_app. left. apply list_elem_of_In, in_concat. exists (claims x).
      split; apply list_elem_of_In; [by apply list_elem_of_fmap; exists x|done]. }
    destruct x as [ms l|ms i1 j1|]; [| |done].
    + destruct Hw as [Hl Hf]. split; [done|]. intros i' Hi'. destruct (Hcl i' Hi'). apply Hk; auto.
    + cbn [claims] in Hcl. destruct Hw as [Hl Hf]. split; [destruct (Hcl i1); [apply elem_of_app; right; by left|]; by apply Hk|].
      intros i' Hi'. destruct (Hcl i'); [by apply elem_of_app; left|]. apply Hk; auto.
  - eapply results_kept; [done| |done]. intros i' Hi'. apply Hin. rewrite !elem_of_app. auto.
  - intros i' Hi'. apply Hk; [lia|lia|by apply Ht].
  - intros i' Hi'. destruct (Hin i'); [by apply elem_of_app; left|]. apply Hk; auto.
Qed.

Lemma start_ok : conf_ok (start n l0 sh0 total).
Proof using All.
  exists 0%nat. split; [done|]. split; cbn [workers shared sent start].
  - lia.
  - unfold alive. clear. induction n as [|m IH]; [done|]. cbn in *. lia.
  - rewrite app_nil_r. cbn. clear. induction n as [|m IH]; [done|]. exact IH.
  - apply Forall_replicate. split; [done|]. intros i Hi. by apply elem_of_nil in Hi.
  - by left.
  - intros i Hi. apply Htodo. lia.
  - intros p l Hp. by apply elem_of_nil in Hp.
Qed.

Lemma results_snoc sh ps p :
  results_ok sh ps → (good_result sh p ∨ ∃ e, p.2 = Err e ∧ (Bad e ∨ ∃ e', Err e' ∈ ps.*2)) → results_ok sh (ps ++ [p]).
Proof using All.
  intros [Hr|(ps1 & ms & e & ps2 & -> & He & Hr & H2)] Hp.
  - destruct Hp as [Hp|(e & E & [Hb|(e' & He')])].
    + left. apply Forall_app. split; [done|]. by constructor.
    + right. exists ps, p.1, e, []. rewrite <- E. split; [by destruct p|]. done.
    + apply list_elem_of_fmap in He' as (q & Eq & Hq). rewrite Forall_forall in Hr. destruct (Hr q Hq) as (l & El & _). congruence.
  - right. exists ps1, ms, e, (ps2 ++ [p]). split; [by rewrite <- app_assoc|]. split; [done|]. split; [done|].
    apply Forall_app. split; [done|]. constructor; [|done]. destruct Hp as [(l & -> & _)|(e' & -> & _)]; done.
Qed.

(** The queue of a reachable configuration in which someone still works. *)
Lemma inv_room k x rest sh ps :
  inv k (x :: rest) sh ps → x ≠ Gone → m_start size k + size + size < 2 ^ 63.
Proof using All.
  intros [Hc Ha _ _ _ _ _] Hx. assert (Hps : (length ps < n)%nat) by (unfold alive in Ha; cbn in Ha; destruct x; [lia|lia|done]).
  unfold m_start in *. destruct (decide (N = 0%nat)) as [E0|E0].
  - rewrite E0 in Hc. nia.
  - pose proof (proj1 (morsels_lt size total (N - 1) Hsize Htotal) ltac:(lia)) as Hlt. unfold m_start in Hlt. nia.
Qed.

Lemma inv_claim k mine l rest sh ps :
  (k < N)%nat → inv k (Idle mine l :: rest) sh ps →
  inv (S k) (Busy mine k (begin (m_start size k) (m_stop size total k) l) :: rest) sh ps.
Proof using All.
  intros Hk [Hc Ha Hs Hw Hr Ht Hd]. apply Forall_cons in Hw as [(Hl & Hm) Hw]. split; try done.
  - lia.
  - cbn [fmap list_fmap claims concat] in *. replace (S k `min` N)%nat with (S (k `min` N)) by lia.
    rewrite seq_S, <- Hs. replace (0 + k `min` N)%nat with k by lia. rewrite <- !app_assoc. apply Permutation_app_head.
    by rewrite Permutation_app_comm, <- !app_assoc.
  - apply Forall_cons. split; [|done]. split; [|done]. apply Hbegin; [done|done|]. apply Ht. lia.
  - intros i Hi. apply Ht. lia.
  - intros p l' Hp E. specialize (Hd p l' Hp E). lia.
Qed.
Lemma inv_exhausted k mine l rest sh ps :
  (N ≤ k)%nat → inv k (Idle mine l :: rest) sh ps → inv (S k) (Gone :: rest) sh (ps ++ [(mine, finish l)]).
Proof using All.
  intros Hk [Hc Ha Hs Hw Hr Ht Hd]. apply Forall_cons in Hw as [(Hl & Hm) Hw]. split.
  - rewrite length_app. cbn. lia.
  - unfold alive in *. rewrite length_app. cbn in *. lia.
  - cbn [fmap list_fmap claims concat] in *. rewrite fmap_app, concat_app. cbn [fmap list_fmap concat fst]. rewrite app_nil_r.
    replace (S k `min` N)%nat with (k `min` N)%nat by lia. rewrite <- Hs, app_assoc.
    rewrite (Permutation_app_comm _ mine), app_assoc. done.
  - by apply Forall_cons.
  - apply results_snoc; [done|]. left. destruct (Hfinish mine l Hl) as (l' & E & Hf). by exists l'.
  - intros i Hi. lia.
  - intros p l' _ _. lia.
Qed.
Lemma inv_task k mine i j rest sh sh' ps r :
  inv k (Busy mine i j :: rest) sh ps → task j sh sh' r →
  match r with
  | inl j' => inv k (Busy mine i j' :: rest) sh' ps
  | inr (Ret l) => inv k (Idle (mine ++ [i]) l :: rest) sh' ps
  | inr r => inv k (Gone :: rest) sh' (ps ++ [(mine ++ [i], r)])
  end.
Proof using All.
  intros Hi Et. destruct (inv_busy _ _ _ _ _ _ _ Hi) as (Hik & HiN & _ & Hsplit).
  pose proof Hi as [Hc Ha Hs Hw Hr Ht Hd]. apply Forall_cons in Hw as [(Ho & Hm) Hw].
  assert (Hk : kept i sh sh'). { intros i' s Hi' Hne Hown. by apply (Hframe i mine j sh sh' r i' s). }
  destruct (inv_kept _ _ _ _ _ _ _ _ Hi Hk) as (Hw' & Hr' & Ht' & Hm').
  pose proof (Htask i mine j sh sh' r HiN Ho Et) as Hpost. destruct r as [j'|[l|e| |]]; [| | |done|done].
  - split; try done. by apply Forall_cons.
  - destruct Hpost as [Hf Hl]. split; try done. apply Forall_cons. split; [|done]. split; [done|].
    intros i' [Hi'|Hi'%list_elem_of_singleton]%elem_of_app; [auto|by subst].
  - split; try done.
    + rewrite length_app. lia.
    + unfold alive in *. rewrite length_app. cbn in *. lia.
    + cbn [fmap list_fmap claims concat] in *. rewrite fmap_app, concat_app, <- Hsplit. cbn [fmap list_fmap concat fst]. by rewrite app_nil_r, <- !app_assoc.
    + by apply Forall_cons.
    + apply results_snoc; [done|]. right. exists e. auto.
    + intros p l [Hp|Hp%list_elem_of_singleton]%elem_of_app E; [by eapply Hd|by subst].
Qed.
Lemma inv_cancel k mine i j rest sh ps e :
  inv k (Busy mine i j :: rest) sh ps → Err e ∈ ps.*2 → inv k (Gone :: rest) sh (ps ++ [(mine ++ [i], Err canceled)]).
Proof using All.
  intros Hi He. destruct (inv_busy _ _ _ _ _ _ _ Hi) as (Hik & HiN & _ & Hsplit).
  pose proof Hi as [Hc Ha Hs Hw Hr Ht Hd]. apply Forall_cons in Hw as [(Ho & Hm) Hw]. split; try done.
  - rewrite length_app. lia.
  - unfold alive in *. rewrite length_app. cbn in *. lia.
  - cbn [fmap list_fmap claims concat] in *. rewrite fmap_app, concat_app, <- Hsplit. cbn [fmap list_fmap concat fst]. by rewrite app_nil_r, <- !app_assoc.
  - by apply Forall_cons.
  - apply results_snoc; [done|]. right. exists canceled. eauto.
  - intros p l [Hp|Hp%list_elem_of_singleton]%elem_of_app E; [by eapply Hd|by subst].
Qed.

Lemma pool_step_ok c c' : conf_ok c → step c c' → conf_ok c'.
Proof using All.
  intros (k & Hq & Hi) Hstep.
  destruct Hstep as [w mine l a b q Hw Hcl|w mine l q Hw Hcl|w mine i j sh j' Hw Et|w mine i j sh l Hw Et|w mine i j sh r Hw Et Hne|w mine i j Hw _ [e He]];
    destruct (swap_perm _ w _ Gone Hw) as [E1 _]; pose proof (inv_perm _ _ _ _ _ E1 Hi) as Hx.
  1, 2: pose proof (inv_room _ _ _ _ _ Hx ltac:(done)) as Hroom'; rewrite Hq, claim_spec in Hcl by done;
    destruct (decide (k < N)%nat) as [Hk|Hk]; try done.
  - injection Hcl as <- <- <-. exists (S k). split; [done|]. cbn [with_worker workers shared sent].
    rewrite m_start_div by done. eapply inv_swap; [exact Hw|exact Hi|]. by apply inv_claim.
  - injection Hcl as <-. exists (S k). split; [done|]. cbn [send workers shared sent].
    eapply inv_swap; [exact Hw|exact Hi|]. apply inv_exhausted. lia.
  - exists k. split; [done|]. cbn [with_worker workers shared sent]. eapply inv_swap; [exact Hw|exact Hi|].
    intros Hy. exact (inv_task _ _ _ _ _ _ _ _ _ Hy Et).
  - exists k. split; [done|]. cbn [with_worker workers shared sent]. eapply inv_swap; [exact Hw|exact Hi|].
    intros Hy. exact (inv_task _ _ _ _ _ _ _ _ _ Hy Et).
  - exists k. split; [done|]. cbn [send workers shared sent]. eapply inv_swap; [exact Hw|exact Hi|].
    intros Hy. pose proof (inv_task _ _ _ _ _ _ _ _ _ Hy Et) as Hz. destruct r; [by edestruct Hne|exact Hz..].
  - exists k. split; [done|]. cbn [send workers shared sent]. eapply inv_swap; [exact Hw|exact Hi|].
    intros Hy. by eapply inv_cancel.
Qed.

Lemma rtc_ok c : rtc step (start n l0 sh0 total) c → conf_ok c.
Proof using All.
  assert (E : ∀ a b, rtc step a b → conf_ok a → conf_ok b).
  { induction 1 as [|a b d Hs _ IH]; [done|]. intros Ha. by eapply IH, pool_step_ok. }
  intros Hr. apply (E _ _ Hr), start_ok.
Qed.

Lemma collect_good sh ps : Forall (good_result sh) ps → ∃ ls, collect ps.*2 = Ret ls ∧ Forall2 Fin ps.*1 ls.
Proof using All.
  intros Hg.
  assert (E : ∃ ls, ps.*2 = Ret <$> ls ∧ Forall2 Fin ps.*1 ls).
  { induction Hg as [|p ps (l & E & Hf & _) _ (ls & El & Hls)]; [by exists []|]. exists (l :: ls). cbn. rewrite E, El. split; [done|by constructor]. }
  destruct E as (ls & -> & Hls). exists ls. split; [|done].
  assert (E1 : existsb is_panic (Ret <$> ls) = false) by (by clear; induction ls).
  assert (E2 : existsb is_outoffuel (Ret <$> ls) = false) by (by clear; induction ls).
  unfold collect. rewrite E1, E2. clear. induction ls as [|l ls IH]; [done|]. cbn. by rewrite IH.
Qed.
Lemma collect_bad sh ps1 ms e ps2 :
  Forall (good_result sh) ps1 → Forall (λ p : list nat * go L, match p.2 with Ret _ | Err _ => True | _ => False end) ps2 →
  collect (ps1 ++ (ms, Err e) :: ps2).*2 = Err e.
Proof using All.
  intros H1 H2. unfold collect. rewrite fmap_app, fmap_cons, !existsb_app. cbn [existsb is_panic is_outoffuel snd orb].
  assert (E : ∀ f : go L → bool, (∀ r, match r with Ret _ | Err _ => True | _ => False end → f r = false) →
    existsb f ps1.*2 = false ∧ existsb f ps2.*2 = false).
  { intros f Hf. split.
    - clear H2. induction H1 as [|p l (x & E & _) _ IH]; [done|]. cbn. by rewrite E, Hf, IH.
    - clear H1. induction H2 as [|p l Hp _ IH]; [done|]. cbn. by rewrite Hf, IH. }
  destruct (E is_panic) as [-> ->]; [by intros []|]. destruct (E is_outoffuel) as [-> ->]; [by intros []|]. cbn [orb].
  clear H2 E. induction H1 as [|p l (x & E & _) _ IH]; [done|]. cbn in *. by rewrite E, IH.
Qed.

(** What an execution that is over has done. *)
Lemma pool_outcome c :
  rtc step (start n l0 sh0 total) c → final c →
  length (sent c) = n ∧
  ((∃ ls, collect (sent c).*2 = Ret ls ∧ Forall2 Fin (sent c).*1 ls ∧ concat (sent c).*1 ≡ₚ seq 0 N ∧
     ∀ i, (i < N)%nat → Own i Finished (shared c)) ∨
  (∃ e, collect (sent c).*2 = Err e ∧ Bad e)).
Proof using All.
  intros Hr%rtc_ok Hf. destruct Hr as (k & _ & [Hc Ha Hs _ Hres _ Hd]).
  assert (Hz : ∀ ws, Forall (.= Gone) ws → alive ws = 0%nat ∧ concat (claims <$> ws) = []).
  { clear. intros ws. unfold alive. induction 1 as [|x ws -> _ [IH1 IH2]]; [done|]. cbn. by rewrite IH2. }
  destruct (Hz _ Hf) as [Ha0 Hc0]. rewrite Hc0 in Hs. cbn [app] in Hs. split; [lia|].
  destruct Hres as [Hg|(ps1 & ms & e & ps2 & E & Hb & H1 & H2)].
  - left. destruct (collect_good _ _ Hg) as (ls & El & Hls). exists ls. split; [done|]. split; [done|].
    destruct (sent c) as [|p ps] eqn:Esent; [cbn in Ha; lia|]. apply Forall_cons in Hg as [Hp Hg]. pose proof Hp as (l & Ep & _).
    assert (HN : (N ≤ k)%nat) by (eapply Hd; [by left|done]). replace (k `min` N)%nat with N in Hs by lia. split; [done|].
    intros i Hi. assert (Hin : i ∈ concat (p :: ps).*1) by (rewrite Hs; apply elem_of_seq; lia).
    apply list_elem_of_In, in_concat in Hin as (ms & Hms & Hin). apply list_elem_of_In in Hms, Hin.
    apply list_elem_of_fmap in Hms as (q & -> & Hq). assert (Hgq : good_result (shared c) q).
    { apply elem_of_cons in Hq as [->|Hq]; [done|]. by eapply Forall_forall in Hg. }
    destruct Hgq as (l' & _ & _ & Ho). by apply Ho.
  - right. exists e. rewrite E. split; [by eapply collect_bad|done].
Qed.

Lemma busy_own c w mine i j :
  conf_ok c → workers c !! w = Some (Busy mine i j) → (i < N)%nat ∧ Own i (Doing mine j) (shared c).
Proof using All.
  intros (k & _ & Hi) Hw. destruct (swap_perm _ w _ Gone Hw) as [E _].
  destruct (inv_busy _ _ _ _ _ _ _ (inv_perm _ _ _ _ _ E Hi)) as (_ & HN & _). split; [done|].
  destruct Hi as [_ _ _ Hws _ _ _]. by destruct (Forall_lookup_1 _ _ _ _ Hws Hw).
Qed.

(** ** Lemmas: termination *)

Context (todo : J → nat) (Hless : ∀ j sh sh' j', task j sh sh' (inl j') → (todo j' < todo j)%nat).
Definition unclaimed (c : conf) : nat := (N - Z.to_nat (q_next (queue c) `div` size))%nat.
Definition weight (x : worker) : nat := match x with Idle _ _ => 1%nat | Busy _ _ j => 2 + todo j | Gone => 0%nat end.
Definition pending (c : conf) : nat := sum_list_with weight (workers c).
Lemma pending_insert (ws : list worker) w x y :
  ws !! w = Some x → (weight y < weight x)%nat → (sum_list_with weight (<[w:=y]> ws) < sum_list_with weight ws)%nat.
Proof using All.
  intros Hw Hlt. rewrite <- (take_drop_middle ws w x Hw) at 2. rewrite insert_take_drop by (by eapply lookup_lt_Some).
  rewrite !sum_list_with_app. cbn. lia.
Qed.
Lemma step_less c c' :
  conf_ok c → step c c' → (unclaimed c' < unclaimed c)%nat ∨ unclaimed c' = unclaimed c ∧ (pending c' < pending c)%nat.
Proof using All.
  intros (k & Hq & Hi) Hstep. unfold unclaimed.
  destruct Hstep as [w mine l a b q Hw Hcl|w mine l q Hw Hcl|w mine i j sh j' Hw Et|w mine i j sh l Hw Et|w mine i j sh r Hw Et Hne|w mine i j Hw _ [e He]].
  1, 2: destruct (swap_perm _ w _ Gone Hw) as [E1 _]; pose proof (inv_perm _ _ _ _ _ E1 Hi) as Hx;
    pose proof (inv_room _ _ _ _ _ Hx ltac:(done)) as Hroom'; rewrite Hq, claim_spec in Hcl by done;
    destruct (decide (k < N)%nat) as [Hk|Hk]; try done.
  - injection Hcl as <- <- <-. left. cbn [with_worker queue q_next]. rewrite Hq. cbn [q_next]. rewrite !m_start_div by done. lia.
  - injection Hcl as <-. right. cbn [send queue q_next]. rewrite Hq. cbn [q_next]. rewrite !m_start_div by done.
    split; [lia|]. apply (pending_insert _ _ _ _ Hw). cbn. lia.
  - right. split; [done|]. apply (pending_insert _ _ _ _ Hw). cbn. specialize (Hless _ _ _ _ Et). lia.
  - right. split; [done|]. apply (pending_insert _ _ _ _ Hw). cbn. lia.
  - right. split; [done|]. apply (pending_insert _ _ _ _ Hw). cbn. lia.
  - right. split; [done|]. apply (pending_insert _ _ _ _ Hw). cbn. lia.
Qed.
(** No execution goes on for ever. *)
Lemma pool_terminates c : conf_ok c → Acc (λ c2 c1, step c1 c2) c.
Proof using All.
  remember (unclaimed c) as a eqn:Ea. revert c Ea. induction a as [a IHa] using lt_wf_ind. intros c Ea.
  remember (pending c) as b eqn:Eb. revert c Ea Eb. induction b as [b IHb] using lt_wf_ind. intros c -> -> Hc.
  constructor. intros c' Hs. pose proof (pool_step_ok c c' Hc Hs) as Hc'. destruct (step_less c c' Hc Hs) as [Hlt|[E Hlt]].
  - by eapply IHa.
  - by eapply IHb.
Qed.
End Facts.

(** An execution stops only when every worker has sent its result. *)
Lemma pool_progress {L J Sh} size begin task finish cancels (c : @conf L J Sh) :
  (∀ w mine i j, workers c !! w = Some (Busy mine i j) → ∃ sh' r, task j (shared c) sh' r) →
  final c ∨ ∃ c', pool_step size begin task finish cancels c c'.
Proof.
  intros Htotal. assert (E : final c ∨ ∃ w x, workers c !! w = Some x ∧ x ≠ Gone).
  { clear Htotal. unfold final. induction (workers c) as [|x ws IH]; [by left; constructor|].
    destruct x; [right; by exists 0%nat; eexists..|]. destruct IH as [IH|(w & x & Hw & Hx)]; [left; by constructor|].
    right. by exists (S w), x. }
  destruct E as [|(w & x & Hw & Hne)]; [by left|right]. destruct x as [mine l|mine i j|]; [| |done].
  - destruct (claim (queue c) size) as [[[a b]|] q] eqn:E; eexists; [by eapply step_claim|by eapply step_exhausted].
  - destruct (Htotal _ _ _ _ Hw) as (sh & [j'|r] & E); [eexists; by eapply step_work|].
    destruct r as [l|e| |]; eexists; [by eapply step_done|by eapply step_fail..].
Qed.

Lemma acc_reaches {A} (R : A → A → Prop) (P : A → Prop) x :
  Acc (λ z y, R y z) x → (∀ y, rtc R x y → P y ∨ ∃ z, R y z) → ∃ y, rtc R x y ∧ P y.
Proof.
  induction 1 as [x _ IH]. intros Hp. destruct (Hp x) as [HP|[z Hz]]; [done|by exists x|].
  destruct (IH z Hz) as (y & Hy & HP); [|exists y; split; [by eapply rtc_l|done]].
  intros y Hy. apply Hp. by eapply rtc_l.
Qed.

(** ** What a client shows of its work, and what it gets *)

Record work_spec {L J Sh} (size total : Z) (begin : Z → Z → L → J) (task : J → Sh → Sh → J + go L → Prop) (finish : L → go L)
    (l0 : L) (sh0 : Sh) (Own : nat → @status J → Sh → Prop) (Loc Fin : list nat → L → Prop) (Bad : error → Prop) : Prop := {
  w_loc : Loc [] l0;
  w_todo : ∀ i, (i < morsels size total)%nat → Own i Todo sh0;
  w_begin : ∀ i mine l sh, (i < morsels size total)%nat → Loc mine l → Own i Todo sh →
    Own i (Doing mine (begin (m_start size i) (m_stop size total i) l)) sh;
  w_task : ∀ i mine j sh sh' r, (i < morsels size total)%nat → Own i (Doing mine j) sh → task j sh sh' r →
    match r with
    | inl j' => Own i (Doing mine j') sh'
    | inr (Ret l) => Own i Finished sh' ∧ Loc (mine ++ [i]) l
    | inr (Err e) => Bad e
    | inr _ => False
    end;
  w_total : ∀ i mine j sh, (i < morsels size total)%nat → Own i (Doing mine j) sh → ∃ sh' r, task j sh sh' r;
  w_frame : ∀ i mine j sh sh' r i' s, (i < morsels size total)%nat → (i' < morsels size total)%nat → Own i (Doing mine j) sh →
    task j sh sh' r → i' ≠ i → Own i' s sh → Own i' s sh';
  w_finish : ∀ mine l, Loc mine l → ∃ l', finish l = Ret l' ∧ Fin mine l';
  w_ends : ∃ todo : J → nat, ∀ j sh sh' j', task j sh sh' (inl j') → (todo j' < todo j)%nat
}.
Definition pool_outcomes {L J Sh} (size total : Z) (n : nat) (Own : nat → @status J → Sh → Prop) (Fin : list nat → L → Prop) (Bad : error → Prop) (c : @conf L J Sh) : Prop :=
  length (sent c) = n ∧
  ((∃ ls, collect (sent c).*2 = Ret ls ∧ Forall2 Fin (sent c).*1 ls ∧ concat (sent c).*1 ≡ₚ seq 0 (morsels size total) ∧
     ∀ i, (i < morsels size total)%nat → Own i Finished (shared c)) ∨
   (∃ e, collect (sent c).*2 = Err e ∧ Bad e)).
Lemma pool_runs {L J Sh} size total begin (task : J → Sh → Sh → J + go L → Prop) finish cancels n l0 sh0 Own Loc Fin Bad :
  work_spec size total begin task finish l0 sh0 Own Loc Fin Bad →
  0 < size → 0 ≤ total → (0 < n)%nat → total + (Z.of_nat n + 2) * size < 2 ^ 63 →
  let step := pool_step size begin task finish cancels in
  let c0 := start n l0 sh0 total in
  Acc (λ c2 c1, step c1 c2) c0 ∧ (∃ c, rtc step c0 c ∧ final c) ∧
  (∀ c, rtc step c0 c → final c ∨ ∃ c', step c c') ∧
  ∀ c, rtc step c0 c → final c → pool_outcomes size total n Own Fin Bad c.
Proof.
  intros [H1 H2 H3 H4 Htot H5 H6 (todo & H7)] Hs Ht Hn Hroom step c0.
  assert (Hacc : Acc (λ c2 c1, step c1 c2) c0) by (eapply pool_terminates; try done; by eapply start_ok).
  assert (Hok : ∀ c, rtc step c0 c → conf_ok size n total Own Loc Fin Bad c) by (intros c Hc; by eapply rtc_ok).
  assert (Hprog : ∀ c, rtc step c0 c → final c ∨ ∃ c', step c c').
  { intros c Hc. apply pool_progress. intros w mine i j Hw.
    assert (Hown : (i < morsels size total)%nat ∧ Own i (Doing mine j) (shared c)) by (eapply busy_own; try done; by apply Hok).
    by eapply Htot; apply Hown. }
  split; [exact Hacc|]. split; [by apply acc_reaches|]. split; [exact Hprog|].
  intros c Hr Hf. by eapply pool_outcome.
Qed.

(** ** Property *)

(** C32: The worker pool of the parallel operators neither loses, repeats nor
    deadlocks.  Whatever the workers do with a morsel, as long as it ends without
    a panic: no execution goes on for ever, whichever way the workers interleave
    and even if failures cancel others; an execution can only stop once every
    worker has sent its one result; and then either every morsel was claimed by
    exactly one worker and every result is a state, or the error the collecting
    goroutine reports is one that work on a morsel ended in, not the cancellation
    it caused. *)
Theorem pool_claims_once {L J Sh} size total n begin (task : J → Sh → Sh → J + go L → Prop) finish cancels (l0 : L) (sh0 : Sh) (todo : J → nat) :
  0 < size → 0 ≤ total → (0 < n)%nat → total + (Z.of_nat n + 2) * size < 2 ^ 63 →
  (∀ j sh, ∃ sh' r, task j sh sh' r) → (∀ j sh sh' r, task j sh sh' (inr r) → (∃ l, r = Ret l) ∨ ∃ e, r = Err e) →
  (∀ j sh sh' j', task j sh sh' (inl j') → (todo j' < todo j)%nat) → (∀ l, ∃ l', finish l = Ret l') →
  let step := pool_step size begin task finish cancels in
  let c0 := start n l0 sh0 total in
  Acc (λ c2 c1, step c1 c2) c0 ∧
  (∃ c, rtc step c0 c ∧ final c) ∧
  ∀ c, rtc step c0 c →
    ((∀ c', ¬ step c c') → final c) ∧
    (final c → length (sent c) = n ∧
      ((∃ ls, collect (sent c).*2 = Ret ls ∧ length ls = n ∧ concat (sent c).*1 ≡ₚ seq 0 (morsels size total)) ∨
       (∃ e, collect (sent c).*2 = Err e ∧ ∃ j sh sh', task j sh sh' (inr (Err e))))).
Proof.
  intros Hs Ht Hn Hroom Htot Htask Hless Hfin step c0.
  destruct (pool_runs size total begin task finish cancels n l0 sh0 (λ _ _ _, True) (λ _ _, True) (λ _ _, True)
    (λ e, ∃ j sh sh', task j sh sh' (inr (Err e)))) as (Hacc & Hex & Hprog & Hout); try done.
  - split; try done.
    + intros _ _ j sh sh' [j'|r] _ _ E; [done|]. destruct (Htask _ _ _ _ E) as [[l ->]|[e ->]]; [done|]. by exists j, sh, sh'.
    + intros _ l _. destruct (Hfin l) as [l' E]. by exists l'.
    + by exists todo.
  - split; [exact Hacc|]. split; [exact Hex|]. intros c Hr. split.
    + intros Hstuck. destruct (Hprog c Hr) as [|[c' Hc]]; [done|]. by destruct (Hstuck c').
    + intros Hf. destruct (Hout c Hr Hf) as (Hlen & [(ls & E & Hls & Hp & _)|Hbad]); (split; [done|]); [left|by right].
      exists ls. split; [done|]. split; [|done]. by rewrite <- (Forall2_length _ _ _ Hls), length_fmap.
Qed.

(** Three workers over five row groups taken two at a time, each morsel a
    countdown; the last morsel fails. *)
Definition ex_begin (a b : Z) (l : list Z) : nat * Z * list Z := (2%nat, a, l).
Definition ex_step (j : nat * Z * list Z) : nat * Z * list Z + go (list Z) :=
  let '(k, a, l) := j in
  match k with
  | O => inr (if decide (a = 4) then Err (ErrMsg "x"%string) else Ret (l ++ [a]))
  | S k => inl (k, a, l)
  end.
Definition ex_task (j : nat * Z * list Z) (sh sh' : Z) (r : nat * Z * list Z + go (list Z)) : Prop := sh' = sh + 1 ∧ r = ex_step j.
Lemma pool_claims_once_witness :
  let step := pool_step 2 ex_begin ex_task Ret true in
  let c0 := start 3 [] 0 5 in
  Acc (λ c2 c1, step c1 c2) c0 ∧
  (∃ c, rtc step c0 c ∧ final c) ∧
  ∀ c, rtc step c0 c →
    ((∀ c', ¬ step c c') → final c) ∧
    (final c → length (sent c) = 3%nat ∧
      ((∃ ls, collect (sent c).*2 = Ret ls ∧ length ls = 3%nat ∧ concat (sent c).*1 ≡ₚ seq 0 (morsels 2 5)) ∨
       (∃ e, collect (sent c).*2 = Err e ∧ ∃ j sh sh', ex_task j sh sh' (inr (Err e))))).
Proof.
  apply (pool_claims_once 2 5 3 ex_begin ex_task Ret true [] 0 (λ j, j.1.1)).
  - lia.
  - lia.
  - lia.
  - lia.
  - intros j sh. by exists (sh + 1), (ex_step j).
  - intros [[[|k] a] l] sh sh' r [_ E]; cbn in E; [|done]. injection E as ->. case_decide; eauto.
  - intros [[[|k] a] l] sh sh' j' [_ E]; cbn in E; [done|]. injection E as ->. cbn. lia.
  - intros l. by exists l.
Defined.
