(* ===== verification/Morsel.v ===== *)
(** * Package exec: reusable morsel pipelines ([exec/morsel.go])

    [MorselPipeline] is the interface of an operator that can be repositioned
    onto other row groups, [reusable] the closed switch that decides whether a
    pipeline may be; [morselRunner] is what supplies one worker with the pipeline
    of each morsel it claims.  [source_ok] says what a factory of pipelines
    promises; scan, Filter and Project keep it, and a runner then serves every
    morsel with its own rows, rebuilt or repositioned. *)
From Stdlib Require Import ZArith Lia ZifyNat.
From stdpp Require Import base numbers list strings gmap.
From S2P Require Import Prelude Encoding Codec Float64 Schema Writer Reader Volume Batch Scratch Scan VExpr VKernel VCase VExprSpec Operator RowOps Distinct Sorting Emit Sort Pipeline.
#[local] Open Scope Z_scope.

(** ** Pipelines *)

(** [reusable op]: [reusableMorselPipeline] returns [op] and not nil. *)
Class MorselPipeline (S : Type) `{Operator S} : Type := {
  reusable : S → bool;
  reposition : S → Z → Z → S
}.
#[export] Instance scan_pipeline : MorselPipeline TableScan := {
  reusable _ := true;
  reposition := Reset
}.
(** The cases of the switch for operators of one batch at a time, and what their
    [Reset] does besides their child's. *)
Class PullReset (St : Type) : Type := { resettable : bool; reset_state : St → St }.
Definition filter_Reset (st : FilterState) : FilterState := mkFilterState (predicate st) [].
Definition project_Reset (st : ProjectState) : ProjectState := st.
#[export] Instance filter_reset : PullReset FilterState := { resettable := true; reset_state := filter_Reset }.
#[export] Instance project_reset : PullReset ProjectState := { resettable := true; reset_state := project_Reset }.
#[export] Instance limit_reset : PullReset LimitState := { resettable := false; reset_state st := st }.
#[export] Instance distinct_reset : PullReset DistinctState := { resettable := false; reset_state st := st }.
#[export] Instance pull_pipeline {S St} `{MorselPipeline S} `{PullOp St} `{!PullReset St} : MorselPipeline (Pull S St) := {
  reusable p := resettable && reusable (p_child p);
  reposition p a b := mkPull (reposition (p_child p) a b) (reset_state (p_state p))
}.

Definition reusableMorselPipeline {S} `{MorselPipeline S} (op : S) : option S := if reusable op then Some op else None.

(** ** The runner *)

Record morselRunner (S : Type) : Type := mkRunner { held : option S; probed : bool }.
Arguments mkRunner {S}. Arguments held {S}. Arguments probed {S}.
Definition newRunner {S} : morselRunner S := mkRunner None false.

Section Runner.
Context {S : Type} `{MorselPipeline S} (factory : Z → Z → go S).
Definition m_open (m : morselRunner S) (a b : Z) : go (S * morselRunner S) :=
  match held m with
  | Some s => let s := reposition s a b in Ret (s, mkRunner (Some s) (probed m))
  | None =>
      s ← factory a b;
      Ret (s, if probed m then m else mkRunner (reusableMorselPipeline s) true)
  end.
(** A retained pipeline is the object the loop worked on: it stays as the loop
    left it. *)
Definition m_release (m : morselRunner S) (op : S) : morselRunner S :=
  match held m with Some _ => mkRunner (Some op) (probed m) | None => m end.
End Runner.

(** ** What a factory of pipelines promises *)

(** The operator can say how many rows are to come, or does not try. *)
Definition bounded {S} `{RowCountBound S} (s : S) : Prop :=
  match row_bound s with None => True | Some m => ∃ p, m = Ret p end.
#[export] Instance project_bound {S} : RowCountBound (Project S) := λ _, None.
(** From here the pipeline delivers what [out] says of the row groups [a, b), and
    ends in a state fit to be repositioned if it ever was. *)
Definition delivers {S} `{MorselPipeline S, RowCountBound S} (Good : S → Prop) (out : Z → Z → list Batch → option error → Prop) (s : S) (a b : Z) : Prop :=
  bounded s ∧ ∃ bs o s', runs_to s bs o s' ∧ out a b bs o ∧ Good s' ∧ reusable s' = reusable s.
Record source_ok {S} `{MorselPipeline S, RowCountBound S} (factory : Z → Z → go S) (Good : S → Prop) (valid : Z → Z → Prop)
    (out : Z → Z → list Batch → option error → Prop) (Bad : error → Prop) : Prop := {
  so_open : ∀ a b, valid a b → (∃ s, factory a b = Ret s ∧ delivers Good out s a b) ∨ ∃ e, factory a b = Err e ∧ Bad e;
  so_reset : ∀ s a b, valid a b → Good s → reusable s = true →
    delivers Good out (reposition s a b) a b ∧ reusable (reposition s a b) = true
}.
Definition runner_ok {S} `{MorselPipeline S} (Good : S → Prop) (m : morselRunner S) : Prop :=
  match held m with Some s => Good s ∧ reusable s = true | None => True end.

(** A runner serves any morsel next, whatever it served before. *)
Lemma m_open_spec {S} `{MorselPipeline S, RowCountBound S} factory Good valid out Bad m a b :
  source_ok factory Good valid out Bad → valid a b → runner_ok Good m →
  (∃ s m' bs o s', m_open factory m a b = Ret (s, m') ∧ bounded s ∧ runs_to s bs o s' ∧ out a b bs o ∧ runner_ok Good (m_release m' s')) ∨
  ∃ e, m_open factory m a b = Err e ∧ Bad e.
Proof.
  intros [Ho Hr] Hv Hm. unfold m_open, runner_ok in *. destruct (held m) as [s0|] eqn:Eh.
  - left. destruct Hm as [Hg Hre]. destruct (Hr s0 a b Hv Hg Hre) as ((Hb & bs & o & s' & Hrun & Hout & Hg' & Hre') & Hre2).
    eexists _, _, bs, o, s'. do 4 (split; [done|]). cbn. split; [done|congruence].
  - destruct (Ho a b Hv) as [(s & -> & Hb & bs & o & s' & Hrun & Hout & Hg & Hre)|(e & -> & He)]; [left|right; by exists e].
    cbn [mbind go_bind]. eexists _, _, bs, o, s'. do 4 (split; [done|]). unfold m_release.
    destruct (probed m); [by rewrite !Eh|]. unfold reusableMorselPipeline. destruct (reusable s) eqn:E; [|done]. cbn. split; [done|congruence].
Qed.

(** The usual promise: well-formed batches that hold the rows [rows a b], or some
    of the first of them and then an error allowed by [Bad]. *)
Definition morsel_rows (tys : list DataType) (D : Z) (rows : Z → Z → list (list (option Cell))) (Bad : error → Prop)
    (a b : Z) (bs : list Batch) (o : option error) : Prop :=
  Forall (batch_wf tys D) bs ∧ match o with None => r_cells <$> all_rows bs = rows a b | Some e => Bad e ∧ r_cells <$> all_rows bs `prefix_of` rows a b end.

(** ** Lemmas: the sources *)

Lemma NewTableScanRange_range r names zp a b s0 :
  NewTableScanRange r names zp 0 0 = Ret s0 →
  NewTableScanRange r names zp a b = Ret (mkTableScan r (ts_schema s0) (colMap s0) zp a b a None None).
Proof.
  unfold NewTableScanRange. destruct (if decide _ then _ else _) as [[fs cm]|e| |]; cbn [mbind go_bind]; [|done..].
  by intros [= <-].
Qed.

(** A scan of any row groups of a file that stores a session. *)
Section ScanSource.
Context (r : Reader) (src : Schema) (sess : Session) (names : list string) (zp : option ZonePredicate) (s0 : TableScan).
Context (Hfile : file_repr src r sess) (H0 : NewTableScanRange r names zp 0 0 = Ret s0) (Hne : ts_schema s0 ≠ []).

Definition in_table (a b : Z) : Prop := ∃ i e, a = Z.of_nat i ∧ b = Z.of_nat e ∧ (e ≤ length (s_done sess))%nat.
Definition scan_good (s : TableScan) : Prop := ∃ rem, pending r (ts_schema s0) sess (colMap s0) zp s rem.
Definition scan_rows (a b : Z) : list (list (option Cell)) :=
  table_rows (colMap s0) zp (sub (Z.to_nat a) (Z.to_nat b) (RowGroups (r_meta r))) (sub (Z.to_nat a) (Z.to_nat b) (s_done sess)).
Lemma scan_map : Forall2 (same_field src) (ts_schema s0) (colMap s0).
Proof using Hfile H0.
  pose proof (NewTableScanRange_spec r names zp 0 0) as H1. cbv zeta in H1. case_decide; [|destruct H1 as [? E]; congruence].
  destruct H1 as (s' & E & _ & Hmap & _). rewrite H0 in E. injection E as <-. by destruct Hfile as (<- & _).
Qed.
Lemma scan_delivers s (i e : nat) :
  rgStart s = Z.of_nat i → rgEnd s = Z.of_nat e → pending r (ts_schema s0) sess (colMap s0) zp s (from r sess (colMap s0) zp i e) →
  delivers scan_good (morsel_rows (Type_ <$> ts_schema s0) (2 ^ 33) scan_rows (λ _, False)) s (Z.of_nat i) (Z.of_nat e).
Proof using Hfile H0 Hne.
  intros Hi He Hp. destruct (table_runs r src (ts_schema s0) sess (colMap s0) zp Hfile scan_map Hne s i e Hp) as (bs & s' & Hr & Hend & Hwf & Hrows).
  split; [unfold bounded; cbn [row_bound scan_bound]; rewrite (scan_bound_spec s i e) by done; by eexists|]. exists bs, None, s'. split; [done|]. split; [|split; [by exists []|done]]. split; [done|]. unfold scan_rows. by rewrite !Nat2Z.id.
Qed.
Lemma scan_source :
  source_ok (λ a b, NewTableScanRange r names zp a b) scan_good in_table
    (morsel_rows (Type_ <$> ts_schema s0) (2 ^ 33) scan_rows (λ _, False)) (λ _, False).
Proof using Hfile H0 Hne.
  split.
  - intros a b (i & e & -> & -> & He). left. eexists. split; [by apply NewTableScanRange_range|].
    apply scan_delivers; [done..|]. by apply pending_start.
  - intros s a b (i & e & -> & -> & He) (rem & Hr & Hsch & Hc & Hz & Hb & _) _. split; [|done]. apply scan_delivers; [done..|].
    cbn [reposition scan_pipeline]. unfold Reset, closeRowGroup, set_rg. cbn. rewrite Hr, Hsch, Hc, Hz. by apply pending_start.
Qed.
End ScanSource.

(** A law of the body of an operator of one batch at a time holds after a whole stream. *)
Lemma pull_stream_inv {St} `{PullOp St} (I : St → Prop) :
  (∀ st b o st', body st b = Ret (o, st') → I st → I st') →
  ∀ bs st out st', pull_stream st bs = Ret (out, st') → I st → I st'.
Proof.
  intros Hb bs. induction bs as [|b bs IH]; intros st out st'; cbn [pull_stream]; [by intros [= _ <-]|].
  destruct (finished st); [by intros [= _ <-]|]. destruct (body st b) as [[o st1]| | |] eqn:E; try done. cbn [mbind go_bind].
  destruct (pull_stream st1 bs) as [[out1 st2]| | |] eqn:E2; try done. cbn [mbind go_bind]. intros [= _ <-] Hst. eauto.
Qed.
Lemma filter_predicate st bs out st' : pull_stream st bs = Ret (out, st') → predicate st' = predicate st.
Proof.
  intros Hp. apply (pull_stream_inv (λ st1, predicate st1 = predicate st)) with bs st out; [|done|done].
  clear. intros st1 b o st' Hb E. cbn [body filter_op] in Hb. unfold filter_body in Hb.
  repeat first [apply go_bind_Ret_inv in Hb as (? & _ & Hb) | case_match]; by simplify_eq.
Qed.
Lemma project_fixed (st : ProjectState) bs out st' : pull_stream st bs = Ret (out, st') → st' = st.
Proof.
  intros Hp. apply (pull_stream_inv (λ st1, st1 = st)) with bs st out; [|done|done].
  clear. intros st1 b o st' Hb E. cbn [body project_op] in Hb. unfold project_body in Hb.
  repeat first [apply go_bind_Ret_inv in Hb as (? & _ & Hb) | case_match]; by simplify_eq.
Qed.

(** Filter and Project over a source. *)
Section PullSource.
Context {S : Type} `{MorselPipeline S, RowCountBound S} (factory : Z → Z → go S) (Good : S → Prop) (valid : Z → Z → Prop)
  (tys : list DataType) (D : Z) (rows : Z → Z → list (list (option Cell))) (Bad Bad' : error → Prop).
Context (Hsrc : source_ok factory Good valid (morsel_rows tys D rows Bad) Bad').

Lemma filter_source pred :
  EType pred = TypeBool → typeof tys pred = Some TypeBool → fits D pred = true → dict_free pred = true →
  source_ok (λ a b, s ← factory a b; NewFilter s pred)
    (λ f : Filter S, Good (p_child f) ∧ predicate (p_state f) = pred) valid
    (morsel_rows tys D (λ a b, filter (cells_keep pred) (rows a b)) Bad) Bad'.
Proof using Hsrc.
  intros Ht Hty Hfit Hd. destruct Hsrc as [Ho Hr].
  assert (Hdel : ∀ s sel a b, delivers Good (morsel_rows tys D rows Bad) s a b →
    delivers (λ f : Filter S, Good (p_child f) ∧ predicate (p_state f) = pred)
      (morsel_rows tys D (λ a b, filter (cells_keep pred) (rows a b)) Bad) (mkPull s (mkFilterState pred sel)) a b).
  { intros s sel a b (Hb & bs & o & s' & Hrun & [Hwf Hout] & Hg & Hre).
    destruct (filter_stream tys D pred sel bs Hwf Hty Hfit) as (out & [p' sel'] & Eo & Hwo & Hro & _).
    destruct (pull_to s (mkFilterState pred sel) bs o s' out _ Hrun Eo) as (c & Hrun' & Hc).
    rewrite (Hc eq_refl) in Hrun'. cbn [finished filter_op] in Hrun'.
    pose proof (filter_predicate _ _ _ _ Eo) as Hp'. cbn [predicate] in Hp'. subst p'.
    split. { unfold bounded in *. cbn [row_bound filter_bound]. unfold filter_RowCountBound. cbn [p_child]. destruct (row_bound s); [|by eexists]. destruct Hb as [[n t] ->]. by eexists. }
    exists out, o, (mkPull s' (mkFilterState pred sel')). split; [done|]. split; [|split; [done|exact Hre]]. split; [done|].
    destruct o as [e|]; rewrite Hro, filter_cells by done; [|by rewrite Hout].
    destruct Hout as [He [l ->]]. split; [done|]. rewrite filter_app. by apply prefix_app_r. }
  split.
  - intros a b Hv. destruct (Ho a b Hv) as [(s & -> & Hs)|(e & -> & He)]; [left|right; by exists e].
    cbn [mbind go_bind]. unfold NewFilter. rewrite decide_True by done. eexists. split; [done|]. by apply Hdel.
  - intros [s st] a b Hv [Hg Hp] Hre. cbn in *. destruct (Hr s a b Hv Hg Hre) as [Hd1 Hre1]. split; [|done]. unfold filter_Reset. rewrite Hp. by apply Hdel.
Qed.
Lemma project_source pes ts D' :
  projects tys D D' pes ts → Forall (λ pe, dict_free (pe_Expr pe) = true) pes →
  source_ok (λ a b, s ← factory a b; NewProject s pes)
    (λ p : Project S, Good (p_child p) ∧ p_state p = project_state pes) valid
    (morsel_rows ts D' (λ a b, cells_project pes <$> rows a b) Bad) Bad'.
Proof using Hsrc.
  intros Hp Hd. destruct Hsrc as [Ho Hr].
  assert (Hdel : ∀ s a b, delivers Good (morsel_rows tys D rows Bad) s a b →
    delivers (λ p : Project S, Good (p_child p) ∧ p_state p = project_state pes)
      (morsel_rows ts D' (λ a b, cells_project pes <$> rows a b) Bad) (mkPull s (project_state pes)) a b).
  { intros s a b (_ & bs & o & s' & Hrun & [Hwf Hout] & Hg & Hre).
    destruct (project_stream tys D D' pes ts bs Hwf Hp) as (out & st' & Eo & Hwo & Hro).
    destruct (pull_to s (project_state pes) bs o s' out _ Hrun Eo) as (c & Hrun' & Hc).
    rewrite (Hc eq_refl) in Hrun'. cbn [finished project_op] in Hrun'. rewrite (project_fixed _ _ _ _ Eo) in *.
    split; [done|]. exists out, o, (mkPull s' (project_state pes)). split; [done|]. split; [|split; [done|exact Hre]]. split; [done|].
    assert (Hcells : r_cells <$> all_rows out = cells_project pes <$> (r_cells <$> all_rows bs)).
    { rewrite Hro, <- list_fmap_compose. apply list_fmap_ext. intros i x _. by apply project_cells. }
    destruct o as [e|]; rewrite Hcells; [|by rewrite Hout].
    destruct Hout as [He [l ->]]. split; [done|]. rewrite fmap_app. by apply prefix_app_r. }
  split.
  - intros a b Hv. destruct (Ho a b Hv) as [(s & -> & Hs)|(e & -> & He)]; [left|right; by exists e].
    cbn [mbind go_bind]. unfold NewProject. destruct Hp as (Hne & _). rewrite decide_False by by destruct pes.
    eexists. split; [done|]. by apply Hdel.
  - intros [s st] a b Hv [Hg Hst] Hre. cbn in Hg, Hst, Hre |- *. subst st. destruct (Hr s a b Hv Hg Hre) as [Hd1 Hre1]. split; [|done]. by apply Hdel.
Qed.
End PullSource.
