(* ===== verification/SharedJoin.v ===== *)
(** * Package exec: the shared build side of a parallel join ([exec/parallel_join.go])

    A [SharedHashTable] is a build side that many joins probe.  It is built by
    draining one operator, or by two passes of workers: the first drains morsels
    into stores of their own and splits their rows by partition, the second
    copies each partition's rows into one final store and indexes them.  The
    theorem: however the workers interleave, a join over the table delivers what
    the serial join delivers over the morsels' rows in row-group order. *)
From Stdlib Require Import ZArith Lia ZifyNat.
From stdpp Require Import base numbers list strings gmap relations.
From S2P Require Import Prelude Encoding Codec Float64 Schema Writer Reader Volume Batch Scratch Scan VExpr VKernel VCase VExprSpec Operator RowOps Distinct Sorting Emit Sort Pipeline RowStore JoinTable Join Pool Morsel.
#[local] Open Scope Z_scope.

(** ** Choosing the partition count *)

Definition radixMinBuildRows : Z := 65536.
Definition radixTargetRows : Z := 8192.
Definition radixMinBits : Z := 4.
Definition radixMaxBits : Z := 6.
Definition radixHardMaxBits : Z := 12.
(** [for bits < radixMaxBits && (1<<bits)*radixTargetRows < estRows { bits++ }]. *)
Fixpoint bitsLoop (fuel : nat) (bits estRows : Z) : Z :=
  match fuel with
  | O => bits
  | S fuel =>
      if decide (bits < radixMaxBits ∧ Z.shiftl 1 bits * radixTargetRows < estRows)
      then bitsLoop fuel (bits + 1) estRows else bits
  end.
Definition RadixBitsFor (estRows : Z) : Z :=
  if decide (estRows < radixMinBuildRows) then 0 else bitsLoop (Z.to_nat (radixMaxBits - radixMinBits)) radixMinBits estRows.
Definition clampRadixBits (bits : Z) : Z :=
  if decide (bits < 0) then 0 else if decide (radixHardMaxBits < bits) then radixHardMaxBits else bits.

(** ** The table *)

Record SharedHashTable : Type := mkShared {
  sh_parts : list joinHashTable; sh_store : rowStore; sh_mask : Z; sh_schema : Schema; sh_keyIdx : nat; sh_numRows : Z
}.
Definition NumKeys (s : SharedHashTable) : Z := foldr Z.add 0 (jt_keys <$> sh_parts s).
Definition NumPartitions (s : SharedHashTable) : nat := length (sh_parts s).
Definition PartitionRows (s : SharedHashTable) : list Z := numRow <$> sh_parts s.

Definition newSharedHashTable (schema : Schema) (keyIdx : nat) (radixBits capRows expectedKeysPerPart : Z) : go SharedHashTable :=
  let numParts := Z.shiftl 1 radixBits in
  let st := newRowStore schema capRows in
  ps ← foldM (λ ps (_ : nat), t ← newJoinHashTable expectedKeysPerPart; Ret (ps ++ [t])) [] (seq 0 (Z.to_nat numParts));
  Ret (mkShared ps st (numParts - 1) schema keyIdx 0).

(** ** The serial build *)

(** What the callback of [BuildSharedHashTableRadix] does with one row. *)
Definition radixVisit (sht : SharedHashTable) (key : Z) (b : Batch) (rowIdx : nat) : go SharedHashTable :=
  '(row, st) ← appendFrom (sh_store sht) b rowIdx;
  let p := Z.to_nat (radixPart key (sh_mask sht)) in
  t ← index (sh_parts sht) p;
  '(t, st) ← jt_insert t st key row;
  Ret (mkShared (<[p := t]> (sh_parts sht)) st (sh_mask sht) (sh_schema sht) (sh_keyIdx sht) (sh_numRows sht + 1)).
Definition BuildSharedHashTableRadix {S} `{Operator S, RowCountBound S} (fuel : nat) (build : S) (buildKeyIdx radixBits : Z)
    : go SharedHashTable * S :=
  let schema := OpSchema build in
  if decide (buildKeyIdx < 0 ∨ Z.of_nat (length schema) ≤ buildKeyIdx)
  then (Err (ErrMsg "exec: shared hash table: build key out of range"), build) else
  let bits := clampRadixBits radixBits in
  on_ret (buildRowsPresize build) build (λ rows,
  let keysPerPart := if decide (0 < rows) then let numParts := Z.shiftl 1 bits in (rows + numParts - 1) ÷ numParts else 0 in
  on_ret (newSharedHashTable schema (Z.to_nat buildKeyIdx) bits rows keysPerPart) build (λ sht,
  let '(r, sht, build) := forEachBuildRow radixVisit (Z.to_nat buildKeyIdx) fuel build sht in
  on_ret r build (λ _, (Ret sht, build)))).

(** ** Pass 1: partition *)

Record keyedRow : Type := mkKeyed { kr_key : Z; kr_row : Z }.
Record morselBucket : Type := mkBucket { mb_store : rowStore; mb_rows : list (list keyedRow) }.

Definition bucketVisit (mask : Z) (local : morselBucket) (key : Z) (b : Batch) (rowIdx : nat) : go morselBucket :=
  '(row, st) ← appendFrom (mb_store local) b rowIdx;
  let p := Z.to_nat (radixPart key mask) in
  l ← index (mb_rows local) p;
  Ret (mkBucket st (<[p := l ++ [mkKeyed key row]]> (mb_rows local))).
Definition partitionMorsel {S} `{Operator S, RowCountBound S} (fuel : nat) (pipeline : S) (schema : Schema)
    (buildKeyIdx numParts : nat) (mask : Z) : go morselBucket * S :=
  on_ret (buildRowsPresize pipeline) pipeline (λ rows,
  let '(r, local, pipeline) := forEachBuildRow (bucketVisit mask) buildKeyIdx fuel pipeline
    (mkBucket (newRowStore schema rows) (replicate numParts [])) in
  on_ret r pipeline (λ _, (Ret local, pipeline))).

Section Pass1.
Context {S : Type} `{MorselPipeline S, RowCountBound S} (factory : Z → Z → go S) (schema : Schema).
Context (buildKeyIdx numParts : nat) (mask morselSize : Z).

(** A worker's turn on the morsel [a, b): its own runner, and the buckets. *)
Definition pass1_work (fuel : nat) (j : Z * Z * morselRunner S) (buckets : list (option morselBucket))
    : list (option morselBucket) * go (morselRunner S) :=
  let '(a, b, runner) := j in
  match m_open factory runner a b with
  | Ret (op, runner) =>
      let '(r, op) := partitionMorsel fuel op schema buildKeyIdx numParts mask in
      let runner := m_release runner op in
      match (local ← r; store buckets (Z.to_nat (a `div` morselSize)) (Some local)) with
      | Ret buckets => (buckets, Ret runner)
      | Err e => (buckets, Err e)
      | Panic => (buckets, Panic)
      | OutOfFuel => (buckets, OutOfFuel)
      end
  | Err e => (buckets, Err e)
  | Panic => (buckets, Panic)
  | OutOfFuel => (buckets, OutOfFuel)
  end.
(** The turn as one step: the answer of all large enough fuels. *)
Definition pass1_task (j : Z * Z * morselRunner S) (sh sh' : list (option morselBucket))
    (r : Z * Z * morselRunner S + go (morselRunner S)) : Prop :=
  ∃ m res, r = inr res ∧ ∀ fuel, (m ≤ fuel)%nat → pass1_work fuel j sh = (sh', res).
End Pass1.

(** ** Pass 2: assemble *)

(** Row counts and first rows of the partitions. *)
Definition partCounts (numParts : nat) (buckets : list (option morselBucket)) : list Z :=
  (λ p, foldr Z.add 0 ((λ b : option morselBucket, match b with
     | Some b => Z.of_nat (length (default [] (mb_rows b !! p))) | None => 0 end) <$> buckets)) <$> seq 0 numParts.
Fixpoint partOffsets (next : Z) (counts : list Z) : list Z :=
  match counts with
  | [] => []
  | n :: counts => next :: partOffsets (to_i32 (next + to_i32 n)) counts
  end.

(** The code also drops each list of rows once it is copied, which nothing reads
    again. *)
(** What a worker has left of its partition: nothing claimed of it yet, or the
    table it fills, the next row of the final store and the rows to copy. *)
Inductive pass2_job : Type :=
  | P2Start (p : nat)
  | P2Rows (p : nat) (tbl : joinHashTable) (dst : Z) (rows : list (rowStore * keyedRow)).
Record pass2_state : Type := mkP2 { p2_store : rowStore; p2_parts : list (option joinHashTable) }.

Section Pass2.
Context (buckets : list (option morselBucket)) (counts offsets : list Z).
Definition partRows (p : nat) : list (rowStore * keyedRow) :=
  concat ((λ b : option morselBucket, match b with Some b => (λ kr, (mb_store b, kr)) <$> default [] (mb_rows b !! p) | None => [] end) <$> buckets).
(** One row at a time, so that the workers interleave at every row. *)
Definition pass2_work (j : pass2_job) (sh : pass2_state) : pass2_state * (pass2_job + go ()) :=
  match j with
  | P2Start p =>
      match (n ← index counts p; tbl ← newJoinHashTable n; dst ← index offsets p; Ret (tbl, dst)) with
      | Ret (tbl, dst) => (sh, inl (P2Rows p tbl dst (partRows p)))
      | Err e => (sh, inr (Err e))
      | Panic => (sh, inr Panic)
      | OutOfFuel => (sh, inr OutOfFuel)
      end
  | P2Rows p tbl dst ((src, kr) :: rows) =>
      match (st ← setFrom (p2_store sh) dst src (kr_row kr); jt_insert tbl st (kr_key kr) dst) with
      | Ret (tbl, st) => (mkP2 st (p2_parts sh), inl (P2Rows p tbl (to_i32 (dst + 1)) rows))
      | Err e => (sh, inr (Err e))
      | Panic => (sh, inr Panic)
      | OutOfFuel => (sh, inr OutOfFuel)
      end
  | P2Rows p tbl dst [] =>
      match store (p2_parts sh) p (Some tbl) with
      | Ret ps => (mkP2 (p2_store sh) ps, inr (Ret ()))
      | Err e => (sh, inr (Err e))
      | Panic => (sh, inr Panic)
      | OutOfFuel => (sh, inr OutOfFuel)
      end
  end.
Definition pass2_task (j : pass2_job) (sh sh' : pass2_state) (r : pass2_job + go ()) : Prop := pass2_work j sh = (sh', r).
End Pass2.
Definition pass2_begin (a b : Z) (_ : ()) : pass2_job := P2Start (Z.to_nat a).

(** ** The parallel build *)

Section Build.
Context {S : Type} `{MorselPipeline S, RowCountBound S}.

(** The end of pass 1, as the possible results of the build. *)
Definition assemble (schema : Schema) (buildKeyIdx numParts numWorkers : nat) (mask : Z) (buckets : list (option morselBucket))
    (r : go SharedHashTable) : Prop :=
  let counts := partCounts numParts buckets in
  let total := foldr Z.add 0 counts in
  if decide (maxBuildRows < total) then r = Err (ErrMsg "exec: hash join: build side exceeds the maximum") else
  let offsets := partOffsets 0 counts in
  ∃ c, rtc (pool_step 1 pass2_begin (pass2_task buckets counts offsets) Ret false)
      (start (Nat.max 1 (Nat.min numWorkers numParts)) () (mkP2 (newSizedRowStore schema total) (replicate numParts None)) (Z.of_nat numParts)) c ∧
    final c ∧
    r = (_ ← collect (sent c).*2;
         ps ← foldM (λ ps t, match t with Some t => Ret (ps ++ [t]) | None => Panic end) [] (p2_parts (shared c));
         Ret (mkShared ps (p2_store (shared c)) mask schema buildKeyIdx total)).

(** The possible results: one for every interleaving of the workers. *)
Definition BuildSharedHashTableParallel (factory : Z → Z → go S) (schema : Schema) (buildKeyIdx totalRGs : Z)
    (numWorkers : nat) (morselSize radixBits : Z) (r : go SharedHashTable) : Prop :=
  if decide (buildKeyIdx < 0 ∨ Z.of_nat (length schema) ≤ buildKeyIdx)
  then r = Err (ErrMsg "exec: shared hash table: build key out of range") else
  let kc := Z.to_nat buildKeyIdx in
  let morselSize := if decide (morselSize < 1) then 1 else morselSize in
  let bits := clampRadixBits radixBits in
  let numParts := Z.to_nat (Z.shiftl 1 bits) in
  let mask := Z.shiftl 1 bits - 1 in
  if decide (totalRGs < 1) then r = newSharedHashTable schema kc bits 0 0 else
  let numMorsels := Z.to_nat ((totalRGs + morselSize - 1) ÷ morselSize) in
  ∃ c, rtc (pool_step morselSize (λ a b m, (a, b, m)) (pass1_task factory schema kc numParts mask morselSize) Ret true)
      (start (Nat.max 1 (Nat.min numWorkers numMorsels)) newRunner (replicate numMorsels None) totalRGs) c ∧
    final c ∧
    match collect (sent c).*2 with
    | Ret _ => assemble schema kc numParts numWorkers mask (shared c) r
    | Err e => r = Err e
    | Panic => r = Panic
    | OutOfFuel => r = OutOfFuel
    end.
End Build.

(** A join over the table: it has no build side of its own. *)
Definition NewHashJoinShared {B P} `{Operator P} (sht : option SharedHashTable) (probe : P) (probeKeyIdx : Z) : go (HashJoin B P) :=
  match sht with
  | None => Err (ErrMsg "exec: hash join: nil shared hash table")
  | Some sht =>
      let pSchema := OpSchema probe in
      if decide (probeKeyIdx < 0 ∨ Z.of_nat (length pSchema) ≤ probeKeyIdx)
      then Err (ErrMsg "exec: hash join: probe key out of range") else
      Ret (mkHashJoin None probe (sh_keyIdx sht) (Z.to_nat probeKeyIdx) (sh_schema sht ++ pSchema) (sh_schema sht)
        (sh_parts sht) (sh_mask sht) (sh_store sht) true None 0 [] 0)
  end.
(** The switch of [reusableMorselPipeline], and the join's [Reset]. *)
#[export] Instance join_pipeline {B P} `{Operator B, MorselPipeline P, RowCountBound B} : MorselPipeline (HashJoin B P) := {
  reusable j := match hj_build j with Some _ => false | None => reusable (hj_probe j) end;
  reposition j a b := join_Reset (λ p, reposition p a b) j
}.

(** ** Lemmas: partitions *)

Lemma radixPart_land key mask : radixPart key mask = Z.land (radixHash key) mask.
Proof. unfold radixPart. case_decide as E; [by rewrite E, Z.land_0_r|done]. Qed.
Definition part_of (mask key : Z) : nat := Z.to_nat (Z.land (radixHash key) mask).
Lemma shiftl_1 b : 0 ≤ b → Z.shiftl 1 b = 2 ^ b.
Proof. intros. rewrite Z.shiftl_mul_pow2 by done. lia. Qed.
Lemma part_of_lt b key : 0 ≤ b → (part_of (Z.shiftl 1 b - 1) key < Z.to_nat (Z.shiftl 1 b))%nat.
Proof.
  intros Hb. unfold part_of. rewrite shiftl_1 by done. replace (2 ^ b - 1) with (Z.ones b) by (rewrite Z.ones_equiv; lia).
  rewrite Z.land_ones by done. assert (0 < 2 ^ b) by (apply Z.pow_pos_nonneg; lia).
  pose proof (Z.mod_pos_bound (radixHash key) (2 ^ b) ltac:(done)). lia.
Qed.
Lemma clampRadixBits_range bits : 0 ≤ clampRadixBits bits ≤ 12.
Proof. unfold clampRadixBits, radixHardMaxBits. repeat case_decide; lia. Qed.

(** What the tables of the partitions hold when the rows [brows] were inserted in
    order, and what they answer. *)
Definition part_ins (mask : Z) (p : nat) (ins : list (Z * nat)) : list (Z * nat) := filter (λ x, part_of mask x.1 = p) ins.
Lemma keyed_part mask key ins : keyed key (part_ins mask (part_of mask key) ins) = keyed key ins.
Proof.
  unfold keyed, part_ins. f_equal. induction ins as [|x ins IH]; [done|]. rewrite !filter_cons.
  destruct (decide (x.1 = key)) as [E|E].
  - rewrite (decide_True (P := part_of mask x.1 = part_of mask key)) by by rewrite E. rewrite filter_cons, decide_True by done. by rewrite IH.
  - destruct (decide (part_of mask x.1 = part_of mask key)); [|done]. by rewrite filter_cons, decide_False.
Qed.
Lemma part_ins_snoc mask p ins x :
  part_ins mask p (ins ++ [x]) = part_ins mask p ins ++ (if decide (part_of mask x.1 = p) then [x] else []).
Proof. unfold part_ins. rewrite filter_app, filter_cons. by case_decide. Qed.
Lemma part_ins_in mask p ins x : x ∈ part_ins mask p ins → part_of mask x.1 = p ∧ x ∈ ins.
Proof. intros Hx. by apply list_elem_of_filter in Hx. Qed.
Lemma part_ins_sub mask p ins : part_ins mask p ins `sublist_of` ins.
Proof. apply sublist_filter. Qed.

(** ** Lemmas: the serial build *)

Section Radix.
Context (tys : list DataType) (D : Z) (b : Z) (Hb : 0 ≤ b).
Abbreviation mask := (Z.shiftl 1 b - 1).
Abbreviation numParts := (Z.to_nat (Z.shiftl 1 b)).

Definition radix_state (schema : Schema) (kc : nat) (brows : list (Z * list (option Cell))) (sht : SharedHashTable) : Prop :=
  sh_mask sht = mask ∧ sh_schema sht = schema ∧ sh_keyIdx sht = kc ∧ sh_numRows sht = Z.of_nat (length brows) ∧
  length (sh_parts sht) = numParts ∧
  ∃ nx, store_ok tys (sh_store sht) (raw_row tys <$> brows.*2) nx ∧
    ∀ p t, sh_parts sht !! p = Some t → table_repr t nx (part_ins mask p (indexed brows)).

Lemma radixVisit_spec schema kc done sht key bt i :
  batch_ok tys D bt → (i < evalLen bt)%nat → radix_state schema kc done sht → Z.of_nat (length done) < maxBuildRows →
  ∃ sht', radixVisit sht key bt i = Ret sht' ∧ radix_state schema kc (done ++ [(key, r_cells (row_at bt i))]) sht'.
Proof using Hb.
  intros Hbt Hi (Hm & Hsc & Hkc & Hn & Hlen & nx & Hst & Hps) Hmax.
  assert (Hl : length (raw_row tys <$> done.*2) = length done) by by rewrite !length_fmap.
  unfold radixVisit. destruct (appendFrom_spec tys D bt i (sh_store sht) _ nx Hbt Hi Hst) as (st1 & -> & Hst1 & _); [by rewrite Hl|].
  rewrite Hl in *. cbn [mbind go_bind]. pose proof (ok_next _ _ _ _ Hst) as Hnx. rewrite Hl in Hnx.
  rewrite radixPart_land, Hm. fold (part_of mask key). pose proof (part_of_lt b key Hb) as Hp.
  destruct (lookup_lt_is_Some_2 (sh_parts sht) (part_of mask key)) as [t Et]; [lia|].
  rewrite (index_Ret _ _ _ Et). cbn [mbind go_bind].
  assert (Hframe : ∀ p t, sh_parts sht !! p = Some t → table_repr t (nx ++ [0]) (part_ins mask p (indexed done))).
  { intros p t' E. eapply repr_frame; [by apply Hps|rewrite length_app; lia|]. intros r Hr.
    assert (Hin : r ∈ (indexed done).*2).
    { apply list_elem_of_fmap in Hr as (x & -> & Hx). apply list_elem_of_fmap. exists x. split; [done|].
      by eapply part_ins_in. }
    rewrite indexed_snd in Hin. apply elem_of_seq in Hin. by rewrite lookup_app_l by lia. }
  destruct (insert_spec tys t st1 _ _ _ key (length done) Hst1 (Hframe _ _ Et)) as (t' & nxs & nx' & -> & Hst2 & Ht' & Hl' & Hkeep).
  - rewrite length_app. cbn. lia.
  - intros (x & E & Hx)%list_elem_of_fmap. apply (indexed_fresh done), list_elem_of_fmap. exists x. split; [done|].
    by eapply part_ins_in.
  - pose proof (sublist_length _ _ (part_ins_sub mask (part_of mask key) (indexed done))) as Hle. rewrite length_indexed in Hle. lia.
  - cbn [mbind go_bind]. eexists. split; [done|]. split; [done|]. split; [done|]. split; [done|]. cbn [sh_numRows sh_parts sh_store].
    split; [rewrite length_app; cbn; lia|]. split; [by rewrite length_insert|]. exists nx'. split; [by rewrite !fmap_app|].
    intros p t2 E2. rewrite indexed_snoc, part_ins_snoc. cbn [fst]. destruct (decide (p = part_of mask key)) as [->|Hne].
    + rewrite list_lookup_insert_eq in E2 by lia. injection E2 as <-. by rewrite decide_True.
    + rewrite list_lookup_insert_ne in E2 by done. rewrite decide_False, app_nil_r by done.
      eapply repr_frame; [by apply Hframe|lia|]. intros r Hr. apply list_elem_of_fmap in Hr as (x & -> & Hx). apply Hkeep.
      * intros (y & E & Hy)%list_elem_of_fmap. unfold part_ins in *. apply list_elem_of_filter in Hx as [Hx1 Hx2], Hy as [Hy1 Hy2].
        apply Hne. rewrite <- Hx1, <- Hy1. f_equal. destruct x as [k1 r1], y as [k2 r2]. cbn in *. subst r2.
        eapply (pairs_inj (indexed done)); [|done|done]. rewrite indexed_snd. apply NoDup_seq.
      * intros E. apply (indexed_fresh done). rewrite <- E. apply list_elem_of_fmap. exists x. split; [done|].
        by eapply part_ins_in.
Qed.
End Radix.

(** ** A table that is ready: it answers for the build rows [rs] *)

Record shared_ok (tys : list DataType) (schema : Schema) (kc : nat) (rs : list (list (option Cell))) (sht : SharedHashTable) : Prop := {
  so_schema : sh_schema sht = schema;
  so_key : sh_keyIdx sht = kc;
  so_rows : sh_numRows sht = Z.of_nat (length (keyed_cells kc rs));
  so_tables : Forall tab_wf (sh_parts sht);
  so_built : ∃ brows, built tys brows (sh_parts sht) (sh_mask sht) (sh_store sht) ∧ answers kc rs brows ∧ brows ≡ₚ keyed_cells kc rs
}.

(** No keys, no rows. *)
Lemma NumKeys_0 tys schema kc rs sht : shared_ok tys schema kc rs sht → NumKeys sht = 0 → keyed_cells kc rs = [].
Proof.
  intros [_ _ _ Hw (brows & (nx & _ & Hp) & _ & Hperm)] H0.
  assert (Hz : Forall (λ t, jt_keys t = 0) (sh_parts sht)).
  { unfold NumKeys in H0. revert H0. assert (Hpos : ∀ l, Forall tab_wf l → 0 ≤ foldr Z.add 0 (jt_keys <$> l)).
    { induction 1 as [|t l Ht _ IH]; [done|]. cbn in *. rewrite (tw_keys _ Ht). lia. }
    clear Hp. induction Hw as [|t l Ht Hl IH]; [done|]. cbn. intros H0. pose proof (Hpos l Hl). pose proof (tw_keys _ Ht).
    apply Forall_cons. split; [lia|]. apply IH. lia. }
  destruct brows as [|[k r] brows]; [by apply Permutation_nil in Hperm|]. exfalso.
  destruct (Hp k) as (t & ins & Et & Htb & Ek). pose proof (Forall_lookup_1 _ _ _ _ Hz Et) as Ht0. cbn in Ht0.
  pose proof (tw_keys _ (tr_wf _ _ _ Htb)) as Hk. rewrite Ht0 in Hk. destruct (taken t) as [|x l] eqn:Etk; [|cbn in Hk; lia].
  assert (Hin : (k, 0%nat) ∈ indexed ((k, r) :: brows)) by (apply list_elem_of_lookup_2 with 0%nat; done).
  assert (Hr : 0%nat ∈ match_rows ((k, r) :: brows) k) by by apply keyed_in.
  rewrite <- Ek in Hr. apply keyed_in in Hr. assert (Hkin : k ∈ ins.*1) by (apply list_elem_of_fmap; by exists (k, 0%nat)).
  apply (tr_all _ _ _ Htb) in Hkin. rewrite Etk in Hkin. by apply elem_of_nil in Hkin.
Qed.

Section RadixBuild.
Context (tys : list DataType) (D : Z) (b : Z) (Hb : 0 ≤ b).
Abbreviation mask := (Z.shiftl 1 b - 1).
Abbreviation numParts := (Z.to_nat (Z.shiftl 1 b)).

Lemma radix_shared schema kc rs sht :
  radix_state tys b schema kc (keyed_cells kc rs) sht → shared_ok tys schema kc rs sht.
Proof using Hb.
  intros (Hm & Hsc & Hk & Hn & Hlen & nx & Hst & Hp). split; try done.
  - apply Forall_lookup. intros p t Et. by eapply tr_wf, Hp.
  - exists (keyed_cells kc rs). split; [|split; [|done]]; [|intros key; apply keyed_cells_filter].
    exists nx. split; [done|]. intros key. rewrite Hm. fold (part_of mask key).
    pose proof (part_of_lt b key Hb). destruct (lookup_lt_is_Some_2 (sh_parts sht) (part_of mask key)) as [t Et]; [lia|].
    exists t, (part_ins mask (part_of mask key) (indexed (keyed_cells kc rs))). split; [done|]. split; [by apply Hp|]. apply keyed_part.
Qed.
Lemma newSharedHashTable_spec schema kc cap n :
  n ≤ 2 ^ 31 → Type_ <$> schema = tys →
  ∃ sht, newSharedHashTable schema kc b cap n = Ret sht ∧ radix_state tys b schema kc [] sht.
Proof using Hb.
  intros Hn Hs. unfold newSharedHashTable.
  destruct (foldM_seq_ind (λ ps (_ : nat), t ← newJoinHashTable n; Ret (ps ++ [t]))
    (λ k ps, length ps = k ∧ Forall (λ t, table_repr t [] []) ps) numParts []) as (ps & E & Hl & Hps); [done| |].
  - intros k ps _ [Hl Hps]. destruct (newJoinHashTable_spec n [] Hn) as (t & -> & Ht & _). cbn [mbind go_bind].
    eexists. split; [done|]. rewrite length_app. cbn. split; [lia|]. apply Forall_app. split; [done|]. by constructor.
  - rewrite E. cbn [mbind go_bind]. eexists. split; [done|]. do 4 (split; [done|]). split; [done|]. exists [].
    cbn [sh_store]. split; [rewrite <- Hs; apply newRowStore_ok|]. intros p t Et. exact (Forall_lookup_1 _ _ _ _ Hps Et).
Qed.
End RadixBuild.

(** The serial build: whatever the number of partitions, the table answers for
    the rows drained; the build side's error is the error of the build. *)
Lemma BuildSharedHashTableRadix_spec {S} `{Operator S, RowCountBound S} tys D (build : S) kc bits bs o n :
  runs build bs o → Forall (batch_wf tys D) bs → Type_ <$> OpSchema build = tys → (kc < length tys)%nat →
  buildRowsPresize build = Ret n → Z.of_nat (length (keyed_cells kc (r_cells <$> all_rows bs))) ≤ maxBuildRows →
  ∃ r build' m, (∀ fuel, (m ≤ fuel)%nat → BuildSharedHashTableRadix fuel build (Z.of_nat kc) bits = (r, build')) ∧
    match o with
    | Some e => r = Err e
    | None => ∃ sht, r = Ret sht ∧ shared_ok tys (OpSchema build) kc (r_cells <$> all_rows bs) sht
    end.
Proof.
  intros Hr Hbs Hs Hk Hpre Hmax. set (b := clampRadixBits bits). pose proof (clampRadixBits_range bits) as Hb. fold b in Hb.
  assert (Hl : length (OpSchema build) = length tys) by (by rewrite <- Hs, length_fmap).
  pose proof (presize_range _ _ Hpre) as Hn. set (per := if decide (0 < n) then (n + Z.shiftl 1 b - 1) ÷ Z.shiftl 1 b else 0).
  assert (Hper : per ≤ 2 ^ 31).
  { unfold per. rewrite shiftl_1 by lia. unfold maxBuildRows in Hn. case_decide; [|lia]. assert (1 ≤ 2 ^ b) by (pose proof (Z.pow_pos_nonneg 2 b); lia).
    rewrite Z.quot_div_nonneg by lia. apply Z.div_le_upper_bound; [lia|]. nia. }
  destruct (newSharedHashTable_spec tys b ltac:(lia) (OpSchema build) kc n per Hper Hs) as (sht0 & E0 & Hr0).
  destruct (drainBuild_spec radixVisit kc tys D (radix_state tys b (OpSchema build) kc) (Z.to_nat maxBuildRows)
    ltac:(intros; apply radixVisit_spec with D; (done || lia)) Hk bs [] sht0 Hbs Hr0) as (sht & Hfold & HQ).
  { cbn [app]. unfold maxBuildRows in *. lia. }
  destruct (drain_spec _ _ _ _ _ _ Hr Hfold) as (build' & m & Hd). eexists _, build', m. split.
  - intros fuel Hf. unfold BuildSharedHashTableRadix. rewrite decide_False by lia. rewrite Hpre. cbn [on_ret]. rewrite Nat2Z.id.
    fold b. fold per. rewrite E0. cbn [on_ret]. unfold forEachBuildRow. rewrite Hd by done.
    instantiate (1 := match o with None => Ret sht | Some e => Err e end). by destruct o.
  - destruct o; [done|]. exists sht. split; [done|]. by eapply (radix_shared tys b ltac:(lia)).
Qed.

(** ** Lemmas: pass 1 *)

Definition bucket_rows (ins : list (Z * nat)) : list keyedRow := (λ x, mkKeyed x.1 (Z.of_nat x.2)) <$> ins.

Section Pass1Facts.
Context (tys : list DataType) (D : Z) (b : Z) (Hb : 0 ≤ b).
Abbreviation mask := (Z.shiftl 1 b - 1).
Abbreviation numParts := (Z.to_nat (Z.shiftl 1 b)).

Definition bucket_ok (brows : list (Z * list (option Cell))) (local : morselBucket) : Prop :=
  ∃ nx, store_ok tys (mb_store local) (raw_row tys <$> brows.*2) nx ∧
    mb_rows local = (λ p, bucket_rows (part_ins mask p (indexed brows))) <$> seq 0 numParts.

Lemma bucketVisit_spec done local key bt i :
  batch_ok tys D bt → (i < evalLen bt)%nat → bucket_ok done local → Z.of_nat (length done) < maxBuildRows →
  ∃ local', bucketVisit mask local key bt i = Ret local' ∧ bucket_ok (done ++ [(key, r_cells (row_at bt i))]) local'.
Proof using Hb.
  intros Hbt Hi (nx & Hst & Hrows) Hmax.
  assert (Hl : length (raw_row tys <$> done.*2) = length done) by by rewrite !length_fmap.
  unfold bucketVisit. destruct (appendFrom_spec tys D bt i (mb_store local) _ nx Hbt Hi Hst) as (st1 & -> & Hst1 & _); [by rewrite Hl|].
  rewrite Hl. cbn [mbind go_bind]. rewrite radixPart_land. fold (part_of mask key). pose proof (part_of_lt b key Hb) as Hp.
  rewrite (index_Ret _ _ (bucket_rows (part_ins mask (part_of mask key) (indexed done))))
    by (by rewrite Hrows, list_lookup_fmap, lookup_seq_lt).
  cbn [mbind go_bind]. eexists. split; [done|]. exists (nx ++ [0]). cbn [mb_store mb_rows]. split; [by rewrite !fmap_app|].
  apply list_eq. intros p. rewrite list_lookup_fmap, list_lookup_insert, indexed_snoc, Hrows.
  rewrite length_fmap, length_seq, list_lookup_fmap. destruct (decide (p < numParts)%nat) as [Hlt|Hge].
  - rewrite lookup_seq_lt by done. cbn [fmap option_fmap option_map Nat.add]. rewrite part_ins_snoc. cbn [fst].
    destruct (decide (part_of mask key = p)) as [<-|Hne].
    + rewrite decide_True by done. f_equal. unfold bucket_rows. by rewrite fmap_app.
    + rewrite decide_False by (intros [? _]; done). by rewrite app_nil_r.
  - rewrite lookup_seq_ge by lia. cbn. rewrite decide_False by lia. done.
Qed.
Lemma bucket_empty schema cap : Type_ <$> schema = tys → bucket_ok [] (mkBucket (newRowStore schema cap) (replicate numParts [])).
Proof using Type.
  intros Hs. exists []. cbn [mb_store mb_rows].
  split; [pose proof (newRowStore_ok schema cap) as (E & _); by rewrite Hs in E|].
  apply list_eq. intros p. rewrite list_lookup_fmap. destruct (decide (p < numParts)%nat).
  - rewrite lookup_seq_lt, lookup_replicate_2 by lia. done.
  - rewrite lookup_seq_ge, lookup_replicate_ge by lia. done.
Qed.

Context {S : Type} `{MorselPipeline S, RowCountBound S}.
Lemma bounded_presize (s : S) : bounded s → ∃ n, buildRowsPresize s = Ret n.
Proof using Type.
  unfold bounded, buildRowsPresize. destruct (row_bound s) as [m|]; [|by eexists].
  intros [[n t] ->]. by eexists.
Qed.
Lemma partitionMorsel_spec schema kc (s : S) bs o s' :
  Type_ <$> schema = tys → (kc < length tys)%nat → bounded s → runs_to s bs o s' → Forall (batch_wf tys D) bs →
  Z.of_nat (length (keyed_cells kc (r_cells <$> all_rows bs))) ≤ maxBuildRows →
  ∃ m r, (∀ fuel, (m ≤ fuel)%nat → partitionMorsel fuel s schema kc numParts mask = (r, s')) ∧
    match o with
    | Some e => r = Err e
    | None => ∃ local, r = Ret local ∧ bucket_ok (keyed_cells kc (r_cells <$> all_rows bs)) local
    end.
Proof using Hb.
  intros Hs Hk Hbd Hr Hbs Hmax. destruct (bounded_presize s Hbd) as [n Hn].
  destruct (drainBuild_spec (bucketVisit mask) kc tys D bucket_ok (Z.to_nat maxBuildRows)
    ltac:(intros; apply bucketVisit_spec; (done || lia)) Hk bs [] _ Hbs (bucket_empty schema n Hs)) as (local & Hfold & HQ).
  { cbn [app]. unfold maxBuildRows in *. lia. }
  destruct (drain_to _ _ _ _ _ _ _ Hr Hfold) as (m & Hd). exists m. eexists. split.
  - intros fuel Hf. unfold partitionMorsel. rewrite Hn. cbn [on_ret]. unfold forEachBuildRow. rewrite Hd by done.
    instantiate (1 := match o with None => Ret local | Some e => Err e end). by destruct o.
  - destruct o; [done|]. by exists local.
Qed.

(** The promise of the factory, the rows of its morsels, and how they are shared out. *)
Context (factory : Z → Z → go S) (Good : S → Prop) (valid : Z → Z → Prop) (rows : Z → Z → list (list (option Cell))) (Bad : error → Prop).
Context (Hsrc : source_ok factory Good valid (morsel_rows tys D rows Bad) Bad).
Context (schema : Schema) (Hschema : Type_ <$> schema = tys) (kc : nat) (Hkc : (kc < length tys)%nat) (size total : Z).
Abbreviation N := (morsels size total).
Definition morsel_of (i : nat) : list (list (option Cell)) := rows (m_start size i) (m_stop size total i).
Context (Hsize : 0 < size) (Hvalid : ∀ i, (i < N)%nat → valid (m_start size i) (m_stop size total i)).
Context (Hmax : ∀ i, (i < N)%nat → Z.of_nat (length (keyed_cells kc (morsel_of i))) ≤ maxBuildRows).

Definition pass1_own (i : nat) (s : @status (Z * Z * morselRunner S)) (sh : list (option morselBucket)) : Prop :=
  length sh = N ∧
  match s with
  | Todo => True
  | Doing _ (a, c, runner) => a = m_start size i ∧ c = m_stop size total i ∧ runner_ok Good runner
  | Finished => ∃ local, sh !! i = Some (Some local) ∧ bucket_ok (keyed_cells kc (morsel_of i)) local
  end.
Lemma pass1_turn i ms j sh :
  (i < N)%nat → pass1_own i (Doing ms j) sh →
  ∃ m res sh', (∀ fuel, (m ≤ fuel)%nat → pass1_work factory schema kc numParts mask size fuel j sh = (sh', res)) ∧
    match res with
    | Ret runner => runner_ok Good runner ∧ ∃ local, sh' = <[i := Some local]> sh ∧ bucket_ok (keyed_cells kc (morsel_of i)) local
    | Err e => Bad e ∧ sh' = sh
    | _ => False
    end.
Proof using All.
  intros Hi [Hlen Ho]. destruct j as [[a c] runner]. destruct Ho as (-> & -> & Hrun). unfold pass1_work.
  destruct (m_open_spec factory Good valid _ Bad runner _ _ Hsrc (Hvalid i Hi) Hrun)
    as [(s & m' & bs & o & s' & -> & Hbd & Hr & [Hwf Hout] & Hok)|(e & -> & He)].
  - destruct (partitionMorsel_spec schema kc s bs o s' Hschema Hkc Hbd Hr Hwf) as (m & r & Hp & Hres).
    { specialize (Hmax i Hi). unfold morsel_of in Hmax. destruct o as [e|]; [|by rewrite Hout].
      destruct Hout as [_ [l E]]. rewrite E, keyed_cells_app, length_app in Hmax. lia. }
    rewrite m_start_div by done. destruct o as [e|].
    + exists m, (Err e), sh. split; [|by destruct Hout]. intros fuel Hf. rewrite Hp by done. by rewrite Hres.
    + destruct Hres as (local & -> & Hl). exists m, (Ret (m_release m' s')), (<[i:=Some local]> sh). split.
      * intros fuel Hf. rewrite Hp by done. cbn [mbind go_bind]. by rewrite store_Ret by lia.
      * split; [done|]. exists local. split; [done|]. unfold morsel_of. by rewrite <- Hout.
  - exists 0%nat, (Err e), sh. split; [done|done].
Qed.
Lemma pass1_spec :
  work_spec size total (λ a c m, (a, c, m)) (pass1_task factory schema kc numParts mask size) Ret newRunner (replicate N None)
    pass1_own (λ _, runner_ok Good) (λ _ _, True) Bad.
Proof using All.
  split; try done.
  - intros i Hi. split; [apply length_replicate|done].
  - intros i mine l sh Hi Hl [Hlen _]. done.
  - intros i mine j sh sh' r Hi Ho (m & res & -> & Hw). destruct (pass1_turn i mine j sh Hi Ho) as (m' & res' & sh2 & Hw' & Hpost).
    pose proof (Hw (m `max` m')%nat ltac:(lia)) as E. rewrite Hw' in E by lia. injection E as -> ->. destruct Ho as [Hlen _].
    destruct res as [l|e| |]; [|by destruct Hpost|done|done]. destruct Hpost as (Hl & local & -> & Hok).
    split; [|done]. split; [by rewrite length_insert|]. exists local. split; [|done]. apply list_lookup_insert_eq. lia.
  - intros i mine j sh Hi Ho. destruct (pass1_turn i mine j sh Hi Ho) as (m & res & sh' & Hw & _).
    exists sh', (inr res), m, res. done.
  - intros i mine j sh sh' r i' s Hi Hi' Ho (m & res & -> & Hw) Hne [Hlen Hs].
    destruct (pass1_turn i mine j sh Hi Ho) as (m' & res' & sh2 & Hw' & Hpost).
    pose proof (Hw (m `max` m')%nat ltac:(lia)) as E. rewrite Hw' in E by lia. injection E as -> ->.
    assert (E : sh' = sh ∨ ∃ x, sh' = <[i:=x]> sh).
    { destruct res as [l|e| |]; [right|left; by destruct Hpost|done|done]. destruct Hpost as (_ & local & -> & _). by eexists. }
    destruct E as [->|[x ->]]; [done|]. split; [by rewrite length_insert|]. destruct s; [done|done|].
    by rewrite list_lookup_insert_ne by done.
  - intros mine l Hl. by exists l.
  - exists (λ _, 0%nat). intros j sh sh' j' (m & res & E & _). done.
Qed.
End Pass1Facts.

(** ** Lemmas: pass 2 *)

(** A store determines its rows. *)
Lemma concat_fixed_inj {R A} (f : R → list A) w (l1 l2 : list R) :
  Forall (λ x, length (f x) = w) l1 → Forall (λ x, length (f x) = w) l2 → length l1 = length l2 →
  concat (f <$> l1) = concat (f <$> l2) → f <$> l1 = f <$> l2.
Proof.
  intros H1. revert l2. induction H1 as [|x l1 Hx _ IH]; intros l2 H2 Hl E; destruct l2 as [|y l2]; try done.
  apply Forall_cons in H2 as [Hy H2]. cbn [fmap list_fmap concat] in *. apply app_inj_1 in E as [-> E]; [|lia].
  f_equal. apply IH; [done|cbn in Hl; lia|done].
Qed.
Lemma store_ok_unique tys st rows nx rows' nx' :
  store_ok tys st rows nx → store_ok tys st rows' nx' → rows = rows' ∧ nx = nx'.
Proof.
  intros H1 H2. assert (Hl : length rows = length rows').
  { pose proof (ok_n _ _ _ _ H1). pose proof (ok_n _ _ _ _ H2). lia. }
  split.
  - assert (E : ∀ {A} (f : rawRow → list A) w z s c, holds_data z s (concat (f <$> rows)) c → holds_data z s (concat (f <$> rows')) c →
      (∀ r, row_shape tys r → length (f r) = w) → f <$> rows = f <$> rows').
    { intros A f w z s c Hd1 Hd2 Hf. apply (concat_fixed_inj f w); [| |done|].
      - eapply Forall_impl; [exact (ok_shape _ _ _ _ H1)|auto].
      - eapply Forall_impl; [exact (ok_shape _ _ _ _ H2)|auto].
      - by rewrite <- (holds_s_data _ _ _ _ Hd1), (holds_s_data _ _ _ _ Hd2). }
    pose proof (E _ rw _ _ _ _ (ok_values _ _ _ _ H1) (ok_values _ _ _ _ H2) ltac:(by intros r (? & _))) as Ew.
    pose proof (E _ rn _ _ _ _ (ok_nulls _ _ _ _ H1) (ok_nulls _ _ _ _ H2) ltac:(by intros r (_ & ? & _))) as En.
    pose proof (E _ rs _ _ _ _ (ok_strs _ _ _ _ H1) (ok_strs _ _ _ _ H2) ltac:(by intros r (_ & _ & ?))) as Es.
    clear E H1 H2. revert rows' Hl Ew En Es. induction rows as [|[w1 n1 s1] rows IH]; intros [|[w2 n2 s2] rows'] Hl Ew En Es; try done.
    cbn in *. injection Ew as -> Ew. injection En as -> En. injection Es as -> Es. f_equal. apply IH; (done || lia).
  - by rewrite <- (holds_s_data _ _ _ _ (ok_links _ _ _ _ H1)), (holds_s_data _ _ _ _ (ok_links _ _ _ _ H2)).
Qed.

Section Pass2Facts.
Context (tys : list DataType) (b : Z) (Hb : 0 ≤ b).
Abbreviation mask := (Z.shiftl 1 b - 1).
Abbreviation numParts := (Z.to_nat (Z.shiftl 1 b)).
(** The keyed rows of the morsels, and their buckets. *)
Context (ms : list (list (Z * list (option Cell)))) (buckets : list (option morselBucket)).
Context (Hbuckets : Forall2 (λ bk brows, ∃ local, bk = Some local ∧ bucket_ok tys b brows local) buckets ms).

Definition part_rows (p : nat) : list (Z * list (option Cell)) := concat ((λ brows, filter (λ x, part_of mask x.1 = p) brows) <$> ms).
Definition first_row (p : nat) : nat := length (concat (part_rows <$> seq 0 p)).
Definition final_rows : list (Z * list (option Cell)) := concat (part_rows <$> seq 0 numParts).
Abbreviation len p := (length (part_rows p)).
Abbreviation total := (length final_rows).
Context (Hmax : Z.of_nat total ≤ maxBuildRows).

Lemma first_row_S p : first_row (S p) = (first_row p + len p)%nat.
Proof using Type. unfold first_row. rewrite seq_S, fmap_app, concat_app, length_app. cbn. rewrite app_nil_r. done. Qed.
Lemma first_row_mono p p' : (p ≤ p')%nat → (first_row p ≤ first_row p')%nat.
Proof using Type. induction 1 as [|p' _ IH]; [done|]. rewrite first_row_S. lia. Qed.
Lemma part_end p : (p < numParts)%nat → (first_row p + len p ≤ total)%nat.
Proof using Type. intros Hp. rewrite <- first_row_S. change total with (first_row numParts). apply first_row_mono. lia. Qed.
Lemma final_lookup p x y : (p < numParts)%nat → part_rows p !! x = Some y → final_rows !! (first_row p + x)%nat = Some y.
Proof using Type.
  intros Hp Hx. unfold final_rows, first_row. replace numParts with (p + S (numParts - S p))%nat by lia.
  rewrite seq_app, fmap_app, concat_app. rewrite lookup_app_r by lia. cbn [seq fmap list_fmap concat Nat.add].
  replace (_ + x - _)%nat with x by lia. apply lookup_app_l_Some, Hx.
Qed.
Lemma final_split q : (q < total)%nat → ∃ p x y, (p < numParts)%nat ∧ part_rows p !! x = Some y ∧ q = (first_row p + x)%nat ∧ final_rows !! q = Some y.
Proof using Type.
  assert (C : ∀ n, (q < first_row n)%nat → ∃ p x y, (p < n)%nat ∧ part_rows p !! x = Some y ∧ q = (first_row p + x)%nat).
  { induction n as [|n IH]; [cbn; lia|]. rewrite first_row_S. intros Hq. destruct (decide (q < first_row n)%nat) as [Hlt|Hge].
    - destruct (IH Hlt) as (p & x & y & Hp & Hx & E). exists p, x, y. split; [lia|done].
    - destruct (lookup_lt_is_Some_2 (part_rows n) (q - first_row n)) as [y Hy]; [lia|]. exists n, (q - first_row n)%nat, y.
      split; [lia|]. split; [done|lia]. }
  intros Hq. destruct (C numParts Hq) as (p & x & y & Hp & Hx & E). exists p, x, y. do 3 (split; [done|]). rewrite E. by apply final_lookup.
Qed.

(** Each row to copy, and the row of the morsel's store it comes from. *)
Definition copies (sk : rowStore * keyedRow) (y : Z * list (option Cell)) : Prop :=
  kr_key sk.2 = y.1 ∧ ∃ srows snx r, kr_row sk.2 = Z.of_nat r ∧ store_ok tys sk.1 srows snx ∧ srows !! r = Some (raw_row tys y.2).
Lemma part_ins_rows p (brows : list (Z * list (option Cell))) :
  Forall2 (λ x y, x.1 = y.1 ∧ brows !! x.2 = Some y) (part_ins mask p (indexed brows)) (filter (λ x, part_of mask x.1 = p) brows).
Proof using Type.
  induction brows as [|y brows IH] using rev_ind; [constructor|]. rewrite indexed_snoc, part_ins_snoc, filter_app. cbn [fst]. apply Forall2_app.
  - eapply Forall2_impl; [exact IH|]. intros x z [E Hx]. split; [done|]. by apply lookup_app_l_Some.
  - rewrite filter_cons. destruct (decide (part_of mask y.1 = p)); [|constructor]. constructor; [|constructor].
    split; [done|]. cbn [snd]. by rewrite lookup_snoc_last.
Qed.
Lemma partRows_spec p : (p < numParts)%nat → Forall2 copies (partRows buckets p) (part_rows p).
Proof using Hbuckets.
  intros Hp. unfold partRows, part_rows. clear Hmax. induction Hbuckets as [|bk brows bks ms' (local & -> & nx & Hst & Hr) Ht IH]; [constructor|].
  cbn [fmap list_fmap concat]. apply Forall2_app; [|by apply IH]. rewrite Hr, list_lookup_fmap, lookup_seq_lt by done.
  cbn [fmap option_fmap option_map from_option id Nat.add]. unfold bucket_rows. rewrite <- list_fmap_compose. apply Forall2_fmap_l.
  eapply Forall2_impl; [apply part_ins_rows|]. intros [k r] y [E Hx]. cbn in *. split; [done|]. exists (raw_row tys <$> brows.*2), nx, r.
  do 2 (split; [done|]). by rewrite !list_lookup_fmap, Hx.
Qed.
Lemma partCounts_spec : partCounts numParts buckets = (λ p, Z.of_nat (len p)) <$> seq 0 numParts.
Proof using Hbuckets.
  unfold partCounts. apply list_fmap_ext. intros p p' [-> Hp]%lookup_seq. cbn [Nat.add]. unfold part_rows. clear Hmax.
  induction Hbuckets as [|bk brows bks ms' (local & -> & nx & Hst & Hr) Ht IH]; [done|].
  cbn [fmap list_fmap concat foldr]. rewrite length_app, Nat2Z.inj_add, <- IH by done. f_equal. f_equal.
  rewrite Hr, list_lookup_fmap, lookup_seq_lt by done. cbn [fmap option_fmap option_map from_option id Nat.add].
  unfold bucket_rows. rewrite length_fmap. by eapply Forall2_length, part_ins_rows.
Qed.
Lemma counts_total : foldr Z.add 0 (partCounts numParts buckets) = Z.of_nat total.
Proof using Hbuckets.
  rewrite partCounts_spec. unfold final_rows. induction (seq 0 numParts) as [|p l IH]; [done|].
  cbn [fmap list_fmap foldr concat]. rewrite IH, length_app. lia.
Qed.
Lemma offsets_spec p : (p < numParts)%nat → partOffsets 0 (partCounts numParts buckets) !! p = Some (Z.of_nat (first_row p)).
Proof using Hbuckets Hmax.
  rewrite partCounts_spec.
  assert (C : ∀ n k q, (k + n ≤ numParts)%nat → (q < n)%nat →
    partOffsets (Z.of_nat (first_row k)) ((λ p, Z.of_nat (len p)) <$> seq k n) !! q = Some (Z.of_nat (first_row (k + q)))).
  { induction n as [|n IH]; intros k q Hk Hq; [lia|]. cbn [seq fmap list_fmap partOffsets]. destruct q as [|q]; [by rewrite Nat.add_0_r|].
    cbn [lookup list_lookup]. pose proof (part_end k ltac:(lia)). unfold maxBuildRows in Hmax.
    rewrite (wrapS_id 32 (Z.of_nat (len k))) by (done || unfold inS; lia). rewrite wrapS_id by (done || unfold inS; lia).
    rewrite <- Nat2Z.inj_add, <- first_row_S, IH by lia. do 3 f_equal. lia. }
  intros Hp. specialize (C numParts 0%nat p ltac:(lia) Hp). exact C.
Qed.

(** Partition [p] of the final store with its first [k] rows in place, indexed by [tbl]. *)
Definition p_ins (p k : nat) : list (Z * nat) := imap (λ x y, (y.1, (first_row p + x)%nat)) (take k (part_rows p)).
Definition copied (rows : list rawRow) (nx : list Z) (p k : nat) (tbl : joinHashTable) : Prop :=
  (∀ x y, (x < k)%nat → part_rows p !! x = Some y → rows !! (first_row p + x)%nat = Some (raw_row tys y.2)) ∧
  table_repr tbl nx (p_ins p k).
Definition inside (p q : nat) : Prop := (first_row p ≤ q < first_row p + len p)%nat.
Definition part_status (p : nat) (s : @status pass2_job) (rows : list rawRow) (nx : list Z) (ps : list (option joinHashTable)) : Prop :=
  match s with
  | Todo => True
  | Doing _ (P2Start p') => p' = p
  | Doing _ (P2Rows p' tbl dst rest) =>
      p' = p ∧ ∃ k, dst = Z.of_nat (first_row p + k) ∧ (k ≤ len p)%nat ∧ rest = drop k (partRows buckets p) ∧ copied rows nx p k tbl
  | Finished => ∃ tbl, ps !! p = Some (Some tbl) ∧ copied rows nx p (len p) tbl
  end.
Definition pass2_own (p : nat) (s : @status pass2_job) (sh : pass2_state) : Prop :=
  ∃ rows nx, store_ok tys (p2_store sh) rows nx ∧ length rows = total ∧ length (p2_parts sh) = numParts ∧
    part_status p s rows nx (p2_parts sh).

Lemma p_ins_rows p k : (k ≤ len p)%nat → (p_ins p k).*2 = seq (first_row p) k.
Proof using Type.
  intros Hk. unfold p_ins. apply list_eq. intros x. rewrite list_lookup_fmap, list_lookup_imap.
  destruct (decide (x < k)%nat) as [Hx|Hx].
  - rewrite lookup_take_lt by done. destruct (lookup_lt_is_Some_2 (part_rows p) x) as [y ->]; [lia|]. by rewrite lookup_seq_lt.
  - rewrite lookup_take_ge by lia. cbn. by rewrite lookup_seq_ge by lia.
Qed.
Lemma length_p_ins p k : (k ≤ len p)%nat → length (p_ins p k) = k.
Proof using Type. intros Hk. unfold p_ins. rewrite length_imap, length_take. lia. Qed.
Lemma p_ins_S p k y : part_rows p !! k = Some y → p_ins p (S k) = p_ins p k ++ [(y.1, (first_row p + k)%nat)].
Proof using Type.
  intros Hy. pose proof (lookup_lt_Some _ _ _ Hy). unfold p_ins. rewrite (take_S_r _ _ _ Hy), imap_app. cbn.
  rewrite length_take, Nat.min_l by lia. by rewrite Nat.add_0_r.
Qed.
(** A partition only looks at its own rows. *)
Lemma part_status_frame p s rows nx rows' nx' ps ps' :
  part_status p s rows nx ps → (p < numParts)%nat → length rows = total → length nx = length nx' →
  (∀ q, inside p q → rows' !! q = rows !! q ∧ nx' !! q = nx !! q) → ps' !! p = ps !! p →
  part_status p s rows' nx' ps'.
Proof using Type.
  intros Hs Hp Hlr Hln Hq Eps.
  assert (Hc : ∀ k tbl, (k ≤ len p)%nat → copied rows nx p k tbl → copied rows' nx' p k tbl).
  { intros k tbl Hk [Hr Ht]. split.
    - intros x y Hx Hy. destruct (Hq (first_row p + x)%nat) as [-> _]; [unfold inside; lia|]. by apply Hr.
    - eapply repr_frame; [exact Ht|lia|]. intros r Hin. rewrite p_ins_rows in Hin by done. apply elem_of_seq in Hin.
      apply Hq. unfold inside. lia. }
  destruct s as [|mine [p'|p' tbl dst rest]|]; cbn in *; try done.
  - destruct Hs as (-> & k & ? & ? & ? & Hk). split; [done|]. exists k. auto.
  - destruct Hs as (tbl & E & Hk). exists tbl. rewrite Eps. auto.
Qed.
Lemma inside_disjoint p p' q : (p < numParts)%nat → (p' < numParts)%nat → p ≠ p' → inside p q → ¬ inside p' q.
Proof using Type.
  intros Hp Hp' Hne [H1 H2] [H3 H4]. rewrite <- first_row_S in H2, H4. destruct (decide (p < p')%nat) as [Hlt|Hge].
  - pose proof (first_row_mono (S p) p' ltac:(lia)). lia.
  - pose proof (first_row_mono (S p') p ltac:(lia)). lia.
Qed.
(** What a step on partition [p] leaves of the rest. *)
Definition outside (p : nat) (sh sh' : pass2_state) : Prop :=
  ∀ p' s, (p' < numParts)%nat → p' ≠ p → pass2_own p' s sh → pass2_own p' s sh'.
Lemma outside_step p sh sh' rows nx rows' nx' :
  (p < numParts)%nat → store_ok tys (p2_store sh) rows nx → store_ok tys (p2_store sh') rows' nx' → length rows' = length rows →
  length (p2_parts sh') = length (p2_parts sh) → (∀ q, ¬ inside p q → rows' !! q = rows !! q ∧ nx' !! q = nx !! q) →
  (∀ p', p' ≠ p → p2_parts sh' !! p' = p2_parts sh !! p') → outside p sh sh'.
Proof using Type.
  intros Hp Hs Hs' Hl Hlp Hq Hps p' s Hp' Hne (rows1 & nx1 & Hs1 & Hl1 & Hlp1 & Hst).
  destruct (store_ok_unique _ _ _ _ _ _ Hs Hs1) as [<- <-]. exists rows', nx'. split; [done|]. split; [lia|]. split; [lia|].
  eapply part_status_frame; try done.
  - pose proof (ok_next _ _ _ _ Hs). pose proof (ok_next _ _ _ _ Hs'). lia.
  - intros q Hin. apply Hq. by apply (inside_disjoint p' p).
  - by apply Hps.
Qed.

Lemma pass2_step p mine j sh sh' r :
  (p < numParts)%nat → pass2_own p (Doing mine j) sh →
  pass2_work buckets (partCounts numParts buckets) (partOffsets 0 (partCounts numParts buckets)) j sh = (sh', r) →
  match r with
  | inl j' => pass2_own p (Doing mine j') sh'
  | inr (Ret _) => pass2_own p Finished sh'
  | _ => False
  end ∧ outside p sh sh'.
Proof using All.
  intros Hp (rows & nx & Hst & Hlr & Hlp & Hj) Hw. destruct j as [p'|p' tbl dst rest]; cbn [pass2_work part_status] in *.
  - subst p'. assert (Ec : partCounts numParts buckets !! p = Some (Z.of_nat (len p))).
    { by rewrite partCounts_spec, list_lookup_fmap, lookup_seq_lt. }
    rewrite (index_Ret _ _ _ Ec) in Hw.
    cbn [mbind go_bind] in Hw. pose proof (part_end p Hp) as Hend. unfold maxBuildRows in Hmax.
    destruct (newJoinHashTable_spec (Z.of_nat (len p)) nx ltac:(lia)) as (tbl & Et & Ht & _). rewrite Et in Hw. cbn [mbind go_bind] in Hw.
    rewrite (index_Ret _ _ _ (offsets_spec p Hp)) in Hw. cbn [mbind go_bind] in Hw. injection Hw as <- <-. split; [|by intros ?].
    exists rows, nx. do 3 (split; [done|]). split; [done|]. exists 0%nat. rewrite Nat.add_0_r. split; [done|]. split; [lia|]. split; [done|].
    split; [lia|]. unfold p_ins. by rewrite take_0.
  - destruct Hj as (-> & k & -> & Hk & -> & Hrows & Ht). pose proof (partRows_spec p Hp) as Hcp. pose proof (Forall2_length _ _ _ Hcp) as Hlc.
    pose proof (part_end p Hp) as Hend.
    destruct (drop k (partRows buckets p)) as [|[src kr] rest] eqn:Ed.
    + assert (Hkl : k = len p) by (apply (f_equal length) in Ed; rewrite length_drop in Ed; cbn in Ed; lia).
      rewrite store_Ret in Hw by lia. injection Hw as <- <-. split.
      * exists rows, nx. cbn [p2_store p2_parts]. do 2 (split; [done|]). rewrite length_insert. split; [done|]. exists tbl.
        rewrite list_lookup_insert_eq by lia. split; [done|]. by rewrite <- Hkl.
      * eapply (outside_step p _ _ rows nx rows nx); cbn [p2_store p2_parts]; try done; [by rewrite length_insert|].
        intros p' Hne. by rewrite list_lookup_insert_ne.
    + assert (Esk : partRows buckets p !! k = Some (src, kr)) by (rewrite <- (Nat.add_0_r k), <- lookup_drop, Ed; done).
      destruct (Forall2_lookup_l _ _ _ _ _ Hcp Esk) as (y & Ey & Ekey & srows & snx & q & Eq & Hsrc & Hq). cbn [fst snd] in *.
      pose proof (lookup_lt_Some _ _ _ Ey) as Hky.
      destruct (setFrom_spec tys (p2_store sh) rows nx src srows snx (first_row p + k) q _ Hst Hsrc ltac:(lia) Hq) as (st1 & E1 & Hst1 & Enx).
      rewrite Eq, E1 in Hw. cbn [mbind go_bind] in Hw. rewrite Ekey in Hw. pose proof (ok_next _ _ _ _ Hst) as Hlnx.
      destruct (insert_spec tys tbl st1 _ nx (p_ins p k) y.1 (first_row p + k) Hst1 Ht) as (tbl' & nxs & nx' & E2 & Hst2 & Ht2 & Hl2 & Hkeep).
      { lia. }
      { rewrite p_ins_rows by lia. rewrite elem_of_seq. lia. }
      { rewrite length_p_ins by lia. lia. }
      rewrite E2 in Hw. injection Hw as <- <-. unfold maxBuildRows in Hmax. split.
      * exists (<[(first_row p + k)%nat:=raw_row tys y.2]> rows), nx'. cbn [p2_store p2_parts]. split; [done|]. rewrite length_insert.
        do 2 (split; [done|]). split; [done|]. exists (S k). split; [rewrite wrapS_id; [lia|done|unfold inS; lia]|]. split; [lia|].
        split; [by rewrite (drop_S _ _ _ Esk) in Ed; injection Ed as <-|]. split; [|by rewrite (p_ins_S p k y)].
        intros x z Hx Hz. destruct (decide (x = k)) as [->|Hne].
        { rewrite list_lookup_insert_eq by lia. by rewrite Ey in Hz; injection Hz as <-. }
        rewrite list_lookup_insert_ne by lia. apply Hrows; [lia|done].
      * eapply (outside_step p _ _ rows nx _ nx'); cbn [p2_store p2_parts]; [done|exact Hst|exact Hst2|by rewrite length_insert|done| |done].
        intros r Hr. unfold inside in Hr. split; [by rewrite list_lookup_insert_ne by lia|]. apply Hkeep; [|lia].
        rewrite p_ins_rows by lia. rewrite elem_of_seq. lia.
Qed.

Lemma morsels_1 n : morsels 1 (Z.of_nat n) = n.
Proof using Type. clear. unfold morsels. replace (Z.of_nat n + 1 - 1) with (Z.of_nat n) by lia. rewrite Z.div_1_r. lia. Qed.
Lemma pass2_spec schema :
  Type_ <$> schema = tys →
  work_spec 1 (Z.of_nat numParts) pass2_begin
    (pass2_task buckets (partCounts numParts buckets) (partOffsets 0 (partCounts numParts buckets))) Ret ()
    (mkP2 (newSizedRowStore schema (Z.of_nat total)) (replicate numParts None)) pass2_own (λ _ _, True) (λ _ _, True) (λ _, False).
Proof using All.
  intros Hs. unfold pass2_task. split; rewrite ?morsels_1; try done.
  - intros i Hi. pose proof (newSizedRowStore_ok schema total Hmax) as Hok. cbv zeta in Hok. rewrite Hs in Hok.
    exists (replicate total (zero_row tys)), (replicate total 0). cbn [p2_store p2_parts]. rewrite !length_replicate. done.
  - intros i mine l sh Hi _ (rows & nx & H1 & H2 & H3 & _). exists rows, nx. do 3 (split; [done|]). cbn. unfold m_start. lia.
  - intros i mine j sh sh' r Hi Ho Hw. destruct (pass2_step i mine j sh sh' r Hi Ho Hw) as [Hpost _].
    by destruct r as [j'|[l|e| |]].
  - intros i mine j sh Hi Ho. destruct (pass2_work buckets _ _ j sh) as [sh' r] eqn:E. by exists sh', r.
  - intros i mine j sh sh' r i' s Hi Hi' Ho Hw Hne. destruct (pass2_step i mine j sh sh' r Hi Ho Hw) as [_ Hout]. by apply Hout.
  - intros mine l _. by exists l.
  - exists (λ j, match j with P2Start p => S (length (partRows buckets p)) | P2Rows _ _ _ rows => length rows end).
    intros j sh sh' j' Hw. destruct j as [p|p tbl dst [|[src kr] rows]]; cbn [pass2_work] in Hw;
      repeat case_match; simplify_eq; cbn; lia.
Qed.

(** ** Lemmas: the partitions together *)

Lemma part_rows_filter p : part_rows p = filter (λ x, part_of mask x.1 = p) (concat ms).
Proof using Type.
  unfold part_rows. clear. induction ms as [|l ls IH]; [done|]. cbn [fmap list_fmap concat]. by rewrite filter_app, IH.
Qed.
Lemma concat_one {A} (g : nat → list A) n p : (p < n)%nat → (∀ q, q ≠ p → g q = []) → concat (g <$> seq 0 n) = g p.
Proof using Type.
  clear. intros Hp Hg. replace n with (p + S (n - S p))%nat by lia. rewrite seq_app, fmap_app, concat_app. cbn [seq fmap list_fmap concat Nat.add].
  assert (E : ∀ l, p ∉ l → concat (g <$> l) = []).
  { induction l as [|q l IH]; [done|]. intros [Hq Hl]%not_elem_of_cons. cbn. by rewrite Hg, IH by done. }
  rewrite !E, app_nil_r; [done|rewrite elem_of_seq; lia|rewrite elem_of_seq; lia].
Qed.
Lemma concat_parts {A} (f : A → nat) n (l : list A) :
  (∀ x, x ∈ l → (f x < n)%nat) → concat ((λ p, filter (λ x, f x = p) l) <$> seq 0 n) ≡ₚ l.
Proof using Type.
  clear. induction l as [|x l IH]; intros Hl.
  { induction (seq 0 n) as [|q s IH]; [done|exact IH]. }
  assert (IH' : concat ((λ p, filter (λ x, f x = p) l) <$> seq 0 n) ≡ₚ l) by (apply IH; intros y Hy; apply Hl; by right).
  etrans; [|apply (perm_skip x), IH']. specialize (Hl x ltac:(by left)). replace n with (f x + S (n - S (f x)))%nat by lia.
  rewrite seq_app, !fmap_app, !concat_app. cbn [seq fmap list_fmap concat Nat.add].
  assert (E : ∀ s : list nat, f x ∉ s → list_fmap _ _ (λ p, filter (λ y, f y = p) (x :: l)) s = list_fmap _ _ (λ p, filter (λ y, f y = p) l) s).
  { intros s Hs. apply list_fmap_ext. intros i p Hi. rewrite filter_cons, decide_False; [done|]. intros <-. by apply Hs, (list_elem_of_lookup_2 s i). }
  unfold fmap. rewrite !E by (rewrite elem_of_seq; lia). rewrite filter_cons, decide_True by done. cbn [app]. symmetry. apply Permutation_middle.
Qed.
Lemma final_perm : final_rows ≡ₚ concat ms.
Proof using Hb.
  unfold final_rows. rewrite <- (concat_parts (λ x, part_of mask x.1) numParts (concat ms)) by (intros x _; by apply part_of_lt).
  apply reflexive_eq. f_equal. apply list_fmap_ext. intros _ p _. apply part_rows_filter.
Qed.
Lemma final_answers kc rs : keyed_cells kc rs = concat ms → answers kc rs final_rows.
Proof using Hb.
  intros E key. rewrite <- keyed_cells_filter, E. f_equal. unfold final_rows.
  assert (Hf : ∀ l : list (list (Z * list (option Cell))), filter (λ p, p.1 = key) (concat l) = concat ((λ x, filter (λ p, p.1 = key) x) <$> l)).
  { induction l as [|x l IH]; [done|]. cbn [fmap list_fmap concat]. by rewrite filter_app, IH. }
  rewrite Hf, <- list_fmap_compose. rewrite (concat_one _ numParts (part_of mask key)); [|by apply part_of_lt|].
  - cbn [compose]. rewrite part_rows_filter, list_filter_filter. apply list_filter_iff. intros x. split; [by intros []|]. by intros ->.
  - intros q Hq. cbn [compose]. rewrite part_rows_filter, list_filter_filter. apply filter_out, Forall_forall.
    intros x _ [E1 E2]. apply Hq. by rewrite <- E2, E1.
Qed.
Lemma indexed_parts n : indexed (concat (part_rows <$> seq 0 n)) = concat ((λ p, p_ins p (len p)) <$> seq 0 n).
Proof using Type.
  induction n as [|n IH]; [done|]. rewrite seq_S, !fmap_app, !concat_app, <- IH. cbn. rewrite !app_nil_r.
  unfold indexed at 1. rewrite imap_app. f_equal. unfold p_ins. by rewrite take_ge by lia.
Qed.
Lemma match_final key : match_rows final_rows key = keyed key (p_ins (part_of mask key) (len (part_of mask key))).
Proof using Hb.
  unfold match_rows, final_rows. rewrite indexed_parts.
  assert (Hk : ∀ l, keyed key (concat l) = concat (keyed key <$> l)).
  { induction l as [|x l IH]; [done|]. cbn [fmap list_fmap concat]. by rewrite keyed_app, IH. }
  rewrite Hk, <- list_fmap_compose. rewrite (concat_one _ numParts (part_of mask key)); [done|by apply part_of_lt|].
  intros q Hq. cbn [compose]. apply keyed_nil. intros Hin. apply list_elem_of_fmap in Hin as (x & -> & Hx). unfold p_ins in Hx.
  rewrite take_ge in Hx by lia. apply list_elem_of_lookup in Hx as [i Hi]. rewrite list_lookup_imap in Hi.
  destruct (part_rows q !! i) as [y|] eqn:Ey; [|done]. injection Hi as <-. rewrite part_rows_filter in Ey.
  apply list_elem_of_lookup_2, list_elem_of_filter in Ey as [Ey _]. done.
Qed.
End Pass2Facts.

(** Pass 2 always succeeds, and with the same answers however its workers interleave. *)
Section Assemble.
Context (tys : list DataType) (b : Z) (Hb : 0 ≤ b) (Hb12 : b ≤ 12).
Abbreviation mask := (Z.shiftl 1 b - 1).
Abbreviation numParts := (Z.to_nat (Z.shiftl 1 b)).
Context (kc : nat) (rs : list (list (option Cell))) (ms : list (list (Z * list (option Cell)))) (buckets : list (option morselBucket)).
Context (Hbuckets : Forall2 (λ bk brows, ∃ local, bk = Some local ∧ bucket_ok tys b brows local) buckets ms).
Context (Hrs : keyed_cells kc rs = concat ms) (Hmax : Z.of_nat (length (keyed_cells kc rs)) ≤ maxBuildRows).
Context (schema : Schema) (Hschema : Type_ <$> schema = tys).

Lemma assemble_max : Z.of_nat (length (final_rows b ms)) ≤ maxBuildRows.
Proof using Hb Hrs Hmax. by rewrite (Permutation_length (final_perm b Hb ms)), <- Hrs. Qed.
Lemma parts_total (ps : list (option joinHashTable)) :
  (∀ p, (p < length ps)%nat → ∃ t, ps !! p = Some (Some t)) →
  ∃ ts, ps = Some <$> ts ∧ foldM (λ ts t, match t with Some t => Ret (ts ++ [t]) | None => Panic end) [] ps = Ret ts.
Proof using Type.
  intros Hp. assert (E : ∃ ts, ps = Some <$> ts).
  { clear -Hp. induction ps as [|x ps IH]; [by exists []|]. destruct (Hp 0%nat) as [t E]; [cbn; lia|]. injection E as ->.
    destruct IH as [ts ->]; [|by exists (t :: ts)]. intros p Hlt. apply (Hp (S p)). cbn. lia. }
  destruct E as [ts ->]. exists ts. split; [done|]. clear Hp.
  cut (∀ acc, foldM (λ ts t, match t with Some t => Ret (ts ++ [t]) | None => Panic end) acc (Some <$> ts) = Ret (acc ++ ts)); [intros E; apply (E [])|].
  induction ts as [|t ts IH]; intros acc; [by rewrite app_nil_r|]. cbn [fmap list_fmap foldM mbind go_bind]. rewrite IH. by rewrite <- app_assoc.
Qed.
Lemma assembled sh :
  (∀ p, (p < numParts)%nat → pass2_own tys b ms buckets p Finished sh) →
  ∃ ts, p2_parts sh = Some <$> ts ∧ shared_ok tys schema kc rs (mkShared ts (p2_store sh) mask schema kc (Z.of_nat (length (final_rows b ms)))).
Proof using All.
  intros Hown. assert (Hpos : (0 < numParts)%nat) by (rewrite shiftl_1 by done; pose proof (Z.pow_pos_nonneg 2 b); lia).
  destruct (Hown 0%nat Hpos) as (rows & nx & Hst & Hlr & Hlp & _).
  assert (Hall : ∀ p, (p < numParts)%nat → part_status tys b ms buckets p Finished rows nx (p2_parts sh)).
  { intros p Hp. destruct (Hown p Hp) as (rows1 & nx1 & Hst1 & _ & _ & Hs). by destruct (store_ok_unique _ _ _ _ _ _ Hst Hst1) as [<- <-]. }
  destruct (parts_total (p2_parts sh)) as (ts & Ets & _).
  { intros p Hp. destruct (Hall p) as (t & E & _); [lia|]. by exists t. }
  assert (Ht : ∀ p t, ts !! p = Some t → table_repr t nx (p_ins b ms p (length (part_rows b ms p)))).
  { intros p t Et. assert (Hp : (p < numParts)%nat) by (apply lookup_lt_Some in Et; apply (f_equal length) in Ets; rewrite length_fmap in Ets; lia).
    destruct (Hall p Hp) as (t' & E & _ & Ht). rewrite Ets, list_lookup_fmap, Et in E. by injection E as <-. }
  exists ts. split; [done|]. pose proof (final_perm b Hb ms) as Hperm. rewrite <- Hrs in Hperm. split; cbn [sh_schema sh_keyIdx sh_numRows sh_parts sh_mask sh_store]; try done.
  - by rewrite Hperm.
  - apply Forall_lookup. intros p t Et. by eapply tr_wf, Ht.
  - exists (final_rows b ms). split; [|split; [by apply final_answers|done]]. exists nx. split.
    + assert (E : rows = raw_row tys <$> (final_rows b ms).*2); [|by rewrite <- E].
      apply list_eq_same_length with (n := length rows); [by rewrite !length_fmap|done|].
      intros q x y Hq Hx Hy. destruct (final_split b ms q) as (p & i & z & Hp & Hz & -> & Hf); [lia|].
      rewrite !list_lookup_fmap, Hf in Hy. injection Hy as <-. destruct (Hall p Hp) as (t & _ & Hr & _).
      rewrite (Hr i z) in Hx; [by injection Hx|by eapply lookup_lt_Some|done].
    + intros key. fold (part_of mask key). pose proof (part_of_lt b key Hb) as Hp.
      destruct (lookup_lt_is_Some_2 ts (part_of mask key)) as [t Et]; [apply (f_equal length) in Ets; rewrite length_fmap in Ets; lia|].
      exists t, (p_ins b ms (part_of mask key) (length (part_rows b ms (part_of mask key)))). split; [done|]. split; [by apply Ht|].
      by rewrite match_final by done.
Qed.
Lemma assemble_spec numWorkers :
  (∃ r, assemble schema kc numParts numWorkers mask buckets r) ∧
  ∀ r, assemble schema kc numParts numWorkers mask buckets r → ∃ sht, r = Ret sht ∧ shared_ok tys schema kc rs sht.
Proof using All.
  pose proof assemble_max as Hm. pose proof (counts_total tys b ms buckets Hbuckets) as Hct.
  destruct (pool_runs 1 (Z.of_nat numParts) pass2_begin _ Ret false (Nat.max 1 (Nat.min numWorkers numParts)) () _ _ _ _ _
    (pass2_spec tys b Hb ms buckets Hbuckets Hm schema Hschema)) as (_ & (c & Hc & Hf) & _ & Hout); [lia..| |].
  - assert (Hp : 2 ^ b ≤ 2 ^ 12) by (apply Z.pow_le_mono_r; lia). rewrite shiftl_1 by done. lia.
  - unfold assemble. rewrite Hct. split; [eexists; rewrite decide_False by lia; by exists c|].
    intros r. rewrite decide_False by lia. intros (c' & Hc' & Hf' & ->). destruct (Hout c' Hc' Hf') as (_ & [(ls & -> & _ & _ & Hown)|(e & _ & [])]).
    rewrite morsels_1 in Hown by done. destruct (assembled _ Hown) as (ts & Ets & Hok). cbn [mbind go_bind].
    destruct (parts_total (p2_parts (shared c'))) as (ts' & E & ->).
    { intros p Hp. rewrite Ets in Hp |- *. rewrite length_fmap in Hp. rewrite list_lookup_fmap. destruct (lookup_lt_is_Some_2 ts p Hp) as [t ->]. by exists t. }
    cbn [mbind go_bind]. rewrite Ets in E. apply (inj (fmap Some)) in E as <-. by eexists.
Qed.
End Assemble.

Section ParallelBuild.
Context {S : Type} `{MorselPipeline S, RowCountBound S}.
Context (tys : list DataType) (D : Z) (factory : Z → Z → go S) (Good : S → Prop) (valid : Z → Z → Prop).
Context (rows : Z → Z → list (list (option Cell))) (Bad : error → Prop).
Context (Hsrc : source_ok factory Good valid (morsel_rows tys D rows Bad) Bad).
Context (schema : Schema) (Hschema : Type_ <$> schema = tys) (kc : nat) (Hkc : (kc < length tys)%nat).
Context (total morselSize : Z) (numWorkers : nat) (Htotal : 1 ≤ total).
Definition size_of (morselSize : Z) : Z := if decide (morselSize < 1) then 1 else morselSize.
Abbreviation size := (size_of morselSize).
Context (Hvalid : ∀ i, (i < morsels size total)%nat → valid (m_start size i) (m_stop size total i)).
Context (Hroom : total + (Z.of_nat (Nat.max 1 numWorkers) + 2) * size < 2 ^ 63).
(** The rows of the build side, in row-group order. *)
Definition side_rows : list (list (option Cell)) := concat (morsel_of rows size total <$> seq 0 (morsels size total)).
Context (Hmax : Z.of_nat (length (keyed_cells kc side_rows)) ≤ maxBuildRows).

Lemma size_pos : 0 < size.
Proof using Type. clear. unfold size_of. case_decide; lia. Qed.
Lemma numMorsels_eq : Z.to_nat ((total + size - 1) ÷ size) = morsels size total.
Proof using All. pose proof size_pos. unfold morsels. by rewrite Z.quot_div_nonneg by lia. Qed.
Lemma keyed_side l : keyed_cells kc (concat l) = concat (keyed_cells kc <$> l).
Proof using Type. clear. induction l as [|x l IH]; [done|]. cbn [fmap list_fmap concat]. by rewrite keyed_cells_app, IH. Qed.

Lemma parallel_build_spec radixBits :
  (∃ r, BuildSharedHashTableParallel factory schema (Z.of_nat kc) total numWorkers morselSize radixBits r) ∧
  ∀ r, BuildSharedHashTableParallel factory schema (Z.of_nat kc) total numWorkers morselSize radixBits r →
    (∃ sht, r = Ret sht ∧ shared_ok tys schema kc side_rows sht) ∨ ∃ e, r = Err e ∧ Bad e.
Proof using All.
  pose proof size_pos as Hs. pose proof (clampRadixBits_range radixBits) as [Hb0 Hb12]. set (b := clampRadixBits radixBits) in *.
  set (ms := (λ i, keyed_cells kc (morsel_of rows size total i)) <$> seq 0 (morsels size total)).
  assert (Hrs : keyed_cells kc side_rows = concat ms) by (unfold side_rows, ms; by rewrite keyed_side, <- list_fmap_compose).
  assert (Hmi : ∀ i, (i < morsels size total)%nat → Z.of_nat (length (keyed_cells kc (morsel_of rows size total i))) ≤ maxBuildRows).
  { intros i Hi. etrans; [|exact Hmax]. rewrite Hrs. apply inj_le.
    assert (Ei : ms !! i = Some (keyed_cells kc (morsel_of rows size total i))) by (unfold ms; by rewrite list_lookup_fmap, lookup_seq_lt).
    rewrite <- (take_drop_middle _ _ _ Ei), concat_app, length_app. cbn. rewrite length_app. lia. }
  set (w := Nat.max 1 (Nat.min numWorkers (morsels size total))).
  assert (Hw : total + (Z.of_nat w + 2) * size < 2 ^ 63).
  { eapply Z.le_lt_trans; [|exact Hroom]. apply Zplus_le_compat_l, Zmult_le_compat_r; lia. }
  destruct (pool_runs size total (λ a c m, (a, c, m)) _ Ret true w newRunner _ _ _ _ _
    (pass1_spec tys D b Hb0 factory Good valid rows Bad Hsrc schema Hschema kc Hkc size total Hs Hvalid Hmi))
    as (_ & (c & Hc & Hf) & _ & Hout); [lia..|].
  assert (Hl : length schema = length tys) by (by rewrite <- Hschema, length_fmap).
  assert (Hguard : ¬ (Z.of_nat kc < 0 ∨ Z.of_nat (length schema) ≤ Z.of_nat kc)) by lia.
  assert (Hpost : ∀ c, rtc (pool_step size (λ a c m, (a, c, m)) (pass1_task factory schema kc (Z.to_nat (Z.shiftl 1 b)) (Z.shiftl 1 b - 1) size) Ret true)
      (start w newRunner (replicate (morsels size total) None) total) c → final c →
    (∃ ls, collect (sent c).*2 = Ret ls ∧
      Forall2 (λ bk brows, ∃ local, bk = Some local ∧ bucket_ok tys b brows local) (shared c) ms) ∨ ∃ e, collect (sent c).*2 = Err e ∧ Bad e).
  { intros c1 Hc1 Hf1. destruct (Hout c1 Hc1 Hf1) as (_ & [(ls & E & _ & _ & Hown)|Hbad]); [left|by right]. exists ls. split; [done|].
    assert (Hlen : length (shared c1) = morsels size total).
    { destruct (Hown 0%nat) as [E1 _]; [|done]. apply morsels_lt; unfold m_start; lia. }
    apply Forall2_same_length_lookup. split; [unfold ms; by rewrite length_fmap, length_seq|].
    intros i bk brows Hbk Hbr. assert (Hi : (i < morsels size total)%nat) by (apply lookup_lt_Some in Hbk; lia).
    unfold ms in Hbr. rewrite list_lookup_fmap, lookup_seq_lt in Hbr by done. injection Hbr as <-.
    destruct (Hown i Hi) as (_ & local & E1 & Hok). rewrite E1 in Hbk. injection Hbk as <-. by exists local. }
  assert (Hasm : ∀ buckets, Forall2 (λ bk brows, ∃ local, bk = Some local ∧ bucket_ok tys b brows local) buckets ms →
    (∃ r, assemble schema kc (Z.to_nat (Z.shiftl 1 b)) numWorkers (Z.shiftl 1 b - 1) buckets r) ∧
    ∀ r, assemble schema kc (Z.to_nat (Z.shiftl 1 b)) numWorkers (Z.shiftl 1 b - 1) buckets r → ∃ sht, r = Ret sht ∧ shared_ok tys schema kc side_rows sht).
  { intros buckets Hbk. by apply (assemble_spec tys b Hb0 Hb12 kc side_rows ms buckets Hbk Hrs Hmax schema Hschema). }
  unfold BuildSharedHashTableParallel. fold b. fold size. rewrite numMorsels_eq, Nat2Z.id. fold w. split.
  - destruct (Hpost c Hc Hf) as [(ls & E & Hbk)|(e & E & _)].
    + destruct (Hasm _ Hbk) as [[r Hr] _]. exists r. rewrite decide_False by done. rewrite decide_False by lia. exists c. rewrite E. done.
    + exists (Err e). rewrite decide_False by done. rewrite decide_False by lia. exists c. rewrite E. done.
  - intros r. rewrite decide_False by done. rewrite decide_False by lia. intros (c1 & Hc1 & Hf1 & Hr).
    destruct (Hpost c1 Hc1 Hf1) as [(ls & E & Hbk)|(e & E & He)]; rewrite E in Hr; [left|right; by exists e].
    destruct (Hasm _ Hbk) as [_ Hall]. by apply Hall.
Qed.
End ParallelBuild.

(** A join over a finished table. *)
Lemma shared_stream {B P} `{Operator B, RowCountBound B, StableSchema P} tys ptys D M W schema kc rs sht (probe : P) pk pbs po probe' :
  shared_ok tys schema kc rs sht → Type_ <$> schema = tys → Forall (row_ok tys) rs → Forall real_type tys →
  Forall (Forall (λ c, cell_weight c ≤ M)) rs → 0 ≤ M → 1024 * M < 2 ^ 32 → D ≤ W ∧ 1024 * M ≤ W →
  runs_to probe pbs po probe' → Forall (batch_wf ptys D) pbs → Type_ <$> OpSchema probe = ptys → (pk < length ptys)%nat →
  ∃ (j : HashJoin B P) out pbo pos ms mpos, NewHashJoinShared (Some sht) probe (Z.of_nat pk) = Ret j ∧
    runs_to j out po (set_probe j probe' pbo pos ms mpos) ∧ Forall (batch_wf (out_types tys ptys) W) out ∧ Forall whole out ∧
    r_cells <$> all_rows out = fmap join_cell <$> joined kc pk rs (r_cells <$> all_rows pbs).
Proof.
  intros [Hsc Hk _ _ (brows & Hbt & Ha & Hperm)] Hs Hrows Hreal HM HM0 HMW HW Hr Hpw Hps Hpk.
  assert (Hl : length (OpSchema probe) = length ptys) by (by rewrite <- Hps, length_fmap).
  set (j := mkHashJoin (@None B) probe (sh_keyIdx sht) pk (sh_schema sht ++ OpSchema probe) (sh_schema sht)
    (sh_parts sht) (sh_mask sht) (sh_store sht) true None 0 [] 0).
  assert (Hsub : ∀ Q : list (option Cell) → Prop, Forall Q rs → Forall Q brows.*2).
  { intros Q HQ. apply Forall_forall. intros x Hx. rewrite Hperm in Hx. pose proof (keyed_cells_Forall Q kc rs HQ) as HF.
    rewrite Forall_forall in HF. by apply HF. }
  destruct (built_stream tys ptys D M W brows j rs probe pbs po probe' None 0 [] 0) as (out & pbo & pos & ms & mpos & Hout & Hrest); try done.
  - change (buildKey j) with (sh_keyIdx sht). by rewrite Hk.
  - by apply Hsub.
  - change (buildSchema j) with (sh_schema sht). by rewrite Hsc.
  - by apply Hsub.
  - exists j, out, pbo, pos, ms, mpos. split; [|split; [exact Hout|]].
    + unfold NewHashJoinShared. rewrite decide_False by lia. by rewrite Nat2Z.id.
    + change (buildKey j) with (sh_keyIdx sht) in Hrest. rewrite Hk in Hrest. exact Hrest.
Qed.

(** ** Property *)

(** C30: A join over a build side materialised in parallel is the serial join.
    Let a factory of build pipelines promise the rows of each range of row
    groups, whether its pipelines are rebuilt or repositioned.  Whatever the
    number of workers, the morsel size and the partition count, and however the
    workers of the two passes interleave: the build has a result, and every
    result it can have is either the error of a morsel, or a table such that a
    join probing it delivers, for each probe row in order, the build rows with
    its key in the order of the row groups, which is what the serial HashJoin
    delivers over those rows ([Join.join_rows]). *)
Theorem parallel_join_rows {S P} `{MorselPipeline S, RowCountBound S, StableSchema P} tys D factory Good valid rows Bad schema kc
    total morselSize numWorkers radixBits M :
  source_ok factory Good valid (morsel_rows tys D rows Bad) Bad → Type_ <$> schema = tys → (kc < length tys)%nat → 1 ≤ total →
  let size := size_of morselSize in
  (∀ i, (i < morsels size total)%nat → valid (m_start size i) (m_stop size total i)) →
  total + (Z.of_nat (Nat.max 1 numWorkers) + 2) * size < 2 ^ 63 →
  let rs := side_rows rows total morselSize in
  Z.of_nat (length rs) ≤ maxBuildRows → Forall (row_ok tys) rs → Forall real_type tys →
  Forall (Forall (λ c, cell_weight c ≤ M)) rs → 0 ≤ M → 1024 * M < 2 ^ 32 →
  (∃ r, BuildSharedHashTableParallel factory schema (Z.of_nat kc) total numWorkers morselSize radixBits r) ∧
  ∀ r, BuildSharedHashTableParallel factory schema (Z.of_nat kc) total numWorkers morselSize radixBits r →
    (∃ e, r = Err e ∧ Bad e) ∨
    ∃ sht, r = Ret sht ∧ ∀ (probe : P) ptys D' W pk pbs po,
      runs probe pbs po → Forall (batch_wf ptys D') pbs → Type_ <$> OpSchema probe = ptys → (pk < length ptys)%nat →
      D' ≤ W ∧ 1024 * M ≤ W →
      ∃ (j : HashJoin S P) out, NewHashJoinShared (Some sht) probe (Z.of_nat pk) = Ret j ∧
        runs j out po ∧ Forall (batch_wf (out_types tys ptys) W) out ∧ Forall whole out ∧
        r_cells <$> all_rows out = fmap join_cell <$> joined kc pk rs (r_cells <$> all_rows pbs).
Proof.
  intros Hsrc Hs Hk Ht size Hv Hroom rs Hmax Hok Hreal HM HM0 HMW.
  assert (Hmax' : Z.of_nat (length (keyed_cells kc rs)) ≤ maxBuildRows) by (pose proof (keyed_cells_length kc rs); lia).
  destruct (parallel_build_spec tys D factory Good valid rows Bad Hsrc schema Hs kc Hk total morselSize numWorkers Ht Hv Hroom Hmax' radixBits)
    as [Hex Hall]. split; [exact Hex|]. intros r Hr. destruct (Hall r Hr) as [(sht & -> & Hsh)|Hbad]; [right|by left].
  exists sht. split; [done|]. intros probe ptys D' W pk pbs po (probe' & Hrun)%runs_runs_to Hpw Hps Hpk HW.
  destruct (shared_stream (B := S) tys ptys D' M W schema kc rs sht probe pk pbs po probe' Hsh Hs Hok Hreal HM HM0 HMW HW Hrun Hpw Hps Hpk)
    as (j & out & pbo & pos & ms & mpos & Ej & Hout & Hrest).
  exists j, out. split; [done|]. split; [by eapply runs_to_runs|done].
Qed.

(** A build side of three row groups of one batch each, served by repositionable
    pipelines. *)
Record Segments : Type := mkSegments { sg_schema : Schema; sg_all : list Batch; sg_rest : list Batch }.
#[export] Instance segments_operator : Operator Segments := {
  Next _ s := match sg_rest s with [] => (Ret None, s) | b :: bs => (Ret (Some b), mkSegments (sg_schema s) (sg_all s) bs) end;
  OpSchema := sg_schema
}.
Definition segment (all : list Batch) (a b : Z) : list Batch := take (Z.to_nat (b - a)) (drop (Z.to_nat a) all).
#[export] Instance segments_pipeline : MorselPipeline Segments := {
  reusable _ := true;
  reposition s a b := mkSegments (sg_schema s) (sg_all s) (segment (sg_all s) a b)
}.
#[export] Instance segments_bound : RowCountBound Segments := λ _, None.
Lemma runs_segments sch all bs : runs_to (mkSegments sch all bs) bs None (mkSegments sch all []).
Proof.
  induction bs as [|b bs IH].
  - apply runs_to_end. by exists 0%nat.
  - eapply runs_to_batch; [|exact IH]. by exists 0%nat.
Qed.
Lemma segments_source tys D sch all :
  Forall (batch_wf tys D) all →
  source_ok (λ a b, Ret (mkSegments sch all (segment all a b))) (λ s, sg_all s = all ∧ sg_schema s = sch) (λ _ _, True)
    (morsel_rows tys D (λ a b, r_cells <$> all_rows (segment all a b)) (λ _, False)) (λ _, False).
Proof.
  intros Hall. assert (Hd : ∀ a b, delivers (λ s, sg_all s = all ∧ sg_schema s = sch)
    (morsel_rows tys D (λ a b, r_cells <$> all_rows (segment all a b)) (λ _, False)) (mkSegments sch all (segment all a b)) a b).
  { intros a b. split; [done|]. eexists _, None, _. split; [apply runs_segments|]. split; [|done]. split; [|done].
    by apply Forall_take, Forall_drop. }
  split; [intros a b _; left; by eexists|]. intros [sch' all' rest] a b _ [E1 E2] _. cbn in E1, E2. subst. split; [apply Hd|done].
Qed.
Definition ex_side : list Batch :=
  [mkBatch [] [Int64Vector [5; 7; 0] [3]] 3 None; mkBatch [] [Int64Vector [5; 8] [3]] 2 None; mkBatch [] [Int64Vector [7] [1]] 1 None].
Lemma ex_side_wf : Forall (batch_wf [TypeInt64] 0) ex_side.
Proof. repeat constructor; try done; vm_compute; try lia; try done; repeat constructor; lia. Qed.
Lemma parallel_join_rows_witness :
  let schema := [mkField "k" TypeInt64 EncPlain true] in
  let factory a b := Ret (mkSegments schema ex_side (segment ex_side a b)) in
  (∃ r, BuildSharedHashTableParallel factory schema 0 3 2 1 4 r) ∧
  ∀ r, BuildSharedHashTableParallel factory schema 0 3 2 1 4 r →
    (∃ e, r = Err e ∧ False) ∨
    ∃ sht, r = Ret sht ∧ ∃ (j : HashJoin Segments Table) out, NewHashJoinShared (Some sht) ex_probe 0 = Ret j ∧ runs j out None ∧
      r_cells <$> all_rows out = [[Some (CInt 7); Some (CInt 7)]; [Some (CInt 7); Some (CInt 7)]; [Some (CInt 5); Some (CInt 5)]; [Some (CInt 5); Some (CInt 5)]].
Proof.
  intros schema factory.
  destruct (parallel_join_rows (S := Segments) (P := Table) [TypeInt64] 0 factory (λ s, sg_all s = ex_side ∧ sg_schema s = schema) (λ _ _, True)
    (λ a b, r_cells <$> all_rows (segment ex_side a b)) (λ _, False) schema 0 3 1 2 4 1) as [Hex Hall].
  - apply segments_source, ex_side_wf.
  - reflexivity.
  - cbn. lia.
  - lia.
  - done.
  - vm_compute. reflexivity.
  - vm_compute. discriminate.
  - change (Forall (row_ok [TypeInt64]) (r_cells <$> all_rows ex_side)). apply (rows_row_ok _ 0); [apply ex_side_wf|].
    repeat constructor; vm_compute; try lia; done.
  - repeat constructor.
  - change (Forall (Forall (λ c, cell_weight c ≤ 1)) (r_cells <$> all_rows ex_side)). repeat constructor; vm_compute; congruence.
  - lia.
  - lia.
  - split; [exact Hex|]. intros r Hr. destruct (Hall r Hr) as [Hbad|(sht & -> & Hj)]; [left; exact Hbad|right].
    exists sht. split; [done|]. destruct (Hj ex_probe [TypeInt64] 0 1024 0%nat (t_batches ex_probe) None) as (j & out & E & Hrun & _ & _ & Hrows).
    + apply runs_table.
    + repeat constructor; try done; vm_compute; try lia; try done; repeat constructor; lia.
    + reflexivity.
    + cbn. lia.
    + lia.
    + exists j, out. split; [exact E|]. split; [exact Hrun|]. rewrite Hrows. vm_compute. reflexivity.
Defined.
