(* ===== verification/ExprWalk.v ===== *)
(** * Package planner: traversing expressions ([planner/exprwalk.go])

    The walk lists the nodes in the order [visit] sees them; a visitor is then a
    fold over the list.  [rewriteExpr] threads the state of its callback, which
    the aggregate planner uses to collect aggregates; an error drops it, since
    the query is then rejected. *)
From Stdlib Require Import ZArith Lia ZifyNat Ascii.
From stdpp Require Import base numbers list strings.
From S2P Require Import Prelude Ast.
#[local] Open Scope Z_scope.

(** ** Induction over the children the walk knows *)

Definition opt_expr (P : Expr → Prop) (o : option Expr) : Prop := match o with Some e => P e | None => True end.
Definition when_both (P : Expr → Prop) (w : WhenClause) : Prop := match w with mkWhen c x => P c ∧ P x end.

Section AstInd.
Context (P : Expr → Prop).
Context (Hcol : ∀ t n, P (ColumnRefExpr t n)) (Hstar : P StarExpr) (Hint : ∀ v, P (IntLiteral v)).
Context (Hfloat : ∀ v, P (FloatLiteral v)) (Hstr : ∀ s, P (StringLiteral s)) (Hbool : ∀ b, P (BoolLiteral b)).
Context (Hnull : P NullLiteral) (Hbin : ∀ op l r, P l → P r → P (BinaryExpr op l r)).
Context (Hun : ∀ op x, P x → P (UnaryExpr op x)) (Hisnull : ∀ x n, P x → P (IsNullExpr x n)).
Context (Hbetween : ∀ x lo hi n, P x → P lo → P hi → P (BetweenExpr x lo hi n)).
Context (Hin : ∀ x l n, P x → Forall P l → P (InExpr x l n)).
Context (Hlike : ∀ x p n, P x → P p → P (LikeExpr x p n)).
Context (Hagg : ∀ f a d, opt_expr P a → P (AggFuncExpr f a d)).
Context (Hfunc : ∀ f l, Forall P l → P (FuncExpr f l)).
Context (Hcase : ∀ ws els, Forall (when_both P) ws → opt_expr P els → P (CaseExpr ws els)).
Context (Hsub : ∀ q, P (SubqueryExpr q)).

Fixpoint Expr_ast_ind (e : Expr) : P e :=
  let all := fix all (es : list Expr) : Forall P es :=
    match es with
    | [] => List.Forall_nil _
    | e :: es => List.Forall_cons _ _ _ (Expr_ast_ind e) (all es)
    end in
  match e with
  | ColumnRefExpr t n => Hcol t n
  | StarExpr => Hstar
  | IntLiteral v => Hint v
  | FloatLiteral v => Hfloat v
  | StringLiteral s => Hstr s
  | BoolLiteral b => Hbool b
  | NullLiteral => Hnull
  | BinaryExpr op l r => Hbin op l r (Expr_ast_ind l) (Expr_ast_ind r)
  | UnaryExpr op x => Hun op x (Expr_ast_ind x)
  | IsNullExpr x n => Hisnull x n (Expr_ast_ind x)
  | BetweenExpr x lo hi n => Hbetween x lo hi n (Expr_ast_ind x) (Expr_ast_ind lo) (Expr_ast_ind hi)
  | InExpr x l n => Hin x l n (Expr_ast_ind x) (all l)
  | LikeExpr x p n => Hlike x p n (Expr_ast_ind x) (Expr_ast_ind p)
  | AggFuncExpr f a d => Hagg f a d (match a with Some x => Expr_ast_ind x | None => I end)
  | FuncExpr f l => Hfunc f l (all l)
  | CaseExpr ws els =>
      Hcase ws els
        ((fix whens (ws : list WhenClause) : Forall (when_both P) ws :=
            match ws with
            | [] => List.Forall_nil _
            | mkWhen c x :: ws =>
                List.Forall_cons _ (mkWhen c x) ws (conj (Expr_ast_ind c) (Expr_ast_ind x)) (whens ws)
            end) ws)
        (match els with Some x => Expr_ast_ind x | None => I end)
  | SubqueryExpr q => Hsub q
  end.
End AstInd.

(** ** The walk *)

Fixpoint walkExpr (e : Expr) : list Expr :=
  let walkAll := fix walkAll (l : list Expr) : list Expr :=
    match l with [] => [] | e :: l => walkExpr e ++ walkAll l end in
  e :: match e with
  | BinaryExpr _ l r => walkExpr l ++ walkExpr r
  | UnaryExpr _ x | IsNullExpr x _ => walkExpr x
  | BetweenExpr x lo hi _ => walkExpr x ++ walkExpr lo ++ walkExpr hi
  | InExpr x l _ => walkExpr x ++ walkAll l
  | LikeExpr x p _ => walkExpr x ++ walkExpr p
  | AggFuncExpr _ (Some a) _ => walkExpr a
  | FuncExpr _ l => walkAll l
  | CaseExpr ws els =>
      (fix walkWhens (ws : list WhenClause) : list Expr :=
         match ws with [] => [] | mkWhen c x :: ws => walkExpr c ++ walkExpr x ++ walkWhens ws end) ws
      ++ match els with Some x => walkExpr x | None => [] end
  | _ => []
  end.

Definition is_agg (e : Expr) : bool := match e with AggFuncExpr _ _ _ => true | _ => false end.
Definition containsAggregate (e : Expr) : bool := existsb is_agg (walkExpr e).
(** On a nil interface the walk visits nothing. *)
Definition containsAggregate_opt (e : option Expr) : bool :=
  match e with Some e => containsAggregate e | None => false end.

(** [collectCols] and [predicateCols] ([planner/optimizer.go]). *)
Definition collectCols (e : Expr) : list string :=
  omap (λ n, match n with ColumnRefExpr _ name => Some name | _ => None end) (walkExpr e).
Definition predicateCols (e : option Expr) : list string :=
  match e with Some e => collectCols e | None => [] end.

(** ** Rewriting *)

Section Rewrite.
Context {St : Type} (fn : Expr → St → go (option Expr * St)).

Fixpoint rewriteExpr (e : Expr) (st : St) : go (Expr * St) :=
  let rwList := fix rwList (l : list Expr) (st : St) : go (list Expr * St) :=
    match l with
    | [] => Ret ([], st)
    | e :: l => '(e, st) ← rewriteExpr e st; '(l, st) ← rwList l st; Ret (e :: l, st)
    end in
  let rwOpt o st := match o with
    | Some e => '(e, st) ← rewriteExpr e st; Ret (Some e, st)
    | None => Ret (None, st)
    end in
  '(out, st) ← fn e st;
  match out with
  | Some e => Ret (e, st)
  | None =>
      match e with
      | ColumnRefExpr _ _ | StarExpr | IntLiteral _ | FloatLiteral _ | StringLiteral _
      | BoolLiteral _ | NullLiteral => Ret (e, st)
      | BinaryExpr op l r =>
          '(l, st) ← rewriteExpr l st; '(r, st) ← rewriteExpr r st; Ret (BinaryExpr op l r, st)
      | UnaryExpr op x => '(x, st) ← rewriteExpr x st; Ret (UnaryExpr op x, st)
      | IsNullExpr x n => '(x, st) ← rewriteExpr x st; Ret (IsNullExpr x n, st)
      | BetweenExpr x lo hi n =>
          '(x, st) ← rewriteExpr x st; '(lo, st) ← rewriteExpr lo st; '(hi, st) ← rewriteExpr hi st;
          Ret (BetweenExpr x lo hi n, st)
      | InExpr x l n => '(x, st) ← rewriteExpr x st; '(l, st) ← rwList l st; Ret (InExpr x l n, st)
      | LikeExpr x p n => '(x, st) ← rewriteExpr x st; '(p, st) ← rewriteExpr p st; Ret (LikeExpr x p n, st)
      | AggFuncExpr f a d => '(a, st) ← rwOpt a st; Ret (AggFuncExpr f a d, st)
      | FuncExpr f l => '(l, st) ← rwList l st; Ret (FuncExpr f l, st)
      | CaseExpr ws els =>
          let fix rwWhens (ws : list WhenClause) (st : St) : go (list WhenClause * St) :=
            match ws with
            | [] => Ret ([], st)
            | mkWhen c x :: ws =>
                '(c, st) ← rewriteExpr c st; '(x, st) ← rewriteExpr x st; '(ws, st) ← rwWhens ws st;
                Ret (mkWhen c x :: ws, st)
            end in
          '(ws, st) ← rwWhens ws st; '(els, st) ← rwOpt els st; Ret (CaseExpr ws els, st)
      | SubqueryExpr _ => Err (ErrMsg "planner: subqueries are not supported")
      end
  end.
End Rewrite.
