(* ===== verification/Coerce.v ===== *)
(** * Package planner: literals and type coercion ([planner/physical.go])

    How a constant of the query is matched to the type it meets: dates written as
    text or as day numbers, integers beside floats, the entries of an IN list.
    A literal's [Val] has the type its [T] names wherever the planner builds one,
    so the source's type assertions on [Val] are matches on the cell. *)
From Stdlib Require Import ZArith Lia ZifyNat Ascii SpecFloat.
From stdpp Require Import base numbers list strings.
From S2P Require Import Prelude Float64 Schema Lexer Strconv Ast Format Batch VExpr.
#[local] Open Scope Z_scope.

(** ** Dates

    [time.ParseInLocation] with the layout 2006-01-02: four, two and two digits
    between hyphens, a month of the year and a day of the month. *)

Definition isLeap (y : Z) : bool := (y mod 4 =? 0) && (negb (y mod 100 =? 0) || (y mod 400 =? 0)).
Definition daysIn (y m : Z) : Z :=
  if m =? 2 then (if isLeap y then 29 else 28)
  else if (m =? 4) || (m =? 6) || (m =? 9) || (m =? 11) then 30 else 31.
(** Days from 0000-01-01 to the first day of year [y], and from there to the
    first of month [m]. *)
Definition daysToYear (y : Z) : Z := 365 * y + (y + 3) / 4 - (y + 99) / 100 + (y + 399) / 400.
Definition daysToMonth (y m : Z) : Z :=
  foldr Z.add 0 (daysIn y ∘ Z.of_nat <$> seq 1 (Z.to_nat (m - 1))).
(** [t.Unix() / 86400] of midnight UTC; 719528 is the day 1970-01-01. *)
Definition unixDay (y m d : Z) : Z := daysToYear y + daysToMonth y m + (d - 1) - 719528.

Definition parseDate (s : string) : option (Z * Z * Z) :=
  match String.list_ascii_of_string s with
  | [y1; y2; y3; y4; h1; m1; m2; h2; d1; d2] =>
      y ← parseDigits [y1; y2; y3; y4];
      m ← parseDigits [m1; m2];
      d ← parseDigits [d1; d2];
      if (code h1 =? 45) && (code h2 =? 45) && (1 <=? m) && (m <=? 12) && (1 <=? d) && (d <=? daysIn y m)
      then Some (y, m, d) else None
  | _ => None
  end.

Definition exactDateDays (v : Z) : option Z :=
  let days := to_i32 v in if days =? v then Some days else None.
Definition parseDateDays (s : string) : option Z :=
  '(y, m, d) ← parseDate s; exactDateDays (unixDay y m d).

Example parseDateDays_examples :
  parseDateDays "1970-01-01" = Some 0 ∧ parseDateDays "2024-02-29" = Some 19782 ∧
  parseDateDays "2023-02-29" = None ∧ parseDateDays "1969-12-31" = Some (-1) ∧
  parseDateDays "0000-01-01" = Some (-719528) ∧ parseDateDays "9999-12-31" = Some 2932896 ∧
  parseDateDays "1992-1-02" = None ∧ parseDateDays "1995-09-02" = Some 9375.
Proof. vm_compute. repeat split. Qed.

(** ** Numbers *)

(** The integer a float64 is, when [f = math.Trunc(f)].  An infinity is its own
    truncation but no integer; [exactInt64] rejects it by its range. *)
Definition f64_integer (f : Z) : option Z :=
  match f64_decode f with
  | S754_zero _ => Some 0
  | S754_finite s m e =>
      v ← (if 0 <=? e then Some (Zpos m * 2 ^ e)
           else if Zpos m mod 2 ^ (- e) =? 0 then Some (Zpos m / 2 ^ (- e)) else None);
      Some (if s then - v else v)
  | _ => None
  end.
Definition exactInt64 (f : Z) : option Z :=
  v ← f64_integer f;
  if (v <? - 2 ^ 63) || (2 ^ 63 <=? v) then None else Some v.
(** [exactFloat]. *)
Definition exactFloat (v : Z) : bool := (- 2 ^ 53 <=? v) && (v <=? 2 ^ 53).

(** Unary minus on numeric literals; [-lit.Value] of an integer other than
    [MinInt64] does not wrap. *)
Fixpoint foldConstant (e : Ast.Expr) : Ast.Expr :=
  match e with
  | UnaryExpr OpMinus x =>
      match foldConstant x with
      | IntLiteral v => if v =? - 2 ^ 63 then e else IntLiteral (- v)
      | FloatLiteral v => FloatLiteral (f64_neg v)
      | _ => e
      end
  | _ => e
  end.

Example exactInt64_examples :
  exactInt64 (f64_of_int (-7)) = Some (-7) ∧ exactInt64 (f64_div (f64_of_int 5) (f64_of_int 2)) = None ∧
  exactInt64 (f64_of_int (2 ^ 63)) = None ∧ exactInt64 (f64_of_int (- 2 ^ 63)) = Some (- 2 ^ 63) ∧
  exactInt64 (2 ^ 63) = Some 0 ∧ exactInt64 (2047 * 2 ^ 52) = None.
Proof. vm_compute. repeat split. Qed.

(** ** Coercion *)

(** [coerceOneSide]: the new [b]; [a] is returned unchanged. *)
Definition coerceOneSide (a b : Expr) : Expr :=
  match EType a, b with
  | TypeDate, Literal (CStr s) TypeString =>
      match parseDateDays s with Some days => Literal (CDate days) TypeDate | None => b end
  | TypeDate, Literal (CInt v) TypeInt64 =>
      match exactDateDays v with Some days => Literal (CDate days) TypeDate | None => b end
  | TypeFloat64, Literal (CInt v) TypeInt64 => Literal (CFloat (f64_of_int v)) TypeFloat64
  | TypeInt64, Literal (CFloat f) TypeFloat64 =>
      match exactInt64 f with Some v => Literal (CInt v) TypeInt64 | None => b end
  | _, _ => b
  end.
Definition coercePair (l r : Expr) : Expr * Expr :=
  let r := coerceOneSide l r in
  let l := coerceOneSide r l in
  (l, r).

Definition castToFloat (e : Expr) : Expr :=
  if decide (EType e = TypeInt64) then
    match e with
    | Literal (CInt v) _ => Literal (CFloat (f64_of_int v)) TypeFloat64
    | _ => CastIntToFloatExpr e
    end
  else e.

Definition is_number (t : DataType) : bool := match t with TypeInt64 | TypeFloat64 => true | _ => false end.
Definition comparableOperands (l r : Expr) : go (Expr * Expr) :=
  let lt := EType l in
  let rt := EType r in
  if bool_decide (lt ≠ rt) && is_number lt && is_number rt then Ret (castToFloat l, castToFloat r)
  else if bool_decide (lt ≠ rt) then Err (ErrMsg "cannot compare")
  else match lt with
       | TypeInt64 | TypeFloat64 | TypeDate => Ret (l, r)
       | _ => Err (ErrMsg "comparison of these values is not supported (only = and <> against a string literal)")
       end.

(** ** IN lists

    [inListValue]: [InNull] for [isNull], [InValue] for an entry to compare with,
    [InNever] for a constant that no value of the type can equal. *)
Inductive inEntry : Type := InNull | InValue (v : Cell) | InNever.
Definition badEntry : error := ErrMsg "planner: IN list entry cannot be compared with the value".
Definition inListValue (item : Ast.Expr) (t : DataType) : go inEntry :=
  match foldConstant item with
  | NullLiteral => Ret InNull
  | IntLiteral v =>
      match t with
      | TypeInt64 => Ret (InValue (CInt v))
      | TypeFloat64 => Ret (InValue (CFloat (f64_of_int v)))
      | TypeDate =>
          match exactDateDays v with
          | Some days => Ret (InValue (CDate days))
          | None => Err (ErrMsg "planner: IN list entry is outside the DATE day range")
          end
      | _ => Err badEntry
      end
  | FloatLiteral f =>
      match t with
      | TypeFloat64 => Ret (InValue (CFloat f))
      | TypeInt64 => Ret (match exactInt64 f with Some v => InValue (CInt v) | None => InNever end)
      | _ => Err badEntry
      end
  | StringLiteral s =>
      match t with
      | TypeString => Ret (InValue (CStr s))
      | TypeDate =>
          match parseDateDays s with
          | Some days => Ret (InValue (CDate days))
          | None => Err (ErrMsg "planner: IN list entry is not a date (YYYY-MM-DD)")
          end
      | _ => Err badEntry
      end
  | BoolLiteral b => match t with TypeBool => Ret (InValue (CBool b)) | _ => Err badEntry end
  | _ => Err (ErrMsg "planner: IN list entries must be literals")
  end.
