(* ===== verification/ExecExpr.v ===== *)
(** * Package planner: expression translation ([planner/physical.go])

    [buildExecExpr] turns an expression of the query into one the executor can
    evaluate over a batch, resolving columns against the operator's schema. *)
From Stdlib Require Import ZArith Lia ZifyNat Ascii.
From stdpp Require Import base numbers list strings gmap.
From S2P Require Import Prelude Encoding Codec Float64 Schema Writer Reader Batch Scratch Lexer Strconv Ast Format VExpr VKernel VCase VExprSpec Coerce.
#[local] Open Scope Z_scope.

Definition sqlOpToExecOp (op : Ast.BinOp) : go (BinOpKind * bool) :=
  match op with
  | OpEQ => Ret (BinEQ, false) | OpNE => Ret (BinNE, false) | OpLT => Ret (BinLT, false)
  | OpLE => Ret (BinLE, false) | OpGT => Ret (BinGT, false) | OpGE => Ret (BinGE, false)
  | OpAdd => Ret (BinAdd, true) | OpSub => Ret (BinSub, true)
  | OpMul => Ret (BinMul, true) | OpDiv => Ret (BinDiv, true)
  | OpAnd | OpOr => Err (ErrMsg "planner: unknown binary op")
  end.

(** A column reference: [table.name] first when there is a qualifier, then the
    bare name. *)
Definition resolveColumn (schema : Schema) (table name : string) : Z :=
  if decide (table ≠ ""%string) then
    let idx := IndexOf schema (table +:+ "." +:+ name) in
    if idx <? 0 then IndexOf schema name else idx
  else IndexOf schema name.
Definition buildColumn (schema : Schema) (table name : string) : go Expr :=
  let idx := resolveColumn schema table name in
  if idx <? 0 then Err (ErrMsg "planner: column not found in schema") else
  f ← index schema (Z.to_nat idx);
  Ret (ColumnRef name idx (Type_ f)).

(** [col = 'lit'] or ['lit' = col], the dictionary-code fast path. *)
Definition stringEq (op : Ast.BinOp) (l r : Expr) : option Expr :=
  if bool_decide (op = OpEQ ∨ op = OpNE) && bool_decide (EType l = TypeString) && bool_decide (EType r = TypeString)
  then match l, r with
       | ColumnRef _ idx _, Literal (CStr s) _ | Literal (CStr s) _, ColumnRef _ idx _ =>
           Some (StringEqExpr idx s (bool_decide (op = OpNE)))
       | _, _ => None
       end
  else None.

(** [buildBinExpr] below its AND and OR cases, on the operands it has built. *)
Definition buildBinary (op : Ast.BinOp) (l r : Expr) : go Expr :=
  let '(l, r) := coercePair l r in
  match stringEq op l r with
  | Some e => Ret e
  | None =>
      '(k, isArith) ← sqlOpToExecOp op;
      if isArith : bool then
        if bool_decide (EType l = TypeFloat64) || bool_decide (EType r = TypeFloat64) then
          let cast e := if decide (EType e = TypeInt64) then CastIntToFloatExpr e else e in
          Ret (BinOp k (cast l) (cast r) TypeFloat64)
        else Ret (BinOp k l r (EType l))
      else
        '(l, r) ← comparableOperands l r;
        Ret (BinOp k l r TypeBool)
  end.
Definition buildBinExpr (op : Ast.BinOp) (left right : go Expr) : go Expr :=
  l ← left;
  r ← right;
  match op with
  | OpAnd => Ret (AndExpr [l; r])
  | OpOr => Ret (OrExpr [l; r])
  | _ => buildBinary op l r
  end.

Definition buildNegation (child : Expr) : go Expr :=
  match EType child with
  | TypeFloat64 => Ret (BinOp BinMul child (Literal (CFloat (f64_of_int (-1))) TypeFloat64) (EType child))
  | TypeInt64 => Ret (BinOp BinMul child (Literal (CInt (-1)) TypeInt64) (EType child))
  | _ => Err (ErrMsg "planner: unary minus not supported for type")
  end.

Definition negateIf (no : bool) (e : Expr) : Expr := if no then NotExpr e else e.

(** An INT64/FLOAT64 mix: all three operands are cast together. *)
Definition castThree (child lo hi : Expr) : Expr * Expr * Expr :=
  if bool_decide (EType child = TypeFloat64) || bool_decide (EType lo = TypeFloat64)
     || bool_decide (EType hi = TypeFloat64)
  then (castToFloat child, castToFloat lo, castToFloat hi) else (child, lo, hi).
Definition buildBetween (child lo hi : Expr) (no : bool) : go Expr :=
  let lo := coerceOneSide child lo in
  let hi := coerceOneSide child hi in
  let '(child, lo, hi) := castThree child lo hi in
  _ ← comparableOperands child lo;
  _ ← comparableOperands child hi;
  Ret (negateIf no (BetweenExpr child lo hi)).

(** The entries of an IN list against values of type [t]. *)
Fixpoint buildIn (t : DataType) (items : list Ast.Expr) (set : list Cell) (hasNull : bool) : go (list Cell * bool) :=
  match items with
  | [] => Ret (set, hasNull)
  | item :: items =>
      v ← inListValue item t;
      match v with
      | InNull => buildIn t items set true
      | InValue c => buildIn t items (set ++ [c]) hasNull
      | InNever => buildIn t items set hasNull
      end
  end.

(** CASE: every branch has the type of the first. *)
Definition buildCase (whens : list (Expr * Expr)) (els : option Expr) : go Expr :=
  let t := match whens with (_, x) :: _ => EType x | [] => TypeFloat64 end in
  if forallb (λ '(_, x), bool_decide (EType x = t)) whens then
    if match els with Some x => bool_decide (EType x = t) | None => true end
    then Ret (CaseExpr whens els t)
    else Err (ErrMsg "planner: CASE ELSE has another type (all branches must have a common type)")
  else Err (ErrMsg "planner: CASE branch has another type (all branches must have a common type)").

Fixpoint buildExecExpr (e : Ast.Expr) (schema : Schema) : go Expr :=
  match e with
  | ColumnRefExpr table name => buildColumn schema table name
  | IntLiteral v => Ret (Literal (CInt v) TypeInt64)
  | FloatLiteral v => Ret (Literal (CFloat v) TypeFloat64)
  | StringLiteral s => Ret (Literal (CStr s) TypeString)
  | BoolLiteral b => Ret (Literal (CBool b) TypeBool)
  | BinaryExpr op l r => buildBinExpr op (buildExecExpr l schema) (buildExecExpr r schema)
  | UnaryExpr op x =>
      child ← buildExecExpr x schema;
      match op with OpNot => Ret (NotExpr child) | OpMinus => buildNegation child end
  | Ast.IsNullExpr x isNot =>
      child ← buildExecExpr x schema;
      Ret (if isNot then IsNotNullExpr child else IsNullExpr child)
  | Ast.BetweenExpr x lo hi no =>
      child ← buildExecExpr x schema;
      lo ← buildExecExpr lo schema;
      hi ← buildExecExpr hi schema;
      buildBetween child lo hi no
  | Ast.InExpr x items no =>
      child ← buildExecExpr x schema;
      '(set, hasNull) ← buildIn (EType child) items [] false;
      Ret (negateIf no (InExpr child set hasNull))
  | Ast.LikeExpr x pattern no =>
      child ← buildExecExpr x schema;
      if decide (EType child ≠ TypeString) then Err (ErrMsg "planner: LIKE requires a STRING operand") else
      match pattern with
      | StringLiteral p => Ret (negateIf no (LikeExpr child p))
      | _ => Err (ErrMsg "planner: LIKE pattern must be a string literal")
      end
  | Ast.CaseExpr ws els =>
      let fix buildWhens (ws : list WhenClause) : go (list (Expr * Expr)) :=
        match ws with
        | [] => Ret []
        | mkWhen c x :: ws =>
            cond ← buildExecExpr c schema;
            if decide (EType cond ≠ TypeBool) then Err (ErrMsg "planner: CASE WHEN condition must be BOOL") else
            result ← buildExecExpr x schema;
            rest ← buildWhens ws;
            Ret ((cond, result) :: rest)
        end in
      whens ← buildWhens ws;
      els ← match els with Some x => x ← buildExecExpr x schema; Ret (Some x) | None => Ret None end;
      buildCase whens els
  | _ => Err (ErrMsg "planner: unsupported expression type")
  end.

Definition demo_cols : Schema :=
  [mkField "id" TypeInt64 EncPlain false; mkField "day" TypeDate EncPlain false;
   mkField "name" TypeString EncDict true; mkField "px" TypeFloat64 EncPlain true].
Example build_examples :
  let build src := e ← parse_expression src; buildExecExpr e demo_cols in
  build "day >= '1970-01-03' AND id < 2.5"%string
  = Ret (AndExpr [BinOp BinGE (ColumnRef "day" 1 TypeDate) (Literal (CDate 2) TypeDate) TypeBool;
                  BinOp BinLT (CastIntToFloatExpr (ColumnRef "id" 0 TypeInt64))
                    (Literal (CFloat 0x4004000000000000) TypeFloat64) TypeBool]) ∧
  build "'a' <> name"%string = Ret (StringEqExpr 2 "a" true) ∧
  build "day = id"%string = Err (ErrMsg "cannot compare") ∧
  build "px * 2 = 2.0"%string
  = Ret (BinOp BinEQ (BinOp BinMul (ColumnRef "px" 3 TypeFloat64) (Literal (CFloat 0x4000000000000000) TypeFloat64) TypeFloat64)
           (Literal (CFloat 0x4000000000000000) TypeFloat64) TypeBool).
Proof. vm_compute. repeat split. Qed.
