(* ===== verification/BuildType.v ===== *)
(** * Package planner: what expression translation guarantees

    [accepted] is what the planner's checks establish of an expression it
    returns.  It is less than [typeof]: the operands of AND, OR and NOT and the
    operand types of arithmetic are left to the executor, which reports them as
    errors ([operands_ok] are the checks that are left).  An accepted expression
    never panics. *)
From Stdlib Require Import ZArith Lia ZifyNat Ascii.
From stdpp Require Import base numbers list strings gmap.
From S2P Require Import Prelude Encoding Codec Float64 Schema Writer Reader Batch Scratch Lexer Strconv Ast Format ExprWalk VExpr VKernel VCase VExprSpec Coerce ExecExpr.
#[local] Open Scope Z_scope.

Definition real_type (t : DataType) : bool := match t with TypeOther _ => false | _ => true end.

Fixpoint accepted (tys : list DataType) (e : Expr) : bool :=
  let cmp x y := bool_decide (EType x = EType y) && comparable (EType x) in
  match e with
  | ColumnRef _ idx t => bool_decide (0 ≤ idx ∧ tys !! Z.to_nat idx = Some t)
  | Literal v t => bool_decide (cell_type v = t)
  | CastIntToFloatExpr x => bool_decide (EType x = TypeInt64) && accepted tys x
  | BinOp op x y t =>
      accepted tys x && accepted tys y &&
      if is_cmp op then cmp x y && bool_decide (t = TypeBool)
      else real_type t && bool_decide (EType x = EType y → t = EType x)
  | AndExpr es | OrExpr es => forallb (accepted tys) es
  | NotExpr x | IsNullExpr x | IsNotNullExpr x | InExpr x _ _ => accepted tys x
  | LikeExpr x _ => bool_decide (EType x = TypeString) && accepted tys x
  | BetweenExpr x lo hi => accepted tys x && accepted tys lo && accepted tys hi && cmp x lo && cmp x hi
  | StringEqExpr idx _ _ => bool_decide (0 ≤ idx ∧ tys !! Z.to_nat idx = Some TypeString)
  | CaseExpr ws els t =>
      real_type t &&
      forallb (λ '(c, x), accepted tys c && accepted tys x && bool_decide (EType c = TypeBool) && bool_decide (EType x = t)) ws &&
      match els with Some x => accepted tys x && bool_decide (EType x = t) | None => true end
  end.

(** The checks the planner leaves to the executor. *)
Fixpoint operands_ok (e : Expr) : bool :=
  let boolean x := bool_decide (EType x = TypeBool) && operands_ok x in
  match e with
  | ColumnRef _ _ _ | Literal _ _ | StringEqExpr _ _ _ => true
  | CastIntToFloatExpr x | IsNullExpr x | IsNotNullExpr x | InExpr x _ _ | LikeExpr x _ => operands_ok x
  | BinOp op x y _ =>
      operands_ok x && operands_ok y &&
      (is_cmp op || (bool_decide (EType x = EType y) && numeric (EType x)))
  | AndExpr es | OrExpr es => forallb boolean es
  | NotExpr x => boolean x
  | BetweenExpr x lo hi => operands_ok x && operands_ok lo && operands_ok hi
  | CaseExpr ws els _ =>
      forallb (λ '(c, x), operands_ok c && operands_ok x) ws &&
      match els with Some x => operands_ok x | None => true end
  end.

(** ** Accepted expressions evaluate or report an error *)

Section Settles.
Context (tys : list DataType) (D : Z) (b : Batch) (Hb : batch_ok tys D b).
Abbreviation n := (evalLen b).

(** Evaluation ends in an error, or in a vector of the type with one row per
    physical row of the batch. *)
Definition settled (m : go Vector) (t : DataType) (s : Z) : Prop :=
  (∃ e, m = Err e) ∨ ∃ v f, m = Ret v ∧ column v t n f ∧ dict_size v ≤ s.
Definition settles (e : Expr) : Prop :=
  accepted tys e = true → fits D e = true → settled (Eval e b) (EType e) (budget D e).

Lemma settled_bind (m : go Vector) t s k t' s' :
  settled m t s → (∀ v f, column v t n f → dict_size v ≤ s → settled (k v) t' s') → settled (v ← m; k v) t' s'.
Proof using Type. intros [[e ->]|(v & f & -> & Hv & Hs)] Hk; [left; by exists e|]. by apply (Hk v f). Qed.
Lemma settled_Err e t s : settled (Err e) t s.
Proof using Type. left. by exists e. Qed.
Lemma settled_bool (m : go Vector) s : 0 ≤ s → (∃ v f, m = Ret v ∧ column v TypeBool n f) → settled m TypeBool s.
Proof using Type.
  intros Hs (v & f & -> & Hv). right. exists v, f. split; [done|]. split; [done|]. by rewrite (bool_size _ _ _ Hv).
Qed.
Hint Resolve settled_Err : core.

(** The later children of AND and OR. *)
Lemma settled_children byte op3 es out f s :
  0 ≤ s → byte_computes byte op3 → Forall settles es → forallb (accepted tys) es = true → forallb (fits D) es = true →
  folding n out f → settled (fold_children (λ e, Eval e b) byte es n out) TypeBool s.
Proof using Hb.
  intros Hs0 Hbyte Hes. revert out f. induction Hes as [|e es He _ IH]; intros out f Ha Hf Ho; cbn [fold_children forallb] in *.
  - apply settled_bool; [done|]. eexists _, _. split; [done|]. by apply folding_column.
  - apply andb_true_iff in Ha as [Ha1 Ha], Hf as [Hf1 Hf]. eapply settled_bind; [by apply He|].
    intros v g Hv _. destruct (decide (EType e = TypeBool)) as [Et|Et].
    + rewrite Et in Hv. apply column_tri in Hv.
      destruct (combine_spec _ _ _ _ _ _ _ Hbyte Ho Hv) as (out' & -> & Ho'). cbn [mbind go_bind]. by eapply IH.
    + destruct Hv as (_ & Hv & _). rewrite <- Hv in Et. unfold combine. destruct v; try apply settled_Err; by destruct Et.
Qed.
Lemma settled_connective byte op3 e es s :
  0 ≤ s → byte_computes byte op3 → Forall settles (e :: es) → forallb (accepted tys) (e :: es) = true →
  forallb (fits D) (e :: es) = true →
  settled (fv ← Eval e b; '(m, out) ← firstChild fv; fold_children (λ e, Eval e b) byte es m out) TypeBool s.
Proof using Hb.
  intros Hs0 Hbyte [He Hes]%List.Forall_cons_iff Ha Hf. cbn [forallb] in *.
  apply andb_true_iff in Ha as [Ha1 Ha], Hf as [Hf1 Hf]. eapply settled_bind; [by apply He|]. intros v g Hv _.
  destruct (decide (EType e = TypeBool)) as [Et|Et].
  - rewrite Et in Hv. apply column_tri in Hv. destruct (firstChild_spec _ _ _ Hv) as (out & -> & Ho).
    cbn [mbind go_bind]. by eapply settled_children.
  - destruct Hv as (_ & Hv & _). rewrite <- Hv in Et. unfold firstChild. destruct v; try apply settled_Err; by destruct Et.
Qed.

(** CASE. *)
Lemma settled_whens t base f s0 ws :
  column base t n f → dict_size base ≤ s0 → 0 ≤ s0 → Forall (λ w, settles w.1 ∧ settles w.2) ws →
  forallb (λ '(c, x), accepted tys c && accepted tys x && bool_decide (EType c = TypeBool) && bool_decide (EType x = t)) ws = true →
  forallb (λ '(c, x), fits D c && fits D x) ws = true →
  foldr Z.add s0 (map (λ '(_, x), budget D x) ws) < 2 ^ 32 →
  settled (fold_whens (λ e, Eval e b) n base ws) t (foldr Z.add s0 (map (λ '(_, x), budget D x) ws)).
Proof using Hb.
  intros Hbase Hsz H0 Hws. pose proof Hb as [HD _].
  induction Hws as [|[c x] ws [Hc Hx] _ IH]; intros Ha Hf Hs; cbn [map foldr fst snd forallb fold_whens] in *.
  { right. by eexists _, _. }
  apply andb_true_iff in Ha as [(((Ha1 & Ha2)%andb_true_iff & Htc%bool_decide_eq_true)%andb_true_iff
    & Htx%bool_decide_eq_true)%andb_true_iff Ha], Hf as [[Hf1 Hf2]%andb_true_iff Hf].
  pose proof (budget_ge0 D x HD). eapply settled_bind; [apply IH; [done..|lia]|]. intros v g Hv Hvs.
  eapply settled_bind; [by apply Hc|]. rewrite Htc. intros cv gc Hcv%column_tri _.
  pose proof (proj1 (column_bool _ _ _) Hcv) as (bits & nb & -> & _).
  eapply settled_bind; [by apply Hx|]. rewrite Htx. intros xv gx Hxv Hxs.
  destruct (mergeVectors_spec _ _ _ _ _ _ _ _ Hcv Hxv Hv) as (v' & -> & Hv' & Hvs'); [lia|].
  right. eexists _, _. split; [done|]. split; [done|]. lia.
Qed.

Lemma settles_BinOp op x y t : settles x → settles y → settles (BinOp op x y t).
Proof using Hb.
  intros Hx Hy Ha Hf. cbn [accepted fits budget EType Eval] in *.
  apply andb_true_iff in Ha as [[Hax Hay]%andb_true_iff Ha], Hf as [Hfx Hfy].
  eapply settled_bind; [by apply Hx|]. intros lv f Hl _. eapply settled_bind; [by apply Hy|]. intros rv g Hr _.
  rewrite (column_Len _ _ _ _ Hl). destruct (is_cmp op) eqn:Eop.
  - apply andb_true_iff in Ha as [[Et%bool_decide_eq_true Hc]%andb_true_iff ->%bool_decide_eq_true].
    rewrite <- Et in Hr. apply settled_bool; [done|].
    destruct (evalCmp_spec op _ lv rv n _ _ Eop Hc Hl Hr) as (v & E & Hv). eauto.
  - apply andb_true_iff in Ha as [_ Ha%bool_decide_eq_true]. destruct (decide (EType x = EType y)) as [Et|Et].
    + rewrite (Ha Et). rewrite <- Et in Hr. destruct (numeric (EType x)) eqn:En.
      * destruct (evalArith_spec op _ lv rv n _ _ Eop En Hl Hr) as (v & E & Hv). right. eexists v, _.
        split; [done|]. split; [done|]. destruct Hv as (_ & Hv & _). rewrite <- Hv in En. by destruct v.
      * destruct Hl as (_ & Hl & _). rewrite <- Hl in En. destruct lv; try done; left; eexists; by destruct rv.
    + destruct Hl as (_ & Hl & _), Hr as (_ & Hr & _). rewrite <- Hl, <- Hr in Et.
      left. destruct lv, rv; try (by destruct Et); by eexists.
Qed.

Lemma settles_Between x lo hi : settles x → settles lo → settles hi → settles (BetweenExpr x lo hi).
Proof using Hb.
  intros Hx Hlo Hhi Ha Hf. cbn [accepted fits EType Eval] in *.
  apply andb_true_iff in Ha as [[[[Hax Hal]%andb_true_iff Hah]%andb_true_iff
    [Etl%bool_decide_eq_true Hc]%andb_true_iff]%andb_true_iff [Eth%bool_decide_eq_true _]%andb_true_iff].
  apply andb_true_iff in Hf as [[Hfx Hfl]%andb_true_iff Hfh].
  eapply settled_bind; [by apply Hx|]. intros xv f Hxv _. eapply settled_bind; [by apply Hlo|].
  rewrite <- Etl. intros lv g Hlv _. rewrite (column_Len _ _ _ _ Hxv).
  destruct (evalCmp_spec BinGE _ xv lv n _ _ eq_refl Hc Hxv Hlv) as (ge & -> & Hge). cbn [mbind go_bind].
  destruct (firstChild_spec _ _ _ (column_tri _ _ _ Hge)) as (out & -> & Ho). cbn [mbind go_bind].
  eapply settled_bind; [by apply Hx|]. intros xv' f' Hxv' _. eapply settled_bind; [by apply Hhi|].
  rewrite <- Eth. intros hv h Hhv _. rewrite (column_Len _ _ _ _ Hxv').
  destruct (evalCmp_spec BinLE _ xv' hv n _ _ eq_refl Hc Hxv' Hhv) as (le & -> & Hle). cbn [mbind go_bind].
  destruct (combine_spec _ _ _ _ _ _ _ and_byte_computes Ho (column_tri _ _ _ Hle)) as (out' & -> & Ho').
  cbn [mbind go_bind]. apply settled_bool; [done|]. eexists _, _. split; [done|]. by apply folding_column.
Qed.

Lemma settles_Case ws els t :
  Forall (λ w, settles w.1 ∧ settles w.2) ws → opt_P settles els → settles (CaseExpr ws els t).
Proof using Hb.
  intros Hws Hels Ha Hf. cbn [accepted fits budget EType Eval] in *. pose proof Hb as [HD _].
  apply andb_true_iff in Ha as [[Ht Haw]%andb_true_iff Hae], Hf as [[Hfw Hfe]%andb_true_iff Hs%Z.ltb_lt].
  eapply (settled_bind _ t (match els with Some x => budget D x | None => 0 end)).
  - destruct els as [x|].
    + apply andb_true_iff in Hae as [Hax <-%bool_decide_eq_true]. by apply Hels.
    + right. eexists _, _. split; [done|]. split; [by apply nullVector_spec; destruct t|]. by destruct t.
  - intros v f Hv Hvs. apply (settled_whens t v f); try done. destruct els; [by apply budget_ge0|done].
Qed.

Lemma settles_connective byte op3 es (node : list Expr → Expr) :
  byte_computes byte op3 → Forall settles es →
  (∀ es, accepted tys (node es) = forallb (accepted tys) es ∧ fits D (node es) = forallb (fits D) es ∧
         EType (node es) = TypeBool ∧ budget D (node es) = 0) →
  (∃ v f, Eval (node []) b = Ret v ∧ column v TypeBool n f) →
  (∀ e es, Eval (node (e :: es)) b
    = (fv ← Eval e b; '(m, out) ← firstChild fv; fold_children (λ e, Eval e b) byte es m out)) →
  settles (node es).
Proof using Hb.
  intros Hbyte Hes Hn H0 Hc Ha Hf. destruct (Hn es) as (E1 & E2 & -> & ->). rewrite E1 in Ha. rewrite E2 in Hf.
  destruct es as [|e es]; [by apply settled_bool|]. rewrite Hc. by eapply settled_connective.
Qed.

Lemma settles_all e : settles e.
Proof using Hb.
  induction e using Expr_nested_ind; auto using settles_BinOp, settles_Between, settles_Case;
    try intros Ha Hf; cbn [accepted fits budget EType] in *; pose proof Hb as [HD _].
  - apply bool_decide_eq_true in Ha as [Hi Ht]. right.
    destruct (batch_column tys D b Hb i t Hi Ht) as (v & Ev & Hv & Hd). eexists v, _. split; [|by split].
    cbn [Eval]. pose proof (lookup_lt_Some _ _ _ Ev). rewrite decide_False by lia. unfold vectorAt.
    rewrite decide_False by lia. by apply index_Ret.
  - apply bool_decide_eq_true in Ha as <-. right.
    destruct (literalVector_spec v n) as (u & E & Hu & Hd); [destruct v; try done; by apply Z.ltb_lt in Hf|].
    eexists u, _. split; [done|]. split; [done|]. by destruct v.
  - apply andb_true_iff in Ha as [Et%bool_decide_eq_true Ha]. cbn [Eval]. eapply settled_bind; [by apply IHe|].
    rewrite Et. intros v f Hv _. destruct (castIntToFloat_spec v n _ Hv) as (v' & -> & Hv'). right.
    eexists _, _. split; [done|]. split; [done|]. pose proof (budget_ge0 D e HD). destruct Hv' as (_ & Hv' & _). by destruct v'.
  - apply (settles_connective and_byte and3 es AndExpr and_byte_computes H); [done| |done|done|done].
    eexists _, _. split; [done|]. apply (constant_column true); [apply length_full|]. intros. by apply bit_valid_full.
  - apply (settles_connective or_byte or3 es OrExpr or_byte_computes H); [done| |done|done|done].
    eexists _, _. split; [done|]. apply column_bool. eexists _, _. split; [done|].
    rewrite length_full, length_replicate. split; [apply size_bits|]. split; [apply size_bits|]. done.
  - cbn [Eval]. eapply settled_bind; [by apply IHe|]. intros v f Hv _. destruct (decide (EType e = TypeBool)) as [Et|Et].
    + rewrite Et in Hv. destruct (notVector_spec v n _ (column_tri _ _ _ Hv)) as (v' & -> & Hv').
      apply settled_bool; [done|]. eauto.
    + destruct Hv as (_ & Hv & _). rewrite <- Hv in Et. unfold notVector. destruct v; try apply settled_Err; by destruct Et.
  - cbn [Eval]. eapply settled_bind; [by apply IHe|]. intros v f Hv _.
    destruct (isNullVector_spec true v _ _ _ Hv) as (v' & -> & Hv'). apply settled_bool; [done|]. eauto.
  - cbn [Eval]. eapply settled_bind; [by apply IHe|]. intros v f Hv _.
    destruct (isNullVector_spec false v _ _ _ Hv) as (v' & -> & Hv'). apply settled_bool; [done|]. eauto.
  - cbn [Eval]. eapply settled_bind; [by apply IHe|]. intros v f Hv _.
    destruct (inVector_spec s h v _ _ _ Hv) as (v' & -> & Hv'). apply settled_bool; [done|]. eauto.
  - apply andb_true_iff in Ha as [Et%bool_decide_eq_true Ha]. cbn [Eval]. eapply settled_bind; [by apply IHe|].
    rewrite Et. intros v f Hv _. destruct (likeVector_spec p v _ _ Hv) as (v' & -> & Hv').
    apply settled_bool; [done|]. eauto.
  - apply bool_decide_eq_true in Ha as [Hi Ht]. destruct (batch_column tys D b Hb i _ Hi Ht) as (v & Ev & Hv & _).
    cbn [Eval]. unfold vectorAt. rewrite decide_False by lia. rewrite (index_Ret _ _ _ Ev). cbn [mbind go_bind].
    destruct (stringEqVector_spec l neg v n _ Hv) as (v' & -> & Hv'). apply settled_bool; [done|]. eauto.
Qed.
End Settles.

(** ** What the planner returns is accepted *)

Lemma IndexOf_lookup schema name :
  0 ≤ IndexOf schema name → ∃ f, schema !! Z.to_nat (IndexOf schema name) = Some f.
Proof.
  intros H. destruct (decide (IndexOf schema name = -1)); [lia|].
  unfold IndexOf in *. assert (Hgen : ∀ i, 0 ≤ i → 0 ≤ IndexOf_from i schema name →
    ∃ f, schema !! Z.to_nat (IndexOf_from i schema name - i) = Some f ∧ i ≤ IndexOf_from i schema name).
  { clear. induction schema as [|f schema IH]; intros i Hi H; cbn [IndexOf_from] in *; [lia|].
    case_decide; [replace (i - i) with 0 by lia; exists f; split; [done|lia]|].
    destruct (IH (i + 1)) as (g & Hg & Hle); [lia|done|]. exists g. split; [|lia].
    replace (Z.to_nat (IndexOf_from (i + 1) schema name - i))
      with (S (Z.to_nat (IndexOf_from (i + 1) schema name - (i + 1)))) by lia. done. }
  destruct (Hgen 0) as (f & Hf & _); [done|done|]. exists f. by rewrite Z.sub_0_r in Hf.
Qed.

Section Accepted.
Context (schema : Schema) (Hreal : Forall (λ f, real_type (Type_ f) = true) schema).
Abbreviation tys := (Type_ <$> schema).

Lemma coerceOneSide_accepted a b : accepted tys b = true → accepted tys (coerceOneSide a b) = true.
Proof using Type.
  intros Hb. unfold coerceOneSide. destruct (EType a), b as [|c t| | | | | | | | | | | | ]; try done;
    destruct c, t; try done; cbn [accepted] in *; by case_match.
Qed.
Lemma castToFloat_accepted e : accepted tys e = true → accepted tys (castToFloat e) = true.
Proof using Type.
  intros He. unfold castToFloat. destruct (decide (EType e = TypeInt64)) as [Et|]; [|done].
  assert (H : accepted tys (CastIntToFloatExpr e) = true) by (cbn [accepted]; by rewrite bool_decide_true, He).
  destruct e as [|c t| | | | | | | | | | | | ]; try done. by destruct c.
Qed.
Lemma castToFloat_type e : EType (castToFloat e) = if decide (EType e = TypeInt64) then TypeFloat64 else EType e.
Proof using Type.
  unfold castToFloat. destruct (decide (EType e = TypeInt64)); [|done].
  destruct e as [|c t| | | | | | | | | | | | ]; try done. by destruct c.
Qed.
Lemma castToFloat_not_int e : EType (castToFloat e) ≠ TypeInt64.
Proof using Type. rewrite castToFloat_type. destruct (decide (EType e = TypeInt64)); auto. Qed.
Lemma comparableOperands_inv l r l' r' :
  comparableOperands l r = Ret (l', r') →
  EType l' = EType r' ∧ comparable (EType l') = true ∧
  ((l' = l ∧ r' = r) ∨ (l' = castToFloat l ∧ r' = castToFloat r ∧ EType l ≠ EType r)).
Proof using Type.
  unfold comparableOperands. destruct (bool_decide (EType l ≠ EType r) && is_number (EType l) && is_number (EType r)) eqn:E.
  - apply andb_true_iff in E as [[Hne%bool_decide_eq_true Hl]%andb_true_iff Hr]. intros [= <- <-].
    rewrite !castToFloat_type. destruct (EType l), (EType r); try done; by auto 10.
  - destruct (bool_decide (EType l ≠ EType r)) eqn:E'; [done|]. apply bool_decide_eq_false, dec_stable in E'.
    destruct (EType l) eqn:El; try done; intros [= <- <-]; rewrite El; auto.
Qed.

Lemma accepted_real e : accepted tys e = true → real_type (EType e) = true.
Proof using Hreal.
  intros He. destruct e; cbn [accepted EType] in *; auto.
  - apply bool_decide_eq_true in He as [_ He]. apply list_lookup_fmap_Some in He as (f & -> & Hf).
    exact (Forall_lookup_1 _ _ _ _ Hreal Hf).
  - apply bool_decide_eq_true in He as <-. by destruct Val.
  - apply andb_true_iff in He as [_ He]. destruct (is_cmp Op).
    + by apply andb_true_iff in He as [_ ->%bool_decide_eq_true].
    + by apply andb_true_iff in He as [? _].
  - by apply andb_true_iff in He as [[? _]%andb_true_iff _].
Qed.

Lemma stringEq_accepted op l r e :
  accepted tys l = true → accepted tys r = true → stringEq op l r = Some e → accepted tys e = true.
Proof using Type.
  intros Hl Hr. unfold stringEq. destruct (_ && _) eqn:E; [|done].
  apply andb_true_iff in E as [[_ Etl%bool_decide_eq_true]%andb_true_iff Etr%bool_decide_eq_true].
  destruct l as [? ? tl|c tl| | | | | | | | | | | | ], r as [? ? tr|c' tr| | | | | | | | | | | | ]; try done;
    try (by destruct c); try (by destruct c'); cbn [EType] in *; subst.
  - destruct c'; try done. by intros [= <-].
  - destruct c; try done. by intros [= <-].
Qed.

Lemma buildBinary_accepted op l r e :
  accepted tys l = true → accepted tys r = true → buildBinary op l r = Ret e → accepted tys e = true.
Proof using Hreal.
  intros Hl Hr. unfold buildBinary, coercePair.
  set (r1 := coerceOneSide l r). assert (Hr1 : accepted tys r1 = true) by by apply coerceOneSide_accepted.
  set (l1 := coerceOneSide r1 l). assert (Hl1 : accepted tys l1 = true) by by apply coerceOneSide_accepted.
  clearbody r1 l1. clear l r Hl Hr. destruct (stringEq op l1 r1) as [e'|] eqn:Es.
  { intros [= <-]. by apply (stringEq_accepted op l1 r1). }
  destruct (sqlOpToExecOp op) as [[k isArith]| | |] eqn:Ek; try done. cbn [mbind go_bind].
  assert (Hk : is_cmp k = negb isArith) by (destruct op; simplify_eq/=; done). destruct isArith.
  - destruct (_ || _) eqn:E; intros [= <-]; cbn [accepted]; rewrite Hk; cbn [negb].
    + assert (Hc : ∀ x, accepted tys x = true →
        accepted tys (if decide (EType x = TypeInt64) then CastIntToFloatExpr x else x) = true ∧
        EType (if decide (EType x = TypeInt64) then CastIntToFloatExpr x else x) ≠ TypeInt64).
      { intros x Hx. destruct (decide (EType x = TypeInt64)) as [Et|Et]; [|auto]. cbn [accepted EType]. by rewrite bool_decide_true, Hx. }
      destruct (Hc l1 Hl1) as [-> H1], (Hc r1 Hr1) as [-> H2]. cbn [andb real_type]. apply bool_decide_eq_true. intros Et.
      destruct (orb_prop _ _ E) as [H3%bool_decide_eq_true|H3%bool_decide_eq_true].
      * by rewrite (decide_False (P := EType l1 = TypeInt64)) by by rewrite H3.
      * rewrite Et. by rewrite decide_False by by rewrite H3.
    + by rewrite Hl1, Hr1, accepted_real, bool_decide_true.
  - destruct (comparableOperands l1 r1) as [[l2 r2]| | |] eqn:Ec; try done. cbn [mbind go_bind]. intros [= <-].
    destruct (comparableOperands_inv _ _ _ _ Ec) as (Et & Hc & Hlr). cbn [accepted]. rewrite Hk. cbn [negb].
    assert (accepted tys l2 = true ∧ accepted tys r2 = true) as [-> ->].
    { destruct Hlr as [[-> ->]|(-> & -> & _)]; [done|]. by split; apply castToFloat_accepted. }
    by rewrite bool_decide_true, Hc, bool_decide_true.
Qed.

(** No cast happens once the operands cannot mix INT64 and FLOAT64. *)
Definition unmixed (l r : Expr) : Prop :=
  (EType l ≠ TypeInt64 ∧ EType r ≠ TypeInt64) ∨ (EType l ≠ TypeFloat64 ∧ EType r ≠ TypeFloat64).
Lemma comparableOperands_fixed l r l' r' :
  comparableOperands l r = Ret (l', r') → unmixed l r → EType l = EType r ∧ comparable (EType l) = true.
Proof using Type.
  intros H Hf. destruct (comparableOperands_inv _ _ _ _ H) as (Et & Hc & [[-> ->]|(-> & -> & Hne)]); [done|].
  rewrite !castToFloat_type in Et. rewrite castToFloat_type in Hc. unfold unmixed in Hf.
  destruct (EType l), (EType r); try done; naive_solver.
Qed.
Lemma castThree_unmixed x lo hi :
  let '(x', lo', hi') := castThree x lo hi in
  unmixed x' lo' ∧ unmixed x' hi' ∧
  (accepted tys x = true → accepted tys x' = true) ∧ (accepted tys lo = true → accepted tys lo' = true) ∧
  (accepted tys hi = true → accepted tys hi' = true).
Proof using Type.
  unfold castThree. destruct (_ || _) eqn:E.
  - unfold unmixed. split_and!; auto using castToFloat_accepted, castToFloat_not_int.
  - apply orb_false_iff in E as [[E1%bool_decide_eq_false E2%bool_decide_eq_false]%orb_false_iff E3%bool_decide_eq_false].
    split_and!; try done; by right.
Qed.
Lemma buildBetween_accepted x lo hi no e :
  accepted tys x = true → accepted tys lo = true → accepted tys hi = true →
  buildBetween x lo hi no = Ret e → accepted tys e = true.
Proof using Type.
  intros Hx Hlo Hhi. unfold buildBetween.
  pose proof (coerceOneSide_accepted x lo Hlo) as Hl1. pose proof (coerceOneSide_accepted x hi Hhi) as Hh1.
  revert Hl1 Hh1. generalize (coerceOneSide x lo) as lo1, (coerceOneSide x hi) as hi1. intros lo1 hi1 Hl1 Hh1.
  pose proof (castThree_unmixed x lo1 hi1) as H. destruct (castThree x lo1 hi1) as [[x' lo'] hi'].
  destruct H as (Hf1 & Hf2 & H1 & H2 & H3).
  destruct (comparableOperands x' lo') as [[? ?]| | |] eqn:E1; try done.
  destruct (comparableOperands x' hi') as [[? ?]| | |] eqn:E2; try done. cbn [mbind go_bind]. intros [= <-].
  destruct (comparableOperands_fixed _ _ _ _ E1 Hf1) as [Et1 Hc], (comparableOperands_fixed _ _ _ _ E2 Hf2) as [Et2 _].
  unfold negateIf. destruct no; cbn [accepted]; rewrite H1, H2, H3, Hc by done;
    by rewrite !bool_decide_true by congruence.
Qed.
Lemma buildCase_accepted ws els e :
  Forall (λ w, accepted tys w.1 = true ∧ EType w.1 = TypeBool ∧ accepted tys w.2 = true) ws →
  opt_P (λ x, accepted tys x = true) els → Forall (λ w, real_type (EType w.2) = true) ws →
  buildCase ws els = Ret e → accepted tys e = true.
Proof using Type.
  intros Hws Hels Hr. unfold buildCase.
  set (t := match ws with (_, x) :: _ => EType x | [] => TypeFloat64 end).
  assert (Ht : real_type t = true) by (destruct Hr as [|[c x] ws' Hx _]; [done|exact Hx]). clearbody t. clear Hr.
  destruct (forallb _ ws) eqn:E; [|done]. destruct (match els with Some _ => _ | None => _ end) eqn:E'; [|done].
  intros [= <-]. cbn [accepted]. rewrite Ht. cbn [andb]. apply andb_true_iff. split.
  - clear -Hws E. induction Hws as [|[c x] ws (H1 & H2 & H3) _ IH]; [done|]. cbn [forallb fst snd] in *.
    apply andb_true_iff in E as [E1 E]. by rewrite H1, H3, E1, bool_decide_true, IH.
  - destruct els as [x|]; [|done]. simpl in Hels. by rewrite Hels, E'.
Qed.

(** Translation itself never panics. *)
Lemma comparableOperands_safe l r : safe (comparableOperands l r).
Proof using Type. unfold comparableOperands. by repeat case_match. Qed.
Lemma buildBinary_safe op l r : safe (buildBinary op l r).
Proof using Type.
  unfold buildBinary. destruct (coercePair l r) as [l1 r1]. destruct (stringEq op l1 r1); [done|].
  destruct (sqlOpToExecOp op) as [[k []]| | |] eqn:E; try done; cbn [mbind go_bind]; [by case_match| |by destruct op..].
  pose proof (comparableOperands_safe l1 r1). by destruct (comparableOperands l1 r1) as [[? ?]| | |].
Qed.
Lemma buildBetween_safe x lo hi no : safe (buildBetween x lo hi no).
Proof using Type.
  unfold buildBetween. destruct (castThree _ _ _) as [[x' lo'] hi'].
  pose proof (comparableOperands_safe x' lo'). destruct (comparableOperands x' lo'); try done. cbn [mbind go_bind].
  pose proof (comparableOperands_safe x' hi'). by destruct (comparableOperands x' hi').
Qed.
Lemma buildIn_safe t items set h : safe (buildIn t items set h).
Proof using Type.
  revert set h. induction items as [|item items IH]; intros set h; [done|]. cbn [buildIn].
  destruct (inListValue item t) as [[|c|]| | |] eqn:E; try done; cbn [mbind go_bind]; try apply IH;
    unfold inListValue in E; repeat case_match; done.
Qed.

Definition built (m : go Expr) : Prop := safe_post (λ x, accepted tys x = true) m.
Lemma built_of (m : go Expr) : safe m → (∀ x, m = Ret x → accepted tys x = true) → built m.
Proof using Type. unfold built. destruct m; simpl; auto. Qed.

Lemma built_column t name : built (buildColumn schema t name).
Proof using Type.
  unfold buildColumn. destruct (Z.ltb_spec (resolveColumn schema t name) 0) as [|Hi]; [done|].
  assert (∃ f, schema !! Z.to_nat (resolveColumn schema t name) = Some f) as [f Hf].
  { unfold resolveColumn in *. case_decide; [|by apply IndexOf_lookup].
    destruct (Z.ltb_spec (IndexOf schema (t +:+ "." +:+ name)) 0); by apply IndexOf_lookup. }
  rewrite (index_Ret _ _ _ Hf). cbn [mbind go_bind built safe_post accepted]. apply bool_decide_eq_true.
  split; [done|]. by rewrite list_lookup_fmap, Hf.
Qed.

Lemma buildExecExpr_built e : built (buildExecExpr e schema).
Proof using Hreal.
  induction e using Expr_ast_ind; try done; cbn [buildExecExpr].
  - apply built_column.
  - unfold buildBinExpr. apply (safe_post_bind _ _ _ _ IHe1). intros l Hl. apply (safe_post_bind _ _ _ _ IHe2). intros r Hr.
    assert (built (buildBinary op l r)).
    { apply built_of; [apply buildBinary_safe|]. intros x. by apply buildBinary_accepted. }
    destruct op; try done; cbn [built safe_post accepted forallb]; by rewrite Hl, Hr.
  - apply (safe_post_bind _ _ _ _ IHe). intros x Hx. destruct op; [done|]. unfold buildNegation.
    destruct (EType x) eqn:Et; try done; cbn [safe_post accepted EType is_cmp cell_type];
      by rewrite Hx, Et, !bool_decide_true.
  - apply (safe_post_bind _ _ _ _ IHe). intros x Hx. by destruct n.
  - apply (safe_post_bind _ _ _ _ IHe1). intros x Hx. apply (safe_post_bind _ _ _ _ IHe2). intros lo Hlo.
    apply (safe_post_bind _ _ _ _ IHe3). intros hi Hhi.
    apply built_of; [apply buildBetween_safe|]. intros y. by apply buildBetween_accepted.
  - apply (safe_post_bind _ _ _ _ IHe). intros x Hx. pose proof (buildIn_safe (EType x) l [] false) as Hs.
    destruct (buildIn _ _ _ _) as [[set h]| | |]; try done. cbn [mbind go_bind safe_post]. by destruct n.
  - apply (safe_post_bind _ _ _ _ IHe1). intros x Hx. destruct (decide (EType x ≠ TypeString)) as [|Et%dec_stable]; [done|].
    destruct e2; try done. cbn [safe_post]. destruct n; cbn [negateIf accepted]; by rewrite Et, bool_decide_true, Hx.
  - set (fw := fix buildWhens (ws : list WhenClause) := _).
    assert (Hw : safe_post (Forall (λ w, accepted tys w.1 = true ∧ EType w.1 = TypeBool ∧ accepted tys w.2 = true)) (fw ws)).
    { clear H0 els. induction H as [|[c x] ws [Hc Hx] _ IH]; [constructor|]. cbn [fw].
      apply (safe_post_bind _ _ _ _ Hc). intros cond Hcond.
      destruct (decide (EType cond ≠ TypeBool)) as [|Et%dec_stable]; [done|].
      apply (safe_post_bind _ _ _ _ Hx). intros res Hres. apply (safe_post_bind _ _ _ _ IH). intros rest Hrest.
      by constructor. }
    apply (safe_post_bind _ _ _ _ Hw). intros whens Hwhens.
    eapply (safe_post_bind (opt_P (λ x, accepted tys x = true))).
    { destruct els as [x|]; [|done]. by apply (safe_post_bind _ _ _ _ H0). }
    intros els' Hels. apply built_of; [unfold buildCase; by repeat case_match|]. intros y.
    apply buildCase_accepted; [done|done|]. eapply Forall_impl; [exact Hwhens|]. intros w (_ & _ & H2). by apply accepted_real.
Qed.

Lemma typed_operands es :
  Forall (λ e, accepted tys e = true → operands_ok e = true → typeof tys e = Some (EType e)) es →
  forallb (accepted tys) es = true → forallb (λ x, bool_decide (EType x = TypeBool) && operands_ok x) es = true →
  forallb (λ e, bool_decide (typeof tys e = Some TypeBool)) es = true.
Proof using Type.
  induction 1 as [|e es He _ IH]; [done|]. cbn [forallb].
  intros [H1 H2]%andb_true_iff [[Et%bool_decide_eq_true H3]%andb_true_iff H4]%andb_true_iff.
  by rewrite He, Et, bool_decide_true, IH.
Qed.
(** With the executor's own checks, an accepted expression is well typed. *)
Lemma accepted_typed e : accepted tys e = true → operands_ok e = true → typeof tys e = Some (EType e).
Proof using Hreal.
  induction e using Expr_nested_ind; cbn [accepted operands_ok typeof EType]; intros Ha Ho.
  - apply bool_decide_eq_true in Ha as [? ?]. by rewrite decide_True.
  - apply bool_decide_eq_true in Ha. by rewrite decide_True.
  - apply andb_true_iff in Ha as [Et%bool_decide_eq_true Ha]. by rewrite IHe, Et.
  - apply andb_true_iff in Ha as [[Hx Hy]%andb_true_iff Ha], Ho as [[Ox Oy]%andb_true_iff Ho].
    rewrite IHe1, IHe2 by done. destruct (is_cmp op).
    + apply andb_true_iff in Ha as [Ha ->%bool_decide_eq_true]. by rewrite Ha.
    + cbn [orb] in Ho. rewrite Ho. apply andb_true_iff in Ho as [Et%bool_decide_eq_true _].
      apply andb_true_iff in Ha as [_ Ha%bool_decide_eq_true]. by rewrite (Ha Et).
  - by rewrite (typed_operands es H Ha Ho).
  - by rewrite (typed_operands es H Ha Ho).
  - apply andb_true_iff in Ho as [Et%bool_decide_eq_true Ho]. by rewrite IHe, Et, bool_decide_true.
  - by rewrite IHe.
  - by rewrite IHe.
  - by rewrite IHe.
  - apply andb_true_iff in Ha as [Et%bool_decide_eq_true Ha]. by rewrite IHe, Et.
  - apply andb_true_iff in Ha as [[[[Hx Hl]%andb_true_iff Hh]%andb_true_iff Hc1]%andb_true_iff Hc2].
    apply andb_true_iff in Ho as [[Ox Ol]%andb_true_iff Oh]. rewrite IHe1, IHe2, IHe3 by done. by rewrite Hc1, Hc2.
  - apply bool_decide_eq_true in Ha. by rewrite decide_True.
  - apply andb_true_iff in Ha as [[Ht Hw]%andb_true_iff He], Ho as [Ow Oe].
    replace (match t with TypeOther _ => false | _ => true end) with true by by destruct t. cbn [andb].
    replace (forallb _ ws) with true; cbn [andb].
    + destruct els as [x|]; [|done]. apply andb_true_iff in He as [Hx <-%bool_decide_eq_true].
      simpl in H0. by rewrite H0, bool_decide_true.
    + clear -H Hw Ow. induction H as [|[c x] ws [Hc Hx] _ IH]; [done|]. cbn [forallb fst snd] in *.
      apply andb_true_iff in Hw as [[[[H1 H2]%andb_true_iff H3%bool_decide_eq_true]%andb_true_iff
        H4%bool_decide_eq_true]%andb_true_iff Hw], Ow as [[O1 O2]%andb_true_iff Ow].
      rewrite <- IH by done. by rewrite Hc, Hx, H3, H4, !bool_decide_true.
Qed.
End Accepted.


(** [a * 2 > 7 OR NOT a IS NOT NULL] over the nine rows; and [NOT a], accepted by
    the planner and an error of the executor. *)
Definition demo_a : Schema := [mkField "a" TypeInt64 EncPlain true].
Definition demo_or : Ast.Expr :=
  BinaryExpr OpOr (BinaryExpr OpGT (BinaryExpr OpMul (ColumnRefExpr "" "a") (IntLiteral 2)) (IntLiteral 7))
    (UnaryExpr OpNot (Ast.IsNullExpr (ColumnRefExpr "" "a") true)).
