(* ===== verification/FloatInt.v ===== *)
(** * Integers as float64 values

    [float64(v)] rounds to nearest, ties to even; here it is shown to be monotone
    on every int64, strictly so on the integers a float64 holds exactly, which is
    what the comparison of a column with a literal of the other type rests on.
    Also that multiplying by -1 is negation. *)
From Stdlib Require Import ZArith Lia ZifyNat SpecFloat.
From stdpp Require Import base numbers list.
From S2P Require Import Prelude Float64.
#[local] Open Scope Z_scope.

Abbreviation digits m := (Zpos (digits2_pos m)).

Lemma digits_spec m : 2 ^ (digits m - 1) ≤ Zpos m < 2 ^ digits m.
Proof.
  induction m as [m IH|m IH|]; cbn [digits2_pos]; rewrite ?Pos2Z.inj_succ; [| |done];
    replace (Z.succ (digits m) - 1) with (Z.succ (digits m - 1)) by lia; rewrite !Z.pow_succ_r by lia;
    rewrite ?(Pos2Z.inj_xI m), ?(Pos2Z.inj_xO m); lia.
Qed.
Lemma digits_unique m d : 0 < d → 2 ^ (d - 1) ≤ Zpos m < 2 ^ d → digits m = d.
Proof.
  intros Hd [H1 H2]. destruct (digits_spec m) as [H3 H4].
  destruct (Z.lt_trichotomy (digits m) d) as [H|[H|H]]; [|done|].
  - pose proof (Z.pow_le_mono_r 2 (digits m) (d - 1)). lia.
  - pose proof (Z.pow_le_mono_r 2 d (digits m - 1)). lia.
Qed.

(** ** Shifting right with a round and a sticky bit *)

(** What the record says of [m] shifted right by [k]: the quotient, and where the
    remainder lies against half a unit. *)
Definition shifted (m k : Z) (rec : shr_record) : Prop :=
  shr_m rec = m / 2 ^ k ∧
  match shr_r rec, shr_s rec with
  | false, false => m mod 2 ^ k = 0
  | false, true => 0 < m mod 2 ^ k ∧ 2 * (m mod 2 ^ k) < 2 ^ k
  | true, false => 2 * (m mod 2 ^ k) = 2 ^ k
  | true, true => 2 ^ k < 2 * (m mod 2 ^ k)
  end.

Lemma shr_1_half q rb sb :
  0 ≤ q → shr_m (shr_1 (Build_shr_record q rb sb)) = q / 2 ∧
  shr_r (shr_1 (Build_shr_record q rb sb)) = Z.odd q ∧ shr_s (shr_1 (Build_shr_record q rb sb)) = rb || sb.
Proof.
  intros Hq. destruct q as [|[q|q|]|q]; cbn [shr_1 shr_m shr_r shr_s Z.odd]; split_and!; try done; try lia.
Qed.
Lemma shr_1_spec m k rec : 0 ≤ m → 0 ≤ k → shifted m k rec → shifted m (k + 1) (shr_1 rec).
Proof.
  intros Hm Hk [Hq Hr]. pose proof (Z.pow_pos_nonneg 2 k ltac:(lia) Hk) as Hp.
  pose proof (Z.div_pos m (2 ^ k) Hm Hp) as H0. pose proof (Z.mod_pos_bound m (2 ^ k) Hp) as Hb.
  destruct rec as [q rb sb]. cbn [shr_m shr_r shr_s] in *. subst q.
  destruct (shr_1_half (m / 2 ^ k) rb sb H0) as (E1 & E2 & E3). unfold shifted. rewrite E1, E2, E3.
  rewrite Z.pow_add_r by lia. change (2 ^ 1) with 2. rewrite Z.rem_mul_r by lia. rewrite Z.div_div by lia.
  split; [done|]. rewrite Zmod_odd. destruct (Z.odd (m / 2 ^ k)), rb, sb; cbn [orb]; lia.
Qed.
Lemma iter_pos_shr p m k rec :
  0 ≤ m → 0 ≤ k → shifted m k rec → shifted m (k + Zpos p) (SpecFloat.iter_pos shr_1 p rec).
Proof.
  intros Hm. revert k rec. induction p as [p IH|p IH|]; intros k rec Hk Hr; cbn [SpecFloat.iter_pos].
  - replace (k + Zpos p~1) with (k + 1 + Zpos p + Zpos p) by lia. apply IH; [lia|]. apply IH; [lia|]. by apply shr_1_spec.
  - replace (k + Zpos p~0) with (k + Zpos p + Zpos p) by lia. apply IH; [lia|]. by apply IH.
  - by apply shr_1_spec.
Qed.

Abbreviation fexp64 := (fexp 53 1024).
Lemma shr_fexp_spec m e :
  0 ≤ fexp64 (digits m + e) - e →
  ∃ rec, shr_fexp 53 1024 (Zpos m) e loc_Exact = (rec, fexp64 (digits m + e)) ∧
    shifted (Zpos m) (fexp64 (digits m + e) - e) rec.
Proof.
  intros Hk. unfold shr_fexp. cbn [Zdigits2 shr_record_of_loc].
  assert (H0 : shifted (Zpos m) 0 (Build_shr_record (Zpos m) false false)).
  { unfold shifted. cbn [shr_m shr_r shr_s]. rewrite Z.pow_0_r, Z.div_1_r, Z.mod_1_r. done. }
  destruct (fexp64 (digits m + e) - e) as [|p|p] eqn:Ek; cbn [shr].
  - eexists. split; [|done]. f_equal. lia.
  - eexists. split; [|apply (iter_pos_shr p _ 0); [lia|lia|done]]. f_equal. lia.
  - lia.
Qed.

(** The rounded quotient. *)
Definition rne (m k : Z) : Z :=
  let q := m / 2 ^ k in
  let r := m mod 2 ^ k in
  if 2 * r <? 2 ^ k then q else if (2 * r =? 2 ^ k) && Z.even q then q else q + 1.
Lemma rne_spec m k rec :
  shifted m k rec → 0 ≤ k → round_nearest_even (shr_m rec) (loc_of_shr_record rec) = rne m k.
Proof.
  intros [Hq Hr] Hk. pose proof (Z.pow_pos_nonneg 2 k ltac:(lia) Hk) as Hp.
  destruct rec as [q rb sb]. cbn [shr_m shr_r shr_s loc_of_shr_record] in *. subst q. unfold rne.
  destruct rb, sb; cbn [loc_of_shr_record round_nearest_even].
  - rewrite (proj2 (Z.ltb_ge _ _)) by lia. by rewrite (proj2 (Z.eqb_neq _ _)) by lia.
  - rewrite (proj2 (Z.ltb_ge _ _)) by lia. rewrite (proj2 (Z.eqb_eq _ _)) by lia. done.
  - by rewrite (proj2 (Z.ltb_lt _ _)) by lia.
  - by rewrite (proj2 (Z.ltb_lt _ _)) by lia.
Qed.
Lemma rne_mono a b k : 0 ≤ k → a ≤ b → rne a k ≤ rne b k.
Proof.
  intros Hk Hab. pose proof (Z.pow_pos_nonneg 2 k ltac:(lia) Hk) as Hp.
  pose proof (Z.div_mod a (2 ^ k) ltac:(lia)) as Ea. pose proof (Z.div_mod b (2 ^ k) ltac:(lia)) as Eb.
  pose proof (Z.mod_pos_bound a (2 ^ k) Hp). pose proof (Z.mod_pos_bound b (2 ^ k) Hp).
  pose proof (Z.div_le_mono a b (2 ^ k) Hp Hab) as Hq. unfold rne.
  destruct (Z.eq_dec (a / 2 ^ k) (b / 2 ^ k)) as [E|E].
  - rewrite <- E in *. assert (a mod 2 ^ k ≤ b mod 2 ^ k) by lia.
    destruct (Z.ltb_spec (2 * (a mod 2 ^ k)) (2 ^ k)); [repeat case_match; lia|].
    rewrite (proj2 (Z.ltb_ge (2 * (b mod 2 ^ k)) _)) by lia.
    destruct (Z.eqb_spec (2 * (a mod 2 ^ k)) (2 ^ k)), (Z.eqb_spec (2 * (b mod 2 ^ k)) (2 ^ k)), (Z.even (a / 2 ^ k));
      cbn [andb]; lia.
  - repeat case_match; lia.
Qed.
Lemma rne_exact q k : 0 ≤ k → rne (q * 2 ^ k) k = q.
Proof.
  intros Hk. pose proof (Z.pow_pos_nonneg 2 k ltac:(lia) Hk). unfold rne.
  rewrite Z.div_mul, Z.mod_mul by lia. by rewrite (proj2 (Z.ltb_lt _ _)) by lia.
Qed.
Lemma rne_range m k d : 0 ≤ k → 2 ^ (k + d) ≤ m < 2 ^ (k + d + 1) → 0 ≤ d → 2 ^ d ≤ rne m k ≤ 2 ^ (d + 1).
Proof.
  intros Hk [H1 H2] Hd. rewrite <- (rne_exact (2 ^ d) k) at 1 by done.
  rewrite <- (rne_exact (2 ^ (d + 1)) k) by done. rewrite <- !Z.pow_add_r by lia.
  split; apply rne_mono; try done; [by rewrite Z.add_comm|]. replace (d + 1 + k) with (k + d + 1) by lia. lia.
Qed.

(** ** Rounding *)

Lemma fexp64_ge e : -1074 ≤ fexp64 e ∧ e - 53 ≤ fexp64 e.
Proof. unfold fexp, emin. lia. Qed.

(** A quotient that is already canonical is the result. *)
Lemma round_aux_canonical s m e q :
  let e' := fexp64 (digits m + e) in
  0 ≤ e' - e → rne (Zpos m) (e' - e) = Zpos q → fexp64 (digits q + e') = e' → e' ≤ 971 →
  binary_round_aux 53 1024 s (Zpos m) e loc_Exact = S754_finite s q e'.
Proof.
  intros e' Hk Hq Hc He. unfold binary_round_aux. destruct (shr_fexp_spec m e Hk) as (rec & -> & Hrec).
  rewrite (rne_spec _ _ _ Hrec Hk). fold e'. rewrite Hq.
  destruct (shr_fexp_spec q e') as (rec' & -> & [Hm _]); [lia|]. rewrite Hm, Hc, Z.sub_diag, Z.div_1_r.
  cbv iota. change (1024 - 53) with 971. by rewrite (proj2 (Z.leb_le e' 971)).
Qed.
(** A quotient that rounded up to the next power of two is halved. *)
Lemma round_aux_carry s m e :
  let e' := fexp64 (digits m + e) in
  0 ≤ e' - e → rne (Zpos m) (e' - e) = 2 ^ 53 → -1074 ≤ e' ≤ 970 →
  binary_round_aux 53 1024 s (Zpos m) e loc_Exact = S754_finite s (2 ^ 52) (e' + 1).
Proof.
  intros e' Hk Hq He. unfold binary_round_aux. destruct (shr_fexp_spec m e Hk) as (rec & -> & Hrec).
  rewrite (rne_spec _ _ _ Hrec Hk). fold e'. rewrite Hq. change (2 ^ 53) with (Zpos (2 ^ 53)).
  assert (Ef : fexp64 (digits (2 ^ 53)%positive + e') = e' + 1).
  { change (digits (2 ^ 53)%positive) with 54. unfold fexp, emin. lia. }
  destruct (shr_fexp_spec (2 ^ 53) e') as (rec' & -> & [Hm _]); [lia|].
  rewrite Hm, Ef. replace (e' + 1 - e') with 1 by lia. change (Zpos (2 ^ 53) / 2 ^ 1) with (Zpos (2 ^ 52)).
  cbv iota. change (1024 - 53) with 971. by rewrite (proj2 (Z.leb_le (e' + 1) 971)) by lia.
Qed.

Lemma encode_finite s m e :
  2 ^ 52 ≤ Zpos m < 2 ^ 53 → -1074 ≤ e ≤ 971 →
  f64_encode (S754_finite s m e) = f64_sign_bit s + ((e + 1074) * 2 ^ 52 + Zpos m).
Proof.
  intros [H1 H2] He. unfold f64_encode. rewrite (proj2 (Z.ltb_ge _ _)) by lia.
  change (2 ^ 52) with 4503599627370496 in *. change (2 ^ 53) with 9007199254740992 in *.
  assert (0 ≤ f64_sign_bit s ≤ 2 ^ 63) by (destruct s; cbn; lia). change (2 ^ 63) with 9223372036854775808 in *.
  rewrite wrapU_id; [lia|]. unfold inU. change (2 ^ 64) with 18446744073709551616. lia.
Qed.
Lemma round_aux_encode s m e q :
  let e' := fexp64 (digits m + e) in
  0 ≤ e' - e → rne (Zpos m) (e' - e) = q → 2 ^ 52 ≤ q ≤ 2 ^ 53 → -1074 ≤ e' ≤ 970 →
  f64_encode (binary_round_aux 53 1024 s (Zpos m) e loc_Exact) = f64_sign_bit s + ((e' + 1074) * 2 ^ 52 + q).
Proof.
  intros e' Hk Hr Hq He. destruct (Z.eq_dec q (2 ^ 53)) as [->|Hne].
  - rewrite (round_aux_carry s m e Hk Hr He). rewrite encode_finite by (lia || (split; by vm_compute)).
    fold e'. change (Zpos (2 ^ 52)) with (2 ^ 52). change (2 ^ 53) with (2 * 2 ^ 52). lia.
  - destruct q as [|q|q]; [lia| |lia]. assert (Hd : digits q = 53) by (apply digits_unique; lia).
    rewrite (round_aux_canonical s m e q Hk Hr); [|fold e'; rewrite Hd; unfold fexp, emin; lia|fold e'; lia].
    apply encode_finite; lia.
Qed.

(** ** Integers *)

(** The magnitude of [float64(m)] for a positive [m] as a bit pattern: exponent
    and rounded mantissa. *)
Definition mantissa (m : positive) : Z :=
  if digits m <=? 53 then Zpos m * 2 ^ (53 - digits m) else rne (Zpos m) (digits m - 53).
Definition magnitude (m : positive) : Z := (digits m + 1021) * 2 ^ 52 + mantissa m.

Lemma mantissa_range m : 2 ^ 52 ≤ mantissa m ≤ 2 ^ 53.
Proof.
  unfold mantissa. pose proof (digits_spec m) as [H1 H2]. destruct (Z.leb_spec (digits m) 53).
  - assert (E : ∀ a, 53 = a + (53 - a)) by lia. split.
    + replace 52 with ((digits m - 1) + (53 - digits m)) at 1 by lia. rewrite Z.pow_add_r by lia. nia.
    + rewrite (E (digits m)) at 2. rewrite Z.pow_add_r by lia. nia.
  - apply (rne_range _ _ 52); [lia|split|lia].
    + by replace (digits m - 53 + 52) with (digits m - 1) by lia.
    + by replace (digits m - 53 + 52 + 1) with (digits m) by lia.
Qed.

Lemma iter_xO d m : Zpos (Pos.iter xO m d) = Zpos m * 2 ^ Zpos d.
Proof.
  induction d as [|d IH] using Pos.peano_ind; [cbn; lia|]. rewrite Pos.iter_succ, Pos2Z.inj_xO, IH.
  rewrite Pos2Z.inj_succ, Z.pow_succ_r by lia. lia.
Qed.

Lemma encode_round s m :
  Zpos m ≤ 2 ^ 63 → f64_encode (binary_round 53 1024 s m 0) = f64_sign_bit s + magnitude m.
Proof.
  intros Hm. pose proof (digits_spec m) as [H1 H2]. pose proof (mantissa_range m) as Hr.
  assert (Hd : digits m ≤ 64).
  { destruct (Z.le_gt_cases (digits m) 64); [done|]. pose proof (Z.pow_le_mono_r 2 64 (digits m - 1)). lia. }
  assert (Ef : fexp64 (digits m + 0) = digits m - 53) by (unfold fexp, emin; lia).
  unfold binary_round, shl_align. rewrite Ef, Z.sub_0_r. unfold magnitude, mantissa in *.
  destruct (Z.leb_spec (digits m) 53) as [Hle|Hgt].
  - assert (Hz : ∃ mz, match digits m - 53 with Zneg d => (Pos.iter xO m d, digits m - 53) | _ => (m, 0) end
        = (mz, digits m - 53) ∧ Zpos mz = Zpos m * 2 ^ (53 - digits m)).
    { destruct (digits m - 53) as [|d|d] eqn:E; [|lia|].
      - exists m. split; [done|]. replace (53 - digits m) with 0 by lia. lia.
      - eexists. split; [done|]. rewrite iter_xO. replace (53 - digits m) with (Zpos d) by lia. done. }
    destruct Hz as (mz & -> & Ez). assert (Hdz : digits mz = 53).
    { apply digits_unique; [lia|]. rewrite Ez. split; [lia|]. change (53 - 1) with 52 in *.
      replace 53 with (digits m + (53 - digits m)) at 2 by lia. rewrite Z.pow_add_r by lia.
      pose proof (Z.pow_pos_nonneg 2 (53 - digits m)). nia. }
    assert (Ef' : fexp64 (digits mz + (digits m - 53)) = digits m - 53) by (rewrite Hdz; unfold fexp, emin; lia).
    rewrite (round_aux_encode s mz (digits m - 53) (Zpos mz)); rewrite ?Ef', ?Z.sub_diag; [rewrite Ez; lia|lia| |lia|lia].
    pose proof (rne_exact (Zpos mz) 0 ltac:(lia)) as E. by rewrite Z.pow_0_r, Z.mul_1_r in E.
  - destruct (digits m - 53) as [|k|k] eqn:E; [lia| |lia]. rewrite <- E in *.
    rewrite (round_aux_encode s m 0 (rne (Zpos m) (digits m - 53))); rewrite ?Ef, ?Z.sub_0_r; [lia|lia|done|lia|lia].
Qed.

Lemma magnitude_range m : Zpos m ≤ 2 ^ 63 → 2 ^ 52 ≤ magnitude m < 2047 * 2 ^ 52.
Proof.
  intros Hm. pose proof (digits_spec m) as [H1 H2]. pose proof (mantissa_range m) as Hr. unfold magnitude.
  assert (digits m ≤ 64).
  { destruct (Z.le_gt_cases (digits m) 64); [done|]. pose proof (Z.pow_le_mono_r 2 64 (digits m - 1)). lia. }
  change (2 ^ 53) with (2 * 2 ^ 52) in *. change (2 ^ 52) with 4503599627370496 in *. lia.
Qed.
Lemma digits_mono a b : Zpos a ≤ Zpos b → digits a ≤ digits b.
Proof.
  intros H. destruct (digits_spec a), (digits_spec b).
  destruct (Z.le_gt_cases (digits a) (digits b)); [done|].
  pose proof (Z.pow_le_mono_r 2 (digits b) (digits a - 1)). lia.
Qed.
Lemma magnitude_mono a b : Zpos a ≤ Zpos b → magnitude a ≤ magnitude b.
Proof.
  intros H. pose proof (digits_mono a b H) as Hd. unfold magnitude.
  pose proof (mantissa_range a). pose proof (mantissa_range b). change (2 ^ 53) with (2 * 2 ^ 52) in *.
  destruct (Z.eq_dec (digits a) (digits b)) as [E|E]; [|change (2 ^ 52) with 4503599627370496 in *; lia].
  unfold mantissa in *. rewrite <- E in *. apply Z.add_le_mono_l. destruct (digits a <=? 53) eqn:El.
  - apply Z.mul_le_mono_nonneg_r; [|done]. lia.
  - apply rne_mono; [|done]. apply Z.leb_gt in El. lia.
Qed.
(** Exactly held integers stay apart. *)
Lemma magnitude_strict a b : Zpos a < Zpos b → Zpos b ≤ 2 ^ 53 → magnitude a < magnitude b.
Proof.
  intros H Hb. pose proof (digits_mono a b ltac:(lia)) as Hd. unfold magnitude.
  pose proof (mantissa_range a). pose proof (mantissa_range b). pose proof (digits_spec a) as [Ha1 Ha2].
  assert (Ha : digits a ≤ 53).
  { destruct (Z.le_gt_cases (digits a) 53); [done|]. pose proof (Z.pow_le_mono_r 2 53 (digits a - 1)). lia. }
  assert (Ea : mantissa a < 2 ^ 53).
  { unfold mantissa. rewrite (proj2 (Z.leb_le _ _)) by done.
    replace 53 with (digits a + (53 - digits a)) at 2 by lia. rewrite Z.pow_add_r by lia.
    pose proof (Z.pow_pos_nonneg 2 (53 - digits a)). nia. }
  change (2 ^ 53) with (2 * 2 ^ 52) in *.
  destruct (Z.eq_dec (digits a) (digits b)) as [E|E]; [|change (2 ^ 52) with 4503599627370496 in *; lia].
  unfold mantissa in *. rewrite <- E in *. rewrite (proj2 (Z.leb_le _ _)) in * by done.
  pose proof (Z.pow_pos_nonneg 2 (53 - digits a)). nia.
Qed.

(** [float64(v)]: a number, whose place in the order is the signed magnitude. *)
Definition int_key (v : Z) : Z :=
  match v with Z0 => 0 | Zpos m => magnitude m | Zneg m => - magnitude m end.
Lemma f64_of_int_key v :
  - 2 ^ 63 ≤ v ≤ 2 ^ 63 → f64_isNaN (f64_of_int v) = false ∧ f64_key (f64_of_int v) = int_key v.
Proof.
  intros Hv. assert (Hpat : ∀ s x, 2 ^ 52 ≤ x < 2047 * 2 ^ 52 →
    f64_isNaN (f64_sign_bit s + x) = false ∧ f64_key (f64_sign_bit s + x) = if s then - x else x).
  { clear. intros s x Hx. assert (Hin : inU 64 (f64_sign_bit s + x)).
    { unfold inU. change (2 ^ 64) with 18446744073709551616. change (2 ^ 52) with 4503599627370496 in *.
      destruct s; cbn [f64_sign_bit]; [change (2 ^ 63) with 9223372036854775808|]; lia. }
    destruct (f64_fields _ Hin) as (Hm & He & Hf). unfold f64_key. rewrite (f64_sign_spec _ Hin).
    assert (Emod : (f64_sign_bit s + x) mod 2 ^ 63 = x).
    { change (2 ^ 52) with 4503599627370496 in *. destruct s; cbn [f64_sign_bit];
        change (2 ^ 63) with 9223372036854775808; [|by rewrite Z.mod_small by lia].
      symmetry. apply (Z.mod_unique _ _ 1); lia. }
    rewrite Emod in *. split.
    - unfold f64_isNaN. rewrite (proj2 (Z.eqb_neq _ _)); [done|]. intros E. rewrite E in Hf. lia.
    - change (2 ^ 52) with 4503599627370496 in *. change (2 ^ 63) with 9223372036854775808 in *.
      destruct s; cbn [f64_sign_bit] in *.
      + rewrite (proj2 (Z.leb_le _ _)); [done|]. lia.
      + rewrite (proj2 (Z.leb_gt _ _)); [done|]. lia. }
  unfold f64_of_int, binary_normalize. destruct v as [|m|m]; [done| |]; cbn [int_key];
    rewrite encode_round by lia; [apply (Hpat false)|apply (Hpat true)]; apply magnitude_range; lia.
Qed.

Lemma int_key_mono a b : a ≤ b → - 2 ^ 63 ≤ a → b ≤ 2 ^ 63 → int_key a ≤ int_key b.
Proof.
  intros H Ha Hb. destruct a as [|a|a], b as [|b|b]; cbn [int_key]; try lia;
    repeat match goal with |- context [magnitude ?m] =>
      lazymatch goal with _ : 2 ^ 52 ≤ magnitude m < _ |- _ => fail | _ => pose proof (magnitude_range m ltac:(lia)) end end;
    try (pose proof (magnitude_mono a b)); try (pose proof (magnitude_mono b a)); lia.
Qed.
Lemma int_key_strict a b : a < b → - 2 ^ 53 ≤ a → b ≤ 2 ^ 53 → int_key a < int_key b.
Proof.
  intros H Ha Hb. destruct a as [|a|a], b as [|b|b]; cbn [int_key]; try lia;
    try (pose proof (magnitude_range a ltac:(lia))); try (pose proof (magnitude_range b ltac:(lia)));
    try (pose proof (magnitude_strict a b)); try (pose proof (magnitude_strict b a)); lia.
Qed.

(** ** Negation *)

(** What a pattern that is not NaN decodes to encodes back, also with the sign
    changed. *)
Lemma encode_sign b s :
  inU 64 b → f64_isNaN b = false →
  f64_encode match f64_decode b with
    | S754_infinity _ => S754_infinity s | S754_zero _ => S754_zero s
    | S754_finite _ m e => S754_finite s m e | S754_nan => S754_nan end
  = f64_sign_bit s + b mod 2 ^ 63.
Proof.
  intros Hb Hn. destruct (f64_fields b Hb) as (Hm & He & ->). unfold f64_isNaN in Hn. unfold f64_decode.
  assert (Hw : ∀ x, 0 ≤ x < 2 ^ 63 → to_u64 (f64_sign_bit s + x) = f64_sign_bit s + x).
  { intros x Hx. apply wrapU_id. unfold inU. destruct s; cbn [f64_sign_bit]; lia. }
  destruct (Z.eqb_spec (f64_exp b) 2047) as [E|E].
  - destruct (Z.eqb_spec (f64_man b) 0) as [->|]; [|done]. cbn [f64_encode]. rewrite E, Z.add_0_r. by apply Hw.
  - change (2 ^ 52) with 4503599627370496 in *. change (2 ^ 63) with 9223372036854775808 in *.
    destruct (Z.eqb_spec (f64_exp b) 0) as [->|E0]; [destruct (Z.eqb_spec (f64_man b) 0) as [->|]|].
    + cbn [f64_encode]. pose proof (Hw 0 ltac:(lia)) as E1. by rewrite Z.add_0_r in E1 |- *.
    + unfold f64_encode. rewrite Z2Pos.id, (proj2 (Z.ltb_lt _ _)) by lia. rewrite Hw; [lia|].
      change (2 ^ 63) with 9223372036854775808. lia.
    + rewrite encode_finite; rewrite ?Z2Pos.id by lia; change (2 ^ 52) with 4503599627370496;
        change (2 ^ 53) with 9007199254740992; lia.
Qed.
Lemma lxor_top a : 0 ≤ a < 2 ^ 63 → Z.lxor a (2 ^ 63) = a + 2 ^ 63.
Proof.
  intros Ha. symmetry. apply Z.add_nocarry_lxor. apply Z.bits_inj'. intros n Hn.
  rewrite Z.land_spec, Z.bits_0, Z.pow2_bits_eqb by lia. destruct (Z.eqb_spec 63 n) as [<-|]; [|apply andb_false_r].
  rewrite (proj2 (Z.testbit_false a 63 ltac:(lia))); [done|]. by rewrite Z.div_small.
Qed.
Lemma f64_neg_spec b : inU 64 b → f64_neg b = f64_sign_bit (negb (f64_sign b)) + b mod 2 ^ 63.
Proof.
  intros Hb. unfold f64_neg. rewrite (f64_sign_spec b Hb). destruct Hb as [H0 H1].
  destruct (Z.leb_spec (2 ^ 63) b) as [H|H]; cbn [negb f64_sign_bit].
  - assert (Ea : b = Z.lxor (b - 2 ^ 63) (2 ^ 63)) by (rewrite lxor_top; lia).
    rewrite Ea at 1. rewrite Z.lxor_assoc, Z.lxor_nilpotent, Z.lxor_0_r.
    rewrite <- (Z.mod_unique b (2 ^ 63) 1 (b - 2 ^ 63)); lia.
  - rewrite lxor_top, Z.mod_small by lia. lia.
Qed.
Lemma f64_neg_in b : inU 64 b → inU 64 (f64_neg b).
Proof.
  intros Hb. rewrite f64_neg_spec by done. pose proof (Z.mod_pos_bound b (2 ^ 63) ltac:(lia)). unfold inU.
  destruct (negb _); cbn [f64_sign_bit]; lia.
Qed.
Lemma f64_neg_nan b : inU 64 b → f64_isNaN (f64_neg b) = f64_isNaN b.
Proof.
  intros Hb. pose proof (f64_neg_in b Hb) as Hn. destruct (f64_fields b Hb) as (Hm & He & E).
  destruct (f64_fields _ Hn) as (Hm' & He' & E'). rewrite f64_neg_spec in E' at 1 by done.
  assert (Emod : (f64_sign_bit (negb (f64_sign b)) + b mod 2 ^ 63) mod 2 ^ 63 = b mod 2 ^ 63).
  { pose proof (Z.mod_pos_bound b (2 ^ 63) ltac:(lia)). destruct (negb _); cbn [f64_sign_bit].
    - symmetry. apply (Z.mod_unique _ _ 1); lia.
    - by rewrite Z.add_0_l, Z.mod_mod by lia. }
  rewrite Emod, E in E'. change (2 ^ 52) with 4503599627370496 in *.
  assert (f64_exp (f64_neg b) = f64_exp b ∧ f64_man (f64_neg b) = f64_man b) as [H1 H2] by lia.
  unfold f64_isNaN. by rewrite H1, H2.
Qed.

(** [x * -1] is [-x]. *)
Lemma f64_mul_neg_one x :
  inU 64 x → f64_isNaN x = false → f64_mul x (f64_of_int (-1)) = f64_neg x.
Proof.
  intros Hx Hn. rewrite (f64_neg_spec x Hx), <- (encode_sign x (negb (f64_sign x)) Hx Hn). unfold f64_mul.
  change (f64_decode (f64_of_int (-1))) with (S754_finite true (2 ^ 52) (-52)). f_equal.
  destruct (f64_fields x Hx) as (Hm & He & _). unfold f64_isNaN in Hn.
  unfold f64_decode. change (2 ^ 52) with 4503599627370496 in *.
  assert (Hfin : ∀ m e, digits m ≤ 53 → fexp64 (digits m + e) = e → e ≤ 971 →
    SFmul 53 1024 (S754_finite (f64_sign x) m e) (S754_finite true (2 ^ 52) (-52)) = S754_finite (negb (f64_sign x)) m e).
  { intros m e Hd Hc He'. cbn [SFmul]. rewrite xorb_true_r.
    assert (Hdm : digits (m * 2 ^ 52) = digits m + 52).
    { apply digits_unique; [lia|]. rewrite Pos2Z.inj_mul, Pos2Z.inj_pow. destruct (digits_spec m).
      replace (digits m + 52 - 1) with (digits m - 1 + 52) by lia. rewrite !Z.pow_add_r by lia.
      split; [apply Z.mul_le_mono_nonneg_r|apply Z.mul_lt_mono_pos_r]; done. }
    assert (Ef : fexp64 (digits (m * 2 ^ 52) + (e + -52)) = e) by (rewrite Hdm; replace (digits m + 52 + (e + -52)) with (digits m + e) by lia; done).
    rewrite (round_aux_canonical _ _ (e + -52) m); rewrite ?Ef; [done|lia| |done|done].
    replace (e - (e + -52)) with 52 by lia. rewrite Pos2Z.inj_mul, Pos2Z.inj_pow. by apply rne_exact. }
  destruct (Z.eqb_spec (f64_exp x) 2047) as [E|E].
  - destruct (f64_man x =? 0); [|done]. cbn [SFmul]. by rewrite xorb_true_r.
  - destruct (Z.eqb_spec (f64_exp x) 0) as [E0|E0]; [destruct (Z.eqb_spec (f64_man x) 0) as [Em|Em]|].
    + cbn [SFmul]. by rewrite xorb_true_r.
    + assert (Hd : digits (Z.to_pos (f64_man x)) ≤ 52).
      { pose proof (digits_spec (Z.to_pos (f64_man x))) as [H1 H2]. rewrite Z2Pos.id in * by lia.
        destruct (Z.le_gt_cases (digits (Z.to_pos (f64_man x))) 52); [done|].
        pose proof (Z.pow_le_mono_r 2 52 (digits (Z.to_pos (f64_man x)) - 1)). change (2 ^ 52) with 4503599627370496 in *. lia. }
      apply Hfin; [lia|unfold fexp, emin; lia|lia].
    + assert (Hd : digits (Z.to_pos (4503599627370496 + f64_man x)) = 53).
      { apply digits_unique; [lia|]. rewrite Z2Pos.id by lia. change (2 ^ (53 - 1)) with 4503599627370496.
        change (2 ^ 53) with 9007199254740992. lia. }
      apply Hfin; [lia|rewrite Hd; unfold fexp, emin; lia|lia].
Qed.

(** ** Integers a float64 holds *)

(** A positive integer that is a 53-bit mantissa times a power of two. *)
Definition held (m : positive) : Prop :=
  Zpos m ≤ 2 ^ 53 ∨ ∃ q k, 0 ≤ k ∧ Zpos m = q * 2 ^ k ∧ 2 ^ 52 ≤ q < 2 ^ 53.
Lemma magnitude_held m q k :
  0 ≤ k → Zpos m = q * 2 ^ k → 2 ^ 52 ≤ q < 2 ^ 53 → magnitude m = (k + 1074) * 2 ^ 52 + q.
Proof.
  intros Hk Em Hq. assert (Hd : digits m = 53 + k).
  { apply digits_unique; [lia|]. rewrite Em. replace (53 + k - 1) with (52 + k) by lia. rewrite !Z.pow_add_r by lia.
    pose proof (Z.pow_pos_nonneg 2 k ltac:(lia) Hk). split; [apply Z.mul_le_mono_nonneg_r|apply Z.mul_lt_mono_pos_r]; lia. }
  unfold magnitude, mantissa. rewrite Hd. destruct (Z.leb_spec (53 + k) 53).
  - replace k with 0 in * by lia. rewrite Z.pow_0_r in *. lia.
  - replace (53 + k - 53) with k by lia. rewrite Em, rne_exact by done. lia.
Qed.
Lemma magnitude_scaled m e :
  0 ≤ e → 2 ^ 52 ≤ Zpos m * 2 ^ e < 2 ^ 53 → magnitude m = (1074 - e) * 2 ^ 52 + Zpos m * 2 ^ e.
Proof.
  intros He [H1 H2]. pose proof (Z.pow_pos_nonneg 2 e ltac:(lia) He) as Hp.
  assert (He' : e ≤ 52).
  { destruct (Z.le_gt_cases e 52); [done|]. pose proof (Z.pow_le_mono_r 2 53 e). nia. }
  assert (Hd : digits m = 53 - e).
  { apply digits_unique; [lia|]. split.
    - apply (Z.mul_le_mono_pos_r _ _ (2 ^ e)); [done|]. rewrite <- Z.pow_add_r by lia.
      by replace (53 - e - 1 + e) with 52 by lia.
    - apply (Z.mul_lt_mono_pos_r (2 ^ e)); [done|]. rewrite <- Z.pow_add_r by lia.
      by replace (53 - e + e) with 53 by lia. }
  unfold magnitude, mantissa. rewrite Hd. rewrite (proj2 (Z.leb_le _ _)) by lia.
  replace (53 - (53 - e)) with e by lia. lia.
Qed.
Lemma magnitude_strict_held a b : Zpos a < Zpos b → Zpos a ≤ 2 ^ 53 → held b → magnitude a < magnitude b.
Proof.
  intros Hab Ha Hb. destruct (Z.le_gt_cases (Zpos b) (2 ^ 53)) as [Hle|Hgt]; [by apply magnitude_strict|].
  destruct Hb as [|(q & k & Hk & Eb & Hq)]; [lia|]. rewrite (magnitude_held b q k) by done.
  pose proof (magnitude_mono a (2 ^ 53) Ha) as Hm. change (magnitude (2 ^ 53)) with (1075 * 2 ^ 52 + 2 ^ 52) in Hm.
  destruct (Z.eq_dec k 0) as [->|]; [rewrite Z.pow_0_r in Eb; lia|].
  destruct (Z.eq_dec k 1) as [->|]; [|lia]. change (2 ^ 1) with 2 in Eb. change (2 ^ 53) with (2 * 2 ^ 52) in Hgt. lia.
Qed.

Definition int_held (v : Z) : Prop := match v with Z0 => True | Zpos m | Zneg m => held m end.
Lemma int_key_strict_held c w :
  - 2 ^ 53 ≤ c ≤ 2 ^ 53 → - 2 ^ 63 ≤ w ≤ 2 ^ 63 → int_held w →
  (c < w → int_key c < int_key w) ∧ (w < c → int_key w < int_key c).
Proof.
  intros Hc Hw Hh. destruct c as [|c|c], w as [|w|w]; cbn [int_key int_held] in *; split; intros H; try lia;
    try (pose proof (magnitude_range c ltac:(lia))); try (pose proof (magnitude_range w ltac:(lia))); try lia.
  - by apply magnitude_strict_held; [lia..|].
  - apply magnitude_strict; lia.
  - apply Z.opp_lt_mono. rewrite !Z.opp_involutive. apply magnitude_strict; lia.
  - apply Z.opp_lt_mono. rewrite !Z.opp_involutive. by apply magnitude_strict_held; [lia..|].
Qed.
Lemma int_held_small v : - 2 ^ 53 ≤ v ≤ 2 ^ 53 → int_held v.
Proof. intros Hv. destruct v; cbn [int_held]; [done|left; lia..]. Qed.

(** Comparisons survive rounding next to an integer below 2^53. *)
Lemma int_key_cancel c v :
  - 2 ^ 63 ≤ c ≤ 2 ^ 63 → - 2 ^ 53 < v < 2 ^ 53 →
  (int_key c ≤ int_key v → c ≤ v) ∧ (int_key v ≤ int_key c → v ≤ c).
Proof.
  intros Hc Hv. split; intros H.
  - destruct (Z.le_gt_cases c v); [done|]. pose proof (int_key_strict v (v + 1)). pose proof (int_key_mono (v + 1) c). lia.
  - destruct (Z.le_gt_cases v c); [done|]. pose proof (int_key_strict (v - 1) v). pose proof (int_key_mono c (v - 1)). lia.
Qed.

Lemma f64_neg_key b : inU 64 b → f64_key (f64_neg b) = - f64_key b.
Proof.
  intros Hb. pose proof (f64_neg_in b Hb) as Hn. unfold f64_key. rewrite (f64_sign_spec _ Hn).
  pose proof (Z.mod_pos_bound b (2 ^ 63) ltac:(lia)) as Hm. rewrite (f64_neg_spec b Hb).
  destruct (f64_sign b); cbn [negb f64_sign_bit].
  - rewrite Z.add_0_l, (proj2 (Z.leb_gt _ _)), Z.mod_mod by lia. lia.
  - rewrite (proj2 (Z.leb_le _ _)) by lia. f_equal. symmetry. apply (Z.mod_unique _ _ 1); lia.
Qed.
