(* ===== verification/ZonePred.v ===== *)
(** * Package planner: pruning row groups by their zone maps ([planner/physical.go])

    [zonePredEval] answers, from a row group's statistics alone, whether the
    pushed-down predicate may hold in one of its rows.  A wrong "no" loses rows,
    so the theorem is that a row group answered "no" has no row in which the
    filter above the scan would be true. *)
From Stdlib Require Import ZArith Lia ZifyNat Ascii SpecFloat.
From stdpp Require Import base numbers list strings gmap.
From S2P Require Import Prelude Encoding Codec Float64 Schema Writer Reader Batch Scratch Lexer Strconv Ast Format ExprWalk VExpr VKernel VCase VExprSpec FloatInt Coerce ExecExpr BuildType.
#[local] Open Scope Z_scope.

(** [cmpOrdered], for the [<] of either type. *)
Definition cmpOrdered (lt : Z → Z → bool) (a b : Z) : Z :=
  if lt a b then -1 else if lt b a then 1 else 0.

(** [zoneLiteral] and [zoneDateLiteral]. *)
Inductive zoneNumber : Type := NumInt (v : Z) | NumFloat (f : Z).
Definition zoneLiteral (e : Ast.Expr) : option zoneNumber :=
  match foldConstant e with
  | IntLiteral v => Some (NumInt v)
  | FloatLiteral f => Some (NumFloat f)
  | _ => None
  end.
Definition zoneDateLiteral (e : Ast.Expr) : option Z :=
  match foldConstant e with
  | IntLiteral v => exactDateDays v
  | StringLiteral s => parseDateDays s
  | _ => None
  end.

(** [minCmp] and [maxCmp] of [zoneRangePred]: how the row group's bounds compare
    with the literal in the column's own domain; [None] where nothing is known. *)
Definition zoneBounds (t : DataType) (zm : ZoneMap) (lit : Ast.Expr) : option (Z * Z) :=
  match t with
  | TypeInt64 =>
      match zoneLiteral lit with
      | Some (NumInt lv) => Some (cmpOrdered Z.ltb (to_i64 (Min zm)) lv, cmpOrdered Z.ltb (to_i64 (Max zm)) lv)
      | Some (NumFloat lv) =>
          let lo := to_i64 (Min zm) in
          let hi := to_i64 (Max zm) in
          if f64_isNaN lv || negb (exactFloat lo) || negb (exactFloat hi) then None
          else Some (cmpOrdered f64_lt (f64_of_int lo) lv, cmpOrdered f64_lt (f64_of_int hi) lv)
      | None => None
      end
  | TypeFloat64 =>
      match zoneLiteral lit with
      | Some n =>
          let lv := match n with NumInt v => f64_of_int v | NumFloat f => f end in
          if f64_isNaN lv || f64_isNaN (Min zm) || f64_isNaN (Max zm) then None
          else Some (cmpOrdered f64_lt (Min zm) lv, cmpOrdered f64_lt (Max zm) lv)
      | None => None
      end
  | TypeDate =>
      match zoneDateLiteral lit with
      | Some days => Some (cmpOrdered Z.ltb (to_i32 (to_u32 (Min zm))) days, cmpOrdered Z.ltb (to_i32 (to_u32 (Max zm))) days)
      | None => None
      end
  | _ => None
  end.
(** May a value between the bounds satisfy the comparison? *)
Definition zoneTest (op : Ast.BinOp) (minCmp maxCmp : Z) : bool :=
  match op with
  | OpEQ => (minCmp <=? 0) && (0 <=? maxCmp)
  | OpLT => minCmp <? 0
  | OpLE => minCmp <=? 0
  | OpGT => 0 <? maxCmp
  | OpGE => 0 <=? maxCmp
  | _ => true
  end.
(** [literal OP col] read as [col OP' literal]. *)
Definition mirror (op : Ast.BinOp) : Ast.BinOp :=
  match op with OpLT => OpGT | OpLE => OpGE | OpGT => OpLT | OpGE => OpLE | op => op end.

Definition zoneRange (op : Ast.BinOp) (name : string) (lit : Ast.Expr) (schema : Schema) (rg : RowGroupMeta) : bool :=
  let colIdx := IndexOf schema name in
  if (colIdx <? 0) || (Z.of_nat (length (Columns rg)) <=? colIdx) then true else
  match Columns rg !! Z.to_nat colIdx, schema !! Z.to_nat colIdx with
  | Some m, Some f =>
      let zm := Stats m in
      if negb (HasMinMax zm) || bool_decide (op = OpNE) then true else
      match zoneBounds (Type_ f) zm lit with
      | Some (minCmp, maxCmp) => zoneTest op minCmp maxCmp
      | None => true
      end
  | _, _ => true
  end.
Definition zoneRangePred (op : Ast.BinOp) (left right : Ast.Expr) (schema : Schema) (rg : RowGroupMeta) : bool :=
  match left, right with
  | ColumnRefExpr _ name, lit => zoneRange op name lit schema rg
  | lit, ColumnRefExpr _ name => zoneRange (mirror op) name lit schema rg
  | _, _ => true
  end.

Fixpoint zonePredEval (e : Ast.Expr) (schema : Schema) (rg : RowGroupMeta) : bool :=
  match e with
  | BinaryExpr OpAnd l r => zonePredEval l schema rg && zonePredEval r schema rg
  | BinaryExpr OpOr l r => zonePredEval l schema rg || zonePredEval r schema rg
  | BinaryExpr ((OpEQ | OpNE | OpLT | OpLE | OpGT | OpGE) as op) l r => zoneRangePred op l r schema rg
  | Ast.BetweenExpr x lo hi false => zoneRangePred OpGE x lo schema rg && zoneRangePred OpLE x hi schema rg
  | _ => true
  end.
Definition buildZonePredicate (e : Ast.Expr) (schema : Schema) : RowGroupMeta → bool :=
  λ rg, zonePredEval e schema rg.

(** ** Exact conversions *)

(** The integer a normal positive float64 is. *)
Lemma normal_integer m e v :
  2 ^ 52 ≤ Zpos m < 2 ^ 53 →
  (if 0 <=? e then Some (Zpos m * 2 ^ e)
   else if Zpos m mod 2 ^ (- e) =? 0 then Some (Zpos m / 2 ^ (- e)) else None) = Some v →
  ∃ p, v = Zpos p ∧ magnitude p = (e + 1074) * 2 ^ 52 + Zpos m ∧ held p.
Proof.
  intros Hm. destruct (Z.leb_spec 0 e) as [He|He].
  - intros [= <-]. pose proof (Z.pow_pos_nonneg 2 e ltac:(lia) He).
    assert (Ep : Zpos (m * Z.to_pos (2 ^ e)) = Zpos m * 2 ^ e) by (rewrite Pos2Z.inj_mul, Z2Pos.id; lia).
    exists (m * Z.to_pos (2 ^ e))%positive. split; [done|]. split; [by apply magnitude_held|]. right. by exists (Zpos m), e.
  - destruct (Z.eqb_spec (Zpos m mod 2 ^ (- e)) 0) as [Hz|]; [|done]. intros [= <-].
    pose proof (Z.pow_pos_nonneg 2 (- e) ltac:(lia) ltac:(lia)) as Hp.
    pose proof (Z.div_mod (Zpos m) (2 ^ (- e)) ltac:(lia)) as Eq. rewrite Hz, Z.add_0_r in Eq.
    set (q := Zpos m / 2 ^ (- e)) in *. assert (Hq0 : 0 < q) by nia. exists (Z.to_pos q).
    assert (Eqp : Zpos (Z.to_pos q) = q) by by apply Z2Pos.id. split; [done|]. split.
    + rewrite (magnitude_scaled _ (- e)); rewrite ?Eqp; [|lia|nia]. nia.
    + left. rewrite Eqp. nia.
Qed.

(** An integer that [exactInt64] recovers from a float64 has the float's place in
    the order, and is one a float64 holds. *)
Lemma exactInt64_key f w :
  inU 64 f → exactInt64 f = Some w →
  inS 64 w ∧ f64_isNaN f = false ∧ f64_key f = int_key w ∧ int_held w.
Proof.
  intros Hf. unfold exactInt64. destruct (f64_integer f) as [v|] eqn:E; [|done]. cbn [mbind option_bind].
  destruct (_ || _) eqn:Er; [done|]. intros [= <-]. apply orb_false_iff in Er as [H1%Z.ltb_ge H2%Z.leb_gt].
  split; [unfold inS; change (64 - 1) with 63; lia|].
  destruct (f64_fields f Hf) as (Hm & He & Hk). unfold f64_integer in E. unfold f64_isNaN, f64_key. rewrite Hk.
  unfold f64_decode in E. clear Hk Hf H1 H2.
  destruct (Z.eqb_spec (f64_exp f) 2047); [by destruct (f64_man f =? 0)|]. split; [done|].
  destruct (Z.eqb_spec (f64_exp f) 0) as [->|Hex].
  - destruct (Z.eqb_spec (f64_man f) 0) as [->|Hma]; [injection E as <-; by destruct (f64_sign f)|]. exfalso.
    cbn [Z.leb Z.compare] in E. change (- -1074) with 1074 in E. rewrite Z2Pos.id in E by lia.
    rewrite Z.mod_small in E; [|split; [lia|]; pose proof (Z.pow_lt_mono_r 2 52 1074); lia].
    by rewrite (proj2 (Z.eqb_neq _ _)) in E.
  - assert (Hpos : Zpos (Z.to_pos (2 ^ 52 + f64_man f)) = 2 ^ 52 + f64_man f) by (rewrite Z2Pos.id; lia).
    destruct (if 0 <=? _ then _ else _) as [q|] eqn:Eq; [|done]. injection E as <-.
    destruct (normal_integer _ _ _ ltac:(rewrite Hpos; lia) Eq) as (p & -> & Hmag & Hh).
    rewrite Hpos in Hmag. replace (f64_exp f * 2 ^ 52 + f64_man f) with (magnitude p) by (rewrite Hmag; lia).
    by destruct (f64_sign f).
Qed.

(** ** The test is right about values between the bounds *)

Lemma order_core op k kc kv kmin kmax :
  sqlOpToExecOp op = Ret (k, false) → op ≠ OpNE → kmin ≤ kc ≤ kmax → cmpInt k kc kv = true →
  zoneTest op (cmpOrdered Z.ltb kmin kv) (cmpOrdered Z.ltb kmax kv) = true.
Proof.
  intros Hk Hne Hc Hcmp. unfold zoneTest, cmpOrdered.
  destruct op; try done; injection Hk as <-; cbn [cmpInt] in Hcmp;
    destruct (Z.ltb_spec kmin kv), (Z.ltb_spec kv kmin), (Z.ltb_spec kmax kv), (Z.ltb_spec kv kmax); try done; lia.
Qed.
Lemma cmpOrdered_float a b :
  inU 64 a → inU 64 b → f64_isNaN a = false → f64_isNaN b = false →
  cmpOrdered f64_lt a b = cmpOrdered Z.ltb (f64_key a) (f64_key b).
Proof.
  intros Ha Hb Na Nb. assert (E : ∀ x y, inU 64 x → inU 64 y → f64_isNaN x = false → f64_isNaN y = false →
    f64_lt x y = (f64_key x <? f64_key y)).
  { intros x y Hx Hy Nx Ny. apply eq_true_iff_eq. rewrite f64_lt_spec by done. rewrite Z.ltb_lt. naive_solver. }
  unfold cmpOrdered. by rewrite !E.
Qed.
Lemma cmpFloat64_keys k a b :
  inU 64 a → inU 64 b → is_cmp k = true → k ≠ BinNE → cmpFloat64 k a b = true →
  f64_isNaN a = false ∧ f64_isNaN b = false ∧ cmpInt k (f64_key a) (f64_key b) = true.
Proof.
  intros Ha Hb Hk Hne. destruct k; try done; cbn [cmpFloat64 cmpInt];
    rewrite ?f64_eq_spec, ?f64_lt_spec, ?f64_le_spec by done; intros (? & ? & ?); split_and!; try done; lia.
Qed.

(** What a constant beside a column is compared as, after coercion: how the
    column's value is converted, and the cell it meets. *)
Definition same_float (f f' : Z) : Prop :=
  inU 64 f ∧ inU 64 f' ∧ f64_isNaN f = f64_isNaN f' ∧ (f64_isNaN f = false → f64_key f = f64_key f').
Definition to_float (c : Cell) : Cell := match c with CInt v => CFloat (f64_of_int v) | c => c end.
Inductive compared_as : DataType → Ast.Expr → (Cell → Cell) → Cell → Prop :=
  | as_int lit v : zoneLiteral lit = Some (NumInt v) → compared_as TypeInt64 lit id (CInt v)
  | as_int_cast lit v :
      zoneLiteral lit = Some (NumInt v) → - 2 ^ 53 < v < 2 ^ 53 → compared_as TypeInt64 lit to_float (CFloat (f64_of_int v))
  | as_exact lit f w :
      zoneLiteral lit = Some (NumFloat f) → inU 64 f → exactInt64 f = Some w → compared_as TypeInt64 lit id (CInt w)
  | as_cast lit f f' :
      zoneLiteral lit = Some (NumFloat f) → same_float f f' → compared_as TypeInt64 lit to_float (CFloat f')
  | as_float_int lit v :
      zoneLiteral lit = Some (NumInt v) → inS 64 v → compared_as TypeFloat64 lit id (CFloat (f64_of_int v))
  | as_float lit f f' :
      zoneLiteral lit = Some (NumFloat f) → same_float f f' → compared_as TypeFloat64 lit id (CFloat f')
  | as_date lit d : zoneDateLiteral lit = Some d → compared_as TypeDate lit id (CDate d).

(** A cell of a column of type [t] within the column's zone map. *)
Definition in_zone (t : DataType) (zm : ZoneMap) (c : option Cell) : Prop :=
  HasMinMax zm = true →
  match c with
  | None => True
  | Some c =>
      match t, c with
      | TypeInt64, CInt v => to_i64 (Min zm) ≤ v ≤ to_i64 (Max zm)
      | TypeDate, CDate v => to_i32 (Min zm) ≤ v ≤ to_i32 (Max zm)
      | TypeFloat64, CFloat v =>
          inU 64 v ∧ inU 64 (Min zm) ∧ inU 64 (Max zm) ∧
          (f64_isNaN v = false → f64_isNaN (Min zm) = false → f64_key (Min zm) ≤ f64_key v) ∧
          (f64_isNaN v = false → f64_isNaN (Max zm) = false → f64_key v ≤ f64_key (Max zm))
      | (TypeInt64 | TypeDate | TypeFloat64), _ => False
      | _, _ => True
      end
  end.

Lemma f64_of_int_in v : inU 64 (f64_of_int v).
Proof. apply f64_encode_in. Qed.
Lemma to_i32_u32 z : to_i32 (to_u32 z) = to_i32 z.
Proof. unfold wrapS, wrapU. change (2 ^ (32 - 1)) with 2147483648. change (2 ^ 32) with 4294967296. by rewrite Zplus_mod_idemp_l. Qed.
Lemma i64_bounds z : - 2 ^ 63 ≤ to_i64 z ≤ 2 ^ 63.
Proof. pose proof (wrapS_in 64 z ltac:(lia)) as [H1 H2]. change (64 - 1) with 63 in *. lia. Qed.
Lemma cmp_op op k : sqlOpToExecOp op = Ret (k, false) → is_cmp k = true ∧ (op ≠ OpNE → k ≠ BinNE).
Proof. destruct op; intros [= <-]; done. Qed.

Lemma zone_core t lit conv c const op k zm minC maxC :
  compared_as t lit conv const → in_zone t zm (Some c) → HasMinMax zm = true →
  sqlOpToExecOp op = Ret (k, false) → op ≠ OpNE →
  bin_cell k (Some (conv c)) (Some const) = Some (CBool true) →
  zoneBounds t zm lit = Some (minC, maxC) → zoneTest op minC maxC = true.
Proof.
  intros Hc Hz Hm Hk Hop Hb. specialize (Hz Hm). destruct (cmp_op _ _ Hk) as [Hcmp Hne]. specialize (Hne Hop).
  pose proof (i64_bounds (Min zm)) as Hlo. pose proof (i64_bounds (Max zm)) as Hhi.
  destruct Hc as [lit v Hl|lit v Hl Hv|lit f w Hl Hf Hw|lit f f' Hl (Hf & Hf' & Hn & Hkey)|lit v Hl Hv|lit f f' Hl (Hf & Hf' & Hn & Hkey)|lit d Hl];
    cbn [zoneBounds in_zone] in *; rewrite Hl; destruct c as [x|x|x|x|x]; try done;
    cbn [bin_cell id to_float] in Hb; rewrite Hcmp in Hb; injection Hb as Hb.
  - intros [= <- <-]. by apply (order_core op k x v).
  - intros [= <- <-]. apply cmpFloat64_keys in Hb as (_ & _ & Hb); [|apply f64_of_int_in..|done|done].
    destruct (f64_of_int_key x) as [_ E]; [lia|]. rewrite E in Hb. destruct (f64_of_int_key v) as [_ E']; [lia|].
    rewrite E' in Hb. apply (order_core op k x v); [done..|]. destruct (int_key_cancel x v) as [H1 H2]; [lia|done|].
    assert (x = v → int_key x = int_key v) by by intros ->. destruct k; try done; cbn [cmpInt] in *; lia.
  - destruct (exactInt64_key f w Hf Hw) as (Hws & Hn & Ek & Hh). rewrite Hn. cbn [orb].
    destruct (exactFloat (to_i64 (Min zm))) eqn:E1, (exactFloat (to_i64 (Max zm))) eqn:E2; try done. cbn [negb orb].
    unfold exactFloat in E1, E2. intros [= <- <-].
    destruct (f64_of_int_key (to_i64 (Min zm))) as [Nlo Elo]; [lia|].
    destruct (f64_of_int_key (to_i64 (Max zm))) as [Nhi Ehi]; [lia|].
    rewrite !cmpOrdered_float by (done || apply f64_of_int_in). rewrite Elo, Ehi, Ek.
    apply (order_core op k (int_key x)); [done..| |].
    + split; apply int_key_mono; lia.
    + unfold inS in Hws. change (64 - 1) with 63 in *.
      destruct (int_key_strict_held x w) as [H1 H2]; [lia|lia|done|].
      pose proof (int_key_mono x w). pose proof (int_key_mono w x).
      assert (x = w → int_key x = int_key w) by by intros ->. destruct k; try done; cbn [cmpInt] in *; lia.
  - destruct (f64_isNaN f) eqn:N; [done|]. cbn [orb].
    destruct (exactFloat (to_i64 (Min zm))), (exactFloat (to_i64 (Max zm))); try done. intros [= <- <-].
    destruct (f64_of_int_key (to_i64 (Min zm))) as [Nlo Elo]; [lia|].
    destruct (f64_of_int_key (to_i64 (Max zm))) as [Nhi Ehi]; [lia|]. destruct (f64_of_int_key x) as [_ Ex]; [lia|].
    rewrite !cmpOrdered_float by (done || apply f64_of_int_in). rewrite Elo, Ehi, (Hkey eq_refl).
    apply cmpFloat64_keys in Hb as (_ & _ & Hb); [|apply f64_of_int_in|done..]. rewrite Ex in Hb.
    apply (order_core op k (int_key x)); [done..| |done]. split; apply int_key_mono; lia.
  - destruct Hz as (Hx & Hmn & Hmx & H1 & H2). destruct (f64_of_int_key v) as [Nv Ev];
      [unfold inS in Hv; change (64 - 1) with 63 in *; lia|]. rewrite Nv. cbn [orb].
    destruct (f64_isNaN (Min zm)) eqn:N1; [done|]. destruct (f64_isNaN (Max zm)) eqn:N2; [done|]. intros [= <- <-].
    rewrite !cmpOrdered_float by (done || apply f64_of_int_in).
    apply cmpFloat64_keys in Hb as (Nx & _ & Hb); [|done|apply f64_of_int_in|done..].
    apply (order_core op k (f64_key x)); auto.
  - destruct Hz as (Hx & Hmn & Hmx & H1 & H2). destruct (f64_isNaN f) eqn:N; [done|]. cbn [orb].
    destruct (f64_isNaN (Min zm)) eqn:N1; [done|]. destruct (f64_isNaN (Max zm)) eqn:N2; [done|]. intros [= <- <-].
    rewrite !cmpOrdered_float by done. rewrite (Hkey eq_refl).
    apply cmpFloat64_keys in Hb as (Nx & _ & Hb); [|done..]. apply (order_core op k (f64_key x)); auto.
  - intros [= <- <-]. rewrite !to_i32_u32. by apply (order_core op k x d).
Qed.

(** ** What the executor compares *)

(** An expression as name resolution leaves it: columns carry no qualifier; and
    literals are Go values, 64-bit integers and float64 patterns. *)
Definition resolved (e : Ast.Expr) : Prop :=
  Forall (λ n, match n with
    | ColumnRefExpr t _ => t = ""%string | IntLiteral v => inS 64 v | FloatLiteral f => inU 64 f | _ => True end) (walkExpr e).
Definition is_literal (e : Expr) : bool := match e with Literal _ _ => true | _ => false end.

(** A constant's expression evaluates to what [foldConstant] makes of it. *)
Definition constant (y : Expr) (c : Ast.Expr) : Prop :=
  match c with
  | IntLiteral v =>
      EType y = TypeInt64 ∧ inS 64 v ∧ (∀ r, row_eval r y = Some (CInt v)) ∧
      (y = Literal (CInt v) TypeInt64 ∨ is_literal y = false)
  | FloatLiteral f =>
      EType y = TypeFloat64 ∧ ∃ f', same_float f f' ∧ (∀ r, row_eval r y = Some (CFloat f')) ∧
      (f' = f ∧ y = Literal (CFloat f) TypeFloat64 ∨ is_literal y = false)
  | StringLiteral s => y = Literal (CStr s) TypeString
  | _ => True
  end.
Lemma fold_constant schema e y :
  resolved e → buildExecExpr e schema = Ret y → constant y (foldConstant e).
Proof.
  revert y. induction e using Expr_ast_ind; intros y Hl; try done; cbn [buildExecExpr foldConstant].
  - intros [= <-]. apply List.Forall_inv in Hl. cbn [constant EType]. auto.
  - intros [= <-]. apply List.Forall_inv in Hl. cbn [constant EType]. split; [done|]. exists v. unfold same_float. auto 10.
  - by intros [= <-].
  - destruct op; [done|]. apply List.Forall_inv_tail in Hl. destruct (buildExecExpr e schema) as [c| | |] eqn:E; try done.
    cbn [mbind go_bind]. specialize (IHe c Hl eq_refl). unfold buildNegation. intros Hy.
    destruct (foldConstant e) as [| |v|f| | | | | | | | | | | | | ] eqn:Ef; try done; cbn [constant] in IHe.
    + destruct (Z.eqb_spec v (- 2 ^ 63)) as [|Hv]; [done|]. destruct IHe as (Et & Hin & Hr & _). rewrite Et in Hy.
      injection Hy as <-. cbn [constant EType is_literal row_eval]. split; [done|].
      unfold inS in *. change (64 - 1) with 63 in *. split; [lia|]. split; [|by right]. intros r. rewrite Hr.
      cbn [bin_cell is_cmp]. rewrite bool_decide_false by done. cbn [andb applyArithInt64]. do 2 f_equal.
      rewrite wrapS_id; unfold inS; change (64 - 1) with 63; lia.
    + destruct IHe as (Et & f' & (Hf & Hf' & Hn & Hk) & Hr & _). rewrite Et in Hy. injection Hy as <-.
      cbn [constant EType is_literal]. split; [done|]. exists (f64_mul f' (f64_of_int (-1))). split; [|split; [|by right]].
      * split; [by apply f64_neg_in|]. split; [apply f64_encode_in|]. rewrite (f64_neg_nan f Hf), (f64_neg_key f Hf), Hn.
        destruct (f64_isNaN f') eqn:N.
        -- split; [|done]. apply f64_decode_nan in N; [|done]. unfold f64_mul. rewrite N.
           by destruct (f64_decode (f64_of_int (-1))).
        -- rewrite (f64_mul_neg_one f' Hf' N), (f64_neg_nan f' Hf'), (f64_neg_key f' Hf'), Hk by done. done.
      * intros r. cbn [row_eval]. rewrite Hr. cbn [bin_cell is_cmp]. by rewrite bool_decide_false.
Qed.

(** The pair of operands made of a column and a constant: the constant coerced
    to the column or not, and both cast to FLOAT64 or not. *)
Definition cast_if (b : bool) (e : Expr) : Expr := if b then castToFloat e else e.
Definition typed (t : DataType) (c : option Cell) : Prop := ∀ v, c = Some v → cell_type v = t.

Lemma pair_spec name idx t lit y y1 cast :
  constant y (foldConstant lit) → (y1 = y ∨ y1 = coerceOneSide (ColumnRef name idx t) y) →
  EType (cast_if cast (ColumnRef name idx t)) = EType (cast_if cast y1) →
  (cast = true → t = TypeInt64 → ∀ v, foldConstant lit = IntLiteral v → - 2 ^ 53 < v < 2 ^ 53) →
  (∀ zm, zoneBounds t zm lit = None) ∨
  ∃ conv const, compared_as t lit conv const ∧
    ∀ r, typed t (row_eval r (ColumnRef name idx t)) →
      row_eval r (cast_if cast (ColumnRef name idx t)) = conv <$> row_eval r (ColumnRef name idx t) ∧
      row_eval r (cast_if cast y1) = Some const.
Proof.
  set (col := ColumnRef name idx t). intros Hc Hy1 Et Hs.
  assert (Hcast : ∀ r, t = TypeInt64 → typed t (row_eval r col) →
    row_eval r (CastIntToFloatExpr col) = to_float <$> row_eval r col).
  { intros r -> Ht. change (row_eval r (CastIntToFloatExpr col))
      with (match row_eval r col with Some (CInt z) => Some (CFloat (f64_of_int z)) | _ => None end).
    destruct (row_eval r col) as [c|]; [|done]. specialize (Ht c eq_refl). by destruct c. }
  assert (Hid : ∀ o : option Cell, o = id <$> o) by by intros [].
  destruct t; try (by left); unfold zoneBounds.
  - (* INT64 *)
    unfold zoneLiteral. destruct (foldConstant lit) as [| |v|f| | | | | | | | | | | | | ] eqn:Ef; try (by left); cbn [constant] in Hc; right.
    + destruct Hc as (Ety & Hin & Hr & Hlit).
      assert (y1 = y) as ->. { destruct Hy1 as [->| ->]; [done|]. by destruct Hlit as [->|]; [|destruct y]. }
      destruct cast; cbn [cast_if] in *.
      * exists to_float, (CFloat (f64_of_int v)). split; [apply as_int_cast; [unfold zoneLiteral; by rewrite Ef|by apply Hs]|].
        intros r Ht. split; [by apply Hcast|]. unfold castToFloat. rewrite decide_True by done.
        destruct Hlit as [->|Hlit]; [done|]. destruct y; try done; cbn [row_eval] in Hr |- *; by rewrite Hr.
      * exists id, (CInt v). split; [apply as_int; unfold zoneLiteral; by rewrite Ef|]. auto.
    + destruct Hc as (Ety & f' & Hsame & Hr & Hlit).
      assert (y1 = y ∨ ∃ w, exactInt64 f = Some w ∧ y1 = Literal (CInt w) TypeInt64) as [->|(w & Ew & ->)].
      { destruct Hy1 as [->|E]; [by left|]. destruct Hlit as [[-> ->]|]; [|left; by destruct y].
        cbn [coerceOneSide EType col] in E. destruct (exactInt64 f) as [w|]; [right; by exists w|by left]. }
      * destruct cast; cbn [cast_if] in *; [|by rewrite Ety in Et].
        exists to_float, (CFloat f'). split; [apply (as_cast lit f); [unfold zoneLiteral; by rewrite Ef|done]|].
        intros r Ht. split; [by apply Hcast|]. unfold castToFloat. by rewrite decide_False by congruence.
      * destruct Hsame as (Hf & _). destruct (exactInt64_key f w Hf Ew) as (Hw & Nf & Kf & _). destruct cast; cbn [cast_if] in *.
        -- exists to_float, (CFloat (f64_of_int w)). split; [|intros r Ht; split; [by apply Hcast|done]].
           apply (as_cast lit f); [unfold zoneLiteral; by rewrite Ef|]. unfold inS in Hw. change (64 - 1) with 63 in Hw.
           destruct (f64_of_int_key w) as [N K]; [lia|]. split; [done|]. split; [apply f64_of_int_in|]. by rewrite N, K.
        -- exists id, (CInt w). split; [apply (as_exact lit f); [unfold zoneLiteral; by rewrite Ef|done|done]|]. auto.
  - (* FLOAT64 *)
    assert (Ecol : cast_if cast col = col) by by destruct cast.
    rewrite Ecol in *. unfold zoneLiteral. destruct (foldConstant lit) as [| |v|f| | | | | | | | | | | | | ] eqn:Ef;
      try (by left); cbn [constant] in Hc; right.
    + destruct Hc as (Ety & Hin & Hr & Hlit). exists id, (CFloat (f64_of_int v)).
      split; [apply as_float_int; [unfold zoneLiteral; by rewrite Ef|done]|]. intros r _. split; [auto|].
      destruct Hy1 as [->| ->].
      * destruct cast; cbn [cast_if] in *; [|by rewrite Ety in Et].
        unfold castToFloat. rewrite decide_True by done. destruct Hlit as [->|Hlit]; [done|].
        destruct y; try done; cbn [row_eval] in Hr |- *; by rewrite Hr.
      * destruct Hlit as [->|Hlit]; [by destruct cast|].
        assert (Ey : coerceOneSide col y = y) by by destruct y. rewrite Ey in *.
        destruct cast; cbn [cast_if] in *; [|by rewrite Ety in Et].
        unfold castToFloat. rewrite decide_True by done. destruct y; try done; cbn [row_eval] in Hr |- *; by rewrite Hr.
    + destruct Hc as (Ety & f' & Hsame & Hr & Hlit). exists id, (CFloat f').
      split; [apply (as_float lit f); [unfold zoneLiteral; by rewrite Ef|done]|]. intros r _. split; [auto|].
      assert (y1 = y) as ->. { destruct Hy1 as [->| ->]; [done|]. by destruct Hlit as [[-> ->]|]; [|destruct y]. }
      destruct cast; cbn [cast_if]; [|done]. unfold castToFloat. by rewrite decide_False by congruence.
  - (* DATE *)
    assert (Ecol : cast_if cast col = col) by by destruct cast. rewrite Ecol in *.
    assert (Hdate : ∀ d, y1 = Literal (CDate d) TypeDate → zoneDateLiteral lit = Some d →
      ∃ conv const, compared_as TypeDate lit conv const ∧ ∀ r, typed TypeDate (row_eval r col) →
        row_eval r col = conv <$> row_eval r col ∧ row_eval r (cast_if cast y1) = Some const).
    { intros d -> Hd. exists id, (CDate d). split; [by apply as_date|]. intros r _. split; [auto|]. by destruct cast. }
    assert (Hty : EType (cast_if cast y1) ≠ TypeDate → False) by by (intros H; apply H).
    unfold zoneDateLiteral in *. destruct (foldConstant lit) as [| |v| |s| | | | | | | | | | | | ] eqn:Ef;
      try (by left); cbn [constant] in Hc.
    + destruct (exactDateDays v) as [d|] eqn:Ed; [right|by left]. destruct Hc as (Ety & Hin & Hr & Hlit).
      destruct Hlit as [->|Hlit].
      * destruct Hy1 as [->| ->]; [by destruct cast|]. cbn [coerceOneSide EType col]. cbn [coerceOneSide EType col] in Hdate.
        rewrite Ed in *. by apply (Hdate d).
      * exfalso. assert (y1 = y) as -> by (destruct Hy1 as [->| ->]; [done|by destruct y]). apply Hty.
        destruct cast; cbn [cast_if]; [|congruence]. unfold castToFloat. rewrite decide_True by done. by destruct y.
    + destruct (parseDateDays s) as [d|] eqn:Ed; [right|by left]. subst y.
      destruct Hy1 as [->| ->]; [by destruct cast|]. cbn [coerceOneSide EType col]. cbn [coerceOneSide EType col] in Hdate.
      rewrite Ed in *. by apply (Hdate d).
Qed.

Lemma comparableOperands_cast l r a b :
  comparableOperands l r = Ret (a, b) →
  ∃ cast, a = cast_if cast l ∧ b = cast_if cast r ∧ EType a = EType b ∧ (cast = true → EType l ≠ EType r).
Proof.
  intros H. destruct (comparableOperands_inv _ _ _ _ H) as (Et & _ & [[-> ->]|(-> & -> & Hne)]); [by exists false|by exists true].
Qed.
Lemma buildColumn_inv schema table name x :
  buildColumn schema table name = Ret x → ∃ idx t, x = ColumnRef name idx t.
Proof.
  unfold buildColumn. case_match; [done|]. destruct (index _ _) as [f| | |]; try done. cbn [mbind go_bind]. intros [= <-]. eauto.
Qed.

(** Swapping the operands of a comparison. *)
Lemma f64_eq_sym a b : f64_eq a b = f64_eq b a.
Proof.
  unfold f64_eq, SFeqb. generalize (f64_decode a) (f64_decode b). intros x y.
  destruct x as [s|s| |s m e], y as [s'|s'| |s' m' e']; try done; unfold SFcompare; try (by destruct s, s'); try (by destruct s); try (by destruct s').
  rewrite !pos_compare_cont_Eq, (Z.compare_antisym e e'), (Z.compare_antisym (Zpos m) (Zpos m')).
  destruct s, s'; try done; destruct (e ?= e'); try done; by destruct (Zpos m ?= Zpos m').
Qed.
Lemma bin_cell_mirror op k a b :
  sqlOpToExecOp op = Ret (k, false) →
  ∃ k', sqlOpToExecOp (mirror op) = Ret (k', false) ∧ bin_cell k a b = bin_cell k' b a.
Proof.
  assert (Hgt : ∀ x y : Z, (x >? y) = (y <? x)) by (intros; lia).
  assert (Hge : ∀ x y : Z, (x >=? y) = (y <=? x)) by (intros; lia).
  destruct op; intros [= <-]; cbn [mirror sqlOpToExecOp]; eexists; (split; [done|]);
    destruct a as [[]|], b as [[]|]; try done; cbn [bin_cell is_cmp]; do 2 f_equal; cbn [cmpInt cmpFloat64];
    rewrite ?Hgt, ?Hge; try done; try apply Z.eqb_sym; try (f_equal; apply Z.eqb_sym);
    try apply f64_eq_sym; try (f_equal; apply f64_eq_sym).
Qed.

(** An INT64 column between an integer and a float bound is compared as FLOAT64
    by the executor and as INT64 by the zone map; next to an integer below 2^53
    the two agree, further out they need not ([between_prunes_a_match]). *)
Definition small (e : Ast.Expr) : bool :=
  match foldConstant e with IntLiteral v => (- 2 ^ 53 <? v) && (v <? 2 ^ 53) | _ => true end.
Definition is_integer (e : Ast.Expr) : bool := match foldConstant e with IntLiteral _ => true | _ => false end.
Fixpoint zone_exact (e : Ast.Expr) : bool :=
  match e with
  | BinaryExpr (OpAnd | OpOr) l r => zone_exact l && zone_exact r
  | Ast.BetweenExpr x lo hi false => (small x && small lo && small hi) || (is_integer lo && is_integer hi)
  | _ => true
  end.

(** ** Row groups answered "no" *)

Section Sound.
Context (schema s' : Schema) (rg : RowGroupMeta) (r : Row).

(** The row comes from the row group: every column of the query reads a cell of
    the file column of its name, within that column's zone map. *)
Definition from_group : Prop :=
  ∀ name x f m, buildColumn s' "" name = Ret x → 0 ≤ IndexOf schema name →
    schema !! Z.to_nat (IndexOf schema name) = Some f → Columns rg !! Z.to_nat (IndexOf schema name) = Some m →
    EType x = Type_ f ∧ typed (Type_ f) (row_eval r x) ∧ in_zone (Type_ f) (Stats m) (row_eval r x).
Hypothesis Hrow : from_group.

Lemma zoneRange_sound op k name lit y y1 cast col :
  sqlOpToExecOp op = Ret (k, false) → buildColumn s' "" name = Ret col →
  constant y (foldConstant lit) → (y1 = y ∨ y1 = coerceOneSide col y) →
  EType (cast_if cast col) = EType (cast_if cast y1) →
  (cast = true → EType col = TypeInt64 → ∀ v, foldConstant lit = IntLiteral v → - 2 ^ 53 < v < 2 ^ 53) →
  zoneRange op name lit schema rg = false →
  bin_cell k (row_eval r (cast_if cast col)) (row_eval r (cast_if cast y1)) ≠ Some (CBool true).
Proof using Hrow.
  intros Hk Hcol Hc Hy1 Et Hs Hz Hb. unfold zoneRange in Hz.
  destruct (_ || _) eqn:Ei in Hz; [done|]. apply orb_false_iff in Ei as [Ei _].
  destruct (Columns rg !! _) as [m|] eqn:Em; [|done]. destruct (schema !! _) as [f|] eqn:Ef; [|done].
  destruct (HasMinMax (Stats m)) eqn:Hm; [|done]. cbn [negb orb] in Hz.
  destruct (bool_decide (op = OpNE)) eqn:Hne; [done|]. apply bool_decide_eq_false in Hne.
  destruct (zoneBounds (Type_ f) (Stats m) lit) as [[minC maxC]|] eqn:Eb; [|done].
  destruct (Hrow name col f m Hcol) as (Ety & Htyped & Hin); [lia|done..|].
  destruct (buildColumn_inv _ _ _ _ Hcol) as (idx & t & ->). cbn [EType] in Ety. subst t.
  destruct (pair_spec name idx (Type_ f) lit y y1 cast Hc Hy1 Et Hs) as [Hn|(conv & const & Has & Hr)].
  { by rewrite Hn in Eb. }
  destruct (Hr r Htyped) as [E1 E2]. rewrite E1, E2 in Hb.
  destruct (row_eval r (ColumnRef name idx (Type_ f))) as [c|]; [|done]. cbn [fmap option_fmap option_map] in Hb.
  assert (Ht : zoneTest op minC maxC = true) by by eapply zone_core. congruence.
Qed.

(** A comparison of [l] and [rt], either of which may be the column. *)
Definition is_col (e : Expr) : bool := match e with ColumnRef _ _ _ => true | _ => false end.
Lemma zoneRangePred_sound op k l rt a b y1 y2 cast :
  sqlOpToExecOp op = Ret (k, false) → resolved l → resolved rt →
  buildExecExpr l s' = Ret a → buildExecExpr rt s' = Ret b →
  (y1 = a ∨ ∃ z, y1 = coerceOneSide z a ∧ (is_col b = true → z = b)) → (y2 = b ∨ y2 = coerceOneSide a b) →
  EType (cast_if cast y1) = EType (cast_if cast y2) →
  (cast = true → EType a = TypeInt64 → EType b = TypeInt64 →
   ∀ e v, e ∈ [l; rt] → foldConstant e = IntLiteral v → - 2 ^ 53 < v < 2 ^ 53) →
  zoneRangePred op l rt schema rg = false →
  bin_cell k (row_eval r (cast_if cast y1)) (row_eval r (cast_if cast y2)) ≠ Some (CBool true).
Proof using Hrow.
  intros Hk Hl Hr Ha Hb Hy1 Hy2 Et Hs Hz. unfold zoneRangePred in Hz.
  assert (Hcol : ∀ table name x y, buildExecExpr (ColumnRefExpr table name) s' = Ret x → coerceOneSide y x = x).
  { intros table name x y E. destruct (buildColumn_inv _ _ _ _ E) as (idx & t & ->). unfold coerceOneSide. by destruct (EType y). }
  assert (Hleft : ∀ table name, l = ColumnRefExpr table name → zoneRange op name rt schema rg = false →
    bin_cell k (row_eval r (cast_if cast y1)) (row_eval r (cast_if cast y2)) ≠ Some (CBool true)).
  { intros table name -> Hz'. assert (y1 = a) as -> by (destruct Hy1 as [->|(z & -> & _)]; [done|by rewrite (Hcol table name a z Ha)]).
    assert (table = ""%string) as -> by apply (List.Forall_inv Hl).
    eapply (zoneRange_sound op k name rt b y2 cast); try done; [by eapply fold_constant|].
    intros Hc Hi v Hv. pose proof (fold_constant _ _ _ Hr Hb) as Hcb. rewrite Hv in Hcb. destruct Hcb as [Hib _].
    eapply Hs; [done..| |done]. right. left. }
  assert (Hright : ∀ table name, rt = ColumnRefExpr table name → zoneRange (mirror op) name l schema rg = false →
    bin_cell k (row_eval r (cast_if cast y1)) (row_eval r (cast_if cast y2)) ≠ Some (CBool true)).
  { intros table name -> Hz'. assert (y2 = b) as -> by (destruct Hy2 as [->|E]; [done|by rewrite (Hcol table name b a Hb) in E]).
    destruct (bin_cell_mirror op k (row_eval r (cast_if cast y1)) (row_eval r (cast_if cast b)) Hk) as (k' & Hk' & ->).
    assert (table = ""%string) as -> by apply (List.Forall_inv Hr).
    eapply (zoneRange_sound (mirror op) k' name l a y1 cast); try done; [by eapply fold_constant| |].
    { destruct Hy1 as [|(z & -> & Hz1)]; [by left|right]. destruct (buildColumn_inv _ _ _ _ Hb) as (idx & t & ->).
      by rewrite (Hz1 eq_refl). }
    intros Hc Hi v Hv. pose proof (fold_constant _ _ _ Hl Ha) as Hca. rewrite Hv in Hca. destruct Hca as [Hia _].
    eapply Hs; [done..| |done]. left. }
  destruct l; [by eapply Hleft|..]; (destruct rt; try done; by eapply Hright).
Qed.

(** STRING columns are never pruned on. *)
Lemma zoneRange_string op name lit col :
  buildColumn s' "" name = Ret col → EType col = TypeString → zoneRange op name lit schema rg = true.
Proof using Hrow.
  intros Hcol Et. unfold zoneRange. destruct (_ || _) eqn:Ei; [done|]. apply orb_false_iff in Ei as [Ei _].
  destruct (Columns rg !! _) as [m|] eqn:Em; [|done]. destruct (schema !! _) as [f|] eqn:Ef; [|done].
  destruct (Hrow name col f m Hcol) as (<- & _); [lia|done..|]. rewrite Et. by destruct (_ || _).
Qed.

Lemma coerce_int_int a b : EType a = TypeInt64 → EType b = TypeInt64 → coerceOneSide a b = b.
Proof using Type.
  intros Ha Hb. unfold coerceOneSide. rewrite Ha. destruct b as [|c t| | | | | | | | | | | | ]; try done.
  cbn [EType] in Hb. subst t. by destruct c.
Qed.
Lemma coercePair_sides a b :
  let '(y1, y2) := coercePair a b in
  (y1 = a ∨ ∃ z, y1 = coerceOneSide z a ∧ (is_col b = true → z = b)) ∧ (y2 = b ∨ y2 = coerceOneSide a b) ∧
  (EType a = TypeInt64 → EType b = TypeInt64 → y1 = a ∧ y2 = b).
Proof using Type.
  unfold coercePair. split_and!; [right|by right|].
  - eexists. split; [done|]. intros Hb. unfold coerceOneSide. by destruct (EType a), b.
  - intros Ha Hb. rewrite (coerce_int_int a b Ha Hb). by rewrite coerce_int_int.
Qed.

Lemma compare_sound op l rt a b x :
  match op with OpAnd | OpOr | OpAdd | OpSub | OpMul | OpDiv => False | _ => True end →
  resolved l → resolved rt → buildExecExpr l s' = Ret a → buildExecExpr rt s' = Ret b →
  buildBinary op a b = Ret x → zoneRangePred op l rt schema rg = false → tri (row_eval r x) ≠ Some true.
Proof using Hrow.
  intros Hop Hl Hr Ha Hb Hx Hz. unfold buildBinary in Hx. pose proof (coercePair_sides a b) as Hc.
  destruct (coercePair a b) as [y1 y2]. destruct Hc as (Hy1 & Hy2 & Hint).
  destruct (stringEq op y1 y2) as [e|] eqn:Es.
  - exfalso. unfold stringEq in Es. destruct (_ && _) eqn:E in Es; [|done].
    apply andb_true_iff in E as [[_ E1%bool_decide_eq_true]%andb_true_iff E2%bool_decide_eq_true].
    assert (Hno : ∀ z c table name, buildExecExpr (ColumnRefExpr table name) s' = Ret c → coerceOneSide z c = c).
    { intros z c table name E. destruct (buildColumn_inv _ _ _ _ E) as (idx & t & ->). unfold coerceOneSide. by destruct (EType z). }
    assert (Hleft : ∀ table name, l = ColumnRefExpr table name → zoneRange op name rt schema rg = false → False).
    { intros table name -> Hz'. assert (y1 = a) as -> by (destruct Hy1 as [|(z & -> & _)]; [done|by eapply Hno]).
      assert (table = ""%string) as -> by apply (List.Forall_inv Hl).
      by rewrite (zoneRange_string op name rt a Ha E1) in Hz'. }
    assert (Hright : ∀ table name, rt = ColumnRefExpr table name → zoneRange (mirror op) name l schema rg = false → False).
    { intros table name -> Hz'. assert (y2 = b) as -> by (destruct Hy2 as [| ->]; [done|by eapply Hno]).
      assert (table = ""%string) as -> by apply (List.Forall_inv Hr).
      by rewrite (zoneRange_string (mirror op) name l b Hb E2) in Hz'. }
    unfold zoneRangePred in Hz. destruct l; [by eapply Hleft|..]; (destruct rt; try done; by eapply Hright).
  - destruct (sqlOpToExecOp op) as [[k isArith]| | |] eqn:Ek; try done. cbn [mbind go_bind] in Hx.
    assert (isArith = false) as -> by (destruct op; try done; by injection Ek as _ <-).
    destruct (comparableOperands y1 y2) as [[a' b']| | |] eqn:Ec; try done. cbn [mbind go_bind] in Hx. injection Hx as <-.
    destruct (comparableOperands_cast _ _ _ _ Ec) as (cast & -> & -> & Et & Hne). cbn [row_eval].
    assert (Hb' : bin_cell k (row_eval r (cast_if cast y1)) (row_eval r (cast_if cast y2)) ≠ Some (CBool true)).
    { eapply (zoneRangePred_sound op k l rt a b y1 y2 cast); try done. intros Hcast Ha' Hb' e v He Hv. exfalso.
      destruct (Hint Ha' Hb') as [-> ->]. apply (Hne Hcast). congruence. }
    destruct (bin_cell k _ _) as [[| |[]| |]|]; naive_solver.
Qed.
Lemma small_spec e v : small e = true → foldConstant e = IntLiteral v → - 2 ^ 53 < v < 2 ^ 53.
Proof using Type. unfold small. intros H E. rewrite E in H. lia. Qed.

Lemma castThree_flag x lo hi :
  ∃ cast, castThree x lo hi = (cast_if cast x, cast_if cast lo, cast_if cast hi) ∧
    (cast = true → EType x = TypeFloat64 ∨ EType lo = TypeFloat64 ∨ EType hi = TypeFloat64).
Proof using Type.
  unfold castThree. destruct (_ || _) eqn:E; [exists true|by exists false]. split; [done|]. intros _.
  rewrite !orb_true_iff, !bool_decide_eq_true in E. tauto.
Qed.

Lemma between_sound x lo hi a b c y :
  resolved x → resolved lo → resolved hi → zone_exact (Ast.BetweenExpr x lo hi false) = true →
  buildExecExpr x s' = Ret a → buildExecExpr lo s' = Ret b → buildExecExpr hi s' = Ret c →
  buildBetween a b c false = Ret y →
  zoneRangePred OpGE x lo schema rg && zoneRangePred OpLE x hi schema rg = false →
  tri (row_eval r y) ≠ Some true.
Proof using Hrow.
  intros Hx Hlo Hhi He Ha Hb Hc Hy Hz. unfold buildBetween in Hy.
  destruct (castThree_flag a (coerceOneSide a b) (coerceOneSide a c)) as (cast & Ecast & Hcast).
  pose proof (castThree_unmixed [] a (coerceOneSide a b) (coerceOneSide a c)) as Hun. rewrite Ecast in Hy, Hun.
  destruct Hun as (Hu1 & Hu2 & _).
  destruct (comparableOperands _ (cast_if cast (coerceOneSide a b))) as [[? ?]| | |] eqn:E1; try done.
  destruct (comparableOperands _ (cast_if cast (coerceOneSide a c))) as [[? ?]| | |] eqn:E2; try done.
  cbn [mbind go_bind negateIf] in Hy. injection Hy as <-.
  destruct (comparableOperands_fixed _ _ _ _ E1 Hu1) as [Et1 _], (comparableOperands_fixed _ _ _ _ E2 Hu2) as [Et2 _].
  assert (Hside : cast = true → EType a = TypeInt64 → ∀ e v, e ∈ [x; lo; hi] → foldConstant e = IntLiteral v → - 2 ^ 53 < v < 2 ^ 53).
  { intros Hc' Hi e' v Hin Hv. cbn [zone_exact] in He.
    destruct (small x && small lo && small hi) eqn:Es.
    - apply andb_true_iff in Es as [[? ?]%andb_true_iff ?]. apply (small_spec e'); [|done].
      repeat (apply elem_of_cons in Hin as [->|Hin]; [done|]). by apply elem_of_nil in Hin.
    - cbn [orb] in He. unfold is_integer in He. pose proof (fold_constant _ _ _ Hlo Hb) as Hcb.
      pose proof (fold_constant _ _ _ Hhi Hc) as Hcc. apply andb_true_iff in He as [He1 He2].
      destruct (foldConstant lo); try done. destruct (foldConstant hi); try done.
      destruct Hcb as [Hib _], Hcc as [Hic _]. rewrite !coerce_int_int in Hcast by done.
      exfalso. destruct (Hcast Hc') as [H|[H|H]]; congruence. }
  intros Htrue. cbn [row_eval] in Htrue.
  destruct (and3 _ _) as [[]|] eqn:Ea; try done.
  assert (Hboth : bin_cell BinGE (row_eval r (cast_if cast a)) (row_eval r (cast_if cast (coerceOneSide a b))) = Some (CBool true) ∧
    bin_cell BinLE (row_eval r (cast_if cast a)) (row_eval r (cast_if cast (coerceOneSide a c))) = Some (CBool true)).
  { destruct (bin_cell BinGE _ _) as [[| |[]| |]|], (bin_cell BinLE _ _) as [[| |[]| |]|]; done. }
  destruct Hboth as [Hge Hle]. apply andb_false_iff in Hz as [Hz|Hz].
  - revert Hge. eapply (zoneRangePred_sound OpGE BinGE x lo a b a _ cast); try done; [by left|by right|].
    intros H1 H2 _ e' v Hin. apply Hside; [done..|]. set_solver.
  - revert Hle. eapply (zoneRangePred_sound OpLE BinLE x hi a c a _ cast); try done; [by left|by right|].
    intros H1 H2 _ e' v Hin. apply Hside; [done..|]. set_solver.
Qed.

Lemma resolved_binary op l rt : resolved (BinaryExpr op l rt) → resolved l ∧ resolved rt.
Proof using Type. intros H%List.Forall_inv_tail. by apply Forall_app in H. Qed.

(** The predicate is not true in a row of a row group answered "no". *)
Lemma zonePredEval_false e x :
  resolved e → zone_exact e = true → buildExecExpr e s' = Ret x → zonePredEval e schema rg = false →
  tri (row_eval r x) ≠ Some true.
Proof using Hrow.
  revert x. induction e using Expr_ast_ind; intros x Hl He Hx Hz; try done; cbn [buildExecExpr zonePredEval] in *.
  - destruct (resolved_binary _ _ _ Hl) as [Hl1 Hl2]. unfold buildBinExpr in Hx.
    destruct (buildExecExpr e1 s') as [a| | |] eqn:Ea; try done.
    destruct (buildExecExpr e2 s') as [b| | |] eqn:Eb; try done. cbn [mbind go_bind] in Hx.
    destruct op; try done; try (match type of Hx with buildBinary ?o _ _ = _ => by apply (compare_sound o e1 e2 a b) end); injection Hx as <-; cbn [row_eval map foldl zone_exact] in *;
      apply andb_true_iff in He as [He1 He2].
    + assert (tri (row_eval r a) ≠ Some true ∨ tri (row_eval r b) ≠ Some true) as Hno.
      { apply andb_false_iff in Hz as [Hz|Hz]; [left; by apply IHe1|right; by apply IHe2]. }
      destruct (tri (row_eval r a)) as [[]|], (tri (row_eval r b)) as [[]|]; naive_solver.
    + apply orb_false_iff in Hz as [Hz1 Hz2]. pose proof (IHe1 a Hl1 He1 eq_refl Hz1). pose proof (IHe2 b Hl2 He2 eq_refl Hz2).
      destruct (tri (row_eval r a)) as [[]|], (tri (row_eval r b)) as [[]|]; naive_solver.
  - destruct n; [done|]. apply List.Forall_inv_tail in Hl. rewrite !Forall_app in Hl. destruct Hl as (Hl1 & Hl2 & Hl3).
    destruct (buildExecExpr e1 s') as [a| | |] eqn:Ea; try done.
    destruct (buildExecExpr e2 s') as [b| | |] eqn:Eb; try done.
    destruct (buildExecExpr e3 s') as [c| | |] eqn:Ec; try done. cbn [mbind go_bind] in Hx.
    by eapply (between_sound e1 e2 e3 a b c).
Qed.
End Sound.

(** [id BETWEEN 9007199254740993 AND 1e19]: the executor finds the row
    9007199254740992, which rounding makes equal to the lower bound; the zone map
    of that very row answers "no". *)
Example between_prunes_a_match :
  let schema := [mkField "id" TypeInt64 EncPlain false] in
  let rg := mkRowGroupMeta 4 1 [mkColumnSectionMeta 4 0 (mkZoneMap 0 (2 ^ 53) (2 ^ 53) (2 ^ 53) true) 0 0] in
  let e := Ast.BetweenExpr (ColumnRefExpr "" "id") (IntLiteral (2 ^ 53 + 1)) (FloatLiteral (f64_of_int (10 ^ 19))) false in
  zonePredEval e schema rg = false ∧
  ∃ x, buildExecExpr e schema = Ret x ∧ row_eval (mkRow [Some (CInt (2 ^ 53))] (λ _, None)) x = Some (CBool true).
Proof. cbv zeta. split; [vm_compute; reflexivity|]. eexists. split; [vm_compute; reflexivity|]. vm_compute; reflexivity. Qed.
