(* ===== verification/Logical.v ===== *)
(** * Package planner: logical plans ([planner/logical.go])

    The nodes, the columns each produces, and the opening of a scan.  A slice
    whose nil and empty values the code treats alike is a list; Go's map of
    renamed columns is nil ([None]) when no column was renamed. *)
From Stdlib Require Import ZArith Lia ZifyNat Ascii.
From stdpp Require Import base numbers list strings gmap.
From S2P Require Import Prelude Encoding Codec Float64 Schema Writer Reader Volume Batch Scratch Scan Lexer Strconv Ast Parser Format ExprWalk.
#[local] Open Scope Z_scope.

Record LogicalScan : Type := mkScan {
  TableName : string;
  FilePath : string;
  ls_Schema : Schema;
  ls_Predicate : option Ast.Expr;
  NeededCols : list string;
  SourceNames : option (gmap string string)
}.
Record ProjectItem : Type := mkItem { pi_Alias : string; pi_Expr : Ast.Expr; pi_Type : DataType }.
Record AggItem : Type := mkAggItem {
  ai_Func : string; ai_ColName : string; ai_AggExpr : option Ast.Expr; ai_Alias : string; ai_Distinct : bool
}.
Inductive LogicalNode : Type :=
  | LScan (s : LogicalScan)
  | LFilter (Child : LogicalNode) (Predicate : Ast.Expr)
  | LProject (Child : LogicalNode) (Exprs : list ProjectItem)
  | LAggregate (Child : LogicalNode) (GroupBy : list Ast.Expr) (Aggs : list AggItem)
  | LSort (Child : LogicalNode) (OrderBy : list Ast.OrderByItem)
  | LLimit (Child : LogicalNode) (Count Offset : Z)
  | LJoin (Left Right : LogicalNode) (Condition : Ast.Expr)
  | LDistinct (Child : LogicalNode).

(** The zero [DataType], which no column has. *)
Abbreviation noType := (TypeOther 0).

(** The first field of that name. *)
Definition fieldNamed (fields : Schema) (name : string) : option Field :=
  snd <$> list_find (λ f, Name f = name) fields.

(** [exprName]. *)
Definition exprName (e : Ast.Expr) : string :=
  match e with
  | ColumnRefExpr _ n => n
  | StarExpr => "*"
  | AggFuncExpr f None _ => f
  | AggFuncExpr f (Some (ColumnRefExpr _ n)) _ => f +:+ "_" +:+ n
  | AggFuncExpr f (Some StarExpr) _ => f +:+ "_*"
  | _ => FormatExpr e
  end.

(** [resolveExprType] ([planner/build.go]). *)
Fixpoint resolveExprType (e : Ast.Expr) (schema : Schema) : DataType :=
  match e with
  | ColumnRefExpr _ n => match fieldNamed schema n with Some f => Type_ f | None => TypeInt64 end
  | IntLiteral _ => TypeInt64
  | FloatLiteral _ => TypeFloat64
  | StringLiteral _ => TypeString
  | BoolLiteral _ | IsNullExpr _ _ | BetweenExpr _ _ _ _ | InExpr _ _ _ | LikeExpr _ _ _ => TypeBool
  | UnaryExpr OpNot _ => TypeBool
  | UnaryExpr OpMinus x => resolveExprType x schema
  | BinaryExpr (OpAdd | OpSub | OpMul | OpDiv) l r =>
      let lt := resolveExprType l schema in
      let rt := resolveExprType r schema in
      if bool_decide (lt = TypeFloat64) || bool_decide (rt = TypeFloat64) then TypeFloat64 else lt
  | BinaryExpr _ _ _ => TypeBool
  | AggFuncExpr f arg _ =>
      if decide (f = "COUNT"%string) then TypeInt64 else if decide (f = "AVG"%string) then TypeFloat64 else
      match arg with Some x => resolveExprType x schema | None => TypeInt64 end
  | CaseExpr ws _ =>
      (fix first (ws : list WhenClause) : DataType :=
         match ws with
         | [] => TypeInt64
         | mkWhen _ x :: ws =>
             let t := resolveExprType x schema in if decide (t = noType) then first ws else t
         end) ws
  | _ => TypeInt64
  end.

(** The type of an aggregate's output column. *)
Definition aggType (agg : AggItem) (childSchema : Schema) : DataType :=
  if decide (ai_Func agg = "COUNT"%string) then TypeInt64 else
  if decide (ai_Func agg ∈ ["SUM"; "MIN"; "MAX"]%string) then
    match ai_AggExpr agg with
    | Some e => resolveExprType e childSchema
    | None =>
        if decide (ai_ColName agg = ""%string) then TypeInt64 else
        let t := match fieldNamed childSchema (ai_ColName agg) with Some f => Type_ f | None => noType end in
        if decide (t = noType) then TypeFloat64 else t
    end
  else TypeFloat64.

Definition scanSchema (n : LogicalScan) : Schema :=
  match NeededCols n with
  | [] => ls_Schema n
  | names => omap (fieldNamed (ls_Schema n)) names
  end.
Fixpoint OutputSchema (n : LogicalNode) : Schema :=
  match n with
  | LScan s => scanSchema s
  | LFilter c _ | LSort c _ | LLimit c _ _ | LDistinct c => OutputSchema c
  | LProject _ exprs => (λ pe, mkField (pi_Alias pe) (pi_Type pe) EncPlain true) <$> exprs
  | LAggregate c gb aggs =>
      let childSchema := OutputSchema c in
      omap (λ e, fieldNamed childSchema (exprName e)) gb
      ++ ((λ a, mkField (ai_Alias a) (aggType a childSchema) EncPlain true) <$> aggs)
  | LJoin l r _ => OutputSchema l ++ OutputSchema r
  end.

(** [openScan]: the needed columns by their file names, emitted under their
    output names. *)
Definition sourceCol (names : gmap string string) (name : string) : string := default name (names !! name).
Definition openScan (n : LogicalScan) (r : Reader) (zp : option ZonePredicate) (rgStart rgEnd : Z) : go TableScan :=
  let cols := match SourceNames n with Some names => sourceCol names <$> NeededCols n | None => NeededCols n end in
  ts ← NewTableScanRange r cols zp rgStart rgEnd;
  match SourceNames n with
  | None => Ret ts
  | Some _ =>
      let out := match NeededCols n with [] => Name <$> ls_Schema n | names => names end in
      SetOutputNames ts out
  end.
