(* ===== verification/PlanRows.v ===== *)
(** * Package planner: rows a query means

    [StringEqExpr] answers from the dictionary of the batch a row came in, so the
    row operators' theorems speak of rows that carry one.  A query is about cells.
    [settled_by] marks the expressions whose value, or whose truth where only
    truth is asked, depends on the cells alone; for them the row with its own
    dictionary and the canonical row of its cells agree. *)
From Stdlib Require Import ZArith Lia ZifyNat.
From stdpp Require Import base numbers list strings gmap.
From S2P Require Import Prelude Encoding Codec Float64 Schema Writer Reader Batch Scratch VExpr VKernel VCase VExprSpec Operator RowOps Distinct Pipeline.
#[local] Open Scope Z_scope.

Abbreviation cells := (list (option Cell)).

(** The row whose dictionaries hold exactly its own strings. *)
Definition canon (cs : cells) : Row := mkRow cs (λ j, Some (λ s, bool_decide (cs !! j = Some (Some (CStr s))))).
(** The dictionaries of a row hold its strings. *)
Definition dict_full (r : Row) : Prop :=
  ∀ j s, r_cells r !! j = Some (Some (CStr s)) → ∃ has, r_dict r j = Some has ∧ has s = true.

(** With [truth], only whether the value is TRUE is asked, as WHERE and the
    conditions of CASE do. *)
Fixpoint settled_by (truth : bool) (e : Expr) : bool :=
  match e with
  | ColumnRef _ _ _ | Literal _ _ => true
  | StringEqExpr _ _ negate => truth && negb negate
  | CastIntToFloatExpr x | NotExpr x | IsNullExpr x | IsNotNullExpr x | InExpr x _ _ | LikeExpr x _ => settled_by false x
  | BinOp _ x y _ => settled_by false x && settled_by false y
  | BetweenExpr x lo hi => settled_by false x && settled_by false lo && settled_by false hi
  | AndExpr es | OrExpr es => forallb (settled_by truth) es
  | CaseExpr ws els _ =>
      forallb (λ '(c, x), settled_by true c && settled_by false x) ws &&
      match els with Some x => settled_by false x | None => true end
  end.

(** ** Agreement *)

Definition true_of (o : option bool) : bool := bool_decide (o = Some true).
Lemma true_and3 a b : true_of (and3 a b) = true_of a && true_of b.
Proof. by destruct a as [[]|], b as [[]|]. Qed.
Lemma true_or3 a b : true_of (or3 a b) = true_of a || true_of b.
Proof. by destruct a as [[]|], b as [[]|]. Qed.
Lemma true_fold_and3 l a : true_of (foldl and3 a l) = true_of a && forallb true_of l.
Proof.
  revert a. induction l as [|o l IH]; intros a; [by rewrite andb_true_r|].
  cbn [foldl forallb]. by rewrite IH, true_and3, andb_assoc.
Qed.
Lemma true_fold_or3 l a : true_of (foldl or3 a l) = true_of a || existsb true_of l.
Proof.
  revert a. induction l as [|o l IH]; intros a; [by rewrite orb_false_r|].
  cbn [foldl existsb]. by rewrite IH, true_or3, orb_assoc.
Qed.
Lemma tri_CBool (o : option bool) : tri (CBool <$> o) = o.
Proof. by destruct o. Qed.

Section Agree.
Context (r : Row) (Hr : dict_full r).
Abbreviation c := (canon (r_cells r)).
Abbreviation same e := (row_eval r e = row_eval c e).
Abbreviation same_truth e := (true_of (tri (row_eval r e)) = true_of (tri (row_eval c e))).

Lemma string_eq_truth idx lit : same_truth (StringEqExpr idx lit false).
Proof using Hr.
  cbn [row_eval canon r_dict r_cells]. rewrite !tri_CBool. unfold string_eq_cell.
  destruct (r_cells r !! Z.to_nat idx) as [[[v|f|b|s|d]|]|] eqn:E; cbn [default];
    try (repeat case_match; by simplify_eq).
  destruct (Hr _ _ E) as (has & -> & Hs). destruct (String.eqb_spec s lit) as [->|Hne].
  - cbn [id]. rewrite Hs, String.eqb_refl. by rewrite bool_decide_true.
  - rewrite bool_decide_false by congruence. apply String.eqb_neq in Hne. cbn [id]. rewrite Hne. by destruct (has lit).
Qed.
Abbreviation agrees e := ((settled_by false e = true → same e) ∧ (settled_by true e = true → same_truth e)).

Lemma agree_value e : (settled_by false e = true → same e) → settled_by false e = settled_by true e → agrees e.
Proof using Type. intros Hx E. split; [done|]. rewrite <- E. intros H. by rewrite (Hx H). Qed.
Lemma agree_children es :
  Forall (λ e, agrees e) es →
  (forallb (settled_by false) es = true → map (λ e, tri (row_eval r e)) es = map (λ e, tri (row_eval c e)) es) ∧
  (forallb (settled_by true) es = true →
     forallb true_of (map (λ e, tri (row_eval r e)) es) = forallb true_of (map (λ e, tri (row_eval c e)) es) ∧
     existsb true_of (map (λ e, tri (row_eval r e)) es) = existsb true_of (map (λ e, tri (row_eval c e)) es)).
Proof using Type.
  induction 1 as [|x es [H1 H2] _ [IH1 IH2]]; [done|]. cbn [forallb existsb map]. rewrite !andb_true_iff.
  split; intros [Hx Hes]; [by rewrite (H1 Hx), IH1|]. destruct (IH2 Hes) as [E1 E2]. by rewrite (H2 Hx), E1, E2.
Qed.
Lemma agree_whens ws els t :
  Forall (λ w, agrees w.1 ∧ agrees w.2) ws → opt_P (λ e, agrees e) els →
  settled_by false (CaseExpr ws els t) = true → same (CaseExpr ws els t).
Proof using Type.
  intros Hws Hels. cbn [settled_by row_eval]. rewrite andb_true_iff. intros [Hw He].
  induction Hws as [|[w x] ws [[_ Hc] [Hx _]] _ IH]; [by destruct els; [apply Hels|]|].
  cbn [forallb fst snd] in *. rewrite !andb_true_iff in Hw. destruct Hw as [[H1 H2] Hw].
  specialize (Hc H1). unfold true_of in Hc. rewrite (Hx H2), (IH Hw), Hc. done.
Qed.

Lemma cells_agree e : agrees e.
Proof using Hr.
  induction e using Expr_nested_ind; try (apply agree_value; [|done]); try done;
    try (intros Hs; cbn [settled_by row_eval] in *; by rewrite (proj1 IHe)).
  - intros Hs. cbn [settled_by row_eval] in *. apply andb_true_iff in Hs as [H1 H2]. by rewrite (proj1 IHe1), (proj1 IHe2).
  - destruct (agree_children _ H) as [H1 H2]. cbn [settled_by row_eval]. split; intros Hs; [by rewrite H1|].
    rewrite !tri_CBool, !true_fold_and3. f_equal. by apply H2.
  - destruct (agree_children _ H) as [H1 H2]. cbn [settled_by row_eval]. split; intros Hs; [by rewrite H1|].
    rewrite !tri_CBool, !true_fold_or3. f_equal. by apply H2.
  - intros Hs. cbn [settled_by row_eval] in *. rewrite !andb_true_iff in Hs. destruct Hs as [[H1 H2] H3].
    by rewrite (proj1 IHe1), (proj1 IHe2), (proj1 IHe3).
  - split; [done|]. destruct neg; [done|]. intros _. apply string_eq_truth.
  - by apply agree_whens.
Qed.

Lemma keeps_canon pred : settled_by true pred = true → (keeps pred r ↔ keeps pred c).
Proof using Hr.
  intros Hs. pose proof (proj2 (cells_agree pred) Hs) as E. unfold true_of in E. unfold keeps.
  split; intros H; [rewrite (bool_decide_true _ H) in E; symmetry in E|rewrite (bool_decide_true (tri (row_eval c pred) = _) H) in E];
    by apply bool_decide_eq_true in E.
Qed.
End Agree.

(** ** The rows of a batch carry full dictionaries *)

Lemma column_full v n f i s :
  column v TypeString n f → (i < n)%nat → f i = Some (CStr s) → ∃ has, dict_has v = Some has ∧ has s = true.
Proof.
  intros (codes & dict & nb & -> & Hl & Hn & Hnull & Hd)%column_string Hi Hf.
  destruct (bit_valid nb i) eqn:Eb; [|by rewrite Hnull in Hf].
  destruct dict as [d|]; [|by rewrite Hd in Eb]. destruct Hd as (keys & Hnd & Hfit & Hdi & Hk).
  destruct (Hk i Hi Eb) as (k & s' & _ & Hks & E). rewrite Hf in E. injection E as ->.
  eexists. split; [done|]. cbv beta. destruct (Lookup_spec keys d s' Hfit Hdi) as (d' & _ & ->).
  destruct (list_find (s' =.) keys) as [[p x]|] eqn:Ep; [done|].
  exfalso. apply list_find_None in Ep. by apply (Forall_lookup_1 _ _ _ _ Ep Hks).
Qed.
Lemma in_all_rows bs r : r ∈ all_rows bs ↔ ∃ b i, b ∈ bs ∧ i ∈ sel_rows b ∧ r = row_at b i.
Proof.
  unfold all_rows. rewrite list_elem_of_In, in_concat. split.
  - intros (rb & Hrb & Hr). apply list_elem_of_In in Hrb, Hr. apply list_elem_of_fmap in Hrb as (b & -> & Hb).
    apply list_elem_of_fmap in Hr as (i & -> & Hi). eauto.
  - intros (b & i & Hb & Hi & ->). exists (rows_of b). split; apply list_elem_of_In, list_elem_of_fmap; eauto.
Qed.
Lemma rows_full tys D bs : Forall (batch_wf tys D) bs → Forall dict_full (all_rows bs).
Proof.
  intros Hbs. apply Forall_forall. intros r (b & i & Hb & Hi & ->)%in_all_rows. rewrite Forall_forall in Hbs.
  destruct (Hbs b Hb) as ([_ Hv] & _ & _ & Hlt & _). rewrite Forall_forall in Hlt. specialize (Hlt i Hi).
  intros j s. cbn [row_at r_cells r_dict]. rewrite list_lookup_fmap. destruct (Vectors b !! j) as [v|] eqn:Ev; [|done].
  cbn [fmap option_fmap option_map]. intros [= Hc]. destruct (Forall2_lookup_l _ _ _ _ _ Hv Ev) as (t & _ & Hok & Ht & Hlen & _).
  assert (Hcol : column v t (evalLen b) (cell v)) by by split_and!.
  pose proof (column_has_type _ _ _ _ _ Hcol Hlt) as Htype. rewrite Hc in Htype. cbn in Htype. subst t. by eapply column_full.
Qed.

(** Filtering and projecting rows is filtering and projecting cells. *)
Definition cells_true (pred : Expr) (cs : cells) : Prop := keeps pred (canon cs).
#[export] Instance cells_true_dec pred cs : Decision (cells_true pred cs).
Proof. unfold cells_true. apply _. Defined.
Definition cells_select (pes : list ProjectExpr) (cs : cells) : cells := proj_row pes (canon cs).

Lemma filter_canon pred (rs : list Row) :
  Forall dict_full rs → settled_by true pred = true →
  r_cells <$> filter (keeps pred) rs = filter (cells_true pred) (r_cells <$> rs).
Proof.
  intros Hrs Hs. induction Hrs as [|r rs Hr _ IH]; [done|]. cbn [fmap list_fmap]. rewrite !filter_cons.
  pose proof (keeps_canon r Hr pred Hs) as E. destruct (decide (keeps pred r)) as [H|H].
  - rewrite decide_True by by apply E. cbn [fmap list_fmap]. by rewrite <- IH.
  - rewrite decide_False by (unfold cells_true; by rewrite <- E). exact IH.
Qed.
Lemma select_canon pes (rs : list Row) :
  Forall dict_full rs → Forall (λ pe, settled_by false (pe_Expr pe) = true) pes →
  proj_row pes <$> rs = cells_select pes <$> (r_cells <$> rs).
Proof.
  intros Hrs Hs. induction Hrs as [|r rs Hr _ IH]; [done|]. cbn [fmap list_fmap]. f_equal; [|exact IH].
  unfold cells_select, proj_row. apply list_fmap_ext. intros i pe Hpe. apply (cells_agree r Hr).
  exact (Forall_lookup_1 _ _ _ _ Hs Hpe).
Qed.
