(* ===== verification/Physical.v ===== *)
(** * Package planner: physical plans ([planner/physical.go])

    [Physical] turns a logical plan into a tree of operators.  [Op] is Go's
    [exec.Operator] interface value: a state with the methods the planner and the
    other operators call on it.  Closing an operator on an error path releases
    its files and is left out, except where the receiver is nil. *)
From Stdlib Require Import ZArith Lia ZifyNat.
From stdpp Require Import base numbers list strings gmap.
From S2P Require Import SharedJoin Prelude Encoding Codec Float64 Schema Writer Reader Volume Batch Scratch Scan Lexer Strconv Ast Parser Format VExpr VKernel VCase VExprSpec Operator RowOps Distinct Sorting Emit Sort Pipeline Aggregate Join Morsel ExprWalk Coerce ExecExpr ZonePred Logical.
#[local] Open Scope Z_scope.

(** ** Operators as values *)

(** Every operator keeps its schema, and only scans, filters and their kind
    announce a row count. *)
#[export] Instance scan_stable : StableSchema TableScan.
Proof.
  intros fuel s. cbn [Next scan_operator OpSchema]. revert s. induction fuel as [|fuel IH]; intros s; [done|]. cbn [ScanNext].
  assert (Hb : ∀ s, ts_schema (readBlock s).2 = ts_schema s).
  { clear. intros s. unfold readBlock. repeat case_match; simplify_eq; done. }
  assert (Hread : ∀ s1, ts_schema s1 = ts_schema s → ts_schema (match readBlock s1 with
      | (Ret (Some batch), s) => (Ret (Some batch), s)
      | (Ret None, s) => ScanNext fuel None (set_rg (closeRowGroup s) (rgIdx s + 1) None)
      | (Err e, s) => (Err e, s) | (Panic, s) => (Panic, s) | (OutOfFuel, s) => (OutOfFuel, s)
      end).2 = ts_schema s).
  { intros s1 E. specialize (Hb s1). destruct (readBlock s1) as [[[b|]|e| |] s2]; cbn [snd] in *; try congruence.
    rewrite IH. cbn. congruence. }
  destruct (crList s); [by apply Hread|]. case_decide; [done|].
  destruct (if decide _ then _ else _) as [rg|e| |]; try done.
  destruct (match zonePred s with Some p => _ | None => _ end); [by rewrite IH|].
  destruct (openRowGroup s (rgIdx s)); try done. by apply Hread.
Qed.
#[export] Instance project_stable : StablePull ProjectState.
Proof.
  intros st b o st' s. cbn [body project_op out_schema]. unfold project_body.
  destruct (foldM _ _ _); try done. by intros [= <- <-].
Qed.
#[export] Instance sort_stable {S} `{Operator S} : StableSchema (ExternalSort S).
Proof.
  assert (He : ∀ s : ExternalSort S, es_schema (sort_emit s).2 = es_schema s).
  { intros s. unfold sort_emit. case_decide; [done|]. by destruct (mbind _ _). }
  intros fuel s. cbn [Next sort_operator OpSchema]. unfold sort_next, consumeAndSort.
  destruct (es_done s); [done|]. destruct (drain _ _ _ _ _) as [[[[]|e| |] rows] c]; try done. cbn [on_ret].
  destruct (SliceStable _ _); try done. cbn [on_ret]. by rewrite He.
Qed.
#[export] Instance agg_stable {S} `{Operator S} : StableSchema (HashAggregate S).
Proof.
  assert (He : ∀ h : HashAggregate S, conf (agg_emit h).2 = conf h).
  { intros h. unfold agg_emit. case_decide; [done|]. by destruct (mbind _ _). }
  intros fuel h. cbn [Next agg_operator OpSchema]. f_equal. unfold agg_next, consumeAll.
  destruct (ha_done h); [done|]. destruct (drain _ _ _ _ _) as [[[[]|e| |] s] c]; try done. cbn [on_ret].
  destruct (enabled _ && _); [destruct (materializeToStringMaps _ _); try done|]; cbn [on_ret];
    (case_decide; [by destruct (buildEmptyGlobalResult _)|by rewrite He]).
Qed.
#[export] Instance limit_bound {S} : RowCountBound (Limit S) := λ _, None.
#[export] Instance distinct_bound {S} : RowCountBound (Distinct S) := λ _, None.
#[export] Instance sort_bound {S} : RowCountBound (ExternalSort S) := λ _, None.
#[export] Instance agg_bound {S} : RowCountBound (HashAggregate S) := λ _, None.
(** [reusableMorselPipeline] refuses what it does not name. *)
#[export] Instance sort_pipeline {S} `{Operator S} : MorselPipeline (ExternalSort S) := { reusable _ := false; reposition s _ _ := s }.
#[export] Instance agg_pipeline {S} `{Operator S} : MorselPipeline (HashAggregate S) := { reusable _ := false; reposition s _ _ := s }.

Record Op : Type := mkOp {
  op_St : Type;
  op_Operator : Operator op_St;
  op_Bound : RowCountBound op_St;
  op_Stable : StableSchema op_St;
  op_Morsel : MorselPipeline op_St;
  op_state : op_St
}.
#[export] Existing Instance op_Operator.
#[export] Existing Instance op_Bound.
#[export] Existing Instance op_Stable.
#[export] Existing Instance op_Morsel.
Definition pack {S} `{Operator S, !StableSchema S, RowCountBound S, !MorselPipeline S} (s : S) : Op := mkOp S _ _ _ _ s.
Definition op_schema (o : Op) : Schema := OpSchema (op_state o).

(** ** Wrapping one child *)

Definition buildFilterOp (Predicate : Ast.Expr) (child : Op) : go Op :=
  exprTree ← buildExecExpr Predicate (op_schema child);
  f ← NewFilter (op_state child) exprTree;
  Ret (pack f).
Definition translateItems (Exprs : list ProjectItem) (schema : Schema) : go (list ProjectExpr) :=
  foldM (λ acc pe, e ← buildExecExpr (pi_Expr pe) schema; Ret (acc ++ [mkProjectExpr (pi_Alias pe) e])) [] Exprs.
Definition buildProjectOp (Exprs : list ProjectItem) (child : Op) : go Op :=
  projExprs ← translateItems Exprs (op_schema child);
  p ← NewProject (op_state child) projExprs;
  Ret (pack p).
Definition sortKeys (OrderBy : list Ast.OrderByItem) (schema : Schema) : go (list SortKey) :=
  foldM (λ keys '(mkOrderBy x descending),
      match x with
      | ColumnRefExpr _ name =>
          let idx := IndexOf schema name in
          if idx <? 0 then Err (ErrMsg "planner: ORDER BY column not found")
          else Ret (keys ++ [mkSortKey (Z.to_nat idx) descending])
      | _ => Err (ErrMsg "planner: ORDER BY only supports column references")
      end) [] OrderBy.
Definition buildSortOp (OrderBy : list Ast.OrderByItem) (child : Op) : go Op :=
  keys ← sortKeys OrderBy (op_schema child);
  op ← NewExternalSort (op_state child) keys;
  Ret (pack op).
Definition buildLimitOp (Count Offset : Z) (child : Op) : Op :=
  pack (NewLimitOffset (op_state child) Count Offset).

(** ** Aggregates *)

(** The pre-projection: every column as it is, then each computed argument under
    the name its aggregate reads. *)
Definition preProjection (aggs : list AggItem) (schema : Schema) : go (list ProjectExpr) :=
  foldM (λ acc agg,
      match ai_AggExpr agg with
      | None => Ret acc
      | Some e => x ← buildExecExpr e schema; Ret (acc ++ [mkProjectExpr (ai_ColName agg) x])
      end)
    ((λ f, mkProjectExpr (Name f) (ColumnRef (Name f) (IndexOf schema (Name f)) (Type_ f))) <$> schema) aggs.
Definition hasComplex (aggs : list AggItem) : bool := existsb (λ agg, bool_decide (is_Some (ai_AggExpr agg))) aggs.
Definition buildPreProjection (aggs : list AggItem) (child : Op) : go Op :=
  if negb (hasComplex aggs) then Ret child else
  projExprs ← preProjection aggs (op_schema child);
  p ← NewProject (op_state child) projExprs;
  Ret (pack p).

Definition resolveGroupBy (schema : Schema) (e : Ast.Expr) : go Z :=
  match e with
  | ColumnRefExpr _ name =>
      let idx := IndexOf schema name in
      if idx <? 0 then Err (ErrMsg "planner: GROUP BY column not found") else Ret idx
  | _ => Err (ErrMsg "planner: GROUP BY only supports column references")
  end.
(** The kind, and the index of the argument's column: -1 where there is none. *)
Definition aggKind (schema : Schema) (agg : AggItem) : go (AggKind * Z) :=
  let col := IndexOf schema (ai_ColName agg) in
  if decide (ai_Func agg = "COUNT"%string)
  then Ret (if ai_Distinct agg then AggCountDistinct else AggCount,
            if decide (ai_ColName agg = ""%string) then -1 else col)
  else if decide (ai_Func agg = "SUM"%string) then Ret (AggSum, col)
  else if decide (ai_Func agg = "AVG"%string) then Ret (AggAvg, col)
  else if decide (ai_Func agg = "MIN"%string) then Ret (AggMin, col)
  else if decide (ai_Func agg = "MAX"%string) then Ret (AggMax, col)
  else Err (ErrMsg "planner: unknown aggregate").
Definition resolveAggItem (schema : Schema) (agg : AggItem) : go AggExpr :=
  '(kind, col) ← aggKind schema agg;
  if bool_decide (col = -1) && negb (bool_decide (kind = AggCount) && bool_decide (ai_ColName agg = ""%string))
  then Err (ErrMsg "planner: aggregate column not found in schema") else
  srcType ← (if 0 <=? col then f ← index schema (Z.to_nat col); Ret (Type_ f) else Ret TypeInt64);
  if bool_decide (kind = AggSum ∨ kind = AggAvg) && negb (is_number srcType)
  then Err (ErrMsg "planner: SUM and AVG require a numeric argument")
  else Ret (mkAggExpr kind col (ai_Alias agg) (ai_Distinct agg) (AccumTypeFor kind srcType)).
Definition resolveAggConfig (GroupBy : list Ast.Expr) (Aggs : list AggItem) (schema : Schema)
    : go (list Z * list AggExpr) :=
  groupByIdxs ← foldM (λ acc e, i ← resolveGroupBy schema e; Ret (acc ++ [i])) [] GroupBy;
  aggExprs ← foldM (λ acc agg, ae ← resolveAggItem schema agg; Ret (acc ++ [ae])) [] Aggs;
  Ret (groupByIdxs, aggExprs).

(** A failed pre-projection leaves [child] nil, and the error path closes it: a
    call on a nil interface. *)
Definition physicalAggregate (GroupBy : list Ast.Expr) (Aggs : list AggItem) (child : Op) : go Op :=
  match buildPreProjection Aggs child with
  | Ret child =>
      '(groupByIdxs, aggExprs) ← resolveAggConfig GroupBy Aggs (op_schema child);
      h ← NewHashAggregate (op_state child) groupByIdxs aggExprs;
      Ret (pack h)
  | Err _ => Panic
  | Panic => Panic
  | OutOfFuel => OutOfFuel
  end.

(** ** Joins *)

(** The key columns of an equality between a column of either side. *)
Definition joinKeys (Condition : Ast.Expr) (buildSchema probeSchema : Schema) : go (Z * Z) :=
  match Condition with
  | BinaryExpr OpEQ (ColumnRefExpr _ l) (ColumnRefExpr _ r) =>
      let b := IndexOf buildSchema in
      let p := IndexOf probeSchema in
      let '(buildKeyIdx, probeKeyIdx) := if b l <? 0 then (b r, p l) else (b l, p r) in
      if (buildKeyIdx <? 0) || (probeKeyIdx <? 0) then Err (ErrMsg "planner: join key columns not found")
      else Ret (buildKeyIdx, probeKeyIdx)
  | BinaryExpr OpEQ _ _ => Err (ErrMsg "planner: join condition must be column = column")
  | _ => Err (ErrMsg "planner: join condition must be a simple equality")
  end.
Definition physicalJoin (Condition : Ast.Expr) (build probe : Op) : go Op :=
  '(buildKeyIdx, probeKeyIdx) ← joinKeys Condition (op_schema build) (op_schema probe);
  j ← NewHashJoin (op_state build) (op_state probe) buildKeyIdx probeKeyIdx;
  Ret (pack j).

(** ** The plan *)

Definition physicalScan (fs : FS) (n : LogicalScan) : go Op :=
  r ← Open fs (FilePath n);
  let zonePred := (λ p, buildZonePredicate p (ls_Schema n)) <$> ls_Predicate n in
  scan ← openScan n r zonePred 0 (Z.of_nat (length (RowGroups (r_meta r))));
  match ls_Predicate n with
  | Some p =>
      exprTree ← buildExecExpr p (ts_schema scan);
      f ← NewFilter scan exprTree;
      Ret (pack f)
  | None => Ret (pack scan)
  end.
Fixpoint Physical (fs : FS) (node : LogicalNode) : go Op :=
  match node with
  | LScan n => physicalScan fs n
  | LFilter c p => child ← Physical fs c; buildFilterOp p child
  | LProject c es => child ← Physical fs c; buildProjectOp es child
  | LAggregate c gb aggs => child ← Physical fs c; physicalAggregate gb aggs child
  | LSort c ob => child ← Physical fs c; buildSortOp ob child
  | LLimit c n k => child ← Physical fs c; Ret (buildLimitOp n k child)
  | LJoin l r cond =>
      build ← Physical fs l;
      probe ← Physical fs r;
      physicalJoin cond build probe
  | LDistinct c => child ← Physical fs c; Ret (pack (NewDistinct (op_state child)))
  end.

(** ** Examples *)

(** A table of two row groups, with ids 1 to 3 and 10 to 12. *)
Definition plan_schema : Schema := [mkField "id" TypeInt64 EncPlain false; mkField "name" TypeString EncDict true].
Definition plan_ops : list wop :=
  [OpBegin 3; OpAppend false 0 None (VInt64 [1; 2; 3]); OpAppend false 1 (Some [5]) (VString ["a"; ""; "b"]%string); OpEnd;
   OpBegin 3; OpAppend false 0 None (VInt64 [10; 11; 12]); OpAppend false 1 (Some [3]) (VString ["b"; "a"; ""]%string); OpEnd].
Definition plan_fs : FS :=
  (Finish demo_io (run_ops (NewWriter "t" plan_schema ∅).1 plan_ops) (NewWriter "t" plan_schema ∅).2).2.
Definition plan_reader : Reader := match Open plan_fs "t" with Ret r => r | _ => mkReader [] (mkFileMeta [] []) end.
Lemma Ret_inj {A} (a b : A) : Ret a = Ret b → a = b.
Proof. congruence. Qed.
Lemma plan_open : Open plan_fs "t" = Ret plan_reader.
Proof. vm_compute. reflexivity. Qed.
Lemma plan_repr : file_repr plan_schema plan_reader (spec_ops plan_schema emptySession plan_ops).
Proof.
  assert (Hl : legal plan_schema emptySession plan_ops)
    by by apply (bool_decide_eq_true_1 (legal plan_schema emptySession plan_ops)); vm_compute.
  destruct (run_ops_repr "t" plan_schema _ _ plan_ops (repr_new "t" plan_schema ∅) Hl) as [Hr _].
  destruct (open_finished "t" plan_schema _ _ demo_io (NewWriter "t" plan_schema ∅).2 Hr) as (fs' & r & HF & HO & Hfr);
    [reflexivity|repeat split|reflexivity|repeat constructor|reflexivity|vm_compute; reflexivity|].
  pose proof (f_equal snd HF : plan_fs = fs') as E. cbn [snd] in E. subst fs'. rewrite <- (Ret_inj _ _ (eq_trans (eq_sym HO) plan_open)). exact Hfr.
Qed.

Definition plan_scan (p : option Ast.Expr) : LogicalScan := mkScan "t" "t" plan_schema p [] None.
(** The query fails, with the error in [SELECT SUM(-name) FROM t], by a call on a
    nil operator. *)
Example aggregate_error_panics :
  Physical plan_fs (LAggregate (LScan (plan_scan None)) []
    [mkAggItem "SUM" "_agg_0" (Some (UnaryExpr OpMinus (ColumnRefExpr "" "name"))) "s" false]) = Panic.
Proof. vm_compute. reflexivity. Qed.
Example plan_errors :
  let plan := Physical plan_fs in
  let t := LScan (plan_scan None) in
  plan (LFilter t (ColumnRefExpr "" "id")) = Err (ErrMsg "exec: filter predicate must return BOOL") ∧
  plan (LSort t [mkOrderBy (ColumnRefExpr "" "age") false]) = Err (ErrMsg "planner: ORDER BY column not found") ∧
  plan (LAggregate t [ColumnRefExpr "" "id"] [mkAggItem "SUM" "name" None "s" false])
  = Err (ErrMsg "planner: SUM and AVG require a numeric argument") ∧
  plan (LJoin t t (BinaryExpr OpLT (ColumnRefExpr "" "id") (ColumnRefExpr "" "id")))
  = Err (ErrMsg "planner: join condition must be a simple equality").
Proof. vm_compute. repeat split. Qed.
