(* ===== verification/PlanScan.v ===== *)
(** * Package planner: a pruned scan loses no row

    [physicalScan] skips row groups by their zone maps and filters the rest.
    Over a file that stores a session, what it delivers is the WHERE of all the
    rows appended, as if nothing had been skipped. *)
From Stdlib Require Import ZArith Lia ZifyNat.
From stdpp Require Import base numbers list strings gmap.
From S2P Require Import Prelude Encoding Codec Float64 Schema Writer Reader Volume Batch Scratch Scan Lexer Strconv Ast Parser Format VExpr VKernel VCase VExprSpec Operator RowOps Distinct Sorting Emit Sort Pipeline Aggregate Join Morsel ExprWalk Coerce ExecExpr BuildType FloatInt ZonePred Logical PlanRows Physical.
#[local] Open Scope Z_scope.

(** ** A stored column's cells are within its zone map *)

Lemma elem_of_cells_of {V} (mk : V → Cell) rows c : Some c ∈ cells_of mk rows → ∃ v, c = mk v ∧ v ∈ row_values rows.
Proof.
  unfold cells_of. intros (o & E & Ho)%list_elem_of_fmap. destruct o as [v|]; [|done]. injection E as ->.
  exists v. split; [done|]. by apply elem_of_row_values.
Qed.
Lemma f64_rows_in nulls vs n v : data_ok n (nulls, VFloat64 vs) → v ∈ row_values (col_rows nulls vs) → inU 64 v.
Proof. intros [_ [_ Hv]] Hin. pose proof (row_values_col _ nulls vs Hv) as H. rewrite Forall_forall in H. by apply H. Qed.

Lemma stored_in_zone file t n m d c :
  stored file t n m d → c ∈ col_cells d → ZonePred.typed t c ∧ in_zone t (Stats m) c.
Proof.
  intros Hst Hc. pose proof (stored_stats_describe _ _ _ _ _ Hst) as Hz. destruct Hst as (Hok & Ht & _).
  destruct d as [nulls values]. unfold col_cells, stats_describe in *. cbn [fst snd] in *.
  destruct c as [c|]; [|by split]. destruct values as [vs|vs|vs|vs|vs|]; [| | | | |by apply elem_of_nil in Hc];
    apply elem_of_cells_of in Hc as (v & -> & Hv); destruct t; try done;
    (split; [by intros ? [= <-]|]); intros Hmm; try done.
  - destruct Hz as (_ & _ & Hx). unfold zm_extremes in Hx. rewrite Hmm in Hx. by apply Hx.
  - destruct Hz as (_ & _ & Hx). unfold zm_float_bounds in Hx. rewrite Hmm in Hx. destruct Hx as (H1 & H2 & Hb).
    split; [by eapply f64_rows_in|]. split; [done|]. split; [done|]. split; intros; by apply (Hb v).
  - destruct Hz as (_ & Hx). unfold zm_extremes in Hx. rewrite Hmm in Hx. by apply Hx.
Qed.

(** ** Which file column a scan column reads *)

Lemma IndexOf_NoDup s k f : NoDup (Name <$> s) → s !! k = Some f → IndexOf s (Name f) = Z.of_nat k.
Proof.
  intros Hn Hf. destruct (IndexOf_cases s (Name f)) as [(j & g & E & Hg & En)|[_ Hno]].
  - rewrite E. f_equal. eapply (NoDup_lookup (Name <$> s)); [done|..]; rewrite list_lookup_fmap; [by rewrite Hg|rewrite Hf; cbn; by rewrite En].
  - destruct Hno. apply list_elem_of_fmap. exists f. split; [done|]. by eapply list_elem_of_lookup_2.
Qed.

Definition sourceName (n : LogicalScan) (name : string) : string :=
  match SourceNames n with Some names => sourceCol names name | None => name end.
(** The scan's schema is the file's, column by column, under its output names. *)
Definition describes (n : LogicalScan) (src : Schema) : Prop :=
  Forall2 (λ f g, Type_ f = Type_ g ∧ sourceName n (Name f) = Name g) (ls_Schema n) src ∧
  NoDup (Name <$> ls_Schema n) ∧ NoDup (Name <$> src).

Lemma project_columns src names fs0 cm0 s :
  foldM (λ '(fs, cm) name,
      let idx := IndexOf src name in
      if decide (idx < 0) then Err (ErrMsg "exec: scan: column not found") else
      f ← index src (Z.to_nat idx); Ret (fs ++ [f], cm ++ [idx])) (fs0, cm0) names = Ret s →
  s.2 = cm0 ++ (IndexOf src <$> names).
Proof.
  revert fs0 cm0. induction names as [|name names IH]; intros fs0 cm0; cbn [foldM].
  - intros [= <-]. by rewrite app_nil_r.
  - case_decide; [done|]. destruct (index src _); try done. cbn [mbind go_bind]. intros E%IH. rewrite E.
    by rewrite <- app_assoc.
Qed.
Lemma NewTableScanRange_colMap r names zp a e s :
  NewTableScanRange r names zp a e = Ret s →
  colMap s = match names with [] => Z.of_nat <$> seq 0 (length (fm_Schema (r_meta r))) | _ => IndexOf (fm_Schema (r_meta r)) <$> names end.
Proof.
  unfold NewTableScanRange. destruct names as [|name names]; [rewrite decide_True by done; by intros [= <-]|].
  rewrite decide_False by done. destruct (foldM _ _ _) as [[fs cm]| | |] eqn:E; try done.
  cbn [mbind go_bind]. intros [= <-]. by apply project_columns in E.
Qed.

(** Column [j] of the scan and where it comes from. *)
Definition reads (n : LogicalScan) (s : TableScan) : Prop :=
  ∀ j f i, ts_schema s !! j = Some f → IndexOf (ls_Schema n) (Name f) = Z.of_nat i → colMap s !! j = Some (Z.of_nat i).

Lemma describes_index n src i name :
  describes n src → IndexOf (ls_Schema n) name = Z.of_nat i → IndexOf src (sourceName n name) = Z.of_nat i.
Proof.
  intros (Hf & _ & Hnd) Hi. destruct (IndexOf_cases (ls_Schema n) name) as [(k & f & E & Hk & <-)|[E _]]; [|lia].
  assert (k = i) as -> by lia. destruct (Forall2_lookup_l _ _ _ _ _ Hf Hk) as (g & Hg & _ & ->). by apply IndexOf_NoDup.
Qed.
Lemma openScan_spec n r zp a e s :
  describes n (fm_Schema (r_meta r)) → openScan n r zp a e = Ret s →
  Forall2 (same_field (fm_Schema (r_meta r))) (ts_schema s) (colMap s) ∧ reads n s ∧
  s = mkTableScan r (ts_schema s) (colMap s) zp a e a None None.
Proof.
  intros Hd. set (src := fm_Schema (r_meta r)) in *. unfold openScan.
  set (cols := match SourceNames n with Some _ => _ | None => _ end).
  assert (Hcols : cols = sourceName n <$> NeededCols n).
  { unfold cols, sourceName. destruct (SourceNames n); [done|]. by rewrite list_fmap_id. }
  destruct (NewTableScanRange r cols zp a e) as [ts| | |] eqn:Ets; try done. cbn [mbind go_bind].
  pose proof (NewTableScanRange_colMap _ _ _ _ _ _ Ets) as Hcm. fold src in Hcm.
  pose proof (NewTableScanRange_spec r cols zp a e) as Hspec. cbv zeta in Hspec. fold src in Hspec.
  case_decide; [|destruct Hspec; congruence]. destruct Hspec as (ts' & E & Hnames & Hsame & Hts).
  rewrite Ets in E. injection E as <-.
  set (out := match NeededCols n with [] => Name <$> ls_Schema n | names => names end).
  assert (Hreads : ∀ s' : TableScan, colMap s' = colMap ts → Name <$> ts_schema s' = out → reads n s').
  { intros s' Ec En j f i Hf Hi. rewrite Ec, Hcm.
    assert (Ho : out !! j = Some (Name f)) by (by rewrite <- En, list_lookup_fmap, Hf).
    unfold out in Ho. rewrite Hcols. destruct (NeededCols n) as [|name names].
    - cbn [fmap list_fmap]. destruct Hd as (Hty & Hnd & _). rewrite list_lookup_fmap in Ho.
      destruct (ls_Schema n !! j) as [g|] eqn:Eg; [|done]. injection Ho as Ho. rewrite <- Ho, (IndexOf_NoDup _ j) in Hi by done.
      assert (j = i) as -> by lia. rewrite list_lookup_fmap, lookup_seq_lt; [done|].
      rewrite <- (Forall2_length _ _ _ Hty). by eapply lookup_lt_Some.
    - assert (E : (IndexOf src <$> (sourceName n <$> name :: names)) !! j = Some (Z.of_nat i)); [|exact E].
      rewrite !list_lookup_fmap, Ho. cbn [fmap option_fmap option_map]. f_equal. by apply describes_index. }
  destruct (SourceNames n) as [names|] eqn:Esn.
  - intros Hs. destruct (decide (length out = length (ts_schema ts))) as [Hl|Hl].
    + destruct (SetOutputNames_spec ts out src Hl Hsame) as (s' & E & En & Hsame' & Hs').
      rewrite Hs in E. injection E as <-. assert (Ec : colMap s = colMap ts) by by rewrite Hs'.
      split; [done|]. split; [by apply Hreads|]. rewrite Hs' at 1. rewrite Ec, Hts. done.
    + unfold SetOutputNames in Hs. rewrite decide_True in Hs; done.
  - intros [= <-]. split; [done|]. split; [|done]. apply Hreads; [done|]. rewrite Hnames, Hcols. unfold out.
    assert (Hid : sourceName n = id) by by unfold sourceName; rewrite Esn.
    destruct (NeededCols n) as [|name names']; [|by rewrite Hid, list_fmap_id, decide_False].
    rewrite decide_True by done. destruct Hd as (Hty & _). clear -Hty Hid. rewrite Hid in Hty.
    induction Hty as [|f g l l' [_ E] _ IH]; [done|]. cbn [fmap list_fmap]. by rewrite IH, <- E.
Qed.

(** ** Row groups the zone maps rule out *)

Lemma filter_none {A} (P : A → Prop) `{∀ x, Decision (P x)} l : Forall (λ x, ¬ P x) l → filter P l = [].
Proof. induction 1 as [|x l Hx _ IH]; [done|]. rewrite filter_cons. by rewrite decide_False. Qed.

Section Pruned.
Context (n : LogicalScan) (r : Reader) (src : Schema) (sess : Session) (s : TableScan).
Hypothesis Hfile : file_repr src r sess.
Hypothesis Hd : describes n src.
Hypothesis Hsame : Forall2 (same_field src) (ts_schema s) (colMap s).
Hypothesis Hreads : reads n s.

Lemma buildColumn_bare schema name x :
  buildColumn schema "" name = Ret x →
  ∃ k f, IndexOf schema name = Z.of_nat k ∧ schema !! k = Some f ∧ Name f = name ∧ x = ColumnRef name (Z.of_nat k) (Type_ f).
Proof using Type.
  unfold buildColumn, resolveColumn. rewrite decide_False by auto.
  destruct (IndexOf_cases schema name) as [(k & f & -> & Hf & En)|[-> _]]; [|done].
  destruct (Z.ltb_spec (Z.of_nat k) 0); [lia|]. rewrite Nat2Z.id, (index_Ret _ _ _ Hf). cbn [mbind go_bind].
  intros [= <-]. eauto 6.
Qed.
Lemma group_row_from rg g i :
  rg_stored src (r_file r) rg g → (i < g.1)%nat →
  from_group (ls_Schema n) (ts_schema s) rg (canon (block_row (group_rows (colMap s) g) i)).
Proof using Hd Hsame Hreads.
  intros (_ & _ & _ & Hlm & Hlc & Hcols) Hi name x f m Hx H0 Hf Hm.
  destruct (buildColumn_bare _ _ _ Hx) as (k & f0 & _ & Hf0 & <- & ->).
  destruct (Z_of_nat_complete _ H0) as [ci Eci]. rewrite Eci, Nat2Z.id in *.
  pose proof (Hreads _ _ _ Hf0 Eci) as Hcm.
  destruct (Forall2_lookup_lr _ _ _ _ _ _ Hsame Hf0 Hcm) as (ci' & f' & Ec & Hf' & Et). apply Nat2Z.inj in Ec as <-.
  destruct Hd as (Hty & _). destruct (Forall2_lookup_lr _ _ _ _ _ _ Hty Hf Hf') as [Etf _].
  destruct (lookup_lt_is_Some_2 g.2 ci) as [d Hdd]; [rewrite length_fmap in Hlc; rewrite Hlc; by eapply lookup_lt_Some|].
  destruct (Hcols ci f' d Hf') as (m' & Hm' & Hst); [by rewrite list_lookup_fmap, Hdd|].
  rewrite Hm in Hm'. injection Hm' as <-. cbn [EType row_eval canon r_cells]. rewrite Nat2Z.id.
  split; [congruence|]. rewrite Etf. unfold block_row, group_rows. rewrite !list_lookup_fmap, Hcm.
  cbn [fmap option_fmap option_map default]. rewrite Nat2Z.id, Hdd. cbn [default].
  assert (Hor : ∀ l : cells, default None (l !! i) ∈ l ∨ default None (l !! i) = None).
  { intros l. destruct (l !! i) as [c|] eqn:Ec; [left; by eapply list_elem_of_lookup_2|by right]. }
  destruct (Hor (col_cells d)) as [E|E].
  - by apply (stored_in_zone (r_file r) _ g.1 m d).
  - change (ZonePred.typed (Type_ f') (default None (col_cells d !! i)) ∧ in_zone (Type_ f') (Stats m) (default None (col_cells d !! i))).
    rewrite E. split; by intros ?.
Qed.

Lemma pruned_rows p x rg g :
  rg_stored src (r_file r) rg g → resolved p → zone_exact p = true → buildExecExpr p (ts_schema s) = Ret x →
  zonePredEval p (ls_Schema n) rg = false →
  filter (cells_true x) (block_rows_of g.1 (group_rows (colMap s) g)) = [].
Proof using Hd Hsame Hreads.
  intros Hst Hres Hex Hx Hz. apply filter_none, Forall_fmap, Forall_seq. intros i Hi. cbn [compose].
  exact (zonePredEval_false _ _ rg _ (group_row_from rg g i Hst ltac:(lia)) p x Hres Hex Hx Hz).
Qed.
Lemma table_rows_pruned p x rgs gs :
  Forall2 (rg_stored src (r_file r)) rgs gs → resolved p → zone_exact p = true → buildExecExpr p (ts_schema s) = Ret x →
  filter (cells_true x) (table_rows (colMap s) (Some (buildZonePredicate p (ls_Schema n))) rgs gs)
  = filter (cells_true x) (table_rows (colMap s) None rgs gs).
Proof using Hd Hsame Hreads.
  intros Hst Hres Hex Hx. unfold table_rows. induction Hst as [|rg g rgs gs H _ IH]; [done|].
  cbn [zip_with concat]. rewrite !filter_app, IH. f_equal. cbn [kept]. unfold buildZonePredicate.
  destruct (zonePredEval p (ls_Schema n) rg) eqn:Ez; [done|]. symmetry. by apply (pruned_rows p x rg g).
Qed.
End Pruned.

(** All rows of a session, as the columns [cm] of the file read them. *)
Definition session_rows (cm : list Z) (sess : Session) : list cells :=
  concat ((λ g, block_rows_of g.1 (group_rows cm g)) <$> s_done sess).
Lemma session_table_rows cm rgs (gs : list (nat * list ColData)) :
  length rgs = length gs → table_rows cm None rgs gs = concat ((λ g, block_rows_of g.1 (group_rows cm g)) <$> gs).
Proof.
  unfold table_rows. cbn [kept]. revert rgs. induction gs as [|g gs IH]; intros [|rg rgs] E; try done.
  cbn [zip_with concat fmap list_fmap]. f_equal. apply IH. by injection E.
Qed.

(** ** What an operator of a plan delivers *)

(** The bound on dictionaries that every operator of a plan keeps. *)
Abbreviation dictBound := (2 ^ 33).
Record produces (o : Op) (schema : Schema) (rows : list cells) : Prop := {
  pr_schema : op_schema o = schema;
  pr_real : Forall (λ f, BuildType.real_type (Type_ f) = true) schema;
  pr_bounded : bounded (op_state o);
  pr_stream : ∃ bs, runs (op_state o) bs None ∧ Forall (batch_wf (Type_ <$> schema) dictBound) bs ∧
    r_cells <$> all_rows bs = rows
}.
(** What is left to ask of a translated expression: the operand types of AND, OR,
    NOT and arithmetic, dictionaries that fit, and a value that depends on the
    cells alone. *)
Definition executable (truth : bool) (x : Expr) : bool := operands_ok x && settled_by truth x && fits dictBound x.

Lemma executable_inv truth x :
  executable truth x = true → operands_ok x = true ∧ settled_by truth x = true ∧ fits dictBound x = true.
Proof. unfold executable. intros [[? ?]%andb_true_iff ?]%andb_true_iff. done. Qed.
Lemma executable_typed schema e x truth :
  Forall (λ f, BuildType.real_type (Type_ f) = true) schema → buildExecExpr e schema = Ret x → executable truth x = true →
  typeof (Type_ <$> schema) x = Some (EType x) ∧ settled_by truth x = true ∧ fits dictBound x = true.
Proof.
  intros Hreal Hx (Ho & Hs & Hf)%executable_inv. split; [|done]. apply (accepted_typed schema Hreal); [|done].
  pose proof (buildExecExpr_built schema Hreal e) as Hb. unfold built in Hb. rewrite Hx in Hb. exact Hb.
Qed.

Lemma filter_produces child schema rows p x :
  produces child schema rows → buildExecExpr p schema = Ret x → EType x = TypeBool → executable true x = true →
  ∃ o, buildFilterOp p child = Ret o ∧ produces o schema (filter (cells_true x) rows).
Proof.
  intros [Hsch Hreal Hb (bs & Hr & Hwf & <-)] Hx Et He. unfold buildFilterOp. rewrite Hsch, Hx. cbn [mbind go_bind].
  destruct (executable_typed _ _ _ _ Hreal Hx He) as (Hty & Hs & Hf). rewrite Et in Hty.
  unfold NewFilter. rewrite decide_True by done. cbn [mbind go_bind]. eexists. split; [done|].
  destruct (filter_stream _ _ x [] bs Hwf Hty Hf) as (out & st & Eo & Hout & Hrows & _). split.
  - exact Hsch.
  - done.
  - change (∃ p, filter_RowCountBound (mkPull (op_state child) (mkFilterState x [])) = Ret p).
    unfold bounded in Hb. unfold filter_RowCountBound. cbn [p_child].
    destruct (row_bound (op_state child)) as [m|]; [|by eexists]. destruct Hb as [[rws tg] ->]. by eexists.
  - exists out. split; [|split; [done|]].
    + exact (pull_spec _ (mkFilterState x []) bs None out st Hr Eo).
    + rewrite Hrows. apply filter_canon; [by eapply rows_full|done].
Qed.

(** A scan of all row groups. *)
Lemma scan_produces n r src sess zp s :
  file_repr src r sess → describes n src → Forall (λ f, BuildType.real_type (Type_ f) = true) src → src ≠ [] →
  openScan n r zp 0 (Z.of_nat (length (RowGroups (r_meta r)))) = Ret s →
  produces (pack s) (ts_schema s) (table_rows (colMap s) zp (RowGroups (r_meta r)) (s_done sess)).
Proof.
  intros Hfile Hd Hreal Hne Hs. pose proof Hfile as (Hsrc & _ & Hst). rewrite <- Hsrc in Hd.
  destruct (openScan_spec _ _ _ _ _ _ Hd Hs) as (Hsame & _ & Es). rewrite Hsrc in *.
  pose proof (Forall2_length _ _ _ Hst) as Hlen. pose proof (Forall2_length _ _ _ Hsame) as Hlc.
  assert (Hsne : ts_schema s ≠ []).
  { intros E. rewrite E in Hlc. destruct (colMap s) eqn:Ec; [|done]. unfold openScan in Hs.
    destruct (NewTableScanRange r _ zp 0 _) as [ts| | |] eqn:Ets; try done. cbn [mbind go_bind] in Hs.
    pose proof (NewTableScanRange_colMap _ _ _ _ _ _ Ets) as Hcm. rewrite Hsrc in Hcm.
    assert (Ecm : colMap ts = []).
    { destruct (SourceNames n); [|by injection Hs as <-]. unfold SetOutputNames in Hs. case_decide; [done|]. by injection Hs as <-. }
    rewrite Ecm in Hcm. destruct (match SourceNames n with Some _ => _ | None => _ end); [|done].
    by destruct src. }
  rewrite Hlen in Es.
  assert (Hp : pending r (ts_schema s) sess (colMap s) zp s (from r sess (colMap s) zp 0 (length (s_done sess)))).
  { rewrite Es at 3. by apply (pending_start r (ts_schema s) sess (colMap s) zp 0 (length (s_done sess)) None). }
  destruct (table_runs r src (ts_schema s) sess (colMap s) zp Hfile Hsame Hsne s _ _ Hp) as (bs & s' & Hr & _ & Hwf & Hrows).
  split.
  - done.
  - apply Forall_lookup. intros j f Hf. destruct (Forall2_lookup_l _ _ _ _ _ Hsame Hf) as (c & _ & k & f' & _ & Hf' & ->).
    exact (Forall_lookup_1 _ _ _ _ Hreal Hf').
  - change (∃ p, scan_RowCountBound s = Ret p). rewrite (scan_bound_spec s 0 (length (s_done sess))) by by rewrite Es. by eexists.
  - exists bs. split; [by eapply runs_to_runs|]. split; [done|]. rewrite Hrows. unfold sub. rewrite !drop_0, Nat.sub_0_r, <- Hlen.
    rewrite firstn_all. rewrite Hlen. by rewrite firstn_all.
Qed.

(** The zone predicate decides nothing else about a scan. *)
Lemma openScan_zone n r zp a e s :
  openScan n r None a e = Ret s →
  ∃ s', openScan n r zp a e = Ret s' ∧ ts_schema s' = ts_schema s ∧ colMap s' = colMap s.
Proof.
  unfold openScan, NewTableScanRange. destruct (if decide _ then _ else _) as [[fs cm]| | |]; try done. cbn [mbind go_bind].
  destruct (SourceNames n).
  - unfold SetOutputNames. cbn [ts_schema]. case_decide; [done|]. intros [= <-]. by eexists.
  - intros [= <-]. by eexists.
Qed.

(** What the scan of a plan means: the rows of the whole file, WHERE the pushed
    predicate is true. *)
Inductive scan_answer (fs : FS) (n : LogicalScan) : Schema → list cells → Prop :=
  | scan_rows r src sess s :
      Open fs (FilePath n) = Ret r → file_repr src r sess → describes n src →
      Forall (λ f, BuildType.real_type (Type_ f) = true) src → src ≠ [] →
      openScan n r None 0 (Z.of_nat (length (RowGroups (r_meta r)))) = Ret s →
      ls_Predicate n = None →
      scan_answer fs n (ts_schema s) (session_rows (colMap s) sess)
  | scan_where r src sess s p x :
      Open fs (FilePath n) = Ret r → file_repr src r sess → describes n src →
      Forall (λ f, BuildType.real_type (Type_ f) = true) src → src ≠ [] →
      openScan n r None 0 (Z.of_nat (length (RowGroups (r_meta r)))) = Ret s →
      ls_Predicate n = Some p → buildExecExpr p (ts_schema s) = Ret x →
      scan_answer fs n (ts_schema s) (filter (cells_true x) (session_rows (colMap s) sess)).
(** The pushed predicate can run, and its zone test is exact. *)
Definition pushed_ok (n : LogicalScan) (schema : Schema) : Prop :=
  ∀ p x, ls_Predicate n = Some p → buildExecExpr p schema = Ret x →
    resolved p ∧ zone_exact p = true ∧ EType x = TypeBool ∧ executable true x = true.

Lemma physicalScan_produces fs n schema rows :
  scan_answer fs n schema rows → pushed_ok n schema → ∃ o, physicalScan fs n = Ret o ∧ produces o schema rows.
Proof.
  intros [r src sess s Ho Hfile Hd Hreal Hne Hs Hp|r src sess s p x Ho Hfile Hd Hreal Hne Hs Hp Hx] Hok;
    unfold physicalScan; rewrite Ho; cbn [mbind go_bind]; rewrite Hp; cbn [fmap option_fmap option_map].
  - rewrite Hs. cbn [mbind go_bind]. eexists. split; [done|].
    pose proof (scan_produces n r src sess None s Hfile Hd Hreal Hne Hs) as H.
    rewrite session_table_rows in H; [done|]. by destruct Hfile as (_ & _ & ?%Forall2_length).
  - destruct (Hok p x Hp Hx) as (Hres & Hex & Et & He).
    destruct (openScan_zone n r (Some (buildZonePredicate p (ls_Schema n))) _ _ s Hs) as (s' & Hs' & Esch & Ecm).
    rewrite Hs'. cbn [mbind go_bind]. rewrite <- Esch in Hx |- *.
    pose proof (scan_produces n r src sess _ s' Hfile Hd Hreal Hne Hs') as H.
    destruct (filter_produces _ _ _ p x H Hx Et He) as (o & Eo & Hprod). exists o. split; [exact Eo|].
    pose proof Hfile as (Hsrc & _ & Hst). rewrite <- Hsrc in Hd. destruct (openScan_spec _ _ _ _ _ _ Hd Hs') as (Hsame & Hreads & _).
    rewrite Hsrc in *. rewrite (table_rows_pruned n r src s' Hd Hsame Hreads p x _ _ Hst Hres Hex Hx) in Hprod.
    rewrite session_table_rows, Ecm in Hprod; [done|]. by apply Forall2_length in Hst.
Qed.

(** ** Property *)


(** WHERE id > 5 AND name = 'b' over the table of two row groups, its columns
    renamed: the first group is skipped. *)
Definition renamed_scan : LogicalScan :=
  mkScan "t" "t" [mkField "t.id" TypeInt64 EncPlain false; mkField "name" TypeString EncDict true]
    (Some (BinaryExpr OpAnd (BinaryExpr OpGT (ColumnRefExpr "" "t.id") (IntLiteral 5))
                            (BinaryExpr OpEQ (ColumnRefExpr "" "name") (StringLiteral "b"))))
    ["name"; "t.id"]%string (Some {["t.id" := "id"]}%string).
Lemma renamed_describes : describes renamed_scan plan_schema.
Proof. split; [by repeat constructor|]. split; apply (bool_decide_unpack _); vm_compute; done. Qed.
Definition renamed_schema : Schema := [mkField "name" TypeString EncDict true; mkField "t.id" TypeInt64 EncPlain false].
Definition renamed_table : TableScan := mkTableScan plan_reader renamed_schema [1; 0] None 0 2 0 None None.
Lemma renamed_open : openScan renamed_scan plan_reader None 0 2 = Ret renamed_table.
Proof. vm_compute. reflexivity. Qed.
