(* ===== verification/PlanAnswer.v ===== *)
(** * Package planner: what a plan answers

    [answer] is the meaning of a logical plan over the files it names, node by
    node on lists of rows: WHERE, SELECT, GROUP BY, ORDER BY, LIMIT, DISTINCT and
    the inner equi-join.  The operator tree [Physical] builds delivers an answer
    of its plan. *)
From Stdlib Require Import ZArith Lia ZifyNat Sorted.
From stdpp Require Import base numbers list strings gmap sorting.
From S2P Require Import SharedJoin Prelude Encoding Codec Float64 Schema Writer Reader Volume Batch Scratch Scan Lexer Strconv Ast Parser Format VExpr VKernel VCase VExprSpec Operator RowOps Distinct Sorting Emit Sort Pipeline Aggregate AggSpec AggKeys AggInt AggPath AggConsume AggValue AggOut AggRun RowStore JoinTable Join Morsel ExprWalk Coerce ExecExpr BuildType FloatInt ZonePred Logical PlanRows Physical PlanScan.
#[local] Open Scope Z_scope.

(** ** The meaning of a plan *)

Definition project_schema (pes : list ProjectExpr) : Schema :=
  (λ pe, mkField (pe_Name pe) (EType (pe_Expr pe)) EncPlain true) <$> pes.
Fixpoint distinct_cells (seen rows : list cells) : list cells :=
  match rows with
  | [] => []
  | r :: rows => if decide (r ∈ seen) then distinct_cells seen rows else r :: distinct_cells (r :: seen) rows
  end.
(** The input of an aggregate: with computed arguments, each row is extended. *)
Inductive agg_input (aggs : list AggItem) (schema : Schema) (rows : list cells) : Schema → list cells → Prop :=
  | input_plain : hasComplex aggs = false → agg_input aggs schema rows schema rows
  | input_computed pes : hasComplex aggs = true → preProjection aggs schema = Ret pes →
      agg_input aggs schema rows (project_schema pes) (cells_select pes <$> rows).

Inductive answer (fs : FS) : LogicalNode → Schema → list cells → Prop :=
  | ans_scan n schema rows : scan_answer fs n schema rows → answer fs (LScan n) schema rows
  | ans_filter c p schema rows x :
      answer fs c schema rows → buildExecExpr p schema = Ret x →
      answer fs (LFilter c p) schema (filter (cells_true x) rows)
  | ans_project c es schema rows pes :
      answer fs c schema rows → translateItems es schema = Ret pes →
      answer fs (LProject c es) (project_schema pes) (cells_select pes <$> rows)
  | ans_aggregate c gb aggs schema rows schema' rows' gs aes out :
      answer fs c schema rows → agg_input aggs schema rows schema' rows' →
      resolveAggConfig gb aggs schema' = Ret (gs, aes) →
      out ≡ₚ agg_result (Type_ <$> schema') gs aes rows' →
      answer fs (LAggregate c gb aggs) (agg_schema schema' gs aes) out
  | ans_sort c ob schema rows keys out :
      answer fs c schema rows → sortKeys ob schema = Ret keys →
      out ≡ₚ rows → StronglySorted (cmp_le (row_cmp keys)) out →
      (∀ r, filter (λ r', row_cmp keys r r' = Eq) out = filter (λ r', row_cmp keys r r' = Eq) rows) →
      answer fs (LSort c ob) schema out
  | ans_limit c n k schema rows :
      answer fs c schema rows → answer fs (LLimit c n k) schema (window n (Z.to_nat k) rows)
  | ans_join l r cond ls rs lrows rrows bk pk :
      answer fs l ls lrows → answer fs r rs rrows → joinKeys cond ls rs = Ret (bk, pk) →
      answer fs (LJoin l r cond) (ls ++ rs) (joined (Z.to_nat bk) (Z.to_nat pk) lrows rrows)
  | ans_distinct c schema rows :
      answer fs c schema rows → answer fs (LDistinct c) schema (distinct_cells [] rows).

(** ** Projections *)

Lemma foldM_map_inv {A B} (f : A → go B) l acc r :
  foldM (λ acc a, b ← f a; Ret (acc ++ [b])) acc l = Ret r → ∃ bs, r = acc ++ bs ∧ Forall2 (λ a b, f a = Ret b) l bs.
Proof.
  revert acc. induction l as [|a l IH]; intros acc; cbn [foldM].
  - intros [= <-]. exists []. by rewrite app_nil_r.
  - destruct (f a) as [b| | |] eqn:E; try done. cbn [mbind go_bind]. intros (bs & -> & H)%IH. exists (b :: bs).
    rewrite <- app_assoc. split; [done|]. by constructor.
Qed.
Lemma budget_le e : fits dictBound e = true → budget dictBound e ≤ dictBound.
Proof. destruct e; cbn [fits budget]; lia. Qed.

(** The expressions of a projection, ready to run. *)
Definition select_ok (schema : Schema) (pes : list ProjectExpr) : Prop :=
  Forall (λ pe, accepted (Type_ <$> schema) (pe_Expr pe) = true ∧ executable false (pe_Expr pe) = true) pes.
Lemma project_produces child schema rows pes :
  produces child schema rows → pes ≠ [] → select_ok schema pes →
  ∃ p, NewProject (op_state child) pes = Ret p ∧ produces (pack p) (project_schema pes) (cells_select pes <$> rows).
Proof.
  intros [Hsch Hreal _ (bs & Hr & Hwf & <-)] Hne Hok. unfold NewProject. rewrite decide_False by by destruct pes.
  eexists. split; [done|].
  assert (Hp : projects (Type_ <$> schema) dictBound dictBound pes (EType ∘ pe_Expr <$> pes)).
  { split; [done|]. split; [done|]. apply Forall2_fmap_r, Forall_Forall2_diag. eapply Forall_impl; [exact Hok|].
    intros pe [Ha (Ho & _ & Hf)%executable_inv]. cbn [compose]. split; [by apply accepted_typed|]. split; [done|]. by apply budget_le. }
  destruct (project_stream _ _ _ pes _ bs Hwf Hp) as (out & st & Eo & Hout & Hrows). split.
  - done.
  - apply Forall_fmap. eapply Forall_impl; [exact Hok|]. intros pe [Ha _]. cbn [compose Type_]. by eapply accepted_real.
  - done.
  - exists out. split; [exact (pull_spec _ (project_state pes) bs None out st Hr Eo)|]. split.
    + unfold project_schema. rewrite <- list_fmap_compose. exact Hout.
    + rewrite Hrows. apply select_canon; [by eapply rows_full|]. eapply Forall_impl; [exact Hok|].
      by intros pe [_ (_ & Hs & _)%executable_inv].
Qed.

(** ** The other operators *)

(** What the executor can hold: 32-bit offsets of the strings of a column, keys
    of 32-bit lengths, row numbers of 31 bits. *)
Definition sort_room (bs : list Batch) : Prop :=
  Forall row_fits (all_rows bs) ∧ ∀ j, weight (col_at j (r_cells <$> all_rows bs)) < 2 ^ 32.
Definition agg_room (tys : list DataType) (gs : list Z) (aes : list AggExpr) (bs : list Batch) : Prop :=
  Forall row_fits (all_rows bs) ∧ Z.of_nat (length (all_rows bs)) < 2 ^ 63 ∧
  (∃ U, Forall (gb_dicts gs U) bs ∧ Z.of_nat (length U) < 2 ^ 32) ∧
  ∀ j, weight (col_at j (agg_result tys gs aes (r_cells <$> all_rows bs))) < 2 ^ 32.
Definition join_room (bs : list Batch) : Prop :=
  Forall row_fits (all_rows bs) ∧ Z.of_nat (length (all_rows bs)) ≤ maxBuildRows ∧
  Forall (λ r, Forall (λ c, cell_weight c < 2 ^ 22) (r_cells r)) (all_rows bs).

Lemma sortKeys_valid ob schema keys :
  sortKeys ob schema = Ret keys → Forall (λ k, ColIdx k < length schema)%nat keys.
Proof.
  unfold sortKeys. set (step := λ (keys : list SortKey) (b : OrderByItem), _).
  cut (∀ acc, Forall (λ k, ColIdx k < length schema)%nat acc → foldM step acc ob = Ret keys →
    Forall (λ k, ColIdx k < length schema)%nat keys); [intros H E; by apply (H [])|].
  induction ob as [|[x d] ob IH]; intros acc Hacc; cbn [foldM]; [by intros [= <-]|].
  destruct (step acc (mkOrderBy x d)) as [acc'| | |] eqn:Es; try done. cbn [mbind go_bind]. apply IH. unfold step in Es.
  destruct x as [t name| | | | | | | | | | | | | | | | ]; try done.
  destruct (IndexOf_cases schema name) as [(k & f & E & Hf & _)|[E _]]; rewrite E in Es; [|done].
  destruct (Z.ltb_spec (Z.of_nat k) 0); [lia|]. injection Es as <-. apply Forall_app. split; [done|].
  constructor; [|done]. cbn. rewrite Nat2Z.id. by eapply lookup_lt_Some.
Qed.
Lemma sort_produces child schema rows keys s :
  produces child schema rows → Forall (λ k, ColIdx k < length schema)%nat keys →
  (∀ bs, runs (op_state child) bs None → sort_room bs) →
  NewExternalSort (op_state child) keys = Ret s →
  ∃ out, produces (pack s) schema out ∧ out ≡ₚ rows ∧ StronglySorted (cmp_le (row_cmp keys)) out ∧
    ∀ r, filter (λ r', row_cmp keys r r' = Eq) out = filter (λ r', row_cmp keys r r' = Eq) rows.
Proof.
  intros [Hsch Hreal _ (bs & Hr & Hwf & <-)] Hk Hroom Hs. destruct (Hroom bs Hr) as [Hf Hw].
  assert (Hne : keys ≠ []). { unfold NewExternalSort in Hs. by destruct keys. }
  edestruct (sort_runs (Type_ <$> schema) dictBound (2 ^ 32 - 1) (op_state child) keys bs None)
    as (s' & E & out & Hrun & Hout & _ & Hp & Hsorted & Hstable); [done|done|done|by unfold op_schema in Hsch; rewrite Hsch|done|by rewrite length_fmap|..].
  { intros j. specialize (Hw j). lia. }
  { lia. }
  rewrite Hs in E. injection E as <-. exists (r_cells <$> all_rows out). split; [|by split].
  split; [|done|done|].
  - unfold op_schema, pack. cbn [op_state]. unfold NewExternalSort in Hs. case_decide; [done|]. by injection Hs as <-.
  - exists out. split; [done|]. split; [|done]. eapply Forall_impl; [exact Hout|]. intros b. by apply batch_wf_mono.
Qed.

Lemma limit_produces child schema rows n k :
  produces child schema rows → 0 ≤ k → produces (buildLimitOp n k child) schema (window n (Z.to_nat k) rows).
Proof.
  intros [Hsch Hreal _ (bs & Hr & Hwf & <-)] Hk. split; [exact Hsch|done|done|].
  destruct (limit_stream _ _ r_cells n (Z.to_nat k) bs Hwf) as (out & rem' & sk' & E & Hout & Hrows & _).
  rewrite Z2Nat.id in E by done. exists out. split; [|by split].
  pose proof (pull_spec _ (mkLimitState n k) bs None out _ Hr E) as Hrun. by destruct (finished _) in Hrun.
Qed.

Lemma first_rows_cells rs seen : r_cells <$> first_rows seen rs = distinct_cells seen (r_cells <$> rs).
Proof.
  revert seen. induction rs as [|r rs IH]; intros seen; [done|]. cbn [first_rows fmap list_fmap distinct_cells].
  case_decide; [apply IH|]. cbn [fmap list_fmap]. by rewrite <- IH.
Qed.
Lemma distinct_produces child schema rows :
  produces child schema rows → (∀ bs, runs (op_state child) bs None → Forall row_fits (all_rows bs)) →
  produces (pack (NewDistinct (op_state child))) schema (distinct_cells [] rows).
Proof.
  intros [Hsch Hreal _ (bs & Hr & Hwf & <-)] Hroom. split; [exact Hsch|done|done|].
  destruct (distinct_stream _ _ bs (mkDistinctState ∅) [] Hwf) as (out & st & E & Hout & Hrows).
  { split; [by intros r ?%elem_of_nil|]. intros k. cbn [seen]. split; [set_solver|]. by intros (r & ?%elem_of_nil & _). }
  { by apply Hroom. }
  exists out. split; [exact (pull_spec _ (mkDistinctState ∅) bs None out st Hr E)|]. split; [done|].
  by rewrite Hrows, first_rows_cells.
Qed.

(** ** Aggregates *)

Lemma foldM_map_nil {A B} (f : A → go B) l r :
  foldM (λ acc a, b ← f a; Ret (acc ++ [b])) [] l = Ret r → Forall2 (λ a b, f a = Ret b) l r.
Proof. by intros (bs & -> & H)%foldM_map_inv. Qed.
Lemma real_types schema :
  Forall (λ f, BuildType.real_type (Type_ f) = true) schema → Forall Sort.real_type (Type_ <$> schema).
Proof. intros H. apply Forall_fmap. eapply Forall_impl; [exact H|]. intros f. cbn [compose]. by destruct (Type_ f). Qed.
Lemma resolveAggItem_valid schema agg ae :
  resolveAggItem schema agg = Ret ae → agg_valid (Type_ <$> schema) ae.
Proof.
  unfold resolveAggItem. destruct (aggKind schema agg) as [[kind col]| | |] eqn:Ek; try done. cbn [mbind go_bind].
  assert (Hcol : col = -1 ∨ ∃ k f, col = Z.of_nat k ∧ schema !! k = Some f).
  { unfold aggKind in Ek. destruct (IndexOf_cases schema (ai_ColName agg)) as [(k & f & E & Hf & _)|[E _]];
      rewrite E in Ek; repeat case_decide; simplify_eq; eauto. }
  destruct (bool_decide (col = -1) && _) eqn:Eb; [done|]. destruct Hcol as [->|(k & f & -> & Hf)].
  - rewrite bool_decide_true in Eb by done. apply negb_false_iff, andb_true_iff in Eb as [->%bool_decide_eq_true _].
    cbn [Z.leb Z.compare mbind go_bind]. rewrite bool_decide_false by (intros [|]; done). cbn [andb]. intros [= <-].
    left. split; [done|]. split; [done|]. by right.
  - destruct (Z.leb_spec 0 (Z.of_nat k)); [|lia]. rewrite Nat2Z.id, (index_Ret _ _ _ Hf). cbn [mbind go_bind].
    destruct (bool_decide (kind = AggSum ∨ kind = AggAvg) && _) eqn:En; [done|]. intros [= <-]. right. cbn. split; [lia|].
    exists (Type_ f). rewrite Nat2Z.id, list_lookup_fmap, Hf. split; [done|]. split; [by right|].
    destruct kind; try done; rewrite bool_decide_true in En by auto; by destruct (Type_ f).
Qed.
Lemma resolveAggConfig_valid gb aggs schema gs aes :
  resolveAggConfig gb aggs schema = Ret (gs, aes) →
  Forall (gb_valid (Type_ <$> schema)) gs ∧ Forall (agg_valid (Type_ <$> schema)) aes.
Proof.
  unfold resolveAggConfig. destruct (foldM _ [] gb) as [gs'| | |] eqn:Eg; try done. cbn [mbind go_bind].
  destruct (foldM _ [] aggs) as [aes'| | |] eqn:Ea; try done. cbn [mbind go_bind]. intros [= <- <-].
  apply foldM_map_nil in Eg, Ea. split.
  - eapply Forall2_Forall_r; [exact Eg|]. apply Forall_true. intros e i. unfold resolveGroupBy.
    destruct e as [t name| | | | | | | | | | | | | | | | ]; try done.
    destruct (IndexOf_cases schema name) as [(k & f & E & Hf & _)|[E _]]; rewrite E; [|done].
    destruct (Z.ltb_spec (Z.of_nat k) 0); [lia|]. intros [= <-]. split; [lia|].
    rewrite Nat2Z.id, length_fmap. by eapply lookup_lt_Some.
  - eapply Forall2_Forall_r; [exact Ea|]. apply Forall_true. intros agg ae. apply resolveAggItem_valid.
Qed.
Lemma agg_schema_real schema gs aes :
  Forall (λ f, BuildType.real_type (Type_ f) = true) schema → Forall (agg_valid (Type_ <$> schema)) aes →
  Forall (λ f, BuildType.real_type (Type_ f) = true) (agg_schema schema gs aes).
Proof.
  intros Hreal Haes. apply Forall_app. split.
  - apply Forall_forall. intros f (i & _ & Hf)%list_elem_of_omap. exact (Forall_lookup_1 _ _ _ _ Hreal Hf).
  - apply Forall_fmap. eapply Forall_impl; [exact Haes|]. intros ae _. cbn [compose agg_field Type_].
    unfold out_type, src_type. cbn [AggRun.resolved Aggregate.Kind a_ColIdx]. rewrite list_lookup_fmap.
    destruct (schema !! Z.to_nat (a_ColIdx ae)) as [f|] eqn:Ef; [pose proof (Forall_lookup_1 _ _ _ _ Hreal Ef)|]; by destruct (Aggregate.Kind ae).
Qed.
Lemma agg_produces child schema rows gs aes h :
  produces child schema rows → Forall (gb_valid (Type_ <$> schema)) gs → Forall (agg_valid (Type_ <$> schema)) aes →
  (∀ bs, runs (op_state child) bs None → agg_room (Type_ <$> schema) gs aes bs) →
  NewHashAggregate (op_state child) gs aes = Ret h →
  ∃ out, produces (pack h) (agg_schema schema gs aes) out ∧ out ≡ₚ agg_result (Type_ <$> schema) gs aes rows.
Proof.
  intros [Hsch Hreal _ (bs & Hr & Hwf & <-)] Hgs Haes Hroom Hh. destruct (Hroom bs Hr) as (Hf & Hlen & (U & HU & HlU) & Hw).
  assert (Hne : gs ≠ [] ∨ aes ≠ []).
  { unfold NewHashAggregate in Hh. case_decide as E; [done|]. destruct gs; [|by left]. destruct aes; [by destruct E|by right]. }
  unfold op_schema in Hsch.
  edestruct (agg_runs (Type_ <$> schema) dictBound (2 ^ 32 - 1) U gs aes (op_state child) bs None)
    as (h' & E & Hsch' & out & Hrun & Hout & _ & Hp);
    [done|done|done|by rewrite Hsch|by apply real_types|done|done|done|done|done|done| | |].
  { intros j. specialize (Hw j). lia. }
  { lia. }
  rewrite Hh in E. injection E as <-. exists (r_cells <$> all_rows out). split; [|done]. rewrite Hsch in Hsch'. split.
  - exact Hsch'.
  - by apply agg_schema_real.
  - done.
  - exists out. split; [done|]. split; [|done]. rewrite <- Hsch'. eapply Forall_impl; [exact Hout|]. intros b. by apply batch_wf_mono.
Qed.

(** ** Joins *)

Lemma joinKeys_valid cond ls rs bk pk :
  joinKeys cond ls rs = Ret (bk, pk) → 0 ≤ bk ∧ 0 ≤ pk.
Proof.
  unfold joinKeys. destruct cond as [| | | | | | |op l r| | | | | | | | | ]; try done. destruct op; try done.
  destruct l as [t l| | | | | | | | | | | | | | | | ]; try done. destruct r as [u r| | | | | | | | | | | | | | | | ]; try done.
  cbv zeta. destruct (if IndexOf ls l <? 0 then _ else _) as [b p]. destruct (_ || _) eqn:E; [done|]. intros [= <- <-].
  by apply orb_false_iff in E as [?%Z.ltb_ge ?%Z.ltb_ge].
Qed.
Lemma rows_typed tys D bs : Forall (batch_wf tys D) bs → Forall (λ r, Forall2 cell_has_type r tys) (r_cells <$> all_rows bs).
Proof.
  intros Hbs. apply Forall_fmap, Forall_forall. intros r (b & i & Hb & Hi & ->)%in_all_rows. rewrite Forall_forall in Hbs.
  destruct (Hbs b Hb) as (Hok & _ & _ & Hlt & _). rewrite Forall_forall in Hlt. apply (batch_cells tys D b); [done|by apply Hlt].
Qed.
(** Without BOOL columns the join's cells are its inputs'. *)
Lemma join_cell_typed c t : cell_has_type c t → t ≠ TypeBool → join_cell c = c.
Proof. destruct c as [[]|]; cbn; congruence. Qed.
Lemma joined_cells btys ptys bk pk brs prs :
  TypeBool ∉ btys ++ ptys → Forall (λ r, Forall2 cell_has_type r btys) brs → Forall (λ r, Forall2 cell_has_type r ptys) prs →
  (λ r : cells, join_cell <$> r) <$> joined bk pk brs prs = joined bk pk brs prs.
Proof.
  intros Hb Hbr Hpr. rewrite <- (list_fmap_id (joined bk pk brs prs)) at 2. apply list_fmap_ext. intros i r Hr.
  apply list_elem_of_lookup_2 in Hr. unfold joined in Hr.
  apply list_elem_of_In, in_concat in Hr as (rb & Hrb & Hr). apply list_elem_of_In in Hrb, Hr.
  apply list_elem_of_fmap in Hrb as (p & -> & Hp). destruct (key_of pk p) as [k|]; [|by apply elem_of_nil in Hr].
  apply list_elem_of_fmap in Hr as (b & -> & [_ Hbin]%list_elem_of_filter). rewrite Forall_forall in Hbr, Hpr.
  pose proof (Forall2_app (Hbr b Hbin) (Hpr p Hp)) as H. clear -H Hb.
  induction H as [|c t l l' Hc _ IH]; [done|]. cbn [fmap list_fmap id]. rewrite (join_cell_typed c t); [|done|set_solver].
  f_equal. apply IH. set_solver.
Qed.
Lemma out_types_id (tys : list DataType) : TypeBool ∉ tys → join_type <$> tys = tys.
Proof. induction tys as [|t tys IH]; [done|]. intros H. cbn [fmap list_fmap]. rewrite IH by set_solver. f_equal. destruct t; set_solver. Qed.

Lemma join_produces build probe ls rs lrows rrows bk pk j :
  produces build ls lrows → produces probe rs rrows → 0 ≤ bk → 0 ≤ pk → TypeBool ∉ (Type_ <$> (ls ++ rs)) →
  (∀ bs, runs (op_state build) bs None → join_room bs) →
  NewHashJoin (op_state build) (op_state probe) bk pk = Ret j →
  produces (pack j) (ls ++ rs) (joined (Z.to_nat bk) (Z.to_nat pk) lrows rrows).
Proof.
  intros [Hls Hlr Hlb (lbs & Hl & Hlw & <-)] [Hrs Hrr _ (rbs & Hr & Hrw & <-)] Hbk Hpk Hnb Hroom Hj.
  destruct (Hroom lbs Hl) as (Hf & Hmax & Hw). unfold op_schema in Hls, Hrs.
  assert (Hin : bk < Z.of_nat (length ls) ∧ pk < Z.of_nat (length rs) ∧ OpSchema j = ls ++ rs).
  { unfold NewHashJoin in Hj. rewrite Hls, Hrs in Hj. repeat case_decide; try done. injection Hj as <-.
    split; [lia|]. split; [lia|done]. }
  destruct Hin as (H1 & H2 & Hsch). destruct (bounded_presize _ Hlb) as [n Hn].
  edestruct (join_runs (Type_ <$> ls) (Type_ <$> rs) dictBound (2 ^ 22 - 1) dictBound (op_state build) (op_state probe)
    (Z.to_nat bk) (Z.to_nat pk) n lbs None rbs None) as (j' & E & out & Hrun & Hout & _ & Hrows);
    [done|done|done|done|done|by rewrite Hls|by rewrite Hrs|rewrite length_fmap; lia|rewrite length_fmap; lia
    |by apply real_types|exact Hn|done| |lia|lia|lia|].
  { eapply Forall_impl; [exact Hw|]. intros r Hr'. eapply Forall_impl; [exact Hr'|]. intros c. cbv beta. lia. }
  rewrite !Z2Nat.id, Hj in E by done. injection E as <-. split.
  - exact Hsch.
  - by apply Forall_app.
  - done.
  - exists out. split; [done|]. split.
    + unfold Join.out_types in Hout. rewrite <- fmap_app, out_types_id in Hout by done. exact Hout.
    + rewrite Hrows. apply (joined_cells (Type_ <$> ls) (Type_ <$> rs)); [by rewrite <- fmap_app|by eapply rows_typed..].
Qed.

(** ** Plans *)

(** The bounds of a plan: its scans read stored tables, its expressions are
    [executable], and the rows below each operator that keeps rows fit. *)
Fixpoint plan_ok (fs : FS) (node : LogicalNode) : Prop :=
  match node with
  | LScan n => ∃ schema rows, scan_answer fs n schema rows ∧ pushed_ok n schema
  | LFilter c p => plan_ok fs c ∧ ∀ child x,
      Physical fs c = Ret child → buildExecExpr p (op_schema child) = Ret x → executable true x = true
  | LProject c es => plan_ok fs c ∧ ∀ child pes,
      Physical fs c = Ret child → translateItems es (op_schema child) = Ret pes →
      Forall (λ pe, executable false (pe_Expr pe) = true) pes
  | LAggregate c gb aggs => plan_ok fs c ∧ (∀ child, Physical fs c = Ret child →
      (hasComplex aggs = true → NoDup (Name <$> op_schema child) ∧ (∀ pes, preProjection aggs (op_schema child) = Ret pes →
         Forall (λ pe, executable false (pe_Expr pe) = true) pes)) ∧
      (∀ input gs aes bs, buildPreProjection aggs child = Ret input → resolveAggConfig gb aggs (op_schema input) = Ret (gs, aes) →
        runs (op_state input) bs None → agg_room (Type_ <$> op_schema input) gs aes bs))
  | LSort c _ => plan_ok fs c ∧ ∀ child bs, Physical fs c = Ret child → runs (op_state child) bs None → sort_room bs
  | LLimit c _ k => plan_ok fs c ∧ 0 ≤ k
  | LJoin l r _ => plan_ok fs l ∧ plan_ok fs r ∧ (∀ build probe, Physical fs l = Ret build → Physical fs r = Ret probe →
      (TypeBool ∉ (Type_ <$> (op_schema build ++ op_schema probe))) ∧
      (∀ bs, runs (op_state build) bs None → join_room bs))
  | LDistinct c => plan_ok fs c ∧ ∀ child bs,
      Physical fs c = Ret child → runs (op_state child) bs None → Forall row_fits (all_rows bs)
  end.

Lemma foldM_preserves {A B} (P : A → Prop) (step : A → B → go A) l acc r :
  P acc → (∀ a b a', P a → step a b = Ret a' → P a') → foldM step acc l = Ret r → P r.
Proof.
  intros H0 Hstep. revert acc H0. induction l as [|b l IH]; intros acc H0; cbn [foldM]; [by intros [= <-]|].
  destruct (step acc b) as [a| | |] eqn:E; try done. cbn [mbind go_bind]. apply IH. by eapply Hstep.
Qed.
Lemma built_accepted schema e x :
  Forall (λ f, BuildType.real_type (Type_ f) = true) schema → buildExecExpr e schema = Ret x → accepted (Type_ <$> schema) x = true.
Proof. intros Hreal Hx. pose proof (buildExecExpr_built schema Hreal e) as Hb. unfold built in Hb. by rewrite Hx in Hb. Qed.
Lemma translateItems_accepted schema es pes :
  Forall (λ f, BuildType.real_type (Type_ f) = true) schema → translateItems es schema = Ret pes →
  Forall (λ pe, accepted (Type_ <$> schema) (pe_Expr pe) = true) pes.
Proof.
  intros Hreal. unfold translateItems. apply foldM_preserves; [done|]. intros acc pe acc' Hacc.
  destruct (buildExecExpr (pi_Expr pe) schema) as [x| | |] eqn:Ex; try done. cbn [mbind go_bind]. intros [= <-].
  apply Forall_app. split; [done|]. constructor; [|done]. by eapply built_accepted.
Qed.
Lemma preProjection_accepted schema aggs pes :
  Forall (λ f, BuildType.real_type (Type_ f) = true) schema → NoDup (Name <$> schema) → preProjection aggs schema = Ret pes →
  Forall (λ pe, accepted (Type_ <$> schema) (pe_Expr pe) = true) pes.
Proof.
  intros Hreal Hnd. unfold preProjection. apply foldM_preserves.
  - apply Forall_fmap, Forall_lookup. intros i f Hf. cbn [compose pe_Expr accepted]. rewrite (IndexOf_NoDup _ _ _ Hnd Hf).
    apply bool_decide_eq_true. split; [lia|]. by rewrite Nat2Z.id, list_lookup_fmap, Hf.
  - intros acc agg acc' Hacc. destruct (ai_AggExpr agg) as [e|]; [|by intros [= <-]].
    destruct (buildExecExpr e schema) as [x| | |] eqn:Ex; try done. cbn [mbind go_bind]. intros [= <-].
    apply Forall_app. split; [done|]. constructor; [|done]. by eapply built_accepted.
Qed.
Lemma select_ok_of schema pes :
  Forall (λ pe, accepted (Type_ <$> schema) (pe_Expr pe) = true) pes → Forall (λ pe, executable false (pe_Expr pe) = true) pes →
  select_ok schema pes.
Proof. intros H1 H2. unfold select_ok. by apply Forall_and. Qed.

(** The input of an aggregate. *)
Lemma input_produces aggs child schema rows o :
  produces child schema rows →
  (hasComplex aggs = true → NoDup (Name <$> schema) ∧ (∀ pes, preProjection aggs schema = Ret pes →
     Forall (λ pe, executable false (pe_Expr pe) = true) pes)) →
  buildPreProjection aggs child = Ret o →
  ∃ schema' rows', agg_input aggs schema rows schema' rows' ∧ produces o schema' rows'.
Proof.
  intros Hp Hok. unfold buildPreProjection. destruct (hasComplex aggs) eqn:Ec; cbn [negb].
  - rewrite (pr_schema _ _ _ Hp). destruct (preProjection aggs schema) as [pes| | |] eqn:Ep; try done. cbn [mbind go_bind].
    destruct Hok as [Hnd Hex]; [done|]. pose proof (pr_real _ _ _ Hp) as Hreal.
    destruct (decide (pes = [])) as [->|Hne]; [done|].
    destruct (project_produces child schema rows pes Hp Hne) as (p & E & Hpp).
    { apply select_ok_of; [by eapply preProjection_accepted|by apply Hex]. }
    rewrite E. cbn [mbind go_bind]. intros [= <-]. eexists _, _. split; [|exact Hpp]. by apply input_computed.
  - intros [= <-]. exists schema, rows. split; [by apply input_plain|done].
Qed.

Lemma go_bind_inv {A B} (m : go A) (f : A → go B) b : (a ← m; f a) = Ret b → ∃ a, m = Ret a ∧ f a = Ret b.
Proof. destruct m; try done. by eexists. Qed.
Lemma Physical_produces fs node o :
  plan_ok fs node → Physical fs node = Ret o → ∃ rows, answer fs node (op_schema o) rows ∧ produces o (op_schema o) rows.
Proof.
  revert o. induction node as [n|c IH p|c IH es|c IH gb aggs|c IH ob|c IH n k|l IHl r IHr cond|c IH]; intros o; cbn [plan_ok Physical].
  - intros (schema & rows & Ha & Hok) Ho. destruct (physicalScan_produces _ _ _ _ Ha Hok) as (o' & E & Hp).
    rewrite Ho in E. injection E as <-. rewrite (pr_schema _ _ _ Hp). exists rows. split; [by apply ans_scan|done].
  - intros [Hc He] (child & Ech & (x & Ex & Hf)%go_bind_inv)%go_bind_inv. destruct (IH child Hc Ech) as (rows & Ha & Hp).
    assert (Et : EType x = TypeBool). { unfold NewFilter in Hf. by case_decide. }
    destruct (filter_produces child _ rows p x Hp Ex Et (He _ _ Ech Ex)) as (o' & E & Hpo).
    unfold buildFilterOp in E. rewrite Ex in E. cbn [mbind go_bind] in E. rewrite Hf in E. injection E as <-.
    rewrite (pr_schema _ _ _ Hpo). eexists. split; [|exact Hpo]. by eapply ans_filter.
  - intros [Hc He] (child & Ech & (pes & Ex & (q & Hq & Ho)%go_bind_inv)%go_bind_inv)%go_bind_inv. destruct (IH child Hc Ech) as (rows & Ha & Hp).
    assert (Hne : pes ≠ []) by by intros ->. pose proof (pr_real _ _ _ Hp) as Hreal.
    destruct (project_produces child _ rows pes Hp Hne) as (q' & E & Hpo).
    { apply select_ok_of; [by eapply translateItems_accepted|by eapply He]. }
    rewrite Hq in E. injection E as <-. injection Ho as <-. rewrite (pr_schema _ _ _ Hpo). eexists. split; [|exact Hpo].
    by eapply ans_project.
  - intros [Hc He] (child & Ech & Ho)%go_bind_inv. destruct (IH child Hc Ech) as (rows & Ha & Hp). destruct (He child Ech) as [Hpre Hroom].
    unfold physicalAggregate in Ho. destruct (buildPreProjection aggs child) as [input| | |] eqn:Ei; try done.
    apply go_bind_inv in Ho as ([gs aes] & Er & (h & Eh & Ho)%go_bind_inv). injection Ho as <-.
    destruct (input_produces aggs child _ rows input Hp Hpre Ei) as (schema' & rows' & Hin & Hpi).
    pose proof (pr_schema _ _ _ Hpi) as Es. rewrite Es in Er. destruct (resolveAggConfig_valid _ _ _ _ _ Er) as [Hgs Haes].
    destruct (agg_produces input schema' rows' gs aes h Hpi Hgs Haes) as (out & Hpo & Hperm); [|done|].
    { intros bs Hbs. rewrite <- Es. apply (Hroom input); [done|by rewrite Es|done]. }
    rewrite (pr_schema _ _ _ Hpo). exists out. split; [|done]. by eapply ans_aggregate.
  - intros [Hc He] (child & Ech & (keys & Ek & (s & Hs & Ho)%go_bind_inv)%go_bind_inv)%go_bind_inv. destruct (IH child Hc Ech) as (rows & Ha & Hp).
    injection Ho as <-. destruct (sort_produces child _ rows keys s Hp (sortKeys_valid _ _ _ Ek)) as (out & Hpo & H1 & H2 & H3);
      [by intros bs; apply He|done|]. rewrite (pr_schema _ _ _ Hpo). exists out. split; [|done]. by eapply ans_sort.
  - intros [Hc He] (child & Ech & Ho)%go_bind_inv. destruct (IH child Hc Ech) as (rows & Ha & Hp). injection Ho as <-.
    pose proof (limit_produces child _ rows n k Hp He) as Hpo. rewrite (pr_schema _ _ _ Hpo). eexists. split; [|exact Hpo]. by apply ans_limit.
  - intros (Hl & Hr & He) (build & El & (probe & Er & ([bk pk] & Ek & (j & Hj & Ho)%go_bind_inv)%go_bind_inv)%go_bind_inv)%go_bind_inv.
    destruct (IHl build Hl El) as (lrows & Hal & Hpl). destruct (IHr probe Hr Er) as (rrows & Har & Hpr). injection Ho as <-.
    destruct (joinKeys_valid _ _ _ _ _ Ek) as [Hbk Hpk]. destruct (He build probe El Er) as [Hnb Hroom].
    pose proof (join_produces build probe _ _ lrows rrows bk pk j Hpl Hpr Hbk Hpk Hnb Hroom Hj) as Hpo.
    rewrite (pr_schema _ _ _ Hpo). eexists. split; [|exact Hpo]. by apply ans_join.
  - intros [Hc He] (child & Ech & Ho)%go_bind_inv. destruct (IH child Hc Ech) as (rows & Ha & Hp). injection Ho as <-.
    pose proof (distinct_produces child _ rows Hp (λ bs, He child bs Ech)) as Hpo. rewrite (pr_schema _ _ _ Hpo).
    eexists. split; [|exact Hpo]. by apply ans_distinct.
Qed.

(** ** Property *)


(** SELECT id, SUM(id * 2) AS s FROM t WHERE id > 2 GROUP BY id ORDER BY s DESC
    LIMIT 2 OFFSET 1. *)
Definition demo_source : LogicalScan := plan_scan (Some (BinaryExpr OpGT (ColumnRefExpr "" "id") (IntLiteral 2))).
Definition demo_aggs : list AggItem :=
  [mkAggItem "SUM" "_agg_0" (Some (BinaryExpr OpMul (ColumnRefExpr "" "id") (IntLiteral 2))) "s" false].
Definition demo_grouped : LogicalNode := LAggregate (LScan demo_source) [ColumnRefExpr "" "id"] demo_aggs.
Definition demo_plan : LogicalNode := LLimit (LSort demo_grouped [mkOrderBy (ColumnRefExpr "" "s") true]) 2 1.
Definition demo_rows : list cells :=
  [[Some (CInt 3); Some (CStr "b")]; [Some (CInt 10); Some (CStr "b")]; [Some (CInt 11); Some (CStr "a")]; [Some (CInt 12); None]].
Definition demo_groups : list cells :=
  [[Some (CInt 3); Some (CInt 6)]; [Some (CInt 10); Some (CInt 20)]; [Some (CInt 11); Some (CInt 22)]; [Some (CInt 12); Some (CInt 24)]].

Lemma demo_scan_answer : scan_answer plan_fs demo_source plan_schema demo_rows.
Proof.
  pose proof (scan_where plan_fs demo_source plan_reader plan_schema (spec_ops plan_schema emptySession plan_ops)
    (mkTableScan plan_reader plan_schema [0; 1] None 0 2 0 None None)
    (BinaryExpr OpGT (ColumnRefExpr "" "id") (IntLiteral 2))
    (BinOp BinGT (ColumnRef "id" 0 TypeInt64) (Literal (CInt 2) TypeInt64) TypeBool) plan_open plan_repr) as H.
  match type of H with context [filter ?P ?l] => assert (E : filter P l = demo_rows) by (vm_compute; reflexivity); rewrite E in H end.
  apply H; try done.
  - split; [by repeat constructor|]. split; apply (bool_decide_unpack _); vm_compute; done.
  - by repeat constructor.
Qed.
Lemma demo_pushed : pushed_ok demo_source plan_schema.
Proof.
  intros p x [= <-] [= <-]. split; [|done]. repeat constructor; vm_compute; intuition congruence.
Qed.
Lemma scan_child fs n schema rows child :
  scan_answer fs n schema rows → pushed_ok n schema → Physical fs (LScan n) = Ret child → produces child schema rows.
Proof. intros Ha Hok Hch. destruct (physicalScan_produces _ _ _ _ Ha Hok) as (o & E & Hp). cbn [Physical] in Hch. rewrite Hch in E. by rewrite (Ret_inj _ _ E). Qed.
(** The stream of an operator whose rows are known. *)
Lemma produces_runs o schema rows bs :
  produces o schema rows → runs (op_state o) bs None →
  Forall (batch_wf (Type_ <$> schema) dictBound) bs ∧ r_cells <$> all_rows bs = rows.
Proof. intros [_ _ _ (bs' & Hr' & H)] Hr. by destruct (runs_inj _ _ _ _ _ Hr Hr') as [-> _]. Qed.
Lemma rows_fit (rs : list Row) : Forall (Forall cell_fits) (r_cells <$> rs) → Forall row_fits rs.
Proof. rewrite Forall_fmap. done. Qed.

(** The columns below the aggregate: those of the table, and the argument. *)
Definition demo_pes : list ProjectExpr :=
  [mkProjectExpr "id" (ColumnRef "id" 0 TypeInt64); mkProjectExpr "name" (ColumnRef "name" 1 TypeString);
   mkProjectExpr "_agg_0" (BinOp BinMul (ColumnRef "id" 0 TypeInt64) (Literal (CInt 2) TypeInt64) TypeInt64)].
Definition demo_aes : list AggExpr := [mkAggExpr AggSum 2 "s" false TypeInt64].
Definition demo_types : list DataType := [TypeInt64; TypeString; TypeInt64].
Lemma demo_pre : preProjection demo_aggs plan_schema = Ret demo_pes.
Proof. vm_compute. reflexivity. Qed.
Lemma demo_config : resolveAggConfig [ColumnRefExpr "" "id"] demo_aggs (project_schema demo_pes) = Ret ([0], demo_aes).
Proof. vm_compute. reflexivity. Qed.
Lemma demo_result : agg_result demo_types [0] demo_aes (cells_select demo_pes <$> demo_rows) = demo_groups.
Proof. vm_compute. reflexivity. Qed.
Lemma demo_pre_ok pes : preProjection demo_aggs plan_schema = Ret pes → Forall (λ pe, executable false (pe_Expr pe) = true) pes.
Proof. rewrite demo_pre. intros [= <-]. by repeat constructor. Qed.
Lemma demo_names : NoDup (Name <$> plan_schema).
Proof. apply (bool_decide_unpack _). vm_compute. done. Qed.

(** The aggregate's input, and what it delivers. *)
Lemma demo_input child input : Physical plan_fs (LScan demo_source) = Ret child → buildPreProjection demo_aggs child = Ret input →
  produces child plan_schema demo_rows ∧ produces input (project_schema demo_pes) (cells_select demo_pes <$> demo_rows).
Proof.
  intros Hch Hin. pose proof (scan_child _ _ _ _ _ demo_scan_answer demo_pushed Hch) as Hp. split; [done|].
  destruct (input_produces demo_aggs child plan_schema demo_rows input Hp) as (schema' & rows' & Hai & Hpi); [|done|].
  { intros _. split; [exact demo_names|]. apply demo_pre_ok. }
  inversion Hai as [|pes _ Hpes]; [done|]. rewrite demo_pre in Hpes. injection Hpes as <-. by subst.
Qed.
Lemma demo_room bs :
  Forall (batch_wf demo_types dictBound) bs → r_cells <$> all_rows bs = cells_select demo_pes <$> demo_rows →
  agg_room demo_types [0] demo_aes bs.
Proof.
  intros Hwf Hrows. split; [apply rows_fit; rewrite Hrows; apply (bool_decide_unpack _); vm_compute; done|].
  split; [rewrite <- (length_fmap r_cells), Hrows; done|]. split.
  - exists []. split; [|done]. eapply Forall_impl; [exact Hwf|]. intros b ((_ & Hv) & _). constructor; [|done].
    intros codes dict nb Hvec. destruct (Forall2_lookup_l _ _ _ _ _ Hv Hvec) as (t & Ht & _ & Hty & _). by injection Ht as <-.
  - rewrite Hrows, demo_result. intros [|[|j]]; vm_compute; done.
Qed.
Lemma demo_agg_ok child : Physical plan_fs (LScan demo_source) = Ret child →
  (NoDup (Name <$> op_schema child) ∧ (∀ pes, preProjection demo_aggs (op_schema child) = Ret pes →
     Forall (λ pe, executable false (pe_Expr pe) = true) pes)) ∧
  (∀ input gs aes bs, buildPreProjection demo_aggs child = Ret input →
     resolveAggConfig [ColumnRefExpr "" "id"] demo_aggs (op_schema input) = Ret (gs, aes) →
     runs (op_state input) bs None → agg_room (Type_ <$> op_schema input) gs aes bs).
Proof.
  intros Hch. pose proof (scan_child _ _ _ _ _ demo_scan_answer demo_pushed Hch) as Hp. rewrite (pr_schema _ _ _ Hp). split.
  - split; [exact demo_names|]. apply demo_pre_ok.
  - intros input gs aes bs Hin Hcfg Hr. destruct (demo_input child input Hch Hin) as [_ Hpi].
    destruct (produces_runs _ _ _ _ Hpi Hr) as [Hwf Hrows]. rewrite (pr_schema _ _ _ Hpi) in *.
    rewrite demo_config in Hcfg. injection Hcfg as <- <-. by apply demo_room.
Qed.

Lemma Physical_aggregate fs c gb aggs o :
  Physical fs (LAggregate c gb aggs) = Ret o → ∃ child, Physical fs c = Ret child ∧ physicalAggregate gb aggs child = Ret o.
Proof. intros H. by apply go_bind_inv in H. Qed.
Lemma demo_grouped_produces child :
  Physical plan_fs demo_grouped = Ret child → ∃ schema out, produces child schema out ∧ out ≡ₚ demo_groups.
Proof.
  intros (c0 & Hc0 & Ho)%Physical_aggregate. unfold physicalAggregate in Ho.
  destruct (buildPreProjection demo_aggs c0) as [input| | |] eqn:Ei; [|discriminate Ho..].
  apply go_bind_inv in Ho as ([gs aes] & Er & (h & Eh & Ho)%go_bind_inv). rewrite <- (Ret_inj _ _ Ho).
  destruct (demo_input c0 input Hc0 Ei) as [_ Hpi]. rewrite (pr_schema _ _ _ Hpi), demo_config in Er. injection Er as <- <-.
  destruct (resolveAggConfig_valid _ _ _ _ _ demo_config) as [Hgs Haes].
  destruct (agg_produces input _ _ [0] demo_aes h Hpi Hgs Haes) as (out & Hpo & Hperm); [|done|].
  - intros bs Hbs. destruct (produces_runs _ _ _ _ Hpi Hbs). by apply demo_room.
  - exists (agg_schema (project_schema demo_pes) [0] demo_aes), out. split; [done|]. rewrite Hperm.
    change (Type_ <$> project_schema demo_pes) with demo_types. by rewrite demo_result.
Qed.
Lemma demo_plan_ok : plan_ok plan_fs demo_plan.
Proof.
  split; [|lia]. split.
  - split; [by exists plan_schema, demo_rows; split; [apply demo_scan_answer|apply demo_pushed]|]. intros child Hch. destruct (demo_agg_ok child Hch) as [H1 H2].
    split; [|exact H2]. intros _. exact H1.
  - intros child bs Hch Hr. destruct (demo_grouped_produces child Hch) as (schema & out & Hp & Hperm).
    destruct (produces_runs _ _ _ _ Hp Hr) as [_ Hrows]. split.
    + apply rows_fit. rewrite Hrows, Hperm. apply (bool_decide_unpack _). vm_compute. done.
    + intros j. rewrite Hrows, Hperm. destruct j as [|[|j]]; vm_compute; done.
Qed.
