(* ===== verification/Optimizer.v ===== *)
(** * Package planner: the optimizer ([planner/optimizer.go])

    [pushPredicates] moves filters into the scans below them and [pruneColumns]
    tells every scan which columns the plan above it reads.  A set of needed
    names is Go's slice: [None] is nil and stands for every column, [Some []] for
    none.  The map [want] of [pruneJoinColumns] is a set. *)
From Stdlib Require Import ZArith Lia ZifyNat.
From stdpp Require Import base numbers list strings gmap.
From S2P Require Import Prelude Encoding Codec Float64 Schema Writer Reader Volume Batch Scratch Scan Lexer Strconv Ast Parser Format VExpr VKernel VCase VExprSpec Operator RowOps Distinct Pipeline ExprWalk Coerce ExecExpr BuildType Logical PlanRows Physical PlanScan PlanAnswer.
#[local] Open Scope Z_scope.

(** ** Predicate pushdown *)

Definition set_predicate (n : LogicalScan) (p : Ast.Expr) : LogicalScan :=
  mkScan (TableName n) (FilePath n) (ls_Schema n) (Some p) (NeededCols n) (SourceNames n).
(** A filter over a scan joins the scan's predicate. *)
Definition pushInto (n : LogicalScan) (p : Ast.Expr) : LogicalScan :=
  set_predicate n (match ls_Predicate n with None => p | Some q => BinaryExpr OpAnd q p end).
Definition pushFilter (child : LogicalNode) (p : Ast.Expr) : LogicalNode :=
  match child with LScan n => LScan (pushInto n p) | child => LFilter child p end.
Fixpoint pushPredicates (node : LogicalNode) : LogicalNode :=
  match node with
  | LFilter c p => pushFilter (pushPredicates c) p
  | LProject c es => LProject (pushPredicates c) es
  | LAggregate c gb aggs => LAggregate (pushPredicates c) gb aggs
  | LSort c ob => LSort (pushPredicates c) ob
  | LLimit c n k => LLimit (pushPredicates c) n k
  | LDistinct c => LDistinct (pushPredicates c)
  | LJoin l r cond => LJoin (pushPredicates l) (pushPredicates r) cond
  | LScan n => LScan n
  end.

(** ** Column pruning *)

Abbreviation needed_set := (option (list string)).
Fixpoint uniqueFrom (seen : gset string) (ss : list string) : list string :=
  match ss with
  | [] => []
  | s :: ss => if decide (s ∈ seen) then uniqueFrom seen ss else s :: uniqueFrom ({[s]} ∪ seen) ss
  end.
Definition uniqueStrings (ss : list string) : list string := uniqueFrom ∅ ss.
Definition addNeeded (needed : needed_set) (extra : list string) : needed_set :=
  match needed with None => None | Some needed => Some (uniqueStrings (needed ++ extra)) end.
(** Nil when nothing matches. *)
Definition schemaColsIn (schema : Schema) (want : gset string) : needed_set :=
  match filter (λ name, name ∈ want) (Name <$> schema) with [] => None | out => Some out end.

Definition set_needed (n : LogicalScan) (cols : list string) : LogicalScan :=
  mkScan (TableName n) (FilePath n) (ls_Schema n) (ls_Predicate n) cols (SourceNames n).
Definition aggCols (gb : list Ast.Expr) (aggs : list AggItem) : list string :=
  concat (collectCols <$> gb)
  ++ concat ((λ agg, match ai_AggExpr agg with
                     | Some e => collectCols e
                     | None => if decide (ai_ColName agg = ""%string) then [] else [ai_ColName agg]
                     end) <$> aggs).
Definition sortCols (ob : list Ast.OrderByItem) : list string := concat ((λ '(mkOrderBy x _), collectCols x) <$> ob).
(** What each side of a join is asked for. *)
Definition joinNeeded (l r : LogicalNode) (cond : Ast.Expr) (needed : needed_set) : needed_set * needed_set :=
  match needed with
  | None => (None, None)
  | Some needed =>
      let want := list_to_set (needed ++ collectCols cond) in
      (schemaColsIn (OutputSchema l) want, schemaColsIn (OutputSchema r) want)
  end.
Fixpoint pruneColumns (node : LogicalNode) (needed : needed_set) : LogicalNode :=
  match node with
  | LScan n =>
      match needed with
      | None => LScan n
      | Some cols => LScan (set_needed n (uniqueStrings (cols ++ predicateCols (ls_Predicate n))))
      end
  | LFilter c p => LFilter (pruneColumns c (addNeeded needed (collectCols p))) p
  | LProject c es => LProject (pruneColumns c (Some (uniqueStrings (concat (collectCols ∘ pi_Expr <$> es))))) es
  | LAggregate c gb aggs => LAggregate (pruneColumns c (Some (uniqueStrings (aggCols gb aggs)))) gb aggs
  | LSort c ob => LSort (pruneColumns c (addNeeded needed (sortCols ob))) ob
  | LLimit c n k => LLimit (pruneColumns c needed) n k
  | LDistinct c => LDistinct (pruneColumns c needed)
  | LJoin l r cond =>
      let '(leftNeeded, rightNeeded) := joinNeeded l r cond needed in
      LJoin (pruneColumns l leftNeeded) (pruneColumns r rightNeeded) cond
  end.

Definition Optimize (root : LogicalNode) : LogicalNode := pruneColumns (pushPredicates root) None.

(** ** Sets of names *)

Lemma elem_of_uniqueFrom seen ss s : s ∈ uniqueFrom seen ss ↔ s ∈ ss ∧ s ∉ seen.
Proof.
  revert seen. induction ss as [|x ss IH]; intros seen; cbn [uniqueFrom]; [set_solver|].
  case_decide; rewrite ?elem_of_cons, IH; destruct (decide (s = x)) as [->|]; set_solver.
Qed.
Lemma elem_of_uniqueStrings ss s : s ∈ uniqueStrings ss ↔ s ∈ ss.
Proof. unfold uniqueStrings. rewrite elem_of_uniqueFrom. set_solver. Qed.
Lemma uniqueStrings_NoDup ss : NoDup (uniqueStrings ss).
Proof.
  unfold uniqueStrings. generalize (∅ : gset string). induction ss as [|x ss IH]; intros seen; cbn [uniqueFrom]; [constructor|].
  case_decide; [done|]. constructor; [|done]. rewrite elem_of_uniqueFrom. set_solver.
Qed.

(** ** A pushed filter keeps the answers *)

Lemma build_and l r schema x :
  buildExecExpr (BinaryExpr OpAnd l r) schema = Ret x ↔
  ∃ y z, buildExecExpr l schema = Ret y ∧ buildExecExpr r schema = Ret z ∧ x = AndExpr [y; z].
Proof.
  cbn [buildExecExpr]. unfold buildBinExpr. split.
  - intros (y & -> & (z & -> & [= <-])%go_bind_inv)%go_bind_inv. eauto.
  - by intros (y & z & -> & -> & ->).
Qed.
Lemma cells_true_and y z cs : cells_true (AndExpr [y; z]) cs ↔ cells_true z cs ∧ cells_true y cs.
Proof.
  unfold cells_true, keeps. cbn [row_eval map foldl]. rewrite tri_CBool.
  destruct (tri (row_eval (canon cs) y)) as [[]|], (tri (row_eval (canon cs) z)) as [[]|]; cbn; naive_solver.
Qed.
Lemma filter_and y z (rows : list cells) :
  filter (cells_true (AndExpr [y; z])) rows = filter (cells_true z) (filter (cells_true y) rows).
Proof. rewrite list_filter_filter. apply list_filter_iff. intros cs. apply cells_true_and. Qed.

Lemma openScan_predicate n p r zp a e : openScan (set_predicate n p) r zp a e = openScan n r zp a e.
Proof. done. Qed.
Lemma scan_answer_push fs n p schema rows :
  scan_answer fs (pushInto n p) schema rows ↔
  ∃ rows0 x, scan_answer fs n schema rows0 ∧ buildExecExpr p schema = Ret x ∧ rows = filter (cells_true x) rows0.
Proof.
  unfold pushInto. split.
  - intros [r src sess s Ho Hf Hd Hreal Hne Hs Hp|r src sess s q x Ho Hf Hd Hreal Hne Hs Hp Hx]; [done|].
    injection Hp as <-. destruct (ls_Predicate n) as [p0|] eqn:E.
    + apply build_and in Hx as (y & z & Hy & Hz & ->). rewrite filter_and. eexists _, z. split; [by eapply scan_where|done].
    + eexists _, x. split; [by eapply scan_rows|done].
  - intros (rows0 & x & Ha & Hx & ->).
    destruct Ha as [r src sess s Ho Hf Hd Hreal Hne Hs Hp|r src sess s q y Ho Hf Hd Hreal Hne Hs Hp Hy]; rewrite Hp.
    + by eapply scan_where.
    + rewrite <- filter_and. eapply scan_where; [done..|]. apply build_and. eauto.
Qed.

Lemma answer_filter_push fs c p schema rows :
  answer fs (pushFilter c p) schema rows ↔ answer fs (LFilter c p) schema rows.
Proof.
  destruct c; try done. split.
  - intros H. inversion H as [n schema0 rows0 Ha| | | | | | |]; subst. apply scan_answer_push in Ha as (rows0 & x & Ha & Hx & ->).
    eapply ans_filter; [by apply ans_scan|done].
  - intros H. inversion H as [|c p0 schema0 rows0 x Ha Hx| | | | | |]; subst. inversion Ha; subst.
    apply ans_scan, scan_answer_push. eauto.
Qed.
Lemma pushPredicates_answer fs node schema rows :
  answer fs (pushPredicates node) schema rows ↔ answer fs node schema rows.
Proof.
  assert (Hchild : ∀ c, (∀ schema rows, answer fs (pushPredicates c) schema rows ↔ answer fs c schema rows) →
    ∀ f : LogicalNode → LogicalNode,
    (∀ c c', (∀ schema rows, answer fs c schema rows → answer fs c' schema rows) →
      ∀ schema rows, answer fs (f c) schema rows → answer fs (f c') schema rows) →
    ∀ schema rows, answer fs (f (pushPredicates c)) schema rows ↔ answer fs (f c) schema rows).
  { intros c Hc f Hf s rs. split; apply Hf; intros s' rs'; apply Hc. }
  revert schema rows. induction node as [n|c IH p|c IH es|c IH gb aggs|c IH ob|c IH n k|l IHl r IHr cond|c IH]; intros schema rows;
    cbn [pushPredicates]; [done| | | | | | |].
  - rewrite answer_filter_push. apply (Hchild c IH (λ c, LFilter c p)). clear. intros c c' H s rs Ha.
    inversion Ha; subst; eapply ans_filter; eauto.
  - apply (Hchild c IH (λ c, LProject c es)). clear. intros c c' H s rs Ha. inversion Ha; subst; eapply ans_project; eauto.
  - apply (Hchild c IH (λ c, LAggregate c gb aggs)). clear. intros c c' H s rs Ha. inversion Ha; subst; eapply ans_aggregate; eauto.
  - apply (Hchild c IH (λ c, LSort c ob)). clear. intros c c' H s rs Ha. inversion Ha; subst; eapply ans_sort; eauto.
  - apply (Hchild c IH (λ c, LLimit c n k)). clear. intros c c' H s rs Ha. inversion Ha; subst; eapply ans_limit; eauto.
  - split; intros Ha; inversion Ha; subst; eapply ans_join; eauto; by (apply IHl || apply IHr).
  - apply (Hchild c IH LDistinct). clear. intros c c' H s rs Ha. inversion Ha; subst; eapply ans_distinct; eauto.
Qed.
