(* ===== verification/Prune.v ===== *)
(** * Package planner: column pruning keeps the rows

    A [view] relates an operator's columns before and after pruning: which of the
    columns are left, and that every needed name resolves to the same column.
    Expressions, sort keys, grouping keys and join keys then read the same cells,
    so that a plan and its pruned form answer alike. *)
From Stdlib Require Import ZArith Lia ZifyNat Sorted.
From stdpp Require Import base numbers list strings gmap sorting.
From S2P Require Import SharedJoin Prelude Encoding Codec Float64 Schema Writer Reader Volume Batch Scratch Scan Lexer Strconv Ast Parser Format VExpr VKernel VCase VExprSpec Operator RowOps Distinct Sorting Emit Sort Pipeline Aggregate AggSpec AggKeys AggInt AggPath AggConsume AggValue AggOut AggRun RowStore JoinTable Join Morsel ExprWalk Coerce ExecExpr BuildType FloatInt ZonePred Logical PlanRows Physical PlanScan PlanAnswer Optimizer.
#[local] Open Scope Z_scope.

(** ** Views *)

Definition narrow (ix : list nat) (r : cells) : cells := (λ i, default None (r !! i)) <$> ix.
Definition wanted (needed : needed_set) (name : string) : Prop := match needed with None => True | Some names => name ∈ names end.
(** A name is found in both schemas, at corresponding columns, or in neither. *)
Definition same_index (ix : list nat) (s s' : Schema) (name : string) : Prop :=
  (IndexOf s name = -1 ∧ IndexOf s' name = -1) ∨
  ∃ i j, IndexOf s name = Z.of_nat i ∧ IndexOf s' name = Z.of_nat j ∧ ix !! j = Some i.
Record view (needed : needed_set) (ix : list nat) (s s' : Schema) : Prop := {
  v_cols : Forall2 (λ i f, s !! i = Some f) ix s';
  v_names : ∀ name, wanted needed name → same_index ix s s' name;
  v_all : needed = None → s' = s ∧ ix = seq 0 (length s)
}.

Lemma IndexOf_absent s name : name ∉ Name <$> s → IndexOf s name = -1.
Proof. destruct (IndexOf_cases s name) as [(k & f & _ & Hf & <-)|[-> _]]; [|done]. intros []. apply list_elem_of_fmap. exists f. split; [done|]. by eapply list_elem_of_lookup_2. Qed.
Lemma view_id needed s : view needed (seq 0 (length s)) s s.
Proof.
  assert (Hc : Forall2 (λ i f, s !! i = Some f) (seq 0 (length s)) s).
  { apply Forall2_same_length_lookup. rewrite length_seq. split; [done|]. intros i k f [-> _]%lookup_seq Hf. done. }
  split; [done| |done]. intros name _. destruct (IndexOf_cases s name) as [(k & f & E & Hf & _)|[E _]]; [|by left].
  right. exists k, k. split; [done|]. split; [done|]. apply lookup_seq. split; [done|]. by eapply lookup_lt_Some.
Qed.
Lemma narrow_id (r : cells) : narrow (seq 0 (length r)) r = r.
Proof.
  apply list_eq. intros i. unfold narrow. rewrite list_lookup_fmap. destruct (decide (i < length r)%nat) as [Hi|Hi].
  - rewrite lookup_seq_lt by done. cbn. by destruct (lookup_lt_is_Some_2 _ _ Hi) as [c ->].
  - rewrite lookup_seq_ge, lookup_ge_None_2 by lia. done.
Qed.
Lemma narrow_rows_id (n : nat) (rows : list cells) : Forall (λ r, length r = n) rows → narrow (seq 0 n) <$> rows = rows.
Proof. induction 1 as [|r rows <- _ IH]; [done|]. cbn [fmap list_fmap]. by rewrite narrow_id, IH. Qed.
Lemma narrow_lookup ix (r : cells) j i : ix !! j = Some i → default None (narrow ix r !! j) = default None (r !! i).
Proof. intros H. unfold narrow. by rewrite list_lookup_fmap, H. Qed.
Lemma view_lookup needed ix s s' j f : view needed ix s s' → s' !! j = Some f → ∃ i, ix !! j = Some i ∧ s !! i = Some f.
Proof. intros [H _ _] Hf. destruct (Forall2_lookup_r _ _ _ _ _ H Hf) as (i & ? & ?). eauto. Qed.
Lemma view_subset needed ix s s' name : view needed ix s s' → name ∈ Name <$> s' → name ∈ Name <$> s.
Proof.
  intros Hv (f & -> & [j Hj]%list_elem_of_lookup_1)%list_elem_of_fmap. destruct (view_lookup _ _ _ _ _ _ Hv Hj) as (i & _ & Hi).
  apply list_elem_of_fmap. exists f. split; [done|]. by eapply list_elem_of_lookup_2.
Qed.
Lemma view_weaken needed needed' ix s s' :
  view needed ix s s' → (∀ name, wanted needed' name → wanted needed name) → (needed' = None → needed = None) → view needed' ix s s'.
Proof. intros [Hc Hn Ha] H1 H2. split; [done| |auto]. intros name Hw. auto. Qed.

(** Where a name leads, in both schemas. *)
Lemma view_index needed ix s s' name :
  view needed ix s s' → wanted needed name →
  (IndexOf s name = -1 ∧ IndexOf s' name = -1) ∨
  ∃ i j f, IndexOf s name = Z.of_nat i ∧ IndexOf s' name = Z.of_nat j ∧ ix !! j = Some i ∧ s !! i = Some f ∧ s' !! j = Some f.
Proof.
  intros Hv Hw. destruct (v_names _ _ _ _ Hv name Hw) as [|(i & j & Hi & Hj & Hx)]; [by left|]. right.
  destruct (IndexOf_cases s' name) as [(j' & f & Ej & Hf & _)|[Ej _]]; [|lia]. assert (j' = j) as -> by lia.
  destruct (view_lookup _ _ _ _ _ _ Hv Hf) as (i' & Hi' & Hf'). assert (i' = i) as -> by congruence. eauto 10.
Qed.

(** ** Expressions *)

(** An expression over the columns left, as one over all columns. *)
Section Widen.
Context (ix : list nat).
Definition wide_index (j : Z) : Z := Z.of_nat (default 0%nat (ix !! Z.to_nat j)).
Fixpoint widen (e : Expr) : Expr :=
  match e with
  | ColumnRef name j t => ColumnRef name (wide_index j) t
  | Literal v t => Literal v t
  | CastIntToFloatExpr x => CastIntToFloatExpr (widen x)
  | BinOp op x y t => BinOp op (widen x) (widen y) t
  | AndExpr es => AndExpr (map widen es)
  | OrExpr es => OrExpr (map widen es)
  | NotExpr x => NotExpr (widen x)
  | IsNullExpr x => IsNullExpr (widen x)
  | IsNotNullExpr x => IsNotNullExpr (widen x)
  | InExpr x set hasNull => InExpr (widen x) set hasNull
  | LikeExpr x p => LikeExpr (widen x) p
  | BetweenExpr x lo hi => BetweenExpr (widen x) (widen lo) (widen hi)
  | StringEqExpr j lit negate => StringEqExpr (wide_index j) lit negate
  | CaseExpr ws els t =>
      CaseExpr (map (λ '(c, x), (widen c, widen x)) ws) (match els with Some x => Some (widen x) | None => None end) t
  end.
Abbreviation wide_go m := (x ← m; Ret (widen x)).
Abbreviation widen2 := (λ '(l, r), (widen l, widen r)).

Lemma EType_widen e : EType (widen e) = EType e.
Proof using Type. by destruct e. Qed.
Lemma coerceOneSide_widen a b : coerceOneSide (widen a) (widen b) = widen (coerceOneSide a b).
Proof using Type. unfold coerceOneSide. rewrite EType_widen. destruct (EType a), b as [|[] []| | | | | | | | | | | |]; try done; cbn [widen]; by repeat case_match. Qed.
Lemma coercePair_widen l r : coercePair (widen l) (widen r) = widen2 (coercePair l r).
Proof using Type. unfold coercePair. by rewrite !coerceOneSide_widen. Qed.
Lemma castToFloat_widen e : castToFloat (widen e) = widen (castToFloat e).
Proof using Type. unfold castToFloat. rewrite EType_widen. case_decide; [|done]. destruct e as [|[] t| | | | | | | | | | | |]; done. Qed.
Lemma comparableOperands_widen l r : comparableOperands (widen l) (widen r) = (p ← comparableOperands l r; Ret (widen2 p)).
Proof using Type.
  unfold comparableOperands. rewrite !EType_widen, !castToFloat_widen. case_match; [done|]. case_match; [done|]. by destruct (EType l).
Qed.
Lemma stringEq_widen op l r : stringEq op (widen l) (widen r) = widen <$> stringEq op l r.
Proof using Type.
  unfold stringEq. rewrite !EType_widen. case_match; [|done]. by destruct l as [|[]| | | | | | | | | | | |], r as [|[]| | | | | | | | | | | |].
Qed.
Lemma buildBinary_widen op l r : buildBinary op (widen l) (widen r) = wide_go (buildBinary op l r).
Proof using Type.
  unfold buildBinary. rewrite coercePair_widen. destruct (coercePair l r) as [l1 r1]. rewrite stringEq_widen.
  destruct (stringEq op l1 r1) as [e|]; [done|]. cbn [fmap option_fmap option_map]. rewrite !EType_widen.
  destruct (sqlOpToExecOp op) as [[k []]| | |]; try done; cbn [mbind go_bind].
  - case_match; [|done]. cbn [mbind go_bind widen]. by repeat case_decide.
  - rewrite comparableOperands_widen. by destruct (comparableOperands l1 r1) as [[]| | |].
Qed.
Lemma buildNegation_widen x : buildNegation (widen x) = wide_go (buildNegation x).
Proof using Type. unfold buildNegation. rewrite EType_widen. by destruct (EType x). Qed.
Lemma negateIf_widen no e : negateIf no (widen e) = widen (negateIf no e).
Proof using Type. by destruct no. Qed.
Lemma buildBetween_widen x lo hi no : buildBetween (widen x) (widen lo) (widen hi) no = wide_go (buildBetween x lo hi no).
Proof using Type.
  unfold buildBetween. rewrite !coerceOneSide_widen. unfold castThree. rewrite !EType_widen, !castToFloat_widen.
  set (b := _ || _ || _). destruct b; rewrite !comparableOperands_widen;
    (destruct (comparableOperands _ _) as [[]| | |]; try done; cbn [mbind go_bind];
     destruct (comparableOperands _ _) as [[]| | |]; try done; cbn [mbind go_bind]; by destruct no).
Qed.
Lemma buildCase_widen ws els :
  buildCase (map widen2 ws) (widen <$> els) = wide_go (buildCase ws els).
Proof using Type.
  unfold buildCase.
  assert (Et : match map widen2 ws with (_, x) :: _ => EType x | [] => TypeFloat64 end
    = match ws with (_, x) :: _ => EType x | [] => TypeFloat64 end).
  { destruct ws as [|[] ?]; [done|]. cbn [map]. apply EType_widen. }
  rewrite Et. set (t := match ws with [] => _ | _ => _ end).
  assert (Ef : forallb (λ '(_, x), bool_decide (EType x = t)) (map widen2 ws) = forallb (λ '(_, x), bool_decide (EType x = t)) ws).
  { clearbody t. clear Et. induction ws as [|[c x] ws IH]; [done|]. cbn [map forallb]. by rewrite EType_widen, IH. }
  rewrite Ef. destruct (forallb _ ws); [|done]. destruct els as [x|]; [|done]. cbn [fmap option_fmap option_map].
  rewrite EType_widen. by destruct (bool_decide _).
Qed.
End Widen.

(** ** Translation against either schema *)

(** Columns without a qualifier, as name resolution leaves them. *)
Definition bare (e : Ast.Expr) : Prop :=
  Forall (λ n, match n with ColumnRefExpr t _ => t = ""%string | _ => True end) (walkExpr e).
Definition reads_only (needed : needed_set) (n : Ast.Expr) : Prop :=
  match n with ColumnRefExpr t name => t = ""%string ∧ wanted needed name | _ => True end.
Lemma bare_reads needed e :
  bare e → (∀ name, name ∈ collectCols e → wanted needed name) → Forall (reads_only needed) (walkExpr e).
Proof.
  unfold bare, collectCols. induction (walkExpr e) as [|n l IH]; intros Hb Hc; [done|].
  apply List.Forall_cons_iff in Hb as [Hn Hb]. constructor.
  - destruct n; try done. split; [done|]. apply Hc. cbn [omap list_omap]. by left.
  - apply IH; [done|]. intros name Hin. apply Hc. cbn [omap list_omap]. destruct n; try done. by right.
Qed.

Section Build.
Context (needed : needed_set) (ix : list nat) (s s' : Schema) (Hv : view needed ix s s').
Abbreviation wide_go m := (x ← m; Ret (widen ix x)).

Lemma buildColumn_widen name : wanted needed name → buildColumn s "" name = wide_go (buildColumn s' "" name).
Proof using Hv.
  intros Hw. unfold buildColumn, resolveColumn. rewrite !decide_False by auto.
  destruct (view_index _ _ _ _ _ Hv Hw) as [[-> ->]|(i & j & f & -> & -> & Hx & Hf & Hf')]; [done|].
  destruct (Z.ltb_spec (Z.of_nat i) 0); [lia|]. destruct (Z.ltb_spec (Z.of_nat j) 0); [lia|].
  rewrite !Nat2Z.id, (index_Ret _ _ _ Hf), (index_Ret _ _ _ Hf'). cbn [mbind go_bind widen]. unfold wide_index.
  by rewrite Nat2Z.id, Hx.
Qed.
Lemma wide_bind {B} (m : go Expr) (k : Expr → go B) : (x ← wide_go m; k x) = (x ← m; k (widen ix x)).
Proof using Type. by destruct m. Qed.

Lemma buildExecExpr_widen e :
  Forall (reads_only needed) (walkExpr e) → buildExecExpr e s = wide_go (buildExecExpr e s').
Proof using Hv.
  induction e using Expr_ast_ind; intros Hr; try done; cbn [buildExecExpr walkExpr] in *.
  - apply List.Forall_inv in Hr as [-> Hw]. by apply buildColumn_widen.
  - apply List.Forall_inv_tail, Forall_app in Hr as [H1 H2]. unfold buildBinExpr. rewrite (IHe1 H1), (IHe2 H2), wide_bind.
    destruct (buildExecExpr e1 s') as [l| | |]; try done. cbn [mbind go_bind]. rewrite wide_bind.
    destruct (buildExecExpr e2 s') as [r| | |]; try done. cbn [mbind go_bind]. rewrite buildBinary_widen. by destruct op.
  - apply List.Forall_inv_tail in Hr. rewrite (IHe Hr), wide_bind. destruct (buildExecExpr e s'); try done. cbn [mbind go_bind].
    rewrite buildNegation_widen. by destruct op.
  - apply List.Forall_inv_tail in Hr. rewrite (IHe Hr), wide_bind. destruct (buildExecExpr e s'); try done. by destruct n.
  - apply List.Forall_inv_tail, Forall_app in Hr as [H1 [H2 H3]%Forall_app]. rewrite (IHe1 H1), (IHe2 H2), (IHe3 H3).
    destruct (buildExecExpr e1 s'); try done. cbn [mbind go_bind]. destruct (buildExecExpr e2 s'); try done. cbn [mbind go_bind].
    destruct (buildExecExpr e3 s'); try done. cbn [mbind go_bind]. apply buildBetween_widen.
  - apply List.Forall_inv_tail, Forall_app in Hr as [H1 _]. rewrite (IHe H1), wide_bind.
    destruct (buildExecExpr e s') as [x| | |]; try done. cbn [mbind go_bind]. rewrite EType_widen.
    destruct (buildIn _ _ _ _) as [[set h]| | |]; try done. by destruct n.
  - apply List.Forall_inv_tail, Forall_app in Hr as [H1 _]. rewrite (IHe1 H1), wide_bind.
    destruct (buildExecExpr e1 s') as [x| | |]; try done. cbn [mbind go_bind]. rewrite EType_widen. case_decide; [done|].
    destruct e2; try done. by destruct n.
  - apply List.Forall_inv_tail, Forall_app in Hr as [Hws Hels].
    set (fw := fix buildWhens (ws : list WhenClause) := match ws with [] => _ | mkWhen c x :: ws => cond ← buildExecExpr c s; _ end) at 1.
    set (fw' := fix buildWhens (ws : list WhenClause) := match ws with [] => _ | mkWhen c x :: ws => cond ← buildExecExpr c s'; _ end).
    assert (Hw : fw ws = (l ← fw' ws; Ret (map (λ '(c, x), (widen ix c, widen ix x)) l))).
    { clear H0 Hels els. induction H as [|[c x] ws [Hc Hx] _ IH]; [done|]. cbn [walkExpr] in Hws.
      apply Forall_app in Hws as [H1 [H2 H3]%Forall_app]. cbn [fw fw']. rewrite (Hc H1), (Hx H2).
      destruct (buildExecExpr c s') as [cond| | |]; try done. cbn [mbind go_bind]. rewrite EType_widen. case_decide; [done|].
      destruct (buildExecExpr x s') as [res| | |]; try done. cbn [mbind go_bind]. fold fw fw'. rewrite (IH H3). by destruct (fw' ws). }
    rewrite Hw. destruct (fw' ws) as [whens| | |]; try done. cbn [mbind go_bind].
    destruct els as [x|]; [|exact (buildCase_widen ix whens None)]. simpl in H0. rewrite (H0 Hels).
    destruct (buildExecExpr x s') as [y| | |]; try done. exact (buildCase_widen ix whens (Some y)).
Qed.

(** The value of a translated expression, on a row and on what is left of it. *)
Lemma accepted_index j t r :
  bool_decide (0 ≤ j ∧ (Type_ <$> s') !! Z.to_nat j = Some t) = true →
  ∃ i, ix !! Z.to_nat j = Some i ∧ narrow ix r !! Z.to_nat j = Some (default None (r !! i)).
Proof using Hv.
  intros [_ Hj]%bool_decide_eq_true. apply list_lookup_fmap_Some in Hj as (f & _ & Hf).
  destruct (view_lookup _ _ _ _ _ _ Hv Hf) as (i & Hi & _). exists i. split; [done|]. unfold narrow. by rewrite list_lookup_fmap, Hi.
Qed.
Lemma row_eval_widen r e :
  accepted (Type_ <$> s') e = true → row_eval (canon r) (widen ix e) = row_eval (canon (narrow ix r)) e.
Proof using Hv.
  induction e using Expr_nested_ind; cbn [accepted widen row_eval]; intros Ha.
  - destruct (accepted_index _ _ r Ha) as (k & Hi & Hn). cbn [canon r_cells]. unfold wide_index. by rewrite Nat2Z.id, Hn, Hi.
  - done.
  - apply andb_true_iff in Ha as [_ Ha]. by rewrite IHe.
  - apply andb_true_iff in Ha as [[H1 H2]%andb_true_iff _]. by rewrite IHe1, IHe2.
  - do 2 f_equal. induction H as [|x es Hx _ IH]; [done|]. cbn [map forallb] in *. apply andb_true_iff in Ha as [H1 H2]. by rewrite Hx, IH.
  - do 2 f_equal. induction H as [|x es Hx _ IH]; [done|]. cbn [map forallb] in *. apply andb_true_iff in Ha as [H1 H2]. by rewrite Hx, IH.
  - by rewrite IHe.
  - by rewrite IHe.
  - by rewrite IHe.
  - by rewrite IHe.
  - apply andb_true_iff in Ha as [_ Ha]. by rewrite IHe.
  - rewrite !andb_true_iff in Ha. destruct Ha as [[[[H1 H2] H3] _] _]. by rewrite IHe1, IHe2, IHe3.
  - destruct (accepted_index _ _ r Ha) as (k & Hi & Hn). cbn [canon r_cells r_dict]. unfold wide_index. rewrite Nat2Z.id, Hn, Hi.
    cbn [default id]. by destruct (r !! k) as [c|].
  - rewrite !andb_true_iff in Ha. destruct Ha as [[_ Hw] He].
    induction H as [|[c x] ws [Hc Hx] _ IH]; cbn [map].
    + destruct els as [x|]; [|done]. apply andb_true_iff in He as [He _]. by apply H0.
    + cbn [forallb fst snd] in *. rewrite !andb_true_iff in Hw. destruct Hw as [[[[H1 H2] _] _] Hw]. by rewrite Hc, Hx, IH.
Qed.
Lemma cells_true_widen x r : accepted (Type_ <$> s') x = true → (cells_true (widen ix x) r ↔ cells_true x (narrow ix r)).
Proof using Hv. intros Ha. unfold cells_true, keeps. by rewrite row_eval_widen. Qed.
End Build.
