(* ===== verification/PruneScan.v ===== *)
(** * Package planner: pruned scans

    A scan of some columns delivers, row by row, what the scan of all columns
    does, less the columns left out; and the sort order and other list facts that
    carry over to narrowed rows. *)
From Stdlib Require Import ZArith Lia ZifyNat Sorted.
From stdpp Require Import base numbers list strings gmap sorting.
From S2P Require Import SharedJoin Prelude Encoding Codec Float64 Schema Writer Reader Volume Batch Scratch Scan Lexer Strconv Ast Parser Format VExpr VKernel VCase VExprSpec Operator RowOps Distinct Sorting Emit Sort Pipeline Aggregate AggSpec AggKeys AggInt AggPath AggConsume AggValue AggOut AggRun RowStore JoinTable Join Morsel ExprWalk Coerce ExecExpr BuildType FloatInt ZonePred Logical PlanRows Physical PlanScan PlanAnswer Optimizer Prune.
#[local] Open Scope Z_scope.

(** ** The columns a scan opens *)

Definition as_named (name : string) (f : Field) : Field := mkField name (Type_ f) (Enc f) (Nullable f).
Lemma as_named_own f : as_named (Name f) f = f.
Proof. by destruct f. Qed.

Lemma NewTableScanRange_cols r names zp a e s :
  NewTableScanRange r names zp a e = Ret s →
  Forall2 (λ c f, fm_Schema (r_meta r) !! Z.to_nat c = Some f) (colMap s) (ts_schema s).
Proof.
  set (src := fm_Schema (r_meta r)). unfold NewTableScanRange. fold src. intros (p & Hp & Hs)%go_bind_inv. destruct p as [fs cm].
  injection Hs as <-. cbn [colMap ts_schema]. case_decide.
  - injection Hp as <- <-. apply Forall2_same_length_lookup. rewrite length_fmap, length_seq. split; [done|].
    intros i c f (k & -> & [-> _]%lookup_seq)%list_lookup_fmap_Some Hf. by rewrite Nat2Z.id.
  - revert Hp. cut (∀ fs0 cm0, Forall2 (λ c f, src !! Z.to_nat c = Some f) cm0 fs0 →
      foldM (λ '(fs, cm) name,
        let idx := IndexOf src name in
        if decide (idx < 0) then Err (ErrMsg "exec: scan: column not found") else
        f ← index src (Z.to_nat idx); Ret (fs ++ [f], cm ++ [idx])) (fs0, cm0) names = Ret (fs, cm) →
      Forall2 (λ c f, src !! Z.to_nat c = Some f) cm fs); [intros H'; by apply H'|].
    clear H. induction names as [|name names IH]; intros fs0 cm0 H0; cbn [foldM]; [by intros [= <- <-]|].
    intros (acc & Hacc & Hrest)%go_bind_inv. cbv zeta in Hacc. case_decide; [done|].
    apply go_bind_inv in Hacc as (f & Hf & [= <-]). apply IH in Hrest; [done|]. apply Forall2_app; [done|]. constructor; [|done].
    unfold index in Hf. destruct (src !! _) eqn:E; [by injection Hf as <-|done].
Qed.

Definition out_names (n : LogicalScan) : list string := match NeededCols n with [] => Name <$> ls_Schema n | names => names end.
(** Column [j] of an opened scan is column [i] of the table. *)
Definition opened (n : LogicalScan) (src : Schema) (s : TableScan) : Prop :=
  length (ts_schema s) = length (out_names n) ∧ length (colMap s) = length (out_names n) ∧
  ∀ j name, out_names n !! j = Some name →
    ∃ i f g, ls_Schema n !! i = Some f ∧ Name f = name ∧ src !! i = Some g ∧
      colMap s !! j = Some (Z.of_nat i) ∧ ts_schema s !! j = Some (as_named name g).

Definition knows (n : LogicalScan) : Prop := Forall (λ name, name ∈ Name <$> ls_Schema n) (NeededCols n).
Lemma openScan_opened n r zp a e s :
  describes n (fm_Schema (r_meta r)) → knows n → openScan n r zp a e = Ret s → opened n (fm_Schema (r_meta r)) s.
Proof.
  intros Hd Hk Hs. destruct (openScan_spec _ _ _ _ _ _ Hd Hs) as (Hsame & Hreads & _).
  pose proof (Forall2_length _ _ _ Hsame) as Hlen. set (src := fm_Schema (r_meta r)) in *.
  assert (H : length (ts_schema s) = length (out_names n) ∧ ∀ j name, out_names n !! j = Some name →
    ∃ c g, colMap s !! j = Some c ∧ src !! Z.to_nat c = Some g ∧ ts_schema s !! j = Some (as_named name g)).
  { unfold openScan in Hs. apply go_bind_inv in Hs as (ts & Hts & Hs). pose proof (NewTableScanRange_cols _ _ _ _ _ _ Hts) as Hc.
    fold src in Hc. destruct (SourceNames n) as [names|] eqn:En.
    - unfold SetOutputNames in Hs. fold (out_names n) in Hs. destruct (decide (length (out_names n) ≠ length (ts_schema ts))) as [|El%dec_stable]; [done|].
      injection Hs as <-. cbn [ts_schema colMap]. rewrite length_zip_with, El, Nat.min_id. split; [done|]. intros j name Hj.
      destruct (lookup_lt_is_Some_2 (ts_schema ts) j) as [f Hf]; [rewrite <- El; by eapply lookup_lt_Some|].
      destruct (Forall2_lookup_r _ _ _ _ _ Hc Hf) as (c & Hcj & Hg). exists c, f. split; [done|]. split; [done|].
      rewrite lookup_zip_with, Hf, Hj. done.
    - injection Hs as ->. pose proof (NewTableScanRange_spec r (NeededCols n) zp a e) as Hsp. cbv zeta in Hsp. fold src in Hsp.
      case_decide; [|destruct Hsp; congruence]. destruct Hsp as (s' & E & Hnames & _). rewrite Hts in E. injection E as <-.
      assert (Eo : Name <$> ts_schema s = out_names n).
      { rewrite Hnames. unfold out_names. destruct (NeededCols n); [|done]. rewrite decide_True by done.
        destruct Hd as (Hty & _). clear -Hty En. unfold sourceName in Hty. rewrite En in Hty. fold src in Hty.
        induction Hty as [|f g l l' [_ E] _ IH]; [done|]. cbn [fmap list_fmap]. by rewrite IH, <- E. }
      rewrite <- Eo, length_fmap. split; [done|]. intros j name (f & -> & Hf)%list_lookup_fmap_Some.
      destruct (Forall2_lookup_r _ _ _ _ _ Hc Hf) as (c & Hcj & Hg). exists c, f. by rewrite as_named_own. }
  destruct H as [Hl H]. split; [done|]. split; [lia|]. intros j name Hj. destruct (H j name Hj) as (c & g & Hc & Hg & Hf).
  assert (Hin : name ∈ Name <$> ls_Schema n).
  { unfold out_names in Hj. unfold knows in Hk. apply list_elem_of_lookup_2 in Hj. destruct (NeededCols n); [done|].
    rewrite Forall_forall in Hk. by apply Hk. }
  destruct (IndexOf_cases (ls_Schema n) name) as [(i & f & E & Hi & En)|[_ Hno]]; [|done].
  assert (Hcm : colMap s !! j = Some (Z.of_nat i)) by (eapply Hreads; [exact Hf|exact E]).
  rewrite Hcm in Hc. injection Hc as <-. rewrite Nat2Z.id in Hg. by exists i, f, g.
Qed.
(** A scan of known columns opens. *)
Lemma openScan_total n r zp a e :
  describes n (fm_Schema (r_meta r)) → knows n → ∃ s, openScan n r zp a e = Ret s.
Proof.
  intros Hd Hk. set (src := fm_Schema (r_meta r)) in *. unfold openScan.
  set (cols := match SourceNames n with Some _ => _ | None => _ end).
  assert (Hcols : cols = sourceName n <$> NeededCols n).
  { unfold cols, sourceName. destruct (SourceNames n); [done|]. by rewrite list_fmap_id. }
  pose proof (NewTableScanRange_spec r cols zp a e) as Hsp. cbv zeta in Hsp. fold src in Hsp. rewrite decide_True in Hsp.
  - destruct Hsp as (s & -> & Hnames & _). cbn [mbind go_bind]. destruct (SourceNames n); [|by exists s].
    unfold SetOutputNames. rewrite decide_False; [by eexists|]. intros []. apply (f_equal length) in Hnames.
    rewrite length_fmap in Hnames. rewrite Hnames, Hcols. destruct (NeededCols n) as [|c cs].
    + cbn [fmap list_fmap]. rewrite decide_True, !length_fmap by done. by destruct Hd as (?%Forall2_length & _).
    + rewrite decide_False, length_fmap by done. done.
  - rewrite Hcols. apply Forall_fmap. eapply Forall_impl; [exact Hk|]. intros name (f & -> & [i Hf]%list_elem_of_lookup_1)%list_elem_of_fmap.
    destruct Hd as (Hty & _). destruct (Forall2_lookup_l _ _ _ _ _ Hty Hf) as (g & Hg & _ & E). cbn [compose]. rewrite E.
    apply list_elem_of_fmap_2. by eapply list_elem_of_lookup_2.
Qed.

(** ** The view of a pruned scan *)

Lemma IndexOf_names s s' name : Name <$> s = Name <$> s' → IndexOf s name = IndexOf s' name.
Proof.
  unfold IndexOf. generalize 0. revert s'. induction s as [|f s IH]; intros [|f' s'] i; try done. cbn [fmap list_fmap IndexOf_from].
  intros [= E Es]. rewrite E. case_decide; [done|]. by apply IH.
Qed.
Lemma names_eq s (names : list string) :
  length s = length names → (∀ j name, names !! j = Some name → ∃ f, s !! j = Some f ∧ Name f = name) → Name <$> s = names.
Proof.
  intros Hl H. apply list_eq_same_length with (length names); [done|by rewrite length_fmap|].
  intros j x y _ Hx Hy. destruct (H j y Hy) as (f & Hf & <-). rewrite list_lookup_fmap, Hf in Hx. by injection Hx.
Qed.
Lemma opened_names n src s : opened n src s → Name <$> ts_schema s = out_names n.
Proof.
  intros (Hl & _ & H). apply names_eq; [done|]. intros j name Hj. destruct (H j name Hj) as (i & f & g & _ & _ & _ & _ & Hf).
  by eexists.
Qed.
(** The position of a column of the table. *)
Lemma table_column n src i f name :
  describes n src → ls_Schema n !! i = Some f → Name f = name → IndexOf (ls_Schema n) name = Z.of_nat i.
Proof. intros (_ & Hn & _) Hf <-. by apply IndexOf_NoDup. Qed.

Definition kept_columns (n : LogicalScan) (cols : list string) : list nat := (λ name, Z.to_nat (IndexOf (ls_Schema n) name)) <$> cols.
Section ScanView.
Context (n : LogicalScan) (src : Schema) (s s' : TableScan) (cols : list string).
Hypothesis Hd : describes n src.
Hypothesis Hall : NeededCols n = [].
Hypothesis Hne : cols ≠ [].
Hypothesis Hwide : opened n src s.
Hypothesis Hnarrow : opened (set_needed n cols) src s'.

Lemma out_names_cols : out_names (set_needed n cols) = cols.
Proof using Hne. clear -Hne. unfold out_names. cbn. by destruct cols. Qed.
Lemma wide_column i f : ls_Schema n !! i = Some f →
  ∃ g, src !! i = Some g ∧ colMap s !! i = Some (Z.of_nat i) ∧ ts_schema s !! i = Some (as_named (Name f) g).
Proof using Hd Hall Hwide.
  intros Hf. destruct Hwide as (_ & _ & H). destruct (H i (Name f)) as (k & f' & g & Hf' & En & Hg & Hc & Hs).
  { unfold out_names. by rewrite Hall, list_lookup_fmap, Hf. }
  pose proof (table_column n src k f' _ Hd Hf' En) as E. rewrite (table_column n src i f _ Hd Hf eq_refl) in E.
  assert (k = i) as -> by lia. eauto.
Qed.
Lemma narrow_column j name : cols !! j = Some name →
  ∃ i f g, kept_columns n cols !! j = Some i ∧ ls_Schema n !! i = Some f ∧ Name f = name ∧ src !! i = Some g ∧
    colMap s' !! j = Some (Z.of_nat i) ∧ ts_schema s' !! j = Some (as_named name g).
Proof using Hd Hne Hnarrow.
  intros Hj. destruct Hnarrow as (_ & _ & H). rewrite out_names_cols in H. destruct (H j name Hj) as (i & f & g & Hf & En & Hg & Hc & Hs).
  exists i, f, g. split; [|done]. unfold kept_columns. rewrite list_lookup_fmap, Hj. cbn. f_equal.
  cbn [ls_Schema set_needed] in Hf. rewrite (table_column n src i f _ Hd Hf En). lia.
Qed.
Lemma scan_view : view (Some cols) (kept_columns n cols) (ts_schema s) (ts_schema s').
Proof using Hd Hall Hne Hwide Hnarrow.
  assert (Ew : ∀ name, IndexOf (ts_schema s) name = IndexOf (ls_Schema n) name).
  { intros name. apply IndexOf_names. rewrite (opened_names _ _ _ Hwide). unfold out_names. by rewrite Hall. }
  assert (En : Name <$> ts_schema s' = cols) by (rewrite (opened_names _ _ _ Hnarrow); apply out_names_cols).
  assert (Hcols : Forall2 (λ i f, ts_schema s !! i = Some f) (kept_columns n cols) (ts_schema s')).
  { apply Forall2_same_length_lookup. rewrite <- (length_fmap Name (ts_schema s')), En. unfold kept_columns at 1. rewrite length_fmap.
    split; [done|]. intros j i f Hi Hf. assert (Hj : cols !! j = Some (Name f)) by by rewrite <- En, list_lookup_fmap, Hf.
    destruct (narrow_column j _ Hj) as (i' & f0 & g & Hi' & Hf0 & E0 & Hg & _ & Hs). rewrite Hi in Hi'. injection Hi' as <-.
    destruct (wide_column i f0 Hf0) as (g' & Hg' & _ & Hw). rewrite Hw. congruence. }
  split; [done| |done]. intros name Hin. cbn [wanted] in Hin. right.
  destruct (IndexOf_cases (ts_schema s') name) as [(j & f & Ej & Hf & Enf)|[_ Hno]]; [|by rewrite En in Hno].
  assert (Hj : cols !! j = Some name) by by rewrite <- En, list_lookup_fmap, Hf, <- Enf.
  destruct (narrow_column j name Hj) as (i & f0 & g & Hi & Hf0 & E0 & _). exists i, j. split; [|done].
  rewrite Ew. by eapply table_column.
Qed.

Lemma group_row_narrow g k :
  block_row (group_rows (colMap s') g) k = narrow (kept_columns n cols) (block_row (group_rows (colMap s) g) k).
Proof using Hd Hall Hne Hwide Hnarrow.
  unfold block_row, group_rows, narrow. rewrite <- !list_fmap_compose. apply list_eq_Forall2, Forall2_fmap, Forall2_same_length_lookup.
  destruct Hnarrow as (_ & Hl & _). rewrite Hl, out_names_cols. unfold kept_columns at 1. rewrite length_fmap. split; [done|].
  intros j c i Hc Hi. destruct (lookup_lt_is_Some_2 cols j) as [name Hj].
  { unfold kept_columns in Hi. apply lookup_lt_Some in Hi. by rewrite length_fmap in Hi. }
  destruct (narrow_column j name Hj) as (i' & f & gf & Hi' & Hf & _ & _ & Hc' & _). rewrite Hi in Hi'. injection Hi' as <-.
  rewrite Hc in Hc'. injection Hc' as ->. destruct (wide_column i f Hf) as (_ & _ & Hw & _).
  rewrite list_lookup_fmap, Hw. done.
Qed.
Lemma session_rows_narrow sess :
  session_rows (colMap s') sess = narrow (kept_columns n cols) <$> session_rows (colMap s) sess.
Proof using Hd Hall Hne Hwide Hnarrow.
  unfold session_rows. induction (s_done sess) as [|g gs IH]; [done|]. cbn [fmap list_fmap concat]. rewrite fmap_app, IH. f_equal.
  unfold block_rows_of. rewrite <- list_fmap_compose. apply list_fmap_ext. intros i k _. apply group_row_narrow.
Qed.
End ScanView.

(** ** Lists of narrowed rows *)

Lemma filter_narrow (P Q : cells → Prop) `{∀ x, Decision (P x), ∀ x, Decision (Q x)} ix (rows : list cells) :
  (∀ r, P r ↔ Q (narrow ix r)) → narrow ix <$> filter P rows = filter Q (narrow ix <$> rows).
Proof.
  intros HPQ. induction rows as [|r rows IH]; [done|]. cbn [fmap list_fmap]. rewrite !filter_cons.
  destruct (decide (P r)) as [Hr|Hr]; [rewrite decide_True by by apply HPQ|rewrite decide_False by by rewrite <- HPQ]; cbn [fmap list_fmap]; by rewrite IH.
Qed.

(** There is one stable sort. *)
Lemma stable_sort_unique {A} `{EqDecision A} (cmp : A → A → comparison) `{!GoodCmp cmp} (l1 l2 : list A) :
  StronglySorted (cmp_le cmp) l1 → StronglySorted (cmp_le cmp) l2 →
  (∀ a, filter (λ b, cmp a b = Eq) l1 = filter (λ b, cmp a b = Eq) l2) → l1 = l2.
Proof.
  assert (Hin : ∀ (l l' : list A) a, (∀ a, filter (λ b, cmp a b = Eq) l = filter (λ b, cmp a b = Eq) l') → a ∈ l → a ∈ l').
  { intros l l' a Hf Ha. apply (list_elem_of_filter (λ b, cmp a b = Eq) l' a). rewrite <- Hf. apply list_elem_of_filter.
    split; [by apply cmp_refl|done]. }
  revert l2. induction l1 as [|a l1 IH]; intros l2 H1 H2 Hf.
  - destruct l2 as [|b l2]; [done|]. exfalso. eapply (not_elem_of_nil b), (Hin (b :: l2)); [|by left]. intros c. by rewrite Hf.
  - destruct l2 as [|b l2]; [exfalso; eapply (not_elem_of_nil a), (Hin (a :: l1)); [exact Hf|by left]|].
    apply StronglySorted_inv in H1 as [H1 Ha], H2 as [H2 Hb].
    assert (Hle : cmp_le cmp a b ∧ cmp_le cmp b a).
    { assert (Hrefl : ∀ c, cmp_le cmp c c) by (intros c; unfold cmp_le; by rewrite cmp_refl).
      rewrite Forall_forall in Ha, Hb. split.
      - assert (Hb1 : b ∈ a :: l1) by (eapply (Hin (b :: l2)); [intros c; by rewrite Hf|by left]).
        apply elem_of_cons in Hb1 as [->|Hb1]; [done|by apply Ha].
      - assert (Ha2 : a ∈ b :: l2) by (eapply (Hin (a :: l1)); [exact Hf|by left]).
        apply elem_of_cons in Ha2 as [->|Ha2]; [done|by apply Hb]. }
    assert (Hab : cmp a b = Eq). { destruct Hle as [Hl1 Hl2]. unfold cmp_le in *. rewrite (cmp_opp a b) in Hl2. by destruct (cmp a b). }
    assert (b = a) as ->.
    { pose proof (Hf a) as E. rewrite !filter_cons, (decide_True (P := cmp a a = Eq)), decide_True in E by (done || by apply cmp_refl). by injection E. }
    f_equal. apply IH; [done|done|]. intros c. specialize (Hf c). rewrite !filter_cons in Hf. case_decide; [by injection Hf|done].
Qed.
Lemma sort_by_narrow ix (cmp cmp' : cells → cells → comparison) rows :
  (∀ a b, cmp' (narrow ix a) (narrow ix b) = cmp a b) → sort_by cmp' (narrow ix <$> rows) = narrow ix <$> sort_by cmp rows.
Proof.
  intros Hc. unfold sort_by. induction rows as [|r rows IH]; [done|]. cbn [fmap list_fmap foldr]. rewrite IH.
  generalize (foldr (insert_by cmp) [] rows) as l. intros l. induction l as [|x l IHl]; [done|]. cbn [fmap list_fmap insert_by].
  rewrite Hc. destruct (is_lt _); [|done]. cbn [fmap list_fmap]. by rewrite <- IHl.
Qed.
