(* ===== verification/PrunePlan.v ===== *)
(** * Package planner: the optimizer keeps the answers

    Every operator, over its input and over what is left of it, computes the same
    rows; so the optimized plan answers what the plan it came from answers. *)
From Stdlib Require Import ZArith Lia ZifyNat Sorted.
From stdpp Require Import base numbers list strings gmap sorting.
From S2P Require Import SharedJoin Prelude Encoding Codec Float64 Schema Writer Reader Volume Batch Scratch Scan Lexer Strconv Ast Parser Format VExpr VKernel VCase VExprSpec Operator RowOps Distinct Sorting Emit Sort Pipeline Aggregate AggSpec AggKeys AggInt AggPath AggConsume AggValue AggOut AggRun RowStore JoinTable Join Morsel ExprWalk Coerce ExecExpr BuildType FloatInt ZonePred Logical PlanRows Physical PlanScan PlanAnswer Optimizer Prune PruneScan.
#[local] Open Scope Z_scope.

(** ** The plans name resolution builds *)

Abbreviation names_of node := (Name <$> OutputSchema node).
(** Unqualified columns among the given names. *)
Abbreviation bound_in names e := (Forall (reads_only (Some names)) (walkExpr e)).
Definition agg_bound (names : list string) (agg : AggItem) : Prop :=
  match ai_AggExpr agg with
  | Some e => bound_in names e ∧ ai_ColName agg ∉ names
  | None => if decide (ai_ColName agg = ""%string) then ai_Func agg = "COUNT"%string else ai_ColName agg ∈ names
  end.
(** Names resolve against the input of their node, and the names given to
    computed arguments are new. *)
Fixpoint names_resolve (node : LogicalNode) : Prop :=
  match node with
  | LScan n => NeededCols n = [] ∧ match ls_Predicate n with Some p => bound_in (Name <$> ls_Schema n) p | None => True end
  | LFilter c p => names_resolve c ∧ bound_in (names_of c) p
  | LProject c es => names_resolve c ∧ Forall (λ pe, bound_in (names_of c) (pi_Expr pe)) es
  | LAggregate c gb aggs =>
      names_resolve c ∧ Forall (λ e, bound_in (names_of c) e) gb ∧ Forall (agg_bound (names_of c)) aggs ∧
      (hasComplex aggs = true → NoDup (names_of c))
  | LSort c ob => names_resolve c ∧ Forall (λ name, name ∈ names_of c) (sortCols ob)
  | LLimit c _ _ => names_resolve c
  | LJoin l r cond =>
      names_resolve l ∧ names_resolve r ∧ Forall (λ name, name ∈ names_of l ++ names_of r) (collectCols cond)
  | LDistinct c => names_resolve c
  end.
(** DISTINCT compares every column of its input: all of them are needed above. *)
Fixpoint distinct_whole (needed : needed_set) (node : LogicalNode) : Prop :=
  match node with
  | LScan _ => True
  | LFilter c p => distinct_whole (addNeeded needed (collectCols p)) c
  | LProject c es => distinct_whole (Some (uniqueStrings (concat (collectCols ∘ pi_Expr <$> es)))) c
  | LAggregate c gb aggs => distinct_whole (Some (uniqueStrings (aggCols gb aggs))) c
  | LSort c ob => distinct_whole (addNeeded needed (sortCols ob)) c
  | LLimit c _ _ => distinct_whole needed c
  | LJoin l r cond =>
      let '(nl, nr) := joinNeeded l r cond needed in distinct_whole nl l ∧ distinct_whole nr r
  | LDistinct c =>
      distinct_whole needed c ∧
      match needed with None => True | Some ns => NoDup (names_of c) ∧ Forall (λ name, name ∈ ns) (names_of c) end
  end.
Definition prunable (node : LogicalNode) : Prop := names_resolve node ∧ distinct_whole None node.

Lemma OutputSchema_scan n : NeededCols n = [] → OutputSchema (LScan n) = ls_Schema n.
Proof. intros Hn. cbn [OutputSchema]. unfold scanSchema. by rewrite Hn. Qed.
Lemma bound_cols names e name : bound_in names e → name ∈ collectCols e → name ∈ names.
Proof.
  unfold collectCols. intros Hb (n & Hn & E)%list_elem_of_omap. rewrite Forall_forall in Hb. specialize (Hb n Hn).
  destruct n; try done. injection E as <-. by destruct Hb.
Qed.
Lemma bound_bare names e : bound_in names e → bare e.
Proof. intros Hb. eapply Forall_impl; [exact Hb|]. intros n. by destruct n; cbn; [intros []|..]. Qed.
Lemma bound_reads names needed e :
  bound_in names e → (∀ name, name ∈ collectCols e → wanted needed name) → Forall (reads_only needed) (walkExpr e).
Proof. intros Hb. apply bare_reads. by eapply bound_bare. Qed.

(** ** The shape of answers *)

Lemma answer_real fs node schema rows : answer fs node schema rows → Forall (λ f, BuildType.real_type (Type_ f) = true) schema.
Proof.
  induction 1 as [n schema rows Ha| |c es schema rows pes _ IH Hp|c gb aggs schema rows schema' rows' gs aes out _ IH Hin Hc| | |l r cond ls rs lrows rrows bk pk _ IHl _ IHr _|];
    try done.
  - destruct Ha as [r src sess s _ (Hsrc & _) Hd Hreal _ Hs _|r src sess s p x _ (Hsrc & _) Hd Hreal _ Hs _ _]; rewrite <- Hsrc in Hd;
      destruct (openScan_spec _ _ _ _ _ _ Hd Hs) as (Hsame & _); rewrite Hsrc in Hsame;
      apply Forall_lookup; intros j f Hf; destruct (Forall2_lookup_l _ _ _ _ _ Hsame Hf) as (? & _ & k & f' & _ & Hf' & ->);
      exact (Forall_lookup_1 _ _ _ _ Hreal Hf').
  - apply Forall_fmap. eapply Forall_impl; [by eapply translateItems_accepted|]. intros pe Ha. cbn. by eapply accepted_real.
  - assert (Hr : Forall (λ f, BuildType.real_type (Type_ f) = true) schema').
    { destruct Hin as [|pes _ Hp]; [done|]. apply Forall_fmap. unfold preProjection in Hp. revert Hp. apply foldM_preserves.
      - apply Forall_fmap. by eapply Forall_impl; [exact IH|].
      - intros acc agg acc' Hacc. destruct (ai_AggExpr agg) as [e|]; [|by intros [= <-]].
        intros (x & Hx & [= <-])%go_bind_inv. apply Forall_app. split; [done|]. constructor; [|done]. cbn.
        eapply accepted_real, built_accepted; done. }
    apply agg_schema_real; [done|]. by apply (resolveAggConfig_valid gb aggs schema' gs aes).
  - by apply Forall_app.
Qed.

Lemma Forall_window {A} (P : A → Prop) n k (l : list A) : Forall P l → Forall P (window n k l).
Proof. intros H. unfold window. case_decide; [|apply Forall_take]; by apply Forall_drop. Qed.
Lemma Forall_filter {A} (P Q : A → Prop) `{∀ x, Decision (Q x)} (l : list A) : Forall P l → Forall P (filter Q l).
Proof. rewrite !Forall_forall. intros Hl x [_ Hx]%list_elem_of_filter. by apply Hl. Qed.
Lemma agg_result_width tys gs aes rows : Forall (λ r : cells, length r = (length gs + length aes)%nat) (agg_result tys gs aes rows).
Proof.
  unfold agg_result. apply Forall_fmap, Forall_forall. intros k Hk. cbn [compose]. unfold agg_row. rewrite length_app, length_fmap. f_equal.
  case_decide as E; [by apply list_elem_of_singleton in Hk as ->; rewrite E|].
  apply elem_of_uniq, list_elem_of_fmap in Hk as (r & -> & _). unfold group_key. by rewrite length_fmap.
Qed.
Lemma omap_lookup_length {A} (l : list A) (gs : list Z) :
  Forall (λ i, (Z.to_nat i < length l)%nat) gs → length (omap (λ i, l !! Z.to_nat i) gs) = length gs.
Proof. induction 1 as [|i gs Hi _ IH]; [done|]. cbn [omap list_omap]. destruct (lookup_lt_is_Some_2 _ _ Hi) as [f ->]. cbn. by rewrite IH. Qed.
Lemma answer_width fs node schema rows : answer fs node schema rows → Forall (λ r : cells, length r = length schema) rows.
Proof.
  induction 1 as [n schema rows Ha|c p schema rows x _ IH _|c es schema rows pes _ IH Hp|c gb aggs schema rows schema' rows' gs aes out _ IH Hin Hc Hperm
    |c ob schema rows keys out _ IH _ Hperm _ _|c n k schema rows _ IH|l r cond ls rs lrows rrows bk pk _ IHl _ IHr _|c schema rows _ IH].
  - assert (Hw : ∀ s sess, length (ts_schema s) = length (colMap s) → Forall (λ r : cells, length r = length (ts_schema s)) (session_rows (colMap s) sess)).
    { intros s sess ->. unfold session_rows. apply Forall_concat, Forall_fmap, Forall_true. intros g. cbn [compose]. apply Forall_fmap, Forall_true.
      intros k. cbn [compose]. unfold block_row, group_rows. by rewrite !length_fmap. }
    destruct Ha as [r src sess s _ (Hsrc & _) Hd _ _ Hs _|r src sess s p x _ (Hsrc & _) Hd _ _ Hs _ _]; rewrite <- Hsrc in Hd;
      destruct (openScan_spec _ _ _ _ _ _ Hd Hs) as (Hsame%Forall2_length & _); [|apply Forall_filter]; by apply Hw.
  - by apply Forall_filter.
  - apply Forall_fmap, Forall_true. intros r. cbn. unfold cells_select, proj_row, project_schema. by rewrite !length_fmap.
  - rewrite Hperm. destruct (resolveAggConfig_valid _ _ _ _ _ Hc) as [Hgs _]. eapply Forall_impl; [apply agg_result_width|].
    intros r ->. unfold agg_schema. rewrite length_app, omap_lookup_length, length_fmap; [done|]. eapply Forall_impl; [exact Hgs|].
    intros i [_ Hi]. by rewrite length_fmap in Hi.
  - by rewrite Hperm.
  - by apply Forall_window.
  - unfold joined. apply Forall_concat, Forall_fmap. eapply Forall_impl; [exact IHr|]. intros p Hp. cbn [compose]. destruct (key_of _ p); [|done].
    apply Forall_fmap, Forall_filter. eapply Forall_impl; [exact IHl|]. intros b Hb. cbn. by rewrite !length_app, Hb, Hp.
  - revert IH. generalize (@nil cells) as seen. induction rows as [|r rows IHr]; intros seen Hr; [done|]. cbn [distinct_cells].
    apply List.Forall_cons_iff in Hr as [Hr Hrs]. case_decide; [by apply IHr|]. constructor; [done|]. by apply IHr.
Qed.

(** ** Operators over a view *)

(** A loop that collects, run on what is left and widened after. *)
Definition go_fmap {A B} (W : A → B) (m : go (list A)) : go (list B) :=
  mbind (M:=go) (λ l : list A, Ret (W <$> l)) m.
Lemma foldM_widen {A B C} (step : list B → A → go (list B)) (step' : list C → A → go (list C)) (W : C → B) l (acc : list C) :
  Forall (λ a, ∀ acc : list C, step (W <$> acc) a = go_fmap W (step' acc a)) l →
  foldM step (W <$> acc) l = go_fmap W (foldM step' acc l).
Proof.
  intros Hl. revert acc. induction Hl as [|a l Ha _ IH]; intros acc; [done|]. cbn [foldM]. rewrite Ha.
  destruct (step' acc a) as [acc'| | |]; try done. cbn [mbind go_bind]. apply IH.
Qed.

Section Views.
Context (needed : needed_set) (ix : list nat) (s s' : Schema) (Hv : view needed ix s s').
Context (Hreal : Forall (λ f, BuildType.real_type (Type_ f) = true) s').

Lemma filter_widen x (rows : list cells) : accepted (Type_ <$> s') x = true →
  narrow ix <$> filter (cells_true (widen ix x)) rows = filter (cells_true x) (narrow ix <$> rows).
Proof using Hv. intros Ha. apply filter_narrow. intros r. by eapply cells_true_widen. Qed.

(** Projections. *)
Definition widen_pe (pe : ProjectExpr) : ProjectExpr := mkProjectExpr (pe_Name pe) (widen ix (pe_Expr pe)).
Lemma translateItems_widen es :
  Forall (λ pe, Forall (reads_only needed) (walkExpr (pi_Expr pe))) es →
  translateItems es s = go_fmap widen_pe (translateItems es s').
Proof using Hv.
  intros Hes. unfold translateItems. apply (foldM_widen _ _ widen_pe es []). eapply Forall_impl; [exact Hes|].
  intros pe Hpe acc. cbv beta in Hpe. rewrite (buildExecExpr_widen _ _ _ _ Hv _ Hpe). destruct (buildExecExpr _ s'); try done. cbn [mbind go_bind].
  unfold go_fmap. cbn [mbind go_bind]. by rewrite fmap_app.
Qed.
Lemma project_schema_widen pes : project_schema (widen_pe <$> pes) = project_schema pes.
Proof using Type. unfold project_schema. rewrite <- list_fmap_compose. apply list_fmap_ext. intros i pe _. cbn. by rewrite EType_widen. Qed.
Lemma cells_select_widen pes r :
  Forall (λ pe, accepted (Type_ <$> s') (pe_Expr pe) = true) pes → cells_select (widen_pe <$> pes) r = cells_select pes (narrow ix r).
Proof using Hv.
  intros Hp. unfold cells_select, proj_row. rewrite <- list_fmap_compose. apply list_fmap_ext. intros i pe Hpe. cbn.
  eapply row_eval_widen; [exact Hv|]. exact (Forall_lookup_1 _ _ _ _ Hp Hpe).
Qed.

(** ORDER BY. *)
Definition widen_key (k : SortKey) : SortKey := mkSortKey (default 0%nat (ix !! ColIdx k)) (Descending k).
Lemma sortKeys_widen ob :
  (∀ name, name ∈ sortCols ob → wanted needed name) → sortKeys ob s = go_fmap widen_key (sortKeys ob s').
Proof using Hv.
  intros Hw. unfold sortKeys. apply (foldM_widen _ _ widen_key ob []). apply Forall_forall. intros [x d] Hin acc.
  destruct x as [t name| | | | | | | | | | | | | | | | ]; try done. cbv zeta.
  assert (Hn : wanted needed name).
  { apply Hw. unfold sortCols. apply list_elem_of_In, in_concat. exists [name].
    split; [|by left]. apply list_elem_of_In, list_elem_of_fmap. by exists (mkOrderBy (ColumnRefExpr t name) d). }
  destruct (view_index _ _ _ _ _ Hv Hn) as [[-> ->]|(i & j & f & -> & -> & Hx & _)]; [done|].
  destruct (Z.ltb_spec (Z.of_nat i) 0); [lia|]. destruct (Z.ltb_spec (Z.of_nat j) 0); [lia|]. unfold go_fmap. cbn [mbind go_bind].
  rewrite fmap_app. cbn [fmap list_fmap]. unfold widen_key. cbn [ColIdx Descending]. by rewrite !Nat2Z.id, Hx.
Qed.
Lemma row_cmp_widen keys a b :
  Forall (λ k, ColIdx k < length s')%nat keys → row_cmp keys (narrow ix a) (narrow ix b) = row_cmp (widen_key <$> keys) a b.
Proof using Hv.
  intros Hk. induction Hk as [|k keys Hk _ IH]; [done|].
  assert (E : ∀ k keys a b, row_cmp (k :: keys) a b = cmp_then (key_cmp k) (row_cmp keys) a b) by done.
  change (widen_key <$> k :: keys) with (widen_key k :: (widen_key <$> keys)). rewrite !E. unfold cmp_then. rewrite IH.
  assert (Ek : key_cmp k (narrow ix a) (narrow ix b) = key_cmp (widen_key k) a b); [|by rewrite Ek].
  destruct (lookup_lt_is_Some_2 s' (ColIdx k) Hk) as [f Hf]. destruct (view_lookup _ _ _ _ _ _ Hv Hf) as (i & Hi & _).
  unfold key_cmp, cmp_on, widen_key. cbn [ColIdx Descending]. by rewrite !(narrow_lookup _ _ _ _ Hi), Hi.
Qed.

(** GROUP BY and the aggregates. *)
Definition widen_agg (ae : AggExpr) : AggExpr :=
  mkAggExpr (Aggregate.Kind ae) (if a_ColIdx ae <? 0 then a_ColIdx ae else wide_index ix (a_ColIdx ae)) (OutName ae) (a_Distinct ae) (AccumType ae).
Lemma resolveGroupBy_widen e :
  (∀ name, name ∈ collectCols e → wanted needed name) → resolveGroupBy s e = (i ← resolveGroupBy s' e; Ret (wide_index ix i)).
Proof using Hv.
  intros Hw. destruct e as [t name| | | | | | | | | | | | | | | | ]; try done. cbn [resolveGroupBy]. cbv zeta.
  destruct (view_index _ _ _ _ name Hv) as [[-> ->]|(i & j & f & -> & -> & Hx & _)]; [apply Hw; by left|done|].
  destruct (Z.ltb_spec (Z.of_nat i) 0); [lia|]. destruct (Z.ltb_spec (Z.of_nat j) 0); [lia|]. cbn [mbind go_bind].
  unfold wide_index. by rewrite Nat2Z.id, Hx.
Qed.
Definition agg_wanted (agg : AggItem) : Prop :=
  (ai_ColName agg = ""%string ∧ ai_Func agg = "COUNT"%string) ∨ wanted needed (ai_ColName agg).
(** [resolveAggItem] once the kind and the column are known. *)
Definition agg_tail (schema : Schema) (agg : AggItem) (kind : AggKind) (col : Z) : go AggExpr :=
  if bool_decide (col = -1) && negb (bool_decide (kind = AggCount) && bool_decide (ai_ColName agg = ""%string))
  then Err (ErrMsg "planner: aggregate column not found in schema") else
  srcType ← (if 0 <=? col then f ← index schema (Z.to_nat col); Ret (Type_ f) else Ret TypeInt64);
  if bool_decide (kind = AggSum ∨ kind = AggAvg) && negb (is_number srcType)
  then Err (ErrMsg "planner: SUM and AVG require a numeric argument")
  else Ret (mkAggExpr kind col (ai_Alias agg) (ai_Distinct agg) (AccumTypeFor kind srcType)).
Lemma agg_tail_absent agg k : agg_tail s agg k (-1) = (ae ← agg_tail s' agg k (-1); Ret (widen_agg ae)).
Proof using Type. unfold agg_tail. cbn [Z.leb Z.compare mbind go_bind]. case_match; [done|]. by case_match. Qed.
Lemma agg_tail_widen agg k i j f :
  ix !! j = Some i → s !! i = Some f → s' !! j = Some f →
  agg_tail s agg k (Z.of_nat i) = (ae ← agg_tail s' agg k (Z.of_nat j); Ret (widen_agg ae)).
Proof using Type.
  intros Hx Hf Hf'. unfold agg_tail. rewrite !(bool_decide_false (Z.of_nat _ = -1)) by lia. cbn [andb].
  destruct (Z.leb_spec 0 (Z.of_nat i)); [|lia]. destruct (Z.leb_spec 0 (Z.of_nat j)); [|lia].
  rewrite !Nat2Z.id, (index_Ret _ _ _ Hf), (index_Ret _ _ _ Hf'). cbn [mbind go_bind]. destruct (bool_decide _ && _); [done|].
  cbn [mbind go_bind]. unfold widen_agg. cbn [a_ColIdx Aggregate.Kind OutName a_Distinct AccumType]. destruct (Z.ltb_spec (Z.of_nat j) 0); [lia|].
  unfold wide_index. by rewrite Nat2Z.id, Hx.
Qed.
Lemma resolveAggItem_widen agg :
  agg_wanted agg → resolveAggItem s agg = (ae ← resolveAggItem s' agg; Ret (widen_agg ae)).
Proof using Hv.
  assert (E : ∀ s, resolveAggItem s agg = ('(k, c) ← aggKind s agg; agg_tail s agg k c)) by done. rewrite !E. clear E.
  unfold agg_wanted, aggKind. intros [[-> ->]|Hw].
  - rewrite !decide_True by done. cbn [mbind go_bind]. apply agg_tail_absent.
  - destruct (view_index _ _ _ _ _ Hv Hw) as [[-> ->]|(i & j & f & -> & -> & Hx & Hf & Hf')];
      repeat case_decide; try done; cbn [mbind go_bind]; first [apply agg_tail_absent|by eapply agg_tail_widen].
Qed.
Definition widen_config (c : list Z * list AggExpr) : list Z * list AggExpr := (wide_index ix <$> c.1, widen_agg <$> c.2).
Lemma resolveAggConfig_widen gb aggs :
  Forall (λ e, ∀ name, name ∈ collectCols e → wanted needed name) gb → Forall agg_wanted aggs →
  resolveAggConfig gb aggs s = (c ← resolveAggConfig gb aggs s'; Ret (widen_config c)).
Proof using Hv.
  intros Hgb Haggs. unfold resolveAggConfig.
  rewrite (foldM_widen _ (λ acc e, i ← resolveGroupBy s' e; Ret (acc ++ [i])) (wide_index ix) gb []).
  - destruct (foldM _ [] gb) as [gs| | |]; try done. cbn [go_fmap mbind go_bind].
    rewrite (foldM_widen _ (λ acc agg, ae ← resolveAggItem s' agg; Ret (acc ++ [ae])) widen_agg aggs []).
    + by destruct (foldM _ [] aggs).
    + eapply Forall_impl; [exact Haggs|]. intros agg Hw acc. rewrite (resolveAggItem_widen _ Hw).
      destruct (resolveAggItem s' agg); try done. cbn [mbind go_bind go_fmap]. by rewrite fmap_app.
  - eapply Forall_impl; [exact Hgb|]. intros e Hw acc. rewrite (resolveGroupBy_widen _ Hw).
    destruct (resolveGroupBy s' e); try done. cbn [mbind go_bind go_fmap]. by rewrite fmap_app.
Qed.

(** What they compute. *)
Lemma valid_column i : gb_valid (Type_ <$> s') i →
  ∃ k f, ix !! Z.to_nat i = Some k ∧ s !! k = Some f ∧ s' !! Z.to_nat i = Some f.
Proof using Hv.
  intros [_ Hi]. rewrite length_fmap in Hi. destruct (lookup_lt_is_Some_2 _ _ Hi) as [f Hf].
  destruct (view_lookup _ _ _ _ _ _ Hv Hf) as (k & Hk & Hsk). eauto.
Qed.
Lemma group_key_widen gs r :
  Forall (gb_valid (Type_ <$> s')) gs → group_key (wide_index ix <$> gs) r = group_key gs (narrow ix r).
Proof using Hv.
  intros Hgs. unfold group_key. rewrite <- list_fmap_compose. apply list_fmap_ext. intros n i Hi. cbn [compose].
  destruct (valid_column i (Forall_lookup_1 _ _ _ _ Hgs Hi)) as (k & f & Hk & _). unfold wide_index.
  by rewrite (narrow_lookup _ _ _ _ Hk), Hk, Nat2Z.id.
Qed.
Lemma agg_widen_cases ae :
  agg_valid (Type_ <$> s') ae →
  is_star (widen_agg ae) = true ∧ is_star ae = true ∧ Aggregate.Kind ae = AggCount ∨
  is_star (widen_agg ae) = is_star ae ∧ (a_ColIdx ae <? 0) = false ∧ 0 ≤ a_ColIdx (widen_agg ae) ∧
  (∀ r, arg (widen_agg ae) r = arg ae (narrow ix r)) ∧ src_type (Type_ <$> s) (widen_agg ae) = src_type (Type_ <$> s') ae.
Proof using Hv.
  intros [(Hk & Hc & _)|(Hc & t & Ht & _)].
  - left. unfold is_star, widen_agg. cbn [Aggregate.Kind a_ColIdx]. destruct (Z.ltb_spec (a_ColIdx ae) 0); [|lia].
    by rewrite !bool_decide_true.
  - right. assert (Hg : gb_valid (Type_ <$> s') (a_ColIdx ae)) by (split; [done|by eapply lookup_lt_Some]).
    destruct (valid_column _ Hg) as (k & f & Hk & Hf & Hf'). unfold is_star, widen_agg, arg, src_type. cbn [Aggregate.Kind a_ColIdx].
    assert (E : (if a_ColIdx ae <? 0 then a_ColIdx ae else wide_index ix (a_ColIdx ae)) = Z.of_nat k).
    { destruct (Z.ltb_spec (a_ColIdx ae) 0); [lia|]. unfold wide_index. by rewrite Hk. }
    rewrite !E, Nat2Z.id, !list_lookup_fmap, Hf, Hf'.
    split; [apply bool_decide_ext; lia|]. split; [by apply Z.ltb_ge|]. split; [lia|]. split; [|done]. intros r. by rewrite (narrow_lookup _ _ _ _ Hk).
Qed.
Lemma agg_value_widen ae rows :
  agg_valid (Type_ <$> s') ae → agg_value (Type_ <$> s) (widen_agg ae) rows = agg_value (Type_ <$> s') ae (narrow ix <$> rows).
Proof using Hv.
  intros Hae. unfold agg_value. change (Aggregate.Kind (widen_agg ae)) with (Aggregate.Kind ae). destruct (agg_widen_cases ae Hae) as [(E1 & E2 & ->)|(E1 & _ & _ & E3 & E4)].
  - by rewrite E1, E2, length_fmap.
  - assert (Ev : vals (widen_agg ae) rows = vals ae (narrow ix <$> rows)).
    { unfold vals. induction rows as [|r rows IH]; [done|]. cbn [omap list_omap fmap list_fmap]. by rewrite E3, IH. }
    by rewrite E1, E4, Ev, length_fmap.
Qed.
Lemma agg_field_widen ae : agg_valid (Type_ <$> s') ae → agg_field (Type_ <$> s) (widen_agg ae) = agg_field (Type_ <$> s') ae.
Proof using Hv.
  intros Hae. unfold agg_field, out_type, AggRun.resolved. cbn [OutName Aggregate.Kind]. f_equal.
  change (Aggregate.Kind (widen_agg ae)) with (Aggregate.Kind ae). destruct (agg_widen_cases ae Hae) as [(_ & _ & ->)|(_ & _ & _ & _ & E4)]; [done|].
  unfold src_type in *. cbn [a_ColIdx]. by rewrite E4.
Qed.
Lemma agg_schema_widen gs aes :
  Forall (gb_valid (Type_ <$> s')) gs → Forall (agg_valid (Type_ <$> s')) aes →
  agg_schema s (wide_index ix <$> gs) (widen_agg <$> aes) = agg_schema s' gs aes.
Proof using Hv.
  intros Hgs Haes. unfold agg_schema. f_equal.
  - induction Hgs as [|i gs Hi _ IH]; [done|]. cbn [omap list_omap fmap list_fmap]. destruct (valid_column i Hi) as (k & f & Hk & Hf & Hf').
    assert (E : Z.to_nat (wide_index ix i) = k) by (unfold wide_index; by rewrite Hk, Nat2Z.id).
    rewrite E, Hf, Hf'. f_equal. exact IH.
  - rewrite <- list_fmap_compose. apply list_fmap_ext. intros n ae Hae. cbn [compose]. apply agg_field_widen. exact (Forall_lookup_1 _ _ _ _ Haes Hae).
Qed.
Lemma agg_result_widen gs aes rows :
  Forall (gb_valid (Type_ <$> s')) gs → Forall (agg_valid (Type_ <$> s')) aes →
  agg_result (Type_ <$> s) (wide_index ix <$> gs) (widen_agg <$> aes) rows = agg_result (Type_ <$> s') gs aes (narrow ix <$> rows).
Proof using Hv.
  intros Hgs Haes. unfold agg_result.
  assert (Ek : group_key (wide_index ix <$> gs) <$> rows = group_key gs <$> (narrow ix <$> rows)).
  { rewrite <- list_fmap_compose. apply list_fmap_ext. intros n r _. by apply group_key_widen. }
  rewrite Ek. assert (Hnil : (wide_index ix <$> gs = []) ↔ gs = []) by by destruct gs.
  destruct (decide (gs = [])) as [Hg|Hg]; [rewrite decide_True by by apply Hnil|rewrite decide_False by by rewrite Hnil];
    apply list_fmap_ext; intros n k _; unfold agg_row; f_equal; rewrite <- list_fmap_compose; apply list_fmap_ext; intros m ae Hae; cbn [compose];
    rewrite (agg_value_widen ae) by exact (Forall_lookup_1 _ _ _ _ Haes Hae); f_equal;
    apply filter_narrow; intros r; by rewrite group_key_widen.
Qed.
End Views.
