(* ===== verification/PruneAnswer.v ===== *)
(** * Package planner: the optimizer keeps the answers

    Node by node, a plan and its pruned form have the same answers up to the
    columns left out; at the root, where every column is needed, the same. *)
From Stdlib Require Import ZArith Lia ZifyNat Sorted.
From stdpp Require Import base numbers list strings gmap sorting.
From S2P Require Import SharedJoin Prelude Encoding Codec Float64 Schema Writer Reader Volume Batch Scratch Scan Lexer Strconv Ast Parser Format VExpr VKernel VCase VExprSpec Operator RowOps Distinct Sorting Emit Sort Pipeline Aggregate AggSpec AggKeys AggInt AggPath AggConsume AggValue AggOut AggRun RowStore JoinTable Join Morsel ExprWalk Coerce ExecExpr BuildType FloatInt ZonePred Logical PlanRows Physical PlanScan PlanAnswer Optimizer Prune PruneScan PrunePlan.
#[local] Open Scope Z_scope.

(** ** Columns side by side *)

Lemma IndexOf_app s t name :
  IndexOf (s ++ t) name = if decide (name ∈ Name <$> s) then IndexOf s name else
    if decide (name ∈ Name <$> t) then Z.of_nat (length s) + IndexOf t name else -1.
Proof.
  unfold IndexOf. assert (H : ∀ s i, IndexOf_from i (s ++ t) name
    = if decide (name ∈ Name <$> s) then IndexOf_from i s name else IndexOf_from (i + Z.of_nat (length s)) t name).
  { clear s. induction s as [|f s IH]; intros i; cbn [app IndexOf_from length].
    - rewrite decide_False by (cbn; set_solver). f_equal. lia.
    - rewrite IH. change (Name <$> f :: s) with (Name f :: (Name <$> s)).
      destruct (decide (Name f = name)) as [<-|Hn]; [rewrite decide_True by (by left); done|].
      destruct (decide (name ∈ Name <$> s)) as [Hin|Hin]; [rewrite decide_True by (by right); done|].
      rewrite decide_False by (intros [->|]%elem_of_cons; done). f_equal. lia. }
  rewrite H. case_decide; [done|]. destruct (decide (name ∈ Name <$> t)) as [Hin|Hin].
  - assert (Hs : ∀ t i j, name ∈ Name <$> t → IndexOf_from (i + j) t name = i + IndexOf_from j t name).
    { clear. intros t. induction t as [|f t IH]; intros i j Hin; [by apply elem_of_nil in Hin|]. cbn [IndexOf_from].
      case_decide; [done|]. rewrite <- IH by (cbn in Hin; apply elem_of_cons in Hin as [->|]; done). f_equal. lia. }
    rewrite (Z.add_comm 0), Hs by done. lia.
  - assert (Hs : ∀ t i, name ∉ Name <$> t → IndexOf_from i t name = -1).
    { clear. intros t. induction t as [|f t IH]; intros i Hno; [done|]. cbn [IndexOf_from fmap list_fmap] in *.
      rewrite decide_False by set_solver. apply IH. set_solver. }
    by apply Hs.
Qed.
Lemma view_absent needed ix s s' name : view needed ix s s' → name ∉ Name <$> s → name ∉ Name <$> s'.
Proof. intros Hv Hs Hs'. by apply Hs, (view_subset _ _ _ _ _ Hv). Qed.
Lemma view_present needed ix s s' name :
  view needed ix s s' → wanted needed name → name ∈ Name <$> s → name ∈ Name <$> s'.
Proof.
  intros Hv Hw Hs. destruct (view_index _ _ _ _ _ Hv Hw) as [[E _]|(i & j & f & _ & E & _)].
  - destruct (IndexOf_cases s name) as [(k & f & E' & _)|[_ Hno]]; [lia|done].
  - destruct (IndexOf_cases s' name) as [(k & f' & _ & Hf & <-)|[E' _]]; [|lia]. apply list_elem_of_fmap_2. by eapply list_elem_of_lookup_2.
Qed.
Lemma view_length needed ix s s' : view needed ix s s' → length ix = length s'.
Proof. intros [H%Forall2_length _ _]. done. Qed.
Lemma view_lt needed ix s s' i : view needed ix s s' → i ∈ ix → (i < length s)%nat.
Proof.
  intros [H _ _] [j Hj]%list_elem_of_lookup_1. destruct (Forall2_lookup_l _ _ _ _ _ H Hj) as (f & _ & Hf). by eapply lookup_lt_Some.
Qed.

Definition side_by_side (n : nat) (ixl ixr : list nat) : list nat := ixl ++ (Nat.add n <$> ixr).
Lemma view_app nl nr needed ixl ixr ls ls' rs rs' :
  view nl ixl ls ls' → view nr ixr rs rs' →
  (∀ name, wanted needed name → (name ∈ Name <$> ls → wanted nl name) ∧ (name ∈ Name <$> rs → wanted nr name)) →
  (needed = None → nl = None ∧ nr = None) →
  view needed (side_by_side (length ls) ixl ixr) (ls ++ rs) (ls' ++ rs').
Proof.
  intros Hl Hr Hw Hn. split.
  - apply Forall2_app.
    + eapply Forall2_impl; [apply Hl|]. intros i f Hf. by apply lookup_app_l_Some.
    + apply Forall2_fmap_l. eapply Forall2_impl; [apply Hr|]. intros i f Hf. unfold compose. cbv beta. rewrite lookup_app_r by lia. by replace (length ls + i - length ls)%nat with i by lia.
  - intros name Hwant. destruct (Hw name Hwant) as [Hwl Hwr]. unfold same_index. rewrite !IndexOf_app.
    destruct (decide (name ∈ Name <$> ls)) as [Hin|Hin].
    + pose proof (view_present _ _ _ _ _ Hl (Hwl Hin) Hin) as Hin'. rewrite (decide_True (P := name ∈ Name <$> ls')) by done.
      destruct (view_index _ _ _ _ _ Hl (Hwl Hin)) as [?|(i & j & f & Ei & Ej & Hx & _)]; [by left|].
      right. exists i, j. split; [done|]. split; [done|]. unfold side_by_side. by apply lookup_app_l_Some.
    + rewrite (decide_False (P := name ∈ Name <$> ls')) by (by eapply view_absent).
      destruct (decide (name ∈ Name <$> rs)) as [Hin2|Hin2].
      * pose proof (view_present _ _ _ _ _ Hr (Hwr Hin2) Hin2) as Hin'. rewrite (decide_True (P := name ∈ Name <$> rs')) by done.
        destruct (view_index _ _ _ _ _ Hr (Hwr Hin2)) as [[E _]|(i & j & f & -> & -> & Hx & _)].
        { destruct (IndexOf_cases rs name) as [(? & ? & E' & _)|[_ ?]]; [lia|done]. }
        right. exists (length ls + i)%nat, (length ls' + j)%nat. split; [lia|]. split; [lia|]. unfold side_by_side.
        rewrite lookup_app_r, (view_length _ _ _ _ Hl) by (rewrite (view_length _ _ _ _ Hl); lia).
        replace (length ls' + j - length ls')%nat with j by lia. by rewrite list_lookup_fmap, Hx.
      * rewrite (decide_False (P := name ∈ Name <$> rs')) by (by eapply view_absent). by left.
  - intros E. destruct (Hn E) as [El Er]. destruct (v_all _ _ _ _ Hl El) as [-> ->], (v_all _ _ _ _ Hr Er) as [-> ->].
    split; [done|]. unfold side_by_side. rewrite length_app, seq_app. f_equal. rewrite fmap_add_seq. by rewrite Nat.add_0_r.
Qed.
Lemma narrow_app n ixl ixr (l r : cells) :
  length l = n → Forall (λ i, (i < n)%nat) ixl → narrow (side_by_side n ixl ixr) (l ++ r) = narrow ixl l ++ narrow ixr r.
Proof.
  intros <- Hl. unfold narrow, side_by_side. rewrite fmap_app. f_equal.
  - apply list_fmap_ext. intros j i Hi. rewrite lookup_app_l; [done|]. exact (Forall_lookup_1 _ _ _ _ Hl Hi).
  - rewrite <- list_fmap_compose. apply list_fmap_ext. intros j i _. cbn [compose]. rewrite lookup_app_r by lia.
    by replace (length l + i - length l)%nat with i by lia.
Qed.
Lemma view_fmap needed ix s s' (g : Field → Field) :
  (∀ f, Name (g f) = Name f) → view needed ix s s' → view needed ix (g <$> s) (g <$> s').
Proof.
  intros Hg [Hc Hn Ha]. assert (En : ∀ s name, IndexOf (g <$> s) name = IndexOf s name).
  { intros s0 name. apply IndexOf_names. rewrite <- list_fmap_compose. apply list_fmap_ext. intros i f _. apply Hg. }
  split.
  - apply Forall2_fmap_r. eapply Forall2_impl; [exact Hc|]. intros i f Hf. by rewrite list_lookup_fmap, Hf.
  - intros name Hw. unfold same_index. rewrite !En. by apply Hn.
  - intros E. destruct (Ha E) as [-> ->]. by rewrite length_fmap.
Qed.

(** ** The input of an aggregate *)

Definition base (schema : Schema) : list ProjectExpr :=
  (λ f, mkProjectExpr (Name f) (ColumnRef (Name f) (IndexOf schema (Name f)) (Type_ f))) <$> schema.
Definition computed (aggs : list AggItem) (schema : Schema) : go (list ProjectExpr) :=
  foldM (λ acc agg,
      match ai_AggExpr agg with
      | None => Ret acc
      | Some e => x ← buildExecExpr e schema; Ret (acc ++ [mkProjectExpr (ai_ColName agg) x])
      end) [] aggs.
Lemma preProjection_split aggs schema : preProjection aggs schema = (c ← computed aggs schema; Ret (base schema ++ c)).
Proof.
  unfold preProjection, computed. fold (base schema). set (step := λ (acc : list ProjectExpr) (agg : AggItem), _).
  cut (∀ acc, foldM step (base schema ++ acc) aggs = (c ← foldM step acc aggs; Ret (base schema ++ c))).
  { intros H. rewrite <- (H []). by rewrite app_nil_r. }
  induction aggs as [|agg aggs IH]; intros acc; [done|]. cbn [foldM].
  assert (E : ∀ acc, step acc agg = match ai_AggExpr agg with None => Ret acc | Some e => x ← buildExecExpr e schema; Ret (acc ++ [mkProjectExpr (ai_ColName agg) x]) end) by done.
  rewrite !E. clear E. destruct (ai_AggExpr agg) as [e|]; [|apply IH].
  destruct (buildExecExpr e schema) as [x| | |]; try done. cbn [mbind go_bind]. rewrite <- app_assoc. apply IH.
Qed.
(** The names an aggregate looks up in its input. *)
Definition lookup_names (gb : list Ast.Expr) (aggs : list AggItem) : list string :=
  concat (collectCols <$> gb) ++ omap (λ agg, if decide (ai_AggExpr agg = None ∧ ai_ColName agg = ""%string) then None else Some (ai_ColName agg)) aggs.
Definition plain (f : Field) : Field := mkField (Name f) (Type_ f) EncPlain true.

Lemma lookup_agg names gb aggs agg : Forall (agg_bound names) aggs → agg ∈ aggs → agg_wanted (Some (lookup_names gb aggs)) agg.
Proof.
  intros Haggs Ha. unfold agg_wanted. cbn [wanted]. destruct (decide (ai_AggExpr agg = None ∧ ai_ColName agg = ""%string)) as [[E1 E2]|Hd].
  - left. split; [done|]. rewrite Forall_forall in Haggs. specialize (Haggs agg Ha). unfold agg_bound in Haggs. by rewrite E1, decide_True in Haggs.
  - right. apply elem_of_app. right. apply list_elem_of_omap. exists agg. split; [done|]. by rewrite decide_False.
Qed.
Section Input.
Context (gb : list Ast.Expr) (aggs : list AggItem) (ix : list nat) (s s' : Schema).
Abbreviation needed := (Some (uniqueStrings (aggCols gb aggs))).
Context (Hv : view needed ix s s') (Hreal : Forall (λ f, BuildType.real_type (Type_ f) = true) s').
Context (Hgb : Forall (λ e, bound_in (Name <$> s) e) gb) (Haggs : Forall (agg_bound (Name <$> s)) aggs).

Lemma aggCols_gb e name : e ∈ gb → name ∈ collectCols e → wanted needed name.
Proof using Type.
  intros He Hn. cbn [wanted]. apply elem_of_uniqueStrings, elem_of_app. left. apply list_elem_of_In, in_concat.
  exists (collectCols e). split; [|by apply list_elem_of_In]. apply list_elem_of_In. by apply list_elem_of_fmap_2.
Qed.
Lemma aggCols_agg agg name : agg ∈ aggs →
  name ∈ match ai_AggExpr agg with Some e => collectCols e | None => if decide (ai_ColName agg = ""%string) then [] else [ai_ColName agg] end →
  wanted needed name.
Proof using Type.
  intros Ha Hn. cbn [wanted]. apply elem_of_uniqueStrings, elem_of_app. right. apply list_elem_of_In, in_concat.
  eexists. split; [|by apply list_elem_of_In in Hn]. apply list_elem_of_In, list_elem_of_fmap. by exists agg.
Qed.
(** A name looked up is a needed column of the table, or new. *)
Lemma lookup_wanted name : name ∈ lookup_names gb aggs → name ∈ Name <$> s → wanted needed name.
Proof using Haggs.
  intros [Hn|(agg & Ha & E)%list_elem_of_omap]%elem_of_app Hs.
  - apply list_elem_of_In, in_concat in Hn as (l & Hl%list_elem_of_In & Hn%list_elem_of_In).
    apply list_elem_of_fmap in Hl as (e & -> & He). by eapply aggCols_gb.
  - case_decide as Hd; [done|]. injection E as <-. rewrite Forall_forall in Haggs. specialize (Haggs agg Ha). unfold agg_bound in Haggs.
    eapply aggCols_agg; [exact Ha|]. destruct (ai_AggExpr agg) as [e|]; [by destruct Haggs|]. rewrite decide_False by naive_solver. by left.
Qed.
Lemma lookup_gb e name : e ∈ gb → name ∈ collectCols e → wanted (Some (lookup_names gb aggs)) name.
Proof using Type.
  intros He Hn. apply elem_of_app. left. apply list_elem_of_In, in_concat.
  exists (collectCols e). split; [|by apply list_elem_of_In]. apply list_elem_of_In. by apply list_elem_of_fmap_2.
Qed.

Lemma computed_widen : computed aggs s = go_fmap (widen_pe ix) (computed aggs s').
Proof using Hv Haggs.
  unfold computed. apply (foldM_widen _ _ (widen_pe ix) aggs []). apply Forall_forall. intros agg Ha acc.
  destruct (ai_AggExpr agg) as [e|] eqn:E; [|done]. rewrite Forall_forall in Haggs. specialize (Haggs agg Ha). unfold agg_bound in Haggs.
  rewrite E in Haggs. destruct Haggs as [Hb _]. rewrite (buildExecExpr_widen needed ix s s' Hv e).
  - destruct (buildExecExpr e s') as [x| | |]; try done. cbn [mbind go_bind go_fmap]. by rewrite fmap_app.
  - eapply bound_reads; [exact Hb|]. intros name Hn. eapply aggCols_agg; [exact Ha|]. by rewrite E.
Qed.
Lemma computed_accepted c : computed aggs s' = Ret c → Forall (λ pe, accepted (Type_ <$> s') (pe_Expr pe) = true) c.
Proof using Hreal.
  unfold computed. apply foldM_preserves; [done|]. intros acc agg acc' Hacc. destruct (ai_AggExpr agg) as [e|]; [|by intros [= <-]].
  intros (x & Hx & [= <-])%go_bind_inv. apply Forall_app. split; [done|]. constructor; [|done]. by eapply built_accepted.
Qed.

Lemma base_schema schema : project_schema (base schema) = plain <$> schema.
Proof using Type. unfold project_schema, base. by rewrite <- list_fmap_compose. Qed.
Lemma pre_view c :
  view (Some (lookup_names gb aggs)) (side_by_side (length s) ix (seq 0 (length c)))
    (project_schema (base s ++ (widen_pe ix <$> c))) (project_schema (base s' ++ c)).
Proof using Hv Haggs.
  assert (Ea : ∀ l l', project_schema (l ++ l') = project_schema l ++ project_schema l') by (intros l l'; unfold project_schema; by rewrite fmap_app).
  rewrite !Ea, !base_schema, project_schema_widen, <- (length_fmap plain s).
  replace (length c) with (length (project_schema c)) by apply length_fmap.
  apply (view_app needed None); [|apply view_id| |done].
  - by apply view_fmap.
  - intros name Hw. split; [|done]. rewrite <- list_fmap_compose. apply lookup_wanted. exact Hw.
Qed.

Context (Hnd : NoDup (Name <$> s)).
Lemma base_row r : length r = length s → cells_select (base s) r = r.
Proof using Hnd.
  intros Hl. unfold cells_select, proj_row, base. rewrite <- list_fmap_compose. apply list_eq. intros i. rewrite list_lookup_fmap.
  destruct (s !! i) as [f|] eqn:Ef.
  - cbn. rewrite (IndexOf_NoDup _ _ _ Hnd Ef), Nat2Z.id. destruct (lookup_lt_is_Some_2 r i) as [c ->]; [|done].
    rewrite Hl. by eapply lookup_lt_Some.
  - rewrite (proj2 (lookup_ge_None r i)); [done|]. rewrite Hl. by apply lookup_ge_None.
Qed.
Lemma base_narrow r : cells_select (base s') (narrow ix r) = narrow ix r.
Proof using Hv Hnd.
  unfold cells_select, proj_row, base. rewrite <- list_fmap_compose. apply list_eq. intros j. rewrite list_lookup_fmap.
  unfold narrow at 2. rewrite list_lookup_fmap. destruct (s' !! j) as [f|] eqn:Ef.
  - destruct (view_lookup _ _ _ _ _ _ Hv Ef) as (i & Hi & Hf). rewrite Hi. cbn. f_equal.
    destruct (IndexOf_cases s' (Name f)) as [(j' & f' & -> & Hf' & En)|[_ Hno]].
    + rewrite Nat2Z.id. destruct (view_lookup _ _ _ _ _ _ Hv Hf') as (i' & Hi' & Hfi'). rewrite (narrow_lookup _ _ _ _ Hi'). do 2 f_equal.
      eapply (NoDup_lookup (Name <$> s)); [done|..]; rewrite list_lookup_fmap; [by rewrite Hfi'; cbn; rewrite En|by rewrite Hf].
    + destruct Hno. apply list_elem_of_fmap_2. by eapply list_elem_of_lookup_2.
  - rewrite (proj2 (lookup_ge_None ix j)); [done|]. rewrite (view_length _ _ _ _ Hv). by apply lookup_ge_None.
Qed.
Lemma pre_rows c rows :
  Forall (λ pe, accepted (Type_ <$> s') (pe_Expr pe) = true) c → Forall (λ r : cells, length r = length s) rows →
  cells_select (base s' ++ c) <$> (narrow ix <$> rows)
  = narrow (side_by_side (length s) ix (seq 0 (length c))) <$> (cells_select (base s ++ (widen_pe ix <$> c)) <$> rows).
Proof using Hv Hnd.
  intros Hc Hrows. rewrite <- !list_fmap_compose. apply list_fmap_ext. intros k r Hr. cbn [compose].
  pose proof (Forall_lookup_1 _ _ _ _ Hrows Hr) as Hl. cbv beta in Hl.
  assert (Ea : ∀ l l' r, cells_select (l ++ l') r = cells_select l r ++ cells_select l' r) by (intros; unfold cells_select, proj_row; by rewrite fmap_app).
  rewrite !Ea, base_narrow, base_row, narrow_app by (try done; apply Forall_forall; intros i; by eapply view_lt). f_equal.
  rewrite (cells_select_widen _ _ _ _ Hv c r Hc).
  replace (length c) with (length (cells_select c (narrow ix r))) by (unfold cells_select, proj_row; apply length_fmap).
  by rewrite narrow_id.
Qed.
End Input.
