(* ===== verification/OptimizeAnswer.v ===== *)
(** * Package planner: optimized plans answer their queries

    [Optimize_answers] composes the two passes: what the optimized plan answers is
    what the plan answers, row for row and in the same order. *)
From Stdlib Require Import ZArith Lia ZifyNat Sorted.
From stdpp Require Import base numbers list strings gmap sorting.
From S2P Require Import SharedJoin Prelude Encoding Codec Float64 Schema Writer Reader Volume Batch Scratch Scan Lexer Strconv Ast Parser Format VExpr VKernel VCase VExprSpec Operator RowOps Distinct Sorting Emit Sort Pipeline Aggregate AggSpec AggKeys AggInt AggPath AggConsume AggValue AggOut AggRun RowStore JoinTable Join Morsel ExprWalk Coerce ExecExpr BuildType FloatInt ZonePred Logical PlanRows Physical PlanScan PlanAnswer Optimizer Prune PruneScan PrunePlan PruneAnswer.
#[local] Open Scope Z_scope.

(** ** The names of an answer's columns *)

Lemma resolveGroupBy_name schema e i :
  resolveGroupBy schema e = Ret i →
  ∃ t name f, e = ColumnRefExpr t name ∧ schema !! Z.to_nat i = Some f ∧ Name f = name.
Proof.
  destruct e as [t name| | | | | | | | | | | | | | | | ]; try done. cbn [resolveGroupBy]. cbv zeta.
  destruct (IndexOf_cases schema name) as [(k & f & -> & Hf & En)|[-> _]]; [|done]. destruct (Z.ltb_spec (Z.of_nat k) 0); [lia|].
  intros [= <-]. exists t, name, f. by rewrite Nat2Z.id.
Qed.
Lemma fieldNamed_present schema name : name ∈ Name <$> schema → ∃ f, fieldNamed schema name = Some f ∧ Name f = name.
Proof.
  intros (f & -> & Hf)%list_elem_of_fmap. unfold fieldNamed. destruct (list_find (λ g, Name g = Name f) schema) as [[k g]|] eqn:E.
  - apply list_find_Some in E as (_ & E & _). by exists g.
  - apply list_find_None in E. rewrite Forall_forall in E. by destruct (E f Hf).
Qed.
Lemma group_names (schema child : Schema) gb gs :
  Forall2 (λ e i, resolveGroupBy schema e = Ret i) gb gs → Forall (λ e, bound_in (Name <$> child) e) gb →
  Name <$> omap (λ i, schema !! Z.to_nat i) gs = Name <$> omap (λ e, fieldNamed child (exprName e)) gb.
Proof.
  induction 1 as [|e i gb gs Hr _ IH]; [done|]. intros [He Hgb]%List.Forall_cons_iff. cbn [omap list_omap].
  destruct (resolveGroupBy_name _ _ _ Hr) as (t & name & f & -> & -> & En). cbn [exprName].
  apply List.Forall_inv in He as [_ Hn]. destruct (fieldNamed_present _ _ Hn) as (g & -> & Eg). cbn [fmap list_fmap].
  by rewrite IH, En, Eg.
Qed.
Lemma resolveAggItem_name schema agg ae : resolveAggItem schema agg = Ret ae → OutName ae = ai_Alias agg.
Proof.
  unfold resolveAggItem. intros ([k c] & _ & H)%go_bind_inv. destruct (_ && _); [done|].
  apply go_bind_inv in H as (t & _ & H). destruct (_ && _); [done|]. by injection H as <-.
Qed.
Lemma agg_names schema gb aggs gs aes :
  resolveAggConfig gb aggs schema = Ret (gs, aes) →
  Forall2 (λ e i, resolveGroupBy schema e = Ret i) gb gs ∧ OutName <$> aes = ai_Alias <$> aggs.
Proof.
  unfold resolveAggConfig. intros (gs' & Hgs & (aes' & Haes & [= -> ->])%go_bind_inv)%go_bind_inv. split; [by apply foldM_map_nil|].
  apply foldM_map_nil in Haes. induction Haes as [|agg ae l l' H _ IH]; [done|]. cbn [fmap list_fmap].
  by rewrite IH, (resolveAggItem_name _ _ _ H).
Qed.
Lemma translateItems_names es schema pes : translateItems es schema = Ret pes → pe_Name <$> pes = pi_Alias <$> es.
Proof.
  unfold translateItems. cut (∀ acc, foldM (λ acc pe, e ← buildExecExpr (pi_Expr pe) schema; Ret (acc ++ [mkProjectExpr (pi_Alias pe) e])) acc es = Ret pes →
    pe_Name <$> pes = (pe_Name <$> acc) ++ (pi_Alias <$> es)); [intros H; apply (H [])|].
  induction es as [|pe es IH]; intros acc; cbn [foldM]; [intros [= <-]; by rewrite app_nil_r|].
  destruct (buildExecExpr (pi_Expr pe) schema); try done. cbn [mbind go_bind]. intros ->%IH. rewrite fmap_app, <- app_assoc. done.
Qed.
Lemma scan_answer_names fs n schema rows :
  NeededCols n = [] → scan_answer fs n schema rows → Name <$> schema = Name <$> ls_Schema n.
Proof.
  intros Hn Ha. assert (Ho : ∀ r src sess s, file_repr src r sess → describes n src →
    openScan n r None 0 (Z.of_nat (length (RowGroups (r_meta r)))) = Ret s → Name <$> ts_schema s = Name <$> ls_Schema n).
  { intros r src sess s (Hsrc & _) Hd Hs. rewrite <- Hsrc in Hd. assert (Hk : knows n) by (unfold knows; by rewrite Hn).
    rewrite (opened_names n _ _ (openScan_opened _ _ _ _ _ _ Hd Hk Hs)). unfold out_names. by rewrite Hn. }
  destruct Ha; by eapply Ho.
Qed.
Lemma answer_names fs node schema rows :
  names_resolve node → answer fs node schema rows → Name <$> schema = names_of node.
Proof.
  intros Hp Ha. revert Hp.
  induction Ha as [n schema rows Ha|c p schema rows x _ IH _|c es schema rows pes _ IH Hp|c gb aggs schema rows schema' rows' gs aes out _ IH Hin Hc _
    |c ob schema rows keys out _ IH _ _ _ _|c n k schema rows _ IH|l r cond ls rs lrows rrows bk pk _ IHl _ IHr _|c schema rows _ IH]; cbn [names_resolve].
  - intros [Hn _]. rewrite OutputSchema_scan by done. by eapply scan_answer_names.
  - intros [Hc _]. by eapply IH.
  - intros _. cbn [OutputSchema]. unfold project_schema. rewrite <- !list_fmap_compose. cbn [compose Name]. by apply translateItems_names in Hp.
  - intros (Hcp & Hgb & _ & _). destruct (agg_names _ _ _ _ _ Hc) as [Hgs Haes]. cbn [OutputSchema]. cbv zeta. unfold agg_schema. rewrite !fmap_app. f_equal.
    + by apply group_names.
    + rewrite <- !list_fmap_compose. exact Haes.
  - intros [Hc _]. by apply IH.
  - exact IH.
  - intros (Hl & Hr & _). cbn [OutputSchema]. rewrite !fmap_app. by rewrite (IHl Hl), (IHr Hr).
  - exact IH.
Qed.

(** ** Plans that match *)

(** The answers of a plan and of its pruned form, up to the columns left out. *)
Definition matched (fs : FS) (needed : needed_set) (c c' : LogicalNode) : Prop :=
  (∀ s rows, answer fs c s rows → ∃ s' ix, answer fs c' s' (narrow ix <$> rows) ∧ view needed ix s s') ∧
  (∀ s' rows', answer fs c' s' rows' → ∃ s ix rows, answer fs c s rows ∧ rows' = narrow ix <$> rows ∧ view needed ix s s').

(** Operators whose output does not depend on what was left out. *)
Lemma matched_same fs needed c c' :
  (∀ s rows, answer fs c s rows ↔ answer fs c' s rows) → matched fs needed c c'.
Proof.
  intros H. split; intros s rows Ha.
  - exists s, (seq 0 (length s)). rewrite narrow_rows_id by by eapply answer_width. split; [by apply H|apply view_id].
  - exists s, (seq 0 (length s)), rows. rewrite narrow_rows_id by by eapply answer_width. split; [by apply H|]. split; [done|apply view_id].
Qed.
Lemma matched_weaken fs needed needed' c c' :
  (∀ name, wanted needed' name → wanted needed name) → (needed' = None → needed = None) → matched fs needed c c' → matched fs needed' c c'.
Proof.
  intros H1 H2 [Hc Hs]. split.
  - intros s rows (s' & ix & Ha & Hv)%Hc. exists s', ix. split; [done|]. by eapply view_weaken.
  - intros s' rows' (s & ix & rows & Ha & E & Hv)%Hs. exists s, ix, rows. split; [done|]. split; [done|]. by eapply view_weaken.
Qed.

Section Nodes.
Context (fs : FS) (c c' : LogicalNode) (names : list string).

Lemma matched_filter needed p :
  matched fs needed c c' → bound_in names p → (∀ name, name ∈ collectCols p → wanted needed name) →
  matched fs needed (LFilter c p) (LFilter c' p).
Proof using Type.
  intros [Hc Hs] Hb Hw. pose proof (bound_reads _ needed _ Hb Hw) as Hr. split.
  - intros s rows Ha. inversion Ha as [|? ? ? rows0 x Ha0 Hx| | | | | |]; subst. destruct (Hc _ _ Ha0) as (s' & ix & Ha' & Hv).
    rewrite (buildExecExpr_widen _ _ _ _ Hv p Hr) in Hx. apply go_bind_inv in Hx as (x' & Hx' & [= <-]).
    exists s', ix. split; [|done]. rewrite (filter_widen _ _ _ _ Hv) by (eapply built_accepted; [by eapply answer_real|done]).
    by eapply ans_filter.
  - intros s' rows' Ha. inversion Ha as [|? ? ? rows0 x Ha0 Hx| | | | | |]; subst. destruct (Hs _ _ Ha0) as (s & ix & rows & Ha' & -> & Hv).
    exists s, ix, (filter (cells_true (widen ix x)) rows). split; [|split; [|done]].
    + eapply ans_filter; [done|]. by rewrite (buildExecExpr_widen _ _ _ _ Hv p Hr), Hx.
    + symmetry. apply (filter_widen _ _ _ _ Hv). eapply built_accepted; [by eapply answer_real|done].
Qed.

Lemma matched_project needed needed' es :
  matched fs needed c c' → Forall (λ pe, bound_in names (pi_Expr pe)) es →
  (∀ pe name, pe ∈ es → name ∈ collectCols (pi_Expr pe) → wanted needed name) →
  matched fs needed' (LProject c es) (LProject c' es).
Proof using Type.
  intros [Hc Hs] Hb Hw. assert (Hr : Forall (λ pe, Forall (reads_only needed) (walkExpr (pi_Expr pe))) es).
  { apply Forall_forall. intros pe Hpe. rewrite Forall_forall in Hb. eapply bound_reads; [by apply Hb|]. intros name. by apply Hw. }
  apply matched_same. intros s rows. split; intros Ha; inversion Ha as [| |? ? s0 rows0 pes Ha0 Hp| | | | |]; subst.
  - destruct (Hc _ _ Ha0) as (s' & ix & Ha' & Hv). rewrite (translateItems_widen _ _ _ _ Hv es Hr) in Hp.
    apply go_bind_inv in Hp as (pes' & Hp' & [= <-]). rewrite project_schema_widen.
    pose proof (translateItems_accepted _ _ _ (answer_real _ _ _ _ Ha') Hp') as Hacc.
    replace (cells_select (widen_pe ix <$> pes') <$> rows0) with (cells_select pes' <$> (narrow ix <$> rows0)); [by eapply ans_project|].
    rewrite <- list_fmap_compose. apply list_fmap_ext. intros i r _. symmetry. by apply (cells_select_widen _ _ _ _ Hv).
  - destruct (Hs _ _ Ha0) as (s & ix & rows & Ha' & -> & Hv).
    pose proof (translateItems_accepted _ _ _ (answer_real _ _ _ _ Ha0) Hp) as Hacc.
    rewrite <- (project_schema_widen ix pes).
    replace (cells_select pes <$> (narrow ix <$> rows)) with (cells_select (widen_pe ix <$> pes) <$> rows).
    + eapply ans_project; [done|]. by rewrite (translateItems_widen _ _ _ _ Hv es Hr), Hp.
    + rewrite <- list_fmap_compose. apply list_fmap_ext. intros i r _. by apply (cells_select_widen _ _ _ _ Hv).
Qed.

Lemma matched_limit needed n k : matched fs needed c c' → matched fs needed (LLimit c n k) (LLimit c' n k).
Proof using Type.
  assert (Hwin : ∀ ix (rows : list cells), window n (Z.to_nat k) (narrow ix <$> rows) = narrow ix <$> window n (Z.to_nat k) rows).
  { intros ix rows. unfold window. case_decide; by rewrite ?fmap_take, ?fmap_drop. }
  intros [Hc Hs]. split.
  - intros s rows Ha. inversion Ha as [| | | | |? ? ? s0 rows0 Ha0| |]; subst. destruct (Hc _ _ Ha0) as (s' & ix & Ha' & Hv).
    exists s', ix. rewrite <- Hwin. split; [by apply ans_limit|done].
  - intros s rows Ha. inversion Ha as [| | | | |? ? ? s0 rows0 Ha0| |]; subst. destruct (Hs _ _ Ha0) as (s' & ix & rows & Ha' & -> & Hv).
    exists s', ix, (window n (Z.to_nat k) rows). rewrite <- Hwin. split; [by apply ans_limit|done].
Qed.
(** With every column of distinct names left, no two rows are merged. *)
Lemma narrow_inj needed ix s s' (r1 r2 : cells) :
  view needed ix s s' → NoDup (Name <$> s) → (∀ name, name ∈ Name <$> s → wanted needed name) →
  length r1 = length s → length r2 = length s → narrow ix r1 = narrow ix r2 → r1 = r2.
Proof using Type.
  intros Hv Hnd Hw H1 H2 E. apply list_eq_same_length with (length s); [done..|]. intros i x y Hi Hx Hy.
  destruct (lookup_lt_is_Some_2 s i) as [f Hf]; [lia|].
  destruct (view_index _ _ _ _ (Name f) Hv) as [[E' _]|(i' & j & f' & Ei & _ & Hj & _)].
  { apply Hw, list_elem_of_fmap_2. by eapply list_elem_of_lookup_2. }
  { rewrite (IndexOf_NoDup _ _ _ Hnd Hf) in E'. lia. }
  rewrite (IndexOf_NoDup _ _ _ Hnd Hf) in Ei. assert (i' = i) as -> by lia.
  pose proof (narrow_lookup _ r1 _ _ Hj) as E1. rewrite E, (narrow_lookup _ r2 _ _ Hj), Hx, Hy in E1. by cbn in E1.
Qed.
Lemma distinct_narrow ix (n : nat) (seen rows : list cells) :
  (∀ r1 r2 : cells, length r1 = n → length r2 = n → narrow ix r1 = narrow ix r2 → r1 = r2) →
  Forall (λ r : cells, length r = n) seen → Forall (λ r : cells, length r = n) rows →
  distinct_cells (narrow ix <$> seen) (narrow ix <$> rows) = narrow ix <$> distinct_cells seen rows.
Proof using Type.
  intros Hinj Hseen Hrows. revert seen Hseen. induction Hrows as [|r rows Hr _ IH]; intros seen Hseen; [done|].
  cbn [fmap list_fmap distinct_cells]. destruct (decide (r ∈ seen)) as [Hin|Hin].
  - rewrite decide_True by by apply list_elem_of_fmap_2. by apply IH.
  - rewrite decide_False.
    + cbn [fmap list_fmap]. f_equal. apply (IH (r :: seen)). by constructor.
    + intros (r' & E & Hr')%list_elem_of_fmap. rewrite Forall_forall in Hseen. by rewrite (Hinj r r' Hr (Hseen _ Hr') E) in Hin.
Qed.
Lemma matched_distinct needed :
  matched fs needed c c' → (∀ s rows, answer fs c s rows → Name <$> s = names) →
  match needed with None => True | Some ns => NoDup names ∧ Forall (λ name, name ∈ ns) names end →
  matched fs needed (LDistinct c) (LDistinct c').
Proof using Type.
  intros [Hc Hs] Hn Hw.
  assert (Hd : ∀ s s' ix rows, answer fs c s rows → view needed ix s s' → distinct_cells [] (narrow ix <$> rows) = narrow ix <$> distinct_cells [] rows).
  { intros s s' ix rows Ha Hv. pose proof (answer_width _ _ _ _ Ha) as Hl. destruct needed as [ns|].
    - destruct Hw as [Hnd Hw]. apply (distinct_narrow ix (length s) []); [|done|done]. intros r1 r2 H1 H2 E.
      rewrite <- (Hn _ _ Ha) in Hnd, Hw. rewrite Forall_forall in Hw. by eapply narrow_inj.
    - destruct (v_all _ _ _ _ Hv eq_refl) as [-> ->]. rewrite !narrow_rows_id; [done| |done].
      eapply (answer_width fs (LDistinct c)). by apply ans_distinct. }
  split.
  - intros s rows Ha. inversion Ha as [| | | | | | |? ? rows0 Ha0]; subst. destruct (Hc _ _ Ha0) as (s' & ix & Ha' & Hv).
    exists s', ix. split; [|done]. rewrite <- (Hd _ _ _ _ Ha0 Hv). by apply ans_distinct.
  - intros s rows Ha. inversion Ha as [| | | | | | |? ? rows0 Ha0]; subst. destruct (Hs _ _ Ha0) as (s' & ix & rows & Ha' & -> & Hv).
    exists s', ix, (distinct_cells [] rows). split; [by apply ans_distinct|]. split; [by eapply Hd|done].
Qed.

(** A sort has one result. *)
Lemma sort_answer s rows keys ob out :
  answer fs c s rows → sortKeys ob s = Ret keys → out = sort_by (row_cmp keys) rows → answer fs (LSort c ob) s out.
Proof using Type.
  intros Ha Hk ->. eapply ans_sort; [done|done|apply sort_by_perm|by apply sort_by_sorted; apply _|].
  intros r. by apply sort_by_stable; apply _.
Qed.
Lemma sorted_unique keys (rows out : list cells) :
  StronglySorted (cmp_le (row_cmp keys)) out →
  (∀ r, filter (λ r', row_cmp keys r r' = Eq) out = filter (λ r', row_cmp keys r r' = Eq) rows) → out = sort_by (row_cmp keys) rows.
Proof using Type.
  intros Hs Hf. apply (stable_sort_unique (row_cmp keys)); [done|by apply sort_by_sorted; apply _|]. intros a. rewrite Hf. symmetry. apply sort_by_stable. apply _.
Qed.
End Nodes.

Lemma matched_sort fs c c' needed ob :
  matched fs needed c c' → (∀ name, name ∈ sortCols ob → wanted needed name) → matched fs needed (LSort c ob) (LSort c' ob).
Proof.
  intros [Hc Hs] Hw.
  assert (Hsort : ∀ s s' ix keys rows, view needed ix s s' → sortKeys ob s' = Ret keys →
    sort_by (row_cmp keys) (narrow ix <$> rows) = narrow ix <$> sort_by (row_cmp (widen_key ix <$> keys)) rows).
  { intros s s' ix keys rows Hv Hk. apply sort_by_narrow. intros a b. eapply row_cmp_widen; [exact Hv|]. by apply (sortKeys_valid ob). }
  split.
  - intros s out Ha. inversion Ha as [| | | |? ? ? rows keys ? Ha0 Hk Hp Hss Hst| | |]; subst.
    pose proof (sorted_unique keys rows out Hss Hst) as ->. destruct (Hc _ _ Ha0) as (s' & ix & Ha' & Hv).
    rewrite (sortKeys_widen _ _ _ _ Hv ob Hw) in Hk. apply go_bind_inv in Hk as (keys' & Hk' & [= <-]). exists s', ix. split; [|done].
    eapply sort_answer; [done|done|]. symmetry. by eapply Hsort.
  - intros s' out Ha. inversion Ha as [| | | |? ? ? rows' keys ? Ha0 Hk Hp Hss Hst| | |]; subst.
    pose proof (sorted_unique keys rows' out Hss Hst) as ->. destruct (Hs _ _ Ha0) as (s & ix & rows & Ha' & -> & Hv).
    exists s, ix, (sort_by (row_cmp (widen_key ix <$> keys)) rows). split; [|split; [by eapply Hsort|done]].
    eapply sort_answer; [done| |done]. by rewrite (sortKeys_widen _ _ _ _ Hv ob Hw), Hk.
Qed.

Section Aggregate.
Context (fs : FS) (c c' : LogicalNode) (gb : list Ast.Expr) (aggs : list AggItem).
Abbreviation needed := (Some (uniqueStrings (aggCols gb aggs))).
Context (Hm : matched fs needed c c').
Context (names : list string) (Hnames : ∀ s rows, answer fs c s rows → Name <$> s = names).
Context (Hgb : Forall (λ e, bound_in names e) gb) (Haggs : Forall (agg_bound names) aggs).
Context (Hnd : hasComplex aggs = true → NoDup names).

Lemma plain_lookup : hasComplex aggs = false → ∀ name, wanted (Some (lookup_names gb aggs)) name → wanted needed name.
Proof using Type.
  intros Hc name [Hn|(agg & Ha & E)%list_elem_of_omap]%elem_of_app.
  - apply list_elem_of_In, in_concat in Hn as (l & Hl%list_elem_of_In & Hn%list_elem_of_In).
    apply list_elem_of_fmap in Hl as (e & -> & He). by eapply aggCols_gb.
  - case_decide as Hd; [done|]. injection E as <-. eapply aggCols_agg; [exact Ha|].
    assert (En : ai_AggExpr agg = None).
    { destruct (ai_AggExpr agg) as [e|] eqn:Ee; [|done]. unfold hasComplex in Hc. rewrite <- not_true_iff_false, existsb_exists in Hc. destruct Hc.
      exists agg. split; [by apply list_elem_of_In|]. rewrite Ee. by apply bool_decide_eq_true. }
    rewrite En, decide_False by naive_solver. by left.
Qed.
Lemma input_fwd s rows s' ix sw rowsw :
  answer fs c s rows → answer fs c' s' (narrow ix <$> rows) → view needed ix s s' → agg_input aggs s rows sw rowsw →
  ∃ sn ix2, agg_input aggs s' (narrow ix <$> rows) sn (narrow ix2 <$> rowsw) ∧ view (Some (lookup_names gb aggs)) ix2 sw sn.
Proof using Hgb Haggs Hnames Hnd.
  intros Ha Ha' Hv [Hc|pes Hc Hp].
  - exists s', ix. split; [by apply input_plain|]. eapply view_weaken; [exact Hv| |done]. by apply plain_lookup.
  - pose proof (Hnames _ _ Ha) as En. specialize (Hnd Hc). rewrite <- En in *.
    rewrite preProjection_split in Hp. apply go_bind_inv in Hp as (cw & Hcw & [= <-]).
    rewrite (computed_widen gb aggs ix s s' Hv Haggs) in Hcw. apply go_bind_inv in Hcw as (cn & Hcn & [= <-]).
    exists (project_schema (base s' ++ cn)), (side_by_side (length s) ix (seq 0 (length cn))). split.
    + rewrite <- (pre_rows gb aggs ix s s' Hv Hnd cn rows); [|by eapply computed_accepted, Hcn; eapply answer_real|by eapply answer_width].
      apply input_computed; [done|]. by rewrite preProjection_split, Hcn.
    + by apply pre_view.
Qed.
Lemma input_bwd s rows s' ix sn rowsn :
  answer fs c s rows → answer fs c' s' (narrow ix <$> rows) → view needed ix s s' → agg_input aggs s' (narrow ix <$> rows) sn rowsn →
  ∃ sw ix2 rowsw, agg_input aggs s rows sw rowsw ∧ rowsn = narrow ix2 <$> rowsw ∧ view (Some (lookup_names gb aggs)) ix2 sw sn.
Proof using Hgb Haggs Hnames Hnd.
  intros Ha Ha' Hv [Hc|pes Hc Hp].
  - exists s, ix, rows. split; [by apply input_plain|]. split; [done|]. eapply view_weaken; [exact Hv| |done]. by apply plain_lookup.
  - pose proof (Hnames _ _ Ha) as En. specialize (Hnd Hc). rewrite <- En in *.
    rewrite preProjection_split in Hp. apply go_bind_inv in Hp as (cn & Hcn & [= <-]).
    eexists _, (side_by_side (length s) ix (seq 0 (length cn))), _. split; [|split].
    + apply (input_computed aggs s rows (base s ++ (widen_pe ix <$> cn))); [done|].
      by rewrite preProjection_split, (computed_widen gb aggs ix s s' Hv Haggs), Hcn.
    + apply (pre_rows gb aggs ix s s' Hv Hnd cn rows); [by eapply computed_accepted, Hcn; eapply answer_real|by eapply answer_width].
    + by apply pre_view.
Qed.
Lemma config_widen sw sn ix2 :
  view (Some (lookup_names gb aggs)) ix2 sw sn →
  resolveAggConfig gb aggs sw = (cfg ← resolveAggConfig gb aggs sn; Ret (widen_config ix2 cfg)).
Proof using Haggs.
  intros Hv. apply (resolveAggConfig_widen _ _ _ _ Hv).
  - apply Forall_forall. intros e He name. by apply lookup_gb.
  - apply Forall_forall. intros agg Ha. by eapply lookup_agg.
Qed.

Lemma matched_aggregate needed' : matched fs needed' (LAggregate c gb aggs) (LAggregate c' gb aggs).
Proof using All.
  pose proof Hm as [Hc Hs].
  apply matched_same. intros s0 out. split; intros Ha; inversion Ha as [| | |? ? ? s rows sw rowsw gs aes ? Ha0 Hin Hcfg Hperm| | | |]; subst.
  - destruct (Hc _ _ Ha0) as (s' & ix & Ha' & Hv). destruct (input_fwd _ _ _ _ _ _ Ha0 Ha' Hv Hin) as (sn & ix2 & Hin' & Hv2).
    rewrite (config_widen _ _ _ Hv2) in Hcfg. apply go_bind_inv in Hcfg as ([gs' aes'] & Hcfg & [= <- <-]). cbn [fst snd] in *.
    destruct (resolveAggConfig_valid _ _ _ _ _ Hcfg) as [Hgs Haes].
    rewrite (agg_schema_widen _ _ _ _ Hv2 gs' aes' Hgs Haes). eapply ans_aggregate; [done|done|done|].
    by rewrite Hperm, (agg_result_widen _ _ _ _ Hv2 gs' aes' _ Hgs Haes).
  - destruct (Hs _ _ Ha0) as (s' & ix & rows' & Ha' & -> & Hv). destruct (input_bwd _ _ _ _ _ _ Ha' Ha0 Hv Hin) as (sn & ix2 & rowsn & Hin' & -> & Hv2).
    destruct (resolveAggConfig_valid _ _ _ _ _ Hcfg) as [Hgs Haes].
    rewrite <- (agg_schema_widen _ _ _ _ Hv2 gs aes Hgs Haes). eapply ans_aggregate; [done|done| |].
    + by rewrite (config_widen _ _ _ Hv2), Hcfg.
    + by rewrite Hperm, (agg_result_widen _ _ _ _ Hv2 gs aes _ Hgs Haes).
Qed.
End Aggregate.

Section JoinNode.
Context (nl nr needed : needed_set) (ixl ixr : list nat) (ls ls' rs rs' : Schema).
Context (Hl : view nl ixl ls ls') (Hr : view nr ixr rs rs').

Lemma side_index n ix s s' name : view n ix s s' → (name ∈ Name <$> s → wanted n name) → same_index ix s s' name.
Proof using Type.
  intros Hv Hw. destruct (decide (name ∈ Name <$> s)) as [Hin|Hin]; [by apply (v_names _ _ _ _ Hv), Hw|].
  left. split; apply IndexOf_absent; [done|by eapply view_absent].
Qed.
Definition widen_keys (p : Z * Z) : Z * Z := (wide_index ixl p.1, wide_index ixr p.2).
Lemma joinKeys_widen cond :
  (∀ name, name ∈ collectCols cond → (name ∈ Name <$> ls → wanted nl name) ∧ (name ∈ Name <$> rs → wanted nr name)) →
  joinKeys cond ls rs = (p ← joinKeys cond ls' rs'; Ret (widen_keys p)).
Proof using Hl Hr.
  intros Hw. destruct cond as [| | | | | | |op l r| | | | | | | | | ]; try done. destruct op; try done.
  destruct l as [t l| | | | | | | | | | | | | | | | ]; try done. destruct r as [u r| | | | | | | | | | | | | | | | ]; try done.
  destruct (Hw l) as [Hll Hlr]; [by left|]. destruct (Hw r) as [Hrl Hrr]; [by right; left|].
  assert (Hx : ∀ n ix s s' name, view n ix s s' → (name ∈ Name <$> s → wanted n name) →
    (IndexOf s name <? 0) = (IndexOf s' name <? 0) ∧ ((IndexOf s' name <? 0) = false → IndexOf s name = wide_index ix (IndexOf s' name))).
  { intros n ix s s' name Hv Hn. destruct (side_index n ix s s' name Hv Hn) as [[-> ->]|(i & j & -> & -> & E)]; [done|].
    split; [destruct (Z.ltb_spec (Z.of_nat i) 0), (Z.ltb_spec (Z.of_nat j) 0); lia|]. intros _. unfold wide_index. by rewrite Nat2Z.id, E. }
  destruct (Hx _ _ _ _ l Hl Hll) as [E1 W1], (Hx _ _ _ _ r Hr Hrr) as [E2 W2], (Hx _ _ _ _ r Hl Hrl) as [E3 W3], (Hx _ _ _ _ l Hr Hlr) as [E4 W4].
  cbn [joinKeys]. cbv zeta. rewrite E1. destruct (IndexOf ls' l <? 0) eqn:D1.
  - rewrite E3, E4. destruct (IndexOf ls' r <? 0), (IndexOf rs' l <? 0); try done. cbn [orb mbind go_bind]. unfold widen_keys. cbn [fst snd].
    by rewrite <- W3, <- W4.
  - rewrite E1, E2, D1. destruct (IndexOf rs' r <? 0); try done. cbn [orb mbind go_bind]. unfold widen_keys. cbn [fst snd].
    by rewrite <- W1, <- W2.
Qed.
Lemma joinKeys_found cond bk pk : joinKeys cond ls' rs' = Ret (bk, pk) →
  (∃ i, ixl !! Z.to_nat bk = Some i) ∧ (∃ i, ixr !! Z.to_nat pk = Some i).
Proof using Hl Hr.
  assert (Hf : ∀ n ix s s' name, view n ix s s' → (IndexOf s' name <? 0) = false → ∃ i, ix !! Z.to_nat (IndexOf s' name) = Some i).
  { intros n ix s s' name Hv H. destruct (IndexOf_cases s' name) as [(k & f & E & Hk & _)|[E _]]; rewrite E in *; [|done].
    rewrite Nat2Z.id. destruct (view_lookup _ _ _ _ _ _ Hv Hk) as (i & Hi & _). eauto. }
  destruct cond as [| | | | | | |op l r| | | | | | | | | ]; try done. destruct op; try done.
  destruct l as [t l| | | | | | | | | | | | | | | | ]; try done. destruct r as [u r| | | | | | | | | | | | | | | | ]; try done.
  cbn [joinKeys]. cbv zeta. destruct (IndexOf ls' l <? 0); (destruct (_ || _) eqn:D; [done|]); intros [= <- <-];
    apply orb_false_iff in D as [D1 D2]; split; by eapply Hf.
Qed.
Lemma key_of_widen ix j (r : cells) : (∃ i, ix !! Z.to_nat j = Some i) → key_of (Z.to_nat (wide_index ix j)) r = key_of (Z.to_nat j) (narrow ix r).
Proof using Type.
  intros [i Hi]. unfold key_of, wide_index, narrow. rewrite list_lookup_fmap, Hi, Nat2Z.id. cbn [default fmap option_fmap option_map].
  cbn [id]. by destruct (r !! i) as [[]|].
Qed.
Lemma joined_widen cond bk pk lrows rrows :
  joinKeys cond ls' rs' = Ret (bk, pk) → Forall (λ r : cells, length r = length ls) lrows →
  joined (Z.to_nat bk) (Z.to_nat pk) (narrow ixl <$> lrows) (narrow ixr <$> rrows)
  = narrow (side_by_side (length ls) ixl ixr) <$> joined (Z.to_nat (wide_index ixl bk)) (Z.to_nat (wide_index ixr pk)) lrows rrows.
Proof using Hl Hr.
  intros Hk Hlen. destruct (joinKeys_found _ _ _ Hk) as [Hb Hp]. unfold joined.
  induction rrows as [|p rrows IH]; [done|]. cbn [fmap list_fmap concat]. rewrite fmap_app. f_equal; [|exact IH].
  rewrite (key_of_widen _ _ p Hp). destruct (key_of _ (narrow ixr p)) as [k|]; [|done].
  rewrite <- list_fmap_compose.
  assert (E : filter (λ b, key_of (Z.to_nat bk) b = Some k) (narrow ixl <$> lrows)
    = narrow ixl <$> filter (λ b, key_of (Z.to_nat (wide_index ixl bk)) b = Some k) lrows).
  { symmetry. apply filter_narrow. intros b. by rewrite key_of_widen. }
  rewrite E.
  rewrite <- list_fmap_compose. apply list_fmap_ext. intros i b Hb'. cbn [compose]. symmetry. apply narrow_app.
  - apply list_elem_of_lookup_2, list_elem_of_filter in Hb' as [_ Hin]. rewrite Forall_forall in Hlen. by apply Hlen.
  - apply Forall_forall. intros j. by apply (view_lt _ _ _ _ _ Hl).
Qed.
End JoinNode.

Lemma matched_join fs nl nr needed l l' r r' cond :
  matched fs nl l l' → matched fs nr r r' → (needed = None → nl = None ∧ nr = None) →
  (∀ ls rs lrows rrows, answer fs l ls lrows → answer fs r rs rrows → ∀ name, wanted needed name ∨ name ∈ collectCols cond →
    (name ∈ Name <$> ls → wanted nl name) ∧ (name ∈ Name <$> rs → wanted nr name)) →
  matched fs needed (LJoin l r cond) (LJoin l' r' cond).
Proof.
  intros [Hlc Hls] [Hrc Hrs] Hnone Hw. split.
  - intros s rows Ha. inversion Ha as [| | | | | |? ? ? ls rs lrows rrows bk pk Hal Har Hk|]; subst.
    destruct (Hlc _ _ Hal) as (ls' & ixl & Hal' & Hvl), (Hrc _ _ Har) as (rs' & ixr & Har' & Hvr). specialize (Hw _ _ _ _ Hal Har).
    rewrite (joinKeys_widen _ _ _ _ _ _ _ _ Hvl Hvr cond) in Hk by (intros name ?; apply Hw; by right).
    apply go_bind_inv in Hk as ([bk' pk'] & Hk & [= <- <-]). cbn [fst snd].
    exists (ls' ++ rs'), (side_by_side (length ls) ixl ixr). split; [|eapply view_app; eauto].
    rewrite <- (joined_widen _ _ _ _ _ _ _ _ Hvl Hvr cond bk' pk' lrows rrows Hk); [by apply ans_join|by eapply answer_width].
  - intros s rows Ha. inversion Ha as [| | | | | |? ? ? ls' rs' lrows' rrows' bk pk Hal Har Hk|]; subst.
    destruct (Hls _ _ Hal) as (ls & ixl & lrows & Hal' & -> & Hvl), (Hrs _ _ Har) as (rs & ixr & rrows & Har' & -> & Hvr). specialize (Hw _ _ _ _ Hal' Har').
    eexists (ls ++ rs), (side_by_side (length ls) ixl ixr), _. split; [|split; [|eapply view_app; eauto]].
    + eapply ans_join; [done|done|]. rewrite (joinKeys_widen _ _ _ _ _ _ _ _ Hvl Hvr cond) by (intros name ?; apply Hw; by right). by rewrite Hk.
    + apply (joined_widen _ _ _ _ _ _ _ _ Hvl Hvr cond bk pk lrows rrows Hk). by eapply answer_width.
Qed.

Lemma matched_scan fs n cols :
  NeededCols n = [] → Forall (λ name, name ∈ Name <$> ls_Schema n) cols →
  match ls_Predicate n with Some p => bound_in (Name <$> ls_Schema n) p ∧ ∀ name, name ∈ collectCols p → name ∈ cols | None => True end →
  matched fs (Some cols) (LScan n) (LScan (set_needed n cols)).
Proof.
  intros Hall Hk Hp. destruct (decide (cols = [])) as [->|Hne].
  { replace (set_needed n []) with n by (destruct n; cbn in *; by subst). by apply matched_same. }
  assert (Hkn : knows n) by (unfold knows; by rewrite Hall). assert (Hkn' : knows (set_needed n cols)) by exact Hk.
  assert (Hview : ∀ r src sess e s s', file_repr src r sess → describes n src →
    openScan n r None 0 e = Ret s → openScan (set_needed n cols) r None 0 e = Ret s' →
    view (Some cols) (kept_columns n cols) (ts_schema s) (ts_schema s') ∧
    session_rows (colMap s') sess = narrow (kept_columns n cols) <$> session_rows (colMap s) sess).
  { intros r src sess e s s' (Hsrc & _) Hd Hs Hs'. rewrite <- Hsrc in Hd.
    pose proof (openScan_opened _ _ _ _ _ _ Hd Hkn Hs) as Ho. assert (Hd' : describes (set_needed n cols) (fm_Schema (r_meta r))) by exact Hd.
    pose proof (openScan_opened _ _ _ _ _ _ Hd' Hkn' Hs') as Ho'. split; [by eapply scan_view|by eapply session_rows_narrow]. }
  assert (Hreads : ∀ p, ls_Predicate n = Some p → Forall (reads_only (Some cols)) (walkExpr p)).
  { intros p E. rewrite E in Hp. destruct Hp as [Hb Hc]. by eapply bound_reads. }
  assert (Hacc : ∀ s' x p rows', answer fs (LScan (set_needed n cols)) s' rows' → buildExecExpr p s' = Ret x → accepted (Type_ <$> s') x = true).
  { intros s' x p rows' Ha Hx. eapply built_accepted; [by eapply answer_real|done]. }
  assert (Hreal : ∀ r src sess e s', file_repr src r sess → describes n src → Forall (λ f, BuildType.real_type (Type_ f) = true) src →
    openScan (set_needed n cols) r None 0 e = Ret s' → Forall (λ f, BuildType.real_type (Type_ f) = true) (ts_schema s')).
  { intros r src sess e s' (Hsrc & _) Hd Hreal Hs'. assert (Hd' : describes (set_needed n cols) src) by exact Hd. rewrite <- Hsrc in Hd'.
    destruct (openScan_spec _ _ _ _ _ _ Hd' Hs') as (Hsame & _). rewrite Hsrc in Hsame. apply Forall_lookup. intros j f Hf.
    destruct (Forall2_lookup_l _ _ _ _ _ Hsame Hf) as (? & _ & k & f' & _ & Hf' & ->). exact (Forall_lookup_1 _ _ _ _ Hreal Hf'). }
  split; intros s rows Ha; inversion Ha as [? ? ? Hsc| | | | | | |]; subst.
  - destruct Hsc as [r src sess s Ho Hf Hd Hrl Hns Hs Hpn|r src sess s p x Ho Hf Hd Hrl Hns Hs Hpn Hx];
      (destruct (openScan_total (set_needed n cols) r None 0 (Z.of_nat (length (RowGroups (r_meta r))))) as [s' Hs'];
       [destruct Hf as [-> _]; exact Hd|done|]); destruct (Hview _ _ _ _ _ _ Hf Hd Hs Hs') as [Hv Hrows];
      exists (ts_schema s'), (kept_columns n cols); (split; [|done]); apply ans_scan.
    + rewrite <- Hrows. by eapply scan_rows.
    + rewrite (buildExecExpr_widen _ _ _ _ Hv p (Hreads p Hpn)) in Hx. apply go_bind_inv in Hx as (x' & Hx' & [= <-]).
      rewrite (filter_widen _ _ _ _ Hv), <- Hrows by (eapply built_accepted; [by eapply Hreal|done]). by eapply scan_where.
  - inversion Hsc as [r src sess s' Ho Hf Hd Hrl Hns Hs' Hpn|r src sess s' p x Ho Hf Hd Hrl Hns Hs' Hpn Hx]; subst;
      (destruct (openScan_total n r None 0 (Z.of_nat (length (RowGroups (r_meta r))))) as [s0 Hs];
       [destruct Hf as [-> _]; exact Hd|done|]); destruct (Hview _ _ _ _ _ _ Hf Hd Hs Hs') as [Hv Hrows].
    + exists (ts_schema s0), (kept_columns n cols), (session_rows (colMap s0) sess). split; [apply ans_scan; by eapply scan_rows|done].
    + exists (ts_schema s0), (kept_columns n cols), (filter (cells_true (widen (kept_columns n cols) x)) (session_rows (colMap s0) sess)).
      split; [|split; [|done]].
      * apply ans_scan. eapply scan_where; [done..|]. by rewrite (buildExecExpr_widen _ _ _ _ Hv p (Hreads p Hpn)), Hx.
      * rewrite (filter_widen _ _ _ _ Hv) by (eapply built_accepted; [by eapply Hreal|done]). by rewrite Hrows.
Qed.

(** ** The passes *)

Lemma wanted_addNeeded needed extra name : wanted (addNeeded needed extra) name ↔ wanted needed name ∨ needed ≠ None ∧ name ∈ extra.
Proof. destruct needed as [ns|]; cbn [addNeeded wanted]; [rewrite elem_of_uniqueStrings, elem_of_app|]; naive_solver. Qed.
Lemma wanted_extra needed extra name : name ∈ extra → wanted (addNeeded needed extra) name.
Proof. intros H. destruct needed as [ns|]; [|done]. apply wanted_addNeeded. by right. Qed.
Lemma schemaColsIn_wanted schema want name : name ∈ Name <$> schema → name ∈ want → wanted (schemaColsIn schema want) name.
Proof.
  intros Hs Hw. unfold schemaColsIn. destruct (filter _ _) as [|x l] eqn:E; [done|]. cbn [wanted]. rewrite <- E. by apply list_elem_of_filter.
Qed.
Lemma schemaColsIn_known schema want ns : schemaColsIn schema want = Some ns → Forall (λ name, name ∈ Name <$> schema) ns.
Proof.
  unfold schemaColsIn. destruct (filter _ _) as [|x l] eqn:E; [done|]. intros [= <-]. rewrite <- E. apply Forall_forall.
  by intros name [_ H]%list_elem_of_filter.
Qed.
Definition known (node : LogicalNode) (needed : needed_set) : Prop := ∀ ns, needed = Some ns → Forall (λ name, name ∈ names_of node) ns.
Lemma known_add node needed extra :
  known node needed → Forall (λ name, name ∈ names_of node) extra → known node (addNeeded needed extra).
Proof.
  intros Hk He ns. destruct needed as [ns0|]; [|done]. cbn [addNeeded]. intros [= <-]. apply Forall_forall. intros name.
  specialize (Hk ns0 eq_refl). rewrite Forall_forall in Hk, He. rewrite elem_of_uniqueStrings, elem_of_app. naive_solver.
Qed.
Lemma known_unique node ns : Forall (λ name, name ∈ names_of node) ns → known node (Some (uniqueStrings ns)).
Proof. rewrite Forall_forall. intros H ns' [= <-]. apply Forall_forall. intros name. rewrite elem_of_uniqueStrings. apply H. Qed.
Lemma bound_known names e : bound_in names e → Forall (λ name, name ∈ names) (collectCols e).
Proof. intros Hb. apply Forall_forall. intros name. by apply bound_cols. Qed.

Lemma pruneColumns_matched fs node needed :
  names_resolve node → distinct_whole needed node → known node needed → matched fs needed node (pruneColumns node needed).
Proof.
  revert needed. induction node as [n|c IH p|c IH es|c IH gb aggs|c IH ob|c IH n k|l IHl r IHr cond|c IH]; intros needed; cbn [names_resolve distinct_whole pruneColumns];
    intros Hp Hd Hk.
  - destruct needed as [ns|]; [|by apply matched_same]. destruct Hp as [Hn Hpred]. specialize (Hk ns eq_refl). rewrite OutputSchema_scan in Hk by done.
    apply (matched_weaken fs (Some (uniqueStrings (ns ++ predicateCols (ls_Predicate n))))); [|done|].
    { intros name Hw. cbn [wanted] in *. apply elem_of_uniqueStrings, elem_of_app. by left. }
    apply matched_scan; [done| |].
    + apply Forall_forall. intros name. rewrite elem_of_uniqueStrings, elem_of_app, Forall_forall in *. intros [H|H]; [by apply Hk|].
      destruct (ls_Predicate n) as [p|]; [|by apply elem_of_nil in H]. by eapply bound_cols.
    + destruct (ls_Predicate n) as [p|]; [|done]. split; [done|]. intros name Hin. apply elem_of_uniqueStrings, elem_of_app. by right.
  - destruct Hp as [Hc Hb]. eapply (matched_weaken fs (addNeeded needed (collectCols p))).
    + intros name Hw. apply wanted_addNeeded. by left.
    + by intros ->.
    + eapply matched_filter; [|exact Hb|intros name; apply wanted_extra]. apply IH; [exact Hc|exact Hd|].
      apply known_add; [exact Hk|by apply bound_known].
  - destruct Hp as [Hc Hb]. eapply matched_project; [|exact Hb|].
    + apply IH; [exact Hc|exact Hd|]. apply known_unique. apply Forall_forall. intros name Hin. apply list_elem_of_In, in_concat in Hin as (l & Hl & Hin).
      apply list_elem_of_In in Hl, Hin. apply list_elem_of_fmap in Hl as (pe & -> & Hpe). rewrite Forall_forall in Hb. by eapply bound_cols; [apply Hb|].
    + intros pe name Hpe Hin. apply elem_of_uniqueStrings, list_elem_of_In, in_concat. exists (collectCols (pi_Expr pe)).
      split; [|by apply list_elem_of_In]. apply list_elem_of_In, list_elem_of_fmap. by exists pe.
  - destruct Hp as (Hc & Hgb & Haggs & Hnd). eapply matched_aggregate; [|intros s rows; by apply answer_names|done..].
    apply IH; [exact Hc|exact Hd|]. apply known_unique. unfold aggCols. apply Forall_app. split; apply Forall_concat, Forall_fmap.
    + eapply Forall_impl; [exact Hgb|]. intros e. apply bound_known.
    + eapply Forall_impl; [exact Haggs|]. intros agg Ha. unfold agg_bound in Ha. cbn [compose]. destruct (ai_AggExpr agg); [by destruct Ha; apply bound_known|].
      case_decide; [done|]. by repeat constructor.
  - destruct Hp as [Hc Ho]. eapply (matched_weaken fs (addNeeded needed (sortCols ob))).
    + intros name Hw. apply wanted_addNeeded. by left.
    + by intros ->.
    + apply matched_sort; [|intros name; apply wanted_extra]. apply IH; [exact Hc|exact Hd|by apply known_add].
  - apply matched_limit. by apply IH.
  - destruct Hp as (Hl & Hr & Hcond). destruct (joinNeeded l r cond needed) as [nl nr] eqn:Ej.
    assert (Hj : match needed with
      | None => nl = None ∧ nr = None
      | Some ns => nl = schemaColsIn (OutputSchema l) (list_to_set (ns ++ collectCols cond)) ∧
                   nr = schemaColsIn (OutputSchema r) (list_to_set (ns ++ collectCols cond)) end).
    { unfold joinNeeded in Ej. destruct needed; by injection Ej as <- <-. }
    destruct Hd as [Hdl Hdr].
    apply (matched_join fs nl nr); [apply IHl; [exact Hl|exact Hdl|]|apply IHr; [exact Hr|exact Hdr|]| |].
    + intros ns E. destruct needed; destruct Hj as [H1 H2]; [|congruence]. rewrite H1 in E. by eapply schemaColsIn_known.
    + intros ns E. destruct needed; destruct Hj as [H1 H2]; [|congruence]. rewrite H2 in E. by eapply schemaColsIn_known.
    + intros ->. exact Hj.
    + intros ls rs lrows rrows Hal Har name Hname. rewrite (answer_names _ _ _ _ Hl Hal), (answer_names _ _ _ _ Hr Har).
      destruct needed as [ns|]; destruct Hj as [-> ->]; [|done].
      assert (Hset : name ∈ (list_to_set (ns ++ collectCols cond) : gset string)) by (rewrite elem_of_list_to_set, elem_of_app; destruct Hname; [by left|by right]).
      split; intros Hin; by apply schemaColsIn_wanted.
  - destruct Hd as [Hd Hw]. eapply matched_distinct; [by apply IH|intros s rows; by apply answer_names|exact Hw].
Qed.

Lemma OutputSchema_push node : OutputSchema (pushPredicates node) = OutputSchema node.
Proof.
  induction node as [n|c IH p|c IH es|c IH gb aggs|c IH ob|c IH n k|l IHl r IHr cond|c IH]; cbn [pushPredicates OutputSchema]; try done.
  - rewrite <- IH. by destruct (pushPredicates c).
  - by rewrite IH.
  - by rewrite IHl, IHr.
Qed.
Lemma names_resolve_push node : names_resolve node → names_resolve (pushPredicates node).
Proof.
  induction node as [n|c IH p|c IH es|c IH gb aggs|c IH ob|c IH n k|l IHl r IHr cond|c IH]; cbn [pushPredicates]; try done.
  - intros [Hc Hp]. specialize (IH Hc). rewrite <- OutputSchema_push in Hp. destruct (pushPredicates c) as [n| | | | | | |] eqn:E; try by split.
    destruct IH as [Hn Hq]. split; [done|]. rewrite OutputSchema_scan in Hp by done. cbn. destruct (ls_Predicate n) as [q|]; [|done].
    cbn [walkExpr]. constructor; [done|]. apply Forall_app. by split.
  - cbn [names_resolve]. rewrite OutputSchema_push. intros [Hc He]. split; [by apply IH|done].
  - cbn [names_resolve]. rewrite OutputSchema_push. intros (Hc & He). split; [by apply IH|done].
  - cbn [names_resolve]. rewrite OutputSchema_push. intros [Hc He]. split; [by apply IH|done].
  - cbn [names_resolve]. rewrite !OutputSchema_push. intros (Hl & Hr & Hc). split; [by apply IHl|]. split; [by apply IHr|done].
Qed.
Lemma distinct_whole_push needed node : distinct_whole needed node → distinct_whole needed (pushPredicates node).
Proof.
  revert needed. induction node as [n|c IH p|c IH es|c IH gb aggs|c IH ob|c IH n k|l IHl r IHr cond|c IH]; intros needed; cbn [pushPredicates distinct_whole]; auto.
  - intros Hd%IH. by destruct (pushPredicates c).
  - unfold joinNeeded. rewrite !OutputSchema_push. destruct needed; intros [Hl Hr]; split; auto.
  - rewrite OutputSchema_push. intros [Hd Hw]. split; auto.
Qed.

Lemma Optimize_same fs node schema rows :
  prunable node → (answer fs (Optimize node) schema rows ↔ answer fs node schema rows).
Proof.
  intros [Hp Hd]. unfold Optimize. rewrite <- (pushPredicates_answer fs node).
  destruct (pruneColumns_matched fs (pushPredicates node) None) as [Hc Hs]; [by apply names_resolve_push|by apply distinct_whole_push|done|]. split.
  - intros Ha. destruct (Hs _ _ Ha) as (s & ix & rows0 & Ha' & -> & Hv). destruct (v_all _ _ _ _ Hv eq_refl) as [-> ->].
    rewrite narrow_rows_id; [done|]. by eapply answer_width.
  - intros Ha. destruct (Hc _ _ Ha) as (s' & ix & Ha' & Hv). destruct (v_all _ _ _ _ Hv eq_refl) as [-> ->].
    rewrite narrow_rows_id in Ha'; [done|]. by eapply answer_width.
Qed.

(** ** Property *)

(** C10: The optimizer changes no answer.  For every plan whose names resolve
    and whose DISTINCT compares only columns used above it,
    pushing its filters into the scans and telling every scan to read only the
    columns used above it gives a plan with the same answers: the same columns,
    and the same rows in the same order, whatever filters, projections, groups,
    sorts, limits, DISTINCT and joins stand in between. *)
Theorem Optimize_answers fs node schema rows :
  prunable node → (answer fs (Optimize node) schema rows ↔ answer fs node schema rows).
Proof. apply Optimize_same. Qed.

(** SELECT id, SUM(id * 2) AS s FROM t WHERE id > 2 GROUP BY id: the filter moves
    into the scan, which no longer reads the column [name]. *)
Definition over_two : Ast.Expr := BinaryExpr OpGT (ColumnRefExpr "" "id") (IntLiteral 2).
Definition demo_query : LogicalNode :=
  LAggregate (LFilter (LScan (plan_scan None)) over_two) [ColumnRefExpr "" "id"] demo_aggs.
Lemma demo_prunable : prunable demo_query.
Proof.
  assert (Hid : "id"%string ∈ Name <$> plan_schema) by (apply (bool_decide_unpack _); vm_compute; done).
  assert (Hno : "_agg_0"%string ∉ Name <$> plan_schema) by (apply (bool_decide_unpack _); vm_compute; done).
  split; [|exact I]. split; [split; [split; [reflexivity|exact I]|]|split; [|split; [|intros _; exact demo_names]]].
  - repeat (constructor; try done).
  - repeat (constructor; try done).
  - constructor; [|constructor]. split; [|exact Hno]. repeat (constructor; try done).
Qed.
Lemma demo_query_answer :
  answer plan_fs demo_query (agg_schema (project_schema demo_pes) [0] demo_aes) demo_groups.
Proof.
  eapply (ans_aggregate plan_fs _ _ demo_aggs plan_schema demo_rows (project_schema demo_pes)).
  - apply (answer_filter_push plan_fs (LScan (plan_scan None)) over_two). exact (ans_scan _ _ _ _ demo_scan_answer).
  - apply input_computed; [reflexivity|exact demo_pre].
  - exact demo_config.
  - change (Type_ <$> project_schema demo_pes) with demo_types. by rewrite demo_result.
Qed.
Lemma Optimize_answers_witness :
  Optimize demo_query = LAggregate (LScan (set_needed demo_source ["id"%string])) [ColumnRefExpr "" "id"] demo_aggs ∧
  answer plan_fs (Optimize demo_query) (agg_schema (project_schema demo_pes) [0] demo_aes) demo_groups.
Proof.
  split; [vm_compute; reflexivity|].
  exact (proj2 (Optimize_answers plan_fs demo_query _ _ demo_prunable) demo_query_answer).
Defined.
