(* ===== verification/Catalog.v ===== *)
(** * Package catalog: tables by name ([catalog/catalog.go])

    The catalog maps a table's name to its file and schema.  Entries are reached
    through their key only, so the map of pointers is a map of entries; the mutex
    only guards that map.  A context is never cancelled here. *)
From Stdlib Require Import ZArith Lia ZifyNat.
From stdpp Require Import base numbers list strings gmap.
From S2P Require Import Prelude Encoding Codec Float64 Schema Writer Reader.
#[local] Open Scope Z_scope.

Record TableEntry : Type := mkEntry { te_Name : string; te_FilePath : string; te_Schema : Schema }.
Abbreviation Catalog := (gmap string TableEntry).
Definition addEntry (c : Catalog) (name path : string) (schema : Schema) : Catalog :=
  <[name := mkEntry name path schema]> c.

(** [Open]: the tables a JSON config lists, whose schemas are loaded later.
    [json.Unmarshal] of the config is a parameter. *)
Section Config.
Context (Unmarshal : list Z → go (list (string * string))).
Definition catalog_Open (fs : FS) (configPath : string) : go Catalog :=
  if decide (configPath = ""%string) then Ret (∅ : Catalog) else
  match fs !! configPath with
  | None => Err (ErrMsg "catalog: open")
  | Some data =>
      cfg ← Unmarshal data;
      Ret (foldl (λ (c : Catalog) '(name, path), addEntry c name path []) (∅ : Catalog) cfg)
  end.
End Config.

Definition fileSchema (fs : FS) (path : string) : go Schema := r ← Open fs path; Ret (fm_Schema (r_meta r)).
Definition OpenSingle (fs : FS) (name path : string) : go Catalog :=
  schema ← fileSchema fs path;
  Ret (addEntry (∅ : Catalog) name path schema).
(** [tables] lists Go's map of tables in the order its iteration takes. *)
Definition OpenMulti (fs : FS) (tables : list (string * string)) : go Catalog :=
  foldM (λ (c : Catalog) '(name, path), schema ← fileSchema fs path; Ret (addEntry c name path schema))
    (∅ : Catalog) tables.
Definition Register (c : Catalog) (name path : string) (schema : Schema) : Catalog := addEntry c name path schema.

(** [loadSchema] on the entry of [name]. *)
Definition loadSchema (fs : FS) (c : Catalog) (name : string) (e : TableEntry) : go (TableEntry * Catalog) :=
  schema ← fileSchema fs (te_FilePath e);
  let e := mkEntry (te_Name e) (te_FilePath e) schema in
  Ret (e, <[name := e]> c).
(** [Lookup]: an entry, its schema read from the file the first time. *)
Definition cat_Lookup (fs : FS) (c : Catalog) (name : string) : go (option TableEntry * Catalog) :=
  match c !! name with
  | None => Ret (None, c)
  | Some e =>
      if bool_decide (te_Schema e = []) && bool_decide (te_FilePath e ≠ ""%string) then
        match loadSchema fs c name e with
        | Ret (e, c) => Ret (Some e, c)
        | Err _ => Ret (None, c)
        | Panic => Panic
        | OutOfFuel => OutOfFuel
        end
      else Ret (Some e, c)
  end.

(** ** What a lookup finds *)

(** Every entry is known by its key, and its schema is the file's or is not
    loaded yet. *)
Definition catalog_ok (fs : FS) (c : Catalog) : Prop :=
  ∀ name e, c !! name = Some e →
    te_Name e = name ∧ (te_Schema e = [] ∨ fileSchema fs (te_FilePath e) = Ret (te_Schema e)).
Lemma addEntry_ok fs c name path schema :
  catalog_ok fs c → schema = [] ∨ fileSchema fs path = Ret schema → catalog_ok fs (addEntry c name path schema).
Proof.
  intros Hc Hs n e. unfold addEntry. destruct (decide (n = name)) as [->|Hn].
  - rewrite lookup_insert_eq. by intros [= <-].
  - rewrite lookup_insert_ne by congruence. apply Hc.
Qed.
Lemma empty_ok fs : catalog_ok fs (∅ : Catalog).
Proof. intros name e. by rewrite lookup_empty. Qed.
Lemma catalog_Open_ok Unmarshal fs path c : catalog_Open Unmarshal fs path = Ret c → catalog_ok fs c.
Proof.
  unfold catalog_Open. case_decide; [intros [= <-]; apply empty_ok|]. destruct (fs !! path) as [data|]; [|done].
  destruct (Unmarshal data) as [cfg| | |]; try done. cbn [mbind go_bind]. intros [= <-].
  cut (∀ c, catalog_ok fs c → catalog_ok fs (foldl (λ (c : Catalog) '(name, path), addEntry c name path []) c cfg)); [intros H'; apply H', empty_ok|].
  induction cfg as [|[n p] cfg IH]; intros c Hc; [done|]. cbn [foldl]. apply IH, addEntry_ok; auto.
Qed.
Lemma OpenMulti_ok fs tables c : OpenMulti fs tables = Ret c → catalog_ok fs c.
Proof.
  unfold OpenMulti. cut (∀ c0, catalog_ok fs c0 →
    foldM (λ (c : Catalog) '(name, path), schema ← fileSchema fs path; Ret (addEntry c name path schema)) c0 tables = Ret c → catalog_ok fs c);
    [intros H; apply H, empty_ok|].
  induction tables as [|[n p] tables IH]; intros c0 Hc; cbn [foldM]; [by intros [= <-]|].
  destruct (fileSchema fs p) as [schema| | |] eqn:E; try done. cbn [mbind go_bind]. apply IH, addEntry_ok; auto.
Qed.
Lemma OpenSingle_ok fs name path c : OpenSingle fs name path = Ret c → catalog_ok fs c.
Proof.
  unfold OpenSingle. destruct (fileSchema fs path) as [schema| | |] eqn:E; try done. cbn [mbind go_bind]. intros [= <-].
  apply addEntry_ok; [apply empty_ok|auto].
Qed.

(** A lookup finds a table whose file holds the schema it reports, and leaves a
    catalog that answers every lookup alike. *)
Lemma cat_Lookup_spec fs c name o c' :
  catalog_ok fs c → cat_Lookup fs c name = Ret (o, c') →
  catalog_ok fs c' ∧ dom c' = dom c ∧
  ∀ e, o = Some e → te_Name e = name ∧ (te_FilePath e ≠ ""%string → fileSchema fs (te_FilePath e) = Ret (te_Schema e)) ∧
    c' !! name = Some e.
Proof.
  intros Hc. unfold cat_Lookup. destruct (c !! name) as [e|] eqn:E; [|by intros [= <- <-]].
  destruct (Hc name e E) as [En Es].
  destruct (bool_decide (te_Schema e = []) && bool_decide (te_FilePath e ≠ ""%string)) eqn:B.
  - unfold loadSchema. destruct (fileSchema fs (te_FilePath e)) as [schema| | |] eqn:Ef; cbn [mbind go_bind]; try done.
    + intros [= <- <-]. split; [|split; [apply dom_insert_lookup_L; by eexists|]].
      * intros n e'. destruct (decide (n = name)) as [->|Hn]; [rewrite lookup_insert_eq|rewrite lookup_insert_ne by congruence; apply Hc].
        intros [= <-]. auto.
      * intros e' [= <-]. cbn. split; [done|]. split; [done|]. apply lookup_insert_eq.
    + intros [= <- <-]. done.
  - intros [= <- <-]. split; [done|]. split; [done|]. intros e' [= <-]. split; [done|]. split; [|done]. intros Hp.
    destruct Es as [Es|Es]; [|done]. by rewrite Es, !bool_decide_true in B by done.
Qed.
