(* ===== verification/Build.v ===== *)
(** * Package planner: logical plans from syntax ([planner/build.go])

    [Build] resolves every column of a statement against its FROM tables and lays
    out the plan.  Bindings are pointers that the symbol table's maps share and
    whose output name is set after the maps are filled; here the maps are built
    from the finished bindings.  The aggregate node that ORDER BY may still extend
    is the [aggBuilder] a query carries until [finish].  Error texts are
    shortened. *)
From Stdlib Require Import ZArith Lia ZifyNat.
From stdpp Require Import base numbers list strings gmap.
From S2P Require Import Prelude Encoding Codec Float64 Schema Writer Reader Batch Lexer Strconv Ast Parser Format ExprWalk Logical Catalog.
#[local] Open Scope Z_scope.

(** ** Column resolution *)

Record columnBinding : Type := mkBinding { cb_table : nat; cb_source : string; cb_out : string }.
Record symbolTable : Type := mkSymbols {
  tableNames : list string;
  qualified : gmap string columnBinding;
  byName : gmap string (list columnBinding);
  tableOfOut : gmap string nat;
  columns : list (list columnBinding)
}.

Definition refName (ref : Ast.TableRef) : string := if decide (tr_Alias ref = ""%string) then tr_Name ref else tr_Alias ref.
Fixpoint nameTables (seen : list string) (refs : list Ast.TableRef) : go (list string) :=
  match refs with
  | [] => Ret seen
  | ref :: refs =>
      if decide (refName ref ∈ seen) then Err (ErrMsg "planner: table name specified more than once")
      else nameTables (seen ++ [refName ref]) refs
  end.
(** How many columns have the name. *)
Definition occurrences (schemas : list Schema) (name : string) : nat :=
  length (filter (λ n, n = name) (Name <$> concat schemas)).
Definition bindTable (schemas : list Schema) (i : nat) (t : Schema * string) : list columnBinding :=
  (λ f, mkBinding i (Name f)
     (if decide (1 < occurrences schemas (Name f))%nat then t.2 +:+ "." +:+ Name f else Name f)) <$> t.1.
Definition newSymbolTable (schemas : list Schema) (tableRefs : list Ast.TableRef) : go symbolTable :=
  names ← nameTables [] tableRefs;
  let columns := imap (bindTable schemas) (zip schemas names) in
  let bs := concat columns in
  Ret (mkSymbols names
    (foldl (λ m b, <[default ""%string (names !! cb_table b) +:+ "." +:+ cb_source b := b]> m) ∅ bs)
    (foldl (λ m b, <[cb_source b := default [] (m !! cb_source b) ++ [b]]> m) ∅ bs)
    (foldl (λ m b, <[cb_out b := cb_table b]> m) ∅ bs)
    columns).

Definition applyOutputNames (st : symbolTable) (table : nat) (scan : LogicalScan) : LogicalScan :=
  let bs := default [] (columns st !! table) in
  mkScan (TableName scan) (FilePath scan)
    (zip_with (λ f b, if decide (cb_out b = cb_source b) then f else mkField (cb_out b) (Type_ f) (Enc f) (Nullable f))
       (ls_Schema scan) bs)
    (ls_Predicate scan) (NeededCols scan)
    (foldl (λ m b, if decide (cb_out b = cb_source b) then m else Some (<[cb_out b := cb_source b]> (default ∅ m)))
       (SourceNames scan) bs).

Definition resolve (st : symbolTable) (table name : string) : go columnBinding :=
  if decide (table ≠ ""%string) then
    match qualified st !! (table +:+ "." +:+ name) with
    | Some b => Ret b
    | None => Err (ErrMsg "planner: column not found in table")
    end
  else
    match default [] (byName st !! name) with
    | [] => Err (ErrMsg "planner: column not found in any table")
    | [b] => Ret b
    | _ => Err (ErrMsg "planner: column is ambiguous")
    end.
Definition resolveRef (st : symbolTable) (n : Ast.Expr) (u : ()) : go (option Ast.Expr * ()) :=
  match n with
  | ColumnRefExpr table name => b ← resolve st table name; Ret (Some (ColumnRefExpr "" (cb_out b)), u)
  | _ => Ret (None, u)
  end.
Definition resolveColumns (st : symbolTable) (e : Ast.Expr) : go Ast.Expr :=
  '(e, _) ← rewriteExpr (resolveRef st) e (); Ret e.
Definition resolveScalar (st : symbolTable) (e : Ast.Expr) : go Ast.Expr :=
  if containsAggregate e then Err (ErrMsg "planner: aggregate functions are not allowed here")
  else resolveColumns st e.
Definition resolveWhere (st : symbolTable) (e : option Ast.Expr) : go (option Ast.Expr) :=
  match e with None => Ret None | Some e => e ← resolveScalar st e; Ret (Some e) end.
Definition tablesOf (st : symbolTable) (e : Ast.Expr) : gset nat :=
  list_to_set (omap (λ name, tableOfOut st !! name) (collectCols e)).

(** ** Joins *)

Fixpoint flattenAnd (e : Ast.Expr) : list Ast.Expr :=
  match e with
  | BinaryExpr OpAnd l r => flattenAnd l ++ flattenAnd r
  | _ => [e]
  end.
Definition flattenWhere (e : option Ast.Expr) : list Ast.Expr := match e with None => [] | Some e => flattenAnd e end.
Definition andExpr (a : option Ast.Expr) (b : Ast.Expr) : Ast.Expr :=
  match a with None => b | Some a => BinaryExpr OpAnd a b end.

Record joinEdge : Type := mkEdge { leftTable : nat; rightTable : nat; leftCol : string; rightCol : string; term : Ast.Expr }.
Definition fieldType (schema : Schema) (name : string) : DataType :=
  match fieldNamed schema name with Some f => Type_ f | None => noType end.
Definition schemaAt (scans : list LogicalScan) (t : nat) : Schema := default [] (ls_Schema <$> scans !! t).
Definition joinEdgeOf (term : Ast.Expr) (scans : list LogicalScan) (st : symbolTable) : option joinEdge :=
  match term with
  | BinaryExpr OpEQ (ColumnRefExpr _ l) (ColumnRefExpr _ r) =>
      lt ← tableOfOut st !! l;
      rt ← tableOfOut st !! r;
      if decide (lt = rt) then None else
      let ltype := fieldType (schemaAt scans lt) l in
      let rtype := fieldType (schemaAt scans rt) r in
      if decide (ltype = rtype ∧ ltype ∈ [TypeInt64; TypeDate]) then Some (mkEdge lt rt l r term) else None
  | _ => None
  end.

(** The table an edge would add to the tree, with the key on either side. *)
Definition extends (included : gset nat) (e : joinEdge) : option (nat * string * string) :=
  if decide (leftTable e ∈ included ∧ rightTable e ∉ included) then Some (rightTable e, leftCol e, rightCol e)
  else if decide (rightTable e ∈ included ∧ leftTable e ∉ included) then Some (leftTable e, rightCol e, leftCol e)
  else None.
Fixpoint firstEdge (included : gset nat) (i : nat) (edges : list joinEdge) (used : list bool)
    : option (nat * (nat * string * string)) :=
  match edges, used with
  | e :: edges, u :: used =>
      match (if u : bool then None else extends included e) with
      | Some x => Some (i, x)
      | None => firstEdge included (S i) edges used
      end
  | _, _ => None
  end.
Definition joinCond (inTree inNew : string) : Ast.Expr :=
  BinaryExpr OpEQ (ColumnRefExpr "" inTree) (ColumnRefExpr "" inNew).
Fixpoint growTree (fuel : nat) (scans : list LogicalScan) (edges : list joinEdge) (used : list bool)
    (included : gset nat) (root : LogicalNode) : go (LogicalNode * list bool) :=
  if decide (size included < length scans)%nat then
    match fuel with
    | O => OutOfFuel
    | S fuel =>
        match firstEdge included 0 edges used with
        | Some (i, (newTable, inTree, inNew)) =>
            scan ← index scans newTable;
            growTree fuel scans edges (<[i := true]> used) ({[newTable]} ∪ included)
              (LJoin root (LScan scan) (joinCond inTree inNew))
        | None =>
            if existsb (λ i, bool_decide (i ∉ included)) (seq 0 (length scans))
            then Err (ErrMsg "planner: no join condition connects the table; cross joins are not supported")
            else growTree fuel scans edges used included root
        end
    end
  else Ret (root, used).
Definition buildJoinTree (scans : list LogicalScan) (edges : list joinEdge) : go (LogicalNode * list joinEdge) :=
  scan ← index scans 0;
  '(root, used) ← growTree (length scans) scans edges (replicate (length edges) false) {[0%nat]} (LScan scan);
  Ret (root, (zip edges used) ≫= λ '(e, u), if u : bool then [] else [e]).

Record placed : Type := mkPlaced { perTable : list (option Ast.Expr); p_edges : list joinEdge; residual : list Ast.Expr }.
Definition placeTerm (scans : list LogicalScan) (st : symbolTable) (p : placed) (term : Ast.Expr) : placed :=
  let push t := mkPlaced (alter (λ f, Some (andExpr f term)) t (perTable p)) (p_edges p) (residual p) in
  match joinEdgeOf term scans st with
  | Some e => mkPlaced (perTable p) (p_edges p ++ [e]) (residual p)
  | None =>
      match elements (tablesOf st term) with
      | [] => push 0%nat
      | [t] => push t
      | _ => mkPlaced (perTable p) (p_edges p) (residual p ++ [term])
      end
  end.
Definition set_filter (scan : LogicalScan) (f : option Ast.Expr) : LogicalScan :=
  match f with
  | None => scan
  | Some _ => mkScan (TableName scan) (FilePath scan) (ls_Schema scan) f (NeededCols scan) (SourceNames scan)
  end.
Definition conjunction (terms : list Ast.Expr) : option Ast.Expr := foldl (λ pred t, Some (andExpr pred t)) None terms.
Definition buildMultiTablePlan (scans : list LogicalScan) (where_ : option Ast.Expr) (st : symbolTable) : go LogicalNode :=
  let p := foldl (placeTerm scans st) (mkPlaced (replicate (length scans) None) [] []) (flattenWhere where_) in
  let scans := zip_with set_filter scans (perTable p) in
  '(root, unused) ← buildJoinTree scans (p_edges p);
  Ret match conjunction (residual p ++ (term <$> unused)) with
      | Some pred => LFilter root pred
      | None => root
      end.

(** ** The SELECT list *)

Record selectItem : Type := mkSelectItem { si_expr : Ast.Expr; si_alias : string; si_userAlias : string }.
Definition expandSelectList (cols : list SelectColumn) (st : symbolTable) : list selectItem :=
  cols ≫= λ '(mkSelectColumn e alias),
    match e with
    | StarExpr =>
        concat (zip_with (λ bs name, (λ b, mkSelectItem (ColumnRefExpr name (cb_source b)) (cb_source b) "") <$> bs)
          (columns st) (tableNames st))
    | _ => [mkSelectItem e (if decide (alias = ""%string) then exprName e else alias) alias]
    end.

(** [fmt.Sprintf] of a prefix and integers. *)
Definition numbered (prefix : string) (n : Z) : string := prefix +:+ "_" +:+ show (FormatInt n).
Fixpoint uniqueFrom (fuel : nat) (stem : string) (k : Z) (used : gset string) (name : string) : go string :=
  if decide (name ∈ used) then
    match fuel with
    | O => OutOfFuel
    | S fuel => uniqueFrom fuel stem (k + 1) used (numbered stem k)
    end
  else Ret name.
Definition uniqueName (prefix : string) (n : nat) (used : gset string) : go string :=
  uniqueFrom (S (size used)) (numbered prefix (Z.of_nat n)) 1 used (numbered prefix (Z.of_nat n)).

(** ** Aggregation *)

Record aggBuilder : Type := mkAggBuilder {
  ab_GroupBy : list Ast.Expr;
  ab_Aggs : list AggItem;
  groupCols : gset string;
  outNames : gset string
}.
Section Aggregation.
Context (st : symbolTable).

(** [addAggregate] of the function [f], its argument and DISTINCT. *)
Definition aggArgument (fn : string) (arg : option Ast.Expr) (distinct : bool) : go (option Ast.Expr) :=
  match arg with
  | None => Ret None
  | Some StarExpr =>
      if bool_decide (fn ≠ "COUNT"%string) || distinct then Err (ErrMsg "planner: f(*) is not supported") else Ret None
  | Some a =>
      if containsAggregate a then Err (ErrMsg "planner: aggregate function calls cannot be nested")
      else a ← resolveColumns st a; Ret (Some a)
  end.
Definition addAggregate (f : string) (arg : option Ast.Expr) (distinct : bool) (name : string) (ab : aggBuilder)
    : go (Ast.Expr * aggBuilder) :=
  let fn := ToUpper f in
  if distinct && bool_decide (fn ≠ "COUNT"%string) then Err (ErrMsg "planner: f(DISTINCT ...) is not supported") else
  arg ← aggArgument fn arg distinct;
  name ← (if bool_decide (name = ""%string) || bool_decide (name ∈ outNames ab)
          then uniqueName "_agg" (length (ab_Aggs ab)) (outNames ab) else Ret name);
  let '(ColName, AggExpr_) := match arg with
    | None => (""%string, None)
    | Some (ColumnRefExpr _ n) => (n, None)
    | Some a => (numbered "_agg_arg" (Z.of_nat (length (ab_Aggs ab))), Some a)
    end in
  Ret (ColumnRefExpr "" name,
    mkAggBuilder (ab_GroupBy ab) (ab_Aggs ab ++ [mkAggItem fn ColName AggExpr_ name distinct]) (groupCols ab) ({[name]} ∪ outNames ab)).
Definition aggKey (a : AggItem) : string := match ai_AggExpr a with Some e => FormatExpr e | None => ai_ColName a end.
Definition findOrAddAggregate (f : string) (arg : option Ast.Expr) (distinct : bool) (ab : aggBuilder)
    : go (Ast.Expr * aggBuilder) :=
  argKey ← match arg with
    | None | Some StarExpr => Ret ""%string
    | Some a => if containsAggregate a then Ret ""%string else a ← resolveColumns st a; Ret (FormatExpr a)
    end;
  match list_find (λ a, (ai_Func a = ToUpper f ∧ ai_Distinct a = distinct) ∧ aggKey a = argKey) (ab_Aggs ab) with
  | Some (_, a) => Ret (ColumnRefExpr "" (ai_Alias a), ab)
  | None => addAggregate f arg distinct "" ab
  end.
(** The callback of [rewrite]. *)
Definition rewriteRef (alias : option (string → option Ast.Expr)) (n : Ast.Expr) (ab : aggBuilder)
    : go (option Ast.Expr * aggBuilder) :=
  match n with
  | AggFuncExpr f arg distinct => '(out, ab) ← findOrAddAggregate f arg distinct ab; Ret (Some out, ab)
  | ColumnRefExpr table name =>
      match resolve st table name with
      | Ret b =>
          if decide (cb_out b ∈ groupCols ab) then Ret (Some (ColumnRefExpr "" (cb_out b)), ab)
          else Err (ErrMsg "planner: column must appear in the GROUP BY clause")
      | Err err =>
          match alias with
          | Some lookup =>
              if bool_decide (table = ""%string) && bool_decide (default [] (byName st !! name) = [])
              then match lookup name with Some sub => Ret (Some sub, ab) | None => Err err end
              else Err err
          | None => Err err
          end
      | Panic => Panic
      | OutOfFuel => OutOfFuel
      end
  | _ => Ret (None, ab)
  end.
Definition rewriteAgg (alias : option (string → option Ast.Expr)) (e : Ast.Expr) (ab : aggBuilder) : go (Ast.Expr * aggBuilder) :=
  rewriteExpr (rewriteRef alias) e ab.

Definition addGroup (ab : aggBuilder) (gb : Ast.Expr) : go aggBuilder :=
  if containsAggregate gb then Err (ErrMsg "planner: aggregate functions are not allowed in GROUP BY") else
  match gb with
  | ColumnRefExpr _ _ =>
      resolved ← resolveColumns st gb;
      match resolved with
      | ColumnRefExpr _ name =>
          Ret (mkAggBuilder (ab_GroupBy ab ++ [resolved]) (ab_Aggs ab) ({[name]} ∪ groupCols ab) ({[name]} ∪ outNames ab))
      | _ => Panic
      end
  | _ => Err (ErrMsg "planner: GROUP BY only supports column references")
  end.
Definition addItem (acc : list Ast.Expr * aggBuilder) (it : selectItem) : go (list Ast.Expr * aggBuilder) :=
  let '(exprs, ab) := acc in
  '(e, ab) ← match si_expr it with
    | AggFuncExpr f arg distinct => addAggregate f arg distinct (si_alias it) ab
    | e => rewriteAgg None e ab
    end;
  Ret (exprs ++ [e], ab).
End Aggregation.

(** What a query's SELECT list is evaluated over. *)
Inductive queryInput : Type :=
  | FromRows (child : LogicalNode)
  | FromGroups (child : LogicalNode) (ab : aggBuilder) (having : option Ast.Expr).
Definition inputNode (q : queryInput) : LogicalNode :=
  match q with
  | FromRows child => child
  | FromGroups child ab having =>
      let agg := LAggregate child (ab_GroupBy ab) (ab_Aggs ab) in
      match having with Some pred => LFilter agg pred | None => agg end
  end.
Record selectQuery : Type := mkQuery { q_input : queryInput; q_items : list selectItem; q_exprs : list Ast.Expr }.
(** The SELECT entry that HAVING names. *)
Definition aliasOf (items : list selectItem) (exprs : list Ast.Expr) (name : string) : option Ast.Expr :=
  snd <$> (snd <$> list_find (λ p, si_userAlias p.1 = name) (zip items exprs)).
Definition buildAggregation (st : symbolTable) (child : LogicalNode) (groupBy : list Ast.Expr) (having : option Ast.Expr)
    (items : list selectItem) : go selectQuery :=
  ab ← foldM (addGroup st) (mkAggBuilder [] [] ∅ ∅) groupBy;
  '(exprs, ab) ← foldM (addItem st) ([], ab) items;
  match having with
  | None => Ret (mkQuery (FromGroups child ab None) items exprs)
  | Some h =>
      '(pred, ab) ← rewriteAgg st (Some (aliasOf items exprs)) h ab;
      Ret (mkQuery (FromGroups child ab (Some pred)) items exprs)
  end.
Definition buildScalarSelect (st : symbolTable) (child : LogicalNode) (items : list selectItem) : go selectQuery :=
  exprs ← foldM (λ acc it, e ← resolveScalar st (si_expr it); Ret (acc ++ [e])) [] items;
  Ret (mkQuery (FromRows child) items exprs).
(** [q.orderExpr]. *)
Definition orderExpr (st : symbolTable) (q : queryInput) (e : Ast.Expr) : go (Ast.Expr * queryInput) :=
  match q with
  | FromRows child => e ← resolveScalar st e; Ret (e, q)
  | FromGroups child ab having => '(e, ab) ← rewriteAgg st None e ab; Ret (e, FromGroups child ab having)
  end.

(** ** Finishing a query *)

(** The first [SELECT] entry of that header; another one must be equal. *)
Fixpoint namedTarget (name : string) (i : nat) (entries : list (selectItem * Ast.Expr)) (found : option (nat * Ast.Expr))
    : go (option nat) :=
  match entries with
  | [] => Ret (fst <$> found)
  | (it, e) :: entries =>
      if decide (si_alias it ≠ name) then namedTarget name (S i) entries found else
      match found with
      | Some (_, f) =>
          if decide (FormatExpr f ≠ FormatExpr e) then Err (ErrMsg "planner: ORDER BY is ambiguous")
          else namedTarget name (S i) entries found
      | None => namedTarget name (S i) entries (Some (i, e))
      end
  end.
(** [None] is -1. *)
Definition orderTarget (q : selectQuery) (e : Ast.Expr) (visible : nat) : go (option nat) :=
  match e with
  | IntLiteral v =>
      if (v <? 1) || (Z.of_nat visible <? v) then Err (ErrMsg "planner: ORDER BY position is not in the select list")
      else Ret (Some (Z.to_nat (v - 1)))
  | ColumnRefExpr table name =>
      if decide (table ≠ ""%string) then Ret None
      else namedTarget name 0 (take visible (zip (q_items q) (q_exprs q))) None
  | _ => Ret None
  end.
Definition matchItem (e : Ast.Expr) (items : list ProjectItem) : option nat :=
  fst <$> list_find (λ it, FormatExpr (pi_Expr it) = FormatExpr e) items.
Fixpoint isIdentityProject (items : list ProjectItem) (schema : Schema) : bool :=
  match items, schema with
  | [], [] => true
  | it :: items, f :: schema =>
      match pi_Expr it with
      | ColumnRefExpr t n =>
          bool_decide (t = ""%string) && bool_decide (n = Name f) && bool_decide (pi_Alias it = Name f)
      | _ => false
      end && isIdentityProject items schema
  | _, _ => false
  end.

(** The projection, with a name of its own for each entry; types come later. *)
Definition nameItem (acc : list ProjectItem * gset string) (p : selectItem * Ast.Expr) : go (list ProjectItem * gset string) :=
  let '(items, used) := acc in
  name ← (if decide (si_alias p.1 ∈ used) then uniqueName "_col" (length items) used else Ret (si_alias p.1));
  Ret (items ++ [mkItem name p.2 noType], {[name]} ∪ used).
Record ordering : Type := mkOrdering {
  or_input : queryInput; or_items : list ProjectItem; or_used : gset string; or_by : list Ast.OrderByItem
}.
Definition orderKey (st : symbolTable) (q : selectQuery) (distinct : bool) (o : ordering) (ob : Ast.OrderByItem) : go ordering :=
  let '(mkOrderBy x descending) := ob in
  target ← orderTarget q x (length (q_items q));
  '(o, idx) ← match target with
    | Some i => Ret (o, i)
    | None =>
        '(resolved, input) ← orderExpr st (or_input o) x;
        let o := mkOrdering input (or_items o) (or_used o) (or_by o) in
        match matchItem resolved (or_items o) with
        | Some i => Ret (o, i)
        | None =>
            if distinct : bool then Err (ErrMsg "planner: for SELECT DISTINCT, ORDER BY expression must appear in the select list") else
            name ← uniqueName "_order" (length (or_items o)) (or_used o);
            Ret (mkOrdering input (or_items o ++ [mkItem name resolved noType]) ({[name]} ∪ or_used o) (or_by o), length (or_items o))
        end
    end;
  it ← index (or_items o) idx;
  Ret (mkOrdering (or_input o) (or_items o) (or_used o) (or_by o ++ [mkOrderBy (ColumnRefExpr "" (pi_Alias it)) descending])).

Definition typeItem (schema : Schema) (it : ProjectItem) : ProjectItem :=
  mkItem (pi_Alias it) (pi_Expr it) (resolveExprType (pi_Expr it) schema).
Definition limitNode (limit offset : option Z) (root : LogicalNode) : LogicalNode :=
  match limit, offset with
  | None, None => root
  | _, _ => LLimit root (default (-1) limit) (default 0 offset)
  end.
(** The projection that drops hidden keys and restores the headers. *)
Fixpoint finalItems (items : list selectItem) (projected : list ProjectItem) (schema : Schema) : go (list ProjectItem) :=
  match items, projected with
  | it :: items, p :: projected =>
      match schema with
      | [] => Panic
      | f :: schema =>
          final ← finalItems items projected schema;
          Ret (mkItem (si_alias it) (ColumnRefExpr "" (pi_Alias p)) (Type_ f) :: final)
      end
  | _, _ => Ret []
  end.
Definition finish (st : symbolTable) (q : selectQuery) (distinct : bool) (orderBy : list Ast.OrderByItem) (limit offset : option Z)
    : go LogicalNode :=
  '(items, used) ← foldM nameItem ([], ∅) (zip (q_items q) (q_exprs q));
  let visible := length items in
  o ← foldM (orderKey st q distinct) (mkOrdering (q_input q) items used []) orderBy;
  let child := inputNode (or_input o) in
  let childSchema := OutputSchema child in
  let items := typeItem childSchema <$> or_items o in
  let root := if isIdentityProject items childSchema then child else LProject child items in
  let root := if distinct then LDistinct root else root in
  let root := match or_by o with [] => root | by_ => LSort root by_ end in
  let root := limitNode limit offset root in
  let renamed := existsb (λ '(it, p), bool_decide (pi_Alias p ≠ si_alias it)) (zip (q_items q) items) in
  if renamed || (visible <? length items)%nat then
    final ← finalItems (q_items q) (take visible items) (OutputSchema root);
    Ret (LProject root final)
  else Ret root.

(** ** Build *)

Fixpoint lookupTables (fs : FS) (c : Catalog) (refs : list Ast.TableRef) : go (list LogicalScan * Catalog) :=
  match refs with
  | [] => Ret ([], c)
  | ref :: refs =>
      '(entry, c) ← cat_Lookup fs c (tr_Name ref);
      match entry with
      | None => Err (ErrMsg "planner: table not found")
      | Some e =>
          '(scans, c) ← lookupTables fs c refs;
          Ret (mkScan (te_Name e) (te_FilePath e) (te_Schema e) None [] None :: scans, c)
      end
  end.
Definition planTables (scans : list LogicalScan) (where_ : option Ast.Expr) (st : symbolTable) : go LogicalNode :=
  match scans with
  | [scan] => Ret match where_ with Some p => LFilter (LScan scan) p | None => LScan scan end
  | _ => buildMultiTablePlan scans where_ st
  end.
Definition Build (fs : FS) (stmt : SelectStmt) (c : Catalog) : go (LogicalNode * Catalog) :=
  let '(mkSelect distinct cols from where_ having groupBy orderBy limit offset) := stmt in
  match from with
  | [] => Err (ErrMsg "planner: no FROM clause")
  | _ =>
      '(scans, c) ← lookupTables fs c from;
      st ← newSymbolTable (ls_Schema <$> scans) from;
      let scans := imap (applyOutputNames st) scans in
      where_ ← resolveWhere st where_;
      root ← planTables scans where_ st;
      let items := expandSelectList cols st in
      let aggregating := negb (bool_decide (groupBy = [])) || containsAggregate_opt having
        || existsb (λ it, containsAggregate (si_expr it)) items in
      q ← (if aggregating : bool then buildAggregation st root groupBy having items else
           match having with
           | Some _ => Err (ErrMsg "planner: HAVING requires GROUP BY or an aggregate function")
           | None => buildScalarSelect st root items
           end);
      root ← finish st q distinct orderBy limit offset;
      Ret (root, c)
  end.
