(* ===== verification/BuildNames.v ===== *)
(** * Package planner: rewriting, fresh names and the symbol table

    What [rewriteExpr] preserves, why [uniqueName] ends with a new name, and what
    a resolved column is. *)
From Stdlib Require Import ZArith Lia ZifyNat Ascii.
From stdpp Require Import base numbers list strings gmap.
From S2P Require Import Prelude Encoding Codec Float64 Schema Writer Reader Batch Lexer Strconv Ast Parser Format ExprWalk Logical Catalog Optimizer Prune PrunePlan Build.
#[local] Open Scope Z_scope.

(** ** Rewriting *)

(** The lists inside expressions, as functions of their own. *)
Fixpoint walkList (l : list Ast.Expr) : list Ast.Expr := match l with [] => [] | e :: l => walkExpr e ++ walkList l end.
Fixpoint walkWhens (ws : list WhenClause) : list Ast.Expr :=
  match ws with [] => [] | mkWhen c x :: ws => walkExpr c ++ walkExpr x ++ walkWhens ws end.
Section Lists.
Context {St : Type} (fn : Ast.Expr → St → go (option Ast.Expr * St)).
Fixpoint rewriteList (l : list Ast.Expr) (st : St) : go (list Ast.Expr * St) :=
  match l with
  | [] => Ret ([], st)
  | e :: l => '(e, st) ← rewriteExpr fn e st; '(l, st) ← rewriteList l st; Ret (e :: l, st)
  end.
Fixpoint rewriteWhens (ws : list WhenClause) (st : St) : go (list WhenClause * St) :=
  match ws with
  | [] => Ret ([], st)
  | mkWhen c x :: ws =>
      '(c, st) ← rewriteExpr fn c st; '(x, st) ← rewriteExpr fn x st; '(ws, st) ← rewriteWhens ws st;
      Ret (mkWhen c x :: ws, st)
  end.
End Lists.

Section Rewrites.
Context {St : Type} (fn : Ast.Expr → St → go (option Ast.Expr * St)).
Context (D : Ast.Expr → Prop) (I : St → Prop) (le : St → St → Prop) (N : St → list string).
Context (le_refl : ∀ a, le a a) (le_trans : ∀ a b c, le a b → le b c → le a c).
Context (N_mono : ∀ a b name, le a b → name ∈ N a → name ∈ N b).
Abbreviation bound st e := (Forall (reads_only (Some (N st))) (walkExpr e)).
Context (fn_ok : ∀ e st, D e → I st → safe_post (λ p,
  I p.2 ∧ le st p.2 ∧ match p.1 with Some x => bound p.2 x | None => ∀ t n, e ≠ ColumnRefExpr t n end) (fn e st)).

(** The result of rewriting from [st]. *)
Definition rewrites (st : St) {A} (B : St → A → Prop) (p : A * St) : Prop := I p.2 ∧ le st p.2 ∧ B p.2 p.1.

Lemma rewrites_bind {A C} (m : go (A * St)) (k : A → St → go (C * St)) st (B : St → A → Prop) (B' : St → C → Prop) :
  safe_post (rewrites st B) m →
  (∀ a st', I st' → le st st' → B st' a → safe_post (rewrites st' B') (k a st')) →
  safe_post (rewrites st B') ('(a, st) ← m; k a st).
Proof using le_trans.
  intros Hm Hk. eapply safe_post_bind; [exact Hm|]. intros [a st'] (Hi & Hle & Hb). cbn [fst snd] in *.
  eapply safe_post_impl; [by apply Hk|]. intros [c st2] (Hi2 & Hle2 & Hb2). split; [done|]. split; [by eapply le_trans|done].
Qed.
Lemma rewrites_Ret {A} st (B : St → A → Prop) a : I st → B st a → safe_post (rewrites st B) (Ret (a, st)).
Proof using le_refl. by intros Hi Hb. Qed.

Abbreviation bound_list st l := (Forall (reads_only (Some (N st))) (walkList l)).
Abbreviation bound_whens st ws := (Forall (reads_only (Some (N st))) (walkWhens ws)).
Lemma bound_nodes a b l : le a b → Forall (reads_only (Some (N a))) l → Forall (reads_only (Some (N b))) l.
Proof using N_mono. intros Hle H. eapply Forall_impl; [exact H|]. intros n. destruct n; try done. intros [-> Hn]. split; [done|]. by eapply N_mono. Qed.
Definition goes (e : Ast.Expr) : Prop :=
  ∀ st, Forall D (walkExpr e) → I st → safe_post (rewrites st (λ st e, bound st e)) (rewriteExpr fn e st).
Lemma rewriteList_bound l st :
  Forall goes l → Forall D (walkList l) → I st → safe_post (rewrites st (λ st l, bound_list st l)) (rewriteList fn l st).
Proof using le_refl le_trans N_mono.
  intros Hl. revert st. induction Hl as [|e l He _ IH]; intros st Hd Hi; cbn [rewriteList walkList] in *; [by apply rewrites_Ret|].
  apply Forall_app in Hd as [H1 H2]. eapply rewrites_bind; [by apply He|]. intros x st2 Hi2 Hle2 Hx.
  eapply rewrites_bind; [by apply IH|]. intros l' st3 Hi3 Hle3 Hl'. apply rewrites_Ret; [done|]. cbn [walkList]. apply Forall_app.
  split; [by eapply bound_nodes|done].
Qed.
Lemma rewriteWhens_bound ws st :
  Forall (when_both goes) ws → Forall D (walkWhens ws) → I st → safe_post (rewrites st (λ st ws, bound_whens st ws)) (rewriteWhens fn ws st).
Proof using le_refl le_trans N_mono.
  intros Hl. revert st. induction Hl as [|[c x] ws [Hc Hx] _ IH]; intros st Hd Hi; cbn [rewriteWhens walkWhens] in *; [by apply rewrites_Ret|].
  apply Forall_app in Hd as [H1 [H2 H3]%Forall_app]. eapply rewrites_bind; [by apply Hc|]. intros c' st2 Hi2 Hle2 Hc'.
  eapply rewrites_bind; [by apply Hx|]. intros x' st3 Hi3 Hle3 Hx'. eapply rewrites_bind; [by apply IH|]. intros ws' st4 Hi4 Hle4 Hws.
  apply rewrites_Ret; [done|]. cbn [walkWhens]. rewrite !Forall_app. split_and!; [by eapply bound_nodes, bound_nodes|by eapply bound_nodes|done].
Qed.

Lemma rewriteExpr_bound e : goes e.
Proof using le_refl le_trans N_mono fn_ok.
  induction e using Expr_ast_ind; intros st Hd Hi; cbn [rewriteExpr walkExpr] in *;
    (eapply safe_post_bind; [apply fn_ok; [exact (List.Forall_inv Hd)|exact Hi]|]); intros [out st1] (Hi1 & Hle1 & Hout); cbn [fst snd] in *;
    (destruct out as [y|]; [by split_and!|]);
    (eapply safe_post_impl with (P := rewrites st1 (λ st e, bound st e));
       [|intros [e' st'] (? & ? & ?); split; [done|]; split; [by eapply le_trans|done]]);
    apply List.Forall_inv_tail in Hd; cbn [app] in Hd; rewrite ?Forall_app in Hd.
  all: try (apply rewrites_Ret; [done|]; by repeat constructor).
  - by destruct (Hout t n).
  - destruct Hd as [H1 H2]. eapply rewrites_bind; [by apply IHe1|]. intros l st2 Hi2 Hle2 Hl.
    eapply rewrites_bind; [by apply IHe2|]. intros r st3 Hi3 Hle3 Hr. apply rewrites_Ret; [done|]. constructor; [done|].
    apply Forall_app. split; [by eapply bound_nodes|done].
  - eapply rewrites_bind; [by apply IHe|]. intros x st2 Hi2 _ Hx. apply rewrites_Ret; [done|]. by constructor.
  - eapply rewrites_bind; [by apply IHe|]. intros x st2 Hi2 _ Hx. apply rewrites_Ret; [done|]. by constructor.
  - destruct Hd as (H1 & H2 & H3). eapply rewrites_bind; [by apply IHe1|]. intros x st2 Hi2 Hle2 Hx.
    eapply rewrites_bind; [by apply IHe2|]. intros lo st3 Hi3 Hle3 Hlo. eapply rewrites_bind; [by apply IHe3|]. intros hi st4 Hi4 Hle4 Hhi.
    apply rewrites_Ret; [done|]. constructor; [done|]. rewrite !Forall_app. split_and!; [by eapply bound_nodes, bound_nodes|by eapply bound_nodes|done].
  - destruct Hd as (H1 & H2). eapply rewrites_bind; [by apply IHe|]. intros x st2 Hi2 Hle2 Hx.
    eapply rewrites_bind; [by apply (rewriteList_bound l)|]. intros l' st3 Hi3 Hle3 Hl. apply rewrites_Ret; [done|]. constructor; [done|].
    apply Forall_app. split; [by eapply bound_nodes|exact Hl].
  - destruct Hd as [H1 H2]. eapply rewrites_bind; [by apply IHe1|]. intros x st2 Hi2 Hle2 Hx.
    eapply rewrites_bind; [by apply IHe2|]. intros p st3 Hi3 Hle3 Hp. apply rewrites_Ret; [done|]. constructor; [done|].
    apply Forall_app. split; [by eapply bound_nodes|done].
  - destruct a as [a|]; cbn [mbind go_bind]; [|apply rewrites_Ret; [done|]; by repeat constructor].
    eapply (rewrites_bind _ _ _ (λ st a, match a with Some a => bound st a | None => False end)).
    + eapply rewrites_bind; [by apply H|]. intros x st2 Hi2 _ Hx. by apply rewrites_Ret.
    + intros [x|] st2 Hi2 _ Hx; [|done]. apply rewrites_Ret; [done|]. by constructor.
  - eapply rewrites_bind; [by apply (rewriteList_bound l)|]. intros l' st2 Hi2 _ Hl. apply rewrites_Ret; [done|]. by constructor.
  - destruct Hd as [H1 H2]. eapply rewrites_bind; [by apply (rewriteWhens_bound ws)|]. intros ws' st2 Hi2 Hle2 Hws.
    destruct els as [x|]; cbn [mbind go_bind].
    + eapply (rewrites_bind _ _ _ (λ st a, match a with Some a => bound st a | None => False end)).
      * eapply rewrites_bind; [by apply H0|]. intros y st3 Hi3 _ Hy. by apply rewrites_Ret.
      * intros [y|] st3 Hi3 Hle3 Hy; [|done]. apply rewrites_Ret; [done|]. constructor; [done|]. apply Forall_app.
        split; [by eapply bound_nodes|done].
    + apply rewrites_Ret; [done|]. constructor; [done|]. apply Forall_app. by split.
  - done.
Qed.
End Rewrites.

(** ** Fresh names *)

Definition digits_value (cs : list ascii) : Z := foldl (λ a c, 10 * a + (Z.of_nat (nat_of_ascii c) - 48)) 0 cs.
Lemma digit_char_value d : 0 ≤ d < 10 → Z.of_nat (nat_of_ascii (digit_char d)) - 48 = d.
Proof. intros Hd. unfold digit_char. rewrite nat_ascii_embedding by lia. lia. Qed.
Lemma fmtDigits_value fuel v acc :
  0 ≤ v < 2 ^ Z.of_nat fuel →
  foldl (λ a c, 10 * a + (Z.of_nat (nat_of_ascii c) - 48)) 0 (fmtDigits fuel v acc)
  = foldl (λ a c, 10 * a + (Z.of_nat (nat_of_ascii c) - 48)) v acc.
Proof.
  revert v acc. induction fuel as [|fuel IH]; intros v acc Hv; cbn [fmtDigits]; [by replace v with 0 by lia|].
  assert (Hm : 0 ≤ v mod 10 < 10) by (apply Z.mod_pos_bound; lia). pose proof (Z.div_mod v 10 ltac:(lia)) as Hdm.
  destruct (Z.ltb_spec v 10).
  - cbn [foldl]. rewrite digit_char_value by done. by rewrite Z.mod_small by lia.
  - rewrite IH.
    + cbn [foldl]. rewrite digit_char_value by done. f_equal. lia.
    + rewrite Nat2Z.inj_succ, Z.pow_succ_r in Hv by lia. split; [apply Z.div_pos; lia|]. apply Z.div_lt_upper_bound; lia.
Qed.
Lemma FormatInt_inj v w : 0 ≤ v → 0 ≤ w → FormatInt v = FormatInt w → v = w.
Proof.
  assert (H : ∀ v, 0 ≤ v → digits_value (FormatInt v) = v).
  { intros x Hx. unfold FormatInt. destruct (Z.ltb_spec x 0); [lia|]. unfold digits_value, fmtNat. rewrite fmtDigits_value; [done|].
    split; [done|]. pose proof (Z.log2_nonneg x). rewrite Nat2Z.inj_succ, Z2Nat.id by done. destruct (decide (x = 0)) as [->|]; [done|].
    apply Z.log2_spec. lia. }
  intros Hv Hw E. by rewrite <- (H v Hv), <- (H w Hw), E.
Qed.
Lemma numbered_inj stem v w : 0 ≤ v → 0 ≤ w → numbered stem v = numbered stem w → v = w.
Proof.
  intros Hv Hw E. apply FormatInt_inj; [done..|]. unfold numbered in E. apply (inj (String.append _)) in E. apply (inj (String.append _)) in E.
  unfold show, text_of in E. apply (f_equal String.list_ascii_of_string) in E. by rewrite !String.list_ascii_of_string_of_list_ascii in E.
Qed.
(** The loop of [uniqueName] ends, with a new name. *)
Lemma uniqueFrom_fresh fuel stem k used name :
  0 ≤ k → (size used < fuel)%nat →
  safe_post (λ n, n ∉ used) (uniqueFrom fuel stem k used name).
Proof.
  intros Hk Hsz.
  assert (Hgen : ∀ (f : nat) (k : Z) name, 0 ≤ k → safe_post (λ n, n ∉ used) (uniqueFrom f stem k used name) ∨
    ∀ j, (j < f)%nat → numbered stem (k + Z.of_nat j) ∈ used).
  { clear. intros f. induction f as [|f IH]; intros k name Hk; cbn [uniqueFrom].
    - right. lia.
    - case_decide as Hin; [|by left]. destruct (IH (k + 1) (numbered stem k)) as [H|H]; [lia|by left|].
      destruct f as [|f].
      { cbn [uniqueFrom]. case_decide; [|by left]. right. intros j Hj. by replace (k + Z.of_nat j) with k by lia. }
      destruct (decide (numbered stem k ∈ used)) as [Hk'|Hk'].
      + right. intros [|j] Hj; [by rewrite Z.add_0_r|]. replace (k + Z.of_nat (S j)) with (k + 1 + Z.of_nat j) by lia. apply H. lia.
      + left. cbn [uniqueFrom]. by rewrite decide_False. }
  destruct (Hgen fuel k name Hk) as [H|H]; [done|]. exfalso.
  assert (Hsub : list_to_set (numbered stem ∘ Z.add k ∘ Z.of_nat <$> seq 0 fuel) ⊆ used).
  { intros n. rewrite elem_of_list_to_set. intros (j & -> & Hj)%list_elem_of_fmap. apply elem_of_seq in Hj. apply H. lia. }
  apply subseteq_size in Hsub. rewrite size_list_to_set, length_fmap, length_seq in Hsub; [lia|].
  apply NoDup_fmap_2_strong; [|apply NoDup_seq]. intros i j Hi Hj E. apply numbered_inj in E; lia.
Qed.
Lemma uniqueName_fresh prefix n used : safe_post (λ name, name ∉ used) (uniqueName prefix n used).
Proof. apply uniqueFrom_fresh; lia. Qed.
