(* ===== verification/BuildTables.v ===== *)
(** * Package planner: resolved columns and the tables' plan

    Every resolved column is a column some scan emits, and the plan below the
    SELECT list emits the columns of every table once. *)
From Stdlib Require Import ZArith Lia ZifyNat Ascii.
From stdpp Require Import base numbers list strings gmap.
From S2P Require Import Prelude Encoding Codec Float64 Schema Writer Reader Batch Lexer Strconv Ast Parser Format ExprWalk Logical Catalog Optimizer Prune PrunePlan Build BuildNames.
#[local] Open Scope Z_scope.

(** ** The symbol table *)

Definition bindings (st : symbolTable) : list columnBinding := concat (columns st).
Definition outs (st : symbolTable) : list string := cb_out <$> bindings st.
Definition table_outs (st : symbolTable) (t : nat) : list string := cb_out <$> default [] (columns st !! t).

(** What its maps hold. *)
Record symbols_ok (st : symbolTable) : Prop := {
  so_qualified : ∀ k b, qualified st !! k = Some b → b ∈ bindings st;
  so_byName : ∀ k, default [] (byName st !! k) = filter (λ b, cb_source b = k) (bindings st);
  so_tableOfOut : ∀ name t, tableOfOut st !! name = Some t → name ∈ table_outs st t;
  so_outs : ∀ name, name ∈ outs st → is_Some (tableOfOut st !! name);
  so_table : ∀ t bs b, columns st !! t = Some bs → b ∈ bs → cb_table b = t
}.

Lemma qualified_fold (f : columnBinding → string) bs (m : gmap string columnBinding) k b :
  foldl (λ m b, <[f b := b]> m) m bs !! k = Some b → b ∈ bs ∨ m !! k = Some b.
Proof.
  revert m. induction bs as [|b0 bs IH]; intros m; [by right|]. cbn [foldl]. intros [H|H]%IH; [left; by right|].
  destruct (decide (f b0 = k)) as [<-|Hn]; [rewrite lookup_insert_eq in H; injection H as ->; left; by left|].
  rewrite lookup_insert_ne in H by done. by right.
Qed.
Lemma byName_fold bs (m : gmap string (list columnBinding)) k :
  default [] (foldl (λ m b, <[cb_source b := default [] (m !! cb_source b) ++ [b]]> m) m bs !! k)
  = default [] (m !! k) ++ filter (λ b, cb_source b = k) bs.
Proof.
  revert m. induction bs as [|b bs IH]; intros m; [by rewrite app_nil_r|]. cbn [foldl]. rewrite IH, filter_cons.
  destruct (decide (cb_source b = k)) as [<-|Hn].
  - rewrite lookup_insert_eq. cbn [default id]. by rewrite <- app_assoc.
  - by rewrite lookup_insert_ne.
Qed.
Lemma tableOfOut_fold bs (m : gmap string nat) name t :
  foldl (λ m b, <[cb_out b := cb_table b]> m) m bs !! name = Some t →
  (∃ b, b ∈ bs ∧ cb_out b = name ∧ cb_table b = t) ∨ m !! name = Some t.
Proof.
  revert m. induction bs as [|b bs IH]; intros m; [by right|]. cbn [foldl]. intros [(b' & Hb & E)|H]%IH; [left; exists b'; split; [by right|done]|].
  destruct (decide (cb_out b = name)) as [<-|Hn]; [rewrite lookup_insert_eq in H; injection H as <-; left; exists b; split; [by left|done]|].
  rewrite lookup_insert_ne in H by done. by right.
Qed.
Lemma tableOfOut_some bs (m : gmap string nat) name :
  name ∈ cb_out <$> bs ∨ is_Some (m !! name) → is_Some (foldl (λ m b, <[cb_out b := cb_table b]> m) m bs !! name).
Proof.
  revert m. induction bs as [|b bs IH]; intros m; [by intros [H%elem_of_nil|H]|]. cbn [foldl fmap list_fmap]. intros H. apply IH.
  destruct (decide (cb_out b = name)) as [<-|Hn]; [right; rewrite lookup_insert_eq; by eexists|]. rewrite lookup_insert_ne by done.
  destruct H as [H|H]; [left|by right]. apply elem_of_cons in H as [->|H]; done.
Qed.

Lemma nameTables_length seen refs names : nameTables seen refs = Ret names → length names = (length seen + length refs)%nat.
Proof.
  revert seen. induction refs as [|ref refs IH]; intros seen; cbn [nameTables]; [intros [= <-]; cbn; lia|].
  case_decide; [done|]. intros ->%IH. rewrite length_app. cbn. lia.
Qed.
Lemma newSymbolTable_spec schemas refs st :
  length schemas = length refs → newSymbolTable schemas refs = Ret st →
  symbols_ok st ∧ length (columns st) = length schemas ∧ length (tableNames st) = length schemas ∧
  (∀ i schema, schemas !! i = Some schema → ∃ bs, columns st !! i = Some bs ∧
     Forall2 (λ f b, cb_source b = Name f ∧
       cb_out b = if decide (1 < occurrences schemas (Name f))%nat then default ""%string (tableNames st !! i) +:+ "." +:+ Name f else Name f) schema bs).
Proof.
  intros Hl. unfold newSymbolTable. destruct (nameTables [] refs) as [names| | |] eqn:En; try done. cbn [mbind go_bind]. intros [= <-].
  apply nameTables_length in En. cbn [length Nat.add] in En.
  assert (Hcol : ∀ t bs, imap (bindTable schemas) (zip schemas names) !! t = Some bs → ∃ schema name,
    schemas !! t = Some schema ∧ names !! t = Some name ∧ bs = bindTable schemas t (schema, name)).
  { intros t bs. rewrite list_lookup_imap. destruct (zip schemas names !! t) as [[schema name]|] eqn:Ez; [|done]. cbn. intros [= <-].
    apply lookup_zip_Some in Ez as [H1 H2]. by exists schema, name. }
  assert (Htab : ∀ t bs b, imap (bindTable schemas) (zip schemas names) !! t = Some bs → b ∈ bs → cb_table b = t).
  { intros t bs b (schema & name & _ & _ & ->)%Hcol (f & -> & _)%list_elem_of_fmap. done. }
  split; [split; unfold bindings, outs; cbn [qualified byName tableOfOut columns]|split; [|split]].
  - intros k b H. apply qualified_fold in H as [H|H]; [done|]. by rewrite lookup_empty in H.
  - intros k. rewrite byName_fold, lookup_empty. done.
  - intros name t H. apply tableOfOut_fold in H as [(b & Hb & <- & <-)|H]; [|by rewrite lookup_empty in H].
    apply list_elem_of_In, in_concat in Hb as (bs & Hbs & Hb). apply list_elem_of_In in Hbs, Hb.
    apply list_elem_of_lookup_1 in Hbs as [t Ht]. unfold table_outs. cbn [columns]. rewrite (Htab _ _ _ Ht Hb), Ht. by apply list_elem_of_fmap_2.
  - intros name H. apply tableOfOut_some. by left.
  - exact Htab.
  - cbn [columns]. rewrite length_imap, length_zip_with. lia.
  - cbn [tableNames]. lia.
  - cbn [columns tableNames]. intros i schema Hi. destruct (lookup_lt_is_Some_2 names i) as [name Hn].
    { apply lookup_lt_Some in Hi. lia. }
    exists (bindTable schemas i (schema, name)). split.
    + rewrite list_lookup_imap. by rewrite (proj2 (lookup_zip_Some _ _ _ _ _) (conj Hi Hn)).
    + unfold bindTable. apply Forall2_fmap_r, Forall_Forall2_diag, Forall_true. intros f. cbn. by rewrite Hn.
Qed.

Lemma table_outs_outs st t name : name ∈ table_outs st t → name ∈ outs st.
Proof.
  unfold table_outs, outs, bindings. destruct (columns st !! t) as [bs|] eqn:E; [|by intros ?%elem_of_nil]. cbn [default].
  intros (b & -> & Hb)%list_elem_of_fmap. apply list_elem_of_fmap_2, list_elem_of_In, in_concat. exists bs.
  split; apply list_elem_of_In; [by eapply list_elem_of_lookup_2|done].
Qed.

(** ** Resolution *)

Section Resolve.
Context (st : symbolTable) (Hst : symbols_ok st).

Lemma resolve_safe table name : safe_post (λ b, b ∈ bindings st) (resolve st table name).
Proof using Hst.
  unfold resolve. case_decide.
  - destruct (qualified st !! _) as [b|] eqn:E; [|done]. by eapply so_qualified.
  - rewrite (so_byName st Hst). destruct (filter _ _) as [|b [|]] eqn:E; try done. cbn.
    assert (Hb : b ∈ filter (λ b, cb_source b = name) (bindings st)) by (rewrite E; by left). by apply list_elem_of_filter in Hb as [_ ?].
Qed.
Lemma binding_out b : b ∈ bindings st → cb_out b ∈ outs st.
Proof using Type. apply list_elem_of_fmap_2. Qed.
Lemma resolveColumns_bound e : safe_post (λ e, bound_in (outs st) e) (resolveColumns st e).
Proof using Hst.
  unfold resolveColumns.
  eapply (safe_post_bind (rewrites (λ _ : (), True) (λ _ _, True) tt (λ _ e, bound_in (outs st) e))); [|by intros [x u] (_ & _ & H)].
  apply (rewriteExpr_bound (resolveRef st) (λ _, True) (λ _, True) (λ _ _, True) (λ _, outs st)); try done; [|by apply Forall_true].
  intros n u _ _. destruct n; try done; cbn [resolveRef].
  eapply safe_post_bind; [apply resolve_safe|]. intros b Hb. cbn. split; [done|]. split; [done|].
  constructor; [|done]. split; [done|]. by apply binding_out.
Qed.
Lemma resolveScalar_bound e : safe_post (λ e, bound_in (outs st) e) (resolveScalar st e).
Proof using Hst. unfold resolveScalar. destruct (containsAggregate e); [done|]. apply resolveColumns_bound. Qed.
Lemma resolveWhere_bound w : safe_post (λ w, ∀ e, w = Some e → bound_in (outs st) e) (resolveWhere st w).
Proof using Hst.
  destruct w as [e|]; cbn [resolveWhere]; [|done]. eapply safe_post_bind; [apply resolveScalar_bound|].
  intros x Hx e' [= <-]. done.
Qed.

(** A term over one table reads that table's columns only. *)
Lemma tablesOf_one e t : bound_in (outs st) e → elements (tablesOf st e) = [t] → bound_in (table_outs st t) e.
Proof using Hst.
  intros Hb Ht. apply bound_reads with (names := outs st); [done|]. intros name Hn. cbn [wanted].
  destruct (so_outs st Hst name) as [t' Ht']; [by eapply bound_cols|]. assert (t' ∈ tablesOf st e).
  { unfold tablesOf. apply elem_of_list_to_set, list_elem_of_omap. by exists name. }
  assert (t' ∈ elements (tablesOf st e)) as Hin by by apply elem_of_elements. rewrite Ht in Hin. apply list_elem_of_singleton in Hin as ->.
  by eapply so_tableOfOut.
Qed.
Lemma tablesOf_none e names : bound_in (outs st) e → elements (tablesOf st e) = [] → bound_in names e.
Proof using Hst.
  intros Hb Ht. apply bound_reads with (names := outs st); [done|]. intros name Hn.
  destruct (so_outs st Hst name) as [t' Ht']; [by eapply bound_cols|]. assert (t' ∈ elements (tablesOf st e)) as Hin.
  { apply elem_of_elements. unfold tablesOf. apply elem_of_list_to_set, list_elem_of_omap. by exists name. }
  rewrite Ht in Hin. by apply elem_of_nil in Hin.
Qed.
End Resolve.

Lemma flattenAnd_bound names e : bound_in names e → Forall (λ e, bound_in names e) (flattenAnd e).
Proof.
  induction e using Expr_ast_ind; intros Hb; try (constructor; [exact Hb|constructor]). destruct op; try (constructor; [exact Hb|constructor]).
  cbn [flattenAnd]. cbn [walkExpr] in Hb. apply List.Forall_inv_tail, Forall_app in Hb as [H1 H2]. apply Forall_app. auto.
Qed.
Lemma andExpr_bound names a b : (∀ x, a = Some x → bound_in names x) → bound_in names b → bound_in names (andExpr a b).
Proof. intros Ha Hb. destruct a as [x|]; [|done]. cbn. constructor; [done|]. apply Forall_app. split; [by apply Ha|done]. Qed.
Lemma conjunction_bound names terms e : Forall (λ e, bound_in names e) terms → conjunction terms = Some e → bound_in names e.
Proof.
  unfold conjunction. intros Ht. assert (H : ∀ acc, (∀ x, acc = Some x → bound_in names x) →
    ∀ e, foldl (λ pred t, Some (andExpr pred t)) acc terms = Some e → bound_in names e); [|by apply H].
  induction Ht as [|t terms Ht _ IH]; intros acc Hacc x; [apply Hacc|]. cbn [foldl]. apply IH. intros y [= <-]. by apply andExpr_bound.
Qed.

(** ** The plan below the SELECT list *)

Definition whole_always (node : LogicalNode) : Prop := ∀ needed, distinct_whole needed node.
Section Tables.
Context (st : symbolTable) (Hst : symbols_ok st).
Definition scan_ok (i : nat) (scan : LogicalScan) : Prop :=
  Name <$> ls_Schema scan = table_outs st i ∧ NeededCols scan = [] ∧
  match ls_Predicate scan with Some p => bound_in (Name <$> ls_Schema scan) p | None => True end.
Definition scans_ok (scans : list LogicalScan) : Prop :=
  length scans = length (columns st) ∧ ∀ i scan, scans !! i = Some scan → scan_ok i scan.
Definition edge_ok (e : joinEdge) : Prop :=
  leftCol e ∈ table_outs st (leftTable e) ∧ rightCol e ∈ table_outs st (rightTable e) ∧ bound_in (outs st) (term e).

Lemma table_outs_lt t name : name ∈ table_outs st t → (t < length (columns st))%nat.
Proof using Type.
  unfold table_outs. destruct (columns st !! t) as [bs|] eqn:E; [by apply lookup_lt_Some in E|by intros ?%elem_of_nil].
Qed.
Lemma joinEdgeOf_ok t scans e : bound_in (outs st) t → joinEdgeOf t scans st = Some e → edge_ok e ∧ term e = t.
Proof using Hst.
  intros Hb. unfold joinEdgeOf. destruct t as [| | | | | | |op l r| | | | | | | | | ]; try done. destruct op; try done.
  destruct l as [u l| | | | | | | | | | | | | | | | ]; try done. destruct r as [v r| | | | | | | | | | | | | | | | ]; try done.
  destruct (tableOfOut st !! l) as [lt|] eqn:El; [|done]. destruct (tableOfOut st !! r) as [rt|] eqn:Er; [|done]. cbn [mbind option_bind].
  case_decide; [done|]. case_decide; [|done]. intros [= <-]. split; [|done]. split; [by eapply so_tableOfOut|]. split; [by eapply so_tableOfOut|done].
Qed.

Record placed_ok (p : placed) : Prop := {
  po_length : length (perTable p) = length (columns st);
  po_filters : ∀ t f, perTable p !! t = Some (Some f) → bound_in (table_outs st t) f;
  po_edges : Forall edge_ok (p_edges p);
  po_residual : Forall (λ e, bound_in (outs st) e) (residual p)
}.
Lemma push_ok p t x : placed_ok p → bound_in (table_outs st t) x →
  placed_ok (mkPlaced (alter (λ f, Some (andExpr f x)) t (perTable p)) (p_edges p) (residual p)).
Proof using Type.
  intros [Hl Hf He Hr] Hx. split; cbn [perTable p_edges residual]; [by rewrite length_alter| |done|done].
  intros t' f. destruct (decide (t = t')) as [<-|Hn].
  - rewrite list_lookup_alter_eq. destruct (perTable p !! t) as [g|] eqn:E; [|done]. cbn. intros [= <-].
    apply andExpr_bound; [|done]. intros y ->. by apply Hf.
  - rewrite list_lookup_alter_ne by done. apply Hf.
Qed.
Lemma placeTerm_ok scans p x : placed_ok p → bound_in (outs st) x → placed_ok (placeTerm scans st p x).
Proof using Hst.
  intros Hp Hx. unfold placeTerm. destruct (joinEdgeOf x scans st) as [e|] eqn:Ee.
  - destruct Hp as [Hl Hf He Hr]. split; try done. apply Forall_app. split; [done|]. constructor; [|done]. by apply (joinEdgeOf_ok x scans).
  - destruct (elements (tablesOf st x)) as [|t [|]] eqn:Et.
    + apply push_ok; [done|]. by eapply tablesOf_none.
    + apply push_ok; [done|]. by eapply tablesOf_one.
    + destruct Hp as [Hl Hf He Hr]. split; try done. apply Forall_app. by repeat constructor.
Qed.

Lemma firstEdge_spec included i edges used k t a b :
  firstEdge included i edges used = Some (k, (t, a, b)) → ∃ e, e ∈ edges ∧ extends included e = Some (t, a, b).
Proof using Type.
  revert i used. induction edges as [|e edges IH]; intros i [|u used]; try done. cbn [firstEdge].
  destruct u; [intros (e' & He & Hx)%IH; exists e'; split; [by right|done]|].
  destruct (extends included e) as [[[t' a'] b']|] eqn:E.
  - intros [= _ <- <- <-]. exists e. split; [by left|done].
  - intros (e' & He & Hx)%IH. exists e'. split; [by right|done].
Qed.
Definition tree_names (included : gset nat) : list string := elements included ≫= table_outs st.
Record tree_ok (included : gset nat) (root : LogicalNode) : Prop := {
  to_resolve : names_resolve root;
  to_whole : whole_always root;
  to_names : names_of root ≡ₚ tree_names included;
  to_range : ∀ t, t ∈ included → (t < length (columns st))%nat
}.
Lemma tree_leaf scans t scan : scans_ok scans → scans !! t = Some scan → tree_ok {[t]} (LScan scan).
Proof using Type.
  intros [Hl Hs] Ht. destruct (Hs t scan Ht) as (Hn & Hneed & Hp). split.
  - by split.
  - done.
  - rewrite OutputSchema_scan by done. unfold tree_names. rewrite elements_singleton. cbn. by rewrite app_nil_r, Hn.
  - intros t' ->%elem_of_singleton. rewrite <- Hl. by eapply lookup_lt_Some.
Qed.
Lemma tree_join scans included root t scan inTree inNew :
  scans_ok scans → tree_ok included root → scans !! t = Some scan → t ∉ included →
  inTree ∈ tree_names included → inNew ∈ table_outs st t →
  tree_ok ({[t]} ∪ included) (LJoin root (LScan scan) (joinCond inTree inNew)).
Proof using Type.
  intros Hs [Hr Hw Hn Hrg] Ht Hnew Ha Hb. destruct (tree_leaf scans t scan Hs Ht) as [Hr' Hw' Hn' Hrg']. split.
  - split; [done|]. split; [done|]. unfold joinCond, collectCols. cbn [walkExpr omap list_omap app]. repeat constructor; apply elem_of_app.
    + left. by rewrite Hn.
    + right. rewrite Hn'. unfold tree_names. rewrite elements_singleton. cbn. by rewrite app_nil_r.
  - intros needed. cbn [distinct_whole]. destruct (joinNeeded root (LScan scan) (joinCond inTree inNew) needed). split; [apply Hw|done].
  - cbn [OutputSchema]. rewrite fmap_app. fold (OutputSchema (LScan scan)). rewrite Hn, Hn'. unfold tree_names.
    rewrite elements_singleton, elements_union_singleton by done. cbn. rewrite app_nil_r. apply Permutation_app_comm.
  - intros t' [->%elem_of_singleton|Hin]%elem_of_union; [by apply Hrg', elem_of_singleton|by apply Hrg].
Qed.
Lemma extends_spec included e t a b :
  edge_ok e → extends included e = Some (t, a, b) → (t ∉ included) ∧ a ∈ tree_names included ∧ b ∈ table_outs st t.
Proof using Type.
  intros (Hl & Hr & _). assert (Hin : ∀ t name, t ∈ included → name ∈ table_outs st t → name ∈ tree_names included).
  { intros t' name Ht Hn. unfold tree_names. apply list_elem_of_bind. exists t'. split; [done|by apply elem_of_elements]. }
  unfold extends. case_decide as H1; [intros [= <- <- <-]|case_decide as H2; [intros [= <- <- <-]|done]];
    (split; [tauto|]; split; [|done]); eapply Hin; [apply H1|done|apply H2|done].
Qed.
Lemma size_range (X : gset nat) n : (∀ t, t ∈ X → (t < n)%nat) → (size X ≤ n)%nat ∧ (size X = n → elements X ≡ₚ seq 0 n).
Proof using Type.
  intros HX. assert (Hsub : X ⊆ set_seq 0 n) by (intros t Ht; apply elem_of_set_seq; specialize (HX t Ht); lia).
  assert (Hsz : size (set_seq 0 n : gset nat) = n).
  { rewrite <- (list_to_set_seq (C := gset nat)), size_list_to_set, length_seq by apply NoDup_seq. done. }
  split; [apply subseteq_size in Hsub; lia|]. intros E. assert (EX : X = set_seq 0 n).
  { apply leibniz_equiv. apply set_subseteq_size_equiv; [done|lia]. }
  apply NoDup_Permutation; [apply NoDup_elements|apply NoDup_seq|]. intros t. rewrite EX, elem_of_elements, elem_of_set_seq, elem_of_seq. lia.
Qed.
Lemma growTree_ok fuel scans edges used included root :
  scans_ok scans → Forall edge_ok edges → tree_ok included root → (length scans < size included + fuel + 1)%nat →
  safe_post (λ p, tree_ok (set_seq 0 (length scans)) p.1) (growTree fuel scans edges used included root).
Proof using Hst.
  intros Hs He. revert used included root. induction fuel as [|fuel IH]; intros used included root Ht Hf; cbn [growTree].
  - case_decide; [lia|]. cbn. destruct (size_range included (length scans)) as [Hle Heq].
    { destruct Hs as [-> _]. apply Ht. }
    assert (E : included = set_seq 0 (length scans)); [|by rewrite <- E].
    apply set_eq. intros t. rewrite <- elem_of_elements, Heq, elem_of_set_seq, elem_of_seq by lia. done.
  - destruct (size_range included (length scans)) as [Hle Heq]. { destruct Hs as [-> _]. apply Ht. }
    case_decide as Hsz.
    + destruct (firstEdge included 0 edges used) as [[k [[t a] b]]|] eqn:Ef.
      * destruct (firstEdge_spec _ _ _ _ _ _ _ _ Ef) as (e & Hin & Hx). rewrite Forall_forall in He.
        destruct (extends_spec _ _ _ _ _ (He e Hin) Hx) as (Hnew & Ha & Hb).
        destruct (lookup_lt_is_Some_2 scans t) as [scan Hscan]. { destruct Hs as [-> _]. by eapply table_outs_lt. }
        rewrite (index_Ret _ _ _ Hscan). cbn [mbind go_bind]. apply IH; [by eapply tree_join|].
        rewrite size_union, size_singleton by set_solver. lia.
      * destruct (existsb _ _) eqn:Ex; [done|]. exfalso. apply not_true_iff_false in Ex. rewrite existsb_exists in Ex. destruct Ex.
        destruct (decide (Forall (λ t, t ∈ included) (seq 0 (length scans)))) as [Hall|Hall].
        -- exfalso. assert (Hsub : set_seq 0 (length scans) ⊆ included).
           { intros t Hin%elem_of_set_seq. rewrite Forall_forall in Hall. apply Hall, elem_of_seq. lia. }
           apply subseteq_size in Hsub. rewrite <- (list_to_set_seq (C := gset nat)), size_list_to_set, length_seq in Hsub by apply NoDup_seq. lia.
        -- apply not_Forall_Exists in Hall; [|apply _]. apply Exists_exists in Hall as (t & Hin & Hno). exists t.
           split; [by apply list_elem_of_In|]. by apply bool_decide_eq_true.
    + cbn. assert (E : included = set_seq 0 (length scans)); [|by rewrite <- E].
      apply set_eq. intros t. rewrite <- elem_of_elements, Heq, elem_of_set_seq, elem_of_seq by lia. done.
Qed.

(** The plan of the FROM and WHERE clauses. *)
Record rows_ok (root : LogicalNode) : Prop := {
  rk_resolve : names_resolve root;
  rk_whole : whole_always root;
  rk_names : names_of root ≡ₚ outs st
}.
Lemma seq_columns {A} (cs : list (list A)) : seq 0 (length cs) ≫= (λ t, default [] (cs !! t)) = concat cs.
Proof using Type.
  assert (Hs : ∀ l (g : nat → list A), (S <$> l) ≫= g = l ≫= (λ t, g (S t))).
  { intros l g. induction l as [|t l IH]; [done|]. cbn [fmap list_fmap mbind list_bind]. f_equal. exact IH. }
  induction cs as [|bs cs IH]; [done|]. cbn [length seq mbind list_bind concat]. rewrite <- fmap_S_seq. f_equal.
  etrans; [apply Hs|exact IH].
Qed.
Lemma outs_bind : outs st = seq 0 (length (columns st)) ≫= table_outs st.
Proof using Type.
  unfold outs, bindings. rewrite <- seq_columns. generalize (seq 0 (length (columns st))) as l.
  intros l. induction l as [|t l IH]; [done|]. cbn [mbind list_bind]. rewrite fmap_app. f_equal. exact IH.
Qed.
Lemma tree_all n : n = length (columns st) → tree_names (set_seq 0 n) ≡ₚ outs st.
Proof using Type.
  intros ->. unfold tree_names. rewrite outs_bind.
  assert (E : elements (set_seq 0 (length (columns st)) : gset nat) ≡ₚ seq 0 (length (columns st))).
  { apply NoDup_Permutation; [apply NoDup_elements|apply NoDup_seq|]. intros t. rewrite elem_of_elements, elem_of_set_seq, elem_of_seq. done. }
  by rewrite E.
Qed.
Lemma planTables_ok scans w :
  scans_ok scans → scans ≠ [] → Forall (λ s, ls_Predicate s = None) scans → (∀ e, w = Some e → bound_in (outs st) e) →
  safe_post rows_ok (planTables scans w st).
Proof using Hst.
  intros Hs Hne Hnone Hw. pose proof Hs as [Hl Hsc].
  assert (Hfrom : ∀ included root, tree_ok included root → included = set_seq 0 (length scans) → rows_ok root).
  { intros included root [Hr Ha Hn _] ->. split; [done|done|]. by rewrite Hn, tree_all. }
  assert (Hfilter : ∀ root p, rows_ok root → bound_in (outs st) p → rows_ok (LFilter root p)).
  { intros root p [Hr Ha Hn] Hp. split.
    - split; [done|]. apply bound_reads with (names := outs st); [done|]. intros name Hin. cbn [wanted]. rewrite Hn. by eapply bound_cols.
    - intros needed. apply Ha.
    - exact Hn. }
  assert (Hmulti : safe_post rows_ok (buildMultiTablePlan scans w st)).
  { unfold buildMultiTablePlan. set (p := foldl _ _ _).
    assert (Hp : placed_ok p).
    { assert (Hterms : Forall (λ e, bound_in (outs st) e) (flattenWhere w)).
      { destruct w as [e|]; [|done]. apply flattenAnd_bound. by apply Hw. }
      unfold p. assert (H0 : placed_ok (mkPlaced (replicate (length scans) None) [] [])).
      { split; cbn [perTable p_edges residual]; [by rewrite length_replicate| |done|done]. intros t f [H _]%lookup_replicate. done. }
      revert H0. generalize (mkPlaced (replicate (length scans) None) [] []) as p0. induction Hterms as [|e terms He _ IH]; intros p0 H0; [done|].
      cbn [foldl]. apply IH. by apply placeTerm_ok. }
    destruct Hp as [Hlen Hf He Hr]. set (scans' := zip_with set_filter scans (perTable p)).
    assert (Hl' : length scans' = length scans) by (unfold scans'; rewrite length_zip_with, Hlen, Hl; lia).
    assert (Hs' : scans_ok scans').
    { split; [by rewrite Hl'|]. intros i scan Hi. unfold scans' in Hi. apply lookup_zip_with_Some in Hi as (s & f & -> & Hi & Hfi).
      destruct (Hsc i s Hi) as (Hn & Hneed & _). rewrite Forall_forall in Hnone. pose proof (Hnone s (list_elem_of_lookup_2 _ _ _ Hi)) as Hs0.
      destruct f as [f|]; cbn [set_filter]; split; try done; (split; [done|]); [|by rewrite Hs0]. cbn. rewrite Hn. by apply Hf. }
    destruct (lookup_lt_is_Some_2 scans' 0) as [s0 Hs0]. { rewrite Hl'. destruct scans; [done|cbn; lia]. }
    unfold buildJoinTree. rewrite (index_Ret _ _ _ Hs0). cbn [mbind go_bind].
    eapply safe_post_bind.
    { eapply safe_post_bind.
      - apply (growTree_ok (length scans') scans' (p_edges p)); [done|done|by apply (tree_leaf scans')|rewrite size_singleton; lia].
      - intros [root used] Hroot. instantiate (1 := λ q, tree_ok (set_seq 0 (length scans')) q.1 ∧ Forall (λ e, bound_in (outs st) (term e)) q.2).
        cbn [safe_post fst snd] in *. split; [done|]. clear Hroot. revert used. generalize (p_edges p), He. clear. intros edges He. induction He as [|e edges He _ IH]; intros used; [done|].
        destruct used as [|u used]; [done|]. cbn [zip zip_with mbind list_bind]. apply Forall_app. split; [|apply IH]. destruct u; [done|].
        constructor; [apply He|done]. }
    intros [root unused] [Hroot Hun]. cbn [fst snd safe_post] in *. pose proof (Hfrom _ _ Hroot ltac:(by rewrite Hl')) as Hrows.
    destruct (conjunction _) as [pred|] eqn:Ec; [|done]. apply Hfilter; [done|]. eapply conjunction_bound; [|exact Ec].
    apply Forall_app. split; [done|]. by apply Forall_fmap. }
  unfold planTables. destruct scans as [|scan [|s2 scans]]; [done| |exact Hmulti].
  assert (Hone : rows_ok (LScan scan)).
  { eapply Hfrom; [by apply (tree_leaf [scan] 0)|]. cbn [length]. apply set_eq. intros t. rewrite elem_of_set_seq, elem_of_singleton. lia. }
  destruct w as [e|]; [|done]. apply Hfilter; [done|]. by apply Hw.
Qed.
End Tables.
