(* ===== verification/ParseGiven.v ===== *)
(** * Package sql: what parsed statements look like

    Whatever text it reads, the parser gives every aggregate other than COUNT an
    argument; the plan builder relies on it. *)
From Stdlib Require Import ZArith Lia ZifyNat Ascii.
From stdpp Require Import base numbers list strings.
From S2P Require Import Prelude Lexer Strconv Ast Parser ExprWalk.
#[local] Open Scope Z_scope.

(** Aggregates other than COUNT have an argument. *)
Definition arg_given (n : Ast.Expr) : Prop :=
  match n with AggFuncExpr f None _ => ToUpper f = "COUNT"%string | _ => True end.
Abbreviation args_given e := (Forall arg_given (walkExpr e)).
Definition order_given (ob : OrderByItem) : Prop := let '(mkOrderBy x _) := ob in args_given x.
Definition column_given (c : SelectColumn) : Prop := let '(mkSelectColumn e _) := c in args_given e.
Definition opt_given (e : option Ast.Expr) : Prop := match e with Some e => args_given e | None => True end.
Definition stmt_given (stmt : SelectStmt) : Prop :=
  let '(mkSelect _ cols _ _ having _ orderBy _ _) := stmt in
  Forall column_given cols ∧ opt_given having ∧ Forall order_given orderBy.

(** What the results of a production satisfy. *)
Definition gives {A} (Q : A → Prop) (m : P A) : Prop := ∀ l a l', m l = (Ret a, l') → Q a.
Lemma gives_ret {A} (Q : A → Prop) a : Q a → gives Q (mret a).
Proof. by intros Ha l b l' [= <- _]. Qed.
Lemma gives_fail {A} (Q : A → Prop) msg : gives Q (fail msg).
Proof. by intros l b l' [=]. Qed.
Lemma gives_fuel {A} (Q : A → Prop) : gives Q outOfFuel.
Proof. by intros l b l' [=]. Qed.
Lemma gives_bind {A B} (R : A → Prop) (Q : B → Prop) (m : P A) (f : A → P B) :
  gives R m → (∀ a, R a → gives Q (f a)) → gives Q (m ≫= f).
Proof.
  intros Hm Hf l b l'. unfold mbind, p_bind. destruct (m l) as [[a|e| |] l1] eqn:E; try done. apply Hf. by eapply Hm.
Qed.
Lemma gives_seq {A B} (Q : B → Prop) (m : P A) (f : A → P B) : (∀ a, gives Q (f a)) → gives Q (m ≫= f).
Proof. intros Hf. by apply (gives_bind (λ _, True)). Qed.
Create HintDb gives.
#[export] Hint Resolve gives_ret gives_fail gives_fuel : gives.
(** Steps over reads whose result does not matter. *)
Ltac gives_step :=
  match goal with
  | |- gives _ (mret _) => apply gives_ret
  | |- gives _ (fail _) => apply gives_fail
  | |- gives _ outOfFuel => apply gives_fuel
  | |- gives _ (if decide _ then _ else _) => case_decide
  | |- gives _ (peek_ ≫= _) => apply gives_seq; intro
  | |- gives _ (peek ≫= _) => apply gives_seq; intro
  | |- gives _ (next ≫= _) => apply gives_seq; intro
  | |- gives _ (next_ ≫= _) => apply gives_seq; intro
  | |- gives _ (expect _ ≫= _) => apply gives_seq; intro
  | |- gives _ (expectIdent ≫= _) => apply gives_seq; intro
  | |- gives _ (clause _ _ (mret _) ≫= _) => apply gives_seq; intro
  | |- gives _ (parseAlias ≫= _) => apply gives_seq; intro
  end.
Ltac gives := repeat gives_step.

Fixpoint walks (l : list Ast.Expr) : list Ast.Expr := match l with [] => [] | e :: l => walkExpr e ++ walks l end.
Lemma walks_given l : Forall (λ e, args_given e) l → Forall arg_given (walks l).
Proof. induction 1 as [|e l He _ IH]; [done|]. cbn [walks]. apply Forall_app. by split. Qed.
Definition when_given (w : WhenClause) : Prop := let '(mkWhen c x) := w in args_given c ∧ args_given x.

Section Grammar.
Context (expr : Z → P Ast.Expr) (Hexpr : ∀ p, gives (λ e, args_given e) (expr p)).
Abbreviation good := (λ e, args_given e).

Lemma gives_expr {B} p (Q : B → Prop) (f : Ast.Expr → P B) :
  (∀ e, args_given e → gives Q (f e)) → gives Q (expr p ≫= f).
Proof using Hexpr. intros Hf. by eapply gives_bind. Qed.
Lemma gives_optExpr kind : gives opt_given (clause kind None (e ← expr 0; mret (Some e))).
Proof using Hexpr. unfold clause. gives; [|done]. apply gives_expr. intros e He. by apply gives_ret. Qed.
Lemma gives_numericLiteral tok sign : gives good (numericLiteral tok sign).
Proof using Type.
  unfold numericLiteral. cbv zeta. gives.
  - destruct (ParseInt _); gives. by repeat constructor.
  - destruct (ParseFloat _); gives. by repeat constructor.
Qed.
Lemma gives_parseExprList n es : Forall good es → gives (Forall good) (parseExprList expr n es).
Proof using Hexpr.
  revert es. induction n as [|n IH]; intros es Hes; cbn [parseExprList]; gives. apply gives_expr. intros e He. cbv zeta.
  assert (Forall good (es ++ [e])) by (apply Forall_app; by repeat constructor). gives; [done|]. by apply IH.
Qed.
Lemma gives_parseOrderByList n os : Forall order_given os → gives (Forall order_given) (parseOrderByList expr n os).
Proof using Hexpr.
  revert os. induction n as [|n IH]; intros os Hos; cbn [parseOrderByList]; gives. apply gives_expr. intros e He. gives.
  apply gives_seq. intros desc. cbv zeta.
  assert (Forall order_given (os ++ [mkOrderBy e desc])) by (apply Forall_app; by repeat constructor). gives; [done|]. by apply IH.
Qed.
Lemma gives_parseSelectColumns n cols : Forall column_given cols → gives (Forall column_given) (parseSelectColumns expr n cols).
Proof using Hexpr.
  revert cols. induction n as [|n IH]; intros cols Hc; cbn [parseSelectColumns]; gives; [done|]. apply gives_expr. intros e He.
  assert (Hc' : ∀ x, Forall column_given (cols ++ [mkSelectColumn e x])) by (intros x; apply Forall_app; by repeat constructor).
  gives; [done|]. by apply IH.
Qed.
Lemma gives_parseSelect n : gives stmt_given (parseSelect expr n).
Proof using Hexpr.
  unfold parseSelect. gives. eapply gives_bind; [by apply gives_parseSelectColumns|]. intros cols Hcols. apply gives_seq. intros from.
  apply gives_seq. intros wh. apply gives_seq. intros gb. eapply gives_bind; [apply gives_optExpr|]. intros having Hh.
  eapply (gives_bind (Forall order_given)). { unfold clause. gives; [|done]. by apply gives_parseOrderByList. }
  intros ob Hob. apply gives_seq. intros [limit offset]. gives. by split_and!.
Qed.
Lemma gives_parseFuncCall n name : gives good (parseFuncCall expr n name).
Proof using Hexpr.
  unfold parseFuncCall. gives.
  - by repeat constructor.
  - apply gives_expr. intros e He. gives. by constructor.
  - eapply (gives_bind (Forall good)); [gives; [by apply gives_parseExprList|done]|]. intros es Hes. gives. constructor; [done|]. by apply walks_given.
Qed.
Lemma gives_parseWhens n ws : Forall when_given ws → gives (Forall when_given) (parseWhens expr n ws).
Proof using Hexpr.
  revert ws. induction n as [|n IH]; intros ws Hws; cbn [parseWhens]; gives; [done|]. apply gives_expr. intros c Hc. gives. apply gives_expr. intros x Hx.
  apply IH, Forall_app. by repeat constructor.
Qed.
Lemma gives_parseCaseExpr n : gives good (parseCaseExpr expr n).
Proof using Hexpr.
  unfold parseCaseExpr. eapply gives_bind; [by apply gives_parseWhens|]. intros ws Hws. eapply gives_bind; [apply gives_optExpr|]. intros els Hels.
  gives. constructor; [done|]. cbn [app]. apply Forall_app. split; [|by destruct els].
  clear -Hws. induction Hws as [|[c x] ws [Hc Hx] _ IH]; [done|]. rewrite !Forall_app. by split_and!.
Qed.
Lemma gives_parsePrimary n : gives good (parsePrimary expr n).
Proof using Hexpr.
  unfold parsePrimary. gives. destruct (Kind _); gives; try apply gives_parseFuncCall; try apply gives_numericLiteral; try apply gives_parseCaseExpr;
    try (by repeat constructor).
  - eapply gives_bind; [apply gives_parseSelect|]. intros sub _. gives. by repeat constructor.
  - apply gives_expr. intros e He. by gives.
Qed.
Lemma gives_parseUnary n : gives good (parseUnary expr n).
Proof using Hexpr.
  induction n as [|n IH]; cbn [parseUnary]; gives. destruct (Kind _); try apply gives_parsePrimary.
  - gives; [apply gives_numericLiteral|]. eapply gives_bind; [apply IH|]. intros e He. gives. by constructor.
  - gives. apply gives_expr. intros e He. gives. by constructor.
Qed.
Lemma gives_infix n tok prec left : args_given left → gives good (infix expr n tok prec left).
Proof using Hexpr.
  intros Hl.
  assert (Htwo : ∀ (f : Ast.Expr → Ast.Expr), (∀ r, args_given r → args_given (f r)) → gives good (r ← expr prec; mret (f r))).
  { intros f Hf. apply gives_expr. intros r Hr. apply gives_ret. by apply Hf. }
  assert (Happ : ∀ e r, arg_given e → args_given r → Forall arg_given (e :: walkExpr left ++ walkExpr r)).
  { intros e r He Hr. constructor; [done|]. apply Forall_app. by split. }
  assert (Hbetween : ∀ no, gives good (betweenTail expr prec left no)).
  { intros no. apply gives_expr. intros lo Hlo. gives. apply gives_expr. intros hi Hhi. gives. constructor; [done|]. cbn [app]. rewrite !Forall_app. by split_and!. }
  assert (Hin : ∀ no, gives good (inTail expr n left no)).
  { intros no. unfold inTail. gives. eapply gives_bind; [by apply gives_parseExprList|]. intros es Hes. gives. constructor; [done|]. cbn [app].
    apply Forall_app. split; [done|]. by apply walks_given. }
  unfold infix. destruct (binop_of (Kind tok)) as [op|]; [apply Htwo; intros r Hr; by apply Happ|].
  destruct (Kind tok); gives; try done; try (apply Htwo; intros r Hr; by apply Happ).
  - destruct (Kind _); gives; try done. apply Htwo. intros r Hr. by apply Happ.
  - by constructor.
Qed.
Lemma gives_exprLoop n left minPrec : args_given left → gives good (exprLoop expr n left minPrec).
Proof using Hexpr.
  revert left. induction n as [|n IH]; intros left Hl; cbn [exprLoop]; gives; [done|].
  eapply gives_bind; [by apply gives_infix|]. intros e He. by apply IH.
Qed.
End Grammar.

Lemma gives_parseExpr n p : gives (λ e, args_given e) (parseExpr n p).
Proof.
  revert p. induction n as [|n IH]; intros p; cbn [parseExpr]; gives. eapply gives_bind; [by apply gives_parseUnary|]. intros left Hl. by apply gives_exprLoop.
Qed.
Lemma Parse_given src stmt : Parse src = Ret stmt → stmt_given stmt.
Proof.
  unfold Parse. destruct (ParseStatement _ _) as [r l] eqn:E. cbn [fst]. intros ->. revert E. generalize (NewLexer src) as l0. intros l0 E.
  cut (gives stmt_given (ParseStatement (S (String.length src)))); [intros H; by eapply H|]. clear.
  unfold ParseStatement. gives. eapply gives_bind; [apply gives_parseSelect, gives_parseExpr|]. intros stmt Hs. gives. apply gives_seq. intros _.
  gives. match goal with |- context [Kind ?x] => destruct (Kind x) end; gives; done.
Qed.
