(* ===== verification/BuildQuery.v ===== *)
(** * Package planner: built plans are well formed

    Whatever the statement, [Build] reports an error or returns a plan whose
    names resolve node by node, as the optimizer and the physical planner assume. *)
From Stdlib Require Import ZArith Lia ZifyNat Ascii.
From stdpp Require Import base numbers list strings gmap.
From S2P Require Import Prelude Encoding Codec Float64 Schema Writer Reader Batch Lexer Strconv Ast Parser ParseGiven Format ExprWalk Logical Catalog Optimizer Prune PrunePlan OptimizeAnswer Build BuildNames BuildTables.
#[local] Open Scope Z_scope.

(** The columns of the tables have names of their own, no one is nameless, and
    none takes a name kept for computed arguments. *)
Record clean (st : symbolTable) : Prop := {
  cl_unique : NoDup (outs st);
  cl_named : ""%string ∉ outs st;
  cl_reserved : ∀ k, numbered "_agg_arg" k ∉ outs st
}.

Section Aggregates.
Context (st : symbolTable) (Hst : symbols_ok st) (Hclean : clean st).
Context (root : LogicalNode) (Hroot : rows_ok st root).

Lemma root_names name : name ∈ names_of root ↔ name ∈ outs st.
Proof using Hroot. by rewrite (rk_names _ _ Hroot). Qed.
Lemma root_bound e : bound_in (outs st) e → bound_in (names_of root) e.
Proof using Hroot.
  intros Hb. apply bound_reads with (names := outs st); [done|]. intros name Hin. cbn [wanted]. apply root_names. by eapply bound_cols.
Qed.

Definition aggNode (ab : aggBuilder) : LogicalNode := LAggregate root (ab_GroupBy ab) (ab_Aggs ab).
Abbreviation N ab := (names_of (aggNode ab)).
Record ab_ok (ab : aggBuilder) : Prop := {
  ao_groups : Forall (λ e, ∃ name, e = ColumnRefExpr "" name ∧ name ∈ names_of root) (ab_GroupBy ab);
  ao_aggs : Forall (agg_bound (names_of root)) (ab_Aggs ab);
  ao_cols : ∀ name, name ∈ groupCols ab → ColumnRefExpr "" name ∈ ab_GroupBy ab
}.
Definition ab_le (a b : aggBuilder) : Prop := ab_GroupBy b = ab_GroupBy a ∧ ∃ l, ab_Aggs b = ab_Aggs a ++ l.
Lemma ab_le_refl a : ab_le a a.
Proof using Type. split; [done|]. exists []. by rewrite app_nil_r. Qed.
Lemma ab_le_trans a b c : ab_le a b → ab_le b c → ab_le a c.
Proof using Type. intros [E1 [l1 H1]] [E2 [l2 H2]]. split; [congruence|]. exists (l1 ++ l2). by rewrite H2, H1, app_assoc. Qed.
Lemma N_split ab : N ab = (Name <$> omap (λ e, fieldNamed (OutputSchema root) (exprName e)) (ab_GroupBy ab)) ++ (ai_Alias <$> ab_Aggs ab).
Proof using Type. unfold aggNode. cbn [OutputSchema]. rewrite fmap_app. f_equal. by rewrite <- list_fmap_compose. Qed.
Lemma N_mono a b name : ab_le a b → name ∈ N a → name ∈ N b.
Proof using Type.
  rewrite !N_split. intros [-> [l ->]]. rewrite fmap_app, !elem_of_app. intuition.
Qed.
Lemma N_group ab name : ab_ok ab → name ∈ groupCols ab → name ∈ N ab.
Proof using Type.
  intros Hok Hn. rewrite N_split. apply elem_of_app. left. pose proof (ao_cols _ Hok _ Hn) as Hin.
  pose proof (ao_groups _ Hok) as Hg. rewrite Forall_forall in Hg. destruct (Hg _ Hin) as (n & [= <-] & Hr).
  destruct (fieldNamed_present _ _ Hr) as (f & Hf & En). apply list_elem_of_fmap. exists f. split; [done|].
  apply list_elem_of_omap. by exists (ColumnRefExpr "" name).
Qed.
Lemma N_alias ab a : a ∈ ab_Aggs ab → ai_Alias a ∈ N ab.
Proof using Type. intros Ha. rewrite N_split. apply elem_of_app. right. by apply list_elem_of_fmap_2. Qed.
Abbreviation bound ab e := (bound_in (N ab) e).
Lemma bound_ref ab name : name ∈ N ab → bound ab (ColumnRefExpr "" name).
Proof using Type. intros Hn. by constructor. Qed.

Lemma aggArgument_ok fn arg distinct :
  (arg = None → fn = "COUNT"%string) →
  safe_post (λ a, match a with None => fn = "COUNT"%string | Some x => bound_in (outs st) x end) (aggArgument st fn arg distinct).
Proof using Hst.
  intros Hn. unfold aggArgument. destruct arg as [a|]; [|by apply Hn].
  assert (H : safe_post (λ a, match a with None => fn = "COUNT"%string | Some x => bound_in (outs st) x end)
    (if containsAggregate a then Err (ErrMsg "planner: aggregate function calls cannot be nested") else a ← resolveColumns st a; Ret (Some a))).
  { destruct (containsAggregate a); [done|]. eapply safe_post_bind; [by apply resolveColumns_bound|]. done. }
  destruct a; try exact H. destruct (bool_decide (fn ≠ "COUNT"%string) || distinct) eqn:E; [done|]. apply orb_false_iff in E as [E%bool_decide_eq_false _].
  cbn [safe_post]. exact (dec_stable E).
Qed.
Lemma addAggregate_ok f arg distinct name ab :
  (arg = None → ToUpper f = "COUNT"%string) → ab_ok ab →
  safe_post (rewrites ab_ok ab_le ab (λ ab e, bound ab e)) (addAggregate st f arg distinct name ab).
Proof using Hst Hclean Hroot.
  intros Harg Hok. unfold addAggregate. destruct (distinct && _); [done|].
  eapply safe_post_bind; [by apply aggArgument_ok|]. intros a Ha.
  eapply (safe_post_bind (λ _, True)). { destruct (_ || _); [|done]. eapply safe_post_impl; [apply uniqueName_fresh|done]. }
  intros nm _. set (cols := match a with None => _ | Some _ => _ end).
  assert (Hcols : agg_bound (names_of root) (mkAggItem (ToUpper f) cols.1 cols.2 nm distinct)).
  { unfold agg_bound. cbn [ai_AggExpr ai_ColName ai_Func]. destruct a as [x|]; [|cbn; by rewrite decide_True].
    assert (Hx : bound_in (names_of root) x ∧ numbered "_agg_arg" (Z.of_nat (length (ab_Aggs ab))) ∉ names_of root).
    { split; [by apply root_bound|]. rewrite root_names. apply cl_reserved. exact Hclean. }
    destruct x; try exact Hx. cbn [fst snd cols].
    apply List.Forall_inv in Ha as [_ Hn]. rewrite decide_False; [by apply root_names|]. intros ->. by apply (cl_named st Hclean). }
  destruct cols as [ColName AggExpr_]. cbn [fst snd safe_post] in *. destruct Hok as [Hg Hag Hc]. split; [|split].
  - split; cbn [ab_GroupBy ab_Aggs groupCols]; [done| |done]. apply Forall_app. by split; [|constructor].
  - split; [done|]. by eexists.
  - apply bound_ref. match goal with |- nm ∈ N ?ab' => apply (N_alias ab' (mkAggItem (ToUpper f) ColName AggExpr_ nm distinct)) end.
    cbn. apply elem_of_app. right. by left.
Qed.
Lemma findOrAddAggregate_ok f arg distinct ab :
  (arg = None → ToUpper f = "COUNT"%string) → ab_ok ab →
  safe_post (rewrites ab_ok ab_le ab (λ ab e, bound ab e)) (findOrAddAggregate st f arg distinct ab).
Proof using Hst Hclean Hroot.
  intros Harg Hok. unfold findOrAddAggregate. eapply (safe_post_bind (λ _, True)).
  { destruct arg as [a|]; [|done].
    assert (H : safe_post (λ _, True) (if containsAggregate a then Ret ""%string else a ← resolveColumns st a; Ret (FormatExpr a))).
    { destruct (containsAggregate a); [done|]. eapply safe_post_bind; [by apply resolveColumns_bound|done]. }
    by destruct a. }
  intros key _. destruct (list_find _ _) as [[i a]|] eqn:E; [|by apply addAggregate_ok].
  apply list_find_Some in E as (Hi & _). cbn. split; [done|]. split; [apply ab_le_refl|]. apply bound_ref, N_alias. by eapply list_elem_of_lookup_2.
Qed.

(** Rewriting over the aggregate's output; [alias] gives expressions over the
    output of [ab0]. *)
Lemma rewriteAgg_ok alias ab0 e ab :
  (∀ lookup name sub, alias = Some lookup → lookup name = Some sub → bound ab0 sub) → ab_le ab0 ab →
  args_given e → ab_ok ab →
  safe_post (rewrites ab_ok ab_le ab (λ ab e, bound ab e)) (rewriteAgg st alias e ab).
Proof using Hst Hclean Hroot.
  intros Halias Hle He Hok. unfold rewriteAgg.
  eapply safe_post_impl; [apply (rewriteExpr_bound (rewriteRef st alias) arg_given (λ ab, ab_ok ab ∧ ab_le ab0 ab) ab_le (λ ab, N ab) ab_le_refl ab_le_trans N_mono); [|done|by split]|].
  - intros n ab1 Hn [Hok1 Hle1]. destruct n; try (split; [done|split; [apply ab_le_refl|done]]); cbn [rewriteRef].
    + pose proof (resolve_safe st Hst Table Name) as Hres. destruct (resolve st Table Name) as [b|err| |]; try done; cbn [safe_post] in *.
      * case_decide as Hb; [|done]. cbn. split; [done|]. split; [apply ab_le_refl|]. by apply bound_ref, N_group.
      * destruct alias as [lookup|]; [|done]. destruct (_ && _); [|done]. destruct (lookup Name) as [sub|] eqn:Es; [|done]. cbn.
        split; [done|]. split; [apply ab_le_refl|]. apply (bound_nodes ab_le (λ ab, N ab) N_mono ab0 ab1 _ Hle1). by eapply Halias.
    + eapply safe_post_bind; [apply findOrAddAggregate_ok; [by intros ->|exact Hok1]|]. intros [out ab2] (Hok2 & Hle2 & Hb). cbn in *.
      split; [split; [done|by eapply ab_le_trans]|]. by split.
  - intros [x ab'] ((Hok' & _) & Hle' & Hb). by split_and!.
Qed.

Lemma addGroup_ok ab gb : ab_ok ab → ab_Aggs ab = [] → safe_post (λ ab, ab_ok ab ∧ ab_Aggs ab = []) (addGroup st ab gb).
Proof using Hst Hroot.
  intros [Hg Ha Hc] Hnil. unfold addGroup. destruct (containsAggregate gb); [done|]. destruct gb; try done.
  pose proof (resolveColumns_bound st Hst (ColumnRefExpr Table Name)) as Hres. unfold resolveColumns in *. cbn [rewriteExpr resolveRef] in *.
  destruct (resolve st Table Name) as [b|err| |]; try done. cbn [mbind go_bind safe_post] in *. apply List.Forall_inv in Hres as [_ Hn].
  split; [|done]. split; cbn [ab_GroupBy ab_Aggs groupCols]; [| done|].
  - apply Forall_app. split; [done|]. constructor; [|done]. eexists. split; [done|]. by apply root_names.
  - intros name [->%elem_of_singleton|Hin]%elem_of_union; apply elem_of_app; [right; by left|left; by apply Hc].
Qed.
Lemma groups_ok gbs : safe_post (λ ab, ab_ok ab ∧ ab_Aggs ab = []) (foldM (addGroup st) (mkAggBuilder [] [] ∅ ∅) gbs).
Proof using Hst Hroot. clear Hclean.
  apply (safe_post_foldM (λ ab, ab_ok ab ∧ ab_Aggs ab = [])); [split; [|done]; split; cbn; [done..|]; intros name; set_solver|].
  intros ab gb [H1 H2]. by apply addGroup_ok.
Qed.
Definition items_given (items : list selectItem) : Prop := Forall (λ it, args_given (si_expr it)) items.
Lemma items_ok items acc ab :
  items_given items → ab_ok ab → Forall (λ e, bound ab e) acc →
  safe_post (λ p, ab_ok p.2 ∧ ab_le ab p.2 ∧ Forall (λ e, bound p.2 e) p.1 ∧ length p.1 = (length acc + length items)%nat)
    (foldM (addItem st) (acc, ab) items).
Proof using Hst Hclean Hroot.
  intros Hit. revert acc ab. induction Hit as [|it items Hi _ IH]; intros acc ab Hok Hacc; cbn [foldM].
  { split; [done|]. split; [apply ab_le_refl|]. split; [done|]. cbn. lia. }
  assert (H : safe_post (rewrites ab_ok ab_le ab (λ ab e, bound ab e))
    (match si_expr it with AggFuncExpr f arg distinct => addAggregate st f arg distinct (si_alias it) ab | e => rewriteAgg st None e ab end)).
  { destruct (si_expr it) eqn:Ee; try (eapply rewriteAgg_ok; [done|apply ab_le_refl|exact Hi|exact Hok]).
    apply addAggregate_ok; [|done]. intros ->. by apply List.Forall_inv in Hi. }
  unfold addItem at 1. eapply safe_post_bind.
  { eapply safe_post_bind; [exact H|]. intros [e ab1] (Hok1 & Hle1 & Hb). cbn [fst snd] in *.
    instantiate (1 := λ p, ab_ok p.2 ∧ ab_le ab p.2 ∧ Forall (λ e, bound p.2 e) p.1 ∧ length p.1 = S (length acc)).
    cbn [safe_post fst snd]. split; [done|]. split; [done|]. split; [|rewrite length_app; cbn; lia]. apply Forall_app. split; [|by constructor].
    eapply Forall_impl; [exact Hacc|]. intros x. by apply (bound_nodes ab_le (λ ab, N ab) N_mono). }
  intros [acc1 ab1] (Hok1 & Hle1 & Hb1 & Hl1). cbn [fst snd] in *. eapply safe_post_impl; [by apply IH|].
  intros [acc2 ab2] (? & ? & ? & Hl2). cbn [fst snd] in *. split; [done|]. split; [by eapply ab_le_trans|]. split; [done|]. cbn [length]. lia.
Qed.

Lemma agg_resolves ab : ab_ok ab → names_resolve (aggNode ab) ∧ whole_always (aggNode ab).
Proof using Hroot Hclean.
  intros [Hg Ha _]. split.
  - split; [apply Hroot|]. split; [|split; [done|]].
    + eapply Forall_impl; [exact Hg|]. intros e (name & -> & Hn). by constructor.
    + intros _. rewrite (rk_names _ _ Hroot). apply Hclean.
  - intros needed. apply Hroot.
Qed.
End Aggregates.


(** ** The query behind the SELECT list *)

Section Query.
Context (st : symbolTable) (Hst : symbols_ok st) (Hclean : clean st).
Abbreviation inames q := (names_of (inputNode q)).
Definition input_ok (q : queryInput) : Prop :=
  match q with
  | FromRows child => rows_ok st child
  | FromGroups child ab having =>
      rows_ok st child ∧ ab_ok child ab ∧ ∀ h, having = Some h → bound_in (names_of (aggNode child ab)) h
  end.
Definition input_le (q q' : queryInput) : Prop :=
  match q, q' with
  | FromRows child, FromRows child' => child' = child
  | FromGroups child ab having, FromGroups child' ab' having' => child' = child ∧ having' = having ∧ ab_le ab ab'
  | _, _ => False
  end.
Lemma input_le_refl q : input_le q q.
Proof using Type. destruct q; cbn; [done|]. split_and!; [done..|]. apply ab_le_refl. Qed.
Lemma inames_groups child ab having : inames (FromGroups child ab having) = names_of (aggNode child ab).
Proof using Type. by destruct having. Qed.
Lemma bound_le q q' e : input_le q q' → bound_in (inames q) e → bound_in (inames q') e.
Proof using Type.
  destruct q as [child|child ab having], q' as [child'|child' ab' having']; cbn [input_le]; try done; [by intros ->|].
  intros (-> & -> & Hle). rewrite !inames_groups. by apply (bound_nodes ab_le (λ ab, names_of (aggNode child ab)) (N_mono child)).
Qed.
Lemma input_resolves q : input_ok q → names_resolve (inputNode q) ∧ whole_always (inputNode q).
Proof using Hclean.
  destruct q as [child|child ab having]; cbn [input_ok]; [intros [Hr Ha _]; by split|].
  intros (Hc & Hab & Hh). destruct (agg_resolves st Hclean child Hc ab Hab) as [H1 H2].
  destruct having as [h|]; [|done]. split; [split; [done|by apply Hh]|]. intros needed. exact (H2 (addNeeded needed (collectCols h))).
Qed.

Record query_ok (q : selectQuery) : Prop := {
  qo_input : input_ok (q_input q);
  qo_exprs : Forall (λ e, bound_in (inames (q_input q)) e) (q_exprs q);
  qo_length : length (q_exprs q) = length (q_items q)
}.
Lemma buildAggregation_ok child groupBy having items :
  rows_ok st child → (∀ h, having = Some h → args_given h) → items_given items →
  safe_post (λ q, query_ok q ∧ q_items q = items) (buildAggregation st child groupBy having items).
Proof using Hst Hclean.
  intros Hc Hh Hi. unfold buildAggregation. eapply safe_post_bind; [by apply groups_ok|]. intros ab [Hab _].
  eapply safe_post_bind; [by apply (items_ok st Hst Hclean child Hc)|]. intros [exprs ab1] (Hab1 & _ & Hb1 & Hl). cbn [fst snd length Nat.add] in *.
  destruct having as [h|]; cbn [safe_post]; [|split; [|done]; split; cbn [q_input q_exprs q_items input_ok inputNode]; [by split_and!|done|done]].
  eapply safe_post_bind.
  - apply (rewriteAgg_ok st Hst Hclean child Hc _ ab1); [|apply ab_le_refl|by apply Hh|done].
    intros lookup name sub [= <-]. unfold aliasOf. destruct (list_find _ _) as [[i [it x]]|] eqn:E; [|done]. intros [= <-].
    apply list_find_Some in E as (Hx & _ & _). apply lookup_zip_Some in Hx as [_ Hx]. by eapply (Forall_lookup_1 _ _ _ _ Hb1).
  - intros [pred ab2] (Hab2 & Hle & Hp). cbn [fst snd safe_post] in *. split; [|done].
    split; cbn [q_input q_exprs q_items input_ok]; [|rewrite inames_groups|done].
    + split_and!; [done..|]. by intros ? [= <-].
    + eapply Forall_impl; [exact Hb1|]. intros x. by apply (bound_nodes ab_le (λ ab, names_of (aggNode child ab)) (N_mono child)).
Qed.
Lemma buildScalarSelect_ok child items :
  rows_ok st child → safe_post (λ q, query_ok q ∧ q_items q = items) (buildScalarSelect st child items).
Proof using Hst.
  intros Hc. unfold buildScalarSelect. eapply (safe_post_bind (λ exprs, Forall (λ e, bound_in (names_of child) e) exprs ∧ length exprs = length items)).
  - cut (∀ acc, Forall (λ e, bound_in (names_of child) e) acc →
      safe_post (λ exprs, Forall (λ e, bound_in (names_of child) e) exprs ∧ length exprs = (length acc + length items)%nat)
        (foldM (λ acc it, e ← resolveScalar st (si_expr it); Ret (acc ++ [e])) acc items)); [intros H; by apply H|].
    induction items as [|it items IH]; intros acc Ha; cbn [foldM]; [cbn; split; [done|lia]|].
    eapply (safe_post_bind (λ acc', Forall (λ e, bound_in (names_of child) e) acc' ∧ length acc' = S (length acc))).
    + eapply safe_post_bind; [by apply resolveScalar_bound|]. intros e He. cbn. split; [|rewrite length_app; cbn; lia].
      apply Forall_app. split; [done|]. constructor; [|done]. by eapply root_bound.
    + intros acc' [Ha' Hl]. eapply safe_post_impl; [by apply IH|]. intros es [Hes ->]. split; [done|]. cbn [length]. lia.
  - intros exprs [He Hl]. cbn. split; [|done]. by split.
Qed.
Lemma orderExpr_ok q e : input_ok q → args_given e →
  safe_post (λ p, input_ok p.2 ∧ input_le q p.2 ∧ bound_in (inames p.2) p.1) (orderExpr st q e).
Proof using Hst Hclean.
  intros Hq He. destruct q as [child|child ab having]; cbn [orderExpr input_ok] in *.
  - eapply safe_post_bind; [by apply resolveScalar_bound|]. intros x Hx. cbn. split; [done|]. split; [done|]. by eapply root_bound.
  - destruct Hq as (Hc & Hab & Hh). eapply safe_post_bind.
    + apply (rewriteAgg_ok st Hst Hclean child Hc _ ab); [done|apply ab_le_refl|done|done].
    + intros [x ab2] (Hab2 & Hle & Hx). cbn [fst snd safe_post input_ok input_le] in *. rewrite inames_groups. split_and!; try done.
      intros h E. specialize (Hh h E). by apply (bound_nodes ab_le (λ ab, names_of (aggNode child ab)) (N_mono child) ab ab2).
Qed.
End Query.
