(* ===== verification/BuildFinish.v ===== *)
(** * Package planner: the top of a plan

    The projection names each SELECT entry apart, ORDER BY reads columns the
    projection emits, and the last projection restores the headers. *)
From Stdlib Require Import ZArith Lia ZifyNat Ascii.
From stdpp Require Import base numbers list strings gmap.
From S2P Require Import Prelude Encoding Codec Float64 Schema Writer Reader Batch Lexer Strconv Ast Parser ParseGiven Format ExprWalk Logical Catalog Optimizer Prune PruneScan PrunePlan OptimizeAnswer Build BuildNames BuildTables BuildQuery.
#[local] Open Scope Z_scope.

(** ** Names of the projection *)

Abbreviation aliases items := (pi_Alias <$> items).
Record named (items : list ProjectItem) (used : gset string) : Prop := {
  nm_unique : NoDup (aliases items);
  nm_used : ∀ name, name ∈ used ↔ name ∈ aliases items
}.
Lemma named_snoc items used name e t :
  named items used → name ∉ used → named (items ++ [mkItem name e t]) ({[name]} ∪ used).
Proof.
  intros [Hu Hn] Hnew. split.
  - rewrite fmap_app. apply NoDup_app. split; [done|]. split; [|apply NoDup_singleton].
    intros x Hx ->%list_elem_of_singleton. by apply Hnew, Hn.
  - intros x. rewrite fmap_app, elem_of_app, elem_of_union, elem_of_singleton, Hn. cbn [fmap list_fmap]. rewrite list_elem_of_singleton. tauto.
Qed.
Lemma nameItems_ok ps items used :
  named items used →
  safe_post (λ p, named p.1 p.2 ∧ pi_Expr <$> p.1 = (pi_Expr <$> items) ++ ps.*2) (foldM nameItem (items, used) ps).
Proof.
  revert items used. induction ps as [|[it e] ps IH]; intros items used Hn; cbn [foldM].
  { cbn. by rewrite app_nil_r. }
  unfold nameItem at 1. cbn [fst snd].
  eapply (safe_post_bind (λ p, named p.1 p.2 ∧ pi_Expr <$> p.1 = (pi_Expr <$> items) ++ [e])).
  - eapply (safe_post_bind (λ name, name ∉ used)).
    + case_decide; [apply uniqueName_fresh|done].
    + intros name Hnew. cbn. split; [by apply named_snoc|]. by rewrite fmap_app.
  - intros [items1 used1] [Hn1 He1]. cbn [fst snd] in *. eapply safe_post_impl; [by apply IH|].
    intros [items2 used2] [Hn2 He2]. split; [done|]. rewrite He2, He1. cbn [fmap list_fmap snd]. by rewrite <- app_assoc.
Qed.

(** ** ORDER BY *)

Section Order.
Context (st : symbolTable) (Hst : symbols_ok st) (Hclean : clean st).
Context (q : selectQuery) (Hq : query_ok st q) (distinct : bool) (shown : list ProjectItem).
Context (Hshown : length shown = length (q_items q)).
Abbreviation inames q := (names_of (inputNode q)).

(** Keys so far: the entries shown come first, and only without DISTINCT do
    others follow. *)
Record ordering_ok (o : ordering) : Prop := {
  og_input : input_ok st (or_input o);
  og_named : named (or_items o) (or_used o);
  og_bound : Forall (λ it, bound_in (inames (or_input o)) (pi_Expr it)) (or_items o);
  og_by : ∀ name, name ∈ sortCols (or_by o) → name ∈ aliases (or_items o);
  og_shown : ∃ hidden, or_items o = shown ++ hidden ∧ (distinct = true → hidden = [])
}.
Lemma namedTarget_ok name i entries found (n : nat) :
  (i + length entries = n)%nat → (∀ p, found = Some p → (p.1 < n)%nat) →
  safe_post (λ o, ∀ k, o = Some k → (k < n)%nat) (namedTarget name i entries found).
Proof using Type. clear Hshown.
  revert i found. induction entries as [|[it e] entries IH]; intros i found Hi Hf; cbn [namedTarget length] in *.
  { intros k. destruct found as [p|]; [|done]. intros [= <-]. by apply Hf. }
  case_decide; [apply IH; [lia|done]|]. destruct found as [[k f]|].
  - case_decide; [done|]. apply IH; [lia|done].
  - apply IH; [lia|]. intros p [= <-]. cbn. lia.
Qed.
Lemma orderTarget_ok e :
  safe_post (λ o, ∀ k, o = Some k → (k < length (q_items q))%nat) (orderTarget q e (length (q_items q))).
Proof using Hq. clear Hshown.
  unfold orderTarget. destruct e; try done.
  - case_decide; [done|]. apply namedTarget_ok; [|done]. rewrite length_take, length_zip_with, (qo_length st q Hq). lia.
  - destruct ((Value <? 1) || (Z.of_nat (length (q_items q)) <? Value)) eqn:E; [done|]. apply orb_false_iff in E as [E1%Z.ltb_ge E2%Z.ltb_ge].
    intros k [= <-]. lia.
Qed.
Lemma matchItem_lt e items i : matchItem e items = Some i → (i < length items)%nat.
Proof using Type.
  unfold matchItem. destruct (list_find _ _) as [[k it]|] eqn:E; [|done]. intros [= <-]. apply list_find_Some in E as (Hk & _).
  by eapply lookup_lt_Some.
Qed.
Lemma keyed_ok o idx it desc :
  ordering_ok o → or_items o !! idx = Some it →
  ordering_ok (mkOrdering (or_input o) (or_items o) (or_used o) (or_by o ++ [mkOrderBy (ColumnRefExpr "" (pi_Alias it)) desc])).
Proof using Type.
  intros [Hi Hn Hb Hby Hs] Hit. split; cbn [or_input or_items or_used or_by]; try done.
  intros name. unfold sortCols. rewrite fmap_app, concat_app, elem_of_app. intros [H|H]; [by apply Hby|].
  cbn in H. apply list_elem_of_singleton in H as ->. apply list_elem_of_fmap_2. by eapply list_elem_of_lookup_2.
Qed.
Lemma orderKey_ok o ob :
  (let '(mkOrderBy x _) := ob in args_given x) → ordering_ok o → safe_post ordering_ok (orderKey st q distinct o ob).
Proof using Hst Hclean Hq Hshown.
  destruct ob as [x desc]. intros Hx Ho. cbn [orderKey]. eapply safe_post_bind; [apply orderTarget_ok|]. intros target Ht.
  eapply (safe_post_bind (λ p, ordering_ok p.1 ∧ (p.2 < length (or_items p.1))%nat)).
  - destruct target as [i|].
    + cbn. split; [done|]. destruct (og_shown o Ho) as (hidden & -> & _). rewrite length_app, Hshown. specialize (Ht i eq_refl). lia.
    + destruct Ho as [Hi Hn Hb Hby (hidden & Es & Hd)]. eapply safe_post_bind; [by apply (orderExpr_ok st Hst Hclean)|].
      intros [resolved input] (Hi' & Hle & Hr). cbn [fst snd or_input or_items or_used or_by] in *.
      assert (Hb' : Forall (λ it, bound_in (inames input) (pi_Expr it)) (or_items o)).
      { eapply Forall_impl; [exact Hb|]. intros it. by eapply bound_le. }
      destruct (matchItem resolved (or_items o)) as [i|] eqn:Em.
      * cbn. split; [split; try done; by exists hidden|]. by eapply matchItem_lt.
      * destruct distinct eqn:Ed; [done|]. eapply safe_post_bind; [apply uniqueName_fresh|]. intros name Hnew. cbn [safe_post fst snd or_items].
        split; [|rewrite length_app; cbn; lia]. split; cbn [or_input or_items or_used or_by]; [done|by apply named_snoc| | |].
        -- apply Forall_app. split; [done|]. by constructor.
        -- intros n Hin%Hby. rewrite fmap_app. apply elem_of_app. by left.
        -- exists (hidden ++ [mkItem name resolved noType]). rewrite Es, <- app_assoc. by rewrite Ed.
  - intros [o' i] [Ho' Hlt]. cbn [fst snd] in *. destruct (lookup_lt_is_Some_2 _ _ Hlt) as [it Hit].
    rewrite (index_Ret _ _ _ Hit). cbn [mbind go_bind safe_post]. by eapply keyed_ok.
Qed.
End Order.

(** ** The headers *)

Lemma isIdentity_aliases items schema : isIdentityProject items schema = true → aliases items = Name <$> schema.
Proof.
  revert schema. induction items as [|it items IH]; intros [|f schema]; try done. cbn [isIdentityProject fmap list_fmap].
  intros [H1 H2]%andb_true_iff. f_equal; [|by apply IH]. destruct (pi_Expr it); try done. apply andb_true_iff in H1 as [_ H1].
  by apply bool_decide_eq_true in H1.
Qed.
Lemma finalItems_ok items projected schema :
  length items = length projected → (length projected <= length schema)%nat →
  ∃ final, finalItems items projected schema = Ret final ∧
    pi_Expr <$> final = (ColumnRefExpr "" <$> aliases projected) ∧ aliases final = si_alias <$> items.
Proof.
  revert projected schema. induction items as [|it items IH]; intros [|p projected] [|f schema] H1 H2; cbn [length] in *; try lia; try (by exists []).
  destruct (IH projected schema ltac:(lia) ltac:(lia)) as (final & E & He & Ha). eexists. cbn [finalItems]. rewrite E. cbn [mbind go_bind].
  split; [done|]. cbn [fmap list_fmap pi_Expr pi_Alias] in *. by rewrite <- He, <- Ha.
Qed.
Lemma renamed_false (items : list selectItem) ps :
  existsb (λ '(it, p), bool_decide (pi_Alias p ≠ si_alias it)) (zip items ps) = false → length items = length ps →
  aliases ps = si_alias <$> items.
Proof.
  revert ps. induction items as [|it items IH]; intros [|p ps]; try done. cbn [zip zip_with existsb length fmap list_fmap].
  intros [H1%bool_decide_eq_false H2]%orb_false_iff [= Hl]. f_equal; [|by apply IH]. by apply dec_stable.
Qed.

(** ** DISTINCT, ORDER BY and LIMIT over the projection *)

Definition covers (needed : needed_set) (names : list string) : Prop := ∀ name, name ∈ names → wanted needed name.
Lemma stack_ok base (distinct : bool) by_ limit offset :
  names_resolve base → whole_always base → NoDup (names_of base) → (∀ name, name ∈ sortCols by_ → name ∈ names_of base) →
  let root := if distinct then LDistinct base else base in
  let root := match by_ with [] => root | b :: bs => LSort root (b :: bs) end in
  let root := limitNode limit offset root in
  names_resolve root ∧ names_of root = names_of base ∧
  ∀ needed, (distinct = true → covers needed (names_of base)) → distinct_whole needed root.
Proof.
  intros Hr Hw Hu Hby. cbv zeta.
  set (root1 := if distinct then _ else base).
  assert (H1 : names_resolve root1 ∧ names_of root1 = names_of base ∧
    ∀ needed, (distinct = true → covers needed (names_of base)) → distinct_whole needed root1).
  { unfold root1. destruct distinct; (split; [done|]; split; [done|]); [|by intros needed _]. intros needed Hc. split; [apply Hw|].
    destruct needed as [ns|]; [|done]. split; [done|]. apply Forall_forall. by apply Hc. }
  set (root2 := match by_ with [] => root1 | _ => _ end).
  assert (H2 : names_resolve root2 ∧ names_of root2 = names_of base ∧
    ∀ needed, (distinct = true → covers needed (names_of base)) → distinct_whole needed root2).
  { unfold root2. destruct H1 as (Hr1 & Hn1 & Hw1). destruct by_ as [|b by_]; [done|]. split; [|split; [done|]].
    - split; [done|]. apply Forall_forall. rewrite Hn1. exact Hby.
    - intros needed Hc. apply Hw1. intros Hd. specialize (Hc Hd). destruct needed as [ns|]; [|done]. intros name Hin. cbn [addNeeded wanted].
      apply elem_of_uniqueStrings, elem_of_app. left. by apply Hc. }
  destruct H2 as (Hr2 & Hn2 & Hw2). unfold limitNode. by destruct limit, offset.
Qed.

Section Finish.
Context (st : symbolTable) (Hst : symbols_ok st) (Hclean : clean st).
Lemma projection_ok child items :
  names_resolve child ∧ whole_always child → Forall (λ it, bound_in (names_of child) (pi_Expr it)) items →
  let base := if isIdentityProject items (OutputSchema child) then child else LProject child items in
  names_resolve base ∧ whole_always base ∧ names_of base = aliases items.
Proof using Type.
  intros [Hr Hw] Hb. cbv zeta. destruct (isIdentityProject items (OutputSchema child)) eqn:E; [by rewrite (isIdentity_aliases _ _ E)|].
  split; [by split|]. split; [by intros needed; apply Hw|]. cbn [OutputSchema]. by rewrite <- list_fmap_compose.
Qed.
Lemma finish_ok q distinct orderBy limit offset :
  query_ok st q → Forall order_given orderBy →
  safe_post (λ root, prunable root ∧ names_of root = si_alias <$> q_items q) (finish st q distinct orderBy limit offset).
Proof using Hst Hclean.
  intros Hq Hob. unfold finish.
  eapply safe_post_bind; [apply (nameItems_ok _ [] ∅); split; [by constructor|set_solver]|]. intros [shown used] [Hn He]. cbn [fst snd] in *.
  assert (Hl : length shown = length (q_items q)).
  { apply (f_equal length) in He. rewrite length_fmap in He. rewrite He. cbn. rewrite length_fmap, length_zip_with, (qo_length st q Hq). lia. }
  assert (He' : pi_Expr <$> shown = q_exprs q). { rewrite He. cbn. apply snd_zip. rewrite (qo_length st q Hq). done. }
  cbv zeta. eapply (safe_post_bind (ordering_ok st distinct shown)).
  - revert Hob. set (o0 := mkOrdering (q_input q) shown used []).
    assert (H0 : ordering_ok st distinct shown o0).
    { split; cbn [o0 or_input or_items or_used or_by]; [apply Hq|done| |by intros ? ?%elem_of_nil|exists []; by rewrite app_nil_r].
      apply (proj1 (Forall_fmap pi_Expr (λ e, bound_in (names_of (inputNode (q_input q))) e) shown)). rewrite He'. apply Hq. }
    revert H0. generalize o0. induction orderBy as [|ob obs IH]; intros o Ho Hob; cbn [foldM]; [done|]. apply List.Forall_cons_iff in Hob as [H1 H2].
    eapply safe_post_bind; [by apply (orderKey_ok st Hst Hclean q Hq distinct shown Hl)|]. intros o' Ho'. by apply IH.
  - intros o [Hi Hno Hb Hby (hidden & Es & Hd)]. set (child := inputNode (or_input o)) in *. set (items := typeItem (OutputSchema child) <$> or_items o).
    assert (Ha : aliases items = aliases (or_items o)) by (unfold items; rewrite <- list_fmap_compose; by apply list_fmap_ext).
    destruct (projection_ok child items) as (Hr & Hw & Hnb).
    { by apply (input_resolves st Hclean). }
    { unfold items. apply Forall_fmap. eapply Forall_impl; [exact Hb|]. by intros it. }
    set (base := if isIdentityProject items _ then child else _) in *.
    destruct (stack_ok base distinct (or_by o) limit offset) as (Hr3 & Hn3 & Hw3); [done|done|rewrite Hnb, Ha; apply Hno|intros name Hin; rewrite Hnb, Ha; by apply Hby|].
    set (root := limitNode _ _ _) in *. rewrite Hnb in Hn3, Hw3.
    assert (Hlen : length items = (length shown + length hidden)%nat) by (unfold items; rewrite length_fmap, Es, length_app; done).
    destruct (existsb _ _ || _) eqn:Er.
    + destruct (finalItems_ok (q_items q) (take (length shown) items) (OutputSchema root)) as (final & Ef & Hfe & Hfa).
      { rewrite length_take. lia. }
      { apply (f_equal length) in Hn3. rewrite !length_fmap in Hn3. rewrite length_take. lia. }
      rewrite Ef. cbn [mbind go_bind safe_post].
      assert (Hfin : Forall (λ pe, ∃ name, pi_Expr pe = ColumnRefExpr "" name ∧ name ∈ aliases items) final).
      { apply (proj1 (Forall_fmap pi_Expr (λ e, ∃ name, e = ColumnRefExpr "" name ∧ name ∈ aliases items) final)). rewrite Hfe.
        apply Forall_fmap, Forall_forall. intros name Hin. exists name. split; [done|].
        apply list_elem_of_fmap in Hin as (p & -> & Hp). apply list_elem_of_fmap_2. by eapply subseteq_take. }
      split; [split|].
      * split; [done|]. eapply Forall_impl; [exact Hfin|]. intros pe (name & -> & Hin). constructor; [|done]. split; [done|]. cbn [wanted]. by rewrite Hn3.
      * cbn [distinct_whole]. apply Hw3. intros ->. rewrite (Hd eq_refl) in *. cbn [length] in Hlen.
        intros name Hin. cbn [wanted]. apply elem_of_uniqueStrings. rewrite list_fmap_compose, Hfe, take_ge by lia.
        apply list_elem_of_In, in_concat. exists [name]. split; [|by left]. apply list_elem_of_In.
        rewrite <- list_fmap_compose. apply list_elem_of_fmap. by exists name.
      * cbn [OutputSchema]. rewrite <- list_fmap_compose. exact Hfa.
    + apply orb_false_iff in Er as [Er1 Er2%Nat.ltb_ge]. cbn [safe_post].
      assert (Hli : length (q_items q) = length items) by lia.
      split; [split; [done|by apply Hw3]|]. rewrite Hn3. by apply renamed_false.
Qed.
End Finish.
