(* ===== verification/BuildPlan.v ===== *)
(** * Package planner: every statement is planned or reported

    [Build] on any statement, catalog and files ends in an error or in a plan the
    optimizer and the physical planner accept, headed as the SELECT list says. *)
From Stdlib Require Import ZArith Lia ZifyNat Ascii.
From stdpp Require Import base numbers list strings gmap.
From S2P Require Import Prelude Encoding Codec Float64 Schema Writer Reader Batch Lexer Strconv Ast Parser ParseGiven Format ExprWalk Logical Physical Catalog Optimizer Prune PrunePlan OptimizeAnswer Build BuildNames BuildTables BuildQuery BuildFinish.
#[local] Open Scope Z_scope.

(** ** Plain column names *)

Definition dot : ascii := "."%char.
Definition undotted (s : string) : Prop := ¬ dot ∈ String.list_ascii_of_string s.
(** A column name that cannot be taken for a qualified or a generated one. *)
Definition plain (name : string) : Prop :=
  name ≠ ""%string ∧ undotted name ∧ ∀ k, name ≠ numbered "_agg_arg" k.
Definition plain_table (schema : Schema) : Prop := NoDup (Name <$> schema) ∧ Forall plain (Name <$> schema).

Lemma dotted_inj {A} (x : A) a b c d : x ∉ b → x ∉ d → a ++ x :: b = c ++ x :: d → a = c ∧ b = d.
Proof.
  intros Hb Hd. revert c. induction a as [|y a IH]; intros [|z c]; cbn.
  - by intros [= ->].
  - intros [= -> E]. destruct Hb. rewrite E. apply elem_of_app. right. by left.
  - intros [= <- E]. destruct Hd. rewrite <- E. apply elem_of_app. right. by left.
  - intros [= -> [-> ->]%IH]. done.
Qed.
Lemma list_ascii_append a b : String.list_ascii_of_string (a +:+ b) = String.list_ascii_of_string a ++ String.list_ascii_of_string b.
Proof. induction a as [|c a IH]; [done|]. cbn. by rewrite <- IH. Qed.
Lemma string_lists a b : String.list_ascii_of_string a = String.list_ascii_of_string b → a = b.
Proof. intros E. by rewrite <- (String.string_of_list_ascii_of_string a), E, String.string_of_list_ascii_of_string. Qed.
Lemma qualified_inj t a u b :
  undotted a → undotted b →
  t +:+ "." +:+ a = u +:+ "." +:+ b → t = u ∧ a = b.
Proof.
  intros Ha Hb E. apply (f_equal String.list_ascii_of_string) in E. rewrite !list_ascii_append in E. cbn in E.
  apply dotted_inj in E as [E1 E2]; [|done..]. by split; apply string_lists.
Qed.
Lemma qualified_dot t a : ¬ undotted (t +:+ "." +:+ a).
Proof. unfold undotted. rewrite !list_ascii_append. intros H. apply H, elem_of_app. right. by left. Qed.
Lemma fmtDigits_dot fuel v acc : 0 ≤ v → dot ∉ acc → dot ∉ fmtDigits fuel v acc.
Proof.
  revert v acc. induction fuel as [|fuel IH]; intros v acc Hv Hacc; cbn [fmtDigits]; [done|].
  assert (Hd : dot ∉ digit_char (v mod 10) :: acc).
  { intros [E|H]%elem_of_cons; [|done]. assert (Hm : 0 ≤ v mod 10 < 10) by (apply Z.mod_pos_bound; lia).
    apply (f_equal nat_of_ascii) in E. pose proof (digit_char_value _ Hm) as Hv'. rewrite <- E in Hv'. change (nat_of_ascii dot) with 46%nat in Hv'. lia. }
  destruct (v <? 10); [done|]. apply IH; [apply Z.div_pos; lia|done].
Qed.
Lemma numbered_dot stem k : undotted stem → undotted (numbered stem k).
Proof.
  intros Hs. unfold undotted, numbered, show, text_of. rewrite !list_ascii_append, !String.list_ascii_of_string_of_list_ascii.
  assert (Hf : dot ∉ FormatInt k).
  { unfold FormatInt. assert (H : ∀ v, 0 ≤ v → dot ∉ fmtNat v).
    { intros v Hv. apply fmtDigits_dot; [done|]. by intros ?%elem_of_nil. }
    destruct (Z.ltb_spec k 0); [|by apply H]. intros [E|Hin]%elem_of_cons; [done|]. by eapply H; [|exact Hin]; lia. }
  cbn. rewrite elem_of_app. intros [H|[H|H]%elem_of_cons]; done.
Qed.

(** ** The columns of the tables have names of their own *)

Lemma nameTables_unique refs seen names : nameTables seen refs = Ret names → NoDup seen → NoDup names.
Proof.
  revert seen. induction refs as [|ref refs IH]; intros seen; cbn [nameTables]; [by intros [= <-]|].
  case_decide as Hd; [done|]. intros H Hs. eapply IH; [exact H|]. apply NoDup_app. split; [done|]. split; [|apply NoDup_singleton].
  by intros x Hx ->%list_elem_of_singleton.
Qed.
Lemma occurrences_twice schemas t u s1 s2 name :
  schemas !! t = Some s1 → schemas !! u = Some s2 → (t < u)%nat → name ∈ Name <$> s1 → name ∈ Name <$> s2 →
  (1 < occurrences schemas name)%nat.
Proof.
  assert (H1 : ∀ l, name ∈ l → (1 <= length (filter (λ n, n = name) l))%nat).
  { intros l Hin. destruct (filter _ l) eqn:E; [|cbn; lia]. exfalso.
    assert (name ∈ filter (λ n, n = name) l) as Hf by by apply list_elem_of_filter. rewrite E in Hf. by apply elem_of_nil in Hf. }
  intros Ht Hu Hlt Hn1 Hn2. unfold occurrences. rewrite <- (take_drop (S t) schemas), concat_app, fmap_app, filter_app, length_app.
  rewrite (take_S_r _ _ _ Ht), concat_app, fmap_app, filter_app, length_app. cbn [concat]. rewrite app_nil_r.
  assert (Hd : name ∈ Name <$> concat (drop (S t) schemas)).
  { apply list_elem_of_fmap in Hn2 as (f & -> & Hf). apply list_elem_of_fmap_2, list_elem_of_In, in_concat. exists s2.
    split; apply list_elem_of_In; [|done]. apply (list_elem_of_lookup_2 _ (u - S t)). rewrite lookup_drop. by replace (S t + (u - S t))%nat with u by lia. }
  pose proof (H1 _ Hn1). pose proof (H1 _ Hd). lia.
Qed.

Section Symbols.
Context (schemas : list Schema) (refs : list Ast.TableRef) (st : symbolTable).
Context (Hl : length schemas = length refs) (Hst : newSymbolTable schemas refs = Ret st) (Hplain : Forall plain_table schemas).

Definition outName (t : nat) (name : string) : string :=
  if decide (1 < occurrences schemas name)%nat then default ""%string (tableNames st !! t) +:+ "." +:+ name else name.
Lemma table_outs_names t :
  table_outs st t = outName t <$> (Name <$> default [] (schemas !! t)).
Proof using Hl Hst.
  destruct (newSymbolTable_spec _ _ _ Hl Hst) as (_ & Hlen & _ & Hcol). unfold table_outs.
  destruct (schemas !! t) as [schema|] eqn:E; cbn [default].
  - destruct (Hcol t schema E) as (bs & -> & Hb). cbn [default]. clear -Hb. induction Hb as [|f b schema bs [_ Hf] _ IH]; [done|].
    cbn [fmap list_fmap id]. f_equal; [exact Hf|exact IH].
  - apply lookup_ge_None in E. rewrite lookup_ge_None_2 by lia. done.
Qed.
Lemma table_out t name :
  name ∈ table_outs st t → ∃ schema n, schemas !! t = Some schema ∧ n ∈ Name <$> schema ∧ plain n ∧ name = outName t n.
Proof using Hl Hst Hplain.
  rewrite table_outs_names. destruct (schemas !! t) as [schema|] eqn:E; [|by intros ?%elem_of_nil]. cbn [default].
  intros (n & -> & Hn)%list_elem_of_fmap. exists schema, n. split_and!; try done.
  destruct (Forall_lookup_1 _ _ _ _ Hplain E) as [_ Hp]. rewrite Forall_forall in Hp. by apply Hp.
Qed.
Lemma tableNames_unique t u name : tableNames st !! t = Some name → tableNames st !! u = Some name → t = u.
Proof using Hst.
  unfold newSymbolTable in Hst. destruct (nameTables [] refs) as [names| | |] eqn:En; try done. injection Hst as <-. cbn [tableNames].
  intros Ht Hu. eapply NoDup_lookup; [|exact Ht|exact Hu]. eapply nameTables_unique; [exact En|constructor].
Qed.
Lemma out_table t u name : name ∈ table_outs st t → name ∈ table_outs st u → t = u.
Proof using Hl Hst Hplain.
  intros (s1 & a & Hs1 & Ha & (_ & Hda & _) & ->)%table_out (s2 & b & Hs2 & Hb & (_ & Hdb & _) & E)%table_out.
  destruct (newSymbolTable_spec _ _ _ Hl Hst) as (_ & _ & Hnames & _). unfold outName in E. case_decide as H1; case_decide as H2.
  - apply qualified_inj in E as [E _]; [|done..].
    destruct (lookup_lt_is_Some_2 (tableNames st) t) as [x Hx]; [apply lookup_lt_Some in Hs1; lia|].
    destruct (lookup_lt_is_Some_2 (tableNames st) u) as [y Hy]; [apply lookup_lt_Some in Hs2; lia|].
    rewrite Hx, Hy in E. cbn in E. subst y. by eapply tableNames_unique.
  - subst b. by destruct (qualified_dot (default ""%string (tableNames st !! t)) a).
  - subst a. by destruct (qualified_dot (default ""%string (tableNames st !! u)) b).
  - subst b. destruct (lt_eq_lt_dec t u) as [[Hlt|Heq]|Hlt]; [|done|].
    + destruct H1. by eapply occurrences_twice; [exact Hs1|exact Hs2|..].
    + destruct H1. by eapply occurrences_twice; [exact Hs2|exact Hs1|..].
Qed.
Lemma symbols_clean : clean st.
Proof using Hl Hst Hplain.
  assert (Hin : ∀ name, name ∈ outs st → ∃ t, name ∈ table_outs st t).
  { intros name. rewrite outs_bind. intros (t & Ht & _)%list_elem_of_bind. by exists t. }
  split.
  - rewrite outs_bind. apply NoDup_bind; [intros t u name _ _; apply out_table| |apply NoDup_seq].
    intros t _. rewrite table_outs_names. destruct (schemas !! t) as [schema|] eqn:E; [|constructor]. cbn [default].
    destruct (Forall_lookup_1 _ _ _ _ Hplain E) as [Hu Hp]. rewrite Forall_forall in Hp.
    apply NoDup_fmap_2_strong; [|done]. intros a b Ha Hb Eo. destruct (Hp a Ha) as (_ & Hda & _), (Hp b Hb) as (_ & Hdb & _).
    unfold outName in Eo. case_decide; case_decide; [by apply qualified_inj in Eo as [_ ?]|..|done].
    + subst b. by destruct (qualified_dot (default ""%string (tableNames st !! t)) a).
    + subst a. by destruct (qualified_dot (default ""%string (tableNames st !! t)) b).
  - intros (t & Ht)%Hin. apply table_out in Ht as (s & n & _ & _ & (Hne & _ & _) & E). unfold outName in E. case_decide; [|done].
    destruct (qualified_dot (default ""%string (tableNames st !! t)) n). rewrite <- E. by intros ?%elem_of_nil.
  - intros k (t & Ht)%Hin. apply table_out in Ht as (s & n & _ & _ & (_ & _ & Hr) & E). unfold outName in E. case_decide; [|by apply (Hr k)].
    destruct (qualified_dot (default ""%string (tableNames st !! t)) n). rewrite <- E. apply numbered_dot. by apply (bool_decide_eq_true_1 (¬ dot ∈ String.list_ascii_of_string "_agg_arg")).
Qed.
End Symbols.

(** ** The FROM clause *)

Section From.
Context (fs : FS) (Hfs : ∀ path data, fs !! path = Some data → bytes_ok data).
(** Every table has plain columns, loaded or still in its file. *)
Definition plain_catalog (c : Catalog) : Prop :=
  ∀ name e, c !! name = Some e →
    plain_table (te_Schema e) ∧ ∀ schema, fileSchema fs (te_FilePath e) = Ret schema → plain_table schema.
Lemma fileSchema_safe path : safe (fileSchema fs path).
Proof using Hfs.
  unfold fileSchema, Open. destruct (fs !! path) as [data|] eqn:E; [|done]. pose proof (readFooter_total data (Hfs path data E)) as H.
  by destruct (readFooter data).
Qed.
Lemma cat_Lookup_ok c name :
  plain_catalog c →
  safe_post (λ p, plain_catalog p.2 ∧ ∀ e, p.1 = Some e → plain_table (te_Schema e)) (cat_Lookup fs c name).
Proof using Hfs.
  intros Hc. unfold cat_Lookup. destruct (c !! name) as [e|] eqn:E; [|by split]. destruct (Hc name e E) as [Hp Hf].
  destruct (_ && _); [|by split; [|intros ? [= <-]]]. unfold loadSchema. pose proof (fileSchema_safe (te_FilePath e)) as Hs.
  destruct (fileSchema fs (te_FilePath e)) as [schema| | |] eqn:Ef; cbn [mbind go_bind]; try done. cbn [safe_post fst snd].
  split; [|intros ? [= <-]; by apply Hf].
  intros n e'. destruct (decide (n = name)) as [->|Hn]; [rewrite lookup_insert_eq|rewrite lookup_insert_ne by congruence; apply Hc].
  intros [= <-]. cbn. split; [by apply Hf|]. rewrite Ef. intros ? [= <-]. by apply Hf.
Qed.
Definition fresh_scan (scan : LogicalScan) : Prop :=
  plain_table (ls_Schema scan) ∧ NeededCols scan = [] ∧ ls_Predicate scan = None.
Lemma lookupTables_ok refs c :
  plain_catalog c → safe_post (λ p, length p.1 = length refs ∧ Forall fresh_scan p.1) (lookupTables fs c refs).
Proof using Hfs.
  revert c. induction refs as [|ref refs IH]; intros c Hc; cbn [lookupTables]; [done|].
  eapply safe_post_bind; [by apply cat_Lookup_ok|]. intros [[e|] c1] [Hc1 He]; [|done]. cbn [fst snd] in *.
  eapply safe_post_bind; [by apply IH|]. intros [scans c2] [Hl Hs]. cbn [fst snd safe_post length] in *. split; [lia|].
  constructor; [|done]. split; [by apply He|done].
Qed.
Lemma nameTables_safe seen refs : safe_post (λ _, True) (nameTables seen refs).
Proof using Type. revert seen. induction refs as [|ref refs IH]; intros seen; cbn [nameTables]; [done|]. case_decide; [done|]. apply IH. Qed.
Lemma newSymbolTable_safe schemas refs : safe_post (λ st, newSymbolTable schemas refs = Ret st) (newSymbolTable schemas refs).
Proof using Type. unfold newSymbolTable. pose proof (nameTables_safe [] refs) as H. by destruct (nameTables [] refs). Qed.
End From.

Lemma applied_ok scans refs st :
  length scans = length refs → newSymbolTable (ls_Schema <$> scans) refs = Ret st → Forall fresh_scan scans →
  scans_ok st (imap (applyOutputNames st) scans) ∧ Forall (λ s, ls_Predicate s = None) (imap (applyOutputNames st) scans).
Proof.
  intros Hl Hst Hs. destruct (newSymbolTable_spec (ls_Schema <$> scans) refs st) as (_ & Hlen & _ & Hcol); [by rewrite length_fmap|done|]. rewrite length_fmap in Hlen.
  assert (Hi : ∀ i scan, imap (applyOutputNames st) scans !! i = Some scan → scan_ok st i scan ∧ ls_Predicate scan = None).
  { intros i scan. rewrite list_lookup_imap. destruct (scans !! i) as [s|] eqn:E; [|done]. intros [= <-].
    destruct (Forall_lookup_1 _ _ _ _ Hs E) as (_ & Hn & Hp). unfold applyOutputNames. cbn [ls_Predicate]. split; [|done].
    destruct (Hcol i (ls_Schema s)) as (bs & Hbs & Hb). { by rewrite list_lookup_fmap, E. }
    split; cbn [ls_Schema NeededCols ls_Predicate]; [|by rewrite Hp]. unfold table_outs. rewrite Hbs. cbn [default id]. clear -Hb.
    induction Hb as [|f b schema bs [Hsrc _] _ IH]; [done|]. cbn [zip_with fmap list_fmap]. f_equal; [|exact IH].
    case_decide as Ho; [by rewrite Ho|done]. }
  split; [split; [by rewrite length_imap|intros i scan; apply Hi]|]. apply Forall_forall. intros scan (i & H)%list_elem_of_lookup_1. by eapply Hi.
Qed.

(** ** The SELECT list *)

(** The column headers of a result. *)
Definition headers (schemas : list Schema) (cols : list SelectColumn) : list string :=
  cols ≫= λ '(mkSelectColumn e alias),
    match e with
    | StarExpr => Name <$> concat schemas
    | _ => [if decide (alias = ""%string) then exprName e else alias]
    end.
Lemma expand_given cols st : Forall column_given cols → items_given (expandSelectList cols st).
Proof.
  intros Hc. unfold items_given, expandSelectList. apply Forall_forall. intros it ([e alias] & Hit & Hin)%list_elem_of_bind.
  rewrite Forall_forall in Hc. specialize (Hc _ Hin). cbn in Hc.
  destruct e; try (apply list_elem_of_singleton in Hit as ->; exact Hc).
  apply list_elem_of_In, in_concat in Hit as (l & Hl & Hit). apply list_elem_of_In in Hl, Hit.
  apply list_elem_of_lookup_1 in Hl as [t Ht]. apply lookup_zip_with_Some in Ht as (bs & name & -> & _ & _).
  apply list_elem_of_fmap in Hit as (b & -> & _). cbn. by repeat constructor.
Qed.
Lemma star_headers schemas refs st :
  length schemas = length refs → newSymbolTable schemas refs = Ret st →
  si_alias <$> concat (zip_with (λ bs name, (λ b, mkSelectItem (ColumnRefExpr name (cb_source b)) (cb_source b) "") <$> bs)
    (columns st) (tableNames st)) = Name <$> concat schemas.
Proof.
  intros Hl Hst. destruct (newSymbolTable_spec _ _ _ Hl Hst) as (_ & Hlen & Hnames & Hcol).
  assert (H : Forall2 (λ bs schema, cb_source <$> bs = Name <$> schema) (columns st) schemas).
  { apply Forall2_same_length_lookup_2; [done|]. intros i bs schema Hb Hs. destruct (Hcol i schema Hs) as (bs' & Hb' & Hf). simplify_eq.
    clear -Hf. induction Hf as [|f b schema bs [H _] _ IH]; [done|]. cbn [fmap list_fmap]. f_equal; [exact H|exact IH]. }
  clear -H Hnames Hlen. revert H Hnames Hlen. generalize (tableNames st) as names. generalize (columns st) as cs.
  intros cs names H. revert names. induction H as [|bs schema cs schemas Hb _ IH]; intros [|n names]; try done.
  cbn [length zip_with concat]. intros [= H1] [= H2]. rewrite !fmap_app, (IH names) by done. f_equal. rewrite <- Hb, <- list_fmap_compose. done.
Qed.
Lemma expand_headers cols schemas refs st :
  length schemas = length refs → newSymbolTable schemas refs = Ret st →
  si_alias <$> expandSelectList cols st = headers schemas cols.
Proof.
  intros Hl Hst. unfold expandSelectList, headers. induction cols as [|[e alias] cols IH]; [done|]. cbn [mbind list_bind].
  rewrite fmap_app. f_equal; [|exact IH]. destruct e; try done. by eapply star_headers.
Qed.

(** ** Build *)

Lemma Build_ok fs distinct cols from where_ having groupBy orderBy limit offset c :
  (∀ path data, fs !! path = Some data → bytes_ok data) → plain_catalog fs c →
  stmt_given (mkSelect distinct cols from where_ having groupBy orderBy limit offset) →
  safe_post (λ p, prunable p.1 ∧ ∃ scans c', lookupTables fs c from = Ret (scans, c') ∧
      names_of p.1 = headers (ls_Schema <$> scans) cols)
    (Build fs (mkSelect distinct cols from where_ having groupBy orderBy limit offset) c).
Proof.
  intros Hfs Hc (Hcols & Hhaving & Horder). unfold Build. destruct from as [|ref from]; [done|]. set (refs := ref :: from).
  eapply (safe_post_bind (λ p, lookupTables fs c refs = Ret p ∧ length p.1 = length refs ∧ Forall fresh_scan p.1)).
  { pose proof (lookupTables_ok fs Hfs refs c Hc) as H. by destruct (lookupTables fs c refs). }
  intros [scans c1] (Elook & Hl & Hs). cbn [fst snd] in *.
  eapply safe_post_bind; [apply newSymbolTable_safe|]. intros st Hst. cbv beta in Hst.
  assert (Hl' : length (ls_Schema <$> scans) = length refs) by by rewrite length_fmap.
  destruct (newSymbolTable_spec _ _ _ Hl' Hst) as (Hsym & _).
  assert (Hclean : clean st).
  { eapply symbols_clean; [exact Hl'|exact Hst|]. apply Forall_fmap. eapply Forall_impl; [exact Hs|]. by intros scan (H & _). }
  destruct (applied_ok _ _ _ Hl Hst Hs) as [Hscans Hnone]. set (scans' := imap (applyOutputNames st) scans) in *.
  eapply safe_post_bind; [by apply resolveWhere_bound|]. intros w Hw.
  eapply safe_post_bind; [apply (planTables_ok st Hsym); [done| |done|done]|].
  { intros E. apply (f_equal length) in E. unfold scans' in E. rewrite length_imap, Hl in E. done. }
  intros root Hroot. cbv zeta. pose proof (expand_given cols st Hcols) as Hitems.
  eapply (safe_post_bind (λ q, query_ok st q ∧ q_items q = expandSelectList cols st)).
  { destruct (_ || _); [apply (buildAggregation_ok st Hsym Hclean); [done|by intros h ->|done]|]. destruct having; [done|]. by apply (buildScalarSelect_ok st Hsym). }
  intros q [Hq Eq]. eapply safe_post_bind; [by apply (finish_ok st Hsym Hclean)|]. intros plan [Hplan Hnames]. cbn [safe_post fst].
  split; [done|]. exists scans, c1. split; [done|]. rewrite Hnames, Eq. by eapply expand_headers.
Qed.

(** The plan of a query's text. *)
Definition planText (fs : FS) (c : Catalog) (src : string) : go (LogicalNode * Catalog) := stmt ← Parse src; Build fs stmt c.
(** The names are the headers that the query's SELECT list gives its columns. *)
Definition headed (fs : FS) (c : Catalog) (src : string) (names : list string) : Prop :=
  ∃ distinct cols from where_ having groupBy orderBy limit offset scans c',
    Parse src = Ret (mkSelect distinct cols from where_ having groupBy orderBy limit offset) ∧
    lookupTables fs c from = Ret (scans, c') ∧ names = headers (ls_Schema <$> scans) cols.
Lemma planText_ok fs c src :
  (∀ path data, fs !! path = Some data → bytes_ok data) → plain_catalog fs c →
  safe_post (λ p, prunable p.1 ∧ headed fs c src (names_of p.1))
    (planText fs c src).
Proof.
  intros Hfs Hc. unfold planText. pose proof (Parse_total src) as Hp. destruct (Parse src) as [stmt| | |] eqn:E; try done.
  cbn [mbind go_bind]. pose proof (Parse_given src stmt E) as Hg. destruct stmt as [distinct cols from w h gb ob limit offset].
  eapply safe_post_impl; [by apply Build_ok|]. intros [plan c1] (Hpl & scans & c' & El & En). split; [done|].
  by exists distinct, cols, from, w, h, gb, ob, limit, offset, scans, c'.
Qed.

(** ** Property *)


Lemma plan_bytes path data : plan_fs !! path = Some data → bytes_ok data.
Proof. apply (bool_decide_eq_true_1 (map_Forall (λ _ d, bytes_ok d) plan_fs)). vm_compute. reflexivity. Qed.
Definition plainb (name : string) : bool :=
  bool_decide (name ≠ ""%string) && bool_decide (dot ∉ String.list_ascii_of_string name) && negb (String.prefix "_agg_arg" name).
Lemma prefix_append a b : String.prefix a (a +:+ b) = true.
Proof. induction a as [|x a IH]; [by destruct b|]. change (String x a +:+ b) with (String x (a +:+ b)). cbn [String.prefix]. destruct (ascii_dec x x); [exact IH|done]. Qed.
Lemma plainb_plain name : plainb name = true → plain name.
Proof.
  unfold plainb. intros [[H1%bool_decide_eq_true H2%bool_decide_eq_true]%andb_true_iff H3%negb_true_iff]%andb_true_iff. split; [done|]. split; [done|].
  intros k ->. unfold numbered in H3. by rewrite prefix_append in H3.
Qed.
Definition plain_tableb (schema : Schema) : bool := bool_decide (NoDup (Name <$> schema)) && forallb plainb (Name <$> schema).
Lemma plain_tableb_plain schema : plain_tableb schema = true → plain_table schema.
Proof.
  unfold plain_tableb. intros [H1%bool_decide_eq_true H2]%andb_true_iff. split; [done|]. rewrite forallb_forall in H2. apply Forall_forall.
  intros name Hin. apply plainb_plain, H2. by apply list_elem_of_In.
Qed.
(** Two tables, one loaded when it is first looked up. *)
Definition demo_catalog : Catalog :=
  <["t"%string := mkEntry "t" "t" []]> (Register (∅ : Catalog) "u" "u" [mkField "id" TypeInt64 EncPlain false; mkField "v" TypeFloat64 EncPlain true]).
Definition demo_text : string :=
  "SELECT name, COUNT(*), SUM(v + 1) AS s FROM t, u WHERE t.id = u.id AND t.id > 2 GROUP BY name HAVING s > 3 ORDER BY MAX(v) DESC LIMIT 2".
Lemma demo_plain : plain_catalog plan_fs demo_catalog.
Proof.
  assert (Hc : map_Forall (λ _ e, plain_tableb (te_Schema e) = true ∧
    (if fileSchema plan_fs (te_FilePath e) is Ret s then plain_tableb s = true else True)) demo_catalog).
  { unfold demo_catalog, Register, addEntry. apply map_Forall_insert_2; [split; vm_compute; reflexivity|].
    apply map_Forall_insert_2; [split; vm_compute; [reflexivity|exact I]|]. apply map_Forall_empty. }
  intros name e He. destruct (Hc name e He) as [H1 H2]. split; [by apply plain_tableb_plain|].
  intros schema Hs. rewrite Hs in H2. by apply plain_tableb_plain.
Qed.
