(* ===== verification/Query.v ===== *)
(** * Command vexq: a query over files ([runQuery] of [cmd/vexq/main.go])

    From the paths and the text on the command line to the operator whose batches
    are printed, without [--workers].  Go's map of tables is walked in any order. *)
From Stdlib Require Import ZArith Lia ZifyNat Ascii.
From stdpp Require Import base numbers list strings gmap.
From S2P Require Import SharedJoin Prelude Encoding Codec Float64 Schema Writer Reader Volume Batch Scratch Scan Lexer Strconv Ast Parser ParseGiven Format VExpr VKernel VCase VExprSpec Operator RowOps Distinct Sorting Emit Sort Pipeline Aggregate AggSpec AggKeys AggInt AggPath AggConsume AggValue AggOut AggRun RowStore JoinTable Join Morsel ExprWalk Coerce ExecExpr BuildType FloatInt ZonePred Logical PlanRows Physical PlanScan PlanAnswer Catalog Optimizer Prune PruneScan PrunePlan OptimizeAnswer Build BuildNames BuildTables BuildQuery BuildFinish BuildPlan.
#[local] Open Scope Z_scope.

(** ** Tables by file name *)

(** [filepath.Base], [filepath.Ext] and [strings.TrimSuffix]. *)
Definition slash : ascii := "/"%char.
Fixpoint dropSlashes (l : list ascii) : list ascii :=
  match l with c :: l' => if decide (c = slash) then dropSlashes l' else l | [] => [] end.
Fixpoint untilSlash (l : list ascii) : list ascii :=
  match l with c :: l' => if decide (c = slash) then [] else c :: untilSlash l' | [] => [] end.
Definition Base (path : list ascii) : list ascii :=
  match path with
  | [] => [dot]
  | _ => match reverse (untilSlash (dropSlashes (reverse path))) with [] => [slash] | base => base end
  end.
(** The last dot and what follows it, read backwards. *)
Fixpoint extRev (l acc : list ascii) : list ascii :=
  match l with
  | [] => []
  | c :: l => if decide (c = slash) then [] else if decide (c = dot) then c :: acc else extRev l (c :: acc)
  end.
Definition Ext (path : list ascii) : list ascii := extRev (reverse path) [].
Definition TrimSuffix (s suffix : list ascii) : list ascii :=
  if decide (drop (length s - length suffix) s = suffix) then take (length s - length suffix) s else s.
Definition tableName (path : string) : string :=
  let base := Base (String.list_ascii_of_string path) in
  String.string_of_list_ascii (TrimSuffix base (Ext base)).

Fixpoint queryTables (tables : list (string * string)) (paths : list string) : go (list (string * string)) :=
  match paths with
  | [] => Ret tables
  | p :: paths =>
      if decide (tableName p ∈ tables.*1) then Err (ErrMsg "duplicate table name")
      else queryTables (tables ++ [(tableName p, p)]) paths
  end.
Definition openCatalog (fs : FS) (tables : list (string * string)) : go Catalog :=
  match tables with
  | [(name, p)] => OpenSingle fs name p
  | _ => OpenMulti fs tables
  end.

(** The plan and the operator of a query; [order] is the order Go's map takes. *)
Definition runQuery (fs : FS) (order : list (string * string) → list (string * string)) (paths : list string) (query : string)
    : go (LogicalNode * Op) :=
  tables ← queryTables [] paths;
  c ← openCatalog fs (order tables);
  '(logical, _) ← planText fs c query;
  op ← Physical fs (Optimize logical);
  Ret (logical, op).

Example tableName_examples :
  tableName "data/orders.vxq" = "orders"%string ∧ tableName "a.b.c" = "a.b"%string ∧ tableName "x//" = "x"%string ∧
  tableName "" = ""%string ∧ tableName ".vxq" = ""%string.
Proof. vm_compute. split_and!; reflexivity. Qed.

(** ** What a query prints *)

Section Run.
Context (fs : FS) (Hfs : ∀ path data, fs !! path = Some data → bytes_ok data).
Context (Hplain : ∀ path schema, fileSchema fs path = Ret schema → plain_table schema).
Lemma catalog_plain c : catalog_ok fs c → plain_catalog fs c.
Proof using Hplain.
  intros Hc name e He. destruct (Hc name e He) as [_ [E|E]]; (split; [|by apply Hplain]); [|by eapply Hplain].
  rewrite E. split; constructor.
Qed.
Lemma openCatalog_ok tables c : openCatalog fs tables = Ret c → catalog_ok fs c.
Proof using Type. destruct tables as [|[n p] [|]]; [apply OpenMulti_ok|apply OpenSingle_ok|apply OpenMulti_ok]. Qed.
Lemma query_answers order paths query logical o :
  runQuery fs order paths query = Ret (logical, o) → plan_ok fs (Optimize logical) →
  ∃ c bs, runs (op_state o) bs None ∧ Forall (batch_wf (Type_ <$> op_schema o) dictBound) bs ∧
    answer fs logical (op_schema o) (r_cells <$> all_rows bs) ∧ headed fs c query (Name <$> op_schema o).
Proof using Hfs Hplain.
  unfold runQuery. intros (tables & _ & (c & Ec & ([logical' c'] & Ep & (op & Eo & E)%go_bind_inv)%go_bind_inv)%go_bind_inv)%go_bind_inv Hok.
  injection E as -> ->. pose proof (planText_ok fs c query Hfs (catalog_plain c (openCatalog_ok _ _ Ec))) as H. rewrite Ep in H.
  destruct H as [Hpr Hhead]. cbn [fst] in *.
  destruct (Physical_produces fs _ o Hok Eo) as (rows & Ha & [_ _ _ (bs & Hr & Hwf & <-)]).
  apply (Optimize_same fs logical _ _ Hpr) in Ha. exists c, bs. split; [done|]. split; [done|]. split; [done|].
  by rewrite (answer_names fs logical _ _ (proj1 Hpr) Ha).
Qed.
End Run.

(** ** Property *)


Definition query_text : string := "SELECT id AS n FROM t WHERE id > 2 LIMIT 2 OFFSET 1".
Definition narrowed : LogicalScan := set_needed demo_source ["id"%string].
Definition query_item : ProjectItem := mkItem "n" (ColumnRefExpr "" "id") TypeInt64.
Definition query_plan : LogicalNode := LLimit (LProject (LFilter (LScan (plan_scan None)) over_two) [query_item]) 2 1.
Definition id_schema : Schema := [mkField "id" TypeInt64 EncPlain false].
Definition id_rows : list cells := [[Some (CInt 3)]; [Some (CInt 10)]; [Some (CInt 11)]; [Some (CInt 12)]].
Lemma narrowed_answer : scan_answer plan_fs narrowed id_schema id_rows.
Proof.
  pose proof (scan_where plan_fs narrowed plan_reader plan_schema (spec_ops plan_schema emptySession plan_ops)
    (mkTableScan plan_reader id_schema [0] None 0 2 0 None None) over_two
    (BinOp BinGT (ColumnRef "id" 0 TypeInt64) (Literal (CInt 2) TypeInt64) TypeBool) plan_open plan_repr) as H.
  match type of H with context [filter ?P ?l] => assert (E : filter P l = id_rows) by (vm_compute; reflexivity); rewrite E in H end.
  apply H; try done.
  - split; [by repeat constructor|]. split; apply (bool_decide_unpack _); vm_compute; done.
  - by repeat constructor.
Qed.
Lemma narrowed_pushed : pushed_ok narrowed id_schema.
Proof. intros p x [= <-] [= <-]. split; [|done]. repeat constructor; vm_compute; intuition congruence. Qed.
Lemma query_plan_ok : plan_ok plan_fs (Optimize query_plan).
Proof.
  change (Optimize query_plan) with (LLimit (LProject (LScan narrowed) [query_item]) 2 1). split; [|lia].
  split; [by exists id_schema, id_rows; split; [apply narrowed_answer|apply narrowed_pushed]|]. intros child pes Hch Hpes.
  pose proof (scan_child _ _ _ _ _ narrowed_answer narrowed_pushed Hch) as Hp. rewrite (pr_schema _ _ _ Hp) in Hpes.
  injection Hpes as <-. by repeat constructor.
Qed.
Lemma one_file (fs : FS) name path schema : (map_to_list fs).*1 = [name] → fileSchema fs path = Ret schema → path = name.
Proof.
  intros E H. unfold fileSchema, Open in H. destruct (fs !! path) as [data|] eqn:Ed; [|done].
  apply elem_of_map_to_list in Ed. apply (list_elem_of_fmap_2 fst) in Ed. rewrite E in Ed. by apply list_elem_of_singleton in Ed.
Qed.
Lemma plan_paths : (map_to_list plan_fs).*1 = ["t"%string].
Proof. vm_compute. reflexivity. Qed.
Lemma plan_schema_loaded : fileSchema plan_fs "t" = Ret plan_schema.
Proof. vm_compute. reflexivity. Qed.
Lemma plan_schema_plain : plain_table plan_schema.
Proof. apply plain_tableb_plain. vm_compute. reflexivity. Qed.
Lemma plan_files_plain path schema : fileSchema plan_fs path = Ret schema → plain_table schema.
Proof.
  intros H. pose proof (one_file plan_fs "t" path schema plan_paths H) as ->. rewrite plan_schema_loaded in H.
  rewrite <- (Ret_inj _ _ H). exact plan_schema_plain.
Qed.
Definition query_catalog : Catalog := addEntry (∅ : Catalog) "t" "t" plan_schema.
Lemma query_opened : openCatalog plan_fs [("t", "t")]%string = Ret query_catalog.
Proof. vm_compute. reflexivity. Qed.
Lemma query_planned : planText plan_fs query_catalog query_text = Ret (query_plan, query_catalog).
Proof. vm_compute. reflexivity. Qed.
