(* ===== verification/BuildWhere.v ===== *)
(** * Package planner: where the conjuncts of WHERE go

    Over several tables every conjunct is in exactly one place of the plan: a
    scan, a join's condition or the filter above the joins. *)
From Stdlib Require Import ZArith Lia ZifyNat Ascii.
From stdpp Require Import base numbers list strings gmap.
From S2P Require Import Prelude Encoding Codec Float64 Schema Writer Reader Batch Lexer Strconv Ast Parser Format ExprWalk Logical Catalog Optimizer Prune PrunePlan Build BuildNames BuildTables.
#[local] Open Scope Z_scope.

(** The conditions of the scans, filters and joins of a plan. *)
Fixpoint conditions (node : LogicalNode) : list Ast.Expr :=
  match node with
  | LScan n => flattenWhere (ls_Predicate n)
  | LFilter c p => conditions c ++ flattenAnd p
  | LJoin l r cond => conditions l ++ conditions r ++ [cond]
  | _ => []
  end.
(** Equal, or an equality with its sides exchanged. *)
Definition same_term (a b : Ast.Expr) : Prop :=
  a = b ∨ ∃ x y, a = BinaryExpr OpEQ x y ∧ b = BinaryExpr OpEQ y x.
(** The plan applies these terms and no other, each of them once. *)
Definition applies (node : LogicalNode) (terms : list Ast.Expr) : Prop :=
  ∃ placed, placed ≡ₚ terms ∧ Forall2 same_term placed (conditions node).
#[export] Instance applies_proper : Proper ((=) ==> (≡ₚ) ==> iff) applies.
Proof.
  intros node ? <- l1 l2 E. unfold applies. split; intros (placed & Hp & H); exists placed; (split; [|done]); by rewrite Hp, E.
Qed.

(** ** Conjunctions *)

Definition conjunct (e : Ast.Expr) : Prop := flattenAnd e = [e].
Lemma flattenAnd_conjuncts e : Forall conjunct (flattenAnd e).
Proof.
  induction e using Expr_ast_ind; try (by repeat constructor). destruct op; try (by repeat constructor).
  cbn [flattenAnd]. by apply Forall_app.
Qed.
Lemma flattenWhere_conjuncts w : Forall conjunct (flattenWhere w).
Proof. destruct w as [e|]; [apply flattenAnd_conjuncts|constructor]. Qed.
Lemma andExpr_conjuncts a t : conjunct t → flattenWhere (Some (andExpr a t)) = flattenWhere a ++ [t].
Proof. intros Ht. destruct a as [a|]; cbn [andExpr flattenWhere flattenAnd app]; by rewrite Ht. Qed.
Lemma conjunction_terms terms : Forall conjunct terms → flattenWhere (conjunction terms) = terms.
Proof.
  intros Ht. unfold conjunction. change terms with (flattenWhere None ++ terms) at 2. generalize (None : option Ast.Expr) as acc.
  induction Ht as [|t terms Ht _ IH]; intros acc; cbn [foldl]; [by rewrite app_nil_r|].
  by rewrite IH, andExpr_conjuncts, <- app_assoc.
Qed.
Lemma filter_applies node ts terms :
  applies node ts → Forall conjunct terms →
  applies (match conjunction terms with Some pred => LFilter node pred | None => node end) (ts ++ terms).
Proof.
  intros (placed & Hp & H) Ht. pose proof (conjunction_terms terms Ht) as E. destruct (conjunction terms) as [pred|]; cbn [flattenWhere] in E.
  - exists (placed ++ terms). split; [by rewrite Hp|]. cbn [conditions]. apply Forall2_app; [done|]. rewrite E.
    apply Forall_Forall2_diag, Forall_true. by left.
  - subst terms. rewrite app_nil_r. by exists placed.
Qed.

(** ** Placing the terms *)

(** A join candidate is the equality of its two columns. *)
Definition edge_shape (e : joinEdge) : Prop := term e = joinCond (leftCol e) (rightCol e).

Lemma alter_terms (fs : list (option Ast.Expr)) t x :
  (t < length fs)%nat → conjunct x →
  (alter (λ f, Some (andExpr f x)) t fs ≫= flattenWhere) ≡ₚ (fs ≫= flattenWhere) ++ [x].
Proof.
  intros Ht Hx. revert t Ht. induction fs as [|f fs IH]; intros [|t] Ht; cbn [length] in Ht; try lia.
  - change (alter _ 0%nat (f :: fs)) with (Some (andExpr f x) :: fs). cbn [mbind list_bind]. rewrite andExpr_conjuncts by done.
    rewrite <- !app_assoc. f_equiv. apply Permutation_app_comm.
  - change (alter ?g (S t) (f :: fs)) with (f :: alter g t fs). cbn [mbind list_bind]. rewrite <- app_assoc. f_equiv. apply IH. lia.
Qed.

Section Where.
Context (st : symbolTable) (Hst : symbols_ok st).
Definition all_terms (p : placed) : list Ast.Expr := (perTable p ≫= flattenWhere) ++ (term <$> p_edges p) ++ residual p.
Lemma joinEdgeOf_shape t scans e : bound_in (outs st) t → joinEdgeOf t scans st = Some e → edge_shape e ∧ term e = t.
Proof using Type.
  intros Hb. unfold joinEdgeOf. destruct t as [| | | | | | |op l r| | | | | | | | | ]; try done. destruct op; try done.
  destruct l as [u l| | | | | | | | | | | | | | | | ]; try done. destruct r as [v r| | | | | | | | | | | | | | | | ]; try done.
  destruct (tableOfOut st !! l) as [lt|]; [|done]. destruct (tableOfOut st !! r) as [rt|]; [|done]. cbn [mbind option_bind].
  case_decide; [done|]. case_decide; [|done]. intros [= <-]. split; [|done]. unfold edge_shape, joinCond. cbn [term leftCol rightCol].
  cbn [walkExpr app] in Hb. apply List.Forall_inv_tail in Hb. apply List.Forall_cons_iff in Hb as [[-> _] Hb]. by apply List.Forall_inv in Hb as [-> _].
Qed.
Lemma tablesOf_range e t : t ∈ elements (tablesOf st e) → (t < length (columns st))%nat.
Proof using Hst.
  rewrite elem_of_elements. unfold tablesOf. intros (name & _ & Hn)%elem_of_list_to_set%list_elem_of_omap.
  eapply table_outs_lt. by eapply so_tableOfOut.
Qed.
Lemma placeTerm_terms scans p x :
  length (perTable p) = length (columns st) → (0 < length (columns st))%nat → bound_in (outs st) x → conjunct x →
  length (perTable (placeTerm scans st p x)) = length (columns st) ∧
  (Forall edge_shape (p_edges p) → Forall edge_shape (p_edges (placeTerm scans st p x))) ∧
  all_terms (placeTerm scans st p x) ≡ₚ all_terms p ++ [x].
Proof using Hst.
  intros Hl H0 Hb Hx. unfold placeTerm, all_terms. destruct (joinEdgeOf x scans st) as [e|] eqn:Ee.
  { apply joinEdgeOf_shape in Ee as [Hs <-]; [|done]. cbn [perTable p_edges residual]. split; [done|]. split.
    - intros He. apply Forall_app. by repeat constructor.
    - rewrite fmap_app, <- !app_assoc. f_equiv. f_equiv. cbn [fmap list_fmap]. apply Permutation_app_comm. }
  assert (Hpush : ∀ t, (t < length (columns st))%nat →
    length (alter (λ f, Some (andExpr f x)) t (perTable p)) = length (columns st) ∧
    (Forall edge_shape (p_edges p) → Forall edge_shape (p_edges p)) ∧
    (alter (λ f, Some (andExpr f x)) t (perTable p) ≫= flattenWhere) ++ (term <$> p_edges p) ++ residual p
      ≡ₚ ((perTable p ≫= flattenWhere) ++ (term <$> p_edges p) ++ residual p) ++ [x]).
  { intros t Ht. split; [by rewrite length_alter|]. split; [done|]. rewrite alter_terms by (rewrite ?Hl; done).
    rewrite <- !app_assoc. f_equiv. etrans; [apply (Permutation_app_comm [x])|]. by rewrite <- app_assoc. }
  destruct (elements (tablesOf st x)) as [|t [|]] eqn:Et; cbn [perTable p_edges residual]; [by apply Hpush|apply Hpush, (tablesOf_range x); rewrite Et; by left|].
  split; [done|]. split; [done|]. by rewrite <- !app_assoc.
Qed.
Lemma place_all scans terms p :
  length (perTable p) = length (columns st) → (0 < length (columns st))%nat → Forall edge_shape (p_edges p) →
  Forall (λ x, bound_in (outs st) x) terms → Forall conjunct terms →
  let q := foldl (placeTerm scans st) p terms in
  length (perTable q) = length (columns st) ∧ Forall edge_shape (p_edges q) ∧ all_terms q ≡ₚ all_terms p ++ terms.
Proof using Hst.
  intros Hl H0 He Hb Hc. revert p Hl He. induction Hb as [|x terms Hx _ IH]; intros p Hl He; cbn [foldl]; [split; [done|]; split; [done|]; by rewrite app_nil_r|].
  apply List.Forall_cons_iff in Hc as [Hcx Hc]. destruct (placeTerm_terms scans p x Hl H0 Hx Hcx) as (Hl1 & He1 & Ht1).
  destruct (IH Hc (placeTerm scans st p x) Hl1 (He1 He)) as (Hl2 & He2 & Ht2). split; [done|]. split; [done|].
  by rewrite Ht2, Ht1, <- app_assoc.
Qed.

(** ** The join tree *)

Definition used_terms (edges : list joinEdge) (used : list bool) : list Ast.Expr :=
  zip edges used ≫= λ '(e, u), if u : bool then [term e] else [].
Definition unused_edges (edges : list joinEdge) (used : list bool) : list joinEdge :=
  zip edges used ≫= λ '(e, u), if u : bool then [] else [e].
Lemma used_split edges used : length used = length edges → used_terms edges used ++ (term <$> unused_edges edges used) ≡ₚ term <$> edges.
Proof using Type.
  revert used. induction edges as [|e edges IH]; intros [|u used] Hl; try done. cbn [length] in Hl. injection Hl as Hl.
  specialize (IH used Hl). unfold used_terms, unused_edges in *. cbn [zip zip_with mbind list_bind]. destruct u; cbn [app fmap list_fmap].
  - by rewrite IH.
  - etrans; [symmetry; apply Permutation_middle|]. by rewrite IH.
Qed.
Lemma firstEdge_at included j edges used k x :
  firstEdge included j edges used = Some (k, x) →
  ∃ i e, k = (j + i)%nat ∧ edges !! i = Some e ∧ used !! i = Some false ∧ extends included e = Some x.
Proof using Type.
  revert j used. induction edges as [|e edges IH]; intros j [|u used]; try done. cbn [firstEdge].
  destruct u; [|destruct (extends included e) as [y|] eqn:E; [intros [= <- ->]; exists 0%nat, e; split_and!; [lia|done..]|]];
    intros (i & e' & -> & H)%IH; exists (S i), e'; (split; [lia|done]).
Qed.
Lemma used_mark edges used i e :
  edges !! i = Some e → used !! i = Some false → used_terms edges (<[i := true]> used) ≡ₚ term e :: used_terms edges used.
Proof using Type.
  revert used i. induction edges as [|e0 edges IH]; intros [|u used] [|i] He Hu; try done; cbn [lookup list_lookup] in *; simplify_eq.
  - done.
  - change (<[S i:=true]> (u :: used)) with (u :: <[i:=true]> used). unfold used_terms in *. cbn [zip zip_with mbind list_bind].
    rewrite (IH used i He Hu). symmetry. apply Permutation_middle.
Qed.
Definition scan_terms (scans : list LogicalScan) (included : gset nat) : list Ast.Expr :=
  elements included ≫= λ t, match scans !! t with Some scan => flattenWhere (ls_Predicate scan) | None => [] end.
Lemma scan_terms_add scans included t scan :
  t ∉ included → scans !! t = Some scan → scan_terms scans ({[t]} ∪ included) ≡ₚ flattenWhere (ls_Predicate scan) ++ scan_terms scans included.
Proof using Type.
  intros Ht Hs. unfold scan_terms. rewrite elements_union_singleton by done. cbn [mbind list_bind]. by rewrite Hs.
Qed.
Lemma extends_cond included e t a b :
  extends included e = Some (t, a, b) → edge_shape e → (t ∉ included) ∧ same_term (term e) (joinCond a b).
Proof using Type.
  unfold extends, edge_shape. intros H ->. case_decide as H1; [injection H as <- <- <-; split; [tauto|by left]|].
  case_decide as H2; [|done]. injection H as <- <- <-. split; [tauto|]. right. by eexists _, _.
Qed.
Lemma shuffle {A} (s u w : list A) e : (s ++ u) ++ w ++ [e] ≡ₚ (w ++ s) ++ e :: u.
Proof using Type.
  etrans; [rewrite app_assoc; apply Permutation_app_comm|]. etrans; [|apply Permutation_middle]. cbn [app]. apply perm_skip.
  rewrite <- (app_assoc w). apply Permutation_app_comm.
Qed.
Lemma growTree_applies fuel scans edges used included root root' used' :
  length used = length edges → Forall edge_shape edges →
  applies root (scan_terms scans included ++ used_terms edges used) →
  (∀ t, t ∈ included → (t < length scans)%nat) →
  growTree fuel scans edges used included root = Ret (root', used') →
  length used' = length edges ∧ ∃ included', (∀ t, t ∈ included' → (t < length scans)%nat) ∧ (length scans <= size included')%nat ∧
    applies root' (scan_terms scans included' ++ used_terms edges used').
Proof using Type.
  revert used included root. induction fuel as [|fuel IH]; intros used included root Hl Hs Ha Hr; cbn [growTree].
  { case_decide; [done|]. intros [= <- <-]. split; [done|]. exists included. split; [done|]. split; [lia|done]. }
  case_decide; [|intros [= <- <-]; split; [done|]; exists included; split; [done|]; split; [lia|done]].
  destruct (firstEdge included 0 edges used) as [[k [[t a] b]]|] eqn:Ef.
  - destruct (firstEdge_at _ _ _ _ _ _ Ef) as (i & e & -> & He & Hu & Hx).
    destruct (extends_cond _ _ _ _ _ Hx (Forall_lookup_1 _ _ _ _ Hs He)) as [Hnew Hsame].
    unfold index. destruct (scans !! t) as [scan|] eqn:Esc; [|done]. cbn [mbind go_bind]. apply IH; [by rewrite length_insert|done| |].
    + destruct Ha as (placed & Hp & Hf). exists (placed ++ flattenWhere (ls_Predicate scan) ++ [term e]). split.
      * rewrite Hp, (scan_terms_add _ _ _ _ Hnew Esc), (used_mark _ _ _ _ He Hu). apply shuffle.
      * cbn [conditions]. apply Forall2_app; [done|]. apply Forall2_app; [apply Forall_Forall2_diag, Forall_true; by left|by constructor].
    + intros t' [->%elem_of_singleton|Hin]%elem_of_union; [by eapply lookup_lt_Some|by apply Hr].
  - destruct (existsb _ _); [done|]. by apply IH.
Qed.

Lemma filtered_terms scans fs :
  Forall (λ s, ls_Predicate s = None) scans → length fs = length scans →
  (seq 0 (length scans) ≫= λ t, match zip_with set_filter scans fs !! t with Some scan => flattenWhere (ls_Predicate scan) | None => [] end)
  = fs ≫= flattenWhere.
Proof using Type.
  intros Hs Hl.
  transitivity (seq 0 (length fs) ≫= λ t, default [] ((flattenWhere <$> fs) !! t)).
  - rewrite Hl. apply list_bind_ext; [|done]. intros t. rewrite list_lookup_fmap. destruct (zip_with set_filter scans fs !! t) as [scan|] eqn:E.
    + apply lookup_zip_with_Some in E as (s & f & -> & Hi & Hf). rewrite Hf. cbn [fmap option_fmap option_map default].
      pose proof (Forall_lookup_1 _ _ _ _ Hs Hi) as Hn. destruct f as [f|]; [done|]. cbn [set_filter]. by rewrite Hn.
    + apply lookup_ge_None in E. rewrite length_zip_with, Hl, Nat.min_id in E. rewrite lookup_ge_None_2 by lia. done.
  - rewrite <- (length_fmap flattenWhere), seq_columns. induction fs as [|f fs IH]; [done|]. cbn [fmap list_fmap concat mbind list_bind].
    f_equal. clear -fs. induction fs as [|g fs IH]; [done|]. cbn [fmap list_fmap concat mbind list_bind]. f_equal. exact IH.
Qed.
Lemma multi_applies scans w root :
  length scans = length (columns st) → scans ≠ [] → Forall (λ s, ls_Predicate s = None) scans →
  (∀ e, w = Some e → bound_in (outs st) e) → buildMultiTablePlan scans w st = Ret root → applies root (flattenWhere w).
Proof using Hst.
  intros Hl Hne Hnone Hw. unfold buildMultiTablePlan. set (p0 := mkPlaced _ _ _).
  assert (Hb : Forall (λ x, bound_in (outs st) x) (flattenWhere w)) by (destruct w as [e|]; [by apply flattenAnd_bound, Hw|constructor]).
  assert (Hpos : (0 < length (columns st))%nat) by (rewrite <- Hl; destruct scans; [done|cbn; lia]).
  destruct (place_all scans (flattenWhere w) p0) as (Hlen & Hshape & Hall); [by cbn; rewrite length_replicate|done|constructor|done|apply flattenWhere_conjuncts|].
  assert (E0 : all_terms p0 = []).
  { unfold all_terms, p0. cbn [perTable p_edges residual fmap list_fmap app]. rewrite app_nil_r. clear. induction scans as [|s scans IH]; [done|exact IH]. }
  rewrite E0 in Hall. cbn [app] in Hall. cbv zeta. set (p := foldl (placeTerm scans st) p0 (flattenWhere w)) in *.
  set (scans' := zip_with set_filter scans (perTable p)).
  assert (Hl' : length scans' = length scans) by (unfold scans'; rewrite length_zip_with; lia).
  unfold buildJoinTree. destruct (index scans' 0) as [s0| | |] eqn:E0s; try done. cbn [mbind go_bind].
  destruct (growTree _ _ _ _ _ _) as [[root' used]| | |] eqn:Eg; try done. cbn [mbind go_bind]. intros [= <-].
  assert (Hs0 : scans' !! 0%nat = Some s0). { unfold index in E0s. destruct (scans' !! 0%nat); [by injection E0s as ->|done]. }
  apply growTree_applies in Eg as (Hlu & included & Hrange & Hsize & Ha).
  - change ((zip (p_edges p) used) ≫= _) with (unused_edges (p_edges p) used).
    assert (E : scan_terms scans' included ≡ₚ perTable p ≫= flattenWhere).
    { destruct (size_range included (length scans') Hrange) as [Hle Heq]. unfold scan_terms. rewrite Heq by lia. rewrite Hl'.
      by rewrite <- (filtered_terms scans) by (done || lia). }
    assert (Hperm : (scan_terms scans' included ++ used_terms (p_edges p) used) ++ residual p ++ (term <$> unused_edges (p_edges p) used) ≡ₚ flattenWhere w).
    { rewrite <- Hall. unfold all_terms. rewrite E, <- !app_assoc. f_equiv. rewrite (Permutation_app_comm (residual p)), app_assoc. f_equiv. by apply used_split. }
    pose proof (flattenWhere_conjuncts w) as Hc. rewrite <- Hperm in Hc. apply Forall_app in Hc as [_ Hc].
    rewrite <- Hperm. by apply filter_applies.
  - by rewrite length_replicate.
  - done.
  - exists (flattenWhere (ls_Predicate s0)). split; [|apply Forall_Forall2_diag, Forall_true; by left].
    unfold scan_terms. rewrite elements_singleton. cbn [mbind list_bind]. rewrite Hs0, app_nil_r.
    assert (Eu : used_terms (p_edges p) (replicate (length (p_edges p)) false) = []); [|by rewrite Eu, app_nil_r].
    unfold used_terms. clear. induction (p_edges p) as [|e edges IH]; [done|exact IH].
  - intros t ->%elem_of_singleton. by eapply lookup_lt_Some.
Qed.
Lemma planTables_applies scans w root :
  length scans = length (columns st) → scans ≠ [] → Forall (λ s, ls_Predicate s = None) scans →
  (∀ e, w = Some e → bound_in (outs st) e) → planTables scans w st = Ret root → applies root (flattenWhere w).
Proof using Hst.
  intros Hl Hne Hnone Hw. unfold planTables. destruct scans as [|scan [|s2 scans]]; [done| |by apply multi_applies].
  intros [= <-]. pose proof (List.Forall_inv Hnone) as Hn. cbv beta in Hn. exists (flattenWhere w). split; [done|].
  destruct w as [e|]; cbn [conditions]; rewrite Hn; cbn [flattenWhere app]; apply Forall_Forall2_diag, Forall_true; by left.
Qed.
End Where.

(** ** Property *)

(** C9: No conjunct of WHERE is lost or applied twice.  Whenever the FROM and
    WHERE clauses are planned, the conditions of the plan's scans, of its joins
    and of the filter above them are, up to order and to which side of a join
    condition comes first, exactly the conjuncts of the resolved predicate: one
    place for each, whichever of them the join tree used as keys. *)
Theorem where_terms_placed schemas refs st scans w w' root :
  length schemas = length refs → newSymbolTable schemas refs = Ret st →
  length scans = length refs → scans ≠ [] → Forall (λ s, ls_Predicate s = None) scans →
  resolveWhere st w = Ret w' → planTables scans w' st = Ret root → applies root (flattenWhere w').
Proof.
  intros Hl Hst Hls Hne Hnone Hw Hroot. destruct (newSymbolTable_spec _ _ _ Hl Hst) as (Hsym & Hlen & _).
  eapply planTables_applies; [exact Hsym|by rewrite Hlen, Hl|done|done| |exact Hroot].
  pose proof (resolveWhere_bound st Hsym w) as Hb. by rewrite Hw in Hb.
Qed.

Definition where_schemas : list Schema :=
  [[mkField "id" TypeInt64 EncPlain false; mkField "a" TypeInt64 EncPlain false];
   [mkField "id" TypeInt64 EncPlain false; mkField "v" TypeFloat64 EncPlain true]].
Definition where_refs : list Ast.TableRef := [mkTableRef "t" ""; mkTableRef "u" "x"].
Definition where_scans : list LogicalScan :=
  [mkScan "t" "t" [mkField "t.id" TypeInt64 EncPlain false; mkField "a" TypeInt64 EncPlain false] None [] None;
   mkScan "u" "u" [mkField "x.id" TypeInt64 EncPlain false; mkField "v" TypeFloat64 EncPlain true] None [] None].
(** x.id = t.id AND v > 1 AND a < v AND t.id = x.id AND 1 = 0 *)
Definition where_demo : Ast.Expr :=
  let eq := BinaryExpr OpEQ in let ref := ColumnRefExpr in let conj := BinaryExpr OpAnd in
  conj (conj (conj (conj (eq (ref "x" "id") (ref "t" "id")) (BinaryExpr OpGT (ref "" "v") (IntLiteral 1)))
    (BinaryExpr OpLT (ref "" "a") (ref "" "v"))) (eq (ref "t" "id") (ref "x" "id"))) (eq (IntLiteral 1) (IntLiteral 0)).
Definition where_resolved : option Ast.Expr :=
  match newSymbolTable where_schemas where_refs with
  | Ret st => match resolveWhere st (Some where_demo) with Ret w => w | _ => None end
  | _ => None
  end.
Lemma where_terms_placed_witness :
  ∃ root, applies root (flattenWhere where_resolved) ∧ length (flattenWhere where_resolved) = 5%nat ∧
    conditions root = [BinaryExpr OpEQ (IntLiteral 1) (IntLiteral 0); BinaryExpr OpGT (ColumnRefExpr "" "v") (IntLiteral 1);
      joinCond "t.id" "x.id"; BinaryExpr OpLT (ColumnRefExpr "" "a") (ColumnRefExpr "" "v"); joinCond "t.id" "x.id"].
Proof.
  destruct (newSymbolTable where_schemas where_refs) as [st| | |] eqn:Est; [|vm_compute in Est; discriminate Est..].
  assert (Ew : resolveWhere st (Some where_demo) = Ret where_resolved).
  { unfold where_resolved. rewrite Est. assert (H : match newSymbolTable where_schemas where_refs with
      | Ret st => match resolveWhere st (Some where_demo) with Ret _ => true | _ => false end | _ => false end = true) by (vm_compute; reflexivity).
    rewrite Est in H. destruct (resolveWhere st (Some where_demo)); [reflexivity|discriminate H..]. }
  assert (H : match newSymbolTable where_schemas where_refs with
      | Ret st => match planTables where_scans where_resolved st with Ret root => conditions root | _ => [] end | _ => [] end
      = [BinaryExpr OpEQ (IntLiteral 1) (IntLiteral 0); BinaryExpr OpGT (ColumnRefExpr "" "v") (IntLiteral 1);
      joinCond "t.id" "x.id"; BinaryExpr OpLT (ColumnRefExpr "" "a") (ColumnRefExpr "" "v"); joinCond "t.id" "x.id"]) by (vm_compute; reflexivity).
  rewrite Est in H. destruct (planTables where_scans where_resolved st) as [root| | |] eqn:Er; [|discriminate H..].
  exists root. split; [|split; [vm_compute; reflexivity|exact H]].
  apply (where_terms_placed where_schemas where_refs st where_scans (Some where_demo) where_resolved root);
    [reflexivity|exact Est|reflexivity|discriminate|repeat constructor|exact Ew|exact Er].
Defined.
