(* ===== verification/BuildErrors.v ===== *)
(** * Package planner: what is reported instead of planned

    A plan exists only for statements whose names resolve and whose aggregates
    are where SQL allows them. *)
From Stdlib Require Import ZArith Lia ZifyNat Ascii.
From stdpp Require Import base numbers list strings gmap.
From S2P Require Import Prelude Encoding Codec Float64 Schema Writer Reader Batch RowOps Aggregate Lexer Strconv Ast Parser ParseGiven Format ExprWalk Logical Physical PlanAnswer Catalog Optimizer Prune PrunePlan Build BuildNames BuildTables BuildQuery BuildPlan.
#[local] Open Scope Z_scope.

(** ** What rewriting visits *)

(** The nodes of an expression, those inside a stopping node left out. *)
Fixpoint walkTo (stop : Ast.Expr → bool) (e : Ast.Expr) : list Ast.Expr :=
  let walkAll := fix walkAll (l : list Ast.Expr) : list Ast.Expr :=
    match l with [] => [] | e :: l => walkTo stop e ++ walkAll l end in
  e :: if stop e then [] else match e with
  | BinaryExpr _ l r => walkTo stop l ++ walkTo stop r
  | UnaryExpr _ x | IsNullExpr x _ => walkTo stop x
  | BetweenExpr x lo hi _ => walkTo stop x ++ walkTo stop lo ++ walkTo stop hi
  | InExpr x l _ => walkTo stop x ++ walkAll l
  | LikeExpr x p _ => walkTo stop x ++ walkTo stop p
  | AggFuncExpr _ (Some a) _ => walkTo stop a
  | FuncExpr _ l => walkAll l
  | CaseExpr ws els =>
      (fix walkWhens (ws : list WhenClause) : list Ast.Expr :=
         match ws with [] => [] | mkWhen c x :: ws => walkTo stop c ++ walkTo stop x ++ walkWhens ws end) ws
      ++ match els with Some x => walkTo stop x | None => [] end
  | _ => []
  end.
Lemma walkTo_all e : walkTo (λ _, false) e = walkExpr e.
Proof.
  induction e using Expr_ast_ind; cbn [walkTo walkExpr]; try congruence; f_equal.
  - f_equal; [done|]. induction H as [|x l Hx _ IH]; [done|]. by rewrite Hx, IH.
  - destruct a; [|done]. by apply H.
  - induction H as [|x l Hx _ IH]; [done|]. by rewrite Hx, IH.
  - f_equal; [|destruct els; [by apply H0|done]]. induction H as [|[c x] ws [Hc Hx] _ IH]; [done|]. by rewrite Hc, Hx, IH.
Qed.

Section Whens.
Context (stop : Ast.Expr → bool).
Fixpoint whensTo (ws : list WhenClause) : list Ast.Expr :=
  match ws with [] => [] | mkWhen c x :: ws => walkTo stop c ++ walkTo stop x ++ whensTo ws end.
End Whens.

Section Visits.
Context {St : Type} (fn : Ast.Expr → St → go (option Ast.Expr * St)) (stop : Ast.Expr → bool) (I : St → Prop).
Context (fn_leaf : ∀ n s x s', fn n s = Ret (Some x, s') → (∃ t c, n = ColumnRefExpr t c) ∨ stop n = true).
Context (fn_keeps : ∀ n s x s', fn n s = Ret (x, s') → I s → I s').
(** Handed to [fn] in a good state, and not a subquery. *)
Definition visited (n : Ast.Expr) : Prop :=
  (∃ s r, I s ∧ fn n s = Ret r) ∧ (stop n = false → match n with SubqueryExpr _ => False | _ => True end).
Definition visits (e : Ast.Expr) : Prop :=
  ∀ s x s', rewriteExpr fn e s = Ret (x, s') → I s → I s' ∧ Forall visited (walkTo stop e).
Lemma visits_list l s x s' : Forall visits l → rewriteList fn l s = Ret (x, s') → I s → I s' ∧ Forall visited (l ≫= walkTo stop).
Proof using Type.
  intros Hl. revert s x s'. induction Hl as [|e l He _ IH]; intros s x s'; cbn [rewriteList].
  { intros [= _ <-] Hi. split; [done|constructor]. }
  intros ([e' s1] & E1 & ([l' s2] & E2 & E)%go_bind_inv)%go_bind_inv Hi. injection E as _ <-. cbn [mbind list_bind].
  destruct (He _ _ _ E1 Hi) as [Hi1 H1]. destruct (IH _ _ _ E2 Hi1) as [Hi2 H2]. split; [done|]. by apply Forall_app.
Qed.
Lemma visits_whens ws s x s' : Forall (when_both visits) ws → rewriteWhens fn ws s = Ret (x, s') → I s →
  I s' ∧ Forall visited (whensTo stop ws).
Proof using Type.
  intros Hl. revert s x s'. induction Hl as [|[c y] ws [Hc Hx] _ IH]; intros s x s'; cbn [rewriteWhens].
  { intros [= _ <-] Hi. split; [done|constructor]. }
  intros ([c' s1] & E1 & ([x' s2] & E2 & ([ws' s3] & E3 & E)%go_bind_inv)%go_bind_inv)%go_bind_inv Hi. injection E as _ <-. cbn [whensTo].
  destruct (Hc _ _ _ E1 Hi) as [Hi1 H1]. destruct (Hx _ _ _ E2 Hi1) as [Hi2 H2]. destruct (IH _ _ _ E3 Hi2) as [Hi3 H3].
  split; [done|]. by rewrite !Forall_app.
Qed.
Lemma visited_node n s out s' :
  fn n s = Ret (out, s') → I s → match n with SubqueryExpr _ => False | _ => True end → visited n.
Proof using Type. intros E Hi Hn. split; [by eexists _, _|]. by destruct n. Qed.
Lemma visited_replaced n s y s' : fn n s = Ret (Some y, s') → I s → Forall visited (walkTo stop n).
Proof using fn_leaf.
  intros E Hi. destruct (fn_leaf _ _ _ _ E) as [(t & c & ->)|Es].
  - cbn [walkTo]. destruct (stop _); (constructor; [by eapply visited_node|constructor]).
  - destruct n; cbn [walkTo]; rewrite Es; (constructor; [|constructor]); (split; [by eexists _, _|congruence]).
Qed.
Lemma node_all n l s : visited n → I s ∧ Forall visited l → I s ∧ Forall visited (n :: if stop n then [] else l).
Proof using Type. intros Hn [Hi Hl]. split; [done|]. destruct (stop n); by constructor. Qed.
Lemma rewriteExpr_visits e : visits e.
Proof using fn_leaf fn_keeps.
  induction e using Expr_ast_ind; intros s0 x0 s9; cbn [rewriteExpr]; intros ([out s1] & E0 & E)%go_bind_inv Hi0;
    pose proof (fn_keeps _ _ _ _ E0 Hi0) as Hi1; (destruct out as [y|]; [injection E as _ <-; split; [done|by eapply visited_replaced]|]);
    try discriminate E; pose proof (visited_node _ _ _ _ E0 Hi0 Logic.I) as Hv; cbn [walkTo]; (apply node_all; [exact Hv|]).
  all: try (injection E as _ <-; by split).
  - apply go_bind_inv in E as ([l s2] & E1 & ([r s3] & E2 & E)%go_bind_inv). injection E as _ <-.
    destruct (IHe1 _ _ _ E1 Hi1) as [Hi2 H1]. destruct (IHe2 _ _ _ E2 Hi2) as [Hi3 H2]. split; [done|]. by apply Forall_app.
  - apply go_bind_inv in E as ([x s2] & E1 & E). injection E as _ <-. by eapply IHe.
  - apply go_bind_inv in E as ([x s2] & E1 & E). injection E as _ <-. by eapply IHe.
  - apply go_bind_inv in E as ([x s2] & E1 & ([lo s3] & E2 & ([hi s4] & E3 & E)%go_bind_inv)%go_bind_inv). injection E as _ <-.
    destruct (IHe1 _ _ _ E1 Hi1) as [Hi2 H1]. destruct (IHe2 _ _ _ E2 Hi2) as [Hi3 H2]. destruct (IHe3 _ _ _ E3 Hi3) as [Hi4 H3].
    split; [done|]. by rewrite !Forall_app.
  - apply go_bind_inv in E as ([x s2] & E1 & ([l' s3] & E2 & E)%go_bind_inv). injection E as _ <-.
    destruct (IHe _ _ _ E1 Hi1) as [Hi2 H1]. destruct (visits_list l _ _ _ H E2 Hi2) as [Hi3 H2]. split; [done|]. by apply Forall_app.
  - apply go_bind_inv in E as ([l s2] & E1 & ([r s3] & E2 & E)%go_bind_inv). injection E as _ <-.
    destruct (IHe1 _ _ _ E1 Hi1) as [Hi2 H1]. destruct (IHe2 _ _ _ E2 Hi2) as [Hi3 H2]. split; [done|]. by apply Forall_app.
  - apply go_bind_inv in E as ([x s2] & E1 & E). injection E as _ <-. destruct a as [a|].
    + apply go_bind_inv in E1 as ([y s3] & E1 & E). injection E as _ <-. by eapply H.
    + injection E1 as _ <-. by split.
  - apply go_bind_inv in E as ([l' s3] & E2 & E). injection E as _ <-. by apply (visits_list l _ _ _ H E2).
  - apply go_bind_inv in E as ([ws' s2] & E1 & ([els' s3] & E2 & E)%go_bind_inv). injection E as _ <-.
    destruct (visits_whens ws _ _ _ H E1 Hi1) as [Hi2 H1]. destruct els as [x|].
    + apply go_bind_inv in E2 as ([y s4] & E2 & E). injection E as _ <-. destruct (H0 _ _ _ E2 Hi2) as [Hi3 H2]. split; [done|]. by apply Forall_app.
    + injection E2 as _ <-. rewrite app_nil_r. by split.
Qed.
End Visits.

(** ** The columns a reference can name *)

(** The columns of the FROM clause, under their tables' names. *)
Definition fromColumns (schemas : list Schema) (names : list string) : list (string * string) :=
  concat (zip_with (λ s name, (λ f, (name, Name f)) <$> s) schemas names).
(** A column by its name alone, or written with its table. *)
Definition answers (t c : string) (p : string * string) : Prop :=
  if decide (t = ""%string) then p.2 = c else p.1 +:+ "." +:+ p.2 = t +:+ "." +:+ c.
#[export] Instance answers_dec t c p : Decision (answers t c p).
Proof. unfold answers. case_decide; apply _. Defined.
Definition candidates (cols : list (string * string)) (t c : string) : list (string * string) := filter (answers t c) cols.
Definition names_one (cols : list (string * string)) (t c : string) : Prop := ∃ p, candidates cols t c = [p].
(** Every column of the expression names one column of the tables. *)
Definition known_node (cols : list (string * string)) (n : Ast.Expr) : Prop :=
  match n with ColumnRefExpr t c => names_one cols t c | SubqueryExpr _ => False | _ => True end.
Abbreviation known cols e := (Forall (known_node cols) (walkExpr e)).

(** Outside aggregates only GROUP BY columns; inside them, columns of the tables. *)
Definition grouped_node (cols : list (string * string)) (gb : list Ast.Expr) (n : Ast.Expr) : Prop :=
  match n with
  | ColumnRefExpr t c => ∃ t' c', ColumnRefExpr t' c' ∈ gb ∧ candidates cols t c = candidates cols t' c'
  | SubqueryExpr _ => False
  | AggFuncExpr _ (Some a) _ => containsAggregate a = false → known cols a
  | _ => True
  end.
Abbreviation grouped cols gb e := (Forall (grouped_node cols gb) (walkTo is_agg e)).
Definition group_node (cols : list (string * string)) (g : Ast.Expr) : Prop := ∃ t c, g = ColumnRefExpr t c ∧ names_one cols t c.
(** In HAVING a name that is no column may be the alias of an entry. *)
Definition having_node (cols : list (string * string)) (gb : list Ast.Expr) (aliased : string → Prop) (n : Ast.Expr) : Prop :=
  grouped_node cols gb n ∨ ∃ c, n = ColumnRefExpr "" c ∧ candidates cols "" c = [] ∧ aliased c.

(** An expression of a query with or without groups. *)
Definition checked (cols : list (string * string)) (gb : list Ast.Expr) (grouping : bool) (e : Ast.Expr) : Prop :=
  if grouping then grouped cols gb e else containsAggregate e = false ∧ known cols e.

(** An ORDER BY entry is a position, a header, or an expression of the query. *)
Definition order_entry (cols : list (string * string)) (gb : list Ast.Expr) (grouping : bool) (hs : list string) (ob : Ast.OrderByItem) : Prop :=
  let '(mkOrderBy x _) := ob in
  (∃ v, x = IntLiteral v ∧ 1 ≤ v ≤ Z.of_nat (length hs)) ∨ (∃ c, x = ColumnRefExpr "" c ∧ c ∈ hs) ∨
  (∀ v, x ≠ IntLiteral v) ∧ checked cols gb grouping x.

Lemma filter_unique {A B} `{EqDecision B} (f : A → B) l b :
  NoDup (f <$> l) → b ∈ l → filter (λ x, f x = f b) l = [b].
Proof.
  induction l as [|a l IH]; [by intros _ ?%elem_of_nil|]. cbn [fmap list_fmap]. intros [Hn Hl]%NoDup_cons Hb.
  rewrite filter_cons. apply elem_of_cons in Hb as [->|Hb].
  - rewrite decide_True by done. f_equal. destruct (filter _ l) as [|x l'] eqn:E; [done|].
    assert (Hx : x ∈ filter (λ x, f x = f a) l) by (rewrite E; by left). apply list_elem_of_filter in Hx as [Ex Hx].
    destruct Hn. rewrite <- Ex. by apply list_elem_of_fmap_2.
  - rewrite decide_False; [by apply IH|]. intros E. apply Hn. rewrite E. by apply list_elem_of_fmap_2.
Qed.

Lemma NoDup_fmap_fmap_inj name (s : Schema) :
  NoDup (Name <$> s) → (∀ c, c ∈ Name <$> s → undotted c) → NoDup ((λ f, name +:+ "." +:+ Name f) <$> s).
Proof.
  intros Hu Hd. change (λ f, name +:+ "." +:+ Name f) with ((λ c, name +:+ "." +:+ c) ∘ Name). rewrite list_fmap_compose.
  apply NoDup_fmap_2_strong; [|done]. intros a b Ha Hb E. by apply qualified_inj in E as [_ ?]; [|apply Hd..].
Qed.

Section Names.
Context (schemas : list Schema) (refs : list Ast.TableRef) (st : symbolTable).
Context (Hl : length schemas = length refs) (Hst : newSymbolTable schemas refs = Ret st) (Hplain : Forall plain_table schemas).
Abbreviation cols := (fromColumns schemas (tableNames st)).
Definition described (b : columnBinding) : string * string := (default ""%string (tableNames st !! cb_table b), cb_source b).
Definition spelled (p : string * string) : string := p.1 +:+ "." +:+ p.2.

Lemma qualified_key_fold (f : columnBinding → string) bs (m : gmap string columnBinding) k b :
  (∀ k b, m !! k = Some b → f b = k) → foldl (λ m b, <[f b := b]> m) m bs !! k = Some b → f b = k.
Proof using Type.
  revert m. induction bs as [|b0 bs IH]; intros m Hm; [apply Hm|]. cbn [foldl]. apply IH. intros k' b'.
  destruct (decide (f b0 = k')) as [<-|Hn]; [rewrite lookup_insert_eq; by intros [= <-]|]. rewrite lookup_insert_ne by done. apply Hm.
Qed.
Lemma qualified_key k b : qualified st !! k = Some b → b ∈ bindings st ∧ spelled (described b) = k.
Proof using Hl Hst.
  intros H. destruct (newSymbolTable_spec _ _ _ Hl Hst) as (Hsym & _). split; [by eapply so_qualified|].
  unfold spelled, described. cbn [fst snd]. unfold newSymbolTable in Hst. destruct (nameTables [] refs) as [names| | |]; try done. injection Hst as <-. cbn [qualified] in H.
  apply qualified_key_fold in H; [exact H|]. intros k' b'. by rewrite lookup_empty.
Qed.
Lemma cols_bindings : cols = described <$> bindings st.
Proof using Hl Hst.
  destruct (newSymbolTable_spec _ _ _ Hl Hst) as (Hsym & Hlen & Hnames & Hcol). unfold fromColumns, bindings.
  assert (E : zip_with (λ (s : Schema) name, (λ f, (name, Name f)) <$> s) schemas (tableNames st) = (λ bs : list columnBinding, described <$> bs) <$> columns st).
  { apply list_eq_same_length with (n := length schemas); [by rewrite length_fmap|rewrite length_zip_with; lia|].
    intros i x y Hi. rewrite list_lookup_fmap. intros (s & name & -> & Hs & Hn)%lookup_zip_with_Some.
    destruct (Hcol i s Hs) as (bs & Hbs & Hf). rewrite Hbs. intros [= <-]. pose proof (so_table st Hsym i bs) as Ht. clear -Hf Ht Hbs Hn.
    assert (Hin : ∀ b, b ∈ bs → cb_table b = i) by (intros b; by apply Ht). clear Ht Hbs.
    induction Hf as [|f b s bs [Hsrc _] _ IH]; [done|]. cbn [fmap list_fmap]. f_equal.
    - unfold described. rewrite (Hin b) by by left. by rewrite Hn, Hsrc.
    - apply IH. intros b' Hb'. apply Hin. by right. }
  rewrite E. clear. induction (columns st) as [|bs cs IH]; [done|]. cbn [fmap list_fmap concat]. rewrite fmap_app. f_equal. exact IH.
Qed.
Lemma spelled_unique : NoDup (spelled <$> cols).
Proof using Hl Hst Hplain.
  destruct (newSymbolTable_spec _ _ _ Hl Hst) as (_ & _ & Hnames & _). unfold fromColumns.
  assert (H : ∀ ss names, NoDup names → length names = length ss → Forall plain_table ss →
    NoDup (spelled <$> concat (zip_with (λ (s : list Field) name, (λ f, (name, Name f)) <$> s) ss names)) ∧
    ∀ x, x ∈ spelled <$> concat (zip_with (λ (s : list Field) name, (λ f, (name, Name f)) <$> s) ss names) →
      ∃ name c, name ∈ names ∧ undotted c ∧ x = name +:+ "." +:+ c).
  { clear. induction ss as [|s ss IH]; intros [|name names] Hnd Hlen Hp; try done; [split; [constructor|by intros x ?%elem_of_nil]|].
    apply NoDup_cons in Hnd as [Hnew Hnd]. apply List.Forall_cons_iff in Hp as [[Hu Hps] Hp].
    destruct (IH names Hnd ltac:(cbn in Hlen; lia) Hp) as [IH1 IH2]. cbn [zip_with concat]. rewrite fmap_app.
    rewrite Forall_forall in Hps. rewrite <- list_fmap_compose. split.
    - apply NoDup_app. split; [|split; [|done]].
      + apply (NoDup_fmap_fmap_inj name s); [done|]. intros c Hc. by destruct (Hps c Hc) as (_ & ? & _).
      + intros x (f & -> & Hf)%list_elem_of_fmap Hx. destruct (IH2 _ Hx) as (name' & c & Hn & Hc & E). unfold spelled in E. cbn [compose fst snd] in E.
        destruct (Hps (Name f)) as (_ & Hd & _); [by apply list_elem_of_fmap_2|]. apply qualified_inj in E as [-> _]; [|done..]. done.
    - intros x [(f & -> & Hf)%list_elem_of_fmap|(name' & c & Hn & Hc & ->)%IH2]%elem_of_app.
      + exists name, (Name f). split; [by left|]. split; [|done]. by destruct (Hps (Name f)) as (_ & ? & _); [apply list_elem_of_fmap_2|].
      + exists name', c. split; [by right|done]. }
  apply H; [|done|done]. unfold newSymbolTable in Hst. destruct (nameTables [] refs) as [names| | |] eqn:En; try done.
  injection Hst as <-. cbn [tableNames]. eapply nameTables_unique; [exact En|constructor].
Qed.
Lemma filter_described (P : string * string → Prop) `{∀ p, Decision (P p)} (bs : list columnBinding) :
  filter P (described <$> bs) = described <$> filter (λ b, P (described b)) bs.
Proof using Type.
  induction bs as [|b bs IH]; [done|]. cbn [fmap list_fmap]. rewrite !filter_cons. case_decide; cbn [fmap list_fmap]; by rewrite <- IH.
Qed.
Lemma resolve_names t c b : resolve st t c = Ret b → b ∈ bindings st ∧ candidates cols t c = [described b].
Proof using Hl Hst Hplain.
  destruct (newSymbolTable_spec _ _ _ Hl Hst) as (Hsym & _). intros H. pose proof (resolve_safe st Hsym t c) as Hb. rewrite H in Hb. split; [done|].
  unfold resolve in H. unfold candidates. case_decide as Ht.
  - destruct (qualified st !! _) as [b'|] eqn:E; [|done]. injection H as ->. apply qualified_key in E as [_ E].
    rewrite <- (filter_unique spelled cols (described b)) by (try apply spelled_unique; rewrite cols_bindings; by apply list_elem_of_fmap_2).
    apply list_filter_iff. intros p. unfold answers. rewrite decide_False by done. unfold spelled in E |- *. rewrite E. done.
  - subst t. rewrite (so_byName st Hsym) in H. destruct (filter _ (bindings st)) as [|b' [|]] eqn:E; try done.
    injection H as ->. rewrite cols_bindings, filter_described. change [described b] with (described <$> [b]). f_equal. rewrite <- E.
    apply list_filter_iff. intros x. unfold answers. by rewrite decide_True.
Qed.
Lemma resolve_known t c b : resolve st t c = Ret b → names_one cols t c.
Proof using Hl Hst Hplain. intros H. exists (described b). by apply resolve_names. Qed.
(** The same output name, the same column. *)
Lemma same_column t c b t' c' b' :
  resolve st t c = Ret b → resolve st t' c' = Ret b' → cb_out b = cb_out b' → candidates cols t c = candidates cols t' c'.
Proof using Hl Hst Hplain.
  intros [Hb ->]%resolve_names [Hb' ->]%resolve_names Eo. pose proof (cl_unique st (symbols_clean schemas refs st Hl Hst Hplain)) as Hu.
  unfold outs in Hu. apply list_elem_of_lookup_1 in Hb as [i Hi], Hb' as [j Hj].
  assert (i = j) as <-.
  { eapply NoDup_lookup; [exact Hu| |]; rewrite list_lookup_fmap; [rewrite Hi|rewrite Hj]; cbn; [done|by rewrite Eo]. }
  rewrite Hi in Hj. by injection Hj as ->.
Qed.

(** ** Clauses *)

Lemma resolveColumns_known e e' : resolveColumns st e = Ret e' → known cols e.
Proof using Hl Hst Hplain.
  unfold resolveColumns. intros ([x u] & E & _)%go_bind_inv.
  destruct (rewriteExpr_visits (resolveRef st) (λ _, false) (λ _, True)) with (e := e) (3 := E) as [_ Hv]; [|done|done|].
  - intros n s y s' H. destruct n; try done. left. by eexists _, _.
  - rewrite walkTo_all in Hv. eapply Forall_impl; [exact Hv|]. intros n ((s & r & _ & Hr) & Hq). destruct n; try done; try (by apply Hq).
    cbn [resolveRef] in Hr. apply go_bind_inv in Hr as (b & Hb & _). by eapply resolve_known.
Qed.
Lemma resolveScalar_known e e' : resolveScalar st e = Ret e' → containsAggregate e = false ∧ known cols e.
Proof using Hl Hst Hplain. unfold resolveScalar. destruct (containsAggregate e); [done|]. intros H. split; [done|]. by eapply resolveColumns_known. Qed.

(** *** Aggregate queries *)

Context (gb : list Ast.Expr).
Abbreviation grouped_node := (grouped_node cols gb).
Abbreviation group_node := (group_node cols).
Abbreviation having_node := (having_node cols gb).
Abbreviation checked := (checked cols gb).
Definition group_cols_ok (G : gset string) : Prop :=
  ∀ name, name ∈ G → ∃ t c b, ColumnRefExpr t c ∈ gb ∧ resolve st t c = Ret b ∧ cb_out b = name.
Lemma addGroups_ok gbs ab ab' :
  (∀ g, g ∈ gbs → g ∈ gb) → group_cols_ok (groupCols ab) → foldM (addGroup st) ab gbs = Ret ab' →
  group_cols_ok (groupCols ab') ∧ Forall group_node gbs.
Proof using Hl Hst Hplain.
  revert ab. induction gbs as [|g gbs IH]; intros ab Hin Hg; cbn [foldM]; [by intros [= <-]|].
  intros (ab1 & E1 & E2)%go_bind_inv. unfold addGroup in E1. destruct (containsAggregate g); [done|].
  destruct g as [t c| | | | | | | | | | | | | | | | ]; try done. apply go_bind_inv in E1 as (x & Ex & E1).
  unfold resolveColumns in Ex. cbn [rewriteExpr resolveRef] in Ex. destruct (resolve st t c) as [b| | |] eqn:Eb; try done.
  cbn [mbind go_bind] in Ex. injection Ex as <-. injection E1 as <-.
  assert (Hg' : group_cols_ok ({[cb_out b]} ∪ groupCols ab)).
  { intros name [->%elem_of_singleton|Hn]%elem_of_union; [|by apply Hg]. exists t, c, b. split; [apply Hin; by left|done]. }
  apply IH in E2 as [H1 H2]; [|intros g Hi; apply Hin; by right|exact Hg']. split; [done|].
  constructor; [|done]. exists t, c. split; [done|]. by eapply resolve_known.
Qed.
Lemma aggArgument_known fn arg d a : aggArgument st fn arg d = Ret a →
  match arg with Some x => containsAggregate x = false → known cols x | None => True end.
Proof using Hl Hst Hplain.
  destruct arg as [x|]; [|done]. intros H Hx.
  assert (Hc : (∃ y, resolveColumns st x = Ret y) ∨ x = StarExpr).
  { destruct x; try (by right); left; cbn [aggArgument] in H; rewrite Hx in H; apply go_bind_inv in H as (y & Hy & _); by exists y. }
  destruct Hc as [[y Hy]| ->]; [by eapply resolveColumns_known|]. by repeat constructor.
Qed.
Lemma addAggregate_inv f arg d name ab e ab' :
  addAggregate st f arg d name ab = Ret (e, ab') → groupCols ab' = groupCols ab ∧ grouped_node (AggFuncExpr f arg d).
Proof using Hl Hst Hplain.
  unfold addAggregate. destruct (_ && _); [done|]. intros (a & Ea & (nm & _ & E)%go_bind_inv)%go_bind_inv.
  destruct (match a with None => _ | Some _ => _ end) as [x y]. injection E as _ <-. split; [done|].
  cbn [grouped_node]. apply aggArgument_known in Ea. by destruct arg.
Qed.
Lemma findOrAdd_inv f arg d ab e ab' :
  findOrAddAggregate st f arg d ab = Ret (e, ab') → groupCols ab' = groupCols ab ∧ grouped_node (AggFuncExpr f arg d).
Proof using Hl Hst Hplain.
  unfold findOrAddAggregate. intros (key & Ek & E)%go_bind_inv. destruct (list_find _ _) as [[i a]|]; [|by apply addAggregate_inv in E].
  injection E as _ <-. split; [done|]. destruct arg as [x|]; [|done]. cbn [grouped_node]. intros Hx.
  assert (Hc : (∃ y, resolveColumns st x = Ret y) ∨ x = StarExpr).
  { destruct x; try (by right); left; rewrite Hx in Ek; apply go_bind_inv in Ek as (y & Hy & _); by exists y. }
  destruct Hc as [[y Hy]| ->]; [by eapply resolveColumns_known|]. by repeat constructor.
Qed.
Lemma rewriteAgg_inv alias (aliased : string → Prop) e ab e' ab' :
  (∀ lookup c x, alias = Some lookup → lookup c = Some x → aliased c) →
  group_cols_ok (groupCols ab) → rewriteAgg st alias e ab = Ret (e', ab') →
  groupCols ab' = groupCols ab ∧ Forall (match alias with Some _ => having_node aliased | None => grouped_node end) (walkTo is_agg e).
Proof using Hl Hst Hplain.
  intros Hal Hg E. unfold rewriteAgg in E.
  destruct (rewriteExpr_visits (rewriteRef st alias) is_agg (λ s, groupCols s = groupCols ab)) with (e := e) (3 := E) as [H1 H2]; [| |done|].
  - intros n s x s' H. destruct n; try done; [left; by eexists _, _|by right].
  - intros n s x s' H <-. destruct n; try (by injection H as _ <-); cbn [rewriteRef] in H.
    + destruct (resolve st Table Name) as [b|err| |]; try done.
      * case_decide; [by injection H as _ <-|done].
      * destruct alias as [lookup|]; [|done]. destruct (_ && _); [|done]. destruct (lookup Name); [by injection H as _ <-|done].
    + apply go_bind_inv in H as ([out ab1] & H & E1). injection E1 as _ <-. by apply findOrAdd_inv in H as [? _].
  - split; [done|]. eapply Forall_impl; [exact H2|]. intros n ((s & r & Hs & Hr) & Hq). cbv beta in Hs.
    assert (Hn : grouped_node n ∨ ∃ lookup, alias = Some lookup ∧ having_node aliased n); [|destruct alias; [destruct Hn as [Hn|(? & _ & Hn)]; [by left|done]|by destruct Hn as [Hn|(? & ? & _)]]].
    destruct n; try (by left); cbn [rewriteRef] in Hr.
    + destruct (resolve st Table Name) as [b|err| |] eqn:Eb; try done.
      * case_decide as Hb; [|done]. left. rewrite Hs in Hb. destruct (Hg _ Hb) as (t & c & b' & Hin & Hb' & Eo).
        exists t, c. split; [done|]. by eapply same_column.
      * destruct alias as [lookup|]; [|done]. destruct (bool_decide (Table = ""%string) && _) eqn:Ec; [|done].
        apply andb_true_iff in Ec as [->%bool_decide_eq_true Ec%bool_decide_eq_true]. destruct (lookup Name) as [x|] eqn:Ex; [|done].
        right. exists lookup. split; [done|]. right. exists Name. split; [done|]. split; [|by eapply Hal].
        unfold candidates. rewrite cols_bindings, filter_described. destruct (newSymbolTable_spec _ _ _ Hl Hst) as (Hsym & _).
        rewrite (so_byName st Hsym) in Ec. erewrite list_filter_iff; [by rewrite Ec|]. intros x0. unfold answers. by rewrite decide_True.
    + left. apply go_bind_inv in Hr as ([out ab1] & Hr & _). by apply findOrAdd_inv in Hr as [_ ?].
Qed.
Lemma addItems_inv items acc ab exprs ab' :
  group_cols_ok (groupCols ab) → foldM (addItem st) (acc, ab) items = Ret (exprs, ab') →
  groupCols ab' = groupCols ab ∧ Forall (λ it, Forall grouped_node (walkTo is_agg (si_expr it))) items.
Proof using Hl Hst Hplain.
  revert acc ab. induction items as [|it items IH]; intros acc ab Hg; cbn [foldM]; [by intros [= _ <-]|].
  intros ([acc1 ab1] & E1 & E2)%go_bind_inv. unfold addItem in E1. apply go_bind_inv in E1 as ([x ab2] & E1 & E). injection E as _ <-.
  assert (H : groupCols ab2 = groupCols ab ∧ Forall grouped_node (walkTo is_agg (si_expr it))).
  { destruct (si_expr it) eqn:Ee; try (by apply (rewriteAgg_inv None (λ _, True)) in E1).
    apply addAggregate_inv in E1 as [? Hn]. split; [done|]. cbn [walkTo is_agg]. by repeat constructor. }
  destruct H as [H1 H2]. rewrite <- H1 in Hg. destruct (IH _ _ Hg E2) as [H3 H4]. split; [congruence|]. by constructor.
Qed.
(** The input of a query whose expressions are checked against [gb]. *)
Definition input_groups (q : queryInput) : Prop :=
  match q with FromRows _ => True | FromGroups _ ab _ => group_cols_ok (groupCols ab) end.
Definition is_grouped (q : queryInput) : bool := match q with FromRows _ => false | FromGroups _ _ _ => true end.
Lemma aliasOf_item items exprs name e : aliasOf items exprs name = Some e → ∃ it, it ∈ items ∧ si_userAlias it = name.
Proof using Type.
  unfold aliasOf. destruct (list_find _ _) as [[i [it x]]|] eqn:E; [|done]. intros _. apply list_find_Some in E as (Hx & Hn & _).
  exists it. split; [|done]. apply lookup_zip_Some in Hx as [Hi _]. by eapply list_elem_of_lookup_2.
Qed.
Lemma buildAggregation_inv child having items q :
  buildAggregation st child gb having items = Ret q →
  q_items q = items ∧ is_grouped (q_input q) = true ∧ input_groups (q_input q) ∧ Forall group_node gb ∧
  Forall (λ it, Forall grouped_node (walkTo is_agg (si_expr it))) items ∧
  ∀ h, having = Some h → Forall (having_node (λ c, ∃ it, it ∈ items ∧ si_userAlias it = c)) (walkTo is_agg h).
Proof using Hl Hst Hplain.
  unfold buildAggregation. intros (ab & Eg & ([exprs ab1] & Ei & E)%go_bind_inv)%go_bind_inv.
  apply addGroups_ok in Eg as [Hg Hgs]; [|done|by intros name ?%elem_of_empty]. destruct (addItems_inv _ _ _ _ _ Hg Ei) as [Eg1 Hitems].
  destruct having as [h|].
  - apply go_bind_inv in E as ([pred ab2] & Eh & E). injection E as <-. rewrite <- Eg1 in Hg.
    destruct (rewriteAgg_inv (Some (aliasOf items exprs)) (λ c, ∃ it, it ∈ items ∧ si_userAlias it = c) _ _ _ _ (ltac:(intros lookup c x [= <-]; apply aliasOf_item)) Hg Eh) as [Eg2 Hh].
    split; [done|]. split; [done|]. cbn [q_input input_groups]. rewrite Eg2. split; [done|]. split; [done|]. split; [done|]. by intros ? [= <-].
  - injection E as <-. split; [done|]. split; [done|]. cbn [q_input input_groups]. rewrite Eg1. by split_and!.
Qed.
Lemma buildScalarSelect_inv child items q :
  buildScalarSelect st child items = Ret q →
  q_items q = items ∧ is_grouped (q_input q) = false ∧ Forall (λ it, containsAggregate (si_expr it) = false ∧ known cols (si_expr it)) items.
Proof using Hl Hst Hplain.
  unfold buildScalarSelect. intros (exprs & E & E')%go_bind_inv. injection E' as <-. split; [done|]. split; [done|].
  revert E. cut (∀ acc, foldM (λ acc it, e ← resolveScalar st (si_expr it); Ret (acc ++ [e])) acc items = Ret exprs →
    Forall (λ it, containsAggregate (si_expr it) = false ∧ known cols (si_expr it)) items); [intros H; apply H|].
  induction items as [|it items IH]; intros acc; cbn [foldM]; [constructor|].
  intros (acc1 & (x & Ex & _)%go_bind_inv & E2)%go_bind_inv. constructor; [by eapply resolveScalar_known|by eapply IH].
Qed.
Lemma orderExpr_inv q e x q' :
  input_groups q → orderExpr st q e = Ret (x, q') → input_groups q' ∧ is_grouped q' = is_grouped q ∧ checked (is_grouped q) e.
Proof using Hl Hst Hplain.
  destruct q as [child|child ab having]; cbn [orderExpr input_groups is_grouped].
  - intros _ (y & Ey & E)%go_bind_inv. injection E as _ <-. split; [done|]. split; [done|]. by eapply resolveScalar_known.
  - intros Hg ([y ab1] & Ey & E)%go_bind_inv. injection E as _ <-. apply (rewriteAgg_inv None (λ _, True)) in Ey as [Eg H]; [|done|done].
    cbn [input_groups is_grouped]. rewrite Eg. by split_and!.
Qed.

(** *** ORDER BY *)

Lemma namedTarget_inv name i entries found k :
  namedTarget name i entries found = Ret (Some k) → (∃ f, found = Some f) ∨ name ∈ si_alias <$> entries.*1.
Proof using Type.
  revert i found. induction entries as [|[it e] entries IH]; intros i found; cbn [namedTarget].
  { destruct found as [f|]; [|done]. intros _. left. by eexists. }
  cbn [fmap list_fmap fst]. case_decide as Hn; [intros [H|H]%IH; [by left|right; by right]|].
  intros _. right. rewrite <- Hn. by left.
Qed.
Lemma orderTarget_inv q x o :
  length (q_exprs q) = length (q_items q) → orderTarget q x (length (q_items q)) = Ret o →
  match o with
  | Some _ => (∃ v, x = IntLiteral v ∧ 1 ≤ v ≤ Z.of_nat (length (q_items q))) ∨ ∃ c, x = ColumnRefExpr "" c ∧ c ∈ si_alias <$> q_items q
  | None => ∀ v, x ≠ IntLiteral v
  end.
Proof using Type. clear Hl.
  intros Hlen. unfold orderTarget. destruct x; try (by intros [= <-]).
  - case_decide as Ht; [by intros [= <-]|]. destruct o as [k|]; [|done]. intros [[f Hf]|H]%namedTarget_inv; [done|]. right. exists Name.
    subst Table. split; [done|]. rewrite take_ge in H by (rewrite length_zip_with; lia).
    rewrite fst_zip in H; [done|]. by rewrite Hlen.
  - destruct ((Value <? 1) || _) eqn:E; [done|]. intros [= <-]. apply orb_false_iff in E as [E1%Z.ltb_ge E2%Z.ltb_ge].
    left. exists Value. split; [done|lia].
Qed.
Abbreviation order_entry := (order_entry cols gb).
Lemma orderKey_inv q distinct o ob o' :
  length (q_exprs q) = length (q_items q) → input_groups (or_input o) → orderKey st q distinct o ob = Ret o' →
  input_groups (or_input o') ∧ is_grouped (or_input o') = is_grouped (or_input o) ∧
  order_entry (is_grouped (or_input o)) (si_alias <$> q_items q) ob.
Proof using Hl Hst Hplain.
  intros Hlen Hg. destruct ob as [x desc]. cbn [orderKey]. intros (target & Et & ([o1 idx] & E1 & (it & _ & E)%go_bind_inv)%go_bind_inv)%go_bind_inv.
  injection E as <-. cbn [or_input]. apply orderTarget_inv in Et; [|done]. unfold BuildErrors.order_entry. rewrite length_fmap.
  destruct target as [i|].
  - injection E1 as <- _. split; [done|]. split; [done|]. destruct Et as [Et|Et]; [by left|right; by left].
  - apply go_bind_inv in E1 as ([y input] & Ey & E1). apply orderExpr_inv in Ey as (H1 & H2 & H3); [|done]. cbn [or_input] in *.
    assert (Eo : or_input o1 = input).
    { destruct (matchItem _ _); [by injection E1 as <- _|]. destruct distinct; [done|]. apply go_bind_inv in E1 as (nm & _ & E1). by injection E1 as <- _. }
    rewrite Eo. split; [done|]. split; [done|]. right. by right.
Qed.
Lemma finish_inv q distinct ob limit offset root :
  length (q_exprs q) = length (q_items q) → input_groups (q_input q) → finish st q distinct ob limit offset = Ret root →
  Forall (order_entry (is_grouped (q_input q)) (si_alias <$> q_items q)) ob.
Proof using Hl Hst Hplain.
  intros Hlen Hg. unfold finish. intros ([items used] & _ & (o & Eo & _)%go_bind_inv)%go_bind_inv.
  cut (∀ o0, input_groups (or_input o0) → foldM (orderKey st q distinct) o0 ob = Ret o →
    Forall (order_entry (is_grouped (or_input o0)) (si_alias <$> q_items q)) ob); [intros H; exact (H (mkOrdering (q_input q) items used []) Hg Eo)|].
  clear Eo Hg. induction ob as [|b ob IH]; intros o0 Hg; cbn [foldM]; [constructor|].
  intros (o1 & E1 & E2)%go_bind_inv. apply orderKey_inv in E1 as (H1 & H2 & H3); [|done|done]. constructor; [done|]. rewrite <- H2. by apply IH.
Qed.
End Names.

(** ** Sound queries *)

Definition aggregates (columns : list SelectColumn) (gb : list Ast.Expr) (having : option Ast.Expr) : bool :=
  negb (bool_decide (gb = [])) || containsAggregate_opt having || existsb (λ '(mkSelectColumn e _), containsAggregate e) columns.
(** A star, or an expression with the property. *)
Definition entry (P : Ast.Expr → Prop) (c : SelectColumn) : Prop := let '(mkSelectColumn e _) := c in e = StarExpr ∨ P e.
(** What SQL asks of a query over tables with these columns. *)
Definition sound_query (schemas : list Schema) (stmt : SelectStmt) : Prop :=
  let '(mkSelect distinct columns from where_ having gb orderBy limit offset) := stmt in
  let cols := fromColumns schemas (refName <$> from) in
  let grouping := aggregates columns gb having in
  from ≠ [] ∧ NoDup (refName <$> from) ∧
  (∀ e, where_ = Some e → checked cols gb false e) ∧
  Forall (entry (checked cols gb grouping)) columns ∧
  (if grouping then
     Forall (group_node cols) gb ∧
     ∀ h, having = Some h → Forall (having_node cols gb (λ c, c = ""%string ∨ ∃ e, mkSelectColumn e c ∈ columns)) (walkTo is_agg h)
   else having = None) ∧
  Forall (order_entry cols gb grouping (headers schemas columns)) orderBy.

Lemma nameTables_refs seen refs names : nameTables seen refs = Ret names → names = seen ++ (refName <$> refs).
Proof.
  revert seen. induction refs as [|ref refs IH]; intros seen; cbn [nameTables]; [intros [= <-]; by rewrite app_nil_r|].
  case_decide; [done|]. intros ->%IH. by rewrite <- app_assoc.
Qed.
Lemma symbols_names schemas refs st : newSymbolTable schemas refs = Ret st →
  tableNames st = refName <$> refs ∧ NoDup (refName <$> refs).
Proof.
  unfold newSymbolTable. destruct (nameTables [] refs) as [names| | |] eqn:E; try done. intros [= <-]. cbn [tableNames].
  pose proof (nameTables_unique _ _ _ E ltac:(constructor)) as Hn. apply nameTables_refs in E as ->. by split.
Qed.
Lemma star_items st it :
  it ∈ concat (zip_with (λ bs name, (λ b, mkSelectItem (ColumnRefExpr name (cb_source b)) (cb_source b) "") <$> bs) (columns st) (tableNames st)) →
  si_userAlias it = ""%string ∧ containsAggregate (si_expr it) = false.
Proof.
  intros (l & Hl & Hit)%list_elem_of_In%in_concat. apply list_elem_of_In in Hl, Hit. apply list_elem_of_lookup_1 in Hl as [t Ht].
  apply lookup_zip_with_Some in Ht as (bs & name & -> & _ & _). apply list_elem_of_fmap in Hit as (b & -> & _). done.
Qed.
Lemma expand_aggregates cols st :
  existsb (λ it, containsAggregate (si_expr it)) (expandSelectList cols st) = existsb (λ '(mkSelectColumn e _), containsAggregate e) cols.
Proof.
  unfold expandSelectList. induction cols as [|[e alias] cols IH]; [done|]. cbn [mbind list_bind existsb]. rewrite existsb_app, IH. f_equal.
  destruct e; try (cbn [existsb si_expr]; by rewrite orb_false_r).
  apply not_true_iff_false. rewrite existsb_exists. intros (it & Hit & E). apply list_elem_of_In, star_items in Hit as [_ Hn]. congruence.
Qed.
Lemma expand_entries (P : Ast.Expr → Prop) cols st :
  Forall (λ it, P (si_expr it)) (expandSelectList cols st) → Forall (entry P) cols.
Proof.
  unfold expandSelectList. induction cols as [|[e alias] cols IH]; [constructor|]. cbn [mbind list_bind]. intros [H1 H2]%Forall_app.
  constructor; [|by apply IH]. destruct e; try (by left); right; exact (List.Forall_inv H1).
Qed.
Lemma expand_alias cols st it : it ∈ expandSelectList cols st → si_userAlias it = ""%string ∨ ∃ e, mkSelectColumn e (si_userAlias it) ∈ cols.
Proof.
  unfold expandSelectList. intros ([e alias] & Hit & Hin)%list_elem_of_bind.
  destruct e; try (apply list_elem_of_singleton in Hit as ->; right; by eexists). apply star_items in Hit as [Hu _]. by left.
Qed.

Lemma Build_sound fs distinct cols from where_ having gb orderBy limit offset c plan c' :
  (∀ path data, fs !! path = Some data → bytes_ok data) → plain_catalog fs c →
  stmt_given (mkSelect distinct cols from where_ having gb orderBy limit offset) →
  Build fs (mkSelect distinct cols from where_ having gb orderBy limit offset) c = Ret (plan, c') →
  ∃ scans c1, lookupTables fs c from = Ret (scans, c1) ∧
    sound_query (ls_Schema <$> scans) (mkSelect distinct cols from where_ having gb orderBy limit offset).
Proof.
  intros Hfs Hc (Hcols & Hhaving & _). unfold Build. destruct from as [|ref from]; [done|]. set (refs := ref :: from).
  intros ([scans c1] & Elook & (st & Hst & (w & Ew & (root & Eroot & E)%go_bind_inv)%go_bind_inv)%go_bind_inv)%go_bind_inv.
  cbv zeta in E. apply go_bind_inv in E as (q & Eq & (plan' & Eplan & _)%go_bind_inv).
  exists scans, c1. split; [done|]. pose proof (lookupTables_ok fs Hfs refs c Hc) as Hl. rewrite Elook in Hl. destruct Hl as [Hl Hs]. cbn [fst] in *.
  assert (Hl' : length (ls_Schema <$> scans) = length refs) by by rewrite length_fmap.
  assert (Hplain : Forall plain_table (ls_Schema <$> scans)) by (apply Forall_fmap; eapply Forall_impl; [exact Hs|]; by intros scan (H & _)).
  destruct (symbols_names _ _ _ Hst) as [Hnames Hnd]. destruct (newSymbolTable_spec _ _ _ Hl' Hst) as (Hsym & _).
  pose proof (symbols_clean _ _ _ Hl' Hst Hplain) as Hclean.
  assert (Hrows : rows_ok st root).
  { destruct (applied_ok _ _ _ Hl Hst Hs) as [Hscans Hnone].
    pose proof (planTables_ok st Hsym (imap (applyOutputNames st) scans) w Hscans) as H. rewrite Eroot in H. apply H; [|done|].
    - intros En. apply (f_equal length) in En. rewrite length_imap, Hl in En. done.
    - pose proof (resolveWhere_bound st Hsym where_) as Hw. by rewrite Ew in Hw. }
  rewrite expand_aggregates in Eq. fold (aggregates cols gb having) in Eq. unfold sound_query. rewrite <- Hnames.
  set (K := fromColumns (ls_Schema <$> scans) (tableNames st)).
  assert (Hq : input_groups st gb (q_input q) ∧ is_grouped (q_input q) = aggregates cols gb having ∧ q_items q = expandSelectList cols st ∧
    length (q_exprs q) = length (q_items q) ∧ Forall (λ it, checked K gb (aggregates cols gb having) (si_expr it)) (expandSelectList cols st) ∧
    if aggregates cols gb having then Forall (group_node K) gb ∧
     ∀ h, having = Some h → Forall (having_node K gb (λ c, c = ""%string ∨ ∃ e, mkSelectColumn e c ∈ cols)) (walkTo is_agg h)
    else having = None).
  { destruct (aggregates cols gb having).
    - pose proof (buildAggregation_ok st Hsym Hclean root gb having (expandSelectList cols st) Hrows ltac:(by intros h ->) (expand_given _ _ Hcols)) as Hok.
      rewrite Eq in Hok. destruct Hok as [Hok _].
      destruct (buildAggregation_inv _ _ st Hl' Hst Hplain gb _ _ _ _ Eq) as (H1 & H2 & H3 & H4 & H5 & H6).
      split; [done|]. split; [done|]. split; [done|]. split; [by rewrite (qo_length st q Hok)|]. split; [done|]. split; [done|].
      intros h Eh. eapply Forall_impl; [exact (H6 h Eh)|]. intros n [Hn|(c0 & -> & Hn & it & Hit & <-)]; [by left|right].
      exists (si_userAlias it). split; [done|]. split; [done|]. by eapply expand_alias.
    - destruct having as [h|]; [done|]. pose proof (buildScalarSelect_ok st Hsym root (expandSelectList cols st) Hrows) as Hok.
      rewrite Eq in Hok. destruct Hok as [Hok _]. destruct (buildScalarSelect_inv _ _ st Hl' Hst Hplain _ _ _ Eq) as (H1 & H2 & H3).
      split; [by destruct (q_input q)|]. split; [done|]. split; [done|]. split; [by rewrite (qo_length st q Hok)|]. by split. }
  destruct Hq as (Hg & Egr & Hitems & Hlen & Hent & Hgr). split; [done|]. rewrite Hnames at 1. split; [done|]. split.
  { intros e ->. cbn [resolveWhere] in Ew. apply go_bind_inv in Ew as (x & Ex & _). by eapply resolveScalar_known. }
  split; [by eapply expand_entries|]. split; [done|].
  pose proof (finish_inv _ _ st Hl' Hst Hplain gb q distinct orderBy limit offset plan' Hlen Hg Eplan) as Hob. rewrite Egr, Hitems in Hob.
  by rewrite (expand_headers cols _ _ _ Hl' Hst) in Hob.
Qed.

(** ** Property *)

Definition tablesNamed (stmt : SelectStmt) : list Ast.TableRef := let '(mkSelect _ _ from _ _ _ _ _ _) := stmt in from.

Definition ungrouped_text : string := "SELECT name, COUNT(*) FROM t WHERE id > 2".
Definition ungrouped_stmt : SelectStmt :=
  mkSelect false [mkSelectColumn (ColumnRefExpr "" "name") ""; mkSelectColumn (AggFuncExpr "COUNT" (Some StarExpr) false) ""]
    [mkTableRef "t" ""] (Some (BinaryExpr OpGT (ColumnRefExpr "" "id") (IntLiteral 2))) None [] [] None None.

(** Why column names must be plain: a column called [_agg_arg_1] is summed in
    place of the computed argument (both aggregates read column 0). *)
Definition reserved_schema : Schema := [mkField "_agg_arg_1" TypeInt64 EncPlain false; mkField "x" TypeInt64 EncPlain false].
Example reserved_name_shadows :
  match planText ∅ (Register (∅ : Catalog) "t" "t" reserved_schema) "SELECT MAX(_agg_arg_1), SUM(x + 1) FROM t" with
  | Ret (LAggregate _ gb aggs, _) =>
      match preProjection aggs reserved_schema with
      | Ret pes => r ← resolveAggConfig gb aggs (project_schema pes); Ret (a_ColIdx <$> (r.2 : list AggExpr))
      | _ => Panic
      end
  | _ => Panic
  end = Ret [0; 0].
Proof. vm_compute. reflexivity. Qed.
