(* ===== verification/AggMerge.v ===== *)
(** * Package exec: merging partial aggregates ([mergePartialAgg] of [exec/parallel.go])

    Workers that aggregate different rows each end with groups of their own;
    [mergePartialAgg] folds one worker's groups into another's.  [merge_st] is what
    it does to one aggregate of one group.  Merging the state of some rows with the
    state of more rows gives the state of all of them ([merge_run]), except for
    float sums, whose rounding depends on the order of the additions. *)
From Stdlib Require Import ZArith Lia ZifyNat.
From stdpp Require Import base numbers list strings gmap.
From S2P Require Import Prelude Encoding Codec Float64 Schema Writer Reader Batch Scratch VExpr VKernel VCase VExprSpec Operator Distinct Sorting Emit Sort Aggregate AggSpec AggKeys AggInt AggPath AggConsume AggValue.
#[local] Open Scope Z_scope.

(** ** The code *)

(** The case of MIN ([less]) and MAX of a key both sides have.  The counts are
    those before the merge; "" may be a value, so the counts say which side has
    seen none. *)
Definition mergeMinMax (less : bool) (ae : AggExpr) (src : group) (j : nat) (dst : group) : go group :=
  match AccumType ae with
  | TypeString =>
      if decide (strs dst = [] ∨ strs src = []) then Ret dst else
      n ← index (nonNull src) j;
      if decide (n = 0) then Ret dst else
      s ← index (strs src) j; m ← index (nonNull dst) j;
      l ← minMaxString (strs dst) j s (bool_decide (0 < m)) less;
      Ret (set_strs dst l)
  | t =>
      a ← index (accs dst) j; b ← index (accs src) j;
      let better := match t with
        | TypeFloat64 => if less then f64_lt (to_u64 b) (to_u64 a) else f64_lt (to_u64 a) (to_u64 b)
        | _ => if less then b <? a else a <? b
        end in
      if better then put_acc dst j b else Ret dst
  end.
(** The switch over the aggregates of a key both sides have. *)
Definition mergeAcc (src dst : group) (jae : nat * AggExpr) : go group :=
  let '(j, ae) := jae in
  match Kind ae with
  | AggCount => a ← index (accs dst) j; b ← index (accs src) j; put_acc dst j (to_i64 (a + b))
  | AggSum | AggAvg =>
      a ← index (accs dst) j; b ← index (accs src) j;
      match AccumType ae with
      | TypeFloat64 => put_acc dst j (to_i64 (f64_add (to_u64 a) (to_u64 b)))
      | _ => put_acc dst j (to_i64 (a + b))
      end
  | AggMin => mergeMinMax true ae src j dst
  | AggMax => mergeMinMax false ae src j dst
  | AggCountDistinct => Ret dst
  end.
Definition mergeGroup (c : aggConf) (dst src : group) : go group :=
  dst ← foldM (mergeAcc src) dst (enum (aggExprs c));
  foldM (λ dst j, n ← index (nonNull src) j; add_nonNull dst j n) dst (seq 0 (length (nonNull dst))).
(** A key that is new to the destination; the sets of COUNT(DISTINCT) are not
    copied. *)
Definition copyGroup (c : aggConf) (src : group) : group :=
  mkGroup (accs src) (nonNull src)
    (if hasStrAgg c then if decide (strs src = []) then newStrAccums c else strs src else []) [] [] (sample src).
Definition mergeKey (c : aggConf) (src dst : aggState) (key : list Z) : go aggState :=
  s ← groupOf src key;
  match groups dst !! key with
  | None => Ret (set_groups dst (keys dst ++ [key]) (<[key := copyGroup c s]> (groups dst)))
  | Some d => g ← mergeGroup c d s; Ret (set_groups dst (keys dst) (<[key := g]> (groups dst)))
  end.
(** [mergePartialAgg]; the row counts per group, which nothing reads, are left out. *)
Definition mergePartialAgg (c : aggConf) (dst src : aggState) : go aggState :=
  foldM (mergeKey c src) dst (keys src).

(** ** One aggregate *)

Definition merge_minmax (less : bool) (ae : AggExpr) (a b : aggSt) : aggSt :=
  match AccumType ae with
  | TypeString =>
      mkAggSt (s_acc a) (s_nn a)
        (if decide (s_nn b = 0) then s_str a else
         if bool_decide (0 < s_nn a)
         then if (if less then string_lt (s_str b) (s_str a) else string_lt (s_str a) (s_str b)) then s_str b else s_str a
         else s_str b) (s_ints a) (s_strs a)
  | t =>
      let better := match t with
        | TypeFloat64 => if less then f64_lt (to_u64 (s_acc b)) (to_u64 (s_acc a)) else f64_lt (to_u64 (s_acc a)) (to_u64 (s_acc b))
        | _ => if less then s_acc b <? s_acc a else s_acc a <? s_acc b
        end in
      mkAggSt (if better then s_acc b else s_acc a) (s_nn a) (s_str a) (s_ints a) (s_strs a)
  end.
Definition with_acc (a : aggSt) (x : Z) : aggSt := mkAggSt x (s_nn a) (s_str a) (s_ints a) (s_strs a).
Definition merge_acc (ae : AggExpr) (a b : aggSt) : aggSt :=
  match Kind ae with
  | AggCount => with_acc a (to_i64 (s_acc a + s_acc b))
  | AggSum | AggAvg =>
      with_acc a match AccumType ae with
                 | TypeFloat64 => to_i64 (f64_add (to_u64 (s_acc a)) (to_u64 (s_acc b)))
                 | _ => to_i64 (s_acc a + s_acc b)
                 end
  | AggMin => merge_minmax true ae a b
  | AggMax => merge_minmax false ae a b
  | AggCountDistinct => a
  end.
Definition add_nn (a b : aggSt) : aggSt :=
  mkAggSt (s_acc a) (to_i64 (s_nn a + s_nn b)) (s_str a) (s_ints a) (s_strs a).
Definition merge_st (ae : AggExpr) (a b : aggSt) : aggSt := add_nn (merge_acc ae a b) b.
Definition merge_all (aggs : list AggExpr) (l1 l2 : list aggSt) : list aggSt :=
  zip_with (λ p a, merge_st p.1 a p.2) (zip aggs l2) l1.

Lemma enum_fst {A} (l : list A) : (enum l).*1 = seq 0 (length l).
Proof.
  apply list_eq. intros i. rewrite list_lookup_fmap. destruct (decide (i < length l)%nat) as [Hi|Hi].
  - rewrite lookup_seq_lt by done. destruct (lookup_lt_is_Some_2 (enum l) i) as [[k x] E]; [by rewrite length_enum|].
    rewrite E. apply lookup_enum in E as [E _]. cbn in *. by subst.
  - rewrite lookup_seq_ge by lia. rewrite (lookup_ge_None_2 (enum l)); [done|]. rewrite length_enum. lia.
Qed.
Lemma enum_fmap {A B} (f : A → B) (l : list A) : enum (f <$> l) = prod_map id f <$> enum l.
Proof.
  apply list_eq. intros i. rewrite list_lookup_fmap. destruct (enum l !! i) as [[k x]|] eqn:E.
  - apply lookup_enum in E as [Ek E]. cbn in Ek, E. subst k. cbn. apply lookup_enum. cbn. split; [done|]. by rewrite list_lookup_fmap, E.
  - cbn. apply lookup_ge_None_2. rewrite length_enum, length_fmap. apply lookup_ge_None_1 in E. rewrite (length_enum l) in E. done.
Qed.

Section Group.
Context (tys : list DataType) (c : aggConf) (Hc : conf_ok tys c).

Lemma index_strs sts sm j st : hasStrAgg c = true → sts !! j = Some st → index (strs (grp c sts sm)) j = Ret (s_str st).
Proof using. intros Hs Hj. apply index_Ret. cbn [strs grp]. by rewrite Hs, list_lookup_fmap, Hj. Qed.
Lemma same_st (sts : list aggSt) j st : sts !! j = Some st → <[j := st]> sts = sts.
Proof using. apply list_insert_id. Qed.
Lemma aggSt_eta st : mkAggSt (s_acc st) (s_nn st) (s_str st) (s_ints st) (s_strs st) = st.
Proof using. by destruct st. Qed.

Lemma mergeMinMax_spec less sts1 sts2 sm1 sm2 j ae a b :
  aggExprs c !! j = Some ae → sts1 !! j = Some a → sts2 !! j = Some b →
  mergeMinMax less ae (grp c sts2 sm2) j (grp c sts1 sm1) = Ret (grp c (<[j := merge_minmax less ae a b]> sts1) sm1).
Proof using Hc.
  intros Hj Ha Hb.
  assert (Hnum : ∀ better : bool,
    (if better then put_acc (grp c sts1 sm1) j (s_acc b) else Ret (grp c sts1 sm1))
    = Ret (grp c (<[j := mkAggSt (if better then s_acc b else s_acc a) (s_nn a) (s_str a) (s_ints a) (s_strs a)]> sts1) sm1)).
  { intros [|]; [by apply put_acc_grp|]. by rewrite aggSt_eta, same_st. }
  unfold mergeMinMax, merge_minmax.
  destruct (AccumType ae) eqn:Et; try (rewrite (index_accs _ _ _ _ _ Ha), (index_accs _ _ _ _ _ Hb); cbn [mbind go_bind]; apply Hnum).
  assert (Hs : hasStrAgg c = true) by (by eapply conf_str).
  rewrite decide_False; [|cbn [strs grp]; rewrite Hs; intros [E|E]; apply (f_equal length) in E; rewrite length_fmap in E;
    [apply lookup_lt_Some in Ha|apply lookup_lt_Some in Hb]; cbn in E; lia].
  rewrite (index_nonNull _ _ _ _ _ Hb). cbn [mbind go_bind]. destruct (decide (s_nn b = 0)); [by rewrite aggSt_eta, same_st|].
  rewrite (index_strs _ _ _ _ Hs Hb), (index_nonNull _ _ _ _ _ Ha). cbn [mbind go_bind strs grp]. rewrite Hs, minMaxString_spec by done.
  cbn [mbind go_bind]. by rewrite (set_str_grp c sts1 sm1 j a).
Qed.
Lemma mergeAcc_spec sts1 sts2 sm1 sm2 j ae a b :
  aggExprs c !! j = Some ae → sts1 !! j = Some a → sts2 !! j = Some b →
  mergeAcc (grp c sts2 sm2) (grp c sts1 sm1) (j, ae) = Ret (grp c (<[j := merge_acc ae a b]> sts1) sm1).
Proof using Hc.
  intros Hj Ha Hb. unfold mergeAcc, merge_acc, with_acc. rewrite (index_accs _ _ _ _ _ Ha), (index_accs _ _ _ _ _ Hb). cbn [mbind go_bind].
  destruct (Kind ae); try (by apply mergeMinMax_spec).
  - by apply put_acc_grp.
  - destruct (AccumType ae); by apply put_acc_grp.
  - destruct (AccumType ae); by apply put_acc_grp.
  - by rewrite same_st.
Qed.
Lemma mergeGroup_spec sts1 sts2 sm1 sm2 :
  length sts1 = length (aggExprs c) → length sts2 = length (aggExprs c) →
  mergeGroup c (grp c sts1 sm1) (grp c sts2 sm2) = Ret (grp c (merge_all (aggExprs c) sts1 sts2) sm1).
Proof using Hc.
  intros H1 H2. unfold mergeGroup. set (l := zip (aggExprs c) sts2).
  assert (El : aggExprs c = l.*1) by (unfold l; by rewrite fst_zip by lia).
  assert (Hl : length l = length (aggExprs c)) by (by rewrite El, length_fmap).
  assert (E1 : foldM (mergeAcc (grp c sts2 sm2)) (grp c sts1 sm1) (enum (aggExprs c))
    = Ret (grp c (zip_with (λ p a, merge_acc p.1 a p.2) l sts1) sm1)).
  { rewrite El at 1. rewrite enum_fmap, foldM_fmap. apply (enum_update (λ p a, merge_acc p.1 a p.2) l (λ sts, grp c sts sm1)); [lia|].
    intros sts' j [ae b] a Hj _ Ha _. cbn [prod_map fst snd id]. apply lookup_zip_with_Some in Hj as (ae' & b' & [= <- <-] & Hj & Hb).
    by apply mergeAcc_spec. }
  rewrite E1, go_bind_ret_l. set (sts := zip_with _ l sts1).
  assert (Hs : length sts = length sts2) by (unfold sts; rewrite length_zip_with; lia).
  assert (En : length (nonNull (grp c sts sm1)) = length sts2) by (cbn [nonNull grp]; by rewrite length_fmap).
  rewrite En, <- enum_fst, foldM_fmap.
  rewrite (enum_update (λ b a, add_nn a b) sts2 (λ sts, grp c sts sm1)); [|done|].
  - do 2 f_equal. apply list_eq. intros j. unfold merge_all. fold l. unfold sts. rewrite !lookup_zip_with.
    destruct (l !! j) as [[ae b]|] eqn:Ej; [|cbn; by destruct (sts2 !! j)].
    apply lookup_zip_with_Some in Ej as (ae' & b' & [= <- <-] & _ & ->). cbn. by destruct (sts1 !! j).
  - intros sts' j b a Hb _ Ha _. cbn [fst]. rewrite (index_nonNull c sts2 sm2 j b Hb). cbn [mbind go_bind]. by apply add_nonNull_grp.
Qed.
Lemma copyGroup_spec sts sm :
  hasDistinct c = false → length sts = length (aggExprs c) → copyGroup c (grp c sts sm) = grp c sts sm.
Proof using.
  intros Hd Hl. unfold copyGroup, grp. cbn [accs nonNull strs sample]. rewrite Hd. destruct (hasStrAgg c) eqn:Hs; [|done].
  case_decide as E; [|done]. exfalso. apply fmap_nil_inv in E. subst sts. unfold hasStrAgg in Hs. by destruct (aggExprs c).
Qed.
End Group.

(** ** Picking the better of two values *)

Section Pick.
Context {A : Type} (lt : A → A → bool) (P : A → Prop).
Context (Htrans : ∀ x y z, lt x y = true → lt y z = true → lt x z = true).
Context (Hneg : ∀ x y z, P y → lt x z = true → lt x y = true ∨ lt y z = true).
Lemma pick_assoc a b c : P b → pick lt (pick lt a b) c = pick lt a (pick lt b c).
Proof using All.
  intros Hb. unfold pick. destruct (lt b a) eqn:E1, (lt c b) eqn:E2; rewrite ?E1, ?E2; try done.
  - by rewrite (Htrans c b a).
  - destruct (lt c a) eqn:E3; [|done]. destruct (Hneg c b a Hb E3); congruence.
Qed.
End Pick.
Lemma string_lt_cmp a b : string_lt a b = is_lt (lex (bytes_of a) (bytes_of b)).
Proof. done. Qed.
Lemma string_pick_assoc less a b c :
  let p := pick (dir less string_lt) in p (p a b) c = p a (p b c).
Proof.
  assert (Ht : ∀ x y z, string_lt x y = true → string_lt y z = true → string_lt x z = true).
  { intros x y z. unfold string_lt. destruct (lex (bytes_of x) (bytes_of y)) eqn:E1; try done.
    destruct (lex (bytes_of y) (bytes_of z)) eqn:E2; try done. by rewrite (cmp_lt_trans _ _ _ E1 E2). }
  assert (Hn : ∀ x y z, string_lt x z = true → string_lt x y = true ∨ string_lt y z = true).
  { intros x y z. unfold string_lt. destruct (lex (bytes_of x) (bytes_of y)) eqn:E1.
    - apply lex_eq in E1 as ->. by right.
    - by left.
    - intros E. right. destruct (lex (bytes_of y) (bytes_of x)) eqn:E2.
      + apply lex_eq in E2. rewrite E2 in E1. by rewrite (proj2 (lex_eq _ _) eq_refl) in E1.
      + destruct (lex (bytes_of x) (bytes_of z)) eqn:E3; try done. by rewrite (cmp_lt_trans _ _ _ E2 E3).
      + pose proof (cmp_opp (cmp:=lex) (bytes_of x) (bytes_of y)) as E4. rewrite E1, E2 in E4. done. }
  apply (pick_assoc _ (λ _, True)); [| |done]; destruct less; cbn [dir].
  - exact Ht.
  - intros x y z H1 H2. by apply (Ht z y x).
  - intros x y z _. apply Hn.
  - intros x y z _ H. destruct (Hn z y x H); auto.
Qed.
Lemma int_pick_assoc less a b c : let p := pick (dir less Z.ltb) in p (p a b) c = p a (p b c).
Proof. cbv zeta. unfold pick, dir. destruct less; repeat case_match; lia. Qed.
(** Floats as the words they are kept in. *)
Definition word_lt (x y : Z) : bool := f64_lt (to_u64 x) (to_u64 y).
Definition finite_word (x : Z) : Prop := f64_isNaN (to_u64 x) = false.
Lemma word_lt_spec x y : word_lt x y = true ↔ finite_word x ∧ finite_word y ∧ f64_key (to_u64 x) < f64_key (to_u64 y).
Proof. apply f64_lt_spec; by apply wrapU_in. Qed.
Lemma word_lt_trans x y z : word_lt x y = true → word_lt y z = true → word_lt x z = true.
Proof. rewrite !word_lt_spec. intros (? & ? & ?) (? & ? & ?). split; [done|]. split; [done|]. lia. Qed.
Lemma word_lt_neg x y z : finite_word y → word_lt x z = true → word_lt x y = true ∨ word_lt y z = true.
Proof.
  rewrite !word_lt_spec. intros Hy (Hx & Hz & H).
  destruct (Z.lt_ge_cases (f64_key (to_u64 x)) (f64_key (to_u64 y))); [left|right]; (split; [done|]; split; [done|]; lia).
Qed.
Lemma float_pick_assoc less a b c :
  finite_word b → let p := pick (dir less word_lt) in p (p a b) c = p a (p b c).
Proof.
  apply (pick_assoc _ finite_word); destruct less; cbn [dir].
  - apply word_lt_trans.
  - intros x y z H1 H2. by apply (word_lt_trans z y x).
  - apply word_lt_neg.
  - intros x y z Hy H. destruct (word_lt_neg z y x Hy H); auto.
Qed.

(** ** States that merge exactly *)

(** What no order of additions shows in: everything but float sums. *)
Definition exact (ae : AggExpr) : Prop :=
  Kind ae ≠ AggCountDistinct ∧ Kind ae ≠ AggAvg ∧ (Kind ae = AggSum → AccumType ae ≠ TypeFloat64).
Definition minmax_of (ae : AggExpr) : option bool :=
  match Kind ae with AggMin => Some true | AggMax => Some false | _ => None end.
(** A state that rows have reached: a float MIN or MAX is never NaN and never
    worse than where it started. *)
Record reached (ae : AggExpr) (st : aggSt) : Prop := {
  re_acc : inS 64 (s_acc st);
  re_nn : 0 ≤ s_nn st;
  re_float : AccumType ae = TypeFloat64 → ∀ less, minmax_of ae = Some less →
    finite_word (s_acc st) ∧ dir less word_lt (seed ae) (s_acc st) = false
}.

(** MIN and MAX by the type of what they keep. *)
Definition acc_pick (less : bool) (ae : AggExpr) (a x : Z) : Z :=
  match AccumType ae with
  | TypeFloat64 => pick (dir less word_lt) a x
  | _ => pick (dir less Z.ltb) a x
  end.
Definition str_pick (less : bool) (a : aggSt) (s : string) : string :=
  if bool_decide (0 < s_nn a) then pick (dir less string_lt) (s_str a) s else s.
Lemma step_minmax_num less ae x st :
  AccumType ae ≠ TypeString → step_minmax less ae x st = bump (acc_pick less ae (s_acc st) (cell_word x)) st.
Proof. intros Ht. unfold step_minmax, acc_pick. destruct (AccumType ae), less; done. Qed.
Lemma step_minmax_str less ae x st :
  AccumType ae = TypeString →
  step_minmax less ae x st = mkAggSt (s_acc st) (to_i64 (s_nn st + 1)) (str_pick less st (cell_str x)) (s_ints st) (s_strs st).
Proof. intros Ht. unfold step_minmax, str_pick. rewrite Ht. by destruct less. Qed.
Lemma merge_minmax_num less ae a b :
  AccumType ae ≠ TypeString → merge_minmax less ae a b = with_acc a (acc_pick less ae (s_acc a) (s_acc b)).
Proof. intros Ht. unfold merge_minmax, acc_pick, with_acc. destruct (AccumType ae), less; done. Qed.
Lemma merge_minmax_str less ae a b :
  AccumType ae = TypeString →
  merge_minmax less ae a b = mkAggSt (s_acc a) (s_nn a) (if decide (s_nn b = 0) then s_str a else str_pick less a (s_str b)) (s_ints a) (s_strs a).
Proof. intros Ht. unfold merge_minmax, str_pick. rewrite Ht. by destruct less. Qed.
Lemma acc_pick_assoc less ae a b x :
  (AccumType ae = TypeFloat64 → finite_word b) →
  acc_pick less ae (acc_pick less ae a b) x = acc_pick less ae a (acc_pick less ae b x).
Proof. intros Hb. unfold acc_pick. destruct (AccumType ae); (by apply float_pick_assoc; auto) || apply int_pick_assoc. Qed.
Lemma acc_pick_in less ae a x : inS 64 a → inS 64 x → inS 64 (acc_pick less ae a x).
Proof. intros Ha Hx. unfold acc_pick, pick. destruct (AccumType ae); by case_match. Qed.

Section Reached.
Context (ae : AggExpr) (Hex : exact ae).

Lemma minmax_cases less : minmax_of ae = Some less → ∀ a b x,
  merge_acc ae a b = merge_minmax less ae a b ∧ step_cell ae x a = step_minmax less ae x a.
Proof using. unfold minmax_of, merge_acc, step_cell. by destruct (Kind ae), less. Qed.
(** The other kinds count, or add integers. *)
Definition sum_step (x : Cell) : Z := match Kind ae with AggCount => 1 | _ => cell_word x end.
Lemma sum_cases : minmax_of ae = None → ∀ a b x,
  merge_acc ae a b = with_acc a (to_i64 (s_acc a + s_acc b)) ∧ step_cell ae x a = bump (to_i64 (s_acc a + sum_step x)) a.
Proof using Hex.
  revert Hex. unfold exact, minmax_of, merge_acc, step_cell, sum_step. intros (Hk & Ha & Hf) Hm a b x. revert Hk Ha Hf Hm.
  destruct (Kind ae); try done. intros _ _ Hf. specialize (Hf eq_refl). by destruct (AccumType ae).
Qed.

Lemma seed_pick less a :
  minmax_of ae = Some less → AccumType ae ≠ TypeString → reached ae a → acc_pick less ae (s_acc a) (seed ae) = s_acc a.
Proof using.
  clear Hex. intros Hm Ht [[H1 H2] _ Hf]. unfold acc_pick, pick. destruct (decide (AccumType ae = TypeFloat64)) as [E|E].
  - rewrite E. by destruct (Hf E less Hm) as [_ ->].
  - assert (Hs : dir less Z.ltb (seed ae) (s_acc a) = false).
    { unfold seed, dir, minmax_of in *. change (2 ^ (64 - 1)) with 9223372036854775808 in *.
      destruct (Kind ae); try done; injection Hm as <-; destruct (AccumType ae); try done;
        change MaxInt64 with 9223372036854775807; change MinInt64 with (-9223372036854775808); lia. }
    rewrite Hs. by destruct (AccumType ae).
Qed.
Lemma reached_init tys typed : reached ae (init_st tys typed ae).
Proof using.
  clear Hex. split; [apply seed_in|done|]. intros Ht less Hm. cbn [s_acc init_st]. unfold seed, minmax_of in *. rewrite Ht.
  destruct (Kind ae); try done; injection Hm as <-; by vm_compute.
Qed.
Lemma seed_finite less : AccumType ae = TypeFloat64 → minmax_of ae = Some less → finite_word (seed ae).
Proof using. clear Hex. intros Ht Hm. unfold seed, minmax_of in *. rewrite Ht. destruct (Kind ae); try done; by vm_compute. Qed.
Lemma float_kept less a x :
  AccumType ae = TypeFloat64 → minmax_of ae = Some less → finite_word a → dir less word_lt (seed ae) a = false →
  finite_word (acc_pick less ae a x) ∧ dir less word_lt (seed ae) (acc_pick less ae a x) = false.
Proof using.
  clear Hex. intros Ht Hm Hf Hs. unfold acc_pick. rewrite Ht. unfold pick. destruct (dir less word_lt x a) eqn:E; [|done].
  destruct less; cbn [dir] in *; (split; [by apply word_lt_spec in E as (? & ? & _)|]).
  - apply not_true_iff_false. intros E2. by rewrite (word_lt_trans _ _ _ E2 E) in Hs.
  - apply not_true_iff_false. intros E2. by rewrite (word_lt_trans _ _ _ E E2) in Hs.
Qed.

Lemma reached_cell x a :
  cell_fits (Some x) → s_nn a + 1 < 2 ^ 63 → reached ae a →
  reached ae (step_cell ae x a) ∧ s_nn (step_cell ae x a) = s_nn a + 1.
Proof using Hex.
  intros Hx Hl [Hacc Hnn Hf]. assert (En : to_i64 (s_nn a + 1) = s_nn a + 1) by (apply wrapS_id; [done|unfold inS; lia]).
  assert (Hn : s_nn (step_cell ae x a) = s_nn a + 1).
  { destruct (minmax_of ae) as [less|] eqn:Em; [|by rewrite (proj2 (sum_cases Em a a x))].
    rewrite (proj2 (minmax_cases less Em a a x)). destruct (decide (AccumType ae = TypeString));
      [by rewrite step_minmax_str|by rewrite step_minmax_num]. }
  split; [|done]. split; [|rewrite Hn; lia|].
  - destruct (minmax_of ae) as [less|] eqn:Em; [|rewrite (proj2 (sum_cases Em a a x)); by apply wrapS_in].
    rewrite (proj2 (minmax_cases less Em a a x)). destruct (decide (AccumType ae = TypeString)); [by rewrite step_minmax_str|].
    rewrite step_minmax_num by done. apply acc_pick_in; [done|by apply word_in64].
  - intros Ht less Hm. destruct (Hf Ht less Hm). rewrite (proj2 (minmax_cases less Hm a a x)).
    rewrite step_minmax_num by congruence. by apply float_kept.
Qed.
Lemma step_cases r : Forall cell_fits r →
  (∃ x, cell_fits (Some x) ∧ ∀ b, step ae b r = step_cell ae x b) ∨ ∀ b, step ae b r = b.
Proof using.
  clear Hex. intros Hr. unfold step. destruct (is_star ae) eqn:Es.
  - left. exists (CInt 0). split; [done|]. unfold is_star in Es. apply bool_decide_eq_true in Es as [Hk _]. unfold step_cell. by rewrite Hk.
  - destruct (arg ae r) as [x|] eqn:E; [left|by right]. exists x. split; [|done]. unfold arg in E.
    destruct (r !! Z.to_nat (a_ColIdx ae)) as [o|] eqn:El; [|done]. cbn in E. subst o. exact (Forall_lookup_1 _ _ _ _ Hr El).
Qed.

(** Merging with a state that saw nothing changes nothing; one more row on the
    right is one more row of the merge. *)
Lemma merge_init tys typed a : reached ae a → s_nn a < 2 ^ 63 → merge_st ae a (init_st tys typed ae) = a.
Proof using Hex.
  intros Hr Hl. pose proof Hr as [Hacc Hnn _]. unfold merge_st, add_nn.
  assert (E0 : to_i64 (s_nn a + 0) = s_nn a) by (rewrite Z.add_0_r; apply wrapS_id; [done|unfold inS; lia]).
  destruct (minmax_of ae) as [less|] eqn:Em.
  - rewrite (proj1 (minmax_cases less Em a _ (CInt 0))). destruct (decide (AccumType ae = TypeString)).
    + rewrite merge_minmax_str by done. cbn [s_acc s_nn s_str s_ints s_strs init_st]. rewrite E0, decide_True by done. apply aggSt_eta.
    + rewrite merge_minmax_num by done. cbn [with_acc s_acc s_nn s_str s_ints s_strs init_st]. rewrite E0, (seed_pick less) by done. apply aggSt_eta.
  - rewrite (proj1 (sum_cases Em a _ (CInt 0))). cbn [with_acc s_acc s_nn s_str s_ints s_strs init_st].
    assert (Es : seed ae = 0) by (unfold seed, minmax_of in *; by destruct (Kind ae)).
    rewrite E0, Es, Z.add_0_r, wrapS_id by done. apply aggSt_eta.
Qed.
Lemma wrapS_add_r a b : to_i64 (a + to_i64 b) = to_i64 (a + b).
Proof using. clear. rewrite Z.add_comm, wrapS_add_l by done. by rewrite Z.add_comm. Qed.
Lemma merge_cell x a b :
  cell_fits (Some x) → reached ae a → reached ae b → s_nn a + s_nn b + 1 < 2 ^ 63 →
  merge_st ae a (step_cell ae x b) = step_cell ae x (merge_st ae a b).
Proof using Hex.
  intros Hx Ha Hb Hl. pose proof Ha as [_ Hna _]. pose proof Hb as [_ Hnb Hfb].
  destruct (reached_cell x b Hx ltac:(lia) Hb) as [_ Enb].
  assert (En : to_i64 (s_nn a + s_nn b) = s_nn a + s_nn b) by (apply wrapS_id; [done|unfold inS; lia]).
  assert (En1 : to_i64 (s_nn a + (s_nn b + 1)) = to_i64 (s_nn a + s_nn b + 1)) by (f_equal; lia).
  assert (Eb1 : to_i64 (s_nn b + 1) = s_nn b + 1) by (apply wrapS_id; [done|unfold inS; lia]). clear Enb.
  unfold merge_st, add_nn. destruct (minmax_of ae) as [less|] eqn:Em.
  - rewrite !(λ z, proj1 (minmax_cases less Em a z x)), !(λ z, proj2 (minmax_cases less Em z z x)).
    destruct (decide (AccumType ae = TypeString)) as [Et|Et].
    + rewrite !step_minmax_str, !merge_minmax_str by done. cbn [s_acc s_nn s_str s_ints s_strs]. rewrite Eb1, En, En1.
      f_equal. rewrite (decide_False (P := s_nn b + 1 = 0)) by lia.
      unfold str_pick. cbn [s_nn s_str].
      destruct (decide (s_nn b = 0)) as [E0|E0].
      * rewrite E0, Z.add_0_r. by rewrite (bool_decide_eq_false_2 (0 < 0)) by lia.
      * rewrite (bool_decide_eq_true_2 (0 < s_nn b)), (bool_decide_eq_true_2 (0 < s_nn a + s_nn b)) by lia.
        case_bool_decide; [|done]. symmetry. apply string_pick_assoc.
    + rewrite !step_minmax_num, !merge_minmax_num by done. cbn [with_acc bump s_acc s_nn s_str s_ints s_strs]. unfold bump.
      cbn [s_acc s_nn s_str s_ints s_strs]. rewrite Eb1, En, En1. f_equal. symmetry. apply acc_pick_assoc. intros Ef. by destruct (Hfb Ef less eq_refl).
  - rewrite !(λ z, proj1 (sum_cases Em a z x)), !(λ z, proj2 (sum_cases Em z z x)).
    cbn [with_acc bump s_acc s_nn s_str s_ints s_strs]. unfold bump. cbn [s_acc s_nn s_str s_ints s_strs]. rewrite Eb1, En, En1. f_equal.
    rewrite wrapS_add_r, wrapS_add_l by done. f_equal. lia.
Qed.
End Reached.

(** ** Rows *)

Section Runs.
Context (tys : list DataType) (typed : bool) (ae : AggExpr).
Definition run (rs : list cells) : aggSt := foldl (step ae) (init_st tys typed ae) rs.
Lemma run_snoc rs r : run (rs ++ [r]) = step ae (run rs) r.
Proof using. unfold run. by rewrite foldl_app. Qed.

Lemma run_reached rs :
  exact ae → Forall (Forall cell_fits) rs → Z.of_nat (length rs) < 2 ^ 63 →
  reached ae (run rs) ∧ s_nn (run rs) ≤ Z.of_nat (length rs).
Proof using.
  intros Hex. induction rs as [|r rs IH] using rev_ind; intros Hrs Hl; [by split; [apply reached_init|]|].
  apply Forall_app in Hrs as [Hrs Hr]. apply Forall_cons in Hr as [Hr _]. rewrite length_app in Hl |- *. cbn [length] in Hl |- *.
  destruct (IH Hrs ltac:(lia)) as [Hre Hnn]. rewrite run_snoc.
  destruct (step_cases ae r Hr) as [(x & Hx & Es)|Es]; rewrite Es; [|split; [done|lia]].
  destruct (reached_cell ae Hex x (run rs) Hx ltac:(lia) Hre) as [H1 ->]. split; [done|lia].
Qed.
Lemma merge_run p q :
  exact ae → Forall (Forall cell_fits) (p ++ q) → Z.of_nat (length (p ++ q)) < 2 ^ 63 →
  merge_st ae (run p) (run q) = run (p ++ q).
Proof using.
  intros Hex. induction q as [|r q IH] using rev_ind; intros Hrs Hl.
  - rewrite app_nil_r in *. destruct (run_reached p Hex Hrs Hl) as [Hre Hnn]. apply merge_init; [done|done|lia].
  - rewrite app_assoc in Hrs, Hl |- *. apply Forall_app in Hrs as [Hrs Hr]. apply Forall_cons in Hr as [Hr _].
    rewrite length_app in Hl. cbn [length] in Hl. rewrite !run_snoc, <- IH by (done || lia).
    pose proof Hrs as [Hp Hq]%Forall_app. rewrite length_app in Hl.
    destruct (run_reached p Hex Hp ltac:(lia)) as [Hrep Hnp], (run_reached q Hex Hq ltac:(lia)) as [Hreq Hnq].
    destruct (step_cases ae r Hr) as [(x & Hx & Es)|Es]; rewrite !Es; [|done].
    apply merge_cell; try done. lia.
Qed.
Lemma merge_runs p qs :
  exact ae → Forall (Forall cell_fits) (concat (p :: qs)) → Z.of_nat (length (concat (p :: qs))) < 2 ^ 63 →
  foldl (merge_st ae) (run p) (run <$> qs) = run (concat (p :: qs)).
Proof using.
  intros Hex. revert p. induction qs as [|q qs IH]; intros p Hrs Hl; cbn [concat fmap list_fmap foldl] in *; [by rewrite app_nil_r|].
  rewrite app_assoc in Hrs, Hl |- *. rewrite merge_run; [by apply IH|done| |].
  - by apply Forall_app in Hrs as [? _].
  - rewrite length_app in Hl. lia.
Qed.
End Runs.

(** ** Float sums *)

(** The float sum of the values of some rows, and the sum of the sums. *)
Definition fsum (ae : AggExpr) (rs : list cells) : Z := foldl f64_add 0 (floats (vals ae rs)).
Definition fsums (ae : AggExpr) (ps : list (list cells)) : Z :=
  match ps with [] => 0 | p :: ps => foldl f64_add (fsum ae p) (fsum ae <$> ps) end.
(** The value of an aggregate over rows that were aggregated in parts: over all of
    them, except that a float sum adds up the sums of the parts. *)
Definition parts_value (tys : list DataType) (ae : AggExpr) (ps : list (list cells)) : option Cell :=
  let vs := vals ae (concat ps) in
  match Kind ae, src_type tys ae with
  | AggSum, TypeFloat64 => if decide (vs = []) then None else Some (CFloat (fsums ae ps))
  | AggAvg, _ => if decide (vs = []) then None else Some (CFloat (f64_div (fsums ae ps) (f64_of_int (Z.of_nat (length vs)))))
  | _, _ => agg_value tys ae (concat ps)
  end.

Lemma vals_app ae rs rs' : vals ae (rs ++ rs') = vals ae rs ++ vals ae rs'.
Proof. unfold vals. by rewrite omap_app. Qed.
Section FloatSums.
Context (tys : list DataType) (typed : bool) (ae : AggExpr) (t : DataType).
Context (Ht : tys !! Z.to_nat (a_ColIdx ae) = Some t) (Hacc : AccumType ae = AccumTypeFor (Kind ae) t).
Context (Hk : Kind ae = AggSum ∧ t = TypeFloat64 ∨ Kind ae = AggAvg).
Abbreviation run := (run tys typed ae).

Lemma run_float rs :
  Forall (row_ok tys) rs → Z.of_nat (length rs) < 2 ^ 63 →
  s_acc (run rs) = to_i64 (fsum ae rs) ∧ inU 64 (fsum ae rs) ∧ s_nn (run rs) = Z.of_nat (length (vals ae rs)).
Proof using Ht Hacc Hk.
  intros Hrs Hl. pose proof (vals_typed tys ae t rs Ht Hrs) as Hvs. pose proof (length_vals ae rs).
  assert (Hs : is_star ae = false) by (apply bool_decide_eq_false_2; destruct Hk as [[-> _]| ->]; by intros []).
  unfold AggMerge.run. rewrite fold_vals by done.
  destruct (fold_float_sum tys ae (vals ae rs) t typed Hacc Hvs ltac:(lia) Hk) as [E1 E2]. split; [done|]. split; [done|].
  apply (fold_nn tys ae (vals ae rs) t typed Hvs); [lia|]. destruct Hk as [[-> _]| ->]; done.
Qed.
Lemma merge_float a b :
  s_acc (merge_st ae a b) = to_i64 (f64_add (to_u64 (s_acc a)) (to_u64 (s_acc b))) ∧ s_nn (merge_st ae a b) = to_i64 (s_nn a + s_nn b).
Proof using Hacc Hk. clear Ht. unfold merge_st, merge_acc. destruct Hk as [[E ->]|E]; rewrite E in Hacc |- *; cbn [AccumTypeFor] in Hacc; by rewrite Hacc. Qed.
Lemma merge_floats p qs :
  Forall (row_ok tys) (concat (p :: qs)) → Z.of_nat (length (concat (p :: qs))) < 2 ^ 63 →
  let st := foldl (merge_st ae) (run p) (run <$> qs) in
  s_acc st = to_i64 (fsums ae (p :: qs)) ∧ inU 64 (fsums ae (p :: qs)) ∧ s_nn st = Z.of_nat (length (vals ae (concat (p :: qs)))).
Proof using Ht Hacc Hk.
  cbv zeta. induction qs as [|q qs IH] using rev_ind; intros Hrs Hl.
  - cbn [concat] in *. rewrite app_nil_r in *. by apply run_float.
  - cbn [concat] in *. rewrite concat_app in *. cbn [concat] in *. rewrite app_nil_r in *. rewrite app_assoc in Hrs, Hl |- *.
    pose proof Hrs as [Hr1 Hr2]%Forall_app. rewrite length_app in Hl.
    destruct (IH Hr1 ltac:(lia)) as (E1 & E2 & E3), (run_float q Hr2 ltac:(lia)) as (F1 & F2 & F3).
    unfold fsums in *. rewrite !fmap_app, !foldl_app. cbn [fmap list_fmap foldl].
    destruct (merge_float (foldl (merge_st ae) (run p) (run <$> qs)) (run q)) as [-> ->].
    rewrite E1, E3, F1, F3, !wrapU_wrapS by done. split; [done|]. split; [apply f64_encode_in|].
    rewrite (vals_app ae (p ++ concat qs) q), (length_app (vals ae (p ++ concat qs))). pose proof (length_vals ae (p ++ concat qs)). pose proof (length_vals ae q).
    rewrite wrapS_id; [lia|done|]. unfold inS. change (2 ^ (64 - 1)) with (2 ^ 63). lia.
Qed.
End FloatSums.

Lemma parts_value_spec tys typed ae p qs :
  agg_ok tys ae → Kind ae ≠ AggCountDistinct → Forall (row_ok tys) (concat (p :: qs)) → Z.of_nat (length (concat (p :: qs))) < 2 ^ 63 →
  agg_cell tys ae (foldl (merge_st ae) (run tys typed ae p) (run tys typed ae <$> qs)) = parts_value tys ae (p :: qs).
Proof.
  intros Ha Hd Hrs Hl.
  assert (Hfit : Forall (Forall cell_fits) (concat (p :: qs))) by (eapply Forall_impl; [exact Hrs|]; by intros r [_ Hf]).
  assert (Hexact : exact ae → parts_value tys ae (p :: qs) = agg_value tys ae (concat (p :: qs)) →
    agg_cell tys ae (foldl (merge_st ae) (run tys typed ae p) (run tys typed ae <$> qs)) = parts_value tys ae (p :: qs)).
  { intros Hex ->. rewrite merge_runs by done. by apply agg_value_spec. }
  pose proof Ha as Ha'. unfold agg_ok in Ha'. destruct (is_star ae) eqn:Es.
  { unfold is_star in Es. apply bool_decide_eq_true in Es as [Hk _]. unfold exact, parts_value in *. rewrite Hk in *. apply Hexact; [|done].
    split; [done|]. by split. }
  destruct Ha' as (_ & t & Ht & Hacc & Hnum).
  assert (Hfloat : Kind ae = AggSum ∧ t = TypeFloat64 ∨ Kind ae = AggAvg →
    agg_cell tys ae (foldl (merge_st ae) (run tys typed ae p) (run tys typed ae <$> qs)) = parts_value tys ae (p :: qs)).
  { intros Hk. destruct (merge_floats tys typed ae t Ht Hacc Hk p qs Hrs Hl) as (E1 & E2 & E3).
    unfold agg_cell, parts_value. rewrite (src_t tys ae t Ht). set (st := foldl _ _ _) in *. set (vs := vals ae _) in *.
    assert (Hz : vs = [] ↔ s_nn st = 0) by (rewrite E3; destruct vs; cbn; [done|split; [done|lia]]).
    destruct Hk as [[-> ->]| ->].
    - destruct (decide (s_nn st = 0)), (decide (vs = [])); try tauto. by rewrite E1, wrapU_wrapS.
    - destruct (decide (0 < s_nn st)), (decide (vs = [])) as [Ev|Ev]; try tauto; [rewrite Ev in E3; cbn in E3; lia| |].
      + by rewrite E1, E3, wrapU_wrapS.
      + destruct vs; [done|]. cbn in E3. lia. }
  destruct (Kind ae) eqn:Hk; try done.
  - apply Hexact; [split; [congruence|split; congruence]|]. unfold parts_value. by rewrite Hk.
  - destruct t; try done; [|apply Hfloat; by left]. apply Hexact; [split; [congruence|split; [congruence|by rewrite Hacc]]|].
    unfold parts_value. by rewrite Hk, (src_t tys ae _ Ht).
  - apply Hfloat. by right.
  - apply Hexact; [split; [congruence|split; congruence]|]. unfold parts_value. by rewrite Hk.
  - apply Hexact; [split; [congruence|split; congruence]|]. unfold parts_value. by rewrite Hk.
Qed.
