(* ===== verification/AggParts.v ===== *)
(** * Package exec: the groups of merged partial aggregates

    Workers that took different rows end with partial states; [mergeAll] folds
    them into one.  It holds one group for each key any of them saw, with the
    states of that key merged in the order the partial states arrived
    ([mergeAll_spec]); [parts_result] says which rows that makes, and
    [parts_result_exact] that without float sums and float extremes they are the
    rows one aggregate makes of all rows at once. *)
From Stdlib Require Import ZArith Lia ZifyNat.
From stdpp Require Import base numbers list strings gmap.
From S2P Require Import Prelude Encoding Codec Float64 Schema Writer Reader Batch Scratch VExpr VKernel VCase VExprSpec Operator Distinct Sorting Emit Sort Aggregate AggSpec AggKeys AggInt AggPath AggConsume AggValue AggOut AggRun AggMerge.
#[local] Open Scope Z_scope.

(** [merged := newPartialAggregate(...); for _, ha := range results { mergePartialAgg(merged, ha) }]. *)
Definition mergeAll (c : aggConf) (parts : list aggState) : go aggState := foldM (mergePartialAgg c) initMaps parts.

Section Parts.
Context (tys : list DataType) (c : aggConf) (Hc : conf_ok tys c) (Hd : hasDistinct c = false).
Abbreviation typed := (bool_decide (groupBy c ≠ [])).
Abbreviation sm k := (if decide (groupBy c = []) then None else sample_of k).

(** A part: the rows a worker took, and the keys it holds. *)
Abbreviation part := (list cells * list cells)%type.
Definition rows_for (k : cells) (L : list part) : list (list cells) :=
  (λ p : part, rows_with c k p.1) <$> filter (λ p : part, k ∈ p.2) L.
Definition merged_sts (k : cells) (L : list part) : list aggSt :=
  match rows_for k L with
  | [] => []
  | p :: ps => foldl (merge_all (aggExprs c)) (states tys typed c p) (states tys typed c <$> ps)
  end.
Record merged (L : list part) (s : aggState) (ks : list cells) : Prop := {
  mg_keys : keys s = row_key <$> ks;
  mg_nodup : NoDup ks;
  mg_elem : ∀ k, k ∈ ks ↔ ∃ p, p ∈ L ∧ k ∈ p.2;
  mg_ok : Forall (key_ok tys c) ks;
  mg_groups : ∀ k, k ∈ ks → groups s !! row_key k = Some (grp c (merged_sts k L) (sm k));
  mg_dom : ∀ key, is_Some (groups s !! key) → key ∈ keys s
}.

Lemma rows_for_app k L L' : rows_for k (L ++ L') = rows_for k L ++ rows_for k L'.
Proof using. unfold rows_for. by rewrite filter_app, fmap_app. Qed.
Lemma rows_for_one k rs ks : rows_for k [(rs, ks)] = if decide (k ∈ ks) then [rows_with c k rs] else [].
Proof using. unfold rows_for. rewrite filter_cons. cbn [snd]. by destruct (decide (k ∈ ks)). Qed.
Lemma rows_for_nil k L : rows_for k L = [] ↔ ∀ p, p ∈ L → k ∉ p.2.
Proof using.
  unfold rows_for. split.
  - intros E%fmap_nil_inv p Hp Hk. assert (Hin : p ∈ filter (λ p : part, k ∈ p.2) L) by by apply list_elem_of_filter.
    rewrite E in Hin. by apply elem_of_nil in Hin.
  - intros Hn. destruct (filter (λ p : part, k ∈ p.2) L) as [|p l] eqn:E; [done|].
    assert (Hin : p ∈ filter (λ p : part, k ∈ p.2) L) by (rewrite E; by left). apply list_elem_of_filter in Hin as [Hk Hp]. by destruct (Hn p Hp).
Qed.
Lemma length_merge_all l1 l2 : length l1 = length (aggExprs c) → length l2 = length (aggExprs c) →
  length (merge_all (aggExprs c) l1 l2) = length (aggExprs c).
Proof using. intros. unfold merge_all. rewrite length_zip_with, length_zip_with. lia. Qed.
Lemma length_merged k L : rows_for k L ≠ [] → length (merged_sts k L) = length (aggExprs c).
Proof using.
  unfold merged_sts. destruct (rows_for k L) as [|p ps]; [done|]. intros _.
  induction ps as [|q ps IH] using rev_ind; [apply length_states|]. rewrite fmap_app, foldl_app. cbn [fmap list_fmap foldl].
  apply length_merge_all; [done|apply length_states].
Qed.
(** One more part that holds [k]. *)
Lemma merged_snoc k L rs ks :
  k ∈ ks → merged_sts k (L ++ [(rs, ks)]) =
    if decide (rows_for k L = []) then states tys typed c (rows_with c k rs)
    else merge_all (aggExprs c) (merged_sts k L) (states tys typed c (rows_with c k rs)).
Proof using.
  intros Hk. unfold merged_sts. rewrite rows_for_app, rows_for_one, decide_True by done.
  destruct (rows_for k L) as [|p ps]; [by rewrite decide_True|]. rewrite decide_False by done. cbn [app].
  by rewrite fmap_app, foldl_app.
Qed.
Lemma merged_other k L rs ks : k ∉ ks → merged_sts k (L ++ [(rs, ks)]) = merged_sts k L.
Proof using. intros Hk. unfold merged_sts. by rewrite rows_for_app, rows_for_one, decide_False, app_nil_r by done. Qed.

Lemma consumed_nodup rs s ks : consumed tys c rs s ks → NoDup ks.
Proof using.
  intros [_ [Hp|(_ & _ & ->)] _]; [|apply NoDup_nil_2]. rewrite Hp. case_decide; [apply NoDup_singleton|apply uniq_NoDup].
Qed.

(** One key of the source. *)
Lemma mergeKey_spec L dst ks rs src done k :
  merged (L ++ [(rs, done)]) dst ks → k ∉ done → key_ok tys c k →
  groups src !! row_key k = Some (grp c (states tys typed c (rows_with c k rs)) (sm k)) →
  ∃ dst' ks', mergeKey c src dst (row_key k) = Ret dst' ∧ merged (L ++ [(rs, done ++ [k])]) dst' ks'.
Proof using Hc Hd.
  intros [Hkeys Hnd Hel Hok Hg Hdom] Hk Hkok Hsrc. unfold mergeKey, groupOf. rewrite Hsrc, go_bind_ret_l.
  assert (Hinj : ∀ k', k' ∈ ks → row_key k' = row_key k → k' = k).
  { intros k' Hk' E. rewrite Forall_forall in Hok. by apply (row_key_key_inj tys c); [apply Hok|..]. }
  assert (Hrf : ∀ k', k' ≠ k → merged_sts k' (L ++ [(rs, done ++ [k])]) = merged_sts k' (L ++ [(rs, done)])).
  { intros k' Hne. unfold merged_sts. rewrite !rows_for_app, !rows_for_one.
    destruct (decide (k' ∈ done)); [rewrite decide_True by (apply elem_of_app; by left); done|].
    rewrite decide_False; [done|]. rewrite elem_of_app, list_elem_of_singleton. tauto. }
  assert (Hnew : k ∈ done ++ [k]) by (apply elem_of_app; right; by apply list_elem_of_singleton).
  assert (Hel' : ∀ k', (∃ p : part, p ∈ L ++ [(rs, done ++ [k])] ∧ k' ∈ p.2) ↔ k' = k ∨ k' ∈ ks).
  { intros k'. rewrite Hel. split.
    - intros (p & [Hp| ->%list_elem_of_singleton]%elem_of_app & Hin); [right; exists p; split; [by apply elem_of_app; left|done]|].
      cbn [snd] in Hin. apply elem_of_app in Hin as [Hin| ->%list_elem_of_singleton]; [right|by left].
      exists (rs, done). split; [apply elem_of_app; right; by apply list_elem_of_singleton|done].
    - intros [->|(p & [Hp| ->%list_elem_of_singleton]%elem_of_app & Hin)].
      + exists (rs, done ++ [k]). split; [apply elem_of_app; right; by apply list_elem_of_singleton|done].
      + exists p. split; [by apply elem_of_app; left|done].
      + exists (rs, done ++ [k]). split; [apply elem_of_app; right; by apply list_elem_of_singleton|]. cbn [snd] in *. by apply elem_of_app; left. }
  assert (Hsame : merged_sts k (L ++ [(rs, done)]) = merged_sts k L) by by apply merged_other.
  assert (Hin : k ∈ ks ↔ rows_for k L ≠ []).
  { rewrite Hel. split.
    - intros (p & [Hp| ->%list_elem_of_singleton]%elem_of_app & Hkp); [|done]. intros E. by apply (proj1 (rows_for_nil k L) E p Hp).
    - intros Hne. destruct (decide (Exists (λ p : part, k ∈ p.2) L)) as [(p & Hp & Hkp)%Exists_exists|Hno].
      + exists p. split; [by apply elem_of_app; left|done].
      + exfalso. apply Hne, rows_for_nil. intros p Hp Hkp. apply Hno, Exists_exists. by exists p. }
  destruct (decide (k ∈ ks)) as [Hks|Hks].
  - rewrite (Hg k Hks), Hsame, (mergeGroup_spec tys c Hc), go_bind_ret_l by (try apply length_states; apply length_merged; by apply Hin).
    eexists _, ks. split; [done|]. split; cbn [keys groups set_groups]; try done.
    + intros k'. rewrite Hel'. naive_solver.
    + intros k' Hk'. destruct (decide (k' = k)) as [->|Hne].
      * rewrite lookup_insert_eq, (merged_snoc k L rs) by done. by rewrite (decide_False (P := rows_for k L = [])) by by apply Hin.
      * rewrite lookup_insert_ne by (intros E; apply Hne, Hinj; done). rewrite Hrf by done. auto.
    + intros key [g Hlk]. destruct (decide (key = row_key k)) as [->|Hne].
      * rewrite Hkeys. by apply list_elem_of_fmap_2.
      * rewrite lookup_insert_ne in Hlk by done. apply Hdom. by exists g.
  - assert (Hno : groups dst !! row_key k = None).
    { apply eq_None_not_Some. intros Hs. apply Hdom in Hs. rewrite Hkeys in Hs. apply list_elem_of_fmap in Hs as (k' & E & Hk').
      apply Hks. by rewrite <- (Hinj k'). }
    rewrite Hno, (copyGroup_spec c) by (done || apply length_states). eexists _, (ks ++ [k]). split; [done|].
    split; cbn [keys groups set_groups].
    + by rewrite Hkeys, fmap_app.
    + apply NoDup_app. split; [done|]. split; [|apply NoDup_singleton]. by intros x Hx ->%list_elem_of_singleton.
    + intros k'. rewrite Hel', elem_of_app, list_elem_of_singleton. tauto.
    + apply Forall_app. split; [done|]. by constructor.
    + intros k' Hk'. destruct (decide (k' = k)) as [->|Hne].
      * rewrite lookup_insert_eq, (merged_snoc k L rs), (decide_True (P := rows_for k L = [])); [done| |done].
        destruct (rows_for k L) eqn:E; [done|]. exfalso. by apply Hks, Hin.
      * assert (Hk2 : k' ∈ ks) by (apply elem_of_app in Hk' as [|E%list_elem_of_singleton]; [done|congruence]).
        rewrite lookup_insert_ne by (intros E; apply Hne, Hinj; done). rewrite Hrf by done. auto.
    + intros key [g Hlk]. apply elem_of_app. destruct (decide (key = row_key k)) as [->|Hne]; [right; by apply list_elem_of_singleton|left].
      rewrite lookup_insert_ne in Hlk by done. apply Hdom. by exists g.
Qed.
Lemma mergePartialAgg_spec L dst ks rs src ks2 :
  merged L dst ks → consumed tys c rs src ks2 →
  ∃ dst' ks', mergePartialAgg c dst src = Ret dst' ∧ merged (L ++ [(rs, ks2)]) dst' ks'.
Proof using Hc Hd.
  intros Hm Hcs. pose proof (consumed_nodup _ _ _ Hcs) as Hnd. destruct Hcs as [Hkeys _ Hgroups]. unfold mergePartialAgg. rewrite Hkeys.
  rewrite foldM_fmap.
  destruct (foldM_list_ind (λ a x, mergeKey c src a (row_key x)) (λ n s, ∃ ks', merged (L ++ [(rs, take n ks2)]) s ks') ks2 dst)
    as (s & E & ks' & Hs).
  - exists ks. rewrite take_0. destruct Hm as [H1 H2 H3 H4 H5 H6]. split; try done.
    + intros k. rewrite H3. split.
      * intros (p & Hp & Hk). exists p. split; [by apply elem_of_app; left|done].
      * intros (p & [Hp| ->%list_elem_of_singleton]%elem_of_app & Hk); [by exists p|]. cbn in Hk. by apply elem_of_nil in Hk.
    + intros k Hk. rewrite H5 by done. by rewrite merged_other by by intros ?%elem_of_nil.
  - intros n k s Hk (ks' & Hs). destruct (Hgroups k ltac:(by eapply list_elem_of_lookup_2)) as (Eg & _ & Hkok & Hsm).
    destruct (mergeKey_spec L s ks' rs src (take n ks2) k Hs) as (s' & ks'' & E & Hs'); [|done|done|].
    + intros Hin. apply elem_of_take in Hin as (i & Hi & Hlt). rewrite NoDup_alt in Hnd. specialize (Hnd i n k Hi Hk). lia.
    + exists s'. split; [done|]. exists ks''. by rewrite (take_S_r _ _ _ Hk).
  - rewrite take_ge in Hs by done. by exists s, ks'.
Qed.
Lemma mergeAll_spec (L : list part) parts :
  Forall2 (λ p s, consumed tys c p.1 s p.2) L parts → ∃ s ks, mergeAll c parts = Ret s ∧ merged L s ks.
Proof using Hc Hd.
  intros HL. unfold mergeAll.
  assert (H : ∀ L0 s ks, merged L0 s ks → ∃ s' ks', foldM (mergePartialAgg c) s parts = Ret s' ∧ merged (L0 ++ L) s' ks').
  { induction HL as [|[rs ks2] src L parts Hp _ IH]; intros L0 s ks Hs; [exists s, ks; by rewrite app_nil_r|].
    destruct (mergePartialAgg_spec L0 s ks rs src ks2 Hs Hp) as (s1 & ks1 & E & Hs1). cbn [foldM]. rewrite E, go_bind_ret_l.
    destruct (IH _ _ _ Hs1) as (s' & ks' & E' & Hs'). exists s', ks'. split; [done|]. by rewrite <- app_assoc in Hs'. }
  apply (H [] initMaps []). split; cbn [keys groups initMaps]; try done.
  - apply NoDup_nil_2.
  - intros k. split; [by intros ?%elem_of_nil|]. by intros (p & ?%elem_of_nil & _).
  - intros k Hk. by apply elem_of_nil in Hk.
  - intros key [g Hg]. by rewrite lookup_empty in Hg.
Qed.
End Parts.

(** ** The rows of merged parts *)

(** What a key has of each part: without GROUP BY the part, and else its rows with
    the key where it has some. *)
Definition parts_of (gs : list Z) (parts : list (list cells)) (k : cells) : list (list cells) :=
  if decide (gs = []) then parts else filter (λ rs, rs ≠ []) ((λ rs, filter (λ r, group_key gs r = k) rs) <$> parts).
Definition parts_row (tys : list DataType) (gs : list Z) (aggs : list AggExpr) (parts : list (list cells)) (k : cells) : cells :=
  k ++ ((λ ae, parts_value tys ae (parts_of gs parts k)) <$> aggs).
Definition parts_result (tys : list DataType) (gs : list Z) (aggs : list AggExpr) (parts : list (list cells)) : list cells :=
  parts_row tys gs aggs parts <$> (if decide (gs = []) then [[]] else uniq (group_key gs <$> concat parts)).

Lemma zip_with_fmap_l {A B C} (f : A → B → C) (g : A → B) (l : list A) : zip_with f l (g <$> l) = (λ a, f a (g a)) <$> l.
Proof. induction l as [|a l IH]; [done|]. cbn. by rewrite <- IH. Qed.
Lemma states_runs tys typed c rs : states tys typed c rs = (λ ae, run tys typed ae rs) <$> aggExprs c.
Proof. unfold states. rewrite <- foldl_step_all by by rewrite length_fmap. by rewrite zip_with_fmap_l. Qed.
Lemma merge_all_fmap aggs f g : merge_all aggs (f <$> aggs) (g <$> aggs) = (λ ae, merge_st ae (f ae) (g ae)) <$> aggs.
Proof. unfold merge_all. induction aggs as [|ae aggs IH]; [done|]. cbn. by rewrite <- IH. Qed.
Lemma foldl_merge_all aggs f (gs : list (AggExpr → aggSt)) :
  foldl (merge_all aggs) (f <$> aggs) ((λ g, g <$> aggs) <$> gs) = (λ ae, foldl (merge_st ae) (f ae) ((λ g, g ae) <$> gs)) <$> aggs.
Proof. revert f. induction gs as [|g gs IH]; intros f; [done|]. cbn [fmap list_fmap foldl]. by rewrite merge_all_fmap, IH. Qed.

Section Rows.
Context (tys : list DataType) (c : aggConf) (Hc : conf_ok tys c) (Hd : hasDistinct c = false).
Context (L : list (list cells * list cells)) (parts : list aggState).
Context (HL : Forall2 (λ p s, consumed tys c p.1 s p.2) L parts).
Abbreviation typed := (bool_decide (groupBy c ≠ [])).
(** The parts that hold anything. *)
Definition held : list (list cells) := (filter (λ p : list cells * list cells, p.2 ≠ []) L).*1.

Lemma part_keys p : p ∈ L → (∀ k, k ∈ p.2 ↔ if decide (groupBy c = []) then p.2 ≠ [] ∧ k = [] else k ∈ gb_key c <$> p.1) ∧ (p.2 = [] → p.1 = []).
Proof using HL.
  intros [i Hi]%list_elem_of_lookup. destruct (Forall2_lookup_l _ _ _ _ _ HL Hi) as (s & _ & [_ Hp _]).
  destruct Hp as [Hp|(Hg & E1 & E2)].
  - destruct (decide (groupBy c = [])) as [Hg|Hg].
    + apply Permutation_singleton_r in Hp. rewrite Hp. split; [|done]. intros k. rewrite list_elem_of_singleton. naive_solver.
    + split; [intros k; by rewrite Hp, elem_of_uniq|]. intros E. rewrite E in Hp. apply Permutation_nil_l in Hp.
      destruct p.1 as [|r rs]; [done|]. exfalso. assert (Hin : gb_key c r ∈ uniq (gb_key c <$> r :: rs)) by (apply elem_of_uniq; by left).
      rewrite <- Hp in Hin. by apply elem_of_nil in Hin.
  - rewrite E1, E2. split; [|done]. intros k. rewrite decide_True by done. split; [by intros ?%elem_of_nil|]. by intros [].
Qed.
Lemma concat_held : concat held = concat L.*1.
Proof using HL.
  unfold held. assert (Hall : ∀ p, p ∈ L → p.2 = [] → p.1 = []) by (intros p Hp; by destruct (part_keys p Hp)).
  clear HL. induction L as [|p l IH]; [done|]. rewrite filter_cons. cbn [fmap list_fmap concat].
  rewrite <- IH by (intros q Hq; apply Hall; by right). destruct (decide (p.2 ≠ [])) as [|Hn]; [done|].
  rewrite (Hall p); [done|by left|]. destruct p.2; [done|]. by destruct Hn.
Qed.
Lemma filter_with k rs : filter (λ r, group_key (groupBy c) r = k) rs = rows_with c k rs.
Proof using. done. Qed.
Lemma rows_for_parts k : (groupBy c = [] → k = []) → rows_for c k L = parts_of (groupBy c) held k.
Proof using HL.
  intros Hk. unfold parts_of, held, rows_for.
  assert (Hall : ∀ p, p ∈ L → (∀ k, k ∈ p.2 ↔ if decide (groupBy c = []) then p.2 ≠ [] ∧ k = [] else k ∈ gb_key c <$> p.1) ∧ (p.2 = [] → p.1 = []))
    by apply part_keys.
  clear HL. induction L as [|p l IH]; [by case_decide|]. specialize (IH (λ q Hq, Hall q (list_elem_of_further _ _ _ Hq))).
  destruct (Hall p ltac:(by left)) as [Hpk Hp0]. rewrite !filter_cons. destruct (decide (groupBy c = [])) as [Hg|Hg].
  - rewrite (Hk Hg) in *. destruct (decide ([] ∈ p.2)) as [Hin|Hin]; apply Hpk in Hin || rewrite Hpk in Hin.
    + rewrite decide_True by tauto. cbn [fmap list_fmap]. by rewrite rows_with_nil, IH.
    + rewrite decide_False; [exact IH|]. tauto.
  - assert (Hne : k ∈ p.2 ↔ rows_with c k p.1 ≠ []).
    { rewrite Hpk. unfold rows_with. split.
      - intros (r & -> & Hr)%list_elem_of_fmap E. assert (Hin : r ∈ filter (λ r0, gb_key c r0 = gb_key c r) p.1) by by apply list_elem_of_filter.
        rewrite E in Hin. by apply elem_of_nil in Hin.
      - intros Hn. destruct (filter _ p.1) as [|r l'] eqn:E; [done|].
        assert (Hin : r ∈ filter (λ r0, gb_key c r0 = k) p.1) by (rewrite E; by left). apply list_elem_of_filter in Hin as [<- Hin].
        by apply list_elem_of_fmap_2. }
    destruct (decide (p.2 ≠ [])) as [Hp2|Hp2].
    + cbn [fmap list_fmap]. rewrite filter_cons, filter_with. destruct (decide (k ∈ p.2)) as [Hin|Hin].
      * rewrite decide_True by by apply Hne. cbn [fmap list_fmap]. by rewrite IH.
      * rewrite decide_False; [exact IH|]. intros H. by apply Hin, Hne.
    + rewrite decide_False; [exact IH|]. intros Hin. apply Hp2. intros E. rewrite E in Hin. by apply elem_of_nil in Hin.
Qed.

Lemma merged_keys s ks : merged tys c L s ks →
  ks ≡ₚ (if decide (groupBy c = []) then (if decide (held = []) then [] else [[]]) else uniq (gb_key c <$> concat held)).
Proof using HL.
  intros [_ Hnd Hel _ _ _]. apply NoDup_Permutation; [done|repeat case_decide; [apply NoDup_nil_2|apply NoDup_singleton|apply uniq_NoDup]|].
  intros k. rewrite Hel. destruct (decide (groupBy c = [])) as [Hg|Hg].
  - assert (Hh : held = [] ↔ ∀ p, p ∈ L → p.2 = []).
    { unfold held. split.
      - intros E%fmap_nil_inv p Hp. destruct (decide (p.2 = [])) as [|Hn]; [done|].
        assert (Hin : p ∈ filter (λ p : list cells * list cells, p.2 ≠ []) L) by by apply list_elem_of_filter.
        rewrite E in Hin. by apply elem_of_nil in Hin.
      - intros Hn. destruct (filter _ L) as [|p l] eqn:E; [done|].
        assert (Hin : p ∈ filter (λ p : list cells * list cells, p.2 ≠ []) L) by (rewrite E; by left).
        apply list_elem_of_filter in Hin as [Hp2 Hp]. by destruct Hp2; apply Hn. }
    destruct (decide (held = [])) as [E|E].
    + split; [|by intros ?%elem_of_nil]. intros (p & Hp & Hk). rewrite (proj1 Hh E p Hp) in Hk. by apply elem_of_nil in Hk.
    + rewrite list_elem_of_singleton. split.
      * intros (p & Hp & Hk). destruct (part_keys p Hp) as [Hpk _]. specialize (Hpk k). rewrite decide_True in Hpk by done. tauto.
      * intros ->. destruct (decide (Exists (λ p : list cells * list cells, p.2 ≠ []) L)) as [(p & Hp & Hn)%Exists_exists|Hno].
        -- exists p. split; [done|]. destruct (part_keys p Hp) as [Hpk _]. specialize (Hpk []). rewrite decide_True in Hpk by done. tauto.
        -- exfalso. apply E, Hh. intros p Hp. destruct (decide (p.2 = [])) as [|Hn]; [done|]. exfalso. apply Hno, Exists_exists. by exists p.
  - rewrite elem_of_uniq, concat_held. rewrite list_elem_of_fmap. split.
    + intros (p & Hp & Hk). destruct (part_keys p Hp) as [Hpk _]. specialize (Hpk k). rewrite decide_False in Hpk by done.
      apply Hpk, list_elem_of_fmap in Hk as (r & -> & Hr). exists r. split; [done|].
      apply list_elem_of_In, in_concat. exists p.1. split; apply list_elem_of_In; [by apply list_elem_of_fmap_2|done].
    + intros (r & -> & Hr). apply list_elem_of_In, in_concat in Hr as (rs & Hrs & Hr). apply list_elem_of_In in Hrs, Hr.
      apply list_elem_of_fmap in Hrs as (p & -> & Hp). exists p. split; [done|]. destruct (part_keys p Hp) as [Hpk _].
      specialize (Hpk (gb_key c r)). rewrite decide_False in Hpk by done. apply Hpk. by apply list_elem_of_fmap_2.
Qed.
Lemma merged_row s ks k gs aggs :
  merged tys c L s ks → k ∈ ks → groupBy c = gs → aggExprs c = resolved tys <$> aggs →
  Forall (row_ok tys) (concat held) → Z.of_nat (length (concat held)) < 2 ^ 63 →
  state_row tys c k (merged_sts tys c k L) = parts_row tys gs aggs held k ∧ length (merged_sts tys c k L) = length (aggExprs c).
Proof using Hc Hd HL.
  intros Hm Hk <- Ha Hrs Hl.
  assert (Hgk : groupBy c = [] → k = []).
  { intros Hg. rewrite (merged_keys s ks Hm), decide_True in Hk by done. case_decide; [by apply elem_of_nil in Hk|]. by apply list_elem_of_singleton in Hk. }
  pose proof (rows_for_parts k Hgk) as Hrf. assert (Hne : rows_for c k L ≠ []).
  { apply (mg_elem _ _ _ _ _ Hm) in Hk as (p & Hp & Hkp). intros E. by apply (proj1 (rows_for_nil c k L) E p Hp). }
  split; [|by apply length_merged]. unfold state_row, parts_row. f_equal. unfold merged_sts. rewrite <- Hrf.
  destruct (rows_for c k L) as [|p ps] eqn:Ep; [done|]. clear Hne.
  assert (Hsub : Forall (row_ok tys) (concat (p :: ps)) ∧ (length (concat (p :: ps)) ≤ length (concat held))%nat).
  { rewrite Hrf. unfold parts_of. case_decide; [done|]. revert Hrs. clear. generalize held. intros l. induction l as [|rs l IH]; [done|].
    cbn [fmap list_fmap concat]. intros [H1 H2]%Forall_app. destruct (IH H2) as [I1 I2]. rewrite filter_cons, length_app.
    pose proof (length_filter (λ r, group_key (groupBy c) r = k) rs). case_decide; [|split; [done|lia]]. cbn [concat]. rewrite length_app.
    split; [|lia]. apply Forall_app. split; [|done]. rewrite Forall_forall in *. intros r [_ Hr]%list_elem_of_filter. auto. }
  rewrite states_runs. replace (states tys typed c <$> ps) with ((λ g, g <$> aggExprs c) <$> ((λ rs ae, run tys typed ae rs) <$> ps)).
  2: { rewrite <- list_fmap_compose. apply list_fmap_ext. intros i rs _. unfold compose. by rewrite states_runs. }
  rewrite foldl_merge_all, zip_with_fmap_l, Ha, <- list_fmap_compose. apply list_fmap_ext. intros i ae Hi. unfold compose.
  rewrite <- list_fmap_compose. transitivity (parts_value tys (resolved tys ae) (p :: ps)); [|done].
  assert (Hin : resolved tys ae ∈ aggExprs c) by (rewrite Ha; apply list_elem_of_fmap_2; by eapply list_elem_of_lookup_2).
  apply (parts_value_spec tys typed); [| |apply Hsub|lia].
  - destruct Hc as [Hall _]. rewrite Forall_forall in Hall. by apply Hall.
  - intros Hk2. destruct Hc as (_ & _ & Hd'). rewrite Hd' in Hd. apply not_true_iff_false in Hd. apply Hd, existsb_exists.
    exists (resolved tys ae). split; [by apply list_elem_of_In|by apply bool_decide_eq_true_2].
Qed.
Lemma merged_groups s ks gs aggs :
  merged tys c L s ks → groupBy c = gs → aggExprs c = resolved tys <$> aggs →
  Forall (row_ok tys) (concat held) → Z.of_nat (length (concat held)) < 2 ^ 63 →
  has_groups tys c s (λ k, merged_sts tys c k L) (λ k, if decide (groupBy c = []) then None else sample_of k) ks.
Proof using Hc Hd HL.
  intros Hm Hg Ha Hrs Hl k Hk. split; [by apply (mg_groups _ _ _ _ _ Hm)|].
  split; [by destruct (merged_row s ks k gs aggs Hm Hk Hg Ha Hrs Hl)|]. split; [|by intros; rewrite decide_False].
  pose proof (mg_ok _ _ _ _ _ Hm) as Hok. rewrite Forall_forall in Hok. auto.
Qed.
End Rows.

(** ** Parts that add up exactly *)

(** Aggregates whose value does not depend on the order of the rows. *)
Definition order_free (tys : list DataType) (ae : AggExpr) : Prop :=
  match Kind ae with
  | AggCount | AggCountDistinct => True
  | AggAvg => False
  | AggSum | AggMin | AggMax => src_type tys ae ≠ TypeFloat64
  end.

Section Fold1.
Context {A : Type} (f : A → A → A) (Hassoc : ∀ a b c, f (f a b) c = f a (f b c)) (Hcomm : ∀ a b, f a b = f b a).
Definition fold1 (l : list A) : option A := match l with [] => None | x :: l => Some (foldl f x l) end.
Lemma foldl_perm l l' a : l ≡ₚ l' → foldl f a l = foldl f a l'.
Proof using All.
  intros Hp. revert a. induction Hp as [|x l l' _ IH|x y l|l1 l2 l3 _ IH1 _ IH2]; intros a; cbn [foldl]; [done|done| |by rewrite IH1].
  by rewrite !Hassoc, (Hcomm x y).
Qed.
Lemma fold1_perm l l' : l ≡ₚ l' → fold1 l = fold1 l'.
Proof using All.
  induction 1 as [|x l l' Hp _|x y l|l1 l2 l3 _ IH1 _ IH2]; cbn [fold1 foldl]; [done| |by rewrite (Hcomm x y)|by rewrite IH1].
  f_equal. by apply foldl_perm.
Qed.
End Fold1.

Lemma string_pick_comm less a b : pick (dir less string_lt) a b = pick (dir less string_lt) b a.
Proof.
  unfold pick, dir, string_lt. pose proof (cmp_opp (cmp:=lex) (bytes_of a) (bytes_of b)) as E.
  destruct (lex (bytes_of a) (bytes_of b)) eqn:Eab; rewrite E; cbn; destruct less; try done;
    apply lex_eq in Eab; by apply bytes_of_inj.
Qed.
Lemma int_pick_comm less a b : pick (dir less Z.ltb) a b = pick (dir less Z.ltb) b a.
Proof. unfold pick, dir. destruct less; repeat case_match; lia. Qed.

Lemma best_perm less t vs vs' : t ≠ TypeFloat64 → vs ≡ₚ vs' → best less t vs = best less t vs'.
Proof.
  intros Ht Hp.
  pose proof (fold1_perm _ (int_pick_assoc less) (int_pick_comm less) (words vs) (words vs') ltac:(unfold words; by rewrite Hp)) as E1.
  pose proof (fold1_perm _ (string_pick_assoc less) (string_pick_comm less) (cell_str <$> vs) (cell_str <$> vs') ltac:(by rewrite Hp)) as E2.
  unfold best. destruct vs as [|v l], vs' as [|v' l']; [done|by apply Permutation_nil_l in Hp|symmetry in Hp; by apply Permutation_nil_l in Hp|].
  cbn [words fmap list_fmap fold1] in E1, E2. injection E1 as E1. injection E2 as E2. f_equal. unfold words in *. destruct t; try done; by rewrite ?E1, ?E2.
Qed.
Lemma agg_value_perm tys ae rs rs' : order_free tys ae → rs ≡ₚ rs' → agg_value tys ae rs = agg_value tys ae rs'.
Proof.
  intros Ho Hp. assert (Hv : vals ae rs ≡ₚ vals ae rs') by (unfold vals; by rewrite Hp).
  unfold order_free, agg_value in *. destruct (Kind ae).
  - by rewrite Hp, Hv.
  - assert (Hnil : vals ae rs = [] ↔ vals ae rs' = []) by (split; intros E; rewrite E in Hv; [by apply Permutation_nil_l in Hv|by apply Permutation_nil_r in Hv]).
    destruct (decide (vals ae rs = [])) as [E|E]; [by rewrite decide_True by by apply Hnil|].
    rewrite (decide_False (P := vals ae rs' = [])) by by rewrite <- Hnil.
    assert (Es : foldl Z.add 0 (words (vals ae rs)) = foldl Z.add 0 (words (vals ae rs'))).
    { apply foldl_perm; [intros; lia|intros; lia|]. unfold words. by rewrite Hv. }
    by destruct (src_type tys ae); rewrite ?Es.
  - done.
  - by apply best_perm.
  - by apply best_perm.
  - do 3 f_equal. apply Permutation_length, NoDup_Permutation; [apply uniq_NoDup..|]. intros x. by rewrite !elem_of_uniq, Hv.
Qed.
Lemma concat_parts_of gs parts k : gs = [] → k = [] → concat (parts_of gs parts k) = filter (λ r, group_key gs r = k) (concat parts).
Proof.
  intros -> ->. unfold parts_of. rewrite decide_True by done. induction (concat parts) as [|r rs IH]; [done|].
  rewrite filter_cons, decide_True by done. by rewrite <- IH.
Qed.
Lemma concat_parts_key gs parts k : (gs = [] → k = []) → concat (parts_of gs parts k) = filter (λ r, group_key gs r = k) (concat parts).
Proof.
  intros Hk. destruct (decide (gs = [])) as [Hg|Hg]; [by apply concat_parts_of; auto|]. unfold parts_of. rewrite decide_False by done.
  induction parts as [|rs parts IH]; [done|]. cbn [fmap list_fmap concat]. rewrite filter_app, <- IH, filter_cons.
  case_decide as E; [done|]. by rewrite E.
Qed.
(** Whatever the parts and their order, such aggregates are those of all rows. *)
Lemma parts_result_exact tys gs aggs parts rs :
  Forall (order_free tys) aggs → concat parts ≡ₚ rs → parts_result tys gs aggs parts ≡ₚ agg_result tys gs aggs rs.
Proof.
  intros Ho Hp. unfold parts_result, agg_result.
  set (ks := if decide (gs = []) then [[]] else uniq (group_key gs <$> concat parts)).
  assert (Hks : ks ≡ₚ if decide (gs = []) then [[]] else uniq (group_key gs <$> rs)).
  { unfold ks. case_decide; [done|]. apply NoDup_Permutation; [apply uniq_NoDup..|]. intros k. by rewrite !elem_of_uniq, Hp. }
  rewrite <- Hks. erewrite list_fmap_ext; [done|]. intros i k Hi. cbv beta. unfold parts_row, agg_row. f_equal.
  apply list_fmap_ext. intros j ae Hj. cbv beta. pose proof (Forall_lookup_1 _ _ _ _ Ho Hj) as Hae.
  assert (Hk : gs = [] → k = []).
  { intros Hg. unfold ks in Hi. rewrite decide_True in Hi by done. by apply list_lookup_singleton_Some in Hi as [_ <-]. }
  transitivity (agg_value tys ae (concat (parts_of gs parts k))).
  - unfold parts_value, order_free in *. destruct (Kind ae); try done. by destruct (src_type tys ae).
  - rewrite concat_parts_key by done. apply agg_value_perm; [done|]. by rewrite Hp.
Qed.

(** In any case the rows of the parts weigh what the rows of all at once weigh:
    the strings in them do not depend on the order. *)
Lemma best_float less vs : match best less TypeFloat64 vs with Some (CFloat _) | None => True | _ => False end.
Proof. by destruct vs. Qed.
Lemma parts_value_weight tys ae ps rs : concat ps ≡ₚ rs → cell_weight (parts_value tys ae ps) = cell_weight (agg_value tys ae rs).
Proof.
  intros Hp. assert (Hz : order_free tys ae → parts_value tys ae ps = agg_value tys ae (concat ps)).
  { unfold parts_value, order_free. destruct (Kind ae); try done. by destruct (src_type tys ae). }
  destruct (decide (Kind ae = AggAvg)) as [Ek|Ek]; [unfold parts_value, agg_value; rewrite Ek; by repeat case_decide|].
  destruct (decide (Kind ae = AggCount ∨ Kind ae = AggCountDistinct ∨ src_type tys ae ≠ TypeFloat64)) as [Ho|Ho].
  - rewrite Hz; [f_equal; apply agg_value_perm; [|done]|]; unfold order_free; destruct (Kind ae); naive_solver.
  - apply Decidable.not_or in Ho as [H1 Ho]. apply Decidable.not_or in Ho as [H2 Et].
    assert (Et' : src_type tys ae = TypeFloat64) by by apply dec_stable.
    unfold parts_value, agg_value. destruct (Kind ae); try done; rewrite Et'; [by repeat case_decide|..].
    + pose proof (best_float true (vals ae (concat ps))). pose proof (best_float true (vals ae rs)).
      by destruct (best _ _ _) as [[]|], (best _ _ _) as [[]|].
    + pose proof (best_float false (vals ae (concat ps))). pose proof (best_float false (vals ae rs)).
      by destruct (best _ _ _) as [[]|], (best _ _ _) as [[]|].
Qed.
Lemma weight_ext {A} (f g : A → option Cell) (l : list A) :
  (∀ x, x ∈ l → cell_weight (f x) = cell_weight (g x)) → weight (f <$> l) = weight (g <$> l).
Proof.
  induction l as [|x l IH]; intros H; [done|]. cbn [fmap list_fmap]. rewrite !weight_cons, (H x) by by left.
  rewrite IH; [done|]. intros y Hy. apply H. by right.
Qed.
Lemma parts_result_weight tys gs aggs parts rs j :
  concat parts ≡ₚ rs → weight (col_at j (parts_result tys gs aggs parts)) = weight (col_at j (agg_result tys gs aggs rs)).
Proof.
  intros Hp. unfold parts_result, agg_result.
  set (ks := if decide (gs = []) then [[]] else uniq (group_key gs <$> concat parts)).
  assert (Hks : ks ≡ₚ if decide (gs = []) then [[]] else uniq (group_key gs <$> rs)).
  { unfold ks. case_decide; [done|]. apply NoDup_Permutation; [apply uniq_NoDup..|]. intros k. by rewrite !elem_of_uniq, Hp. }
  rewrite <- Hks. unfold col_at. rewrite <- !list_fmap_compose. apply weight_ext. intros k Hi. unfold compose, parts_row, agg_row.
  assert (Hk : gs = [] → k = []).
  { intros Hg. unfold ks in Hi. rewrite decide_True in Hi by done. by apply list_elem_of_singleton in Hi. }
  destruct (decide (j < length k)%nat); [by rewrite !lookup_app_l by lia|]. rewrite !lookup_app_r by lia. rewrite !list_lookup_fmap.
  destruct (aggs !! _) as [ae|]; [|done]. cbn. apply parts_value_weight. rewrite concat_parts_key by done. by rewrite Hp.
Qed.
