(* ===== verification/ParallelAgg.v ===== *)
(** * Package exec: the parallel aggregate ([ParallelHashAggregate], [exec/parallel.go])

    Workers claim morsels of row groups, each aggregates what it claims into a
    state of its own, and the calling goroutine merges the states; an aggregate
    that has consumed its input then emits the result.  [parallel_agg_rows]:
    however the workers interleave, the operator emits one row for each key, with
    the values over the rows of all morsels. *)
From Stdlib Require Import ZArith Lia ZifyNat.
From stdpp Require Import base numbers list strings gmap relations.
From S2P Require Import Prelude Encoding Codec Float64 Schema Writer Reader Volume Batch Scratch Scan VExpr VKernel VCase VExprSpec Operator RowOps Distinct Sorting Emit Sort Pipeline Aggregate AggSpec AggKeys AggInt AggPath AggConsume AggValue AggOut AggRun RowStore JoinTable Join Pool Morsel SharedJoin AggMerge AggParts.
#[local] Open Scope Z_scope.

(** ** The workers *)

Definition defaultMorselSize : Z := 1.
(** [newPartialAggregate]: it leaves [hasDistinct] unset. *)
Definition partialConf (groupBy : list Z) (aggExprs : list AggExpr) (schema : Schema) : aggConf :=
  mkAggConf groupBy aggExprs schema false.

Section Workers.
Context {S : Type} `{MorselPipeline S} (factory : Z → Z → go S) (c : aggConf).

(** A worker's turn on the morsel [a, b): the loop over its batches. *)
Definition agg_work (fuel : nat) (j : Z * Z * (morselRunner S * aggState)) : go (morselRunner S * aggState) :=
  let '(a, b, (runner, ha)) := j in
  '(op, runner) ← m_open factory runner a b;
  let '(r, ha, op) := drain (accumulate c) fuel fuel op ha in
  _ ← r;
  Ret (m_release runner op, ha).
(** The turn as one step: workers share nothing but the queue. *)
Definition agg_task (j : Z * Z * (morselRunner S * aggState)) (sh sh' : ())
    (r : Z * Z * (morselRunner S * aggState) + go (morselRunner S * aggState)) : Prop :=
  ∃ m res, r = inr res ∧ ∀ fuel, (m ≤ fuel)%nat → agg_work fuel j = res.
(** Before a worker sends its state. *)
Definition agg_finish (l : morselRunner S * aggState) : go (morselRunner S * aggState) :=
  let '(runner, ha) := l in
  ha ← (if enabled (intKey ha) && bool_decide (0 < length (intKeys (intKey ha)))%nat
        then materializeToStringMaps c ha else Ret ha);
  Ret (runner, ha).

(** [runMorselAggWorkers], as its possible results, one for each interleaving: the
    states the workers sent, or the first error received.  A failure cancels no
    other worker. *)
Definition runMorselAggWorkers (totalRGs : Z) (numWorkers : nat) (morselSize : Z) (r : go (list aggState)) : Prop :=
  ∃ cf, rtc (pool_step morselSize (λ a b l, (a, b, l)) agg_task agg_finish false)
      (start numWorkers (newRunner, initMaps) () totalRGs) cf ∧
    final cf ∧
    r = (ls ← collect (sent cf).*2; Ret ls.*2).
(** [setup], which has its own copy of the worker loop: the merged state, and
    whether the row of an aggregate over nothing is due. *)
Definition noGroups (s : aggState) : bool := bool_decide (length (keys s) = 0%nat ∧ length (groupBy c) = 0%nat).
Definition setup (totalRGs : Z) (numWorkers : nat) (morselSize : Z) (r : go (aggState * bool)) : Prop :=
  if decide (totalRGs = 0) then r = Ret (initMaps, bool_decide (length (groupBy c) = 0%nat)) else
  ∃ results, runMorselAggWorkers totalRGs numWorkers morselSize results ∧
    r = (hs ← results; merged ← mergeAll c hs; Ret (merged, noGroups merged)).
End Workers.

(** ** The operator *)

(** The nil child of an aggregate that never pulls. *)
Inductive NoChild : Type := noChild.
#[export] Instance noChild_operator : Operator NoChild := { Next _ s := (Panic, s); OpSchema _ := [] }.
(** [pa_setup] is what [setup] returns in this run. *)
Record ParallelHashAggregate : Type := mkParallelAgg {
  pa_conf : aggConf; pa_setup : go (aggState * bool);
  delegate : option (HashAggregate NoChild); emptyGlobalPending : bool
}.
(** One operator for each way the workers may interleave. *)
Definition NewParallelHashAggregate {S} `{MorselPipeline S} (factory : Z → Z → go S) (totalRGs numWorkers morselSize : Z)
    (groupBy : list Z) (aggExprs : list AggExpr) (schema : Schema) (p : ParallelHashAggregate) : Prop :=
  let numWorkers := if decide (totalRGs < numWorkers ∧ 0 < totalRGs) then totalRGs else numWorkers in
  let numWorkers := if decide (numWorkers < 1) then 1 else numWorkers in
  let morselSize := if decide (morselSize < 1) then defaultMorselSize else morselSize in
  let c := partialConf groupBy aggExprs schema in
  ∃ r, setup factory c totalRGs (Z.to_nat numWorkers) morselSize r ∧ p = mkParallelAgg c r None false.

Definition pa_next (fuel : nat) (p : ParallelHashAggregate) : go (option Batch) * ParallelHashAggregate :=
  let '(r, p) := match delegate p with
    | Some h => (Ret h, p)
    | None =>
        match pa_setup p with
        | Ret (merged, pending) =>
            let h := mkHashAggregate noChild (pa_conf p) merged true 0 in
            (Ret h, mkParallelAgg (pa_conf p) (pa_setup p) (Some h) pending)
        | Err e => (Err e, p)
        | Panic => (Panic, p)
        | OutOfFuel => (OutOfFuel, p)
        end
    end in
  on_ret r p (λ h,
  if emptyGlobalPending p then
    let p := mkParallelAgg (pa_conf p) (pa_setup p) (delegate p) false in
    on_ret (buildEmptyGlobalResult (Aggregate.conf h)) p (λ b, (Ret (Some b), p))
  else
    let '(r, h) := Next fuel h in
    (r, mkParallelAgg (pa_conf p) (pa_setup p) (Some h) false)).
#[export] Instance parallel_agg_operator : Operator ParallelHashAggregate := {
  Next := pa_next;
  OpSchema p := ha_schema (pa_conf p)
}.

(** ** What a pipeline under an aggregate promises *)

Definition agg_morsel (tys : list DataType) (D : Z) (U : list string) (gs : list Z) (rows : Z → Z → list cells) (Bad : error → Prop)
    (a b : Z) (bs : list Batch) (o : option error) : Prop :=
  morsel_rows tys D rows Bad a b bs o ∧ Forall (gb_dicts gs U) bs ∧ Forall row_fits (all_rows bs).

Section Facts.
Context {S : Type} `{MorselPipeline S, RowCountBound S} (tys : list DataType) (D : Z) (U : list string) (c : aggConf).
Context (factory : Z → Z → go S) (Good : S → Prop) (valid : Z → Z → Prop) (rows : Z → Z → list cells) (Bad : error → Prop).
Context (Hsrc : source_ok factory Good valid (agg_morsel tys D U (groupBy c) rows Bad) Bad).
Context (Hc : AggSpec.conf_ok tys c) (Hd : hasDistinct c = false) (HU : Z.of_nat (length U) < 2 ^ 32).
Context (size total : Z) (Hsize : 0 < size).
Abbreviation N := (morsels size total).
Context (Hvalid : ∀ i, (i < N)%nat → valid (m_start size i) (m_stop size total i)).
Abbreviation morsel := (morsel_of rows size total).

(** A worker that has finished the morsels [mine]. *)
Definition agg_loc (mine : list nat) (l : morselRunner S * aggState) : Prop :=
  runner_ok Good l.1 ∧ ∃ bs, Forall (input_ok tys D c U) bs ∧ foldM (accumulate c) initMaps bs = Ret l.2 ∧
    r_cells <$> all_rows bs = concat (morsel <$> mine).
Definition agg_fin (mine : list nat) (l : morselRunner S * aggState) : Prop :=
  ∃ ks, consumed tys c (concat (morsel <$> mine)) l.2 ks.
Definition agg_own (i : nat) (s : @status (Z * Z * (morselRunner S * aggState))) (sh : ()) : Prop :=
  match s with
  | Doing mine (a, b, l) => a = m_start size i ∧ b = m_stop size total i ∧ agg_loc mine l
  | _ => True
  end.
Lemma all_rows_app bs bs' : all_rows (bs ++ bs') = all_rows bs ++ all_rows bs'.
Proof using. clear. unfold all_rows. by rewrite fmap_app, concat_app. Qed.
Lemma agg_turn i mine j :
  (i < N)%nat → agg_own i (Doing mine j) () →
  ∃ m res, (∀ fuel, (m ≤ fuel)%nat → agg_work factory c fuel j = res) ∧
    match res with Ret l => agg_loc (mine ++ [i]) l | Err e => Bad e | _ => False end.
Proof using Hsrc Hc HU Hvalid.
  intros Hi Ho. destruct j as [[a b] [runner ha]]. destruct Ho as (-> & -> & Hrun & bs0 & Hin0 & Hacc & Hrows). cbn [fst snd] in *. unfold agg_work.
  destruct (m_open_spec factory Good valid _ Bad runner _ _ Hsrc (Hvalid i Hi) Hrun)
    as [(s & m' & bs & o & s' & -> & _ & Hr & ([Hwf Hout] & Hdict & Hfit) & Hok)|(e & -> & He)]; [|by exists 0%nat, (Err e)].
  cbn [mbind go_bind].
  assert (Hin : Forall (input_ok tys D c U) (bs0 ++ bs)) by (apply Forall_app; split; [done|by apply inputs_ok]).
  destruct (consumes tys D c U Hc HU (bs0 ++ bs) Hin) as (s2 & Efold & _). pose proof Efold as Efold'.
  rewrite foldM_app, Hacc in Efold'. cbn [mbind go_bind] in Efold'.
  destruct (drain_to _ _ _ _ _ _ _ Hr Efold') as (m & Hdr). destruct o as [e|].
  - exists m, (Err e). split; [|by destruct Hout]. intros fuel Hf. by rewrite Hdr.
  - exists m, (Ret (m_release m' s', s2)). split; [intros fuel Hf; by rewrite Hdr|]. split; [done|]. exists (bs0 ++ bs).
    split; [done|]. split; [done|]. rewrite all_rows_app, !fmap_app, concat_app, Hrows, Hout. cbn. by rewrite app_nil_r.
Qed.
Lemma agg_work_spec :
  work_spec size total (λ a b l, (a, b, l)) (agg_task factory c) (agg_finish c) (newRunner, initMaps) ()
    agg_own agg_loc agg_fin Bad.
Proof using Hsrc Hc HU Hvalid.
  split; try done.
  - split; [done|]. by exists [].
  - intros i mine j [] [] r Hi Ho (m & res & -> & Hw). destruct (agg_turn i mine j Hi Ho) as (m' & res' & Hw' & Hpost).
    pose proof (Hw (m `max` m')%nat ltac:(lia)) as E. rewrite Hw' in E by lia. subst res'. by destruct res.
  - intros i mine j [] Hi Ho. destruct (agg_turn i mine j Hi Ho) as (m & res & Hw & _). exists (), (inr res), m, res. done.
  - intros mine [runner ha] (_ & bs & Hin & Hacc & Hrows). cbn [fst snd] in *.
    destruct (consumes tys D c U Hc HU bs Hin) as (s & Efold & s' & ks & Eend & Hcons). rewrite Hacc in Efold. injection Efold as <-.
    exists (runner, s'). unfold agg_finish. unfold endOfInput in Eend. rewrite Eend. cbn [mbind go_bind]. split; [done|].
    exists ks. by rewrite Hrows in Hcons.
  - exists (λ _, 0%nat). intros j sh sh' j' (m & res & E & _). done.
Qed.

(** What the workers can return: an error of a morsel, or parts that together are
    the rows of all morsels. *)
Definition all_morsels : list cells := concat (morsel <$> seq 0 N).
Definition workers_ok (n : nat) (sts : list aggState) : Prop :=
  ∃ L, Forall2 (λ p s, consumed tys c p.1 s p.2) L sts ∧ (length L ≤ n)%nat ∧ concat L.*1 ≡ₚ all_morsels.
Definition setup_ok (n : nat) (r : go (aggState * bool)) : Prop :=
  ∃ L sts s ks, Forall2 (λ p s, consumed tys c p.1 s p.2) L sts ∧ merged tys c L s ks ∧ (length L ≤ n)%nat ∧
    concat L.*1 ≡ₚ all_morsels ∧ r = Ret (s, noGroups c s).
Lemma merged_init : merged tys c [] initMaps [].
Proof using Hc Hd.
  destruct (mergeAll_spec tys c Hc Hd [] []) as (s & ks & E & Hm); [done|]. injection E as <-.
  pose proof (mg_keys _ _ _ _ _ Hm) as Ek. cbn in Ek. symmetry in Ek. apply fmap_nil_inv in Ek. by subst ks.
Qed.
Lemma fin_parts mss ls :
  Forall2 agg_fin mss ls → ∃ L, Forall2 (λ (p : list cells * list cells) s, consumed tys c p.1 s p.2) L ls.*2 ∧ L.*1 = (λ ms, concat (morsel <$> ms)) <$> mss.
Proof using.
  clear. induction 1 as [|ms l mss ls (ks & Hks) _ (L & HL & E)]; [by exists []|].
  exists ((concat (morsel <$> ms), ks) :: L). split; [by constructor|]. cbn. by rewrite E.
Qed.
Lemma concat_morsels (mss : list (list nat)) : concat ((λ ms, concat (morsel <$> ms)) <$> mss) = concat (morsel <$> concat mss).
Proof using. clear. induction mss as [|ms mss IH]; [done|]. cbn [fmap list_fmap concat]. by rewrite fmap_app, concat_app, <- IH. Qed.
Lemma concat_fmap_perm (ms ms' : list nat) : ms ≡ₚ ms' → concat (morsel <$> ms) ≡ₚ concat (morsel <$> ms').
Proof using.
  clear. induction 1 as [|x l l' _ IH|x y l|l1 l2 l3 _ IH1 _ IH2]; cbn [fmap list_fmap concat]; [done|by rewrite IH| |by rewrite IH1].
  rewrite !app_assoc. by rewrite (Permutation_app_comm (morsel y)).
Qed.
Lemma workers_spec n :
  0 ≤ total → (0 < n)%nat → total + (Z.of_nat n + 2) * size < 2 ^ 63 →
  (∃ r, runMorselAggWorkers factory c total n size r) ∧
  ∀ r, runMorselAggWorkers factory c total n size r → (∃ e, r = Err e ∧ Bad e) ∨ ∃ sts, r = Ret sts ∧ workers_ok n sts.
Proof using Hsrc Hc HU Hsize Hvalid.
  intros Ht Hn Hroom. unfold runMorselAggWorkers.
  destruct (pool_runs size total _ _ _ false n _ _ _ _ _ _ agg_work_spec Hsize Ht Hn Hroom) as (_ & (cf & Hcf & Hf) & _ & Hout).
  split; [by eexists _, cf|]. intros r (cf' & Hcf' & Hf' & ->). destruct (Hout cf' Hcf' Hf') as (Hlen & [(ls & E & Hls & Hp & _)|(e & E & He)]).
  - right. exists ls.*2. rewrite E. split; [done|]. destruct (fin_parts _ _ Hls) as (L & HL & EL). exists L. split; [done|]. split.
    { apply (f_equal length) in EL. rewrite !length_fmap in EL. lia. }
    rewrite EL, concat_morsels. unfold all_morsels. by apply concat_fmap_perm.
  - left. exists e. by rewrite E.
Qed.
Lemma setup_spec n :
  0 ≤ total → (0 < n)%nat → total + (Z.of_nat n + 2) * size < 2 ^ 63 →
  (∃ r, setup factory c total n size r) ∧
  ∀ r, setup factory c total n size r → (∃ e, r = Err e ∧ Bad e) ∨ setup_ok n r.
Proof using Hsrc Hc Hd HU Hsize Hvalid.
  intros Ht Hn Hroom. destruct (workers_spec n Ht Hn Hroom) as [[r0 Hr0] Hall]. unfold setup. destruct (decide (total = 0)) as [E0|E0].
  - split; [by eexists|]. intros r ->. right. exists [], [], initMaps, []. split; [done|]. split; [apply merged_init|].
    split; [cbn; lia|]. split.
    + unfold all_morsels. assert (EN : N = 0%nat); [|by rewrite EN]. destruct N eqn:EN; [done|].
      assert (Hlt : (0 < N)%nat) by lia. apply morsels_lt in Hlt; unfold m_start in *; lia.
    + do 2 f_equal. apply bool_decide_ext. cbn. naive_solver.
  - split; [by eexists _, r0|]. intros r (r' & Hr' & ->). destruct (Hall r' Hr') as [(e & -> & He)|(sts & -> & L & HL & Hn' & Hp)].
    + left. by exists e.
    + right. destruct (mergeAll_spec tys c Hc Hd L sts HL) as (s & ks & Em & Hm). exists L, sts, s, ks.
      do 4 (split; [done|]). by rewrite go_bind_ret_l, Em.
Qed.
End Facts.

(** ** What it emits *)

Section Emits.
Context (tys : list DataType) (c : aggConf) (gs : list Z) (aggs : list AggExpr) (W : Z).
Context (Hc : AggSpec.conf_ok tys c) (Hd : hasDistinct c = false) (Hg : groupBy c = gs) (Ha : aggExprs c = resolved tys <$> aggs).
Context (Hs : Type_ <$> ha_schema c = AggRun.out_types tys c) (Hreal : Forall real_type tys) (Hne : gs ≠ [] ∨ aggs ≠ []).

Lemma ready_runs setup s ks L sts pending :
  Forall2 (λ p s, consumed tys c p.1 s p.2) L sts → merged tys c L s ks →
  Forall (row_ok tys) (concat L.*1) → Z.of_nat (length (concat L.*1)) < 2 ^ 63 →
  (∀ j, Emit.weight (col_at j (agg_result tys gs aggs (concat L.*1))) ≤ W) → W < 2 ^ 32 →
  pending = bool_decide (length (keys s) = 0%nat ∧ length (groupBy c) = 0%nat) → setup = Ret (s, pending) →
  let parts := held L in
  ∃ out, runs (mkParallelAgg c setup None false) out None ∧ Forall (batch_wf (AggRun.out_types tys c) W) out ∧ Forall whole out ∧
    r_cells <$> all_rows out ≡ₚ parts_result tys gs aggs parts.
Proof using All.
  intros HL Hm Hrows Hlen Hw HW Hpe Hset parts.
  assert (Hot : AggRun.out_types tys c ≠ []).
  { unfold AggRun.out_types, gb_types. rewrite Hg, Ha. by destruct Hne, gs, aggs. }
  rewrite <- (concat_held tys c L sts HL) in Hrows, Hlen. fold parts in Hrows, Hlen.
  assert (Hwp : ∀ j, Emit.weight (col_at j (parts_result tys gs aggs parts)) ≤ W).
  { intros j. rewrite (parts_result_weight tys gs aggs parts (concat L.*1)); [done|]. unfold parts. by rewrite (concat_held tys c L sts HL). }
  pose proof (Hwp 0%nat) as HW0. pose proof (weight_ge0 (col_at 0 (parts_result tys gs aggs parts))).
  pose proof (merged_keys tys c L sts HL s ks Hm) as Hks. fold parts in Hks.
  (* the stream of the delegate, once it is there *)
  assert (Hrun : ∀ (h : HashAggregate NoChild) out, runs h out None → ∀ p, pa_conf p = c → delegate p = Some h → emptyGlobalPending p = false → runs p out None).
  { intros h out Hr. remember None as o eqn:Eo. induction Hr as [h h' [m Hn]|h h' e Hn|h b h' bs o [m Hn] _ IH]; intros p Ep Ed Epe; [| done|].
    - eapply runs_end. exists m. intros fuel Hf. cbn [Next parallel_agg_operator]. unfold pa_next. rewrite Ed. cbn [on_ret]. rewrite Epe. by rewrite Hn.
    - eapply runs_batch; [exists m; intros fuel Hf; cbn [Next parallel_agg_operator]; unfold pa_next; rewrite Ed; cbn [on_ret]; rewrite Epe; by rewrite Hn|].
      by apply IH. }
  set (h0 := mkHashAggregate noChild c s true 0). set (p1 := mkParallelAgg c setup (Some h0) pending).
  assert (Hfirst : ∀ out, runs p1 out None → runs (mkParallelAgg c setup None false) out None).
  { intros out. apply runs_retry. exists 0%nat. intros fuel _. unfold p1. cbn [Next parallel_agg_operator]. unfold pa_next. cbn [delegate pa_setup pa_conf]. by rewrite Hset. }
  destruct (decide (length (keys s) = 0%nat ∧ length (groupBy c) = 0%nat)) as [[Hk0 Hg0]|Hsome].
  - assert (Hgb : groupBy c = []) by by destruct (groupBy c). assert (Eks : ks = []).
    { rewrite (mg_keys _ _ _ _ _ Hm), length_fmap in Hk0. by destruct ks. }
    assert (Eparts : parts = []).
    { rewrite Eks, decide_True in Hks by done. case_decide as Ep; [done|]. by apply Permutation_length in Hks. }
    destruct (empty_result tys c Hc Hreal Hgb Hs) as (vecs & E & Hcols).
    destruct (columns_batch (ha_schema c) (AggRun.out_types tys c) 0 _ vecs Hcols Hot) as (Hwf & Hwh & Hrs); [|vm_compute; lia|done|].
    { constructor; [|done]. unfold AggRun.out_types, gb_types. by rewrite length_app, !length_fmap, Hgb. }
    exists [mkBatch (ha_schema c) vecs 1 None]. split; [|split; [|split; [by constructor|]]].
    + apply Hfirst. eapply runs_batch.
      * exists 0%nat. intros fuel _. cbn [Next parallel_agg_operator]. unfold pa_next. cbn [delegate p1 on_ret emptyGlobalPending].
        rewrite Hpe, bool_decide_eq_true_2 by done. cbn [Aggregate.conf h0]. rewrite E. done.
      * apply (Hrun h0); [|done..]. eapply runs_end. exists 0%nat. intros fuel _. cbn [Next agg_operator]. unfold agg_next. cbn [ha_done h0].
        unfold agg_emit. cbn [state outPos h0]. by rewrite decide_True by lia.
    + constructor; [|done]. apply (batch_wf_mono _ 0 W); [lia|done].
    + rewrite all_rows_one. cbn [length] in Hrs. rewrite Hrs, Eparts. unfold parts_result. rewrite decide_True by congruence.
      rewrite Ha, <- list_fmap_compose. unfold parts_row, parts_of. cbn [fmap list_fmap app]. rewrite decide_True by congruence.
      apply reflexive_eq. f_equal. apply list_fmap_ext. intros j ae _. unfold compose, parts_value, agg_value. cbn.
      destruct (Kind ae); try done. by destruct (src_type tys ae).
  - pose proof (merged_groups tys c Hc Hd L sts HL s ks gs aggs Hm Hg Ha Hrows Hlen) as Hgr.
    assert (Hrow : ∀ k, k ∈ ks → state_row tys c k (merged_sts tys c k L) = parts_row tys gs aggs parts k).
    { intros k Hk. by destruct (merged_row tys c Hc Hd L sts HL s ks k gs aggs Hm Hk Hg Ha Hrows Hlen). }
    assert (Hall : (λ k, state_row tys c k (merged_sts tys c k L)) <$> ks = parts_row tys gs aggs parts <$> ks).
    { apply list_fmap_ext. intros i k Hk. apply Hrow. by eapply list_elem_of_lookup_2. }
    assert (Hperm : parts_row tys gs aggs parts <$> ks ≡ₚ parts_result tys gs aggs parts).
    { assert (Ek : gb_key c = group_key gs) by (by rewrite <- Hg). rewrite Ek, Hg in Hks. unfold parts_result. rewrite Hks.
      destruct (decide (gs = [])) as [Eg|Eg]; [|done].
      destruct (decide (parts = [])) as [Ep|Ep]; [|done]. exfalso. apply Hsome. rewrite Hg, Eg.
      apply Permutation_nil_r in Hks. by rewrite (mg_keys _ _ _ _ _ Hm), Hks. }
    destruct (agg_emits tys c s W noChild _ _ Hc Hreal ltac:(lia) Hs Hot ks (mg_keys _ _ _ _ _ Hm) Hgr) as (out & Hout & Hwf & Hwh & Hrs).
    { intros j. rewrite Hall, Hperm. apply Hwp. }
    exists out. split; [|split; [done|split; [done|]]]; [|by rewrite Hrs, Hall].
    apply Hfirst, (Hrun h0); [exact Hout|done..|]. cbn [emptyGlobalPending p1]. rewrite Hpe. by apply bool_decide_eq_false_2.
Qed.
End Emits.

(** The configuration of the serial operator, where nothing is DISTINCT. *)
Lemma partial_conf tys cs gs aggs :
  Type_ <$> cs = tys → Forall (gb_valid tys) gs → Forall (agg_valid tys) aggs → gs ≠ [] ∨ aggs ≠ [] →
  Forall (λ ae, Kind ae ≠ AggCountDistinct) aggs →
  let c := partialConf gs (resolved tys <$> aggs) (agg_schema cs gs aggs) in
  AggSpec.conf_ok tys c ∧ Type_ <$> ha_schema c = AggRun.out_types tys c.
Proof.
  intros Hs Hgs Haggs Hne Hnd c.
  assert (Hs' : Type_ <$> OpSchema (mkSegments cs [] []) = tys) by done.
  destruct (NewHashAggregate_spec tys gs aggs Hgs Haggs Hne (mkSegments cs [] []) Hs') as (c' & _ & Hg & Ha & Hc & Ht & Hsch).
  assert (E : c' = c); [|by subst c'].
  assert (Hd : hasDistinct c' = false).
  { destruct Hc as (_ & _ & ->). rewrite Ha. apply not_true_iff_false. intros (ae & Hin & Hk)%existsb_exists.
    apply list_elem_of_In, list_elem_of_fmap in Hin as (ae' & -> & Hin). apply bool_decide_eq_true in Hk. cbn in Hk.
    rewrite Forall_forall in Hnd. by apply (Hnd ae' Hin). }
  destruct c'. cbn in *. by subst.
Qed.

Section Main.
Context {S : Type} `{MorselPipeline S, RowCountBound S} (tys : list DataType) (D W : Z) (U : list string) (cs : Schema).
Context (factory : Z → Z → go S) (Good : S → Prop) (valid : Z → Z → Prop) (rows : Z → Z → list cells) (Bad : error → Prop).
Context (gs : list Z) (aggs : list AggExpr) (total numWorkers morselSize : Z).
Abbreviation size := (size_of morselSize).
Abbreviation rs := (side_rows rows total morselSize).
Abbreviation new := (NewParallelHashAggregate factory total numWorkers morselSize gs (resolved tys <$> aggs) (agg_schema cs gs aggs)).

(** What an operator of this kind delivers: the error of a morsel, or one row for
    each key, of parts of the rows. *)
Definition parallel_emits (p : ParallelHashAggregate) : Prop :=
  (∃ e, runs p [] (Some e) ∧ Bad e) ∨
  ∃ parts out, concat parts ≡ₚ rs ∧ Z.of_nat (length parts) ≤ Z.max 1 numWorkers ∧
    runs p out None ∧ Forall (batch_wf (Type_ <$> OpSchema p) W) out ∧ Forall whole out ∧
    r_cells <$> all_rows out ≡ₚ parts_result tys gs aggs parts ∧
    (Forall (order_free tys) aggs → r_cells <$> all_rows out ≡ₚ agg_result tys gs aggs rs).

Lemma parallel_agg_emits :
  source_ok factory Good valid (agg_morsel tys D U gs rows Bad) Bad → Type_ <$> cs = tys → Forall real_type tys →
  Forall (gb_valid tys) gs → Forall (agg_valid tys) aggs → gs ≠ [] ∨ aggs ≠ [] →
  Forall (λ ae, Kind ae ≠ AggCountDistinct) aggs → Z.of_nat (length U) < 2 ^ 32 → 0 ≤ total →
  (∀ i, (i < morsels size total)%nat → valid (m_start size i) (m_stop size total i)) →
  total + (Z.max 1 numWorkers + 2) * size < 2 ^ 63 →
  Forall (row_ok tys) rs → Z.of_nat (length rs) < 2 ^ 63 →
  (∀ j, Emit.weight (col_at j (agg_result tys gs aggs rs)) ≤ W) → W < 2 ^ 32 →
  (∃ p, new p) ∧ ∀ p, new p → OpSchema p = agg_schema cs gs aggs ∧ parallel_emits p.
Proof.
  intros Hsrc Hs Hreal Hgs Haggs Hne Hnd HU Ht Hv Hroom Hrows Hlen Hw HW.
  destruct (partial_conf tys cs gs aggs Hs Hgs Haggs Hne Hnd) as [Hc Hsch]. set (c := partialConf _ _ _) in *.
  assert (Hsize : 0 < size) by apply size_pos.
  unfold NewParallelHashAggregate. fold c. change (if decide (morselSize < 1) then defaultMorselSize else morselSize) with size.
  set (w := if decide (_ < 1) then _ else _).
  assert (Hw1 : 1 ≤ w ≤ Z.max 1 numWorkers) by (unfold w; repeat case_decide; lia).
  assert (Hroom' : total + (Z.of_nat (Z.to_nat w) + 2) * size < 2 ^ 63).
  { eapply Z.le_lt_trans; [|exact Hroom]. apply Zplus_le_compat_l, Zmult_le_compat_r; lia. }
  destruct (setup_spec tys D U c factory Good valid rows Bad Hsrc Hc eq_refl HU size total Hsize Hv (Z.to_nat w) Ht ltac:(lia) Hroom') as [[r Hr] Hall].
  split; [by eexists _, r|]. intros p (r' & Hr' & ->). split; [done|].
  destruct (Hall r' Hr') as [(e & -> & He)|(L & sts & s & ks & HL & Hm & Hn & Hp & Er)]; [left|right].
  { exists e. split; [|done]. eapply runs_error. exists 0%nat. intros fuel _. done. }
  change (all_morsels rows size total) with rs in Hp.
  assert (Hwp : ∀ j, Emit.weight (col_at j (agg_result tys gs aggs (concat L.*1))) ≤ W).
  { intros j. rewrite <- (parts_result_weight tys gs aggs [rs]) by (cbn; by rewrite app_nil_r).
    rewrite (parts_result_weight tys gs aggs [rs] rs) by (cbn; by rewrite app_nil_r). apply Hw. }
  destruct (ready_runs tys c gs aggs W Hc eq_refl eq_refl eq_refl Hsch Hreal Hne r' s ks L sts (bool_decide (length (keys s) = 0%nat ∧ length (groupBy c) = 0%nat)) HL Hm) as (out & Hout & Hwf & Hwh & Hres);
    [by rewrite Hp|by rewrite Hp|exact Hwp|done|reflexivity|exact Er|].
  assert (Hcp : concat (held L) ≡ₚ rs) by (by rewrite (concat_held tys c L sts HL)).
  exists (held L), out. split; [done|]. split.
  { unfold held. rewrite length_fmap. pose proof (length_filter (λ p : list cells * list cells, p.2 ≠ []) L). lia. }
  split; [done|]. split; [by cbn [OpSchema parallel_agg_operator pa_conf]; rewrite Hsch|]. split; [done|]. split; [done|].
  intros Ho. rewrite Hres. by apply parts_result_exact.
Qed.

(** C31: The parallel aggregate is the serial one.  Let a factory of pipelines
    promise the rows of each range of row groups, and no aggregate be DISTINCT.
    Whatever the number of workers and the morsel size, and however the workers
    interleave: the operator has an execution, and every execution either reports
    the error of a morsel and emits nothing, or emits one row for each GROUP BY key
    of all rows (one row in all without GROUP BY, also over no rows), with the
    values merged from at most as many parts as there are workers.  COUNT, integer
    SUM, and MIN and MAX of anything but floats are exactly those of the serial
    HashAggregate ([AggRun.agg_rows]); a float SUM or AVG adds up the sums of the
    parts. *)
Theorem parallel_agg_rows :
  source_ok factory Good valid (agg_morsel tys D U gs rows Bad) Bad → Type_ <$> cs = tys → Forall real_type tys →
  Forall (gb_valid tys) gs → Forall (agg_valid tys) aggs → gs ≠ [] ∨ aggs ≠ [] →
  Forall (λ ae, Kind ae ≠ AggCountDistinct) aggs → Z.of_nat (length U) < 2 ^ 32 → 0 ≤ total →
  (∀ i, (i < morsels size total)%nat → valid (m_start size i) (m_stop size total i)) →
  total + (Z.max 1 numWorkers + 2) * size < 2 ^ 63 →
  Forall (row_ok tys) rs → Z.of_nat (length rs) < 2 ^ 63 →
  (∀ j, Emit.weight (col_at j (agg_result tys gs aggs rs)) ≤ W) → W < 2 ^ 32 →
  (∃ p, new p) ∧ ∀ p, new p → OpSchema p = agg_schema cs gs aggs ∧ parallel_emits p.
Proof. apply parallel_agg_emits. Qed.
End Main.

(** The batches of [agg_batches], each a row group of its own, taken by two
    workers. *)
Lemma segments_agg_source tys D U gs sch all :
  Forall (batch_wf tys D) all → Forall (gb_dicts gs U) all → Forall row_fits (all_rows all) →
  source_ok (λ a b, Ret (mkSegments sch all (segment all a b))) (λ s, sg_all s = all ∧ sg_schema s = sch) (λ _ _, True)
    (agg_morsel tys D U gs (λ a b, r_cells <$> all_rows (segment all a b)) (λ _, False)) (λ _, False).
Proof.
  intros Hall Hdict Hfit. assert (Hd : ∀ a b, delivers (λ s, sg_all s = all ∧ sg_schema s = sch)
    (agg_morsel tys D U gs (λ a b, r_cells <$> all_rows (segment all a b)) (λ _, False)) (mkSegments sch all (segment all a b)) a b).
  { intros a b. split; [done|]. eexists _, None, _. split; [apply runs_segments|]. split; [|done]. split; [|split].
    - split; [|done]. by apply Forall_take, Forall_drop.
    - by apply Forall_take, Forall_drop.
    - unfold segment, all_rows in *. rewrite fmap_take, fmap_drop. rewrite Forall_concat in *. by apply Forall_take, Forall_drop. }
  split; [intros a b _; left; by eexists|]. intros [sch' all' rest] a b _ [E1 E2] _. cbn in E1, E2. subst. split; [apply Hd|done].
Qed.
Definition par_schema : Schema := [mkField "k" TypeString EncDict true; mkField "x" TypeInt64 EncPlain true].
Lemma parallel_agg_rows_witness :
  let factory a b := Ret (mkSegments par_schema agg_batches (segment agg_batches a b)) in
  let new := NewParallelHashAggregate factory 2 2 0 [0] (resolved [TypeString; TypeInt64] <$> agg_exprs)
    (agg_schema par_schema [0] agg_exprs) in
  (∃ p, new p) ∧ ∀ p, new p →
    OpSchema p = agg_schema par_schema [0] agg_exprs ∧
    ∃ out, runs p out None ∧ r_cells <$> all_rows out ≡ₚ agg_exprs_result.
Proof.
  intros factory new.
  destruct (parallel_agg_rows (S := Segments) [TypeString; TypeInt64] 4 6 ["a"; "b"; "c"]%string par_schema factory
    (λ s, sg_all s = agg_batches ∧ sg_schema s = par_schema) (λ _ _, True) (λ a b, r_cells <$> all_rows (segment agg_batches a b)) (λ _, False)
    [0] agg_exprs 2 2 0) as [Hex Hall].
  - apply segments_agg_source; [apply agg_batches_wf|apply agg_batches_dicts|]. repeat constructor; vm_compute; done.
  - reflexivity.
  - repeat constructor.
  - repeat constructor; vm_compute; done.
  - constructor; [left; split; [done|split; [done|by left]]|].
    constructor; [|constructor; [|constructor]]; right; (split; [done|]); exists TypeInt64; (split; [done|]); (split; [by left|done]).
  - by left.
  - repeat constructor; done.
  - done.
  - done.
  - done.
  - vm_compute. reflexivity.
  - change (Forall (row_ok [TypeString; TypeInt64]) (r_cells <$> all_rows agg_batches)). apply (rows_row_ok _ 4); [apply agg_batches_wf|].
    repeat constructor; vm_compute; done.
  - done.
  - intros [|[|[|[|[|j]]]]]; vm_compute; done.
  - done.
  - split; [exact Hex|]. intros p Hp. destruct (Hall p Hp) as [Es [(e & _ & [])|(parts & out & _ & _ & Hr & _ & _ & _ & Hx)]].
    split; [exact Es|]. exists out. split; [exact Hr|]. rewrite Hx; [vm_compute; reflexivity|].
    repeat constructor; vm_compute; done.
Defined.
